(* ===== verification/_CoqProject ===== *)
-Q . S2P
Prelude.v
JsData.v
Json.v
ErrorCodes.v
Connection.v
WireFormats.v
ClaimTarget.v
ClaimSession.v
Positions.v
Batching.v
Subscriptions.v
MutationQueue.v
Views.v
InstanceCache.v
CacheFacts.v
CacheViews.v
CacheRuns.v
Confirmation.v
MutationFailure.v
QueueMachine.v
QueueInvariant.v
QueueRuns.v
CommitLane.v
DeltaStore.v
DeltaStoreFacts.v
ModelRow.v
DeltaPool.v
DeltaRuns.v
DeltaFrames.v
DeltaPipeline.v
GroupChange.v
DeltaPipelineFacts.v
DeltaAcks.v
DeltaJoint.v
PipelineRuns.v
UndoApply.v
UndoScope.v
UndoHistory.v
UndoTimeline.v
UndoReplay.v
UndoRuns.v
OpContract.v
OpHistory.v
OpSession.v
OpContext.v
OpProtocol.v
OpField.v
OpFieldFacts.v
OpFieldLive.v
OpText.v
OpCounter.v
OpExamples.v
JsonText.v
SourceModel.v
SourceFacts.v
SchemaJson.v
SourceSubjects.v
SourceSigning.v
SourceHandler.v
PushQueue.v
WsFrames.v
WsTransport.v
WsTransportFacts.v
WsLifecycle.v
WsRecovery.v
WsRuns.v
SchemaDiff.v
SchemaDiffFacts.v
SchemaRisk.v
Ddl.v
DdlFacts.v
SchemaRuns.v
Backfill.v
Deployment.v
DeploymentChecks.v
DeploymentPlan.v
DeploymentFacts.v
DeploymentRuns.v
