(* ===== verification/Prelude.v ===== *)
(** * A verification library for the Ablo client engine

    The repository is a collaborative state engine: a client applies edits
    optimistically, an authority orders them into a log, claims give one
    participant the right to write a row, and a sync connection carries the log
    back; beside it, schemas are diffed, migrated and deployed. This library models the
    decision logic of that engine, in the packages [transaction] (the confirmation
    core) and [humans] (the local engine), and proves what makes each part correct.
    Paths below are under [src/packages].

    ** How the parts interact

    An edit to an operational field (a counter, a text) lives in a session
    ([OpSession]): the session applies it at once, seals one edit at a time and
    rebases the rest when the log delivers somebody else's. The authority decides
    by [reconcileOperation] ([OpHistory]); [OpProtocol] puts one session and one
    authority together and quantifies over their interleavings. [OpField] puts the session
    behind its transport and its store: it saves, refreshes, flushes and retries. A counter
    ([OpCounter]) and a text ([OpText]) are the domains. Model writes that
    are not operations enter the mutation queue ([QueueMachine]): they are stored
    ([MutationQueue]), journaled, staged, put into batches, retried or given up
    ([MutationFailure]) and wait for the delta that confirms them ([Confirmation]);
    atomic commits take a lane of their own ([CommitLane]), and a stateless client
    coalesces its writes ([Batching]). The connection that carries them is the state
    machine of [Connection], which reads every failure through the error taxonomy of
    [ErrorCodes]. The rows the log brings live in the instance cache
    ([InstanceCache]), which keeps one instance of each and tells the views ([Views])
    of every addition, update and removal. A surface that lets its user take a change
    back records each local mutation with its inverse and replays it through the same
    writes, leaving alone what others changed since ([UndoApply], [UndoScope]). The
    deltas of the log reach the local store and the cache through a pipeline
    ([DeltaPipeline]) that detaches them in batches, writes each to the store
    ([DeltaStore]), reveals it in slices ([DeltaFrames]) and acknowledges the cursor the
    store answered with; deltas that change access clear what was cached
    ([GroupChange]). What the connection listens to is
    decided by [Subscriptions]; how far the log has been received is kept by
    [Positions] and named on the wire by the cursors of [WireFormats]. A
    participant that wants a row to itself waits for a claim, keeps its lease
    alive and learns of its end through [ClaimSession]; [ClaimTarget] says what a
    claim covers and what evidence of it an operation may carry. Where the rows are a
    customer's, a signed endpoint ([SourceSigning], [SourceHandler]) stands before their
    database: it checks who may see a row by the subject it has
    ([SourceSubjects]) and commits through an adapter that applies each change set once and
    keeps its events until they are received ([SourceModel]); events the customer makes
    are pushed the other way by a queue that retries ([PushQueue]). The frames of all this
    travel over the WebSocket transport ([WsTransport]), which keeps one socket alive, binds
    it to a session, correlates what is asked over it with what is answered, and keeps the
    wait lines of claims.

    ** Files, and the code each one models

    - [Prelude]: numbers, thrown errors as values, the error monads, lemmas and
      tactics shared by the rest.
    - [ErrorCodes]: [transaction/src/errorCodes.ts] and the mapping functions of
      [errors.ts]. [ERROR_CODES] is the whole registry, entry by entry;
      [classifyRecovery], [errorFromWire] and [isSessionErrorResponse] are the
      functions of the same names.
    - [Connection]: [transaction/src/transport/connection/manager.ts] and
      [networkProbe.ts]. [manager] holds the fields of [ConnectionManager];
      [transition], [onEnterState], [send], [scheduleBackoff] and the [run...]
      functions are its methods, and [handle] dispatches the inputs that reach it
      from outside (events, timers, settled promises).
    - [WireFormats]: [transaction/src/observation/cursor.ts] and
      [utils/duration.ts].
    - [ClaimTarget]: [transaction/src/claims/targetConflict.ts], [locator.ts],
      [conflict.ts] and [admission.ts].
    - [ClaimSession]: [transaction/src/claims/lifetime.ts], [heartbeat.ts] and
      [awaitGrant.ts].
    - [Positions]: [humans/src/local/logPosition.ts], [rowWatermarks.ts] and
      [sync/syncCursor.ts].
    - [Batching]: [transaction/src/batching/index.ts].
    - [JsData]: the sorting, maps, sets and strings of the language.
    - [MutationQueue], [MutationFailure]: [commitPayload.ts], [MutationStore.ts],
      [executionQueue.ts], [failurePolicy.ts] and [failureHandling.ts] of
      [humans/src/local/transactions/mutations], as all of the next four.
    - [QueueMachine]: [MutationQueue.ts], [modelOperations.ts], [coalesceRules.ts],
      [processingScheduler.ts], [localMutation.ts] and [batchProcessing.ts] as one
      machine, whose inputs are writes, deletes, settled promises, timers and deltas.
      [QueueInvariant] has its invariant, [QueueRuns] its concrete runs.
    - [Confirmation]: [deltaConfirmation.ts] and [UnconfirmedWrites.ts].
    - [CommitLane]: [commitLane.ts], [commitApi.ts] and the lane of
      [MutationQueue.ts].
    - [Views]: [incrementalView.ts] and [QueryView.ts] of [humans/src/local/views].
    - [InstanceCache]: [humans/src/local/InstanceCache.ts], [ViewRegistry.ts] and the
      in-place assignment of [Model.ts]. [cache_step] dispatches its operations.
      [CacheFacts] has its invariant, [CacheViews] the views
      kept by it, [CacheRuns] its cap, the witnesses on strings and the runs that go wrong.
    - [Json]: JSON values and [deepEqual] of [transaction/src/utils/json.ts].
    - [UndoApply]: [undoApply.ts] and [inverseOp.ts] of [humans/src/local/mutators],
      [transactions/operations/undo.ts] and the helpers of [UndoManager.ts].
    - [UndoScope]: the class [UndoScope] of [mutators/UndoManager.ts], with the paths of
      [mutateActions.ts] a replay takes. [scope_step] dispatches its inputs: mutations,
      flushes, groups, calls of undo and redo, the awaits of a replay, and changes of the
      rows by others. [UndoHistory] has its invariant; [UndoTimeline] (edits and the rows
      they lead through), [UndoReplay] (one undisturbed replay) and [UndoRuns] (the
      refinement) its contract, the last with the witnesses and the runs that go wrong.
    - [DeltaStore]: [processDeltaBatch] of [humans/src/local/Database.ts], over memory
      stores ([process_in_memory]) and over IndexedDB transactions ([process_idb]), with
      its compaction and [sync/persistedPrefix.ts]. [DeltaStoreFacts] compares the two and
      has the cursor; [DeltaRuns] the batches that go wrong.
    - [ModelRow]: the change tracking of [humans/src/local/Model.ts],
      [transactions/operations/rowProjection.ts] and [resolveConflicts] of
      [SyncClient.ts].
    - [DeltaPool]: [projectDeltaBatchForPool] and [applyDeltaBatchToPoolInAction] of
      [SyncClient.ts]. [DeltaRuns] has its witness and the frames that go wrong.
    - [DeltaFrames]: [deduplicateDeltas] and [sliceApplyChanges] of
      [sync/deltaPipeline.ts].
    - [DeltaPipeline]: the rest of [sync/deltaPipeline.ts] with the queuing of
      [sync/bootstrapApply.ts] and [BaseSyncedStore.ts]. [pipe_step] dispatches its inputs:
      deltas and frames, the timer, the settled promises of a flush, clears and bootstraps.
      [DeltaPipelineFacts] has the conservation of deltas and progress, [DeltaAcks] what an
      acknowledgement means, [DeltaJoint] the pipeline over the store, [PipelineRuns] the witnesses and the runs that go wrong.
    - [GroupChange]: [sync/groupChange.ts].
    - [JsonText]: [canonicalJson] and the hashes of [transaction/src/schema/serialize.ts],
      which with the next ones is under [transaction/src/schema].
    - [SchemaJson]: the types of [serialize.ts], [tenancy.ts] and the names of [ddl.ts].
    - [SchemaDiff]: [diff.ts]. [SchemaDiffFacts] has the steps a plan has for each part of a
      schema, [SchemaRisk] says what its classification means.
    - [Ddl]: [ddl.ts]; a [statement] is what the plan contains and [render] its text.
      [DdlFacts] has the reader of quoted text and the announcement of destructive
      statements, [SchemaRuns] the witnesses and the plans that do not arrive.
    - [Backfill]: [deployment/backfill.ts]. A [turn] is what the effects do around one
      batch; [runs] is a job run again and again over its stored checkpoint.
    - [Deployment], [DeploymentChecks]: [deployment/reconcile.ts] and [audit.ts].
      [DeploymentRuns] says what the audit reports.
    - [DeploymentPlan]: [deployment/sequence.ts] and [deployment/index.ts].
      [DeploymentFacts] has what an unblocked plan has answered and the order of steps,
      [DeploymentRuns] what the lifecycle takes, with its witnesses.
    - [SourceModel]: [contract.ts], [adapter.ts], [idempotency.ts] and [memory.ts] of
      [transaction/src/source/adapters]. [DataSourceAdapter] is the interface, and
      [memory_adapter] the instance the conformance suite runs against. [SourceFacts] has
      its promises and the commit that is not undone.
    - [SourceSubjects]: the evaluation of roles in [schema/roles.ts], [schema/subject.ts],
      [scopeKindOf] of [schema/model.ts] and [subjectAuthorization.ts] of the adapters.
    - [SourceSigning], [SourceHandler]: [source/endpoint/signing.ts] and [factory.ts].
      [dataSource] is the handler; the code of a customer inside a transaction is a script
      ([tx_script]) that may call [run].
    - [PushQueue]: [source/delivery/pushQueue.ts]. [push_step] dispatches its inputs: calls,
      the clock, settled signatures and requests. Its
      invariant, a round that goes well, and dead letters that are delivered twice follow.
    - [WsFrames]: what [transaction/src/transport/websocket/transport.ts] puts into an upgrade
      and the backoff of a reconnect, [commitFrames.ts], the receipts of [commit/contract.ts],
      the subscription frames and the wait lines of [coordination/schema.ts].
    - [WsTransport]: [transport.ts], [frameHandlers.ts] and [heartbeat.ts] as one machine.
      [handle_input] dispatches its inputs: calls, events of the sockets, timers; [ws_step]
      adds the continuations of promises. [WsTransportFacts] has the invariant of its
      requests, [WsLifecycle] that of its sockets and the line of updates,
      [WsRecovery] outages and silence, [WsRuns] the wait lines, the witnesses and the runs
      that go wrong.
    - [Subscriptions]: [humans/src/local/sync/SubscriptionManager.ts].
    - [OpContract], [OpHistory], [OpSession], [OpContext]: the files
      [contract.ts], [history.ts], [session.ts], and [context.ts] with [model.ts],
      of [transaction/src/commit/operations]. A value domain is the class
      [OperationDomain]; the laws a domain may promise ([PlainDomain],
      [ClosedDomain], [TransformLaw], [InvertLaw]) are classes of their own, so every theorem names the promise it needs.
    - [OpProtocol]: the session and the authority together, as a step relation.
    - [OpField]: [OperationField] of [operations/resource.ts] with [contention.ts], which
      [resources.ts] builds for texts and counters. [field_step] dispatches its inputs:
      calls, invalidations of the row, settled reads, saves and commits, timers.
      [OpFieldFacts] has what is saved before it is sent, [OpFieldLive] a flush against an
      authority that answers, [OpExamples] the witnesses and a lost invalidation.
    - [OpText]: [commit/text/operations.ts], [contract.ts] and [domain.ts] over the library
      [ot-text-unicode], an instance of [InvertLaw] wherever the library does what it
      documents; [joined] is a normalization that does. Joining neighbours may make a component
      too long to be admitted, but not between two admitted texts ([fitting_admitted]). An operation
      the library transforms may have more components than the schema admits, so
      [ClosedDomain] is not claimed of it.
    - [OpCounter]: [commit/counter/index.ts], an instance of every law.
    - [OpExamples]: the theorems of the operation engine at a counter field.

    ** What the theorems show

    - Operation engine. Every interleaving of local edits, seals, acceptances and
      redeliveries keeps the client on a prefix of the journal, and the
      acknowledgement of its own edit always settles; reconciliation extends the
      journal, refuses replays and stale bases; calls that throw change nothing;
      undo and redo are inverse; exported state reopens; queued contexts rebase
      to the head and project to a real history; counters sum inside the safe
      range. A field buffer sends nothing it has not saved, and a flush at rest that is
      answered, with nobody else writing, empties its queue; a text edit is applied exactly when it fits its text, and undone by
      the inverse built for it.
    - Connection. A user is signed out at most once and only on evidence; an
      expired session is final; in a browser something is always armed or in
      flight; counters and delays are bounded; outside a browser the retry
      ceiling stalls.
    - Errors. Each code becomes the class and recovery its registry entry calls
      for; only a lost login ends a session.
    - Claims. Two claims collide exactly when they overlap; grant evidence stays on
      its row; a wait settles once, by the first deciding frame; beats never
      overlap; a lifetime ends once.
    - Mutation queue. A pending mutation is always in a place the queue serves, an
      executing one in the dispatch that will settle it; a promise is settled once; a
      batch keeps the order of every row; a mutation whose dispatches fail ends after
      bounded retries; a delta confirms exactly the writes that wait for it; commits go
      out in order and end once. Runs show what cancelling a member of a sealed batch
      and counting the executing mutations do.
    - Instance cache and views. Ids are unique and the indexes exact; the cap holds for
      single additions; the binary insertion keeps order; a view is the query it stands
      for, as long as rows are live and every change is notified before the next. Runs
      show frames of updates, full caches, scopes, clears and moved rows.
    - Undo. A replayed value merges into the current one leaf by leaf, without touching
      what a collaborator changed; an entry is in one place whatever fails; and for a user
      alone with the rows, undo and redo move along a timeline of states, under either
      conflict policy, as long as a tick writes each field once and the writes are
      confirmed; rows are compared by value, dates by their time. Runs show the ticks that are
      not taken back and what recording during a replay does.
    - Deltas. The two local stores do the same to a batch of distinct rows; a cursor covers
      only what was written, and over that store an acknowledgement covers only rows that
      are in it and were revealed; accepted deltas are conserved whatever fails; a flush
      ends, with an empty queue where the store and the pool do what they are asked and the
      deltas can be read, and in a run in which no drain fails waiting deltas have a timer;
      deduplication keeps the first delta of each id in order; slices cut no transaction; a
      delta of groups empties the pool, whatever else fails, exactly when it names a group
      that is taken away or cannot be read. A frame of distinct rows lands in
      the pool as its changes would one by one, and an accepted row meets the local changes
      field by field. Runs show two updates of a row in
      one batch, cursors that pass a failed batch, flushes nobody retries, revocations
      that clear nothing and frames the pool takes for less than they are.
    - Schemas and deployments. The warnings and blockers of a migration plan are exactly the
      losses and demands of the change; each SQL statement that drops, converts or
      constrains is announced by one or was asked for;
      quoted text reads back; an interrupted backfill skips no batch and ends; an
      unblocked plan has answered what the observation asks, or was told to accept it; steps conserve findings and
      stand in order; the lifecycle takes only ready steps; the audit of routing is
      exact. Runs show plans that miss columns, tables and indexes, and ready plans that
      do nothing.
    - Data sources. A consumer of a source receives each event once and in order, whatever
      is lost or acknowledged; a commit is applied once and its retries answered alike; a
      row goes to those who may read it; an authorized change set stays inside its
      subject, but for rows created without naming them, and writers lock rows to be created in one order; a signed request is taken
      and nothing runs for another; the push queue keeps every batch, posts it a bounded
      number of times and delivers what is due when it is answered. Runs show a failed
      commit that stays, a creation that replaces another subject's row, an adapter that
      answers any row, and a dead letter delivered twice.
    - WebSocket transport. A request is answered once, by its answer, its timer or the end of
      its socket; a connection is announced only after its session and its read interest are
      known on that socket, and then its heartbeat runs; acknowledgements answer updates in
      turn; an outage is retried with growing delays a bounded number of times; a silent
      socket is closed; a wait line is one the server had, and a hole closes the socket. Runs
      show answers that are lost or go to another, a connect that is dropped and a backoff
      that is none.
    - Batching, subscriptions, positions, wire formats: every promise settles
      once, caps hold, left groups stay subscribed through their window, pushes
      converge, positions are high water marks, cursors round-trip.

    ** Modelling conventions

    - Mutable objects are records passed through functions. Promises, timers,
      browser events and network answers are inputs of a step function: any
      order the event loop could produce is a list of inputs, restricted only by
      an [enabled] predicate that says what can fire.
    - A thrown error is [Throw] of its class and stable code. Message texts,
      logging, breadcrumbs and metrics are not modelled.
    - Integers that the code guards as safe integers are [Z] with the guard
      written out. Fractions (durations, jitter) are exact rationals or scaled
      integers; binary rounding of floats is not modelled.
    - Strings are byte strings. Length is counted in bytes where the code counts
      UTF-16 units, and lower case is ASCII lower case.
    - An object used as a map is an association list in the order of its keys; its
      prototype is not looked at.
    - Callbacks that call back into an object before they return are not
      modelled, except where the code does so itself ([Connection.send]).

    ** Fuel

    [Connection.send] uses fuel: a nested [send] can only leave the state that
    started it, so depth two suffices, and [send_terminates] proves more changes
    nothing. The binary search of [Views] has the length of the array as fuel, and
    [insertion_loop_spec] shows the interval is empty by then. A session of [UndoRuns]
    gives a replay as many confirmations as its entry has operations, and [replay_runs]
    proves that it ends with them. [slice_loop] of [DeltaFrames] takes the length of its
    list, and [slicing_ends_at_transactions] shows it ends within it; [settle] of [DeltaPipelineFacts]
    drives a flush, and [flush_drains_the_queue] shows that some fuel is enough, as [flush_empties_the_queue]
    does for [quiet_run] of [OpFieldLive].
    [reachesScope] of [DeploymentChecks] takes one more than there are models, which
    [reachesScope_spec] shows to be enough; [radix_digits] of [JsonText] takes more digits
    than a 32-bit number has, and [base36] of [PushQueue] one more than its number. Every
    other loop is structural or a fold.

    ** Not modelled

    React bindings, the CLI, the resource adapter, error reporting, product
    analytics and documentation tooling; the HTTP transport and the sessions over either
    transport; opening and migrating IndexedDB; the declaration of schemas over Zod, its generated
    documents, fingerprints of plans and the texts of findings; the transformation of text
    operations, which a library makes; the query engine; the bindings of sources to
    object-relational mappers, their connector socket and the envelope of echoed ids. Of the WebSocket
    transport: the object schemas of its frames, which are parameters, the traces of claims,
    and what a listener does before the call that told it returns. Of the delta pipeline: plugin handlers and profiling; of the
    pool: bootstraps, the enrichment of relations and observability; of the database:
    bootstraps and its journal. Of the undo manager: listeners, explicit recording on the chain,
    the registry of scopes and the validation of persisted entries. Of the mutation queue: the rows of its journal and outbox,
    their replay and validation, the input of operations, latency and failure
    reports, conflicts, draining and disposal. Of the instance cache: metrics,
    subscribers of single rows and weak references. *)
From Stdlib Require Export ZArith Lia.
From stdpp Require Export prelude gmap strings fin_maps list.

#[global] Open Scope Z_scope.

(** ** Numbers

    JavaScript numbers that the sources constrain to be integers are [Z]. The
    two bounds below are [Number.MAX_SAFE_INTEGER] and its negative; every
    schema of the sources that says [int()] refuses a number outside them. *)
Definition MAX_SAFE_INTEGER : Z := 2 ^ 53 - 1.
Definition MIN_SAFE_INTEGER : Z := - MAX_SAFE_INTEGER.
Definition is_safe_integer (n : Z) : bool :=
  (MIN_SAFE_INTEGER <=? n) && (n <=? MAX_SAFE_INTEGER).

(** ** Errors

    A thrown error is its class and, for the Ablo classes, the machine code the
    callers switch on. Messages are not modelled. *)
Inductive ErrorClass :=
  | AbloError
  | AbloAuthenticationError
  | AbloPermissionError
  | AbloRateLimitError
  | AbloIdempotencyError
  | AbloConnectionError
  | AbloValidationError
  | AbloNotFoundError
  | AbloServerError
  | AbloStaleContextError
  | AbloClaimedError
  | CapabilityError
  | AbloSessionError
  | ZodError
  | PlainError.

#[export] Instance ErrorClass_eq_dec : EqDecision ErrorClass.
Proof. solve_decision. Defined.

Record JsError := mkError { err_class : ErrorClass; err_code : option string }.

#[export] Instance JsError_eq_dec : EqDecision JsError.
Proof. solve_decision. Defined.

Definition ablo_error (c : ErrorClass) (code : string) : JsError := mkError c (Some code).
Definition plain_error : JsError := mkError PlainError None.
Definition zod_error : JsError := mkError ZodError None.

(** ** Results

    A call that may throw returns [Ok] or [Throw]. *)
Inductive result (A : Type) : Type :=
  | Ok (a : A)
  | Throw (e : JsError).
Arguments Ok {A} _.
Arguments Throw {A} _.

#[export] Instance result_eq_dec `{EqDecision A} : EqDecision (result A).
Proof. solve_decision. Defined.

#[export] Instance result_ret : MRet result := λ A a, Ok a.
#[export] Instance result_bind : MBind result := λ A B k m,
  match m with Ok a => k a | Throw e => Throw e end.
#[export] Instance result_fmap : FMap result := λ A B f m,
  match m with Ok a => Ok (f a) | Throw e => Throw e end.

(** The value of a call that returned, and nothing for one that threw. *)
Definition value_of {A} (m : result A) : option A :=
  match m with Ok a => Some a | Throw _ => None end.

Definition is_Some_b {A} (m : option A) : bool := match m with Some _ => true | None => false end.

Definition is_ok {A} (m : result A) : bool :=
  match m with Ok _ => true | Throw _ => false end.

Definition guard_or (b : bool) (e : JsError) : result unit :=
  if b then Ok () else Throw e.

(** Left fold whose step may throw: [Array.prototype.reduce] with a throwing
    callback, and the [for] loops that accumulate a value. *)
Fixpoint foldM {A B} (f : A → B → result A) (a : A) (l : list B) : result A :=
  match l with
  | [] => Ok a
  | b :: l' => a' ← f a b; foldM f a' l'
  end.

(** [Array.prototype.map] with a throwing callback. *)
Fixpoint mapM_r {A B} (f : A → result B) (l : list A) : result (list B) :=
  match l with
  | [] => Ok []
  | a :: l' => b ← f a; bs ← mapM_r f l'; Ok (b :: bs)
  end.

(** ** Methods that mutate [this] and may throw

    A method of a class with private state [S] is a function of the state that
    returns the state it left behind together with its outcome. An assignment
    made before a [throw] stays made, as it does in the sources. *)
Definition M (S A : Type) : Type := S → S * result A.

#[export] Instance M_ret {S} : MRet (M S) := λ A a s, (s, Ok a).
#[export] Instance M_bind {S} : MBind (M S) := λ A B k m s,
  match m s with
  | (s', Ok a) => k a s'
  | (s', Throw e) => (s', Throw e)
  end.

Definition getM {S} : M S S := λ s, (s, Ok s).
Definition putM {S} (s' : S) : M S () := λ _, (s', Ok ()).
Definition modifyM {S} (f : S → S) : M S () := λ s, (f s, Ok ()).
Definition throwM {S A} (e : JsError) : M S A := λ s, (s, Throw e).
Definition liftM {S A} (r : result A) : M S A := λ s, (s, r).

Lemma getM_bind {S B} (k : S → M S B) s : (x ← getM; k x) s = k s s.
Proof. done. Qed.
Lemma liftM_bind {S A B} (r : result A) (k : A → M S B) s :
  (x ← liftM r; k x) s = match r with Ok a => k a s | Throw e => (s, Throw e) end.
Proof. by destruct r. Qed.
Lemma putM_bind {S B} (s' : S) (k : () → M S B) s : (x ← putM s'; k x) s = k () s'.
Proof. done. Qed.
Lemma modifyM_bind {S B} (f : S → S) (k : () → M S B) s : (x ← modifyM f; k x) s = k () (f s).
Proof. done. Qed.
Lemma bindM_bind {S A B} (m : M S A) (k : A → M S B) s :
  (x ← m; k x) s = match m s with (s', Ok a) => k a s' | (s', Throw e) => (s', Throw e) end.
Proof. done. Qed.

(** ** Generic lemmas *)

Lemma bind_ok {A B} (m : result A) (k : A → result B) (b : B) :
  (a ← m; k a) = Ok b ↔ ∃ a, m = Ok a ∧ k a = Ok b.
Proof.
  destruct m as [a|e]; simpl; split.
  - intros; eauto.
  - intros (a' & [= ->] & H); exact H.
  - discriminate.
  - intros (a' & H & _); discriminate.
Qed.

Lemma foldM_app {A B} (f : A → B → result A) a l1 l2 :
  foldM f a (l1 ++ l2) = (a' ← foldM f a l1; foldM f a' l2).
Proof.
  revert a; induction l1 as [|b l1 IH]; intros a; [done|].
  simpl. destruct (f a b); simpl; auto.
Qed.

Lemma foldM_snoc {A B} (f : A → B → result A) a l b :
  foldM f a (l ++ [b]) = (a' ← foldM f a l; f a' b).
Proof.
  rewrite foldM_app. destruct (foldM f a l) as [a'|e]; simpl; [|done].
  by destruct (f a' b).
Qed.

Lemma mapM_r_length {A B} (f : A → result B) l l' :
  mapM_r f l = Ok l' → length l' = length l.
Proof.
  revert l'; induction l as [|a l IH]; simpl; intros l' H; [by injection H as <-|].
  apply bind_ok in H as (b & _ & H). apply bind_ok in H as (bs & Hbs & [= <-]).
  simpl. f_equal. by apply IH.
Qed.

Lemma mapM_r_Forall2 {A B} (f : A → result B) l l' :
  mapM_r f l = Ok l' ↔ Forall2 (λ a b, f a = Ok b) l l'.
Proof.
  revert l'; induction l as [|a l IH]; intros l'; simpl; split.
  - intros [= <-]. constructor.
  - by inversion 1.
  - intros H. apply bind_ok in H as (b & Hb & H). apply bind_ok in H as (bs & Hbs & [= <-]).
    constructor; [done|]. by apply IH.
  - inversion 1 as [|? b ? bs Hb Hbs]; subst. rewrite Hb; simpl.
    apply IH in Hbs. by rewrite Hbs.
Qed.

Lemma filter_ext_in {A} (P Q : A → Prop) `{∀ x, Decision (P x), ∀ x, Decision (Q x)} (l : list A) :
  (∀ x, x ∈ l → (P x ↔ Q x)) → base.filter P l = base.filter Q l.
Proof.
  induction l as [|x l IH]; intros Hl; [done|]. rewrite !filter_cons.
  rewrite IH by (intros; apply Hl; by right).
  destruct (decide (P x)) as [HP|HP], (decide (Q x)) as [HQ|HQ]; try done;
    exfalso; specialize (Hl x ltac:(left)); tauto.
Qed.

Lemma guard_or_ok b e u : guard_or b e = Ok u ↔ b = true.
Proof. destruct b, u; simpl; split; congruence. Qed.

(** ** Automation

    [result_inv] takes a hypothesis that a sequence of throwing calls returned
    and turns it into one hypothesis per call. *)
Ltac result_inv :=
  repeat match goal with
  | H : (_ ← _; _) = Ok _ |- _ =>
      let a := fresh "a" in let Ha := fresh "Ha" in
      apply bind_ok in H as (a & Ha & H)
  | H : guard_or _ _ = Ok _ |- _ => apply guard_or_ok in H
  | H : Ok _ = Ok _ |- _ => injection H as H; subst
  | H : Throw _ = Ok _ |- _ => discriminate H
  | H : Ok _ = Throw _ |- _ => discriminate H
  | H : mret _ = Ok _ |- _ => injection H as H; subst
  end.

(** [m_run] runs a method one call at a time, with one case per outcome of each
    call that may throw. *)
Ltac m_run :=
  repeat (rewrite ?getM_bind, ?putM_bind, ?modifyM_bind;
    match goal with
    | |- context [(liftM ?r ≫= ?k) ?s] =>
        rewrite (liftM_bind r k s); destruct r eqn:?; [|by eauto 10]
    end); rewrite ?getM_bind, ?putM_bind, ?modifyM_bind.

(** [split_cases H] opens a case lemma: one goal per disjunct, with the existentials
    and the conjuncts introduced and the last conjunct left in [H]. *)
Ltac split_cases H :=
  repeat match type of H with
  | _ ∨ _ => destruct H as [H|H]
  | ∃ x, _ => let x := fresh x in destruct H as [x H]
  | _ ∧ _ => let H' := fresh "Hc" in destruct H as [H' H]
  end.

(** [bool_simpl] splits the boolean connectives of the hypotheses. *)
Ltac bool_simpl :=
  repeat match goal with
  | H : andb _ _ = true |- _ => apply andb_true_iff in H as [? ?]
  | H : orb _ _ = false |- _ => apply orb_false_iff in H as [? ?]
  | H : negb _ = true |- _ => apply negb_true_iff in H
  | H : negb _ = false |- _ => apply negb_false_iff in H
  | H : bool_decide _ = true |- _ => apply bool_decide_eq_true in H
  | H : bool_decide _ = false |- _ => apply bool_decide_eq_false in H
  | H : (_ <=? _) = true |- _ => apply Z.leb_le in H
  | H : (_ <=? _) = false |- _ => apply Z.leb_gt in H
  | H : (_ <? _) = true |- _ => apply Z.ltb_lt in H
  | H : (_ <? _) = false |- _ => apply Z.ltb_ge in H
  | H : (_ =? _) = true |- _ => apply Z.eqb_eq in H
  | H : (_ =? _) = false |- _ => apply Z.eqb_neq in H
  | H : ¬ (_ ≠ _) |- _ => apply dec_stable in H
  end.

(** [decide_now] proves a closed decidable goal by running its decision. *)
Ltac decide_now :=
  match goal with |- ?P => refine (@bool_decide_unpack P _ _); vm_compute; exact I end.

Create HintDb ablo.
