(* ===== verification/JsData.v ===== *)
(** * The JavaScript data the sources compute with

    [Array.prototype.sort] as a stable insertion sort, [Map] with its insertion
    order, [String.prototype.toLowerCase] on ASCII letters and
    [String.prototype.includes]. *)
From S2P Require Import Prelude.
From Stdlib Require Import Sorted.
#[local] Open Scope Z_scope.

(** ** Sorting *)

Section Sort.
Context {T : Type} (cmp : T → T → Z).

(** [sort(cmp)]: stable, ascending. *)
Fixpoint insert_by (x : T) (l : list T) : list T :=
  match l with
  | [] => [x]
  | y :: l' => if 0 <? cmp y x then x :: l else y :: insert_by x l'
  end.
Definition sort_by (l : list T) : list T := foldl (λ acc x, insert_by x acc) [] l.

Lemma insert_by_perm x l : Permutation (insert_by x l) (x :: l).
Proof.
  induction l as [|y l IH]; simpl; [done|]. destruct (0 <? cmp y x); [done|].
  rewrite IH. apply Permutation_swap.
Qed.

Lemma sort_by_perm l : Permutation (sort_by l) l.
Proof.
  unfold sort_by. assert (∀ acc, Permutation (foldl (λ acc x, insert_by x acc) acc l) (acc ++ l)) as H.
  { induction l as [|x l IH]; intros acc; simpl; [by rewrite app_nil_r|].
    rewrite IH, insert_by_perm. by rewrite <- Permutation_middle. }
  apply H.
Qed.
End Sort.

(** A comparator that subtracts keys sorts by them. *)
Lemma sort_by_key {T} (key : T → Z) l :
  StronglySorted (λ x y, key x ≤ key y) (sort_by (λ x y, key x - key y) l).
Proof.
  set (cmp := λ x y, key x - key y).
  assert (Hins : ∀ x l, StronglySorted (λ x y, key x ≤ key y) l →
                   StronglySorted (λ x y, key x ≤ key y) (insert_by cmp x l)).
  { intros x l'. induction 1 as [|y l' Hs IH Hy]; simpl; [by repeat constructor|].
    unfold cmp at 1. destruct (Z.ltb_spec 0 (key y - key x)).
    - repeat constructor; [done|done|lia|]. eapply Forall_impl; [exact Hy|]. simpl. intros. lia.
    - constructor; [done|]. rewrite insert_by_perm. constructor; [lia|done]. }
  unfold sort_by. assert (H : ∀ acc, StronglySorted (λ x y, key x ≤ key y) acc →
      StronglySorted (λ x y, key x ≤ key y) (foldl (λ acc x, insert_by cmp x acc) acc l)).
  { induction l as [|x l IH]; intros acc Hacc; simpl; [done|]. apply IH, Hins, Hacc. }
  apply H. constructor.
Qed.

(** ** [Map]: lookup, insertion in place or at the end, deletion *)

Section Map.
Context {K V : Type} `{EqDecision K}.
Implicit Types (m : list (K * V)).

Fixpoint map_get (k : K) m : option V :=
  match m with
  | [] => None
  | (k', v) :: m => if decide (k = k') then Some v else map_get k m
  end.

Fixpoint map_set (k : K) (v : V) m : list (K * V) :=
  match m with
  | [] => [(k, v)]
  | (k', v') :: m => if decide (k = k') then (k', v) :: m else (k', v') :: map_set k v m
  end.

Definition map_delete (k : K) m : list (K * V) := base.filter (λ p, p.1 ≠ k) m.

Lemma map_get_elem k v m : map_get k m = Some v → (k, v) ∈ m.
Proof.
  induction m as [|[k' v'] m IH]; simpl; [done|].
  case_decide; [intros [= ->]; subst; left|right; auto].
Qed.

Lemma map_get_spec k v m : NoDup m.*1 → map_get k m = Some v ↔ (k, v) ∈ m.
Proof.
  intros Hn. split; [apply map_get_elem|]. induction m as [|[k' v'] m IH]; simpl; [by intros ?%elem_of_nil|].
  apply NoDup_cons in Hn as [Hk Hn]. rewrite elem_of_cons. intros [[= -> ->]|H]; case_decide; try done.
  - subst. exfalso. apply Hk, list_elem_of_fmap. by exists (k', v).
  - auto.
Qed.

Lemma map_get_None k m : map_get k m = None ↔ k ∉ m.*1.
Proof.
  induction m as [|[k' v'] m IH]; simpl; [split; [intros _ ?%elem_of_nil|]; done|].
  rewrite elem_of_cons. case_decide; [subst|]; naive_solver.
Qed.

Lemma map_set_keys k v m : (map_set k v m).*1 = if decide (k ∈ m.*1) then m.*1 else m.*1 ++ [k].
Proof.
  induction m as [|[k' v'] m IH]; [done|]. cbn [map_set].
  destruct (decide (k = k')) as [->|Hk]; rewrite !fmap_cons; cbn [fst].
  - rewrite decide_True; [done|left].
  - rewrite IH. repeat case_decide; try done; exfalso; set_solver.
Qed.

Lemma map_get_set k k' v m : map_get k (map_set k' v m) = if decide (k = k') then Some v else map_get k m.
Proof.
  induction m as [|[k'' v''] m IH]; simpl; [done|].
  destruct (decide (k' = k'')) as [->|Hk]; simpl; repeat case_decide; congruence.
Qed.

Lemma map_set_elem k k' v v' m : (k, v) ∈ map_set k' v' m → (k, v) = (k', v') ∨ (k, v) ∈ m.
Proof.
  induction m as [|[k'' v''] m IH]; simpl; [intros ?%list_elem_of_singleton; by left|].
  case_decide; rewrite !elem_of_cons; naive_solver.
Qed.

Lemma map_delete_keys k m : (map_delete k m).*1 = base.filter (λ x, x ≠ k) m.*1.
Proof.
  induction m as [|[k' v'] m IH]; [done|]. unfold map_delete in *. simpl.
  rewrite !filter_cons; simpl. repeat case_decide; try tauto. by f_equal/=.
Qed.

Lemma map_get_delete k k' m : map_get k (map_delete k' m) = if decide (k = k') then None else map_get k m.
Proof.
  induction m as [|[k'' v''] m IH]; [by simpl; case_decide|]. unfold map_delete in *.
  rewrite filter_cons; simpl. repeat case_decide; simpl; repeat case_decide; simplify_eq; try done; tauto.
Qed.
End Map.

Lemma NoDup_set_keys {V} (k : string) (v : V) m : NoDup m.*1 → NoDup (map_set k v m).*1.
Proof.
  intros H. rewrite map_set_keys. case_decide; [done|].
  apply NoDup_app. split_and!; [done| |apply NoDup_singleton]. by intros y ? ->%list_elem_of_singleton.
Qed.

Lemma map_set_fresh {V} (k : string) (v : V) m : k ∉ m.*1 → map_set k v m = m ++ [(k, v)].
Proof.
  induction m as [|[k' v'] m IH]; [done|]. intros Hk. cbn [map_set].
  rewrite fmap_cons in Hk. apply not_elem_of_cons in Hk as [Hk Hm]. cbn [fst] in Hk.
  rewrite decide_False by done. rewrite IH by done. done.
Qed.

(** ** Sets and arrays *)

(** [Set.add] and [Set.delete]. *)
Definition set_add (x : string) (l : list string) : list string :=
  if bool_decide (x ∈ l) then l else l ++ [x].
Definition set_remove (x : string) (l : list string) : list string := base.filter (λ y, y ≠ x) l.

Lemma elem_set_add x y l : x ∈ set_add y l ↔ x ∈ l ∨ x = y.
Proof. unfold set_add. case_bool_decide; [naive_solver|]. by rewrite elem_of_app, list_elem_of_singleton. Qed.

Lemma NoDup_set_add x l : NoDup l → NoDup (set_add x l).
Proof.
  unfold set_add. intros H. case_bool_decide; [done|].
  apply NoDup_app. split_and!; [done| |apply NoDup_singleton]. by intros y ? ->%list_elem_of_singleton.
Qed.

Lemma elem_set_remove x y l : x ∈ set_remove y l ↔ x ∈ l ∧ x ≠ y.
Proof. unfold set_remove. rewrite list_elem_of_filter. tauto. Qed.

(** [findIndex] *)
Fixpoint find_index {A} (f : A → bool) (l : list A) : option nat :=
  match l with
  | [] => None
  | x :: l => if f x then Some 0%nat else S <$> find_index f l
  end.

Lemma find_index_none {A} (f : A → bool) l : find_index f l = None → ∀ x, x ∈ l → f x = false.
Proof.
  induction l as [|y l IH]; simpl; intros H x Hx; [by apply elem_of_nil in Hx|].
  destruct (f y) eqn:E; [done|]. apply elem_of_cons in Hx as [->|Hx]; [done|].
  apply IH; [by destruct (find_index f l)|done].
Qed.

Lemma find_index_some {A} (f : A → bool) l n : find_index f l = Some n → ∀ x, x ∈ take n l → f x = false.
Proof.
  revert n. induction l as [|y l IH]; simpl; intros n H x Hx; [done|].
  destruct (f y) eqn:E; [injection H as <-; by apply elem_of_nil in Hx|].
  destruct (find_index f l) as [m|]; [|done]. injection H as <-. simpl in Hx.
  apply elem_of_cons in Hx as [->|Hx]; [done|]. by eapply IH.
Qed.

(** ** Strings *)

Definition lower_ascii (c : Ascii.ascii) : Ascii.ascii :=
  let n := Ascii.N_of_ascii c in
  if (65 <=? n)%N && (n <=? 90)%N then Ascii.ascii_of_N (n + 32) else c.

Fixpoint toLowerCase (s : string) : string :=
  match s with
  | EmptyString => EmptyString
  | String c s' => String (lower_ascii c) (toLowerCase s')
  end.

Lemma lower_ascii_idem c : lower_ascii (lower_ascii c) = lower_ascii c.
Proof. destruct c as [[] [] [] [] [] [] [] []]; reflexivity. Qed.

Lemma toLowerCase_idem s : toLowerCase (toLowerCase s) = toLowerCase s.
Proof. induction s as [|c s IH]; simpl; [done|]. by rewrite lower_ascii_idem, IH. Qed.

(** [s.includes(part)]. *)
Fixpoint includes (s part : string) : bool :=
  String.prefix part s || match s with EmptyString => false | String _ s' => includes s' part end.

(** ** [filter] that keeps all or nothing *)

Lemma filter_keeps {A} (P : A → Prop) `{∀ x, Decision (P x)} (l : list A) : (∀ x, x ∈ l → P x) → base.filter P l = l.
Proof.
  induction l as [|x l IH]; intros Hl; [done|]. rewrite filter_cons, decide_True by (apply Hl; left).
  f_equal. apply IH. intros y Hy. apply Hl. by right.
Qed.

Lemma filter_drops {A} (P : A → Prop) `{∀ x, Decision (P x)} (l : list A) : (∀ x, x ∈ l → ¬ P x) → base.filter P l = [].
Proof.
  induction l as [|x l IH]; intros Hl; [done|]. rewrite filter_cons, decide_False by (apply Hl; left).
  apply IH. intros y Hy. apply Hl. by right.
Qed.
