(* ===== verification/Json.v ===== *)
(** * JSON values and their comparison

    [packages/transaction/src/utils/json.ts]: [deepEqual], which ignores the order of
    keys, on the values a row or a patch can hold. A [Date] is an object without keys
    of its own. *)
From S2P Require Import Prelude JsData.
#[local] Open Scope Z_scope.

#[local] Unset Elimination Schemes.
Inductive json :=
  | JUndefined
  | JNull
  | JBool (b : bool)
  | JNum (n : Z)
  | JStr (s : string)
  | JDate (t : Z)
  | JArr (l : list json)
  | JObj (f : list (string * json)).
#[local] Set Elimination Schemes.

Section JsonInd.
Variable P : json → Prop.
Hypothesis P_undefined : P JUndefined.
Hypothesis P_null : P JNull.
Hypothesis P_bool : ∀ b, P (JBool b).
Hypothesis P_num : ∀ n, P (JNum n).
Hypothesis P_str : ∀ s, P (JStr s).
Hypothesis P_date : ∀ t, P (JDate t).
Hypothesis P_arr : ∀ l, Forall P l → P (JArr l).
Hypothesis P_obj : ∀ f, Forall (λ p, P p.2) f → P (JObj f).

Fixpoint json_ind (v : json) : P v :=
  match v with
  | JUndefined => P_undefined
  | JNull => P_null
  | JBool b => P_bool b
  | JNum n => P_num n
  | JStr s => P_str s
  | JDate t => P_date t
  | JArr l => P_arr l ((fix go l : Forall P l :=
                          match l with [] => Forall_nil_2 _ | x :: l => Forall_cons_2 _ _ _ (json_ind x) (go l) end) l)
  | JObj f => P_obj f ((fix go f : Forall (λ p, P p.2) f :=
                          match f with [] => Forall_nil_2 _ | p :: f => Forall_cons_2 _ _ _ (json_ind p.2) (go f) end) f)
  end.
End JsonInd.

(** The keys [Object.keys] lists, for an object that is no array. *)
Definition own_fields (v : json) : option (list (string * json)) :=
  match v with JObj f => Some f | JDate _ => Some [] | _ => None end.

Fixpoint deepEqual (a b : json) {struct a} : bool :=
  match a, b with
  | JUndefined, JUndefined | JNull, JNull => true
  | JBool x, JBool y => Bool.eqb x y
  | JNum x, JNum y => x =? y
  | JStr x, JStr y => String.eqb x y
  | JArr l, JArr m =>
      (length l =? length m)%nat
      && (fix items l m := match l, m with x :: l, y :: m => deepEqual x y && items l m | _, _ => true end) l m
  | JDate _, _ => match own_fields b with Some g => (0 =? length g)%nat | None => false end
  | JObj f, _ =>
      match own_fields b with
      | Some g =>
          (length f =? length g)%nat
          && forallb (λ p, match map_get p.1 g with Some y => deepEqual p.2 y | None => false end) f
      | None => false
      end
  | _, _ => false
  end.

(** A property that may be missing: what a symbol of its own stands for. *)
Definition odeep (a b : option json) : bool :=
  match a, b with Some a, Some b => deepEqual a b | None, None => true | _, _ => false end.

(** [Object.keys] lists a key once. *)
Fixpoint wf (v : json) : bool :=
  match v with
  | JArr l => forallb wf l
  | JObj f => bool_decide (NoDup f.*1) && forallb (λ p, wf p.2) f
  | _ => true
  end.
Definition owf (v : option json) : bool := match v with Some v => wf v | None => true end.

Lemma wf_obj f : wf (JObj f) = true ↔ NoDup f.*1 ∧ ∀ k, owf (map_get k f) = true.
Proof.
  simpl. rewrite andb_true_iff, bool_decide_eq_true, forallb_forall. split; intros [Hn Hf]; (split; [done|]).
  - intros k. destruct (map_get k f) as [v|] eqn:Hk; [|done]. apply map_get_elem, list_elem_of_In in Hk.
    apply (Hf _ Hk).
  - intros [k v] Hin%list_elem_of_In. specialize (Hf k). by rewrite (proj2 (map_get_spec k v f Hn)) in Hf.
Qed.

(** Objects are compared property by property. *)
Lemma deep_obj f g :
  NoDup f.*1 → NoDup g.*1 →
  deepEqual (JObj f) (JObj g) = true ↔ ∀ k, odeep (map_get k f) (map_get k g) = true.
Proof.
  intros Hf Hg. cbn [deepEqual own_fields]. rewrite andb_true_iff, Nat.eqb_eq, forallb_forall. split.
  - intros [Hlen Hall] k. destruct (map_get k f) as [x|] eqn:Hx.
    + apply map_get_elem, list_elem_of_In in Hx. specialize (Hall _ Hx). simpl in Hall. by destruct (map_get k g).
    + destruct (map_get k g) as [y|] eqn:Hy; [|done]. exfalso. apply map_get_None in Hx. apply Hx.
      assert (Hincl : g.*1 ⊆ f.*1).
      { intros k'. rewrite !list_elem_of_In. apply NoDup_length_incl.
        - by apply NoDup_ListNoDup.
        - rewrite !length_fmap. lia.
        - intros k'' Hk''%list_elem_of_In. apply list_elem_of_fmap in Hk'' as ([? v] & -> & Hin). simpl.
          apply list_elem_of_In in Hin. specialize (Hall _ Hin). simpl in Hall.
          destruct (map_get _ g) eqn:Hg'; [|done]. apply map_get_elem in Hg'. apply list_elem_of_In.
          by apply (list_elem_of_fmap_2 fst) in Hg'. }
      apply Hincl. apply map_get_elem in Hy. by apply (list_elem_of_fmap_2 fst) in Hy.
  - intros Hall. split.
    + assert (Hkeys : ∀ k, k ∈ f.*1 ↔ k ∈ g.*1).
      { intros k. specialize (Hall k). destruct (map_get k f) eqn:E1, (map_get k g) eqn:E2; try done.
        - apply map_get_elem, (list_elem_of_fmap_2 fst) in E1, E2. done.
        - apply map_get_None in E1, E2. tauto. }
      rewrite <- (length_fmap fst f), <- (length_fmap fst g). apply Permutation_length, NoDup_Permutation; done.
    + intros [k x] Hin%list_elem_of_In. specialize (Hall k). rewrite (proj2 (map_get_spec k x f Hf) Hin) in Hall. simpl.
      by destruct (map_get k g).
Qed.

(** An object or a date, against anything. *)
Lemma deep_own a b f :
  wf a = true → wf b = true → own_fields a = Some f →
  deepEqual a b = true ↔ ∃ g, own_fields b = Some g ∧ ∀ k, odeep (map_get k f) (map_get k g) = true.
Proof.
  intros Ha Hb Hf. assert (Hfn : NoDup f.*1).
  { destruct a; try done; injection Hf as <-; [apply NoDup_nil_2|]. by apply wf_obj in Ha as [? _]. }
  assert (Hab : ∀ g, own_fields b = Some g → NoDup g.*1 ∧ deepEqual a b = deepEqual (JObj f) (JObj g)).
  { intros g Hg. split.
    - destruct b; try done; injection Hg as <-; [apply NoDup_nil_2|]. by apply wf_obj in Hb as [? _].
    - destruct a; try done; injection Hf as <-; cbn [deepEqual]; rewrite Hg; cbn [own_fields length forallb]; by rewrite ?andb_true_r. }
  split.
  - intros Hd. destruct (own_fields b) as [g|] eqn:Hg; [|destruct a; try done; simpl in Hd; by rewrite Hg in Hd].
    exists g. split; [done|]. destruct (Hab g eq_refl) as [Hgn Heq]. apply deep_obj; [done|done|]. by rewrite <- Heq.
  - intros (g & Hg & Hall). destruct (Hab g Hg) as [Hgn ->]. by apply deep_obj.
Qed.

Lemma own_wf a f k v : wf a = true → own_fields a = Some f → map_get k f = Some v → wf v = true.
Proof.
  intros Ha Hf Hk. destruct a; try done; injection Hf as <-; [done|]. apply wf_obj in Ha as [_ Ha].
  specialize (Ha k). by rewrite Hk in Ha.
Qed.

(** Arrays are compared item by item. *)
Lemma deep_arr l m : deepEqual (JArr l) (JArr m) = true ↔ Forall2 (λ x y, deepEqual x y = true) l m.
Proof.
  cbn [deepEqual]. rewrite andb_true_iff, Nat.eqb_eq. revert m.
  induction l as [|x l IH]; intros [|y m]; simpl; try (split; [intros [? _]; lia|by intros ?%Forall2_length]).
  - split; [by constructor|done].
  - rewrite Forall2_cons, andb_true_iff, <- IH. split; intros; naive_solver lia.
Qed.

Lemma wf_arr l : wf (JArr l) = true ↔ Forall (λ x, wf x = true) l.
Proof. simpl. rewrite forallb_forall, Forall_forall. split; intros Hl x Hx; apply Hl; by apply list_elem_of_In. Qed.

Lemma wf_fields f : wf (JObj f) = true → Forall (λ p, wf p.2 = true) f.
Proof. simpl. rewrite andb_true_iff, forallb_forall, Forall_forall. intros [_ Hf] p Hp. by apply Hf, list_elem_of_In. Qed.

Lemma deep_refl a : wf a = true → deepEqual a a = true.
Proof.
  induction a as [| |b|n|s|t|l IH|f IH] using json_ind; intros Ha; try done; simpl.
  - by destruct b.
  - apply Z.eqb_refl.
  - apply String.eqb_refl.
  - apply deep_arr. apply wf_arr in Ha. rewrite Forall_forall in IH, Ha. apply Forall2_same_length_lookup.
    split; [done|]. intros i x y Hx Hy. assert (x = y) as -> by congruence. apply list_elem_of_lookup_2 in Hy. auto.
  - apply (deep_own (JObj f) (JObj f) f); [done..|]. exists f. split; [done|]. intros k.
    destruct (map_get k f) as [v|] eqn:Hk; [|done]. simpl. rewrite Forall_forall in IH.
    apply (IH (k, v)); [by apply map_get_elem|]. by apply (own_wf (JObj f) f k).
Qed.

Lemma deep_sym a b : wf a = true → wf b = true → deepEqual a b = true → deepEqual b a = true.
Proof.
  revert b. induction a as [| |x|n|s|t|l IH|f IH] using json_ind; intros b Ha Hb Hd.
  - by destruct b.
  - by destruct b.
  - destruct b; try done. simpl in *. by destruct x, b.
  - destruct b; try done. simpl in *. lia.
  - destruct b; try done. simpl in *. apply String.eqb_eq in Hd. subst. apply String.eqb_refl.
  - apply (deep_own (JDate t) b []) in Hd as (g & Hg & Hall); [|done..]. apply (deep_own b (JDate t) g); [done..|].
    exists []. split; [done|]. intros k. specialize (Hall k). by destruct (map_get k g).
  - destruct b as [| | | | | |m|]; try done. apply deep_arr in Hd. apply deep_arr. apply wf_arr in Ha, Hb.
    rewrite Forall_forall in IH, Ha, Hb. apply Forall2_same_length_lookup in Hd as [Hlen Hd]. apply Forall2_same_length_lookup.
    split; [done|]. intros i x y Hx Hy. apply IH; eauto using list_elem_of_lookup_2.
  - apply (deep_own (JObj f) b f) in Hd as (g & Hg & Hall); [|done..]. apply (deep_own b (JObj f) g); [done..|].
    exists f. split; [done|]. intros k. specialize (Hall k). rewrite Forall_forall in IH.
    destruct (map_get k f) as [v|] eqn:Hv, (map_get k g) as [w|] eqn:Hw; try done. simpl in *.
    apply (IH (k, v)); [by apply map_get_elem|by apply (own_wf (JObj f) f k)|by apply (own_wf b g k)|done].
Qed.

Lemma deep_trans a b c :
  wf a = true → wf b = true → wf c = true → deepEqual a b = true → deepEqual b c = true → deepEqual a c = true.
Proof.
  revert b c. induction a as [| |x|n|s|t|l IH|f IH] using json_ind; intros b c Ha Hb Hc Hab Hbc.
  - by destruct b.
  - by destruct b.
  - destruct b; try done. destruct c; try done. simpl in *. by destruct x, b, b0.
  - destruct b; try done. destruct c; try done. simpl in *. lia.
  - destruct b; try done. destruct c; try done. simpl in *. apply String.eqb_eq in Hab as ->. done.
  - apply (deep_own (JDate t) b []) in Hab as (g & Hg & Hall); [|done..].
    apply (deep_own b c g) in Hbc as (g' & Hg' & Hall'); [|done..]. apply (deep_own (JDate t) c []); [done..|].
    exists g'. split; [done|]. intros k. specialize (Hall k). specialize (Hall' k). by destruct (map_get k g), (map_get k g').
  - destruct b as [| | | | | |m|]; try done. destruct c as [| | | | | |n|]; try done. apply deep_arr in Hab, Hbc. apply deep_arr.
    apply wf_arr in Ha, Hb, Hc. rewrite Forall_forall in IH, Ha, Hb, Hc.
    apply Forall2_same_length_lookup in Hab as [L1 Hab]. apply Forall2_same_length_lookup in Hbc as [L2 Hbc].
    apply Forall2_same_length_lookup. split; [congruence|]. intros i x z Hx Hz.
    destruct (lookup_lt_is_Some_2 m i) as [y Hy]; [rewrite <- L1; by apply lookup_lt_Some in Hx|].
    apply (IH x) with y; eauto using list_elem_of_lookup_2.
  - apply (deep_own (JObj f) b f) in Hab as (g & Hg & Hall); [|done..].
    apply (deep_own b c g) in Hbc as (g' & Hg' & Hall'); [|done..]. apply (deep_own (JObj f) c f); [done..|].
    exists g'. split; [done|]. intros k. specialize (Hall k). specialize (Hall' k). rewrite Forall_forall in IH.
    destruct (map_get k f) as [v|] eqn:Hv, (map_get k g) as [w|] eqn:Hw, (map_get k g') as [u|] eqn:Hu; try done. simpl in *.
    apply (IH (k, v)) with w; [by apply map_get_elem|by apply (own_wf (JObj f) f k)|by apply (own_wf b g k)|by apply (own_wf c g' k)|done|done].
Qed.

Lemma odeep_refl a : owf a = true → odeep a a = true.
Proof. destruct a; [apply deep_refl|done]. Qed.
Lemma odeep_sym a b : owf a = true → owf b = true → odeep a b = true → odeep b a = true.
Proof. destruct a, b; try done. apply deep_sym. Qed.
Lemma odeep_trans a b c :
  owf a = true → owf b = true → owf c = true → odeep a b = true → odeep b c = true → odeep a c = true.
Proof. destruct a, b, c; try done. apply deep_trans. Qed.

(** ** Equality that looks into dates

    What two rows being the same means: [deepEqual] with the dates compared by their
    time. On values without dates the two agree. *)

Fixpoint same (a b : json) {struct a} : bool :=
  match a, b with
  | JUndefined, JUndefined | JNull, JNull => true
  | JBool x, JBool y => Bool.eqb x y
  | JNum x, JNum y | JDate x, JDate y => x =? y
  | JStr x, JStr y => String.eqb x y
  | JArr l, JArr m =>
      (length l =? length m)%nat
      && (fix items l m := match l, m with x :: l, y :: m => same x y && items l m | _, _ => true end) l m
  | JObj f, JObj g =>
      (length f =? length g)%nat
      && forallb (λ p, match map_get p.1 g with Some y => same p.2 y | None => false end) f
  | _, _ => false
  end.

Definition osame (a b : option json) : bool :=
  match a, b with Some a, Some b => same a b | None, None => true | _, _ => false end.

Fixpoint dateless (v : json) : bool :=
  match v with
  | JDate _ => false
  | JArr l => forallb dateless l
  | JObj f => forallb (λ p, dateless p.2) f
  | _ => true
  end.

Lemma same_arr l m : same (JArr l) (JArr m) = true ↔ Forall2 (λ x y, same x y = true) l m.
Proof.
  cbn [same]. rewrite andb_true_iff, Nat.eqb_eq. revert m.
  induction l as [|x l IH]; intros [|y m]; simpl; try (split; [intros [? _]; lia|by intros ?%Forall2_length]).
  - split; [by constructor|done].
  - rewrite Forall2_cons, andb_true_iff, <- IH. split; intros; naive_solver lia.
Qed.

Lemma forallb_Forall {A} (P : A → bool) (l : list A) : forallb P l = true ↔ Forall (λ x, P x = true) l.
Proof. rewrite forallb_forall, Forall_forall. split; intros H x Hx; apply H; by apply list_elem_of_In. Qed.

Lemma same_deep a b : same a b = true → deepEqual a b = true.
Proof.
  revert b. induction a as [| |x|n|s|t|l IH|f IH] using json_ind; intros b Hs; try (by destruct b).
  - destruct b as [| | | | | |m|]; try done. apply same_arr in Hs. apply deep_arr. rewrite Forall_forall in IH.
    apply Forall2_same_length_lookup in Hs as [Hl Hs]. apply Forall2_same_length_lookup. split; [done|].
    intros i x y Hx Hy. apply IH; [by eapply list_elem_of_lookup_2|by eapply Hs].
  - destruct b as [| | | | | | |g]; try done. cbn [same deepEqual own_fields] in *. apply andb_true_iff in Hs as [-> Hs].
    apply forallb_Forall in Hs. apply forallb_Forall. rewrite Forall_forall in *. intros p Hp. specialize (Hs p Hp).
    destruct (map_get p.1 g); [|done]. by apply IH.
Qed.

Lemma deep_same a b : dateless a = true → dateless b = true → deepEqual a b = true → same a b = true.
Proof.
  revert b. induction a as [| |x|n|s|t|l IH|f IH] using json_ind; intros b Ha Hb Hd; try (by destruct b).
  - destruct b as [| | | | | |m|]; try done. apply deep_arr in Hd. apply same_arr. cbn [dateless] in *.
    apply forallb_Forall in Ha, Hb. rewrite Forall_forall in IH, Ha, Hb.
    apply Forall2_same_length_lookup in Hd as [Hl Hd]. apply Forall2_same_length_lookup. split; [done|].
    intros i x y Hx Hy. apply IH; eauto using list_elem_of_lookup_2.
  - destruct b as [| | | | | | |g]; try done. cbn [same deepEqual own_fields dateless] in *. apply andb_true_iff in Hd as [-> Hd].
    apply forallb_Forall in Hd, Ha, Hb. apply forallb_Forall. rewrite Forall_forall in *. intros p Hp. specialize (Hd p Hp).
    destruct (map_get p.1 g) as [y|] eqn:Hy; [|done]. apply IH; [done|by apply Ha| |done].
    apply map_get_elem in Hy. by apply (Hb _ Hy).
Qed.

Lemma same_dateless a b : same a b = true → dateless b = true → dateless a = true.
Proof.
  revert b. induction a as [| |x|n|s|t|l IH|f IH] using json_ind; intros b Hs Hb; try (by destruct b).
  - destruct b as [| | | | | |m|]; try done. apply same_arr in Hs. cbn [dateless] in *. apply forallb_Forall in Hb. apply forallb_Forall.
    rewrite Forall_forall in *. intros x Hx. apply list_elem_of_lookup in Hx as [i Hx].
    destruct (Forall2_lookup_l _ _ _ _ _ Hs Hx) as (y & Hy & Hxy). apply (IH x) with y; eauto using list_elem_of_lookup_2.
  - destruct b as [| | | | | | |g]; try done. cbn [same dateless] in *. apply andb_true_iff in Hs as [_ Hs].
    apply forallb_Forall in Hs, Hb. apply forallb_Forall. rewrite Forall_forall in *. intros p Hp. specialize (Hs p Hp).
    destruct (map_get p.1 g) as [y|] eqn:Hy; [|done]. apply (IH p Hp y); [done|]. apply map_get_elem in Hy. by apply (Hb _ Hy).
Qed.

(** Dates written as values [deepEqual] tells apart: what makes [same] an equivalence. *)
Fixpoint stamped (v : json) : json :=
  match v with
  | JDate t => JArr [JNum t]
  | JArr l => JArr (JNull :: (stamped <$> l))
  | JObj f => JObj ((λ p, (p.1, stamped p.2)) <$> f)
  | v => v
  end.

Lemma stamped_get k (f : list (string * json)) :
  map_get k ((λ p, (p.1, stamped p.2)) <$> f) = stamped <$> map_get k f.
Proof. induction f as [|[k' v] f IH]; [done|]. rewrite fmap_cons. cbn [map_get fst snd]. by case_decide. Qed.

Lemma stamped_wf v : wf v = true → wf (stamped v) = true.
Proof.
  induction v as [| |x|n|s|t|l IH|f IH] using json_ind; intros Hv; try done.
  - apply wf_arr in Hv. apply wf_arr. constructor; [done|]. rewrite Forall_fmap. rewrite Forall_forall in *. intros x Hx. by apply IH, Hv.
  - pose proof Hv as [Hn _]%wf_obj. apply wf_obj. split; [by rewrite <- list_fmap_compose|].
    intros k. change (owf (map_get k ((λ p, (p.1, stamped p.2)) <$> f)) = true). rewrite stamped_get.
    destruct (map_get k f) as [x|] eqn:Hx; [|done]. simpl. rewrite Forall_forall in IH.
    apply (IH (k, x)); [by apply map_get_elem|]. by apply (own_wf (JObj f) f k).
Qed.

Lemma same_stamped a b : same a b = true ↔ deepEqual (stamped a) (stamped b) = true.
Proof.
  revert b. induction a as [| |x|n|s|t|l IH|f IH] using json_ind; intros b; try (by destruct b).
  - destruct b as [| | | | |u|m|]; try done; cbn [same stamped deepEqual fmap list_fmap length].
    + by rewrite andb_true_r.
    + by rewrite andb_false_r.
  - destruct b as [| | | | |u|m|]; try done; [cbn [same stamped deepEqual fmap list_fmap length]; by rewrite andb_false_r|].
    rewrite same_arr. cbn [stamped]. rewrite deep_arr, Forall2_cons, Forall2_fmap. cbn [deepEqual].
    rewrite Forall_forall in IH. rewrite !Forall2_same_length_lookup. split.
    + intros [Hl Hs]. split_and!; [done|done|]. intros i x y Hx Hy. apply IH; [by eapply list_elem_of_lookup_2|by eapply Hs].
    + intros (_ & Hl & Hs). split; [done|]. intros i x y Hx Hy. apply IH; [by eapply list_elem_of_lookup_2|by eapply Hs].
  - destruct b as [| | | | |u|m|g]; try done. cbn [same stamped deepEqual own_fields]. rewrite !andb_true_iff.
    rewrite !length_fmap, !forallb_Forall, Forall_fmap. rewrite !Forall_forall in *.
    apply and_iff_compat_l.
    assert (Hone : ∀ p, p ∈ f → (match map_get p.1 g with Some y => same p.2 y | None => false end = true
        ↔ match map_get (p.1, stamped p.2).1 ((λ p, (p.1, stamped p.2)) <$> g) with
          | Some y => deepEqual (p.1, stamped p.2).2 y | None => false end = true)).
    { intros p Hp. cbn [fst snd]. rewrite stamped_get. destruct (map_get p.1 g) as [y|]; [|done]. simpl. by apply IH. }
    split; intros H p Hp; apply (Hone p Hp), H, Hp.
Qed.

Lemma osame_refl a : owf a = true → osame a a = true.
Proof. destruct a; [|done]. intros Ha. by apply same_stamped, deep_refl, stamped_wf. Qed.
Lemma osame_sym a b : owf a = true → owf b = true → osame a b = true → osame b a = true.
Proof. destruct a, b; try done. simpl. rewrite !same_stamped. intros. by apply deep_sym; [apply stamped_wf..|]. Qed.
Lemma osame_trans a b c :
  owf a = true → owf b = true → owf c = true → osame a b = true → osame b c = true → osame a c = true.
Proof.
  destruct a, b, c; try done. simpl. rewrite !same_stamped. intros Ha Hb Hc.
  by apply deep_trans; apply stamped_wf.
Qed.
Lemma osame_deep a b : osame a b = true → odeep a b = true.
Proof. destruct a, b; try done. apply same_deep. Qed.

(** ** Objects as their fields *)

Notation fields := (list (string * json)) (only parsing).

(** The object spread [{ ...old, ...patch }]. *)
Definition spread (old patch : fields) : fields := foldl (λ m p, map_set p.1 p.2 m) old patch.

Lemma spread_get (patch old : fields) f :
  NoDup patch.*1 → map_get f (spread old patch) = match map_get f patch with Some v => Some v | None => map_get f old end.
Proof.
  unfold spread. revert old. induction patch as [|[k v] patch IH]; intros old; [done|]. rewrite fmap_cons. cbn [foldl fst snd].
  intros [Hk Hn]%NoDup_cons. rewrite IH by done. cbn [map_get]. rewrite map_get_set. case_decide; [subst|done].
  by rewrite (proj2 (map_get_None k patch)).
Qed.

Lemma spread_keys (patch old : fields) : NoDup old.*1 → NoDup (spread old patch).*1.
Proof.
  unfold spread. revert old. induction patch as [|[k v] patch IH]; intros old Hn; [done|]. simpl. by apply IH, NoDup_set_keys.
Qed.
