(* ===== verification/ErrorCodes.v ===== *)
(** * The error taxonomy

    The registry of error codes of [packages/transaction/src/errorCodes.ts], the
    recovery class derived from it, and the wire-to-class mapping of
    [errors.ts]. Everything that decides whether a client retries, re-mints a
    credential or signs the user out goes through these functions. Messages and
    the [details] bag are prose and are not modelled. *)
From S2P Require Import Prelude.

(** ** Registry entries *)

Inductive ErrorCategory :=
  | cat_auth | cat_permission | cat_capability | cat_claim | cat_conflict
  | cat_validation | cat_not_found | cat_tenant | cat_schema | cat_bootstrap
  | cat_transport | cat_rate_limit | cat_server | cat_client.

Inductive RecoveryClass :=
  | rec_access_credential_expiry | rec_session_expiry | rec_auth_blocked
  | rec_permission | rec_transient | rec_none.

Inductive surface := surface_wire | surface_client.
Inductive severity := sev_info | sev_warning | sev_error | sev_fatal.
Inductive capture := capture_log | capture_issue.
Inductive volume := volume_low | volume_normal | volume_high.
Inductive owner := owner_platform | owner_product.

#[export] Instance ErrorCategory_eq_dec : EqDecision ErrorCategory.
Proof. solve_decision. Defined.
#[export] Instance RecoveryClass_eq_dec : EqDecision RecoveryClass.
Proof. solve_decision. Defined.
#[export] Instance surface_eq_dec : EqDecision surface.
Proof. solve_decision. Defined.
#[export] Instance capture_eq_dec : EqDecision capture.
Proof. solve_decision. Defined.

Record ErrorObservabilityPolicy := mkPolicy {
  pol_severity : severity;
  pol_sentry : capture;
  pol_pagingEligible : bool;
  pol_expectedVolume : volume;
  pol_owner : owner;
}.

Record ErrorCodeSpec := mkSpec {
  spec_category : ErrorCategory;
  spec_surface : surface;
  spec_httpStatus : option Z;
  spec_retryable : bool;
  spec_recovery : option RecoveryClass;
  spec_observability : ErrorObservabilityPolicy;
}.

Definition is_auth (c : ErrorCategory) : bool := bool_decide (c = cat_auth).

Definition observabilityPolicy (category : ErrorCategory) (httpStatus : option Z)
    (operational : bool) : ErrorObservabilityPolicy :=
  if 500 <=? default 0 httpStatus
  then mkPolicy sev_error capture_issue true volume_low owner_platform
  else if operational
  then mkPolicy sev_warning capture_issue false volume_low owner_platform
  else mkPolicy (if is_auth category then sev_info else sev_warning) capture_log false
         (if is_auth category then volume_high else volume_normal) owner_product.

Definition wire (category : ErrorCategory) (httpStatus : Z) (retryable : bool)
    (recovery : option RecoveryClass) (operational : bool) : ErrorCodeSpec :=
  mkSpec category surface_wire (Some httpStatus) retryable recovery
    (observabilityPolicy category (Some httpStatus) operational).

Definition expectedOperationalWire (category : ErrorCategory) (httpStatus : Z) (retryable : bool)
    : ErrorCodeSpec :=
  let spec := wire category httpStatus retryable None false in
  mkSpec (spec_category spec) (spec_surface spec) (spec_httpStatus spec) (spec_retryable spec)
    (spec_recovery spec) (mkPolicy sev_warning capture_log false volume_normal owner_product).

Definition client (category : ErrorCategory) (recovery : option RecoveryClass) : ErrorCodeSpec :=
  mkSpec category surface_client None false recovery (observabilityPolicy category None false).

(** ** The registry, section by section as the source orders it *)

Definition auth_codes_1 : list (string * ErrorCodeSpec) := [
  ("apikey_invalid", wire cat_auth 401 false None false);
  ("apikey_revoked", wire cat_auth 401 false None false);
  ("apikey_expired", wire cat_auth 401 false (Some rec_access_credential_expiry) false);
  ("apikey_rotation_expired", wire cat_auth 401 false None false);
  ("apikey_missing", wire cat_auth 401 false None false);
  ("api_key_required", wire cat_auth 401 false None false);
  ("capability_id_missing", wire cat_auth 401 false None false);
  ("exchange_failed", wire cat_auth 401 false None false);
  ("identity_resolve_failed", wire cat_auth 401 false None false);
  ("auth_no_credentials", wire cat_auth 401 false None false);
  ("identity_missing_organization", wire cat_auth 401 false None false);
  ("session_expired", wire cat_auth 401 false (Some rec_session_expiry) false);
  ("better_auth_request_failed", wire cat_auth 400 false None false);
  ("better_auth_upstream_failed", wire cat_server 500 true None false);
  ("jwt_invalid", wire cat_auth 401 false None false);
  ("jwt_malformed", wire cat_auth 401 false None false);
  ("jwt_missing_issuer", wire cat_auth 401 false None false);
  ("jwt_issuer_untrusted", wire cat_auth 401 false None false);
  ("jwt_signature_invalid", wire cat_auth 401 false None false);
  ("jwt_audience_mismatch", wire cat_auth 401 false None false);
  ("jwt_missing_subject", wire cat_auth 401 false None false);
  ("jwt_missing_organization", wire cat_auth 401 false None false)].

Definition auth_codes_2 : list (string * ErrorCodeSpec) := [
  ("jwt_expired", wire cat_auth 401 false (Some rec_session_expiry) false);
  ("jwt_org_membership_denied", wire cat_auth 403 false None false);
  ("file_upload_auth_required", wire cat_auth 401 false None false);
  ("browser_apikey_blocked", client cat_auth None);
  ("datasource_connection_unsupported", wire cat_validation 400 false None false);
  ("source_connector_localhost_required", wire cat_validation 400 false None false);
  ("source_connector_unauthenticated", wire cat_auth 401 false None false)].

Definition permission_codes : list (string * ErrorCodeSpec) := [
  ("capability_scope_denied", wire cat_capability 403 false None false);
  ("issuer_register_forbidden", wire cat_permission 403 false None false);
  ("capability_invalid", wire cat_capability 403 false None false);
  ("tenant_routing_failed", wire cat_server 500 true None false);
  ("database_role_cannot_enforce_rls", wire cat_permission 403 false None true);
  ("database_role_unreadable", wire cat_permission 403 false None true);
  ("database_tables_unforced_rls", wire cat_permission 403 false None true);
  ("database_host_not_allowed", wire cat_permission 403 false None false);
  ("database_loopback_requires_connector", wire cat_validation 400 false None false);
  ("connected_database_unreachable", wire cat_tenant 503 false None false);
  ("byo_role_cannot_enforce_rls", wire cat_permission 403 false None false);
  ("byo_role_unreadable", wire cat_permission 403 false None false);
  ("byo_tenant_tables_unforced_rls", wire cat_permission 403 false None false);
  ("byo_host_not_allowed", wire cat_permission 403 false None false)].

Definition claim_codes : list (string * ErrorCodeSpec) := [
  ("claim_conflict", wire cat_claim 409 false None false);
  ("claim_lost", wire cat_claim 409 false None false);
  ("fence_token_stale", wire cat_claim 409 false None false);
  ("entity_claimed", wire cat_claim 409 false None false);
  ("malformed_claim", wire cat_validation 400 false None false);
  ("malformed_subscription", wire cat_validation 400 false None false);
  ("malformed_response", wire cat_transport 502 false None false);
  ("model_claimed", wire cat_claim 409 false None false);
  ("model_claimed_timeout", wire cat_claim 409 false None false);
  ("model_claim_not_configured", client cat_claim None)].

Definition stale_codes : list (string * ErrorCodeSpec) := [
  ("stale_context", wire cat_conflict 409 false None false);
  ("decision_contended", wire cat_conflict 409 true None false);
  ("contention_exhausted", client cat_conflict None);
  ("update_aborted", client cat_conflict None);
  ("idempotency_conflict", wire cat_conflict 409 false None false);
  ("idempotency_key_expired", wire cat_conflict 409 false None false);
  ("source_transport_pinned", wire cat_conflict 409 false None false);
  ("precondition_failed", wire cat_conflict 409 false None false);
  ("idempotency_key_too_long", wire cat_validation 400 false None false)].

Definition validation_codes_1 : list (string * ErrorCodeSpec) := [
  ("read_evidence_client_mismatch", client cat_validation None);
  ("write_options_invalid", client cat_validation None);
  ("write_payload_invalid", client cat_validation None);
  ("source_operation_id_required", client cat_validation None);
  ("source_adapter_misconfigured", client cat_validation None);
  ("source_event_invalid", wire cat_validation 400 false None false);
  ("duration_invalid", client cat_validation None);
  ("schema_definition_invalid", client cat_validation None);
  ("cli_invalid_arguments", client cat_validation None);
  ("cli_api_key_missing", client cat_auth (Some rec_none));
  ("cli_database_url_missing", client cat_validation None);
  ("cli_database_unreachable", client cat_transport None);
  ("commit_operation_required", wire cat_validation 400 false None false);
  ("commit_operation_invalid", wire cat_validation 400 false None false);
  ("commit_operation_model_required", wire cat_validation 400 false None false);
  ("commit_operations_ambiguous", wire cat_validation 400 false None false);
  ("commit_too_many_operations", wire cat_validation 400 false None false);
  ("model_required_field_missing", wire cat_validation 400 false None false);
  ("model_identifier_missing", wire cat_validation 400 false None false);
  ("snapshot_reserved_key", wire cat_validation 400 false None false);
  ("mesh_message_invalid_input", wire cat_validation 400 false None false);
  ("mesh_message_from_id_spoof", wire cat_validation 403 false None false);
  ("mesh_message_from_kind_mismatch", wire cat_validation 403 false None false);
  ("agent_perception_missing_context", wire cat_validation 422 false None false);
  ("invalid_input", wire cat_validation 400 false None false)].

Definition validation_codes_2 : list (string * ErrorCodeSpec) := [
  ("validation_failed", wire cat_validation 400 false None false);
  ("invalid_mutator", wire cat_not_found 404 false None false);
  ("permission_denied", wire cat_permission 403 false None false);
  ("source_connector_requires_secret_key", wire cat_permission 403 false None false);
  ("source_connector_production_not_enabled", wire cat_permission 403 false None false)].

Definition not_found_codes : list (string * ErrorCodeSpec) := [
  ("entity_not_found", wire cat_not_found 404 false None false);
  ("model_not_found", wire cat_not_found 404 false None false);
  ("mutate_update_entity_not_found", wire cat_not_found 404 false None false);
  ("no_data_source_registered", wire cat_not_found 404 false None true);
  ("source_connector_no_source_registered", wire cat_not_found 404 false None false);
  ("item_id_missing", wire cat_server 502 true None false)].

Definition integrity_codes : list (string * ErrorCodeSpec) := [
  ("not_null_violation", wire cat_validation 400 false None false);
  ("foreign_key_violation", wire cat_conflict 409 false None false);
  ("entity_already_exists", wire cat_conflict 409 false None false);
  ("unique_violation", wire cat_conflict 409 false None false);
  ("check_violation", wire cat_validation 400 false None false);
  ("constraint_violation", wire cat_validation 400 false None false);
  ("column_type_mismatch", wire cat_validation 400 false None false);
  ("column_value_out_of_range", wire cat_validation 400 false None false)].

Definition tenant_codes : list (string * ErrorCodeSpec) := [
  ("server_execute_unknown_model", wire cat_tenant 400 false None false);
  ("mutate_create_unknown_model", wire cat_tenant 400 false None false);
  ("tenant_model_columns_unknown", wire cat_tenant 400 false None false);
  ("tenant_model_missing_organization_id", wire cat_tenant 400 false None false)].

Definition schema_codes : list (string * ErrorCodeSpec) := [
  ("schema_mutable_missing_meta", wire cat_schema 400 false None false);
  ("schema_scope_kind_invalid", wire cat_schema 400 false None false);
  ("schema_field_not_camelcase", wire cat_schema 400 false None false);
  ("schema_field_consecutive_caps", wire cat_schema 400 false None false);
  ("schema_reserved_field", client cat_schema None);
  ("schema_grants_shape_invalid", wire cat_schema 400 false None false);
  ("schema_grants_identifier_unsafe", wire cat_schema 400 false None false);
  ("schema_grants_relation_kind", wire cat_schema 400 false None false);
  ("schema_grants_relation_missing", wire cat_schema 400 false None false);
  ("schema_grants_target_not_scope_root", wire cat_schema 400 false None false);
  ("drop_field", client cat_schema None);
  ("drop_model", client cat_schema None);
  ("lossy_recreate", client cat_schema None);
  ("made_required", client cat_schema None);
  ("required_field_added", client cat_schema None);
  ("enum_value_removed", client cat_schema None);
  ("risky_cast", client cat_schema None)].

Definition lease_codes : list (string * ErrorCodeSpec) := [
  ("claim_lease_unavailable", wire cat_claim 503 true None false);
  ("claim_not_wired", client cat_claim None);
  ("claim_queued", wire cat_claim 409 true None false);
  ("claim_wait_aborted", wire cat_claim 409 true None false);
  ("grant_timeout", wire cat_claim 504 true None false)].

Definition bootstrap_codes : list (string * ErrorCodeSpec) := [
  ("bootstrap_fetch_timeout", wire cat_bootstrap 504 true None false);
  ("bootstrap_cancelled", client cat_bootstrap None);
  ("bootstrap_offline", wire cat_bootstrap 503 true None false);
  ("bootstrap_offline_no_cache", wire cat_bootstrap 503 false None false);
  ("bootstrap_response_invalid", wire cat_bootstrap 502 true None false);
  ("bootstrap_response_schema_invalid", wire cat_bootstrap 502 true None false)].

Definition transport_codes_1 : list (string * ErrorCodeSpec) := [
  ("exchange_malformed_response", wire cat_transport 502 true None false);
  ("exchange_network_error", wire cat_transport 503 true None false);
  ("source_network_error", wire cat_transport 503 true None false);
  ("source_request_failed", wire cat_transport 502 true None false);
  ("source_id_missing", wire cat_auth 401 false None false);
  ("source_api_key_missing", wire cat_auth 401 false None false);
  ("source_timestamp_missing", wire cat_auth 401 false None false);
  ("source_timestamp_invalid", wire cat_auth 401 false None false);
  ("source_timestamp_expired", wire cat_auth 401 false None false);
  ("source_signature_missing", wire cat_auth 401 false None false);
  ("source_signature_invalid", wire cat_auth 401 false None false);
  ("source_forbidden", wire cat_permission 403 false None false);
  ("source_connector_not_attached", expectedOperationalWire cat_transport 503 true);
  ("source_connector_timeout", wire cat_transport 504 true None false);
  ("source_connector_send_failed", wire cat_transport 502 true None false);
  ("source_connector_disconnected", wire cat_transport 503 true None false);
  ("source_connector_superseded", wire cat_transport 503 true None false);
  ("source_connector_shutdown", wire cat_transport 503 true None false);
  ("source_connector_protocol_error", wire cat_transport 400 false None false);
  ("source_unreachable", wire cat_transport 503 true None false);
  ("data_source_blocked", wire cat_transport 503 false None false);
  ("source_connector_handler_error", wire cat_server 500 true None false);
  ("source_connector_internal_error", wire cat_server 500 true None false);
  ("identity_network_error", wire cat_transport 503 true None false)].

Definition transport_codes_2 : list (string * ErrorCodeSpec) := [
  ("commit_no_result", wire cat_transport 504 true None false);
  ("commit_failed", wire cat_transport 500 true None false);
  ("replication_lag_timeout", wire cat_transport 504 true None false);
  ("commit_offline_grace_expired", wire cat_transport 503 false None false);
  ("observation_buffer_overflow", client cat_transport None);
  ("queue_too_deep", wire cat_transport 503 true None false);
  ("flush_timeout", wire cat_transport 504 true None false);
  ("wait_for_timeout", wire cat_transport 504 true None false);
  ("instance_at_capacity", wire cat_transport 503 true None false);
  ("subscription_delivery_unavailable", wire cat_transport 503 true None false);
  ("delivery_partition_mismatch", wire cat_transport 503 true None false);
  ("fetch_unavailable", client cat_transport None);
  ("api_unreachable", client cat_transport None);
  ("response_unrecognized", client cat_transport None);
  ("base_url_missing", client cat_transport None);
  ("sync_not_ready", client cat_transport None);
  ("ws_not_ready", client cat_transport None)].

Definition rate_limit_codes : list (string * ErrorCodeSpec) := [
  ("quota_exceeded", wire cat_rate_limit 429 true None false);
  ("connection_limit_exceeded", wire cat_rate_limit 429 true None false);
  ("rate_limit_exceeded", wire cat_rate_limit 429 true None false)].

Definition server_codes : list (string * ErrorCodeSpec) := [
  ("session_check_failed", wire cat_server 503 true None false);
  ("mint_failed", wire cat_server 502 true None false);
  ("server_side_only", wire cat_permission 403 false None false);
  ("unknown_auth_host", wire cat_auth 400 false None false);
  ("no_active_organization", wire cat_tenant 400 false None false);
  ("data_session_unsupported", wire cat_validation 400 false None false);
  ("internal_error", wire cat_server 500 true None false);
  ("quota_lookup_failed", wire cat_server 503 true None false);
  ("rate_limiter_unavailable", wire cat_server 503 true None false)].

Definition client_codes : list (string * ErrorCodeSpec) := [
  ("invalid_options", client cat_client None);
  ("no_ablo_provider", client cat_client None);
  ("no_sync_group_provider", client cat_client None);
  ("ablo_context_missing_provider", client cat_client None);
  ("db_not_opened", client cat_client None);
  ("db_secure_hash_unavailable", client cat_client None);
  ("db_identity_mismatch", client cat_client None);
  ("db_cleanup_failed", client cat_client None);
  ("db_store_not_found", client cat_client None);
  ("db_unknown_action_type", client cat_client None);
  ("idb_unavailable", client cat_client None);
  ("meta_db_not_initialized", client cat_client None);
  ("sync_client_db_missing", client cat_client None);
  ("lazy_ref_db_missing", client cat_client None);
  ("lazy_ref_pool_missing", client cat_client None);
  ("model_class_not_registered", client cat_client None);
  ("model_not_registered", client cat_client None);
  ("model_not_in_schema", client cat_client None);
  ("model_disposed", client cat_client None);
  ("pool_model_class_not_registered", client cat_client None);
  ("pool_registry_missing", client cat_client None);
  ("pool_subscribe_unregistered", client cat_client None);
  ("registry_invalid_constructor", client cat_client None);
  ("registry_not_initialized", client cat_client None);
  ("registry_property_conflict", client cat_client None);
  ("registry_reference_unknown_target", client cat_client None);
  ("registry_reference_unresolved", client cat_client None);
  ("registry_unknown_model", client cat_client None);
  ("query_returns_unknown_model", client cat_client None);
  ("store_create_schema_missing", client cat_client None);
  ("store_manager_unknown_model", client cat_client None);
  ("store_query_schema_missing", client cat_client None);
  ("store_query_unknown_model", client cat_client None);
  ("transaction_mutate_unknown_model", client cat_client None);
  ("transaction_read_unknown_model", client cat_client None);
  ("mutator_registry_duplicate", client cat_client None);
  ("mutator_registry_unnamed_def", client cat_client None);
  ("mutators_schema_missing", client cat_client None);
  ("undo_scope_schema_missing", client cat_client None);
  ("undo_entry_invalid", client cat_client None);
  ("mock_mutation_failed", client cat_client None);
  ("mock_unsupported_operation", client cat_client None)].

Definition route_codes_1 : list (string * ErrorCodeSpec) := [
  ("invalid_body", wire cat_validation 400 false None false);
  ("invalid_json", wire cat_validation 400 false None false);
  ("capability_id_required", wire cat_validation 400 false None false);
  ("organization_mismatch", wire cat_permission 403 false None false);
  ("project_scope_denied", wire cat_permission 403 false None false);
  ("branch_scope_denied", wire cat_permission 403 false None false);
  ("project_slug_taken", wire cat_validation 409 false None false);
  ("forbidden", wire cat_permission 403 false None false);
  ("source_api_key_unresolved", wire cat_auth 401 false None false);
  ("capability_auth_disabled", wire cat_server 503 false None false);
  ("capability_rotation_unavailable", wire cat_server 500 false None false);
  ("provisioner_unavailable", wire cat_server 503 false None false);
  ("invalid_model", wire cat_validation 400 false None false);
  ("invalid_id", wire cat_validation 400 false None false);
  ("unknown_model", wire cat_tenant 400 false None false);
  ("model_not_tenant_scoped", wire cat_tenant 400 false None false);
  ("source_tenancy_not_enforced", wire cat_tenant 400 false None false);
  ("user_scope_not_enforced", wire cat_tenant 400 false None false);
  ("model_not_provisioned", wire cat_tenant 409 false None false);
  ("schema_table_invalid", wire cat_schema 500 false None false);
  ("schema_scope_invalid", wire cat_schema 500 false None false);
  ("entity_fetch_failed", wire cat_server 500 true None false);
  ("events_required", wire cat_validation 400 false None false);
  ("ingest_failed", wire cat_validation 400 false None false);
  ("migration_failed", wire cat_server 500 false None false);
  ("schema_provisioning_forbidden", wire cat_permission 403 false None true);
  ("model_query_failed", wire cat_validation 400 false None false)].

Definition route_codes_2 : list (string * ErrorCodeSpec) := [
  ("queries_required", wire cat_validation 400 false None false);
  ("query_unsupported_operator", wire cat_validation 400 false None false);
  ("query_invalid_like_pattern", wire cat_validation 400 false None false);
  ("query_invalid_boolean", wire cat_validation 400 false None false);
  ("protocol_version_unsupported", wire cat_transport 426 false None false);
  ("database_unreachable", wire cat_validation 400 false None false);
  ("database_not_replication_ready", wire cat_validation 400 false None false);
  ("database_already_connected", wire cat_conflict 409 false None false);
  ("replication_publication_drift", wire cat_validation 400 false None false);
  ("query_unknown_relation", wire cat_validation 400 false None false);
  ("query_relation_target_unknown", wire cat_schema 500 false None false);
  ("query_invalid_identifier", wire cat_validation 400 false None false);
  ("query_relation_expansion_too_large", wire cat_validation 400 false None false);
  ("organization_disabled", wire cat_permission 403 false None false);
  ("org_id_required", wire cat_validation 400 false None false);
  ("presence_identity_required", wire cat_validation 400 false None false);
  ("upload_fields_required", wire cat_validation 400 false None false);
  ("upload_items_required", wire cat_validation 400 false None false);
  ("presigned_url_failed", wire cat_server 500 true None false);
  ("upload_not_configured", wire cat_server 503 false None false);
  ("item_id_required", wire cat_validation 400 false None false);
  ("claim_id_required", wire cat_validation 400 false None false);
  ("commit_operation_action_required", wire cat_validation 400 false None false);
  ("commit_operation_unsupported", wire cat_validation 400 false None false);
  ("usage_invalid", wire cat_validation 400 false None false);
  ("invalid_request", wire cat_validation 400 false None false);
  ("capability_not_found", wire cat_not_found 404 false None false);
  ("claim_not_found", wire cat_not_found 404 false None false)].

Definition route_codes_3 : list (string * ErrorCodeSpec) := [
  ("invalid_participant_kind", wire cat_validation 400 false None false);
  ("invalid_sync_group", wire cat_validation 400 false None false);
  ("narrow_scope_required", wire cat_validation 400 false None false);
  ("wide_scope_forbidden", wire cat_permission 403 false None false);
  ("capability_required", wire cat_auth 401 false None false);
  ("position_missing_parent", wire cat_validation 400 false None false);
  ("position_unknown_sibling", wire cat_validation 400 false None false);
  ("schema_too_large", wire cat_validation 413 false None false);
  ("request_too_large", wire cat_validation 413 false None false);
  ("invalid_schema", wire cat_validation 400 false None false);
  ("operational_warning", client cat_server None);
  ("incompatible_change", wire cat_conflict 409 false None false);
  ("replication_reset_required", wire cat_conflict 409 false None false)].

Definition ERROR_CODES : list (string * ErrorCodeSpec) :=
  auth_codes_1 ++ auth_codes_2 ++ permission_codes ++ claim_codes ++ stale_codes ++ validation_codes_1 ++ validation_codes_2 ++ not_found_codes ++ integrity_codes ++ tenant_codes ++ schema_codes ++ lease_codes ++ bootstrap_codes ++ transport_codes_1 ++ transport_codes_2 ++ rate_limit_codes ++ server_codes ++ client_codes ++ route_codes_1 ++ route_codes_2 ++ route_codes_3.

(** ** Lookup and classification *)

Fixpoint lookup_code (code : string) (l : list (string * ErrorCodeSpec)) : option ErrorCodeSpec :=
  match l with
  | [] => None
  | (c, spec) :: rest => if String.eqb code c then Some spec else lookup_code code rest
  end.

Definition errorCodeSpec (code : string) : option ErrorCodeSpec := lookup_code code ERROR_CODES.

Definition isRetryableCode (code : string) : bool :=
  match errorCodeSpec code with Some spec => spec_retryable spec | None => false end.

Definition classifyRecovery (code : string) : RecoveryClass :=
  match errorCodeSpec code with
  | None => rec_none
  | Some spec =>
      match spec_recovery spec with
      | Some r => r
      | None =>
          if spec_retryable spec then rec_transient
          else if bool_decide (spec_httpStatus spec = Some 403) then rec_permission
          else if is_auth (spec_category spec) then rec_auth_blocked
          else rec_none
      end
  end.

(** ** Errors as the client sees them ([errors.ts]) *)

(** The fields of an [AbloError] that callers branch on. *)
Record AbloErrorFields := mkAbloError {
  e_class : ErrorClass;
  e_code : option string;
  e_httpStatus : option Z;
  e_recovery : RecoveryClass;
  e_retryable : bool;
  e_retryAfterSeconds : option Z;
}.

(** The base constructor: [recovery] and [retryable] come from the code. The
    empty string is falsy, so it classifies as no code. *)
Definition truthy_code (code : option string) : option string :=
  match code with Some EmptyString => None | c => c end.

Definition new_error (cls : ErrorClass) (code : option string) (httpStatus : option Z)
    (retryAfter : option Z) : AbloErrorFields :=
  let recovery := match truthy_code code with
                  | Some c => classifyRecovery c | None => rec_none end in
  mkAbloError cls code httpStatus recovery (bool_decide (recovery = rec_transient)) retryAfter.

Definition claim_code_list : list string :=
  ["claim_conflict"; "entity_claimed"; "claim_lost"; "fence_token_stale"; "model_claimed";
   "model_claimed_timeout"; "claim_lease_unavailable"; "claim_wait_aborted"; "grant_timeout";
   "claim_queued"].

Definition code_is (code : option string) (s : string) : bool := bool_decide (code = Some s).

Definition errorFromWire (code : option string) (status : option Z) (retryAfter : option Z)
    : AbloErrorFields :=
  let httpStatus := match status with
                    | Some s => Some s
                    | None => match truthy_code code with
                              | Some c => errorCodeSpec c ≫= spec_httpStatus
                              | None => None end end in
  let status_is (s : Z) := bool_decide (httpStatus = Some s) in
  if code_is code "capability_scope_denied" || code_is code "capability_invalid"
  then new_error CapabilityError code (Some 403) None
  else if existsb (code_is code) claim_code_list
  then new_error AbloClaimedError code httpStatus retryAfter
  else if code_is code "stale_context" then new_error AbloStaleContextError code httpStatus retryAfter
  else if code_is code "decision_contended" then new_error AbloError code httpStatus retryAfter
  else if code_is code "connected_database_unreachable"
  then new_error AbloConnectionError code httpStatus retryAfter
  else if status_is 401 then new_error AbloAuthenticationError code httpStatus retryAfter
  else if status_is 403 then new_error AbloPermissionError code httpStatus retryAfter
  else if status_is 409 then new_error AbloIdempotencyError code httpStatus retryAfter
  else if status_is 422 || status_is 400 then new_error AbloValidationError code httpStatus retryAfter
  else if status_is 429 then new_error AbloRateLimitError code httpStatus retryAfter
  else if match httpStatus with Some s => 500 <=? s | None => false end
  then new_error AbloServerError code httpStatus retryAfter
  else new_error AbloError code httpStatus retryAfter.

(** [AbloSessionError.isSessionErrorResponse], with the code already extracted
    from the body. *)
Definition isSessionErrorResponse (status : Z) (code : option string) : bool :=
  match truthy_code code with
  | Some c => bool_decide (classifyRecovery c = rec_session_expiry)
  | None => status =? 401
  end.

Definition isAccessCredentialExpiryCloseReason (reason : string) : bool :=
  bool_decide (reason = "credential_expired"%string)
  || bool_decide (classifyRecovery reason = rec_access_credential_expiry).

(** ** The registry, checked entry by entry *)

Lemma lookup_code_elem c l s : lookup_code c l = Some s → (c, s) ∈ l.
Proof.
  induction l as [|[c' s'] l IH]; simpl; [done|].
  destruct (String.eqb c c') eqn:He; [|right; auto].
  apply String.eqb_eq in He as ->. intros [= ->]. left.
Qed.

(** A boolean fact of every entry of the registry holds of what a lookup finds. *)
Lemma registry_forall (P : string → ErrorCodeSpec → bool) c s :
  forallb (λ p, P p.1 p.2) ERROR_CODES = true → errorCodeSpec c = Some s → P c s = true.
Proof.
  intros Hall Hc. apply lookup_code_elem, list_elem_of_In in Hc.
  rewrite forallb_forall in Hall. exact (Hall _ Hc).
Qed.

Definition session_codes : list string := ["session_expired"; "jwt_expired"].

Definition recovery_ok (c : string) (s : ErrorCodeSpec) : bool :=
  let r := classifyRecovery c in
  Bool.eqb (bool_decide (r = rec_session_expiry)) (bool_decide (c ∈ session_codes))
  && Bool.eqb (bool_decide (r = rec_access_credential_expiry))
       (bool_decide (c = "apikey_expired"%string))
  && Bool.eqb (bool_decide (r = rec_transient)) (isRetryableCode c)
  && implb (isRetryableCode c) (bool_decide (spec_surface s = surface_wire)).

Lemma registry_recovery : forallb (λ p, recovery_ok p.1 p.2) ERROR_CODES = true.
Proof. vm_compute. reflexivity. Qed.

Lemma eqb_iff (P Q : Prop) `{Decision P, Decision Q} :
  Bool.eqb (bool_decide P) (bool_decide Q) = true → (P ↔ Q).
Proof. intros H1%eqb_prop. by repeat case_bool_decide. Qed.

(** Only the two lost-login codes classify as a session expiry. *)
Lemma session_class c : classifyRecovery c = rec_session_expiry ↔ c ∈ session_codes.
Proof.
  destruct (errorCodeSpec c) as [s|] eqn:Hs.
  - pose proof (registry_forall _ _ _ registry_recovery Hs) as H. unfold recovery_ok in H.
    do 3 apply andb_true_iff in H as [H _]. by apply eqb_iff in H.
  - unfold classifyRecovery. rewrite Hs. split; [done|]. unfold session_codes. intros Hin.
    set_unfold; destruct Hin as [->|[->|[]]]; vm_compute in Hs; discriminate.
Qed.

(** The taxonomy that decides recovery. Over every code, known or not, only a
    lost login classifies as a session expiry, only an expired ephemeral key as
    re-mintable, a code is transient exactly when it is retryable, and nothing
    but a wire code is ever retried. *)
Theorem recovery_classes code :
  (classifyRecovery code = rec_session_expiry ↔ code ∈ session_codes)
  ∧ (classifyRecovery code = rec_access_credential_expiry ↔ code = "apikey_expired"%string)
  ∧ (classifyRecovery code = rec_transient ↔ isRetryableCode code = true)
  ∧ (isRetryableCode code = true →
     ∃ spec, errorCodeSpec code = Some spec ∧ spec_surface spec = surface_wire).
Proof.
  split; [apply session_class|]. destruct (errorCodeSpec code) as [s|] eqn:Hs.
  - pose proof (registry_forall _ _ _ registry_recovery Hs) as H. unfold recovery_ok in H.
    apply andb_true_iff in H as [H H4]. apply andb_true_iff in H as [H H3].
    apply andb_true_iff in H as [_ H2]. apply eqb_iff in H2. apply eqb_prop in H3.
    split_and!; [done|by rewrite <- H3, bool_decide_eq_true|].
    intros Hr. exists s. split; [done|]. rewrite Hr in H4. simpl in H4. by bool_simpl.
  - assert (code ≠ "apikey_expired"%string) by (intros ->; vm_compute in Hs; discriminate).
    unfold classifyRecovery, isRetryableCode. rewrite Hs. split_and!; done.
Qed.

Definition class_ok (c : string) (s : ErrorCodeSpec) : bool :=
  let e := errorFromWire (Some c) None None in
  let cls := e_class e in
  implb (bool_decide (spec_surface s = surface_wire))
    (Bool.eqb (bool_decide (cls = AbloClaimedError)) (bool_decide (spec_category s = cat_claim))
     && Bool.eqb (bool_decide (cls = CapabilityError)) (bool_decide (spec_category s = cat_capability))
     && Bool.eqb (bool_decide (cls = AbloAuthenticationError)) (bool_decide (spec_httpStatus s = Some 401))
     && Bool.eqb (e_retryable e) (spec_retryable s)
     && implb (match spec_httpStatus s with Some st => 500 <=? st | None => false end)
          (bool_decide (cls = AbloServerError) || bool_decide (cls = AbloClaimedError)
           || bool_decide (c = "connected_database_unreachable"%string))).

Lemma registry_classes : forallb (λ p, class_ok p.1 p.2) ERROR_CODES = true.
Proof. vm_compute. reflexivity. Qed.

(** Which codes the code-first cases take; the status plays no part. *)
Lemma errorFromWire_claim code status ra :
  e_class (errorFromWire (Some code) status ra) = AbloClaimedError
  ↔ code_is (Some code) "capability_scope_denied" || code_is (Some code) "capability_invalid" = false
    ∧ existsb (code_is (Some code)) claim_code_list = true.
Proof. unfold errorFromWire. repeat case_match; simpl; naive_solver. Qed.

Lemma errorFromWire_capability code status ra :
  e_class (errorFromWire (Some code) status ra) = CapabilityError
  ↔ code_is (Some code) "capability_scope_denied" || code_is (Some code) "capability_invalid" = true.
Proof. unfold errorFromWire. repeat case_match; simpl; naive_solver. Qed.

Lemma errorFromWire_retryable code status ra :
  e_retryable (errorFromWire (Some code) status ra)
  = e_retryable (errorFromWire (Some code) None None).
Proof. unfold errorFromWire. repeat case_match; reflexivity. Qed.

(** A wire error is typed by what it is about, on every transport. For every
    registered wire code and whatever status the transport adds, claim codes and
    only they become [AbloClaimedError], capability codes and only they
    [CapabilityError], and the retryable flag is the registry's; a frame without
    a status is an authentication error exactly for the 401 codes, and a 5xx
    code stays a server error unless it is a claim outcome or the caller's own
    database being unreachable. *)
Theorem wire_errors_are_typed code spec status ra :
  errorCodeSpec code = Some spec → spec_surface spec = surface_wire →
  let e := errorFromWire (Some code) status ra in
  let frame := errorFromWire (Some code) None None in
  (e_class e = AbloClaimedError ↔ spec_category spec = cat_claim)
  ∧ (e_class e = CapabilityError ↔ spec_category spec = cat_capability)
  ∧ e_retryable e = spec_retryable spec
  ∧ (e_class frame = AbloAuthenticationError ↔ spec_httpStatus spec = Some 401)
  ∧ (∀ s, spec_httpStatus spec = Some s → 500 ≤ s →
     e_class frame ∈ [AbloServerError; AbloClaimedError] ∨ code = "connected_database_unreachable"%string).
Proof.
  intros Hs Hw. simpl. pose proof (registry_forall _ _ _ registry_classes Hs) as H.
  unfold class_ok in H. rewrite Hw in H. rewrite bool_decide_eq_true_2 in H by done. simpl in H.
  apply andb_true_iff in H as [H H5]. apply andb_true_iff in H as [H H4].
  apply andb_true_iff in H as [H H3]. apply andb_true_iff in H as [H1 H2].
  apply eqb_iff in H1, H2, H3. apply eqb_prop in H4.
  rewrite errorFromWire_claim in H1. rewrite errorFromWire_capability in H2.
  rewrite errorFromWire_claim, errorFromWire_capability, errorFromWire_retryable.
  split_and!; try done. intros s Hst Hle. rewrite Hst in H5.
  rewrite (proj2 (Z.leb_le _ _) Hle) in H5. simpl in H5.
  apply orb_true_iff in H5 as [H5|H5]; [left|right; by bool_simpl].
  apply orb_true_iff in H5 as [H5|H5]; bool_simpl; rewrite H5; set_solver.
Qed.

Lemma wire_errors_are_typed_witness :
  e_class (errorFromWire (Some "claim_lost"%string) (Some 409) None) = AbloClaimedError.
Proof.
  by apply (wire_errors_are_typed "claim_lost" (wire cat_claim 409 false None false) (Some 409) None).
Defined.

(** Signing out and re-minting never overlap. A response signs the user out
    only for a lost-login code or, with no code at all, a bare 401; and no code
    that signs the user out is one whose remedy is a fresh access key. *)
Theorem sign_out_needs_a_lost_login status code :
  isSessionErrorResponse status code =
    match truthy_code code with
    | Some c => bool_decide (c ∈ session_codes)
    | None => status =? 401
    end
  ∧ (∀ c, isSessionErrorResponse status (Some c) = true → c ≠ ""%string →
     isAccessCredentialExpiryCloseReason c = false).
Proof.
  assert (∀ c, bool_decide (classifyRecovery c = rec_session_expiry) = bool_decide (c ∈ session_codes))
    as Hc by (intros c; apply bool_decide_ext, session_class).
  unfold isSessionErrorResponse. split; [by destruct (truthy_code code)|].
  intros c Hr Hne. destruct c as [|a c]; [done|]. simpl truthy_code in Hr. cbv iota in Hr.
  rewrite Hc in Hr. bool_simpl. unfold session_codes in Hr.
  set_unfold. destruct Hr as [->|[->|[]]]; vm_compute; reflexivity.
Qed.
