(* ===== verification/Connection.v ===== *)
(** * The connection lifecycle

    [packages/transaction/src/transport/connection]: the probe that classifies
    reachability and credentials ([networkProbe.ts]) and the state machine that
    carries a client through a dropout and back ([manager.ts]): its pure
    transition table, the effects of entering each state, the credential
    re-mint bound, backoff, the browser listeners and the watchdog.

    A manager is a record; a method is a function on it that appends the effects
    it performs to [m_trace]. Callbacks and promises belong to the embedding
    store: a call is an effect, and its settling is an input of its own, so any
    interleaving of settlements, timers and browser events is a list of inputs.
    Callbacks that call back into the machine before they return are not
    modelled. *)
From S2P Require Import Prelude ErrorCodes.

(** ** The probe ([networkProbe.ts]) *)

Inductive ProbeOutcome :=
  | reachable
  | unreachable
  | probe_session_expired
  | credential_stale
  | probe_auth_blocked.

#[export] Instance ProbeOutcome_eq_dec : EqDecision ProbeOutcome.
Proof. solve_decision. Defined.

(** What a response says: its status and [x-auth-failure] header. An empty header
    is falsy. *)
Definition classify_response (status : Z) (authFailure : option string) : ProbeOutcome :=
  match truthy_code authFailure with
  | Some code =>
      match classifyRecovery code with
      | rec_session_expiry => probe_session_expired
      | rec_access_credential_expiry => credential_stale
      | rec_auth_blocked | rec_permission | rec_none => probe_auth_blocked
      | rec_transient => reachable
      end
  | None => if status =? 401 then credential_stale else reachable
  end.

(** [navigator] may be absent, and its [onLine] may be undefined. *)
Definition Navigator : Type := option (option bool).
Definition definitely_offline (nav : Navigator) : bool := bool_decide (nav = Some (Some false)).

(** [fetched] is what [fetch] did: [None] when it rejected or timed out. *)
Definition probeNetwork (nav : Navigator) (fetched : option (Z * option string)) : ProbeOutcome :=
  if definitely_offline nav then unreachable
  else match fetched with
       | Some (status, authFailure) => classify_response status authFailure
       | None => unreachable
       end.

(** ** States, events and effects ([manager.ts]) *)

Inductive ConnectionState :=
  | connected
  | offline
  | probing_network
  | validating_session
  | refreshing_credential
  | reconnecting
  | backoff
  | waiting_for_network
  | auth_blocked
  | session_expired.

#[export] Instance ConnectionState_eq_dec : EqDecision ConnectionState.
Proof. solve_decision. Defined.

Inductive ConnectionEvent :=
  | NETWORK_LOST
  | NETWORK_ONLINE
  | TAB_VISIBLE
  | WS_CONNECTED
  | WS_DISCONNECTED
  | WS_SESSION_ERROR
  | WS_HANDSHAKE_FAILED
  | PROBE_SUCCESS (sessionValid : bool)
  | PROBE_AUTH_BLOCKED
  | PROBE_CREDENTIAL_STALE
  | PROBE_FAILED
  | CREDENTIAL_REFRESHED
  | RECONNECT_SUCCESS
  | RECONNECT_FAILED
  | BACKOFF_ELAPSED
  | BOOTSTRAP_FAILED_SESSION
  | MANUAL_RETRY.

#[export] Instance ConnectionEvent_eq_dec : EqDecision ConnectionEvent.
Proof. solve_decision. Defined.

(** Outcomes of [onReconnect] and of [onRefreshCredential]. *)
Inductive ReconnectOutcome := reconnect_success | reconnect_session_error | reconnect_network_error.
Inductive CredentialRefreshOutcome := refreshed | refresh_session_error | refresh_network_error.

(** What the machine does to the outside: the callbacks it calls, the promises it
    starts, the timer it arms and the page reload it asks for. *)
Inductive effect :=
  | onStateChange (next prev : ConnectionState)
  | onDisconnectWebSocket
  | onSessionExpired
  | StartProbe
  | StartReconnect
  | StartRefresh
  | ArmBackoff (delay : Z)
  | Reload.

#[export] Instance effect_eq_dec : EqDecision effect.
Proof. solve_decision. Defined.

(** [DEFAULT_BACKOFF]; the jitter is a fraction. *)
Record Backoff := mkBackoff {
  BASE_MS : Z;
  MAX_MS : Z;
  MAX_ATTEMPTS : Z;
  JITTER : Z * Z;
}.
Definition DEFAULT_BACKOFF : Backoff := mkBackoff 2000 30000 8 (15, 100).
Definition MAX_STUCK_CYCLES_BEFORE_RELOAD : Z := 6.
Definition MAX_CREDENTIAL_REFRESH_ATTEMPTS : Z := 3.

(** What is fixed for the life of a manager: its tunables, whether there is a
    [window], and which optional callbacks the store passed. *)
Record config := mkConfig {
  cfg_backoff : Backoff;
  cfg_window : bool;
  cfg_onRefreshCredential : bool;
  cfg_onStateChange : bool;
}.

(** What a call reads from its surroundings: the clock, one draw of [Math.random]
    as a fraction of [2^53], and [navigator]. *)
Record env := mkEnv { now : Z; random : Z; navigator : Navigator }.

(** The private fields of [ConnectionManager]. [m_probes], [m_reconnects] and
    [m_refreshes] count the promises that have not settled. *)
Record manager := mkManager {
  m_state : ConnectionState;
  m_offlineSince : option Z;
  m_attempt : Z;
  m_lastProbeResult : option ProbeOutcome;
  m_callbacks : bool;
  m_backoffTimer : option Z;
  m_debounceTimer : bool;
  m_watchdogTimer : bool;
  m_listeners : bool;
  m_stuckCycles : Z;
  m_refreshAttempts : Z;
  m_disposed : bool;
  m_probes : nat;
  m_reconnects : nat;
  m_refreshes : nat;
  m_trace : list effect;
}.

Definition set_m_state (x : ConnectionState) (m : manager) : manager :=
  mkManager x (m_offlineSince m) (m_attempt m) (m_lastProbeResult m) (m_callbacks m)
    (m_backoffTimer m) (m_debounceTimer m) (m_watchdogTimer m) (m_listeners m)
    (m_stuckCycles m) (m_refreshAttempts m) (m_disposed m) (m_probes m) (m_reconnects m)
    (m_refreshes m) (m_trace m).
Definition set_m_offlineSince (x : option Z) (m : manager) : manager :=
  mkManager (m_state m) x (m_attempt m) (m_lastProbeResult m) (m_callbacks m)
    (m_backoffTimer m) (m_debounceTimer m) (m_watchdogTimer m) (m_listeners m)
    (m_stuckCycles m) (m_refreshAttempts m) (m_disposed m) (m_probes m) (m_reconnects m)
    (m_refreshes m) (m_trace m).
Definition set_m_attempt (x : Z) (m : manager) : manager :=
  mkManager (m_state m) (m_offlineSince m) x (m_lastProbeResult m) (m_callbacks m)
    (m_backoffTimer m) (m_debounceTimer m) (m_watchdogTimer m) (m_listeners m)
    (m_stuckCycles m) (m_refreshAttempts m) (m_disposed m) (m_probes m) (m_reconnects m)
    (m_refreshes m) (m_trace m).
Definition set_m_lastProbeResult (x : option ProbeOutcome) (m : manager) : manager :=
  mkManager (m_state m) (m_offlineSince m) (m_attempt m) x (m_callbacks m)
    (m_backoffTimer m) (m_debounceTimer m) (m_watchdogTimer m) (m_listeners m)
    (m_stuckCycles m) (m_refreshAttempts m) (m_disposed m) (m_probes m) (m_reconnects m)
    (m_refreshes m) (m_trace m).
Definition set_m_callbacks (x : bool) (m : manager) : manager :=
  mkManager (m_state m) (m_offlineSince m) (m_attempt m) (m_lastProbeResult m) x
    (m_backoffTimer m) (m_debounceTimer m) (m_watchdogTimer m) (m_listeners m)
    (m_stuckCycles m) (m_refreshAttempts m) (m_disposed m) (m_probes m) (m_reconnects m)
    (m_refreshes m) (m_trace m).
Definition set_m_backoffTimer (x : option Z) (m : manager) : manager :=
  mkManager (m_state m) (m_offlineSince m) (m_attempt m) (m_lastProbeResult m)
    (m_callbacks m) x (m_debounceTimer m) (m_watchdogTimer m) (m_listeners m)
    (m_stuckCycles m) (m_refreshAttempts m) (m_disposed m) (m_probes m) (m_reconnects m)
    (m_refreshes m) (m_trace m).
Definition set_m_debounceTimer (x : bool) (m : manager) : manager :=
  mkManager (m_state m) (m_offlineSince m) (m_attempt m) (m_lastProbeResult m)
    (m_callbacks m) (m_backoffTimer m) x (m_watchdogTimer m) (m_listeners m)
    (m_stuckCycles m) (m_refreshAttempts m) (m_disposed m) (m_probes m) (m_reconnects m)
    (m_refreshes m) (m_trace m).
Definition set_m_watchdogTimer (x : bool) (m : manager) : manager :=
  mkManager (m_state m) (m_offlineSince m) (m_attempt m) (m_lastProbeResult m)
    (m_callbacks m) (m_backoffTimer m) (m_debounceTimer m) x (m_listeners m)
    (m_stuckCycles m) (m_refreshAttempts m) (m_disposed m) (m_probes m) (m_reconnects m)
    (m_refreshes m) (m_trace m).
Definition set_m_listeners (x : bool) (m : manager) : manager :=
  mkManager (m_state m) (m_offlineSince m) (m_attempt m) (m_lastProbeResult m)
    (m_callbacks m) (m_backoffTimer m) (m_debounceTimer m) (m_watchdogTimer m) x
    (m_stuckCycles m) (m_refreshAttempts m) (m_disposed m) (m_probes m) (m_reconnects m)
    (m_refreshes m) (m_trace m).
Definition set_m_stuckCycles (x : Z) (m : manager) : manager :=
  mkManager (m_state m) (m_offlineSince m) (m_attempt m) (m_lastProbeResult m)
    (m_callbacks m) (m_backoffTimer m) (m_debounceTimer m) (m_watchdogTimer m)
    (m_listeners m) x (m_refreshAttempts m) (m_disposed m) (m_probes m) (m_reconnects m)
    (m_refreshes m) (m_trace m).
Definition set_m_refreshAttempts (x : Z) (m : manager) : manager :=
  mkManager (m_state m) (m_offlineSince m) (m_attempt m) (m_lastProbeResult m)
    (m_callbacks m) (m_backoffTimer m) (m_debounceTimer m) (m_watchdogTimer m)
    (m_listeners m) (m_stuckCycles m) x (m_disposed m) (m_probes m) (m_reconnects m)
    (m_refreshes m) (m_trace m).
Definition set_m_disposed (x : bool) (m : manager) : manager :=
  mkManager (m_state m) (m_offlineSince m) (m_attempt m) (m_lastProbeResult m)
    (m_callbacks m) (m_backoffTimer m) (m_debounceTimer m) (m_watchdogTimer m)
    (m_listeners m) (m_stuckCycles m) (m_refreshAttempts m) x (m_probes m) (m_reconnects m)
    (m_refreshes m) (m_trace m).
Definition set_m_probes (x : nat) (m : manager) : manager :=
  mkManager (m_state m) (m_offlineSince m) (m_attempt m) (m_lastProbeResult m)
    (m_callbacks m) (m_backoffTimer m) (m_debounceTimer m) (m_watchdogTimer m)
    (m_listeners m) (m_stuckCycles m) (m_refreshAttempts m) (m_disposed m) x
    (m_reconnects m) (m_refreshes m) (m_trace m).
Definition set_m_reconnects (x : nat) (m : manager) : manager :=
  mkManager (m_state m) (m_offlineSince m) (m_attempt m) (m_lastProbeResult m)
    (m_callbacks m) (m_backoffTimer m) (m_debounceTimer m) (m_watchdogTimer m)
    (m_listeners m) (m_stuckCycles m) (m_refreshAttempts m) (m_disposed m) (m_probes m) x
    (m_refreshes m) (m_trace m).
Definition set_m_refreshes (x : nat) (m : manager) : manager :=
  mkManager (m_state m) (m_offlineSince m) (m_attempt m) (m_lastProbeResult m)
    (m_callbacks m) (m_backoffTimer m) (m_debounceTimer m) (m_watchdogTimer m)
    (m_listeners m) (m_stuckCycles m) (m_refreshAttempts m) (m_disposed m) (m_probes m)
    (m_reconnects m) x (m_trace m).
Definition set_m_trace (x : list effect) (m : manager) : manager :=
  mkManager (m_state m) (m_offlineSince m) (m_attempt m) (m_lastProbeResult m)
    (m_callbacks m) (m_backoffTimer m) (m_debounceTimer m) (m_watchdogTimer m)
    (m_listeners m) (m_stuckCycles m) (m_refreshAttempts m) (m_disposed m) (m_probes m)
    (m_reconnects m) (m_refreshes m) x.

Definition emit (e : effect) (m : manager) : manager := set_m_trace (m_trace m ++ [e]) m.

(** ** The transition table *)

Definition transition (state : ConnectionState) (event : ConnectionEvent) : option ConnectionState :=
  match state with
  | connected =>
      match event with
      | NETWORK_LOST => Some offline
      | WS_DISCONNECTED => Some probing_network
      | WS_SESSION_ERROR | BOOTSTRAP_FAILED_SESSION => Some session_expired
      | WS_HANDSHAKE_FAILED => Some probing_network
      | TAB_VISIBLE => Some probing_network
      | _ => None
      end
  | offline =>
      match event with
      | NETWORK_ONLINE | MANUAL_RETRY | TAB_VISIBLE | WS_HANDSHAKE_FAILED | CREDENTIAL_REFRESHED =>
          Some probing_network
      | WS_SESSION_ERROR | BOOTSTRAP_FAILED_SESSION => Some session_expired
      | _ => None
      end
  | probing_network =>
      match event with
      | PROBE_SUCCESS sessionValid => Some (if sessionValid then reconnecting else session_expired)
      | PROBE_CREDENTIAL_STALE => Some refreshing_credential
      | PROBE_AUTH_BLOCKED => Some auth_blocked
      | PROBE_FAILED => Some waiting_for_network
      | NETWORK_LOST => Some offline
      | _ => None
      end
  | waiting_for_network =>
      match event with
      | NETWORK_ONLINE | TAB_VISIBLE | MANUAL_RETRY | BACKOFF_ELAPSED | CREDENTIAL_REFRESHED =>
          Some probing_network
      | NETWORK_LOST => Some offline
      | _ => None
      end
  | validating_session =>
      match event with
      | PROBE_SUCCESS sessionValid => Some (if sessionValid then reconnecting else session_expired)
      | PROBE_CREDENTIAL_STALE => Some refreshing_credential
      | PROBE_AUTH_BLOCKED => Some auth_blocked
      | NETWORK_LOST => Some offline
      | _ => None
      end
  | refreshing_credential =>
      match event with
      | CREDENTIAL_REFRESHED => Some probing_network
      | BOOTSTRAP_FAILED_SESSION => Some session_expired
      | RECONNECT_FAILED => Some backoff
      | PROBE_AUTH_BLOCKED => Some auth_blocked
      | NETWORK_LOST => Some offline
      | _ => None
      end
  | reconnecting =>
      match event with
      | RECONNECT_SUCCESS | WS_CONNECTED => Some connected
      | RECONNECT_FAILED | WS_HANDSHAKE_FAILED => Some backoff
      | BOOTSTRAP_FAILED_SESSION | WS_SESSION_ERROR => Some session_expired
      | NETWORK_LOST => Some offline
      | _ => None
      end
  | backoff =>
      match event with
      | BACKOFF_ELAPSED | MANUAL_RETRY | WS_HANDSHAKE_FAILED => Some probing_network
      | NETWORK_ONLINE | TAB_VISIBLE | CREDENTIAL_REFRESHED => Some probing_network
      | NETWORK_LOST => Some offline
      | WS_SESSION_ERROR | BOOTSTRAP_FAILED_SESSION => Some session_expired
      | _ => None
      end
  | auth_blocked =>
      match event with
      | MANUAL_RETRY | TAB_VISIBLE | NETWORK_ONLINE | CREDENTIAL_REFRESHED => Some probing_network
      | NETWORK_LOST => Some offline
      | WS_SESSION_ERROR | BOOTSTRAP_FAILED_SESSION => Some session_expired
      | _ => None
      end
  | session_expired => None
  end.

(** ** Timers and backoff *)

Section Manager.
Context (cfg : config).

Definition clearBackoffTimer (m : manager) : manager := set_m_backoffTimer None m.
Definition clearDebounceTimer (m : manager) : manager := set_m_debounceTimer false m.

(** [Math.round(baseDelay + jitter)] with
    [jitter = baseDelay * JITTER * (2 * random - 1)], over the common denominator. *)
Definition backoff_delay (b : Backoff) (attempt random : Z) : Z :=
  let baseDelay := Z.min (BASE_MS b * 2 ^ attempt) (MAX_MS b) in
  let den := (JITTER b).2 * 2 ^ 53 in
  let num := baseDelay * den + baseDelay * (JITTER b).1 * (2 * random - 2 ^ 53) in
  (2 * num + den) / (2 * den).

Definition scheduleBackoff (e : env) (m : manager) : manager :=
  let m := clearBackoffTimer m in
  if MAX_ATTEMPTS (cfg_backoff cfg) <=? m_attempt m then
    if definitely_offline (navigator e) then set_m_attempt 0 m
    else if cfg_window cfg then emit Reload m else m
  else
    let delay := backoff_delay (cfg_backoff cfg) (m_attempt m) (random e) in
    emit (ArmBackoff delay) (set_m_backoffTimer (Some delay) (set_m_attempt (m_attempt m + 1) m)).

(** ** Effects of entering a state, and [send]

    [onEnterState] and the synchronous prefix of [runRefreshCredential] call [send]
    back; [resend] is that call. *)

Definition call (e : effect) (m : manager) : manager := if m_callbacks m then emit e m else m.

Definition runProbe (m : manager) : manager := emit StartProbe (set_m_probes (S (m_probes m)) m).

Definition runReconnect (m : manager) : manager :=
  if m_callbacks m then emit StartReconnect (set_m_reconnects (S (m_reconnects m)) m) else m.

Definition runRefreshCredential (resend : ConnectionEvent → manager → manager) (m : manager) : manager :=
  if MAX_CREDENTIAL_REFRESH_ATTEMPTS <=? m_refreshAttempts m then
    resend PROBE_AUTH_BLOCKED (set_m_refreshAttempts 0 m)
  else
    let m := set_m_refreshAttempts (m_refreshAttempts m + 1) m in
    if m_callbacks m && cfg_onRefreshCredential cfg then
      emit StartRefresh (set_m_refreshes (S (m_refreshes m)) m)
    else resend CREDENTIAL_REFRESHED m.

Definition onEnterState (resend : ConnectionEvent → manager → manager) (e : env)
    (state : ConnectionState) (event : ConnectionEvent) (m : manager) : manager :=
  match state with
  | connected => set_m_refreshAttempts 0 (clearBackoffTimer m)
  | offline => call onDisconnectWebSocket (clearBackoffTimer m)
  | probing_network =>
      runProbe (if bool_decide (event = WS_DISCONNECTED) then call onDisconnectWebSocket m else m)
  | waiting_for_network => scheduleBackoff e m
  | reconnecting => runReconnect m
  | refreshing_credential => runRefreshCredential resend m
  | backoff => scheduleBackoff e m
  | auth_blocked => call onDisconnectWebSocket (clearBackoffTimer m)
  | session_expired => call onSessionExpired (call onDisconnectWebSocket (clearBackoffTimer m))
  | validating_session => m
  end.

(** The assignments [send] makes before the effects of the new state run. *)
Definition enter (e : env) (prev next : ConnectionState) (m : manager) : manager :=
  let m := set_m_state next m in
  let m := if bool_decide (prev = connected) && bool_decide (next ≠ connected)
           then set_m_offlineSince (Some (now e)) m else m in
  let m := if bool_decide (next = connected)
           then set_m_stuckCycles 0 (set_m_attempt 0 (set_m_offlineSince None m)) else m in
  if m_callbacks m && cfg_onStateChange cfg then emit (onStateChange next prev) m else m.

Fixpoint send_fuel (fuel : nat) (e : env) (event : ConnectionEvent) (m : manager) : manager :=
  match fuel with
  | O => m
  | S fuel =>
      if m_disposed m then m
      else match transition (m_state m) event with
           | None => m
           | Some next => onEnterState (send_fuel fuel e) e next event (enter e (m_state m) next m)
           end
  end.

(** A nested [send] can only leave [refreshing_credential], so two levels are all
    there are ([send_terminates]). *)
Definition send : env → ConnectionEvent → manager → manager := send_fuel 2.

(** ** What happens to a running manager *)

Inductive input :=
  | Sent (event : ConnectionEvent)
  | ProbeSettled (r : option ProbeOutcome)
  | RefreshSettled (r : option CredentialRefreshOutcome)
  | ReconnectSettled (r : option ReconnectOutcome)
  | BackoffFired
  | BrowserOnline
  | DebounceFired
  | BrowserOffline
  | BecameVisible
  | WatchdogFired
  | Disposed.

(** The event a settled probe, re-mint or reconnect becomes; [None] is a throw. *)
Definition probe_event (r : option ProbeOutcome) : ConnectionEvent :=
  match r with
  | Some reachable => PROBE_SUCCESS true
  | Some probe_session_expired => PROBE_SUCCESS false
  | Some credential_stale => PROBE_CREDENTIAL_STALE
  | Some probe_auth_blocked => PROBE_AUTH_BLOCKED
  | Some unreachable | None => PROBE_FAILED
  end.

Definition refresh_event (r : option CredentialRefreshOutcome) : ConnectionEvent :=
  match r with
  | Some refreshed => CREDENTIAL_REFRESHED
  | Some refresh_session_error => BOOTSTRAP_FAILED_SESSION
  | Some refresh_network_error | None => RECONNECT_FAILED
  end.

Definition reconnect_event (r : option ReconnectOutcome) : ConnectionEvent :=
  match r with
  | Some reconnect_success => RECONNECT_SUCCESS
  | Some reconnect_session_error => BOOTSTRAP_FAILED_SESSION
  | Some reconnect_network_error | None => RECONNECT_FAILED
  end.

Definition is_stuck (s : ConnectionState) : bool :=
  bool_decide (s ∉ [connected; session_expired; probing_network; refreshing_credential; reconnecting]).

Definition browser_online (nav : Navigator) : bool :=
  match nav with None => true | Some (Some b) => b | Some None => false end.

(** The body of the watchdog interval. *)
Definition watchdog (e : env) (m : manager) : manager :=
  if m_disposed m then m
  else if is_stuck (m_state m) then
    let m := set_m_stuckCycles (m_stuckCycles m + 1) m in
    if (MAX_STUCK_CYCLES_BEFORE_RELOAD <=? m_stuckCycles m) && browser_online (navigator e)
    then (if cfg_window cfg then emit Reload m else m)
    else send e MANUAL_RETRY (set_m_attempt 0 m)
  else set_m_stuckCycles 0 m.

Definition dispose (m : manager) : manager :=
  let m := set_m_disposed true m in
  let m := clearDebounceTimer (clearBackoffTimer m) in
  let m := set_m_watchdogTimer false m in
  let m := if cfg_window cfg then set_m_listeners false m else m in
  set_m_callbacks false m.

Definition handle (e : env) (i : input) (m : manager) : manager :=
  match i with
  | Sent event => send e event m
  | ProbeSettled r =>
      let m := set_m_probes (pred (m_probes m)) m in
      let m := match r with Some o => set_m_lastProbeResult (Some o) m | None => m end in
      send e (probe_event r) m
  | RefreshSettled r => send e (refresh_event r) (set_m_refreshes (pred (m_refreshes m)) m)
  | ReconnectSettled r => send e (reconnect_event r) (set_m_reconnects (pred (m_reconnects m)) m)
  | BackoffFired => send e BACKOFF_ELAPSED (set_m_backoffTimer None m)
  | BrowserOnline => set_m_debounceTimer true (clearDebounceTimer m)
  | DebounceFired => send e NETWORK_ONLINE (set_m_debounceTimer false m)
  | BrowserOffline => send e NETWORK_LOST (clearDebounceTimer m)
  | BecameVisible => send e TAB_VISIBLE m
  | WatchdogFired => watchdog e m
  | Disposed => dispose m
  end.

(** Only what has been started settles, only what is armed fires. *)
Definition enabled (i : input) (m : manager) : bool :=
  match i with
  | Sent _ | Disposed => true
  | ProbeSettled _ => bool_decide (0 < m_probes m)%nat
  | RefreshSettled _ => bool_decide (0 < m_refreshes m)%nat
  | ReconnectSettled _ => bool_decide (0 < m_reconnects m)%nat
  | BackoffFired => bool_decide (m_backoffTimer m ≠ None)
  | DebounceFired => m_debounceTimer m
  | BrowserOnline | BrowserOffline | BecameVisible => m_listeners m
  | WatchdogFired => m_watchdogTimer m
  end.

Definition new_manager : manager :=
  mkManager connected None 0 None false None false false false 0 0 false 0 0 0 [].

(** [start(callbacks)]: the listeners and the watchdog need a [window]. *)
Definition start (m : manager) : manager :=
  set_m_watchdogTimer (cfg_window cfg) (set_m_listeners (cfg_window cfg) (set_m_callbacks true m)).

Definition valid_env (e : env) : Prop := 0 ≤ random e < 2 ^ 53.

Inductive mstep : manager → manager → Prop :=
  | mstep_handle e i m : valid_env e → enabled i m = true → mstep m (handle e i m).

Definition reachable_manager (m : manager) : Prop := rtc mstep (start new_manager) m.

(** ** Views *)

Definition isConnected (m : manager) : bool := bool_decide (m_state m = connected).
Definition isOffline (m : manager) : bool :=
  bool_decide (m_state m = offline) || bool_decide (m_state m = waiting_for_network).
Definition isReconnecting (m : manager) : bool :=
  bool_decide (m_state m ∈ [probing_network; validating_session; refreshing_credential; reconnecting; backoff]).
Definition isSessionExpired (m : manager) : bool := bool_decide (m_state m = session_expired).

Inductive offline_label := JustNow | MinutesAgo (n : Z) | HoursAgo (n : Z) | DaysAgo (n : Z).

Definition offlineDuration (e : env) (m : manager) : option offline_label :=
  match m_offlineSince m with
  | None => None
  | Some since =>
      let seconds := (now e - since) / 1000 in
      let minutes := seconds / 60 in
      let hours := minutes / 60 in
      Some (if seconds <? 60 then JustNow
            else if minutes <? 60 then MinutesAgo minutes
            else if hours <? 24 then HoursAgo hours
            else DaysAgo (hours / 24))
  end.

End Manager.

(** ** What every reachable manager satisfies *)

Section ManagerFacts.
Context (cfg : config).
Notation B := (cfg_backoff cfg).

(** The tunables make sense: the attempt ceiling is not negative, delays are
    not, and the jitter is a fraction between 0 and 1. [DEFAULT_BACKOFF] does. *)
Record sound_config : Prop := {
  sound_attempts : 0 ≤ MAX_ATTEMPTS B;
  sound_base : 0 ≤ BASE_MS B;
  sound_max : 0 ≤ MAX_MS B;
  sound_jitter : 0 ≤ (JITTER B).1 ≤ (JITTER B).2 ∧ 0 < (JITTER B).2;
}.
Context (Hsound : sound_config).

(** A delay lies within the jitter band around its base delay (times the
    denominator of the jitter, to stay with integers). *)
Definition delay_ok (d : Z) : Prop :=
  ∃ k, 0 ≤ k < MAX_ATTEMPTS B ∧
    let base := Z.min (BASE_MS B * 2 ^ k) (MAX_MS B) in
    let (jn, jd) := JITTER B in
    2 * base * (jd - jn) - jd ≤ 2 * d * jd ≤ 2 * base * (jd + jn) + jd.

Lemma backoff_delay_band attempt r :
  0 ≤ attempt < MAX_ATTEMPTS B → 0 ≤ r < 2 ^ 53 → delay_ok (backoff_delay B attempt r).
Proof.
  intros Ha Hr. exists attempt. split; [done|]. unfold backoff_delay.
  set (base := Z.min _ _). assert (0 ≤ base).
  { subst base. destruct Hsound. pose proof (Z.pow_nonneg 2 attempt). nia. }
  destruct (JITTER B) as [jn jd] eqn:Hj. simpl.
  assert (0 ≤ jn ≤ jd ∧ 0 < jd) as [? ?] by (destruct Hsound; rewrite Hj in *; done).
  set (P := 2 ^ 53) in *. assert (0 < P) by done.
  set (num := base * (jd * P) + base * jn * (2 * r - P)). set (den := jd * P).
  assert (0 < den) by nia.
  pose proof (Z.mul_div_le (2 * num + den) (2 * den)).
  pose proof (Z.mul_succ_div_gt (2 * num + den) (2 * den)).
  set (d := (2 * num + den) / (2 * den)) in *.
  assert (base * jn * (- P) ≤ base * jn * (2 * r - P) ≤ base * jn * P).
  { split; apply Z.mul_le_mono_nonneg_l; nia. }
  (* divide by P *)
  assert (2 * num - den ≤ 2 * d * den ≤ 2 * num + den) as [Hd1 Hd2] by lia.
  assert (P * (2 * base * (jd - jn) - jd) ≤ P * (2 * d * jd) ≤ P * (2 * base * (jd + jn) + jd)) as [Hd3 Hd4].
  { unfold den, num in *. split; nia. }
  split; [apply (Z.mul_le_mono_pos_l _ _ P)|apply (Z.mul_le_mono_pos_l _ _ P)]; done.
Qed.

Definition signouts (l : list effect) : nat := length (base.filter (λ fx, fx = onSessionExpired) l).

Lemma signouts_snoc l fx :
  signouts (l ++ [fx]) = (signouts l + if decide (fx = onSessionExpired) then 1 else 0)%nat.
Proof.
  unfold signouts. rewrite filter_app, length_app, filter_cons, filter_nil. by destruct (decide _).
Qed.

Definition fx_ok (fx : effect) : Prop := match fx with ArmBackoff d => delay_ok d | _ => True end.

(** What holds in the middle of a call as well. *)
Record core_inv (m : manager) : Prop := {
  ci_attempt : 0 ≤ m_attempt m ≤ MAX_ATTEMPTS B;
  ci_refresh : 0 ≤ m_refreshAttempts m ≤ MAX_CREDENTIAL_REFRESH_ATTEMPTS;
  ci_fx : Forall fx_ok (m_trace m);
  ci_live : m_disposed m = false →
    m_callbacks m = true ∧ m_watchdogTimer m = cfg_window cfg ∧ m_listeners m = cfg_window cfg;
}.

(** What holds between calls, the obligations of [busy] aside. *)
Record idle_inv (m : manager) : Prop := {
  ii_core : core_inv m;
  ii_state : m_state m ≠ validating_session;
  ii_offline : m_offlineSince m = None ↔ m_state m = connected;
  ii_connected : m_state m = connected →
    m_attempt m = 0 ∧ m_refreshAttempts m = 0 ∧ m_stuckCycles m = 0 ∧ m_backoffTimer m = None;
  ii_parked : m_state m = session_expired → m_backoffTimer m = None;
  ii_signouts : signouts (m_trace m) = if decide (m_state m = session_expired) then 1%nat else 0%nat;
}.

(** A state that waits for a promise has one in flight. *)
Definition busy (m : manager) : Prop :=
  m_disposed m = false →
    (m_state m = probing_network → 0 < m_probes m)%nat
    ∧ (m_state m = refreshing_credential → 0 < m_refreshes m)%nat
    ∧ (m_state m = reconnecting → 0 < m_reconnects m)%nat.

(** What [enter] leaves for [onEnterState]. *)
Record entered (next : ConnectionState) (m : manager) : Prop := {
  en_core : core_inv m;
  en_state : m_state m = next;
  en_next : next ≠ validating_session;
  en_offline : m_offlineSince m = None ↔ next = connected;
  en_connected : next = connected → m_attempt m = 0 ∧ m_stuckCycles m = 0;
  en_signouts : signouts (m_trace m) = 0%nat;
  en_live : m_disposed m = false;
}.

Lemma transition_from_expired ev : transition session_expired ev = None.
Proof. done. Qed.

Lemma transition_next s ev next :
  transition s ev = Some next →
  s ≠ session_expired ∧ next ≠ validating_session ∧ next ≠ s ∧ (next = refreshing_credential → s ≠ connected).
Proof. destruct s, ev; simpl; try done; repeat case_match; intros [= <-]; naive_solver. Qed.

Lemma core_emit fx m : core_inv m → fx_ok fx → core_inv (emit fx m).
Proof. intros [Ha Hr Hf Hl] Hfx. split; try done. simpl. apply Forall_app; auto. Qed.

Ltac fx_tac :=
  repeat match goal with |- Forall fx_ok (_ ++ _) => apply Forall_app; split end;
  match goal with |- Forall fx_ok _ => first [done|by repeat constructor] end.

Lemma enter_entered e m next :
  core_inv m → m_disposed m = false → signouts (m_trace m) = 0%nat →
  (m_offlineSince m = None ↔ m_state m = connected) →
  next ≠ m_state m → next ≠ validating_session →
  entered next (enter cfg e (m_state m) next m).
Proof.
  intros [Ha Hr Hf Hl] Hd Hs Ho Hne Hv. destruct (Hl Hd) as (Hc & _). unfold enter.
  destruct (decide (next = connected)) as [->|Hn].
  - rewrite (bool_decide_eq_false_2 (m_state m = connected)) by congruence.
    rewrite (bool_decide_eq_true_2 (connected = connected)) by done. simpl. rewrite Hc. simpl.
    destruct (cfg_onStateChange cfg); simpl; split; simpl; try done; try (split; simpl; try done);
      try (destruct Hsound; lia); try fx_tac.
    by rewrite signouts_snoc, Hs.
  - rewrite (bool_decide_eq_false_2 (next = connected)) by done.
    rewrite (bool_decide_eq_true_2 (next ≠ connected)) by done.
    destruct (decide (m_state m = connected)) as [Hc'|Hc'].
    + rewrite (bool_decide_eq_true_2 (m_state m = connected)) by done. simpl. rewrite Hc. simpl.
      destruct (cfg_onStateChange cfg); simpl; split; simpl; try done; try (split; simpl; try done);
      try fx_tac.
      by rewrite signouts_snoc, Hs.
    + rewrite (bool_decide_eq_false_2 (m_state m = connected)) by done. simpl. rewrite Hc. simpl.
      destruct (cfg_onStateChange cfg); simpl; split; simpl; try done; try (split; simpl; try done);
      try fx_tac; try tauto.
      by rewrite signouts_snoc, Hs.
Qed.

(** Tactic for the record obligations below: open the facts of [entered], run the
    handler, and split. *)
Ltac open_entered H :=
  let Hcore := fresh "Hcore" in
  destruct H as [Hcore ? ? ? ? ? ?]; destruct Hcore as [? ? ? Hlive];
  destruct (Hlive ltac:(assumption)) as (? & ? & ?).

Lemma schedule_idle e m next :
  entered next m → next ∈ [waiting_for_network; backoff] → valid_env e →
  idle_inv (scheduleBackoff cfg e m) ∧ busy (scheduleBackoff cfg e m).
Proof.
  intros He Hnext Hv. open_entered He.
  assert (m_state (scheduleBackoff cfg e m) = next) as Hst.
  { unfold scheduleBackoff. simpl. by repeat case_match. }
  assert (next ≠ connected ∧ next ≠ session_expired ∧ next ≠ probing_network
          ∧ next ≠ refreshing_credential ∧ next ≠ reconnecting) as (?&?&?&?&?).
  { clear -Hnext. by apply elem_of_cons in Hnext as [->| ->%list_elem_of_singleton]. }
  split; [|intros _; rewrite Hst; by split_and!].
  unfold scheduleBackoff in *. simpl in *.
  destruct (_ <=? _) eqn:Hle; bool_simpl; [destruct (definitely_offline _); [|destruct (cfg_window cfg) eqn:?]|];
    (split; [split|..]); simpl in *; rewrite ?Hst, ?signouts_snoc; simpl; try done; try tauto;
    try (rewrite decide_False by done; lia);
    try (destruct Hsound; lia); try (intros _; split_and!; congruence); try fx_tac.
  apply Forall_app; split; [done|]. constructor; [|done]. simpl. apply backoff_delay_band; [lia|done].
Qed.

Lemma on_enter_plain resend e next ev m :
  entered next m → next ≠ refreshing_credential → valid_env e →
  idle_inv (onEnterState cfg resend e next ev m) ∧ busy (onEnterState cfg resend e next ev m).
Proof.
  intros He Hnr Hv. destruct next; try done;
    try (apply (schedule_idle _ _ _ He); [set_solver|done]);
    try (exfalso; by apply (en_next _ _ He)).
  all: open_entered He; unfold onEnterState, call, runReconnect, runProbe in *; simpl in *;
    try case_bool_decide; repeat (match goal with H : m_callbacks _ = true |- _ => rewrite H end; simpl).
  all: split; [split; [split|..]|unfold busy]; simpl; try done; try tauto; try (intros; lia);
    rewrite ?signouts_snoc; simpl; try done; try lia;
    try fx_tac;
    try (match goal with H : m_state _ = _ |- _ => rewrite H end; simpl; try done; try tauto; try lia).
  all: intros _; split_and!; intros; first [done|lia].
Qed.

Lemma on_enter_idle fuel e next ev m :
  entered next m → valid_env e →
  let m' := onEnterState cfg (send_fuel cfg (S fuel) e) e next ev m in idle_inv m' ∧ busy m'.
Proof.
  intros He Hv. simpl. destruct (decide (next = refreshing_credential)) as [->|Hn];
    [|by apply on_enter_plain].
  simpl. unfold runRefreshCredential.
  assert (∀ n, 0 ≤ n ≤ MAX_CREDENTIAL_REFRESH_ATTEMPTS →
    entered refreshing_credential (set_m_refreshAttempts n m)) as Hset.
  { intros n Hr. destruct He as [[]]. by split; [split|..]. }
  assert (∀ n next ev, 0 ≤ n ≤ MAX_CREDENTIAL_REFRESH_ATTEMPTS →
    transition refreshing_credential ev = Some next → next ≠ refreshing_credential →
    idle_inv (send_fuel cfg (S fuel) e ev (set_m_refreshAttempts n m))
    ∧ busy (send_fuel cfg (S fuel) e ev (set_m_refreshAttempts n m))) as Hresend.
  { intros n next ev' Hr Ht Hne. pose proof (Hset n Hr) as [Hc Hs Hx Ho _ Hg Hl].
    set (m1 := set_m_refreshAttempts n m) in *. clearbody m1. cbn [send_fuel]. rewrite Hl, Hs, Ht.
    apply on_enter_plain; [|done|done]. rewrite <- Hs. apply enter_entered; try done.
    - rewrite Ho, Hs. done.
    - by rewrite Hs.
    - by apply transition_next in Ht as (_ & ? & _). }
  pose proof (ci_refresh _ (en_core _ _ He)) as Hr.
  destruct (_ <=? _) eqn:Hle; bool_simpl.
  - eapply (Hresend 0); [done|done|done].
  - destruct (m_callbacks _ && _) eqn:Hcb.
    + pose proof (Hset (m_refreshAttempts m + 1) ltac:(lia)) as H1.
      open_entered H1. simpl in *.
      split; [split; [split|..]|unfold busy]; simpl; try done; try tauto;
      rewrite ?signouts_snoc; simpl; try lia;
      try fx_tac.
      all: repeat match goal with H : m_state _ = _ |- _ => rewrite H end;
        try rewrite en_signouts0; try done.
      intros _; split_and!; intros; first [done|lia].
    + eapply (Hresend (m_refreshAttempts m + 1)); [lia|done|done].
Qed.

Lemma send_inv e ev m :
  idle_inv m → valid_env e → (transition (m_state m) ev = None → busy m) →
  idle_inv (send cfg e ev m) ∧ busy (send cfg e ev m).
Proof.
  intros Hi Hv Hb. unfold send. cbn [send_fuel].
  destruct (m_disposed m) eqn:Hd; [split; [done|]; intros Hx; congruence|].
  destruct (transition (m_state m) ev) as [next|] eqn:Ht; [|by auto].
  apply transition_next in Ht as (Hs & Hn & Hne & _).
  apply (on_enter_idle 0); [|done]. destruct Hi as [Hc _ Ho _ _ Hg].
  apply enter_entered; try done. by rewrite Hg, decide_False.
Qed.

Lemma idle_same m m' :
  m_state m' = m_state m → m_offlineSince m' = m_offlineSince m → m_attempt m' = m_attempt m →
  m_refreshAttempts m' = m_refreshAttempts m → m_stuckCycles m' = m_stuckCycles m →
  (m_backoffTimer m' = m_backoffTimer m ∨ m_backoffTimer m' = None) → m_trace m' = m_trace m →
  (m_disposed m' = false → m_disposed m = false ∧ m_callbacks m' = m_callbacks m
     ∧ m_watchdogTimer m' = m_watchdogTimer m ∧ m_listeners m' = m_listeners m) →
  idle_inv m → idle_inv m'.
Proof.
  intros Hst Ho Ha Hr Hk Ht Htr Hl [[Ca Cr Cf Cl] Is Io Ic Ip Ig].
  split; [split|..]; rewrite ?Hst, ?Ho, ?Ha, ?Hr, ?Htr; try done.
  - intros Hd. destruct (Hl Hd) as (Hd' & -> & -> & ->). auto.
  - intros Hc. destruct (Ic Hc) as (? & ? & ? & Hbt). rewrite Hk. split_and!; try done.
    destruct Ht as [->|]; done.
  - intros Hc. specialize (Ip Hc). destruct Ht as [->|]; done.
Qed.

Definition running_inv (m : manager) : Prop := idle_inv m ∧ busy m.

Lemma watchdog_inv e m : running_inv m → valid_env e → running_inv (watchdog cfg e m).
Proof.
  intros [Hi Hb] Hv. unfold watchdog. destruct (m_disposed m) eqn:Hd; [done|].
  destruct (is_stuck (m_state m)) eqn:Hstuck.
  - unfold is_stuck in Hstuck. bool_simpl. rewrite not_elem_of_cons in Hstuck. destruct Hstuck as [Hnc Hns].
    assert (∀ k m', m' = set_m_stuckCycles k m → idle_inv m' ∧ busy m') as Hk.
    { intros k m' ->. destruct Hi as [[] ]. split; [|done]. by split; [split|..]. }
    set (m1 := set_m_stuckCycles _ m). destruct (Hk _ m1 eq_refl) as [Hi1 Hb1].
    destruct (_ && _).
    + destruct (cfg_window cfg) eqn:Hw; [|done]. split; [|done].
      destruct Hi1 as [Hc1 ? ? ? ? Hg]. split; try done; [by apply core_emit|].
      simpl. rewrite signouts_snoc. simpl in Hg. rewrite Hg. simpl. lia.
    + apply send_inv; [|done|done].
      destruct Hi1 as [[] ? ? ? ? ?]. split; [split|..]; try done; simpl.
      destruct Hsound; lia.
  - destruct Hi as [[] ]. split; [|done]. split; [split|..]; try done. simpl. naive_solver.
Qed.

Lemma probe_event_moves r : transition probing_network (probe_event r) ≠ None.
Proof. by destruct r as [[]|]. Qed.
Lemma refresh_event_moves r : transition refreshing_credential (refresh_event r) ≠ None.
Proof. by destruct r as [[]|]. Qed.
Lemma reconnect_event_moves r : transition reconnecting (reconnect_event r) ≠ None.
Proof. by destruct r as [[]|]. Qed.

Lemma handle_inv e i m :
  running_inv m → valid_env e → enabled i m = true → running_inv (handle cfg e i m).
Proof.
  intros [Hi Hb] Hv Hen. destruct i as [ev|r|r|r| | | | | | |]; simpl in *.
  - apply send_inv; auto.
  - apply send_inv; [|done|].
    + by destruct r; eapply idle_same; try exact Hi; simpl; auto.
    + intros Ht Hd. destruct (Hb ltac:(by destruct r)) as (H1 & H2 & H3).
      assert (m_state m ≠ probing_network) as Hs.
      { intros Hs. apply (probe_event_moves r). rewrite <- Ht, <- Hs. by destruct r. }
      by destruct r.
  - apply send_inv; [by eapply idle_same; try exact Hi; simpl; auto|done|].
    intros Ht Hd. destruct (Hb Hd) as (H1 & H2 & H3). split_and!; try done.
    intros Hs. rewrite Hs in Ht. by apply refresh_event_moves in Ht.
  - apply send_inv; [by eapply idle_same; try exact Hi; simpl; auto|done|].
    intros Ht Hd. destruct (Hb Hd) as (H1 & H2 & H3). split_and!; try done.
    intros Hs. rewrite Hs in Ht. by apply reconnect_event_moves in Ht.
  - apply send_inv; [by eapply idle_same; try exact Hi; simpl; auto|done|done].
  - split; [by eapply idle_same; try exact Hi; simpl; auto|done].
  - apply send_inv; [by eapply idle_same; try exact Hi; simpl; auto|done|done].
  - apply send_inv; [by eapply idle_same; try exact Hi; simpl; auto|done|done].
  - apply send_inv; auto.
  - apply watchdog_inv; [split; auto|done].
  - split; [|intros Hd; simpl in Hd; by destruct (cfg_window cfg)].
    unfold dispose. destruct (cfg_window cfg); eapply idle_same; try exact Hi; simpl; auto; done.
Qed.

Lemma reachable_inv m : reachable_manager cfg m → running_inv m.
Proof.
  intros Hr. unfold reachable_manager in Hr.
  assert (running_inv (start cfg new_manager)) as H0.
  { split; [|by intros _]. split; [split|..]; simpl; try done; destruct Hsound; naive_solver lia. }
  revert H0. induction Hr as [|m1 m2 m3 Hs _ IH]; [done|]. intros H1. apply IH.
  destruct Hs. by apply handle_inv.
Qed.

(** ** One input at a time *)

(** Where [send] leaves the state: where it was, or where the table says, or one
    hop further out of [refreshing_credential]. *)
Lemma scheduleBackoff_state e m : m_state (scheduleBackoff cfg e m) = m_state m.
Proof. unfold scheduleBackoff. by repeat case_match. Qed.

Lemma enter_state e prev next m : m_state (enter cfg e prev next m) = next.
Proof. unfold enter. by repeat case_match. Qed.

Lemma on_enter_state resend e next ev m :
  next ≠ refreshing_credential → m_state (onEnterState cfg resend e next ev m) = m_state m.
Proof.
  intros Hn. destruct next; try done; simpl; unfold call, runReconnect, runProbe;
    rewrite ?scheduleBackoff_state; by repeat case_match.
Qed.

Lemma send_fuel1_state e ev m next :
  m_disposed m = false → transition (m_state m) ev = Some next → next ≠ refreshing_credential →
  m_state (send_fuel cfg 1 e ev m) = next.
Proof. intros Hd Ht Hn. simpl. rewrite Hd, Ht, on_enter_state by done. apply enter_state. Qed.

Lemma send_state e ev m next :
  m_disposed m = false → transition (m_state m) ev = Some next →
  let s := m_state (send cfg e ev m) in
  if decide (next = refreshing_credential)
  then s ∈ [refreshing_credential; auth_blocked; probing_network]
  else s = next.
Proof.
  intros Hd Ht s. subst s. unfold send. cbn [send_fuel]. rewrite Hd, Ht.
  destruct (decide _) as [->|Hn]; [|rewrite on_enter_state by done; apply enter_state].
  set (m1 := enter cfg e (m_state m) refreshing_credential m).
  assert (m_disposed m1 = false ∧ m_state m1 = refreshing_credential) as [Hd1 Hs1].
  { split; [|apply enter_state]. subst m1. unfold enter. by repeat case_match. }
  change (m_state (runRefreshCredential cfg (send_fuel cfg 1 e) m1)
          ∈ [refreshing_credential; auth_blocked; probing_network]).
  clearbody m1. unfold runRefreshCredential. destruct (_ <=? _).
  - rewrite (send_fuel1_state _ _ _ auth_blocked); [set_solver|done|simpl; by rewrite Hs1|done].
  - destruct (m_callbacks _ && _).
    + change (m_state m1 ∈ [refreshing_credential; auth_blocked; probing_network]).
      rewrite Hs1. set_solver.
    + rewrite (send_fuel1_state _ _ _ probing_network); [set_solver|done|simpl; by rewrite Hs1|done].
Qed.

Lemma send_ignored e ev m : transition (m_state m) ev = None → send cfg e ev m = m.
Proof. intros Ht. unfold send. cbn [send_fuel]. rewrite Ht. by destruct (m_disposed m). Qed.

Lemma send_disposed e ev m : m_disposed m = true → send cfg e ev m = m.
Proof. intros Hd. unfold send. cbn [send_fuel]. by rewrite Hd. Qed.

(** The events that carry evidence of a lost login. *)
Definition sign_out_event (ev : ConnectionEvent) : bool :=
  match ev with WS_SESSION_ERROR | BOOTSTRAP_FAILED_SESSION | PROBE_SUCCESS false => true | _ => false end.

Lemma transition_sign_out s ev : transition s ev = Some session_expired → sign_out_event ev = true.
Proof. destruct s, ev; simpl; try done; by repeat case_match. Qed.

Lemma send_sign_out e ev m :
  m_state m ≠ session_expired → m_state (send cfg e ev m) = session_expired → sign_out_event ev = true.
Proof.
  intros Hn Hs. destruct (m_disposed m) eqn:Hd; [by rewrite send_disposed in Hs|].
  destruct (transition (m_state m) ev) as [next|] eqn:Ht; [|by rewrite send_ignored in Hs].
  pose proof (send_state e ev m next Hd Ht) as H. simpl in H. rewrite Hs in H.
  destruct (decide _); [set_solver|]. subst next. by eapply transition_sign_out.
Qed.

Definition sign_out_input (i : input) : bool :=
  match i with
  | Sent ev => sign_out_event ev
  | ProbeSettled r => bool_decide (r = Some probe_session_expired)
  | RefreshSettled (Some refresh_session_error) => true
  | ReconnectSettled (Some reconnect_session_error) => true
  | _ => false
  end.

(** C6: The user is signed out only on evidence that the login is gone. From any
    reachable state, an input takes the machine to [session_expired] only if the
    store reported a session error, or a probe, a re-mint or a reconnect settled
    with one; timers, network events, throws, stale keys and blocked credentials
    never do. [onSessionExpired] has been called once if the machine is there and
    never otherwise. *)
Theorem sign_out_only_on_evidence m e i :
  reachable_manager cfg m → valid_env e → enabled i m = true →
  (m_state m ≠ session_expired → m_state (handle cfg e i m) = session_expired →
   sign_out_input i = true)
  ∧ signouts (m_trace m) = (if decide (m_state m = session_expired) then 1 else 0)%nat.
Proof.
  intros Hr Hv Hen. apply reachable_inv in Hr as [Hi _]. split; [|apply Hi].
  intros Hn Hs. destruct i as [ev|r|r|r| | | | | | |]; simpl in *;
    try (by apply send_sign_out in Hs); try done.
  - apply send_sign_out in Hs; [|by destruct r]. by destruct r as [[]|].
  - apply send_sign_out in Hs; [|done]. by destruct r as [[]|].
  - apply send_sign_out in Hs; [|done]. by destruct r as [[]|].
  - unfold watchdog in Hs. destruct (m_disposed m); [done|]. destruct (is_stuck _); [|done].
    destruct (_ && _); [by destruct (cfg_window cfg)|by apply send_sign_out in Hs].
  - unfold dispose in Hs. by destruct (cfg_window cfg).
Qed.

Lemma handle_expired e i m :
  m_state m = session_expired →
  m_state (handle cfg e i m) = session_expired ∧ m_trace (handle cfg e i m) = m_trace m.
Proof.
  intros Hs. assert (∀ ev m1, m_state m1 = session_expired → send cfg e ev m1 = m1) as Hsend.
  { intros ev m1 H1. apply send_ignored. by rewrite H1. }
  destruct i as [ev|r|r|r| | | | | | |]; simpl; rewrite ?Hsend; try done; try by destruct r.
  - unfold watchdog. rewrite Hs. by destruct (m_disposed m).
  - unfold dispose. by destruct (cfg_window cfg).
Qed.

(** A sign-out is final. Once the session has expired nothing that happens
    later, in any order, leaves the state, tears anything down again or calls the
    store again. *)
Theorem session_expired_is_terminal m m' :
  m_state m = session_expired → rtc (mstep cfg) m m' →
  m_state m' = session_expired ∧ m_trace m' = m_trace m.
Proof.
  intros Hs Hr. revert Hs. induction Hr as [|m1 m2 m3 Hstep _ IH]; [done|].
  intros Hs. destruct Hstep as [e i m1 _ _]. destruct (handle_expired e i m1 Hs) as [H1 <-]. auto.
Qed.

(** C7: In a browser the machine never wedges. In every reachable state that is
    neither connected nor signed out, something is on its way: a parked state has
    a running watchdog whose next tick starts a probe or asks for a page reload,
    and a state that waits for a promise has one in flight, and however that
    settles the machine leaves the state (a stale key without a refresher
    may probe again, one counted re-mint later). *)
Theorem browser_never_wedges m e :
  reachable_manager cfg m → m_disposed m = false → cfg_window cfg = true →
  m_state m ≠ connected → m_state m ≠ session_expired →
  (is_stuck (m_state m) = true ∧ enabled WatchdogFired m = true
   ∧ (m_state (handle cfg e WatchdogFired m) = probing_network
      ∨ m_trace (handle cfg e WatchdogFired m) = m_trace m ++ [Reload]))
  ∨ (m_state m = probing_network ∧ (∀ r, enabled (ProbeSettled r) m = true)
     ∧ ∀ r, m_state (handle cfg e (ProbeSettled r) m) ≠ probing_network ∨ r = Some credential_stale)
  ∨ (m_state m = refreshing_credential ∧ (∀ r, enabled (RefreshSettled r) m = true)
     ∧ ∀ r, m_state (handle cfg e (RefreshSettled r) m) ≠ refreshing_credential)
  ∨ (m_state m = reconnecting ∧ (∀ r, enabled (ReconnectSettled r) m = true)
     ∧ ∀ r, m_state (handle cfg e (ReconnectSettled r) m) ≠ reconnecting).
Proof.
  intros Hr Hd Hw Hc Hs. apply reachable_inv in Hr as [Hi Hb].
  destruct (Hb Hd) as (H1 & H2 & H3). destruct (ci_live _ (ii_core _ Hi) Hd) as (_ & Hwd & _).
  destruct (is_stuck (m_state m)) eqn:Hst.
  - left. split_and!; [done|simpl; congruence|]. simpl. unfold watchdog. rewrite Hd, Hst.
    destruct (_ && _); [right; by rewrite Hw|left].
    rewrite (send_state _ _ _ probing_network); [done|done|]. simpl.
    pose proof (ii_state _ Hi). by destruct (m_state m).
  - right. destruct (m_state m) eqn:Hm; try done.
    + left. split_and!; [done|intros r; apply bool_decide_eq_true; auto|]. intros r.
      assert (∃ next, transition probing_network (probe_event r) = Some next
        ∧ next ≠ probing_network ∧ (next ≠ refreshing_credential ∨ r = Some credential_stale))
        as (next & Ht & Hn & Hor).
      { destruct r as [[]|]; eexists; split_and!; simpl; try reflexivity; auto. }
      destruct Hor as [Hor|]; [left|by right]. cbn [handle].
      pose proof (send_state e (probe_event r) (match r with Some o => set_m_lastProbeResult (Some o) (set_m_probes (pred (m_probes m)) m)
        | None => set_m_probes (pred (m_probes m)) m end) next) as H.
      rewrite decide_False in H by done. rewrite H; [done|by destruct r|].
      by destruct r; simpl; rewrite Hm.
    + right; left. split_and!; [done|intros r; apply bool_decide_eq_true; auto|]. intros r. cbn [handle].
      assert (∃ next, transition refreshing_credential (refresh_event r) = Some next
        ∧ next ≠ refreshing_credential) as (next & Ht & Hn).
      { destruct r as [[]|]; eexists; split_and!; simpl; try reflexivity; auto. }
      pose proof (send_state e (refresh_event r) (set_m_refreshes (pred (m_refreshes m)) m) next) as H.
      rewrite decide_False in H by done. rewrite H; [done|done|]. simpl. by rewrite Hm.
    + right; right. split_and!; [done|intros r; apply bool_decide_eq_true; auto|]. intros r. cbn [handle].
      assert (∃ next, transition reconnecting (reconnect_event r) = Some next
        ∧ next ≠ reconnecting ∧ next ≠ refreshing_credential) as (next & Ht & Hn & Hn').
      { destruct r as [[]|]; eexists; split_and!; simpl; try reflexivity; auto. }
      pose proof (send_state e (reconnect_event r) (set_m_reconnects (pred (m_reconnects m)) m) next) as H.
      rewrite decide_False in H by done. rewrite H; [done|done|]. simpl. by rewrite Hm.
Qed.

(** Bounds and resets. In every reachable state the retry attempt stays within
    its ceiling, at most three re-mints are counted, every backoff delay ever
    armed lies in the jitter band of a base delay, the never-entered
    [validating_session] stays so, [offlineSince] is set exactly while
    not connected, and a connected machine has all its counters at zero and no
    retry timer. *)
Theorem connection_bounds m :
  reachable_manager cfg m →
  0 ≤ m_attempt m ≤ MAX_ATTEMPTS B
  ∧ 0 ≤ m_refreshAttempts m ≤ 3
  ∧ (∀ d, ArmBackoff d ∈ m_trace m → delay_ok d)
  ∧ m_state m ≠ validating_session
  ∧ (m_offlineSince m = None ↔ m_state m = connected)
  ∧ (m_state m = connected →
     m_attempt m = 0 ∧ m_refreshAttempts m = 0 ∧ m_stuckCycles m = 0 ∧ m_backoffTimer m = None).
Proof.
  intros Hr. apply reachable_inv in Hr as [[[Ha Hf Hfx _] Hst Ho Hc _ _] _].
  split_and!; try done; try apply Ha; try apply Hf; try apply Ho.
  intros d Hd. rewrite Forall_forall in Hfx. by apply (Hfx (ArmBackoff d)).
Qed.

(** C18: [send] terminates. A nested [send] never nests again: two levels of fuel
    compute what any more would. *)
Theorem send_terminates fuel e ev m : send_fuel cfg (S (S fuel)) e ev m = send cfg e ev m.
Proof.
  unfold send. cbn [send_fuel]. destruct (m_disposed m) eqn:Hd; [done|].
  destruct (transition (m_state m) ev) as [next|] eqn:Ht; [|done].
  destruct next; try done. cbn [onEnterState].
  set (m1 := enter cfg e (m_state m) refreshing_credential m).
  assert (m_state m1 = refreshing_credential) as Hs1 by apply enter_state.
  clearbody m1. unfold runRefreshCredential.
  assert (∀ n ev', ev' = PROBE_AUTH_BLOCKED ∨ ev' = CREDENTIAL_REFRESHED →
    send_fuel cfg (S fuel) e ev' (set_m_refreshAttempts n m1)
    = send_fuel cfg 1 e ev' (set_m_refreshAttempts n m1)) as Hn.
  { intros n ev' Hev. cbn [send_fuel]. simpl m_state. rewrite Hs1. by destruct Hev as [->| ->]. }
  destruct (_ <=? _); [apply Hn; auto|]. destruct (_ && _); [done|apply Hn; auto].
Qed.

End ManagerFacts.

(** What a probe may conclude. Only a response that names a lost-login code
    ever reads as an expired session; a bare 401, an unknown code, a thrown
    or timed-out fetch and a browser that is offline never do. *)
Theorem probe_expires_only_on_a_code nav fetched :
  probeNetwork nav fetched = probe_session_expired ↔
  definitely_offline nav = false
  ∧ ∃ status code, fetched = Some (status, Some code) ∧ code ∈ session_codes.
Proof.
  unfold probeNetwork. destruct (definitely_offline nav); [naive_solver|].
  destruct fetched as [[status h]|]; [|naive_solver]. unfold classify_response.
  destruct h as [c|]; simpl; [|destruct (status =? 401); naive_solver].
  pose proof (session_class c) as Hc.
  destruct c as [|a c]; simpl.
  { split; [by destruct (status =? 401)|]. intros (_ & ? & ? & [= <- <-] & Hin).
    unfold session_codes in Hin. set_unfold. naive_solver. }
  destruct (classifyRecovery (String a c)) eqn:Hr; (split; [|intros (_ & ? & ? & [= <- <-] & Hin)]);
    try done; try (apply Hc in Hin; congruence).
  intros _. split; [done|]. eexists _, _. split; [done|]. by apply Hc.
Qed.

(** ** Runs, computed *)

(** A run of inputs in one environment; [None] when one of them is not enabled. *)
Fixpoint run_inputs (cfg : config) (e : env) (l : list input) (m : manager) : option manager :=
  match l with
  | [] => Some m
  | i :: rest => if enabled i m then run_inputs cfg e rest (handle cfg e i m) else None
  end.

Lemma run_inputs_steps cfg e l m m' :
  valid_env e → run_inputs cfg e l m = Some m' → rtc (mstep cfg) m m'.
Proof.
  intros Hv. revert m; induction l as [|i rest IH]; intros m; simpl; [intros [= ->]; reflexivity|].
  destruct (enabled i m) eqn:Hen; [|done]. intros H. eapply rtc_l; [by constructor|by apply IH].
Qed.

Definition browser : config := mkConfig DEFAULT_BACKOFF true true true.
Definition headless : config := mkConfig DEFAULT_BACKOFF false true true.
Definition quiet_env : env := mkEnv 1000 (2 ^ 52) None.

Lemma browser_sound : sound_config browser.
Proof. split; simpl; lia. Qed.
Lemma quiet_env_valid : valid_env quiet_env.
Proof. split; by compute. Qed.

Definition run_from_start (cfg : config) (l : list input) : manager :=
  default new_manager (run_inputs cfg quiet_env l (start cfg new_manager)).

Lemma run_reachable cfg l m :
  run_inputs cfg quiet_env l (start cfg new_manager) = Some m → reachable_manager cfg m.
Proof. apply run_inputs_steps, quiet_env_valid. Qed.

(** A socket drop followed by [n] probes that fail, each retried when its backoff
    timer fires. *)
Definition failing_probes (n : nat) : list input :=
  Sent WS_DISCONNECTED :: concat (replicate n [ProbeSettled None; BackoffFired]).

(** Without a [window] the retry ceiling is the end. The ninth failed probe in
    a row arms no timer and reloads nothing, and there is no watchdog to wake the
    machine: only an event sent from outside, or disposal, can move it. *)
Theorem headless_ceiling_stalls :
  ∃ m, reachable_manager headless m ∧ m_state m = waiting_for_network ∧ m_disposed m = false
    ∧ Reload ∉ m_trace m
    ∧ ∀ i, enabled i m = true → (∃ ev, i = Sent ev) ∨ i = Disposed.
Proof.
  exists (run_from_start headless (failing_probes 8 ++ [ProbeSettled None])). split_and!.
  - apply (run_reachable headless (failing_probes 8 ++ [ProbeSettled None])). vm_compute. reflexivity.
  - by vm_compute.
  - by vm_compute.
  - decide_now.
  - intros i. destruct i; vm_compute; eauto; discriminate.
Qed.

Lemma sign_out_only_on_evidence_witness :
  sign_out_input (ProbeSettled (Some probe_session_expired)) = true
  ∧ signouts (m_trace (run_from_start browser [Sent WS_DISCONNECTED])) = 0%nat.
Proof.
  destruct (sign_out_only_on_evidence browser browser_sound
    (run_from_start browser [Sent WS_DISCONNECTED]) quiet_env (ProbeSettled (Some probe_session_expired)))
    as [H1 H2].
  - apply (run_reachable browser [Sent WS_DISCONNECTED]). vm_compute. reflexivity.
  - exact quiet_env_valid.
  - vm_compute. reflexivity.
  - split; [apply H1; [discriminate|vm_compute; reflexivity]|exact H2].
Defined.

Lemma session_expired_is_terminal_witness :
  let m := run_from_start browser [Sent WS_SESSION_ERROR] in
  m_trace (handle browser quiet_env (Sent MANUAL_RETRY) m) = m_trace m.
Proof.
  intros m. apply (session_expired_is_terminal browser m); [reflexivity|].
  apply rtc_once, mstep_handle; [exact quiet_env_valid|reflexivity].
Defined.

Lemma browser_never_wedges_witness :
  let m := run_from_start browser [Sent NETWORK_LOST] in
  is_stuck (m_state m) = true ∧ enabled WatchdogFired m = true
  ∧ (m_state (handle browser quiet_env WatchdogFired m) = probing_network
     ∨ m_trace (handle browser quiet_env WatchdogFired m) = m_trace m ++ [Reload]).
Proof.
  intros m. destruct (browser_never_wedges browser browser_sound m quiet_env)
    as [H|[[H _]|[[H _]|[H _]]]]; try discriminate; [|reflexivity|reflexivity|exact H].
  apply (run_reachable browser [Sent NETWORK_LOST]). vm_compute. reflexivity.
Defined.

Lemma connection_bounds_witness :
  let m := run_from_start browser (failing_probes 3) in
  0 ≤ m_attempt m ≤ 8 ∧ m_state m ≠ validating_session.
Proof.
  intros m. destruct (connection_bounds browser browser_sound m) as (H & _ & _ & Hv & _).
  - apply (run_reachable browser (failing_probes 3)). vm_compute. reflexivity.
  - exact (conj H Hv).
Defined.

(** At the ceiling with the browser offline the machine stays where it is. *)
Example ceiling_offline_stays :
  m_state (handle browser (mkEnv 0 0 (Some (Some false))) (ReconnectSettled None)
    (set_m_attempt 8 (run_from_start browser [Sent WS_DISCONNECTED; ProbeSettled (Some reachable)])))
  = backoff.
Proof. vm_compute. reflexivity. Qed.
