(* ===== verification/WireFormats.v ===== *)
(** * Small wire formats

    The feed cursor ([observation/cursor.ts]), durations ([utils/duration.ts]) and
    the rate-limit response fields ([wire/rateLimit.ts]): strings that cross the
    network and have to be read back as they were written. Numbers read by
    [Number(digits)] are exact here; beyond the safe integers, where JavaScript
    would round, the parsers refuse them. *)
From S2P Require Import Prelude.
From Stdlib Require Import DecimalString DecimalPos DecimalN QArith Qround.
From Stdlib Require Decimal.
#[local] Open Scope Z_scope.

(** ** Decimal digits *)

(** [/^\d+$/] and [Number(digits)]. *)
Definition parse_digits (s : string) : option Z :=
  match s with
  | EmptyString => None
  | _ => match NilEmpty.uint_of_string s with
         | Some d => Some (Z.of_N (N.of_uint d))
         | None => None
         end
  end.

(** The template-string rendering of a non-negative integer. *)
Definition print_digits (n : Z) : string := NilEmpty.string_of_uint (N.to_uint (Z.to_N n)).

Lemma print_digits_nonempty n : print_digits n ≠ ""%string.
Proof.
  unfold print_digits. destruct (Z.to_N n) as [|p]; [done|]. simpl.
  destruct (Pos.to_uint p) eqn:Hd; simpl; try discriminate.
  by apply DecimalPos.Unsigned.to_uint_nonnil in Hd.
Qed.

Lemma parse_print_digits n : 0 ≤ n → parse_digits (print_digits n) = Some n.
Proof.
  intros Hn. unfold parse_digits. pose proof (print_digits_nonempty n) as Hne.
  destruct (print_digits n) as [|c s] eqn:Hp; [done|]. rewrite <- Hp. unfold print_digits.
  rewrite NilEmpty.usu, DecimalN.Unsigned.of_to. by rewrite Z2N.id.
Qed.

(** ** The feed cursor *)

Record FeedCursor := mkCursor { fc_log : Z; fc_claims : Z }.

Definition feedCursorSchema (c : FeedCursor) : bool :=
  (0 <=? fc_log c) && is_safe_integer (fc_log c) && (0 <=? fc_claims c) && is_safe_integer (fc_claims c).

Definition FEED_CURSOR_START : FeedCursor := mkCursor 0 0.

Definition dot : Ascii.ascii := Ascii.ascii_of_N 46.

(** The two capture groups of [/^(\d+)(?:\.(\d+))?$/]: what is before the first
    dot, and what is after it. *)
Fixpoint split_dot (s : string) : string * option string :=
  match s with
  | EmptyString => (EmptyString, None)
  | String c s' =>
      if Ascii.eqb c dot then (EmptyString, Some s')
      else let '(a, b) := split_dot s' in (String c a, b)
  end.

Definition parseFeedCursor (raw : string) : option FeedCursor :=
  let '(a, b) := split_dot raw in
  log ← parse_digits a;
  claims ← match b with None => Some 0 | Some b => parse_digits b end;
  let parsed := mkCursor log claims in
  if feedCursorSchema parsed then
    (* the second check of the source; the schema's [int()] already implies it *)
    if negb (is_safe_integer (fc_log parsed)) || negb (is_safe_integer (fc_claims parsed))
    then None else Some parsed
  else None.

Definition formatFeedCursor (c : FeedCursor) : string :=
  print_digits (fc_log c) +:+ "." +:+ print_digits (fc_claims c).

Definition feedCursorAdvanced (prev next : FeedCursor) : bool :=
  (fc_log prev <? fc_log next) || (fc_claims prev <? fc_claims next).

Definition no_dot (s : string) : bool := match split_dot s with (_, None) => true | _ => false end.

Lemma uint_no_dot d : no_dot (NilEmpty.string_of_uint d) = true.
Proof.
  unfold no_dot. induction d; simpl; try done;
    destruct (split_dot _) as [a [b|]] eqn:Hs; simpl in *; done.
Qed.

Lemma split_dot_app a b : no_dot a = true → split_dot (a +:+ String dot b) = (a, Some b).
Proof.
  unfold no_dot. induction a as [|c a IH]; simpl; [done|].
  destruct (Ascii.eqb c dot); [done|].
  destruct (split_dot a) as [x [y|]] eqn:Hs; [done|]. intros _. by rewrite IH.
Qed.

(** Cursors round-trip. A valid cursor is read back from what
    [formatFeedCursor] writes; and whatever [parseFeedCursor] accepts is a pair of
    non-negative safe integers that re-serializes to a string with the same
    meaning, so a garbled cursor is refused rather than read as a position. *)
Theorem feed_cursor_round_trip :
  (∀ c, feedCursorSchema c = true → parseFeedCursor (formatFeedCursor c) = Some c)
  ∧ (∀ raw c, parseFeedCursor raw = Some c →
     feedCursorSchema c = true ∧ parseFeedCursor (formatFeedCursor c) = Some c).
Proof.
  assert (∀ c, feedCursorSchema c = true → parseFeedCursor (formatFeedCursor c) = Some c) as Hrt.
  { intros [l k] Hc. unfold parseFeedCursor, formatFeedCursor. simpl.
    change ("." +:+ print_digits k) with (String dot (print_digits k)).
    rewrite split_dot_app by apply uint_no_dot. unfold feedCursorSchema in *. simpl in Hc. bool_simpl.
    rewrite !parse_print_digits by done. simpl. unfold feedCursorSchema; simpl.
    repeat match goal with H : is_safe_integer _ = true |- _ => rewrite H; clear H end. simpl.
    by rewrite !(proj2 (Z.leb_le _ _)). }
  split; [exact Hrt|]. intros raw c H.
  assert (feedCursorSchema c = true) as Hc; [|by split; [|apply Hrt]].
  unfold parseFeedCursor in H. destruct (split_dot raw) as [a b].
  destruct (parse_digits a) as [x|]; [|done]. simpl in H.
  destruct (match b with Some _ => _ | None => _ end) as [y|]; [|done]. simpl in H.
  destruct (feedCursorSchema _) eqn:Hc; [|done]. destruct (_ || _); [done|]. by injection H as <-.
Qed.

(** [feedCursorAdvanced] accepts a page that rewinds one of the two positions. *)
Example advanced_may_rewind :
  feedCursorAdvanced (mkCursor 10 5) (mkCursor 11 3) = true.
Proof. reflexivity. Qed.

(** ** Durations

    A number of seconds, or digits with an optional fraction and a unit. Values
    are exact rationals: the rounding of binary floating point is not modelled. *)

Inductive Duration := DNumber (seconds : Q) | DString (s : string).

Definition is_digit (c : Ascii.ascii) : bool :=
  let n := Ascii.N_of_ascii c in (48 <=? n)%N && (n <=? 57)%N.

(** The longest prefix of digits, and the rest. *)
Fixpoint span_digits (s : string) : string * string :=
  match s with
  | EmptyString => (EmptyString, EmptyString)
  | String c s' =>
      if is_digit c then let '(a, b) := span_digits s' in (String c a, b) else (EmptyString, s)
  end.

Inductive duration_unit := unit_ms | unit_s | unit_m | unit_h.

Definition unit_of (s : string) : option duration_unit :=
  if String.eqb s "ms" then Some unit_ms
  else if String.eqb s "s" then Some unit_s
  else if String.eqb s "m" then Some unit_m
  else if String.eqb s "h" then Some unit_h
  else None.

Definition UNIT_MS (u : duration_unit) : Z :=
  match u with unit_ms => 1 | unit_s => 1000 | unit_m => 60000 | unit_h => 3600000 end.

Definition unit_name (u : duration_unit) : string :=
  match u with unit_ms => "ms" | unit_s => "s" | unit_m => "m" | unit_h => "h" end.

Definition duration_invalid : JsError := ablo_error AbloValidationError "duration_invalid".

(** [PATTERN.exec]: the value and the unit. *)
Definition match_duration (s : string) : option (Q * duration_unit) :=
  let '(whole, rest) := span_digits s in
  n ← parse_digits whole;
  match rest with
  | String c rest' =>
      if Ascii.eqb c dot then
        let '(frac, rest'') := span_digits rest' in
        f ← parse_digits frac;
        u ← unit_of rest'';
        let den := Z.to_pos (10 ^ Z.of_nat (String.length frac)) in
        Some (((n * Zpos den + f) # den)%Q, u)
      else u ← unit_of rest; Some (inject_Z n, u)
  | EmptyString => None
  end.

Definition parseDurationMs (input : Duration) : result Q :=
  match input with
  | DNumber seconds => Ok (seconds * 1000)%Q
  | DString s =>
      match match_duration s with
      | None => Throw duration_invalid
      | Some (value, u) => Ok (value * inject_Z (UNIT_MS u))%Q
      end
  end.

Definition toMs : Duration → result Q := parseDurationMs.

Definition toSeconds (input : Duration) : result Z :=
  ms ← toMs input; Ok (Qfloor (ms / 1000)%Q).

Lemma uint_is_digits d s :
  match s with EmptyString => True | String c _ => is_digit c = false end →
  span_digits (NilEmpty.string_of_uint d +:+ s) = (NilEmpty.string_of_uint d, s).
Proof.
  intros Hs. induction d; simpl; try (rewrite IHd; reflexivity).
  destruct s as [|c s]; simpl; [done|]. by rewrite Hs.
Qed.

Lemma parse_digits_nonneg s n : parse_digits s = Some n → 0 ≤ n.
Proof. unfold parse_digits. repeat case_match; intros; simplify_eq. lia. Qed.

Lemma match_duration_print n u :
  0 ≤ n → match_duration (print_digits n +:+ unit_name u) = Some (inject_Z n, u).
Proof.
  intros Hn. unfold match_duration. unfold print_digits at 1. rewrite uint_is_digits by by destruct u.
  change (NilEmpty.string_of_uint (N.to_uint (Z.to_N n))) with (print_digits n).
  rewrite parse_print_digits by done. simpl. by destruct u.
Qed.

(** A duration means the same in every unit. Whole durations written in
    milliseconds, seconds, minutes or hours are read back exactly, a bare number
    counts seconds; whatever a string parses to is never negative; and the only
    failure is [duration_invalid]. *)
Theorem durations_are_exact :
  (∀ n u, 0 ≤ n → ∃ q, toMs (DString (print_digits n +:+ unit_name u)) = Ok q ∧ q == inject_Z (n * UNIT_MS u))
  ∧ (∀ n, 0 ≤ n → ∃ q q', toMs (DNumber (inject_Z (60 * n))) = Ok q
       ∧ toMs (DString (print_digits n +:+ "m")) = Ok q' ∧ q == q')
  ∧ (∀ s q, toMs (DString s) = Ok q → (0 <= q)%Q)
  ∧ (∀ d e, toMs d = Throw e → e = duration_invalid).
Proof.
  unfold toMs, parseDurationMs. split_and!.
  - intros n u Hn. rewrite match_duration_print by done. eexists. split; [done|]. by rewrite inject_Z_mult.
  - intros n Hn. change "m"%string with (unit_name unit_m). rewrite match_duration_print by done.
    eexists _, _. split_and!; [done..|]. simpl. rewrite !inject_Z_mult. ring.
  - intros s q. destruct (match_duration s) as [[v u]|] eqn:Hm; [|done]. intros [= <-].
    apply Qmult_le_0_compat; [|by destruct u].
    unfold match_duration in Hm. destruct (span_digits s) as [w r].
    destruct (parse_digits w) as [n|] eqn:Hw; [|done]. apply parse_digits_nonneg in Hw. simpl in Hm.
    destruct r as [|c r]; [done|]. destruct (Ascii.eqb c dot).
    + destruct (span_digits r) as [f r']. destruct (parse_digits f) as [k|] eqn:Hf; [|done].
      apply parse_digits_nonneg in Hf. simpl in Hm. destruct (unit_of r'); [|done].
      injection Hm as <- _. unfold Qle. simpl. nia.
    + destruct (unit_of _); [|done]. injection Hm as <- _. unfold Qle, inject_Z. simpl. lia.
  - intros d e. destruct d as [q|s]; [done|]. destruct (match_duration s) as [[]|]; [done|]. by intros [= <-].
Qed.
