(* ===== verification/ClaimTarget.v ===== *)
(** * What a claim covers

    [packages/transaction/src/claims]: the conflict predicate between two claims
    on one entity ([targetConflict.ts]), the locator spellings and the evidence
    that must not travel to another row ([locator.ts]), the public conflict
    context ([conflict.ts]) and the error of a refused admission
    ([admission.ts]).

    Model and field names are compared by [toLowerCase]. *)
From S2P Require Import Prelude JsData ErrorCodes.

(** ** Locators ([locator.ts]) *)

(** [meta] is opaque: a token that stands for the record. *)
Record ClaimTargetDetails := mkDetails {
  ct_field : option string;
  ct_fields : option (list string);
  ct_meta : option string;
}.

(** A part as a caller may spell it, and its wire name ([partName]). *)
Inductive part_ref := PartName (s : string) | ClaimPart (part : string) | SchemaField (field : string).
Definition partName (p : part_ref) : string :=
  match p with PartName s => s | ClaimPart s => s | SchemaField s => s end.

(** [fields] is a list, one part, or a selector function run on the selection for
    the model; the selection is schema code the caller passes. *)
Inductive selected :=
  | FieldList (l : list part_ref)
  | FieldOne (p : part_ref).
Inductive fields_source :=
  | Selected (s : selected)
  | FieldSelector (f : string → selected).

Record ClaimTargetSource := mkSource {
  src_field : option part_ref;
  src_fields : option fields_source;
  src_meta : option string;
}.

Definition subTarget (source : option ClaimTargetSource) (model : option string) : ClaimTargetDetails :=
  match source with
  | None => mkDetails None None None
  | Some source =>
      let selection := match src_fields source with
                       | Some (FieldSelector f) => Some (f (default ""%string model))
                       | Some (Selected s) => Some s
                       | None => None
                       end in
      let selectedFields := match selection with
                            | None => None
                            | Some (FieldList l) => Some l
                            | Some (FieldOne p) => Some [p]
                            end in
      mkDetails (partName <$> src_field source) ((λ l : list part_ref, partName <$> l) <$> selectedFields) (src_meta source)
  end.

Inductive EntityLocator :=
  | ByWire (entityType entityId : string)
  | ByModel (model id : string)
  | ByStream (type id : string).

Definition entityOf (source : EntityLocator) : string * string :=
  match source with ByWire t i | ByModel t i | ByStream t i => (t, i) end.

Definition wireTarget (source : EntityLocator) : EntityLocator :=
  let '(t, i) := entityOf source in ByWire t i.
Definition modelTarget (source : EntityLocator) : EntityLocator :=
  let '(t, i) := entityOf source in ByModel t i.
Definition streamTarget (source : EntityLocator) : EntityLocator :=
  let '(t, i) := entityOf source in ByStream t i.

Record BatchFence := mkFence { bf_model : string; bf_id : string; bf_token : Z }.

Definition batchFence (source : option EntityLocator) (token : option Z) : option BatchFence :=
  match source, token with
  | Some source, Some token => let '(m, i) := entityOf source in Some (mkFence m i token)
  | _, _ => None
  end.

Definition fenceTokenFor (fence : option BatchFence) (model : string) (id : option string) : option Z :=
  match fence, id with
  | Some fence, Some id =>
      if String.eqb (toLowerCase model) (toLowerCase (bf_model fence)) && String.eqb id (bf_id fence)
      then Some (bf_token fence) else None
  | _, _ => None
  end.

Definition claimIdFor (source : option EntityLocator) (claimId : option string) (model : string)
    (id : option string) : option string :=
  match source, claimId, id with
  | Some source, Some claimId, Some id =>
      let '(m, i) := entityOf source in
      if String.eqb (toLowerCase model) (toLowerCase m) && String.eqb id i then Some claimId else None
  | _, _, _ => None
  end.

(** ** The conflict predicate ([targetConflict.ts]) *)

Definition fieldSet (target : option ClaimTargetDetails) : list string :=
  let named := match target with
               | None => []
               | Some t => match ct_field t with Some f => [f] | None => [] end
                           ++ default [] (ct_fields t)
               end in
  toLowerCase <$> named.

(** The empty string is falsy. *)
Definition hasSubtarget (target : option ClaimTargetDetails) : bool :=
  match target with
  | None => false
  | Some t =>
      match ct_field t with Some (String _ _) => true | _ => false end
      || match ct_fields t with Some (_ :: _) => true | _ => false end
  end.

Definition targetsConflict (held : ClaimTargetDetails) (incoming : option ClaimTargetDetails) : bool :=
  if negb (hasSubtarget (Some held)) || negb (hasSubtarget incoming) then true
  else
    let heldFields := fieldSet (Some held) in
    let incomingFields := fieldSet incoming in
    bool_decide (heldFields = [])
    || bool_decide (incomingFields = [])
    || existsb (λ name, bool_decide (name ∈ incomingFields)) heldFields.

(** ** Conflicts, normalized ([conflict.ts]) *)

Inductive ParticipantKind := kind_user | kind_agent | kind_system.

Record Counterparty := mkCounterparty {
  cp_kind : option ParticipantKind;
  cp_description : option string;
  cp_expiresAt : option Z;
}.

(** A partial [ModelTarget]. *)
Record PartialTarget := mkPartial {
  pt_model : option string;
  pt_id : option string;
  pt_field : option string;
}.

Record WireClaimSummary := mkSummary {
  sum_locator : EntityLocator;
  sum_claimId : string;
  sum_description : option string;
  sum_expiresAt : Z;
}.

Record ClaimConflictContext := mkConflict {
  cc_counterparty : option Counterparty;
  cc_target : option PartialTarget;
  cc_claimId : option string;
  cc_participantId : option string;
}.

Record ClaimConflictSource := mkConflictSource {
  cs_heldBy : option string;
  cs_heldByKind : option ParticipantKind;
  cs_heldByClaimId : option string;
  cs_heldByExpiresAt : option Z;
  cs_heldByClaim : option WireClaimSummary;
  cs_target : option PartialTarget;
  cs_description : option string;
  cs_expiresAt : option Z;
}.

(** [a ?? b]. *)
Definition nullish {A} (a b : option A) : option A := match a with Some _ => a | None => b end.

Definition partial_of (source : EntityLocator) : PartialTarget :=
  let '(m, i) := entityOf source in mkPartial (Some m) (Some i) None.

Definition normalizeClaimConflict (source : ClaimConflictSource) : option ClaimConflictContext :=
  let summary := cs_heldByClaim source in
  let description := nullish (cs_description source) (summary ≫= sum_description) in
  let expiresAt := nullish (nullish (cs_expiresAt source) (cs_heldByExpiresAt source))
                     (sum_expiresAt <$> summary) in
  let counterparty := mkCounterparty (cs_heldByKind source) description expiresAt in
  let has_counterparty := is_Some_b (cs_heldByKind source) || is_Some_b description || is_Some_b expiresAt in
  let target := nullish (cs_target source) (partial_of ∘ sum_locator <$> summary) in
  let claimId := nullish (cs_heldByClaimId source) (sum_claimId <$> summary) in
  if has_counterparty || is_Some_b target || is_Some_b claimId || is_Some_b (cs_heldBy source)
  then Some (mkConflict (if has_counterparty then Some counterparty else None) target claimId
               (cs_heldBy source))
  else None.

(** ** Refused admissions ([admission.ts]) *)

Inductive rejection_reason := reason_capability_denied | reason_invalid_target | reason_conflict | reason_other.

(** [claimRejectionSchema], what the client reads of it. A reason that is absent
    or unknown is [None]. *)
Record ClaimRejection := mkRejection {
  rj_claimId : string;
  rj_reason : option rejection_reason;
  rj_target : option EntityLocator;
  rj_heldBy : option string;
  rj_heldByKind : option ParticipantKind;
  rj_heldByClaimId : option string;
  rj_heldByExpiresAt : option Z;
  rj_heldByClaim : option WireClaimSummary;
}.

Definition conflictFromClaimRejection (r : ClaimRejection) : option ClaimConflictContext :=
  normalizeClaimConflict
    (mkConflictSource (rj_heldBy r) (rj_heldByKind r) (rj_heldByClaimId r) (rj_heldByExpiresAt r)
       (rj_heldByClaim r) (partial_of <$> rj_target r) None None).

(** The error's class and code, and the conflict it carries. *)
Definition claimAdmissionError (r : ClaimRejection) : JsError * option ClaimConflictContext :=
  match rj_reason r with
  | Some reason_capability_denied => (ablo_error CapabilityError "capability_scope_denied", None)
  | Some reason_invalid_target => (ablo_error AbloValidationError "invalid_body", None)
  | Some reason_conflict => (ablo_error AbloClaimedError "claim_conflict", conflictFromClaimRejection r)
  | _ => (ablo_error AbloClaimedError "claim_lease_unavailable", conflictFromClaimRejection r)
  end.

(** ** Two claims conflict exactly when they share a field *)

(** The meaning of a claim: the field names it covers. A claim that does not
    narrow covers every name; otherwise it covers the names it lists, letter case
    aside. *)
Definition covers (target : option ClaimTargetDetails) (name : string) : Prop :=
  hasSubtarget target = false ∨ toLowerCase name ∈ fieldSet target.

Lemma fieldSet_lower target name : name ∈ fieldSet target → toLowerCase name = name.
Proof.
  unfold fieldSet. rewrite list_elem_of_fmap. intros (x & -> & _). apply toLowerCase_idem.
Qed.

Lemma hasSubtarget_fields target : hasSubtarget target = true → fieldSet target ≠ [].
Proof.
  destruct target as [[f fs m]|]; simpl; [|done].
  destruct f as [[|]|], fs as [[|]|]; simpl; done.
Qed.

(** The conflict rule is sound and complete. A claim conflicts with the one
    held exactly when some field name is covered by both, so no two granted
    claims can ever write the same field, and a claim waits only for another that
    it overlaps. The rule is symmetric, and metadata never decides it. *)
Theorem conflict_iff_overlap held incoming :
  (targetsConflict held incoming = true ↔ ∃ name, covers (Some held) name ∧ covers incoming name)
  ∧ (∀ other, incoming = Some other →
     targetsConflict held incoming = targetsConflict other (Some held)
     ∧ ∀ m, targetsConflict (mkDetails (ct_field held) (ct_fields held) m) incoming
            = targetsConflict held incoming).
Proof.
  assert (∀ held incoming, targetsConflict held incoming = true
            ↔ ∃ name, covers (Some held) name ∧ covers incoming name) as Hiff.
  { clear. intros held incoming. unfold targetsConflict, covers.
    destruct (hasSubtarget (Some held)) eqn:Hh; destruct (hasSubtarget incoming) eqn:Hi; simpl.
    - apply hasSubtarget_fields in Hh, Hi. rewrite !bool_decide_eq_false_2 by done. simpl.
      rewrite existsb_exists. split.
      + intros (x & Hx & Hin). bool_simpl. apply list_elem_of_In in Hx. exists x.
        rewrite (fieldSet_lower _ _ Hin). eauto.
      + intros (x & [|Hx] & [|Hin]); try done. exists (toLowerCase x).
        rewrite bool_decide_eq_true. by split; [apply list_elem_of_In|].
    - split; [intros _|done]. apply hasSubtarget_fields in Hh.
      destruct (fieldSet (Some held)) as [|x l] eqn:Hf; [done|]. exists x.
      split; [right|by left]. rewrite (fieldSet_lower (Some held) x) by (rewrite Hf; left). left.
    - split; [intros _|done]. apply hasSubtarget_fields in Hi.
      destruct (fieldSet incoming) as [|x l] eqn:Hf; [done|]. exists x.
      split; [by left|right]. rewrite (fieldSet_lower incoming x) by (rewrite Hf; left). left.
    - split; [intros _|done]. exists ""%string. auto. }
  split; [apply Hiff|]. intros other ->. split.
  - apply eq_true_iff_eq. rewrite !Hiff. naive_solver.
  - intros m. unfold targetsConflict, hasSubtarget, fieldSet. done.
Qed.

Lemma conflict_iff_overlap_witness :
  targetsConflict (mkDetails None (Some ["Title"%string; "body"%string]) None)
    (Some (mkDetails (Some "title"%string) None None)) = true.
Proof.
  apply (conflict_iff_overlap (mkDetails None (Some ["Title"%string; "body"%string]) None)).
  exists "title"%string. split; right; unfold fieldSet; simpl; set_solver.
Defined.

(** Evidence of a grant stays on the row it was granted for. In every
    spelling of the entity, a fence token or a claim id is attached to an
    operation only when it writes the claimed row, model names compared without
    case; and a batch with a token and a claim attaches both or neither. *)
Theorem grant_evidence_does_not_travel source token claimId model id :
  let fence := batchFence (Some source) (Some token) in
  let own := toLowerCase model = toLowerCase (entityOf source).1 ∧ id = Some (entityOf source).2 in
  (fenceTokenFor fence model id = Some token ↔ own)
  ∧ (fenceTokenFor fence model id = None ↔ ¬ own)
  ∧ (claimIdFor (Some source) (Some claimId) model id = Some claimId ↔ own)
  ∧ is_Some_b (fenceTokenFor fence model id) = is_Some_b (claimIdFor (Some source) (Some claimId) model id)
  ∧ claimIdFor (Some (wireTarget source)) (Some claimId) model id
    = claimIdFor (Some (modelTarget source)) (Some claimId) model id
  ∧ claimIdFor (Some (streamTarget source)) (Some claimId) model id
    = claimIdFor (Some (modelTarget source)) (Some claimId) model id.
Proof.
  intros fence own. subst fence own. unfold batchFence, fenceTokenFor, claimIdFor, wireTarget, modelTarget, streamTarget.
  destruct (entityOf source) as [m i]; simpl.
  destruct id as [id|]; simpl; [|naive_solver].
  destruct (String.eqb_spec (toLowerCase model) (toLowerCase m)); simpl; [|naive_solver].
  destruct (String.eqb_spec id i); naive_solver.
Qed.

(** A refused claim never hides who holds the row. The context a rejection
    carries is absent only when the frame says nothing about the holder or
    the target, and otherwise it repeats the holder's identity, kind and claim
    id as sent, the summary filling only what the frame left out. *)
Theorem rejection_context_is_complete r :
  (conflictFromClaimRejection r = None ↔
     rj_heldBy r = None ∧ rj_heldByKind r = None ∧ rj_heldByClaimId r = None
     ∧ rj_heldByExpiresAt r = None ∧ rj_heldByClaim r = None ∧ rj_target r = None)
  ∧ (∀ c, conflictFromClaimRejection r = Some c →
     cc_participantId c = rj_heldBy r
     ∧ (cc_counterparty c ≫= cp_kind) = rj_heldByKind r
     ∧ (∀ id, rj_heldByClaimId r = Some id → cc_claimId c = Some id)
     ∧ (∀ s, rj_heldByClaim r = Some s → rj_heldByClaimId r = None → cc_claimId c = Some (sum_claimId s))
     ∧ (∀ l, rj_target r = Some l → cc_target c = Some (partial_of l))).
Proof.
  destruct r as [cid reason [l|] hb hk hc he [[? ? [?|] ?]|]]; destruct hb, hk, hc, he;
    unfold conflictFromClaimRejection, normalizeClaimConflict; simpl;
    (split; [split; [intros; by split_and!|by intros (?&?&?&?&?&?)]
            |intros c Hc; simplify_eq/=; split_and!; intros; by simplify_eq/=]).
Qed.
