(* ===== verification/ClaimSession.v ===== *)
(** * The life of a claim on the client

    [packages/transaction/src/claims]: waiting for the queue to grant a claim
    ([awaitGrant.ts]), keeping the lease alive ([heartbeat.ts]) and the single end
    of a granted handle ([lifetime.ts]). Frames, timers, signals and settling
    beats are inputs; callbacks that call back in before they return are not
    modelled. *)
From S2P Require Import Prelude ErrorCodes ClaimTarget WireFormats.
From Stdlib Require Import QArith Qround.
#[local] Open Scope Z_scope.

(** ** The lifetime of a grant *)

Section Lifetime.
(** Listeners are compared by identity, errors are opaque. *)
Context {reason : Type}.

Record ClaimLifetime := mkLifetime {
  lt_ended : bool;
  lt_reason : option reason;
  lt_listeners : list nat;
  (** the listener calls made so far *)
  lt_calls : list (nat * option reason);
}.

Definition createClaimLifetime : ClaimLifetime := mkLifetime false None [] [].

Definition lifetime_end (nextReason : option reason) (s : ClaimLifetime) : ClaimLifetime :=
  if lt_ended s then s
  else mkLifetime true nextReason [] (lt_calls s ++ ((λ l, (l, nextReason)) <$> lt_listeners s)).

(** [Set.add] keeps the first insertion. *)
Definition onEnd (listener : nat) (s : ClaimLifetime) : ClaimLifetime :=
  if lt_ended s
  then mkLifetime true (lt_reason s) (lt_listeners s) (lt_calls s ++ [(listener, lt_reason s)])
  else if bool_decide (listener ∈ lt_listeners s) then s
  else mkLifetime false (lt_reason s) (lt_listeners s ++ [listener]) (lt_calls s).

(** The function [onEnd] returns. *)
Definition offEnd (listener : nat) (s : ClaimLifetime) : ClaimLifetime :=
  mkLifetime (lt_ended s) (lt_reason s) (base.filter (λ l, l ≠ listener) (lt_listeners s)) (lt_calls s).

Inductive lifetime_op := LEnd (r : option reason) | LOn (l : nat) | LOff (l : nat).

Definition lifetime_step (s : ClaimLifetime) (o : lifetime_op) : ClaimLifetime :=
  match o with LEnd r => lifetime_end r s | LOn l => onEnd l s | LOff l => offEnd l s end.

Definition lifetime_run (ops : list lifetime_op) : ClaimLifetime :=
  foldl lifetime_step createClaimLifetime ops.

(** Who is subscribed after a prefix without an end. *)
Definition subscribed (ops : list lifetime_op) : list nat :=
  foldl (λ ls o, match o with
                 | LOn l => if bool_decide (l ∈ ls) then ls else ls ++ [l]
                 | LOff l => base.filter (λ x, x ≠ l) ls
                 | LEnd _ => ls
                 end) [] ops.

Definition is_end (o : lifetime_op) : bool := match o with LEnd _ => true | _ => false end.
Definition late (ops : list lifetime_op) : list nat :=
  omap (λ o, match o with LOn l => Some l | _ => None end) ops.

Lemma lifetime_prefix ops :
  forallb (negb ∘ is_end) ops = true →
  lifetime_run ops = mkLifetime false None (subscribed ops) [].
Proof.
  induction ops as [|o ops IH] using rev_ind; [done|].
  rewrite forallb_app. intros [H1 H2]%andb_true_iff. simpl in H2.
  unfold lifetime_run, subscribed in *. rewrite !foldl_app. simpl. rewrite IH by done.
  destruct o as [r|l|l]; [done| |done]. simpl. unfold onEnd; simpl. by case_bool_decide.
Qed.

Lemma lifetime_suffix ops r calls :
  foldl lifetime_step (mkLifetime true r [] calls) ops
  = mkLifetime true r [] (calls ++ ((λ l, (l, r)) <$> late ops)).
Proof.
  revert calls; induction ops as [|o ops IH]; intros calls; simpl; [by rewrite app_nil_r|].
  destruct o as [r'|l|l]; unfold lifetime_step at 2, lifetime_end, onEnd, offEnd; simpl;
    rewrite IH; [done| |done]. by rewrite <- app_assoc.
Qed.

Lemma subscribed_NoDup ops : NoDup (subscribed ops).
Proof.
  induction ops as [|o ops IH] using rev_ind; [constructor|].
  unfold subscribed in *. rewrite foldl_app. simpl. destruct o as [r|l|l]; [done| |by apply NoDup_filter].
  case_bool_decide; [done|]. apply NoDup_app. split_and!; [done| |repeat constructor; set_solver].
  set_solver.
Qed.

(** A grant ends once. However the handle is used, the first [end] decides the
    reason; every listener subscribed at that moment is called exactly once with
    it, in subscription order, a listener that arrives later is called at once
    with the same reason, and no later [end] calls anyone or changes it. *)
Theorem lifetime_ends_once before r after :
  forallb (negb ∘ is_end) before = true →
  let s := lifetime_run (before ++ LEnd r :: after) in
  lt_ended s = true ∧ lt_reason s = r
  ∧ lt_calls s = ((λ l, (l, r)) <$> subscribed before) ++ ((λ l, (l, r)) <$> late after)
  ∧ NoDup (subscribed before)
  ∧ lt_calls (lifetime_run before) = [].
Proof.
  intros Hb. simpl. pose proof (lifetime_prefix _ Hb) as Hp. unfold lifetime_run in *.
  rewrite foldl_app, Hp. simpl. unfold lifetime_end; simpl. rewrite lifetime_suffix. simpl.
  split_and!; try done. apply subscribed_NoDup.
Qed.

End Lifetime.
Arguments ClaimLifetime : clear implicits.
Arguments lifetime_op : clear implicits.

Lemma lifetime_ends_once_witness :
  lt_calls (lifetime_run [LOn 1%nat; LOn 2%nat; LOff 1%nat; LEnd (Some 7); LOn 3%nat; LEnd None])
  = [(2%nat, Some 7); (3%nat, Some 7)].
Proof.
  destruct (lifetime_ends_once [LOn 1%nat; LOn 2%nat; LOff 1%nat] (Some 7) [LOn 3%nat; LEnd None])
    as (_ & _ & H & _); [reflexivity|]. exact H.
Defined.

(** ** Heartbeat options *)

(** [true], a bare duration, or the structured plan; the callbacks by presence. *)
Inductive heartbeat_option :=
  | HeartbeatTrue
  | HeartbeatDuration (d : Duration)
  | HeartbeatPlan (every : option Duration) (onBeat onLost : bool).

(** [true | Duration]; [None] stands for [true]. *)
Record ResolvedHeartbeatPlan := mkPlan {
  hp_loop : bool;
  hp_cadence : option Duration;
  hp_onBeat : bool;
  hp_onLost : bool;
}.

Definition truthy_duration (d : Duration) : bool :=
  match d with
  | DNumber q => negb (Qeq_bool q 0)
  | DString s => negb (String.eqb s "")
  end.

Definition resolveHeartbeatPlan (heartbeat : option heartbeat_option) : ResolvedHeartbeatPlan :=
  match heartbeat with
  | Some (HeartbeatPlan every onBeat onLost) => mkPlan true every onBeat onLost
  | Some (HeartbeatDuration d) => mkPlan (truthy_duration d) (Some d) false false
  | Some HeartbeatTrue => mkPlan true None false false
  | None => mkPlan false None false false
  end.

(** The manual [heartbeat(options?)] argument: its ttl. *)
Inductive heartbeat_input := InputAbsent | InputDuration (d : Duration) | InputOptions (ttl : option Duration).
Definition resolveHeartbeatOptions (input : heartbeat_input) : option Duration :=
  match input with InputAbsent => None | InputDuration d => Some d | InputOptions ttl => ttl end.

Definition heartbeatCadenceMs (ttlMs : Z) (heartbeat : option Duration) : result Q :=
  match heartbeat with
  | Some d => toMs d
  | None => Ok (inject_Z (Z.max (ttlMs / 3) 1000))
  end.

(** The default cadence leaves runway. For any lease of three seconds or more
    the third beat still falls within the lease, so two beats in a row may fail;
    a duration the caller sets, in either spelling, is the cadence it means. *)
Theorem default_cadence_leaves_runway ttlMs :
  3000 ≤ ttlMs →
  (∃ c, heartbeatCadenceMs ttlMs (hp_cadence (resolveHeartbeatPlan (Some HeartbeatTrue))) = Ok (inject_Z c)
     ∧ 1000 ≤ c ∧ 3 * c ≤ ttlMs < 3 * c + 3)
  ∧ (∀ d, heartbeatCadenceMs ttlMs (hp_cadence (resolveHeartbeatPlan (Some (HeartbeatDuration d))))
          = heartbeatCadenceMs ttlMs (hp_cadence (resolveHeartbeatPlan (Some (HeartbeatPlan (Some d) false false))))
        ∧ heartbeatCadenceMs ttlMs (Some d) = toMs d).
Proof.
  intros Ht. split; [|done]. exists (ttlMs / 3). simpl. pose proof (Z.div_mod ttlMs 3).
  pose proof (Z.mod_pos_bound ttlMs 3). rewrite Z.max_l by lia. split; [done|lia].
Qed.

Lemma default_cadence_leaves_runway_witness :
  ∃ c, heartbeatCadenceMs 30000 None = Ok (inject_Z c) ∧ 3 * c ≤ 30000.
Proof.
  destruct (default_cadence_leaves_runway 30000) as [(c & H & _ & H2 & _) _]; [lia|].
  exists c. exact (conj H H2).
Defined.

(** A short lease has no runway: the second beat is due when it lapses. *)
Example short_lease_has_no_runway :
  heartbeatCadenceMs 2000 None = Ok (inject_Z 1000) ∧ heartbeatCadenceMs 900 None = Ok (inject_Z 1000).
Proof. split; reflexivity. Qed.

(** ** The heartbeat loop *)

(** [hb_beats] counts the beats sent and [hb_lost] the calls of [onLost]. *)
Record HeartbeatLoop := mkLoop {
  hb_stopped : bool;
  hb_inFlight : bool;
  hb_beats : nat;
  hb_lost : nat;
}.

Inductive loop_input :=
  | LoopTick
  | BeatOk
  | BeatFailed (e : JsError)
  | LoopStop.

Definition startClaimHeartbeatLoop : HeartbeatLoop := mkLoop false false 0 0.

Definition loop_tick (s : HeartbeatLoop) : HeartbeatLoop :=
  if hb_stopped s || hb_inFlight s then s
  else mkLoop (hb_stopped s) true (S (hb_beats s)) (hb_lost s).

(** The [catch] and then the [finally] of a beat. *)
Definition beat_failed (e : JsError) (s : HeartbeatLoop) : HeartbeatLoop :=
  let s :=
    if hb_stopped s then s
    else if bool_decide (err_class e = AbloClaimedError)
    then mkLoop true (hb_inFlight s) (hb_beats s) (S (hb_lost s))
    else s in
  mkLoop (hb_stopped s) false (hb_beats s) (hb_lost s).

Definition loop_step (s : HeartbeatLoop) (i : loop_input) : HeartbeatLoop :=
  match i with
  | LoopTick => loop_tick s
  | BeatOk => mkLoop (hb_stopped s) false (hb_beats s) (hb_lost s)
  | BeatFailed e => beat_failed e s
  | LoopStop => mkLoop true (hb_inFlight s) (hb_beats s) (hb_lost s)
  end.

(** A stopped interval does not tick, and a beat settles only when one is out. *)
Definition loop_enabled (s : HeartbeatLoop) (i : loop_input) : bool :=
  match i with
  | LoopTick => negb (hb_stopped s)
  | BeatOk | BeatFailed _ => hb_inFlight s
  | LoopStop => true
  end.

Inductive loop_reach : list loop_input → HeartbeatLoop → Prop :=
  | loop_start : loop_reach [] startClaimHeartbeatLoop
  | loop_next l s i : loop_reach l s → loop_enabled s i = true → loop_reach (l ++ [i]) (loop_step s i).

Definition is_settle (i : loop_input) : bool :=
  match i with BeatOk | BeatFailed _ => true | _ => false end.
Definition settles (l : list loop_input) : nat := length (base.filter (λ i, is_settle i = true) l).

Lemma settles_snoc l i : settles (l ++ [i]) = (settles l + if is_settle i then 1 else 0)%nat.
Proof. unfold settles. rewrite filter_app, length_app. by destruct i. Qed.

Lemma loop_inv l s :
  loop_reach l s →
  (hb_beats s = settles l + (if hb_inFlight s then 1 else 0))%nat
  ∧ (hb_lost s ≤ 1)%nat ∧ (hb_stopped s = false → hb_lost s = 0%nat).
Proof.
  induction 1 as [|l s i _ (IH1 & IH2 & IH3) Hen]; [by split_and!; [|simpl; lia|]|]. rewrite settles_snoc.
  destruct s as [[] [] b lo]; simpl in *; destruct i; simpl in *;
    unfold loop_tick, beat_failed; simpl; try case_bool_decide; simpl; try done;
    split_and!; intros; try specialize (IH3 eq_refl); try done; lia.
Qed.

(** Beats never overlap and a loss is reported once. After any run of ticks,
    settlements and stops, the beats sent exceed the beats settled by at most the
    one in flight; [onLost] has been called at most once, and then the loop has
    stopped; a stopped loop sends nothing more; and a beat that failed for any
    other reason is followed by another at the next tick. *)
Theorem heartbeat_loop_is_safe l s :
  loop_reach l s →
  (hb_beats s = settles l + (if hb_inFlight s then 1 else 0))%nat
  ∧ (hb_lost s ≤ 1)%nat ∧ (hb_lost s = 1%nat → hb_stopped s = true)
  ∧ (hb_stopped s = true → ∀ i, loop_enabled s i = true →
     hb_stopped (loop_step s i) = true ∧ hb_beats (loop_step s i) = hb_beats s
     ∧ hb_lost (loop_step s i) = hb_lost s)
  ∧ (∀ e, hb_stopped s = false → hb_inFlight s = true → err_class e ≠ AbloClaimedError →
     hb_beats (loop_step (loop_step s (BeatFailed e)) LoopTick) = S (hb_beats s)).
Proof.
  intros Hr.
  assert (∀ s, hb_stopped s = true → ∀ i, loop_enabled s i = true →
     hb_stopped (loop_step s i) = true ∧ hb_beats (loop_step s i) = hb_beats s
     ∧ hb_lost (loop_step s i) = hb_lost s) as Hstop.
  { clear. intros [st fl b lo] Hs i Hen; simpl in *; subst st.
    destruct i; simpl in *; unfold loop_tick, beat_failed; simpl; done. }
  apply loop_inv in Hr as (H1 & H2 & H3). split_and!; [done|done| |by apply Hstop|].
  - intros Hl. destruct (hb_stopped s); [done|]. specialize (H3 eq_refl). lia.
  - intros e Hs Hf Hc. simpl. unfold beat_failed, loop_tick. rewrite Hs, bool_decide_eq_false_2 by done.
    simpl. by rewrite Hs.
Qed.

Lemma heartbeat_loop_is_safe_witness :
  let s := mkLoop true false 2 1 in
  loop_reach [LoopTick; BeatOk; LoopTick; BeatFailed (ablo_error AbloClaimedError "claim_lost")] s
  ∧ (hb_lost s ≤ 1)%nat.
Proof.
  intros s. assert (loop_reach [LoopTick; BeatOk; LoopTick; BeatFailed (ablo_error AbloClaimedError "claim_lost")] s) as Hr.
  { apply (loop_next [LoopTick; BeatOk; LoopTick] (mkLoop false true 2 0)); [|reflexivity].
    apply (loop_next [LoopTick; BeatOk] (mkLoop false false 1 0) LoopTick); [|reflexivity].
    apply (loop_next [LoopTick] (mkLoop false true 1 0) BeatOk); [|reflexivity].
    apply (loop_next [] startClaimHeartbeatLoop LoopTick); [constructor|reflexivity]. }
  split; [exact Hr|]. apply (heartbeat_loop_is_safe _ _ Hr).
Defined.

(** ** Waiting for the grant *)

Record ClaimGrantInfo := mkGrant { gi_waited : bool; gi_fenceToken : option Z; gi_readAt : option Z }.

Inductive grant_outcome := Granted (info : ClaimGrantInfo) | Failed (e : JsError).

(** What the observers are told. *)
Inductive grant_hook := HookQueued (position : Z) | HookGranted (info : ClaimGrantInfo) | HookFailed (e : JsError).

Record grant_options := mkGrantOptions {
  go_timeoutMs : option Z;
  go_maxQueueDepth : option Z;
  (** the signal, and whether it has already aborted *)
  go_signal : option bool;
}.

Record grant_wait := mkWait {
  gw_subscribed : bool;
  gw_timer : bool;
  gw_outcome : option grant_outcome;
  gw_hooks : list grant_hook;
}.

Inductive grant_input :=
  | FrameAcquired (claimId : string) (fenceToken readAt : option Z)
  | FrameGranted (claimId : string) (fenceToken readAt : option Z)
  | FrameQueued (claimId : string) (position : option Z)
  | FrameRejected (r : ClaimRejection)
  | FrameLost (claimId : string)
  | SignalAborted
  | TimeoutFired.

Section Grant.
Context (claimId : string) (options : grant_options).

(** [settle], then the promise: only its first settlement counts. *)
Definition settle (o : grant_outcome) (hook : grant_hook) (w : grant_wait) : grant_wait :=
  mkWait false false (nullish (gw_outcome w) (Some o)) (gw_hooks w ++ [hook]).
Definition grant_fail (e : JsError) : grant_wait → grant_wait := settle (Failed e) (HookFailed e).
Definition grant_ok (info : ClaimGrantInfo) : grant_wait → grant_wait := settle (Granted info) (HookGranted info).

Definition claimed (code : string) : JsError := ablo_error AbloClaimedError code.

Definition awaitClaimGrant : grant_wait :=
  let w := mkWait true false None [] in
  match go_signal options with
  | Some true => grant_fail (claimed "claim_wait_aborted") w
  | _ => mkWait true (is_Some_b (go_timeoutMs options)) None []
  end.

Definition grant_step (w : grant_wait) (i : grant_input) : grant_wait :=
  match i with
  | FrameAcquired id tok at_ =>
      if String.eqb id claimId then grant_ok (mkGrant false tok at_) w else w
  | FrameGranted id tok at_ =>
      if String.eqb id claimId then grant_ok (mkGrant true tok at_) w else w
  | FrameQueued id pos =>
      if negb (String.eqb id claimId) then w
      else
        let position := default 0 pos in
        let w := mkWait (gw_subscribed w) (gw_timer w) (gw_outcome w) (gw_hooks w ++ [HookQueued position]) in
        match go_maxQueueDepth options with
        | Some max => if max <=? position then grant_fail (claimed "queue_too_deep") w else w
        | None => w
        end
  | FrameRejected r =>
      if negb (String.eqb (rj_claimId r) claimId) then w else grant_fail (claimAdmissionError r).1 w
  | FrameLost id => if String.eqb id claimId then grant_fail (claimed "claim_lost") w else w
  | SignalAborted => grant_fail (claimed "claim_wait_aborted") w
  | TimeoutFired => grant_fail (claimed "grant_timeout") w
  end.

(** Handlers run while subscribed, the abort listener while attached, the timeout
    while armed. *)
Definition grant_enabled (w : grant_wait) (i : grant_input) : bool :=
  match i with
  | SignalAborted => gw_subscribed w && bool_decide (go_signal options = Some false)
  | TimeoutFired => gw_timer w
  | _ => gw_subscribed w
  end.

(** Inputs that find no handler do nothing. *)
Definition grant_run (l : list grant_input) (w : grant_wait) : grant_wait :=
  foldl (λ w i, if grant_enabled w i then grant_step w i else w) w l.

(** The specification: what one input decides, if anything. *)
Definition decides (i : grant_input) : option grant_outcome :=
  match i with
  | FrameAcquired id tok at_ => if String.eqb id claimId then Some (Granted (mkGrant false tok at_)) else None
  | FrameGranted id tok at_ => if String.eqb id claimId then Some (Granted (mkGrant true tok at_)) else None
  | FrameQueued id pos =>
      match go_maxQueueDepth options with
      | Some max => if String.eqb id claimId && (max <=? default 0 pos)
                    then Some (Failed (claimed "queue_too_deep")) else None
      | None => None
      end
  | FrameRejected r =>
      if String.eqb (rj_claimId r) claimId then Some (Failed (claimAdmissionError r).1) else None
  | FrameLost id => if String.eqb id claimId then Some (Failed (claimed "claim_lost")) else None
  | SignalAborted => if bool_decide (go_signal options = Some false)
                     then Some (Failed (claimed "claim_wait_aborted")) else None
  | TimeoutFired => if is_Some_b (go_timeoutMs options) then Some (Failed (claimed "grant_timeout")) else None
  end.

Fixpoint first_decision (l : list grant_input) : option grant_outcome :=
  match l with
  | [] => None
  | i :: rest => match decides i with Some o => Some o | None => first_decision rest end
  end.

Definition terminal_hook (h : grant_hook) : option grant_outcome :=
  match h with HookGranted i => Some (Granted i) | HookFailed e => Some (Failed e) | HookQueued _ => None end.

Lemma settled_is_final l w :
  gw_subscribed w = false → gw_timer w = false → grant_run l w = w.
Proof.
  intros Hs Ht. induction l as [|i l IH]; simpl; [done|].
  replace (grant_enabled w i) with false by (destruct i; simpl; by rewrite ?Hs, ?Ht). done.
Qed.

Lemma open_step w i :
  gw_subscribed w = true → gw_timer w = is_Some_b (go_timeoutMs options) → gw_outcome w = None →
  omap terminal_hook (gw_hooks w) = [] →
  let w' := if grant_enabled w i then grant_step w i else w in
  match decides i with
  | None => gw_subscribed w' = true ∧ gw_timer w' = is_Some_b (go_timeoutMs options)
            ∧ gw_outcome w' = None ∧ omap terminal_hook (gw_hooks w') = []
  | Some o => gw_subscribed w' = false ∧ gw_timer w' = false
            ∧ gw_outcome w' = Some o ∧ omap terminal_hook (gw_hooks w') = [o]
  end.
Proof.
  intros Hs Ht Ho Hh. destruct i as [id t a|id t a|id p|r|id| |]; simpl; rewrite ?Hs, ?Ht; simpl;
    try destruct (String.eqb _ claimId); simpl; rewrite ?Ho, ?omap_app, ?Hh; simpl; try done.
  - destruct (go_maxQueueDepth options) as [max|]; simpl; [|by rewrite omap_app, Hh].
    destruct (max <=? default 0 p); simpl; rewrite ?omap_app, ?Hh; simpl; by rewrite ?Ho.
  - by destruct (go_maxQueueDepth options).
  - destruct (bool_decide _); simpl; rewrite ?Ho, ?omap_app, ?Hh; done.
  - destruct (is_Some_b _) eqn:Hd; simpl; rewrite ?Ho, ?omap_app, ?Hh; rewrite ?Ht, ?Hd; done.
Qed.

(** The wait settles exactly once, with the first thing that decides it.
    Whatever frames, aborts and timeouts arrive, in whatever order and however
    often, the promise is what the first decisive one says, frames about other
    claims decide nothing, exactly one terminal observer call is made and it
    agrees with the promise, and an already aborted signal decides before
    anything else. *)
Theorem grant_settles_once l :
  let w := grant_run l awaitClaimGrant in
  let decision := if bool_decide (go_signal options = Some true)
                  then Some (Failed (claimed "claim_wait_aborted")) else first_decision l in
  gw_outcome w = decision
  ∧ omap terminal_hook (gw_hooks w) = option_list decision
  ∧ gw_subscribed w = negb (is_Some_b decision).
Proof.
  assert (∀ w, gw_subscribed w = true → gw_timer w = is_Some_b (go_timeoutMs options) →
    gw_outcome w = None → omap terminal_hook (gw_hooks w) = [] →
    gw_outcome (grant_run l w) = first_decision l
    ∧ omap terminal_hook (gw_hooks (grant_run l w)) = option_list (first_decision l)
    ∧ gw_subscribed (grant_run l w) = negb (is_Some_b (first_decision l))) as Hgen.
  { induction l as [|i l IH]; intros w Hs Ht Ho Hh; simpl; [by rewrite Hs, Ho, Hh|].
    pose proof (open_step w i Hs Ht Ho Hh) as H. simpl in H.
    destruct (decides i) as [o|]; destruct H as (H1 & H2 & H3 & H4); [|by apply IH].
    change (grant_run l ?x) with (grant_run l x). unfold grant_run in *.
    pose proof (settled_is_final l _ H1 H2) as Hf. unfold grant_run in Hf. rewrite Hf.
    by rewrite H1, H3, H4. }
  simpl. unfold awaitClaimGrant. case_bool_decide as Hsig.
  - rewrite Hsig. rewrite settled_is_final by done. done.
  - destruct (go_signal options) as [[]|]; [done| |]; by apply Hgen.
Qed.
End Grant.
