(* ===== verification/Positions.v ===== *)
(** * Log positions

    The client's places in the confirmed log: [humans/src/local/logPosition.ts],
    [rowWatermarks.ts] and [sync/syncCursor.ts]. Positions are integers and rows
    are compared by identity. *)
From S2P Require Import Prelude.
From Stdlib Require Import Permutation.

(** ** The three positions of a client *)

Record LogPositionSnapshot := mkPosition { lp_persisted : Z; lp_applied : Z; lp_acked : Z }.

#[export] Instance LogPositionSnapshot_eq_dec : EqDecision LogPositionSnapshot.
Proof. solve_decision. Defined.

(** [logPositionSnapshotSchema]: three log positions, and a position is a
    non-negative safe integer. *)
Definition logPositionSnapshotSchema (p : LogPositionSnapshot) : bool :=
  forallb (λ n, (0 <=? n) && is_safe_integer n) [lp_persisted p; lp_applied p; lp_acked p].

Definition parseLogPosition (p : LogPositionSnapshot) : option LogPositionSnapshot :=
  if logPositionSnapshotSchema p then Some p else None.

Definition ZERO : LogPositionSnapshot := mkPosition 0 0 0.

(** A [Partial<LogPositionSnapshot>]. *)
Record PartialPosition := mkPartialPosition {
  pp_persisted : option Z; pp_applied : option Z; pp_acked : option Z }.

Definition advance (state : LogPositionSnapshot) (next : PartialPosition) : LogPositionSnapshot :=
  mkPosition (Z.max (lp_persisted state) (default 0 (pp_persisted next)))
    (Z.max (lp_applied state) (default 0 (pp_applied next)))
    (Z.max (lp_acked state) (default 0 (pp_acked next))).

Definition readFloor (s : LogPositionSnapshot) : Z := Z.max (lp_applied s) (lp_acked s).

Definition advancePersisted (syncId : Z) (s : LogPositionSnapshot) : LogPositionSnapshot :=
  advance s (mkPartialPosition (Some syncId) (Some syncId) None).
Definition advanceApplied (syncId : Z) (s : LogPositionSnapshot) : LogPositionSnapshot :=
  advance s (mkPartialPosition None (Some syncId) None).
Definition noteAck (lastSyncId : option Z) (s : LogPositionSnapshot) : LogPositionSnapshot :=
  match lastSyncId with
  | Some id => advance s (mkPartialPosition None None (Some id))
  | None => s
  end.
Definition restore (p s : LogPositionSnapshot) : LogPositionSnapshot :=
  advance s (mkPartialPosition (Some (lp_persisted p)) (Some (lp_applied p)) (Some (lp_acked p))).

Inductive position_op :=
  | AdvancePersisted (syncId : Z)
  | AdvanceApplied (syncId : Z)
  | NoteAck (lastSyncId : option Z)
  | RestorePosition (p : LogPositionSnapshot).

Definition position_step (s : LogPositionSnapshot) (o : position_op) : LogPositionSnapshot :=
  match o with
  | AdvancePersisted id => advancePersisted id s
  | AdvanceApplied id => advanceApplied id s
  | NoteAck id => noteAck id s
  | RestorePosition p => restore p s
  end.

Definition position_run : list position_op → LogPositionSnapshot := foldl position_step ZERO.

(** *** Positions as a join *)

Definition join (p q : LogPositionSnapshot) : LogPositionSnapshot :=
  mkPosition (Z.max (lp_persisted p) (lp_persisted q)) (Z.max (lp_applied p) (lp_applied q))
    (Z.max (lp_acked p) (lp_acked q)).

(** The position one operation speaks for, on its own. *)
Definition claims_position (o : position_op) : LogPositionSnapshot := position_step ZERO o.

Lemma join_comm p q : join p q = join q p.
Proof. unfold join. f_equal; lia. Qed.
Lemma join_assoc p q r : join p (join q r) = join (join p q) r.
Proof. unfold join; simpl. f_equal; lia. Qed.

Definition nonneg (p : LogPositionSnapshot) : Prop :=
  0 ≤ lp_persisted p ∧ 0 ≤ lp_applied p ∧ 0 ≤ lp_acked p.

Lemma position_step_join s o : nonneg s → position_step s o = join s (claims_position o).
Proof.
  intros (?&?&?). destruct o as [n|n|[n|]|p]; destruct s; unfold claims_position, join, nonneg in *; simpl in *;
    unfold advancePersisted, advanceApplied, noteAck, restore, advance; simpl; f_equal; lia.
Qed.

Lemma position_run_nonneg ops : nonneg (position_run ops).
Proof.
  unfold position_run. induction ops as [|o ops IH] using rev_ind; [by split_and!; simpl|].
  rewrite foldl_app; simpl. rewrite position_step_join by done. destruct IH as (?&?&?).
  unfold nonneg, join; simpl. lia.
Qed.

Lemma position_run_snoc ops o : position_run (ops ++ [o]) = join (position_run ops) (claims_position o).
Proof. unfold position_run. rewrite foldl_app. simpl. apply position_step_join, position_run_nonneg. Qed.

(** The positions are a high-water mark. Whatever advances, acknowledgements
    and restores reach a client, and in whatever order or multiplicity, the state
    is the same join of what they each claim: no late or repeated message moves a
    position backward; the read floor covers both what was applied and what was
    acknowledged; and if every restored snapshot has [persisted] at most
    [applied], so has the client. *)
Theorem positions_are_a_high_water_mark ops ops' o :
  Permutation ops ops' →
  position_run ops' = position_run ops
  ∧ (o ∈ ops → position_run (ops ++ [o]) = position_run ops)
  ∧ join (position_run ops) (position_run (ops ++ [o])) = position_run (ops ++ [o])
  ∧ lp_applied (position_run ops) ≤ readFloor (position_run ops)
  ∧ lp_acked (position_run ops) ≤ readFloor (position_run ops)
  ∧ (Forall (λ o, ∀ p, o = RestorePosition p → lp_persisted p ≤ lp_applied p) ops →
     lp_persisted (position_run ops) ≤ lp_applied (position_run ops)).
Proof.
  intros Hp. split_and!.
  - assert (∀ l l', Permutation l l' → ∀ s, nonneg s → foldl position_step s l' = foldl position_step s l) as H.
    { induction 1 as [|x l l' _ IH|x y l|l l' l'' _ IH1 _ IH2]; intros s Hs; simpl; [done| | |].
      - apply IH. rewrite position_step_join by done. destruct Hs as (?&?&?). unfold nonneg, join; simpl. lia.
      - f_equal. assert (∀ o, nonneg (position_step s o)).
        { intros o'. rewrite position_step_join by done. destruct Hs as (?&?&?). unfold nonneg, join; simpl. lia. }
        rewrite !position_step_join by auto. rewrite <- !join_assoc. f_equal. apply join_comm.
      - rewrite IH2 by done. by apply IH1. }
    apply H; [done|]. by split_and!; simpl.
  - intros Ho. rewrite position_run_snoc. apply list_elem_of_split in Ho as (l1 & l2 & ->).
    assert (∀ l p, join (position_run l) (claims_position p) = position_run (l ++ [p])) as Hj
      by (intros; by rewrite position_run_snoc).
    clear -l1. induction l2 as [|x l2 IH] using rev_ind.
    + rewrite position_run_snoc, <- join_assoc. f_equal. unfold join. destruct (claims_position o); simpl. f_equal; lia.
    + rewrite app_comm_cons, app_assoc, position_run_snoc, <- join_assoc, (join_comm (claims_position x)), join_assoc.
      by rewrite IH.
  - rewrite position_run_snoc. unfold join; simpl. f_equal; lia.
  - unfold readFloor. lia.
  - unfold readFloor. lia.
  - clear. induction ops as [|o ops IH] using rev_ind; [done|].
    rewrite Forall_app, Forall_singleton. intros [H1 H2]. specialize (IH H1). rewrite position_run_snoc.
    destruct o as [n|n|[n|]|p]; unfold claims_position; simpl; try lia. specialize (H2 p eq_refl). lia.
Qed.

Lemma positions_are_a_high_water_mark_witness :
  position_run [NoteAck (Some 7); AdvanceApplied 3; AdvancePersisted 5]
  = position_run [AdvancePersisted 5; AdvanceApplied 3; NoteAck (Some 7)].
Proof.
  apply (positions_are_a_high_water_mark [AdvancePersisted 5; AdvanceApplied 3; NoteAck (Some 7)]
    [NoteAck (Some 7); AdvanceApplied 3; AdvancePersisted 5] (NoteAck None)).
  apply (Permutation_rev [AdvancePersisted 5; AdvanceApplied 3; NoteAck (Some 7)]).
Defined.

(** ** Row watermarks *)

Section Watermarks.
Context {row : Type} `{Countable row}.

#[local] Notation RowWatermarks := (gmap row Z).

Definition wm_advance (r : row) (position : option Z) (w : RowWatermarks) : RowWatermarks :=
  match position with
  | None => w
  | Some position =>
      if negb (0 <? position) then w
      else match w !! r with
           | None => <[r := position]> w
           | Some known => if known <? position then <[r := position]> w else w
           end
  end.

Definition wm_of (r : row) (w : RowWatermarks) : option Z := w !! r.

Definition isAheadOf (r : row) (snapshotPosition : option Z) (w : RowWatermarks) : bool :=
  match snapshotPosition with
  | None => false
  | Some p => match w !! r with Some known => p <? known | None => false end
  end.

Definition wm_run (l : list (row * option Z)) : RowWatermarks :=
  foldl (λ w e, wm_advance e.1 e.2 w) ∅ l.

Lemma wm_run_snoc l e : wm_run (l ++ [e]) = wm_advance e.1 e.2 (wm_run l).
Proof. unfold wm_run. by rewrite foldl_app. Qed.

(** What is recorded is a position that was delivered, and no delivered position is
    above it. *)
Lemma wm_run_spec l r :
  match wm_run l !! r with
  | Some k => 0 < k ∧ (r, Some k) ∈ l ∧ ∀ q, (r, Some q) ∈ l → q ≤ k
  | None => ∀ q, (r, Some q) ∈ l → q ≤ 0
  end.
Proof.
  induction l as [|[r' p] l IH] using rev_ind.
  { unfold wm_run; cbn [foldl]. rewrite lookup_empty. intros q Hq. by apply not_elem_of_nil in Hq. }
  rewrite wm_run_snoc. simpl. unfold wm_advance. destruct p as [p|].
  2:{ destruct (wm_run l !! r); setoid_rewrite elem_of_app; [destruct IH as (?&?&?)|]; set_solver. }
  destruct (0 <? p) eqn:Hp; simpl; bool_simpl.
  2:{ destruct (wm_run l !! r) as [k|]; [destruct IH as (? & ? & Hk); split_and!; [done|set_solver|]|];
      intros q; rewrite elem_of_app, list_elem_of_singleton; (intros [Hq|Heq]; [auto|simplify_eq; lia]). }
  destruct (decide (r' = r)) as [->|Hne].
  - destruct (wm_run l !! r) as [k|] eqn:Hk.
    + destruct IH as (Hpos & Hin & Hmax). destruct (k <? p) eqn:Hlt; bool_simpl.
      * rewrite lookup_insert_eq. split_and!; [done|set_solver|].
        intros q. rewrite elem_of_app, list_elem_of_singleton. intros [Hq|[= ->]]; [|done].
        specialize (Hmax _ Hq). lia.
      * rewrite Hk. split_and!; [done|set_solver|].
        intros q. rewrite elem_of_app, list_elem_of_singleton. intros [Hq|[= ->]]; auto.
    + rewrite lookup_insert_eq. split_and!; [done|set_solver|].
      intros q. rewrite elem_of_app, list_elem_of_singleton. intros [Hq|[= ->]]; [|done].
      specialize (IH _ Hq). lia.
  - assert (∀ w : RowWatermarks, (match w !! r' with
      | Some known => if known <? p then <[r' := p]> w else w | None => <[r' := p]> w end) !! r = w !! r) as ->.
    { intros w. destruct (w !! r'); [destruct (_ <? _)|]; by rewrite ?lookup_insert_ne. }
    assert (∀ q, (r, Some q) ∈ l ++ [(r', Some p)] ↔ (r, Some q) ∈ l) as Hq.
    { intros q. rewrite elem_of_app, list_elem_of_singleton. naive_solver. }
    destruct (wm_run l !! r) as [k|]; setoid_rewrite Hq; done.
Qed.

(** A snapshot is judged stale exactly when it is. Whatever deliveries a row has
    seen, in whatever order, the client holds it to be ahead of a snapshot at
    position [p] if and only if some delivery brought it a position beyond [p];
    deliveries with no position, or a position of zero, never count. *)
Theorem stale_snapshots_are_recognized l r p :
  0 ≤ p →
  (isAheadOf r (Some p) (wm_run l) = true ↔ ∃ q, (r, Some q) ∈ l ∧ p < q)
  ∧ isAheadOf r None (wm_run l) = false.
Proof.
  intros Hp. split; [|done]. simpl. pose proof (wm_run_spec l r) as Hs.
  destruct (wm_run l !! r) as [k|].
  - destruct Hs as (Hk & Hin & Hmax). rewrite Z.ltb_lt. split; [eauto|].
    intros (q & Hq & Hlt). specialize (Hmax _ Hq). lia.
  - split; [done|]. intros (q & Hq & Hlt). specialize (Hs _ Hq). lia.
Qed.
End Watermarks.

Lemma stale_snapshots_are_recognized_witness :
  isAheadOf 1 (Some 4) (wm_run [(1, Some 9); (2, Some 3); (1, Some 5)]) = true.
Proof.
  apply (stale_snapshots_are_recognized [(1, Some 9); (2, Some 3); (1, Some 5)] 1 4); [lia|].
  exists 9. split; [left|lia].
Defined.

(** ** The resume cursor of a socket *)

Record SyncCursor := mkSyncCursor { sc_lastSyncId : Z; sc_syncCursor : option string }.

Definition new_SyncCursor (lastSyncId : Z) : SyncCursor := mkSyncCursor lastSyncId None.
Definition ackAdvance (syncId : Z) (c : SyncCursor) : SyncCursor :=
  if sc_lastSyncId c <? syncId then mkSyncCursor syncId (sc_syncCursor c) else c.
Definition setLastSyncId (syncId : Z) (c : SyncCursor) : SyncCursor := mkSyncCursor syncId (sc_syncCursor c).
Definition setSyncCursor (cursor : option string) (c : SyncCursor) : SyncCursor :=
  mkSyncCursor (sc_lastSyncId c) cursor.
Definition getLastSyncId (c : SyncCursor) : Z := sc_lastSyncId c.

(** Acknowledgements alone leave the highest id seen. *)
Lemma acks_keep_the_highest acks c :
  getLastSyncId (foldl (λ c id, ackAdvance id c) c acks) = foldl Z.max (sc_lastSyncId c) acks
  ∧ sc_syncCursor (foldl (λ c id, ackAdvance id c) c acks) = sc_syncCursor c.
Proof.
  revert c; induction acks as [|id acks IH]; intros c; simpl; [done|].
  destruct (IH (ackAdvance id c)) as [-> ->]. unfold ackAdvance.
  destruct (sc_lastSyncId c <? id) eqn:Hlt; bool_simpl; simpl; split; try done; f_equal; lia.
Qed.
