(* ===== verification/Batching.v ===== *)
(** * The batch scheduler

    [packages/transaction/src/batching/index.ts]: items enqueued close together go
    out as one dispatch, under size, cost and in-flight caps. The scheduler's
    closure variables are a record; timers, microtasks and settling dispatches are
    inputs. Every [enqueue] promise is a ticket, numbered in call order. *)
From S2P Require Import Prelude JsData.
From Stdlib Require Import Permutation Sorted.

Section Scheduler.
Context {T R E : Type}.

(** [maxBatchCost] is [None] for the default, [Infinity]. *)
Record BatchSchedulerOptions := mkBatchOptions {
  bo_enabled : bool;
  bo_windowMs : Z;
  bo_maxBatchSize : Z;
  bo_maxBatchCost : option Z;
  bo_costOf : T → Z;
  bo_maxInFlight : nat;
  bo_compare : option (T → T → Z);
}.

Inductive outcome := Resolved (r : R) | Rejected (e : E) | RejectedDisposed.

Record Batch := mkBatch { b_items : list T; b_deferreds : list nat; b_cost : Z }.

(** [s_flying] holds the batches whose dispatch has not settled, [s_started] the
    deferreds of every dispatch made, in order, and [s_solos] the tickets of
    [enqueueSolo]. *)
Record Scheduler := mkScheduler {
  s_pending : option Batch;
  s_timer : bool;
  s_microtaskScheduled : bool;
  s_microtasks : nat;
  s_ready : list Batch;
  s_flying : list Batch;
  s_idleWaiters : nat;
  s_woken : nat;
  s_flushed : nat;
  s_disposed : bool;
  s_next : nat;
  s_settled : list (nat * outcome);
  s_started : list Batch;
  s_solos : list nat;
}.

Context (o : BatchSchedulerOptions).

Definition createBatchScheduler : Scheduler :=
  mkScheduler None false false 0 [] [] 0 0 0 false 0 [] [] [].


(** The [while] loop of [pump]: start ready batches while there is room. *)
Fixpoint pump_loop (ready flying started : list Batch) : list Batch * list Batch * list Batch :=
  match ready with
  | [] => (ready, flying, started)
  | batch :: rest =>
      if bool_decide (length flying < bo_maxInFlight o)%nat
      then pump_loop rest (flying ++ [batch]) (started ++ [batch])
      else (ready, flying, started)
  end.

Definition pump (s : Scheduler) : Scheduler :=
  let '(ready, flying, started) := pump_loop (s_ready s) (s_flying s) (s_started s) in
  mkScheduler (s_pending s) (s_timer s) (s_microtaskScheduled s) (s_microtasks s) ready flying
    (s_idleWaiters s) (s_woken s) (s_flushed s) (s_disposed s) (s_next s) (s_settled s) started (s_solos s).

Definition push_ready (b : Batch) (s : Scheduler) : Scheduler :=
  mkScheduler (s_pending s) (s_timer s) (s_microtaskScheduled s) (s_microtasks s) (s_ready s ++ [b])
    (s_flying s) (s_idleWaiters s) (s_woken s) (s_flushed s) (s_disposed s) (s_next s) (s_settled s)
    (s_started s) (s_solos s).

Definition set_pending (p : option Batch) (s : Scheduler) : Scheduler :=
  mkScheduler p (s_timer s) (s_microtaskScheduled s) (s_microtasks s) (s_ready s) (s_flying s)
    (s_idleWaiters s) (s_woken s) (s_flushed s) (s_disposed s) (s_next s) (s_settled s) (s_started s)
    (s_solos s).

Definition set_timers (timer scheduled : bool) (queued : nat) (s : Scheduler) : Scheduler :=
  mkScheduler (s_pending s) timer scheduled queued (s_ready s) (s_flying s)
    (s_idleWaiters s) (s_woken s) (s_flushed s) (s_disposed s) (s_next s) (s_settled s) (s_started s)
    (s_solos s).

Definition flushPending (s : Scheduler) : Scheduler :=
  let s := set_timers false false (s_microtasks s) s in
  match s_pending s with
  | None => s
  | Some pending =>
      let items := match bo_compare o with
                   | Some cmp => sort_by cmp (b_items pending) | None => b_items pending end in
      pump (set_pending None (push_ready (mkBatch items (b_deferreds pending) (b_cost pending)) s))
  end.

Definition scheduleFlush (s : Scheduler) : Scheduler :=
  if s_microtaskScheduled s || s_timer s then s
  else if 0 <? bo_windowMs o then set_timers true (s_microtaskScheduled s) (s_microtasks s) s
  else set_timers (s_timer s) true (S (s_microtasks s)) s.

(** A new promise, and what settles it. *)
Definition new_ticket (solo : bool) (s : Scheduler) : Scheduler :=
  mkScheduler (s_pending s) (s_timer s) (s_microtaskScheduled s) (s_microtasks s) (s_ready s)
    (s_flying s) (s_idleWaiters s) (s_woken s) (s_flushed s) (s_disposed s) (S (s_next s)) (s_settled s)
    (s_started s) (if solo then s_solos s ++ [s_next s] else s_solos s).

Definition settle_tickets (l : list nat) (out : outcome) (s : Scheduler) : Scheduler :=
  mkScheduler (s_pending s) (s_timer s) (s_microtaskScheduled s) (s_microtasks s) (s_ready s)
    (s_flying s) (s_idleWaiters s) (s_woken s) (s_flushed s) (s_disposed s) (s_next s)
    (s_settled s ++ ((λ d, (d, out)) <$> l)) (s_started s) (s_solos s).

Definition enqueueSolo (item : T) (s : Scheduler) : Scheduler :=
  pump (push_ready (mkBatch [item] [s_next s] (bo_costOf o item)) (new_ticket true s)).

Definition over_cost (c : Z) : bool := match bo_maxBatchCost o with Some m => m <? c | None => false end.
Definition at_cost (c : Z) : bool := match bo_maxBatchCost o with Some m => m <=? c | None => false end.

Definition enqueue (item : T) (s : Scheduler) : Scheduler :=
  if s_disposed s then settle_tickets [s_next s] RejectedDisposed (new_ticket false s)
  else if negb (bo_enabled o) then enqueueSolo item s
  else
    let cost := bo_costOf o item in
    let deferred := s_next s in
    let s := new_ticket false s in
    let s := match s_pending s with
             | Some p => if (bo_maxBatchSize o <? Z.of_nat (length (b_items p)) + 1)
                            || over_cost (b_cost p + cost)
                         then flushPending s else s
             | None => s end in
    let p := default (mkBatch [] [] 0) (s_pending s) in
    let p := mkBatch (b_items p ++ [item]) (b_deferreds p ++ [deferred]) (b_cost p + cost) in
    let s := set_pending (Some p) s in
    if (bo_maxBatchSize o <=? Z.of_nat (length (b_items p))) || at_cost (b_cost p)
    then flushPending s else scheduleFlush s.

Definition notifyIdleIfDrained (s : Scheduler) : Scheduler :=
  match s_flying s, s_ready s with
  | [], [] =>
      mkScheduler (s_pending s) (s_timer s) (s_microtaskScheduled s) (s_microtasks s) [] [] 0
        (s_woken s + s_idleWaiters s) (s_flushed s) (s_disposed s) (s_next s) (s_settled s)
        (s_started s) (s_solos s)
  | _, _ => s
  end.

(** A dispatch settles: its deferreds, and then the [finally]. *)
Definition dispatch_settles (k : nat) (out : outcome) (s : Scheduler) : Scheduler :=
  match s_flying s !! k with
  | None => s
  | Some batch =>
      let s := settle_tickets (b_deferreds batch) out s in
      notifyIdleIfDrained (pump (mkScheduler (s_pending s) (s_timer s) (s_microtaskScheduled s)
        (s_microtasks s) (s_ready s) (delete k (s_flying s)) (s_idleWaiters s) (s_woken s) (s_flushed s)
        (s_disposed s) (s_next s) (s_settled s) (s_started s) (s_solos s)))
  end.

(** One turn of the [while] of [flush]: wait if anything is ready or in flight. *)
Definition flush_turn (s : Scheduler) : Scheduler :=
  let wait := bool_decide (s_ready s ≠ []) || bool_decide (s_flying s ≠ []) in
  mkScheduler (s_pending s) (s_timer s) (s_microtaskScheduled s) (s_microtasks s) (s_ready s) (s_flying s)
    (if wait then S (s_idleWaiters s) else s_idleWaiters s) (s_woken s)
    (if wait then s_flushed s else S (s_flushed s)) (s_disposed s) (s_next s) (s_settled s)
    (s_started s) (s_solos s).

Definition dispose_scheduler (s : Scheduler) : Scheduler :=
  mkScheduler (s_pending s) false false (s_microtasks s) (s_ready s) (s_flying s) (s_idleWaiters s)
    (s_woken s) (s_flushed s) true (s_next s) (s_settled s) (s_started s) (s_solos s).

Inductive batch_input :=
  | Enqueue (item : T)
  | EnqueueSolo (item : T)
  | MicrotaskRuns
  | TimerFires
  | Settles (k : nat) (out : outcome)
  | Flush
  | FlushResumes
  | Dispose.

Definition batch_step (s : Scheduler) (i : batch_input) : Scheduler :=
  match i with
  | Enqueue item => enqueue item s
  | EnqueueSolo item => enqueueSolo item s
  | MicrotaskRuns => flushPending (set_timers (s_timer s) false (pred (s_microtasks s)) s)
  | TimerFires => flushPending (set_timers false (s_microtaskScheduled s) (s_microtasks s) s)
  | Settles k out => dispatch_settles k out s
  | Flush => flush_turn (flushPending s)
  | FlushResumes =>
      flush_turn (mkScheduler (s_pending s) (s_timer s) (s_microtaskScheduled s) (s_microtasks s)
        (s_ready s) (s_flying s) (s_idleWaiters s) (pred (s_woken s)) (s_flushed s) (s_disposed s)
        (s_next s) (s_settled s) (s_started s) (s_solos s))
  | Dispose => dispose_scheduler s
  end.

Definition batch_enabled (s : Scheduler) (i : batch_input) : bool :=
  match i with
  | MicrotaskRuns => bool_decide (0 < s_microtasks s)%nat
  | TimerFires => s_timer s
  | Settles k _ => bool_decide (k < length (s_flying s))%nat
  | FlushResumes => bool_decide (0 < s_woken s)%nat
  | _ => true
  end.

Inductive batch_reach : list batch_input → Scheduler → Prop :=
  | batch_start : batch_reach [] createBatchScheduler
  | batch_next l s i :
      batch_reach l s → batch_enabled s i = true → batch_reach (l ++ [i]) (batch_step s i).

End Scheduler.
Arguments BatchSchedulerOptions T : clear implicits.
Arguments outcome R E : clear implicits.
Arguments Batch T : clear implicits.
Arguments Scheduler T R E : clear implicits.
Arguments batch_input T R E : clear implicits.

(** ** What every reachable scheduler satisfies *)

Section SchedulerFacts.
Context {T R E : Type} (o : BatchSchedulerOptions T).
Implicit Types (s : Scheduler T R E) (b : Batch T).
#[local] Arguments seq : simpl never.
Notation cost_sum l := (foldr (λ x n, bo_costOf o x + n) 0 l).


Lemma cost_sum_perm l l' : Permutation l l' → cost_sum l = cost_sum l'.
Proof. induction 1; simpl; lia. Qed.

Lemma cost_sum_app l l' : cost_sum (l ++ l') = cost_sum l + cost_sum l'.
Proof. induction l as [|x l IH]; simpl; [done|]. rewrite IH. lia. Qed.

(** A batch that may be dispatched: one promise per item, no more items than the
    cap (one is always let through), and within the cost cap unless single. *)
Definition batch_ok (b : Batch T) : Prop :=
  length (b_items b) = length (b_deferreds b)
  ∧ 1 ≤ Z.of_nat (length (b_items b)) ≤ Z.max 1 (bo_maxBatchSize o)
  ∧ b_cost b = cost_sum (b_items b)
  ∧ (1 < Z.of_nat (length (b_items b)) → over_cost o (b_cost b) = false).

Definition pending_tickets (s : Scheduler T R E) : list nat :=
  match s_pending s with Some p => b_deferreds p | None => [] end.
Definition tickets (l : list (Batch T)) : list nat := concat (b_deferreds <$> l).
Definition queue (s : Scheduler T R E) : list nat := tickets (s_started s ++ s_ready s) ++ pending_tickets s.
Definition held (s : Scheduler T R E) : list nat :=
  (s_settled s).*1 ++ tickets (s_flying s) ++ tickets (s_ready s) ++ pending_tickets s.

Lemma tickets_app l l' : tickets (l ++ l') = tickets l ++ tickets l'.
Proof. unfold tickets. by rewrite fmap_app, concat_app. Qed.

Lemma tickets_snoc l b : tickets (l ++ [b]) = tickets l ++ b_deferreds b.
Proof. rewrite tickets_app. unfold tickets at 2. simpl. by rewrite app_nil_r. Qed.

Record batch_inv (s : Scheduler T R E) : Prop := {
  bi_tickets : Permutation (held s) (seq 0 (s_next s));
  bi_room : (length (s_flying s) ≤ bo_maxInFlight o)%nat;
  bi_work : s_ready s ≠ [] → length (s_flying s) = bo_maxInFlight o;
  bi_started : Forall batch_ok (s_started s ++ s_ready s);
  bi_pending : ∀ p, s_pending s = Some p → batch_ok p;
  bi_order : StronglySorted lt (base.filter (λ n, n ∉ s_solos s) (queue s));
  bi_queue : Forall (λ n, n < s_next s)%nat (queue s ++ s_solos s);
  bi_timer : s_pending s ≠ None → s_timer s = true ∨ (0 < s_microtasks s)%nat
               ∨ (s_disposed s = true ∧ 0 < bo_windowMs o);
  bi_micro : s_microtaskScheduled s = true → (0 < s_microtasks s)%nat;
  bi_window : s_timer s = true → 0 < bo_windowMs o;
}.

Lemma pump_loop_spec ready flying started r f st :
  pump_loop o ready flying started = (r, f, st) →
  (length flying ≤ bo_maxInFlight o)%nat →
  ∃ moved : list (Batch T), ready = moved ++ r ∧ f = flying ++ moved ∧ st = started ++ moved
    ∧ (length f ≤ bo_maxInFlight o)%nat ∧ (r ≠ [] → length f = bo_maxInFlight o).
Proof.
  revert flying started; induction ready as [|b ready IH]; intros flying started; simpl.
  - intros [= <- <- <-] Hle. exists []. by rewrite !app_nil_r.
  - case_bool_decide as Hlt.
    + intros H _. apply IH in H as (moved & -> & -> & -> & H1 & H2); [|rewrite length_app; simpl; lia].
      exists (b :: moved). rewrite <- !app_assoc in *. done.
    + intros [= <- <- <-] Hle. exists []. rewrite !app_nil_r. split_and!; try done. intros _. lia.
Qed.

(** [pump] moves batches from ready to flying and started, and touches nothing else. *)
Lemma pump_spec s :
  (length (s_flying s) ≤ bo_maxInFlight o)%nat →
  ∃ moved rest, s_ready s = moved ++ rest
    ∧ pump o s = mkScheduler (s_pending s) (s_timer s) (s_microtaskScheduled s) (s_microtasks s) rest
         (s_flying s ++ moved) (s_idleWaiters s) (s_woken s) (s_flushed s) (s_disposed s) (s_next s)
         (s_settled s) (s_started s ++ moved) (s_solos s)
    ∧ (length (s_flying s ++ moved) ≤ bo_maxInFlight o)%nat
    ∧ (rest ≠ [] → length (s_flying s ++ moved) = bo_maxInFlight o).
Proof.
  intros Hle. unfold pump. destruct (pump_loop _ _ _ _) as [[r f] st] eqn:Hp.
  apply pump_loop_spec in Hp as (moved & Hr & -> & -> & H1 & H2); [|done].
  exists moved, r. done.
Qed.

(** What holds while a method runs: [pump] restores the rest. *)
Record pre_inv (s : Scheduler T R E) : Prop := {
  pi_tickets : Permutation (held s) (seq 0 (s_next s));
  pi_room : (length (s_flying s) ≤ bo_maxInFlight o)%nat;
  pi_started : Forall batch_ok (s_started s ++ s_ready s);
  pi_pending : ∀ p, s_pending s = Some p → batch_ok p;
  pi_order : StronglySorted lt (base.filter (λ n, n ∉ s_solos s) (queue s));
  pi_queue : Forall (λ n, n < s_next s)%nat (queue s ++ s_solos s);
  pi_micro : s_microtaskScheduled s = true → (0 < s_microtasks s)%nat;
  pi_window : s_timer s = true → 0 < bo_windowMs o;
}.

Definition timer_ok (s : Scheduler T R E) : Prop :=
  s_pending s ≠ None → s_timer s = true ∨ (0 < s_microtasks s)%nat
    ∨ (s_disposed s = true ∧ 0 < bo_windowMs o).
Definition work_ok (s : Scheduler T R E) : Prop :=
  s_ready s ≠ [] → length (s_flying s) = bo_maxInFlight o.

Lemma inv_pre s : batch_inv s → pre_inv s ∧ timer_ok s ∧ work_ok s.
Proof. by intros []. Qed.

Lemma pre_batch_inv s : pre_inv s → timer_ok s → work_ok s → batch_inv s.
Proof. by intros []. Qed.

Lemma pump_inv s : pre_inv s → timer_ok s → batch_inv (pump o s).
Proof.
  intros [Ht Hr Hst Hp Ho Hq Hm Hw] Htm.
  destruct (pump_spec s Hr) as (moved & rest & Hready & -> & Hle & Hfull).
  assert (tickets (s_flying s ++ moved) ++ tickets rest = tickets (s_flying s) ++ tickets (s_ready s)) as Hfr.
  { by rewrite Hready, !tickets_app, <- app_assoc. }
  split; simpl; try done.
  - unfold held in *. simpl. by rewrite (app_assoc (tickets (_ ++ _))), Hfr, <- app_assoc.
  - by rewrite <- (app_assoc (s_started s)), <- Hready.
  - unfold queue in *. simpl. by rewrite <- (app_assoc (s_started s)), <- Hready.
  - unfold queue in *. simpl. by rewrite <- (app_assoc (s_started s)), <- Hready.
Qed.

Lemma pump_queue s : (length (s_flying s) ≤ bo_maxInFlight o)%nat → queue (pump o s) = queue s.
Proof.
  intros Hr. destruct (pump_spec s Hr) as (moved & rest & Hready & -> & _).
  unfold queue. simpl. by rewrite <- (app_assoc (s_started s)), <- Hready.
Qed.

(** The batch that [flushPending] cuts. *)
Definition cut (p : Batch T) : Batch T :=
  mkBatch (match bo_compare o with Some cmp => sort_by cmp (b_items p) | None => b_items p end)
    (b_deferreds p) (b_cost p).

Lemma cut_ok p : batch_ok p → batch_ok (cut p).
Proof.
  intros (H1 & H2 & H3 & H4). unfold cut. destruct (bo_compare o) as [cmp|]; [|done].
  unfold batch_ok; simpl. rewrite (Permutation_length (sort_by_perm cmp (b_items p))).
  split_and!; try done; try lia. by rewrite (cost_sum_perm _ _ (sort_by_perm cmp (b_items p))).
Qed.

Lemma flush_inv s :
  pre_inv s → (s_pending s = None → work_ok s) → batch_inv (flushPending o s).
Proof.
  intros Hpre Hwork. unfold flushPending.
  destruct (s_pending (set_timers _ _ _ s)) as [p|] eqn:Hpend; simpl in Hpend.
  - change (mkBatch _ _ _) with (cut p). destruct Hpre as [Ht Hr Hst Hp Ho Hq Hm Hw].
    apply pump_inv; [|by intros ?].
    assert (queue (set_pending None (push_ready (cut p) (set_timers false false (s_microtasks s) s))) = queue s) as Hqs.
    { unfold queue, pending_tickets. simpl. rewrite Hpend, app_nil_r, app_assoc, tickets_app.
      unfold tickets at 2. simpl. by rewrite app_nil_r. }
    split; simpl; try done.
    + unfold held, pending_tickets in *. simpl. rewrite Hpend in Ht. rewrite app_nil_r, tickets_app.
      unfold tickets at 3. simpl. by rewrite app_nil_r.
    + rewrite app_assoc. apply Forall_app. split; [done|]. constructor; [by apply cut_ok, Hp|constructor].
    + by rewrite Hqs.
    + by rewrite Hqs.
  - apply pre_batch_inv; [by destruct Hpre; split|by intros ?|by apply Hwork].
Qed.

Lemma flush_effect s :
  (length (s_flying s) ≤ bo_maxInFlight o)%nat →
  s_pending (flushPending o s) = None ∧ s_next (flushPending o s) = s_next s
  ∧ s_solos (flushPending o s) = s_solos s ∧ queue (flushPending o s) = queue s
  ∧ s_disposed (flushPending o s) = s_disposed s
  ∧ flushPending o (new_ticket false s) = new_ticket false (flushPending o s).
Proof.
  intros Hr. unfold flushPending.
  destruct (s_pending (set_timers _ _ _ s)) as [p|] eqn:Hpend; simpl in Hpend; simpl; rewrite Hpend;
    [|done].
  change (mkBatch _ _ _) with (cut p).
  set (s1 := set_pending None (push_ready (cut p) (set_timers false false (s_microtasks s) s))).
  rewrite pump_queue by done. destruct (pump_spec s1 Hr) as (moved & rest & Hrd & Heq & _). 
  split_and!; try (by rewrite Heq).
  - subst s1. unfold queue, pending_tickets. simpl. rewrite Hpend, app_nil_r, app_assoc, tickets_app.
    unfold tickets at 2. simpl. by rewrite app_nil_r.
  - unfold pump. simpl. by destruct (pump_loop _ _ _ _) as [[??]?].
Qed.

Lemma seq_next n : seq 0 (S n) = seq 0 n ++ [n].
Proof. by rewrite seq_S. Qed.

(** Appending the new ticket at the end of the queue keeps the order. *)
Lemma sorted_snoc (l : list nat) n :
  StronglySorted lt l → Forall (λ m, m < n)%nat l → StronglySorted lt (l ++ [n]).
Proof.
  induction l as [|x l IH]; intros Hs Hl; simpl; [repeat constructor|].
  inversion Hs as [|? ? Hs' Hx]; subst. inversion Hl as [|? ? Hxn Hl']; subst.
  constructor; [by apply IH|]. apply Forall_app; split; [done|by repeat constructor].
Qed.

Lemma Forall_lt_S n (l : list nat) : Forall (λ m, m < n)%nat l → Forall (λ m, m < S n)%nat l.
Proof. intros H. eapply Forall_impl; [exact H|]. simpl. lia. Qed.

(** Staging an item on the pending batch, when it fits. *)
Definition staged (item : T) s : Scheduler T R E :=
  let p := default (mkBatch [] [] 0) (s_pending s) in
  set_pending (Some (mkBatch (b_items p ++ [item]) (b_deferreds p ++ [s_next s])
                       (b_cost p + bo_costOf o item))) (new_ticket false s).

Lemma staged_pending item s : pending_tickets (staged item s) = pending_tickets s ++ [s_next s].
Proof. unfold staged, pending_tickets. simpl. by destruct (s_pending s). Qed.

Lemma staged_queue item s : queue (staged item s) = queue s ++ [s_next s].
Proof. unfold queue. rewrite staged_pending. by rewrite app_assoc. Qed.

Lemma staged_inv item s :
  batch_inv s →
  (∀ p, s_pending s = Some p → Z.of_nat (length (b_items p)) + 1 ≤ bo_maxBatchSize o
     ∧ over_cost o (b_cost p + bo_costOf o item) = false) →
  pre_inv (staged item s) ∧ work_ok (staged item s).
Proof.
  intros [Ht Hr Hwk Hst Hp Ho Hq Htm Hm Hw] Hfit. split; [|done].
  apply Forall_app in Hq as [Hq Hso]. split; try done.
  - unfold held. rewrite staged_pending. simpl. rewrite seq_next, <- Ht. unfold held.
    by rewrite !app_assoc.
  - unfold staged. intros b [= <-]. unfold batch_ok; simpl. destruct (s_pending s) as [p|]; simpl.
    + destruct (Hp _ eq_refl) as (H1 & H2 & H3 & _). destruct (Hfit _ eq_refl) as [Hn Hc].
      rewrite !length_app, cost_sum_app, H3; simpl. split_and!; [lia|lia|lia|lia|].
      intros _. rewrite H3 in Hc. done.
    + split_and!; try done; lia.
  - rewrite staged_queue. simpl. rewrite filter_app, filter_cons_True.
    + apply sorted_snoc; [done|]. apply Forall_forall. intros x [_ Hx]%list_elem_of_filter. rewrite Forall_forall in Hq. by apply Hq.
    + intros Hin. rewrite Forall_forall in Hso. specialize (Hso _ Hin). simpl in Hso. lia.
  - rewrite staged_queue. simpl. rewrite !Forall_app.
    split_and!; [by apply Forall_lt_S|repeat constructor; lia|by apply Forall_lt_S].
Qed.

Lemma schedule_inv s :
  pre_inv s → work_ok s → batch_inv (scheduleFlush o s).
Proof.
  intros Hpre Hwk. unfold scheduleFlush. pose proof (pi_micro _ Hpre) as Hm.
  destruct (s_microtaskScheduled s || s_timer s) eqn:Hf.
  - apply pre_batch_inv; [done| |done]. intros _.
    apply orb_true_iff in Hf as [Hf|Hf]; [right; left; auto|by left].
  - apply orb_false_iff in Hf as [Hf1 Hf2]. destruct Hpre as [Ht Hr Hst Hp Ho Hq _ Hw].
    destruct (0 <? bo_windowMs o) eqn:Hwin; bool_simpl.
    + split; simpl; try done. by left.
    + split; simpl; try done; intros; [right; left|]; lia.
Qed.

Lemma solo_inv item s : batch_inv s → batch_inv (enqueueSolo o item s).
Proof.
  intros [Ht Hr Hwk Hst Hp Ho Hq Htm Hm Hw]. unfold enqueueSolo. apply pump_inv; [|done].
  assert (Hso := Hq). apply Forall_app in Hso as [Hql Hso].
  split; simpl; try done.
  - unfold held, pending_tickets in *. simpl. rewrite tickets_snoc. simpl.
    rewrite seq_next, <- Ht. rewrite <- !app_assoc. do 3 f_equiv. apply Permutation_app_comm.
  - rewrite app_assoc. apply Forall_app. split; [done|]. constructor; [|constructor].
    unfold batch_ok; simpl. split_and!; try done; lia.
  - unfold queue, pending_tickets in *. simpl. rewrite (app_assoc (s_started s)), tickets_snoc. simpl.
    rewrite !filter_app, (filter_cons_False _ (s_next s)) by set_solver.
    rewrite filter_nil, app_nil_r, <- filter_app.
    rewrite (filter_ext_in _ (λ n, n ∉ s_solos s)); [exact Ho|].
    intros x Hx. rewrite Forall_forall in Hql. specialize (Hql _ Hx). simpl in Hql.
    rewrite not_elem_of_app, list_elem_of_singleton. split; [tauto|]. intros; split; [done|lia].
  - unfold queue, pending_tickets in *. simpl. rewrite (app_assoc (s_started s)), tickets_snoc. simpl.
    rewrite !Forall_app in Hql. destruct Hql as [H1 H2]. rewrite !Forall_app.
    split_and!; first [by apply Forall_lt_S|repeat constructor; lia].
Qed.

Lemma enqueue_inv item s : batch_inv s → batch_inv (enqueue o item s).
Proof.
  intros Hi. unfold enqueue. destruct (s_disposed s) eqn:Hd.
  { destruct Hi as [Ht Hr Hwk Hst Hp Ho Hq Htm Hm Hw]. split; simpl; try done.
    - unfold held in *. simpl. rewrite fmap_app, seq_next, <- Ht. simpl.
      rewrite <- !app_assoc. f_equiv. by rewrite Permutation_app_comm, <- !app_assoc.
    - apply Forall_app in Hq as [H1 H2]. apply Forall_app. split; by apply Forall_lt_S. }
  destruct (bo_enabled o); simpl; [|by apply solo_inv].
  set (roll := match s_pending s with
               | Some p => (bo_maxBatchSize o <? Z.of_nat (length (b_items p)) + 1)
                           || over_cost o (b_cost p + bo_costOf o item)
               | None => false end).
  pose proof (flush_effect s (bi_room _ Hi)) as (Hfp & Hfn & _ & _ & _ & Hcomm).
  set (s1 := if roll then flushPending o s else s).
  assert (batch_inv s1) as Hi1.
  { subst s1. destruct roll; [|done]. destruct (inv_pre _ Hi) as (? & _ & ?). by apply flush_inv. }
  assert (∀ p, s_pending s1 = Some p → Z.of_nat (length (b_items p)) + 1 ≤ bo_maxBatchSize o
    ∧ over_cost o (b_cost p + bo_costOf o item) = false) as Hfit.
  { subst s1. intros p Hp. destruct roll eqn:Hroll; [by rewrite Hfp in Hp|].
    subst roll. rewrite Hp in Hroll. bool_simpl. split; [lia|done]. }
  destruct (staged_inv item s1 Hi1 Hfit) as [Hpre Hwk].
  assert (s_next s1 = s_next s) as Hn1 by (subst s1; by destruct roll).
  match goal with |- batch_inv (if _ then flushPending o ?x else _) =>
    replace x with (staged item s1) end.
  - destruct (_ || _); [by apply flush_inv|by apply schedule_inv].
  - unfold staged. rewrite Hn1. subst s1 roll. destruct (s_pending s) as [p|] eqn:Hp; simpl.
    + by destruct (_ || _); [rewrite Hcomm|].
    + done.
Qed.

Lemma delete_tickets (l : list (Batch T)) k b :
  l !! k = Some b → Permutation (tickets l) (b_deferreds b ++ tickets (delete k l)).
Proof.
  intros Hk. rewrite <- (take_drop_middle _ _ _ Hk) at 1. rewrite tickets_app, delete_take_drop, tickets_app.
  unfold tickets at 2. simpl. change (concat (b_deferreds <$> drop (S k) l)) with (tickets (drop (S k) l)).
  by rewrite Permutation_app_swap_app.
Qed.

Lemma notify_inv s : batch_inv s → batch_inv (notifyIdleIfDrained s).
Proof.
  intros Hi. unfold notifyIdleIfDrained. destruct (s_flying s) eqn:Hf, (s_ready s) eqn:Hr; try done.
  destruct Hi as [Ht Hro Hw Hst Hp Ho Hq Htm Hm Hwin].
  unfold held, queue, pending_tickets in *; rewrite Hf, Hr in *. by split.
Qed.

Lemma settles_inv k out s : batch_inv s → batch_inv (dispatch_settles o k out s).
Proof.
  intros Hi. unfold dispatch_settles. destruct (s_flying s !! k) as [b|] eqn:Hk; [|done].
  apply notify_inv, pump_inv; [|by destruct Hi].
  destruct Hi as [Ht Hr Hwk Hst Hp Ho Hq Htm Hm Hw]. split; simpl; try done.
  - rewrite <- Ht. unfold held, pending_tickets. simpl. rewrite (delete_tickets _ _ _ Hk), fmap_app, <- list_fmap_compose.
    rewrite (list_fmap_ext _ id) by done. rewrite list_fmap_id. by rewrite <- !app_assoc.
  - rewrite length_delete by eauto. lia.
Qed.

Lemma flush_turn_inv s : batch_inv s → batch_inv (flush_turn s).
Proof. intros []. unfold flush_turn. by destruct (_ || _); split. Qed.

Lemma batch_step_inv s i : batch_inv s → batch_enabled s i = true → batch_inv (batch_step o s i).
Proof.
  intros Hi Hen. destruct (inv_pre _ Hi) as (Hpre & _ & Hwk).
  destruct i as [x|x| | |k out| | |]; simpl.
  - by apply enqueue_inv.
  - by apply solo_inv.
  - apply flush_inv; [|done]. by destruct Hpre; split.
  - apply flush_inv; [|done]. by destruct Hpre; split.
  - by apply settles_inv.
  - apply flush_turn_inv, flush_inv; done.
  - apply flush_turn_inv. by destruct Hi; split.
  - destruct Hi as [Ht Hr Hw' Hst Hp Ho Hq Htm Hm Hw]. split; simpl; try done.
    intros Hne. destruct (Htm Hne) as [Ht1|[?|[_ ?]]]; auto.
Qed.

Lemma batch_reach_inv l s : batch_reach o l s → batch_inv s.
Proof.
  induction 1 as [|l s i _ IH Hen]; [|by apply batch_step_inv].
  split; simpl; try done; try constructor; lia.
Qed.

(** C8: No promise is lost and none settles twice. After any run the promises of
    [enqueue] and [enqueueSolo] are exactly those settled, in flight, ready or
    pending, each once; never more dispatches are out than the cap; and once
    nothing is in flight and no timer or microtask is left, every promise has
    settled, unless a disposed scheduler with a window dropped its timer. *)
Theorem every_promise_settles_once l s :
  batch_reach o l s →
  NoDup (s_settled s).*1
  ∧ (length (s_flying s) ≤ bo_maxInFlight o)%nat
  ∧ ((0 < bo_maxInFlight o)%nat → s_flying s = [] → s_timer s = false → s_microtasks s = 0%nat →
     ¬ (s_disposed s = true ∧ 0 < bo_windowMs o) →
     Permutation (s_settled s).*1 (seq 0 (s_next s))).
Proof.
  intros Hr. apply batch_reach_inv in Hr as [Ht Hro Hw Hst Hp Ho Hq Htm Hm Hwin].
  assert (NoDup (held s)) as Hnd by (rewrite Ht; apply NoDup_seq).
  split_and!; [by apply NoDup_app in Hnd as [? _]|done|].
  intros Hmax Hf Htimer Hmicro Hd. rewrite <- Ht. unfold held, pending_tickets.
  destruct (s_pending s) as [p|].
  { destruct Htm as [?|[?|?]]; [done|congruence|lia|done]. }
  destruct (s_ready s) as [|b r]; [by rewrite Hf, !app_nil_r|].
  rewrite Hf in Hw. specialize (Hw ltac:(done)). simpl in Hw. lia.
Qed.

(** Dispatches respect the caps and the order of the calls. Every batch handed
    to [dispatchBatch] has one promise per item, holds at most [maxBatchSize]
    items (one if the cap is lower) and stays within [maxBatchCost] unless it is
    a single item; and leaving solo items aside, promises are dispatched
    in the order their items were enqueued. *)
Theorem batches_respect_caps l s :
  batch_reach o l s →
  Forall (λ b, length (b_items b) = length (b_deferreds b)
     ∧ 1 ≤ Z.of_nat (length (b_items b)) ≤ Z.max 1 (bo_maxBatchSize o)
     ∧ (∀ m, bo_maxBatchCost o = Some m → (1 < length (b_items b))%nat → cost_sum (b_items b) ≤ m))
    (s_started s)
  ∧ StronglySorted lt (base.filter (λ n, n ∉ s_solos s) (concat (b_deferreds <$> s_started s))).
Proof.
  intros Hr. apply batch_reach_inv in Hr as [_ _ _ Hst _ Ho _ _ _ _]. split.
  - apply Forall_app in Hst as [Hst _]. eapply Forall_impl; [exact Hst|].
    intros b (H1 & H2 & H3 & H4). split_and!; try done; try lia.
    intros m Hm Hlt. unfold over_cost in H4. rewrite Hm, H3 in H4.
    specialize (H4 ltac:(lia)). bool_simpl. done.
  - unfold queue in Ho. rewrite tickets_app, <- app_assoc, filter_app in Ho.
    revert Ho. unfold tickets at 1. generalize (base.filter (λ n, n ∉ s_solos s) (concat (b_deferreds <$> s_started s))).
    intros l1. induction l1 as [|x l1 IH]; simpl; intros Hs; [constructor|].
    inversion Hs as [|? ? Hs' Hx]; subst. apply Forall_app in Hx as [Hx _]. constructor; auto.
Qed.

End SchedulerFacts.

(** ** A scheduler of numbers *)

Definition number_options (windowMs : Z) : BatchSchedulerOptions Z :=
  mkBatchOptions true windowMs 2 (Some 100) (λ x, x) 1 None.
Definition number_run (windowMs : Z) (l : list (batch_input Z Z unit)) : Scheduler Z Z unit :=
  foldl (batch_step (number_options windowMs)) createBatchScheduler l.

Lemma number_reach windowMs l :
  (∀ n i, l !! n = Some i → batch_enabled (number_run windowMs (take n l)) i = true) →
  batch_reach (number_options windowMs) l (number_run windowMs l).
Proof.
  induction l as [|i l IH] using rev_ind; intros Hen; [constructor|].
  unfold number_run. rewrite foldl_app. apply batch_next.
  - apply IH. intros n j Hj. pose proof (lookup_lt_Some _ _ _ Hj).
    specialize (Hen n j). rewrite take_app_le in Hen by lia. apply Hen. by apply lookup_app_l_Some.
  - specialize (Hen (length l) i). rewrite take_app_length in Hen. apply Hen.
    by rewrite lookup_app_r, Nat.sub_diag by done.
Qed.

Definition three_items : list (batch_input Z Z unit) :=
  [Enqueue 5; Enqueue 6; Enqueue 7; MicrotaskRuns; MicrotaskRuns; Settles 0 (Resolved 1); Settles 0 (Rejected ())].

Lemma three_items_reach : batch_reach (number_options 0) three_items (number_run 0 three_items).
Proof.
  apply number_reach. intros n i Hi.
  do 7 (destruct n as [|n]; [injection Hi as <-; vm_compute; reflexivity|]). discriminate.
Defined.

Lemma every_promise_settles_once_witness :
  Permutation (s_settled (number_run 0 three_items)).*1 [0%nat; 1%nat; 2%nat].
Proof.
  apply (every_promise_settles_once (number_options 0) three_items _ three_items_reach);
    try reflexivity; [simpl; lia|]. intros [H _]. discriminate H.
Defined.

Lemma batches_respect_caps_witness :
  StronglySorted lt (base.filter (λ n, n ∉ s_solos (number_run 0 three_items))
    (concat (b_deferreds <$> s_started (number_run 0 three_items)))).
Proof. apply (batches_respect_caps (number_options 0) three_items _ three_items_reach). Defined.

(** Disposing inside a coalescing window strands what is pending. With
    [windowMs] positive, [dispose] cancels the only thing that would have
    dispatched the staged item: its promise is never settled by anything that is
    still due, and only another [flush] could. *)
Theorem dispose_strands_the_window :
  let s := number_run 10 [Enqueue 5; Dispose] in
  batch_reach (number_options 10) [Enqueue 5; Dispose] s
  ∧ s_settled s = [] ∧ pending_tickets s = [0%nat]
  ∧ ∀ i, batch_enabled s i = true →
      i = Flush
      ∨ 0%nat ∉ (s_settled (batch_step (number_options 10) s i)).*1
        ∧ pending_tickets (batch_step (number_options 10) s i) = [0%nat].
Proof.
  split_and!; [|done|done|].
  - apply number_reach. intros n i Hi.
    do 2 (destruct n as [|n]; [injection Hi as <-; reflexivity|]). discriminate.
  - intros i Hen. destruct i; try discriminate; first [by left|right; split; [vm_compute; set_solver|reflexivity]].
Qed.

(** A solo item overtakes the item staged before it. *)
Example solo_overtakes :
  concat (b_deferreds <$> s_started (number_run 0 [Enqueue 5; EnqueueSolo 6; Settles 0 (Resolved 1); MicrotaskRuns]))
  = [1%nat; 0%nat].
Proof. reflexivity. Qed.
