(* ===== verification/Subscriptions.v ===== *)
(** * Read interest with hysteresis
    ([humans/src/local/sync/SubscriptionManager.ts])

    The manager keeps which groups are in view, pinned by a claim, or left but
    still warm, and pushes the whole desired set when it differs from the set
    the transport last confirmed. Each call carries the clock readings it makes,
    in order: the one that stamps a warm entry, the one of the first comparison
    and the one of the loop. The transport always answers with a promise, so its
    answer is a step of its own. *)
From S2P Require Import Prelude.
From stdpp Require Import gmap sets strings sorting.
Local Open Scope Z_scope.

Section Subscriptions.
Context (warmTtlMs maxWarm : Z) (sweepEnabled : bool).

(** The three readings one call may make of [now()]. *)
Record readings := mkReadings { r_stamp : Z; r_compare : Z; r_loop : Z }.
Definition steady (t : Z) : readings := mkReadings t t t.

(** [warm] keeps the insertion order of the JavaScript map. [outstanding] is the
    set the pending [updateSubscription] call carries; [sent] records every set
    pushed, oldest first. *)
Record SubscriptionManager := mkSubs {
  baseGroups : gset string;
  active : gset string;
  pinned : gset string;
  warm : list (string * Z);
  lastSent : gset string;
  inFlight : bool;
  dirty : bool;
  outstanding : option (gset string);
  sweepArmed : bool;
  sent : list (gset string);
}.

Definition new_SubscriptionManager (base : gset string) : SubscriptionManager :=
  mkSubs base ∅ ∅ [] ∅ false false None false [].

(** ** The sets *)

Definition setsEqual (a b : gset string) : bool :=
  if negb (size a =? size b)%nat then false
  else forallb (λ v, bool_decide (v ∈ b)) (elements a).

Definition warm_delete (group : string) (l : list (string * Z)) : list (string * Z) :=
  base.filter (λ p, p.1 ≠ group) l.

(** The eviction loop of [warmGroup]: oldest first, while over the cap. *)
Fixpoint evict (l : list (string * Z)) : list (string * Z) :=
  match l with
  | [] => []
  | _ :: l' => if maxWarm <? Z.of_nat (length l) then evict l' else l
  end.

Definition set_views (b a p : gset string) (w : list (string * Z)) (s : SubscriptionManager)
    : SubscriptionManager :=
  mkSubs b a p w (lastSent s) (inFlight s) (dirty s) (outstanding s) (sweepArmed s) (sent s).

Definition set_call (ls : gset string) (fl dt : bool) (out : option (gset string))
    (s : SubscriptionManager) : SubscriptionManager :=
  mkSubs (baseGroups s) (active s) (pinned s) (warm s) ls fl dt out (sweepArmed s) (sent s).

Definition setBaseGroups (groups : gset string) (s : SubscriptionManager) : SubscriptionManager :=
  set_views groups (active s) (pinned s) (warm s) s.

Definition warmGroup (group : string) (now : Z) (s : SubscriptionManager) : SubscriptionManager :=
  mkSubs (baseGroups s) (active s) (pinned s)
    (evict (warm_delete group (warm s) ++ [(group, now + warmTtlMs)]))
    (lastSent s) (inFlight s) (dirty s) (outstanding s) (sweepEnabled || sweepArmed s) (sent s).

Definition still_warm (now : Z) (l : list (string * Z)) : gset string :=
  list_to_set (base.filter (λ p, now < p.2) l).*1.

Definition desiredGroups (now : Z) (s : SubscriptionManager) : gset string :=
  baseGroups s ∪ active s ∪ pinned s ∪ still_warm now (warm s).

(** ** Pushing *)

(** One turn of the loop body up to its [await]: nothing to push ends the loop,
    otherwise the target goes out. *)
Definition reconcile_turn (now : Z) (s : SubscriptionManager) : SubscriptionManager :=
  let target := desiredGroups now s in
  if setsEqual target (lastSent s) then set_call (lastSent s) false false None s
  else mkSubs (baseGroups s) (active s) (pinned s) (warm s) (lastSent s) true false (Some target)
         (sweepArmed s) (sent s ++ [target]).

(** [reconcile]. The asynchronous body runs up to its first [await] before the
    assignment to [inFlight], so a body that ends without awaiting clears
    [inFlight] first and the assignment then sets it. *)
Definition reconcile (compare loop : Z) (s : SubscriptionManager) : SubscriptionManager :=
  if inFlight s then set_call (lastSent s) true true (outstanding s) s
  else if setsEqual (desiredGroups compare s) (lastSent s) then s
  else let s' := reconcile_turn loop s in
       set_call (lastSent s') true (dirty s') (outstanding s') s'.

(** The answer to the outstanding call: the set the server applied, or a
    rejection, after which the loop stops. *)
Definition answer (r : option (gset string)) (now : Z) (s : SubscriptionManager) : SubscriptionManager :=
  match r with
  | None => set_call (lastSent s) false (dirty s) None s
  | Some groups =>
      let s' := set_call groups true (dirty s) None s in
      if dirty s then reconcile_turn now s' else set_call groups false false None s'
  end.

(** ** Operations *)

Definition enter (group : string) (c : readings) (s : SubscriptionManager) : SubscriptionManager :=
  reconcile (r_compare c) (r_loop c)
    (set_views (baseGroups s) (active s ∪ {[group]}) (pinned s) (warm_delete group (warm s)) s).

Definition leave (group : string) (c : readings) (s : SubscriptionManager) : SubscriptionManager :=
  let s' := set_views (baseGroups s) (active s ∖ {[group]}) (pinned s) (warm s) s in
  reconcile (r_compare c) (r_loop c)
    (if negb (bool_decide (group ∈ pinned s)) && negb (bool_decide (group ∈ baseGroups s))
     then warmGroup group (r_stamp c) s' else s').

Definition pin (group : string) (c : readings) (s : SubscriptionManager) : SubscriptionManager :=
  reconcile (r_compare c) (r_loop c)
    (set_views (baseGroups s) (active s) (pinned s ∪ {[group]}) (warm_delete group (warm s)) s).

Definition unpin (group : string) (c : readings) (s : SubscriptionManager) : SubscriptionManager :=
  let s' := set_views (baseGroups s) (active s) (pinned s ∖ {[group]}) (warm s) s in
  reconcile (r_compare c) (r_loop c)
    (if negb (bool_decide (group ∈ active s)) && negb (bool_decide (group ∈ baseGroups s))
     then warmGroup group (r_stamp c) s' else s').

Definition sweep (c : readings) (s : SubscriptionManager) : SubscriptionManager :=
  reconcile (r_compare c) (r_loop c)
    (set_views (baseGroups s) (active s) (pinned s)
       (base.filter (λ p, ¬ p.2 ≤ r_stamp c) (warm s)) s).

Definition resync (c : readings) (s : SubscriptionManager) : SubscriptionManager :=
  reconcile (r_compare c) (r_loop c) (set_call ∅ (inFlight s) (dirty s) (outstanding s) s).

Definition dispose_subs (s : SubscriptionManager) : SubscriptionManager :=
  mkSubs (baseGroups s) (active s) (pinned s) (warm s) (lastSent s) (inFlight s) (dirty s)
    (outstanding s) false (sent s).

Inductive sub_op :=
  | Enter (g : string) (c : readings)
  | Leave (g : string) (c : readings)
  | Pin (g : string) (c : readings)
  | Unpin (g : string) (c : readings)
  | Sweep (c : readings)
  | Resync (c : readings)
  | SetBase (groups : gset string)
  | Answer (r : option (gset string)) (now : Z)
  | DisposeSubs.

Definition sub_step (s : SubscriptionManager) (o : sub_op) : SubscriptionManager :=
  match o with
  | Enter g c => enter g c s
  | Leave g c => leave g c s
  | Pin g c => pin g c s
  | Unpin g c => unpin g c s
  | Sweep c => sweep c s
  | Resync c => resync c s
  | SetBase groups => setBaseGroups groups s
  | Answer r now => answer r now s
  | DisposeSubs => dispose_subs s
  end.

(** Only an outstanding call can be answered. *)
Definition sub_enabled (s : SubscriptionManager) (o : sub_op) : bool :=
  match o with Answer _ _ => is_Some_b (outstanding s) | _ => true end.

Inductive sub_reach (base : gset string) : list sub_op → SubscriptionManager → Prop :=
  | sub_init : sub_reach base [] (new_SubscriptionManager base)
  | sub_next l s o :
      sub_reach base l s → sub_enabled s o = true → sub_reach base (l ++ [o]) (sub_step s o).
End Subscriptions.
Arguments sub_reach : clear implicits.

Section SubscriptionFacts.
Context (warmTtlMs maxWarm : Z) (sweepEnabled : bool).
Notation evict := (evict maxWarm).
Notation warmGroup := (warmGroup warmTtlMs maxWarm sweepEnabled).
Notation sub_step := (sub_step warmTtlMs maxWarm sweepEnabled).
Notation sub_reach := (sub_reach warmTtlMs maxWarm sweepEnabled).
Implicit Types (s : SubscriptionManager) (g : string) (w : list (string * Z)).

(** ** Sets and warm entries *)

Lemma setsEqual_spec a b : setsEqual a b = true ↔ a = b.
Proof.
  unfold setsEqual. destruct (size a =? size b)%nat eqn:Hs; simpl; [apply Nat.eqb_eq in Hs|apply Nat.eqb_neq in Hs].
  - rewrite forallb_forall. split.
    + intros Hall. apply set_subseteq_size_eq; [|lia].
      intros x Hx. specialize (Hall x). rewrite bool_decide_eq_true in Hall.
      by apply Hall, list_elem_of_In, elem_of_elements.
    + intros -> x Hx. apply list_elem_of_In, elem_of_elements in Hx. by apply bool_decide_eq_true.
  - split; [done|congruence].
Qed.

Lemma evict_drop w : evict w = drop (length w - Z.to_nat maxWarm) w.
Proof.
  induction w as [|p w IH]; [done|]. simpl.
  destruct (Z.ltb_spec maxWarm (Z.of_nat (S (length w)))) as [H|H].
  - rewrite IH. by replace (S (length w) - Z.to_nat maxWarm)%nat
      with (S (length w - Z.to_nat maxWarm)) by lia.
  - by replace (S (length w) - Z.to_nat maxWarm)%nat with 0%nat by lia.
Qed.

Lemma evict_keeps w1 p w2 :
  Z.of_nat (length w2) < maxWarm → ∃ w1', evict (w1 ++ p :: w2) = w1' ++ p :: w2.
Proof.
  intros Hl. rewrite evict_drop, drop_app_le by (rewrite length_app; simpl; lia). eauto.
Qed.

Lemma still_warm_spec now w g : g ∈ still_warm now w ↔ ∃ e, (g, e) ∈ w ∧ now < e.
Proof.
  unfold still_warm. rewrite elem_of_list_to_set, list_elem_of_fmap. split.
  - intros ([g' e] & -> & H). apply list_elem_of_filter in H as [H1 H2]. eauto.
  - intros (e & H1 & H2). exists (g, e). split; [done|]. by apply list_elem_of_filter.
Qed.

Lemma warm_delete_keys g w : (warm_delete g w).*1 = base.filter (λ x, x ≠ g) w.*1.
Proof. induction w as [|[x e] w IH]; [done|]. unfold warm_delete in *. simpl.
  rewrite !filter_cons; simpl. repeat case_decide; try tauto. by f_equal/=. Qed.

Lemma length_warm_delete g w : (length (warm_delete g w) ≤ length w)%nat.
Proof. apply length_filter. Qed.

(** What navigation changes; the pushing code leaves it alone. *)
Definition views s := (baseGroups s, active s, pinned s, warm s).

Lemma reconcile_views t1 t2 s : views (reconcile t1 t2 s) = views s.
Proof. unfold reconcile, reconcile_turn. repeat case_match; done. Qed.
Lemma answer_views r t s : views (answer r t s) = views s.
Proof. unfold answer, reconcile_turn. repeat case_match; done. Qed.

Lemma desired_views t s s' : views s = views s' → desiredGroups t s = desiredGroups t s'.
Proof. unfold views, desiredGroups. intros [= -> -> -> ->]. done. Qed.

(** ** The warm set *)

Record warm_inv s : Prop := {
  wi_nodup : NoDup (warm s).*1;
  wi_cap : (length (warm s) ≤ Z.to_nat maxWarm)%nat;
  wi_active : ∀ x, x ∈ (warm s).*1 → x ∉ active s;
  wi_pinned : ∀ x, x ∈ (warm s).*1 → x ∉ pinned s;
}.

Lemma warm_inv_views s s' : views s = views s' → warm_inv s → warm_inv s'.
Proof. unfold views. intros [= H1 H2 H3 H4] [A B C D]. split; by rewrite <- ?H2, <- ?H3, <- ?H4. Qed.

(** Entries may only go away, and views may only shrink or gain what is not warm. *)
Lemma warm_inv_sub s b a p w :
  warm_inv s → sublist w (warm s) →
  (∀ x, x ∈ w.*1 → x ∈ a → x ∈ active s) → (∀ x, x ∈ w.*1 → x ∈ p → x ∈ pinned s) →
  warm_inv (set_views b a p w s).
Proof.
  intros [A B C D] Hs Ha Hp. assert (Hk : sublist w.*1 (warm s).*1) by by apply fmap_sublist.
  split; simpl.
  - eapply sublist_NoDup; eauto.
  - apply sublist_length in Hs. lia.
  - intros x Hx Hx'. eapply C; [by eapply elem_of_sublist|auto].
  - intros x Hx Hx'. eapply D; [by eapply elem_of_sublist|auto].
Qed.

Lemma warmGroup_inv g t s :
  warm_inv s → g ∉ active s → g ∉ pinned s → warm_inv (warmGroup g t s).
Proof.
  intros [A B C D] Ha Hp. set (l := warm_delete g (warm s) ++ [(g, t + warmTtlMs)]).
  assert (Hsub : sublist (evict l).*1 l.*1).
  { rewrite evict_drop. apply fmap_sublist, sublist_drop. }
  assert (Hl : ∀ x, x ∈ (evict l).*1 → x = g ∨ x ∈ (warm s).*1).
  { intros x Hx. eapply elem_of_sublist in Hx; [|exact Hsub].
    unfold l in Hx. rewrite fmap_app, warm_delete_keys in Hx.
    apply elem_of_app in Hx as [Hx|Hx%list_elem_of_singleton]; [|by left].
    apply list_elem_of_filter in Hx as [_ Hx]. by right. }
  split; simpl; fold l.
  - eapply sublist_NoDup; [|exact Hsub]. unfold l. rewrite fmap_app, warm_delete_keys. apply NoDup_app.
    split_and!; [by apply NoDup_filter| |apply NoDup_singleton].
    intros x [Hx _]%list_elem_of_filter ->%list_elem_of_singleton. by apply Hx.
  - rewrite evict_drop, length_drop. lia.
  - intros x [->|Hx]%Hl; auto.
  - intros x [->|Hx]%Hl; auto.
Qed.

Lemma deleted_not_in g w x : x ∈ (warm_delete g w).*1 → x ≠ g.
Proof. rewrite warm_delete_keys. by intros [? _]%list_elem_of_filter. Qed.

Lemma warm_inv_step s o : warm_inv s → warm_inv (sub_step s o).
Proof.
  intros H. destruct o; simpl; try (eapply warm_inv_views; [symmetry; apply reconcile_views|]).
  - apply warm_inv_sub; [done|apply sublist_filter| |done].
    by intros x Hx%deleted_not_in [?|?%elem_of_singleton]%elem_of_union.
  - assert (warm_inv (set_views (baseGroups s) (active s ∖ {[g]}) (pinned s) (warm s) s))
      by (apply warm_inv_sub; set_solver).
    case_match eqn:E; [|done]. bool_simpl. apply warmGroup_inv; simpl; set_solver.
  - apply warm_inv_sub; [done|apply sublist_filter|done|].
    by intros x Hx%deleted_not_in [?|?%elem_of_singleton]%elem_of_union.
  - assert (warm_inv (set_views (baseGroups s) (active s) (pinned s ∖ {[g]}) (warm s) s))
      by (apply warm_inv_sub; set_solver).
    case_match eqn:E; [|done]. bool_simpl. apply warmGroup_inv; simpl; set_solver.
  - apply warm_inv_sub; [done|apply sublist_filter|set_solver..].
  - eapply warm_inv_views; [|exact H]. done.
  - apply warm_inv_sub; set_solver.
  - eapply warm_inv_views; [symmetry; apply answer_views|done].
  - eapply warm_inv_views; [|exact H]. done.
Qed.

(** One call is out at a time, and a push always changes what was confirmed. *)
Definition single_flight s : Prop := is_Some (outstanding s) → inFlight s = true.

Lemma reconcile_push t1 t2 s :
  let s' := reconcile t1 t2 s in
  sent s' = sent s
  ∨ inFlight s = false ∧ ∃ target, sent s' = sent s ++ [target] ∧ outstanding s' = Some target
    ∧ target ≠ lastSent s.
Proof.
  unfold reconcile, reconcile_turn. destruct (inFlight s); [by left|].
  repeat case_match; simpl; eauto. right. split; [done|]. eexists. split_and!; [done..|].
  intros Heq. apply setsEqual_spec in Heq. congruence.
Qed.

Lemma answer_push r t s :
  let s' := answer r t s in
  sent s' = sent s
  ∨ ∃ target, sent s' = sent s ++ [target] ∧ outstanding s' = Some target ∧ r ≠ Some target.
Proof.
  unfold answer, reconcile_turn. destruct r; [|by left]. repeat case_match; simpl; eauto.
  right. eexists. split_and!; [done..|]. intros [= Heq]. symmetry in Heq.
  apply setsEqual_spec in Heq. simpl in *. congruence.
Qed.

Lemma reconcile_single t1 t2 s : single_flight s → single_flight (reconcile t1 t2 s).
Proof.
  intros H. unfold single_flight, reconcile, reconcile_turn in *.
  destruct (inFlight s) eqn:E; simpl; [done|]. case_match; [by rewrite E|done].
Qed.

Lemma single_step s o : single_flight s → single_flight (sub_step s o).
Proof.
  intros H. destruct o; simpl; try (apply reconcile_single); try exact H;
    try (case_match; exact H).
  unfold single_flight, answer, reconcile_turn. repeat case_match; simpl; auto; by intros [? ?].
Qed.

Lemma sub_reach_inv base l s : sub_reach base l s → warm_inv s ∧ single_flight s.
Proof.
  induction 1 as [|l s o Hr [IH1 IH2] Hen]; [|split; [by apply warm_inv_step|by apply single_step]].
  split; [|by intros [? ?]]. split; simpl; [constructor|lia|set_solver..].
Qed.

Lemma sub_reach_run base l s : sub_reach base l s → s = foldl sub_step (new_SubscriptionManager base) l.
Proof. induction 1 as [|l s o _ IH _]; [done|]. by rewrite foldl_app, <- IH. Qed.

(** A manager that holds a finished promise has nothing left that clears it. *)
Definition wedged s : Prop := inFlight s = true ∧ outstanding s = None.

Lemma wedged_step s o :
  wedged s → sub_enabled s o = true → wedged (sub_step s o) ∧ sent (sub_step s o) = sent s.
Proof.
  intros [H1 H2] Hen.
  assert (Hr : ∀ t1 t2 s0, inFlight s0 = inFlight s → outstanding s0 = outstanding s → sent s0 = sent s →
      wedged (reconcile t1 t2 s0) ∧ sent (reconcile t1 t2 s0) = sent s).
  { intros t1 t2 s0 E1 E2 E3. unfold reconcile, wedged. rewrite E1, H1. simpl. by rewrite E2. }
  destruct o; simpl in *; try (apply Hr; by repeat case_match); try done.
  by rewrite H2 in Hen.
Qed.

Lemma wedged_forever base l more s :
  sub_reach base (l ++ more) s → wedged (foldl sub_step (new_SubscriptionManager base) l) →
  wedged s ∧ sent s = sent (foldl sub_step (new_SubscriptionManager base) l).
Proof.
  intros Hr Hw. revert s Hr. induction more as [|o more IH] using rev_ind; intros s Hr.
  - rewrite app_nil_r in Hr. apply sub_reach_run in Hr as ->. done.
  - rewrite app_assoc in Hr. inversion Hr as [|l' s' o' Hr' Hen Hl]; subst.
    + by destruct (app_cons_not_nil (l ++ more) [] o).
    + apply app_inj_tail in Hl as [-> ->]. destruct (IH _ Hr') as [Hw' <-]. by apply wedged_step.
Qed.

Lemma desired_size t s :
  NoDup (warm s).*1 →
  (size (desiredGroups t s) ≤ size (baseGroups s ∪ active s ∪ pinned s) + length (warm s))%nat.
Proof.
  intros Hn. unfold desiredGroups. set (X := baseGroups s ∪ active s ∪ pinned s).
  pose proof (size_union_alt X (still_warm t (warm s))) as ->.
  rewrite <- (length_fmap fst (warm s)), <- (size_list_to_set (C:=gset string) _ Hn).
  apply Nat.add_le_mono_l, subseteq_size.
  intros x [(e & H & _)%still_warm_spec _]%elem_of_difference.
  apply elem_of_list_to_set, list_elem_of_fmap. by exists (x, e).
Qed.

Lemma idle_has_no_call s : single_flight s → inFlight s = false → outstanding s = None.
Proof. intros H E. destruct (outstanding s) eqn:Ho; [|done]. unfold single_flight in H.
  rewrite Ho, E in H. by specialize (H (mk_is_Some _ _ eq_refl)). Qed.

(** A push by [reconcile] as an operation of the state before it. *)
Lemma step_push s t1 t2 s0 :
  single_flight s → inFlight s0 = inFlight s → sent s0 = sent s →
  let s' := reconcile t1 t2 s0 in
  sent s' = sent s
  ∨ ∃ target, sent s' = sent s ++ [target] ∧ outstanding s' = Some target
      ∧ outstanding s = None ∧ target ≠ lastSent s0.
Proof.
  intros H Hf Hs s'. destruct (reconcile_push t1 t2 s0) as [E|(Hi & target & H1 & H2 & H3)];
    [left; unfold s'; congruence|right]. exists target.
  unfold s'. split_and!; [congruence|done| |done]. apply idle_has_no_call; [exact H|congruence].
Qed.

Lemma view_push s t1 t2 s0 :
  single_flight s → inFlight s0 = inFlight s → sent s0 = sent s → lastSent s0 = lastSent s →
  let s' := reconcile t1 t2 s0 in
  sent s' = sent s
  ∨ ∃ target, sent s' = sent s ++ [target] ∧ outstanding s' = Some target
      ∧ outstanding s = None ∧ target ≠ lastSent s.
Proof. intros H H1 H2 <-. by apply step_push. Qed.

(** The subscription set stays bounded and its traffic minimal. In every
    state the manager can reach, whatever the transport answered: warm groups
    are distinct, at most [maxWarm], and never in view or pinned, so the
    desired set exceeds the base, active and pinned groups by at most
    [maxWarm]; and an operation pushes at most one set, only when no call was
    already out, and never one equal to the set last confirmed. *)
Theorem interest_is_bounded base l s :
  sub_reach base l s →
  NoDup (warm s).*1 ∧ Z.of_nat (length (warm s)) ≤ Z.max 0 maxWarm
  ∧ (∀ g, g ∈ (warm s).*1 → g ∉ active s ∧ g ∉ pinned s)
  ∧ (∀ t, Z.of_nat (size (desiredGroups t s))
          ≤ Z.of_nat (size (baseGroups s ∪ active s ∪ pinned s)) + Z.max 0 maxWarm)
  ∧ (∀ o, sub_enabled s o = true →
      let s' := sub_step s o in
      sent s' = sent s
      ∨ ∃ target, sent s' = sent s ++ [target] ∧ outstanding s' = Some target
          ∧ match o with
            | Answer r _ => r ≠ Some target
            | Resync _ => outstanding s = None
            | _ => outstanding s = None ∧ target ≠ lastSent s
            end).
Proof.
  intros [[A B C D] Hf]%sub_reach_inv. split_and!; [done|lia|eauto| |].
  - intros t. pose proof (desired_size t s A). lia.
  - intros o Hen. destruct o; simpl;
      try (apply view_push; [done|by repeat case_match..]); [|by left|apply answer_push|by left].
    destruct (step_push s (r_compare c) (r_loop c) (set_call ∅ (inFlight s) (dirty s) (outstanding s) s))
      as [E|(target & ? & ? & ? & _)]; [done..|by left|right; eauto].
Qed.

(** ** Hysteresis *)

(** [g] is held until [deadline], behind at most [k] later warm entries. *)
Definition held_until g (deadline : Z) (k : nat) s : Prop :=
  g ∈ baseGroups s ∨ g ∈ active s ∨ g ∈ pinned s
  ∨ ∃ w1 e w2, warm s = w1 ++ (g, e) :: w2 ∧ deadline ≤ e ∧ (length w2 ≤ k)%nat.

(** The stamp an operation may put on a warm entry, or sweep by. *)
Definition stamp_of (o : sub_op) : option Z :=
  match o with
  | Leave _ c | Unpin _ c | Sweep c => Some (r_stamp c)
  | _ => None
  end.

Definition in_window g (left_at : Z) (o : sub_op) : Prop :=
  match o with
  | SetBase _ => False
  | Leave _ c | Unpin _ c => left_at ≤ r_stamp c
  | Sweep c => r_stamp c < left_at + warmTtlMs
  | _ => True
  end.

(** How many times other groups were sent to the warm set. *)
Definition warms_other g (o : sub_op) : nat :=
  match o with Leave x _ | Unpin x _ => if bool_decide (x = g) then 0 else 1 | _ => 0 end.
Definition warmings g (ops : list sub_op) : nat := sum_list (warms_other g <$> ops).

Lemma held_views g d k s s' : views s = views s' → held_until g d k s → held_until g d k s'.
Proof. unfold views, held_until. intros [= -> -> -> ->]. done. Qed.

Lemma held_more g d k k' s : (k ≤ k')%nat → held_until g d k s → held_until g d k' s.
Proof. intros Hk [?|[?|[?|(w1 & e & w2 & ? & ? & ?)]]]; unfold held_until; eauto 12 with lia. Qed.

Lemma held_filter (P : string * Z → Prop) `{!∀ p, Decision (P p)} g d k s b a p :
  held_until g d k s →
  baseGroups s ⊆ b → (g ∈ active s → g ∈ a) → (g ∈ pinned s → g ∈ p) →
  (∀ e, d ≤ e → P (g, e) ∨ g ∈ a ∨ g ∈ p) →
  held_until g d k (set_views b a p (base.filter P (warm s)) s).
Proof.
  intros [?|[?|[?|(w1 & e & w2 & Hw & Hd & Hl)]]] Hb Ha Hp HP; unfold held_until; simpl; [set_solver..|].
  destruct (HP e Hd) as [HPe|?]; [|tauto]. do 3 right.
  exists (base.filter P w1), e, (base.filter P w2). rewrite Hw, filter_app, filter_cons_True by done.
  split_and!; [done..|]. pose proof (length_filter P w2). lia.
Qed.

Lemma warmGroup_self g t d k s : 0 < maxWarm → d ≤ t + warmTtlMs → held_until g d k (warmGroup g t s).
Proof.
  intros Hm Hd. do 3 right. destruct (evict_keeps (warm_delete g (warm s)) (g, t + warmTtlMs) [])
    as [w1' Hw]; [done|]. exists w1', (t + warmTtlMs), []. split_and!; [exact Hw|done|simpl; lia].
Qed.

Lemma warmGroup_other g x t d k s :
  x ≠ g → Z.of_nat (S k) < maxWarm → held_until g d k s → held_until g d (S k) (warmGroup x t s).
Proof.
  intros Hx Hm [?|[?|[?|(w1 & e & w2 & Hw & Hd & Hl)]]]; unfold held_until; simpl; [auto..|].
  do 3 right. pose proof (length_warm_delete x w2).
  set (w2' := warm_delete x w2 ++ [(x, t + warmTtlMs)]) in *.
  destruct (evict_keeps (warm_delete x w1) (g, e) w2') as [w1' Hw'].
  { unfold w2'. rewrite length_app. simpl. lia. }
  exists w1', e, w2'. split_and!; [|done|unfold w2'; rewrite length_app; simpl; lia].
  rewrite <- Hw', Hw. unfold warm_delete. rewrite filter_app, filter_cons_True by done.
  by rewrite <- app_assoc.
Qed.

(** The step [leave] and [unpin] share: [x] goes warm unless something else holds it. *)
Lemma held_drop g x t d k (b : bool) s :
  d ≤ t + warmTtlMs → Z.of_nat (k + if bool_decide (x = g) then 0 else 1) < maxWarm →
  (x ≠ g → held_until g d k s) → (x = g → b = false → held_until g d k s) →
  held_until g d (k + if bool_decide (x = g) then 0 else 1) (if b then warmGroup x t s else s).
Proof.
  intros Hd Hk Hne He. case_bool_decide as Hx.
  - rewrite Nat.add_0_r. destruct b; [subst; apply warmGroup_self; [lia|done]|auto].
  - rewrite Nat.add_1_r. destruct b; [apply warmGroup_other; auto with lia|].
    eapply held_more; [|by apply Hne]. lia.
Qed.

Lemma held_step g left_at k s o :
  in_window g left_at o → Z.of_nat (k + warms_other g o) < maxWarm →
  held_until g (left_at + warmTtlMs) k s →
  held_until g (left_at + warmTtlMs) (k + warms_other g o) (sub_step s o).
Proof.
  intros Hin Hk H.
  destruct o as [x c|x c|x c|x c|c|c|?|r t|]; simpl in *; try done; rewrite ?Nat.add_0_r;
    try (eapply held_views; [symmetry; apply reconcile_views|]).
  - apply held_filter; [done|set_solver..|]. intros e _. destruct (decide (g = x)); set_solver.
  - apply held_drop; [lia|done|..].
    + intros Hx. unfold held_until in *; simpl. set_solver.
    + intros -> [Hb|Hb]%andb_false_iff; bool_simpl; unfold held_until; set_solver.
  - apply held_filter; [done|set_solver..|]. intros e _. destruct (decide (g = x)); set_solver.
  - apply held_drop; [lia|done|..].
    + intros Hx. unfold held_until in *; simpl. set_solver.
    + intros -> [Hb|Hb]%andb_false_iff; bool_simpl; unfold held_until; set_solver.
  - apply held_filter; [done|set_solver..|]. intros e He. left. simpl. lia.
  - exact H.
  - eapply held_views; [symmetry; apply answer_views|done].
  - exact H.
Qed.

Lemma held_run g left_at ops k s :
  Forall (in_window g left_at) ops → Z.of_nat (k + warmings g ops) < maxWarm →
  held_until g (left_at + warmTtlMs) k s →
  held_until g (left_at + warmTtlMs) (k + warmings g ops) (foldl sub_step s ops).
Proof.
  revert k s. induction ops as [|o ops IH]; intros k s Hin Hk H; simpl;
    [by rewrite Nat.add_0_r|]. inversion Hin; subst.
  change (warmings g (o :: ops)) with (warms_other g o + warmings g ops)%nat in *.
  rewrite Nat.add_assoc. apply IH; [done|lia|]. apply held_step; [done|lia|done].
Qed.

Lemma held_desired g d k s t : held_until g d k s → t < d → g ∈ desiredGroups t s.
Proof.
  unfold held_until, desiredGroups. intros [?|[?|[?|(w1 & e & w2 & -> & ? & _)]]] Ht; [set_solver..|].
  apply elem_of_union_r, still_warm_spec. exists e. split; [set_solver|lia].
Qed.

(** Hysteresis keeps a closed group subscribed. After [leave g], until its
    warm window has passed, every set the manager wants still contains [g],
    whatever is entered, left, pinned, unpinned, swept, resynced or answered in
    between, as long as fewer than [maxWarm] other groups go warm meanwhile and
    the clock does not run back past the leave. *)
Theorem left_group_stays_subscribed g c s ops t :
  Forall (in_window g (r_stamp c)) ops → Z.of_nat (warmings g ops) < maxWarm →
  t < r_stamp c + warmTtlMs →
  g ∈ desiredGroups t (foldl sub_step (leave warmTtlMs maxWarm sweepEnabled g c s) ops).
Proof.
  intros Hin Hk Ht. eapply held_desired, Ht. apply (held_run g (r_stamp c) ops 0); [done|simpl; lia|].
  unfold leave. eapply held_views; [symmetry; apply reconcile_views|].
  case_match eqn:E; [apply warmGroup_self; [lia|done]|].
  apply andb_false_iff in E as [E|E]; bool_simpl; unfold held_until; set_solver.
Qed.

(** ** Convergence *)

(** A call whose two readings agree. *)
Definition calm (o : sub_op) : Prop :=
  match o with
  | Enter _ c | Leave _ c | Pin _ c | Unpin _ c | Sweep c | Resync c => r_compare c = r_loop c
  | _ => True
  end.

(** The two readings an operation compares by, when it is one that reconciles. *)
Definition reconciles_at (o : sub_op) : option (Z * Z) :=
  match o with
  | Enter _ c | Leave _ c | Pin _ c | Unpin _ c | Sweep c | Resync c => Some (r_compare c, r_loop c)
  | _ => None
  end.

(** A server that applies what it is asked, at reading [t]. *)
Definition echo (t : Z) s : SubscriptionManager :=
  match outstanding s with Some g => answer (Some g) t s | None => s end.

Definition flying s : Prop := inFlight s = true → is_Some (outstanding s).
Definition settled t s : Prop :=
  inFlight s = false ∧ outstanding s = None ∧ lastSent s = desiredGroups t s.

Lemma turn_cases t s :
  let s' := reconcile_turn t s in
  (settled t s' ∧ lastSent s = desiredGroups t s)
  ∨ inFlight s' = true ∧ dirty s' = false ∧ outstanding s' = Some (desiredGroups t s').
Proof.
  unfold reconcile_turn. destruct (setsEqual _ _) eqn:E; simpl.
  - left. apply setsEqual_spec in E. unfold settled. simpl. rewrite <- E. done.
  - right. done.
Qed.

Lemma reconcile_cases tc tl s :
  flying s → single_flight s →
  let s' := reconcile tc tl s in
  settled tc s'
  ∨ inFlight s' = true ∧ is_Some (outstanding s')
    ∧ (dirty s' = true ∨ outstanding s' = Some (desiredGroups tl s'))
  ∨ tc ≠ tl ∧ wedged s'.
Proof.
  intros Hf H1. unfold reconcile. destruct (inFlight s) eqn:E; simpl.
  - right. left. auto.
  - destruct (setsEqual _ _) eqn:He.
    + left. split_and!; [done|by apply idle_has_no_call|by apply setsEqual_spec in He].
    + right. destruct (turn_cases tl s) as [[(_ & Hn & _) Heq]|(H2 & H3 & H4)].
      * right. split; [|done]. intros ->. symmetry in Heq. apply setsEqual_spec in Heq. congruence.
      * left. split_and!; [done| |right]; by rewrite H4.
Qed.

(** An operation that reconciles is its change of the views and one [reconcile]. *)
Lemma reconciles_through s o tc tl :
  reconciles_at o = Some (tc, tl) →
  ∃ s0, sub_step s o = reconcile tc tl s0 ∧ inFlight s0 = inFlight s ∧ outstanding s0 = outstanding s.
Proof.
  intros Ht. destruct o; simplify_eq/=; eexists;
    (split; [unfold enter, leave, pin, unpin, sweep, resync; reflexivity|]); by repeat case_match.
Qed.

Lemma flying_step s o : single_flight s → calm o → flying s → flying (sub_step s o).
Proof.
  intros H1 Hc Hf. destruct (reconciles_at o) as [[tc tl]|] eqn:Ho.
  - destruct (reconciles_through s o tc tl Ho) as (s0 & -> & E1 & E2).
    assert (tc = tl) as <- by (by destruct o; simplify_eq/=).
    unfold flying. destruct (reconcile_cases tc tc s0) as [(-> & _)|[(_ & ? & _)|[? _]]];
      [unfold flying; by rewrite E1, E2|unfold single_flight; by rewrite E1, E2|done..].
  - destruct o; try done. simpl in *. unfold answer, flying. destruct r as [groups|]; simpl; [|done].
    destruct (dirty s); [|done].
    destruct (turn_cases now (set_call groups true true None s)) as [[(-> & _) _]|(_ & _ & ->)]; [done|eauto].
Qed.

Lemma reach_flying base l s : sub_reach base l s → Forall calm l → flying s.
Proof.
  induction 1 as [|l s o Hr IH Hen]; [done|].
  intros [Hl [Ho _]%Forall_cons]%Forall_app. apply sub_reach_inv in Hr as [_ H1].
  apply flying_step; [done|exact Ho|exact (IH Hl)].
Qed.

(** A manager that does not fly holds a promise that has resolved. *)
Lemma flying_or_wedged s : flying s ∨ wedged s.
Proof.
  unfold flying, wedged. destruct (inFlight s), (outstanding s); [left; eauto|by right|by left..].
Qed.

Lemma echo_settled t t' s : settled t s → settled t (echo t' s).
Proof. intros H. unfold echo. by rewrite (proj1 (proj2 H)). Qed.

(** An answer to a call that carried what is wanted ends the loop. *)
Lemma echo_clean t t' s :
  dirty s = false → outstanding s = Some (desiredGroups t s) → settled t (echo t' s).
Proof. intros Hd Ho. unfold echo, answer. rewrite Ho, Hd. done. Qed.

Lemma echo_wanted t t' s :
  is_Some (outstanding s) → dirty s = true ∨ outstanding s = Some (desiredGroups t s) →
  let s' := echo t' s in
  settled t s' ∨ settled t' s'
  ∨ dirty s' = false ∧ outstanding s' = Some (desiredGroups t' s').
Proof.
  intros [g Ho] Hw. destruct (dirty s) eqn:Hd.
  - right. unfold echo, answer. rewrite Ho, Hd.
    destruct (turn_cases t' (set_call g true true None s)) as [[? _]|(_ & ? & ?)]; auto.
  - left. apply echo_clean; [done|]. by destruct Hw.
Qed.

(** C9: The pushes converge, unless the manager is wedged. From any state the
    manager can reach, with answers lost or refused before, a navigation call
    followed by at most two answers of a server that applies what it is asked
    leaves the manager idle with the confirmed set equal to the desired one, at
    one of the two readings of the call or at that of the first answer. The only
    other outcome is a manager that holds a resolved promise as its loop, pushes
    nothing and waits for nothing, and it takes a call, this one or one of the
    past, that saw the clock move between its two readings. *)
Theorem subscription_converges base l s o tc tl t1 t2 :
  sub_reach base l s → reconciles_at o = Some (tc, tl) →
  (∃ t', t' ∈ [tc; tl; t1] ∧ settled t' (echo t2 (echo t1 (sub_step s o))))
  ∨ wedged (sub_step s o) ∧ ¬ Forall calm (l ++ [o]).
Proof.
  intros Hr Ht. pose proof (reach_flying _ _ _ Hr) as Hf. apply sub_reach_inv in Hr as [_ H1].
  destruct (flying_or_wedged s) as [Hfly|Hw].
  2:{ right. split; [apply wedged_step; [done|by destruct o]|].
      intros [Hl _]%Forall_app. destruct Hw as [Hi Hn]. specialize (Hf Hl Hi). rewrite Hn in Hf. by destruct Hf. }
  destruct (reconciles_through s o tc tl Ht) as (s0 & -> & E1 & E2).
  destruct (reconcile_cases tc tl s0) as [Hset|[(_ & Ho' & Hw)|[Hne Hw]]];
    [unfold flying; by rewrite E1, E2|unfold single_flight; by rewrite E1, E2|..].
  - left. exists tc. split; [left|by apply echo_settled, echo_settled].
  - left. destruct (echo_wanted tl t1 _ Ho' Hw) as [?|[?|[??]]].
    + exists tl. split; [set_solver|by apply echo_settled].
    + exists t1. split; [set_solver|by apply echo_settled].
    + exists t1. split; [set_solver|by apply echo_clean].
  - right. split; [done|]. intros [_ [Ho _]%Forall_cons]%Forall_app. destruct o; simplify_eq/=.
Qed.
End SubscriptionFacts.

(** ** The default manager, and a clock that moves at the wrong moment *)

Local Notation demo_step := (sub_step 30000 16 true).
Local Notation demo_run l := (foldl demo_step (new_SubscriptionManager ∅) l).

(** Whether each operation of a run was possible when it was made. *)
Fixpoint runs (l : list sub_op) (s : SubscriptionManager) : bool :=
  match l with [] => true | o :: l => sub_enabled s o && runs l (demo_step s o) end.

Lemma demo_reach l : runs l (new_SubscriptionManager ∅) = true → sub_reach 30000 16 true ∅ l (demo_run l).
Proof.
  intros H. assert (Hall : ∀ l0 s, sub_reach 30000 16 true ∅ l0 s → ∀ l, runs l s = true →
      sub_reach 30000 16 true ∅ (l0 ++ l) (foldl demo_step s l)).
  { intros l0 s Hr l'. revert l0 s Hr. induction l' as [|o l' IH]; intros l0 s Hr Hl; simpl in *.
    - by rewrite app_nil_r.
    - bool_simpl. rewrite cons_middle, app_assoc. apply IH; [by apply sub_next|done]. }
  apply (Hall [] (new_SubscriptionManager ∅)); [constructor|done].
Qed.

(** The tab is opened, answered, closed, and opened again while an answer is out. *)
Definition visit : list sub_op :=
  [Enter "row:1" (steady 0); Answer (Some {["row:1"%string]}) 5; Leave "row:1" (steady 10);
   Enter "row:2" (steady 20); Pin "row:3" (steady 30)].

Lemma visit_reach : sub_reach 30000 16 true ∅ visit (demo_run visit).
Proof. apply demo_reach. by vm_compute. Qed.

Lemma interest_is_bounded_witness : Z.of_nat (length (warm (demo_run visit))) ≤ Z.max 0 16.
Proof. exact (proj1 (proj2 (interest_is_bounded 30000 16 true ∅ visit _ visit_reach))). Defined.

Lemma left_group_stays_subscribed_witness :
  "row:1"%string ∈ desiredGroups 30009
    (foldl demo_step (leave 30000 16 true "row:1" (steady 10) (demo_run (take 2 visit)))
       [Leave "row:9" (steady 11); Sweep (steady 30009); Answer None 12]).
Proof.
  apply (left_group_stays_subscribed 30000 16 true "row:1" (steady 10));
    [repeat constructor; simpl; lia|reflexivity|reflexivity].
Defined.

Lemma subscription_converges_witness :
  let s' := sub_step 30000 16 true (demo_run (take 4 visit)) (Pin "row:3" (steady 30)) in
  (∃ t', t' ∈ [30; 30; 40] ∧ settled t' (echo 50 (echo 40 s')))
  ∨ wedged s' ∧ ¬ Forall calm (take 4 visit ++ [Pin "row:3" (steady 30)]).
Proof.
  refine (subscription_converges 30000 16 true ∅ (take 4 visit) _ (Pin "row:3" (steady 30)) 30 30 40 50 _ _);
    [|reflexivity].
  apply demo_reach. by vm_compute.
Defined.

(** Offline, a group is opened and closed; its warm window lapses between the two
    readings of the next call. *)
Definition lapse : list sub_op :=
  [Enter "row:1" (steady 0); Answer (Some {["row:1"%string]}) 5;
   Enter "row:2" (steady 10); Answer None 15; Leave "row:2" (steady 20); Answer None 25;
   Enter "row:1" (mkReadings 30019 30019 30020)].

(** A clock that ticks inside [reconcile] silences the manager for good. When
    a warm group expires between the comparison and the loop, the loop has
    nothing to send and ends before the assignment to [inFlight], which then
    keeps a promise that has already resolved: from then on no call, resync
    included, ever pushes again. *)
Theorem clock_step_wedges :
  sub_reach 30000 16 true ∅ lapse (demo_run lapse)
  ∧ ∀ more s, sub_reach 30000 16 true ∅ (lapse ++ more) s →
      sent s = sent (demo_run lapse) ∧ inFlight s = true ∧ outstanding s = None.
Proof.
  split.
  - apply demo_reach. by vm_compute.
  - intros more s Hr.
    assert (Hw : wedged (demo_run lapse)) by (split; vm_compute; reflexivity).
    destruct (wedged_forever 30000 16 true ∅ lapse more s Hr Hw) as [[H1 H2] H3].
    exact (conj H3 (conj H1 H2)).
Qed.
