(* ===== verification/MutationQueue.v ===== *)
(** * The mutation queue

    [packages/humans/src/local/transactions/mutations]: the queued mutation and
    its write options ([commitPayload.ts]), the store with its status index
    ([MutationStore.ts]), the choice of the next batch ([executionQueue.ts]), the
    reading of an error ([failurePolicy.ts]) and what becomes of a mutation whose
    dispatch failed ([failureHandling.ts]). *)
From S2P Require Import Prelude JsData ErrorCodes.
From Stdlib Require Import Sorted.
#[local] Open Scope Z_scope.

(** ** A queued mutation ([commitPayload.ts]) *)

Inductive tx_kind := tx_create | tx_update | tx_delete | tx_archive | tx_unarchive.
Inductive tx_state := tx_pending | tx_executing | tx_awaiting_delta | tx_completed | tx_failed | tx_rolled_back.

#[export] Instance tx_kind_eq_dec : EqDecision tx_kind.
Proof. solve_decision. Defined.
#[export] Instance tx_state_eq_dec : EqDecision tx_state.
Proof. solve_decision. Defined.

(** A value of the payload, as far as the queue looks into it: the keys of an
    object, or anything else. *)
Inductive payload_value := PlainValue | ObjectValue (keys : list string).

(** [readAt] may be absent, [null] or a position. *)
Record WriteOptions := mkWriteOptions {
  wo_readAt : option (option Z);
  wo_claimRef : option string;
  wo_fenceToken : option Z;
  wo_idempotencyKey : option string;
  wo_label : option string;
}.

Record CommitEnvelopeMember := mkMember {
  ce_idempotencyKey : string;
  ce_operationIndex : Z;
  ce_operationCount : Z;
}.

Record QueuedMutation := mkMutation {
  tx_id : string;
  tx_type : tx_kind;
  tx_modelName : string;
  tx_modelId : string;
  tx_data : list (string * payload_value);
  tx_status : tx_state;
  tx_createdAt : Z;
  tx_attempts : Z;
  tx_firstTransientFailureAt : option Z;
  tx_high : bool;
  tx_writeOptions : option WriteOptions;
  tx_commitEnvelope : option CommitEnvelopeMember;
  tx_priorityScore : Z;
  tx_syncIdNeededForCompletion : option Z;
  tx_correlationId : option string;
  tx_requiresCorrelatedDelta : bool;
}.

#[export] Instance payload_value_eq_dec : EqDecision payload_value.
Proof. solve_decision. Defined.
#[export] Instance WriteOptions_eq_dec : EqDecision WriteOptions.
Proof. solve_decision. Defined.
#[export] Instance CommitEnvelopeMember_eq_dec : EqDecision CommitEnvelopeMember.
Proof. solve_decision. Defined.
#[export] Instance QueuedMutation_eq_dec : EqDecision QueuedMutation.
Proof. solve_decision. Defined.

(** Assignments to the fields of a mutation. *)
Definition set_status (st : tx_state) (tx : QueuedMutation) : QueuedMutation :=
  mkMutation (tx_id tx) (tx_type tx) (tx_modelName tx) (tx_modelId tx) (tx_data tx) st (tx_createdAt tx)
    (tx_attempts tx) (tx_firstTransientFailureAt tx) (tx_high tx) (tx_writeOptions tx) (tx_commitEnvelope tx)
    (tx_priorityScore tx) (tx_syncIdNeededForCompletion tx) (tx_correlationId tx) (tx_requiresCorrelatedDelta tx).

Definition set_attempts (n : Z) (first : option Z) (tx : QueuedMutation) : QueuedMutation :=
  mkMutation (tx_id tx) (tx_type tx) (tx_modelName tx) (tx_modelId tx) (tx_data tx) (tx_status tx)
    (tx_createdAt tx) n first (tx_high tx) (tx_writeOptions tx) (tx_commitEnvelope tx)
    (tx_priorityScore tx) (tx_syncIdNeededForCompletion tx) (tx_correlationId tx) (tx_requiresCorrelatedDelta tx).

Definition set_envelope (e : CommitEnvelopeMember) (tx : QueuedMutation) : QueuedMutation :=
  mkMutation (tx_id tx) (tx_type tx) (tx_modelName tx) (tx_modelId tx) (tx_data tx) (tx_status tx)
    (tx_createdAt tx) (tx_attempts tx) (tx_firstTransientFailureAt tx) (tx_high tx) (tx_writeOptions tx) (Some e)
    (tx_priorityScore tx) (tx_syncIdNeededForCompletion tx) (tx_correlationId tx) (tx_requiresCorrelatedDelta tx).

Definition set_settlement (needed : option Z) (corr : option string) (correlated : bool) (tx : QueuedMutation)
    : QueuedMutation :=
  mkMutation (tx_id tx) (tx_type tx) (tx_modelName tx) (tx_modelId tx) (tx_data tx) (tx_status tx)
    (tx_createdAt tx) (tx_attempts tx) (tx_firstTransientFailureAt tx) (tx_high tx) (tx_writeOptions tx)
    (tx_commitEnvelope tx) (tx_priorityScore tx) needed corr correlated.

Definition hasStaleWriteOptions (o : option WriteOptions) : bool :=
  match o with Some w => is_Some_b (wo_readAt w) | None => false end.

Definition hasCommitCoalescingBarrier (o : option WriteOptions) : bool :=
  hasStaleWriteOptions o
  || match o with
     | Some w => is_Some_b (wo_claimRef w) || is_Some_b (wo_fenceToken w)
                 || is_Some_b (wo_idempotencyKey w) || is_Some_b (wo_label w)
     | None => false
     end.

Definition hasVersionedFieldInput (tx : QueuedMutation) : bool :=
  existsb (λ p, match p.2 with
                | ObjectValue keys => existsb (String.eqb "$text") keys || existsb (String.eqb "$increment") keys
                | PlainValue => false end) (tx_data tx).

(** ** The store ([MutationStore.ts]) *)

Record MutationStore := mkStore {
  transactions : list (string * QueuedMutation);
  byStatus : list (tx_state * list string);
}.

Definition new_store : MutationStore := mkStore [] [].

Definition index_of (st : tx_state) (s : MutationStore) : list string := default [] (map_get st (byStatus s)).

Definition index_add (st : tx_state) (id : string) (l : list (tx_state * list string)) :=
  map_set st (set_add id (default [] (map_get st l))) l.

(** [byStatus.get(st)?.delete(id)] *)
Definition index_remove (st : tx_state) (id : string) (l : list (tx_state * list string)) :=
  match map_get st l with Some ids => map_set st (set_remove id ids) l | None => l end.

Definition store_add (tx : QueuedMutation) (s : MutationStore) : MutationStore :=
  mkStore (map_set (tx_id tx) tx (transactions s)) (index_add (tx_status tx) (tx_id tx) (byStatus s)).

Definition store_get (id : string) (s : MutationStore) : option QueuedMutation := map_get id (transactions s).

Definition updateStatus (id : string) (newStatus : tx_state) (s : MutationStore) : MutationStore :=
  match store_get id s with
  | None => s
  | Some tx =>
      mkStore (map_set id (set_status newStatus tx) (transactions s))
        (index_add newStatus id (index_remove (tx_status tx) id (byStatus s)))
  end.

Lemma updateStatus_get id id' st s :
  store_get id (updateStatus id' st s) = if decide (id = id') then set_status st <$> store_get id s else store_get id s.
Proof.
  unfold updateStatus. destruct (store_get id' s) eqn:E.
  - unfold store_get in *. simpl. rewrite map_get_set. case_decide; [subst; by rewrite E|done].
  - case_decide; [subst; by rewrite E|done].
Qed.

Definition getByStatus (st : tx_state) (s : MutationStore) : list QueuedMutation :=
  omap (λ id, store_get id s) (index_of st s).

(** An assignment to a field other than the id and the status: the store holds the
    mutations themselves. *)
Definition store_edit (id : string) (f : QueuedMutation → QueuedMutation) (s : MutationStore) : MutationStore :=
  match store_get id s with
  | None => s
  | Some tx => mkStore (map_set id (f tx) (transactions s)) (byStatus s)
  end.

Lemma store_edit_get id id' f s :
  store_get id (store_edit id' f s) = if decide (id = id') then f <$> store_get id s else store_get id s.
Proof.
  unfold store_edit. destruct (store_get id' s) eqn:E.
  - unfold store_get in *. simpl. rewrite map_get_set. case_decide; [subst; by rewrite E|done].
  - case_decide; [subst; by rewrite E|done].
Qed.

Definition store_remove (id : string) (s : MutationStore) : MutationStore :=
  match store_get id s with
  | None => s
  | Some tx => mkStore (map_delete id (transactions s)) (index_remove (tx_status tx) id (byStatus s))
  end.

Definition store_clear (_ : MutationStore) : MutationStore := new_store.
Definition getAll (s : MutationStore) : list QueuedMutation := (transactions s).*2.

Inductive store_op :=
  | StoreAdd (tx : QueuedMutation)
  | StoreUpdate (id : string) (st : tx_state)
  | StoreRemove (id : string)
  | StoreClear.

Definition store_step (s : MutationStore) (o : store_op) : MutationStore :=
  match o with
  | StoreAdd tx => store_add tx s
  | StoreUpdate id st => updateStatus id st s
  | StoreRemove id => store_remove id s
  | StoreClear => store_clear s
  end.

(** ** The status index is exact *)

Record store_inv (s : MutationStore) : Prop := {
  si_nodup : NoDup (transactions s).*1;
  si_id : ∀ id tx, store_get id s = Some tx → tx_id tx = id;
  si_index : ∀ st id, id ∈ index_of st s ↔ ∃ tx, store_get id s = Some tx ∧ tx_status tx = st;
  si_once : ∀ st, NoDup (index_of st s);
}.

Lemma index_add_get st st' id l :
  default [] (map_get st (index_add st' id l))
  = if decide (st = st') then set_add id (default [] (map_get st l)) else default [] (map_get st l).
Proof. unfold index_add. rewrite map_get_set. by case_decide; subst. Qed.

Lemma index_remove_get st st' id l :
  default [] (map_get st (index_remove st' id l))
  = if decide (st = st') then set_remove id (default [] (map_get st l)) else default [] (map_get st l).
Proof.
  unfold index_remove. destruct (map_get st' l) eqn:E.
  - rewrite map_get_set. case_decide; [subst|done]. by rewrite E.
  - case_decide; [subst|done]. by rewrite E.
Qed.

Lemma store_add_inv tx s : store_inv s → store_get (tx_id tx) s = None → store_inv (store_add tx s).
Proof.
  intros [A B C D] Hfresh. split; simpl.
  - by apply NoDup_set_keys.
  - intros id tx'. unfold store_get in *. simpl. rewrite map_get_set. case_decide; [congruence|apply B].
  - intros st id. unfold index_of, store_get in *. simpl. rewrite index_add_get, map_get_set.
    specialize (C st id). unfold index_of in C. case_decide as H1.
    + subst. rewrite elem_set_add. rewrite C. case_decide; naive_solver.
    + rewrite C. case_decide; naive_solver.
  - intros st. unfold index_of. simpl. rewrite index_add_get. case_decide; [apply NoDup_set_add|]; apply D.
Qed.

Lemma updateStatus_inv id st s : store_inv s → store_inv (updateStatus id st s).
Proof.
  intros Hs. unfold updateStatus. destruct (store_get id s) as [tx|] eqn:E; [|done].
  destruct Hs as [A B C D]. split; simpl.
  - by apply NoDup_set_keys.
  - intros id' tx'. unfold store_get in *. simpl. rewrite map_get_set. case_decide; [|apply B].
    intros [= <-]. subst. simpl. by apply B.
  - intros st' id'. unfold index_of, store_get in *. simpl. rewrite index_add_get, index_remove_get, map_get_set.
    specialize (C st' id'). unfold index_of in C.
    destruct (decide (id' = id)) as [->|Hid]; repeat case_decide; subst;
      rewrite ?elem_set_add, ?elem_set_remove, ?C, ?E; naive_solver.
  - intros st'. unfold index_of. simpl. rewrite index_add_get, index_remove_get. specialize (D st').
    repeat case_decide; try apply NoDup_set_add; try apply NoDup_filter; apply D.
Qed.

Lemma store_edit_inv id f s :
  (∀ tx, tx_id (f tx) = tx_id tx ∧ tx_status (f tx) = tx_status tx) → store_inv s → store_inv (store_edit id f s).
Proof.
  intros Hf Hs. unfold store_edit. destruct (store_get id s) as [tx|] eqn:E; [|done]. destruct Hs as [A B C D].
  assert (Hg : ∀ id', store_get id' (mkStore (map_set id (f tx) (transactions s)) (byStatus s))
                      = if decide (id' = id) then Some (f tx) else store_get id' s).
  { intros id'. unfold store_get. simpl. by rewrite map_get_set. }
  split; simpl.
  - by apply NoDup_set_keys.
  - intros id' tx'. rewrite Hg. case_decide; [|apply B]. intros [= <-]. subst. rewrite (proj1 (Hf tx)). by apply B.
  - intros st id'. rewrite Hg. change (index_of st (mkStore _ (byStatus s))) with (index_of st s). rewrite C.
    case_decide; [subst|done]. rewrite E. split; intros (tx' & [= <-] & Hst); eexists; (split; [done|]); by rewrite (proj2 (Hf tx)) in *.
  - apply D.
Qed.

Lemma store_remove_inv id s : store_inv s → store_inv (store_remove id s).
Proof.
  intros Hs. unfold store_remove. destruct (store_get id s) as [tx|] eqn:E; [|done].
  destruct Hs as [A B C D]. split; simpl.
  - rewrite map_delete_keys. by apply NoDup_filter.
  - intros id' tx'. unfold store_get in *. simpl. rewrite map_get_delete. case_decide; [done|apply B].
  - intros st' id'. unfold index_of, store_get in *. simpl. rewrite index_remove_get, map_get_delete.
    specialize (C st' id'). unfold index_of in C.
    destruct (decide (id' = id)) as [->|Hid]; repeat case_decide; subst;
      rewrite ?elem_set_remove, ?C, ?E; naive_solver.
  - intros st'. unfold index_of. simpl. rewrite index_remove_get. specialize (D st').
    case_decide; [apply NoDup_filter|]; apply D.
Qed.

(** Every [add] brings an id the store does not hold. *)
Definition fresh_add (s : MutationStore) (o : store_op) : Prop :=
  match o with StoreAdd tx => store_get (tx_id tx) s = None | _ => True end.

Inductive store_reach : MutationStore → Prop :=
  | store_start : store_reach new_store
  | store_next s o : store_reach s → fresh_add s o → store_reach (store_step s o).

Lemma store_reach_inv s : store_reach s → store_inv s.
Proof.
  assert (Hnew : store_inv new_store).
  { split; [constructor|done| |constructor]. intros st id. split; [by intros ?%elem_of_nil|by intros (? & ? & _)]. }
  induction 1 as [|s o Hr IH Hf]; [done|]. destruct o; simpl in *.
  - by apply store_add_inv.
  - by apply updateStatus_inv.
  - by apply store_remove_inv.
  - done.
Qed.

Lemma elem_getByStatus st s tx :
  store_inv s → tx ∈ getByStatus st s ↔ store_get (tx_id tx) s = Some tx ∧ tx_status tx = st.
Proof.
  intros [A B C D]. unfold getByStatus. rewrite list_elem_of_omap. split.
  - intros (id & Hid & Htx). apply C in Hid as (tx' & Hg & Hst).
    rewrite Htx in Hg. injection Hg as <-. by rewrite (B _ _ Htx).
  - intros [Hg Hst]. exists (tx_id tx). split; [|done]. apply C. eauto.
Qed.

Lemma NoDup_omap_get s ids : store_inv s → NoDup ids → NoDup (omap (λ id, store_get id s) ids).
Proof.
  intros Hs. induction 1 as [|id ids Hid _ IH]; simpl; [constructor|].
  destruct (store_get id s) as [tx|] eqn:E; [|done]. constructor; [|done].
  rewrite list_elem_of_omap. intros (id' & Hin & E'). apply (si_id s Hs) in E, E'. congruence.
Qed.

(** The status index of the mutation store is exact. However additions of new
    ids, status changes, removals and clears follow each other, the mutations
    listed under a status are exactly those of the store that are in it, each
    once, and a lookup by id finds the mutation with that id. *)
Theorem status_index_is_exact s st :
  store_reach s →
  Permutation (getByStatus st s) (base.filter (λ tx, tx_status tx = st) (getAll s))
  ∧ (∀ tx, tx ∈ getByStatus st s ↔ store_get (tx_id tx) s = Some tx ∧ tx_status tx = st)
  ∧ NoDup (tx_id <$> getAll s).
Proof.
  intros Hs%store_reach_inv. pose proof (elem_getByStatus st s) as Hget.
  assert (Hall : ∀ tx, tx ∈ getAll s ↔ store_get (tx_id tx) s = Some tx).
  { intros tx. unfold getAll. rewrite list_elem_of_fmap. destruct Hs as [A B _ _]. split.
    - intros ([id tx'] & -> & Hin). apply (map_get_spec _ _ _ A) in Hin. simpl. by rewrite (B _ _ Hin).
    - intros Hg. exists (tx_id tx, tx). split; [done|]. by apply map_get_spec. }
  assert (Hids : tx_id <$> getAll s = (transactions s).*1).
  { unfold getAll. rewrite <- list_fmap_compose. apply list_fmap_ext. intros i [id tx] Hi. simpl.
    apply (si_id s Hs), (map_get_spec _ _ _ (si_nodup s Hs)). by eapply list_elem_of_lookup_2. }
  assert (Hn : NoDup (tx_id <$> getAll s)) by (rewrite Hids; apply Hs).
  split_and!; [|intros tx; by apply Hget|done].
  apply NoDup_Permutation; [apply NoDup_omap_get; [done|apply Hs]|apply NoDup_filter; by eapply NoDup_fmap_1|].
  intros tx. rewrite Hget, list_elem_of_filter, Hall by done. tauto.
Qed.

(** ** The execution queue ([executionQueue.ts]) *)

Definition row (tx : QueuedMutation) : string * string := (tx_modelName tx, tx_modelId tx).
Definition is_pending (tx : QueuedMutation) : bool := bool_decide (tx_status tx = tx_pending).

(** The queue and whether processing was scheduled at once; [None] when nothing
    was scheduled. *)
Definition enqueueTransaction (queue : list QueuedMutation) (tx : QueuedMutation)
    : list QueuedMutation * option bool :=
  if negb (is_pending tx) || existsb (λ c, String.eqb (tx_id c) (tx_id tx)) queue then (queue, None)
  else (if tx_high tx then tx :: queue else queue ++ [tx], Some (tx_high tx)).

(** The retry groups: sealed pending mutations by request, in order of first
    appearance, each group a map by id. *)
Definition add_to_groups (groups : list (string * list (string * QueuedMutation))) (tx : QueuedMutation) :=
  match tx_commitEnvelope tx with
  | None => groups
  | Some e =>
      let group := default [] (map_get (ce_idempotencyKey e) groups) in
      map_set (ce_idempotencyKey e) (map_set (tx_id tx) tx group) groups
  end.
Definition retry_groups (pendingQueue : list QueuedMutation) := foldl add_to_groups [] pendingQueue.

Definition operation_index (tx : QueuedMutation) : Z :=
  match tx_commitEnvelope tx with Some e => ce_operationIndex e | None => 0 end.

(** A group is complete when it has as many members as its first member says. *)
Definition complete (group : list (string * QueuedMutation)) : bool :=
  match group with
  | (_, first) :: _ =>
      match tx_commitEnvelope first with
      | Some e => Z.of_nat (length group) =? ce_operationCount e
      | None => false
      end
  | [] => false
  end.

Definition has_key (key : string) (tx : QueuedMutation) : bool :=
  match tx_commitEnvelope tx with Some e => String.eqb (ce_idempotencyKey e) key | None => false end.

(** Rows whose earlier position belongs to a sealed request, or to a pending
    mutation outside the queue. *)
Definition holds_row (pendingQueue : list QueuedMutation) (tx : QueuedMutation) : bool :=
  (is_Some_b (tx_commitEnvelope tx) && (is_pending tx || bool_decide (tx_status tx = tx_executing)))
  || (is_pending tx && negb (existsb (λ c, String.eqb (tx_id c) (tx_id tx)) pendingQueue)).

Definition sealed_rows (pendingQueue outstanding : list QueuedMutation) : list (string * string) :=
  row <$> base.filter (λ tx, holds_row pendingQueue tx = true) outstanding.

Definition has_explicit_key (tx : QueuedMutation) : bool :=
  match tx_writeOptions tx with Some w => is_Some_b (wo_idempotencyKey w) | None => false end.

(** [slice(0, n)] for any integer [n]. *)
Definition slice0 {A} (n : Z) (l : list A) : list A :=
  if n <? 0 then take (Z.to_nat (Z.of_nat (length l) + n)) l else take (Z.to_nat n) l.

(** Two mutations of one row that may not share a commit. *)
Definition blocks (tx : QueuedMutation) : bool :=
  hasVersionedFieldInput tx || hasCommitCoalescingBarrier (tx_writeOptions tx).

Fixpoint select_rows (candidates selected : list QueuedMutation) (blocked : list (string * string))
    : list QueuedMutation :=
  match candidates with
  | [] => selected
  | c :: rest =>
      if bool_decide (row c ∈ blocked) then select_rows rest selected blocked
      else
        match List.find (λ tx, bool_decide (row tx = row c)) selected with
        | Some prior =>
            if blocks prior || blocks c then select_rows rest selected (row c :: blocked)
            else select_rows rest (selected ++ [c]) blocked
        | None => select_rows rest (selected ++ [c]) blocked
        end
  end.

(** The loop over the retry groups: the first complete one. *)
Definition first_complete (groups : list (string * list (string * QueuedMutation))) :=
  List.find (λ g, complete g.2) groups.

Definition takeNextExecutionBatch (executionQueue : list QueuedMutation) (maxBatchSize : Z)
    (outstanding : list QueuedMutation) : list QueuedMutation * list QueuedMutation :=
  let pendingQueue := base.filter (λ tx, is_pending tx = true) executionQueue in
  match first_complete (retry_groups pendingQueue) with
  | Some (key, members) =>
      (sort_by (λ a b, operation_index a - operation_index b) members.*2,
       base.filter (λ tx, has_key key tx = false) pendingQueue)
  | None =>
      let sealedRows := sealed_rows pendingQueue outstanding in
      let fresh := base.filter (λ tx, tx_commitEnvelope tx = None ∧ row tx ∉ sealedRows) pendingQueue in
      match fresh with
      | [] => ([], pendingQueue)
      | firstFresh :: _ =>
          let candidates :=
            match find_index has_explicit_key fresh with
            | Some O => [firstFresh]
            | Some (S n) => slice0 (Z.min maxBatchSize (Z.of_nat (S n))) fresh
            | None => slice0 (Z.min maxBatchSize (Z.of_nat (length fresh))) fresh
            end in
          let selected := select_rows candidates [] [] in
          (selected, base.filter (λ tx, negb (existsb (λ s, String.eqb (tx_id s) (tx_id tx)) selected) = true)
                       pendingQueue)
      end
  end.

(** ** What a batch is *)

Definition keyed (l : list QueuedMutation) : list (string * QueuedMutation) := (λ tx, (tx_id tx, tx)) <$> l.
Lemma keyed_fst l : (keyed l).*1 = tx_id <$> l.
Proof. unfold keyed. by rewrite <- list_fmap_compose. Qed.
Lemma keyed_snd l : (keyed l).*2 = l.
Proof. unfold keyed. rewrite <- list_fmap_compose. apply list_fmap_id. Qed.

Lemma retry_groups_keys q : NoDup (retry_groups q).*1.
Proof.
  unfold retry_groups. assert (H : NoDup (@nil (string * list (string * QueuedMutation))).*1) by constructor.
  revert H. generalize (@nil (string * list (string * QueuedMutation))).
  induction q as [|tx q IH]; intros g Hg; simpl; [done|]. apply IH. unfold add_to_groups.
  case_match; [by apply NoDup_set_keys|done].
Qed.

(** With distinct ids a retry group is the queue restricted to the request. *)
Lemma retry_groups_get q key :
  NoDup (tx_id <$> q) →
  default [] (map_get key (retry_groups q)) = keyed (base.filter (λ tx, has_key key tx = true) q).
Proof.
  induction q as [|tx q IH] using rev_ind; intros Hn; [done|].
  rewrite fmap_app in Hn. apply NoDup_app in Hn as (Hn & Hd & _). specialize (IH Hn).
  unfold retry_groups in *. rewrite foldl_app, filter_app. simpl. unfold add_to_groups at 1.
  rewrite filter_cons, filter_nil.
  assert (Hkey : has_key key tx = match tx_commitEnvelope tx with
                                  | Some e => String.eqb (ce_idempotencyKey e) key | None => false end) by done.
  destruct (tx_commitEnvelope tx) as [e|]; [|by rewrite decide_False, app_nil_r by congruence].
  rewrite map_get_set. destruct (String.eqb_spec (ce_idempotencyKey e) key) as [->|Hk].
  - rewrite !decide_True, IH by done. simpl. rewrite map_set_fresh.
    + unfold keyed. by rewrite fmap_app.
    + rewrite keyed_fst. intros (tx' & Hid & Hin)%list_elem_of_fmap. apply list_elem_of_filter in Hin as [_ Hin].
      apply (Hd (tx_id tx)); [rewrite Hid; by apply list_elem_of_fmap_2|]. by left.
  - rewrite !decide_False by congruence. by rewrite app_nil_r.
Qed.

Lemma filter_split {A} (f : A → bool) (l : list A) :
  Permutation l (base.filter (λ x, f x = true) l ++ base.filter (λ x, f x = false) l).
Proof.
  induction l as [|x l IH]; [done|]. rewrite !filter_cons. destruct (f x) eqn:E.
  - rewrite decide_True, decide_False by done. simpl. by constructor.
  - rewrite decide_False, decide_True by done. rewrite IH at 1. by apply Permutation_middle.
Qed.

(** ** The rows of a fresh batch *)

Record selection (done_ selected : list QueuedMutation) (blocked : list (string * string)) : Prop := {
  sel_sub : sublist selected done_;
  sel_open : ∀ t, t ∈ done_ → row t ∉ blocked → t ∈ selected;
  sel_order : ∀ pre tx post, done_ = pre ++ tx :: post → tx ∈ selected →
    ∀ t, t ∈ pre → row t = row tx → t ∈ selected;
  sel_free : ∀ a b, a ∈ selected → b ∈ selected → row a = row b → a ≠ b → blocks a = false ∧ blocks b = false;
}.

Lemma find_row c selected prior :
  List.find (λ tx, bool_decide (row tx = row c)) selected = Some prior → prior ∈ selected ∧ row prior = row c.
Proof. intros [H1 H2]%find_some. apply list_elem_of_In in H1. by apply bool_decide_eq_true in H2. Qed.

Lemma find_no_row c selected :
  List.find (λ tx, bool_decide (row tx = row c)) selected = None → ∀ t, t ∈ selected → row t ≠ row c.
Proof.
  intros H t Ht Hr. apply list_elem_of_In in Ht. pose proof (find_none _ _ H _ Ht) as Hf.
  by apply bool_decide_eq_false in Hf.
Qed.

(** A later candidate changes nothing about the order of the earlier ones. *)
Lemma order_snoc (done_ selected selected' : list QueuedMutation) c :
  c ∉ done_ → (∀ t, t ∈ selected → t ∈ selected') → (∀ t, t ∈ selected' → t ∈ selected ∨ t = c) →
  (∀ pre tx post, done_ = pre ++ tx :: post → tx ∈ selected → ∀ t, t ∈ pre → row t = row tx → t ∈ selected) →
  (c ∈ selected' → ∀ t, t ∈ done_ → row t = row c → t ∈ selected') →
  ∀ pre tx post, done_ ++ [c] = pre ++ tx :: post → tx ∈ selected' →
    ∀ t, t ∈ pre → row t = row tx → t ∈ selected'.
Proof.
  intros Hc Hmono Hnew Hold Hlast pre tx post Heq Htx t Ht Hr.
  destruct post as [|p post _] using rev_ind.
  - apply app_inj_tail in Heq as [-> ->]. by apply Hlast.
  - rewrite app_comm_cons, app_assoc in Heq. apply app_inj_tail in Heq as [Heq ->].
    destruct (Hnew _ Htx) as [Hs| ->]; [apply Hmono; by eapply Hold|].
    exfalso. apply Hc. rewrite Heq. set_solver.
Qed.

Lemma selection_nil : selection [] [] [].
Proof. split; [constructor|by intros ? ?%elem_of_nil|by intros [|? ?]|by intros ? ? ?%elem_of_nil]. Qed.

(** A candidate whose row is held back. *)
Lemma selection_skip done_ selected blocked blocked' c :
  c ∉ done_ → (∀ r, r ∈ blocked → r ∈ blocked') → row c ∈ blocked' →
  selection done_ selected blocked → selection (done_ ++ [c]) selected blocked'.
Proof.
  intros Hc Hb Hin [A B C D]. split; [|..].
  - by apply sublist_inserts_r.
  - intros t [Ht| ->%list_elem_of_singleton]%elem_of_app Hr; [|done]. apply B; [done|]. by intros ?%Hb.
  - apply (order_snoc done_ selected); [done|auto|auto|done|].
    intros Hs. exfalso. apply Hc. by eapply elem_of_sublist.
  - exact D.
Qed.

(** A candidate that joins the batch. *)
Lemma selection_take done_ selected blocked c :
  c ∉ done_ → row c ∉ blocked →
  (∀ t, t ∈ selected → row t = row c → blocks t = false ∧ blocks c = false) →
  selection done_ selected blocked → selection (done_ ++ [c]) (selected ++ [c]) blocked.
Proof.
  intros Hc Hr Hfree [A B C D]. split; [|..].
  - by apply sublist_app.
  - intros t [Ht| ->%list_elem_of_singleton]%elem_of_app Hb; [|set_solver].
    apply elem_of_app; left. by apply B.
  - apply (order_snoc done_ selected); [done|set_solver..|done|].
    intros _ t Ht Hrow. apply elem_of_app; left. apply B; [done|congruence].
  - intros a b [Ha| ->%list_elem_of_singleton]%elem_of_app [Hb| ->%list_elem_of_singleton]%elem_of_app Hrow Hne.
    + by apply D.
    + by apply Hfree.
    + destruct (Hfree b Hb (eq_sym Hrow)) as [? ?]. done.
    + done.
Qed.

Lemma select_rows_selection rest done_ selected blocked :
  NoDup (done_ ++ rest) → selection done_ selected blocked →
  ∃ blocked', selection (done_ ++ rest) (select_rows rest selected blocked) blocked'.
Proof.
  revert done_ selected blocked. induction rest as [|c rest IH]; intros done_ selected blocked Hn Hs; simpl.
  - rewrite app_nil_r. eauto.
  - rewrite cons_middle, app_assoc in Hn |- *.
    assert (Hc : c ∉ done_).
    { rewrite <- app_assoc in Hn. apply NoDup_app in Hn as (_ & Hd & _). intros Hin. apply (Hd c Hin). left. }
    case_bool_decide as Hb; [by apply IH, (selection_skip _ _ blocked)|].
    destruct (List.find _ selected) as [prior|] eqn:Hf; [|].
    + destruct (blocks prior || blocks c) eqn:Hbl.
      * apply IH; [done|]. apply (selection_skip _ _ blocked); [done|by right|by left|done].
      * apply IH; [done|]. apply selection_take; try done. bool_simpl.
        apply find_row in Hf as [Hp Hr]. intros t Ht Hrt. split; [|done].
        destruct (decide (t = prior)) as [->|Hne]; [done|]. by destruct (sel_free _ _ _ Hs t prior Ht Hp ltac:(congruence) Hne).
    + apply IH; [done|]. apply selection_take; try done. intros t Ht Hrt. exfalso. exact (find_no_row _ _ Hf t Ht Hrt).
Qed.

Lemma select_rows_spec candidates :
  NoDup candidates → ∃ blocked, selection candidates (select_rows candidates [] []) blocked.
Proof. intros Hn. apply (select_rows_selection candidates []); [done|apply selection_nil]. Qed.

Lemma select_rows_head c rest : ∃ l, select_rows (c :: rest) [] [] = c :: l.
Proof.
  simpl.
  assert (H : ∀ rest selected blocked, ∃ l, select_rows rest selected blocked = selected ++ l).
  { clear. induction rest as [|c rest IH]; intros selected blocked; simpl; [exists []; by rewrite app_nil_r|].
    repeat case_match; try apply IH; destruct (IH (selected ++ [c]) blocked) as [l ->];
      exists (c :: l); by rewrite <- app_assoc. }
  destruct (H rest [c] []) as [l ->]. by exists l.
Qed.

(** ** The theorem about a batch *)

Definition sealed_batch (pendingQueue batch : list QueuedMutation) : Prop :=
  ∃ key, batch ≠ []
  ∧ (∀ tx, tx ∈ batch ↔ tx ∈ pendingQueue ∧ has_key key tx = true)
  ∧ (∃ tx e, tx ∈ batch ∧ tx_commitEnvelope tx = Some e ∧ ce_operationCount e = Z.of_nat (length batch))
  ∧ StronglySorted (λ a b, operation_index a ≤ operation_index b) batch.

Record fresh_batch (pendingQueue outstanding : list QueuedMutation) (maxBatchSize : Z)
    (batch : list QueuedMutation) : Prop := {
  fb_queue : sublist batch pendingQueue;
  fb_cap : Z.of_nat (length batch) ≤ maxBatchSize;
  fb_unsealed : ∀ tx, tx ∈ batch → tx_commitEnvelope tx = None;
  fb_rows : ∀ tx o, tx ∈ batch → o ∈ outstanding → row o = row tx → holds_row pendingQueue o = false;
  fb_order : ∀ pre tx post t, pendingQueue = pre ++ tx :: post → tx ∈ batch → t ∈ pre →
    row t = row tx → t ∈ batch;
  fb_apart : ∀ a b, a ∈ batch → b ∈ batch → row a = row b → a ≠ b → blocks a = false ∧ blocks b = false;
  fb_solo : ∀ tx, tx ∈ batch → has_explicit_key tx = true → batch = [tx];
}.

Lemma first_complete_batch q key members :
  NoDup (tx_id <$> q) → first_complete (retry_groups q) = Some (key, members) →
  members = keyed (base.filter (λ tx, has_key key tx = true) q) ∧ complete members = true.
Proof.
  intros Hn [Hin Hc]%find_some. split; [|done]. rewrite <- retry_groups_get by done.
  apply list_elem_of_In in Hin. apply (map_get_spec key members) in Hin; [|apply retry_groups_keys].
  by rewrite Hin.
Qed.

Lemma complete_keyed tx l :
  complete (keyed (tx :: l)) = true →
  ∃ e, tx_commitEnvelope tx = Some e ∧ ce_operationCount e = Z.of_nat (length (tx :: l)).
Proof.
  unfold complete, keyed. rewrite fmap_cons. destruct (tx_commitEnvelope tx) as [e|]; [|done].
  intros H%Z.eqb_eq. exists e. split; [done|]. rewrite <- H. simpl. by rewrite length_fmap.
Qed.

Lemma sealed_case q key members :
  NoDup (tx_id <$> q) → first_complete (retry_groups q) = Some (key, members) →
  let batch := sort_by (λ a b, operation_index a - operation_index b) members.*2 in
  Permutation q (batch ++ base.filter (λ tx, has_key key tx = false) q) ∧ sealed_batch q batch.
Proof.
  intros Hn Hf. destruct (first_complete_batch q key members Hn Hf) as [-> Hc].
  rewrite keyed_snd. set (l := base.filter (λ tx, has_key key tx = true) q) in *.
  pose proof (sort_by_perm (λ a b, operation_index a - operation_index b) l) as Hp.
  split; [rewrite Hp; apply filter_split|].
  exists key. destruct l as [|tx l'] eqn:Hl; [done|].
  destruct (complete_keyed _ _ Hc) as (e & He & Hcount). split_and!.
  - intros Hnil. rewrite Hnil in Hp. by apply Permutation_nil in Hp.
  - intros x. rewrite Hp, <- Hl. unfold l. rewrite list_elem_of_filter. tauto.
  - exists tx, e. split_and!; [rewrite Hp; left|done|].
    by rewrite (Permutation_length Hp).
  - apply sort_by_key.
Qed.

Lemma slice0_prefix {A} n (l : list A) : ∃ k, slice0 n l = take k l ∧ (0 ≤ n → k = Z.to_nat n).
Proof. unfold slice0. destruct (Z.ltb_spec n 0); eexists; (split; [done|lia]). Qed.

(** The candidates are a prefix of the fresh mutations, within the cap, and an
    explicit key stands alone among them. *)
Lemma candidates_spec maxBatchSize fresh first rest :
  fresh = first :: rest → 1 ≤ maxBatchSize →
  let candidates := match find_index has_explicit_key fresh with
                    | Some O => [first]
                    | Some (S n) => slice0 (Z.min maxBatchSize (Z.of_nat (S n))) fresh
                    | None => slice0 (Z.min maxBatchSize (Z.of_nat (length fresh))) fresh
                    end in
  (∃ k, candidates = first :: take k rest)
  ∧ Z.of_nat (length candidates) ≤ maxBatchSize
  ∧ (∀ tx, tx ∈ candidates → has_explicit_key tx = true → candidates = [tx]).
Proof.
  intros Hfresh Hm. assert (Hslice : ∀ n, 1 ≤ n ≤ maxBatchSize →
    (∀ x, x ∈ take (Z.to_nat n) fresh → has_explicit_key x = false) →
    (∃ k, slice0 n fresh = first :: take k rest) ∧ Z.of_nat (length (slice0 n fresh)) ≤ maxBatchSize
    ∧ (∀ tx, tx ∈ slice0 n fresh → has_explicit_key tx = true → slice0 n fresh = [tx])).
  { intros n Hn Hno. destruct (slice0_prefix n fresh) as (k & -> & Hk). rewrite Hk by lia. split_and!.
    - rewrite Hfresh. replace (Z.to_nat n) with (S (Z.to_nat n - 1)) by lia. simpl. eauto.
    - rewrite length_take. lia.
    - intros tx Htx Hex. by rewrite (Hno tx Htx) in Hex. }
  cbv zeta. destruct (find_index has_explicit_key fresh) as [[|n]|] eqn:E.
  - split_and!; [by exists 0%nat|simpl; lia|]. intros tx ->%list_elem_of_singleton _. done.
  - apply Hslice; [lia|]. intros x Hx. eapply find_index_some; [exact E|].
    apply elem_of_take in Hx as (i & Hi & Hlt). apply elem_of_take. exists i. split; [done|lia].
  - apply Hslice; [rewrite Hfresh; simpl; lia|]. intros x Hx. eapply find_index_none; [exact E|].
    by eapply subseteq_take.
Qed.

Lemma ids_inj q a b : NoDup (tx_id <$> q) → a ∈ q → b ∈ q → tx_id a = tx_id b → a = b.
Proof.
  induction q as [|x q IH]; [by intros _ ?%elem_of_nil|]. rewrite fmap_cons.
  intros [Hx Hn]%NoDup_cons [->|Ha]%elem_of_cons [->|Hb]%elem_of_cons Hid; auto;
    exfalso; apply Hx; [rewrite Hid|rewrite <- Hid]; by apply list_elem_of_fmap_2.
Qed.

Lemma take_through {A} (x : A) a b k :
  NoDup (a ++ x :: b) → x ∈ take k (a ++ x :: b) → ∃ b', take k (a ++ x :: b) = a ++ x :: b'.
Proof.
  intros Hn Hx. destruct (decide (k ≤ length a)%nat) as [Hk|Hk].
  - rewrite take_app_le in Hx by done. apply NoDup_app in Hn as (_ & Hd & _).
    exfalso. apply (Hd x); [by eapply subseteq_take|by left].
  - rewrite take_app. replace (k - length a)%nat with (S (k - length a - 1)) by lia.
    rewrite take_ge by lia. simpl. eauto.
Qed.

(** Removing a selection by id splits the queue. *)
Lemma remove_selected q batch :
  NoDup (tx_id <$> q) → sublist batch q →
  Permutation q (batch ++ base.filter (λ tx, negb (existsb (λ s, String.eqb (tx_id s) (tx_id tx)) batch) = true) q).
Proof.
  intros Hn Hs. set (f := λ tx, existsb (λ s, String.eqb (tx_id s) (tx_id tx)) batch).
  rewrite (filter_ext_in (λ tx, negb (f tx) = true) (λ tx, f tx = false)) by (intros x _; by destruct (f x)).
  rewrite (filter_split f q) at 1. apply Permutation_app_tail. symmetry.
  assert (Hnq : NoDup q) by by eapply NoDup_fmap_1.
  apply NoDup_Permutation; [by eapply sublist_NoDup|by apply NoDup_filter|].
  intros x. rewrite list_elem_of_filter. unfold f. rewrite existsb_exists. split.
  - intros Hx. split; [|by eapply elem_of_sublist]. exists x. rewrite String.eqb_refl. by split; [apply list_elem_of_In|].
  - intros [(y & Hy & Heq%String.eqb_eq) Hx]. apply list_elem_of_In in Hy.
    by rewrite (ids_inj q x y Hn Hx (elem_of_sublist _ _ _ Hy Hs) (eq_sym Heq)).
Qed.

Lemma filter_mid {A} (P : A → Prop) `{∀ x, Decision (P x)} (l pre : list A) x post :
  l = pre ++ x :: post → P x → base.filter P l = base.filter P pre ++ x :: base.filter P post.
Proof. intros -> Hx. by rewrite filter_app, filter_cons_True. Qed.

Section Fresh.
Context (q outstanding : list QueuedMutation) (Hn : NoDup (tx_id <$> q)).
Context (Hout : ∀ tx, tx ∈ q → tx ∈ outstanding) (Hpend : ∀ tx, tx ∈ q → is_pending tx = true).

Let fresh := base.filter (λ tx, tx_commitEnvelope tx = None ∧ row tx ∉ sealed_rows q outstanding) q.

Lemma not_sealed_row r : r ∉ sealed_rows q outstanding → ∀ o, o ∈ outstanding → row o = r → holds_row q o = false.
Proof.
  intros Hr o Ho <-. destruct (holds_row q o) eqn:E; [|done]. exfalso. apply Hr.
  apply list_elem_of_fmap_2, list_elem_of_filter. done.
Qed.

Lemma sealed_in_queue_holds tx : tx ∈ q → tx_commitEnvelope tx ≠ None → holds_row q tx = true.
Proof.
  intros Hq He. unfold holds_row. destruct (tx_commitEnvelope tx); [|done]. by rewrite (Hpend tx Hq).
Qed.

Lemma fresh_before pre tx post t :
  q = pre ++ tx :: post → tx ∈ fresh → t ∈ pre → row t = row tx → t ∈ base.filter (λ x,
    tx_commitEnvelope x = None ∧ row x ∉ sealed_rows q outstanding) pre.
Proof.
  intros Hq [[_ Hr] _]%list_elem_of_filter Ht Hrow. apply list_elem_of_filter. split; [|done].
  rewrite Hrow. split; [|done]. destruct (tx_commitEnvelope t) eqn:E; [|done]. exfalso.
  assert (Htq : t ∈ q) by (rewrite Hq; set_solver).
  pose proof (not_sealed_row _ Hr t (Hout t Htq) Hrow) as Hh.
  rewrite sealed_in_queue_holds in Hh; [done|done|by rewrite E].
Qed.

Lemma fresh_case maxBatchSize first rest k :
  fresh = first :: rest → 1 ≤ maxBatchSize → Z.of_nat (length (first :: take k rest)) ≤ maxBatchSize →
  (∀ tx, tx ∈ first :: take k rest → has_explicit_key tx = true → first :: take k rest = [tx]) →
  fresh_batch q outstanding maxBatchSize (select_rows (first :: take k rest) [] []).
Proof.
  intros Hf Hm Hlen Hsolo. set (cand := first :: take k rest) in *.
  assert (Hc : cand = take (S k) fresh) by by rewrite Hf.
  assert (Hnf : NoDup fresh) by (apply NoDup_filter; by eapply NoDup_fmap_1).
  assert (Hcf : sublist cand fresh) by (rewrite Hc; apply sublist_take).
  assert (Hcq : sublist cand q) by (etrans; [exact Hcf|apply sublist_filter]).
  destruct (select_rows_spec cand) as [blocked [A B C D]]; [by eapply sublist_NoDup|].
  set (batch := select_rows cand [] []) in *.
  assert (Hbf : ∀ tx, tx ∈ batch → tx ∈ fresh).
  { intros tx Htx. eapply elem_of_sublist; [|exact Hcf]. by eapply elem_of_sublist. }
  split.
  - by etrans.
  - apply sublist_length in A. lia.
  - intros tx Htx. by apply Hbf, list_elem_of_filter in Htx as [[? _] _].
  - intros tx o Htx Ho Hrow. apply Hbf, list_elem_of_filter in Htx as [[_ Hr] _]. by eapply not_sealed_row.
  - intros pre tx post t Hq Htx Ht Hrow.
    pose proof (fresh_before pre tx post t Hq (Hbf tx Htx) Ht Hrow) as Htf.
    assert (Hsplit : ∃ a b, fresh = a ++ tx :: b ∧ t ∈ a).
    { pose proof (Hbf tx Htx) as [HP _]%list_elem_of_filter.
      eexists _, _. split; [apply (filter_mid _ q pre tx post Hq HP)|exact Htf]. }
    destruct Hsplit as (a & b & Hab & Hta).
    assert (Hcand : tx ∈ cand) by by eapply elem_of_sublist.
    rewrite Hc, Hab in Hcand. destruct (take_through tx a b (S k)) as [b' Hb']; [by rewrite <- Hab|done|].
    apply (C a tx b'); [by rewrite Hc, Hab|done..].
  - exact D.
  - intros tx Htx Hex. assert (Hcand : tx ∈ cand) by by eapply elem_of_sublist.
    pose proof (Hsolo tx Hcand Hex) as Heq. unfold batch. rewrite Heq. done.
Qed.
End Fresh.

(** The batch the queue sends next. Whatever the queue holds, the batch and the
    rest together are exactly its pending mutations, and the batch is one of
    two. Either it is one complete sealed request, all its members and only
    those, in their original order. Or it is unsealed: within the size cap, in
    queue order, on no row whose earlier position belongs to a sealed or
    backing-off mutation, taking with each mutation every earlier one of its row;
    two mutations of one row share it only when neither carries relative input
    or a caller's identity, and one with a caller's idempotency key travels
    alone. It is empty only when no sealed request is complete and every pending
    mutation sits on a row that is held. *)
Theorem next_batch_is_sound queue maxBatchSize outstanding :
  NoDup (tx_id <$> queue) → (∀ tx, tx ∈ queue → tx ∈ outstanding) → 1 ≤ maxBatchSize →
  let q := base.filter (λ tx, is_pending tx = true) queue in
  let next := takeNextExecutionBatch queue maxBatchSize outstanding in
  Permutation q (next.1 ++ next.2)
  ∧ (sealed_batch q next.1 ∨ fresh_batch q outstanding maxBatchSize next.1)
  ∧ (next.1 = [] → first_complete (retry_groups q) = None
       ∧ ∀ tx, tx ∈ q → ∃ o, o ∈ outstanding ∧ row o = row tx ∧ holds_row q o = true).
Proof.
  intros Hn0 Hout0 Hm q next. unfold next, takeNextExecutionBatch. fold q.
  assert (Hn : NoDup (tx_id <$> q)).
  { eapply sublist_NoDup; [exact Hn0|]. apply fmap_sublist, sublist_filter. }
  assert (Hout : ∀ tx, tx ∈ q → tx ∈ outstanding) by (intros tx [_ ?]%list_elem_of_filter; auto).
  assert (Hpend : ∀ tx, tx ∈ q → is_pending tx = true) by (by intros tx [? _]%list_elem_of_filter).
  destruct (first_complete (retry_groups q)) as [[key members]|] eqn:Hf.
  - destruct (sealed_case q key members Hn Hf) as [Hp Hs]. split_and!; [done|by left|].
    intros Hnil. destruct Hs as (? & Hne & _). done.
  - destruct (base.filter _ q) as [|first rest] eqn:Hfresh; cbn [fst snd].
    + split_and!; [done| |].
      * right. split; try (by intros ? ? ?%elem_of_nil); try (by intros ? ?%elem_of_nil);
          [apply sublist_nil_l|simpl; lia|].
        intros pre tx post t _ Htx. by apply elem_of_nil in Htx.
      * intros _. split; [done|]. intros tx Htx.
        destruct (decide (row tx ∈ sealed_rows q outstanding)) as [Hr|Hr].
        -- apply list_elem_of_fmap in Hr as (o & Hr & [Hh Ho]%list_elem_of_filter). eauto.
        -- destruct (tx_commitEnvelope tx) eqn:E.
           ++ exists tx. split_and!; [auto|done|]. apply sealed_in_queue_holds; [done..|by rewrite E].
           ++ exfalso. assert (tx ∈ @nil QueuedMutation) as []%elem_of_nil.
              rewrite <- Hfresh. by apply list_elem_of_filter.
    + destruct (candidates_spec maxBatchSize _ first rest (eq_refl (first :: rest)) Hm)
        as ((k & Hk) & Hlen & Hsolo).
      set (cand := match find_index _ _ with Some O => _ | _ => _ end) in *.
      clearbody cand. subst cand.
      pose proof (fresh_case q outstanding Hn Hout Hpend maxBatchSize first rest k Hfresh Hm Hlen Hsolo) as Hb.
      split_and!; [|by right|].
      * apply remove_selected; [done|apply Hb].
      * intros Hnil. destruct (select_rows_head first (take k rest)) as [l Hl]. by rewrite Hl in Hnil.
Qed.

(** ** A queue at work *)

Definition demo_tx (id mid : string) (data : list (string * payload_value)) : QueuedMutation :=
  mkMutation id tx_update "Task" mid data tx_pending 0 0 None false None None 0 None None false.

(** Two plain edits of one row share a batch; a counter increment of it waits. *)
Definition demo_queue : list QueuedMutation :=
  [demo_tx "a" "1" []; demo_tx "b" "1" []; demo_tx "c" "1" [("n"%string, ObjectValue ["$increment"%string])];
   demo_tx "d" "2" []].

Lemma next_batch_is_sound_witness :
  takeNextExecutionBatch demo_queue 50 demo_queue
    = ([demo_tx "a" "1" []; demo_tx "b" "1" []; demo_tx "d" "2" []],
       [demo_tx "c" "1" [("n"%string, ObjectValue ["$increment"%string])]])
  ∧ Permutation (base.filter (λ tx, is_pending tx = true) demo_queue)
      ((takeNextExecutionBatch demo_queue 50 demo_queue).1 ++ (takeNextExecutionBatch demo_queue 50 demo_queue).2).
Proof.
  split; [vm_compute; reflexivity|].
  refine (proj1 (next_batch_is_sound demo_queue 50 demo_queue _ _ _)); [|done|lia].
  apply (bool_decide_unpack _). vm_compute. exact I.
Defined.

Definition demo_store : MutationStore :=
  foldl store_step new_store [StoreAdd (demo_tx "a" "1" []); StoreAdd (demo_tx "b" "2" []);
    StoreUpdate "a" tx_executing; StoreRemove "b"].

Lemma status_index_is_exact_witness :
  Permutation (getByStatus tx_executing demo_store)
    (base.filter (λ tx, tx_status tx = tx_executing) (getAll demo_store)).
Proof.
  refine (proj1 (status_index_is_exact demo_store tx_executing _)).
  apply (store_next _ (StoreRemove "b")); [|exact I].
  apply (store_next _ (StoreUpdate "a" tx_executing)); [|exact I].
  apply (store_next _ (StoreAdd (demo_tx "b" "2" []))); [|reflexivity].
  apply (store_next _ (StoreAdd (demo_tx "a" "1" []))); [apply store_start|reflexivity].
Defined.
