(* ===== verification/Views.v ===== *)
(** * Incremental views

    [incrementalView.ts] and [QueryView.ts] of [packages/humans/src/local/views]: the
    comparison and the binary insertion the views share, and a view that is scanned
    once and then kept by the additions, updates and removals of rows. Rows are
    instances on a heap, so that a view holds the object and not a copy of it. The
    values of fields are a parameter with the comparison of the language. *)
From S2P Require Import Prelude JsData MutationQueue.
From Stdlib Require Import Sorted.
#[local] Open Scope Z_scope.

(** ** Values *)

(** What a field holds besides [null] and [undefined]: [===], [<] and whether it is a
    string. *)
Class JsValue (V : Type) := {
  js_eq :: EqDecision V;
  js_lt : V → V → bool;
  js_string : V → option string;
}.

(** The values of one column: [<] is a strict weak order, as on numbers without [NaN],
    on strings and on dates. *)
Class JsColumn (V : Type) `{JsValue V} := {
  js_lt_irrefl x : js_lt x x = false;
  js_lt_trans x y z : js_lt x y = true → js_lt y z = true → js_lt x z = true;
  js_lt_weak x y z : js_lt x y = false → js_lt y z = false → js_lt x z = false;
}.

Inductive field_value (V : Type) := Undefined | Null | Value (v : V).
Arguments Undefined {V}.
Arguments Null {V}.
Arguments Value {V} _.

#[export] Instance field_value_eq_dec {V} `{EqDecision V} : EqDecision (field_value V).
Proof. solve_decision. Defined.

Inductive direction := Asc | Desc.

(** ** Rows *)

Record instance (V : Type) := mkInstance {
  i_id : string;
  i_type : string;
  i_fields : list (string * field_value V);
}.
Arguments mkInstance {V} _ _ _.
Arguments i_id {V} _.
Arguments i_type {V} _.
Arguments i_fields {V} _.

Section Views.
Context {V : Type} `{JsValue V}.
Implicit Types (x y : field_value V) (o : instance V) (h : list (instance V)).

Definition getField (key : string) (o : instance V) : field_value V := default Undefined (map_get key (i_fields o)).

(** [value == null] *)
Definition nullish (x : field_value V) : bool := match x with Value _ => false | _ => true end.

Definition dir_factor (dir : direction) : Z := match dir with Asc => 1 | Desc => -1 end.

Definition compareValues (a b : field_value V) (dir : direction) : Z :=
  if decide (a = b) then 0
  else match a, b with
       | Undefined, _ | Null, _ => 1
       | _, Undefined | _, Null => -1
       | Value a, Value b => (if js_lt a b then -1 else 1) * dir_factor dir
       end.

(** The loop of [binaryInsertionIndex]. *)
Fixpoint insertion_loop (fuel : nat) (arr : list (field_value V)) (itemVal : field_value V) (dir : direction)
    (lo hi : nat) : nat :=
  match fuel with
  | O => lo
  | S fuel =>
      if (lo <? hi)%nat then
        let mid := ((lo + hi) / 2)%nat in
        match arr !! mid with
        | Some midVal =>
            if compareValues midVal itemVal dir <=? 0 then insertion_loop fuel arr itemVal dir (S mid) hi
            else insertion_loop fuel arr itemVal dir lo mid
        | None => lo
        end
      else lo
  end.

Definition binaryInsertionIndex (arr : list (field_value V)) (itemVal : field_value V) (dir : direction) : nat :=
  insertion_loop (length arr) arr itemVal dir 0 (length arr).

Definition matchesWhere (entity : instance V) (where_ : list (string * field_value V)) : bool :=
  forallb (λ p, match p.2 with Undefined => true | v => bool_decide (getField p.1 entity = v) end) where_.

(** ** A view *)

Record view_options := mkViewOptions {
  vo_where : option (list (string * field_value V));
  vo_filter : option (instance V → bool);
  vo_orderBy : option string;
  vo_order : direction;
  vo_limit : option Z;
  vo_offset : option Z;
}.

(** [internal] and [results] hold references to the instances. *)
Record view := mkView {
  v_typename : string;
  whereEntries : option (list (string * field_value V));
  filterFn : option (instance V → bool);
  sortKey : option string;
  sortDir : direction;
  limitN : option Z;
  offsetN : Z;
  internal : list nat;
  results : list nat;
  v_disposed : bool;
}.

Definition set_internal (l : list nat) (v : view) : view :=
  mkView (v_typename v) (whereEntries v) (filterFn v) (sortKey v) (sortDir v) (limitN v) (offsetN v) l (results v) (v_disposed v).
Definition set_results (l : list nat) (v : view) : view :=
  mkView (v_typename v) (whereEntries v) (filterFn v) (sortKey v) (sortDir v) (limitN v) (offsetN v) (internal v) l (v_disposed v).
Definition dispose_view (v : view) : view :=
  mkView (v_typename v) (whereEntries v) (filterFn v) (sortKey v) (sortDir v) (limitN v) (offsetN v) (internal v) (results v) true.

Definition not_undefined (p : string * field_value V) : bool := match p.2 with Undefined => false | _ => true end.

Definition parse_options (typename : string) (o : view_options) : view :=
  mkView typename (List.filter not_undefined <$> vo_where o) (vo_filter o) (vo_orderBy o) (vo_order o)
    (vo_limit o) (default 0 (vo_offset o)) [] [] false.

Definition matchesFilter (v : view) (o : instance V) : bool :=
  match whereEntries v with
  | Some entries => forallb (λ p, bool_decide (getField p.1 o = p.2)) entries
  | None => true
  end && match filterFn v with Some f => f o | None => true end.

Definition matches_ref (h : list (instance V)) (v : view) (r : nat) : bool :=
  match h !! r with Some o => matchesFilter v o | None => false end.

(** [Array.prototype.slice] *)
Definition slice_bound (len i : Z) : Z := if i <? 0 then Z.max (len + i) 0 else Z.min i len.
Definition js_slice {A} (start stop : Z) (l : list A) : list A :=
  let len := Z.of_nat (length l) in
  let s := slice_bound len start in let e := slice_bound len stop in
  take (Z.to_nat (e - s)) (drop (Z.to_nat s) l).

Definition window (v : view) : list nat :=
  let start := offsetN v in
  let stop := match limitN v with Some n => start + n | None => Z.of_nat (length (internal v)) end in
  js_slice start stop (internal v).

Definition syncWindow (v : view) : view :=
  let windowed := window v in
  if decide (windowed = results v) then v else set_results windowed v.

Definition sort_value (h : list (instance V)) (key : string) (r : nat) : field_value V :=
  match h !! r with Some o => getField key o | None => Undefined end.

Definition insertSorted (h : list (instance V)) (r : nat) (v : view) : view :=
  match sortKey v with
  | Some key =>
      let i := binaryInsertionIndex (sort_value h key <$> internal v) (sort_value h key r) (sortDir v) in
      set_internal (take i (internal v) ++ r :: drop i (internal v)) v
  | None => set_internal (internal v ++ [r]) v
  end.

Definition has_id (h : list (instance V)) (id : string) (r : nat) : bool :=
  match h !! r with Some o => String.eqb (i_id o) id | None => false end.

(** [findIndexById], and the splice of what it finds. *)
Definition findIndexById (h : list (instance V)) (id : string) (l : list nat) : option nat := find_index (has_id h id) l.
Definition splice_out (i : nat) (l : list nat) : list nat := take i l ++ drop (S i) l.

Definition handleAdded (h : list (instance V)) (r : nat) (v : view) : view :=
  if v_disposed v then v
  else if matches_ref h v r then syncWindow (insertSorted h r v) else v.

Definition handleUpdated (h : list (instance V)) (r : nat) (v : view) : view :=
  if v_disposed v then v
  else
    let idx := match h !! r with Some o => findIndexById h (i_id o) (internal v) | None => None end in
    let matchesNow := matches_ref h v r in
    syncWindow
      match idx, matchesNow with
      | Some i, true => insertSorted h r (set_internal (splice_out i (internal v)) v)
      | Some i, false => set_internal (splice_out i (internal v)) v
      | None, true => insertSorted h r v
      | None, false => v
      end.

Definition handleRemoved (h : list (instance V)) (id : string) (v : view) : view :=
  if v_disposed v then v
  else match findIndexById h id (internal v) with
       | Some i => syncWindow (set_internal (splice_out i (internal v)) v)
       | None => v
       end.

Definition compare_rows (h : list (instance V)) (v : view) (key : string) (a b : nat) : Z :=
  compareValues (sort_value h key a) (sort_value h key b) (sortDir v).

(** [initialScan], on the candidates the pool gave. *)
Definition initialScan (h : list (instance V)) (candidates : list nat) (v : view) : view :=
  let matching := List.filter (matches_ref h v) candidates in
  syncWindow (set_internal match sortKey v with
                           | Some key => sort_by (compare_rows h v key) matching
                           | None => matching end v).
End Views.
Arguments view V : clear implicits.
Arguments view_options V : clear implicits.

(** ** The order of the views *)

Section Order.
Context {V : Type} `{JsColumn V}.
Implicit Types (a b c : field_value V) (l : list (field_value V)).

(** [after dir a b]: [a] belongs strictly behind [b]; [null] and [undefined] are last
    in both directions. *)
Definition after (dir : direction) (a b : field_value V) : bool :=
  match a, b with
  | Value a, Value b => match dir with Asc => js_lt b a | Desc => js_lt a b end
  | (Undefined | Null), Value _ => true
  | _, _ => false
  end.

Definition in_order (dir : direction) (l : list (field_value V)) : Prop :=
  StronglySorted (λ a b, after dir a b = false) l.

Lemma js_lt_asym (x y : V) : js_lt x y = true → js_lt y x = false.
Proof.
  intros Hxy. destruct (js_lt y x) eqn:Hyx; [|done]. pose proof (js_lt_trans x y x Hxy Hyx). by rewrite js_lt_irrefl in *.
Qed.

Lemma after_irrefl dir a : after dir a a = false.
Proof. destruct a, dir; simpl; try done; apply js_lt_irrefl. Qed.

Lemma after_weak dir a b c : after dir a b = false → after dir b c = false → after dir a c = false.
Proof. destruct a, b, c, dir; simpl; try done; intros; eauto using js_lt_weak. Qed.

Lemma compare_le dir a b : compareValues a b dir <= 0 → after dir a b = false.
Proof.
  unfold compareValues. destruct (decide (a = b)) as [->|]; [intros; apply after_irrefl|].
  destruct a as [| |x], b as [| |y]; simpl; try done.
  destruct (js_lt x y) eqn:Hlt, dir; simpl; try lia; intros; try done. by apply js_lt_asym.
Qed.

Lemma compare_gt dir a b : 0 < compareValues a b dir → after dir b a = false.
Proof.
  unfold compareValues. destruct (decide (a = b)) as [->|]; [intros; apply after_irrefl|].
  destruct a as [| |x], b as [| |y]; simpl; try done.
  destruct (js_lt x y) eqn:Hlt, dir; simpl; try lia; intros; try done. by apply js_lt_asym.
Qed.

Lemma in_order_lookup dir l i j a b :
  in_order dir l → l !! i = Some a → l !! j = Some b → (i <= j)%nat → after dir a b = false.
Proof.
  intros Hs. revert i j. induction Hs as [|x l Hs IH Hx]; intros i j; [done|].
  destruct i as [|i], j as [|j]; simpl; intros Hi Hj Hij.
  - injection Hi as <-. injection Hj as <-. apply after_irrefl.
  - injection Hi as <-. rewrite Forall_lookup in Hx. eauto.
  - lia.
  - apply (IH i j); [done|done|lia].
Qed.

(** What is left of the window is not behind the item, what is right of it not before. *)
Lemma insertion_loop_spec dir l item fuel lo hi :
  in_order dir l → (hi <= length l)%nat → (lo <= hi)%nat → (hi - lo <= fuel)%nat →
  (∀ k a, (k < lo)%nat → l !! k = Some a → after dir a item = false) →
  (∀ k a, (hi <= k)%nat → l !! k = Some a → after dir item a = false) →
  let i := insertion_loop fuel l item dir lo hi in
  (i <= length l)%nat
  ∧ (∀ k a, (k < i)%nat → l !! k = Some a → after dir a item = false)
  ∧ (∀ k a, (i <= k)%nat → l !! k = Some a → after dir item a = false).
Proof.
  intros Hs. revert lo hi. induction fuel as [|fuel IH]; intros lo hi Hhi Hlo Hf HL HR; cbn [insertion_loop].
  { assert (lo = hi) as -> by lia. auto. }
  destruct (Nat.ltb_spec lo hi) as [Hlt|Hge].
  2: { assert (lo = hi) as -> by lia. auto. }
  assert (Hmid : (lo <= (lo + hi) / 2 < hi)%nat).
  { split; [apply Nat.div_le_lower_bound; lia|apply Nat.div_lt_upper_bound; lia]. }
  set (mid := ((lo + hi) / 2)%nat) in *.
  destruct (lookup_lt_is_Some_2 l mid) as [m Hm]; [lia|]. rewrite Hm.
  destruct (Z.leb_spec (compareValues m item dir) 0) as [Hc|Hc].
  - apply IH; [lia|lia|lia| |done]. intros k a Hk Ha. apply (after_weak dir a m item).
    + apply (in_order_lookup dir l k mid); [done|done|done|lia].
    + by apply compare_le.
  - apply IH; [lia|lia|lia|done|]. intros k a Hk Ha. apply (after_weak dir item m a).
    + by apply compare_gt.
    + apply (in_order_lookup dir l mid k); [done|done|done|lia].
Qed.

Lemma in_order_app dir l1 l2 :
  in_order dir l1 → in_order dir l2 → (∀ a b, a ∈ l1 → b ∈ l2 → after dir a b = false) → in_order dir (l1 ++ l2).
Proof.
  intros H1 H2 Hc. induction H1 as [|x l1 H1 IH Hx]; [done|]. simpl. constructor.
  - apply IH. intros a b Ha. apply Hc. by right.
  - apply Forall_app. split; [done|]. apply Forall_forall. intros b. apply Hc. left.
Qed.

Lemma in_order_split dir l1 l2 :
  in_order dir (l1 ++ l2) → in_order dir l1 ∧ in_order dir l2 ∧ ∀ a b, a ∈ l1 → b ∈ l2 → after dir a b = false.
Proof.
  induction l1 as [|x l1 IH]; simpl; [intros Hs; split_and!; [constructor|done|by intros a b ?%elem_of_nil]|].
  intros [Hs Hx]%StronglySorted_inv. destruct (IH Hs) as (H1 & H2 & Hc). apply Forall_app in Hx as [Hx1 Hx2].
  split_and!; [by constructor|done|]. intros a b [->|Ha]%elem_of_cons Hb; [by rewrite Forall_forall in Hx2; apply Hx2|auto].
Qed.

(** The binary insertion of the views keeps an ordered array ordered: the index it
    returns is inside the array, nothing before it belongs behind the item and nothing
    from it on belongs before the item, so the array with the item put there is in
    order, for any column whose values [<] orders, in both directions and with [null]
    and [undefined] last. *)
Theorem binary_insertion_keeps_order dir l item :
  in_order dir l →
  let i := binaryInsertionIndex l item dir in
  (i <= length l)%nat ∧ in_order dir (take i l ++ item :: drop i l).
Proof.
  intros Hs. destruct (insertion_loop_spec dir l item (length l) 0 (length l) Hs) as (Hi & HL & HR); [lia|lia|lia|lia| |].
  { intros k a Hk Ha. apply lookup_lt_Some in Ha. lia. }
  cbv zeta. fold (binaryInsertionIndex l item dir) in *. set (i := binaryInsertionIndex l item dir) in *.
  split; [done|]. pose proof Hs as Hs'. rewrite <- (take_drop i l) in Hs'.
  apply in_order_split in Hs' as (H1 & H2 & Hc). apply in_order_app; [done| |].
  - constructor; [done|]. apply Forall_lookup. intros k b Hk. rewrite lookup_drop in Hk. apply (HR (i + k)%nat); [lia|done].
  - intros a b Ha Hb. apply list_elem_of_lookup in Ha as [k Hk]. apply lookup_take_Some in Hk as [Hk Hki].
    apply elem_of_cons in Hb as [->|Hb]; [by apply (HL k)|].
    apply Hc; [|done]. apply list_elem_of_lookup. exists k. apply lookup_take_Some. done.
Qed.
End Order.

(** ** A view and the query it stands for *)

Section ViewFacts.
Context {V : Type} `{JsColumn V}.
Implicit Types (h : list (instance V)) (v : view V).

(** The view holds each matching row once, in order, and shows its window. *)
Record view_ok h (rows : list nat) v : Prop := {
  vk_rows : Permutation (internal v) (List.filter (matches_ref h v) rows);
  vk_order : ∀ key, sortKey v = Some key → in_order (sortDir v) (sort_value h key <$> internal v);
  vk_window : results v = window v;
}.

Lemma filter_perm {A} (f : A → bool) l l' : Permutation l l' → Permutation (List.filter f l) (List.filter f l').
Proof. induction 1; simpl; repeat case_match; eauto using Permutation. Qed.

Lemma view_ok_perm h rows rows' v : Permutation rows rows' → view_ok h rows v → view_ok h rows' v.
Proof. intros Hp [A B C]. split; [|done|done]. by rewrite A, (filter_perm _ _ _ Hp). Qed.

(** [syncWindow] changes what is shown and nothing else. *)
Lemma sync_fields v :
  internal (syncWindow v) = internal v ∧ sortKey (syncWindow v) = sortKey v ∧ sortDir (syncWindow v) = sortDir v
  ∧ whereEntries (syncWindow v) = whereEntries v ∧ filterFn (syncWindow v) = filterFn v
  ∧ results (syncWindow v) = window v ∧ window (syncWindow v) = window v.
Proof. unfold syncWindow. by case_decide. Qed.

Lemma sync_ok h rows v :
  Permutation (internal v) (List.filter (matches_ref h v) rows) →
  (∀ key, sortKey v = Some key → in_order (sortDir v) (sort_value h key <$> internal v)) → view_ok h rows (syncWindow v).
Proof.
  intros Hp Ho. destruct (sync_fields v) as (E1 & E2 & E3 & E4 & E5 & E6 & E7). split.
  - rewrite E1. unfold matches_ref, matchesFilter. rewrite E4, E5. exact Hp.
  - rewrite E1, E2, E3. exact Ho.
  - by rewrite E6, E7.
Qed.

Lemma insert_sorted_perm h r v : Permutation (internal (insertSorted h r v)) (r :: internal v).
Proof.
  unfold insertSorted. destruct (sortKey v); simpl.
  - rewrite <- Permutation_middle. by rewrite take_drop.
  - by rewrite Permutation_app_comm.
Qed.

Lemma insert_sorted_order h r v key :
  sortKey v = Some key → in_order (sortDir v) (sort_value h key <$> internal v) →
  in_order (sortDir v) (sort_value h key <$> internal (insertSorted h r v)).
Proof.
  intros Hk Ho. unfold insertSorted. rewrite Hk. simpl. rewrite fmap_app, fmap_cons, fmap_take, fmap_drop.
  by apply binary_insertion_keeps_order.
Qed.

Lemma insert_sorted_fields h r v :
  sortKey (insertSorted h r v) = sortKey v ∧ sortDir (insertSorted h r v) = sortDir v
  ∧ whereEntries (insertSorted h r v) = whereEntries v ∧ filterFn (insertSorted h r v) = filterFn v.
Proof. unfold insertSorted. by destruct (sortKey v) eqn:E; simpl; rewrite ?E. Qed.

Lemma matches_ref_fields h v v' r :
  whereEntries v' = whereEntries v → filterFn v' = filterFn v → matches_ref h v' r = matches_ref h v r.
Proof. intros E1 E2. unfold matches_ref, matchesFilter. by rewrite E1, E2. Qed.

Lemma filter_fields h v v' rows :
  whereEntries v' = whereEntries v → filterFn v' = filterFn v →
  List.filter (matches_ref h v') rows = List.filter (matches_ref h v) rows.
Proof. intros E1 E2. apply List.filter_ext. intros r. by apply matches_ref_fields. Qed.

(** The row [r] put into a view that holds the others. *)
Lemma insert_ok h r rest v :
  matches_ref h v r = true → Permutation (internal v) (List.filter (matches_ref h v) rest) →
  (∀ key, sortKey v = Some key → in_order (sortDir v) (sort_value h key <$> internal v)) →
  view_ok h (r :: rest) (syncWindow (insertSorted h r v)).
Proof.
  intros Hm Hp Ho. destruct (insert_sorted_fields h r v) as (E1 & E2 & E3 & E4). apply sync_ok.
  - rewrite insert_sorted_perm, (filter_fields h v _ _ E3 E4). simpl. by rewrite Hm, Hp.
  - rewrite E1, E2. intros key Hk. by apply insert_sorted_order; [|apply Ho].
Qed.

Lemma handle_added_ok h r rows v :
  v_disposed v = false → view_ok h rows v → view_ok h (r :: rows) (handleAdded h r v).
Proof.
  intros Hd [A B C]. unfold handleAdded. rewrite Hd. destruct (matches_ref h v r) eqn:Hm; [by apply insert_ok|].
  split; [|done|done]. simpl. by rewrite Hm.
Qed.

(** What [findIndexById] finds, and the array without it. *)
Lemma find_ref h id l :
  match findIndexById h id l with
  | Some i => ∃ l1 r l2, l = l1 ++ r :: l2 ∧ splice_out i l = l1 ++ l2 ∧ has_id h id r = true
  | None => ∀ r, r ∈ l → has_id h id r = false
  end.
Proof.
  unfold findIndexById. induction l as [|r l IH]; simpl; [by intros r ?%elem_of_nil|].
  destruct (has_id h id r) eqn:Hr; [by exists [], r, l|].
  destruct (find_index (has_id h id) l) as [i|] eqn:Hi; simpl.
  - destruct IH as (l1 & r' & l2 & -> & Hs & Hr'). exists (r :: l1), r', l2. split_and!; [done| |done].
    unfold splice_out in *. simpl. by f_equal.
  - by intros r' [->|?]%elem_of_cons; [|apply IH].
Qed.

Lemma in_order_remove dir (f : nat → field_value V) l1 r l2 :
  in_order dir (f <$> (l1 ++ r :: l2)) → in_order dir (f <$> (l1 ++ l2)).
Proof.
  rewrite !fmap_app, fmap_cons. intros (H1 & H2 & Hc)%in_order_split. apply StronglySorted_inv in H2 as [H2 _].
  apply in_order_app; [done|done|]. intros a b Ha Hb. apply Hc; [done|by right].
Qed.

(** Another heap that agrees on the rows of a view. *)
Lemma filter_agree h h' v rows :
  (∀ r, r ∈ rows → h' !! r = h !! r) → List.filter (matches_ref h' v) rows = List.filter (matches_ref h v) rows.
Proof.
  intros Ha. apply List.filter_ext_in. intros r Hr%list_elem_of_In. unfold matches_ref. by rewrite Ha.
Qed.

Lemma sort_value_agree h h' key (l : list nat) : (∀ r, r ∈ l → h' !! r = h !! r) → sort_value h' key <$> l = sort_value h key <$> l.
Proof.
  intros Ha. apply list_fmap_ext. intros i r Hi. unfold sort_value. rewrite Ha; [done|]. by eapply list_elem_of_lookup_2.
Qed.

Lemma view_ok_agree h h' rows v : (∀ r, r ∈ rows → h' !! r = h !! r) → view_ok h rows v → view_ok h' rows v.
Proof.
  intros Ha [A B C]. split; [by rewrite (filter_agree h h')| |done]. intros key Hk. rewrite (sort_value_agree h h'); [by apply B|].
  intros r Hr. apply Ha. rewrite A in Hr. by apply list_elem_of_In, List.filter_In, proj1, list_elem_of_In in Hr.
Qed.

(** The view without the row that carries [id]: what an update or a removal starts with. *)
Lemma without_row h h' r rest v id :
  view_ok h (r :: rest) v → r ∉ rest → (∀ s, s ∈ rest → h' !! s = h !! s) → (∀ s, s ∈ rest → has_id h' id s = false) →
  has_id h' id r = true →
  let l := match findIndexById h' id (internal v) with Some i => splice_out i (internal v) | None => internal v end in
  Permutation l (List.filter (matches_ref h' v) rest)
  ∧ (∀ key, sortKey v = Some key → in_order (sortDir v) (sort_value h' key <$> l))
  ∧ (findIndexById h' id (internal v) = None → matches_ref h v r = false).
Proof.
  intros [A B C] Hr Ha Hid Hidr l. subst l. pose proof (find_ref h' id (internal v)) as Hf.
  assert (Hfilter : ∀ s, s ∈ List.filter (matches_ref h v) (r :: rest) → s = r ∨ s ∈ rest).
  { intros s Hs%list_elem_of_In. apply List.filter_In in Hs as [Hs _]. apply list_elem_of_In in Hs. by apply elem_of_cons. }
  destruct (findIndexById h' id (internal v)) as [i|].
  - destruct Hf as (l1 & r0 & l2 & Hl & -> & Hr0).
    assert (Hin0 : r0 ∈ internal v) by (rewrite Hl; apply elem_of_app; right; left).
    assert (r0 = r) as ->.
    { rewrite A in Hin0. destruct (Hfilter r0 Hin0) as [->|Hin]; [done|]. rewrite (Hid r0 Hin) in Hr0. done. }
    rewrite A in Hin0. simpl in A. destruct (matches_ref h v r) eqn:Hm.
    2: { exfalso. apply list_elem_of_In, List.filter_In in Hin0 as [_ Hin0]. congruence. }
    assert (Hp : Permutation (l1 ++ l2) (List.filter (matches_ref h v) rest)).
    { rewrite Hl in A. rewrite <- Permutation_middle in A. by apply Permutation_cons_inv in A. }
    split_and!; [by rewrite (filter_agree h h')| |done].
    intros key Hk. rewrite (sort_value_agree h h').
    + apply (in_order_remove _ _ l1 r l2). rewrite <- Hl. by apply B.
    + intros s Hs. apply Ha. rewrite Hp in Hs. by apply list_elem_of_In, List.filter_In, proj1, list_elem_of_In in Hs.
  - assert (Hm : matches_ref h v r = false).
    { apply not_true_iff_false. intros Hm. assert (Hin : r ∈ internal v) by (rewrite A; simpl; rewrite Hm; left).
      rewrite (Hf r Hin) in Hidr. done. }
    simpl in A. rewrite Hm in A. split_and!; [by rewrite (filter_agree h h')| |done].
    intros key Hk. rewrite (sort_value_agree h h'); [by apply B|].
    intros s Hs. apply Ha. rewrite A in Hs. by apply list_elem_of_In, List.filter_In, proj1, list_elem_of_In in Hs.
Qed.

Lemma handle_updated_ok h h' r o rest v :
  v_disposed v = false → view_ok h (r :: rest) v → r ∉ rest → h' !! r = Some o →
  (∀ s, s ∈ rest → h' !! s = h !! s) → (∀ s, s ∈ rest → has_id h' (i_id o) s = false) →
  view_ok h' (r :: rest) (handleUpdated h' r v).
Proof.
  intros Hd Hv Hr Ho Ha Hid.
  assert (Hidr : has_id h' (i_id o) r = true) by (unfold has_id; rewrite Ho; apply String.eqb_refl).
  destruct (without_row h h' r rest v (i_id o) Hv Hr Ha Hid Hidr) as (Hp & Hs & _).
  unfold handleUpdated. rewrite Hd, Ho. destruct (findIndexById h' (i_id o) (internal v)) as [i|].
  - set (v' := set_internal (splice_out i (internal v)) v). destruct (matches_ref h' v r) eqn:Hm.
    + by apply (insert_ok h' r rest v').
    + apply sync_ok; [|done]. simpl. change (matches_ref h' v') with (matches_ref h' v). by rewrite Hm.
  - destruct (matches_ref h' v r) eqn:Hm; [by apply insert_ok|]. apply sync_ok; [|done]. simpl. by rewrite Hm.
Qed.

Lemma handle_removed_ok h id r rest v :
  v_disposed v = false → view_ok h (r :: rest) v → r ∉ rest → has_id h id r = true →
  (∀ s, s ∈ rest → has_id h id s = false) → view_ok h rest (handleRemoved h id v).
Proof.
  intros Hd Hv Hr Hidr Hid. destruct (without_row h h r rest v id Hv Hr) as (Hp & Hs & _); [done|done|done|].
  unfold handleRemoved. rewrite Hd. destruct (findIndexById h id (internal v)) as [i|]; [by apply sync_ok|].
  split; [done|done|apply Hv].
Qed.

(** The first scan: a sort with a consistent comparator. *)
Lemma sort_by_in_order dir (f : nat → field_value V) l :
  in_order dir (f <$> sort_by (λ a b, compareValues (f a) (f b) dir) l).
Proof.
  set (cmp := λ a b, compareValues (f a) (f b) dir).
  assert (Hins : ∀ x l, in_order dir (f <$> l) → in_order dir (f <$> insert_by cmp x l)).
  { intros x l0. induction l0 as [|y l0 IH]; intros Hs; [by repeat constructor|]. cbn [insert_by].
    rewrite fmap_cons in Hs. apply StronglySorted_inv in Hs as [Hs Hy]. destruct (Z.ltb_spec 0 (cmp y x)) as [Hc|Hc].
    - rewrite !fmap_cons. repeat constructor; [done|done|by apply compare_gt|]. rewrite Forall_forall in *.
      intros b Hb. apply (after_weak dir (f x) (f y) b); [by apply compare_gt|by apply Hy].
    - rewrite fmap_cons. constructor; [by apply IH|]. rewrite Forall_forall in *. intros b Hb.
      rewrite insert_by_perm, fmap_cons in Hb. apply elem_of_cons in Hb as [->|Hb]; [by apply compare_le|by apply Hy]. }
  unfold sort_by. assert (Hall : ∀ acc, in_order dir (f <$> acc) → in_order dir (f <$> foldl (λ acc x, insert_by cmp x acc) acc l)).
  { induction l as [|x l IH]; intros acc Hacc; [done|]. simpl. by apply IH, Hins. }
  apply Hall. constructor.
Qed.

Lemma initial_scan_ok h rows v : view_ok h rows (initialScan h rows v).
Proof.
  unfold initialScan. apply sync_ok; simpl.
  - destruct (sortKey v); [apply sort_by_perm|done].
  - intros key ->. apply sort_by_in_order.
Qed.
End ViewFacts.
