(* ===== verification/InstanceCache.v ===== *)
(** * The instance cache

    [InstanceCache.ts] and [ViewRegistry.ts] of [packages/humans/src/local]: the one
    instance of each row, with its type and foreign-key indexes, the tracking of
    additions, the eviction under a cap and the notification of views. Instances live
    on a heap; whether one was disposed or is observed is kept beside it. The strong
    reference of an entry is never dropped, so the weak references are not modelled;
    nor are metrics and subscribers, which keep no state of the cache. *)
From S2P Require Import Prelude JsData MutationQueue Views.
#[local] Open Scope Z_scope.

(** ** State *)

Inductive scope := LiveScope | ArchivedScope | AllScope.
#[export] Instance scope_eq_dec : EqDecision scope.
Proof. solve_decision. Defined.

Record ModelEntry := mkEntry { e_model : nat; e_scope : scope }.

Record delta_record := mkDelta { lastAction : string; lastSyncId : Z; d_timestamp : Z }.

Record pool_config := mkPoolConfig { maxSize : Z; maxAge : option Z }.

(** The heap with the disposed and the observed instances; the maps of the cache;
    the registry of views, with the views by their number. *)
Record cache (V : Type) `{JsValue V} := mkCache {
  heap : list (instance V);
  disposed : list nat;
  observed : list nat;
  entries : list (string * ModelEntry);
  typeIndex : list (string * list string);
  accessTimes : list (string * Z);
  recentAdditions : list (string * Z);
  earliestRecentAddition : option Z;
  deltaHistory : list (string * delta_record);
  foreignKeyIndexes : list (string * list (string * list string));
  foreignKeyConfig : list (string * list string);
  registered : list (string * list nat);
  views : list (view V);
}.
Arguments mkCache {V _} _ _ _ _ _ _ _ _ _ _ _ _ _.
Arguments heap {V _} _.
Arguments disposed {V _} _.
Arguments observed {V _} _.
Arguments entries {V _} _.
Arguments typeIndex {V _} _.
Arguments accessTimes {V _} _.
Arguments recentAdditions {V _} _.
Arguments earliestRecentAddition {V _} _.
Arguments deltaHistory {V _} _.
Arguments foreignKeyIndexes {V _} _.
Arguments foreignKeyConfig {V _} _.
Arguments registered {V _} _.
Arguments views {V _} _.

Section Cache.
Context {V : Type} `{JsValue V}.
Implicit Types (c : cache V).

Definition with_heap x c := mkCache x (disposed c) (observed c) (entries c) (typeIndex c) (accessTimes c) (recentAdditions c) (earliestRecentAddition c) (deltaHistory c) (foreignKeyIndexes c) (foreignKeyConfig c) (registered c) (views c).
Definition with_disposed x c := mkCache (heap c) x (observed c) (entries c) (typeIndex c) (accessTimes c) (recentAdditions c) (earliestRecentAddition c) (deltaHistory c) (foreignKeyIndexes c) (foreignKeyConfig c) (registered c) (views c).
Definition with_observed x c := mkCache (heap c) (disposed c) x (entries c) (typeIndex c) (accessTimes c) (recentAdditions c) (earliestRecentAddition c) (deltaHistory c) (foreignKeyIndexes c) (foreignKeyConfig c) (registered c) (views c).
Definition with_entries x c := mkCache (heap c) (disposed c) (observed c) x (typeIndex c) (accessTimes c) (recentAdditions c) (earliestRecentAddition c) (deltaHistory c) (foreignKeyIndexes c) (foreignKeyConfig c) (registered c) (views c).
Definition with_types x c := mkCache (heap c) (disposed c) (observed c) (entries c) x (accessTimes c) (recentAdditions c) (earliestRecentAddition c) (deltaHistory c) (foreignKeyIndexes c) (foreignKeyConfig c) (registered c) (views c).
Definition with_access x c := mkCache (heap c) (disposed c) (observed c) (entries c) (typeIndex c) x (recentAdditions c) (earliestRecentAddition c) (deltaHistory c) (foreignKeyIndexes c) (foreignKeyConfig c) (registered c) (views c).
Definition with_recent x c := mkCache (heap c) (disposed c) (observed c) (entries c) (typeIndex c) (accessTimes c) x (earliestRecentAddition c) (deltaHistory c) (foreignKeyIndexes c) (foreignKeyConfig c) (registered c) (views c).
Definition with_earliest x c := mkCache (heap c) (disposed c) (observed c) (entries c) (typeIndex c) (accessTimes c) (recentAdditions c) x (deltaHistory c) (foreignKeyIndexes c) (foreignKeyConfig c) (registered c) (views c).
Definition with_deltas x c := mkCache (heap c) (disposed c) (observed c) (entries c) (typeIndex c) (accessTimes c) (recentAdditions c) (earliestRecentAddition c) x (foreignKeyIndexes c) (foreignKeyConfig c) (registered c) (views c).
Definition with_fk x c := mkCache (heap c) (disposed c) (observed c) (entries c) (typeIndex c) (accessTimes c) (recentAdditions c) (earliestRecentAddition c) (deltaHistory c) x (foreignKeyConfig c) (registered c) (views c).
Definition with_fk_config x c := mkCache (heap c) (disposed c) (observed c) (entries c) (typeIndex c) (accessTimes c) (recentAdditions c) (earliestRecentAddition c) (deltaHistory c) (foreignKeyIndexes c) x (registered c) (views c).
Definition with_registered x c := mkCache (heap c) (disposed c) (observed c) (entries c) (typeIndex c) (accessTimes c) (recentAdditions c) (earliestRecentAddition c) (deltaHistory c) (foreignKeyIndexes c) (foreignKeyConfig c) x (views c).
Definition with_views x c := mkCache (heap c) (disposed c) (observed c) (entries c) (typeIndex c) (accessTimes c) (recentAdditions c) (earliestRecentAddition c) (deltaHistory c) (foreignKeyIndexes c) (foreignKeyConfig c) (registered c) x.

Definition new_cache : cache V := mkCache [] [] [] [] [] [] [] None [] [] [] [] [].

(** ** Reading *)

Definition model_at (r : nat) (c : cache V) : option (instance V) := heap c !! r.
Definition is_disposed (r : nat) (c : cache V) : bool := bool_decide (r ∈ disposed c).
Definition hasObservedCollections (r : nat) (c : cache V) : bool := bool_decide (r ∈ observed c).
Definition type_of_ref (r : nat) (c : cache V) : option string := i_type <$> model_at r c.

(** An entry whose model was not disposed. *)
Definition resident (id : string) (c : cache V) : option ModelEntry :=
  e ← map_get id (entries c); if is_disposed (e_model e) c then None else Some e.

Definition touchAccess (id : string) (at_ : Z) (c : cache V) : cache V :=
  with_access (map_delete id (accessTimes c) ++ [(id, at_)]) c.

(** [get] and [peek]: the instance, and the access recorded. *)
Definition get (now : Z) (id : string) (c : cache V) : option nat * cache V :=
  match resident id c with
  | Some e => (Some (e_model e), touchAccess id now c)
  | None => (None, c)
  end.

Definition getOfType (now : Z) (id modelName : string) (c : cache V) : option nat * cache V :=
  let '(found, c) := get now id c in
  (r ← found; if bool_decide (type_of_ref r c = Some modelName) then Some r else None, c).

Definition matchesScope (entryScope queryScope : scope) : bool :=
  match queryScope with
  | AllScope => true
  | LiveScope => bool_decide (entryScope = LiveScope)
  | ArchivedScope => bool_decide (entryScope = ArchivedScope)
  end.

Definition collect (ids : list string) (queryScope : scope) (c : cache V) : list nat :=
  omap (λ id, e ← resident id c; if matchesScope (e_scope e) queryScope then Some (e_model e) else None) ids.

Definition getByTypeName (modelName : string) (queryScope : scope) (c : cache V) : list nat :=
  collect (default [] (map_get modelName (typeIndex c))) queryScope c.

Definition index_key (modelName fieldName : string) : string := (modelName ++ ":" ++ fieldName)%string.

Definition hasForeignKeyIndex (typename fieldName : string) (c : cache V) : bool :=
  is_Some_b (map_get (index_key typename fieldName) (foreignKeyIndexes c)).

Definition getByForeignKey (modelName fieldName fieldValue : string) (c : cache V) : list nat :=
  match map_get (index_key modelName fieldName) (foreignKeyIndexes c) with
  | None => []
  | Some index => collect (default [] (map_get fieldValue index)) LiveScope c
  end.

(** ** Indexes *)

Definition registerForeignKey (modelName fieldName : string) (c : cache V) : cache V :=
  let fields := default [] (map_get modelName (foreignKeyConfig c)) in
  let c := if bool_decide (fieldName ∈ fields) then c
           else with_fk_config (map_set modelName (fields ++ [fieldName]) (foreignKeyConfig c)) c in
  let key := index_key modelName fieldName in
  if hasForeignKeyIndex modelName fieldName c then c
  else with_fk (map_set key [] (foreignKeyIndexes c)) c.

(** The string a field holds. *)
Definition string_field (key : string) (o : instance V) : option string :=
  match getField key o with Value v => js_string v | _ => None end.

Definition addToForeignKeyIndex (id : string) (o : instance V) (modelName : string) (c : cache V) : cache V :=
  foldl (λ c fieldName,
           match string_field fieldName o, map_get (index_key modelName fieldName) (foreignKeyIndexes c) with
           | Some value, Some index =>
               with_fk (map_set (index_key modelName fieldName)
                          (map_set value (set_add id (default [] (map_get value index))) index) (foreignKeyIndexes c)) c
           | _, _ => c
           end) c (default [] (map_get modelName (foreignKeyConfig c))).

Definition removeFromForeignKeyIndex (id : string) (modelName : string) (c : cache V) : cache V :=
  match map_get id (entries c) ≫= λ e, model_at (e_model e) c with
  | None => c
  | Some o =>
      foldl (λ c fieldName,
               match string_field fieldName o, map_get (index_key modelName fieldName) (foreignKeyIndexes c) with
               | Some value, Some index =>
                   match map_get value index with
                   | Some ids =>
                       let ids := set_remove id ids in
                       let index := match ids with [] => map_delete value index | _ => map_set value ids index end in
                       with_fk (map_set (index_key modelName fieldName) index (foreignKeyIndexes c)) c
                   | None => c
                   end
               | _, _ => c
               end) c (default [] (map_get modelName (foreignKeyConfig c)))
  end.

Definition addToTypeIndex (id modelName : string) (c : cache V) : cache V :=
  let c := with_types (map_set modelName (set_add id (default [] (map_get modelName (typeIndex c)))) (typeIndex c)) c in
  match map_get id (entries c) ≫= λ e, model_at (e_model e) c with
  | Some o => addToForeignKeyIndex id o modelName c
  | None => c
  end.

Definition removeFromTypeIndex (id modelName : string) (c : cache V) : cache V :=
  let c := removeFromForeignKeyIndex id modelName c in
  match map_get modelName (typeIndex c) with
  | None => c
  | Some ids =>
      let ids := set_remove id ids in
      with_types match ids with [] => map_delete modelName (typeIndex c) | _ => map_set modelName ids (typeIndex c) end c
  end.

(** ** Views ([ViewRegistry.ts]) *)

Definition register (typename : string) (k : nat) (c : cache V) : cache V :=
  let set := default [] (map_get typename (registered c)) in
  with_registered (map_set typename (if bool_decide (k ∈ set) then set else set ++ [k]) (registered c)) c.

Definition unregister (typename : string) (k : nat) (c : cache V) : cache V :=
  match map_get typename (registered c) with
  | None => c
  | Some set =>
      let set := base.filter (λ k', k' ≠ k) set in
      with_registered match set with [] => map_delete typename (registered c) | _ => map_set typename set (registered c) end c
  end.

Definition hasViews (typename : string) (c : cache V) : bool :=
  (0 <? length (default [] (map_get typename (registered c))))%nat.

Definition notify (typename : string) (f : view V → view V) (c : cache V) : cache V :=
  foldl (λ c k, with_views (alter f k (views c)) c) c (default [] (map_get typename (registered c))).

Definition notifyAdded (typename : string) (r : nat) (c : cache V) : cache V := notify typename (handleAdded (heap c) r) c.
Definition notifyUpdated (typename : string) (r : nat) (c : cache V) : cache V := notify typename (handleUpdated (heap c) r) c.
Definition notifyRemoved (typename id : string) (c : cache V) : cache V := notify typename (handleRemoved (heap c) id) c.

(** ** Removing *)

Definition dispose_model (r : nat) (c : cache V) : cache V :=
  with_observed (base.filter (λ r', r' ≠ r) (observed c))
    (with_disposed (if bool_decide (r ∈ disposed c) then disposed c else disposed c ++ [r]) c).

Definition add_key (modelType id : string) : string := (modelType ++ ":" ++ id)%string.

Definition remove (id : string) (c : cache V) : bool * cache V :=
  match map_get id (entries c) with
  | None => (false, c)
  | Some e =>
      match model_at (e_model e) c with
      | None => (false, c)
      | Some o =>
          let modelName := i_type o in
          let c := removeFromTypeIndex id modelName c in
          let c := with_entries (map_delete id (entries c)) c in
          let c := notifyRemoved modelName id c in
          let c := dispose_model (e_model e) c in
          let key := add_key modelName id in
          (true, with_access (map_delete id (accessTimes c))
                   (with_deltas (map_delete key (deltaHistory c)) (with_recent (map_delete key (recentAdditions c)) c)))
      end
  end.

Definition remove_ (c : cache V) (id : string) : cache V := (remove id c).2.

Definition removeBatch (ids : list string) (c : cache V) : cache V := foldl remove_ c ids.

Definition removeFromArchive (id : string) (c : cache V) : cache V :=
  match map_get id (entries c) with
  | Some e => if bool_decide (e_scope e = ArchivedScope) then remove_ c id else c
  | None => c
  end.

(** ** Eviction *)

Definition is_observed_entry (id : string) (c : cache V) : bool :=
  match map_get id (entries c) with Some e => hasObservedCollections (e_model e) c | None => false end.

(** The oldest keys first: those to evict, and keys without an entry. *)
Fixpoint evict_scan (count : nat) (keys toEvict stale : list string) (c : cache V) : list string * list string :=
  match keys with
  | [] => (toEvict, stale)
  | id :: keys =>
      if (count <=? length toEvict)%nat then (toEvict, stale)
      else if negb (is_Some_b (map_get id (entries c))) then evict_scan count keys toEvict (stale ++ [id]) c
      else if is_observed_entry id c then evict_scan count keys toEvict stale c
      else evict_scan count keys (toEvict ++ [id]) stale c
  end.

(** The entries that never received an access stamp. *)
Fixpoint evict_unstamped (count : nat) (keys toEvict : list string) (c : cache V) : list string :=
  match keys with
  | [] => toEvict
  | id :: keys =>
      if (count <=? length toEvict)%nat then toEvict
      else if is_Some_b (map_get id (accessTimes c)) || is_observed_entry id c then evict_unstamped count keys toEvict c
      else evict_unstamped count keys (toEvict ++ [id]) c
  end.

Definition evictOldestBatch (count : Z) (c : cache V) : cache V :=
  if count <=? 0 then c
  else
    let n := Z.to_nat count in
    let '(toEvict, stale) := evict_scan n (accessTimes c).*1 [] [] c in
    let c := with_access (base.filter (λ p, p.1 ∉ stale) (accessTimes c)) c in
    let toEvict := if (length toEvict <? n)%nat then evict_unstamped n (entries c).*1 toEvict c else toEvict in
    foldl remove_ c toEvict.

Definition evictOldest : cache V → cache V := evictOldestBatch 1.

(** ** Tracking of additions *)

Definition min_addition (at_ : Z) (e : option Z) : option Z :=
  Some match e with Some t => Z.min t at_ | None => at_ end.

Definition cleanupTracking (now : Z) (c : cache V) : cache V :=
  if match earliestRecentAddition c with Some t => now - t <=? 1000 | None => true end then c
  else
    let kept := base.filter (λ p, now - p.2 <= 1000) (recentAdditions c) in
    with_recent kept (with_earliest (foldl (λ e p, min_addition p.2 e) None kept) c).

Definition clearDeltaHistory (now olderThanMs : Z) (c : cache V) : cache V :=
  with_deltas (base.filter (λ p, now - d_timestamp p.2 <= olderThanMs) (deltaHistory c)) c.

(** ** Adding *)

Record DeltaInfo := mkDeltaInfo { di_action : option string; di_syncId : option Z }.

Definition ensure_type (modelType : string) (c : cache V) : cache V :=
  match map_get modelType (typeIndex c) with
  | Some _ => c
  | None => with_types (map_set modelType [] (typeIndex c)) c
  end.

(** The scope of an entry that stays, set anew when it differs. *)
Definition rescope (now : Z) (id : string) (e : ModelEntry) (s : scope) (c : cache V) : cache V :=
  if bool_decide (e_scope e = s) then c
  else touchAccess id now (with_entries (map_set id (mkEntry (e_model e) s) (entries c)) c).

(** The new entry, indexed and shown to the views. *)
Definition insert_entry (now : Z) (id modelType : string) (r : nat) (s : scope) (c : cache V) : cache V :=
  let c := touchAccess id now c in
  let c := with_entries (map_set id (mkEntry r s) (entries c)) c in
  notifyAdded modelType r (addToTypeIndex id modelType c).

Definition record_delta (now : Z) (key : string) (d : DeltaInfo) (n : Z) (c : cache V) : cache V :=
  with_deltas (map_set key (mkDelta (default "U"%string (di_action d)) n now) (deltaHistory c)) c.

(** [if (lastAdded && now - lastAdded < 50)] *)
Definition added_recently (now : Z) (key : string) (c : cache V) : bool :=
  match map_get key (recentAdditions c) with
  | Some t => negb (t =? 0) && (now - t <? 50)
  | None => false
  end.

(** The position of a delta that has one ([0] counts as none). *)
Definition delta_position (d : option DeltaInfo) : option (DeltaInfo * Z) :=
  match d with
  | Some d => match di_syncId d with Some n => if n =? 0 then None else Some (d, n) | None => None end
  | None => None
  end.

Definition already_applied (key : string) (n : Z) (c : cache V) : bool :=
  match map_get key (deltaHistory c) with Some h => n <=? lastSyncId h | None => false end.

Section Ops.
Context (cfg : pool_config).

Definition track_addition (now : Z) (key : string) (c : cache V) : cache V :=
  let c := with_earliest (min_addition now (earliestRecentAddition c))
             (with_recent (map_set key now (recentAdditions c)) c) in
  if (100 <? length (recentAdditions c))%nat then cleanupTracking now c else c.

Definition make_room (c : cache V) : cache V :=
  if maxSize cfg <=? Z.of_nat (length (entries c)) then evictOldest c else c.

(** [add], after the check for an entry of the id. *)
Definition add_fresh (now : Z) (r : nat) (o : instance V) (s : scope) (deltaInfo : option DeltaInfo) (c : cache V) : cache V :=
  let key := add_key (i_type o) (i_id o) in
  if added_recently now key c then c
  else
    let go c := insert_entry now (i_id o) (i_type o) r s (make_room (track_addition now key c)) in
    match delta_position deltaInfo with
    | Some (d, n) => if already_applied key n c then c else go (record_delta now key d n c)
    | None => go c
    end.

Definition add (now : Z) (r : nat) (s : scope) (deltaInfo : option DeltaInfo) (c : cache V) : cache V :=
  match model_at r c with
  | None => c
  | Some o =>
      let c := ensure_type (i_type o) c in
      match resident (i_id o) c with
      | Some e => rescope now (i_id o) e s c
      | None => add_fresh now r o s deltaInfo c
      end
  end.

Definition addToArchive (now : Z) (r : nat) (c : cache V) : cache V := add now r ArchivedScope None c.

Definition add_one (now : Z) (s : scope) (c : cache V) (r : nat) : cache V :=
  match model_at r c with
  | None => c
  | Some o =>
      let c := ensure_type (i_type o) c in
      match resident (i_id o) c with
      | Some e => rescope now (i_id o) e s c
      | None => insert_entry now (i_id o) (i_type o) r s c
      end
  end.

(** The ids of a batch without a resident instance, each once. *)
Definition new_ids (models : list nat) (c : cache V) : list string :=
  foldl (λ ids r, match model_at r c with
                  | Some o => match resident (i_id o) c with Some _ => ids | None => set_add (i_id o) ids end
                  | None => ids end) [] models.

Definition addBatch (now : Z) (models : list nat) (s : scope) (c : cache V) : cache V :=
  match models with
  | [] => c
  | _ =>
      let capacityNeeded := Z.max 0 (Z.of_nat (length (entries c)) + Z.of_nat (length (new_ids models c)) - maxSize cfg) in
      let c := if 0 <? capacityNeeded then evictOldestBatch capacityNeeded c else c in
      foldl (add_one now s) c models
  end.

(** ** Updating instances ([Model.ts]) *)

Context (toJSON : instance V → list (string * field_value V)) (readonly : string → string → bool) (newDate : V → V).

Definition is_date_field (key : string) : bool :=
  String.eqb key "createdAt" || String.eqb key "updatedAt" || String.eqb key "archivedAt".

Definition assignField (o : instance V) (key : string) (raw : field_value V) : instance V :=
  if String.eqb key "id" then o
  else match map_get key (i_fields o) with
       | None => o
       | Some _ =>
           if readonly (i_type o) key then o
           else
             let value := if is_date_field key then match raw with Value v => Value (newDate v) | _ => raw end else raw in
             mkInstance (i_id o) (i_type o) (map_set key value (i_fields o))
       end.

Definition assignFieldsFromData (data : list (string * field_value V)) (o : instance V) : instance V :=
  foldl (λ o p, assignField o p.1 p.2) o data.

(** An assignment through the reference: every holder sees it. *)
Definition updateFromData (r : nat) (data : list (string * field_value V)) (c : cache V) : cache V :=
  with_heap (alter (assignFieldsFromData data) r (heap c)) c.

Definition update_resident (now : Z) (id : string) (e : ModelEntry) (r : nat) (o : instance V) (s : scope) (c : cache V) : cache V :=
  let c := if bool_decide (r = e_model e) then c else updateFromData (e_model e) (toJSON o) c in
  let c := rescope now id e s c in
  match type_of_ref (e_model e) c with
  | Some modelName => notifyUpdated modelName (e_model e) c
  | None => c
  end.

Definition upsert (now : Z) (r : nat) (s : scope) (c : cache V) : cache V :=
  match model_at r c with
  | None => c
  | Some o =>
      match resident (i_id o) c with
      | Some e => update_resident now (i_id o) e r o s c
      | None => add now r s None c
      end
  end.

Definition upsert_one (now : Z) (s : scope) (c : cache V) (r : nat) : cache V :=
  match model_at r c with
  | None => c
  | Some o =>
      match resident (i_id o) c with
      | Some e => update_resident now (i_id o) e r o s c
      | None => insert_entry now (i_id o) (i_type o) r s (make_room (ensure_type (i_type o) c))
      end
  end.

Definition upsertBatch (now : Z) (models : list nat) (s : scope) (c : cache V) : cache V := foldl (upsert_one now s) c models.

Definition updateScope (now : Z) (id : string) (s : scope) (c : cache V) : cache V :=
  match map_get id (entries c) with Some e => rescope now id e s c | None => c end.

(** [createFromData] on a registered model: the resident instance of that model
    updated in place, or the instance [fresh] its constructor builds. *)
Definition createFromData (now : Z) (id modelName : string) (data : list (string * field_value V)) (fresh : instance V)
    (c : cache V) : nat * cache V :=
  let construct c := (length (heap c), with_heap (heap c ++ [fresh]) c) in
  if is_Some_b (map_get id (entries c)) then
    let '(found, c) := getOfType now id modelName c in
    match found with
    | Some r => (r, updateFromData r data c)
    | None => construct c
    end
  else construct c.

(** ** Clearing and collecting *)

Definition keep_entry (preserveObserved : bool) (c : cache V) (p : string * ModelEntry) : bool :=
  preserveObserved && hasObservedCollections (e_model p.2) c.

Definition restore_entry (c : cache V) (p : string * ModelEntry) : cache V :=
  let c := with_entries (map_set p.1 p.2 (entries c)) c in
  match type_of_ref (e_model p.2) c with Some modelName => addToTypeIndex p.1 modelName c | None => c end.

Definition dispose_entry (c : cache V) (p : string * ModelEntry) : cache V := dispose_model (e_model p.2) c.

Definition clear (preserveObserved : bool) (c : cache V) : cache V :=
  let preserved := List.filter (keep_entry preserveObserved c) (entries c) in
  let dropped := List.filter (λ p, negb (keep_entry preserveObserved c p)) (entries c) in
  let times := omap (λ p, t ← map_get p.1 (accessTimes c); if t =? 0 then None else Some (p.1, t)) preserved in
  let c := foldl dispose_entry c dropped in
  let c := with_fk ((λ p, (p.1, [])) <$> foreignKeyIndexes c)
             (with_entries [] (with_types [] (with_recent [] (with_earliest None (with_deltas [] c))))) in
  let c := foldl restore_entry c preserved in
  foldl (λ c p, touchAccess p.1 p.2 c) (with_access [] c) times.

Definition is_idle (now : Z) (c : cache V) (p : string * ModelEntry) : bool :=
  match maxAge cfg with
  | Some age => age <? now - default 0 (map_get p.1 (accessTimes c))
  | None => false
  end.

Definition gc (now : Z) (c : cache V) : cache V :=
  let idle := List.filter (is_idle now c) (entries c) in
  let seen p := hasObservedCollections (e_model p.2) c in
  let toRemove := (List.filter (λ p, negb (seen p)) idle).*1 in
  let c := foldl (λ c p, touchAccess p.1 now c) c (List.filter seen idle) in
  cleanupTracking now (clearDeltaHistory now 3600000 (foldl remove_ c toRemove)).

Definition wireAddRetentionLimit (subscribed : string → bool) (modelNames : list string) (c : cache V) : option Z :=
  if existsb (λ m, subscribed m || hasViews m c) modelNames then None
  else Some (Z.max 0 (maxSize cfg - Z.of_nat (length (entries c)))).

(** ** Creating and disposing views *)

(** The indexed foreign key a view with a single string condition uses. *)
Definition view_foreign_key (v : view V) (c : cache V) : option (string * string) :=
  match whereEntries v with
  | Some [(field, Value x)] =>
      value ← js_string x; if hasForeignKeyIndex (v_typename v) field c then Some (field, value) else None
  | _ => None
  end.

Definition createView (typename : string) (o : view_options V) (state : scope) (c : cache V) : cache V :=
  let v := parse_options typename o in
  let candidates := match view_foreign_key v c with
                    | Some (field, value) => if String.eqb value "" then getByTypeName typename state c
                                             else getByForeignKey typename field value c
                    | None => getByTypeName typename state c
                    end in
  let c' := with_views (views c ++ [initialScan (heap c) candidates v]) c in
  register typename (length (views c)) c'.

Definition disposeView (k : nat) (c : cache V) : cache V :=
  match views c !! k with
  | Some v => if v_disposed v then c else unregister (v_typename v) k (with_views (alter dispose_view k (views c)) c)
  | None => c
  end.

(** ** Inputs *)

(** [Construct] builds an instance; [Assign] writes fields of one in place. *)
Inductive cache_input :=
  | Construct (o : instance V)
  | Assign (r : nat) (data : list (string * field_value V))
  | Add (r : nat) (s : scope) (deltaInfo : option DeltaInfo)
  | AddBatch (models : list nat) (s : scope)
  | Upsert (r : nat) (s : scope)
  | UpsertBatch (models : list nat) (s : scope)
  | CreateFromData (id modelName : string) (data : list (string * field_value V)) (fresh : instance V)
  | Remove (id : string)
  | RemoveBatch (ids : list string)
  | RemoveFromArchive (id : string)
  | UpdateScope (id : string) (s : scope)
  | Get (id : string)
  | Observe (r : nat)
  | Gc
  | Clear (preserveObserved : bool)
  | RegisterForeignKey (modelName fieldName : string)
  | CreateView (typename : string) (o : view_options V) (state : scope)
  | DisposeView (k : nat).

Definition cache_step (now : Z) (c : cache V) (i : cache_input) : cache V :=
  match i with
  | Construct o => with_heap (heap c ++ [o]) c
  | Assign r data => updateFromData r data c
  | Add r s d => add now r s d c
  | AddBatch models s => addBatch now models s c
  | Upsert r s => upsert now r s c
  | UpsertBatch models s => upsertBatch now models s c
  | CreateFromData id modelName data fresh => (createFromData now id modelName data fresh c).2
  | Remove id => remove_ c id
  | RemoveBatch ids => removeBatch ids c
  | RemoveFromArchive id => removeFromArchive id c
  | UpdateScope id s => updateScope now id s c
  | Get id => (get now id c).2
  | Observe r => with_observed (r :: observed c) c
  | Gc => gc now c
  | Clear preserveObserved => clear preserveObserved c
  | RegisterForeignKey modelName fieldName => registerForeignKey modelName fieldName c
  | CreateView typename o state => createView typename o state c
  | DisposeView k => disposeView k c
  end.
End Ops.
End Cache.
Arguments cache_input V : clear implicits.
