(* ===== verification/CacheFacts.v ===== *)
(** * What the instance cache keeps

    The invariant of [InstanceCache.v] under every operation, and what its reads return. *)
From S2P Require Import Prelude JsData MutationQueue Views InstanceCache.
#[local] Open Scope Z_scope.

Section Facts.
Context {V : Type} `{JsColumn V}.
Context (kind : string → string).
Implicit Types (c : cache V) (o : instance V) (r : nat) (id T : string).

(** ** The invariant *)

(** Every instance has the one type of its id; an entry holds an instance of its id;
    the type index lists the entries of each type, once. *)
Record cache_ok c : Prop := {
  co_kind : ∀ r o, heap c !! r = Some o → i_type o = kind (i_id o);
  co_keys : NoDup (entries c).*1;
  co_model : ∀ id e, map_get id (entries c) = Some e → ∃ o, heap c !! e_model e = Some o ∧ i_id o = id;
  co_types : ∀ T id, id ∈ default [] (map_get T (typeIndex c)) ↔ is_Some (map_get id (entries c)) ∧ kind id = T;
  co_distinct : ∀ T, NoDup (default [] (map_get T (typeIndex c)));
  co_access : NoDup (accessTimes c).*1;
}.

Definition core c := (heap c, entries c, typeIndex c, accessTimes c).

Lemma cache_ok_core c c' : core c' = core c → cache_ok c → cache_ok c'.
Proof. unfold core. intros [= E1 E2 E3 E4] [A B C D E F]. split; rewrite ?E1, ?E2, ?E3, ?E4; done. Qed.

(** The foreign-key index and the views are beside the core. *)
Lemma fold_core {A} (f : cache V → A → cache V) l c : (∀ c x, core (f c x) = core c) → core (foldl f c l) = core c.
Proof. intros Hf. revert c. induction l as [|x l IH]; intros c; [done|]. simpl. by rewrite IH. Qed.

Lemma notify_core T f c : core (notify T f c) = core c.
Proof. by apply fold_core. Qed.
Lemma notify_heap T f c : heap (notify T f c) = heap c.
Proof. pose proof (notify_core T f c). unfold core in *. congruence. Qed.
Lemma notify_entries T f c : entries (notify T f c) = entries c.
Proof. pose proof (notify_core T f c). unfold core in *. congruence. Qed.
Lemma add_fk_core id o T c : core (addToForeignKeyIndex id o T c) = core c.
Proof. apply fold_core. intros c' f. by repeat case_match. Qed.
Lemma remove_fk_core id T c : core (removeFromForeignKeyIndex id T c) = core c.
Proof. unfold removeFromForeignKeyIndex. case_match; [|done]. apply fold_core. intros c' f. by repeat case_match. Qed.

Lemma map_delete_nodup {A} k (m : list (string * A)) : NoDup m.*1 → NoDup (map_delete k m).*1.
Proof. intros Hm. rewrite map_delete_keys. by apply NoDup_filter. Qed.

Lemma touch_ok id t c : cache_ok c → cache_ok (touchAccess id t c).
Proof.
  intros [A B C D E F]. split; try done. simpl. rewrite fmap_app. apply NoDup_app.
  split_and!; [by apply map_delete_nodup| |apply NoDup_singleton].
  intros x Hx ->%list_elem_of_singleton. rewrite map_delete_keys, list_elem_of_filter in Hx. tauto.
Qed.

Lemma ensure_type_ok T c : cache_ok c → cache_ok (ensure_type T c).
Proof.
  intros Hc. unfold ensure_type. destruct (map_get T (typeIndex c)) eqn:HT; [done|]. destruct Hc as [A B C D E F].
  split; try done; simpl.
  - intros T' id. rewrite map_get_set. case_decide; [subst; rewrite <- D, HT; done|apply D].
  - intros T'. rewrite map_get_set. case_decide; [apply NoDup_nil_2|apply E].
Qed.

(** The same entries with other scopes. *)
Lemma rescope_ok now id e s c :
  cache_ok c → map_get id (entries c) = Some e → cache_ok (rescope now id e s c).
Proof.
  intros Hc He. unfold rescope. case_bool_decide; [done|]. apply touch_ok. destruct Hc as [A B C D E F]. split; try done; simpl.
  - by apply NoDup_set_keys.
  - intros id' e'. rewrite map_get_set. case_decide; [subst; intros [= <-]; exact (C id e He)|apply C].
  - intros T id'. rewrite map_get_set, D. case_decide; [subst; rewrite He|done]. split; (intros [_ HT]; split; [by eexists|done]).
Qed.

(** The core of an instance put into the cache. *)
Lemma type_index_core id T c :
  core (addToTypeIndex id T c)
  = core (with_types (map_set T (set_add id (default [] (map_get T (typeIndex c)))) (typeIndex c)) c).
Proof. unfold addToTypeIndex. case_match; [apply add_fk_core|done]. Qed.

Lemma put_entry_ok id T r o s c :
  cache_ok c → heap c !! r = Some o → i_id o = id → T = i_type o →
  cache_ok (addToTypeIndex id T (with_entries (map_set id (mkEntry r s) (entries c)) c)).
Proof.
  intros Hc Hr Hid ->. eapply cache_ok_core; [apply type_index_core|]. pose proof (co_kind c Hc r o Hr) as Hk.
  destruct Hc as [A B C D E F]. split; try done; simpl.
  - by apply NoDup_set_keys.
  - intros id' e'. rewrite map_get_set. case_decide; [subst; intros [= <-]; by exists o|apply C].
  - intros T id'. rewrite !map_get_set. destruct (decide (T = i_type o)) as [->|HT]; simpl.
    + rewrite elem_set_add, D. destruct (decide (id' = id)) as [->|Hne].
      * split; [intros _; split; [by eexists|by rewrite Hk, Hid]|by right].
      * split; [by intros [?|?]|by left].
    + rewrite D. destruct (decide (id' = id)) as [->|Hne]; [|done].
      split; [intros [_ Hkind]|intros [_ Hkind]]; exfalso; apply HT; rewrite Hk, Hid; done.
  - intros T. rewrite map_get_set. case_decide; simpl; [by apply NoDup_set_add|apply E].
Qed.

Lemma insert_entry_ok now id T r o s c :
  cache_ok c → heap c !! r = Some o → i_id o = id → T = i_type o → cache_ok (insert_entry now id T r s c).
Proof.
  intros Hc Hr Hid HT. unfold insert_entry, notifyAdded. eapply cache_ok_core; [apply notify_core|].
  apply (put_entry_ok id T r o s (touchAccess id now c)); [by apply touch_ok|done..].
Qed.

(** Removing *)
Lemma remove_index_core id T c :
  core (removeFromTypeIndex id T c)
  = core (with_types match map_get T (typeIndex c) with
                     | Some ids => match set_remove id ids with [] => map_delete T (typeIndex c)
                                   | l => map_set T l (typeIndex c) end
                     | None => typeIndex c end c).
Proof.
  unfold removeFromTypeIndex. pose proof (remove_fk_core id T c) as Hc. revert Hc.
  generalize (removeFromForeignKeyIndex id T c). unfold core. intros c' [= E1 E2 E3 E4].
  rewrite E3. destruct (map_get T (typeIndex c)) as [l|]; simpl; rewrite ?E1, ?E2, ?E3, ?E4; [|done]. by destruct (set_remove id l).
Qed.

Lemma remove_core id c :
  (remove id c).1 = false ∧ (remove id c).2 = c
  ∨ ∃ e o, map_get id (entries c) = Some e ∧ heap c !! e_model e = Some o ∧ (remove id c).1 = true
      ∧ core (remove id c).2
        = core (with_access (map_delete id (accessTimes c)) (with_entries (map_delete id (entries c))
            (removeFromTypeIndex id (i_type o) c))).
Proof.
  unfold remove. destruct (map_get id (entries c)) as [e|]; [|by left].
  destruct (model_at (e_model e) c) as [o|] eqn:Ho; [|by left]. right. exists e, o. split_and!; [done..|].
  pose proof (remove_index_core id (i_type o) c) as Hi. set (c1 := removeFromTypeIndex id (i_type o) c) in *.
  pose proof (notify_core (i_type o) (handleRemoved (heap (with_entries (map_delete id (entries c1)) c1)) id)
    (with_entries (map_delete id (entries c1)) c1)) as Hn.
  unfold notifyRemoved in *. unfold core in *. cbn in *. injection Hn as E1 E2 E3 E4. injection Hi as F1 F2 F3 F4.
  rewrite E1, E2, E3, E4, F2, F4. done.
Qed.

Lemma remove_ok id c : cache_ok c → cache_ok (remove id c).2.
Proof.
  intros Hc. destruct (remove_core id c) as [[_ ->]|(e & o & He & Ho & _ & Hcore)]; [done|].
  eapply cache_ok_core; [exact Hcore|]. pose proof (remove_index_core id (i_type o) c) as Hi.
  set (c1 := removeFromTypeIndex id (i_type o) c) in *. unfold core in Hi. cbn in Hi. injection Hi as F1 F2 F3 F4.
  pose proof (co_kind c Hc _ o Ho) as Hk. destruct (co_model c Hc id e He) as (o' & Ho' & Hid).
  assert (o' = o) as -> by congruence. destruct Hc as [A B C D E F].
  assert (Hget : ∀ T, default [] (map_get T (typeIndex c1))
     = if decide (T = i_type o) then set_remove id (default [] (map_get T (typeIndex c))) else default [] (map_get T (typeIndex c))).
  { intros T. rewrite F3. destruct (decide (T = i_type o)) as [->|HT].
    - destruct (map_get (i_type o) (typeIndex c)) as [l|] eqn:HT; [|by rewrite HT]. simpl.
      destruct (set_remove id l) eqn:Hl; [by rewrite map_get_delete, decide_True|by rewrite map_get_set, decide_True].
    - destruct (map_get (i_type o) (typeIndex c)) as [l|] eqn:Hl; [|done].
      destruct (set_remove id l); [by rewrite map_get_delete, decide_False|by rewrite map_get_set, decide_False]. }
  split; cbn [heap entries typeIndex accessTimes with_access with_entries].
  - rewrite F1. exact A.
  - by apply map_delete_nodup.
  - intros id' e'. rewrite map_get_delete, F1. case_decide; [done|apply C].
  - intros T id'. rewrite Hget, map_get_delete. case_decide as HT; [subst T; rewrite elem_set_remove|]; rewrite D.
    + case_decide; [subst id'; split; [tauto|by intros [[? ?] _]]|tauto].
    + case_decide; [subst id'|done]. split; [intros [_ Hkind]; exfalso; apply HT; congruence|by intros [[? ?] _]].
  - intros T. rewrite Hget. case_decide; [by apply NoDup_filter|apply E].
  - by apply map_delete_nodup.
Qed.

Lemma remove_all_ok ids c : cache_ok c → cache_ok (foldl remove_ c ids).
Proof. revert c. induction ids as [|id ids IH]; intros c Hc; [done|]. by apply IH, remove_ok. Qed.

Lemma access_filter_ok (P : string * Z → Prop) `{∀ p, Decision (P p)} c :
  cache_ok c → cache_ok (with_access (base.filter P (accessTimes c)) c).
Proof.
  intros [A B C D E F]. split; try done. simpl. clear -F. induction (accessTimes c) as [|p l IH]; [by apply NoDup_nil_2|].
  rewrite fmap_cons in F. apply NoDup_cons in F as [Hp F]. rewrite filter_cons. case_decide; [|by apply IH].
  rewrite fmap_cons. apply NoDup_cons. split; [|by apply IH]. intros Hin. apply Hp.
  apply list_elem_of_fmap in Hin as (q & -> & Hq). apply list_elem_of_filter in Hq as [_ Hq]. by apply list_elem_of_fmap_2.
Qed.

Lemma evict_ok n c : cache_ok c → cache_ok (evictOldestBatch n c).
Proof.
  intros Hc. unfold evictOldestBatch. destruct (n <=? 0); [done|]. destruct (evict_scan _ _ _ _ c) as [toEvict stale].
  apply remove_all_ok. by apply access_filter_ok.
Qed.

(** ** Every operation *)

Lemma cleanup_core now c : core (cleanupTracking now c) = core c.
Proof. unfold cleanupTracking. by case_match. Qed.

Lemma track_core now key c : core (track_addition now key c) = core c.
Proof. unfold track_addition. case_match; [by rewrite cleanup_core|done]. Qed.

Lemma resident_entry id e c : resident id c = Some e → map_get id (entries c) = Some e ∧ e_model e ∉ disposed c.
Proof.
  unfold resident, is_disposed. destruct (map_get id (entries c)) as [e'|]; simpl; [|done].
  case_bool_decide; [done|]. by intros [= ->].
Qed.

Context (cfg : pool_config).

Lemma room_ok c : cache_ok c → cache_ok (make_room cfg c).
Proof. intros Hc. unfold make_room. case_match; [by apply evict_ok|done]. Qed.

(** Evictions and index changes leave the heap. *)
Lemma remove_heap id c : heap (remove id c).2 = heap c.
Proof.
  destruct (remove_core id c) as [[_ ->]|(e & o & _ & _ & _ & Hcore)]; [done|].
  pose proof (remove_index_core id (i_type o) c) as Hi. unfold core in *. cbn in *. congruence.
Qed.

Lemma remove_all_heap ids c : heap (foldl remove_ c ids) = heap c.
Proof. revert c. induction ids as [|id ids IH]; intros c; [done|]. simpl. rewrite IH. apply remove_heap. Qed.

Lemma evict_heap n c : heap (evictOldestBatch n c) = heap c.
Proof.
  unfold evictOldestBatch. destruct (n <=? 0); [done|]. destruct (evict_scan _ _ _ _ c) as [toEvict stale].
  by rewrite remove_all_heap.
Qed.

Lemma room_heap c : heap (make_room cfg c) = heap c.
Proof. unfold make_room. case_match; [apply evict_heap|done]. Qed.

Lemma core_heap c c' : core c' = core c → heap c' = heap c.
Proof. unfold core. congruence. Qed.

Lemma insert_heap now id T r s c : heap (insert_entry now id T r s c) = heap c.
Proof. unfold insert_entry, notifyAdded. rewrite (core_heap _ _ (notify_core _ _ _)), (core_heap _ _ (type_index_core _ _ _)). done. Qed.

Lemma rescope_heap now id e s c : heap (rescope now id e s c) = heap c.
Proof. unfold rescope. by case_match. Qed.

Lemma ensure_heap T c : heap (ensure_type T c) = heap c.
Proof. unfold ensure_type. by case_match. Qed.

Lemma add_fresh_ok now r o s d c : cache_ok c → heap c !! r = Some o → cache_ok (add_fresh cfg now r o s d c).
Proof.
  intros Hc Hr. unfold add_fresh. destruct (added_recently _ _ c); [done|].
  assert (Hgo : ∀ c', cache_ok c' → heap c' = heap c →
    cache_ok (insert_entry now (i_id o) (i_type o) r s (make_room cfg (track_addition now (add_key (i_type o) (i_id o)) c')))).
  { intros c' Hc' Hh. pose proof (track_core now (add_key (i_type o) (i_id o)) c') as Ht.
    apply (insert_entry_ok _ _ _ _ o); [|by rewrite room_heap, (core_heap _ _ Ht), Hh|done|done].
    apply room_ok. by apply (cache_ok_core _ _ Ht). }
  destruct (delta_position d) as [[d' n]|]; [|by apply Hgo]. destruct (already_applied _ n c); [done|].
  apply Hgo; [by apply (cache_ok_core c)|done].
Qed.

Lemma add_ok now r s d c : cache_ok c → cache_ok (add cfg now r s d c).
Proof.
  intros Hc. unfold add, model_at. destruct (heap c !! r) as [o|] eqn:Hr; [|done].
  pose proof (ensure_type_ok (i_type o) c Hc) as Hc1. destruct (resident (i_id o) _) as [e|] eqn:He.
  - apply resident_entry in He as [He _]. by apply rescope_ok.
  - apply add_fresh_ok; [done|]. by rewrite ensure_heap.
Qed.

Context (toJSON : instance V → list (string * field_value V)) (readonly : string → string → bool) (newDate : V → V).

Lemma assign_field_id o key raw :
  i_id (assignField readonly newDate o key raw) = i_id o ∧ i_type (assignField readonly newDate o key raw) = i_type o.
Proof. unfold assignField. by repeat case_match. Qed.

Lemma assign_fields_id data o :
  i_id (assignFieldsFromData readonly newDate data o) = i_id o ∧ i_type (assignFieldsFromData readonly newDate data o) = i_type o.
Proof.
  unfold assignFieldsFromData. revert o. induction data as [|[key raw] data IH]; intros o; [done|]. simpl.
  destruct (IH (assignField readonly newDate o key raw)) as [-> ->]. apply assign_field_id.
Qed.

Lemma assign_lookup r data c r' :
  heap (updateFromData readonly newDate r data c) !! r'
  = if decide (r' = r) then assignFieldsFromData readonly newDate data <$> heap c !! r else heap c !! r'.
Proof.
  unfold updateFromData. simpl. rewrite list_lookup_alter. by repeat case_decide; subst.
Qed.

Lemma assign_ok r data c : cache_ok c → cache_ok (updateFromData readonly newDate r data c).
Proof.
  intros [A B C D E F]. split; try done.
  - intros r' o. rewrite assign_lookup. case_decide; [|apply A]. intros (o' & Ho' & ->)%fmap_Some.
    destruct (assign_fields_id data o') as [-> ->]. by eapply A.
  - intros id e He. destruct (C id e He) as (o & Ho & Hid). rewrite assign_lookup. case_decide as Hr.
    + subst r. rewrite Ho. eexists. split; [done|]. by rewrite (proj1 (assign_fields_id data o)).
    + by exists o.
Qed.

Lemma update_resident_ok now id e r o s c :
  cache_ok c → map_get id (entries c) = Some e → cache_ok (update_resident toJSON readonly newDate now id e r o s c).
Proof.
  intros Hc He. unfold update_resident. set (c1 := if bool_decide _ then c else _).
  assert (Hc1 : cache_ok c1 ∧ entries c1 = entries c) by (unfold c1; case_match; [done|split; [by apply assign_ok|done]]).
  destruct Hc1 as [Hc1 He1]. assert (Hc2 : cache_ok (rescope now id e s c1)) by (apply rescope_ok; [done|by rewrite He1]).
  case_match; [|done]. unfold notifyUpdated. eapply cache_ok_core; [apply notify_core|done].
Qed.

Lemma upsert_ok now r s c : cache_ok c → cache_ok (upsert cfg toJSON readonly newDate now r s c).
Proof.
  intros Hc. unfold upsert. destruct (model_at r c) as [o|]; [|done].
  destruct (resident (i_id o) c) as [e|] eqn:He; [|by apply add_ok]. apply resident_entry in He as [He _].
  by apply update_resident_ok.
Qed.

Lemma upsert_one_ok now s r c : cache_ok c → cache_ok (upsert_one cfg toJSON readonly newDate now s c r).
Proof.
  intros Hc. unfold upsert_one, model_at. destruct (heap c !! r) as [o|] eqn:Hr; [|done].
  destruct (resident (i_id o) c) as [e|] eqn:He.
  - apply resident_entry in He as [He _]. by apply update_resident_ok.
  - apply (insert_entry_ok _ _ _ _ o); [|by rewrite room_heap, ensure_heap|done|done]. by apply room_ok, ensure_type_ok.
Qed.

Lemma add_one_ok now s r c : cache_ok c → cache_ok (add_one now s c r).
Proof.
  intros Hc. unfold add_one, model_at. destruct (heap c !! r) as [o|] eqn:Hr; [|done].
  pose proof (ensure_type_ok (i_type o) c Hc) as Hc1. destruct (resident (i_id o) _) as [e|] eqn:He.
  - apply resident_entry in He as [He _]. by apply rescope_ok.
  - apply (insert_entry_ok _ _ _ _ o); [done|by rewrite ensure_heap|done|done].
Qed.

Lemma fold_ok {A} (f : cache V → A → cache V) l c :
  (∀ c x, cache_ok c → cache_ok (f c x)) → cache_ok c → cache_ok (foldl f c l).
Proof. intros Hf. revert c. induction l as [|x l IH]; intros c Hc; [done|]. simpl. auto. Qed.

Lemma construct_ok o c : cache_ok c → i_type o = kind (i_id o) → cache_ok (with_heap (heap c ++ [o]) c).
Proof.
  intros [A B C D E F] Ho. split; try done; simpl.
  - intros r o' Hr. apply lookup_app_Some in Hr as [Hr|[_ Hr]]; [by eapply A|].
    by apply list_lookup_singleton_Some in Hr as [_ <-].
  - intros id e He. destruct (C id e He) as (o' & Ho' & Hid). exists o'. split; [|done]. by apply lookup_app_l_Some.
Qed.

Lemma clear_ok b c : cache_ok c → cache_ok (clear b c).
Proof.
  intros Hc. unfold clear. set (preserved := List.filter (keep_entry b c) (entries c)).
  set (dropped := List.filter (λ p, negb (keep_entry b c p)) (entries c)). set (times := omap _ preserved).
  set (c1 := foldl dispose_entry c dropped).
  assert (H1 : core c1 = core c) by (apply fold_core; done).
  assert (Hh1 : heap c1 = heap c) by by apply core_heap.
  set (c2 := with_fk _ _).
  assert (Hc2 : cache_ok c2).
  { destruct Hc as [A B C D E F]. unfold core in H1. injection H1 as E1 E2 E3 E4. split; simpl; rewrite ?E1, ?E4; try done.
    - apply NoDup_nil_2.
    - intros T id. split; [by intros ?%elem_of_nil|by intros [[? ?] _]].
    - intros T. apply NoDup_nil_2. }
  assert (Hpres : ∀ p, p ∈ preserved → ∃ o, heap c !! e_model p.2 = Some o ∧ i_id o = p.1).
  { intros [id e] Hp. apply list_elem_of_In, List.filter_In in Hp as [Hp%list_elem_of_In _].
    apply (map_get_spec _ _ _ (co_keys c Hc)) in Hp. by apply (co_model c Hc). }
  assert (Hrest : ∀ l c', (∀ p, p ∈ l → ∃ o, heap c !! e_model p.2 = Some o ∧ i_id o = p.1) →
      heap c' = heap c → cache_ok c' → cache_ok (foldl restore_entry c' l) ∧ heap (foldl restore_entry c' l) = heap c).
  { induction l as [|p l IH]; intros c' Hl Hh Hc'; [done|]. simpl. destruct (Hl p) as (o & Ho & Hid); [left|].
    apply IH; [intros q Hq; apply Hl; by right|..].
    - unfold restore_entry. unfold type_of_ref, model_at. simpl. rewrite Hh, Ho. simpl.
      by rewrite (core_heap _ _ (type_index_core _ _ _)).
    - unfold restore_entry, type_of_ref, model_at. simpl. rewrite Hh, Ho. simpl.
      replace p.2 with (mkEntry (e_model p.2) (e_scope p.2)) by (by destruct p.2).
      apply (put_entry_ok p.1 (i_type o) (e_model p.2) o (e_scope p.2)); [done|by rewrite Hh|done|done]. }
  destruct (Hrest preserved c2 Hpres Hh1 Hc2) as [Hc3 _].
  apply fold_ok; [intros c' p; by apply touch_ok|]. destruct Hc3 as [A B C D E F]. split; try done. apply NoDup_nil_2.
Qed.

Lemma gc_ok now c : cache_ok c → cache_ok (gc cfg now c).
Proof.
  intros Hc. unfold gc. eapply cache_ok_core; [apply cleanup_core|]. eapply (cache_ok_core); [by instantiate (1 := foldl remove_ _ _)|].
  apply remove_all_ok. apply fold_ok; [intros c' p; by apply touch_ok|done].
Qed.

Lemma create_ok now id modelName data fresh c :
  cache_ok c → i_type fresh = kind (i_id fresh) →
  cache_ok (createFromData readonly newDate now id modelName data fresh c).2.
Proof.
  intros Hc Hf. unfold createFromData, getOfType, get. destruct (is_Some_b _); [|by apply construct_ok].
  destruct (resident id c) as [e|]; simpl; [|by apply construct_ok].
  case_bool_decide; simpl; [by apply assign_ok, touch_ok|].
  apply (construct_ok fresh (touchAccess id now c)); [by apply touch_ok|done].
Qed.

Lemma register_fk_core T f c : core (registerForeignKey T f c) = core c.
Proof. unfold registerForeignKey. by repeat case_match. Qed.

(** The one type of an id: the premise of the id space. *)
Definition input_kind (i : cache_input V) : Prop :=
  match i with
  | Construct o | CreateFromData _ _ _ o => i_type o = kind (i_id o)
  | _ => True
  end.

Lemma cache_ok_step now i c :
  cache_ok c → input_kind i → cache_ok (cache_step cfg toJSON readonly newDate now c i).
Proof.
  intros Hc Hi. destruct i; simpl in *.
  - by apply construct_ok.
  - by apply assign_ok.
  - by apply add_ok.
  - unfold addBatch. destruct models as [|r models]; [done|]. apply fold_ok; [intros; by apply add_one_ok|].
    case_match; [by apply evict_ok|done].
  - by apply upsert_ok.
  - unfold upsertBatch. apply fold_ok; [intros; by apply upsert_one_ok|done].
  - by apply create_ok.
  - by apply remove_ok.
  - by apply remove_all_ok.
  - unfold removeFromArchive. repeat case_match; try done. by apply remove_ok.
  - unfold updateScope. destruct (map_get id (entries c)) eqn:He; [by apply rescope_ok|done].
  - unfold get. destruct (resident id c); [by apply touch_ok|done].
  - by apply (cache_ok_core c).
  - by apply gc_ok.
  - by apply clear_ok.
  - by apply (cache_ok_core c), Hc; apply register_fk_core.
  - by apply (cache_ok_core c).
  - unfold disposeView. repeat case_match; try done. unfold unregister. by case_match; apply (cache_ok_core c).
Qed.

Inductive cache_reach : cache V → Prop :=
  | cache_start : cache_reach new_cache
  | cache_next c now i : cache_reach c → input_kind i → cache_reach (cache_step cfg toJSON readonly newDate now c i).

Lemma cache_reach_ok c : cache_reach c → cache_ok c.
Proof.
  induction 1; [|by apply cache_ok_step]. split; simpl; try done; try apply NoDup_nil_2.
  - intros T id. split; [by intros ?%elem_of_nil|by intros [[? ?] _]].
  - intros T. apply NoDup_nil_2.
Qed.

(** What [getByTypeName] returns. *)
Lemma by_type_elem T s r c :
  cache_ok c →
  r ∈ getByTypeName T s c ↔
  ∃ id e, resident id c = Some e ∧ kind id = T ∧ matchesScope (e_scope e) s = true ∧ e_model e = r.
Proof.
  intros Hc. unfold getByTypeName, collect. rewrite list_elem_of_omap. split.
  - intros (id & Hin & Hb). apply (co_types c Hc) in Hin as [_ HT]. destruct (resident id c) as [e|] eqn:He; [|done].
    simpl in Hb. destruct (matchesScope (e_scope e) s) eqn:Hs; [|done]. injection Hb as <-. by exists id, e.
  - intros (id & e & He & HT & Hs & <-). exists id. rewrite He. simpl. rewrite Hs. split; [|done].
    apply (co_types c Hc). split; [|done]. apply resident_entry in He as [-> _]. by eexists.
Qed.

(** Two entries with one instance are one entry. *)
Lemma entry_inj id id' e e' c :
  cache_ok c → map_get id (entries c) = Some e → map_get id' (entries c) = Some e' → e_model e = e_model e' → id = id'.
Proof.
  intros Hc He He' Heq. destruct (co_model c Hc _ _ He) as (o & Ho & <-), (co_model c Hc _ _ He') as (o' & Ho' & <-). congruence.
Qed.

Lemma by_type_nodup T s c : cache_ok c → NoDup (getByTypeName T s c).
Proof.
  intros Hc. unfold getByTypeName, collect.
  assert (Hinj : ∀ id id' r, (e ← resident id c; if matchesScope (e_scope e) s then Some (e_model e) else None) = Some r →
    (e ← resident id' c; if matchesScope (e_scope e) s then Some (e_model e) else None) = Some r → id = id').
  { intros id id' r. destruct (resident id c) as [e|] eqn:He, (resident id' c) as [e'|] eqn:He'; simpl; try done.
    do 2 (case_match; [|done]). intros [= <-] [= Heq]. apply resident_entry in He as [He _], He' as [He' _].
    by apply (entry_inj _ _ e e' c). }
  pose proof (co_distinct c Hc T) as Hn. induction Hn as [|id l Hid Hn IH]; simpl; [apply NoDup_nil_2|].
  case_match eqn:Hr; [|done]. apply NoDup_cons. split; [|done]. intros (id' & Hin & Hr')%list_elem_of_omap.
  by rewrite (Hinj id id' _ Hr Hr') in Hid.
Qed.

(** C13: the cache is well formed after any operations: an entry holds the instance that
    carries its id, no id has two entries, and the type index lists under each model
    exactly the entries of that model, each once, given only that an id belongs to one
    model (without it the index goes wrong). In particular the rows of a type that are
    resident in a scope are exactly what [getByTypeName] returns. *)
Theorem cache_stays_well_formed c :
  cache_reach c →
  NoDup (entries c).*1
  ∧ (∀ id e, map_get id (entries c) = Some e → ∃ o, heap c !! e_model e = Some o ∧ i_id o = id ∧ i_type o = kind id)
  ∧ (∀ T id, id ∈ default [] (map_get T (typeIndex c)) ↔ is_Some (map_get id (entries c)) ∧ kind id = T)
  ∧ (∀ T s r, r ∈ getByTypeName T s c ↔
       ∃ id e, resident id c = Some e ∧ kind id = T ∧ matchesScope (e_scope e) s = true ∧ e_model e = r)
  ∧ (∀ T s, NoDup (getByTypeName T s c)).
Proof.
  intros Hc%cache_reach_ok. split_and!; [apply Hc| |apply Hc|..].
  - intros id e He. destruct (co_model c Hc id e He) as (o & Ho & <-). exists o. split_and!; [done..|]. by eapply co_kind.
  - intros T s r. by apply by_type_elem.
  - intros T s. by apply by_type_nodup.
Qed.
End Facts.
