(* ===== verification/CacheViews.v ===== *)
(** * The views of the instance cache

    Every registered view of [InstanceCache.v] holds exactly the rows its query asks
    for, as long as each change of a row is notified before the next and every row is
    live. [steady] is the relation of such runs; what happens outside it is in
    [CacheRuns.v]. *)
From S2P Require Import Prelude JsData MutationQueue Views InstanceCache CacheFacts.
#[local] Open Scope Z_scope.

Section CacheViews.
Context {V : Type} `{JsColumn V}.
Context (cfg : pool_config) (toJSON : instance V → list (string * field_value V)) (readonly : string → string → bool)
  (newDate : V → V) (kind : string → string).
Implicit Types (c : cache V) (o : instance V) (r : nat) (id T : string) (v : view V).

(** The rows of a type, in the order of the entries. *)
Definition refs T (l : list (string * ModelEntry)) : list nat := (λ p, e_model p.2) <$> base.filter (λ p, kind p.1 = T) l.
Definition rows T c : list nat := refs T (entries c).

(** Every registered view stands for its query over the rows [R]. *)
Definition views_for (h : list (instance V)) (R : string → list nat) c : Prop :=
  ∀ T, NoDup (default [] (map_get T (registered c)))
    ∧ ∀ k, k ∈ default [] (map_get T (registered c)) →
        ∃ v, views c !! k = Some v ∧ v_typename v = T ∧ v_disposed v = false ∧ view_ok h (R T) v.

Definition all_live c : Prop := ∀ id e, map_get id (entries c) = Some e → e_scope e = LiveScope ∧ e_model e ∉ disposed c.

(** A view is registered until it is disposed. *)
Definition views_listed c : Prop :=
  ∀ k v, views c !! k = Some v → v_disposed v = false → k ∈ default [] (map_get (v_typename v) (registered c)).

Record good c : Prop := {
  g_ok : cache_ok kind c;
  g_views : views_for (heap c) (λ T, rows T c) c;
  g_live : all_live c;
  g_listed : views_listed c;
}.

(** What [good] looks at besides the invariant of the cache. *)
Definition shown c := (heap c, disposed c, entries c, registered c, views c).

Lemma good_shown c c' : shown c' = shown c → cache_ok kind c' → good c → good c'.
Proof.
  unfold shown. intros [= E1 E2 E3 E4 E5] Hc [_ B C D]. split; [done|..].
  - unfold views_for, rows in *. by rewrite E1, E3, E4, E5.
  - unfold all_live in *. by rewrite E2, E3.
  - unfold views_listed in *. by rewrite E4, E5.
Qed.

Lemma fold_shown {A} (f : cache V → A → cache V) l c : (∀ c x, shown (f c x) = shown c) → shown (foldl f c l) = shown c.
Proof. intros Hf. revert c. induction l as [|x l IH]; intros c; [done|]. simpl. by rewrite IH. Qed.

Lemma add_fk_shown id o T c : shown (addToForeignKeyIndex id o T c) = shown c.
Proof. apply fold_shown. intros c' f. by repeat case_match. Qed.
Lemma remove_fk_shown id T c : shown (removeFromForeignKeyIndex id T c) = shown c.
Proof. unfold removeFromForeignKeyIndex. case_match; [|done]. apply fold_shown. intros c' f. by repeat case_match. Qed.
Lemma add_type_shown id T c : shown (addToTypeIndex id T c) = shown c.
Proof. unfold addToTypeIndex. case_match; [by rewrite add_fk_shown|done]. Qed.
Lemma remove_type_shown id T c : shown (removeFromTypeIndex id T c) = shown c.
Proof. unfold removeFromTypeIndex. case_match; [|apply remove_fk_shown]. rewrite <- (remove_fk_shown id T c). done. Qed.
Lemma ensure_type_shown T c : shown (ensure_type T c) = shown c.
Proof. unfold ensure_type. by case_match. Qed.
Lemma cleanup_shown now c : shown (cleanupTracking now c) = shown c.
Proof. unfold cleanupTracking. by case_match. Qed.
Lemma track_shown now key c : shown (track_addition now key c) = shown c.
Proof. unfold track_addition. case_match; [by rewrite cleanup_shown|done]. Qed.

(** ** Notifying *)

Lemma notify_views T f c :
  registered (notify T f c) = registered c ∧ disposed (notify T f c) = disposed c
  ∧ (NoDup (default [] (map_get T (registered c))) → ∀ k, views (notify T f c) !! k
       = if decide (k ∈ default [] (map_get T (registered c))) then f <$> views c !! k else views c !! k).
Proof.
  unfold notify. generalize (default [] (map_get T (registered c))). intros ks.
  assert (Hfold : ∀ ks c, registered (foldl (λ c k, with_views (alter f k (views c)) c) c ks) = registered c
    ∧ disposed (foldl (λ c k, with_views (alter f k (views c)) c) c ks) = disposed c
    ∧ (NoDup ks → ∀ k, views (foldl (λ c k, with_views (alter f k (views c)) c) c ks) !! k
         = if decide (k ∈ ks) then f <$> views c !! k else views c !! k)).
  { clear. intros ks. induction ks as [|k0 ks IH]; intros c; cbn [foldl].
    - split_and!; [done|done|]. intros _ k. rewrite decide_False; [done|]. by intros ?%elem_of_nil.
    - destruct (IH (with_views (alter f k0 (views c)) c)) as (-> & -> & Hv). split_and!; [done|done|].
      intros [Hk0 Hn]%NoDup_cons k. rewrite (Hv Hn). simpl. rewrite list_lookup_alter.
      repeat case_decide; subst; try done; set_solver. }
  apply Hfold.
Qed.

Lemma notify_listed h R T f c :
  views_for h R c → (∀ v, v_typename (f v) = v_typename v ∧ v_disposed (f v) = v_disposed v) →
  views_listed c → views_listed (notify T f c).
Proof.
  intros Hv Hf Hl k v. destruct (notify_views T f c) as (-> & _ & Hlook). rewrite Hlook by apply Hv.
  case_decide; [|apply Hl]. intros (v' & Hv' & ->)%fmap_Some. destruct (Hf v') as [-> ->]. by apply Hl.
Qed.

(** The views of one type changed by [f], the others as they were. *)
Lemma notify_good h R c T f :
  views_for h R c →
  (∀ v, v_typename (f v) = v_typename v ∧ v_disposed (f v) = v_disposed v) →
  (∀ v, v_disposed v = false → view_ok h (R T) v → view_ok (heap c) (rows T c) (f v)) →
  (∀ T' v, T' ≠ T → view_ok h (R T') v → view_ok (heap c) (rows T' c) v) →
  views_for (heap c) (λ T, rows T c) (notify T f c).
Proof.
  intros Hv Hf HT Hother. destruct (notify_views T f c) as (E1 & _ & Hlook). destruct (Hv T) as [Hn _]. specialize (Hlook Hn).
  intros T'. rewrite E1. destruct (Hv T') as [Hn' Hk]. split; [done|]. intros k Hin.
  destruct (Hk k Hin) as (v & Hkv & Hty & Hd & Hok). rewrite Hlook, Hkv.
  destruct (decide (T' = T)) as [->|Hne].
  - rewrite decide_True by done. exists (f v). destruct (Hf v) as [F1 F2]. split_and!; [done|congruence|congruence|auto].
  - rewrite decide_False; [exists v; split_and!; auto|]. intros Hin'. destruct (proj2 (Hv T) k Hin') as (v' & Hkv' & Hty' & _).
    congruence.
Qed.

Lemma sync_type v : v_typename (syncWindow v) = v_typename v.
Proof. unfold syncWindow. by case_decide. Qed.
Lemma sync_disposed v : v_disposed (syncWindow v) = v_disposed v.
Proof. unfold syncWindow. by case_decide. Qed.
Lemma insert_type h r v : v_typename (insertSorted h r v) = v_typename v.
Proof. unfold insertSorted. by case_match. Qed.
Lemma insert_disposed h r v : v_disposed (insertSorted h r v) = v_disposed v.
Proof. unfold insertSorted. by case_match. Qed.

Lemma handlers_kind h r id v :
  (v_typename (handleAdded h r v) = v_typename v ∧ v_disposed (handleAdded h r v) = v_disposed v)
  ∧ (v_typename (handleUpdated h r v) = v_typename v ∧ v_disposed (handleUpdated h r v) = v_disposed v)
  ∧ (v_typename (handleRemoved h id v) = v_typename v ∧ v_disposed (handleRemoved h id v) = v_disposed v).
Proof.
  unfold handleAdded, handleUpdated, handleRemoved. destruct (v_disposed v) eqn:Hd; [done|].
  split_and!; repeat case_match; rewrite ?sync_type, ?sync_disposed, ?insert_type, ?insert_disposed; done.
Qed.

(** ** Rows *)

Lemma refs_elem T r l : r ∈ refs T l ↔ ∃ p, p ∈ l ∧ kind p.1 = T ∧ e_model p.2 = r.
Proof.
  unfold refs. rewrite list_elem_of_fmap. split.
  - intros (p & -> & [HT Hin]%list_elem_of_filter). by exists p.
  - intros (p & Hin & HT & <-). exists p. split; [done|]. by apply list_elem_of_filter.
Qed.

Lemma entry_elem p c : cache_ok kind c → p ∈ entries c ↔ map_get p.1 (entries c) = Some p.2.
Proof. intros Hc. destruct p as [id e]. symmetry. by apply (map_get_spec _ _ _ (co_keys _ c Hc)). Qed.

Lemma rows_elem T r c :
  cache_ok kind c → r ∈ rows T c ↔ ∃ id e, map_get id (entries c) = Some e ∧ kind id = T ∧ e_model e = r.
Proof.
  intros Hc. unfold rows. rewrite refs_elem. split.
  - intros ([id e] & Hin & HT & <-). apply entry_elem in Hin; [|done]. by exists id, e.
  - intros (id & e & He & HT & <-). exists (id, e). split; [|done]. by apply entry_elem.
Qed.

Lemma refs_nodup T l c : cache_ok kind c → (∀ p, p ∈ l → p ∈ entries c) → NoDup l.*1 → NoDup (refs T l).
Proof.
  intros Hc Hall Hn. unfold refs. induction l as [|p l IH]; [apply NoDup_nil_2|]. rewrite fmap_cons in Hn.
  apply NoDup_cons in Hn as [Hp Hn]. assert (IH' := IH (λ q Hq, Hall q (list_elem_of_further q p l Hq)) Hn).
  rewrite filter_cons. case_decide; [|done]. rewrite fmap_cons. apply NoDup_cons. split; [|done].
  intros (q & Hq & _ & Heq)%refs_elem. apply Hp. rewrite <- (entry_inj kind q.1 p.1 q.2 p.2 c Hc); [by apply list_elem_of_fmap_2| | |done].
  all: apply entry_elem; [done|]; apply Hall, elem_of_cons; tauto.
Qed.

Lemma rows_nodup T c : cache_ok kind c → NoDup (rows T c).
Proof. intros Hc. apply (refs_nodup T _ c Hc); [done|]. apply Hc. Qed.

Lemma delete_elem {A} id p (l : list (string * A)) : p ∈ map_delete id l ↔ p.1 ≠ id ∧ p ∈ l.
Proof. unfold map_delete. by rewrite list_elem_of_filter. Qed.

(** The rows besides the one of an entry. *)
Lemma rows_split id e c :
  cache_ok kind c → map_get id (entries c) = Some e →
  let rest := refs (kind id) (map_delete id (entries c)) in
  Permutation (rows (kind id) c) (e_model e :: rest) ∧ e_model e ∉ rest
  ∧ ∀ s, s ∈ rest → has_id (heap c) id s = false.
Proof.
  intros Hc He rest.
  assert (Hrest : ∀ s, s ∈ rest → ∃ id' e', map_get id' (entries c) = Some e' ∧ id' ≠ id ∧ kind id' = kind id ∧ e_model e' = s).
  { intros s ([id' e'] & [Hne Hin]%delete_elem & HT & <-)%refs_elem. apply entry_elem in Hin; [|done]. by exists id', e'. }
  assert (Hno : e_model e ∉ rest).
  { intros (id' & e' & He' & Hne & _ & Heq)%Hrest. apply Hne. by eapply (entry_inj kind id' id e' e c). }
  split_and!; [|done|].
  - apply NoDup_Permutation; [by apply rows_nodup| |].
    + apply NoDup_cons. split; [done|]. apply (refs_nodup _ _ c Hc).
      * by intros p [_ Hp]%delete_elem.
      * apply map_delete_nodup, Hc.
    + intros r. rewrite rows_elem by done. rewrite elem_of_cons. split.
      * intros (id' & e' & He' & HT & <-). destruct (decide (id' = id)) as [->|Hne]; [left; congruence|right].
        apply refs_elem. exists (id', e'). split; [|done]. apply delete_elem. split; [done|]. by apply entry_elem.
      * intros [->|(id' & e' & He' & Hne & HT & <-)%Hrest]; [by exists id, e|by exists id', e'].
  - intros s (id' & e' & He' & Hne & _ & <-)%Hrest. unfold has_id.
    destruct (co_model _ c Hc id' e' He') as (o & -> & Ho). destruct (String.eqb_spec (i_id o) id); [congruence|done].
Qed.
Lemma refs_app T l l' : refs T (l ++ l') = refs T l ++ refs T l'.
Proof. unfold refs. by rewrite filter_app, fmap_app. Qed.

Lemma refs_other T id l : T ≠ kind id → refs T (map_delete id l) = refs T l.
Proof.
  intros HT. unfold refs, map_delete. f_equal. rewrite list_filter_filter. apply list_filter_iff. intros p.
  split; [tauto|]. intros Hk. split; [done|]. intros Heq. apply HT. by rewrite <- Hk, Heq.
Qed.

Lemma rows_heap T r c : cache_ok kind c → r ∈ rows T c → is_Some (heap c !! r).
Proof. intros Hc (id & e & He & _ & <-)%rows_elem; [|done]. destruct (co_model _ c Hc id e He) as (o & -> & _). by eexists. Qed.

(** ** Every operation keeps the views *)

(** The end of a change: the entries changed, the views of one type told. *)
Lemma changed_good h R c T f :
  cache_ok kind (notify T f c) → all_live (notify T f c) → views_for h R c → views_listed c →
  (∀ v, v_typename (f v) = v_typename v ∧ v_disposed (f v) = v_disposed v) →
  (∀ v, v_disposed v = false → view_ok h (R T) v → view_ok (heap c) (rows T c) (f v)) →
  (∀ T' v, T' ≠ T → view_ok h (R T') v → view_ok (heap c) (rows T' c) v) →
  good (notify T f c).
Proof.
  intros Hok Hlive Hv Hls Hf HT Hother. split; [done| |done|by eapply notify_listed]. pose proof (notify_good h R c T f Hv Hf HT Hother) as Hn.
  unfold views_for, rows in *. by rewrite notify_heap, notify_entries.
Qed.

Lemma views_for_shown h R c c' :
  registered c' = registered c → views c' = views c → views_for h R c → views_for h R c'.
Proof. unfold views_for. by intros -> ->. Qed.

Lemma listed_shown c c' : registered c' = registered c → views c' = views c → views_listed c → views_listed c'.
Proof. unfold views_listed. by intros -> ->. Qed.

Lemma notify_live T f c : all_live c → all_live (notify T f c).
Proof.
  destruct (notify_views T f c) as (_ & E & _). unfold all_live. by rewrite notify_entries, E.
Qed.

Lemma insert_good now r o c :
  good c → heap c !! r = Some o → map_get (i_id o) (entries c) = None → r ∉ disposed c →
  good (insert_entry now (i_id o) (i_type o) r LiveScope c).
Proof.
  intros [Hc Hv Hl Hls] Hr Hid Hd. pose proof (co_kind _ c Hc r o Hr) as Hk.
  pose proof (insert_entry_ok kind now (i_id o) (i_type o) r o LiveScope c Hc Hr eq_refl eq_refl) as Hok.
  unfold insert_entry, notifyAdded in *. set (c0 := with_entries _ _) in *. set (c1 := addToTypeIndex _ _ c0) in *.
  assert (Hs : shown c1 = shown c0) by apply add_type_shown. unfold shown in Hs. injection Hs as E1 E2 E3 E4 E5.
  assert (Hrows : ∀ T, rows T c1 = rows T c ++ if decide (kind (i_id o) = T) then [r] else []).
  { intros T. unfold rows. rewrite E3. simpl. rewrite map_set_fresh by (by apply map_get_None). rewrite refs_app. f_equal.
    unfold refs. rewrite filter_cons, filter_nil. simpl. by case_decide. }
  apply (changed_good (heap c) (λ T, rows T c)); [done| | | |intros v; apply (handlers_kind _ r (i_id o))|..].
  - apply notify_live. unfold all_live. rewrite E2, E3. simpl. intros id e. rewrite map_get_set.
    case_decide; [intros [= <-]; done|apply Hl].
  - by apply (views_for_shown _ _ c).
  - by apply (listed_shown c).
  - intros v Hvd Hvo. rewrite Hrows, E1, decide_True by done. eapply view_ok_perm; [apply Permutation_cons_append|].
    by apply handle_added_ok.
  - intros T' v HT' Hvo. rewrite Hrows, E1, decide_False by congruence. by rewrite app_nil_r.
Qed.

(** An instance no entry holds, not disposed. *)
Definition free r c : Prop := r ∉ disposed c ∧ ∀ id e, map_get id (entries c) = Some e → e_model e ≠ r.

Lemma remove_facts id c :
  remove_ c id = c ∨ ∃ e o, map_get id (entries c) = Some e ∧ heap c !! e_model e = Some o
    ∧ entries (remove_ c id) = map_delete id (entries c)
    ∧ (∀ r, r ∈ disposed (remove_ c id) ↔ r = e_model e ∨ r ∈ disposed c).
Proof.
  unfold remove_, remove. destruct (map_get id (entries c)) as [e|] eqn:He; [|by left].
  destruct (model_at (e_model e) c) as [o|] eqn:Ho; [|by left]. right. exists e, o. simpl. split; [done|]. split; [done|].
  pose proof (remove_type_shown id (i_type o) c) as Hs. unfold shown in Hs. injection Hs as E1 E2 E3 E4 E5.
  set (c1 := with_entries _ _). unfold notifyRemoved.
  rewrite notify_entries. destruct (notify_views (i_type o) (handleRemoved (heap c1) id) c1) as (_ & -> & _).
  subst c1. simpl. rewrite E2, E3. split; [done|]. intros r. case_bool_decide; [set_solver|].
  rewrite elem_of_app, list_elem_of_singleton. tauto.
Qed.

Lemma remove_free r id c : free r c → free r (remove_ c id).
Proof.
  intros [Hd He]. destruct (remove_facts id c) as [->|(e & o & Hid & Ho & E & D)]; [done|]. split.
  - rewrite D. intros [->|?]; [by eapply He|done].
  - intros id' e'. rewrite E, map_get_delete. case_decide; [done|apply He].
Qed.

Lemma remove_good id c : good c → good (remove_ c id).
Proof.
  intros [Hc Hv Hl Hls]. pose proof (remove_ok kind id c Hc) as Hok. pose proof (remove_facts id c) as Hfacts.
  change (remove id c).2 with (remove_ c id) in Hok.
  destruct Hfacts as [->|(e & o & He & Ho & HE & HD)]; [done|].
  destruct (co_model _ c Hc id e He) as (o' & Ho' & Hid). assert (o' = o) as -> by congruence.
  pose proof (co_kind _ c Hc _ _ Ho) as Hk. rewrite Hid in Hk.
  assert (Hlive : all_live (remove_ c id)).
  { intros id' e'. rewrite HE, map_get_delete. case_decide as Hne; [done|]. intros He'. destruct (Hl id' e' He') as [Hsc Hdd].
    split; [done|]. rewrite HD. intros [Heq|?]; [|done]. apply Hne. by apply (entry_inj kind id' id e' e c). }
  revert Hok Hlive HE HD. unfold remove_, remove. rewrite He. unfold model_at. rewrite Ho. cbn [snd].
  pose proof (remove_type_shown id (i_type o) c) as Hs. unfold shown in Hs. injection Hs as E1 E2 E3 E4 E5.
  set (c1 := with_entries _ _). intros Hok Hlive HE HD.
  assert (Hrest := rows_split id e c Hc He). cbv zeta in Hrest. destruct Hrest as (Hp & Hno & Hrest).
  assert (Hviews : let c' := notifyRemoved (i_type o) id c1 in views_for (heap c') (λ T, rows T c') c').
  { unfold rows, notifyRemoved. cbv zeta. rewrite notify_heap, notify_entries. apply (notify_good (heap c) (λ T, rows T c)).
    - by apply (views_for_shown _ _ c).
    - intros v. by apply (handlers_kind _ 0 id).
    - intros v Hvd Hvo. unfold rows at 1, c1. simpl. rewrite E1, E3, Hk. rewrite Hk in Hvo.
      apply (handle_removed_ok (heap c) id (e_model e)); [done|by apply (view_ok_perm _ _ _ _ Hp)|done| |done].
      unfold has_id. rewrite Ho, Hid. apply String.eqb_refl.
    - intros T' v HT' Hvo. unfold rows at 1, c1. simpl. rewrite E1, E3, refs_other by congruence. done. }
  split; [exact Hok|exact Hviews|exact Hlive|].
  apply (notify_listed (heap c) (λ T, rows T c)); [by apply (views_for_shown _ _ c)| |by apply (listed_shown c)].
  intros v. by apply (handlers_kind _ 0 id).
Qed.
(** Nothing enters the cache. *)
Definition shrinks c c' : Prop :=
  (∀ r, free r c → free r c') ∧ ∀ id, map_get id (entries c) = None → map_get id (entries c') = None.

Lemma remove_shrinks id c : shrinks c (remove_ c id).
Proof.
  split; [intros r; apply remove_free|]. intros id'. destruct (remove_facts id c) as [->|(e & o & _ & _ & -> & _)]; [done|].
  rewrite map_get_delete. by case_decide.
Qed.

Lemma removes_good ids c : good c → good (foldl remove_ c ids) ∧ shrinks c (foldl remove_ c ids).
Proof.
  revert c. induction ids as [|id ids IH]; intros c Hg; [done|]. simpl.
  destruct (IH _ (remove_good id c Hg)) as [H1 [H2 H3]]. destruct (remove_shrinks id c) as [H4 H5].
  split; [done|split; auto].
Qed.

Lemma room_good c : good c → good (make_room cfg c) ∧ shrinks c (make_room cfg c).
Proof.
  intros Hg. unfold make_room. case_match; [|done]. unfold evictOldest, evictOldestBatch. case_match; [done|].
  destruct (evict_scan _ _ _ _ c) as [toEvict stale]. set (c1 := with_access _ c).
  apply (removes_good _ c1). apply (good_shown c); [done| |done]. by apply access_filter_ok, Hg.
Qed.

(** A new heap that changes the instance of one entry, and the views told of it. *)
Lemma update_good id e o c c' :
  good c → map_get id (entries c) = Some e → heap c' !! e_model e = Some o → i_id o = id →
  (∀ r, r ≠ e_model e → heap c' !! r = heap c !! r) → cache_ok kind c' →
  (disposed c', entries c', registered c', views c') = (disposed c, entries c, registered c, views c) →
  good (notifyUpdated (kind id) (e_model e) c').
Proof.
  intros [Hc Hv Hl Hls] He Ho Hid Hh Hc' [= E1 E2 E3 E4]. unfold notifyUpdated. apply (changed_good (heap c) (λ T, rows T c)).
  - eapply cache_ok_core; [apply notify_core|done].
  - apply notify_live. unfold all_live. by rewrite E1, E2.
  - by apply (views_for_shown _ _ c).
  - by apply (listed_shown c).
  - intros v. apply (handlers_kind _ _ id).
  - intros v Hvd Hvo. destruct (rows_split id e c Hc He) as (Hp & Hno & Hrest). unfold rows at 1. rewrite E2. fold (rows (kind id) c).
    apply (view_ok_perm _ _ _ _ (Permutation_sym Hp)). apply (handle_updated_ok (heap c) _ _ o); [done| |done|done|..].
    + by apply (view_ok_perm _ _ _ _ Hp).
    + intros s Hs. apply Hh. by intros ->.
    + intros s Hs. rewrite Hid. unfold has_id. rewrite Hh by (by intros ->). by apply Hrest.
  - intros T' v HT' Hvo. unfold rows at 1. rewrite E2. fold (rows T' c). apply (view_ok_agree (heap c)); [|done].
    intros r (id' & e' & He' & HT & <-)%rows_elem; [|done]. apply Hh. intros Heq. apply HT'.
    by rewrite <- HT, (entry_inj kind id' id e' e c).
Qed.

(** Instances no entry holds may change, and new ones be built. *)
Lemma heap_good h c :
  good c → cache_ok kind (with_heap h c) → (∀ T r, r ∈ rows T c → h !! r = heap c !! r) → good (with_heap h c).
Proof.
  intros [Hc Hv Hl Hls] Hc' Hh. split; [done| |done|done]. intros T. destruct (Hv T) as [Hn Hk]. split; [done|].
  intros k Hin. destruct (Hk k Hin) as (v & Hkv & Hty & Hd & Hok). exists v. split_and!; [done..|].
  apply (view_ok_agree (heap c)); [|done]. intros r Hr. by apply (Hh T).
Qed.

Lemma construct_good o c : good c → i_type o = kind (i_id o) → good (with_heap (heap c ++ [o]) c).
Proof.
  intros Hg Ho. pose proof (g_ok c Hg) as Hc. apply heap_good; [done|by apply construct_ok|].
  intros T r Hr. destruct (rows_heap T r c Hc Hr) as [o' Ho']. rewrite Ho'. by apply lookup_app_l_Some.
Qed.

Lemma construct_free r o c : free r c → free r (with_heap (heap c ++ [o]) c).
Proof. done. Qed.

Lemma assign_good r data c : good c → free r c → good (updateFromData readonly newDate r data c).
Proof.
  intros Hg Hr. pose proof (g_ok c Hg) as Hc. apply heap_good; [done|by apply assign_ok|].
  intros T r' Hr'. apply rows_elem in Hr' as (id & e & He & _ & <-); [|done].
  change (heap (updateFromData readonly newDate r data c) !! e_model e = heap c !! e_model e).
  rewrite assign_lookup, decide_False; [done|]. by eapply Hr.
Qed.

(** A resident instance assigned to, and the entry upserted at once. *)
Lemma assign_update_good id e data c :
  good c → map_get id (entries c) = Some e →
  good (notifyUpdated (kind id) (e_model e) (updateFromData readonly newDate (e_model e) data c)).
Proof.
  intros Hg He. pose proof (g_ok c Hg) as Hc. destruct (co_model _ c Hc id e He) as (o & Ho & Hid).
  apply (update_good id e (assignFieldsFromData readonly newDate data o) c); [done|done|..|by apply assign_ok|done].
  - by rewrite assign_lookup, decide_True, Ho.
  - by rewrite (proj1 (assign_fields_id readonly newDate data o)).
  - intros r Hr. by rewrite assign_lookup, decide_False.
Qed.
(** ** Adding and upserting *)

Lemma resident_live id c : good c → resident id c = map_get id (entries c).
Proof.
  intros Hg. unfold resident, is_disposed. destruct (map_get id (entries c)) as [e|] eqn:He; [|done]. simpl.
  rewrite bool_decide_eq_false_2; [done|]. by apply (g_live c Hg id e).
Qed.

Lemma rescope_live now id e c : good c → map_get id (entries c) = Some e → rescope now id e LiveScope c = c.
Proof. intros Hg He. unfold rescope. rewrite bool_decide_eq_true_2; [done|]. by apply (g_live c Hg id e). Qed.

Lemma kind_of_entry id e c : good c → map_get id (entries c) = Some e → type_of_ref (e_model e) c = Some (kind id).
Proof.
  intros Hg He. pose proof (g_ok c Hg) as Hc. destruct (co_model _ c Hc id e He) as (o & Ho & Hid).
  unfold type_of_ref, model_at. rewrite Ho. simpl. by rewrite (co_kind _ c Hc _ _ Ho), Hid.
Qed.

(** Not the instance of an entry of another id. *)
Lemma fresh_free r o c :
  good c → heap c !! r = Some o → map_get (i_id o) (entries c) = None → r ∉ disposed c → free r c.
Proof.
  intros Hg Hr Hid Hd. split; [done|]. intros id e He <-.
  destruct (co_model _ c (g_ok c Hg) id e He) as (o' & Ho' & Hid'). congruence.
Qed.

Lemma update_resident_good now id e r o c :
  good c → map_get id (entries c) = Some e →
  good (update_resident toJSON readonly newDate now id e r o LiveScope c).
Proof.
  intros Hg He. unfold update_resident. pose proof (kind_of_entry id e c Hg He) as Hk.
  destruct (co_model _ c (g_ok c Hg) id e He) as (o' & Ho' & Hid). case_bool_decide.
  - rewrite (rescope_live now id e c Hg He), Hk. apply (update_good id e o' c); [done..|apply Hg|done].
  - set (c1 := updateFromData _ _ _ _ c).
    assert (Hre : rescope now id e LiveScope c1 = c1).
    { unfold rescope. rewrite bool_decide_eq_true_2; [done|]. by apply (g_live c Hg id e). }
    rewrite Hre. assert (type_of_ref (e_model e) c1 = Some (kind id)) as ->; [|by apply assign_update_good].
    revert Hk. unfold type_of_ref, model_at, c1. rewrite assign_lookup, decide_True by done.
    rewrite Ho'. simpl. by rewrite (proj2 (assign_fields_id readonly newDate _ o')).
Qed.

Lemma insert_room_good now r o c :
  good c → heap c !! r = Some o → map_get (i_id o) (entries c) = None → free r c →
  good (insert_entry now (i_id o) (i_type o) r LiveScope (make_room cfg c)).
Proof.
  intros Hg Hr Hid Hf. destruct (room_good c Hg) as [H1 [H2 H3]].
  apply insert_good; [done|by rewrite room_heap|by apply H3|by apply H2].
Qed.

Lemma free_shown r c c' : shown c' = shown c → free r c → free r c'.
Proof. unfold free, shown. by intros [= _ -> -> _ _]. Qed.

Lemma add_fresh_good now r o d c :
  good c → heap c !! r = Some o → map_get (i_id o) (entries c) = None → free r c →
  good (add_fresh cfg now r o LiveScope d c).
Proof.
  intros Hg Hr Hid Hf. unfold add_fresh. destruct (added_recently _ _ c); [done|]. set (key := add_key _ _).
  assert (Hgo : ∀ c', shown c' = shown c → core c' = core c →
    good (insert_entry now (i_id o) (i_type o) r LiveScope (make_room cfg (track_addition now key c')))).
  { intros c' Hs Hcore. pose proof (track_shown now key c') as Ht. rewrite Hs in Ht.
    pose proof (track_core now key c') as Htc. rewrite Hcore in Htc. pose proof (core_heap _ _ Htc) as Hh.
    apply insert_room_good; [|by rewrite Hh| |by apply (free_shown r c)].
    - apply (good_shown c); [done| |done]. apply (cache_ok_core kind c); [done|apply Hg].
    - unfold shown in Ht. by injection Ht as _ _ -> _ _. }
  destruct (delta_position d) as [[d' n]|]; [|by apply Hgo]. destruct (already_applied _ n c); [done|]. by apply Hgo.
Qed.

Lemma ensure_good T c : good c → good (ensure_type T c).
Proof. intros Hg. apply (good_shown c); [apply ensure_type_shown|apply ensure_type_ok, Hg|done]. Qed.

Lemma ensure_entries T c : entries (ensure_type T c) = entries c.
Proof. unfold ensure_type. by case_match. Qed.

Lemma add_good now r d c : good c → r ∉ disposed c → good (add cfg now r LiveScope d c).
Proof.
  intros Hg Hd. unfold add, model_at. destruct (heap c !! r) as [o|] eqn:Hr; [|done].
  pose proof (ensure_good (i_type o) c Hg) as Hg1. rewrite (resident_live _ _ Hg1).
  destruct (map_get (i_id o) _) as [e|] eqn:He; [by rewrite rescope_live|].
  apply add_fresh_good; [done|by rewrite ensure_heap|done|].
  rewrite ensure_entries in He. apply (free_shown r c); [apply ensure_type_shown|by eapply fresh_free].
Qed.

Lemma upsert_good now r c : good c → r ∉ disposed c → good (upsert cfg toJSON readonly newDate now r LiveScope c).
Proof.
  intros Hg Hd. unfold upsert, model_at. destruct (heap c !! r) as [o|] eqn:Hr; [|done]. rewrite resident_live by done.
  destruct (map_get (i_id o) (entries c)) as [e|] eqn:He; [by apply update_resident_good|by apply add_good].
Qed.
(** ** Batches that fit *)

(** What a batch that needs no eviction leaves alone. *)
Definition adds n c c' : Prop :=
  disposed c' = disposed c ∧ (length (entries c') <= length (entries c) + n)%nat.

Lemma insert_adds now r o c : map_get (i_id o) (entries c) = None → adds 1 c (insert_entry now (i_id o) (i_type o) r LiveScope c).
Proof.
  intros Hid. unfold insert_entry, notifyAdded. set (c0 := with_entries _ _). set (c1 := addToTypeIndex _ _ c0).
  assert (Hs : shown c1 = shown c0) by apply add_type_shown. unfold shown in Hs. injection Hs as E1 E2 E3 E4 E5.
  destruct (notify_views (i_type o) (handleAdded (heap c1) r) c1) as (_ & Hd & _). unfold adds.
  rewrite notify_entries, Hd, E2, E3. simpl. rewrite map_set_fresh by (by apply map_get_None). rewrite length_app. simpl. split; [done|lia].
Qed.

Lemma room_fits c : Z.of_nat (length (entries c)) < maxSize cfg → make_room cfg c = c.
Proof. intros Hlt. unfold make_room. rewrite (proj2 (Z.leb_gt _ _)); [done|lia]. Qed.

Lemma upsert_one_good now r c :
  good c → r ∉ disposed c → Z.of_nat (length (entries c)) < maxSize cfg →
  good (upsert_one cfg toJSON readonly newDate now LiveScope c r)
  ∧ adds 1 c (upsert_one cfg toJSON readonly newDate now LiveScope c r).
Proof.
  intros Hg Hd Hlt. unfold upsert_one, model_at. destruct (heap c !! r) as [o|] eqn:Hr; [|split; [done|split; [done|lia]]].
  rewrite resident_live by done. destruct (map_get (i_id o) (entries c)) as [e|] eqn:He.
  - split; [by apply update_resident_good|]. unfold update_resident. set (c1 := if bool_decide _ then _ else _).
    assert (H1 : entries c1 = entries c ∧ disposed c1 = disposed c) by (unfold c1; by case_match). destruct H1 as [H1 H2].
    assert (rescope now (i_id o) e LiveScope c1 = c1) as ->.
    { unfold rescope. rewrite bool_decide_eq_true_2; [done|]. by apply (g_live c Hg (i_id o) e). }
    unfold adds, notifyUpdated. destruct (type_of_ref (e_model e) c1) as [T|]; [|rewrite H1, H2; split; [done|lia]].
    destruct (notify_views T (handleUpdated (heap c1) (e_model e)) c1) as (_ & -> & _).
    rewrite notify_entries, H1, H2. split; [done|lia].
  - set (c1 := ensure_type _ c). assert (He1 : entries c1 = entries c) by apply ensure_entries.
    rewrite (room_fits c1) by (by rewrite He1). assert (Hs : shown c1 = shown c) by apply ensure_type_shown. split.
    + apply insert_good; [by apply ensure_good|unfold c1; by rewrite ensure_heap|by rewrite He1|].
      unfold shown in Hs. by injection Hs as _ -> _ _ _.
    + unfold adds. destruct (insert_adds now r o c1) as [-> Hlen]; [by rewrite He1|]. rewrite He1 in Hlen.
      unfold shown in Hs. by injection Hs as _ -> _ _ _.
Qed.

Lemma add_one_good now r c :
  good c → r ∉ disposed c → good (add_one now LiveScope c r) ∧ adds 1 c (add_one now LiveScope c r).
Proof.
  intros Hg Hd. unfold add_one, model_at. destruct (heap c !! r) as [o|] eqn:Hr; [|split; [done|split; [done|lia]]].
  pose proof (ensure_good (i_type o) c Hg) as Hg1. rewrite (resident_live _ _ Hg1). set (c1 := ensure_type _ c) in *.
  assert (He1 : entries c1 = entries c) by apply ensure_entries.
  assert (Hs : shown c1 = shown c) by apply ensure_type_shown. unfold shown in Hs. injection Hs as _ Hd1 _ _ _.
  destruct (map_get (i_id o) _) as [e|] eqn:He.
  - rewrite rescope_live by done. split; [done|]. unfold adds. rewrite He1, Hd1. split; [done|lia].
  - split; [apply insert_good; [done|unfold c1; by rewrite ensure_heap|done|by rewrite Hd1]|].
    unfold adds. destruct (insert_adds now r o c1 He) as [-> Hlen]. by rewrite He1 in Hlen.
Qed.

(** A batch, member by member. *)
Lemma batch_good (f : cache V → nat → cache V) models c :
  (∀ c r, good c → r ∉ disposed c → Z.of_nat (length (entries c)) < maxSize cfg → good (f c r) ∧ adds 1 c (f c r)) →
  good c → Forall (λ r, r ∉ disposed c) models → Z.of_nat (length (entries c) + length models) <= maxSize cfg →
  good (foldl f c models).
Proof.
  intros Hf. revert c. induction models as [|r models IH]; intros c Hg Hd Hlen; [done|]. simpl in *.
  apply Forall_cons in Hd as [Hr Hd]. destruct (Hf c r Hg Hr) as [Hg1 [Hd1 Hl1]]; [lia|].
  apply IH; [done|by rewrite Hd1|lia].
Qed.

Lemma new_ids_length models c : (length (new_ids models c) <= length models)%nat.
Proof.
  unfold new_ids. set (f := λ ids r, _). assert (Hall : ∀ ids, (length (foldl f ids models) <= length ids + length models)%nat).
  { induction models as [|r models IH]; intros ids; simpl; [lia|]. etrans; [apply IH|].
    assert (length (f ids r) <= S (length ids))%nat; [|lia].
    unfold f. repeat case_match; try lia. unfold set_add. case_match; [lia|]. rewrite length_app. simpl. lia. }
  apply Hall.
Qed.

Lemma add_batch_good now models c :
  good c → Forall (λ r, r ∉ disposed c) models → Z.of_nat (length (entries c) + length models) <= maxSize cfg →
  good (addBatch cfg now models LiveScope c).
Proof.
  intros Hg Hd Hlen. unfold addBatch. destruct models as [|r models]; [done|].
  pose proof (new_ids_length (r :: models) c) as Hn. rewrite (proj2 (Z.ltb_ge _ _)) by lia.
  apply batch_good; [|done..]. intros. by apply add_one_good.
Qed.

(** ** Collecting, creating and disposing views *)

Lemma gc_good now c : good c → good (gc cfg now c).
Proof.
  intros Hg. pose proof (gc_ok kind cfg now c (g_ok c Hg)) as Hok. revert Hok. unfold gc. set (c1 := foldl _ c _).
  assert (Hg1 : good c1) by (apply (good_shown c); [by apply fold_shown|apply fold_ok; [intros; by apply touch_ok|apply Hg]|done]).
  intros Hok. destruct (removes_good ((List.filter (λ p, negb (hasObservedCollections (e_model p.2) c)) (List.filter (is_idle cfg now c) (entries c))).*1) c1 Hg1) as [Hg2 _].
  eapply good_shown; [|exact Hok|exact Hg2]. by rewrite cleanup_shown.
Qed.

Lemma getByTypeName_rows T s c : good c → s ≠ ArchivedScope → Permutation (getByTypeName T s c) (rows T c).
Proof.
  intros Hg Hs. pose proof (g_ok c Hg) as Hc. apply NoDup_Permutation; [by apply (by_type_nodup kind)|by apply rows_nodup|].
  intros r. rewrite (by_type_elem kind), rows_elem by done. split.
  - intros (id & e & He & HT & _ & <-). rewrite resident_live in He by done. by exists id, e.
  - intros (id & e & He & HT & <-). exists id, e. rewrite resident_live by done. split_and!; [done|done| |done].
    destruct (g_live c Hg id e He) as [-> _]. by destruct s.
Qed.

Lemma registered_bound T k c : good c → k ∈ default [] (map_get T (registered c)) → (k < length (views c))%nat.
Proof. intros Hg Hk. destruct (proj2 (g_views c Hg T) k Hk) as (v & Hv & _). by apply lookup_lt_Some in Hv. Qed.

Lemma create_view_good T (q : view_options V) s c :
  good c → s ≠ ArchivedScope → view_foreign_key (parse_options T q) c = None → good (createView T q s c).
Proof.
  intros Hg Hs Hfk. unfold createView. rewrite Hfk. set (v := initialScan _ _ _).
  assert (Hv : v_typename v = T ∧ v_disposed v = false) by (split; [by apply sync_type|by apply sync_disposed]).
  destruct Hv as [HvT Hvd].
  assert (Hvo : view_ok (heap c) (rows T c) v).
  { eapply view_ok_perm; [by apply (getByTypeName_rows T s)|]. apply initial_scan_ok. }
  assert (Hnew : length (views c) ∉ default [] (map_get T (registered c))) by (intros Hin%registered_bound; [lia|done]).
  unfold register. simpl. rewrite (bool_decide_eq_false_2 _ Hnew). split; [|intros T'; simpl; rewrite map_get_set|apply Hg|].
  - by apply (cache_ok_core kind c), Hg.
  - destruct (g_views c Hg T') as [Hn Hk].
    assert (Hold : ∀ k, k ∈ default [] (map_get T' (registered c)) → (views c ++ [v]) !! k = views c !! k).
    { intros k Hin. apply lookup_app_l. by eapply registered_bound. }
    case_decide; [subst T'; simpl|split; [done|intros k Hin; rewrite Hold by done; auto]]. split.
    + apply NoDup_app. split_and!; [done| |apply NoDup_singleton]. by intros k Hk' ->%list_elem_of_singleton.
    + intros k [Hin| ->%list_elem_of_singleton]%elem_of_app; [rewrite Hold by done; auto|].
      exists v. split_and!; [by rewrite lookup_app_r, Nat.sub_diag|done..].
  - intros k v'. simpl. rewrite map_get_set. intros [Hk|[Hlen Hk]]%lookup_app_Some Hd'.
    + pose proof (g_listed c Hg k v' Hk Hd') as Hin. case_decide as HT; [|done]. rewrite HT in Hin. apply elem_of_app. by left.
    + apply list_lookup_singleton_Some in Hk as [Hk <-]. rewrite decide_True by done. simpl. apply elem_of_app. right.
      apply list_elem_of_singleton. lia.
Qed.

Lemma dispose_view_good k c : good c → good (disposeView k c).
Proof.
  intros Hg. unfold disposeView. destruct (views c !! k) as [v|] eqn:Hv; [|done]. destruct (v_disposed v) eqn:Hvd; [done|].
  pose proof (g_listed c Hg k v Hv Hvd) as Hin. set (c1 := with_views _ c).
  assert (Hget : ∀ T, default [] (map_get T (registered (unregister (v_typename v) k c1)))
      = if decide (T = v_typename v) then base.filter (λ k', k' ≠ k) (default [] (map_get T (registered c)))
        else default [] (map_get T (registered c))).
  { intros T. unfold unregister. change (registered c1) with (registered c). destruct (map_get (v_typename v) (registered c)) as [l|] eqn:Hl.
    - simpl. destruct (base.filter _ l) eqn:Hf; simpl; rewrite ?map_get_delete, ?map_get_set; case_decide; subst; rewrite ?Hl; simpl; by rewrite ?Hf.
    - case_decide as HT; [|done]. rewrite HT, Hl. change (registered c1) with (registered c). by rewrite Hl. }
  assert (Hrest : ∀ c', c' = unregister (v_typename v) k c1 → heap c' = heap c ∧ entries c' = entries c ∧ disposed c' = disposed c ∧ views c' = alter dispose_view k (views c) ∧ core c' = core c).
  { intros c' ->. unfold unregister. by case_match. }
  destruct (Hrest _ eq_refl) as (E1 & E2 & E3 & E4 & E5). split.
  - apply (cache_ok_core kind c); [done|apply Hg].
  - intros T. rewrite Hget. destruct (g_views c Hg T) as [Hn Hk]. unfold rows. rewrite E1, E2, E4.
    assert (Hsame : ∀ k', k' ≠ k → alter dispose_view k (views c) !! k' = views c !! k') by (intros; by apply list_lookup_alter_ne).
    case_decide as HT; split.
    + by apply NoDup_filter.
    + intros k' [Hne Hk']%list_elem_of_filter. rewrite Hsame by done. auto.
    + done.
    + intros k' Hk'. destruct (Hk k' Hk') as (v' & Hv' & HvT & Hrest'). rewrite Hsame; [by exists v'|]. intros ->. apply HT. congruence.
  - unfold all_live. rewrite E2, E3. exact (g_live c Hg).
  - intros k' v'. rewrite E4, Hget. destruct (decide (k' = k)) as [->|Hne].
    + rewrite list_lookup_alter_eq, Hv. simpl. by intros [= <-].
    + rewrite list_lookup_alter_ne by done. intros Hk' Hd'. pose proof (g_listed c Hg k' v' Hk' Hd'). case_decide; [|done].
      by apply list_elem_of_filter.
Qed.
(** ** The runs in which the views follow *)

(** Rows are put in live and not after their disposal; a row an entry holds changes
    only together with its notification ([steady_change], [steady_apply]); a batch fits
    into the cache; a view asks for live rows and no indexed foreign key. *)
Definition steady_input c (i : cache_input V) : Prop :=
  match i with
  | Construct o => i_type o = kind (i_id o)
  | Assign r _ => free r c
  | Add r s _ | Upsert r s => s = LiveScope ∧ r ∉ disposed c
  | AddBatch models s | UpsertBatch models s =>
      s = LiveScope ∧ Forall (λ r, r ∉ disposed c) models ∧ Z.of_nat (length (entries c) + length models) <= maxSize cfg
  | UpdateScope _ s => s = LiveScope
  | CreateView T o s => s ≠ ArchivedScope ∧ view_foreign_key (parse_options T o) c = None
  | CreateFromData _ _ _ _ | Clear _ => False
  | _ => True
  end.

Inductive steady : cache V → Prop :=
  | steady_start : steady new_cache
  | steady_next c now i : steady c → steady_input c i → steady (cache_step cfg toJSON readonly newDate now c i)
  | steady_change c now now' r data :
      steady c → r ∉ disposed c →
      steady (cache_step cfg toJSON readonly newDate now' (cache_step cfg toJSON readonly newDate now c (Assign r data))
                (Upsert r LiveScope))
  | steady_apply c now now' id T data fresh r c' :
      steady c → i_id fresh = id → i_type fresh = T → T = kind id → length (heap c) ∉ disposed c →
      createFromData readonly newDate now id T data fresh c = (r, c') →
      steady (cache_step cfg toJSON readonly newDate now' c' (Upsert r LiveScope)).

Lemma change_good now r data c :
  good c → r ∉ disposed c →
  good (upsert cfg toJSON readonly newDate now r LiveScope (updateFromData readonly newDate r data c)).
Proof.
  intros Hg Hd. destruct (heap c !! r) as [o|] eqn:Hr.
  2: { unfold upsert, model_at. rewrite assign_lookup, decide_True, Hr by done. simpl.
       apply heap_good; [done|by apply assign_ok, Hg|]. intros T r' Hr'.
       change (heap (updateFromData readonly newDate r data c) !! r' = heap c !! r'). rewrite assign_lookup. case_decide; [|done].
       subst r'. by rewrite Hr. }
  destruct (map_get (i_id o) (entries c)) as [e|] eqn:He; [destruct (decide (e_model e = r)) as [<-|Hne]|].
  - unfold upsert, model_at. rewrite assign_lookup, decide_True, Hr by done. simpl.
    rewrite (proj1 (assign_fields_id readonly newDate data o)).
    assert (resident (i_id o) (updateFromData readonly newDate (e_model e) data c) = Some e) as ->.
    { rewrite <- He. rewrite <- (resident_live (i_id o) c Hg). done. }
    unfold update_resident. rewrite bool_decide_eq_true_2 by done.
    assert (rescope now (i_id o) e LiveScope (updateFromData readonly newDate (e_model e) data c)
      = updateFromData readonly newDate (e_model e) data c) as ->.
    { unfold rescope. rewrite bool_decide_eq_true_2; [done|]. by apply (g_live c Hg (i_id o) e). }
    unfold type_of_ref, model_at. rewrite assign_lookup, decide_True, Hr by done. simpl.
    rewrite (proj2 (assign_fields_id readonly newDate data o)), (co_kind _ c (g_ok c Hg) _ _ Hr). by apply assign_update_good.
  - apply upsert_good; [|done]. apply assign_good; [done|]. split; [done|]. intros id' e' He' <-.
    destruct (co_model _ c (g_ok c Hg) id' e' He') as (o' & Ho' & Hid'). apply Hne. congruence.
  - apply upsert_good; [|done]. apply assign_good; [done|]. by eapply fresh_free.
Qed.

Lemma get_good now id c : good c → good (get now id c).2.
Proof.
  intros Hg. unfold get. case_match; [|done]. apply (good_shown c); [done|by apply touch_ok, Hg|done].
Qed.

Lemma apply_good now now' id T data fresh r c c' :
  good c → i_id fresh = id → i_type fresh = T → T = kind id → length (heap c) ∉ disposed c →
  createFromData readonly newDate now id T data fresh c = (r, c') →
  good (upsert cfg toJSON readonly newDate now' r LiveScope c').
Proof.
  intros Hg Hid HT Hk Hd. unfold createFromData.
  assert (Hnew : ∀ c1, good c1 → heap c1 = heap c → disposed c1 = disposed c →
    good (upsert cfg toJSON readonly newDate now' (length (heap c1)) LiveScope (with_heap (heap c1 ++ [fresh]) c1))).
  { intros c1 Hg1 Hh Hd1. apply upsert_good; [apply construct_good; [done|congruence]|]. simpl. by rewrite Hh, Hd1. }
  destruct (map_get id (entries c)) as [e|] eqn:He; simpl; [|intros [= <- <-]; by apply Hnew].
  unfold getOfType, get. rewrite resident_live, He by done. simpl.
  change (type_of_ref (e_model e) (touchAccess id now c)) with (type_of_ref (e_model e) c).
  rewrite (kind_of_entry id e c Hg He), bool_decide_eq_true_2 by congruence. intros [= <- <-].
  apply change_good; [|by apply (g_live c Hg id e)]. apply (good_shown c); [done|by apply touch_ok, Hg|done].
Qed.

Lemma steady_good c : steady c → good c.
Proof.
  induction 1 as [|c now i _ Hg Hi|c now now' r data _ Hg Hd|c now now' id T data fresh r c' _ Hg Hid HT Hk Hd Hr].
  - split; [apply (cache_reach_ok kind cfg toJSON readonly newDate); constructor|..].
    + intros T. split; [apply NoDup_nil_2|]. by intros k ?%elem_of_nil.
    + by intros id e.
    + by intros k v.
  - destruct i; simpl in *.
    + by apply construct_good.
    + by apply assign_good.
    + destruct Hi as [-> Hi]. by apply add_good.
    + destruct Hi as (-> & Hi & Hlen). by apply add_batch_good.
    + destruct Hi as [-> Hi]. by apply upsert_good.
    + destruct Hi as (-> & Hi & Hlen). apply batch_good; [|done..]. intros. by apply upsert_one_good.
    + done.
    + by apply remove_good.
    + by apply removes_good.
    + unfold removeFromArchive. repeat case_match; try done. by apply remove_good.
    + subst s. unfold updateScope. destruct (map_get id (entries c)) as [e|] eqn:He; [by rewrite rescope_live|done].
    + by apply get_good.
    + apply (good_shown c); [done|apply (cache_ok_core kind c); [done|apply Hg]|done].
    + by apply gc_good.
    + done.
    + apply (good_shown c); [unfold registerForeignKey; by repeat case_match| |done].
      by apply (cache_ok_core kind c), Hg; apply register_fk_core.
    + destruct Hi. by apply create_view_good.
    + by apply dispose_view_good.
  - by apply change_good.
  - by eapply apply_good.
Qed.

(** C14: a view refines its query in the runs of [steady], those in which every row is
    put, kept and moved in the live scope and never after its disposal, an id keeps its
    model, a row that is cached changes only together with its notification (an upsert or
    an applied change) before anything else happens, a batch fits under the cap with what
    is cached, a view asks for no indexed foreign key and not for archived rows, and the
    cache is not cleared. After such a run a view that was not disposed holds exactly the
    live rows of its model that match its condition and filter, each once, in the order
    it asks for, and shows the window of [limit] and [offset] of them: what a fresh scan
    of the cache would give, whatever additions, updates, removals, evictions and
    collections led there. Outside those runs a view can differ from its query
    ([CacheRuns.v]). *)
Theorem views_follow_their_queries c k v :
  steady c → views c !! k = Some v → v_disposed v = false →
  Permutation (internal v) (List.filter (matches_ref (heap c) v) (getByTypeName (v_typename v) LiveScope c))
  ∧ (∀ key, sortKey v = Some key → in_order (sortDir v) (sort_value (heap c) key <$> internal v))
  ∧ results v = window v.
Proof.
  intros Hg%steady_good Hk Hd. destruct (proj2 (g_views c Hg _) k (g_listed c Hg k v Hk Hd)) as (v' & Hk' & _ & _ & [A B C]).
  assert (v' = v) as -> by congruence. split_and!; [|done|done]. rewrite A.
  symmetry. by apply filter_perm, getByTypeName_rows.
Qed.
End CacheViews.
