(* ===== verification/CacheRuns.v ===== *)
(** * The cap of the instance cache

    How many entries [InstanceCache.v] holds: eviction makes room as long as nothing is
    observed, so single additions and upserts stay below the cap. *)
From S2P Require Import Prelude JsData MutationQueue Views InstanceCache CacheFacts CacheViews.
From Stdlib Require Import Sorted OrderedTypeEx.
#[local] Open Scope Z_scope.

Section CacheBounds.
Context {V : Type} `{JsColumn V}.
Context (kind : string → string).
Implicit Types (c : cache V) (o : instance V) (r : nat) (id T : string).

(** What the size depends on. *)
Definition sized c := (observed c, entries c).

Lemma fold_sized {A} (f : cache V → A → cache V) l c : (∀ c x, sized (f c x) = sized c) → sized (foldl f c l) = sized c.
Proof. intros Hf. revert c. induction l as [|x l IH]; intros c; [done|]. simpl. by rewrite IH. Qed.

Lemma notify_sized T f c : sized (notify T f c) = sized c.
Proof. by apply fold_sized. Qed.
Lemma add_fk_sized id o T c : sized (addToForeignKeyIndex id o T c) = sized c.
Proof. apply fold_sized. intros c' f. by repeat case_match. Qed.
Lemma remove_fk_sized id T c : sized (removeFromForeignKeyIndex id T c) = sized c.
Proof. unfold removeFromForeignKeyIndex. case_match; [|done]. apply fold_sized. intros c' f. by repeat case_match. Qed.
Lemma add_type_sized id T c : sized (addToTypeIndex id T c) = sized c.
Proof. unfold addToTypeIndex. case_match; [by rewrite add_fk_sized|done]. Qed.
Lemma remove_type_sized id T c : sized (removeFromTypeIndex id T c) = sized c.
Proof. unfold removeFromTypeIndex. case_match; [|apply remove_fk_sized]. by rewrite <- (remove_fk_sized id T c). Qed.
Lemma ensure_type_sized T c : sized (ensure_type T c) = sized c.
Proof. unfold ensure_type. by case_match. Qed.
Lemma cleanup_sized now c : sized (cleanupTracking now c) = sized c.
Proof. unfold cleanupTracking. by case_match. Qed.
Lemma track_sized now key c : sized (track_addition now key c) = sized c.
Proof. unfold track_addition. case_match; [by rewrite cleanup_sized|done]. Qed.

(** Nothing observed, at most [n] entries. *)
Definition within (n : Z) c : Prop := observed c = [] ∧ Z.of_nat (length (entries c)) <= n.

Lemma within_sized n c c' : sized c' = sized c → within n c → within n c'.
Proof. unfold within, sized. by intros [= -> ->]. Qed.

Lemma map_set_length {A} k (x : A) (m : list (string * A)) :
  length (map_set k x m) = if map_get k m then length m else S (length m).
Proof.
  induction m as [|[k' y] m IH]; simpl; [done|]. case_decide; simpl; [done|]. rewrite IH. by destruct (map_get k m).
Qed.

Lemma map_delete_length {A} k (m : list (string * A)) : (length (map_delete k m) <= length m)%nat.
Proof. apply length_filter. Qed.

Lemma map_delete_shorter {A} k (x : A) (m : list (string * A)) :
  map_get k m = Some x → (length (map_delete k m) < length m)%nat.
Proof.
  unfold map_delete. induction m as [|[k' y] m IH]; simpl; [done|]. rewrite filter_cons. simpl.
  pose proof (length_filter (λ p : string * A, p.1 ≠ k) m). case_decide; intros Hm.
  - rewrite decide_False by (intros Hn; by apply Hn). lia.
  - rewrite decide_True by congruence. simpl. specialize (IH Hm). lia.
Qed.

Lemma rescope_within n now id e s c : map_get id (entries c) = Some e → within n c → within n (rescope now id e s c).
Proof.
  intros He [Ho Hn]. unfold rescope. case_bool_decide; [done|]. split; [done|]. simpl. by rewrite map_set_length, He.
Qed.

Lemma insert_within n now id T r s c : within (n - 1) c → within n (insert_entry now id T r s c).
Proof.
  intros [Ho Hn]. unfold insert_entry, notifyAdded. eapply within_sized; [apply notify_sized|].
  eapply within_sized; [apply add_type_sized|]. split; [done|]. simpl. rewrite map_set_length. case_match; lia.
Qed.

(** ** Making room *)

Lemma remove_sized id c :
  (remove_ c id = c ∧ ∀ e, map_get id (entries c) = Some e → heap c !! e_model e = None)
  ∨ ∃ e, map_get id (entries c) = Some e ∧ entries (remove_ c id) = map_delete id (entries c)
    ∧ observed (remove_ c id) = base.filter (λ r', r' ≠ e_model e) (observed c).
Proof.
  unfold remove_, remove. destruct (map_get id (entries c)) as [e|] eqn:He; [|by left].
  destruct (model_at (e_model e) c) as [o|] eqn:Ho; [|left; split; [done|by intros e' [= <-]]]. right. exists e. split; [done|]. cbn [snd].
  pose proof (remove_type_sized id (i_type o) c) as Hs. unfold sized in Hs. injection Hs as E1 E2.
  set (c1 := with_entries _ _). pose proof (notify_sized (i_type o) (handleRemoved (heap c1) id) c1) as Hn.
  unfold sized in Hn. injection Hn as F1 F2. cbn [entries observed dispose_model with_access with_deltas with_recent with_observed with_disposed].
  unfold notifyRemoved. split; [etrans; [exact F2|]|f_equal; etrans; [exact F1|]]; subst c1; simpl; by rewrite ?E1, ?E2.
Qed.

Lemma remove_within n id c : within n c → within n (remove_ c id).
Proof.
  intros [Ho Hn]. destruct (remove_sized id c) as [[-> _]|(e & He & E & O)]; [done|]. split; [by rewrite O, Ho|].
  rewrite E. pose proof (map_delete_length id (entries c)). lia.
Qed.

Lemma removes_within n ids c : within n c → within n (foldl remove_ c ids).
Proof. revert c. induction ids as [|id ids IH]; intros c Hc; [done|]. simpl. by apply IH, remove_within. Qed.

Lemma remove_shrinks_by_one id c :
  cache_ok kind c → is_Some (map_get id (entries c)) → (length (entries (remove_ c id)) < length (entries c))%nat.
Proof.
  intros Hc [e He]. destruct (co_model _ c Hc id e He) as (o & Ho & _).
  destruct (remove_sized id c) as [[_ Hnone]|(e' & He' & -> & _)]; [by rewrite (Hnone e He) in Ho|by eapply map_delete_shorter].
Qed.

Lemma nothing_observed id r c : observed c = [] → is_observed_entry id c = false ∧ hasObservedCollections r c = false.
Proof. unfold is_observed_entry, hasObservedCollections. intros ->. by case_match. Qed.

Lemma scan_one keys stale c :
  observed c = [] →
  match evict_scan 1 keys [] stale c with
  | ([], stale') => (∀ id, id ∈ keys → id ∈ stale') ∧ ∀ id, id ∈ stale → id ∈ stale'
  | (id :: ids, _) => is_Some (map_get id (entries c)) ∧ ids = []
  end.
Proof.
  intros Ho. revert stale. induction keys as [|id keys IH]; intros stale; cbn [evict_scan]; [split; [by intros id ?%elem_of_nil|done]|].
  cbn [length Nat.leb]. rewrite (proj1 (nothing_observed id 0 c Ho)).
  destruct (map_get id (entries c)) as [e|] eqn:He; simpl.
  - destruct keys; simpl; by rewrite He.
  - specialize (IH (stale ++ [id])). destruct (evict_scan 1 keys [] (stale ++ [id]) c) as [[|id' ids] stale']; [|done].
    destruct IH as [H1 H2]. split; [|intros id' Hin; apply H2, elem_of_app; by left].
    intros id' [->|Hin]%elem_of_cons; [|by apply H1]. apply H2, elem_of_app. right. by apply list_elem_of_singleton.
Qed.

(** With nothing observed, an eviction evicts one entry. *)
Lemma evict_one c :
  cache_ok kind c → observed c = [] → entries c ≠ [] →
  observed (evictOldest c) = [] ∧ (length (entries (evictOldest c)) < length (entries c))%nat.
Proof.
  intros Hc Ho Hne. unfold evictOldest, evictOldestBatch. rewrite (eq_refl : (1 <=? 0) = false). change (Z.to_nat 1) with 1%nat.
  pose proof (scan_one (accessTimes c).*1 [] c Ho) as Hscan. destruct (evict_scan 1 _ [] [] c) as [ids stale].
  set (c1 := with_access _ c). assert (Hc1 : cache_ok kind c1) by by apply access_filter_ok.
  assert (Hone : ∃ id, (if (length ids <? 1)%nat then evict_unstamped 1 (entries c1).*1 ids c1 else ids) = [id]
      ∧ is_Some (map_get id (entries c))).
  { assert (Hent : entries c1 = entries c) by done. assert (Hobs : observed c1 = []) by done.
    assert (Hacc : accessTimes c1 = base.filter (λ p, p.1 ∉ stale) (accessTimes c)) by done. clearbody c1.
    rewrite Hent. destruct ids as [|id ids]; simpl; [|destruct Hscan as [He ->]; by exists id]. destruct Hscan as [Hall _].
    destruct (entries c) as [|[id e] l] eqn:Hl; [done|]. exists id. simpl.
    assert (map_get id (accessTimes c1) = None) as ->.
    { destruct (map_get id (accessTimes c1)) as [t|] eqn:Ht; [|done].
      apply (map_get_spec _ _ _ (co_access _ c1 Hc1)) in Ht. rewrite Hacc in Ht. apply list_elem_of_filter in Ht as [Hns Ht].
      exfalso. apply Hns, Hall. apply list_elem_of_fmap. by exists (id, t). }
    rewrite (proj1 (nothing_observed id 0 c1 Hobs)). simpl. split; [by destruct l|]. rewrite decide_True by done. by eexists. }
  destruct Hone as (id & -> & Hid). simpl. split.
  - by destruct (remove_within (Z.of_nat (length (entries c))) id c1).
  - by apply (remove_shrinks_by_one id c1).
Qed.

Context (cfg : pool_config) (Hpos : 1 <= maxSize cfg).

Lemma room_within c : cache_ok kind c → within (maxSize cfg) c → within (maxSize cfg - 1) (make_room cfg c).
Proof.
  intros Hc [Ho Hn]. unfold make_room. destruct (Z.leb_spec (maxSize cfg) (Z.of_nat (length (entries c)))); [|split; [done|lia]].
  destruct (evict_one c Hc Ho) as [Ho' Hlt]; [by intros Hnil; rewrite Hnil in *; simpl in *; lia|]. split; [done|lia].
Qed.

(** ** Every operation *)

Lemma add_within now r s d c : cache_ok kind c → within (maxSize cfg) c → within (maxSize cfg) (add cfg now r s d c).
Proof.
  intros Hc Hw. unfold add, model_at. destruct (heap c !! r) as [o|] eqn:Hr; [|done].
  pose proof (ensure_type_ok kind (i_type o) c Hc) as Hc1. pose proof (ensure_type_sized (i_type o) c) as Hs.
  pose proof (within_sized _ _ _ Hs Hw) as Hw1. destruct (resident (i_id o) _) as [e|] eqn:He.
  { apply resident_entry in He as [He _]. by apply rescope_within. }
  unfold add_fresh. destruct (added_recently _ _ _); [done|]. set (key := add_key _ _).
  set (c1 := ensure_type _ c) in *.
  assert (Hgo : ∀ c', core c' = core c1 → sized c' = sized c1 →
    within (maxSize cfg) (insert_entry now (i_id o) (i_type o) r s (make_room cfg (track_addition now key c')))).
  { intros c' Hcore Hsz. apply insert_within, room_within.
    - apply (cache_ok_core kind c1); [by rewrite track_core|done].
    - apply (within_sized _ c1); [by rewrite track_sized|done]. }
  destruct (delta_position d) as [[d' n]|]; [|by apply Hgo]. destruct (already_applied _ n _); [done|by apply Hgo].
Qed.

Context (toJSON : instance V → list (string * field_value V)) (readonly : string → string → bool) (newDate : V → V).

Lemma update_within now id e r o s c :
  map_get id (entries c) = Some e → within (maxSize cfg) c →
  within (maxSize cfg) (update_resident toJSON readonly newDate now id e r o s c).
Proof.
  intros He Hw. unfold update_resident. set (c1 := if bool_decide _ then _ else _).
  assert (Hs : sized c1 = sized c) by (unfold c1; by case_match). unfold sized in Hs. injection Hs as Hobs Hent.
  assert (Hw2 : within (maxSize cfg) (rescope now id e s c1)).
  { apply rescope_within; [by rewrite Hent|]. unfold within. by rewrite Hobs, Hent. }
  case_match; [|done]. unfold notifyUpdated. by apply (within_sized _ _ _ (notify_sized _ _ _)).
Qed.

Lemma upsert_one_within now s r c :
  cache_ok kind c → within (maxSize cfg) c → within (maxSize cfg) (upsert_one cfg toJSON readonly newDate now s c r).
Proof.
  intros Hc Hw. unfold upsert_one. destruct (model_at r c) as [o|]; [|done]. destruct (resident (i_id o) c) as [e|] eqn:He.
  - apply resident_entry in He as [He _]. by apply update_within.
  - apply insert_within, room_within; [by apply ensure_type_ok|by apply (within_sized _ _ _ (ensure_type_sized _ _))].
Qed.

(** Additions one at a time, nothing observed. *)
Definition single_input (i : cache_input V) : Prop :=
  match i with AddBatch _ _ | Observe _ => False | _ => True end.

Lemma clear_sized b c : observed c = [] → sized (clear b c) = ([], []).
Proof.
  intros Ho. unfold clear. set (preserved := List.filter (keep_entry b c) (entries c)).
  assert (Hnil : preserved = []).
  { unfold preserved. assert (Hf : ∀ l, List.filter (keep_entry b c) l = []); [|apply Hf]. intros l. induction l as [|p l IH]; [done|]. simpl.
    unfold keep_entry at 1. by rewrite (proj2 (nothing_observed p.1 (e_model p.2) c Ho)), andb_false_r. }
  rewrite Hnil. cbn [omap list_omap foldl]. unfold sized. cbn [observed entries with_access with_fk with_entries with_types with_recent with_earliest with_deltas].
  f_equal. generalize (List.filter (λ p, negb (keep_entry b c p)) (entries c)). intros l. clear Hnil preserved. revert c Ho.
  induction l as [|p l IH]; intros c Ho; [done|]. simpl. apply IH. simpl. by rewrite Ho.
Qed.

Lemma within_step now i c :
  cache_ok kind c → single_input i → within (maxSize cfg) c → within (maxSize cfg) (cache_step cfg toJSON readonly newDate now c i).
Proof.
  intros Hc Hi Hw. destruct i; simpl in *; try done.
  - by apply add_within.
  - unfold upsert. destruct (model_at r c) as [o|]; [|done]. destruct (resident (i_id o) c) as [e|] eqn:He; [|by apply add_within].
    apply resident_entry in He as [He _]. by apply update_within.
  - unfold upsertBatch. revert c Hc Hw. induction models as [|r models IH]; intros c Hc Hw; [done|]. simpl.
    apply IH; [by apply upsert_one_ok|by apply upsert_one_within].
  - unfold createFromData, getOfType, get. repeat case_match; simplify_eq; done.
  - by apply remove_within.
  - by apply removes_within.
  - unfold removeFromArchive. repeat case_match; try done. by apply remove_within.
  - unfold updateScope. destruct (map_get id (entries c)) eqn:He; [by apply rescope_within|done].
  - unfold get. by case_match.
  - unfold gc. eapply within_sized; [apply cleanup_sized|]. eapply within_sized; [by instantiate (1 := foldl remove_ _ _)|].
    apply removes_within. eapply within_sized; [by apply fold_sized|done].
  - destruct (clear_sized preserveObserved c (proj1 Hw)) as []. pose proof (clear_sized preserveObserved c (proj1 Hw)) as Hs.
    unfold sized in Hs. injection Hs as E1 E2. unfold within. rewrite E1, E2. simpl. split; [done|lia].
  - unfold registerForeignKey. by repeat case_match.
  - unfold disposeView. repeat case_match; try done. unfold unregister. by case_match.
Qed.

Inductive single_reach : cache V → Prop :=
  | single_start : single_reach new_cache
  | single_next c now i : single_reach c → input_kind kind i → single_input i →
      single_reach (cache_step cfg toJSON readonly newDate now c i).

(** With a cap of at least one and nothing observed, the cache never holds more
    entries than its cap, whatever is added and upserted one by one or in upsert
    batches, removed, rescoped, collected or cleared: an addition to a full cache first
    evicts one entry, and eviction always finds one, stamped or not. (A batch of
    additions can exceed the cap, and an observed entry is never evicted.) *)
Theorem cache_is_capped c : single_reach c → Z.of_nat (length (entries c)) <= maxSize cfg.
Proof.
  assert (Hboth : single_reach c → cache_ok kind c ∧ within (maxSize cfg) c).
  { induction 1 as [|c' now i _ [Hc Hw] Hk Hi].
    - split; [apply (cache_reach_ok kind cfg toJSON readonly newDate); constructor|split; [done|simpl; lia]].
    - split; [by apply cache_ok_step|by apply within_step]. }
  intros [_ [_ Hn]]%Hboth. done.
Qed.
End CacheBounds.

(** * Runs of the instance cache

    The cache on strings: the witnesses of the theorems on views and cache, and the runs
    in which a view goes wrong or rows are lost. *)

(** ** Strings as values *)

Definition string_lt (s t : string) : bool := match String.compare s t with Lt => true | _ => false end.

Lemma string_lt_spec s t : string_lt s t = true ↔ String_as_OT.lt s t.
Proof. unfold string_lt. rewrite <- String_as_OT.cmp_lt. unfold String_as_OT.cmp. by destruct (String.compare s t). Qed.

#[export] Instance string_value : JsValue string := { js_lt := string_lt; js_string := Some }.

#[export] Instance string_column : JsColumn string.
Proof.
  assert (Htrans : ∀ x y z, string_lt x y = true → string_lt y z = true → string_lt x z = true).
  { intros x y z. rewrite !string_lt_spec. apply String_as_OT.lt_trans. }
  assert (Hirr : ∀ x, string_lt x x = false).
  { intros x. pose proof (proj2 (String_as_OT.cmp_eq x x) eq_refl) as E. unfold String_as_OT.cmp in E. unfold string_lt. by rewrite E. }
  split; [done|done|]. simpl. intros x y z Hxy Hyz. apply not_true_iff_false. intros Hxz.
  unfold string_lt in Hxy, Hyz. rewrite String.compare_antisym in Hxy, Hyz.
  destruct (String.compare y x) eqn:E1; [apply String.compare_eq_iff in E1 as ->| |done].
  - destruct (String.compare z x) eqn:E2; [apply String.compare_eq_iff in E2 as ->; by rewrite Hirr in Hxz| |done].
    assert (Hzx : string_lt z x = true) by (unfold string_lt; by rewrite E2). pose proof (Htrans x z x Hxz Hzx) as Hxx. by rewrite Hirr in Hxx.
  - assert (Hyx : string_lt y x = true) by (unfold string_lt; by rewrite E1). pose proof (Htrans y x z Hyx Hxz) as Hyz'.
    destruct (String.compare z y) eqn:E2; [apply String.compare_eq_iff in E2 as ->; by rewrite Hirr in Hyz'| |done].
    assert (Hzy : string_lt z y = true) by (unfold string_lt; by rewrite E2). pose proof (Htrans z y z Hzy Hyz') as Hzz.
    by rewrite Hirr in Hzz.
Qed.

(** ** The cache of the runs *)

Definition run_step (cap : Z) : Z → cache string → cache_input string → cache string :=
  cache_step (mkPoolConfig cap None) i_fields (λ _ _, false) (λ d, d).

Definition run_from (cap : Z) (c : cache string) (l : list (cache_input string)) : cache string :=
  foldl (λ c i, run_step cap 1000 c i) c l.
Definition run (cap : Z) (l : list (cache_input string)) : cache string := run_from cap new_cache l.

(** Every id is that of an issue. *)
Definition issue_kind (_ : string) : string := "Issue".
Definition issue (id rank : string) : instance string :=
  mkInstance id "Issue" [("rank", Value rank); ("projectId", Value "p1")].
Definition by_rank : view_options string := mkViewOptions None None (Some "rank"%string) Asc None None.
Definition set_rank (rank : string) : list (string * field_value string) := [("rank"%string, Value rank)].

Definition view_rows (k : nat) (c : cache string) : list nat := default [] (internal <$> views c !! k).
Definition rank_of (c : cache string) (r : nat) : field_value string := sort_value (heap c) "rank" r.

Definition steady_run : cache string :=
  let c := run 3 [Construct (issue "a" "2"); Construct (issue "b" "1"); Construct (issue "d" "3"); Construct (issue "e" "0");
    CreateView "Issue" by_rank LiveScope; AddBatch [0; 1]%nat LiveScope; Upsert 2 LiveScope] in
  let c := run_from 3 c [Assign 0 (set_rank "9"); Upsert 0 LiveScope] in
  run_from 3 c [Add 3 LiveScope None; Remove "d"].

Lemma binary_insertion_keeps_order_witness :
  in_order Desc [Value "9"; Value "5"; Null]%string
  ∧ binaryInsertionIndex [Value "9"; Value "5"; Null]%string (Value "7"%string) Desc = 1%nat
  ∧ in_order Desc [Value "9"; Value "7"; Value "5"; Null]%string.
Proof.
  assert (Hs : in_order Desc [Value "9"; Value "5"; Null]%string) by repeat constructor.
  split; [exact Hs|]. split; [reflexivity|]. exact (proj2 (binary_insertion_keeps_order Desc _ (Value "7"%string) Hs)).
Defined.

Lemma cache_stays_well_formed_witness :
  getByTypeName "Issue" LiveScope steady_run = [1; 3]%nat ∧ NoDup (entries steady_run).*1
  ∧ ∀ T s, NoDup (getByTypeName T s steady_run).
Proof.
  assert (Hr : cache_reach issue_kind (mkPoolConfig 3 None) i_fields (λ _ _, false) (λ d, d) steady_run).
  { unfold steady_run, run, run_from. cbn [foldl]. repeat (apply cache_next; [|done]). constructor. }
  split; [vm_compute; reflexivity|]. split; [exact (proj1 (cache_stays_well_formed _ _ _ _ _ _ Hr))|].
  exact (proj2 (proj2 (proj2 (proj2 (cache_stays_well_formed _ _ _ _ _ _ Hr))))).
Defined.

(** A decidable side condition, evaluated. *)
Ltac evaluate := cbn [steady_input]; refine (bool_decide_unpack _ _); vm_compute; exact I.

(** A view by rank through additions, a change, an eviction and a removal. *)
Lemma views_follow_their_queries_witness :
  ∃ v, views steady_run !! 0%nat = Some v ∧ internal v = [3; 1]%nat ∧ results v = window v
    ∧ in_order Asc (sort_value (heap steady_run) "rank" <$> internal v).
Proof.
  assert (Hs : steady (mkPoolConfig 3 None) i_fields (λ _ _, false) (λ d, d) issue_kind steady_run).
  { unfold steady_run, run, run_from. cbn [foldl]. do 2 (apply steady_next; [|evaluate]).
    apply steady_change; [|evaluate]. repeat (apply steady_next; [|evaluate]). constructor. }
  destruct (views steady_run !! 0%nat) as [v|] eqn:Hv; [|vm_compute in Hv; discriminate].
  assert (Hd : v_disposed v = false) by (revert Hv; vm_compute; by intros [= <-]).
  destruct (views_follow_their_queries _ _ _ _ _ steady_run 0 v Hs Hv Hd) as (_ & Ho & Hw).
  assert (Hfields : internal v = [3; 1]%nat ∧ sortKey v = Some "rank"%string ∧ sortDir v = Asc)
    by (clear -Hv; revert Hv; vm_compute; intros [= <-]; repeat split).
  destruct Hfields as (Hi & Hk & Hdir). exists v. rewrite <- Hdir. split; [reflexivity|]. split; [exact Hi|].
  split; [exact Hw|exact (Ho _ Hk)].
Defined.

Lemma cache_is_capped_witness :
  length (entries (run 2 [Construct (issue "a" "2"); Construct (issue "b" "1"); Construct (issue "d" "3");
    Add 0 LiveScope None; Add 1 LiveScope None; UpsertBatch [2; 0]%nat LiveScope])) = 2%nat
  ∧ Z.of_nat (length (entries (run 2 [Construct (issue "a" "2"); Add 0 LiveScope None]))) <= 2.
Proof.
  split; [vm_compute; reflexivity|]. set (c := run _ _).
  assert (Hr : single_reach issue_kind (mkPoolConfig 2 None) i_fields (λ _ _, false) (λ d, d) c).
  { unfold c, run, run_from. cbn [foldl]. repeat (apply single_next; [|done|done]). constructor. }
  exact (cache_is_capped issue_kind (mkPoolConfig 2 None) ltac:(simpl; lia) _ _ _ c Hr).
Defined.

(** ** Frames of updates *)

(** Five issues in a view by rank; a frame moves [c] and [e] in place, as the conflict
    resolution of deltas and a bootstrap do, and then upserts both. *)
Definition ranked : cache string :=
  run 100 [Construct (issue "a" "1"); Construct (issue "b" "3"); Construct (issue "c" "5"); Construct (issue "d" "7");
    Construct (issue "e" "9"); CreateView "Issue" by_rank LiveScope; AddBatch [0; 1; 2; 3; 4]%nat LiveScope].
Definition frame : cache string :=
  run_from 100 ranked [Assign 4 (set_rank "8"); Assign 2 (set_rank "9"); UpsertBatch [4; 2]%nat LiveScope].
Definition one_by_one : cache string :=
  run_from 100 ranked [Assign 4 (set_rank "8"); Upsert 4 LiveScope; Assign 2 (set_rank "9"); Upsert 2 LiveScope].

Definition shown_ranks (c : cache string) : list (field_value string) := rank_of c <$> view_rows 0 c.

(** Two rows of a sorted view updated in place before either is notified leave the
    view out of order: the binary search for the first row compares it with the second,
    whose new value is not where the array has it, and the row stays in the wrong place
    when the second moves on. The same changes notified one after the other leave the
    view in order. *)
Theorem a_frame_of_updates_unsorts_a_view :
  shown_ranks frame = [Value "1"; Value "3"; Value "8"; Value "7"; Value "9"]%string
  ∧ ¬ in_order Asc (shown_ranks frame)
  ∧ shown_ranks one_by_one = [Value "1"; Value "3"; Value "7"; Value "8"; Value "9"]%string
  ∧ (∀ r, i_fields <$> heap frame !! r = i_fields <$> heap one_by_one !! r).
Proof.
  refine (conj _ (conj _ (conj _ _))).
  - vm_compute. reflexivity.
  - intros Hs. assert (Hw : after Asc (Value "8"%string) (Value "7"%string) = false).
    { apply (in_order_lookup Asc (shown_ranks frame) 2 3); [done|vm_compute; reflexivity|vm_compute; reflexivity|lia]. }
    vm_compute in Hw. discriminate.
  - vm_compute. reflexivity.
  - intros r. do 5 (destruct r as [|r]; [vm_compute; reflexivity|]). vm_compute. reflexivity.
Qed.

(** ** Batches at the cap *)

(** Two issues in a cache of two. *)
Definition at_the_cap : cache string :=
  run 2 [Construct (issue "a" "1"); Construct (issue "b" "2"); Construct (issue "d" "3");
    AddBatch [0; 1]%nat LiveScope].

(** In a full cache a batch that updates a resident row and adds another loses
    rows. The addition evicts and disposes the oldest entry, which may be the row the
    batch updates; the batch then stores the disposed instance, which no read returns.
    An upsert batch ends with two entries of which one is readable, a batch of
    additions with more entries than the cap. *)
Theorem batches_at_the_cap_lose_rows :
  let upserted := run_from 2 at_the_cap [UpsertBatch [2; 0]%nat LiveScope] in
  let added := run_from 2 at_the_cap [AddBatch [0; 2]%nat LiveScope] in
  (entries upserted).*1 = ["d"; "a"]%string ∧ getByTypeName "Issue" AllScope upserted = [2]%nat
  ∧ (entries added).*1 = ["b"; "a"; "d"]%string ∧ getByTypeName "Issue" AllScope added = [1; 2]%nat
  ∧ resident "a" upserted = None ∧ resident "a" added = None.
Proof. vm_compute. repeat split; reflexivity. Qed.

(** ** What views are not told *)

Definition archived_view : cache string :=
  run 100 [Construct (issue "a" "1"); Construct (issue "b" "2"); CreateView "Issue" by_rank LiveScope;
    CreateView "Issue" by_rank ArchivedScope; Add 0 LiveScope None; Add 1 LiveScope None; UpdateScope "a" ArchivedScope].

Definition cleared : cache string :=
  run 100 [Construct (issue "a" "1"); Construct (issue "a" "2"); CreateView "Issue" by_rank LiveScope;
    Add 0 LiveScope None; Clear false; UpsertBatch [1]%nat LiveScope].

(** Views are not told of a change of scope nor of a clear. A live view keeps a row
    that was archived, a view of the archived rows shows the live ones and is the same
    before and after, and after a clear the view keeps the disposed instance and, once
    the row is loaded again, shows the id twice. *)
Theorem views_miss_scopes_and_clears :
  view_rows 0 archived_view = [0; 1]%nat ∧ getByTypeName "Issue" LiveScope archived_view = [1]%nat
  ∧ view_rows 1 archived_view = [0; 1]%nat ∧ getByTypeName "Issue" ArchivedScope archived_view = [0]%nat
  ∧ view_rows 0 cleared = [0; 1]%nat ∧ getByTypeName "Issue" LiveScope cleared = [1]%nat
  ∧ (λ r, i_id <$> heap cleared !! r) <$> view_rows 0 cleared = [Some "a"; Some "a"]%string.
Proof. vm_compute. repeat split; reflexivity. Qed.

(** A row whose parent changed: the foreign-key index has it under the parent it had
    when it was added, and a view that uses the index starts from that. *)
Definition moved : cache string :=
  run 100 [Construct (issue "a" "1"); RegisterForeignKey "Issue" "projectId"; Add 0 LiveScope None;
    Assign 0 [("projectId"%string, Value "p2"%string)]; Upsert 0 LiveScope;
    CreateView "Issue" (mkViewOptions (Some [("projectId"%string, Value "p2"%string)]) None None Asc None None) LiveScope;
    CreateView "Issue" (mkViewOptions (Some [("rank"%string, Value "1"%string)]) None None Asc None None) LiveScope].

Theorem a_moved_row_stays_with_its_parent :
  getByForeignKey "Issue" "projectId" "p1" moved = [0]%nat ∧ getByForeignKey "Issue" "projectId" "p2" moved = []
  ∧ view_rows 0 moved = [] ∧ view_rows 1 moved = [0]%nat
  ∧ view_rows 0 (run_from 100 moved [Upsert 0 LiveScope]) = [0]%nat.
Proof. vm_compute. repeat split; reflexivity. Qed.
