(* ===== verification/Confirmation.v ===== *)
(** * Waiting for the confirming delta

    [deltaConfirmation.ts] and [UnconfirmedWrites.ts] of
    [packages/humans/src/local/transactions/mutations]: the timers that wait for the
    delta of an accepted write, the rule by which a delta confirms one, and the set
    of ids by which a client recognizes its own echoes. The timers are inputs; a
    timer that fired keeps its entry in the map until the code deletes it. *)
From S2P Require Import Prelude JsData MutationQueue.
#[local] Open Scope Z_scope.

(** ** The tracker ([DeltaConfirmationTracker]) *)

Definition DELTA_MAX_RETRIES : Z := 5.
Definition DELTA_MAX_TIMEOUT_MS : Z := 120000.

(** A timeout is its delay and whether its timer is still armed. *)
Record DeltaConfirmationTracker := mkTracker {
  deltaConfirmationTimeouts : list (string * (Z * bool));
  deltaConfirmationRetries : list (string * Z);
  dc_disposed : bool;
}.

Inductive confirm_event :=
  | TxCompleted (id : string)
  | TxCompletedFor (id : string)
  | ReconciliationNeeded (exhausted : bool) (id : string) (retryCount : Z)
  | PersistAwaiting (id : string).

(** What the tracker works on: the store, its own maps, the optimistic ledger and
    the events it emitted. *)
Record confirmation := mkConfirmation {
  cf_store : MutationStore;
  cf_tracker : DeltaConfirmationTracker;
  optimisticUpdates : list string;
  cf_events : list confirm_event;
}.

Definition new_confirmation : confirmation := mkConfirmation new_store (mkTracker [] [] false) [] [].

Definition with_tracker (f : DeltaConfirmationTracker → DeltaConfirmationTracker) (s : confirmation) : confirmation :=
  mkConfirmation (cf_store s) (f (cf_tracker s)) (optimisticUpdates s) (cf_events s).
Definition cf_emit (l : list confirm_event) (s : confirmation) : confirmation :=
  mkConfirmation (cf_store s) (cf_tracker s) (optimisticUpdates s) (cf_events s ++ l).

Definition set_timeout (id : string) (entry : Z * bool) (t : DeltaConfirmationTracker) : DeltaConfirmationTracker :=
  mkTracker (map_set id entry (deltaConfirmationTimeouts t)) (deltaConfirmationRetries t) (dc_disposed t).
Definition delete_timeout (id : string) (t : DeltaConfirmationTracker) : DeltaConfirmationTracker :=
  mkTracker (map_delete id (deltaConfirmationTimeouts t)) (deltaConfirmationRetries t) (dc_disposed t).
Definition set_retries (id : string) (n : Z) (t : DeltaConfirmationTracker) : DeltaConfirmationTracker :=
  mkTracker (deltaConfirmationTimeouts t) (map_set id n (deltaConfirmationRetries t)) (dc_disposed t).
Definition delete_retries (id : string) (t : DeltaConfirmationTracker) : DeltaConfirmationTracker :=
  mkTracker (deltaConfirmationTimeouts t) (map_delete id (deltaConfirmationRetries t)) (dc_disposed t).

Definition cancelDeltaConfirmationTimeout (id : string) (t : DeltaConfirmationTracker) : DeltaConfirmationTracker :=
  delete_retries id (delete_timeout id t).

Definition scheduleDeltaConfirmationTimeout (id : string) (timeoutMs : Z) (t : DeltaConfirmationTracker)
    : DeltaConfirmationTracker :=
  if dc_disposed t then t
  else set_timeout id (timeoutMs, true) (cancelDeltaConfirmationTimeout id t).

Definition dispose_tracker (t : DeltaConfirmationTracker) : DeltaConfirmationTracker := mkTracker [] [] true.

Definition awaiting (id : string) (s : confirmation) : bool :=
  match store_get id (cf_store s) with
  | Some tx => bool_decide (tx_status tx = tx_awaiting_delta)
  | None => false
  end.

(** The callback of a timer armed with [timeoutMs]. *)
Definition timeout_fires (id : string) (timeoutMs : Z) (isConnected : bool) (s : confirmation) : confirmation :=
  let s := with_tracker (set_timeout id (timeoutMs, false)) s in
  if negb (awaiting id s) then with_tracker (delete_retries id) s
  else if negb isConnected then
    with_tracker (λ t, scheduleDeltaConfirmationTimeout id timeoutMs (delete_timeout id t)) s
  else
    let retryCount := default 0 (map_get id (deltaConfirmationRetries (cf_tracker s))) in
    if retryCount <? DELTA_MAX_RETRIES then
      let s := with_tracker (λ t, delete_timeout id (set_retries id (retryCount + 1) t)) s in
      let nextTimeout := Z.min (timeoutMs * 2) DELTA_MAX_TIMEOUT_MS in
      let s := cf_emit [ReconciliationNeeded false id (retryCount + 1)] s in
      with_tracker (scheduleDeltaConfirmationTimeout id nextTimeout) s
    else
      let s := with_tracker (λ t, delete_timeout id (delete_retries id t)) s in
      cf_emit [PersistAwaiting id; ReconciliationNeeded true id DELTA_MAX_RETRIES] s.

(** ** A delta ([onDeltaReceived]) *)

Definition matchesSourceEcho (tx : QueuedMutation) (correlationId : option string) : bool :=
  match correlationId, tx_correlationId tx with
  | Some c, Some c' => String.eqb c c'
  | _, _ => false
  end.

Definition confirmedBy (syncId : Z) (correlationId : option string) (tx : QueuedMutation) : bool :=
  (tx_requiresCorrelatedDelta tx && matchesSourceEcho tx correlationId)
  || (negb (tx_requiresCorrelatedDelta tx)
      && match tx_syncIdNeededForCompletion tx with Some needed => needed <=? syncId | None => false end).

Definition confirm_one (syncId : Z) (correlationId : option string) (s : confirmation) (tx : QueuedMutation)
    : confirmation :=
  if confirmedBy syncId correlationId tx then
    mkConfirmation (updateStatus (tx_id tx) tx_completed (cf_store s))
      (cancelDeltaConfirmationTimeout (tx_id tx) (cf_tracker s))
      (set_remove (tx_id tx) (optimisticUpdates s))
      (cf_events s ++ [TxCompleted (tx_id tx); TxCompletedFor (tx_id tx)])
  else s.

Definition onDeltaReceived (syncId : Z) (correlationId : option string) (s : confirmation) : confirmation :=
  foldl (confirm_one syncId correlationId) s (getByStatus tx_awaiting_delta (cf_store s)).

(** ** Runs *)

Inductive confirm_input :=
  | ScheduleConfirmation (id : string) (timeoutMs : Z)
  | DeltaReceived (syncId : Z) (correlationId : option string)
  | TimeoutFires (id : string) (isConnected : bool)
  | StoreChanges (o : store_op)
  | DisposeTracker.

(** The delay of the armed timer of a mutation. *)
Definition armed (id : string) (s : confirmation) : option Z :=
  match map_get id (deltaConfirmationTimeouts (cf_tracker s)) with
  | Some (ms, true) => Some ms
  | _ => None
  end.

Definition confirm_step (s : confirmation) (i : confirm_input) : confirmation :=
  match i with
  | ScheduleConfirmation id ms => with_tracker (scheduleDeltaConfirmationTimeout id ms) s
  | DeltaReceived syncId corr => onDeltaReceived syncId corr s
  | TimeoutFires id conn => match armed id s with Some ms => timeout_fires id ms conn s | None => s end
  | StoreChanges o => mkConfirmation (store_step (cf_store s) o) (cf_tracker s) (optimisticUpdates s) (cf_events s)
  | DisposeTracker => with_tracker dispose_tracker s
  end.

Definition confirm_enabled (s : confirmation) (i : confirm_input) : Prop :=
  match i with
  | StoreChanges o => fresh_add (cf_store s) o
  | TimeoutFires id _ => is_Some (armed id s)
  | _ => True
  end.

Inductive confirm_reach : confirmation → Prop :=
  | confirm_start : confirm_reach new_confirmation
  | confirm_next s i : confirm_reach s → confirm_enabled s i → confirm_reach (confirm_step s i).

(** ** The retry count is always forgotten *)

Definition gave_up (ev : confirm_event) : bool :=
  match ev with PersistAwaiting _ | ReconciliationNeeded true _ _ => true | _ => false end.
Definition first_retry (ev : confirm_event) : bool :=
  match ev with ReconciliationNeeded _ _ n => n =? 1 | _ => true end.

(** The retry map is empty between inputs and no event reports more than one retry. *)
Record forgetful (s : confirmation) : Prop := {
  fg_retries : deltaConfirmationRetries (cf_tracker s) = [];
  fg_events : Forall (λ ev, gave_up ev = false ∧ first_retry ev = true) (cf_events s);
}.

Lemma map_delete_one {V} (id : string) (v : V) : map_delete id [(id, v)] = [].
Proof. unfold map_delete. rewrite filter_cons_False by (simpl; tauto). done. Qed.

Lemma schedule_live id ms t :
  dc_disposed t = false →
  scheduleDeltaConfirmationTimeout id ms t = set_timeout id (ms, true) (cancelDeltaConfirmationTimeout id t).
Proof. unfold scheduleDeltaConfirmationTimeout. by intros ->. Qed.

Lemma schedule_forgets id ms t :
  dc_disposed t = false → deltaConfirmationRetries t = [] ∨ (∃ n, deltaConfirmationRetries t = [(id, n)]) →
  deltaConfirmationRetries (scheduleDeltaConfirmationTimeout id ms t) = [].
Proof.
  intros Hd Hr. unfold scheduleDeltaConfirmationTimeout. rewrite Hd. simpl.
  destruct Hr as [-> | [n ->]]; [done|apply map_delete_one].
Qed.

(** A disposed tracker has no timers. *)
Definition disposed_idle (s : confirmation) : Prop :=
  dc_disposed (cf_tracker s) = true → deltaConfirmationTimeouts (cf_tracker s) = [].

Lemma confirm_all_tracker syncId corr l s :
  forgetful s → disposed_idle s →
  forgetful (foldl (confirm_one syncId corr) s l) ∧ disposed_idle (foldl (confirm_one syncId corr) s l).
Proof.
  revert s. induction l as [|tx l IH]; intros s Hf Hd; [done|]. simpl. apply IH.
  - unfold confirm_one. destruct (confirmedBy _ _ _); [|done]. destruct Hf as [A B]. split; simpl.
    + by rewrite A.
    + apply Forall_app. split; [done|]. by repeat constructor.
  - unfold confirm_one. destruct (confirmedBy _ _ _); [|done]. unfold disposed_idle. simpl. intros H.
    by rewrite (Hd H).
Qed.

Lemma armed_not_disposed id s ms : disposed_idle s → armed id s = Some ms → dc_disposed (cf_tracker s) = false.
Proof.
  intros Hd Ha. destruct (dc_disposed (cf_tracker s)) eqn:E; [|done]. unfold armed in Ha. by rewrite (Hd E) in Ha.
Qed.

(** What a timer does when its mutation still waits and the client is connected. *)
Lemma fires_connected id ms s :
  forgetful s → disposed_idle s → armed id s = Some ms → awaiting id s = true →
  let s' := timeout_fires id ms true s in
  forgetful s' ∧ disposed_idle s' ∧ cf_store s' = cf_store s
  ∧ armed id s' = Some (Z.min (ms * 2) DELTA_MAX_TIMEOUT_MS)
  ∧ cf_events s' = cf_events s ++ [ReconciliationNeeded false id 1].
Proof.
  intros [A B] Hd Ha Hw. pose proof (armed_not_disposed _ _ _ Hd Ha) as Hn. unfold timeout_fires.
  change (awaiting id (with_tracker (set_timeout id (ms, false)) s)) with (awaiting id s). rewrite Hw.
  unfold with_tracker, cf_emit. cbn -[scheduleDeltaConfirmationTimeout map_delete]. rewrite A.
  cbn -[scheduleDeltaConfirmationTimeout map_delete]. rewrite schedule_live by done. split_and!; try done.
  - split; [simpl; rewrite A; apply map_delete_one|]. simpl. apply Forall_app. split; [done|]. by repeat constructor.
  - unfold disposed_idle. simpl. by rewrite Hn.
  - unfold armed. simpl. by rewrite map_get_set, decide_True by done.
Qed.

Lemma confirm_step_forgetful s i :
  forgetful s → disposed_idle s → confirm_enabled s i → forgetful (confirm_step s i) ∧ disposed_idle (confirm_step s i).
Proof.
  intros Hf Hd Hen. pose proof Hf as [A B]. destruct i; simpl in *.
  - destruct (dc_disposed (cf_tracker s)) eqn:E.
    + unfold with_tracker, scheduleDeltaConfirmationTimeout. rewrite E. by destruct s.
    + split; [split; [apply schedule_forgets; auto|done]|].
      unfold disposed_idle, with_tracker, scheduleDeltaConfirmationTimeout. rewrite E. simpl. by rewrite E.
  - by apply confirm_all_tracker.
  - destruct Hen as [ms Ha]. rewrite Ha. destruct (awaiting id s) eqn:Hw.
    + destruct isConnected; [by destruct (fires_connected id ms s) as (? & ? & _)|].
      pose proof (armed_not_disposed _ _ _ Hd Ha) as Hn. unfold timeout_fires.
      change (awaiting id (with_tracker (set_timeout id (ms, false)) s)) with (awaiting id s). rewrite Hw.
      unfold with_tracker. cbn -[scheduleDeltaConfirmationTimeout]. rewrite schedule_live by done. split; [split|]; simpl.
      * by rewrite A.
      * done.
      * unfold disposed_idle. simpl. by rewrite Hn.
    + unfold timeout_fires.
      change (awaiting id (with_tracker (set_timeout id (ms, false)) s)) with (awaiting id s). rewrite Hw. simpl.
      split; [split; simpl; [by rewrite A|done]|]. unfold disposed_idle. simpl.
      by rewrite (armed_not_disposed _ _ _ Hd Ha).
  - split; [by split|exact Hd].
  - split; [by split|done].
Qed.

Lemma confirm_reach_forgetful s : confirm_reach s → forgetful s ∧ disposed_idle s.
Proof.
  induction 1 as [|s i _ [Hf Hd] Hen]; [split; [by split; [|constructor]|done]|]. by apply confirm_step_forgetful.
Qed.

Fixpoint fire_times (n : nat) (id : string) (s : confirmation) : confirmation :=
  match n with
  | O => s
  | S n => fire_times n id (confirm_step s (TimeoutFires id true))
  end.

Lemma fire_times_spec n id s ms :
  forgetful s → disposed_idle s → armed id s = Some ms → awaiting id s = true →
  let s' := fire_times n id s in
  awaiting id s' = true
  ∧ armed id s' = Some (if (n =? 0)%nat then ms else Z.min (ms * 2 ^ Z.of_nat n) DELTA_MAX_TIMEOUT_MS)
  ∧ cf_events s' = cf_events s ++ repeat (ReconciliationNeeded false id 1) n.
Proof.
  revert s ms. induction n as [|n IH]; intros s ms Hf Hd Ha Hw; simpl; [by rewrite app_nil_r|].
  rewrite Ha. destruct (fires_connected id ms s Hf Hd Ha Hw) as (Hf' & Hd' & Hs & Ha' & He).
  assert (Hw' : awaiting id (timeout_fires id ms true s) = true) by (unfold awaiting; by rewrite Hs).
  destruct (IH _ _ Hf' Hd' Ha' Hw') as (H1 & -> & ->). split_and!; [done| |].
  - f_equal. destruct n as [|n]; [done|]. simpl (S n =? 0)%nat. cbv iota.
    rewrite <- (Nat2Z.id (S (S n))) at 1. rewrite Nat2Z.id.
    replace (Z.of_nat (S (S n))) with (Z.succ (Z.of_nat (S n))) by lia. rewrite Z.pow_succ_r by lia.
    assert (1 ≤ 2 ^ Z.of_nat (S n)) by (apply Z.pow_le_mono_r with (b := 0); lia || (rewrite <- (Z.pow_0_r 2); apply Z.pow_le_mono_r; lia)).
    unfold DELTA_MAX_TIMEOUT_MS. nia.
  - by rewrite He, <- app_assoc.
Qed.

(** ** The theorems about deltas *)

(** The wait for a confirming delta never gives up. In any reachable state of
    the tracker, a mutation that still waits behind an armed timer waits on,
    however often the timer fires while the client is connected: every firing
    asks for one reconciliation, always as the first retry, and arms the next
    timer, whose delay doubles up to two minutes. No run ever persists an
    awaiting mutation or reports its retries as exhausted, because re-arming the
    timer forgets the retry it has just counted. *)
Theorem confirmation_never_gives_up s id ms n
    (Hr : confirm_reach s) (Ha : armed id s = Some ms) (Hw : awaiting id s = true) :
  Forall (λ ev, gave_up ev = false) (cf_events s)
  ∧ let s' := fire_times n id s in
    awaiting id s' = true
    ∧ armed id s' = Some (if (n =? 0)%nat then ms else Z.min (ms * 2 ^ Z.of_nat n) DELTA_MAX_TIMEOUT_MS)
    ∧ cf_events s' = cf_events s ++ repeat (ReconciliationNeeded false id 1) n.
Proof.
  destruct (confirm_reach_forgetful s Hr) as [Hf Hd]. split; [|by apply fire_times_spec].
  eapply Forall_impl; [apply (fg_events s Hf)|]. by intros ev [].
Qed.

(** The ids a delta confirms, in the order of the status index. *)
Definition confirmed_ids (syncId : Z) (correlationId : option string) (l : list QueuedMutation) : list string :=
  tx_id <$> base.filter (λ tx, confirmedBy syncId correlationId tx = true) l.

Lemma confirm_all_spec syncId corr l s :
  let s' := foldl (confirm_one syncId corr) s l in
  (∀ id, store_get id (cf_store s') =
     if decide (id ∈ confirmed_ids syncId corr l) then set_status tx_completed <$> store_get id (cf_store s)
     else store_get id (cf_store s))
  ∧ (∀ id, armed id s' = if decide (id ∈ confirmed_ids syncId corr l) then None else armed id s)
  ∧ (∀ id, id ∈ optimisticUpdates s' ↔ id ∈ optimisticUpdates s ∧ id ∉ confirmed_ids syncId corr l)
  ∧ cf_events s' = cf_events s ++ flat_map (λ id, [TxCompleted id; TxCompletedFor id]) (confirmed_ids syncId corr l).
Proof.
  revert s. induction l as [|tx l IH]; intros s; simpl.
  { split_and!; intros; try (rewrite decide_False by (by intros ?%elem_of_nil)); try done.
    - split; [intros; split; [done|by intros ?%elem_of_nil]|tauto].
    - by rewrite app_nil_r. }
  destruct (IH (confirm_one syncId corr s tx)) as (H1 & H2 & H3 & H4).
  unfold confirmed_ids in *. remember (confirm_one syncId corr s tx) as s1 eqn:Hs1. unfold confirm_one in Hs1.
  destruct (confirmedBy syncId corr tx) eqn:E; subst s1.
  - rewrite filter_cons_True by done. rewrite fmap_cons. set (ids := tx_id <$> _) in *. split_and!.
    + intros id. rewrite H1. simpl. rewrite updateStatus_get.
      destruct (decide (id = tx_id tx)) as [->|Hne].
      * rewrite (decide_True (P := tx_id tx ∈ tx_id tx :: ids)) by left.
        by destruct (decide (tx_id tx ∈ ids)), (store_get (tx_id tx) (cf_store s)).
      * repeat case_decide; try done; set_solver.
    + intros id. rewrite H2. unfold armed. simpl. rewrite map_get_delete.
      repeat case_decide; try done; set_solver.
    + intros id. rewrite H3. simpl. rewrite elem_set_remove. set_solver.
    + rewrite H4. simpl. by rewrite <- app_assoc.
  - rewrite filter_cons_False by (by rewrite E). done.
Qed.

(** What one delta confirms. It completes exactly the mutations that await their
    delta and that it settles: a queued forward when the delta carries its own
    correlation, whatever the sync ids, and any other mutation when the delta's
    sync id reaches its threshold. Each of them is announced twice, in the order
    of the status index, loses its timer and its optimistic entry; every other
    mutation, timer and entry is left as it was. *)
Theorem delta_confirms_exactly s syncId corr (Hs : store_reach (cf_store s)) :
  let s' := onDeltaReceived syncId corr s in
  let confirmed id := ∃ tx, store_get id (cf_store s) = Some tx ∧ tx_status tx = tx_awaiting_delta
    ∧ (if tx_requiresCorrelatedDelta tx then is_Some corr ∧ tx_correlationId tx = corr
       else ∃ needed, tx_syncIdNeededForCompletion tx = Some needed ∧ needed ≤ syncId) in
  (∀ id, confirmed id → store_get id (cf_store s') = set_status tx_completed <$> store_get id (cf_store s)
     ∧ armed id s' = None ∧ id ∉ optimisticUpdates s')
  ∧ (∀ id, ¬ confirmed id → store_get id (cf_store s') = store_get id (cf_store s)
     ∧ armed id s' = armed id s ∧ (id ∈ optimisticUpdates s' ↔ id ∈ optimisticUpdates s))
  ∧ ∃ ids, NoDup ids ∧ (∀ id, id ∈ ids ↔ confirmed id)
     ∧ cf_events s' = cf_events s ++ flat_map (λ id, [TxCompleted id; TxCompletedFor id]) ids.
Proof.
  apply store_reach_inv in Hs. intros s' confirmed. set (l := getByStatus tx_awaiting_delta (cf_store s)).
  destruct (confirm_all_spec syncId corr l s) as (H1 & H2 & H3 & H4).
  change (foldl (confirm_one syncId corr) s l) with s' in *.
  assert (Hc : ∀ id, id ∈ confirmed_ids syncId corr l ↔ confirmed id).
  { intros id. unfold confirmed_ids, confirmed. rewrite list_elem_of_fmap. split.
    - intros (tx & -> & Hin). apply list_elem_of_filter in Hin as [Hb Hin].
      apply elem_getByStatus in Hin as [Hg Hst]; [|done]. exists tx. split_and!; [done..|].
      unfold confirmedBy, matchesSourceEcho in Hb. destruct (tx_requiresCorrelatedDelta tx); simpl in Hb.
      + rewrite orb_false_r in Hb. destruct corr as [c|], (tx_correlationId tx) as [c'|]; try done.
        apply String.eqb_eq in Hb as ->. split; [by eexists|done].
      + destruct (tx_syncIdNeededForCompletion tx) as [k|]; [|done]. exists k. split; [done|]. by apply Z.leb_le.
    - intros (tx & Hg & Hst & Hb). exists tx. pose proof (si_id _ Hs _ _ Hg) as <-. split; [done|].
      apply list_elem_of_filter. split; [|by apply elem_getByStatus]. unfold confirmedBy, matchesSourceEcho.
      destruct (tx_requiresCorrelatedDelta tx); simpl.
      + destruct Hb as [[c ->] ->]. by rewrite String.eqb_refl.
      + destruct Hb as (k & -> & Hk). by apply Z.leb_le. }
  split_and!.
  - intros id Hid%Hc. rewrite H1, H2, H3, !decide_True by done. by split_and!; [| |intros [_ ?]].
  - intros id Hid. rewrite <- Hc in Hid. rewrite H1, H2, H3, !decide_False by done. naive_solver.
  - exists (confirmed_ids syncId corr l). split_and!; [|done|done].
    assert (Hn : NoDup l) by (apply NoDup_omap_get; [done|apply Hs]).
    assert (Hids : ∀ a b, a ∈ l → b ∈ l → tx_id a = tx_id b → a = b).
    { intros a b Ha Hb E. apply elem_getByStatus in Ha as [Ha _], Hb as [Hb _]; try done. congruence. }
    unfold confirmed_ids. apply NoDup_fmap_2_strong; [|by apply NoDup_filter].
    intros a b [_ Ha]%list_elem_of_filter [_ Hb]%list_elem_of_filter. by apply Hids.
Qed.

(** ** Echoes ([UnconfirmedWrites]) *)

Record UnconfirmedWrites := mkUnconfirmed {
  uw_ids : list string;
  uw_maxSize : Z;
  totalAdded : Z;
  hits : Z;
  rollbacks : Z;
  evictions : Z;
}.

Definition new_unconfirmed (maxSize : option Z) : UnconfirmedWrites :=
  mkUnconfirmed [] (default 10000 maxSize) 0 0 0 0.

(** The oldest id makes room; an empty map has none. *)
Definition markPending (id : string) (u : UnconfirmedWrites) : UnconfirmedWrites :=
  if bool_decide (id ∈ uw_ids u) then u
  else
    let '(ids, evicted) :=
      if uw_maxSize u <=? Z.of_nat (length (uw_ids u)) then
        match uw_ids u with [] => ([], 0) | _ :: ids => (ids, 1) end
      else (uw_ids u, 0) in
    mkUnconfirmed (ids ++ [id]) (uw_maxSize u) (totalAdded u + 1) (hits u) (rollbacks u) (evictions u + evicted).

Definition consumeEcho (transactionId : option string) (u : UnconfirmedWrites) : UnconfirmedWrites * bool :=
  match transactionId with
  | None => (u, false)
  | Some id =>
      if String.eqb id "" then (u, false)
      else if bool_decide (id ∈ uw_ids u) then
        (mkUnconfirmed (set_remove id (uw_ids u)) (uw_maxSize u) (totalAdded u) (hits u + 1) (rollbacks u) (evictions u), true)
      else (u, false)
  end.

Definition drainOnRollback (id : string) (u : UnconfirmedWrites) : UnconfirmedWrites :=
  if bool_decide (id ∈ uw_ids u) then
    mkUnconfirmed (set_remove id (uw_ids u)) (uw_maxSize u) (totalAdded u) (hits u) (rollbacks u + 1) (evictions u)
  else u.

Definition uw_clear (u : UnconfirmedWrites) : UnconfirmedWrites :=
  mkUnconfirmed [] (uw_maxSize u) (totalAdded u) (hits u) (rollbacks u) (evictions u).

Inductive echo_input := Mark (id : string) | Echo (id : option string) | RollBack (id : string).
Definition echo_step (u : UnconfirmedWrites) (i : echo_input) : UnconfirmedWrites :=
  match i with
  | Mark id => markPending id u
  | Echo id => (consumeEcho id u).1
  | RollBack id => drainOnRollback id u
  end.
Definition echo_run (maxSize : option Z) (l : list echo_input) : UnconfirmedWrites :=
  foldl echo_step (new_unconfirmed maxSize) l.

(** What every run keeps: the ids are distinct, the bound holds up to the one id
    an empty map always takes, and every id ever added is accounted for. *)
Record echo_inv (u : UnconfirmedWrites) : Prop := {
  ei_nodup : NoDup (uw_ids u);
  ei_bound : Z.of_nat (length (uw_ids u)) ≤ Z.max 1 (uw_maxSize u);
  ei_account : totalAdded u = Z.of_nat (length (uw_ids u)) + hits u + rollbacks u + evictions u;
}.

Lemma set_remove_length x l : NoDup l → x ∈ l → length l = S (length (set_remove x l)).
Proof.
  unfold set_remove. induction 1 as [|y l Hy Hn IH]; [by intros ?%elem_of_nil|]. intros [->|Hx]%elem_of_cons.
  - rewrite filter_cons_False by tauto. simpl. f_equal. symmetry. f_equal.
    clear IH. induction l as [|z l IH]; [done|]. rewrite filter_cons_True by set_solver. f_equal.
    apply IH; [set_solver|by apply NoDup_cons in Hn as [_ ?]].
  - rewrite filter_cons_True by congruence. simpl. f_equal. by apply IH.
Qed.

Lemma drop_one_inv id u h r :
  echo_inv u → id ∈ uw_ids u → h + r = hits u + rollbacks u + 1 →
  echo_inv (mkUnconfirmed (set_remove id (uw_ids u)) (uw_maxSize u) (totalAdded u) h r (evictions u)).
Proof.
  intros [A B C] Hin Hhr. pose proof (set_remove_length id _ A Hin) as Hl.
  split; simpl; [by apply NoDup_filter|lia|lia].
Qed.

Lemma echo_step_inv u i : echo_inv u → echo_inv (echo_step u i).
Proof.
  intros Hu. pose proof Hu as [A B C]. destruct i; simpl.
  - unfold markPending. case_bool_decide as Hin; [done|].
    assert (Hfresh : ∀ ids, NoDup ids → (∀ x, x ∈ ids → x ∈ uw_ids u) → NoDup (ids ++ [id])).
    { intros ids Hn Hs. apply NoDup_app. split_and!; [done| |apply NoDup_singleton].
      intros x Hx ->%list_elem_of_singleton. auto. }
    destruct (Z.leb_spec (uw_maxSize u) (Z.of_nat (length (uw_ids u)))) as [H|H].
    + destruct (uw_ids u) as [|y ids] eqn:E; simpl in *.
      * split; simpl; [apply NoDup_singleton|lia|lia].
      * apply NoDup_cons in A as [? ?].
        split; simpl; [apply Hfresh; set_solver|rewrite length_app; simpl; lia|rewrite length_app; simpl; lia].
    + split; simpl; [by apply Hfresh|rewrite length_app; simpl; lia|rewrite length_app; simpl; lia].
  - unfold consumeEcho. destruct id as [id|]; [|done]. case_match; [done|]. case_bool_decide; [|done].
    apply drop_one_inv; [done..|lia].
  - unfold drainOnRollback. case_bool_decide; [|done]. apply drop_one_inv; [done..|lia].
Qed.

Lemma echo_run_inv maxSize l : echo_inv (echo_run maxSize l).
Proof.
  induction l as [|i l IH] using rev_ind; [split; simpl; [constructor|lia|lia]|].
  unfold echo_run in *. rewrite foldl_app. by apply echo_step_inv.
Qed.

(** Echo recognition. Whatever writes are marked, echoed and rolled back, the
    tracked ids are distinct and no more than the bound (one at least), and every
    id ever added is still tracked, was matched by one echo, was rolled back or
    was evicted. An echo is recognized exactly when its id is tracked, and the
    same echo is not recognized a second time unless the id is marked again. *)
Theorem echoes_are_consumed_once maxSize l id :
  let u := echo_run maxSize l in
  NoDup (uw_ids u)
  ∧ Z.of_nat (length (uw_ids u)) ≤ Z.max 1 (default 10000 maxSize)
  ∧ totalAdded u = Z.of_nat (length (uw_ids u)) + hits u + rollbacks u + evictions u
  ∧ ((consumeEcho (Some id) u).2 = true ↔ id ∈ uw_ids u ∧ id ≠ "")
  ∧ (∀ l', Mark id ∉ l' → (consumeEcho (Some id) u).2 = true →
      (consumeEcho (Some id) (foldl echo_step (consumeEcho (Some id) u).1 l')).2 = false).
Proof.
  intros u. destruct (echo_run_inv maxSize l) as [A B C].
  assert (Hmax : ∀ l' v, uw_maxSize (foldl echo_step v l') = uw_maxSize v).
  { induction l' as [|i l' IH]; intros v; [done|]. simpl. rewrite IH. destruct i as [i|[i|]|i]; simpl;
      unfold markPending, drainOnRollback; repeat case_match; done. }
  assert (Hrec : ∀ v, (consumeEcho (Some id) v).2 = true ↔ id ∈ uw_ids v ∧ id ≠ "").
  { intros v. simpl. destruct (String.eqb_spec id ""); [naive_solver|]. case_bool_decide; naive_solver. }
  split_and!; [done| |done|apply Hrec|].
  - unfold echo_run in B. by rewrite Hmax in B.
  - intros l' Hno Hhit. apply not_true_iff_false. rewrite Hrec. intros [Hin Hne]. revert Hin.
    assert (Hout : id ∉ uw_ids (consumeEcho (Some id) u).1).
    { simpl. destruct (String.eqb_spec id ""); [done|]. case_bool_decide as Hd; simpl; [|done].
      rewrite elem_set_remove. tauto. }
    revert Hout. generalize ((consumeEcho (Some id) u).1). clear Hhit. induction l' as [|i l' IH]; intros v Hv; [done|].
    apply not_elem_of_cons in Hno as [Hi Hno]. simpl. apply IH; [done|].
    destruct i as [i|[i|]|i]; simpl; [| |done|].
    + unfold markPending. case_bool_decide; [done|]. destruct (uw_ids v) as [|y ids] eqn:Ev;
        destruct (_ <=? _); simpl; rewrite ?elem_of_app, ?list_elem_of_singleton; set_solver.
    + destruct (String.eqb i ""); [done|]. case_bool_decide; simpl; [|done]. rewrite elem_set_remove. tauto.
    + unfold drainOnRollback. case_bool_decide; simpl; [|done]. rewrite elem_set_remove. tauto.
Qed.

(** ** Concrete runs *)

Definition accepted_write (id : string) (needed : option Z) (corr : option string) : QueuedMutation :=
  mkMutation id tx_update "Task" id [] tx_awaiting_delta 0 0 None false None None 50 needed corr (is_Some_b corr).

Definition waiting : confirmation :=
  foldl confirm_step new_confirmation
    [StoreChanges (StoreAdd (accepted_write "a" (Some 5) None)); ScheduleConfirmation "a" 30000;
     StoreChanges (StoreAdd (accepted_write "b" None (Some "r")))].

Lemma waiting_reach : confirm_reach waiting.
Proof. unfold waiting. cbn [foldl]. repeat (apply confirm_next; [|done]). constructor. Qed.

Lemma confirmation_never_gives_up_witness :
  armed "a" (fire_times 3 "a" waiting) = Some 120000
  ∧ Forall (λ ev, gave_up ev = false) (cf_events waiting).
Proof.
  destruct (confirmation_never_gives_up waiting "a" 30000 3 waiting_reach) as (H1 & _ & H2 & _); [done..|].
  split; [exact H2|exact H1].
Defined.

Lemma delta_confirms_exactly_witness :
  store_get "a" (cf_store (onDeltaReceived 7 None waiting)) = Some (set_status tx_completed (accepted_write "a" (Some 5) None))
  ∧ store_get "b" (cf_store (onDeltaReceived 7 None waiting)) = Some (accepted_write "b" None (Some "r")).
Proof.
  assert (Hs : store_reach (cf_store waiting)).
  { change (cf_store waiting) with
      (foldl store_step new_store [StoreAdd (accepted_write "a" (Some 5) None); StoreAdd (accepted_write "b" None (Some "r"))]).
    repeat (apply store_next; [|done]). constructor. }
  destruct (delta_confirms_exactly waiting 7 None Hs) as (H1 & H2 & _). split.
  - destruct (H1 "a") as (-> & _); [|done]. exists (accepted_write "a" (Some 5) None). split_and!; [done..|].
    exists 5. split; [done|lia].
  - destruct (H2 "b") as (-> & _); [|done]. intros (tx & [= <-] & _ & [[? [=]] _]).
Defined.
