(* ===== verification/MutationFailure.v ===== *)
(** * When a dispatch fails

    [failurePolicy.ts] and [failureHandling.ts] of
    [packages/humans/src/local/transactions/mutations]: which errors are permanent,
    which are definitive, how long a retry waits, and what one failure does to a
    queued mutation. Sequences of failures are at the end. *)
From S2P Require Import Prelude JsData ErrorCodes MutationQueue.
#[local] Open Scope Z_scope.

(** ** Reading an error ([failurePolicy.ts]) *)

(** What the policy reads of a caught [Error]: its class, [code], [message],
    [response.status] and the number of [response.errors]. *)
Record CaughtError := mkCaught {
  er_class : ErrorClass;
  er_code : option string;
  er_message : string;
  er_responseStatus : option Z;
  er_responseErrors : nat;
}.

Definition extractStatusCode (e : CaughtError) : option Z := er_responseStatus e.

(** [code ? errorCodeSpec(code) : undefined]; the empty code has no entry either. *)
Definition error_spec (e : CaughtError) : option ErrorCodeSpec := er_code e ≫= errorCodeSpec.

Definition transport_words : list string :=
  ["failed to fetch"; "fetch failed"; "network error"; "networkerror"; "connection refused";
   "connection reset"; "timeout"; "econnrefused"; "econnreset"; "etimedout"; "socket hang up"].

Definition sounds_transient (e : CaughtError) : bool :=
  existsb (includes (toLowerCase (er_message e))) transport_words.

Definition isPermanentError (e : CaughtError) : bool :=
  if bool_decide (er_class e = AbloConnectionError) then false
  else match error_spec e with
       | Some spec => negb (spec_retryable spec)
       | None =>
           if sounds_transient e then false
           else match extractStatusCode e with
                | Some status => (status <? 500) && negb (status =? 429)
                | None => (er_responseErrors e =? 0)%nat
                end
       end.

Definition isDefinitiveRejection (e : CaughtError) : bool :=
  if bool_decide (er_class e = AbloConnectionError) then false
  else match error_spec e with
       | Some spec => negb (spec_retryable spec)
       | None => match extractStatusCode e with
                 | Some status => (400 <=? status) && (status <? 500) && negb (status =? 429)
                 | None => false
                 end
       end.

(** ** One failure ([failureHandling.ts]) *)

Record retry_config := mkRetryConfig {
  enableOptimistic : bool;
  maxRetries : Z;
  baseMs : Z;
  capMs : Z;
  availabilityRetryWindowMs : Z;
}.

(** [Math.random()] is [random / 2^53]. *)
Definition transientRetryDelayMs (cfg : retry_config) (e : CaughtError) (attempt random : Z) : Z :=
  let base := match extractStatusCode e with
              | Some status => if (status =? 429) || (status =? 503) then Z.max (baseMs cfg) 1000 else baseMs cfg
              | None => baseMs cfg end in
  let ceiling := Z.min (capMs cfg) (base * 2 ^ Z.max 0 (attempt - 1)) in
  (random * ceiling) / 2 ^ 53.

(** What a failure does besides changing the mutation: the rollback of the
    optimistic change, the general failure event, the one that carries the id and
    the retry it schedules. *)
Inductive failure_effect :=
  | RollbackOptimistic (permanent : bool)
  | EmitFailed (permanent : bool)
  | EmitFailedFor (id : string)
  | ScheduleRetry (delay : Z).

Definition is_settled (tx : QueuedMutation) : bool :=
  match tx_status tx with
  | tx_completed | tx_failed | tx_rolled_back | tx_awaiting_delta => true
  | tx_pending | tx_executing => false
  end.

Definition settle_failure (cfg : retry_config) (permanent : bool) (tx : QueuedMutation)
    : QueuedMutation * list failure_effect :=
  (set_status tx_failed tx,
   (if enableOptimistic cfg then [RollbackOptimistic permanent] else [])
   ++ [EmitFailed permanent; EmitFailedFor (tx_id tx)]).

Definition handleFailure (cfg : retry_config) (now random : Z) (e : CaughtError) (tx : QueuedMutation)
    : QueuedMutation * list failure_effect :=
  if is_settled tx then (tx, [])
  else
    let tx := set_attempts (tx_attempts tx + 1) (tx_firstTransientFailureAt tx) tx in
    if isPermanentError e then settle_failure cfg true tx
    else
      let first := default now (tx_firstTransientFailureAt tx) in
      let tx := set_attempts (tx_attempts tx) (Some first) tx in
      let insideAvailabilityWindow := now - first <? availabilityRetryWindowMs cfg in
      if (tx_attempts tx <? maxRetries cfg) || insideAvailabilityWindow
      then (set_status tx_pending tx, [ScheduleRetry (transientRetryDelayMs cfg e (tx_attempts tx) random)])
      else settle_failure cfg false tx.

(** The callback of a retry, when its timer fires. *)
Definition retry_fires (store : MutationStore) (tx : QueuedMutation) (queue : list QueuedMutation)
    : list QueuedMutation * option bool :=
  match store_get (tx_id tx) store with
  | Some current => if is_pending current then enqueueTransaction queue tx else (queue, None)
  | None => (queue, None)
  end.

(** ** A rejection that is definitive is permanent, up to the wording *)

(** An error that lets the durable copy go. Whatever is a definitive rejection,
    which removes the sealed envelope from the outbox, is also a permanent
    failure, which stops the retries, unless its code is unknown to the registry
    and its message contains one of the transport words; a connection error is
    neither; and for a code the registry knows, both say that it is not
    retryable. *)
Theorem definitive_rejections_are_permanent e :
  (isDefinitiveRejection e = true → isPermanentError e = true ∨ error_spec e = None ∧ sounds_transient e = true)
  ∧ (er_class e = AbloConnectionError → isDefinitiveRejection e = false ∧ isPermanentError e = false)
  ∧ (∀ spec, er_class e ≠ AbloConnectionError → error_spec e = Some spec →
      isDefinitiveRejection e = negb (spec_retryable spec) ∧ isPermanentError e = negb (spec_retryable spec)).
Proof.
  unfold isDefinitiveRejection, isPermanentError. split_and!.
  - case_bool_decide; [done|]. destruct (error_spec e); [by left|].
    destruct (sounds_transient e); [by right|]. destruct (extractStatusCode e) as [st|]; [|done].
    intros Hst. left. apply andb_true_iff in Hst as [Hst H429]. apply andb_true_iff in Hst as [_ H500].
    by rewrite H500, H429.
  - intros ->. done.
  - intros spec Hc ->. by rewrite bool_decide_eq_false_2.
Qed.

(** A 400 whose message mentions a timeout loses its durable copy and is retried. *)
Example timeout_wording_splits_the_policies :
  let e := mkCaught PlainError None "Invalid timeout value" (Some 400) 0 in
  isDefinitiveRejection e = true ∧ isPermanentError e = false.
Proof. done. Qed.

(** A typed server error without a registered code carries its status elsewhere,
    and is judged permanent. *)
Example uncoded_server_error_is_permanent :
  isPermanentError (mkCaught AbloServerError None "Service Unavailable" None 0) = true.
Proof. done. Qed.

(** ** Failing again and again *)

(** A dispatch that failed: when, with what draw, and how. *)
Record failed_dispatch := mkDispatch { fd_now : Z; fd_random : Z; fd_error : CaughtError }.

(** The next dispatch of a pending mutation marks it executing and fails; a settled
    one is not dispatched. *)
Definition fail_again (cfg : retry_config) (acc : QueuedMutation * list failure_effect) (d : failed_dispatch)
    : QueuedMutation * list failure_effect :=
  if is_settled acc.1 then acc
  else
    let out := handleFailure cfg (fd_now d) (fd_random d) (fd_error d) (set_status tx_executing acc.1) in
    (out.1, acc.2 ++ out.2).

Definition failures cfg (tx : QueuedMutation) (l : list failed_dispatch) : QueuedMutation * list failure_effect :=
  foldl (fail_again cfg) (tx, []) l.

(** The [i]-th failure is the last one: it is permanent, or the retries are used up
    and the window that opened at the first failure has closed. *)
Definition gives_up (cfg : retry_config) (l : list failed_dispatch) (i : nat) : Prop :=
  ∃ d first, l !! i = Some d ∧ l !! 0%nat = Some first
  ∧ (isPermanentError (fd_error d) = true
     ∨ maxRetries cfg ≤ Z.of_nat (S i) ∧ availabilityRetryWindowMs cfg ≤ fd_now d - fd_now first).

Definition is_retry (f : failure_effect) : bool := match f with ScheduleRetry _ => true | _ => false end.
Definition retry_delays (fx : list failure_effect) : list Z :=
  omap (λ f, match f with ScheduleRetry d => Some d | _ => None end) fx.
Definition failure_events (fx : list failure_effect) : list failure_effect :=
  base.filter (λ f, is_retry f = false) fx.

(** The last failure reports both events once, and rolls back if that is on. *)
Definition reported (cfg : retry_config) (tx : QueuedMutation) (events : list failure_effect) : Prop :=
  ∃ permanent, events = (if enableOptimistic cfg then [RollbackOptimistic permanent] else [])
                        ++ [EmitFailed permanent; EmitFailedFor (tx_id tx)].

Record sound_retries (cfg : retry_config) : Prop := {
  sr_base : 0 ≤ baseMs cfg;
  sr_cap : 0 ≤ capMs cfg;
}.

Definition valid_dispatch (d : failed_dispatch) : Prop := 0 ≤ fd_random d < 2 ^ 53.

Lemma delay_bounds cfg e attempt random :
  sound_retries cfg → 0 ≤ random < 2 ^ 53 → 0 ≤ transientRetryDelayMs cfg e attempt random ≤ capMs cfg.
Proof.
  intros [Hb Hc] Hr. unfold transientRetryDelayMs.
  set (base := match extractStatusCode e with Some _ => _ | None => _ end).
  assert (0 ≤ base) by (unfold base; destruct (extractStatusCode e); [case_match; lia|lia]).
  assert (0 ≤ 2 ^ Z.max 0 (attempt - 1)) by (apply Z.pow_nonneg; lia).
  set (ceiling := Z.min _ _). assert (0 ≤ ceiling ≤ capMs cfg) by (unfold ceiling; nia).
  split; [apply Z.div_pos; nia|]. apply Z.div_le_upper_bound; [lia|nia].
Qed.

(** What the failures so far have made of the mutation. *)
Record failing (cfg : retry_config) (tx : QueuedMutation) (l : list failed_dispatch)
    (out : QueuedMutation * list failure_effect) : Prop := {
  fl_status : tx_status out.1 = tx_pending;
  fl_id : tx_id out.1 = tx_id tx;
  fl_attempts : tx_attempts out.1 = Z.of_nat (length l);
  fl_first : tx_firstTransientFailureAt out.1 = fd_now <$> head l;
  fl_events : failure_events out.2 = [];
  fl_retries : length (retry_delays out.2) = length l;
  fl_delays : Forall (λ d, 0 ≤ d ≤ capMs cfg) (retry_delays out.2);
}.

Lemma retry_delays_app a b : retry_delays (a ++ b) = retry_delays a ++ retry_delays b.
Proof. apply omap_app. Qed.
Lemma failure_events_app a b : failure_events (a ++ b) = failure_events a ++ failure_events b.
Proof. apply filter_app. Qed.

Lemma settle_failure_spec cfg p tx :
  let out := settle_failure cfg p tx in
  tx_status out.1 = tx_failed ∧ failure_events out.2 = out.2 ∧ retry_delays out.2 = [] ∧ reported cfg tx out.2.
Proof. unfold settle_failure, reported. destruct (enableOptimistic cfg); split_and!; eauto. Qed.

Lemma gives_up_snoc cfg l d i : (i < length l)%nat → gives_up cfg (l ++ [d]) i ↔ gives_up cfg l i.
Proof. intros Hi. unfold gives_up. rewrite !lookup_app_l by lia. done. Qed.

Lemma gives_up_last cfg l d :
  gives_up cfg (l ++ [d]) (length l) ↔
  isPermanentError (fd_error d) = true
  ∨ maxRetries cfg ≤ Z.of_nat (S (length l))
    ∧ availabilityRetryWindowMs cfg ≤ fd_now d - default (fd_now d) (fd_now <$> head l).
Proof.
  unfold gives_up. rewrite lookup_app_r, Nat.sub_diag by done. simpl.
  destruct l as [|first l]; simpl; naive_solver.
Qed.

Lemma gives_up_bound cfg l i : gives_up cfg l i → (i < length l)%nat.
Proof. intros (d & _ & H & _). by eapply lookup_lt_Some. Qed.

(** The failure after those of [l] either is the last one or adds one retry. *)
Lemma fail_again_step cfg tx l d out :
  sound_retries cfg → valid_dispatch d → failing cfg tx l out →
  let out' := fail_again cfg out d in
  (gives_up cfg (l ++ [d]) (length l) ∧ tx_status out'.1 = tx_failed
     ∧ tx_attempts out'.1 = Z.of_nat (S (length l)) ∧ reported cfg tx (failure_events out'.2)
     ∧ retry_delays out'.2 = retry_delays out.2)
  ∨ (¬ gives_up cfg (l ++ [d]) (length l) ∧ failing cfg tx (l ++ [d]) out').
Proof.
  intros Hc Hd [Hst Hid Hat Hfirst Hev Hre Hdel]. unfold fail_again.
  assert (is_settled out.1 = false) as -> by (unfold is_settled; by rewrite Hst).
  unfold handleFailure. simpl. rewrite gives_up_last, Hfirst, Hat.
  replace (Z.of_nat (length l) + 1) with (Z.of_nat (S (length l))) by lia.
  assert (Hrep : ∀ p tx', tx_id tx' = tx_id tx → tx_attempts tx' = Z.of_nat (S (length l)) →
    let s := settle_failure cfg p tx' in
    tx_status s.1 = tx_failed ∧ tx_attempts s.1 = Z.of_nat (S (length l))
    ∧ reported cfg tx (failure_events (out.2 ++ s.2)) ∧ retry_delays (out.2 ++ s.2) = retry_delays out.2).
  { intros p tx' Hid' Hat' s. destruct (settle_failure_spec cfg p tx') as (H1 & H2 & H3 & H4). fold s in H1, H2, H3, H4.
    rewrite failure_events_app, retry_delays_app, Hev, H2, H3, app_nil_r. split_and!; [done|done| |done].
    unfold reported in *. by rewrite <- Hid'. }
  destruct (isPermanentError (fd_error d)) eqn:Hp.
  { left. destruct (Hrep true (set_attempts (Z.of_nat (S (length l))) (fd_now <$> head l) (set_status tx_executing out.1))
      Hid eq_refl) as (H1 & H2 & H3 & H4). split_and!; [by left|exact H1|exact H2|exact H3|exact H4]. }
  set (first := default (fd_now d) (fd_now <$> head l)).
  destruct (Z.ltb_spec (Z.of_nat (S (length l))) (maxRetries cfg)) as [Hm|Hm]; simpl;
    [|destruct (Z.ltb_spec (fd_now d - first) (availabilityRetryWindowMs cfg)) as [Hw|Hw]; simpl].
  1, 2: right; split; [intros [?|[? ?]]; [done|lia]|].
  1, 2: split; simpl; rewrite ?length_app, ?retry_delays_app, ?failure_events_app, ?Hev; simpl; try done;
    rewrite ?length_app; simpl; try lia.
  1, 3: unfold first; by destruct l.
  1, 2: apply Forall_app; split; [done|]; repeat constructor; by apply delay_bounds.
  left. destruct (Hrep false (set_attempts (Z.of_nat (S (length l))) (Some first) (set_status tx_executing out.1))
    Hid eq_refl) as (H1 & H2 & H3 & H4). split_and!; [by right|exact H1|exact H2|exact H3|exact H4].
Qed.

Lemma fail_settled cfg out d : tx_status out.1 = tx_failed → fail_again cfg out d = out.
Proof. intros H. unfold fail_again, is_settled. by rewrite H. Qed.

(** A mutation that keeps failing settles exactly once, and no sooner than it
    must. After any sequence of failed dispatches it is failed if and only if one
    of them was permanent, or came when the retries were used up and the
    availability window opened by the first failure had closed; it was then
    dispatched up to the first such failure and no further, reported once, and
    every failure before it had scheduled one retry. Otherwise it is pending with
    one retry per failure and nothing reported. No retry waits beyond the cap. *)
Theorem failing_mutation_settles cfg tx l :
  sound_retries cfg → Forall valid_dispatch l →
  tx_status tx = tx_pending → tx_attempts tx = 0 → tx_firstTransientFailureAt tx = None →
  let out := failures cfg tx l in
  Forall (λ d, 0 ≤ d ≤ capMs cfg) (retry_delays out.2)
  ∧ ((tx_status out.1 = tx_pending ∧ (∀ i, ¬ gives_up cfg l i)
      ∧ tx_attempts out.1 = Z.of_nat (length l) ∧ length (retry_delays out.2) = length l
      ∧ failure_events out.2 = [])
     ∨ (tx_status out.1 = tx_failed ∧ ∃ i, gives_up cfg l i ∧ (∀ j, (j < i)%nat → ¬ gives_up cfg l j)
        ∧ tx_attempts out.1 = Z.of_nat (S i) ∧ length (retry_delays out.2) = i
        ∧ reported cfg tx (failure_events out.2))).
Proof.
  intros Hc Hl Hst Hat Hf out.
  assert (H : failing cfg tx l out ∧ (∀ i, ¬ gives_up cfg l i)
    ∨ Forall (λ d, 0 ≤ d ≤ capMs cfg) (retry_delays out.2) ∧ tx_status out.1 = tx_failed
      ∧ ∃ i, gives_up cfg l i ∧ (∀ j, (j < i)%nat → ¬ gives_up cfg l j)
        ∧ tx_attempts out.1 = Z.of_nat (S i) ∧ length (retry_delays out.2) = i
        ∧ reported cfg tx (failure_events out.2)).
  2: { destruct H as [[[] Hno]|(? & ? & ?)]; auto 10. }
  subst out. unfold failures. induction l as [|d l IH] using rev_ind; simpl.
  { left. split; [by split|]. by intros i ?%gives_up_bound%Nat.nlt_0_r. }
  apply Forall_app in Hl as [Hl [Hd _]%Forall_cons]. rewrite foldl_app. simpl.
  destruct (IH Hl) as [[Hfl Hno]|(Hdel & Hfail & i & Hi & Hmin & Hrest)].
  - destruct (fail_again_step cfg tx l d _ Hc Hd Hfl) as [(Hg & H1 & H2 & H3 & H4)|(Hg & Hfl')].
    + right. rewrite H4. split_and!; [apply Hfl|done|]. exists (length l).
      split_and!; [done| |done|apply Hfl|done]. intros j Hj. by rewrite gives_up_snoc.
    + left. split; [done|]. intros i Hi. pose proof (gives_up_bound _ _ _ Hi) as Hb.
      rewrite length_app in Hb. simpl in Hb. destruct (decide (i = length l)) as [->|Hne]; [done|].
      apply (Hno i). apply gives_up_snoc in Hi; [done|lia].
  - right. rewrite fail_settled by done. pose proof (gives_up_bound _ _ _ Hi).
    split_and!; [done|done|]. exists i. rewrite gives_up_snoc by lia. split_and!; [done| |apply Hrest..].
    intros j Hj. rewrite gives_up_snoc by lia. by apply Hmin.
Qed.

(** ** The default configuration *)

Definition default_config : retry_config := mkRetryConfig true 3 200 1500 120000.
Definition demo_mutation : QueuedMutation :=
  mkMutation "t1" tx_update "Task" "1" [] tx_pending 0 0 None false None None 0 None None false.
Definition unreachable_at (t : Z) : failed_dispatch :=
  mkDispatch t (2 ^ 52) (mkCaught AbloConnectionError None "offline" None 0).

(** Offline for two minutes: retried throughout the window, failed after it. *)
Lemma failing_mutation_settles_witness :
  let l := [unreachable_at 0; unreachable_at 1000; unreachable_at 60000; unreachable_at 120000] in
  let out := failures default_config demo_mutation l in
  tx_status out.1 = tx_failed ∧ Forall (λ d, 0 ≤ d ≤ 1500) (retry_delays out.2).
Proof.
  intros l out. split; [reflexivity|].
  refine (proj1 (failing_mutation_settles default_config demo_mutation l _ _ _ _ _)); try reflexivity;
    [split; simpl; lia|repeat constructor; simpl; lia].
Defined.
