(* ===== verification/QueueMachine.v ===== *)
(** * The mutation queue at work

    [MutationQueue.ts], [modelOperations.ts], [coalesceRules.ts],
    [processingScheduler.ts], [localMutation.ts] and [batchProcessing.ts] of
    [packages/humans/src/local/transactions/mutations] put together: a write is
    recorded in the store, journaled, staged, queued and sent in a batch; deletes
    cancel or wait; failures are retried. The places a mutation waits in hold its
    id, and the store holds the one object they all refer to. Journal writes,
    microtasks, timers, the preparation of field operations, the transport and the
    deltas are inputs. Sealing and dispatching a batch are one wait, and the
    awaits inside its settlement are not interleaving points. Journal rows, the
    outbox, the delta timers, reporting and [dispose] are not modelled here. *)
From S2P Require Import Prelude JsData ErrorCodes MutationQueue Confirmation MutationFailure.
#[local] Open Scope Z_scope.

(** ** State *)

(** Where a mutation waits: collected for the next journal write, in a journal write
    under way, a delete whose journal write is under way, staged for the next
    microtask, in the execution queue, behind a create, or behind a retry timer. *)
Record places := mkPlaces {
  pendingPersistenceStages : list string;
  journalWrites : list (list string);
  removing : list string;
  createdTransactions : list string;
  executionQueue : list string;
  deferredDeletesByCreate : list (string * list string);
  retryTimers : list (list string);
}.

(** Where [processBatch] waits. *)
Inductive batch_phase :=
  | NoBatch
  | Preparing (batch : list string)
  | Dispatching (batch : list string) (key : string).

(** [countAtStart] is [executingCount] as the context object of the run captured it. *)
Record runner := mkRunner {
  batchPhase : batch_phase;
  processScheduled : bool;
  commitScheduled : bool;
  waiters : nat;
  executingCount : Z;
  countAtStart : Z;
  replayBlock : option CaughtError;
}.

Inductive queue_event :=
  | Completed (id : string)
  | CompletedFor (id : string)
  | Failed (id : string)
  | FailedFor (id : string)
  | Rollback (id : string)
  | Sent (batch : list string)
  | EnvelopeRemoved (key : string)
  | AwaitsDelta (id : string)
  | OperationsBlocked
  | EnvelopeRejected (batch : list string).

(** The optimistic ledger, the confirmation promises not settled yet, the ones that
    were with their outcome, and the events. *)
Record ledger := mkLedger {
  updates : list string;
  confirmationResolvers : list string;
  settled : list (string * bool);
  q_events : list queue_event;
}.

Record queue := mkQueue {
  q_store : MutationStore;
  q_places : places;
  q_runner : runner;
  q_ledger : ledger;
}.

Definition new_queue : queue :=
  mkQueue new_store (mkPlaces [] [] [] [] [] [] []) (mkRunner NoBatch false false 0 0 0 None) (mkLedger [] [] [] []).

Definition on_store (f : MutationStore → MutationStore) (s : queue) : queue :=
  mkQueue (f (q_store s)) (q_places s) (q_runner s) (q_ledger s).
Definition on_places (f : places → places) (s : queue) : queue :=
  mkQueue (q_store s) (f (q_places s)) (q_runner s) (q_ledger s).
Definition on_runner (f : runner → runner) (s : queue) : queue :=
  mkQueue (q_store s) (q_places s) (f (q_runner s)) (q_ledger s).
Definition on_ledger (f : ledger → ledger) (s : queue) : queue :=
  mkQueue (q_store s) (q_places s) (q_runner s) (f (q_ledger s)).

Definition set_collecting l p := mkPlaces l (journalWrites p) (removing p) (createdTransactions p) (executionQueue p) (deferredDeletesByCreate p) (retryTimers p).
Definition set_journals l p := mkPlaces (pendingPersistenceStages p) l (removing p) (createdTransactions p) (executionQueue p) (deferredDeletesByCreate p) (retryTimers p).
Definition set_removing l p := mkPlaces (pendingPersistenceStages p) (journalWrites p) l (createdTransactions p) (executionQueue p) (deferredDeletesByCreate p) (retryTimers p).
Definition set_created l p := mkPlaces (pendingPersistenceStages p) (journalWrites p) (removing p) l (executionQueue p) (deferredDeletesByCreate p) (retryTimers p).
Definition set_queue l p := mkPlaces (pendingPersistenceStages p) (journalWrites p) (removing p) (createdTransactions p) l (deferredDeletesByCreate p) (retryTimers p).
Definition set_deferred l p := mkPlaces (pendingPersistenceStages p) (journalWrites p) (removing p) (createdTransactions p) (executionQueue p) l (retryTimers p).
Definition set_retries l p := mkPlaces (pendingPersistenceStages p) (journalWrites p) (removing p) (createdTransactions p) (executionQueue p) (deferredDeletesByCreate p) l.

Definition set_phase ph r := mkRunner ph (processScheduled r) (commitScheduled r) (waiters r) (executingCount r) (countAtStart r) (replayBlock r).
Definition set_scheduled b r := mkRunner (batchPhase r) b (commitScheduled r) (waiters r) (executingCount r) (countAtStart r) (replayBlock r).
Definition set_commit b r := mkRunner (batchPhase r) (processScheduled r) b (waiters r) (executingCount r) (countAtStart r) (replayBlock r).
Definition set_waiters n r := mkRunner (batchPhase r) (processScheduled r) (commitScheduled r) n (executingCount r) (countAtStart r) (replayBlock r).
Definition set_count n r := mkRunner (batchPhase r) (processScheduled r) (commitScheduled r) (waiters r) n (countAtStart r) (replayBlock r).
Definition set_start n r := mkRunner (batchPhase r) (processScheduled r) (commitScheduled r) (waiters r) (executingCount r) n (replayBlock r).
Definition set_block b r := mkRunner (batchPhase r) (processScheduled r) (commitScheduled r) (waiters r) (executingCount r) (countAtStart r) b.

Definition set_updates l d := mkLedger l (confirmationResolvers d) (settled d) (q_events d).
Definition log ev d := mkLedger (updates d) (confirmationResolvers d) (settled d) (q_events d ++ [ev]).
Definition attachConfirmation id d := mkLedger (updates d) (set_add id (confirmationResolvers d)) (settled d) (q_events d).

Definition emit (ev : queue_event) : queue → queue := on_ledger (log ev).
Definition status_of (id : string) (s : queue) : option tx_state := tx_status <$> store_get id (q_store s).
Definition deref (ids : list string) (s : queue) : list QueuedMutation := omap (λ id, store_get id (q_store s)) ids.

(** ** Configuration, and what a step reads from outside *)

Record queue_config := mkConfig {
  qc_retry : retry_config;
  maxBatchSize : Z;
  maxExecutingTransactions : Z;
  modelCreatePriority : string → option Z;
  defaultCreatePriority : Z;
  defaultNonCreatePriority : Z;
}.

Record queue_env := mkEnv {
  qe_now : Z;
  qe_random : string → Z;
  qe_key : string;
  qe_echo : string → option Z;
}.

Definition computePriorityScore (cfg : queue_config) (kind : tx_kind) (modelName : string) : Z :=
  match kind with
  | tx_create => default (defaultCreatePriority cfg) (modelCreatePriority cfg modelName)
  | _ => defaultNonCreatePriority cfg
  end.

Definition isReorderPayload (data : list (string * payload_value)) : bool :=
  existsb (λ p, String.eqb p.1 "order" || String.eqb p.1 "orderKey" || String.eqb p.1 "position") data.

Section Queue.
Context (cfg : queue_config).

(** ** Settling *)

(** [confirmationResolvers.get(id)], deleted and called. *)
Definition resolve_confirmation (id : string) (ok : bool) (d : ledger) : ledger :=
  if bool_decide (id ∈ confirmationResolvers d)
  then mkLedger (updates d) (set_remove id (confirmationResolvers d)) (settled d ++ [(id, ok)]) (q_events d)
  else d.

Definition scheduleProcessing (r : runner) : runner :=
  if processScheduled r then r
  else if maxExecutingTransactions cfg <=? executingCount r then r
  else set_scheduled true r.

(** [enqueue]: [attachConfirmation] has run when the mutation was created. *)
Definition enqueue (s : queue) (id : string) : queue :=
  match store_get id (q_store s) with
  | None => s
  | Some tx =>
      let ids := executionQueue (q_places s) in
      if negb (is_pending tx) || bool_decide (id ∈ ids) then s
      else on_runner scheduleProcessing
             (on_places (set_queue (if tx_high tx then id :: ids else ids ++ [id])) s)
  end.

Definition entityKey (modelName modelId : string) : string := (modelName ++ ":" ++ modelId)%string.

Definition releaseDeferredDeletesForCreate (tx : QueuedMutation) (s : queue) : queue :=
  let key := entityKey (tx_modelName tx) (tx_modelId tx) in
  match map_get key (deferredDeletesByCreate (q_places s)) with
  | None | Some [] => s
  | Some deferred =>
      foldl enqueue (on_places (λ p, set_deferred (map_delete key (deferredDeletesByCreate p)) p) s) deferred
  end.

Definition release_for (id : string) (s : queue) : queue :=
  match store_get id (q_store s) with
  | Some tx => if bool_decide (tx_type tx = tx_create) then releaseDeferredDeletesForCreate tx s else s
  | None => s
  end.

(** The events ['transaction:completed'] and ['transaction:failed'] with the
    listeners of the constructor. *)
Definition emit_completed (id : string) (s : queue) : queue :=
  release_for id (on_ledger (resolve_confirmation id true) (emit (Completed id) s)).
Definition emit_failed (id : string) (s : queue) : queue :=
  on_store (updateStatus id tx_failed)
    (release_for id (on_ledger (resolve_confirmation id false) (emit (Failed id) s))).

Definition drop_update (id : string) : queue → queue := on_ledger (λ d, set_updates (set_remove id (updates d)) d).

(** ['transaction:completed'], the event with the id, and the ledger entry dropped. *)
Definition complete_tx (s : queue) (id : string) : queue :=
  drop_update id (emit (CompletedFor id) (emit_completed id (on_store (updateStatus id tx_completed) s))).

Definition rollbackOptimistic (id : string) (s : queue) : queue :=
  if bool_decide (id ∈ updates (q_ledger s)) then drop_update id (emit (Rollback id) s) else s.

Definition rollback_if_optimistic (id : string) (s : queue) : queue :=
  if enableOptimistic (qc_retry cfg) then rollbackOptimistic id s else s.

(** A journal write that failed. *)
Definition fail_journal (s : queue) (id : string) : queue :=
  emit (FailedFor id) (emit_failed id (rollback_if_optimistic id (on_store (updateStatus id tx_failed) s))).

(** [handleFailure], with its effects. *)
Definition fail_mutation (e : queue_env) (err : CaughtError) (s : queue) (id : string) : queue :=
  match store_get id (q_store s) with
  | None => s
  | Some tx =>
      let out := handleFailure (qc_retry cfg) (qe_now e) (qe_random e id) err tx in
      if is_settled tx then s
      else
        let s := on_store (updateStatus id (tx_status out.1))
                   (on_store (store_edit id (set_attempts (tx_attempts out.1) (tx_firstTransientFailureAt out.1))) s) in
        foldl (λ s fx, match fx with
                       | RollbackOptimistic _ => rollbackOptimistic id s
                       | EmitFailed _ => emit_failed id s
                       | EmitFailedFor id => emit (FailedFor id) s
                       | ScheduleRetry _ => on_places (λ p, set_retries (retryTimers p ++ [[id]]) p) s
                       end) s out.2
  end.

(** ** Writing ([modelOperations.ts]) *)

Definition stageTransaction (s : queue) (id : string) : queue :=
  on_runner (set_commit true) (on_places (λ p, set_created (createdTransactions p ++ [id]) p) s).

Definition new_mutation (e : queue_env) (id : string) (kind : tx_kind) (modelName modelId : string)
    (data : list (string * payload_value)) (writeOptions : option WriteOptions) : QueuedMutation :=
  mkMutation id kind modelName modelId data tx_pending (qe_now e) 0 None
    (match kind with tx_update => isReorderPayload data | tx_delete => true | _ => false end)
    writeOptions None (computePriorityScore cfg kind modelName) None None false.

Definition add_tx (tx : QueuedMutation) (s : queue) : queue :=
  on_store (store_add tx) (on_ledger (attachConfirmation (tx_id tx)) s).

(** [optimisticUpdates.set(id, ...)] *)
Definition add_update (id : string) : queue → queue := on_ledger (λ d, set_updates (set_add id (updates d)) d).
Definition apply_optimistic (id : string) (s : queue) : queue :=
  if enableOptimistic (qc_retry cfg) then add_update id s else s.

(** [create], [update], [archive] and [unarchive]. *)
Definition write (e : queue_env) (ready : bool) (tx : QueuedMutation) (s : queue) : queue :=
  if is_Some_b (replayBlock (q_runner s)) then s
  else
    let s := add_tx tx s in
    let s := match tx_type tx with
             | tx_create | tx_update => apply_optimistic (tx_id tx) s
             | tx_delete | tx_archive | tx_unarchive => s
             end in
    if ready then on_places (λ p, set_collecting (pendingPersistenceStages p ++ [tx_id tx]) p) s
    else stageTransaction s (tx_id tx).

(** *** Deletes *)

Definition is_for (modelName modelId : string) (tx : QueuedMutation) : bool :=
  String.eqb (tx_modelName tx) modelName && String.eqb (tx_modelId tx) modelId.

Definition isUnsentCreate (modelName modelId : string) (tx : QueuedMutation) : bool :=
  bool_decide (tx_type tx = tx_create) && is_pending tx && (tx_attempts tx =? 0) && is_for modelName modelId tx.

Definition find_id (f : QueuedMutation → bool) (ids : list string) (s : queue) : option string :=
  List.find (λ id, match store_get id (q_store s) with Some tx => f tx | None => false end) ids.

(** The unsent create, and the queue without it. *)
Definition takeUnsentCreateForModel (modelName modelId : string) (s : queue) : option string * queue :=
  let f := isUnsentCreate modelName modelId in
  match find_id f (createdTransactions (q_places s)) s with
  | Some id => (Some id, on_places (λ p, set_created (set_remove id (createdTransactions p)) p) s)
  | None =>
      match find_id f (executionQueue (q_places s)) s with
      | Some id => (Some id, on_places (λ p, set_queue (set_remove id (executionQueue p)) p) s)
      | None => (tx_id <$> List.find f (getByStatus tx_pending (q_store s)), s)
      end
  end.

Definition cancelUnsentCreateForDelete (id : string) (s : queue) : queue :=
  on_ledger (resolve_confirmation id true)
    (rollback_if_optimistic id (on_store (updateStatus id tx_rolled_back) s)).

(** A delete settled here: nothing is sent. *)
Definition completeLocalDelete (tx : QueuedMutation) (s : queue) : queue :=
  let s := apply_optimistic (tx_id tx) (add_tx (set_status tx_completed tx) s) in
  drop_update (tx_id tx) (emit (CompletedFor (tx_id tx)) (emit_completed (tx_id tx) s)).

Definition cancel_one (s : queue) (id : string) : queue :=
  rollbackOptimistic id (on_store (updateStatus id tx_rolled_back) s).

(** The filter on the type is the one [remove] passes. *)
Definition cancelTransactionsForModel (modelId : string) (s : queue) : queue :=
  let all := getByStatus tx_pending (q_store s) ++ getByStatus tx_executing (q_store s) in
  foldl cancel_one s
    (tx_id <$> base.filter (λ tx, tx_modelId tx = modelId ∧ tx_type tx = tx_update) all).

Definition cancelTransactionsByForeignKey (childModelName : string) (references : string → bool) (s : queue) : queue :=
  let all := getByStatus tx_pending (q_store s) ++ getByStatus tx_executing (q_store s)
             ++ getByStatus tx_awaiting_delta (q_store s) in
  foldl cancel_one s
    (tx_id <$> base.filter (λ tx, tx_modelName tx = childModelName ∧ references (tx_id tx) = true) all).

Definition findCreateBarrierForDelete (modelName modelId : string) (s : queue) : option QueuedMutation :=
  let live := getByStatus tx_pending (q_store s) ++ getByStatus tx_executing (q_store s)
              ++ getByStatus tx_awaiting_delta (q_store s) in
  let creates := base.filter (λ tx, bool_decide (tx_type tx = tx_create) && is_for modelName modelId tx
                   && (negb (is_pending tx) || (0 <? tx_attempts tx)) = true) live in
  head (sort_by (λ a b, tx_createdAt b - tx_createdAt a) creates).

Definition deferDeleteUntilCreateSettles (create : QueuedMutation) (id : string) (s : queue) : queue :=
  let key := entityKey (tx_modelName create) (tx_modelId create) in
  on_places (λ p, set_deferred
    (map_set key (default [] (map_get key (deferredDeletesByCreate p)) ++ [id]) (deferredDeletesByCreate p)) p) s.

(** [remove], up to the [await] of its journal write. *)
Definition remove (tx : QueuedMutation) (s : queue) : queue :=
  if is_Some_b (replayBlock (q_runner s)) then s
  else if String.eqb (tx_modelName tx) "Activity" then emit (Completed (tx_id tx)) (apply_optimistic (tx_id tx) s)
  else
    let '(unsent, s) := takeUnsentCreateForModel (tx_modelName tx) (tx_modelId tx) s in
    match unsent with
    | Some create => completeLocalDelete tx (cancelUnsentCreateForDelete create s)
    | None =>
        let s := cancelTransactionsForModel (tx_modelId tx) (add_tx tx s) in
        on_places (λ p, set_removing (removing p ++ [tx_id tx]) p) (apply_optimistic (tx_id tx) s)
    end.

(** The rest of [remove], once the delete is journaled. *)
Definition removal_journaled (id : string) (s : queue) : queue :=
  match store_get id (q_store s) with
  | None => s
  | Some tx =>
      match findCreateBarrierForDelete (tx_modelName tx) (tx_modelId tx) s with
      | Some create => deferDeleteUntilCreateSettles create id s
      | None => stageTransaction s id
      end
  end.

(** ** Sending ([batchProcessing.ts]) *)

Definition commitCreatedTransactions (s : queue) : queue :=
  let staged := createdTransactions (q_places s) in
  foldl enqueue (on_places (set_created []) (on_runner (set_commit false) s)) staged.

(** The comparator of the execution queue. *)
Definition compare_queued (a b : QueuedMutation) : Z :=
  if bool_decide (row a = row b) && negb (bool_decide (tx_type a = tx_type b)) then
    if bool_decide (tx_type a = tx_create) then -1
    else if bool_decide (tx_type b = tx_create) then 1
    else tx_priorityScore a - tx_priorityScore b
  else tx_priorityScore a - tx_priorityScore b.

Definition getOutstandingTransactions (s : queue) : list QueuedMutation :=
  base.filter (λ tx, tx_status tx = tx_pending ∨ tx_status tx = tx_executing ∨ tx_status tx = tx_awaiting_delta)
    (getAll (q_store s)).

(** [processBatch] up to the [await] of the preparation. *)
Definition process_start (s : queue) : queue :=
  if is_Some_b (replayBlock (q_runner s)) then s
  else
    match executionQueue (q_places s) with
    | [] => s
    | _ :: _ =>
        let sorted := sort_by compare_queued (deref (executionQueue (q_places s)) s) in
        let '(batch, remaining) := takeNextExecutionBatch sorted (maxBatchSize cfg) (getOutstandingTransactions s) in
        let s := on_places (set_queue (tx_id <$> remaining)) s in
        match batch with
        | [] => s
        | _ :: _ =>
            on_runner (λ r, set_count (executingCount r + Z.of_nat (length batch)) (set_start (executingCount r)
                              (set_phase (Preparing (tx_id <$> batch)) r))) s
        end
    end.

(** A run of the scheduled processing: it waits when a batch is under way. *)
Definition processBatch (s : queue) : queue :=
  match batchPhase (q_runner s) with
  | NoBatch => process_start s
  | _ => on_runner (λ r, set_waiters (S (waiters r)) r) s
  end.

(** The [finally]. The context holds the count of the start and the array the run
    began with, which held the batch and is not empty when the batch is not. *)
Definition finish (batch : list string) (s : queue) : queue :=
  let s := on_runner (λ r, set_count (countAtStart r - Z.of_nat (length batch)) (set_phase NoBatch r)) s in
  match batch with
  | [] => s
  | _ :: _ => on_runner scheduleProcessing s
  end.

(** [ensureCommitEnvelope]: the key of the batch and its members in order, or
    nothing when it throws. *)
Definition member_key (tx : QueuedMutation) : option string := ce_idempotencyKey <$> tx_commitEnvelope tx.

Fixpoint seal_members (key : string) (count : Z) (i : Z) (batch : list QueuedMutation) : list QueuedMutation :=
  match batch with
  | [] => []
  | tx :: batch => set_envelope (mkMember key i count) tx :: seal_members key count (i + 1) batch
  end.

Definition is_complete_envelope (key : string) (batch : list QueuedMutation) : bool :=
  match batch with
  | [] => false
  | first :: _ =>
      match tx_commitEnvelope first with
      | None => false
      | Some e =>
          (ce_operationCount e =? Z.of_nat (length batch))
          && bool_decide (NoDup ((λ tx, ce_operationIndex <$> tx_commitEnvelope tx) <$> batch))
          && forallb (λ tx, match tx_commitEnvelope tx with
                            | Some m => String.eqb (ce_idempotencyKey m) key
                                        && (ce_operationCount m =? ce_operationCount e)
                                        && (ce_operationIndex m <? ce_operationCount e)
                            | None => false end) batch
      end
  end.

Definition ensureCommitEnvelope (e : queue_env) (batch : list QueuedMutation)
    : option (string * list QueuedMutation) :=
  match omap member_key batch with
  | key :: keys =>
      if forallb (String.eqb key) keys && is_complete_envelope key batch
      then Some (key, sort_by (λ a b, operation_index a - operation_index b) batch)
      else None
  | [] =>
      let explicitKey := match batch with
                         | [tx] => tx_writeOptions tx ≫= wo_idempotencyKey
                         | _ => None end in
      let key := match explicitKey with
                 | Some k => if String.eqb k "" then qe_key e else k
                 | None => qe_key e end in
      Some (key, seal_members key (Z.of_nat (length batch)) 0 batch)
  end.

(** The batch is prepared: it is sealed and sent. *)
Definition prepared (e : queue_env) (batch : list string) (s : queue) : queue :=
  match ensureCommitEnvelope e (deref batch s) with
  | None => finish batch (emit (EnvelopeRejected batch) s)
  | Some (key, members) =>
      let s := foldl (λ s tx, match tx_commitEnvelope tx with
                              | Some m => on_store (store_edit (tx_id tx) (set_envelope m)) s
                              | None => s end) s members in
      let s := foldl (λ s id, on_store (updateStatus id tx_executing) s) s (tx_id <$> members) in
      on_runner (set_phase (Dispatching (tx_id <$> members) key)) (emit (Sent (tx_id <$> members)) s)
  end.

(** [holdUnsealedOperations] *)
Definition holdUnsealedOperations (batch : list string) (err : CaughtError) (s : queue) : queue :=
  if negb (isPermanentError err) then
    let s := foldl (λ s id, on_store (updateStatus id tx_pending)
                      (on_store (store_edit id (λ tx, set_attempts (tx_attempts tx + 1) (tx_firstTransientFailureAt tx) tx)) s))
               s batch in
    on_places (λ p, set_retries (retryTimers p ++ [batch]) p) s
  else
    emit OperationsBlocked
      (foldl (λ s id, on_ledger (resolve_confirmation id false)
                        (on_places (λ p, set_queue (executionQueue p ++ [id]) p)
                          (on_store (updateStatus id tx_pending) s)))
         (on_runner (set_block (Some err)) s) batch).

Record commit_result := mkResult {
  res_queued : bool;
  res_lastSyncId : Z;
  res_missingIds : list string;
  res_correlationId : option string;
}.

Definition not_found : CaughtError := mkCaught AbloNotFoundError (Some "mutate_update_entity_not_found") "" None 0.

Definition await_delta (id : string) (s : queue) : queue :=
  emit (AwaitsDelta id) (on_store (updateStatus id tx_awaiting_delta) s).

Definition settle_queued (e : queue_env) (corr : option string) (s : queue) (id : string) : queue :=
  let s := on_store (store_edit id (set_settlement None corr true)) s in
  match corr ≫= qe_echo e with
  | Some _ => complete_tx s id
  | None => await_delta id s
  end.

Definition settle_confirmed (lastSyncId : Z) (s : queue) (id : string) : queue :=
  match store_get id (q_store s) with
  | None => s
  | Some tx =>
      let s := on_store (store_edit id (set_settlement (Some lastSyncId) (tx_correlationId tx) (tx_requiresCorrelatedDelta tx))) s in
      if (lastSyncId =? 0) && bool_decide (tx_type tx = tx_delete) then complete_tx s id
      else if 0 <? lastSyncId then complete_tx s id
      else await_delta id s
  end.

Definition is_missing (missing : list string) (s : queue) (id : string) : bool :=
  match store_get id (q_store s) with Some tx => bool_decide (tx_modelId tx ∈ missing) | None => false end.

Definition settle_batch (e : queue_env) (batch : list string) (key : string) (r : commit_result) (s : queue) : queue :=
  let settling := base.filter (λ id, is_missing (res_missingIds r) s id = false) batch in
  let missing := base.filter (λ id, is_missing (res_missingIds r) s id = true) batch in
  let s := foldl (fail_mutation e not_found) s (rev missing) in
  if res_queued r then
    let s := match settling with [] => emit (EnvelopeRemoved key) s | _ => s end in
    let s := foldl (settle_queued e (res_correlationId r)) s settling in
    match settling with
    | [] => s
    | _ => if forallb (λ id, bool_decide (status_of id s = Some tx_completed)) settling
           then emit (EnvelopeRemoved key) s else s
    end
  else foldl (settle_confirmed (res_lastSyncId r)) (emit (EnvelopeRemoved key) s) settling.

Definition is_update_or_delete (s : queue) (id : string) : bool :=
  match store_get id (q_store s) with
  | Some tx => bool_decide (tx_type tx = tx_update) || bool_decide (tx_type tx = tx_delete)
  | None => false
  end.

(** The [catch]. *)
Definition batch_failed (e : queue_env) (batch : list string) (key : string) (dispatchStarted : bool)
    (err : CaughtError) (s : queue) : queue :=
  let s := if dispatchStarted && isDefinitiveRejection err then emit (EnvelopeRemoved key) s else s in
  if includes (er_message err) "no rows in result set" then
    let s := if dispatchStarted then emit (EnvelopeRemoved key) s else s in
    foldl (λ s id, if is_update_or_delete s id then emit_completed id (on_store (updateStatus id tx_completed) s)
                   else fail_mutation e err s id) s (rev batch)
  else foldl (fail_mutation e err) s (rev batch).

(** ** Confirmation *)

Definition deltaReceived (syncId : Z) (corr : option string) (s : queue) : queue :=
  foldl complete_tx s
    (tx_id <$> base.filter (λ tx, confirmedBy syncId corr tx = true) (getByStatus tx_awaiting_delta (q_store s))).

(** ** Inputs *)

Inductive queue_input :=
  | Write (id : string) (kind : tx_kind) (modelName modelId : string) (data : list (string * payload_value))
      (writeOptions : option WriteOptions) (ready : bool)
  | Remove (id modelName modelId : string) (writeOptions : option WriteOptions)
  | JournalStarts
  | JournalSettles (n : nat) (oks : list bool)
  | RemovalSettles (id : string) (ok : bool)
  | StagedCommits
  | ProcessRuns
  | WaiterResumes
  | PreparationEnds
  | PreparationFails (err : CaughtError)
  | BatchSucceeds (r : commit_result)
  | BatchTooOld
  | BatchFails (dispatchStarted : bool) (err : CaughtError)
  | RetryFires (n : nat)
  | DeltaArrives (syncId : Z) (corr : option string)
  | CancelByForeignKey (childModelName : string) (references : string → bool).

Definition replay_error : CaughtError := mkCaught AbloIdempotencyError (Some "idempotency_conflict") "" None 0.

(** The journal writes settled: failures are handled, the others staged in order. *)
Definition journal_settles (ids : list string) (oks : list bool) (s : queue) : queue :=
  let out := zip ids oks in
  let s := foldl fail_journal s (base.filter (λ p, p.2 = false) out).*1 in
  foldl stageTransaction s (base.filter (λ p, p.2 = true) out).*1.

Definition queue_step (e : queue_env) (s : queue) (i : queue_input) : queue :=
  match i with
  | Write id kind modelName modelId data wo ready => write e ready (new_mutation e id kind modelName modelId data wo) s
  | Remove id modelName modelId wo => remove (new_mutation e id tx_delete modelName modelId [] wo) s
  | JournalStarts =>
      on_places (λ p, set_collecting [] (set_journals (journalWrites p ++ [pendingPersistenceStages p]) p)) s
  | JournalSettles n oks =>
      match journalWrites (q_places s) !! n with
      | Some ids => journal_settles ids oks (on_places (λ p, set_journals (delete n (journalWrites p)) p) s)
      | None => s
      end
  | RemovalSettles id ok =>
      let s := on_places (λ p, set_removing (set_remove id (removing p)) p) s in
      if ok then removal_journaled id s else fail_journal s id
  | StagedCommits => commitCreatedTransactions s
  | ProcessRuns => processBatch (on_runner (set_scheduled false) s)
  | WaiterResumes =>
      let s := on_runner (λ r, set_waiters (pred (waiters r)) r) s in
      match executionQueue (q_places s) with [] => s | _ => processBatch s end
  | PreparationEnds => match batchPhase (q_runner s) with Preparing batch => prepared e batch s | _ => s end
  | PreparationFails err =>
      match batchPhase (q_runner s) with
      | Preparing batch => finish batch (holdUnsealedOperations batch err s)
      | _ => s end
  | BatchSucceeds r =>
      match batchPhase (q_runner s) with
      | Dispatching batch key => finish batch (settle_batch e batch key r s)
      | _ => s end
  | BatchTooOld =>
      match batchPhase (q_runner s) with
      | Dispatching batch key =>
          finish batch (batch_failed e batch key false replay_error (on_runner (set_block (Some replay_error)) s))
      | _ => s end
  | BatchFails started err =>
      match batchPhase (q_runner s) with
      | Dispatching batch key => finish batch (batch_failed e batch key started err s)
      | _ => s end
  | RetryFires n =>
      match retryTimers (q_places s) !! n with
      | Some ids => foldl enqueue (on_places (λ p, set_retries (delete n (retryTimers p)) p) s) ids
      | None => s
      end
  | DeltaArrives syncId corr => deltaReceived syncId corr s
  | CancelByForeignKey child references => cancelTransactionsByForeignKey child references s
  end.

(** Ids are fresh; a delete is written with [Remove]; a microtask or a timer runs
    only when it was scheduled; a journal write reports on each of its entries. *)
Definition queue_enabled (s : queue) (i : queue_input) : Prop :=
  match i with
  | Write id kind _ _ _ _ _ => store_get id (q_store s) = None ∧ kind ≠ tx_delete
  | Remove id _ _ _ => store_get id (q_store s) = None
  | JournalStarts => pendingPersistenceStages (q_places s) ≠ []
  | JournalSettles n oks => ∃ ids, journalWrites (q_places s) !! n = Some ids ∧ length oks = length ids
  | RemovalSettles id _ => id ∈ removing (q_places s)
  | StagedCommits => commitScheduled (q_runner s) = true
  | ProcessRuns => processScheduled (q_runner s) = true
  | WaiterResumes => (0 < waiters (q_runner s))%nat
  | RetryFires n => is_Some (retryTimers (q_places s) !! n)
  | _ => True
  end.

Inductive queue_reach : queue → Prop :=
  | queue_start : queue_reach new_queue
  | queue_next s e i : queue_reach s → queue_enabled s i → queue_reach (queue_step e s i).

End Queue.
