(* ===== verification/QueueInvariant.v ===== *)
(** * The invariant of the mutation queue

    What every state of the machine of [QueueMachine.v] satisfies: where a pending or
    executing mutation is, what a deferred delete waits for, and which promises are
    open. [ok P E U] is the invariant in the middle of a step, with mutations on their
    way; each operation has a lemma that says which it takes and which it leaves.
    [frame] is what operations other than those of the batch do not change. At the end:
    nothing is lost, and promises settle once. *)
From S2P Require Import Prelude JsData ErrorCodes MutationQueue Confirmation MutationFailure QueueMachine.
#[local] Open Scope Z_scope.

(** ** What every run keeps *)

Definition placed (p : places) (id : string) : Prop :=
  id ∈ pendingPersistenceStages p ∨ id ∈ concat (journalWrites p) ∨ id ∈ removing p
  ∨ id ∈ createdTransactions p ∨ id ∈ executionQueue p
  ∨ (∃ key ids, map_get key (deferredDeletesByCreate p) = Some ids ∧ id ∈ ids)
  ∨ id ∈ concat (retryTimers p).

Definition ended (st : tx_state) : Prop := st = tx_completed ∨ st = tx_failed.

(** [P]: pending mutations on their way between two places; [E]: those that may be
    executing; [U]: those whose end was not announced yet. *)
Record ok (P E U : list string) (s : queue) : Prop := {
  ok_store : store_inv (q_store s);
  ok_kept : ∀ id tx, store_get id (q_store s) = Some tx →
    (tx_status tx = tx_pending → placed (q_places s) id ∨ id ∈ P) ∧ (tx_status tx = tx_executing → id ∈ E);
  ok_deferred : ∀ key ids, map_get key (deferredDeletesByCreate (q_places s)) = Some ids → ids ≠ [] →
    ∃ create tx, store_get create (q_store s) = Some tx ∧ tx_type tx = tx_create
      ∧ entityKey (tx_modelName tx) (tx_modelId tx) = key ∧ (ended (tx_status tx) → create ∈ U);
  ok_open : NoDup (confirmationResolvers (q_ledger s));
  ok_once : NoDup (settled (q_ledger s)).*1;
  ok_apart : ∀ id, id ∈ confirmationResolvers (q_ledger s) → id ∉ (settled (q_ledger s)).*1;
  ok_promise : ∀ id, is_Some (store_get id (q_store s)) ↔
    id ∈ confirmationResolvers (q_ledger s) ∨ id ∈ (settled (q_ledger s)).*1;
  ok_told : ∀ id tx, store_get id (q_store s) = Some tx → ended (tx_status tx) →
    id ∈ (settled (q_ledger s)).*1 ∨ id ∈ U;
}.

Lemma ok_weaken P P' E E' U U' s :
  (∀ x, x ∈ P → x ∈ P') → (∀ x, x ∈ E → x ∈ E') → (∀ x, x ∈ U → x ∈ U') → ok P E U s → ok P' E' U' s.
Proof.
  intros HP HE HU [A B C D1 D2 D3 D4 F]. split; try done.
  - intros id tx Hg. destruct (B id tx Hg) as [B1 B2]. split; [|auto]. intros Hst. destruct (B1 Hst); auto.
  - intros key ids Hk Hne. destruct (C key ids Hk Hne) as (c & tx & ? & ? & ? & ?). exists c, tx. split_and!; auto.
  - intros id tx Hg Hst. destruct (F id tx Hg Hst); auto.
Qed.

(** Events, the optimistic ledger and the runner are not looked at. *)
Lemma ok_quiet P E U s s' :
  q_store s' = q_store s → q_places s' = q_places s → confirmationResolvers (q_ledger s') = confirmationResolvers (q_ledger s) →
  settled (q_ledger s') = settled (q_ledger s) → ok P E U s → ok P E U s'.
Proof. intros E1 E2 E3 E4 [A B C D1 D2 D3 D4 F]. split; rewrite ?E1, ?E2, ?E3, ?E4; done. Qed.

Lemma ok_emit P E U ev s : ok P E U s → ok P E U (emit ev s).
Proof. by apply ok_quiet. Qed.
Lemma ok_runner P E U f s : ok P E U s → ok P E U (on_runner f s).
Proof. by apply ok_quiet. Qed.
Lemma ok_drop P E U id s : ok P E U s → ok P E U (drop_update id s).
Proof. by apply ok_quiet. Qed.
Lemma ok_add_update P E U id s : ok P E U s → ok P E U (add_update id s).
Proof. by apply ok_quiet. Qed.
Lemma ok_rollback P E U id s : ok P E U s → ok P E U (rollbackOptimistic id s).
Proof. intros H. unfold rollbackOptimistic. case_match; [|done]. by apply ok_drop, ok_emit. Qed.

Create HintDb queue.
Create HintDb frame.
#[local] Hint Resolve ok_emit ok_runner ok_drop ok_add_update ok_rollback : queue.

(** Other places, the same pending mutations. *)
Lemma ok_places P P' E U f s :
  ok P E U s →
  (∀ id, placed (q_places s) id → placed (f (q_places s)) id ∨ id ∈ P') →
  (∀ id, id ∈ P → placed (f (q_places s)) id ∨ id ∈ P') →
  (∀ key ids, map_get key (deferredDeletesByCreate (f (q_places s))) = Some ids → ids ≠ [] →
     ∃ ids', map_get key (deferredDeletesByCreate (q_places s)) = Some ids' ∧ ids' ≠ []) →
  ok P' E U (on_places f s).
Proof.
  intros [A B C D1 D2 D3 D4 F] Hp HP Hd. split; try done.
  - intros id tx Hg. destruct (B id tx Hg) as [B1 B2]. split; [|done]. intros Hst. destruct (B1 Hst); auto.
  - intros key ids Hk Hne. destruct (Hd key ids Hk Hne) as (ids' & Hk' & Hne'). exact (C key ids' Hk' Hne').
Qed.

Lemma updateStatus_id id st s : q_store (on_store (updateStatus id st) s) = updateStatus id st (q_store s).
Proof. done. Qed.

Lemma update_absent id st s : store_get id (q_store s) = None → on_store (updateStatus id st) s = s.
Proof. intros Hg. unfold on_store, updateStatus. rewrite Hg. by destruct s. Qed.

Lemma ok_status P E U id st s :
  ok P E U s → (st = tx_pending → placed (q_places s) id ∨ id ∈ P) → (st = tx_executing → id ∈ E) →
  (ended st → id ∈ U ∨ status_of id s = Some st) → ok P E U (on_store (updateStatus id st) s).
Proof.
  intros [A B C D1 D2 D3 D4 F] Hp He Hu. unfold status_of in Hu. split; simpl; try done.
  - by apply updateStatus_inv.
  - intros id' tx'. rewrite updateStatus_get. case_decide; [subst|apply B].
    destruct (store_get id (q_store s)) as [tx|]; [|done]. intros [= <-]. auto.
  - intros key ids Hk Hne. destruct (C key ids Hk Hne) as (c & tx & Hg & Ht & Hkey & Hend).
    destruct (decide (c = id)) as [->|Hc].
    + exists id, (set_status st tx). rewrite updateStatus_get, decide_True, Hg by done. split_and!; [done..|].
      simpl. intros Hst. rewrite Hg in Hu. destruct (Hu Hst) as [?|[= Heq]]; [done|]. apply Hend. by rewrite Heq.
    + exists c, tx. by rewrite updateStatus_get, decide_False.
  - intros id'. rewrite <- D4, updateStatus_get. case_decide; [subst; apply fmap_is_Some|done].
  - intros id' tx'. rewrite updateStatus_get. case_decide; [subst|apply F].
    destruct (store_get id (q_store s)) as [tx|] eqn:Hg; [|done]. intros [= <-] Hst.
    destruct (Hu Hst) as [?|[= Heq]]; [by right|]. apply (F id tx Hg). by rewrite Heq.
Qed.

Lemma ok_edit P E U id f s :
  (∀ tx, tx_id (f tx) = tx_id tx ∧ tx_status (f tx) = tx_status tx ∧ tx_type (f tx) = tx_type tx
         ∧ tx_modelName (f tx) = tx_modelName tx ∧ tx_modelId (f tx) = tx_modelId tx) →
  ok P E U s → ok P E U (on_store (store_edit id f) s).
Proof.
  intros Hf [A B C D1 D2 D3 D4 F]. split; simpl; try done.
  - apply store_edit_inv; [|done]. intros tx. by destruct (Hf tx) as (? & ? & _).
  - intros id' tx'. rewrite store_edit_get. case_decide; [subst|apply B].
    destruct (store_get id (q_store s)) as [tx|] eqn:Hg; [|done]. intros [= <-].
    destruct (Hf tx) as (_ & -> & _). by apply B.
  - intros key ids Hk Hne. destruct (C key ids Hk Hne) as (c & tx & Hg & Ht & Hkey & Hend).
    destruct (decide (c = id)) as [->|Hc].
    + exists id, (f tx). rewrite store_edit_get, decide_True, Hg by done.
      destruct (Hf tx) as (_ & -> & -> & -> & ->). auto.
    + exists c, tx. by rewrite store_edit_get, decide_False.
  - intros id'. rewrite <- D4, store_edit_get. case_decide; [subst; apply fmap_is_Some|done].
  - intros id' tx'. rewrite store_edit_get. case_decide; [subst|apply F].
    destruct (store_get id (q_store s)) as [tx|] eqn:Hg; [|done]. intros [= <-].
    destruct (Hf tx) as (_ & -> & _). by apply F.
Qed.

(** A mutation that is not executing need not be allowed to. *)
Lemma ok_rests P E U id s :
  ok P (id :: E) U s → status_of id s ≠ Some tx_executing → ok P E U s.
Proof.
  intros [A B C D1 D2 D3 D4 F] Hst. split; try done. intros id' tx Hg. destruct (B id' tx Hg) as [B1 B2].
  split; [done|]. intros Hx. destruct (proj1 (elem_of_cons E id' id) (B2 Hx)) as [->|]; [|done].
  destruct Hst. unfold status_of. rewrite Hg. simpl. by rewrite Hx.
Qed.

(** Nor wait, when it is not pending. *)
Lemma ok_settles P E U id s :
  ok (id :: P) (id :: E) U s → status_of id s ≠ Some tx_executing → status_of id s ≠ Some tx_pending → ok P E U s.
Proof.
  intros H Hx Hp. destruct (ok_rests _ _ _ _ _ H Hx) as [A B C D1 D2 D3 D4 F]. split; try done.
  intros id' tx Hg. destruct (B id' tx Hg) as [B1 B2]. split; [|done]. intros Hst.
  destruct (B1 Hst) as [?|[->|?]%elem_of_cons]; [by left| |by right].
  destruct Hp. unfold status_of. rewrite Hg. simpl. by rewrite Hst.
Qed.

Lemma status_updated id st s :
  status_of id (on_store (updateStatus id st) s) = (λ _, st) <$> store_get id (q_store s).
Proof.
  unfold status_of. simpl. rewrite updateStatus_get, decide_True by done. by destruct (store_get id (q_store s)).
Qed.

(** A status in which a mutation neither waits nor runs. *)
Lemma ok_settle_status P E U id st s :
  ok (id :: P) (id :: E) U s → st ≠ tx_pending → st ≠ tx_executing → (ended st → id ∈ U) →
  ok P E U (on_store (updateStatus id st) s).
Proof.
  intros H Hp Hx Hu. apply (ok_settles _ _ _ id).
  - apply ok_status; [done|done|done|auto].
  - rewrite status_updated. destruct (store_get id (q_store s)); simpl; congruence.
  - rewrite status_updated. destruct (store_get id (q_store s)); simpl; congruence.
Qed.

Lemma ok_add_ids P E U id s : ok P E U s → ok (id :: P) (id :: E) U s.
Proof. apply ok_weaken; set_solver. Qed.
Lemma ok_add_end P E U id s : ok P E U s → ok P E (id :: U) s.
Proof. apply ok_weaken; set_solver. Qed.
Lemma ok_add_pending P E U id s : ok P E U s → ok (id :: P) E U s.
Proof. apply ok_weaken; set_solver. Qed.

(** ** Queueing *)

Section QueueFacts.
Context (cfg : queue_config).

Definition same_but_queue (s s' : queue) : Prop :=
  q_store s' = q_store s ∧ q_ledger s' = q_ledger s
  ∧ deferredDeletesByCreate (q_places s') = deferredDeletesByCreate (q_places s)
  ∧ (∀ id, placed (q_places s) id → placed (q_places s') id).

Lemma placed_queue_mono p ids : (∀ x, x ∈ executionQueue p → x ∈ ids) → ∀ id, placed p id → placed (set_queue ids p) id.
Proof. intros H id. unfold placed. simpl. naive_solver. Qed.

Lemma enqueue_frame s id : same_but_queue s (enqueue cfg s id).
Proof.
  unfold enqueue. destruct (store_get id (q_store s)) as [tx|]; [|by repeat split].
  case_match; [by repeat split|]. repeat split; try done. simpl. apply placed_queue_mono.
  intros x Hx. destruct (tx_high tx); set_solver.
Qed.

Lemma ok_enqueue P E U id s : ok (id :: P) E U s → ok P E U (enqueue cfg s id).
Proof.
  intros H. pose proof (enqueue_frame s id) as (E1 & E2 & E3 & E4). destruct H as [A B C D1 D2 D3 D4 F].
  split; rewrite ?E1, ?E2, ?E3; try done. intros id' tx Hg. destruct (B id' tx Hg) as [B1 B2]. split; [|done].
  intros Hst. destruct (B1 Hst) as [Hp|[->|?]%elem_of_cons]; [auto| |auto].
  left. unfold enqueue. rewrite Hg. unfold is_pending. rewrite bool_decide_eq_true_2 by done. simpl.
  case_bool_decide as Hin; [by right; right; right; right; left|].
  right; right; right; right; left. simpl. destruct (tx_high tx); set_solver.
Qed.

Lemma ok_enqueue_all P E U ids s : ok (ids ++ P) E U s → ok P E U (foldl (enqueue cfg) s ids).
Proof. revert s. induction ids as [|id ids IH]; intros s H; [done|]. simpl. by apply IH, ok_enqueue. Qed.

Lemma enqueue_all_frame ids s : same_but_queue s (foldl (enqueue cfg) s ids).
Proof.
  revert s. induction ids as [|id ids IH]; intros s; [by repeat split|]. simpl.
  destruct (enqueue_frame s id) as (E1 & E2 & E3 & E4), (IH (enqueue cfg s id)) as (F1 & F2 & F3 & F4).
  repeat split; try congruence. auto.
Qed.

Lemma ok_stage P E U id s : ok (id :: P) E U s → ok P E U (stageTransaction s id).
Proof.
  intros H. apply ok_runner. eapply ok_places; [exact H|..]; simpl.
  - intros id' Hp. left. unfold placed in *. simpl. set_solver.
  - intros id' [->|?]%elem_of_cons; [left|by right]. unfold placed. simpl. set_solver.
  - intros key ids Hk Hne. by exists ids.
Qed.

Lemma ok_stage_all P E U ids s : ok (ids ++ P) E U s → ok P E U (foldl stageTransaction s ids).
Proof. revert s. induction ids as [|id ids IH]; intros s H; [done|]. simpl. by apply IH, ok_stage. Qed.

(** ** Releasing and announcing *)

Lemma release_frame tx s :
  q_store (releaseDeferredDeletesForCreate cfg tx s) = q_store s
  ∧ q_ledger (releaseDeferredDeletesForCreate cfg tx s) = q_ledger s
  ∧ (∀ key ids, map_get key (deferredDeletesByCreate (q_places (releaseDeferredDeletesForCreate cfg tx s))) = Some ids →
       ids ≠ [] → key ≠ entityKey (tx_modelName tx) (tx_modelId tx)
       ∧ map_get key (deferredDeletesByCreate (q_places s)) = Some ids).
Proof.
  unfold releaseDeferredDeletesForCreate. set (k := entityKey _ _).
  destruct (map_get k (deferredDeletesByCreate (q_places s))) as [[|d deferred]|] eqn:Hk.
  - split_and!; [done..|]. intros key ids Hg Hne. split; [|done]. intros ->. congruence.
  - destruct (enqueue_all_frame (d :: deferred) (on_places (λ p, set_deferred (map_delete k (deferredDeletesByCreate p)) p) s))
      as (E1 & E2 & E3 & _). rewrite E1, E2, E3. split_and!; [done..|]. simpl. intros key ids. rewrite map_get_delete.
    case_decide; done.
  - split_and!; [done..|]. intros key ids Hg Hne. split; [|done]. intros ->. congruence.
Qed.

Lemma ok_release P E U tx s : ok P E U s → ok P E U (releaseDeferredDeletesForCreate cfg tx s).
Proof.
  intros H. unfold releaseDeferredDeletesForCreate. set (k := entityKey _ _).
  destruct (map_get k (deferredDeletesByCreate (q_places s))) as [[|d deferred]|] eqn:Hk; [done| |done].
  apply ok_enqueue_all. eapply ok_places; [exact H|..]; simpl.
  - intros id [?|[?|[?|[?|[?|[(key & ids & Hg & Hin)|?]]]]]]; unfold placed; simpl; try tauto.
    destruct (decide (key = k)) as [->|Hne].
    + assert (ids = d :: deferred) as -> by congruence. right. set_solver.
    + left. right; right; right; right; right; left. exists key, ids. by rewrite map_get_delete, decide_False.
  - intros id Hin. right. set_solver.
  - intros key ids. rewrite map_get_delete. case_decide; [done|]. intros Hg Hne. by exists ids.
Qed.

Lemma ok_resolve P E U id b s : ok P E U s → ok P E U (on_ledger (resolve_confirmation id b) s).
Proof.
  intros [A B C D1 D2 D3 D4 F]. unfold on_ledger, resolve_confirmation. case_bool_decide as Hin; [|by split].
  split; simpl; try done.
  - by apply NoDup_filter.
  - rewrite fmap_app. apply NoDup_app. split_and!; [done| |apply NoDup_singleton].
    intros x Hx ->%list_elem_of_singleton. by apply (D3 id).
  - intros x [Hx Hne]%elem_set_remove. rewrite fmap_app. apply not_elem_of_app. split; [by apply D3|]. simpl. set_solver.
  - intros x. rewrite D4, fmap_app, elem_of_app, elem_set_remove. simpl. rewrite list_elem_of_singleton.
    destruct (decide (x = id)) as [->|]; tauto.
  - intros id' tx Hg Hst. rewrite fmap_app, elem_of_app. destruct (F id' tx Hg Hst); auto.
Qed.

(** The promise of a mutation of the store is settled once its end is announced. *)
Lemma resolve_told P E U id b s :
  ok P E U s → is_Some (store_get id (q_store s)) →
  id ∈ (settled (resolve_confirmation id b (q_ledger s))).*1.
Proof.
  intros H Hg. unfold resolve_confirmation. case_bool_decide as Hin; simpl.
  - rewrite fmap_app. apply elem_of_app. right. simpl. set_solver.
  - destruct (proj1 (ok_promise _ _ _ _ H id) Hg); [done|done].
Qed.

(** An announcement: the promise is settled and what waits behind it is released. *)
Lemma ok_announce P E U id b s :
  ok P E (id :: U) s → ok P E U (release_for cfg id (on_ledger (resolve_confirmation id b) s)).
Proof.
  intros H. pose proof (ok_resolve _ _ _ id b _ H) as H1. set (s1 := on_ledger (resolve_confirmation id b) s) in *.
  unfold release_for. change (q_store s1) with (q_store s). destruct (store_get id (q_store s)) as [tx|] eqn:Hg.
  - assert (Htold : id ∈ (settled (q_ledger s1)).*1) by (eapply resolve_told; [done|by eexists]).
    case_bool_decide as Ht.
    + pose proof (ok_release _ _ _ tx _ H1) as H2. destruct (release_frame tx s1) as (E1 & E2 & E3).
      destruct H2 as [A B C D1 D2 D3 D4 F]. split; try done.
      * intros key ids Hk Hne. destruct (C key ids Hk Hne) as (c & ctx & Hgc & Hct & Hkey & Hend).
        exists c, ctx. split_and!; [done..|]. intros Hst. destruct (proj1 (elem_of_cons _ _ _) (Hend Hst)) as [->|]; [|done].
        exfalso. destruct (E3 key ids Hk Hne) as [Hne' _]. rewrite E1 in Hgc. change (q_store s1) with (q_store s) in Hgc.
        congruence.
      * intros id' tx' Hg' Hst. destruct (F id' tx' Hg' Hst) as [?|[->|]%elem_of_cons]; [by left| |by right].
        left. by rewrite E2.
    + destruct H1 as [A B C D1 D2 D3 D4 F]. split; try done.
      * intros key ids Hk Hne. destruct (C key ids Hk Hne) as (c & ctx & Hgc & Hct & Hkey & Hend).
        exists c, ctx. split_and!; [done..|]. intros Hst. destruct (proj1 (elem_of_cons _ _ _) (Hend Hst)) as [->|]; [|done].
        change (q_store s1) with (q_store s) in Hgc. congruence.
      * intros id' tx' Hg' Hst. destruct (F id' tx' Hg' Hst) as [?|[->|]%elem_of_cons]; auto.
  - destruct H1 as [A B C D1 D2 D3 D4 F]. split; try done.
    + intros key ids Hk Hne. destruct (C key ids Hk Hne) as (c & ctx & Hgc & Hct & Hkey & Hend).
      exists c, ctx. split_and!; [done..|]. intros Hst. destruct (proj1 (elem_of_cons _ _ _) (Hend Hst)) as [->|]; [|done].
      change (q_store s1) with (q_store s) in Hgc. congruence.
    + intros id' tx' Hg' Hst. destruct (F id' tx' Hg' Hst) as [?|[->|]%elem_of_cons]; auto.
      change (q_store s1) with (q_store s) in Hg'. congruence.
Qed.

Lemma release_for_store id s : q_store (release_for cfg id s) = q_store s.
Proof.
  unfold release_for. destruct (store_get id (q_store s)); [|done]. case_match; [|done]. apply (release_frame _ s).
Qed.

Lemma ok_emit_completed P E U id s : ok P E (id :: U) s → ok P E U (emit_completed cfg id s).
Proof. intros H. by apply ok_announce, ok_emit. Qed.

Lemma ok_emit_failed P E U id s :
  ok P E (id :: U) s → status_of id s ∈ [None; Some tx_failed] → ok P E U (emit_failed cfg id s).
Proof.
  intros H Hst. unfold emit_failed. set (s1 := release_for _ _ _).
  assert (H1 : ok P E U s1) by by apply ok_announce, ok_emit.
  assert (Hs1 : status_of id s1 = status_of id s) by (unfold status_of, s1; by rewrite release_for_store).
  destruct (status_of id s) as [st|] eqn:E1.
  - apply ok_status; [done|done|done|]. intros _. right. rewrite Hs1.
    apply elem_of_cons in Hst as [Hst|Hst%list_elem_of_singleton]; congruence.
  - rewrite update_absent; [done|]. unfold status_of in Hs1. by destruct (store_get id (q_store s1)).
Qed.

Lemma status_quiet id s s' : q_store s' = q_store s → status_of id s' = status_of id s.
Proof. unfold status_of. by intros ->. Qed.

Lemma rollback_store id s : q_store (rollbackOptimistic id s) = q_store s.
Proof. unfold rollbackOptimistic. by case_match. Qed.

Lemma rollback_if_store id s : q_store (rollback_if_optimistic cfg id s) = q_store s.
Proof. unfold rollback_if_optimistic. case_match; [apply rollback_store|done]. Qed.

Lemma ok_rollback_if P E U id s : ok P E U s → ok P E U (rollback_if_optimistic cfg id s).
Proof. intros H. unfold rollback_if_optimistic. case_match; [by apply ok_rollback|done]. Qed.
#[local] Hint Resolve ok_rollback_if : queue.

Lemma ok_complete P E U id s : ok (id :: P) (id :: E) U s → ok P E U (complete_tx cfg s id).
Proof.
  intros H. apply ok_drop, ok_emit, ok_emit_completed, ok_settle_status; [by apply ok_add_end|done|done|].
  intros _. left.
Qed.

(** After [updateStatus id tx_failed] the mutation has failed, or is not there. *)
Lemma failed_now id s s' :
  q_store s' = q_store (on_store (updateStatus id tx_failed) s) → status_of id s' ∈ [None; Some tx_failed].
Proof.
  intros Hs. rewrite (status_quiet id _ _ Hs), status_updated. destruct (store_get id (q_store s)); simpl; set_solver.
Qed.

Lemma ok_fail_journal P E U id s : ok (id :: P) (id :: E) U s → ok P E U (fail_journal cfg s id).
Proof.
  intros H. apply ok_emit, ok_emit_failed; [|eapply failed_now, rollback_if_store].
  apply ok_rollback_if, ok_settle_status; [by apply ok_add_end|done|done|]. intros _. left.
Qed.

Lemma ok_cancel_one P E U id s : ok P E U s → ok P E U (cancel_one s id).
Proof. intros H. apply ok_rollback, ok_settle_status; [by apply ok_add_ids|done|done|]. by intros [|]. Qed.

Lemma ok_cancel_all P E U ids s : ok P E U s → ok P E U (foldl cancel_one s ids).
Proof. revert s. induction ids as [|id ids IH]; intros s H; [done|]. by apply IH, ok_cancel_one. Qed.

(** [handleFailure] either settles the mutation or schedules one retry. *)
Lemma handleFailure_cases now random err tx :
  is_settled tx = false →
  let out := handleFailure (qc_retry cfg) now random err tx in
  (tx_status out.1 = tx_failed ∧ ∃ permanent,
     out.2 = (if enableOptimistic (qc_retry cfg) then [RollbackOptimistic permanent] else [])
             ++ [EmitFailed permanent; EmitFailedFor (tx_id tx)])
  ∨ (tx_status out.1 = tx_pending ∧ ∃ d, out.2 = [ScheduleRetry d]).
Proof.
  intros Hs. unfold handleFailure. rewrite Hs. destruct (isPermanentError err); [left|].
  - split; [done|]. by eexists.
  - destruct (_ || _); [right; split; [done|by eexists]|left; split; [done|by eexists]].
Qed.

Lemma ok_edit_attempts P E U id n first s :
  ok P E U s → ok P E U (on_store (store_edit id (set_attempts n first)) s).
Proof. by apply ok_edit. Qed.

Lemma ok_retry P E U ids s : ok (ids ++ P) E U s → ok P E U (on_places (λ p, set_retries (retryTimers p ++ [ids]) p) s).
Proof.
  intros H. eapply ok_places; [exact H|..]; simpl.
  - intros id Hp. left. unfold placed in *. simpl. rewrite concat_app. set_solver.
  - intros id [Hin|?]%elem_of_app; [left|by right]. unfold placed. simpl. rewrite concat_app. simpl. set_solver.
  - intros key l Hk Hne. by exists l.
Qed.

Lemma ok_fail_mutation P E U e err id s :
  ok P (id :: E) U s → ok P E U (fail_mutation cfg e err s id).
Proof.
  intros H. unfold fail_mutation. destruct (store_get id (q_store s)) as [tx|] eqn:Hg.
  2: { apply (ok_rests _ _ _ id); [done|]. unfold status_of. by rewrite Hg. }
  destruct (is_settled tx) eqn:Hs.
  { apply (ok_rests _ _ _ id); [done|]. unfold status_of. rewrite Hg. simpl. unfold is_settled in Hs.
    intros [= Heq]. by rewrite Heq in Hs. }
  pose proof (handleFailure_cases (qe_now e) (qe_random e id) err tx Hs) as Hcases. cbv zeta in Hcases.
  set (out := handleFailure _ _ _ _ _) in *. set (s1 := on_store (store_edit _ _) s).
  assert (H1 : ok P (id :: E) U s1) by by apply ok_edit_attempts.
  pose proof (si_id _ (ok_store _ _ _ _ H) _ _ Hg) as Hid.
  destruct Hcases as [(Hst & permanent & Hfx)|(Hst & d & Hfx)]; rewrite Hst, Hfx; rewrite ?foldl_app; cbn [foldl].
  - rewrite Hid. set (s2 := on_store (updateStatus id tx_failed) s1).
    assert (H2 : ok P E (id :: U) s2).
    { apply ok_settle_status; [|done|done|intros _; left]. by apply ok_add_pending, ok_add_end. }
    apply ok_emit, ok_emit_failed.
    + destruct (enableOptimistic _); [by apply ok_rollback|done].
    + apply (failed_now id s1). destruct (enableOptimistic _); [apply rollback_store|done].
  - apply (ok_retry _ _ _ [id]). apply (ok_rests _ _ _ id).
    + apply ok_status; [by apply ok_add_pending|intros _; right; left|done|by intros [|]].
    + rewrite status_updated. destruct (store_get id (q_store s1)); simpl; congruence.
Qed.

Lemma ok_fail_all P E U e err ids s :
  ok P (ids ++ E) U s → ok P E U (foldl (fail_mutation cfg e err) s ids).
Proof. revert s. induction ids as [|id ids IH]; intros s H; [done|]. by apply IH, ok_fail_mutation. Qed.

(** ** Writing and deleting *)

Lemma store_add_get id tx s :
  store_get id (store_add tx s) = if decide (id = tx_id tx) then Some tx else store_get id s.
Proof. unfold store_get. simpl. apply map_get_set. Qed.

Lemma ok_add P E U tx s :
  ok P E U s → store_get (tx_id tx) (q_store s) = None → (tx_status tx = tx_pending → tx_id tx ∈ P) →
  tx_status tx ≠ tx_executing → (ended (tx_status tx) → tx_id tx ∈ U) → ok P E U (add_tx tx s).
Proof.
  intros [A B C D1 D2 D3 D4 F] Hf Hp Hx Hu.
  assert (Hno : tx_id tx ∉ confirmationResolvers (q_ledger s) ∧ tx_id tx ∉ (settled (q_ledger s)).*1).
  { split; intros Hin; [destruct (proj2 (D4 (tx_id tx)) (or_introl Hin))|destruct (proj2 (D4 (tx_id tx)) (or_intror Hin))]; congruence. }
  assert (Hget : ∀ id, store_get id (store_add tx (q_store s)) = if decide (id = tx_id tx) then Some tx else store_get id (q_store s))
    by (intros; apply store_add_get).
  split; simpl; try done.
  - by apply store_add_inv.
  - intros id tx'. rewrite Hget. case_decide; [subst; intros [= <-]; split; [auto|done]|apply B].
  - intros key ids Hk Hne. destruct (C key ids Hk Hne) as (c & ctx & Hg & ? & ? & ?). exists c, ctx. rewrite Hget.
    case_decide; [subst; congruence|done].
  - by apply NoDup_set_add.
  - intros id [?| ->]%elem_set_add; [by apply D3|tauto].
  - intros id. rewrite Hget, elem_set_add. case_decide; [subst; split; [auto|by eexists]|]. rewrite D4. tauto.
  - intros id tx'. rewrite Hget. case_decide; [subst; intros [= <-] Hst; right; auto|apply F].
Qed.

Lemma ok_apply_optimistic P E U id s : ok P E U s → ok P E U (apply_optimistic cfg id s).
Proof. intros H. unfold apply_optimistic. case_match; [by apply ok_add_update|done]. Qed.

Lemma ok_collect P E U id s :
  ok (id :: P) E U s → ok P E U (on_places (λ p, set_collecting (pendingPersistenceStages p ++ [id]) p) s).
Proof.
  intros H. eapply ok_places; [exact H|..]; simpl.
  - intros id' Hp. left. unfold placed in *. simpl. set_solver.
  - intros id' [->|?]%elem_of_cons; [left|by right]. unfold placed. simpl. set_solver.
  - intros key l Hk Hne. by exists l.
Qed.

Lemma ok_removing P E U id s :
  ok (id :: P) E U s → ok P E U (on_places (λ p, set_removing (removing p ++ [id]) p) s).
Proof.
  intros H. eapply ok_places; [exact H|..]; simpl.
  - intros id' Hp. left. unfold placed in *. simpl. set_solver.
  - intros id' [->|?]%elem_of_cons; [left|by right]. unfold placed. simpl. set_solver.
  - intros key l Hk Hne. by exists l.
Qed.

Lemma ok_write P E U e ready tx s :
  ok P E U s → store_get (tx_id tx) (q_store s) = None → tx_status tx = tx_pending → ok P E U (write cfg e ready tx s).
Proof.
  intros H Hf Hst. unfold write. destruct (is_Some_b (replayBlock (q_runner s))); [done|].
  assert (H1 : ok (tx_id tx :: P) E U (add_tx tx s)).
  { apply ok_add; [by apply ok_add_pending|done|intros _; left|congruence|]. rewrite Hst. by intros [|]. }
  set (s1 := match tx_type tx with tx_create | tx_update => _ | _ => _ end).
  assert (H2 : ok (tx_id tx :: P) E U s1) by (unfold s1; destruct (tx_type tx); auto using ok_apply_optimistic).
  destruct ready; [by apply ok_collect|by apply ok_stage].
Qed.

Lemma ok_take_unsent P E U modelName modelId s :
  ok P E U s → let out := takeUnsentCreateForModel modelName modelId s in
  q_store out.2 = q_store s ∧ q_ledger out.2 = q_ledger s
  ∧ match out.1 with Some id => ok (id :: P) E U out.2 | None => out.2 = s end.
Proof.
  intros H. unfold takeUnsentCreateForModel. destruct (find_id _ (createdTransactions _) s) as [id|]; simpl.
  - split_and!; [done..|]. eapply ok_places; [exact H|..]; simpl.
    + intros id' Hp. destruct (decide (id' = id)) as [->|]; [right; left|left].
      unfold placed in *. simpl. rewrite elem_set_remove. tauto.
    + intros id' ?. right. by right.
    + intros key l Hk Hne. by exists l.
  - destruct (find_id _ (executionQueue _) s) as [id|]; simpl.
    + split_and!; [done..|]. eapply ok_places; [exact H|..]; simpl.
      * intros id' Hp. destruct (decide (id' = id)) as [->|]; [right; left|left].
        unfold placed in *. simpl. rewrite elem_set_remove. tauto.
      * intros id' ?. right. by right.
      * intros key l Hk Hne. by exists l.
    + split_and!; [done..|]. destruct (List.find _ _); simpl; [by apply ok_add_pending|done].
Qed.

Lemma ok_cancel_create P E U id s : ok (id :: P) E U s → ok P E U (cancelUnsentCreateForDelete cfg id s).
Proof.
  intros H. apply ok_resolve, ok_rollback_if, ok_settle_status; [|done|done|by intros [|]].
  eapply ok_weaken, H; set_solver.
Qed.

Lemma updateStatus_absent id id' st s :
  store_get id (updateStatus id' st s) = None ↔ store_get id s = None.
Proof. rewrite updateStatus_get. case_decide; [|done]. by destruct (store_get id s). Qed.

Lemma ok_remove P E U tx s :
  ok P E U s → store_get (tx_id tx) (q_store s) = None → tx_status tx = tx_pending → ok P E U (remove cfg tx s).
Proof.
  intros H Hf Hst. unfold remove. destruct (is_Some_b (replayBlock (q_runner s))); [done|].
  destruct (String.eqb (tx_modelName tx) "Activity"); [by apply ok_emit, ok_apply_optimistic|].
  pose proof (ok_take_unsent P E U (tx_modelName tx) (tx_modelId tx) s H) as (Hs & _ & H1).
  destruct (takeUnsentCreateForModel _ _ s) as [[create|] s1]; simpl in *.
  - apply ok_cancel_create in H1. unfold completeLocalDelete.
    apply ok_drop, ok_emit, ok_emit_completed, ok_apply_optimistic, ok_add; simpl.
    + by apply ok_add_end.
    + rewrite rollback_if_store. simpl. rewrite updateStatus_absent. by rewrite Hs.
    + done.
    + done.
    + intros _. left.
  - subst s1. apply ok_removing, ok_apply_optimistic, ok_cancel_all.
    apply ok_add; [by apply ok_add_pending|done|intros _; left|congruence|]. rewrite Hst. by intros [|].
Qed.

(** The create a delete waits behind is in the store and has not ended. *)
Lemma barrier_spec modelName modelId s create :
  store_inv (q_store s) → findCreateBarrierForDelete modelName modelId s = Some create →
  store_get (tx_id create) (q_store s) = Some create ∧ tx_type create = tx_create
  ∧ tx_modelName create = modelName ∧ tx_modelId create = modelId ∧ ¬ ended (tx_status create).
Proof.
  intros Hs Hb. unfold findCreateBarrierForDelete in Hb.
  assert (Hin : create ∈ sort_by (λ a b, tx_createdAt b - tx_createdAt a)
     (base.filter (λ tx, bool_decide (tx_type tx = tx_create) && is_for modelName modelId tx
        && (negb (is_pending tx) || (0 <? tx_attempts tx)) = true)
        (getByStatus tx_pending (q_store s) ++ getByStatus tx_executing (q_store s) ++ getByStatus tx_awaiting_delta (q_store s)))).
  { destruct (sort_by _ _); [done|]. injection Hb as ->. left. }
  rewrite sort_by_perm in Hin. apply list_elem_of_filter in Hin as [Hc Hin]. bool_simpl.
  unfold is_for in *. bool_simpl.
  repeat match goal with H : String.eqb _ _ = true |- _ => apply String.eqb_eq in H end.
  rewrite !elem_of_app in Hin. destruct Hin as [Hin|[Hin|Hin]]; apply elem_getByStatus in Hin as [Hg Hst]; try done;
    split_and!; try done; rewrite Hst; by intros [|].
Qed.

Lemma ok_removal_journaled P E U id s : ok (id :: P) E U s → ok P E U (removal_journaled id s).
Proof.
  intros H. unfold removal_journaled. destruct (store_get id (q_store s)) as [tx|] eqn:Hg.
  2: { destruct H as [A B C D1 D2 D3 D4 F]. split; try done. intros id' tx Hg'. destruct (B id' tx Hg') as [B1 B2].
       split; [|done]. intros Hst. destruct (B1 Hst) as [?|[->|?]%elem_of_cons]; auto. congruence. }
  destruct (findCreateBarrierForDelete _ _ s) as [create|] eqn:Hb; [|by apply ok_stage].
  apply barrier_spec in Hb as (Hgc & Htc & Hmn & Hmi & Hend); [|by eapply ok_store].
  unfold deferDeleteUntilCreateSettles. set (k := entityKey _ _). destruct H as [A B C D1 D2 D3 D4 F].
  split; simpl; try done.
  - intros id' tx' Hg'. destruct (B id' tx' Hg') as [B1 B2]. split; [|done]. intros Hst.
    destruct (B1 Hst) as [Hp|[->|?]%elem_of_cons]; [left| |by right].
    + destruct Hp as [?|[?|[?|[?|[?|[(key & ids & Hk & Hin)|?]]]]]]; unfold placed; simpl; try tauto.
      right; right; right; right; right; left. destruct (decide (key = k)) as [->|Hne].
      * eexists k, _. rewrite map_get_set, decide_True by done. split; [done|]. rewrite Hk. set_solver.
      * exists key, ids. by rewrite map_get_set, decide_False.
    + left. right; right; right; right; right; left. eexists k, _. simpl. rewrite map_get_set, decide_True by done.
      split; [done|]. set_solver.
  - intros key ids. rewrite map_get_set. case_decide as Hkey; [subst key|apply C].
    intros _ _. exists (tx_id create), create. by split_and!.
Qed.

(** ** Batches *)

Lemma elem_deref id tx ids s : store_inv (q_store s) → id ∈ ids → store_get id (q_store s) = Some tx → tx ∈ deref ids s.
Proof. intros _ Hin Hg. apply list_elem_of_omap. eauto. Qed.

Lemma deref_elem tx ids s : store_inv (q_store s) → tx ∈ deref ids s → tx_id tx ∈ ids ∧ store_get (tx_id tx) (q_store s) = Some tx.
Proof.
  intros Hs (id & Hin & Hg)%list_elem_of_omap. pose proof (si_id _ Hs _ _ Hg) as Hid. subst id. done.
Qed.

Lemma ok_commit_created P E U s : ok P E U s → ok P E U (commitCreatedTransactions cfg s).
Proof.
  intros H. unfold commitCreatedTransactions. apply ok_enqueue_all. eapply ok_places; [by apply ok_runner|..]; simpl.
  - intros id Hp. destruct (decide (id ∈ createdTransactions (q_places s))) as [Hin|Hno]; [right; set_solver|left].
    unfold placed in *. simpl. set_solver.
  - intros id Hin. right. set_solver.
  - intros key l Hk Hne. by exists l.
Qed.

(** A pending mutation with a request key is in its group, by id. *)
Lemma in_group q tx key :
  tx ∈ q → has_key key tx = true → tx_id tx ∈ (default [] (map_get key (retry_groups q))).*1.
Proof.
  induction q as [|t q IH] using rev_ind; [by intros ?%elem_of_nil|]. intros Hin Hk.
  unfold retry_groups in *. rewrite foldl_app. simpl. unfold add_to_groups at 1.
  destruct (tx_commitEnvelope t) as [e|] eqn:He.
  - rewrite map_get_set. destruct (decide (key = ce_idempotencyKey e)) as [->|Hne]; simpl.
    + rewrite map_set_keys. apply elem_of_app in Hin as [Hin| ->%list_elem_of_singleton].
      * case_decide; [by apply IH|]. apply elem_of_app. left. by apply IH.
      * case_decide; [done|]. set_solver.
    + apply elem_of_app in Hin as [Hin| ->%list_elem_of_singleton]; [by apply IH|].
      unfold has_key in Hk. rewrite He in Hk. apply String.eqb_eq in Hk. congruence.
  - apply elem_of_app in Hin as [Hin| ->%list_elem_of_singleton]; [by apply IH|].
    unfold has_key in Hk. by rewrite He in Hk.
Qed.

Lemma group_ids q key id tx : (id, tx) ∈ default [] (map_get key (retry_groups q)) → tx_id tx = id ∧ tx ∈ q.
Proof.
  revert id tx. induction q as [|t q IH] using rev_ind; intros id tx; [by intros ?%elem_of_nil|].
  unfold retry_groups in *. rewrite foldl_app. simpl. unfold add_to_groups at 1.
  destruct (tx_commitEnvelope t) as [e|].
  - rewrite map_get_set. case_decide; simpl.
    + intros Hin. apply map_set_elem in Hin as [[= -> ->]|Hin]; [set_solver|]. subst key. apply IH in Hin as [? ?].
      split; [done|set_solver].
    + intros [? ?]%IH. split; [done|set_solver].
  - intros [? ?]%IH. split; [done|set_solver].
Qed.

(** Whatever is pending in the queue is in the batch or stays queued. *)
Lemma batch_keeps queue n outstanding tx :
  tx ∈ queue → is_pending tx = true →
  let out := takeNextExecutionBatch queue n outstanding in
  tx_id tx ∈ tx_id <$> out.1 ∨ tx_id tx ∈ tx_id <$> out.2.
Proof.
  intros Hin Hp. unfold takeNextExecutionBatch. set (q := base.filter _ queue).
  assert (Hq : tx ∈ q) by by apply list_elem_of_filter.
  destruct (first_complete (retry_groups q)) as [[key members]|] eqn:Hf; simpl.
  - apply find_some in Hf as [Hm _]. apply list_elem_of_In in Hm.
    apply (map_get_spec _ _ _ (retry_groups_keys q)) in Hm.
    destruct (has_key key tx) eqn:Hk.
    + left. rewrite sort_by_perm. pose proof (in_group q tx key Hq Hk) as Hg. rewrite Hm in Hg. simpl in Hg.
      apply list_elem_of_fmap in Hg as ([id t] & Hid & Hg). simpl in Hid.
      destruct (group_ids q key id t) as [Ht _]; [by rewrite Hm|]. rewrite Hid, <- Ht.
      apply list_elem_of_fmap. exists t. split; [done|]. apply list_elem_of_fmap. by exists (id, t).
    + right. apply list_elem_of_fmap. exists tx. split; [done|]. by apply list_elem_of_filter.
  - destruct (base.filter _ q) as [|first rest]; simpl; [right; by apply list_elem_of_fmap_2|].
    set (selected := select_rows _ [] []). destruct (existsb (λ s, String.eqb (tx_id s) (tx_id tx)) selected) eqn:Hs.
    + left. apply existsb_exists in Hs as (t & Ht & Heq). apply String.eqb_eq in Heq. rewrite <- Heq.
      apply list_elem_of_fmap_2. by apply list_elem_of_In.
    + right. apply list_elem_of_fmap. exists tx. split; [done|]. apply list_elem_of_filter. by rewrite Hs.
Qed.

Lemma ok_process_start R s :
  batchPhase (q_runner s) = NoBatch → ok R [] [] s →
  ∃ P, ok (P ++ R) [] [] (process_start cfg s)
    ∧ (batchPhase (q_runner (process_start cfg s)) = Preparing P
       ∨ P = [] ∧ batchPhase (q_runner (process_start cfg s)) = NoBatch).
Proof.
  intros Hph H. unfold process_start. destruct (is_Some_b _); [by exists []; auto|].
  destruct (executionQueue (q_places s)) as [|id0 ids] eqn:Hq; [by exists []; auto|]. rewrite <- Hq.
  set (sorted := sort_by _ _). set (outstanding := getOutstandingTransactions s).
  pose proof (batch_keeps sorted (maxBatchSize cfg) outstanding) as Hkeep. cbv zeta in Hkeep.
  destruct (takeNextExecutionBatch sorted (maxBatchSize cfg) outstanding) as [batch remaining]. simpl in Hkeep.
  assert (H1 : ok ((tx_id <$> batch) ++ R) [] [] (on_places (set_queue (tx_id <$> remaining)) s)).
  { destruct H as [A B C D1 D2 D3 D4 F]. split; simpl; try done.
    intros id tx Hg. destruct (B id tx Hg) as [B1 B2]. split; [|done]. intros Hst.
    destruct (B1 Hst) as [Hp|?]; [|right; set_solver]. destruct (decide (id ∈ executionQueue (q_places s))) as [Hin|Hno].
    - pose proof (si_id _ A _ _ Hg) as Hid. destruct (Hkeep tx) as [Hb|Hr].
      + unfold sorted. rewrite sort_by_perm. by eapply elem_deref.
      + unfold is_pending. by apply bool_decide_eq_true_2.
      + right. apply elem_of_app. left. by rewrite <- Hid.
      + left. right; right; right; right; left. simpl. by rewrite <- Hid.
    - left. unfold placed in *. simpl. tauto. }
  destruct batch as [|b batch].
  - exists []. split; [done|]. right. split; [done|]. exact Hph.
  - exists (tx_id <$> (b :: batch)). split; [by apply ok_runner|]. by left.
Qed.

(** Marked executing, a mutation no longer waits. *)
Lemma ok_execute P E U id s :
  ok (id :: P) E U s → id ∈ E → ok P E U (on_store (updateStatus id tx_executing) s).
Proof.
  intros H Hin. apply (ok_status _ _ _ id tx_executing) in H; [|done|done|by intros [|]].
  destruct H as [A B C D1 D2 D3 D4 F]. split; try done.
  intros id' tx Hg. destruct (B id' tx Hg) as [B1 B2]. split; [|done]. intros Hst.
  destruct (B1 Hst) as [?|[->|?]%elem_of_cons]; [by left| |by right].
  exfalso. simpl in Hg. rewrite updateStatus_get, decide_True in Hg by done.
  destruct (store_get id (q_store s)); [|done]. injection Hg as <-. done.
Qed.

Lemma ok_execute_all P E U ids s :
  ok (ids ++ P) E U s → (∀ x, x ∈ ids → x ∈ E) → ok P E U (foldl (λ s id, on_store (updateStatus id tx_executing) s) s ids).
Proof.
  revert s. induction ids as [|id ids IH]; intros s H Hin; [done|]. simpl. apply IH.
  - apply ok_execute; [done|]. apply Hin. left.
  - intros x Hx. apply Hin. by right.
Qed.

Lemma ok_seal_all P E U members s :
  ok P E U s →
  ok P E U (foldl (λ s tx, match tx_commitEnvelope tx with
                           | Some m => on_store (store_edit (tx_id tx) (set_envelope m)) s
                           | None => s end) s members).
Proof.
  revert s. induction members as [|tx l IH]; intros s H; [done|]. simpl. apply IH.
  destruct (tx_commitEnvelope tx); [by apply ok_edit|done].
Qed.

Lemma seal_members_ids key count i batch : tx_id <$> seal_members key count i batch = tx_id <$> batch.
Proof. revert i. induction batch as [|tx batch IH]; intros i; [done|]. simpl. f_equal. apply IH. Qed.

Lemma envelope_ids e batch key members :
  ensureCommitEnvelope e batch = Some (key, members) → Permutation (tx_id <$> members) (tx_id <$> batch).
Proof.
  unfold ensureCommitEnvelope. destruct (omap member_key batch); [|case_match; [|done]]; intros [= <- <-].
  - by rewrite seal_members_ids.
  - by rewrite sort_by_perm.
Qed.

Lemma ok_finish P E U batch s : ok P E U s → ok P E U (finish cfg batch s).
Proof. intros H. unfold finish. repeat case_match; by repeat apply ok_runner. Qed.

Lemma ok_prepared R e batch s :
  ok (batch ++ R) [] [] s →
  (∃ members key, batchPhase (q_runner (prepared cfg e batch s)) = Dispatching members key
     ∧ ok R members [] (prepared cfg e batch s))
  ∨ (ensureCommitEnvelope e (deref batch s) = None).
Proof.
  intros H. unfold prepared. destruct (ensureCommitEnvelope e (deref batch s)) as [[key members]|] eqn:He; [left|by right].
  apply envelope_ids in He. eexists _, key. split; [done|]. apply ok_runner, ok_emit, ok_execute_all; [|done].
  apply ok_seal_all.
  destruct H as [A B C D1 D2 D3 D4 F]. split; try done. intros id tx Hg. destruct (B id tx Hg) as [B1 B2].
  split; [|by intros ?%B2%elem_of_nil]. intros Hst. destruct (B1 Hst) as [?|[Hin|?]%elem_of_app]; [by left| |right; set_solver]. right. apply elem_of_app. left. rewrite He.
  rewrite <- (si_id _ A _ _ Hg). apply list_elem_of_fmap_2. by eapply elem_deref.
Qed.

(** ** Holding and settling a batch *)

Lemma ok_hold R batch err s : ok (batch ++ R) [] [] s → ok R [] [] (holdUnsealedOperations batch err s).
Proof.
  intros H. unfold holdUnsealedOperations. destruct (negb (isPermanentError err)).
  - apply ok_retry.
    assert (Hall : ∀ ids s, (∀ x, x ∈ ids → x ∈ batch) → ok (batch ++ R) [] [] s →
      ok (batch ++ R) [] [] (foldl (λ s id, on_store (updateStatus id tx_pending)
        (on_store (store_edit id (λ tx, set_attempts (tx_attempts tx + 1) (tx_firstTransientFailureAt tx) tx)) s)) s ids)).
    { clear. intros ids. induction ids as [|id ids IH]; intros s Hin H; [done|]. simpl. apply IH; [set_solver|].
      apply ok_status; [by apply ok_edit|intros _; right; apply elem_of_app; left; apply Hin; left|done|by intros [|]]. }
    by apply Hall.
  - apply ok_emit.
    assert (Hall : ∀ ids s, ok (ids ++ R) [] [] s →
      ok R [] [] (foldl (λ s id, on_ledger (resolve_confirmation id false)
                        (on_places (λ p, set_queue (executionQueue p ++ [id]) p)
                          (on_store (updateStatus id tx_pending) s))) s ids)).
    { clear. intros ids. induction ids as [|id ids IH]; intros s H; [done|]. simpl. apply IH, ok_resolve.
      eapply ok_places; [apply (ok_status (id :: ids ++ R) [] [] id tx_pending); [done|intros _; right; left|done|by intros [|]]|..]; simpl.
      - intros id' Hp. left. unfold placed in *. simpl. set_solver.
      - intros id' [->|?]%elem_of_cons; [left|by right]. unfold placed. simpl. set_solver.
      - intros key l Hk Hne. by exists l. }
    apply Hall. by apply ok_runner.
Qed.

Lemma ok_await P E U id s : ok P (id :: E) U s → ok P E U (await_delta id s).
Proof.
  intros H. apply ok_emit, ok_settle_status; [|done|done|by intros [|]]. eapply ok_weaken, H; set_solver.
Qed.

Lemma ok_complete_one P E U id s : ok P (id :: E) U s → ok P E U (complete_tx cfg s id).
Proof. intros H. apply ok_complete. eapply ok_weaken, H; set_solver. Qed.

Lemma ok_settle_queued P E U e corr id s : ok P (id :: E) U s → ok P E U (settle_queued cfg e corr s id).
Proof.
  intros H. unfold settle_queued. set (s1 := on_store _ s). assert (H1 : ok P (id :: E) U s1) by by apply ok_edit.
  destruct (corr ≫= qe_echo e); [by apply ok_complete_one|by apply ok_await].
Qed.

Lemma ok_settle_confirmed P E U n id s : ok P (id :: E) U s → ok P E U (settle_confirmed cfg n s id).
Proof.
  intros H. unfold settle_confirmed. destruct (store_get id (q_store s)) as [tx|] eqn:Hg.
  - set (s1 := on_store _ s). assert (H1 : ok P (id :: E) U s1) by by apply ok_edit.
    repeat case_match; by apply ok_complete_one || apply ok_await.
  - apply (ok_rests _ _ _ id); [done|]. unfold status_of. by rewrite Hg.
Qed.

(** A fold whose every step lets one id rest. *)
Lemma ok_fold_rest (f : queue → string → queue) P U :
  (∀ E id s, ok P (id :: E) U s → ok P E U (f s id)) →
  ∀ ids E s, ok P (ids ++ E) U s → ok P E U (foldl f s ids).
Proof. intros Hf ids. induction ids as [|id ids IH]; intros E s H; [done|]. by apply IH, Hf. Qed.

Lemma ok_settle_batch R e batch key r s : ok R batch [] s → ok R [] [] (settle_batch cfg e batch key r s).
Proof.
  intros H. unfold settle_batch. set (settling := base.filter _ batch).
  set (missing := base.filter (λ id, is_missing _ s id = true) batch).
  assert (H0 : ok R (rev missing ++ (settling ++ [])) [] s).
  { rewrite app_nil_r. eapply ok_weaken, H; try done. intros x Hx. rewrite elem_of_app, list_elem_of_In, <- in_rev, <- list_elem_of_In.
    unfold missing, settling. rewrite !list_elem_of_filter. destruct (is_missing _ s x); auto. }
  apply (ok_fail_all R (settling ++ []) [] e not_found) in H0. set (s1 := foldl _ s _) in *.
  destruct (res_queued r).
  - set (s2 := match settling with [] => _ | _ => s1 end).
    assert (H2 : ok R (settling ++ []) [] s2) by (unfold s2; destruct settling; [by apply ok_emit|done]).
    apply (ok_fold_rest (settle_queued cfg e (res_correlationId r)) R []) in H2;
      [|intros; by apply ok_settle_queued].
    repeat case_match; auto with queue.
  - apply (ok_fold_rest (settle_confirmed cfg (res_lastSyncId r)) R []); [intros; by apply ok_settle_confirmed|].
    by apply ok_emit.
Qed.

Lemma ok_batch_failed R e batch key started err s :
  ok R batch [] s → ok R [] [] (batch_failed cfg e batch key started err s).
Proof.
  intros H. unfold batch_failed. set (s1 := if started && _ then _ else s).
  assert (H1 : ok R (rev batch ++ []) [] s1).
  { rewrite app_nil_r. assert (Hs1 : ok R batch [] s1) by (unfold s1; case_match; auto with queue).
    eapply ok_weaken, Hs1; try done. intros x Hx. by rewrite list_elem_of_In, <- in_rev, <- list_elem_of_In. }
  destruct (includes _ _); [|by apply ok_fail_all].
  apply (ok_fold_rest _ R []).
  - intros E id s2 H2. case_match; [|by apply ok_fail_mutation].
    apply ok_emit_completed, ok_settle_status; [|done|done|intros _; left]. eapply ok_weaken, H2; set_solver.
  - destruct started; auto with queue.
Qed.

(** ** Journals, deltas and cancellations *)

Lemma ok_journal_settles ids oks P E U s :
  length oks = length ids → ok (ids ++ P) E U s → ok P E U (journal_settles cfg ids oks s).
Proof.
  intros Hl H. unfold journal_settles. set (bad := (base.filter (λ p, p.2 = false) _).*1).
  set (good := (base.filter (λ p, p.2 = true) _).*1).
  assert (H1 : ok (bad ++ (good ++ P)) E U s).
  { eapply ok_weaken, H; try done. intros x [Hx|?]%elem_of_app; [|set_solver].
    apply list_elem_of_lookup in Hx as [i Hi].
    assert (Hok : is_Some (oks !! i)) by (apply lookup_lt_is_Some; rewrite Hl; by eapply lookup_lt_Some).
    destruct Hok as [b Hb]. assert (Hz : (x, b) ∈ zip ids oks) by (eapply list_elem_of_lookup_2, lookup_zip_Some; eauto).
    rewrite !elem_of_app. unfold bad, good. rewrite !list_elem_of_fmap. destruct b.
    - right; left. exists (x, true). split; [done|]. by apply list_elem_of_filter.
    - left. exists (x, false). split; [done|]. by apply list_elem_of_filter. }
  apply ok_stage_all. revert H1. generalize s. clear H. induction bad as [|id bad IH]; intros s' H1; [done|]. simpl.
  apply IH, ok_fail_journal. eapply ok_weaken, H1; set_solver.
Qed.

Lemma ok_complete_all P E U ids s : ok P E U s → ok P E U (foldl (complete_tx cfg) s ids).
Proof.
  revert s. induction ids as [|id ids IH]; intros s H; [done|]. simpl. apply IH, ok_complete. by apply ok_add_ids.
Qed.
End QueueFacts.

(** ** What no step but those of the batch changes *)

Definition rejected (s : queue) : list string :=
  flat_map (λ ev, match ev with EnvelopeRejected b => b | _ => [] end) (q_events (q_ledger s)).

Definition in_flight (s : queue) : batch_phase * Z * Z :=
  (batchPhase (q_runner s), executingCount (q_runner s), countAtStart (q_runner s)).

Definition frame (s s' : queue) : Prop := in_flight s' = in_flight s ∧ ∀ id, id ∈ rejected s → id ∈ rejected s'.

#[export] Instance frame_preorder : PreOrder frame.
Proof. split; [by split|]. intros a b c [H1 H2] [H3 H4]. split; [congruence|auto]. Qed.

Lemma frame_phase s s' : frame s s' → batchPhase (q_runner s') = batchPhase (q_runner s).
Proof. intros [H _]. unfold in_flight in H. congruence. Qed.

Lemma frame_store a f s : frame a s → frame a (on_store f s).
Proof. done. Qed.
Lemma frame_places a f s : frame a s → frame a (on_places f s).
Proof. done. Qed.
Lemma frame_emit a ev s : frame a s → frame a (emit ev s).
Proof. intros [H1 H2]. split; [done|]. intros id Hin%H2. unfold rejected in *. simpl. rewrite flat_map_app. set_solver. Qed.
Lemma frame_runner a f s : (∀ r, batchPhase (f r) = batchPhase r ∧ executingCount (f r) = executingCount r ∧ countAtStart (f r) = countAtStart r) →
  frame a s → frame a (on_runner f s).
Proof.
  intros Hf [H1 H2]. split; [|done]. destruct (Hf (q_runner s)) as (E1 & E2 & E3).
  unfold in_flight in *. simpl. by rewrite E1, E2, E3.
Qed.
Lemma frame_ledger a f s : (∀ d, q_events (f d) = q_events d) → frame a s → frame a (on_ledger f s).
Proof. intros Hf [H1 H2]. split; [done|]. intros id Hin%H2. unfold rejected in *. simpl. by rewrite Hf. Qed.
Lemma frame_fold {A} a (f : queue → A → queue) l s :
  (∀ s x, frame a s → frame a (f s x)) → frame a s → frame a (foldl f s l).
Proof. intros Hf. revert s. induction l as [|x l IH]; intros s H; [done|]. simpl. auto. Qed.

Lemma frame_refl s : frame s s.
Proof. done. Qed.
#[export] Hint Resolve frame_refl frame_store frame_places frame_emit : frame.
#[export] Hint Extern 1 (frame _ (on_ledger _ _)) => apply frame_ledger; [done|] : frame.
#[export] Hint Extern 1 (frame _ (on_runner _ _)) => apply frame_runner; [done|] : frame.
#[export] Hint Extern 1 (frame _ (foldl _ _ _)) => apply frame_fold; [intros; simpl|] : frame.
#[export] Hint Extern 9 (frame _ _) => case_match : frame.

Ltac frames := auto 30 with frame.

Section Frames.
Context (cfg : queue_config) (a : queue).

Lemma frame_resolve id b s : frame a s → frame a (on_ledger (resolve_confirmation id b) s).
Proof. intros H. apply frame_ledger; [|done]. intros d. unfold resolve_confirmation. by case_match. Qed.
Lemma frame_schedule s : frame a s → frame a (on_runner (scheduleProcessing cfg) s).
Proof. intros H. apply frame_runner; [|done]. intros r. unfold scheduleProcessing. by repeat case_match. Qed.
#[local] Hint Resolve frame_resolve frame_schedule : frame.
Lemma frame_enqueue s id : frame a s → frame a (enqueue cfg s id).
Proof. intros H. unfold enqueue. frames. Qed.
#[local] Hint Resolve frame_enqueue : frame.
Lemma frame_release id s : frame a s → frame a (release_for cfg id s).
Proof. intros H. unfold release_for, releaseDeferredDeletesForCreate. frames. Qed.
#[local] Hint Resolve frame_release : frame.
Lemma frame_emit_completed id s : frame a s → frame a (emit_completed cfg id s).
Proof. intros H. unfold emit_completed. frames. Qed.
Lemma frame_emit_failed id s : frame a s → frame a (emit_failed cfg id s).
Proof. intros H. unfold emit_failed. frames. Qed.
Lemma frame_rollback id s : frame a s → frame a (rollbackOptimistic id s).
Proof. intros H. unfold rollbackOptimistic, drop_update. frames. Qed.
#[local] Hint Resolve frame_emit_completed frame_emit_failed frame_rollback : frame.
Lemma frame_rollback_if id s : frame a s → frame a (rollback_if_optimistic cfg id s).
Proof. intros H. unfold rollback_if_optimistic. frames. Qed.
Lemma frame_complete s id : frame a s → frame a (complete_tx cfg s id).
Proof. intros H. unfold complete_tx, drop_update. frames. Qed.
#[local] Hint Resolve frame_rollback_if frame_complete : frame.
Lemma frame_fail_journal s id : frame a s → frame a (fail_journal cfg s id).
Proof. intros H. unfold fail_journal. frames. Qed.
Lemma frame_fail_mutation e err s id : frame a s → frame a (fail_mutation cfg e err s id).
Proof. intros H. unfold fail_mutation. frames. Qed.
Lemma frame_apply_optimistic id s : frame a s → frame a (apply_optimistic cfg id s).
Proof. intros H. unfold apply_optimistic, add_update. frames. Qed.
Lemma frame_cancel s id : frame a s → frame a (cancel_one s id).
Proof. intros H. unfold cancel_one. frames. Qed.
Lemma frame_stage s id : frame a s → frame a (stageTransaction s id).
Proof. intros H. unfold stageTransaction. frames. Qed.
#[local] Hint Resolve frame_fail_journal frame_fail_mutation frame_apply_optimistic frame_cancel frame_stage : frame.
Lemma frame_add tx s : frame a s → frame a (add_tx tx s).
Proof. intros H. unfold add_tx. frames. Qed.
#[local] Hint Resolve frame_add : frame.
Lemma frame_write e ready tx s : frame a s → frame a (write cfg e ready tx s).
Proof. intros H. unfold write. frames. Qed.
Lemma frame_take modelName modelId s : frame a s → frame a (takeUnsentCreateForModel modelName modelId s).2.
Proof. intros H. unfold takeUnsentCreateForModel. repeat case_match; simpl; frames. Qed.
Lemma frame_remove tx s : frame a s → frame a (remove cfg tx s).
Proof.
  intros H. unfold remove. do 2 (case_match; [frames|]).
  pose proof (frame_take (tx_modelName tx) (tx_modelId tx) s H) as Htake.
  destruct (takeUnsentCreateForModel _ _ s) as [[create|] s1]; simpl in Htake.
  - unfold completeLocalDelete, cancelUnsentCreateForDelete, drop_update. frames.
  - unfold cancelTransactionsForModel. frames.
Qed.
Lemma frame_removal_journaled id s : frame a s → frame a (removal_journaled id s).
Proof. intros H. unfold removal_journaled, deferDeleteUntilCreateSettles. frames. Qed.
Lemma frame_commit_created s : frame a s → frame a (commitCreatedTransactions cfg s).
Proof. intros H. unfold commitCreatedTransactions. frames. Qed.
Lemma frame_hold batch err s : frame a s → frame a (holdUnsealedOperations batch err s).
Proof. intros H. unfold holdUnsealedOperations. frames. Qed.
Lemma frame_settle_batch e batch key r s : frame a s → frame a (settle_batch cfg e batch key r s).
Proof. intros H. unfold settle_batch, settle_queued, settle_confirmed, await_delta. frames. Qed.
Lemma frame_batch_failed e batch key started err s : frame a s → frame a (batch_failed cfg e batch key started err s).
Proof. intros H. unfold batch_failed. frames. Qed.
Lemma frame_journal_settles ids oks s : frame a s → frame a (journal_settles cfg ids oks s).
Proof. intros H. unfold journal_settles. frames. Qed.
Lemma frame_delta n corr s : frame a s → frame a (deltaReceived cfg n corr s).
Proof. intros H. unfold deltaReceived. frames. Qed.
Lemma frame_foreign child refs s : frame a s → frame a (cancelTransactionsByForeignKey child refs s).
Proof. intros H. unfold cancelTransactionsByForeignKey. frames. Qed.
End Frames.

(** ** The invariant of the machine *)

Definition preparing (s : queue) : list string := match batchPhase (q_runner s) with Preparing batch => batch | _ => [] end.
Definition dispatching (s : queue) : list string := match batchPhase (q_runner s) with Dispatching batch _ => batch | _ => [] end.
Definition queue_ok (s : queue) : Prop := ok (preparing s ++ rejected s) (dispatching s) [] s.

Section Invariant.
Context (cfg : queue_config).

Lemma queue_ok_frame s s' :
  frame s s' → ok (preparing s ++ rejected s) (dispatching s) [] s' → queue_ok s'.
Proof.
  intros Hf. pose proof (frame_phase _ _ Hf) as Hph. destruct Hf as [_ Hr].
  unfold queue_ok, preparing, dispatching. rewrite Hph. apply ok_weaken; set_solver.
Qed.

Lemma queue_ok_finish s s' batch :
  frame s s' → ok (rejected s) [] [] s' → queue_ok (finish cfg batch s').
Proof.
  intros [_ Hr] H. pose proof (ok_finish cfg _ _ _ batch s' H) as H1.
  assert (Hph : batchPhase (q_runner (finish cfg batch s')) = NoBatch).
  { unfold finish. repeat case_match; simpl; try done. unfold scheduleProcessing. by repeat case_match. }
  assert (Hrej : rejected (finish cfg batch s') = rejected s') by (unfold finish; by repeat case_match).
  unfold queue_ok, preparing, dispatching. rewrite Hph, Hrej. eapply ok_weaken, H1; set_solver.
Qed.

Lemma queue_ok_process s : queue_ok s → queue_ok (processBatch cfg s).
Proof.
  intros H. unfold processBatch. destruct (batchPhase (q_runner s)) eqn:Hph.
  - unfold queue_ok, preparing, dispatching in H. rewrite Hph in H.
    destruct (ok_process_start cfg (rejected s) s Hph H) as (P & H1 & Hcases).
    assert (Hrej : rejected (process_start cfg s) = rejected s) by (unfold process_start; by repeat case_match).
    unfold queue_ok, preparing, dispatching. rewrite Hrej. by destruct Hcases as [->|[-> ->]].
  - by apply (queue_ok_frame s), ok_runner.
  - by apply (queue_ok_frame s), ok_runner.
Qed.

(** The phases of a batch. *)
Lemma queue_ok_prepared e batch s :
  batchPhase (q_runner s) = Preparing batch → queue_ok s → queue_ok (prepared cfg e batch s).
Proof.
  intros Hph H. unfold queue_ok, preparing, dispatching in H. rewrite Hph in H.
  destruct (ok_prepared cfg (rejected s) e batch s H) as [(members & key & Hph' & H1)|Hnone].
  - unfold queue_ok, preparing, dispatching. rewrite Hph'. eapply ok_weaken, H1; try done.
    unfold prepared. destruct (ensureCommitEnvelope _ _) as [[k ms]|]; simpl.
    + assert (Hf : frame s (emit (Sent (tx_id <$> ms))
         (foldl (λ s id, on_store (updateStatus id tx_executing) s)
            (foldl (λ s tx, match tx_commitEnvelope tx with
                              | Some m => on_store (store_edit (tx_id tx) (set_envelope m)) s
                              | None => s end) s ms) (tx_id <$> ms)))) by frames.
      destruct Hf as [_ Hf]. exact Hf.
    + intros x Hx. change (x ∈ rejected (finish cfg batch (emit (EnvelopeRejected batch) s))).
      assert (Hf : frame s (emit (EnvelopeRejected batch) s)) by frames. destruct Hf as [_ Hf].
      unfold finish. repeat case_match; by apply Hf.
  - unfold prepared. rewrite Hnone. eapply (queue_ok_finish (emit (EnvelopeRejected batch) s)); [done|].
    apply ok_emit. eapply ok_weaken, H; try done. intros x [Hx|Hx]%elem_of_app; unfold rejected; simpl;
      rewrite flat_map_app, elem_of_app; [right; simpl; set_solver|by left].
Qed.

Lemma queue_ok_dispatched batch key s s' :
  batchPhase (q_runner s) = Dispatching batch key → queue_ok s → frame s s' →
  (ok (rejected s) batch [] s → ok (rejected s) [] [] s') → queue_ok (finish cfg batch s').
Proof.
  intros Hph H Hf Hop. apply (queue_ok_finish s); [done|]. apply Hop.
  unfold queue_ok, preparing, dispatching in H. by rewrite Hph in H.
Qed.

Lemma elem_concat_delete (n : nat) (ls : list (list string)) ids x :
  ls !! n = Some ids → x ∈ concat ls → x ∈ concat (delete n ls) ∨ x ∈ ids.
Proof.
  intros Hn. rewrite (delete_Permutation ls n ids Hn) at 1. simpl. set_solver.
Qed.

(** One step, input by input. *)
Lemma queue_ok_step e s i : queue_ok s → queue_enabled s i → queue_ok (queue_step cfg e s i).
Proof.
  intros H Hen. destruct i; simpl in *.
  - destruct Hen as [Hf _]. apply (queue_ok_frame s); [by apply frame_write|]. by apply ok_write.
  - apply (queue_ok_frame s); [by apply frame_remove|]. by apply ok_remove.
  - apply (queue_ok_frame s); [done|]. eapply ok_places; [exact H|..]; simpl.
    + intros id Hp. left. unfold placed in *. simpl. rewrite concat_app. simpl. rewrite app_nil_r. set_solver.
    + auto.
    + intros key ids Hk Hne. by exists ids.
  - destruct Hen as (ids & Hn & Hl). rewrite Hn. apply (queue_ok_frame s); [by apply frame_journal_settles|].
    apply ok_journal_settles; [done|]. eapply ok_places; [exact H|..]; simpl.
    + intros id Hp. unfold placed in *. simpl. rewrite elem_of_app.
      destruct Hp as [?|[Hc|?]]; [tauto| |tauto]. destruct (elem_concat_delete n _ ids id Hn Hc); tauto.
    + intros id ?. right. set_solver.
    + intros key l Hk Hne. by exists l.
  - assert (H1 : ok (id :: preparing s ++ rejected s) (dispatching s) []
        (on_places (λ p, set_removing (set_remove id (removing p)) p) s)).
    { eapply ok_places; [exact H|..]; simpl.
      - intros id' Hp. destruct (decide (id' = id)) as [->|]; [right; left|left].
        unfold placed in *. simpl. rewrite elem_set_remove. tauto.
      - intros id' ?. right. by right.
      - intros key l Hk Hne. by exists l. }
    apply (queue_ok_frame s).
    + destruct ok0; [by apply frame_removal_journaled|by apply frame_fail_journal].
    + destruct ok0; [by apply ok_removal_journaled|]. apply ok_fail_journal. eapply ok_weaken, H1; set_solver.
  - apply (queue_ok_frame s); [by apply frame_commit_created|]. by apply ok_commit_created.
  - apply queue_ok_process. apply (queue_ok_frame s); [frames|]. by apply ok_runner.
  - assert (H1 : queue_ok (on_runner (λ r, set_waiters (pred (waiters r)) r) s))
      by (apply (queue_ok_frame s); [frames|]; by apply ok_runner).
    case_match; [done|by apply queue_ok_process].
  - destruct (batchPhase (q_runner s)) eqn:Hph; [done|by apply queue_ok_prepared|done].
  - destruct (batchPhase (q_runner s)) eqn:Hph; [done| |done].
    apply (queue_ok_finish s); [by apply frame_hold|]. apply ok_hold.
    unfold queue_ok, preparing, dispatching in H. by rewrite Hph in H.
  - destruct (batchPhase (q_runner s)) eqn:Hph; [done|done|].
    eapply queue_ok_dispatched; [done..|by apply frame_settle_batch|apply ok_settle_batch].
  - destruct (batchPhase (q_runner s)) eqn:Hph; [done|done|].
    eapply queue_ok_dispatched; [done..|apply frame_batch_failed; frames|].
    intros H1. by apply ok_batch_failed, ok_runner.
  - destruct (batchPhase (q_runner s)) eqn:Hph; [done|done|].
    eapply queue_ok_dispatched; [done..|by apply frame_batch_failed|apply ok_batch_failed].
  - destruct Hen as [ids Hn]. rewrite Hn. apply (queue_ok_frame s); [apply frame_fold; [by intros; apply frame_enqueue|done]|].
    apply ok_enqueue_all. eapply ok_places; [exact H|..]; simpl.
    + intros id Hp. unfold placed in *. simpl. rewrite elem_of_app.
      destruct Hp as [?|[?|[?|[?|[?|[?|Hc]]]]]]; try tauto. destruct (elem_concat_delete n _ ids id Hn Hc); tauto.
    + intros id ?. right. set_solver.
    + intros key l Hk Hne. by exists l.
  - apply (queue_ok_frame s); [by apply frame_delta|]. by apply ok_complete_all.
  - apply (queue_ok_frame s); [by apply frame_foreign|]. by apply ok_cancel_all.
Qed.

Lemma queue_ok_new : queue_ok new_queue.
Proof.
  split; simpl; try done; try apply NoDup_nil_2.
  - apply store_reach_inv, store_start.
  - by intros id ?%elem_of_nil.
  - intros id. rewrite elem_of_nil. split; [by intros [? ?]|tauto].
Qed.

Lemma queue_reach_ok s : queue_reach cfg s → queue_ok s.
Proof. induction 1; [apply queue_ok_new|by apply queue_ok_step]. Qed.
End Invariant.

(** ** Nothing is lost, and every promise is settled once *)

(** C11: a mutation of the queue is never lost. In every state the machine reaches, a
    pending mutation is in one of the places the queue serves (collected or in flight
    to the journal, staged, queued, behind its create, behind a retry timer), or in
    the batch being prepared, or in a batch whose members carried different requests;
    an executing mutation is in the one dispatched batch; and a delete waits behind a
    create of its row that has neither completed nor failed, so the event that
    releases it is still to come. *)
Theorem no_mutation_is_lost cfg s :
  queue_reach cfg s →
  (∀ id tx, store_get id (q_store s) = Some tx →
     (tx_status tx = tx_pending → placed (q_places s) id ∨ id ∈ preparing s ∨ id ∈ rejected s)
     ∧ (tx_status tx = tx_executing → id ∈ dispatching s))
  ∧ (∀ key ids, map_get key (deferredDeletesByCreate (q_places s)) = Some ids → ids ≠ [] →
       ∃ create tx, store_get create (q_store s) = Some tx ∧ tx_type tx = tx_create
         ∧ entityKey (tx_modelName tx) (tx_modelId tx) = key ∧ ¬ ended (tx_status tx)).
Proof.
  intros H%queue_reach_ok. destruct H as [A B C _ _ _ _ _]. split.
  - intros id tx Hg. destruct (B id tx Hg) as [B1 B2]. split; [|done]. intros Hst. rewrite <- elem_of_app. auto.
  - intros key ids Hk Hne. destruct (C key ids Hk Hne) as (c & tx & ? & ? & ? & Hend). exists c, tx.
    split_and!; [done..|]. by intros ?%Hend%elem_of_nil.
Qed.

(** C12: the confirmation of a mutation is one promise, settled at most once: in every
    state the machine reaches each mutation of the store has either an open promise or
    one outcome, never both nor two outcomes; no promise belongs to a mutation the
    store does not hold; and a mutation that completed or failed has its outcome. *)
Theorem promises_settle_once cfg s :
  queue_reach cfg s →
  NoDup (confirmationResolvers (q_ledger s) ++ (settled (q_ledger s)).*1)
  ∧ (∀ id, is_Some (store_get id (q_store s)) ↔ id ∈ confirmationResolvers (q_ledger s) ++ (settled (q_ledger s)).*1)
  ∧ (∀ id tx, store_get id (q_store s) = Some tx → ended (tx_status tx) → id ∈ (settled (q_ledger s)).*1).
Proof.
  intros H%queue_reach_ok. destruct H as [_ _ _ D1 D2 D3 D4 F]. split_and!.
  - by apply NoDup_app.
  - intros id. rewrite elem_of_app. apply D4.
  - intros id tx Hg Hst. destruct (F id tx Hg Hst) as [|[]%elem_of_nil]; done.
Qed.
