(* ===== verification/QueueRuns.v ===== *)
(** * Runs of the mutation queue

    Concrete runs of the machine of [QueueMachine.v] in which cancelled, reordered or
    deleted rows go wrong, and the count behind the backpressure. *)
From S2P Require Import Prelude JsData ErrorCodes MutationQueue Confirmation MutationFailure QueueMachine QueueInvariant.
#[local] Open Scope Z_scope.

(** ** Concrete runs *)

Definition demo_config : queue_config :=
  mkConfig (mkRetryConfig true 3 200 5000 60000) 50 100 (λ _, Some 100) 100 50.
Definition demo_env : queue_env := mkEnv 0 (λ _, 0) "request-1" (λ _, None).
Definition run_queue (ins : list queue_input) : queue := foldl (queue_step demo_config demo_env) new_queue ins.

Definition queue_enabledb (s : queue) (i : queue_input) : bool :=
  match i with
  | Write id kind _ _ _ _ _ => negb (is_Some_b (store_get id (q_store s))) && negb (bool_decide (kind = tx_delete))
  | Remove id _ _ _ => negb (is_Some_b (store_get id (q_store s)))
  | JournalStarts => (0 <? length (pendingPersistenceStages (q_places s)))%nat
  | JournalSettles n oks => match journalWrites (q_places s) !! n with
                            | Some ids => (length oks =? length ids)%nat | None => false end
  | RemovalSettles id _ => bool_decide (id ∈ removing (q_places s))
  | StagedCommits => commitScheduled (q_runner s)
  | ProcessRuns => processScheduled (q_runner s)
  | WaiterResumes => (0 <? waiters (q_runner s))%nat
  | RetryFires n => is_Some_b (retryTimers (q_places s) !! n)
  | _ => true
  end.

Lemma queue_enabledb_sound s i : queue_enabledb s i = true → queue_enabled s i.
Proof.
  destruct i; simpl; intros H; try done; bool_simpl.
  - destruct (store_get id (q_store s)); [done|]. split; [done|]. by destruct kind.
  - by destruct (store_get id (q_store s)).
  - by destruct (pendingPersistenceStages (q_places s)).
  - destruct (journalWrites (q_places s) !! n) as [ids|]; [|done]. exists ids. split; [done|]. by apply Nat.eqb_eq.
  - done.
  - by apply Nat.ltb_lt.
  - destruct (retryTimers (q_places s) !! n); [by eexists|done].
Qed.

Fixpoint all_enabled (s : queue) (ins : list queue_input) : bool :=
  match ins with
  | [] => true
  | i :: ins => queue_enabledb s i && all_enabled (queue_step demo_config demo_env s i) ins
  end.

Lemma run_queue_reach ins : all_enabled new_queue ins = true → queue_reach demo_config (run_queue ins).
Proof.
  unfold run_queue. generalize (queue_start demo_config). generalize new_queue.
  induction ins as [|i ins IH]; intros s Hs Hen; [done|]. simpl in Hen. bool_simpl. simpl. apply IH; [|done].
  by apply queue_next, queue_enabledb_sound.
Qed.

Definition offline : CaughtError := mkCaught AbloConnectionError None "" None 0.

(** Two updates in one batch fail, and the row of the first is deleted. *)
Definition stranding : list queue_input :=
  [Write "t1" tx_update "Task" "r1" [] None false; Write "t2" tx_update "Task" "r2" [] None false;
   StagedCommits; ProcessRuns; PreparationEnds; BatchFails true offline;
   Remove "d1" "Task" "r1" None; RemovalSettles "d1" true; RetryFires 1; RetryFires 0;
   ProcessRuns; StagedCommits; ProcessRuns; PreparationEnds; BatchSucceeds (mkResult false 3 [] None)].

Lemma stranding_enabled : all_enabled new_queue stranding = true.
Proof. vm_compute. reflexivity. Qed.

Lemma stranding_pending : status_of "t2" (run_queue stranding) = Some tx_pending.
Proof. vm_compute. reflexivity. Qed.
Lemma stranding_idle : preparing (run_queue stranding) ++ rejected (run_queue stranding) = [].
Proof. vm_compute. reflexivity. Qed.

Lemma no_mutation_is_lost_witness :
  queue_reach demo_config (run_queue stranding) ∧ placed (q_places (run_queue stranding)) "t2".
Proof.
  pose proof (run_queue_reach stranding stranding_enabled) as Hr. split; [exact Hr|].
  pose proof stranding_pending as Hst. pose proof stranding_idle as Hidle. revert Hr Hst Hidle.
  generalize (run_queue stranding). intros s Hr Hst [Hp Hj]%app_nil.
  unfold status_of in Hst. destruct (store_get "t2" (q_store s)) as [tx|] eqn:Hg; [|done]. injection Hst as Hst.
  destruct (no_mutation_is_lost demo_config s Hr) as [H _].
  destruct (proj1 (H "t2" tx Hg) Hst) as [Hpl|[Hpl|Hpl]]; [exact Hpl|rewrite Hp in Hpl|rewrite Hj in Hpl];
    by apply elem_of_nil in Hpl.
Defined.

Lemma promises_settle_once_witness :
  NoDup (confirmationResolvers (q_ledger (run_queue stranding)) ++ (settled (q_ledger (run_queue stranding))).*1).
Proof. exact (proj1 (promises_settle_once demo_config _ (run_queue_reach stranding stranding_enabled))). Defined.

(** What happens without a new write: the microtasks, the timers and deltas. *)
Definition unattended (i : queue_input) : bool :=
  match i with
  | StagedCommits | ProcessRuns | WaiterResumes | RetryFires _ | DeltaArrives _ _ => true
  | _ => false
  end.

Definition stranded : queue := Eval vm_compute in run_queue stranding.

Lemma stranded_eq : run_queue stranding = stranded.
Proof. vm_compute. reflexivity. Qed.

(** Only the scheduling flags of the stranded queue move. *)
Lemma stranded_step e i sched com w :
  unattended i = true →
  let s := on_runner (λ _, mkRunner NoBatch sched com w (-3) (-2) None) stranded in
  ∃ sched' com' w', queue_step demo_config e s i = on_runner (λ _, mkRunner NoBatch sched' com' w' (-3) (-2) None) stranded.
Proof.
  intros Hi s. destruct i; try discriminate Hi.
  - exists sched, false, w. vm_compute. reflexivity.
  - exists false, com, w. vm_compute. reflexivity.
  - exists sched, com, (pred w). vm_compute. reflexivity.
  - exists sched, com, w. vm_compute. reflexivity.
  - exists sched, com, w. vm_compute. reflexivity.
Qed.

Lemma stranded_run l sched com w :
  Forall (λ p, unattended p.2 = true) l →
  ∃ sched' com' w',
    foldl (λ s p, queue_step demo_config p.1 s p.2) (on_runner (λ _, mkRunner NoBatch sched com w (-3) (-2) None) stranded) l
    = on_runner (λ _, mkRunner NoBatch sched' com' w' (-3) (-2) None) stranded.
Proof.
  intros Hl. revert sched com w. induction Hl as [|[e i] l Hi _ IH]; intros sched com w; [by exists sched, com, w|].
  cbn [foldl]. destruct (stranded_step e i sched com w Hi) as (sched' & com' & w' & Heq). cbn [fst snd].
  rewrite Heq. apply IH.
Qed.

Lemma stranded_start : stranded = on_runner (λ _, mkRunner NoBatch true false 0 (-3) (-2) None) stranded.
Proof. vm_compute. reflexivity. Qed.

(** Deleting a row while a batch with one of its updates waits for its retry
    strands the rest of the batch. Two updates of different rows fail together, the
    first row is deleted, and the delete rolls the update of that row back: the other
    update is still queued, but its request can no longer be put together, so no run
    of the queue, timer or delta ever changes it, and a later write to its row is
    never sent either. *)
Theorem a_cancelled_member_strands_its_batch :
  queue_reach demo_config stranded
  ∧ status_of "t2" stranded = Some tx_pending
  ∧ (∀ l : list (queue_env * queue_input), Forall (λ p, unattended p.2 = true) l →
       let s := foldl (λ s p, queue_step demo_config p.1 s p.2) stranded l in
       q_store s = q_store stranded ∧ q_ledger s = q_ledger stranded ∧ q_places s = q_places stranded)
  ∧ let s := foldl (queue_step demo_config demo_env) stranded
               [Write "t3" tx_update "Task" "r2" [] None false; StagedCommits; ProcessRuns] in
    batchPhase (q_runner s) = NoBatch ∧ processScheduled (q_runner s) = false
    ∧ executionQueue (q_places s) = ["t2"; "t3"]%string ∧ retryTimers (q_places s) = [].
Proof.
  split_and!.
  - rewrite <- stranded_eq. apply run_queue_reach, stranding_enabled.
  - vm_compute. reflexivity.
  - intros l Hl. destruct (stranded_run l true false 0%nat Hl) as (sched & com & w & Heq).
    rewrite <- stranded_start in Heq. by rewrite Heq.
  - vm_compute. repeat split; reflexivity.
Qed.

Definition sent (s : queue) : list (list string) :=
  omap (λ ev, match ev with Sent b => Some b | _ => None end) (q_events (q_ledger s)).

Definition two_updates (data : list (string * payload_value)) : list queue_input :=
  [Write "t1" tx_update "Task" "r1" data None false; Write "t2" tx_update "Task" "r1" data None false;
   StagedCommits; ProcessRuns; PreparationEnds].

(** Two updates of one row written in one tick are sent in the order they were
    written, unless both set a position: a reordering write goes to the front of the
    queue, so the later of the two is sent, and applied, before the earlier one. *)
Theorem reorders_are_sent_in_reverse :
  sent (run_queue (two_updates [("title"%string, PlainValue)])) = [["t1"; "t2"]]%string
  ∧ sent (run_queue (two_updates [("position"%string, PlainValue)])) = [["t2"; "t1"]]%string.
Proof. split; vm_compute; reflexivity. Qed.

(** A row created, updated and deleted before anything is sent, and a row deleted while
    its create is being prepared. *)
Definition unsent_lifetime : list queue_input :=
  [Write "c" tx_create "Task" "r1" [] None false; Write "u" tx_update "Task" "r1" [] None false;
   Remove "d" "Task" "r1" None; StagedCommits; ProcessRuns; PreparationEnds].
Definition deleted_in_preparation : list queue_input :=
  [Write "c" tx_create "Task" "r1" [] None false; StagedCommits; ProcessRuns; Remove "d" "Task" "r1" None;
   PreparationEnds].

(** A delete that cancels an unsent create settles on the spot and nothing of the
    row should be sent, yet two cases are: an update queued behind the create is not
    cancelled and is sent for a row that was never created; and a create whose batch is
    being prepared still counts as unsent, so the delete is settled locally and the
    create is sent. *)
Theorem a_settled_delete_can_leave_a_write :
  sent (run_queue unsent_lifetime) = [["u"]]%string
  ∧ status_of "d" (run_queue unsent_lifetime) = Some tx_completed
  ∧ sent (run_queue deleted_in_preparation) = [["c"]]%string
  ∧ status_of "d" (run_queue deleted_in_preparation) = Some tx_completed
  ∧ sent (run_queue (take 3 unsent_lifetime ++ [StagedCommits])) = [].
Proof. split_and!; vm_compute; reflexivity. Qed.

(** ** The count behind the backpressure *)

Definition count_ok (s : queue) : Prop :=
  match batchPhase (q_runner s) with
  | NoBatch => executingCount (q_runner s) <= 0
  | _ => countAtStart (q_runner s) <= 0
  end.

Lemma count_ok_frame s s' : frame s s' → count_ok s → count_ok s'.
Proof.
  intros [H _]. unfold in_flight in H. injection H as E1 E2 E3. unfold count_ok. by rewrite E1, E2, E3.
Qed.

Section Backpressure.
Context (cfg : queue_config).

Lemma finish_count batch s :
  batchPhase (q_runner (finish cfg batch s)) = NoBatch
  ∧ executingCount (q_runner (finish cfg batch s)) = countAtStart (q_runner s) - Z.of_nat (length batch).
Proof. unfold finish. destruct batch; [done|]. simpl. unfold scheduleProcessing. by repeat case_match. Qed.

Lemma count_ok_finish s s' batch :
  frame s s' → batchPhase (q_runner s) ≠ NoBatch → count_ok s → count_ok (finish cfg batch s').
Proof.
  intros Hf Hph Hc. apply (count_ok_frame _ _ Hf) in Hc. rewrite <- (frame_phase _ _ Hf) in Hph.
  unfold count_ok in *. destruct (finish_count batch s') as [-> ->]. destruct (batchPhase (q_runner s')); [done|lia|lia].
Qed.

Lemma count_ok_process s : count_ok s → count_ok (processBatch cfg s).
Proof.
  intros Hc. unfold processBatch. destruct (batchPhase (q_runner s)) eqn:Hph; [|by apply (count_ok_frame s); [frames|]..].
  unfold process_start. destruct (is_Some_b _); [done|]. destruct (executionQueue _); [done|].
  destruct (takeNextExecutionBatch _ _ _) as [[|tx batch] remaining]; [done|].
  unfold count_ok in *. rewrite Hph in Hc. exact Hc.
Qed.

Lemma frame_sealed e batch s :
  match ensureCommitEnvelope e (deref batch s) with
  | Some (key, members) => ∃ s', frame s s' ∧ prepared cfg e batch s = on_runner (set_phase (Dispatching (tx_id <$> members) key)) s'
  | None => True
  end.
Proof. unfold prepared. destruct (ensureCommitEnvelope e _) as [[key members]|]; [|done]. eexists. split; [|done]. frames. Qed.

Lemma count_ok_step e s i : count_ok s → count_ok (queue_step cfg e s i).
Proof.
  intros Hc. destruct i; simpl.
  all: try (apply (count_ok_frame s); [|done]; first
    [ by apply frame_write | by apply frame_remove | by apply frame_commit_created | by apply frame_delta | by apply frame_foreign
    | by frames ]).
  - case_match; [|done]. apply (count_ok_frame s); [by apply frame_journal_settles|done].
  - apply (count_ok_frame s); [|done]. case_match; [by apply frame_removal_journaled|by apply frame_fail_journal].
  - apply count_ok_process. apply (count_ok_frame s); [frames|done].
  - set (s1 := on_runner _ s). assert (Hs1 : count_ok s1) by (apply (count_ok_frame s); [unfold s1; frames|done]).
    case_match; [done|by apply count_ok_process].
  - destruct (batchPhase (q_runner s)) eqn:Hph; [done| |done]. pose proof (frame_sealed e batch s) as Hs.
    destruct (ensureCommitEnvelope e (deref batch s)) as [[key members]|] eqn:He.
    + destruct Hs as (s' & Hf & ->). apply (count_ok_frame _ _ Hf) in Hc. rewrite <- (frame_phase _ _ Hf) in Hph.
      unfold count_ok in *. rewrite Hph in Hc. exact Hc.
    + unfold prepared. rewrite He. apply (count_ok_finish s); [frames|congruence|done].
  - destruct (batchPhase (q_runner s)) eqn:Hph; [done| |done].
    apply (count_ok_finish s); [by apply frame_hold|congruence|done].
  - destruct (batchPhase (q_runner s)) eqn:Hph; [done|done|].
    apply (count_ok_finish s); [by apply frame_settle_batch|congruence|done].
  - destruct (batchPhase (q_runner s)) eqn:Hph; [done|done|].
    apply (count_ok_finish s); [apply frame_batch_failed; frames|congruence|done].
  - destruct (batchPhase (q_runner s)) eqn:Hph; [done|done|].
    apply (count_ok_finish s); [by apply frame_batch_failed|congruence|done].
  - case_match; [|done]. apply (count_ok_frame s); [apply frame_fold; [by intros; apply frame_enqueue|done]|done].
Qed.
End Backpressure.

(** The count behind the backpressure does not return to zero: the context of a
    run reads [executingCount] once, so its end subtracts the batch from the count of
    its start. In every state the machine reaches, the count is at most zero while no
    batch is under way, so a positive [maxExecutingTransactions] never delays a run
    there; after one batch of two and one of one it is minus three. *)
Theorem backpressure_count_drifts cfg s :
  queue_reach cfg s → batchPhase (q_runner s) = NoBatch →
  executingCount (q_runner s) <= 0
  ∧ (0 < maxExecutingTransactions cfg → processScheduled (scheduleProcessing cfg (q_runner s)) = true)
  ∧ executingCount (q_runner (run_queue stranding)) = -3.
Proof.
  intros Hr. assert (Hc : count_ok s) by (induction Hr; [unfold count_ok; simpl; lia|by apply count_ok_step]). intros Hph.
  unfold count_ok in Hc. rewrite Hph in Hc. split_and!; [done| |rewrite stranded_eq; reflexivity].
  intros Hmax. unfold scheduleProcessing. destruct (processScheduled (q_runner s)) eqn:Hs; [done|].
  destruct (Z.leb_spec (maxExecutingTransactions cfg) (executingCount (q_runner s))); [lia|done].
Qed.

Lemma backpressure_count_drifts_witness :
  executingCount (q_runner (run_queue stranding)) <= 0.
Proof.
  refine (proj1 (backpressure_count_drifts demo_config _ (run_queue_reach stranding stranding_enabled) _)).
  rewrite stranded_eq. reflexivity.
Defined.
