(* ===== verification/CommitLane.v ===== *)
(** * The lane of atomic commits

    [commitLane.ts], [commitApi.ts] and the commit-lane parts of
    [MutationQueue.ts] (offline grace, source echoes, lag) in
    [packages/humans/src/local/transactions/mutations]. A commit is sealed, pushed
    on the lane and sent by [processCommitLane], one at a time. The loop is a
    state machine whose states are its [await]s; answers, timers and the outcome
    of sealing are inputs. Operation results, missing ids, the read set and
    [dispose] are not modelled. *)
From S2P Require Import Prelude JsData ErrorCodes MutationQueue MutationFailure.
#[local] Open Scope Z_scope.

Inductive commit_status := ct_pending | ct_executing | ct_awaiting_delta | ct_completed | ct_failed.
#[export] Instance commit_status_eq_dec : EqDecision commit_status.
Proof. solve_decision. Defined.

(** [durableEnvelope] is [Some acceptedAt?] once the commit is sealed. *)
Record CommitTransaction := mkCommit {
  c_status : commit_status;
  c_attempts : Z;
  c_transientAttempts : Z;
  c_firstTransientFailureAt : option Z;
  c_lastSyncId : option Z;
  c_correlationId : option string;
  c_sealedAt : Z;
  c_durableEnvelope : option bool;
}.

Inductive receipt := Confirmed (lastSyncId : Z) | Queued (lastSyncId : Z) (correlationId : option string).

(** Where the loop waits. *)
Inductive lane_phase :=
  | Idle
  | Sealing (id : string)
  | Dispatching (id : string)
  | Accepting (id : string) (r : receipt)
  | Cleaning (id : string) (lastSyncId : Z)
  | Dropping (id : string) (e : CaughtError).

(** [Completed] and [Failed] stand for the general event followed by the one that
    carries the id; the offline grace emits only the second. *)
Inductive lane_event :=
  | Dispatched (id : string)
  | Removed (id : string)
  | Completed (id : string)
  | Failed (id : string)
  | GraceFailed (id : string).

Record lane := mkLane {
  commitStore : list (string * CommitTransaction);
  commitLane : list string;
  phase : lane_phase;
  commitRetryTimer : option Z;
  durableReplayBlock : option CaughtError;
  replicationLagged : list string;
  events : list lane_event;
  pushed : list string;
  restoreFailed : bool;
}.

Definition new_lane : lane := mkLane [] [] Idle None None [] [] [] false.

(** What a step reads from outside: the clock, a random draw, the echo recorded for
    a correlation and the collation of the host. *)
Record lane_env := mkLaneEnv {
  le_now : Z;
  le_random : Z;
  le_echo : string → option Z;
  le_localeCompare : string → string → Z;
}.

Definition DURABLE_REPLAY_WINDOW_MS : Z := 23 * 60 * 60 * 1000.

(** ** Assignments *)

Definition get_commit (id : string) (s : lane) : option CommitTransaction := map_get id (commitStore s).

Definition put_commit (id : string) (c : CommitTransaction) (s : lane) : lane :=
  mkLane (map_set id c (commitStore s)) (commitLane s) (phase s) (commitRetryTimer s) (durableReplayBlock s)
    (replicationLagged s) (events s) (pushed s) (restoreFailed s).

Definition edit_commit (id : string) (f : CommitTransaction → CommitTransaction) (s : lane) : lane :=
  match get_commit id s with Some c => put_commit id (f c) s | None => s end.

Definition set_lane (l : list string) (s : lane) : lane :=
  mkLane (commitStore s) l (phase s) (commitRetryTimer s) (durableReplayBlock s) (replicationLagged s)
    (events s) (pushed s) (restoreFailed s).

Definition set_phase (p : lane_phase) (s : lane) : lane :=
  mkLane (commitStore s) (commitLane s) p (commitRetryTimer s) (durableReplayBlock s) (replicationLagged s)
    (events s) (pushed s) (restoreFailed s).

Definition set_timer (t : option Z) (s : lane) : lane :=
  mkLane (commitStore s) (commitLane s) (phase s) t (durableReplayBlock s) (replicationLagged s)
    (events s) (pushed s) (restoreFailed s).

Definition log_event (e : lane_event) (s : lane) : lane :=
  mkLane (commitStore s) (commitLane s) (phase s) (commitRetryTimer s) (durableReplayBlock s)
    (replicationLagged s) (events s ++ [e]) (pushed s) (restoreFailed s).

Definition set_lagged (l : list string) (s : lane) : lane :=
  mkLane (commitStore s) (commitLane s) (phase s) (commitRetryTimer s) (durableReplayBlock s) l
    (events s) (pushed s) (restoreFailed s).

Definition block_replay (err : CaughtError) (s : lane) : lane :=
  mkLane (commitStore s) (commitLane s) (phase s) (commitRetryTimer s) (Some err) (replicationLagged s)
    (events s) (pushed s) (restoreFailed s).

(** [commitLane.push(tx)] *)
Definition push_commit (id : string) (s : lane) : lane :=
  mkLane (commitStore s) (commitLane s ++ [id]) (phase s) (commitRetryTimer s) (durableReplayBlock s)
    (replicationLagged s) (events s) (pushed s ++ [id]) (restoreFailed s).

Definition with_status (st : commit_status) (c : CommitTransaction) : CommitTransaction :=
  mkCommit st (c_attempts c) (c_transientAttempts c) (c_firstTransientFailureAt c) (c_lastSyncId c)
    (c_correlationId c) (c_sealedAt c) (c_durableEnvelope c).
Definition with_attempt (c : CommitTransaction) : CommitTransaction :=
  mkCommit (c_status c) (c_attempts c + 1) (c_transientAttempts c) (c_firstTransientFailureAt c) (c_lastSyncId c)
    (c_correlationId c) (c_sealedAt c) (c_durableEnvelope c).
Definition with_failure (n : Z) (first : Z) (c : CommitTransaction) : CommitTransaction :=
  mkCommit (c_status c) (c_attempts c) n (Some first) (c_lastSyncId c)
    (c_correlationId c) (c_sealedAt c) (c_durableEnvelope c).
Definition with_envelope (accepted : bool) (c : CommitTransaction) : CommitTransaction :=
  mkCommit (c_status c) (c_attempts c) (c_transientAttempts c) (c_firstTransientFailureAt c) (c_lastSyncId c)
    (c_correlationId c) (c_sealedAt c) (Some accepted).
Definition with_receipt (sync : Z) (corr : option string) (c : CommitTransaction) : CommitTransaction :=
  mkCommit (c_status c) (c_attempts c) (c_transientAttempts c) (c_firstTransientFailureAt c) (Some sync)
    corr (c_sealedAt c) (c_durableEnvelope c).

(** ** The loop *)

Section Lane.
Context (cfg : retry_config).

(** The second half of the [catch], after the durable copy was dropped if it was:
    retry later, or fail. The flag says whether the loop goes on. *)
Definition settle_error (e : lane_env) (id : string) (err : CaughtError) (s : lane) : lane * bool :=
  match get_commit id s with
  | None => (set_phase Idle s, false)
  | Some c =>
      let transientAttempts := c_transientAttempts c + 1 in
      let first := default (le_now e) (c_firstTransientFailureAt c) in
      let outside := availabilityRetryWindowMs cfg <=? le_now e - first in
      let exhausted := (maxRetries cfg <? transientAttempts) && outside in
      let s := edit_commit id (with_failure transientAttempts first) s in
      if negb (isPermanentError err) && negb exhausted then
        (set_phase Idle
          (set_timer (Some (transientRetryDelayMs cfg err transientAttempts (le_random e)))
            (edit_commit id (with_status ct_pending) s)), false)
      else
        (log_event (Failed id)
          (set_lane (tail (commitLane s)) (edit_commit id (with_status ct_failed) s)), true)
  end.

Definition replay_error : CaughtError := mkCaught AbloIdempotencyError (Some "idempotency_conflict") "" None 0.

(** [assertEnvelopeInsideReplayWindow]: the error it throws, if it throws. *)
Definition assertEnvelopeInsideReplayWindow (e : lane_env) (c : CommitTransaction) (s : lane) : option CaughtError :=
  match durableReplayBlock s with
  | Some err => Some err
  | None => if negb (default false (c_durableEnvelope c)) && (DURABLE_REPLAY_WINDOW_MS <=? le_now e - c_sealedAt c)
            then Some replay_error else None
  end.

(** From a sealed commit to the [await] of its dispatch; the flag says whether the
    loop goes on at once. *)
Definition start_dispatch (e : lane_env) (id : string) (s : lane) : lane * bool :=
  match get_commit id s with
  | None => (set_phase Idle s, false)
  | Some c =>
      match assertEnvelopeInsideReplayWindow e c s with
      | Some err => settle_error e id err (block_replay err s)
      | None => (set_phase (Dispatching id) (log_event (Dispatched id) s), false)
      end
  end.

(** The [while] loop, from the head of [todo], which is the lane. *)
Fixpoint loop (e : lane_env) (todo : list string) (s : lane) : lane :=
  match todo with
  | [] => set_phase Idle s
  | id :: rest =>
      match get_commit id s with
      | None => set_phase Idle s
      | Some c =>
          if negb (bool_decide (c_status c = ct_pending)) then loop e rest (set_lane rest s)
          else
            let s := edit_commit id (λ c, with_attempt (with_status ct_executing c)) s in
            if is_Some_b (c_durableEnvelope c) then
              let out := start_dispatch e id s in
              if out.2 then loop e rest out.1 else out.1
            else set_phase (Sealing id) s
      end
  end.

Definition continue (e : lane_env) (out : lane * bool) : lane :=
  if out.2 then loop e (commitLane out.1) out.1 else out.1.

Definition is_idle (s : lane) : bool := match phase s with Idle => true | _ => false end.

Definition processCommitLane (e : lane_env) (s : lane) : lane :=
  if negb (is_idle s) || is_Some_b (durableReplayBlock s) then s else loop e (commitLane s) s.

(** The first half of the [catch]. *)
Definition catch_error (e : lane_env) (dispatchStarted : bool) (id : string) (err : CaughtError) (s : lane) : lane :=
  if dispatchStarted && isDefinitiveRejection err
  then set_phase (Dropping id err) (log_event (Removed id) s)
  else continue e (settle_error e id err s).

Definition completeQueuedCommit (id : string) (syncId : Z) (s : lane) : lane :=
  match get_commit id s with
  | Some c =>
      if bool_decide (c_status c = ct_awaiting_delta) then
        log_event (Completed id)
          (log_event (Removed id)
            (edit_commit id (λ c, with_status ct_completed (with_receipt syncId (c_correlationId c) c))
              (set_lagged (set_remove id (replicationLagged s)) s)))
      else s
  | None => s
  end.

(** The acceptance was persisted: what the receipt says becomes of the commit. *)
Definition accepted (e : lane_env) (id : string) (r : receipt) (s : lane) : lane :=
  match r with
  | Confirmed sync =>
      set_phase (Cleaning id sync)
        (log_event (Removed id)
          (set_lane (tail (commitLane s))
            (edit_commit id (λ c, with_receipt sync (c_correlationId c) c) s)))
  | Queued sync corr =>
      let s := set_lane (tail (commitLane s))
        (edit_commit id (λ c, with_status ct_awaiting_delta (with_receipt sync corr (with_envelope true c))) s) in
      let s := match corr ≫= le_echo e with
               | Some echo => completeQueuedCommit id echo s
               | None => set_lagged (set_remove id (replicationLagged s)) s
               end in
      loop e (commitLane s) s
  end.

(** ** Inputs *)

(** [failInFlightCommitsOnOffline] *)
Definition in_flight (c : CommitTransaction) : bool :=
  bool_decide (c_status c = ct_pending) || bool_decide (c_status c = ct_executing).
Definition grace_fail (s : lane) (id : string) : lane :=
  log_event (GraceFailed id) (edit_commit id (with_status ct_failed) s).
Definition failInFlightCommitsOnOffline (s : lane) : lane :=
  foldl grace_fail s (base.filter (λ p, in_flight p.2 = true) (commitStore s)).*1.

(** *** [durableCommitRestore.ts] *)

Record CommitOutboxScope := mkScope { organizationId : string; participantId : string; namespace : string }.

(** [en_acceptedAt] is whether the envelope carries one. *)
Record DurableCommitEnvelope := mkEnvelope {
  en_id : string;
  en_idempotencyKey : string;
  en_sequence : option Z;
  en_sealedAt : Z;
  en_acceptedAt : bool;
  en_correlationId : option string;
  en_scope : option CommitOutboxScope;
}.

(** A row of the outbox, as the schema reads it. *)
Inductive outbox_row := OtherRow | UnreadableEnvelope | CommitEnvelope (en : DurableCommitEnvelope).

(** The envelopes of the rows, or nothing when one of them cannot be read. *)
Fixpoint read_rows (rows : list outbox_row) : option (list DurableCommitEnvelope) :=
  match rows with
  | [] => Some []
  | OtherRow :: rows => read_rows rows
  | UnreadableEnvelope :: _ => None
  | CommitEnvelope en :: rows => cons en <$> read_rows rows
  end.

Definition compare_envelopes (e : lane_env) (a b : DurableCommitEnvelope) : Z :=
  let d := default (en_sealedAt a * 1000) (en_sequence a) - default (en_sealedAt b * 1000) (en_sequence b) in
  if d =? 0 then le_localeCompare e (en_id a) (en_id b) else d.

Definition same_scope (a b : CommitOutboxScope) : bool :=
  String.eqb (organizationId a) (organizationId b) && String.eqb (participantId a) (participantId b)
  && String.eqb (namespace a) (namespace b).

Definition foreign (scope : option CommitOutboxScope) (en : DurableCommitEnvelope) : bool :=
  match scope with
  | None => false
  | Some own => match en_scope en with Some s => negb (same_scope s own) | None => true end
  end.

Definition restored_commit (en : DurableCommitEnvelope) : CommitTransaction :=
  mkCommit ct_pending 0 0 None None (en_correlationId en) (en_sealedAt en) (Some (en_acceptedAt en)).

(** The loop over the sorted envelopes; the flag says whether it threw. *)
Fixpoint restore_loop (e : lane_env) (scope : option CommitOutboxScope) (l : list DurableCommitEnvelope)
    (s : lane) : lane * bool :=
  match l with
  | [] => (s, false)
  | en :: l =>
      if negb (en_acceptedAt en) && (DURABLE_REPLAY_WINDOW_MS <=? le_now e - en_sealedAt en) then (s, true)
      else if foreign scope en then restore_loop e scope l s
      else if is_Some_b (get_commit (en_idempotencyKey en) s) then restore_loop e scope l s
      else restore_loop e scope l
             (push_commit (en_idempotencyKey en) (put_commit (en_idempotencyKey en) (restored_commit en) s))
  end.

Definition fail_restore (s : lane) : lane :=
  mkLane (commitStore s) (commitLane s) (phase s) (commitRetryTimer s) (durableReplayBlock s) (replicationLagged s)
    (events s) (pushed s) true.

Definition restoreDurableCommits (e : lane_env) (scope : option CommitOutboxScope) (rows : list outbox_row)
    (s : lane) : lane :=
  match read_rows rows with
  | None => fail_restore s
  | Some envelopes =>
      let out := restore_loop e scope (sort_by (compare_envelopes e) envelopes) s in
      if out.2 then fail_restore out.1 else processCommitLane e out.1
  end.

Inductive lane_input :=
  | EnqueueNew (id : string)
  | EnqueueSealed (id : string)
  | EnqueueSealFailed (id : string)
  | EnqueueAgain (id : string)
  | LaneSealed
  | LaneSealFailed (err : CaughtError)
  | DispatchOk (r : receipt)
  | DispatchErr (err : CaughtError)
  | AcceptOk
  | AcceptErr (err : CaughtError)
  | RemoveDone
  | RetryFires
  | GraceExpires
  | SourceConfirmed (id : string) (syncId : Z)
  | LagFires (id : string)
  | ReplayBlocked (err : CaughtError)
  | Restore (scope : option CommitOutboxScope) (rows : list outbox_row).

Definition new_commit (now : Z) : CommitTransaction :=
  mkCommit ct_pending 0 0 None None None now None.

(** [enqueueCommit] for an id the store already holds and the same request, from the
    [await] of its seal: the check for a block came before that, so it is no guard
    of this step. *)
Definition enqueue_again (e : lane_env) (id : string) (s : lane) : lane :=
  match get_commit id s with
  | None => s
  | Some c =>
      let s := if bool_decide (c_status c = ct_awaiting_delta) && bool_decide (id ∈ replicationLagged s)
               then push_commit id (edit_commit id (with_status ct_pending)
                      (set_lagged (set_remove id (replicationLagged s)) s))
               else s in
      match get_commit id s with
      | Some c => if bool_decide (c_status c = ct_pending) then processCommitLane e s else s
      | None => s
      end
  end.

Definition lane_step (e : lane_env) (s : lane) (i : lane_input) : lane :=
  match i with
  | EnqueueNew id => if is_Some_b (durableReplayBlock s) then s else put_commit id (new_commit (le_now e)) s
  | EnqueueSealed id => processCommitLane e (push_commit id (edit_commit id (with_envelope false) s))
  | EnqueueSealFailed id =>
      mkLane (map_delete id (commitStore s)) (commitLane s) (phase s) (commitRetryTimer s)
        (durableReplayBlock s) (replicationLagged s) (events s) (pushed s) (restoreFailed s)
  | EnqueueAgain id => enqueue_again e id s
  | LaneSealed =>
      match phase s with
      | Sealing id => continue e (start_dispatch e id (edit_commit id (with_envelope false) s))
      | _ => s
      end
  | LaneSealFailed err => match phase s with Sealing id => catch_error e false id err s | _ => s end
  | DispatchOk r => match phase s with Dispatching id => set_phase (Accepting id r) s | _ => s end
  | DispatchErr err => match phase s with Dispatching id => catch_error e true id err s | _ => s end
  | AcceptOk => match phase s with Accepting id r => accepted e id r s | _ => s end
  | AcceptErr err => match phase s with Accepting id _ => catch_error e true id err s | _ => s end
  | RemoveDone =>
      match phase s with
      | Cleaning id _ =>
          let s := log_event (Completed id) (edit_commit id (with_status ct_completed) s) in
          loop e (commitLane s) s
      | Dropping id err => continue e (settle_error e id err s)
      | _ => s
      end
  | RetryFires => processCommitLane e (set_timer None s)
  | GraceExpires => failInFlightCommitsOnOffline s
  | SourceConfirmed id syncId => completeQueuedCommit id syncId s
  | LagFires id =>
      match get_commit id s with
      | Some c => if bool_decide (c_status c = ct_awaiting_delta)
                  then set_lagged (set_add id (replicationLagged s)) s else s
      | None => s
      end
  | ReplayBlocked err => block_replay err s
  | Restore scope rows => restoreDurableCommits e scope rows s
  end.

(** A commit whose first seal is under way is in the store, unsealed and never
    pushed. *)
Definition sealing (id : string) (s : lane) : bool :=
  match get_commit id s with
  | Some c => negb (is_Some_b (c_durableEnvelope c)) && negb (bool_decide (id ∈ pushed s))
  | None => false
  end.

Definition lane_enabled (s : lane) (i : lane_input) : bool :=
  match i with
  | EnqueueNew id => negb (is_Some_b (get_commit id s)) && negb (bool_decide (id ∈ pushed s))
  | EnqueueSealed id | EnqueueSealFailed id => sealing id s
  | EnqueueAgain id => is_Some_b (get_commit id s) && negb (sealing id s)
  | RetryFires => is_Some_b (commitRetryTimer s)
  | _ => true
  end.

Inductive lane_reach : list lane_input → lane → Prop :=
  | lane_start : lane_reach [] new_lane
  | lane_next l s e i : lane_reach l s → lane_enabled s i = true → lane_reach (l ++ [i]) (lane_step e s i).

End Lane.

(** ** Order *)

Definition dispatches (l : list lane_event) : list string :=
  omap (λ ev, match ev with Dispatched id => Some id | _ => None end) l.

(** A list with runs of one element collapsed: retries of one commit count once. *)
Fixpoint collapse (l : list string) : list string :=
  match l with
  | [] => []
  | x :: l' => match l' with
               | y :: _ => if String.eqb x y then collapse l' else x :: collapse l'
               | [] => [x]
               end
  end.

Lemma collapse_snoc l x :
  collapse (l ++ [x]) = if decide (last l = Some x) then collapse l else collapse l ++ [x].
Proof.
  induction l as [|y l IH]; [done|]. destruct l as [|z l].
  - simpl. destruct (String.eqb_spec y x) as [->|Hne]; [by rewrite decide_True|].
    by rewrite decide_False by congruence.
  - change ((y :: z :: l) ++ [x]) with (y :: (z :: l) ++ [x]).
    change (last (y :: z :: l)) with (last (z :: l)).
    assert (Hy : ∀ l', collapse (y :: z :: l') = if String.eqb y z then collapse (z :: l') else y :: collapse (z :: l'))
      by done.
    change (y :: (z :: l) ++ [x]) with (y :: z :: (l ++ [x])). rewrite !Hy.
    change (z :: l ++ [x]) with ((z :: l) ++ [x]). rewrite IH.
    destruct (String.eqb y z), (decide (last (z :: l) = Some x)); reflexivity.
Qed.

Definition in_order (popped todo dispatched : list string) : Prop :=
  sublist (collapse dispatched) popped
  ∨ ∃ h rest d, todo = h :: rest ∧ last dispatched = Some h ∧ collapse dispatched = d ++ [h] ∧ sublist d popped.

Lemma in_order_dispatch popped h rest d :
  in_order popped (h :: rest) d → in_order popped (h :: rest) (d ++ [h]).
Proof.
  unfold in_order. rewrite collapse_snoc, last_snoc.
  intros [Hs|(h' & rest' & d' & [= <- <-] & Hl & Hc & Hs)].
  - case_decide; [by left|]. right. exists h, rest, (collapse d). done.
  - rewrite decide_True by done. right. exists h, rest, d'. done.
Qed.

Lemma in_order_pop popped h rest d : in_order popped (h :: rest) d → in_order (popped ++ [h]) rest d.
Proof.
  unfold in_order. intros [Hs|(h' & rest' & d' & [= <- <-] & Hl & Hc & Hs)]; left.
  - by apply sublist_inserts_r.
  - rewrite Hc. by apply sublist_app.
Qed.

Lemma in_order_push popped todo id d : in_order popped todo d → in_order popped (todo ++ [id]) d.
Proof.
  intros [Hs|(h & rest & d' & -> & ? & ? & ?)]; [by left|]. right. exists h, (rest ++ [id]), d'. done.
Qed.

(** ** What holds between inputs, whatever the inputs *)

Record base (s : lane) : Prop := {
  base_store : ∀ id, id ∈ pushed s → is_Some (get_commit id s);
  base_order : ∃ popped, pushed s = popped ++ commitLane s ∧ in_order popped (commitLane s) (dispatches (events s));
}.

Definition phase_ok (s : lane) : Prop :=
  match phase s with
  | Idle => commitLane s = [] ∨ is_Some (commitRetryTimer s)
    ∨ is_Some (durableReplayBlock s) ∨ restoreFailed s = true
  | Cleaning id _ => ∃ before, pushed s = before ++ id :: commitLane s
  | Sealing id | Dispatching id | Accepting id _ | Dropping id _ => ∃ rest, commitLane s = id :: rest
  end.

Lemma get_put id id' c s :
  get_commit id (put_commit id' c s) = if decide (id = id') then Some c else get_commit id s.
Proof. apply map_get_set. Qed.

Lemma get_edit id id' f s :
  get_commit id (edit_commit id' f s) = if decide (id = id') then f <$> get_commit id s else get_commit id s.
Proof.
  unfold edit_commit. destruct (get_commit id' s) eqn:E.
  - rewrite get_put. case_decide; [subst; by rewrite E|done].
  - case_decide; [subst; by rewrite E|done].
Qed.

(** [edit_commit] touches nothing but the commit it edits. *)
Lemma edit_fields id f s :
  let s' := edit_commit id f s in
  commitLane s' = commitLane s ∧ phase s' = phase s ∧ commitRetryTimer s' = commitRetryTimer s
  ∧ durableReplayBlock s' = durableReplayBlock s ∧ replicationLagged s' = replicationLagged s
  ∧ events s' = events s ∧ pushed s' = pushed s ∧ restoreFailed s' = restoreFailed s.
Proof. unfold edit_commit. by destruct (get_commit id s). Qed.

Lemma edit_lane id f s : commitLane (edit_commit id f s) = commitLane s.
Proof. apply (edit_fields id f s). Qed.

Lemma edit_phase id f s : phase (edit_commit id f s) = phase s.
Proof. apply (edit_fields id f s). Qed.

Lemma edit_pushed id f s : pushed (edit_commit id f s) = pushed s.
Proof. apply (edit_fields id f s). Qed.

Lemma base_edit id f s : base s → base (edit_commit id f s).
Proof.
  intros [A B]. pose proof (edit_fields id f s) as (E1 & _ & _ & _ & _ & E2 & E3 & _). split.
  - intros id' Hin. rewrite E3 in Hin. rewrite get_edit. case_decide; [|by apply A].
    apply fmap_is_Some. by apply A.
  - by rewrite E1, E2, E3.
Qed.

(** Assignments to the other fields. *)
Lemma base_phase p s : base s → base (set_phase p s).
Proof. by intros []. Qed.
Lemma base_timer x s : base s → base (set_timer x s).
Proof. by intros []. Qed.
Lemma base_lagged x s : base s → base (set_lagged x s).
Proof. by intros []. Qed.
Lemma base_block err s : base s → base (block_replay err s).
Proof. by intros []. Qed.

Create HintDb lane.
#[local] Hint Resolve base_phase base_timer base_lagged base_block base_edit : lane.

Lemma base_log ev s : (∀ id, ev ≠ Dispatched id) → base s → base (log_event ev s).
Proof.
  intros Hev [A B]. split; [exact A|]. simpl. unfold dispatches. rewrite omap_app.
  destruct ev; try (by rewrite app_nil_r). by destruct (Hev id).
Qed.

Lemma base_dispatch id rest s : base s → commitLane s = id :: rest → base (log_event (Dispatched id) s).
Proof.
  intros [A (popped & Hp & Ho)] Hl. split; [exact A|]. exists popped. split; [done|]. simpl.
  unfold dispatches in *. rewrite omap_app. rewrite Hl in Ho |- *. by apply in_order_dispatch.
Qed.

Lemma base_pop id rest s : base s → commitLane s = id :: rest → base (set_lane rest s).
Proof.
  intros [A (popped & Hp & Ho)] Hl. split; [exact A|]. exists (popped ++ [id]). simpl.
  rewrite Hl in *. split; [by rewrite Hp, <- app_assoc|by apply in_order_pop].
Qed.

Lemma base_push id s : base s → is_Some (get_commit id s) → base (push_commit id s).
Proof.
  intros [A (popped & Hp & Ho)] Hid. split; simpl.
  - intros id' [Hin| ->%list_elem_of_singleton]%elem_of_app; [by apply A|done].
  - exists popped. split; [by rewrite Hp, <- app_assoc|by apply in_order_push].
Qed.

Lemma head_split id rest s : base s → commitLane s = id :: rest → ∃ before, pushed s = before ++ id :: rest.
Proof. intros [A (popped & Hp & _)] Hl. exists popped. by rewrite Hp, Hl. Qed.

Lemma head_pushed id rest s : base s → commitLane s = id :: rest → id ∈ pushed s.
Proof. intros Hb Hl. destruct (head_split id rest s Hb Hl) as [before ->]. set_solver. Qed.

Lemma base_head id rest s : base s → commitLane s = id :: rest → is_Some (get_commit id s).
Proof. intros [A (popped & Hp & _)] Hl. apply A. rewrite Hp, Hl. set_solver. Qed.

Section LaneFacts.
Context (cfg : retry_config).

(** The outcome of an error on the head of the lane. *)
Lemma settle_error_base e id rest err s :
  base s → commitLane s = id :: rest →
  let out := settle_error cfg e id err s in
  base out.1 ∧ (out.2 = true → commitLane out.1 = rest) ∧ (out.2 = false → phase_ok out.1).
Proof.
  intros Hb Hl. unfold settle_error. destruct (base_head id rest s Hb Hl) as [c Hc]. rewrite Hc.
  set (s1 := edit_commit id _ s). assert (Hb1 : base s1) by by apply base_edit.
  assert (Hl1 : commitLane s1 = id :: rest) by by unfold s1; rewrite edit_lane.
  destruct (negb (isPermanentError err) && _); cbn [fst snd].
  - split_and!; [|done|by right; left]. auto with lane.
  - assert (Hl2 : commitLane (edit_commit id (with_status ct_failed) s1) = id :: rest)
      by by rewrite edit_lane.
    split_and!; [|intros _; simpl; by rewrite Hl1|done]. apply base_log; [done|].
    rewrite Hl1. apply (base_pop id); [by apply base_edit|done].
Qed.

Lemma start_dispatch_base e id rest s :
  base s → commitLane s = id :: rest →
  let out := start_dispatch cfg e id s in
  base out.1 ∧ (out.2 = true → commitLane out.1 = rest) ∧ (out.2 = false → phase_ok out.1).
Proof.
  intros Hb Hl. unfold start_dispatch. destruct (base_head id rest s Hb Hl) as [c Hc]. rewrite Hc.
  destruct (assertEnvelopeInsideReplayWindow e c s).
  - apply settle_error_base; [auto with lane|done].
  - split_and!; [|done|by exists rest]. apply base_phase. by eapply base_dispatch.
Qed.

Lemma loop_base e todo s :
  base s → commitLane s = todo → base (loop cfg e todo s) ∧ phase_ok (loop cfg e todo s).
Proof.
  revert s. induction todo as [|id rest IH]; intros s Hb Hl; simpl.
  { split; [auto with lane|by left]. }
  destruct (base_head id rest s Hb Hl) as [c Hc]. rewrite Hc.
  destruct (negb _); [apply IH; [by apply (base_pop id)|done]|].
  set (s1 := edit_commit id _ s). assert (Hb1 : base s1) by by apply base_edit.
  assert (Hl1 : commitLane s1 = id :: rest) by by unfold s1; rewrite edit_lane.
  destruct (is_Some_b (c_durableEnvelope c)); [|split; [auto with lane|by exists rest]].
  destruct (start_dispatch_base e id rest s1 Hb1 Hl1) as (H1 & H2 & H3).
  destruct (start_dispatch cfg e id s1) as [s2 []]; simpl in *; auto.
Qed.

Lemma continue_base e rest out :
  base out.1 ∧ (out.2 = true → commitLane out.1 = rest) ∧ (out.2 = false → phase_ok out.1) →
  let s' := continue cfg e out in base s' ∧ phase_ok s'.
Proof. intros (H1 & H2 & H3). unfold continue. destruct out.2; [by apply loop_base|auto]. Qed.

Definition lane_ok (s : lane) : Prop := base s ∧ phase_ok s.

Lemma process_ok e s : base s → (is_idle s = false → phase_ok s) → lane_ok (processCommitLane cfg e s).
Proof.
  intros Hb Hp. unfold processCommitLane. destruct (is_idle s) eqn:E; simpl; [|split; auto].
  destruct (durableReplayBlock s) eqn:Ed; simpl; [|by apply loop_base].
  split; [done|]. unfold is_idle in E. unfold phase_ok. destruct (phase s); try done.
  rewrite Ed. right; right; left; by eexists.
Qed.

Lemma phase_ok_push id s : is_idle s = false → phase_ok s → phase_ok (push_commit id s).
Proof.
  unfold is_idle, phase_ok. simpl. destruct (phase s); try done; intros _;
    [intros [rest ->]; by exists (rest ++ [id])..|intros [before ->]; exists before; by rewrite <- app_assoc
    |intros [rest ->]; by exists (rest ++ [id])].
Qed.

Lemma phase_ok_edit id f s : phase_ok s → phase_ok (edit_commit id f s).
Proof.
  destruct (edit_fields id f s) as (E1 & E2 & E3 & E4 & _ & _ & E5 & E6). unfold phase_ok. by rewrite E1, E2, E3, E4, E5, E6.
Qed.

Lemma phase_ok_log ev s : phase_ok s → phase_ok (log_event ev s).
Proof. done. Qed.
Lemma phase_ok_lagged l s : phase_ok s → phase_ok (set_lagged l s).
Proof. done. Qed.

Lemma grace_ok ids s : lane_ok s → lane_ok (foldl grace_fail s ids).
Proof.
  revert s. induction ids as [|id ids IH]; intros s [Hb Hp]; [done|]. simpl. apply IH. split.
  - apply base_log; [done|auto with lane].
  - apply phase_ok_log, phase_ok_edit, Hp.
Qed.

Lemma complete_queued_base id sync s : base s → base (completeQueuedCommit id sync s).
Proof.
  intros Hb. unfold completeQueuedCommit. repeat case_match; try done.
  apply base_log; [done|]. apply base_log; [done|auto with lane].
Qed.

Lemma complete_queued_fields id sync s :
  commitLane (completeQueuedCommit id sync s) = commitLane s ∧ phase (completeQueuedCommit id sync s) = phase s
  ∧ commitRetryTimer (completeQueuedCommit id sync s) = commitRetryTimer s
  ∧ durableReplayBlock (completeQueuedCommit id sync s) = durableReplayBlock s
  ∧ pushed (completeQueuedCommit id sync s) = pushed s
  ∧ restoreFailed (completeQueuedCommit id sync s) = restoreFailed s.
Proof.
  unfold completeQueuedCommit. destruct (get_commit id s) as [c|]; [|done]. case_match; [|done].
  simpl. match goal with |- context [edit_commit id ?f ?s1] =>
    destruct (edit_fields id f s1) as (-> & -> & -> & -> & _ & _ & -> & ->) end. done.
Qed.

Lemma complete_queued_ok id sync s : lane_ok s → lane_ok (completeQueuedCommit id sync s).
Proof.
  intros [Hb Hp]. split; [by apply complete_queued_base|].
  destruct (complete_queued_fields id sync s) as (E1 & E2 & E3 & E4 & E5 & E6).
  unfold phase_ok in *. by rewrite E1, E2, E3, E4, E5, E6.
Qed.

Lemma catch_ok e started id rest err s :
  base s → commitLane s = id :: rest → lane_ok (catch_error cfg e started id err s).
Proof.
  intros Hb Hl. unfold catch_error. case_match.
  - split; [apply base_phase, base_log; [done|done]|by exists rest].
  - by eapply continue_base, settle_error_base.
Qed.

Lemma accepted_ok e id rest r s :
  base s → commitLane s = id :: rest → lane_ok (accepted cfg e id r s).
Proof.
  intros Hb Hl. unfold accepted. destruct r as [sync|sync corr].
  - set (s1 := edit_commit id _ s). assert (Hl1 : commitLane s1 = id :: rest) by by unfold s1; rewrite edit_lane.
    assert (Hb1 : base s1) by (unfold s1; auto with lane). rewrite Hl. cbn [tail]. split.
    + apply base_phase, base_log; [done|]. by apply (base_pop id).
    + exact (head_split id rest s1 Hb1 Hl1).
  - set (s1 := edit_commit id _ s). assert (Hl1 : commitLane s1 = id :: rest) by by unfold s1; rewrite edit_lane.
    assert (Hb1 : base s1) by (unfold s1; auto with lane). rewrite Hl. cbn [tail].
    assert (Hb2 : base (set_lane rest s1)) by by apply (base_pop id).
    destruct (corr ≫= le_echo e) as [echo|]; apply loop_base; auto using complete_queued_base with lane.
Qed.

Lemma enqueue_again_ok e id s : lane_ok s → lane_ok (enqueue_again cfg e id s).
Proof.
  intros [Hb Hp]. unfold enqueue_again. destruct (get_commit id s) as [c|] eqn:Hc; [|done].
  set (s1 := if _ && _ then push_commit id _ else s).
  assert (H1 : base s1 ∧ (is_idle s1 = false → phase_ok s1) ∧ (c_status c ≠ ct_awaiting_delta → s1 = s)).
  { unfold s1. destruct (bool_decide (c_status c = ct_awaiting_delta)) eqn:E; bool_simpl; simpl; [|by split_and!].
    destruct (bool_decide _); [|by split_and!]. split_and!; [| |done].
    - apply base_push; [auto with lane|]. rewrite get_edit, decide_True by done. apply fmap_is_Some. by exists c.
    - intros Hi. apply phase_ok_push; [done|]. apply phase_ok_edit, Hp. }
  destruct H1 as (Hb1 & Hp1 & Hs1). destruct (get_commit id s1) as [c1|] eqn:Hc1; [|].
  - case_bool_decide; [by apply process_ok|]. destruct (decide (c_status c = ct_awaiting_delta)); [|by rewrite Hs1].
    unfold s1 in *. destruct (bool_decide _ && _) eqn:E; [|done]. exfalso.
    unfold push_commit, get_commit in Hc1. simpl in Hc1.
    change (get_commit id (edit_commit id (with_status ct_pending) (set_lagged (set_remove id (replicationLagged s)) s)) = Some c1) in Hc1.
    rewrite get_edit, decide_True in Hc1 by done. simpl in Hc1.
    destruct (get_commit id (set_lagged _ s)); [|done]. simpl in Hc1. by injection Hc1 as <-.
  - exfalso. destruct (decide (c_status c = ct_awaiting_delta)) as [E|E]; [|by rewrite Hs1, Hc in Hc1].
    unfold s1 in Hc1. destruct (bool_decide _ && _); [|by rewrite Hc in Hc1].
    change (get_commit id (edit_commit id (with_status ct_pending) (set_lagged (set_remove id (replicationLagged s)) s)) = None) in Hc1.
    rewrite get_edit, decide_True in Hc1 by done.
    change (get_commit id (set_lagged (set_remove id (replicationLagged s)) s)) with (get_commit id s) in Hc1.
    by rewrite Hc in Hc1.
Qed.

Lemma phase_ok_put id c s : phase_ok s → phase_ok (put_commit id c s).
Proof. done. Qed.

Lemma base_put id c s : base s → base (put_commit id c s).
Proof.
  intros [A B]. split; [|exact B]. intros id' Hin. rewrite get_put. case_decide; [by eexists|by apply A].
Qed.

(** Restoring pushes new commits and leaves the loop where it is. *)
Lemma restore_loop_base e scope l s :
  base s → (is_idle s = false → phase_ok s) →
  let out := restore_loop e scope l s in
  base out.1 ∧ phase out.1 = phase s ∧ (is_idle s = false → phase_ok out.1).
Proof.
  revert s. induction l as [|en l IH]; intros s Hb Hp; simpl; [done|].
  case_match; [done|]. case_match; [by apply IH|]. case_match; [by apply IH|].
  apply (IH (push_commit _ (put_commit _ _ s))).
  - apply base_push; [by apply base_put|]. rewrite get_put, decide_True by done. by eexists.
  - intros Hi. apply phase_ok_push; [done|]. apply phase_ok_put. auto.
Qed.

Lemma restore_ok e scope rows s : lane_ok s → lane_ok (restoreDurableCommits cfg e scope rows s).
Proof.
  intros [Hb Hp]. unfold restoreDurableCommits.
  assert (Hfail : ∀ s', base s' → (is_idle s' = false → phase_ok s') → lane_ok (fail_restore s')).
  { intros s' [A B] Hp'. split; [by split|]. unfold is_idle, phase_ok in *. simpl.
    destruct (phase s'); by auto. }
  destruct (read_rows rows) as [l|]; [|by apply Hfail].
  destruct (restore_loop_base e scope (sort_by (compare_envelopes e) l) s Hb (λ _, Hp)) as (H1 & H2 & H3).
  assert (Hi : is_idle (restore_loop e scope (sort_by (compare_envelopes e) l) s).1 = is_idle s)
    by (unfold is_idle; by rewrite H2).
  destruct (_.2); [apply Hfail|apply process_ok]; try done; by rewrite Hi.
Qed.

Lemma step_ok e s i : lane_ok s → lane_enabled s i = true → lane_ok (lane_step cfg e s i).
Proof.
  intros Hok Hen. pose proof Hok as [Hb Hp]. destruct i; simpl in *.
  - case_match; [done|]. by split; [apply base_put|].
  - assert (Hs : is_Some (get_commit id s)).
    { unfold sealing in Hen. destruct (get_commit id s); [by eexists|done]. }
    apply process_ok.
    + apply base_push; [auto with lane|]. rewrite get_edit, decide_True by done. by apply fmap_is_Some.
    + intros Hi. apply phase_ok_push; [done|]. by apply phase_ok_edit.
  - split; [|exact Hp]. split; [|apply Hb]. simpl. intros id' Hin. unfold get_commit. simpl. rewrite map_get_delete.
    unfold sealing in Hen. destruct (get_commit id s); [|done]. bool_simpl.
    case_decide; [by subst|]. by apply Hb.
  - by apply enqueue_again_ok.
  - unfold phase_ok in Hp. destruct (phase s) eqn:E; try done. destruct Hp as [rest Hl].
    apply (continue_base e rest), start_dispatch_base; [auto with lane|by rewrite edit_lane].
  - unfold phase_ok in Hp. destruct (phase s) eqn:E; try done. destruct Hp as [rest Hl]. by eapply catch_ok.
  - unfold phase_ok in Hp. destruct (phase s) eqn:E; try done. split; [auto with lane|exact Hp].
  - unfold phase_ok in Hp. destruct (phase s) eqn:E; try done. destruct Hp as [rest Hl]. by eapply catch_ok.
  - unfold phase_ok in Hp. destruct (phase s) eqn:E; try done. destruct Hp as [rest Hl]. by eapply accepted_ok.
  - unfold phase_ok in Hp. destruct (phase s) eqn:E; try done. destruct Hp as [rest Hl]. by eapply catch_ok.
  - unfold phase_ok in Hp. destruct (phase s) eqn:E; try done.
    + apply loop_base; [|done]. apply base_log; [done|auto with lane].
    + destruct Hp as [rest Hl]. by eapply continue_base, settle_error_base.
  - apply process_ok; [auto with lane|]. intros Hi. unfold phase_ok in *. simpl. unfold is_idle in Hi. simpl in Hi.
    by destruct (phase s).
  - by apply grace_ok.
  - by apply complete_queued_ok.
  - repeat case_match; try done. split; [auto with lane|exact Hp].
  - split; [auto with lane|]. unfold phase_ok in *. simpl. destruct (phase s); try done.
    right; right; left; by eexists.
  - by apply restore_ok.
Qed.

Lemma reach_ok l s : lane_reach cfg l s → lane_ok s.
Proof.
  induction 1 as [|l s e i _ IH Hen]; [|by apply step_ok].
  split; [split|by left]; [by intros ? ?%elem_of_nil|]. exists []. split; [done|by left].
Qed.
End LaneFacts.

(** ** Settling once *)

(** The events that tell a caller how its commit ended. *)
Definition ends (id : string) (ev : lane_event) : bool :=
  match ev with
  | Completed id' | Failed id' | GraceFailed id' => String.eqb id' id
  | Dispatched _ | Removed _ => false
  end.
Definition endings (id : string) (l : list lane_event) : list lane_event :=
  base.filter (λ ev, ends id ev = true) l.

Definition ending_of (id : string) (c : CommitTransaction) : list lane_event :=
  match c_status c with
  | ct_completed => [Completed id]
  | ct_failed => [Failed id]
  | ct_pending | ct_executing | ct_awaiting_delta => []
  end.
Definition expected (id : string) (s : lane) : list lane_event :=
  match get_commit id s with Some c => ending_of id c | None => [] end.

Record told (s : lane) : Prop := {
  told_ends : ∀ id, endings id (events s) = expected id s;
  told_pushed : ∀ id c, get_commit id s = Some c → c_status c ≠ ct_pending → id ∈ pushed s;
}.

Definition executing (id : string) (s : lane) : Prop :=
  ∃ c, get_commit id s = Some c ∧ c_status c = ct_executing.
Definition busy_ok (s : lane) : Prop :=
  match phase s with
  | Idle => True
  | Sealing id | Dispatching id | Accepting id _ | Cleaning id _ | Dropping id _ => executing id s
  end.

Lemma told_phase p s : told s → told (set_phase p s).
Proof. by intros []. Qed.
Lemma told_timer x s : told s → told (set_timer x s).
Proof. by intros []. Qed.
Lemma told_lagged x s : told s → told (set_lagged x s).
Proof. by intros []. Qed.
Lemma told_block err s : told s → told (block_replay err s).
Proof. by intros []. Qed.
Lemma told_set_lane x s : told s → told (set_lane x s).
Proof. by intros []. Qed.
#[local] Hint Resolve told_phase told_timer told_lagged told_block told_set_lane : lane.

Lemma told_quiet ev s : (∀ id, ends id ev = false) → told s → told (log_event ev s).
Proof.
  intros Hev [A B]. split; [|exact B]. intros id. simpl. unfold endings. rewrite filter_app.
  rewrite filter_cons_False by (by rewrite Hev). rewrite filter_nil, app_nil_r. apply A.
Qed.

Lemma told_push id s : told s → told (push_commit id s).
Proof. intros [A B]. split; [exact A|]. intros id' c Hc Hst. simpl. apply elem_of_app; left. by eapply B. Qed.

(** An edit that changes no ending. *)
Lemma told_edit id f s :
  told s →
  (∀ c, get_commit id s = Some c → ending_of id (f c) = ending_of id c
     ∧ (c_status (f c) ≠ ct_pending → c_status c ≠ ct_pending ∨ id ∈ pushed s)) →
  told (edit_commit id f s).
Proof.
  intros [A B] Hf. destruct (edit_fields id f s) as (_ & _ & _ & _ & _ & E1 & E2 & _). split.
  - intros id'. rewrite E1, A. unfold expected. rewrite get_edit. case_decide; [subst|done].
    destruct (get_commit id s) as [c|] eqn:Hc; [|done]. simpl. by destruct (Hf c eq_refl) as [-> _].
  - intros id' c' Hc' Hst. rewrite E2. rewrite get_edit in Hc'. case_decide; [subst|by eapply B].
    destruct (get_commit id s) as [c|] eqn:Hc; [|done]. injection Hc' as <-.
    destruct (proj2 (Hf c eq_refl) Hst) as [?|?]; [by eapply B|done].
Qed.

(** An edit that ends a commit, with its event. *)
Lemma told_end id f ev s c :
  told s → get_commit id s = Some c → ending_of id c = [] → id ∈ pushed s →
  ending_of id (f c) = [ev] → ends id ev = true → (∀ id', id' ≠ id → ends id' ev = false) →
  told (log_event ev (edit_commit id f s)).
Proof.
  intros [A B] Hc Hno Hp Hev H1 H2. destruct (edit_fields id f s) as (_ & _ & _ & _ & _ & E1 & E2 & _). split.
  - intros id'. simpl. rewrite E1. unfold endings. rewrite filter_app. fold (endings id' (events s)). rewrite A.
    unfold expected. change (get_commit id' (log_event ev (edit_commit id f s))) with (get_commit id' (edit_commit id f s)).
    rewrite get_edit. destruct (decide (id' = id)) as [->|Hne].
    + rewrite Hc, Hno, filter_cons_True by done. simpl. by rewrite Hev.
    + rewrite filter_cons_False by (by rewrite H2). by rewrite filter_nil, app_nil_r.
  - intros id' c'. simpl. change (get_commit id' (log_event ev (edit_commit id f s))) with (get_commit id' (edit_commit id f s)).
    rewrite E2, get_edit. case_decide; [by subst|apply B].
Qed.

Lemma executing_ends c id : c_status c = ct_executing → ending_of id c = [].
Proof. unfold ending_of. by intros ->. Qed.

Section Told.
Context (cfg : retry_config).

Definition good (s : lane) : Prop := told s ∧ busy_ok s.

Lemma executing_edit id id' f s :
  (∀ c, c_status (f c) = c_status c) → executing id s → executing id (edit_commit id' f s).
Proof.
  intros Hf (c & Hc & Hst). unfold executing. rewrite get_edit. case_decide; [|by exists c].
  rewrite Hc. exists (f c). split; [done|]. by rewrite Hf.
Qed.

Lemma told_edit_same id f s :
  (∀ c, c_status (f c) = c_status c) → told s → told (edit_commit id f s).
Proof.
  intros Hf Ht. apply told_edit; [done|]. intros c _. unfold ending_of. rewrite Hf. auto.
Qed.

(** The two ways a settled error ends. *)
Lemma settle_error_told e id err s :
  told s → executing id s → id ∈ pushed s →
  let out := settle_error cfg e id err s in told out.1 ∧ (out.2 = false → busy_ok out.1).
Proof.
  intros Ht Hx Hp. pose proof Hx as (c & Hc & _). unfold settle_error. rewrite Hc.
  set (s1 := edit_commit id _ s).
  assert (Hx1 : executing id s1) by by apply executing_edit.
  assert (Ht1 : told s1) by by apply told_edit_same.
  assert (Hp1 : id ∈ pushed s1) by (unfold s1; by rewrite edit_pushed).
  destruct Hx1 as (c1 & Hc1 & Hst1).
  destruct (negb (isPermanentError err) && _); cbn [fst snd].
  - split; [|done]. apply told_phase, told_timer, told_edit; [done|]. intros c' Hc'.
    rewrite Hc1 in Hc'. injection Hc' as <-. split; [|by right]. unfold ending_of. simpl. by rewrite Hst1.
  - split; [|done]. apply (told_set_lane (tail (commitLane s1)) (log_event (Failed id) (edit_commit id (with_status ct_failed) s1))).
    eapply told_end; try done; [by apply executing_ends| |].
    + simpl. by rewrite String.eqb_refl.
    + intros id' Hne. simpl. apply String.eqb_neq. congruence.
Qed.

Lemma start_dispatch_told e id s :
  told s → executing id s → id ∈ pushed s →
  let out := start_dispatch cfg e id s in told out.1 ∧ (out.2 = false → busy_ok out.1).
Proof.
  intros Ht Hx Hp. pose proof Hx as (c & Hc & _). unfold start_dispatch. rewrite Hc.
  destruct (assertEnvelopeInsideReplayWindow e c s).
  - apply settle_error_told; auto with lane.
  - split; [|done]. apply told_phase. by apply told_quiet.
Qed.

Lemma loop_good e todo s : base s → told s → commitLane s = todo → good (loop cfg e todo s).
Proof.
  revert s. induction todo as [|id rest IH]; intros s Hb Ht Hl; simpl;
    [split; [auto with lane|done]|].
  destruct (get_commit id s) as [c|] eqn:Hc; [|split; [auto with lane|done]].
  case_bool_decide as Hst; simpl; [|apply IH; [by apply (base_pop id)|auto with lane|done]].
  pose proof (head_pushed id rest s Hb Hl) as Hp.
  set (s1 := edit_commit id _ s). assert (Hb1 : base s1) by by apply base_edit.
  assert (Hl1 : commitLane s1 = id :: rest) by by unfold s1; rewrite edit_lane.
  assert (Hp1 : id ∈ pushed s1) by (unfold s1; by rewrite edit_pushed).
  assert (Hx1 : executing id s1).
  { unfold executing, s1. rewrite get_edit, decide_True, Hc by done. by eexists. }
  assert (Ht1 : told s1).
  { apply told_edit; [done|]. intros c' Hc'. rewrite Hc in Hc'. injection Hc' as <-.
    split; [|by right]. unfold ending_of. simpl. by rewrite Hst. }
  destruct (is_Some_b (c_durableEnvelope c)); [|split; [auto with lane|done]].
  destruct (start_dispatch_base cfg e id rest s1 Hb1 Hl1) as (H1 & H2 & _).
  destruct (start_dispatch_told e id s1 Ht1 Hx1 Hp1) as [H4 H5].
  destruct (start_dispatch cfg e id s1) as [s2 []]; simpl in *; [apply IH; auto|split; auto].
Qed.

Lemma continue_good e rest out :
  base out.1 ∧ (out.2 = true → commitLane out.1 = rest) ∧ (out.2 = false → phase_ok out.1) →
  told out.1 ∧ (out.2 = false → busy_ok out.1) → good (continue cfg e out).
Proof. intros (H1 & _) (H4 & H5). unfold continue. destruct out.2; [by apply loop_good|split; auto]. Qed.

Lemma settled_good e id rest err s :
  base s → commitLane s = id :: rest → told s → executing id s → good (continue cfg e (settle_error cfg e id err s)).
Proof.
  intros Hb Hl Ht Hx. eapply continue_good; [by apply settle_error_base|].
  apply settle_error_told; [done..|]. by eapply head_pushed.
Qed.

Lemma process_good e s : base s → good s → good (processCommitLane cfg e s).
Proof. intros Hb [Ht Hx]. unfold processCommitLane. case_match; [done|]. by apply loop_good. Qed.

Lemma catch_good e started id rest err s :
  base s → commitLane s = id :: rest → good s → executing id s → good (catch_error cfg e started id err s).
Proof.
  intros Hb Hl [Ht _] Hx. unfold catch_error. case_match; [|by eapply settled_good].
  split; [|done]. apply told_phase. by apply told_quiet.
Qed.

(** A source echo ends only a commit that awaits its delta. *)
Lemma complete_queued_told id sync s :
  told s → told (completeQueuedCommit id sync s).
Proof.
  intros Ht. unfold completeQueuedCommit. destruct (get_commit id s) as [c|] eqn:Hc; [|done].
  case_bool_decide as Hst; [|done]. set (s0 := set_lagged _ s).
  set (f := λ c, with_status ct_completed (with_receipt sync (c_correlationId c) c)).
  assert (Hp : id ∈ pushed s) by (eapply told_pushed; [done..|]; by rewrite Hst).
  assert (Hends : told (log_event (Completed id) (edit_commit id f s0))).
  { eapply told_end; [by apply told_lagged|done|by unfold ending_of; rewrite Hst|done|done| |].
    - simpl. by rewrite String.eqb_refl.
    - intros id' Hne. simpl. apply String.eqb_neq. congruence. }
  destruct Hends as [A B]. split; [|exact B]. intros id'. etransitivity; [|exact (A id')].
  simpl. unfold endings. by rewrite !filter_app, (filter_cons_False _ (Removed id)), filter_nil, app_nil_r by done.
Qed.

Lemma executing_queued id id' sync s : executing id s → executing id (completeQueuedCommit id' sync s).
Proof.
  intros (c & Hc & Hst). unfold completeQueuedCommit. destruct (get_commit id' s) as [c'|] eqn:Hc'; [|by exists c].
  case_bool_decide as E; [|by exists c]. exists c. split; [|done].
  match goal with |- get_commit id (log_event _ (log_event _ (edit_commit _ ?f ?s0))) = _ =>
    change (get_commit id (edit_commit id' f s0) = Some c) end.
  rewrite get_edit. case_decide; [|done]. subst. congruence.
Qed.

Lemma accepted_good e id rest r s :
  base s → commitLane s = id :: rest → told s → executing id s → good (accepted cfg e id r s).
Proof.
  intros Hb Hl Ht Hx. pose proof (head_pushed id rest s Hb Hl) as Hp. pose proof Hx as (c & Hc & Hst).
  unfold accepted. destruct r as [sync|sync corr].
  - split; [apply told_phase, told_quiet; [done|]; apply told_set_lane; by apply told_edit_same|].
    simpl. by apply executing_edit.
  - set (s1 := edit_commit id _ s). assert (Hl1 : commitLane s1 = id :: rest) by by unfold s1; rewrite edit_lane.
    assert (Hb1 : base s1) by (unfold s1; auto with lane). rewrite Hl. cbn [tail].
    assert (Hb2 : base (set_lane rest s1)) by by apply (base_pop id).
    assert (Ht2 : told (set_lane rest s1)).
    { apply told_set_lane, told_edit; [done|]. intros c' Hc'. rewrite Hc in Hc'. injection Hc' as <-.
      split; [|by right]. unfold ending_of. simpl. by rewrite Hst. }
    destruct (corr ≫= le_echo e) as [echo|]; apply loop_good;
      auto using complete_queued_base, complete_queued_told with lane.
Qed.

Lemma sealing_unpushed id s : sealing id s = true → id ∉ pushed s.
Proof. unfold sealing. case_match; [|done]. intros Hs. by bool_simpl. Qed.

Lemma sealing_pending id s c : told s → sealing id s = true → get_commit id s = Some c → c_status c = ct_pending.
Proof.
  intros Ht Hs Hc. destruct (decide (c_status c = ct_pending)) as [|Hne]; [done|].
  by destruct (sealing_unpushed id s Hs); eapply told_pushed.
Qed.

Lemma busy_ok_mono s s' :
  phase s' = phase s → (∀ id, executing id s → executing id s') → busy_ok s → busy_ok s'.
Proof. intros E H. unfold busy_ok. rewrite E. destruct (phase s); auto. Qed.

Lemma put_new_good id c s :
  get_commit id s = None → c_status c = ct_pending → good s → good (put_commit id c s).
Proof.
  intros Hc Hnew [[A B] Hx]. split; [split|].
  - intros id'. simpl. rewrite A. unfold expected. rewrite get_put. case_decide; [subst|done].
    unfold ending_of. by rewrite Hc, Hnew.
  - intros id' c'. rewrite get_put. case_decide; [intros [= <-]; by rewrite Hnew|apply B].
  - eapply busy_ok_mono, Hx; [done|]. intros id' (c' & Hc' & Hst). exists c'. rewrite get_put.
    case_decide; [congruence|done].
Qed.

Lemma restore_loop_good e scope l s : good s → good (restore_loop e scope l s).1.
Proof.
  revert s. induction l as [|en l IH]; intros s Hg; simpl; [done|].
  case_match; [done|]. case_match; [by apply IH|]. destruct (get_commit (en_idempotencyKey en) s) eqn:Hc; simpl; [by apply IH|].
  apply IH. destruct (put_new_good _ (restored_commit en) s Hc) as [Ht Hx]; [done..|].
  split; [by apply told_push|exact Hx].
Qed.

Lemma restore_good e scope rows s : lane_ok s → good s → good (restoreDurableCommits cfg e scope rows s).
Proof.
  intros [Hb Hp] Hg. unfold restoreDurableCommits.
  assert (Hfail : ∀ s', good s' → good (fail_restore s')) by by intros s' [[] ].
  destruct (read_rows rows) as [l|]; [|by apply Hfail].
  pose proof (restore_loop_good e scope (sort_by (compare_envelopes e) l) s Hg) as H1.
  destruct (restore_loop_base e scope (sort_by (compare_envelopes e) l) s Hb (λ _, Hp)) as (H2 & _).
  destruct (_.2); [by apply Hfail|by apply process_good].
Qed.

Lemma seal_failed_good e id s :
  sealing id s = true → good s → good (lane_step cfg e s (EnqueueSealFailed id)).
Proof.
  intros Hen [Ht Hx]. pose proof (sealing_pending id s) as Hpend. pose proof Ht as [A B].
  assert (Hget : ∀ id', get_commit id' (lane_step cfg e s (EnqueueSealFailed id))
                        = if decide (id' = id) then None else get_commit id' s)
    by (intros id'; unfold get_commit; simpl; apply map_get_delete).
  split; [split|].
  - intros id'. simpl. rewrite A. unfold expected. rewrite Hget. case_decide; [subst|done].
    destruct (get_commit id s) as [c|] eqn:Hc; [|done]. unfold ending_of. by rewrite (Hpend c Ht Hen eq_refl).
  - intros id' c'. rewrite Hget. case_decide; [done|apply B].
  - eapply busy_ok_mono, Hx; [done|]. intros id' (c & Hc & Hst). exists c. rewrite Hget.
    case_decide; [subst|done]. by rewrite (Hpend c Ht Hen Hc) in Hst.
Qed.

Lemma enqueue_again_good e id s : base s → good s → good (enqueue_again cfg e id s).
Proof.
  intros Hb [Ht Hx]. unfold enqueue_again. destruct (get_commit id s) as [c|] eqn:Hc; [|done].
  set (s1 := if _ && _ then push_commit id _ else s).
  enough (base s1 ∧ good s1) as [H1 H2]
    by (destruct (get_commit id s1); [case_bool_decide; [by apply process_good|done]|done]).
  unfold s1. case_bool_decide as Hst; cbn [andb]; [|by split; [|split]]. case_bool_decide; [|by split; [|split]].
  set (s0 := set_lagged _ s). assert (Hp : id ∈ pushed s) by (eapply told_pushed; [done..|]; by rewrite Hst).
  split; [|split].
  - apply base_push; [by apply base_edit, base_lagged|]. rewrite get_edit, decide_True by done. apply fmap_is_Some. by exists c.
  - apply told_push, told_edit; [by apply told_lagged|]. intros c' Hc'. split; [|by right].
    assert (c' = c) as -> by (unfold s0, get_commit in *; simpl in *; congruence).
    unfold ending_of. simpl. by rewrite Hst.
  - apply (busy_ok_mono s); [apply (edit_phase id (with_status ct_pending) s0)| |done].
    intros id' (c' & Hc' & Hst'). exists c'. split; [|done].
    change (get_commit id' (edit_commit id (with_status ct_pending) s0) = Some c').
    rewrite get_edit. case_decide; [|done]. subst. congruence.
Qed.

Lemma step_good e s i :
  i ≠ GraceExpires → lane_ok s → lane_enabled s i = true → good s → good (lane_step cfg e s i).
Proof.
  intros Hi [Hb Hp] Hen Hg. pose proof Hg as [Ht Hx]. unfold phase_ok in Hp. unfold busy_ok in Hx.
  destruct i; simpl in Hen; try (by apply seal_failed_good); simpl; try done.
  - destruct (is_Some_b (durableReplayBlock s)); [done|]. bool_simpl. apply put_new_good; [|done..]. by destruct (get_commit id s).
  - apply process_good.
    + apply base_push; [auto with lane|]. rewrite get_edit, decide_True by done. unfold sealing in Hen.
      destruct (get_commit id s); [by eexists|done].
    + split; [by apply told_push, told_edit_same|]. apply (busy_ok_mono s); [apply (edit_phase id (with_envelope false) s)| |done].
      intros id'. by apply executing_edit.
  - by apply enqueue_again_good.
  - destruct (phase s) eqn:E; try done. destruct Hp as [rest Hl]. set (s1 := edit_commit id _ s).
    assert (Hl1 : commitLane s1 = id :: rest) by (unfold s1; by rewrite edit_lane).
    assert (Hb1 : base s1) by (unfold s1; auto with lane).
    eapply continue_good; [by apply start_dispatch_base|]. apply start_dispatch_told.
    + by apply told_edit_same.
    + by apply executing_edit.
    + by eapply head_pushed.
  - destruct (phase s) eqn:E; try done. destruct Hp as [rest Hl]. by eapply catch_good.
  - destruct (phase s) eqn:E; try done. split; [auto with lane|done].
  - destruct (phase s) eqn:E; try done. destruct Hp as [rest Hl]. by eapply catch_good.
  - destruct (phase s) eqn:E; try done. destruct Hp as [rest Hl]. by eapply accepted_good.
  - destruct (phase s) eqn:E; try done. destruct Hp as [rest Hl]. by eapply catch_good.
  - destruct (phase s) eqn:E; try done.
    + assert (id ∈ pushed s) by (destruct Hp as [before ->]; set_solver).
      apply loop_good; [|auto|done]; [apply base_log; [done|auto with lane]|].
      destruct Hx as (c & Hc & Hst). eapply told_end; try done; [by apply executing_ends| |].
      * simpl. by rewrite String.eqb_refl.
      * intros id' Hne. simpl. apply String.eqb_neq. congruence.
    + destruct Hp as [rest Hl]. by eapply settled_good.
  - apply process_good; [auto with lane|]. by split; [auto with lane|].
  - split; [by apply complete_queued_told|]. destruct (complete_queued_fields id syncId s) as (_ & E & _).
    apply (busy_ok_mono s); [done| |done]. intros id'. apply executing_queued.
  - destruct (get_commit id s); [|done]. case_bool_decide; [|done]. split; [auto with lane|exact Hx].
  - split; [auto with lane|exact Hx].
  - by apply restore_good.
Qed.

Lemma reach_good l s : lane_reach cfg l s → GraceExpires ∉ l → good s.
Proof.
  induction 1 as [|l s e i Hr IH Hen]; intros Hno.
  - split; [|done]. split; [done|]. by intros id c.
  - apply not_elem_of_app in Hno as [H1 H2]. apply step_good; auto; [set_solver|by eapply reach_ok].
Qed.
End Told.

(** ** The theorems *)

(** C10: whatever the answers, timers and offline graces, the lane sends commits in the
    order in which they were pushed: with the immediate resends of one commit counted
    once, the dispatches form a subsequence of the pushes. While the loop waits for
    a seal, a dispatch, an acceptance or the removal of a rejected record, that
    commit is the head of the lane; while it waits for the removal of a confirmed
    record, that commit is the one that was pushed just before all the lane still
    holds. And when the loop is idle with commits left, a retry timer is armed,
    durable replay is blocked or a restore was rejected: those are the only reasons
    for commits to wait. *)
Theorem commits_go_out_in_order cfg l s (Hr : lane_reach cfg l s) :
  sublist (collapse (dispatches (events s))) (pushed s)
  ∧ match phase s with
    | Idle => commitLane s = [] ∨ is_Some (commitRetryTimer s)
    ∨ is_Some (durableReplayBlock s) ∨ restoreFailed s = true
    | Cleaning id _ => ∃ before, pushed s = before ++ id :: commitLane s
    | Sealing id | Dispatching id | Accepting id _ | Dropping id _ => head (commitLane s) = Some id
    end.
Proof.
  destruct (reach_ok cfg l s Hr) as [[_ (popped & Hp & Ho)] Hph]. split.
  - rewrite Hp. destruct Ho as [Hs|(h & rest & d & -> & _ & -> & Hs)]; [by apply sublist_inserts_r|].
    apply sublist_app; [done|]. apply sublist_skip, sublist_nil_l.
  - unfold phase_ok in Hph. destruct (phase s); try done; by destruct Hph as [rest ->].
Qed.

(** In a run in which no offline grace expires, the endings told of a commit are
    exactly those its status calls for: one completion when it is completed, one
    failure when it failed, nothing before. So a caller is never told twice, and
    never told of a completion and a failure of the same commit. *)
Theorem commit_ends_once cfg l s id (Hr : lane_reach cfg l s) (Hg : GraceExpires ∉ l) :
  endings id (events s)
  = match get_commit id s with
    | Some c => match c_status c with
                | ct_completed => [Completed id]
                | ct_failed => [Failed id]
                | ct_pending | ct_executing | ct_awaiting_delta => []
                end
    | None => []
    end.
Proof. destruct (reach_good cfg l s Hr Hg) as [[A _] _]. apply A. Qed.

(** ** Concrete runs *)

Definition still : lane_env := mkLaneEnv 0 0 (λ _, None) (λ _ _, 0).
Definition run_inputs (cfg : retry_config) (l : list lane_input) : lane :=
  foldl (lane_step cfg still) new_lane l.
Fixpoint inputs_enabled (cfg : retry_config) (s : lane) (l : list lane_input) : bool :=
  match l with
  | [] => true
  | i :: l => lane_enabled s i && inputs_enabled cfg (lane_step cfg still s i) l
  end.

Lemma run_reach_from cfg l0 s l :
  lane_reach cfg l0 s → inputs_enabled cfg s l = true →
  lane_reach cfg (l0 ++ l) (foldl (lane_step cfg still) s l).
Proof.
  revert l0 s. induction l as [|i l IH]; intros l0 s Hr Hen; simpl in *; [by rewrite app_nil_r|].
  apply andb_true_iff in Hen as [H1 H2]. rewrite (app_assoc l0 [i] l : l0 ++ i :: l = _).
  apply IH; [|done]. by apply lane_next.
Qed.

Lemma run_reach cfg l : inputs_enabled cfg new_lane l = true → lane_reach cfg l (run_inputs cfg l).
Proof. apply (run_reach_from cfg [] new_lane l). constructor. Qed.

(** Two commits; the first is refused once by the network and sent again before the
    second, which the server queues and the source confirms. *)
Definition two_commits : list lane_input :=
  [EnqueueNew "a"; EnqueueSealed "a"; EnqueueNew "b"; EnqueueSealed "b";
   DispatchErr (mkCaught AbloConnectionError None "offline" None 0); RetryFires;
   DispatchOk (Confirmed 7); AcceptOk; RemoveDone;
   DispatchOk (Queued 8 (Some "r")); AcceptOk; SourceConfirmed "b" 9].

Lemma commits_go_out_in_order_witness :
  let s := run_inputs default_config two_commits in
  dispatches (events s) = ["a"; "a"; "b"] ∧ sublist (collapse (dispatches (events s))) (pushed s).
Proof.
  split; [by vm_compute|].
  apply (commits_go_out_in_order default_config two_commits). by apply run_reach; vm_compute.
Defined.

Lemma commit_ends_once_witness :
  endings "b" (events (run_inputs default_config two_commits)) = [Completed "b"].
Proof.
  rewrite (commit_ends_once default_config two_commits).
  - by vm_compute.
  - by apply run_reach; vm_compute.
  - intros Hin. repeat (apply elem_of_cons in Hin as [?|Hin]; [discriminate|]). by apply elem_of_nil in Hin.
Defined.

(** The offline grace reports a commit as failed, and the lane may still send it
    afterwards and complete it: the connection error of the dispatch that was in
    flight puts the commit back to pending, and the retry timer resends it. *)
Theorem offline_grace_resends :
  ∃ l s, lane_reach default_config l s
    ∧ endings "a" (events s) = [GraceFailed "a"; Completed "a"]
    ∧ dispatches (events s) = ["a"; "a"] ∧ c_status <$> get_commit "a" s = Some ct_completed.
Proof.
  set (l := [EnqueueNew "a"; EnqueueSealed "a"; GraceExpires;
             DispatchErr (mkCaught AbloConnectionError None "offline" None 0); RetryFires;
             DispatchOk (Confirmed 7); AcceptOk; RemoveDone]).
  exists l, (run_inputs default_config l). split; [by apply run_reach; vm_compute|]. by vm_compute.
Qed.
