(* ===== verification/DeltaStore.v ===== *)
(** * Deltas in the local store

    The delta writes of [packages/humans/src/local/Database.ts] with
    [sync/persistedPrefix.ts]: compaction, the batch over memory stores and the batch
    over IndexedDB transactions, and the cursor each of them returns. A store maps the
    id of a row to its record; ids are strings. What IndexedDB and the server answer
    during a batch is an argument; nothing else writes the stores meanwhile. *)
From S2P Require Import Prelude JsData Json.
#[local] Open Scope string_scope.
#[local] Open Scope list_scope.
#[local] Open Scope Z_scope.

(** ** Data *)

Inductive SyncDeltaAction := ActI | ActU | ActD | ActA | ActV | ActC | ActG | ActS.
#[export] Instance action_eq_dec : EqDecision SyncDeltaAction.
Proof. solve_decision. Defined.

Record SyncDelta := mkSyncDelta {
  dl_syncId : option Z;
  dl_action : SyncDeltaAction;
  dl_model : string;
  dl_id : string;
  dl_data : option fields;
  dl_tx : option string;
}.

Inductive change_action := ChAdd | ChUpdate | ChRemove | ChArchive | ChVerify.
#[export] Instance change_eq_dec : EqDecision change_action.
Proof. solve_decision. Defined.

Record AppliedChange := mkChange {
  ch_action : change_action;
  ch_model : string;
  ch_id : string;
  ch_data : option fields;
  ch_tx : option string;
  ch_syncId : option Z;
}.

Definition change (a : change_action) (d : SyncDelta) (data : option fields) (tx : option string) : AppliedChange :=
  mkChange a (dl_model d) (dl_id d) data tx None.

(** [stampSyncIds]; a result the batch left out stays left out. *)
Fixpoint stampSyncIds (results : list (option AppliedChange)) (deltas : list SyncDelta) : list (option AppliedChange) :=
  match results, deltas with
  | r :: results, d :: deltas =>
      match r, dl_syncId d with
      | Some c, Some n => Some (mkChange (ch_action c) (ch_model c) (ch_id c) (ch_data c) (ch_tx c) (Some n))
      | _, _ => r
      end :: stampSyncIds results deltas
  | _, _ => results
  end.

(** ** Compaction *)

(** A value used as a condition. *)
Definition truthy (v : json) : bool :=
  match v with JUndefined | JNull | JBool false | JNum 0 | JStr EmptyString => false | _ => true end.

Definition is_marker (key : string) : bool := bool_decide (key ∈ ["__typename"; "__class"; "clientId"; "syncStatus"]).

Definition dropped (key : string) (v : json) : bool :=
  is_marker key || match v with JUndefined | JArr [] | JObj [] => true | _ => false end.

Definition compactAssign (out : fields) (p : string * json) : fields :=
  if dropped p.1 p.2 then out else map_set p.1 p.2 out.

(** [if (!out.id && id) out.id = id], where [id] may be missing. *)
Definition ensure_id (id : option json) (out : fields) : fields :=
  if truthy (default JUndefined (map_get "id" out)) then out
  else match id with Some v => if truthy v then map_set "id" v out else out | None => out end.

Definition compactRecord (data : fields) : fields := ensure_id (map_get "id" data) (foldl compactAssign [] data).

Definition compactDeltaRecord (modelId : string) (data out : fields) : fields :=
  let idValue := default (JStr modelId) (map_get "id" data) in
  ensure_id (Some idValue) (foldl compactAssign (compactAssign out ("id", idValue)) (map_delete "id" data)).

(** [{ id: modelId, ...data }] *)
Definition with_id (modelId : string) (data : fields) : fields := spread [("id", JStr modelId)] data.

(** ** Stores *)

Definition row_store := gmap string fields.

Record database := mkDatabase {
  db_stores : gmap string row_store;
  db_lastSyncId : Z;
  db_open : bool;
}.

Definition record_id (r : fields) : option string :=
  match map_get "id" r with Some (JStr s) => Some s | _ => None end.

(** [InMemoryObjectStore.putSync] does nothing without an id; [IDBObjectStore.put]
    throws where the key path yields none. *)
Definition putSync (r : fields) (st : row_store) : row_store :=
  match record_id r with Some s => if String.eqb s "" then st else <[s := r]> st | None => st end.

Definition idb_put (r : option fields) (st : row_store) : option row_store :=
  r ← r; s ← record_id r; Some (<[s := r]> st).

(** ** One batch in memory *)

Definition archive_record (now : Z) (data : fields) : fields := compactRecord (map_set "archivedAt" (JDate now) data).

(** The write of one delta to its store, and the change it answers with. *)
Definition memory_write (now : Z) (d : SyncDelta) (st : row_store) : row_store * AppliedChange :=
  match dl_action d with
  | ActC | ActI =>
      let compacted := (λ data, compactDeltaRecord (dl_id d) data []) <$> dl_data d in
      (match compacted with Some r => putSync r st | None => st end, change ChAdd d compacted (dl_tx d))
  | ActU =>
      match st !! dl_id d with
      | None => (st, change ChVerify d None (dl_tx d))
      | Some existing =>
          let merged := match dl_data d with Some data => compactDeltaRecord (dl_id d) data existing | None => existing end in
          (putSync merged st, change ChUpdate d (Some merged) (dl_tx d))
      end
  | ActD => (delete (dl_id d) st, change ChRemove d None (dl_tx d))
  | ActA =>
      let r := compactRecord (map_set "archivedAt" (JDate now) (map_set "id" (JStr (dl_id d)) (default [] (dl_data d)))) in
      (putSync r st, change ChArchive d (Some r) (dl_tx d))
  | ActV | ActG | ActS => (st, change ChVerify d (dl_data d) (dl_tx d))
  end.

(** Already applied, by the cursor the batch started with. *)
Definition old_delta (lastApplied : Z) (d : SyncDelta) : bool :=
  match dl_syncId d with Some n => n <=? lastApplied | None => false end.

Definition memory_step (now lastApplied : Z) (s : gmap string row_store * list AppliedChange) (d : SyncDelta)
    : gmap string row_store * list AppliedChange :=
  match s.1 !! dl_model d with
  | Some st =>
      if old_delta lastApplied d then (s.1, s.2 ++ [change ChVerify d None (dl_tx d)])
      else let '(st, c) := memory_write now d st in (<[dl_model d := st]> s.1, s.2 ++ [c])
  | None => (s.1, s.2 ++ [change ChVerify d None (dl_tx d)])
  end.

Fixpoint memory_persisted (results : list AppliedChange) (deltas : list SyncDelta) : Z :=
  match results, deltas with
  | c :: results, d :: deltas =>
      let rest := memory_persisted results deltas in
      if bool_decide (ch_action c = ChVerify) then rest
      else match dl_syncId d with Some n => Z.max n rest | None => rest end
  | _, _ => 0
  end.

Definition process_in_memory (now : Z) (db : database) (deltas : list SyncDelta) : database * list (option AppliedChange) * Z :=
  if negb (db_open db) || (length deltas =? 0)%nat then (db, [], 0)
  else
    let '(stores, results) := foldl (memory_step now (db_lastSyncId db)) (db_stores db, []) deltas in
    let n := memory_persisted results deltas in
    (mkDatabase stores (if 0 <? n then n else db_lastSyncId db) (db_open db), stampSyncIds (Some <$> results) deltas, n).

(** ** One batch over IndexedDB *)

(** What a batch meets: whether the read of a row fails, what the server has of a row
    ([None] where the request fails, [Some None] where there is none), whether the
    database was closed by the time a store is written, whether its transaction aborts,
    and whether the cursor cannot be written. *)
Record idb_world := mkWorld {
  read_fails : string → string → bool;
  fetchEntity : string → string → option (option fields);
  closed_before : string → bool;
  tx_aborts : string → bool;
  metadata_fails : bool;
}.

Definition row_key (d : SyncDelta) : string := (dl_model d ++ ":" ++ dl_id d)%string.

Definition delete_index (deltas : list SyncDelta) : list (string * Z) :=
  foldl (λ m d, match dl_action d, dl_syncId d with
                | ActD, Some n =>
                    if n =? 0 then m
                    else match map_get (row_key d) m with
                         | Some existing => if (existing =? 0) || (existing <? n) then map_set (row_key d) n m else m
                         | None => map_set (row_key d) n m
                         end
                | _, _ => m
                end) [] deltas.

Definition creates_or_updates (a : SyncDeltaAction) : bool := match a with ActU | ActI | ActC => true | _ => false end.

(** A delete of the row in the same batch supersedes the delta. *)
Definition delete_wins (deletes : list (string * Z)) (d : SyncDelta) : bool :=
  creates_or_updates (dl_action d)
  && match map_get (row_key d) deletes with Some n => default 0 (dl_syncId d) <=? n | None => false end.

Inductive routed := Superseded | NoStore | ToStore.
#[export] Instance routed_eq_dec : EqDecision routed.
Proof. solve_decision. Defined.

Definition route (db : database) (deletes : list (string * Z)) (d : SyncDelta) : routed :=
  if delete_wins deletes d then Superseded else if db_stores db !! dl_model d then ToStore else NoStore.

Definition numbered (deltas : list SyncDelta) : list (nat * SyncDelta) := imap (λ i d, (i, d)) deltas.

(** [deltasByStore], in the order the stores first appear. *)
Definition group_by_store (l : list (nat * SyncDelta)) : list (string * list (nat * SyncDelta)) :=
  foldl (λ m p, map_set (dl_model p.2) (default [] (map_get (dl_model p.2) m) ++ [p]) m) [] l.

(** The record an update merges onto: read before the transaction, or fetched. *)
Definition existing_record (w : idb_world) (modelName : string) (st : row_store) (id : string) : option fields :=
  match (if read_fails w modelName id then None else st !! id) with
  | Some r => Some r
  | None => match fetchEntity w modelName id with Some (Some r) => Some (compactRecord r) | _ => None end
  end.

(** The puts of one transaction, up to the one that throws; results are staged. *)
Definition idb_write (now : Z) (existing : string → option fields) (d : SyncDelta) (st : row_store)
    : option (row_store * option AppliedChange) :=
  let compacted := (λ data, compactRecord (with_id (dl_id d) data)) <$> dl_data d in
  match dl_action d with
  | ActC | ActI => st ← idb_put compacted st; Some (st, Some (change ChAdd d compacted (dl_tx d)))
  | ActU =>
      match existing (dl_id d) with
      | None => Some (st, Some (change ChVerify d None (dl_tx d)))
      | Some r =>
          let merged := spread r (default [] compacted) in
          st ← idb_put (Some merged) st; Some (st, Some (change ChUpdate d (Some merged) (dl_tx d)))
      end
  | ActD => Some (delete (dl_id d) st, Some (change ChRemove d None (dl_tx d)))
  | ActA =>
      let r := archive_record now (default [] (dl_data d)) in
      st ← idb_put (Some r) st; Some (st, Some (change ChArchive d (Some r) (dl_tx d)))
  | ActV => Some (st, Some (change ChVerify d (dl_data d) (dl_tx d)))
  | ActG | ActS => Some (st, None)
  end.

(** The store after the transaction, and its staged results; [None] where a put threw,
    after which the transaction still commits what it was given. *)
Fixpoint tx_loop (now : Z) (existing : string → option fields) (l : list (nat * SyncDelta)) (st : row_store)
    (staged : list (nat * AppliedChange)) : row_store * option (list (nat * AppliedChange)) :=
  match l with
  | [] => (st, Some staged)
  | (i, d) :: l =>
      match idb_write now existing d st with
      | None => (st, None)
      | Some (st, r) => tx_loop now existing l st (staged ++ option_list ((λ c, (i, c)) <$> r))
      end
  end.

(** The results by index, and the indexes that were persisted. *)
Record batch_state := mkBatch {
  bs_stores : gmap string row_store;
  bs_results : list (nat * AppliedChange);
  bs_persisted : list nat;
}.

Definition verify_all (l : list (nat * SyncDelta)) : list (nat * AppliedChange) :=
  (λ p, (p.1, change ChVerify p.2 None None)) <$> l.

Definition process_store (now : Z) (w : idb_world) (s : batch_state) (g : string * list (nat * SyncDelta)) : batch_state :=
  let '(modelName, l) := g in
  match bs_stores s !! modelName with
  | None => s
  | Some st =>
      if closed_before w modelName then mkBatch (bs_stores s) (bs_results s ++ verify_all l) (bs_persisted s)
      else
        let '(st', staged) := tx_loop now (existing_record w modelName st) l st [] in
        let stores := if tx_aborts w modelName then bs_stores s else <[modelName := st']> (bs_stores s) in
        match staged with
        | Some staged =>
            if tx_aborts w modelName then mkBatch stores (bs_results s ++ verify_all l) (bs_persisted s)
            else mkBatch stores (bs_results s ++ staged) (bs_persisted s ++ staged.*1)
        | None => mkBatch stores (bs_results s ++ verify_all l) (bs_persisted s)
        end
  end.

(** [highestPersistedPrefixSyncId] *)
Fixpoint prefix_from (through : Z) (i : nat) (deltas : list SyncDelta) (persisted : list nat) : Z :=
  match deltas with
  | [] => through
  | d :: deltas =>
      if bool_decide (i ∈ persisted)
      then prefix_from (match dl_syncId d with Some n => if through <? n then n else through | None => through end) (S i) deltas persisted
      else through
  end.
Definition highestPersistedPrefixSyncId (deltas : list SyncDelta) (persisted : list nat) : Z := prefix_from 0 0 deltas persisted.

Definition process_idb (now : Z) (w : idb_world) (db : database) (deltas : list SyncDelta)
    : database * list (option AppliedChange) * Z :=
  if negb (db_open db) || (length deltas =? 0)%nat then (db, [], 0)
  else
    let deletes := delete_index deltas in
    let to r := base.filter (λ p, route db deletes p.2 = r) (numbered deltas) in
    let s := mkBatch (db_stores db) (verify_all (to Superseded) ++ verify_all (to NoStore)) (to Superseded).*1 in
    let s := foldl (process_store now w) s (group_by_store (to ToStore)) in
    let n := highestPersistedPrefixSyncId deltas (bs_persisted s) in
    (mkDatabase (bs_stores s) (if (0 <? n) && negb (metadata_fails w) then n else db_lastSyncId db) (db_open db),
     stampSyncIds (imap (λ i _, map_get i (bs_results s)) deltas) deltas, n).
