(* ===== verification/DeltaStoreFacts.v ===== *)
(** * One batch, written two ways

    The batch over memory stores and the batch over IndexedDB ([DeltaStore.v]): both do
    the same to a batch of distinct rows; the cursor of the second one stops before the
    first delta that was not written. *)
From S2P Require Import Prelude JsData Json DeltaStore.
#[local] Open Scope string_scope.
#[local] Open Scope list_scope.
#[local] Open Scope Z_scope.

(** ** Compaction *)

Definition kept_entries (data : fields) : fields := base.filter (λ p, dropped p.1 p.2 = false) data.

Lemma assign_spread data out : foldl compactAssign out data = spread out (kept_entries data).
Proof.
  unfold spread, kept_entries. revert out. induction data as [|[k v] data IH]; intros out; [done|]. rewrite filter_cons. cbn [foldl].
  unfold compactAssign at 2. cbn [fst snd]. destruct (dropped k v) eqn:E; [by rewrite decide_False|]. rewrite decide_True by done. apply IH.
Qed.

Lemma kept_entries_keys data : NoDup data.*1 → NoDup (kept_entries data).*1.
Proof.
  unfold kept_entries. induction data as [|[k v] data IH]; [done|]. rewrite fmap_cons. intros [Hk Hn]%NoDup_cons. rewrite filter_cons.
  case_decide; [|auto]. rewrite fmap_cons. apply NoDup_cons. split; [|auto].
  intros (p & Hp & [_ Hin]%list_elem_of_filter)%list_elem_of_fmap. apply Hk. rewrite Hp. by apply list_elem_of_fmap_2.
Qed.

Lemma spread_fresh (l : fields) : NoDup l.*1 → spread [] l = l.
Proof.
  assert (Hgo : ∀ l acc : fields, NoDup (acc ++ l).*1 → spread acc l = acc ++ l).
  { unfold spread. clear. induction l as [|[k v] l IH]; intros acc Hn; [by rewrite app_nil_r|]. cbn [foldl fst snd].
    rewrite map_set_fresh, IH; [by rewrite <- app_assoc|by rewrite <- app_assoc|].
    rewrite fmap_app, fmap_cons in Hn. apply NoDup_app in Hn as (_ & Hd & _). intros Hin. apply (Hd k Hin). left. }
  intros Hn. by apply (Hgo l []).
Qed.

Lemma spread_elem (l : fields) out p : p ∈ spread out l → p ∈ out ∨ p ∈ l.
Proof.
  unfold spread. revert out. induction l as [|[k v] l IH]; intros out; [by left|]. cbn [foldl fst snd]. intros [Hin|Hin]%IH.
  - destruct p as [k' v']. apply map_set_elem in Hin as [[= -> ->]|Hin]; [right; left|by left].
  - right. by right.
Qed.

Lemma delete_fresh (k : string) (data : fields) : k ∉ data.*1 → map_delete k data = data.
Proof.
  unfold map_delete. induction data as [|[k' v] data IH]; [done|]. rewrite fmap_cons. cbn [fst]. intros [Hk Hn]%not_elem_of_cons.
  rewrite filter_cons. cbn [fst]. rewrite decide_True by done. by rewrite IH.
Qed.

Lemma delete_keys_ok (k : string) (data : fields) : NoDup data.*1 → NoDup (map_delete k data).*1.
Proof. intros Hn. rewrite map_delete_keys. by apply NoDup_filter. Qed.

(** The object with the id of the envelope first. *)
Lemma with_id_eq id data :
  NoDup data.*1 → with_id id data = ("id", default (JStr id) (map_get "id" data)) :: map_delete "id" data.
Proof.
  unfold with_id. assert (Hgo : ∀ (data : fields) v rest, NoDup data.*1 → NoDup (rest : fields).*1 → "id" ∉ rest.*1 → (∀ k, k ∈ rest.*1 → k ∉ data.*1) →
    spread (("id", v) :: rest) data = ("id", default v (map_get "id" data)) :: rest ++ map_delete "id" data).
  { clear. unfold spread, map_delete. induction data as [|[k x] data IH]; intros v rest Hn Hr Hid Hd; [by rewrite app_nil_r|].
    rewrite fmap_cons in Hn. apply NoDup_cons in Hn as [Hk Hn]. cbn [fst] in Hk. cbn [foldl fst snd map_set map_get]. rewrite filter_cons. cbn [fst].
    destruct (decide (k = "id")) as [->|Hne].
    - rewrite (decide_True (P := "id" = "id")) by done. rewrite (decide_False (P := "id" ≠ "id")) by (intros Hx; by apply Hx). rewrite IH.
      + by rewrite (proj2 (map_get_None "id" data)).
      + done. + done. + done.
      + intros k' Hk'. specialize (Hd k' Hk'). rewrite fmap_cons in Hd. by apply not_elem_of_cons in Hd as [_ ?].
    - rewrite (decide_False (P := "id" = k)) by done. rewrite decide_True by done.
      assert (Hkr : k ∉ rest.*1) by (intros Hin; apply (Hd k Hin); left).
      rewrite map_set_fresh by done. rewrite IH.
      + by rewrite <- app_assoc.
      + done.
      + rewrite fmap_app. apply NoDup_app. split_and!; [done| |apply NoDup_singleton]. by intros y Hy ->%list_elem_of_singleton.
      + rewrite fmap_app. intros [?|Hx%list_elem_of_singleton]%elem_of_app; done.
      + rewrite fmap_app. intros k' [Hk'| ->%list_elem_of_singleton]%elem_of_app; [|done].
        specialize (Hd k' Hk'). rewrite fmap_cons in Hd. by apply not_elem_of_cons in Hd as [_ ?]. }
  intros Hn. rewrite (Hgo data (JStr id) []); [done|done|constructor|apply not_elem_of_nil|by intros k ?%elem_of_nil].
Qed.

(** A payload compacted into a fresh record is the compacted object with its id. *)
Lemma compact_delta_fresh id data : NoDup data.*1 → compactDeltaRecord id data [] = compactRecord (with_id id data).
Proof.
  intros Hn. unfold compactRecord. rewrite with_id_eq by done. cbn [map_get foldl]. by rewrite (decide_True (P := "id" = "id")).
Qed.

Definition id_ok (id : string) (data : fields) : Prop := NoDup data.*1 ∧ default (JStr id) (map_get "id" data) = JStr id.

Lemma truthy_id id : id ≠ "" → truthy (JStr id) = true.
Proof. by destruct id. Qed.

(** The compacted payload is its kept entries, id first. *)
Lemma compact_with_id id data :
  id ≠ "" → id_ok id data → compactRecord (with_id id data) = ("id", JStr id) :: kept_entries (map_delete "id" data).
Proof.
  intros Hne [Hn Hid]. unfold compactRecord. rewrite with_id_eq by done. rewrite Hid, assign_spread, spread_fresh.
  - unfold kept_entries. rewrite filter_cons. cbn [fst snd]. rewrite decide_True by done. unfold ensure_id. cbn [map_get].
    rewrite (decide_True (P := "id" = "id")) by done. simpl default. by rewrite truthy_id.
  - apply kept_entries_keys. rewrite fmap_cons. apply NoDup_cons. split; [|by apply delete_keys_ok].
    rewrite map_delete_keys. by intros [? _]%list_elem_of_filter.
Qed.

(** Compacting onto a record is merging the compacted payload into it. *)
Lemma compact_merge id data existing :
  id ≠ "" → id_ok id data → record_id existing = Some id →
  compactDeltaRecord id data existing = spread existing (compactRecord (with_id id data)).
Proof.
  intros Hne Hok Hex. rewrite compact_with_id by done. destruct Hok as [Hn Hid]. unfold compactDeltaRecord. rewrite Hid, assign_spread.
  assert (Hdrop : dropped "id" (JStr id) = false) by done. unfold compactAssign. cbn [fst snd]. rewrite Hdrop.
  change (spread existing (("id", JStr id) :: kept_entries (map_delete "id" data)))
    with (spread (map_set "id" (JStr id) existing) (kept_entries (map_delete "id" data))).
  unfold ensure_id. rewrite spread_get by (by apply kept_entries_keys, delete_keys_ok).
  rewrite (proj2 (map_get_None "id" _)).
  - rewrite map_get_set, decide_True by done. by destruct id.
  - intros ([k v] & Hk & [_ Hin]%list_elem_of_filter)%list_elem_of_fmap. cbn [fst] in Hk. subst k.
    unfold map_delete in Hin. apply list_elem_of_filter in Hin as [Hx _]. by apply Hx.
Qed.

Lemma record_id_cons id (l : fields) : record_id (("id", JStr id) :: l) = Some id.
Proof. unfold record_id. cbn [map_get]. by rewrite (decide_True (P := "id" = "id")). Qed.

Lemma record_id_merge id data existing :
  id ≠ "" → id_ok id data → record_id (spread existing (compactRecord (with_id id data))) = Some id.
Proof.
  intros Hne Hok. rewrite compact_with_id by done. unfold record_id. rewrite spread_get.
  - cbn [map_get]. by rewrite (decide_True (P := "id" = "id")).
  - rewrite <- compact_with_id by done. destruct Hok as [Hn Hid]. rewrite compact_with_id by done. rewrite fmap_cons. apply NoDup_cons.
    split; [|by apply kept_entries_keys, delete_keys_ok].
    intros ([k v] & Hk & [_ Hin]%list_elem_of_filter)%list_elem_of_fmap. cbn [fst] in Hk. subst k.
    unfold map_delete in Hin. apply list_elem_of_filter in Hin as [Hx _]. by apply Hx.
Qed.

Lemma kept_get k data :
  NoDup data.*1 → map_get k (kept_entries data) = (v ← map_get k data; if dropped k v then None else Some v).
Proof.
  unfold kept_entries. induction data as [|[k' v] data IH]; [done|]. rewrite fmap_cons. intros [Hk Hn]%NoDup_cons. rewrite filter_cons. cbn [map_get fst snd].
  specialize (IH Hn). destruct (decide (k = k')) as [->|Hne].
  - cbn [mbind option_bind]. destruct (dropped k' v) eqn:E.
    + rewrite decide_False by done. rewrite IH. by rewrite (proj2 (map_get_None k' data)).
    + rewrite decide_True by done. cbn [map_get]. by rewrite decide_True.
  - destruct (dropped k' v); [by rewrite decide_False|]. rewrite decide_True by done. cbn [map_get]. by rewrite decide_False.
Qed.

Lemma compact_record_id data id : id ≠ "" → NoDup data.*1 → map_get "id" data = Some (JStr id) → record_id (compactRecord data) = Some id.
Proof.
  intros Hne Hn Hid. unfold record_id, compactRecord, ensure_id. rewrite assign_spread, spread_fresh by (by apply kept_entries_keys).
  rewrite kept_get, Hid by done. cbn [mbind option_bind]. assert (dropped "id" (JStr id) = false) as -> by done.
  assert (truthy (default JUndefined (Some (JStr id))) = true) as -> by (by destruct id). rewrite kept_get, Hid by done. done.
Qed.

Lemma map_set_same {V} (k : string) (v : V) m : map_get k m = Some v → map_set k v m = m.
Proof. induction m as [|[k' v'] m IH]; [done|]. cbn [map_get map_set]. case_decide; [by intros [= ->]; subst|]. intros Hg. by rewrite IH. Qed.

(** ** Writes of distinct rows *)

Definition row_of (d : SyncDelta) : string * string := (dl_model d, dl_id d).
Definition row_at (s : gmap string row_store) (k : string * string) : option fields := s !! k.1 ≫= (.!! k.2).

(** What a delta makes of the record it finds, and the change it answers with. *)
Definition row_effect (now : Z) (d : SyncDelta) (old : option fields) : option fields * AppliedChange :=
  let compacted := (λ data, compactRecord (with_id (dl_id d) data)) <$> dl_data d in
  match dl_action d with
  | ActC | ActI => (compacted, change ChAdd d compacted (dl_tx d))
  | ActU => let r := spread (default [] old) (default [] compacted) in (Some r, change ChUpdate d (Some r) (dl_tx d))
  | ActD => (None, change ChRemove d None (dl_tx d))
  | ActA => let r := archive_record now (default [] (dl_data d)) in (Some r, change ChArchive d (Some r) (dl_tx d))
  | ActV | ActG | ActS => (old, change ChVerify d (dl_data d) (dl_tx d))
  end.

Notation row_write := ((string * string) * option fields)%type.
Definition put_in (st : row_store) (w : row_write) : row_store := partial_alter (λ _, w.2) w.1.2 st.
Definition put_row (s : gmap string row_store) (w : row_write) : gmap string row_store := alter (λ st, put_in st w) w.1.1 s.

Definition write_of (now : Z) (s : gmap string row_store) (d : SyncDelta) : row_write := (row_of d, (row_effect now d (row_at s (row_of d))).1).
Definition answer_of (now : Z) (s : gmap string row_store) (d : SyncDelta) : AppliedChange := (row_effect now d (row_at s (row_of d))).2.

Lemma put_row_at s w k : k ≠ w.1 → row_at (put_row s w) k = row_at s k.
Proof.
  intros Hk. destruct w as [[m id] v], k as [m' id']. unfold row_at, put_row, put_in. cbn [fst snd] in *.
  destruct (decide (m = m')) as [<-|Hm]; [|by rewrite lookup_alter_ne]. rewrite lookup_alter_eq. destruct (s !! m) as [st|]; [|done].
  simpl. apply lookup_partial_alter_ne. congruence.
Qed.

Lemma put_row_dom s w m : is_Some (put_row s w !! m) ↔ is_Some (s !! m).
Proof. unfold put_row. apply lookup_alter_is_Some. Qed.

Lemma put_row_comm s w w' : w.1 ≠ w'.1 → put_row (put_row s w) w' = put_row (put_row s w') w.
Proof.
  intros Hk. destruct w as [[m id] v], w' as [[m' id'] v']. unfold put_row, put_in. cbn [fst snd] in *.
  destruct (decide (m = m')) as [<-|Hm].
  - apply map_eq. intros n. destruct (decide (m = n)) as [<-|Hn]; [|by rewrite !lookup_alter_ne].
    rewrite !lookup_alter_eq. destruct (s !! m) as [st|]; [|done]. simpl. f_equal. apply partial_alter_partial_alter_ne. congruence.
  - unfold alter, map_alter. by apply partial_alter_partial_alter_ne.
Qed.

Lemma put_rows_perm s ws ws' : NoDup ws.*1 → ws ≡ₚ ws' → foldl put_row s ws = foldl put_row s ws'.
Proof.
  intros Hn Hp. revert s. induction Hp as [|w ws ws' Hp IH|w w' ws|ws1 ws2 ws3 H1 IH1 H2 IH2]; intros s; [done| | |].
  - rewrite fmap_cons in Hn. apply NoDup_cons in Hn as [_ Hn]. by apply IH.
  - cbn [foldl]. rewrite put_row_comm; [done|]. rewrite !fmap_cons in Hn. apply NoDup_cons in Hn as [Hw _]. intros E. apply Hw. rewrite E. left.
  - rewrite IH1 by done. apply IH2. by rewrite <- H1.
Qed.

Lemma put_rows_in s m st ws :
  s !! m = Some st → Forall (λ w : row_write, w.1.1 = m) ws → foldl put_row s ws = <[m := foldl put_in st ws]> s.
Proof.
  intros Hs Hws. revert s st Hs. induction Hws as [|w ws Hw Hws IH]; intros s st Hs; [by rewrite insert_id|]. cbn [foldl].
  assert (Hp : put_row s w = <[m := put_in st w]> s).
  { unfold put_row. rewrite Hw. apply map_eq. intros n. destruct (decide (m = n)) as [<-|Hn];
      [rewrite lookup_alter_eq, lookup_insert_eq; by rewrite Hs|by rewrite lookup_alter_ne, lookup_insert_ne]. }
  rewrite (IH _ (put_in st w)); [|by rewrite Hp, lookup_insert_eq]. rewrite Hp. by rewrite insert_insert_eq.
Qed.

(** A delta whose row, id and data are as the server sends them. *)
Definition delta_ok (lastApplied : Z) (s : gmap string row_store) (d : SyncDelta) : Prop :=
  is_Some (s !! dl_model d) ∧ dl_id d ≠ "" ∧ (∃ n, dl_syncId d = Some n ∧ lastApplied < n)
  ∧ match dl_action d with
    | ActI | ActC => ∃ data, dl_data d = Some data ∧ id_ok (dl_id d) data
    | ActU => (∃ r, row_at s (row_of d) = Some r ∧ record_id r = Some (dl_id d)) ∧ ∀ data, dl_data d = Some data → id_ok (dl_id d) data
    | ActD => True
    | ActA => ∃ data, dl_data d = Some data ∧ NoDup data.*1 ∧ map_get "id" data = Some (JStr (dl_id d))
    | ActV | ActG | ActS => False
    end.

Lemma delta_ok_frame last s w d : w.1 ≠ row_of d → delta_ok last s d → delta_ok last (put_row s w) d.
Proof.
  intros Hw (H1 & H2 & H3 & H4). split_and!; [by apply put_row_dom|done|done|].
  destruct (dl_action d); try done. rewrite put_row_at by done. done.
Qed.

Lemma write_of_frame now s w d : w.1 ≠ row_of d → write_of now (put_row s w) d = write_of now s d ∧ answer_of now (put_row s w) d = answer_of now s d.
Proof. intros Hw. unfold write_of, answer_of. by rewrite put_row_at. Qed.

Lemma put_sync_in r id st m : record_id r = Some id → id ≠ "" → putSync r st = put_in st ((m, id), Some r).
Proof. intros Hr Hid. unfold putSync. rewrite Hr. by destruct (String.eqb_spec id ""). Qed.

(** ** In memory *)

Lemma memory_write_effect now last s d st :
  delta_ok last s d → s !! dl_model d = Some st →
  memory_write now d st = (put_in st (write_of now s d), answer_of now s d).
Proof.
  intros (_ & Hid & _ & Hd) Hs. unfold memory_write, write_of, answer_of, row_effect.
  assert (Hat : row_at s (row_of d) = st !! dl_id d) by (unfold row_at; simpl; by rewrite Hs).
  destruct (dl_action d); try done.
  - destruct Hd as (data & -> & Hok). simpl. rewrite compact_delta_fresh by apply Hok.
    rewrite (put_sync_in _ (dl_id d) _ (dl_model d)); [done| |done]. rewrite compact_with_id by done. apply record_id_cons.
  - destruct Hd as [(r & Hr & Hrid) Hdata]. rewrite Hat in *. rewrite Hr. simpl. destruct (dl_data d) as [data|]; simpl.
    + rewrite compact_merge by auto. rewrite (put_sync_in _ (dl_id d) _ (dl_model d)); [done| |done]. apply record_id_merge; auto.
    + by rewrite (put_sync_in _ (dl_id d) _ (dl_model d)).
  - destruct Hd as (data & -> & Hn & Hg). simpl. rewrite (map_set_same "id") by done. fold (archive_record now data).
    rewrite (put_sync_in _ (dl_id d) _ (dl_model d)); [done| |done]. apply compact_record_id; [done|by apply NoDup_set_keys|].
    by rewrite map_get_set, decide_False.
  - destruct Hd as (data & -> & Hok). simpl. rewrite compact_delta_fresh by apply Hok.
    rewrite (put_sync_in _ (dl_id d) _ (dl_model d)); [done| |done]. rewrite compact_with_id by done. apply record_id_cons.
Qed.

Lemma memory_run now last ds : ∀ s acc,
  NoDup (row_of <$> ds) → Forall (delta_ok last s) ds →
  foldl (memory_step now last) (s, acc) ds = (foldl put_row s (write_of now s <$> ds), acc ++ (answer_of now s <$> ds)).
Proof.
  induction ds as [|d ds IH]; intros s acc Hn Hok; [by rewrite app_nil_r|]. rewrite fmap_cons in Hn. apply NoDup_cons in Hn as [Hd Hn].
  apply Forall_cons in Hok as [Hok Hoks]. pose proof Hok as ((st & Hs) & _ & (n & Hn' & Hlt) & _). cbn [foldl]. unfold memory_step at 2. cbn [fst snd].
  assert (old_delta last d = false) as -> by (unfold old_delta; rewrite Hn'; lia).
  rewrite Hs, (memory_write_effect now last s d st) by done.
  assert (Hput : <[dl_model d := put_in st (write_of now s d)]> s = put_row s (write_of now s d)).
  { symmetry. apply (put_rows_in s (dl_model d) st [write_of now s d]); [done|]. by repeat constructor. }
  rewrite Hput.
  assert (Hne : ∀ d', d' ∈ ds → (write_of now s d).1 ≠ row_of d').
  { intros d' Hin E. apply Hd. cbn [write_of fst] in E. rewrite E. by apply list_elem_of_fmap_2. }
  rewrite IH; [|done|].
  - rewrite !fmap_cons. cbn [foldl]. rewrite <- app_assoc. cbn [app]. f_equal; [f_equal|f_equal; f_equal]; apply list_fmap_ext; intros i d' Hd';
      apply (write_of_frame now s (write_of now s d) d'), Hne; by eapply list_elem_of_lookup_2.
  - rewrite Forall_forall in *. intros d' Hin. apply delta_ok_frame; auto.
Qed.

(** ** In transactions *)

#[local] Arguments idb_put : simpl never.

Definition quiet_world (w : idb_world) : Prop :=
  (∀ m id, read_fails w m id = false) ∧ (∀ m, closed_before w m = false) ∧ (∀ m, tx_aborts w m = false) ∧ metadata_fails w = false.

Lemma idb_write_effect now w last s d st st' :
  quiet_world w → delta_ok last s d → s !! dl_model d = Some st →
  idb_write now (existing_record w (dl_model d) st) d st' = Some (put_in st' (write_of now s d), Some (answer_of now s d)).
Proof.
  intros (Hrd & _) (_ & Hid & _ & Hd) Hs. unfold idb_write, write_of, answer_of, row_effect.
  assert (Hat : row_at s (row_of d) = st !! dl_id d) by (unfold row_at; simpl; by rewrite Hs).
  assert (Hput : ∀ r, record_id r = Some (dl_id d) → idb_put (Some r) st' = Some (put_in st' (row_of d, Some r))).
  { intros r Hr. unfold idb_put. cbn [mbind option_bind]. by rewrite Hr. }
  destruct (dl_action d); try done.
  - destruct Hd as (data & -> & Hok). simpl. rewrite Hput; [done|]. rewrite compact_with_id by done. apply record_id_cons.
  - destruct Hd as [(r & Hr & Hrid) Hdata]. unfold existing_record. rewrite Hrd. rewrite Hat in *. rewrite Hr. simpl. destruct (dl_data d) as [data|]; simpl.
    + rewrite Hput; [done|]. by apply record_id_merge; auto.
    + by rewrite Hput.
  - destruct Hd as (data & -> & Hn & Hg). simpl. rewrite Hput; [done|]. apply compact_record_id; [done|by apply NoDup_set_keys|].
    by rewrite map_get_set, decide_False.
  - destruct Hd as (data & -> & Hok). simpl. rewrite Hput; [done|]. rewrite compact_with_id by done. apply record_id_cons.
Qed.

Lemma tx_run now w last s m st l : ∀ st' staged,
  quiet_world w → s !! m = Some st → Forall (λ p : nat * SyncDelta, dl_model p.2 = m ∧ delta_ok last s p.2) l →
  tx_loop now (existing_record w m st) l st' staged
  = (foldl put_in st' (write_of now s <$> l.*2), Some (staged ++ ((λ p, (p.1, answer_of now s p.2)) <$> l))).
Proof.
  induction l as [|[i d] l IH]; intros st' staged Hw Hs Hl; [by rewrite app_nil_r|]. apply Forall_cons in Hl as [[Hm Hd] Hl]. cbn [fst snd] in *.
  cbn [tx_loop]. subst m. rewrite (idb_write_effect now w last s d st) by done. cbn [fmap option_fmap option_map option_list].
  rewrite IH by done. rewrite !fmap_cons. cbn [foldl fst snd]. by rewrite <- app_assoc.
Qed.

Lemma store_run now w last b m l :
  quiet_world w → is_Some (bs_stores b !! m) → Forall (λ p : nat * SyncDelta, dl_model p.2 = m ∧ delta_ok last (bs_stores b) p.2) l →
  process_store now w b (m, l)
  = mkBatch (foldl put_row (bs_stores b) (write_of now (bs_stores b) <$> l.*2))
      (bs_results b ++ ((λ p, (p.1, answer_of now (bs_stores b) p.2)) <$> l)) (bs_persisted b ++ l.*1).
Proof.
  intros Hw [st Hs] Hl. unfold process_store. rewrite Hs. destruct Hw as (H1 & H2 & H3 & H4). rewrite H2.
  rewrite (tx_run now w last (bs_stores b) m st) by (try done; by split_and!). rewrite H3. cbn [app]. f_equal.
  - symmetry. apply put_rows_in; [done|]. apply Forall_fmap, Forall_fmap. eapply Forall_impl; [exact Hl|]. by intros p [? _].
  - f_equal. rewrite <- list_fmap_compose. by apply list_fmap_ext.
Qed.

Definition answers_of now s (l : list (nat * SyncDelta)) : list (nat * AppliedChange) := (λ p, (p.1, answer_of now s p.2)) <$> l.

Lemma put_rows_frame now last s ws d :
  (∀ k, k ∈ (ws : list row_write).*1 → k ≠ row_of d) →
  (delta_ok last s d → delta_ok last (foldl put_row s ws) d)
  ∧ write_of now (foldl put_row s ws) d = write_of now s d ∧ answer_of now (foldl put_row s ws) d = answer_of now s d.
Proof.
  revert s. induction ws as [|x ws IH]; intros s Hk; [done|]. cbn [foldl]. rewrite fmap_cons in Hk.
  assert (Hx : x.1 ≠ row_of d) by (apply Hk; left). destruct (IH (put_row s x)) as (A & B & C); [intros k Hin; apply Hk; by right|].
  destruct (write_of_frame now s x d Hx) as [E1 E2]. rewrite B, C, E1, E2. split; [|done]. intros Hd. by apply A, delta_ok_frame.
Qed.

Lemma put_rows_dom s ws m : is_Some (s !! m) → is_Some (foldl put_row s ws !! m).
Proof. revert s. induction ws as [|x ws IH]; intros s Hm; [done|]. cbn [foldl]. apply IH. by apply put_row_dom. Qed.

Lemma stores_run now w last gs : ∀ b,
  quiet_world w → NoDup (row_of <$> (mjoin gs.*2).*2) →
  Forall (λ g : string * list (nat * SyncDelta), is_Some (bs_stores b !! g.1) ∧ Forall (λ p, dl_model p.2 = g.1 ∧ delta_ok last (bs_stores b) p.2) g.2) gs →
  foldl (process_store now w) b gs
  = mkBatch (foldl put_row (bs_stores b) (write_of now (bs_stores b) <$> (mjoin gs.*2).*2))
      (bs_results b ++ answers_of now (bs_stores b) (mjoin gs.*2)) (bs_persisted b ++ (mjoin gs.*2).*1).
Proof.
  induction gs as [|[m l] gs IH]; intros b Hw Hn Hgs; [simpl; rewrite !app_nil_r; by destruct b|].
  apply Forall_cons in Hgs as [[Hm Hl] Hgs]. cbn [fst snd] in *. rewrite fmap_cons in Hn. cbn [mjoin list_join] in Hn.
  rewrite !fmap_app in Hn. apply NoDup_app in Hn as (Hn1 & Hdis & Hn2). cbn [foldl].
  rewrite (store_run now w last) by done. set (s := bs_stores b) in *.
  assert (Hsame := put_rows_frame now last s).
  assert (Hrow : ∀ p, p ∈ mjoin gs.*2 → ∀ k, k ∈ (write_of now s <$> l.*2).*1 → k ≠ row_of p.2).
  { intros p Hp k Hk ->. rewrite <- list_fmap_compose in Hk. change (row_of p.2 ∈ row_of <$> l.*2) in Hk. apply (Hdis _ Hk).
    rewrite <- list_fmap_compose. by apply (list_elem_of_fmap_2' (row_of ∘ snd) _ p). }
  rewrite IH; [|done|done|].
  - cbn [bs_stores bs_results bs_persisted]. rewrite fmap_cons. cbn [mjoin list_join snd]. unfold answers_of. rewrite !fmap_app, foldl_app, <- !app_assoc.
    f_equal; [f_equal|f_equal; f_equal]; apply list_fmap_ext; intros i x Hx%list_elem_of_lookup_2.
    + apply list_elem_of_fmap in Hx as (p & -> & Hp). by apply Hsame, Hrow.
    + f_equal. by apply Hsame, Hrow.
  - rewrite Forall_forall in *. intros [m' l'] Hin. cbn [fst snd]. destruct (Hgs _ Hin) as [Hm' Hl']. cbn [fst snd] in *. split.
    + cbn [bs_stores]. by apply put_rows_dom.
    + rewrite Forall_forall in *. intros p Hp. destruct (Hl' p Hp) as [Hpm Hpd]. split; [done|]. cbn [bs_stores].
      apply Hsame; [|done]. apply Hrow. apply list_elem_of_join. exists l'. split; [done|]. by apply (list_elem_of_fmap_2' snd _ (m', l')).
Qed.

(** ** Grouping *)

Lemma map_set_join (m : string) (old : list (nat * SyncDelta)) p (gs : list (string * list (nat * SyncDelta))) :
  default [] (map_get m gs) = old → mjoin (map_set m (old ++ [p]) gs).*2 ≡ₚ mjoin gs.*2 ++ [p].
Proof.
  revert old. induction gs as [|[m' g] gs IH]; intros old; cbn [map_get map_set]; [by intros <-|].
  destruct (decide (m = m')) as [->|Hne]; intros Hold; rewrite !fmap_cons; cbn [mjoin list_join snd].
  - simpl in Hold. subst. rewrite <- !app_assoc. apply Permutation_app_head. apply Permutation_app_comm.
  - rewrite IH by done. by rewrite app_assoc.
Qed.

Lemma group_spec l :
  let gs := group_by_store l in
  NoDup gs.*1 ∧ mjoin gs.*2 ≡ₚ l ∧ Forall (λ g : string * list (nat * SyncDelta), g.2 ≠ [] ∧ Forall (λ p, dl_model p.2 = g.1) g.2) gs.
Proof.
  cbv zeta. unfold group_by_store.
  assert (Hgo : ∀ l (gs : list (string * list (nat * SyncDelta))), NoDup gs.*1 → Forall (λ g, g.2 ≠ [] ∧ Forall (λ p : nat * SyncDelta, dl_model p.2 = g.1) g.2) gs →
    let gs' := foldl (λ m p, map_set (dl_model p.2) (default [] (map_get (dl_model p.2) m) ++ [p]) m) gs l in
    NoDup gs'.*1 ∧ mjoin gs'.*2 ≡ₚ mjoin gs.*2 ++ l ∧ Forall (λ g, g.2 ≠ [] ∧ Forall (λ p : nat * SyncDelta, dl_model p.2 = g.1) g.2) gs').
  { clear l. induction l as [|p l IH]; intros gs Hn Hf; cbv zeta; [by rewrite app_nil_r|]. cbn [foldl].
    destruct (IH (map_set (dl_model p.2) (default [] (map_get (dl_model p.2) gs) ++ [p]) gs)) as (A & B & C).
    - by apply NoDup_set_keys.
    - rewrite Forall_forall in *. intros [m g] Hin. apply map_set_elem in Hin as [[= -> ->]|Hin]; [|by apply Hf].
      cbn [fst snd]. split; [by destruct (default [] _)|]. apply Forall_app. split; [|by repeat constructor]. destruct (map_get (dl_model p.2) gs) as [g|] eqn:E; [|constructor].
      by apply (Hf (_, g) (map_get_elem _ _ _ E)).
    - split_and!; [done| |done]. rewrite B, map_set_join by done. by rewrite <- app_assoc. }
  apply (Hgo l []); [constructor|constructor].
Qed.

(** ** Nothing is superseded among distinct rows *)

Lemma delete_index_get k n deltas :
  map_get k (delete_index deltas) = Some n → ∃ d, d ∈ deltas ∧ dl_action d = ActD ∧ row_key d = k ∧ dl_syncId d = Some n.
Proof.
  unfold delete_index. induction deltas as [|d deltas IH] using rev_ind; [done|]. rewrite foldl_app. cbn [foldl]. intros Hg.
  assert (Hkeep : map_get k (foldl (λ m d, match dl_action d, dl_syncId d with
      | ActD, Some n => if n =? 0 then m else match map_get (row_key d) m with
                         | Some existing => if (existing =? 0) || (existing <? n) then map_set (row_key d) n m else m
                         | None => map_set (row_key d) n m end
      | _, _ => m end) [] deltas) = Some n
    ∨ dl_action d = ActD ∧ row_key d = k ∧ dl_syncId d = Some n).
  { destruct (dl_action d); try by left. destruct (dl_syncId d) as [x|]; [|by left]. destruct (x =? 0); [by left|].
    destruct (map_get (row_key d) _) as [e|].
    - destruct (_ || _); [|by left]. rewrite map_get_set in Hg. case_decide; [right|by left]. by injection Hg as ->.
    - rewrite map_get_set in Hg. case_decide; [right|by left]. by injection Hg as ->. }
  destruct Hkeep as [H1|(H1 & H2 & H3)].
  - destruct (IH H1) as (d' & Hin & ?). exists d'. split; [|done]. apply elem_of_app. by left.
  - exists d. split_and!; [|done..]. apply elem_of_app. right. by apply list_elem_of_singleton.
Qed.

Lemma nothing_superseded deltas d : NoDup (row_key <$> deltas) → d ∈ deltas → delete_wins (delete_index deltas) d = false.
Proof.
  intros Hn Hd. unfold delete_wins. destruct (map_get (row_key d) (delete_index deltas)) as [n|] eqn:E; [|by rewrite andb_false_r].
  apply delete_index_get in E as (d' & Hd' & Ha & Hk & _).
  assert (d' = d) as ->; [|by rewrite Ha]. clear -Hn Hd Hd' Hk.
  induction deltas as [|x l IH]; [by apply elem_of_nil in Hd|]. rewrite fmap_cons in Hn. apply NoDup_cons in Hn as [Hx Hn].
  apply elem_of_cons in Hd as [->|Hd], Hd' as [->|Hd']; [done| | |by apply IH].
  - exfalso. apply Hx. rewrite <- Hk. by apply list_elem_of_fmap_2.
  - exfalso. apply Hx. rewrite Hk. by apply list_elem_of_fmap_2.
Qed.

(** ** The cursor *)

Lemma numbered_elem l i d : (i, d) ∈ numbered l ↔ l !! i = Some d.
Proof.
  unfold numbered. rewrite elem_of_lookup_imap. split; [by intros (j & x & [= -> ->] & Hx)|]. intros Hd. by exists i, d.
Qed.

Lemma numbered_snd l : (numbered l).*2 = l.
Proof. unfold numbered. rewrite fmap_imap. apply list_eq. intros i. rewrite list_lookup_imap. by destruct (l !! i). Qed.

Lemma numbered_nodup l : NoDup (numbered l).*1.
Proof.
  apply NoDup_alt. intros i j k. unfold numbered. rewrite fmap_imap, !list_lookup_imap.
  destruct (l !! i), (l !! j); simpl; congruence.
Qed.

Definition highest_id (deltas : list SyncDelta) : Z :=
  foldr (λ d n, match dl_syncId d with Some k => Z.max k n | None => n end) 0 deltas.

Lemma highest_nonneg deltas : 0 <= highest_id deltas.
Proof. induction deltas as [|d deltas IH]; [done|]. simpl. destruct (dl_syncId d); lia. Qed.

Lemma prefix_all through i deltas persisted :
  0 <= through → (∀ j, (j < length deltas)%nat → (i + j)%nat ∈ persisted) → prefix_from through i deltas persisted = Z.max through (highest_id deltas).
Proof.
  revert through i. induction deltas as [|d deltas IH]; intros through i Ht Hall; [simpl; lia|]. cbn [prefix_from highest_id foldr].
  pose proof (highest_nonneg deltas). fold (highest_id deltas).
  rewrite bool_decide_true by (specialize (Hall 0%nat); rewrite Nat.add_0_r in Hall; apply Hall; simpl; lia). rewrite IH.
  - destruct (dl_syncId d) as [n|]; [|done]. destruct (Z.ltb_spec through n); lia.
  - destruct (dl_syncId d) as [n|]; [|done]. destruct (Z.ltb_spec through n); lia.
  - intros j Hj. specialize (Hall (S j)). replace (S i + j)%nat with (i + S j)%nat by lia. apply Hall. simpl. lia.
Qed.

Lemma answers_persisted now last s deltas :
  Forall (delta_ok last s) deltas → memory_persisted (answer_of now s <$> deltas) deltas = highest_id deltas.
Proof.
  induction 1 as [|d deltas (_ & _ & _ & Hd) Hds IH]; [done|]. rewrite fmap_cons. cbn [memory_persisted highest_id foldr]. rewrite IH.
  rewrite bool_decide_false; [done|]. unfold answer_of, row_effect. by destruct (dl_action d).
Qed.

Lemma answers_by_index now s deltas res :
  res ≡ₚ answers_of now s (numbered deltas) → imap (λ i _, map_get i res) deltas = Some <$> (answer_of now s <$> deltas).
Proof.
  intros Hp.
  assert (Hn : NoDup res.*1).
  { rewrite Hp. unfold answers_of. rewrite <- list_fmap_compose. pose proof (numbered_nodup deltas) as Hn. by erewrite list_fmap_ext in Hn. }
  apply list_eq. intros i. rewrite list_lookup_imap, !list_lookup_fmap. destruct (deltas !! i) as [d|] eqn:Hd; [|done]. simpl. f_equal.
  apply map_get_spec; [done|]. rewrite Hp. unfold answers_of. apply (list_elem_of_fmap_2' _ _ (i, d)); [|done]. by apply numbered_elem.
Qed.

(** On a batch of deltas to distinct rows, with records as the server sends them and
    nothing failing, the batch over IndexedDB transactions does what the batch over memory
    stores does, one delta after the other: the same stores, the same change for each
    delta in its place, the same cursor. *)
Theorem distinct_rows_are_written_alike now w db deltas :
  quiet_world w → NoDup (row_key <$> deltas) → Forall (delta_ok (db_lastSyncId db) (db_stores db)) deltas →
  process_idb now w db deltas = process_in_memory now db deltas.
Proof.
  intros Hw Hk Hok. unfold process_idb, process_in_memory. destruct (negb (db_open db) || (length deltas =? 0)%nat); [done|].
  set (s := db_stores db) in *. set (last := db_lastSyncId db) in *.
  assert (Hrows : NoDup (row_of <$> deltas)).
  { apply (NoDup_fmap_1 (λ p : string * string, (p.1 ++ ":" ++ p.2)%string)). by rewrite <- list_fmap_compose. }
  assert (Hroute : ∀ p, p ∈ numbered deltas → route db (delete_index deltas) p.2 = ToStore).
  { intros [i d] Hp%numbered_elem. unfold route. cbn [snd]. rewrite nothing_superseded by (try done; by eapply list_elem_of_lookup_2).
    rewrite Forall_forall in Hok. destruct (Hok d) as ([st Hst] & _); [by eapply list_elem_of_lookup_2|]. unfold s in Hst. by rewrite Hst. }
  assert (Hto : base.filter (λ p, route db (delete_index deltas) p.2 = ToStore) (numbered deltas) = numbered deltas).
  { by apply filter_keeps. }
  assert (Hnone : ∀ r, r ≠ ToStore → base.filter (λ p, route db (delete_index deltas) p.2 = r) (numbered deltas) = []).
  { intros r Hr. apply filter_drops. intros p Hp. rewrite Hroute by done. by intros E; apply Hr. }
  rewrite (memory_run now last deltas s []) by done. rewrite Hto, !Hnone by done. cbn [verify_all fmap list_fmap app].
  destruct (group_spec (numbered deltas)) as (Hgn & Hgp & Hgm). set (gs := group_by_store (numbered deltas)) in *.
  assert (Hperm : (mjoin gs.*2).*2 ≡ₚ deltas) by (rewrite Hgp; by rewrite numbered_snd).
  rewrite (stores_run now w last gs (mkBatch s [] [])); [|done|by rewrite Hperm|].
  - cbn [bs_stores bs_results bs_persisted app].
    assert (Hstores : foldl put_row s (write_of now s <$> (mjoin gs.*2).*2) = foldl put_row s (write_of now s <$> deltas)).
    { apply put_rows_perm; [|by rewrite Hperm]. rewrite <- list_fmap_compose. change (NoDup (row_of <$> (mjoin gs.*2).*2)). by rewrite Hperm. }
    rewrite Hstores, (answers_by_index now s deltas) by (unfold answers_of; by rewrite Hgp).
    assert (Hn : highestPersistedPrefixSyncId deltas (mjoin gs.*2).*1 = highest_id deltas).
    { unfold highestPersistedPrefixSyncId. rewrite prefix_all; [pose proof (highest_nonneg deltas); lia|done|].
      intros j Hj. rewrite Hgp. apply lookup_lt_is_Some in Hj as [d Hd]. cbn [Nat.add].
      apply (list_elem_of_fmap_2' fst _ (j, d)); [by apply numbered_elem|done]. }
    rewrite Hn, (answers_persisted now last s) by done. destruct Hw as (_ & _ & _ & ->). by rewrite andb_true_r.
  - rewrite Forall_forall in *. intros [m l] Hin. cbn [fst snd bs_stores].
    assert (Hl : ∀ p, p ∈ l → p ∈ numbered deltas).
    { intros p Hp. rewrite <- Hgp. apply list_elem_of_join. exists l. split; [done|]. by apply (list_elem_of_fmap_2' snd _ (m, l)). }
    destruct (Hgm _ Hin) as [Hne Hm]. cbn [fst snd] in Hne, Hm. rewrite Forall_forall in Hm.
    assert (Hd : ∀ p, p ∈ l → delta_ok last s p.2).
    { intros [i d] Hp. apply (proj1 (Forall_forall _ _) Hok). eapply list_elem_of_lookup_2. by apply numbered_elem, Hl. }
    split; [|apply Forall_forall; intros p Hp; split; [by apply Hm|by apply Hd]].
    destruct l as [|p l]; [done|]. rewrite <- (Hm p) by left. by apply (Hd p); left.
Qed.

(** ** What the cursor covers *)

Lemma prefix_spec deltas persisted through i :
  0 <= through → ∃ j, (j <= length deltas)%nat ∧ (∀ x, (x < j)%nat → (i + x)%nat ∈ persisted)
    ∧ prefix_from through i deltas persisted = Z.max through (highest_id (take j deltas))
    ∧ (j = length deltas ∨ (i + j)%nat ∉ persisted).
Proof.
  revert through i. induction deltas as [|d deltas IH]; intros through i Ht.
  { exists 0%nat. split_and!; [done|lia|simpl; lia|by left]. }
  cbn [prefix_from]. case_bool_decide as Hi.
  - set (t := match dl_syncId d with Some n => if through <? n then n else through | None => through end).
    assert (Hthrough : t = Z.max through (match dl_syncId d with Some n => n | None => through end) ∧ 0 <= t).
    { unfold t. destruct (dl_syncId d) as [n|]; [|lia]. destruct (Z.ltb_spec through n); lia. }
    destruct (IH t (S i)) as (j & Hj & Hall & Hp & Hend); [lia|]. exists (S j). split_and!.
    + simpl. lia.
    + intros [|x] Hx; [by rewrite Nat.add_0_r|]. replace (i + S x)%nat with (S i + x)%nat by lia. apply Hall. lia.
    + rewrite Hp, firstn_cons. cbn [highest_id foldr]. fold (highest_id (take j deltas)). pose proof (highest_nonneg (take j deltas)).
      destruct (dl_syncId d); lia.
    + replace (i + S j)%nat with (S i + j)%nat by lia. destruct Hend; [left; simpl; lia|by right].
  - exists 0%nat. split_and!; [lia|lia|simpl; lia|right; by rewrite Nat.add_0_r].
Qed.

Lemma highest_in deltas : 0 < highest_id deltas → ∃ i d, deltas !! i = Some d ∧ dl_syncId d = Some (highest_id deltas).
Proof.
  induction deltas as [|d deltas IH]; [done|]. cbn [highest_id foldr]. fold (highest_id deltas). destruct (dl_syncId d) as [k|] eqn:Hk.
  - intros Hpos. destruct (Z.max_spec k (highest_id deltas)) as [[Hlt E]|[Hle E]]; rewrite E in *.
    + destruct (IH Hpos) as (i & d' & ? & ?). by exists (S i), d'.
    + by exists 0%nat, d.
  - intros Hpos. destruct (IH Hpos) as (i & d' & ? & ?). by exists (S i), d'.
Qed.

Definition ids_increase (deltas : list SyncDelta) : Prop :=
  Forall (λ d, ∃ k, dl_syncId d = Some k ∧ 0 < k) deltas
  ∧ ∀ i j d d' k k', (i < j)%nat → deltas !! i = Some d → deltas !! j = Some d' → dl_syncId d = Some k → dl_syncId d' = Some k' → k < k'.

(** The deltas of a batch that go to a store, and the transaction over them. *)
Definition store_deltas (db : database) (deltas : list SyncDelta) (m : string) : list (nat * SyncDelta) :=
  base.filter (λ p, route db (delete_index deltas) p.2 = ToStore ∧ dl_model p.2 = m) (numbered deltas).

Definition store_tx now w db deltas m st := tx_loop now (existing_record w m st) (store_deltas db deltas m) st [].

Definition store_committed now w db deltas (m : string) : bool :=
  match db_stores db !! m with
  | Some st => negb (closed_before w m) && negb (tx_aborts w m) && is_Some_b (store_tx now w db deltas m st).2
  | None => false
  end.

Lemma group_get l m : default [] (map_get m (group_by_store l)) = base.filter (λ p, dl_model p.2 = m) l.
Proof.
  unfold group_by_store. induction l as [|p l IH] using rev_ind; [done|]. rewrite foldl_app, filter_app. cbn [foldl]. rewrite map_get_set, filter_cons, filter_nil.
  case_decide as E; [subst m; rewrite decide_True by done; simpl; by rewrite IH|]. rewrite decide_False by done. by rewrite app_nil_r.
Qed.

Lemma process_store_other now w b g m : m ≠ g.1 → bs_stores (process_store now w b g) !! m = bs_stores b !! m.
Proof.
  intros Hm. destruct g as [m' l]. cbn [fst] in Hm. unfold process_store. destruct (bs_stores b !! m') as [st|]; [|done].
  destruct (closed_before w m'); [done|]. destruct (tx_loop _ _ _ _ _) as [st' [staged|]]; destruct (tx_aborts w m'); try done; simpl;
  by rewrite lookup_insert_ne.
Qed.

Lemma process_store_own now w b m l st :
  bs_stores b !! m = Some st → closed_before w m = false → tx_aborts w m = false →
  bs_stores (process_store now w b (m, l)) !! m = Some (tx_loop now (existing_record w m st) l st []).1.
Proof.
  intros Hs Hc Ht. unfold process_store. rewrite Hs, Hc. destruct (tx_loop _ _ _ _ _) as [st' [staged|]]; rewrite Ht; simpl; by rewrite lookup_insert_eq.
Qed.

Lemma tx_staged now e l : ∀ st staged st' out i,
  tx_loop now e l st staged = (st', Some out) → i ∈ out.*1 → i ∈ staged.*1 ∨ i ∈ l.*1.
Proof.
  induction l as [|[j d] l IH]; intros st staged st' out i; cbn [tx_loop]; [intros [= -> ->]; by left|].
  destruct (idb_write now e d st) as [[st1 r]|]; [|done]. intros Hl [Hin|Hin]%(IH _ _ _ _ _ Hl).
  - rewrite fmap_app in Hin. apply elem_of_app in Hin as [?|Hin]; [by left|right]. rewrite fmap_cons.
    destruct r; simpl in Hin; [apply list_elem_of_singleton in Hin as ->; left|by apply elem_of_nil in Hin].
  - right. rewrite fmap_cons. by right.
Qed.

Lemma process_store_persists now w b m l i :
  i ∈ bs_persisted (process_store now w b (m, l)) → i ∈ bs_persisted b
  ∨ ∃ st, i ∈ l.*1 ∧ bs_stores b !! m = Some st ∧ closed_before w m = false ∧ tx_aborts w m = false
      ∧ is_Some_b (tx_loop now (existing_record w m st) l st []).2 = true.
Proof.
  unfold process_store. destruct (bs_stores b !! m) as [st|]; [|by left]. destruct (closed_before w m); [by left|].
  destruct (tx_loop _ _ _ _ _) as [st' [staged|]] eqn:E; destruct (tx_aborts w m); try by left.
  cbn [bs_persisted]. intros [?|Hin]%elem_of_app; [by left|right]. exists st. split_and!; try done; [|by rewrite E].
  by destruct (tx_staged _ _ _ _ _ _ _ _ E Hin) as [?%elem_of_nil|].
Qed.

Lemma stores_other now w gs : ∀ b m, m ∉ gs.*1 → bs_stores (foldl (process_store now w) b gs) !! m = bs_stores b !! m.
Proof.
  induction gs as [|g gs IH]; intros b m; [done|]. rewrite fmap_cons. intros [Hg Hm]%not_elem_of_cons. cbn [foldl]. rewrite IH by done.
  by apply process_store_other.
Qed.

Lemma stores_persist now w gs : ∀ b i,
  NoDup gs.*1 → i ∈ bs_persisted (foldl (process_store now w) b gs) → i ∈ bs_persisted b
  ∨ ∃ m l st, (m, l) ∈ gs ∧ i ∈ l.*1 ∧ bs_stores b !! m = Some st ∧ closed_before w m = false ∧ tx_aborts w m = false
      ∧ is_Some_b (tx_loop now (existing_record w m st) l st []).2 = true
      ∧ bs_stores (foldl (process_store now w) b gs) !! m = Some (tx_loop now (existing_record w m st) l st []).1.
Proof.
  induction gs as [|[m l] gs IH]; intros b i; [by left|]. rewrite fmap_cons. cbn [fst]. intros [Hm Hn]%NoDup_cons. cbn [foldl].
  intros [Hin|(m' & l' & st & Hg & H1 & H2 & H3)]%(IH _ _ Hn).
  - apply process_store_persists in Hin as [?|(st & H1 & H2 & H3 & H4 & H5)]; [by left|right].
    exists m, l, st. split_and!; try done; [left|]. rewrite stores_other by done. by apply process_store_own.
  - right. exists m', l', st. rewrite process_store_other in H2.
    + split_and!; try tauto. by right.
    + cbn [fst]. intros ->. apply Hm. by apply (list_elem_of_fmap_2' fst _ (m, l')).
Qed.

Lemma group_elem l m g : (m, g) ∈ group_by_store l → g = base.filter (λ p, dl_model p.2 = m) l.
Proof.
  intros Hin. destruct (group_spec l) as (Hn & _ & _). rewrite <- (group_get l m).
  by rewrite (proj2 (map_get_spec _ _ _ Hn) Hin).
Qed.

(** The indexes up to the cursor are persisted. *)
Lemma prefix_covers deltas persisted i d k :
  ids_increase deltas → deltas !! i = Some d → dl_syncId d = Some k → k <= highestPersistedPrefixSyncId deltas persisted → i ∈ persisted.
Proof.
  intros [Hpos Hinc] Hi Hk Hle. unfold highestPersistedPrefixSyncId in Hle.
  destruct (prefix_spec deltas persisted 0 0) as (j & Hj & Hall & Hn & _); [done|]. rewrite Hn in Hle.
  rewrite Forall_forall in Hpos. destruct (Hpos d) as (k' & Hk' & Hk0); [by eapply list_elem_of_lookup_2|]. rewrite Hk in Hk'. injection Hk' as <-.
  destruct (highest_in (take j deltas)) as (x & dx & Hx & Hidx); [lia|].
  apply lookup_take_Some in Hx as [Hx Hxj]. apply Hall. destruct (decide (i <= x)%nat) as [?|Hgt]; [lia|].
  assert (highest_id (take j deltas) < k) by (eapply (Hinc x i); eauto; lia). pose proof (highest_nonneg (take j deltas)). lia.
Qed.

(** The cursor covers only what was written: whatever fails, each delta up to it is
    superseded by a later delete of the batch, or its store's transaction committed with
    all its writes. *)
Lemma cursor_covered now w db deltas db' results n i d k :
  ids_increase deltas → process_idb now w db deltas = (db', results, n) →
  deltas !! i = Some d → dl_syncId d = Some k → k <= n →
  delete_wins (delete_index deltas) d = true
  ∨ ∃ st, db_stores db !! dl_model d = Some st ∧ (i, d) ∈ store_deltas db deltas (dl_model d)
      ∧ store_committed now w db deltas (dl_model d) = true
      ∧ db_stores db' !! dl_model d = Some (store_tx now w db deltas (dl_model d) st).1.
Proof.
  intros Hinc Hrun Hi Hk Hle.
  assert (Hk0 : 0 < k).
  { destruct Hinc as [Hpos _]. rewrite Forall_forall in Hpos. destruct (Hpos d) as (k' & Hk' & ?); [by eapply list_elem_of_lookup_2|]. congruence. }
  unfold process_idb in Hrun. destruct (negb (db_open db) || (length deltas =? 0)%nat); [injection Hrun as _ _ <-; lia|].
  set (to r := base.filter (λ p, route db (delete_index deltas) p.2 = r) (numbered deltas)) in *.
  set (b := mkBatch (db_stores db) (verify_all (to Superseded) ++ verify_all (to NoStore)) (to Superseded).*1) in *.
  injection Hrun as <- _ <-. cbn [db_stores].
  pose proof (prefix_covers _ _ _ _ _ Hinc Hi Hk Hle) as Hp.
  apply stores_persist in Hp as [Hp|(m & l & st & Hg & Hil & Hst & Hc & Ht & Hok & Hfin)]; [..|apply group_spec].
  - left. apply list_elem_of_fmap in Hp as ([i' d'] & [= <-] & [Hr Hin]%list_elem_of_filter). apply numbered_elem in Hin.
    rewrite Hi in Hin. injection Hin as <-. revert Hr. unfold route. cbn [snd]. destruct (delete_wins _ _); [done|]. by destruct (db_stores db !! _).
  - right. apply group_elem in Hg.
    assert (Hl : l = store_deltas db deltas m).
    { rewrite Hg. unfold to, store_deltas. rewrite list_filter_filter. apply list_filter_iff. intros p. tauto. }
    assert (Hin : (i, d) ∈ l).
    { apply list_elem_of_fmap in Hil as ([i' d'] & [= <-] & Hin). assert (d' = d) as ->; [|done].
      rewrite Hl in Hin. unfold store_deltas in Hin. apply list_elem_of_filter in Hin as [_ Hin%numbered_elem]. congruence. }
    assert (dl_model d = m) as Hm.
    { rewrite Hg in Hin. by apply list_elem_of_filter in Hin as [? _]. }
    subst m. exists st. cbn [bs_stores] in Hst. rewrite <- Hl. split_and!; [done|done| |].
    + unfold store_committed, store_tx. rewrite Hst, Hc, Ht, <- Hl. cbn [negb andb]. done.
    + rewrite Hfin. unfold store_tx. by rewrite <- Hl.
Qed.
