(* ===== verification/ModelRow.v ===== *)
(** * A row and its unsaved changes

    The change tracking of [packages/humans/src/local/Model.ts], and how an accepted row
    meets the changes that are still on their way: [projectModelRow] of
    [transactions/operations/rowProjection.ts] and [resolveConflicts] of
    [SyncClient.ts]. A row is its fields; a field of the model is a property it has. *)
From S2P Require Import Prelude JsData Json DeltaStore.
#[local] Open Scope string_scope.
#[local] Open Scope list_scope.
#[local] Open Scope Z_scope.

(** ** Rows *)

(** [modifiedProperties] holds the value before the first change and the one after the
    last; [_originalData] is [None] while it is stale. *)
Record model_row := mkRow {
  m_type : string;
  m_id : string;
  m_fields : fields;
  m_modified : list (string * (json * json));
  m_original : option fields;
  m_isNew : bool;
  m_synced : bool;
}.

Definition with_fields x r := mkRow (m_type r) (m_id r) x (m_modified r) (m_original r) (m_isNew r) (m_synced r).
Definition with_modified x r := mkRow (m_type r) (m_id r) (m_fields r) x (m_original r) (m_isNew r) (m_synced r).
Definition with_original x r := mkRow (m_type r) (m_id r) (m_fields r) (m_modified r) x (m_isNew r) (m_synced r).
Definition markAsSynced r := mkRow (m_type r) (m_id r) (m_fields r) (m_modified r) (m_original r) (m_isNew r) true.

Definition field (key : string) (f : fields) : json := default JUndefined (map_get key f).

(** [===] on values of which an object that arrives is never the one held. *)
Definition js_same (a b : json) : bool :=
  match a, b with
  | JUndefined, JUndefined | JNull, JNull => true
  | JBool x, JBool y => Bool.eqb x y
  | JNum x, JNum y => x =? y
  | JStr x, JStr y => String.eqb x y
  | _, _ => false
  end.

Section Row.
(** The properties of a model that cannot be assigned, and [Date.parse]. *)
Context (readonly : string → string → bool) (Date_parse : string → Z).

(** [new Date(raw)] *)
Definition newDate (raw : json) : json :=
  match raw with JStr s => JDate (Date_parse s) | JNum n => JDate n | JBool b => JDate (if b then 1 else 0) | v => v end.

Definition is_date_key (key : string) : bool := bool_decide (key ∈ ["createdAt"; "updatedAt"; "archivedAt"]).

(** The value an assignment writes, where the key is one it writes. *)
Definition written (r : model_row) (key : string) (raw : json) : option json :=
  if String.eqb key "id" || negb (is_Some_b (map_get key (m_fields r))) || readonly (m_type r) key then None
  else Some (if is_date_key key && truthy raw then newDate raw else raw).

(** [propertyChanged] *)
Definition propertyChanged (now : Z) (key : string) (old new : json) (r : model_row) : model_row :=
  if js_same old new || String.eqb key "createdAt" || String.eqb key "updatedAt" then r
  else
    let first := match map_get key (m_modified r) with Some (o, _) => o | None => old end in
    let r := with_modified (map_set key (first, new) (m_modified r)) r in
    if is_Some_b (map_get "updatedAt" (m_fields r)) then with_fields (map_set "updatedAt" (JDate now) (m_fields r)) r else r.

(** [assignFieldsFromData], with the hook of a local change or without one. *)
Definition assign_one (track : option Z) (r : model_row) (p : string * json) : model_row :=
  match written r p.1 p.2 with
  | None => r
  | Some v =>
      let old := field p.1 (m_fields r) in
      let r := with_fields (map_set p.1 v (m_fields r)) r in
      match track with Some now => propertyChanged now p.1 old v r | None => r end
  end.

Definition assignFieldsFromData (track : option Z) (data : fields) (r : model_row) : model_row := foldl (assign_one track) r data.

(** [updateFromData] *)
Definition updateFromData (data : fields) (r : model_row) : model_row :=
  let r := assignFieldsFromData None data r in
  if m_isNew r then r else with_original None r.

(** [applyChanges] *)
Definition applyChanges (now : Z) (data : fields) (r : model_row) : model_row := assignFieldsFromData (Some now) data r.

Definition getChanges (r : model_row) : fields := (λ p, (p.1, p.2.2)) <$> m_modified r.
Definition clearChanges (r : model_row) : model_row := with_original None (with_modified [] r).

(** [consumeModifiedFields], with or without keys. *)
Definition consumeModifiedFields (keys : option (list string)) (r : model_row) : model_row :=
  with_modified (List.filter (λ p, String.eqb p.1 "id" || match keys with Some ks => negb (bool_decide (p.1 ∈ ks)) | None => false end) (m_modified r)) r.

(** [getOriginalSnapshot]: taken when it is first asked for. *)
Definition getOriginalSnapshot (r : model_row) : fields * model_row :=
  match m_original r with Some o => (o, r) | None => (m_fields r, with_original (Some (m_fields r)) r) end.

Definition capturePreviousValues (keys : list string) (fallbackToLive : bool) (r : model_row) : fields * model_row :=
  let '(original, r) := getOriginalSnapshot r in
  (foldl (λ out key,
     if String.eqb key "id" then out
     else match map_get key (m_modified r) with
          | Some (old, _) => map_set key old out
          | None => match map_get key original with
                    | Some v => map_set key v out
                    | None => if fallbackToLive then map_set key (field key (m_fields r)) out else out
                    end
          end) [] keys, r).

(** ** An accepted row *)

(** What [projectModelRow] reads of a queued mutation. *)
Record outstanding := mkOutstanding { o_model : string; o_id : string; o_update : bool; o_data : fields }.

Definition is_tombstone (server : fields) : bool :=
  let set key := match field key server with JUndefined | JNull => false | _ => true end in
  set "deletedAt" || set "archivedAt" || js_same (field "isActive" server) (JBool false).

(** An operand of a text or counter edit, which stands for no value of its own. *)
Definition is_relative (v : json) : bool :=
  match v with JObj f => is_Some_b (map_get "$text" f) || is_Some_b (map_get "$increment" f) | _ => false end.

Definition concerns (r : model_row) (tx : outstanding) : bool := o_update tx && String.eqb (o_id tx) (m_id r) && String.eqb (o_model tx) (m_type r).

(** The local changes: those not queued yet, then those of the queued updates. *)
Definition local_changes (r : model_row) (pending : list outstanding) : fields :=
  foldl (λ local tx, if concerns r tx
                     then foldl (λ local p, map_set p.1 (if is_relative p.2 then field p.1 (m_fields r) else p.2) local) local (o_data tx)
                     else local) (getChanges r) pending.

Definition toEpochMs (v : json) : Z := match v with JDate t => t | JStr s => if String.eqb s "" then 0 else Date_parse s | JNum n => n | _ => 0 end.

Definition projectModelRow (r : model_row) (server : fields) (pending : list outstanding) (projection : fields) : model_row :=
  if is_tombstone server then markAsSynced (clearChanges (updateFromData server r))
  else
    match local_changes r pending with
    | [] => markAsSynced (clearChanges (updateFromData (spread server projection) r))
    | local =>
        let merged := spread (spread server local) projection in
        let mine := field "updatedAt" (m_fields r) in
        let theirs := field "updatedAt" server in
        let merged := if truthy theirs || truthy mine then map_set "updatedAt" (JDate (Z.max (toEpochMs mine) (toEpochMs theirs))) merged else merged in
        updateFromData merged r
    end.

(** [resolveConflicts]: with the patch the operation runtime prepared for the row, or with
    the fields it retains. *)
Definition resolveConflicts (r : model_row) (server : fields) (pending : list outstanding) (prepared : option fields) (retained : list string) : model_row :=
  match prepared with
  | Some projection => projectModelRow r server pending projection
  | None =>
      let live := match field "deletedAt" server, field "archivedAt" server with
                  | (JUndefined | JNull), (JUndefined | JNull) => negb (js_same (field "isActive" server) (JBool false))
                  | _, _ => false
                  end in
      let materialized := if live then foldl (λ m key, map_set key (field key (m_fields r)) m) server retained else server in
      projectModelRow r materialized pending []
  end.

(** ** What an assignment leaves *)

Lemma assign_other track key data r :
  key ∉ data.*1 → key ≠ "updatedAt" ∨ track = None → map_get key (m_fields (assignFieldsFromData track data r)) = map_get key (m_fields r).
Proof.
  intros Hk Hu. unfold assignFieldsFromData. revert r. induction data as [|[k v] data IH]; intros r; [done|]. rewrite fmap_cons in Hk.
  apply not_elem_of_cons in Hk as [Hne Hk]. cbn [foldl]. rewrite IH by done. unfold assign_one. cbn [fst snd]. destruct (written r k v) as [w|]; [|done].
  destruct track as [now|].
  - unfold propertyChanged. destruct (_ || _); simpl; [by rewrite map_get_set, decide_False|].
    destruct (is_Some_b _); simpl; rewrite ?map_get_set; repeat case_decide; try done; naive_solver.
  - simpl. by rewrite map_get_set, decide_False.
Qed.

Definition meta (r : model_row) := (m_type r, m_id r, m_modified r, m_original r, m_isNew r, m_synced r).

Lemma assign_meta data r : meta (assignFieldsFromData None data r) = meta r.
Proof.
  unfold assignFieldsFromData. revert r. induction data as [|p data IH]; intros r; [done|]. cbn [foldl]. rewrite IH. unfold assign_one.
  by destruct (written r p.1 p.2).
Qed.

Lemma assign_keys data r : (m_fields (assignFieldsFromData None data r)).*1 = (m_fields r).*1.
Proof.
  unfold assignFieldsFromData. revert r. induction data as [|p data IH]; intros r; [done|]. cbn [foldl]. rewrite IH. unfold assign_one.
  destruct (written r p.1 p.2) as [w|] eqn:E; [|done]. simpl. rewrite map_set_keys, decide_True; [done|]. unfold written in E.
  destruct (map_get p.1 (m_fields r)) as [v|] eqn:E2; [|by rewrite orb_true_r in E]. apply map_get_elem in E2. by apply (list_elem_of_fmap_2' fst _ (p.1, v)).
Qed.

(** What the keys of the row and the model say of an assignment. *)
Definition writable (r : model_row) (key : string) : bool :=
  negb (String.eqb key "id") && is_Some_b (map_get key (m_fields r)) && negb (readonly (m_type r) key).

Definition as_field (key : string) (raw : json) : json := if is_date_key key && truthy raw then newDate raw else raw.

Lemma written_writable r key raw : written r key raw = if writable r key then Some (as_field key raw) else None.
Proof. unfold written, writable, as_field. destruct (String.eqb key "id"), (map_get key (m_fields r)), (readonly (m_type r) key); done. Qed.

(** A field takes the value of the data, where it is one the row may be assigned. *)
Lemma assign_get key data r :
  NoDup data.*1 →
  field key (m_fields (assignFieldsFromData None data r))
  = match map_get key data with Some raw => if writable r key then as_field key raw else field key (m_fields r) | None => field key (m_fields r) end.
Proof.
  unfold field. revert r. induction data as [|[k v] data IH]; intros r; [done|]. rewrite fmap_cons. intros [Hk Hn]%NoDup_cons.
  unfold assignFieldsFromData. cbn [foldl]. fold (assignFieldsFromData None data (assign_one None r (k, v))). cbn [map_get].
  destruct (decide (key = k)) as [->|Hne].
  - rewrite assign_other by auto. unfold assign_one. cbn [fst snd]. rewrite written_writable. destruct (writable r k); [|done].
    simpl. by rewrite map_get_set, decide_True.
  - assert (Hsame : map_get key (m_fields (assign_one None r (k, v))) = map_get key (m_fields r)).
    { unfold assign_one. cbn [fst snd]. destruct (written r k v); [|done]. simpl. by rewrite map_get_set, decide_False. }
    assert (Hty : m_type (assign_one None r (k, v)) = m_type r) by (unfold assign_one; cbn [fst snd]; by destruct (written r k v)).
    rewrite IH by done. destruct (map_get key data) as [raw|]; [|by rewrite Hsame]. unfold writable. by rewrite Hsame, Hty.
Qed.

(** ** Where an accepted row and the local changes meet *)

Lemma set_keys_nodup {A} (l : list (string * A)) : ∀ (m : list (string * A)) (f : string * A → A), NoDup m.*1 → NoDup (foldl (λ m p, map_set p.1 (f p) m) m l).*1.
Proof. induction l as [|p l IH]; intros m f Hm; [done|]. cbn [foldl]. apply IH. by apply NoDup_set_keys. Qed.

Lemma local_nodup r pending : NoDup (m_modified r).*1 → NoDup (local_changes r pending).*1.
Proof.
  intros Hn. unfold local_changes. assert (H : NoDup (getChanges r).*1) by (unfold getChanges; rewrite <- list_fmap_compose; exact Hn).
  revert H. generalize (getChanges r). induction pending as [|tx pending IH]; intros m Hm; [done|]. cbn [foldl]. apply IH.
  destruct (concerns r tx); [|done]. by apply (set_keys_nodup (o_data tx) m (λ p, if is_relative p.2 then field p.1 (m_fields r) else p.2)).
Qed.

(** Where a field of the row comes from: the operation runtime, a local change, the server,
    or the row as it was. *)
Definition accepted_field (r : model_row) (server local projection : fields) (key : string) : json :=
  match map_get key projection, map_get key local, map_get key server with
  | Some v, _, _ | None, Some v, _ | None, None, Some v => as_field key v
  | None, None, None => field key (m_fields r)
  end.

Lemma update_get key data r :
  NoDup data.*1 →
  field key (m_fields (updateFromData data r))
  = match map_get key data with Some raw => if writable r key then as_field key raw else field key (m_fields r) | None => field key (m_fields r) end.
Proof. intros Hn. rewrite <- assign_get by done. unfold updateFromData. by destruct (m_isNew _). Qed.

Lemma update_modified data r : m_modified (updateFromData data r) = m_modified r.
Proof. pose proof (assign_meta data r) as H. unfold meta in H. unfold updateFromData. destruct (m_isNew _); simpl; congruence. Qed.

(** An accepted row and the changes still on their way make one row: where the server
    removed, archived or deactivated it, each field is the server's and the local changes
    are forgotten; otherwise each field the row may be assigned is the patch of the
    operation runtime, else the local change, else the server's, else what it was, and the
    local changes stay recorded as long as there are any. Nothing else is touched. *)
Theorem accepted_row_meets_local_changes r server pending projection :
  NoDup server.*1 → NoDup projection.*1 → NoDup (m_modified r).*1 →
  let local := local_changes r pending in
  let r' := projectModelRow r server pending projection in
  (is_tombstone server = true →
     m_modified r' = [] ∧ ∀ key, field key (m_fields r') = if writable r key then accepted_field r server [] [] key else field key (m_fields r))
  ∧ (is_tombstone server = false →
     m_modified r' = match local with [] => [] | _ => m_modified r end
     ∧ ∀ key, key ≠ "updatedAt" →
         field key (m_fields r') = if writable r key then accepted_field r server local projection key else field key (m_fields r)).
Proof.
  intros Hs Hp Hm local r'. pose proof (local_nodup r pending Hm) as Hl. fold local in Hl. unfold r', projectModelRow. fold local.
  split; intros Ht; rewrite Ht.
  - split; [done|]. intros key. simpl. rewrite update_get by done. unfold accepted_field. cbn [map_get]. by destruct (map_get key server), (writable r key).
  - destruct local as [|p l] eqn:El.
    + split; [done|]. intros key _. simpl. rewrite update_get by (by apply spread_keys). rewrite spread_get by done.
      unfold accepted_field. cbn [map_get]. by destruct (map_get key projection), (map_get key server), (writable r key).
    + rewrite <- El in *. split; [by rewrite update_modified|]. intros key Hk.
      assert (Hn : NoDup (spread (spread server local) projection).*1) by (by apply spread_keys, spread_keys).
      set (merged := spread (spread server local) projection) in *.
      assert (Hget : map_get key merged = match map_get key projection with Some v => Some v | None => match map_get key local with Some v => Some v | None => map_get key server end end).
      { unfold merged. rewrite !spread_get by done. done. }
      rewrite update_get by (destruct (_ || _); [by apply NoDup_set_keys|done]).
      assert (Hsame : map_get key (if truthy (field "updatedAt" server) || truthy (field "updatedAt" (m_fields r))
        then map_set "updatedAt" (JDate (toEpochMs (field "updatedAt" (m_fields r)) `max` toEpochMs (field "updatedAt" server))) merged else merged) = map_get key merged).
      { destruct (_ || _); [|done]. by rewrite map_get_set, decide_False. }
      rewrite Hsame, Hget. unfold accepted_field. by destruct (map_get key projection), (map_get key local), (map_get key server), (writable r key).
Qed.
End Row.

(** ** Runs *)

Definition nothing_readonly (m k : string) : bool := false.
Definition no_date (s : string) : Z := 0.

Definition note : model_row :=
  mkRow "Note" "n1" [("id", JStr "n1"); ("title", JStr "old"); ("body", JStr "old"); ("updatedAt", JDate 5)] [] None false true.

Lemma accepted_row_meets_local_changes_witness :
  let r := applyChanges nothing_readonly no_date 7 [("title", JStr "mine")] note in
  let r' := projectModelRow nothing_readonly no_date r [("title", JStr "theirs"); ("body", JStr "theirs"); ("updatedAt", JNum 9)] [] [] in
  field "title" (m_fields r') = JStr "mine" ∧ field "body" (m_fields r') = JStr "theirs" ∧ field "updatedAt" (m_fields r') = JDate 9
  ∧ m_modified r' = [("title", (JStr "old", JStr "mine"))].
Proof.
  intros r r'. split_and!; [|by vm_compute..].
  destruct (accepted_row_meets_local_changes nothing_readonly no_date r [("title", JStr "theirs"); ("body", JStr "theirs"); ("updatedAt", JNum 9)] [] [])
    as [_ H]; [by decide_now|by constructor|by decide_now|].
  destruct (H ltac:(by vm_compute)) as [_ Hf]. specialize (Hf "title" ltac:(done)). unfold r'. rewrite Hf. by vm_compute.
Defined.

(** Of two changes of one field, a queued one and a later one that is not queued yet, a
    delta shows the earlier: the row goes back to it, while the later one stays recorded
    and is what the next save sends. *)
Theorem delta_hides_the_later_edit :
  let r := applyChanges nothing_readonly no_date 7 [("title", JStr "second")] (with_fields (map_set "title" (JStr "first") (m_fields note)) note) in
  let queued := mkOutstanding "Note" "n1" true [("title", JStr "first")] in
  let r' := projectModelRow nothing_readonly no_date r [("body", JStr "theirs")] [queued] [] in
  field "title" (m_fields r) = JStr "second" ∧ field "title" (m_fields r') = JStr "first" ∧ getChanges r' = [("title", JStr "second")].
Proof. vm_compute. by split_and!. Qed.
