(* ===== verification/DeltaPool.v ===== *)
(** * Deltas in the pool

    How the changes the store answered with land in memory: [projectDeltaBatchForPool] and
    [applyDeltaBatchToPoolInAction] of [packages/humans/src/local/SyncClient.ts]. The pool
    is the instance cache with room for every row of a frame, by the id of a row; its
    eviction, indexes and views are those of [InstanceCache.v]. *)
From S2P Require Import Prelude JsData Json MutationQueue Confirmation DeltaStore ModelRow.
#[local] Open Scope string_scope.
#[local] Open Scope list_scope.
#[local] Open Scope Z_scope.

(** ** State *)

Inductive pool_scope := InLive | InArchive.
#[export] Instance pool_scope_eq_dec : EqDecision pool_scope.
Proof. solve_decision. Defined.

(** A resident row, with its watermark. *)
Record pooled := mkPooled { pd_row : model_row; pd_scope : pool_scope; pd_mark : option Z }.

Record pool := mkPool {
  pl_rows : gmap string pooled;
  pl_echoes : UnconfirmedWrites;
  pl_deletes : list string;
}.

(** What the loop over a frame collects for the batch calls that end it. *)
Record collected := mkCollected {
  cl_pool : pool;
  modelsToAdd : list (model_row * option Z);
  modelsToUpsert : list string;
  idsToRemove : list string;
  idsToArchive : list string;
}.

Definition advance_mark (position known : option Z) : option Z :=
  match position with
  | Some n => if negb (0 <? n) then known else match known with Some k => if k <? n then Some n else known | None => Some n end
  | None => known
  end.

Section Pool.
(** The assignment of fields, the properties of each registered model, the queued
    mutations, the fields the operation runtime retains and the rows it prepared. *)
Context (readonly : string → string → bool) (Date_parse : string → Z) (schema : string → option fields).
Context (queued : list outstanding) (retained : string → string → list string) (prepared_rows : string → string → option fields).

(** [createFromData]: the resident row of the id and model, updated in place, or a new one. *)
Definition createFromData (modelName id : string) (data : fields) (rows : gmap string pooled) : option (model_row * gmap string pooled) :=
  properties ← schema modelName;
  let construct := Some (updateFromData readonly Date_parse data (mkRow modelName id properties [] None true true), rows) in
  match rows !! id with
  | Some p =>
      if String.eqb (m_type (pd_row p)) modelName then
        let r := updateFromData readonly Date_parse data (pd_row p) in
        Some (r, <[id := mkPooled r (pd_scope p) (pd_mark p)]> rows)
      else construct
  | None => construct
  end.

Definition resolve (r : model_row) (data : fields) : model_row :=
  resolveConflicts readonly Date_parse r data queued (prepared_rows (m_type r) (m_id r)) (retained (m_type r) (m_id r)).

(** The fields an own echo confirms: those whose change is still the one sent. *)
Definition acknowledged (r : model_row) (data : fields) : list string :=
  omap (λ p, match map_get p.1 data with Some v => if deepEqual p.2.2 v then Some p.1 else None | None => None end) (m_modified r).

Definition set_row (id : string) (f : pooled → pooled) (p : pool) : pool := mkPool (alter f id (pl_rows p)) (pl_echoes p) (pl_deletes p).
Definition on_row (f : model_row → model_row) (p : pooled) : pooled := mkPooled (f (pd_row p)) (pd_scope p) (pd_mark p).
Definition end_delete (id : string) (p : pool) : pool := mkPool (pl_rows p) (pl_echoes p) (set_remove id (pl_deletes p)).
Definition with_pool (p : pool) (s : collected) : collected := mkCollected p (modelsToAdd s) (modelsToUpsert s) (idsToRemove s) (idsToArchive s).
Definition push_upsert (id : string) (s : collected) : collected := mkCollected (cl_pool s) (modelsToAdd s) (modelsToUpsert s ++ [id]) (idsToRemove s) (idsToArchive s).

(** An own echo: no row is brought back or taken away, an update reconciles. *)
Definition apply_echo (removing : list string) (c : AppliedChange) (s : collected) : collected :=
  let s := if bool_decide (ch_action c = ChRemove) then with_pool (end_delete (ch_id c) (cl_pool s)) s else s in
  match pl_rows (cl_pool s) !! ch_id c, ch_data c with
  | Some p, Some data =>
      let s := with_pool (set_row (ch_id c) (on_row (consumeModifiedFields (Some (acknowledged (pd_row p) data)))) (cl_pool s)) s in
      let s := if bool_decide (ch_action c = ChUpdate) && negb (bool_decide (ch_id c ∈ removing))
               then push_upsert (ch_id c) (with_pool (set_row (ch_id c) (on_row (λ r, resolve r data)) (cl_pool s)) s) else s in
      with_pool (set_row (ch_id c) (on_row markAsSynced) (cl_pool s)) s
  | _, _ => s
  end.

(** A change of somebody else. *)
Definition apply_change (c : AppliedChange) (s : collected) : collected :=
  let p := cl_pool s in
  match ch_action c with
  | ChAdd =>
      match pl_rows p !! ch_id c, ch_data c with
      | Some _, _ => with_pool (set_row (ch_id c) (on_row markAsSynced) p) s
      | None, Some data =>
          match createFromData (ch_model c) (default (ch_id c) (record_id data)) data (pl_rows p) with
          | Some (r, rows) =>
              mkCollected (mkPool rows (pl_echoes p) (pl_deletes p)) (modelsToAdd s ++ [(r, advance_mark (ch_syncId c) None)])
                (modelsToUpsert s) (idsToRemove s) (idsToArchive s)
          | None => s
          end
      | None, None => s
      end
  | ChUpdate =>
      match pl_rows p !! ch_id c, ch_data c with
      | Some _, Some data => push_upsert (ch_id c) (with_pool (set_row (ch_id c) (on_row (λ r, resolve r data)) p) s)
      | _, _ => s
      end
  | ChRemove => mkCollected (end_delete (ch_id c) p) (modelsToAdd s) (modelsToUpsert s) (idsToRemove s ++ [ch_id c]) (idsToArchive s)
  | ChArchive => mkCollected p (modelsToAdd s) (modelsToUpsert s) (idsToRemove s) (idsToArchive s ++ [ch_id c])
  | ChVerify => s
  end.

Definition apply_one (removing : list string) (s : collected) (c : AppliedChange) : collected :=
  let p := set_row (ch_id c) (λ p, mkPooled (pd_row p) (pd_scope p) (advance_mark (ch_syncId c) (pd_mark p))) (cl_pool s) in
  let '(echoes, own) := consumeEcho (ch_tx c) (pl_echoes p) in
  let s := with_pool (mkPool (pl_rows p) echoes (pl_deletes p)) s in
  if own then apply_echo removing c s
  else if (bool_decide (ch_action c = ChAdd) || bool_decide (ch_action c = ChUpdate)) && bool_decide (ch_id c ∈ removing) then s
  else apply_change c s.

Definition removing (cs : list AppliedChange) : list string := omap (λ c, if bool_decide (ch_action c = ChRemove) then Some (ch_id c) else None) cs.

(** ** The batch calls *)

Definition set_scope (s : pool_scope) (p : pooled) : pooled := mkPooled (pd_row p) s (pd_mark p).

Definition add_row (rows : gmap string pooled) (m : model_row * option Z) : gmap string pooled :=
  match rows !! m_id m.1 with
  | Some p => <[m_id m.1 := set_scope InLive p]> rows
  | None => <[m_id m.1 := mkPooled m.1 InLive m.2]> rows
  end.

Definition reveal (s : collected) : pool :=
  let rows := foldl add_row (pl_rows (cl_pool s)) (modelsToAdd s) in
  let rows := foldl (λ rows id, alter (set_scope InLive) id rows) rows (modelsToUpsert s) in
  let rows := foldl (λ rows id, delete id rows) rows (idsToRemove s) in
  let rows := foldl (λ rows id, alter (set_scope InArchive) id rows) rows (idsToArchive s) in
  mkPool rows (pl_echoes (cl_pool s)) (pl_deletes (cl_pool s)).

Definition applyDeltaBatchToPool (cs : list AppliedChange) (p : pool) : pool :=
  reveal (foldl (apply_one (removing cs)) (mkCollected p [] [] [] []) cs).

(** ** What of a batch the pool keeps ([projectDeltaBatchForPool]) *)

Definition fresh_add (removed : list string) (rows : gmap string pooled) (c : AppliedChange) : bool :=
  bool_decide (ch_action c = ChAdd) && is_Some_b (ch_data c) && negb (bool_decide (ch_id c ∈ removed)) && negb (is_Some_b (rows !! ch_id c)).

Fixpoint discard_fresh (n : nat) (removed : list string) (rows : gmap string pooled) (cs : list AppliedChange) : list AppliedChange :=
  match cs, n with
  | [], _ => []
  | _, O => cs
  | c :: cs, S n => if fresh_add removed rows c then discard_fresh n removed rows cs else c :: discard_fresh (S n) removed rows cs
  end.

Definition projectDeltaBatchForPool (retentionLimit : list string → option Z) (p : pool) (cs : list AppliedChange) : list AppliedChange :=
  let removed := removing cs in
  let fresh := List.filter (fresh_add removed (pl_rows p)) cs in
  match retentionLimit (ch_model <$> fresh) with
  | None => cs
  | Some limit => discard_fresh (Z.to_nat (Z.max 0 (Z.of_nat (length fresh) - limit))) removed (pl_rows p) cs
  end.

(** ** A frame of distinct rows *)

(** What one change of somebody else makes of the row of its id. *)
Definition row_after_change (c : AppliedChange) (old : option pooled) : option pooled :=
  let old := (λ p, mkPooled (pd_row p) (pd_scope p) (advance_mark (ch_syncId c) (pd_mark p))) <$> old in
  match ch_action c, old, ch_data c with
  | ChAdd, Some p, _ => Some (on_row markAsSynced p)
  | ChAdd, None, Some data =>
      properties ← schema (ch_model c);
      Some (mkPooled (updateFromData readonly Date_parse data (mkRow (ch_model c) (ch_id c) properties [] None true true)) InLive (advance_mark (ch_syncId c) None))
  | ChAdd, None, None => None
  | ChUpdate, Some p, Some data => Some (set_scope InLive (on_row (λ r, resolve r data) p))
  | ChUpdate, p, _ => p
  | ChRemove, _, _ => None
  | ChArchive, p, _ => set_scope InArchive <$> p
  | ChVerify, p, _ => p
  end.

(** What the loop has of one id. *)
Definition view_of (s : collected) (id : string) :=
  (pl_rows (cl_pool s) !! id, base.filter (λ m : model_row * option Z, m_id m.1 = id) (modelsToAdd s),
   bool_decide (id ∈ modelsToUpsert s), bool_decide (id ∈ idsToRemove s), bool_decide (id ∈ idsToArchive s)).

Lemma update_id data r : m_id (updateFromData readonly Date_parse data r) = m_id r ∧ m_type (updateFromData readonly Date_parse data r) = m_type r.
Proof.
  pose proof (assign_meta readonly Date_parse data r) as H. unfold meta in H. unfold updateFromData. destruct (m_isNew _); simpl; split; congruence.
Qed.

(** A change that is no echo, whose payload carries the id of its envelope. *)
Definition foreign (echoes : UnconfirmedWrites) (c : AppliedChange) : Prop :=
  consumeEcho (ch_tx c) echoes = (echoes, false) ∧ ∀ data, ch_data c = Some data → ch_action c = ChAdd → record_id data = Some (ch_id c).

Lemma bool_snoc {A} `{EqDecision A} (x y : A) l : bool_decide (x ∈ l ++ [y]) = bool_decide (x ∈ l) || bool_decide (x = y).
Proof. rewrite <- bool_decide_or. apply bool_decide_ext. rewrite elem_of_app, list_elem_of_singleton. done. Qed.

Definition view_step (c : AppliedChange) (id : string) (v : option pooled * list (model_row * option Z) * bool * bool * bool) :=
  let '(old, adds, up, rm, ar) := v in
  let old := (λ p, mkPooled (pd_row p) (pd_scope p) (advance_mark (ch_syncId c) (pd_mark p))) <$> old in
  match ch_action c, old, ch_data c with
  | ChAdd, Some p, _ => (Some (on_row markAsSynced p), adds, up, rm, ar)
  | ChAdd, None, Some data =>
      match schema (ch_model c) with
      | Some properties => (None, adds ++ [(updateFromData readonly Date_parse data (mkRow (ch_model c) id properties [] None true true), advance_mark (ch_syncId c) None)], up, rm, ar)
      | None => (None, adds, up, rm, ar)
      end
  | ChUpdate, Some p, Some data => (Some (on_row (λ r, resolve r data) p), adds, true, rm, ar)
  | ChRemove, p, _ => (p, adds, up, true, ar)
  | ChArchive, p, _ => (p, adds, up, rm, true)
  | _, p, _ => (p, adds, up, rm, ar)
  end.

Lemma apply_one_foreign rms s c :
  foreign (pl_echoes (cl_pool s)) c → (ch_action c = ChAdd ∨ ch_action c = ChUpdate → ch_id c ∉ rms) →
  apply_one rms s c = apply_change c (with_pool (mkPool (pl_rows (set_row (ch_id c) (λ p, mkPooled (pd_row p) (pd_scope p) (advance_mark (ch_syncId c) (pd_mark p))) (cl_pool s)))
    (pl_echoes (cl_pool s)) (pl_deletes (cl_pool s))) s).
Proof.
  intros [He _] Hr. unfold apply_one. simpl. rewrite He. destruct (_ && _) eqn:E; [|done]. apply andb_true_iff in E as [Ha Hin].
  bool_simpl. exfalso. apply orb_true_iff in Ha as [Ha|Ha]; bool_simpl; apply Hr; auto.
Qed.

Lemma view_own rms s c :
  foreign (pl_echoes (cl_pool s)) c → (ch_action c = ChAdd ∨ ch_action c = ChUpdate → ch_id c ∉ rms) →
  view_of (apply_one rms s c) (ch_id c) = view_step c (ch_id c) (view_of s (ch_id c)) ∧ pl_echoes (cl_pool (apply_one rms s c)) = pl_echoes (cl_pool s).
Proof.
  intros Hf Hr. rewrite apply_one_foreign by done. destruct Hf as [_ Hid]. unfold apply_change, view_step, view_of. simpl. rewrite lookup_alter_eq.
  destruct (ch_action c) eqn:Ea.
  - destruct (pl_rows (cl_pool s) !! ch_id c) as [p|] eqn:Ep; simpl; [by rewrite lookup_alter_eq, lookup_alter_eq, Ep|].
    destruct (ch_data c) as [data|] eqn:Ed; [|simpl; by rewrite lookup_alter_eq, Ep]. rewrite (Hid data) by done. simpl. unfold createFromData.
    destruct (schema (ch_model c)) as [properties|]; simpl; [|by rewrite lookup_alter_eq, Ep]. rewrite lookup_alter_eq, Ep. simpl.
    rewrite lookup_alter_eq, Ep, filter_app, filter_cons, filter_nil. cbn [fst]. rewrite decide_True; [done|]. apply update_id.
  - destruct (pl_rows (cl_pool s) !! ch_id c) as [p|] eqn:Ep; simpl; [|by rewrite lookup_alter_eq, Ep].
    destruct (ch_data c) as [data|]; simpl; [|by rewrite lookup_alter_eq, Ep]. rewrite !lookup_alter_eq, Ep. simpl.
    rewrite bool_snoc, (bool_decide_true (ch_id c = ch_id c)) by done. by rewrite orb_true_r.
  - simpl. rewrite lookup_alter_eq, bool_snoc, (bool_decide_true (ch_id c = ch_id c)) by done. rewrite orb_true_r. by destruct (pl_rows (cl_pool s) !! ch_id c).
  - simpl. rewrite lookup_alter_eq, bool_snoc, (bool_decide_true (ch_id c = ch_id c)) by done. rewrite orb_true_r. by destruct (pl_rows (cl_pool s) !! ch_id c).
  - simpl. rewrite lookup_alter_eq. by destruct (pl_rows (cl_pool s) !! ch_id c).
Qed.

Lemma view_other rms s c id :
  foreign (pl_echoes (cl_pool s)) c → (ch_action c = ChAdd ∨ ch_action c = ChUpdate → ch_id c ∉ rms) → id ≠ ch_id c →
  view_of (apply_one rms s c) id = view_of s id ∧ pl_echoes (cl_pool (apply_one rms s c)) = pl_echoes (cl_pool s).
Proof.
  intros Hf Hr Hne. rewrite apply_one_foreign by done. destruct Hf as [_ Hid]. unfold apply_change, view_of. simpl.
  assert (Hb : ∀ l, bool_decide (id ∈ l ++ [ch_id c]) = bool_decide (id ∈ l)).
  { intros l. rewrite bool_snoc, (bool_decide_false (id = ch_id c)) by done. by rewrite orb_false_r. }
  destruct (ch_action c) eqn:Ea; simpl; try (by rewrite ?Hb, lookup_alter_ne).
  - rewrite lookup_alter_eq. destruct (pl_rows (cl_pool s) !! ch_id c) as [p|] eqn:Ep; simpl; [by rewrite !lookup_alter_ne|].
    destruct (ch_data c) as [data|] eqn:Ed; [|simpl; by rewrite lookup_alter_ne]. rewrite (Hid data) by done. simpl. unfold createFromData.
    destruct (schema (ch_model c)) as [properties|]; simpl; [|by rewrite lookup_alter_ne]. rewrite lookup_alter_eq, Ep. simpl.
    rewrite lookup_alter_ne, filter_app, filter_cons, filter_nil by done. cbn [fst]. rewrite decide_False, app_nil_r; [done|].
    intros E. apply Hne. rewrite <- E. by rewrite (proj1 (update_id _ _)).
  - rewrite lookup_alter_eq. destruct (pl_rows (cl_pool s) !! ch_id c) as [p|] eqn:Ep; simpl; [|by rewrite lookup_alter_ne].
    destruct (ch_data c) as [data|]; simpl; [|by rewrite lookup_alter_ne]. by rewrite Hb, !lookup_alter_ne.
Qed.

(** The batch calls, for one id. *)
Definition revealed (v : option pooled * list (model_row * option Z) * bool * bool * bool) : option pooled :=
  let '(old, adds, up, rm, ar) := v in
  let x := match old, adds with Some p, [] => Some p | Some p, _ => Some (set_scope InLive p) | None, [] => None | None, m :: _ => Some (mkPooled m.1 InLive m.2) end in
  let x := if up : bool then set_scope InLive <$> x else x in
  let x := if rm : bool then None else x in
  if ar : bool then set_scope InArchive <$> x else x.

Lemma alters_lookup (f : pooled → pooled) (Hf : ∀ p, f (f p) = f p) ids : ∀ (rows : gmap string pooled) id,
  foldl (λ rows id, alter f id rows) rows ids !! id = (if bool_decide (id ∈ ids) then f <$> rows !! id else rows !! id).
Proof.
  induction ids as [|i ids IH]; intros rows id; [done|]. cbn [foldl]. rewrite IH. destruct (decide (id = i)) as [->|Hne].
  - rewrite lookup_alter_eq, (bool_decide_true (i ∈ i :: ids)) by left. case_bool_decide; [|done]. destruct (rows !! i); simpl; [by rewrite Hf|done].
  - rewrite lookup_alter_ne by done. erewrite bool_decide_ext; [done|]. rewrite elem_of_cons. naive_solver.
Qed.

Lemma deletes_lookup ids : ∀ (rows : gmap string pooled) id,
  foldl (λ rows id, delete id rows) rows ids !! id = (if bool_decide (id ∈ ids) then None else rows !! id).
Proof.
  induction ids as [|i ids IH]; intros rows id; [done|]. cbn [foldl]. rewrite IH. destruct (decide (id = i)) as [->|Hne].
  - rewrite lookup_delete_eq, (bool_decide_true (i ∈ i :: ids)) by left. by case_bool_decide.
  - rewrite lookup_delete_ne by done. erewrite bool_decide_ext; [done|]. rewrite elem_of_cons. naive_solver.
Qed.

Lemma adds_lookup ms : ∀ (rows : gmap string pooled) id,
  foldl add_row rows ms !! id
  = match rows !! id, base.filter (λ m : model_row * option Z, m_id m.1 = id) ms with
    | Some p, [] => Some p | Some p, _ => Some (set_scope InLive p)
    | None, [] => None | None, m :: _ => Some (mkPooled m.1 InLive m.2) end.
Proof.
  induction ms as [|m ms IH]; intros rows id; [simpl; by destruct (rows !! id)|]. cbn [foldl]. rewrite IH, filter_cons. unfold add_row.
  destruct (decide (m_id m.1 = id)) as [<-|Hne].
  - destruct (rows !! m_id m.1) as [p|]; rewrite lookup_insert_eq; by destruct (base.filter _ ms).
  - destruct (rows !! m_id m.1) as [p|]; by rewrite lookup_insert_ne.
Qed.

Lemma reveal_view s id : pl_rows (reveal s) !! id = revealed (view_of s id).
Proof.
  unfold reveal, revealed, view_of. simpl. rewrite alters_lookup, deletes_lookup, alters_lookup, adds_lookup by done.
  repeat case_bool_decide; done.
Qed.

Lemma loop_view rms cs : ∀ s id,
  NoDup (ch_id <$> cs) → Forall (foreign (pl_echoes (cl_pool s))) cs →
  Forall (λ c, ch_action c = ChAdd ∨ ch_action c = ChUpdate → ch_id c ∉ rms) cs →
  view_of (foldl (apply_one rms) s cs) id
  = match List.find (λ c, String.eqb (ch_id c) id) cs with Some c => view_step c id (view_of s id) | None => view_of s id end.
Proof.
  induction cs as [|c cs IH]; intros s id Hn Hf Hr; [done|]. rewrite fmap_cons in Hn. apply NoDup_cons in Hn as [Hc Hn].
  apply Forall_cons in Hf as [Hfc Hf]. apply Forall_cons in Hr as [Hrc Hr]. cbn [foldl List.find].
  destruct (String.eqb_spec (ch_id c) id) as [<-|Hne].
  - destruct (view_own rms s c Hfc Hrc) as [Hv He]. rewrite IH by (rewrite ?He; done). rewrite Hv.
    destruct (List.find _ cs) as [c'|] eqn:E; [|done]. apply find_some in E as [Hin%list_elem_of_In Heq%String.eqb_eq].
    exfalso. apply Hc. rewrite <- Heq. by apply list_elem_of_fmap_2.
  - destruct (view_other rms s c id Hfc Hrc) as [Hv He]; [done|]. rewrite IH by (rewrite ?He; done). by rewrite Hv.
Qed.

Lemma removing_elem cs id : id ∈ removing cs ↔ ∃ c, c ∈ cs ∧ ch_action c = ChRemove ∧ ch_id c = id.
Proof.
  unfold removing. rewrite list_elem_of_omap. split.
  - intros (c & Hc & E). case_bool_decide; [|done]. injection E as <-. by exists c.
  - intros (c & Hc & Ha & <-). exists c. split; [done|]. by rewrite bool_decide_true.
Qed.

Lemma distinct_ids (cs : list AppliedChange) c c' : NoDup (ch_id <$> cs) → c ∈ cs → c' ∈ cs → ch_id c' = ch_id c → c' = c.
Proof.
  intros Hn (i & Hi)%list_elem_of_lookup (j & Hj)%list_elem_of_lookup E.
  assert (j = i) as ->; [|congruence]. eapply (NoDup_lookup _ _ _ (ch_id c) Hn); rewrite list_lookup_fmap; [rewrite Hj|rewrite Hi]; simpl; congruence.
Qed.

(** A frame of changes to distinct rows, none of them an own echo, lands in the pool as
    its changes would one by one: a row that is added is live with its data, one that is
    resident and updated is the accepted row with the local changes in it, one that is
    removed is gone, one that is archived leaves the live scope, and every other row is
    what it was. *)
Theorem frame_lands_row_by_row cs p id :
  NoDup (ch_id <$> cs) → Forall (foreign (pl_echoes p)) cs →
  pl_rows (applyDeltaBatchToPool cs p) !! id
  = match List.find (λ c, String.eqb (ch_id c) id) cs with Some c => row_after_change c (pl_rows p !! id) | None => pl_rows p !! id end.
Proof.
  intros Hn Hf. unfold applyDeltaBatchToPool. rewrite reveal_view, loop_view; [|done|done|].
  - destruct (List.find _ cs) as [c|] eqn:E; [|unfold view_of, revealed; simpl; by destruct (pl_rows p !! id)].
    apply find_some in E as [_ <-%String.eqb_eq]. unfold view_of, view_step, row_after_change. simpl.
    destruct (ch_action c), (pl_rows p !! ch_id c) as [q|]; simpl; try done.
    + destruct (ch_data c); [|done]. by destruct (schema (ch_model c)).
    + by destruct (ch_data c).
  - apply Forall_forall. intros c Hc Ha (c' & Hc' & Ha' & E)%removing_elem.
    assert (c' = c) as -> by (by eapply (distinct_ids cs)). rewrite Ha' in Ha. by destruct Ha.
Qed.
End Pool.
