(* ===== verification/DeltaRuns.v ===== *)
(** * Runs of the local store

    Concrete batches over the stores of [DeltaStore.v]: the hypotheses of the theorems
    about it at concrete inputs, and what a batch over IndexedDB does that the batch over
    memory stores does not. *)
From S2P Require Import Prelude JsData Json MutationQueue Confirmation DeltaStore DeltaStoreFacts ModelRow DeltaPool.
#[local] Open Scope string_scope.
#[local] Open Scope list_scope.
#[local] Open Scope Z_scope.

(** ** A database with one task *)

Definition quiet : idb_world := mkWorld (λ _ _, false) (λ _ _, None) (λ _, false) (λ _, false) false.

Definition t1 : fields := [("id", JStr "t1"); ("title", JStr "draft"); ("body", JStr "empty")].
Definition one_task : database := mkDatabase {[ "Task" := {[ "t1" := t1 ]}; "Note" := ∅ ]} 10 true.

Definition delta_of (n : Z) (a : SyncDeltaAction) (m id : string) (data : option fields) : SyncDelta := mkSyncDelta (Some n) a m id data None.

Definition run_idb := process_idb 0.
Definition row_after {A B} (r : database * A * B) (m id : string) : option fields := row_at (db_stores r.1.1) (m, id).

Definition retitle : SyncDelta := delta_of 11 ActU "Task" "t1" (Some [("title", JStr "final")]).
Definition rebody : SyncDelta := delta_of 12 ActU "Task" "t1" (Some [("body", JStr "text")]).
Definition new_task : SyncDelta := delta_of 12 ActI "Task" "t2" (Some [("title", JStr "second"); ("__typename", JStr "Task")]).
Definition new_note : SyncDelta := delta_of 13 ActI "Note" "n1" (Some [("text", JStr "note")]).

Lemma distinct_rows_are_written_alike_witness :
  run_idb quiet one_task [retitle; new_task; new_note] = process_in_memory 0 one_task [retitle; new_task; new_note].
Proof.
  apply distinct_rows_are_written_alike.
  - by split_and!.
  - apply (bool_decide_unpack _). by vm_compute.
  - repeat apply Forall_cons_2; [..|apply Forall_nil_2]; (split_and!; [by eexists|done|eexists; split; [done|done]|]); simpl.
    + split; [by eexists|]. intros data [= <-]. split; [|done]. apply (bool_decide_unpack _). by vm_compute.
    + eexists. split; [done|]. split; [|done]. apply (bool_decide_unpack _). by vm_compute.
    + eexists. split; [done|]. split; [|done]. apply (bool_decide_unpack _). by vm_compute.
Defined.

(** ** A store that fails *)

(** The transaction over the notes aborts. *)
Definition notes_abort : idb_world := mkWorld (λ _ _, false) (λ _ _, None) (λ _, false) (String.eqb "Note") false.

Definition note_between : list SyncDelta := [retitle; delta_of 12 ActI "Note" "n1" (Some []); delta_of 13 ActI "Task" "t3" (Some [])].

(** What was written before a store failed, and what was not. *)
Lemma note_between_is_not_covered :
  let r := run_idb notes_abort one_task note_between in
  r.2 = 11 ∧ row_after r "Task" "t3" = Some [("id", JStr "t3")] ∧ row_after r "Note" "n1" = None
  ∧ store_committed 0 notes_abort one_task note_between "Task" = true.
Proof.
  cbv zeta. split_and!; [by vm_compute..|]. set (r := run_idb notes_abort one_task note_between).
  destruct (cursor_covered 0 notes_abort one_task note_between r.1.1 r.1.2 11 0 retitle 11) as [H|(st & _ & _ & H & _)];
    [|by vm_compute|done|done|done|by vm_compute in H|done].
  split.
  - repeat apply Forall_cons_2; [..|apply Forall_nil_2]; by eexists.
  - intros [|[|[|i]]] [|[|[|j]]] d d' k k' Hij; simpl; try lia; intros; simplify_eq/=; lia.
Qed.

(** ** Deltas to one row in one batch *)

(** Two updates of one row in one batch: both stores take both deltas and answer with
    the same cursor, but the batch over IndexedDB merges each update onto the record it
    read before the transaction, so that the second put undoes the first one; and a
    row that was deleted and inserted anew gets the fields of the deleted one back. *)
Theorem second_update_undoes_the_first :
  let r := run_idb quiet one_task [retitle; rebody] in
  let m := process_in_memory 0 one_task [retitle; rebody] in
  (r.2 = 12 ∧ m.2 = 12)
  ∧ row_after m "Task" "t1" = Some [("id", JStr "t1"); ("title", JStr "final"); ("body", JStr "text")]
  ∧ row_after r "Task" "t1" = Some [("id", JStr "t1"); ("title", JStr "draft"); ("body", JStr "text")]
  ∧ let ds := [delta_of 11 ActD "Task" "t1" None; delta_of 12 ActI "Task" "t1" (Some []); delta_of 13 ActU "Task" "t1" (Some [("title", JStr "new")])] in
    row_after (process_in_memory 0 one_task ds) "Task" "t1" = Some [("id", JStr "t1"); ("title", JStr "new")]
    ∧ row_after (run_idb quiet one_task ds) "Task" "t1" = Some [("id", JStr "t1"); ("title", JStr "new"); ("body", JStr "empty")].
Proof. vm_compute. by split_and!. Qed.

(** An update of a row the same batch creates is merged onto what the server answers to a
    request for the row; where the request fails, the update is skipped, and the cursor
    passes it. *)
Theorem update_of_a_new_row_is_skipped :
  let ds := [delta_of 11 ActI "Task" "t2" (Some [("title", JStr "second")]); delta_of 12 ActU "Task" "t2" (Some [("title", JStr "renamed")])] in
  let r := run_idb quiet one_task ds in
  row_after r "Task" "t2" = Some [("id", JStr "t2"); ("title", JStr "second")] ∧ r.2 = 12
  ∧ omap (λ c, ch_action <$> c) r.1.2 = [ChAdd; ChVerify]
  ∧ row_after (process_in_memory 0 one_task ds) "Task" "t2" = Some [("id", JStr "t2"); ("title", JStr "renamed")].
Proof. vm_compute. by split_and!. Qed.

(** ** From batch to batch *)

(** The cursor is that of one batch: after a batch whose transaction over the notes
    aborted, where nothing after the delta before them is acknowledged, the next batch
    moves the cursor past them, and they are in no store. *)
Theorem next_batch_passes_a_failed_one :
  let r1 := run_idb notes_abort one_task [retitle; delta_of 12 ActI "Note" "n1" (Some [])] in
  let r2 := run_idb quiet r1.1.1 [delta_of 13 ActI "Task" "t3" (Some [])] in
  (r1.2 = 11 ∧ db_lastSyncId r1.1.1 = 11) ∧ (r2.2 = 13 ∧ db_lastSyncId r2.1.1 = 13)
  ∧ row_after r2 "Note" "n1" = None ∧ row_after r2 "Task" "t3" = Some [("id", JStr "t3")].
Proof. vm_compute. by split_and!. Qed.

(** A batch delivered again moves the stored cursor back. *)
Theorem redelivered_batch_moves_the_cursor_back :
  let r1 := run_idb quiet one_task [retitle; rebody; delta_of 13 ActI "Task" "t3" (Some [])] in
  db_lastSyncId r1.1.1 = 13 ∧ db_lastSyncId (run_idb quiet r1.1.1 [retitle]).1.1 = 11.
Proof. vm_compute. by split_and!. Qed.

(** ** An archive without the id *)

(** The id of the envelope is put into the payload of an insert and of an update, not of
    an archive: without one there the put throws, no delta of the store counts as
    written, and the put before it stays. The stores in memory take both. *)
Theorem archive_without_id_fails_its_store :
  let ds := [retitle; delta_of 12 ActA "Task" "t1" (Some [("title", JStr "final")])] in
  let r := run_idb quiet one_task ds in
  r.2 = 0 ∧ omap (λ c, ch_action <$> c) r.1.2 = [ChVerify; ChVerify]
  ∧ row_after r "Task" "t1" = Some [("id", JStr "t1"); ("title", JStr "final"); ("body", JStr "empty")]
  ∧ (process_in_memory 0 one_task ds).2 = 12
  ∧ row_after (process_in_memory 0 one_task ds) "Task" "t1" = Some [("title", JStr "final"); ("id", JStr "t1"); ("archivedAt", JDate 0)].
Proof. vm_compute. by split_and!. Qed.

(** ** A revived row *)

(** A delta that revives an archived row changes no store: its row stays archived. *)
Theorem revived_row_stays_archived :
  let archived := spread t1 [("archivedAt", JDate 5)] in
  let db := mkDatabase {[ "Task" := {[ "t1" := archived ]} ]} 10 true in
  let ds := [delta_of 11 ActV "Task" "t1" (Some (spread t1 [("archivedAt", JNull)]))] in
  row_after (run_idb quiet db ds) "Task" "t1" = Some archived ∧ row_after (process_in_memory 0 db ds) "Task" "t1" = Some archived
  ∧ (run_idb quiet db ds).2 = 11 ∧ (process_in_memory 0 db ds).2 = 0.
Proof. vm_compute. by split_and!. Qed.

(** * Frames in the store and in the pool

    Concrete frames through [DeltaStore.v] and [DeltaPool.v]: the theorem about distinct
    rows at one of them, and the frames after which the pool is not what the store is. *)

Definition two_models (m : string) : option fields :=
  if String.eqb m "Task" then Some [("id", JUndefined); ("title", JUndefined); ("body", JUndefined); ("archivedAt", JNull)]
  else if String.eqb m "Note" then Some [("id", JUndefined); ("title", JUndefined)] else None.

Definition land := applyDeltaBatchToPool nothing_readonly no_date two_models [] (λ _ _, []) (λ _ _, None).
Definition with_row (rows : gmap string pooled) : pool := mkPool rows (new_unconfirmed None) [].

Definition task_row (title : string) : pooled :=
  mkPooled (mkRow "Task" "t1" [("id", JStr "t1"); ("title", JStr title); ("body", JStr "empty"); ("archivedAt", JNull)] [] None false true) InLive None.
Definition pool_of_one : pool := with_row {[ "t1" := task_row "draft" ]}.

(** A frame through the store in memory, and its changes through the pool. *)
Definition through (db : database) (p : pool) (ds : list SyncDelta) : database * pool :=
  let r := process_in_memory 0 db ds in (r.1.1, land (omap id r.1.2) p).

Definition stored_title (r : database * pool) (m id : string) : option json := field "title" <$> row_at (db_stores r.1) (m, id).
Definition pooled_title (r : database * pool) (id : string) : option json := (λ q, field "title" (m_fields (pd_row q))) <$> pl_rows r.2 !! id.

Definition distinct_changes : list AppliedChange :=
  [mkChange ChUpdate "Task" "t1" (Some [("id", JStr "t1"); ("title", JStr "final")]) None (Some 11);
   mkChange ChAdd "Note" "n1" (Some [("id", JStr "n1"); ("title", JStr "note")]) None (Some 12)].

Lemma frame_lands_row_by_row_witness :
  (λ q, (field "title" (m_fields (pd_row q)), pd_mark q)) <$> pl_rows (land distinct_changes pool_of_one) !! "n1" = Some (JStr "note", Some 12).
Proof.
  unfold land.
  rewrite (frame_lands_row_by_row nothing_readonly no_date two_models [] (λ _ _, []) (λ _ _, None) distinct_changes pool_of_one "n1").
  - by vm_compute.
  - by decide_now.
  - repeat constructor; simpl; naive_solver.
Defined.

(** A frame with several changes of one row leaves the pool behind the store: an update
    of a row the frame creates is dropped in the pool, and a row the frame deletes and
    creates again is in the store and not in the pool. *)
Theorem frame_of_one_row_leaves_the_pool_behind :
  let create := [delta_of 11 ActI "Task" "t2" (Some [("title", JStr "first")]); delta_of 12 ActU "Task" "t2" (Some [("title", JStr "second")])] in
  let again := [delta_of 11 ActD "Task" "t1" None; delta_of 12 ActI "Task" "t1" (Some [("title", JStr "again")])] in
  (stored_title (through one_task pool_of_one create) "Task" "t2" = Some (JStr "second")
   ∧ pooled_title (through one_task pool_of_one create) "t2" = Some (JStr "first"))
  ∧ (stored_title (through one_task pool_of_one again) "Task" "t1" = Some (JStr "again")
     ∧ pooled_title (through one_task pool_of_one again) "t1" = None).
Proof. vm_compute. by split_and!. Qed.

(** A row that becomes visible again with newer data keeps the old data where it is still
    resident; an update of an archived row makes it live again; and an update of a row of
    another model with the same id is written to the resident one. *)
Theorem resident_rows_are_not_looked_at :
  let covering := [delta_of 11 ActC "Task" "t1" (Some [("title", JStr "newer")])] in
  let archived := through one_task pool_of_one [delta_of 11 ActA "Task" "t1" (Some t1)] in
  let after := through archived.1 archived.2 [delta_of 12 ActU "Task" "t1" (Some [("title", JStr "renamed")])] in
  let shared := mkDatabase {[ "Task" := {[ "t1" := t1 ]}; "Note" := {[ "t1" := [("id", JStr "t1"); ("title", JStr "note")] ]} ]} 10 true in
  (stored_title (through one_task pool_of_one covering) "Task" "t1" = Some (JStr "newer")
   ∧ pooled_title (through one_task pool_of_one covering) "t1" = Some (JStr "draft"))
  ∧ (pd_scope <$> pl_rows archived.2 !! "t1" = Some InArchive ∧ pd_scope <$> pl_rows after.2 !! "t1" = Some InLive
     ∧ field "archivedAt" <$> row_at (db_stores after.1) ("Task", "t1") = Some (JDate 0))
  ∧ pooled_title (through shared pool_of_one [delta_of 11 ActU "Note" "t1" (Some [("title", JStr "note 2")])]) "t1" = Some (JStr "note 2").
Proof. vm_compute. by split_and!. Qed.

(** An echo of an own delete ends the fence of reads and takes nothing away. *)
Lemma own_delete_echo_removes_nothing :
  let p := mkPool {[ "t1" := task_row "draft" ]} (markPending "tx" (new_unconfirmed None)) ["t1"] in
  let p' := land [mkChange ChRemove "Task" "t1" None (Some "tx") (Some 11)] p in
  pl_deletes p' = [] ∧ is_Some (pl_rows p' !! "t1") ∧ uw_ids (pl_echoes p') = [].
Proof. vm_compute. split_and!; by eauto. Qed.
