(* ===== verification/DeltaFrames.v ===== *)
(** * Frames of deltas

    The pure parts of [packages/humans/src/local/sync/deltaPipeline.ts]: repeated
    deliveries removed from a batch, and applied changes cut into slices at the
    boundaries of transactions. *)
From S2P Require Import Prelude JsData Json DeltaStore.
From Stdlib Require Import Sorted.
#[local] Open Scope string_scope.
#[local] Open Scope list_scope.
#[local] Open Scope Z_scope.

(** ** Deltas as they arrive *)

(** The payload is an object, its JSON text, or [null]. *)
Inductive wire_data := DataNull | DataObject (f : fields) | DataText (s : string).

Record WireDelta := mkWireDelta {
  wd_id : Z;
  wd_action : SyncDeltaAction;
  wd_model : string;
  wd_modelId : string;
  wd_data : wire_data;
  wd_tx : option string;
  wd_correlation : option string;
}.

(** ** Repeated deliveries ([deduplicateDeltas]) *)

Fixpoint strictly_ordered (l : list WireDelta) : bool :=
  match l with
  | x :: (y :: _) as l' => (wd_id x <? wd_id y) && strictly_ordered l'
  | _ => true
  end.

Fixpoint keep_new (seen : list Z) (l : list WireDelta) : list WireDelta :=
  match l with
  | [] => []
  | d :: l => if bool_decide (wd_id d ∈ seen) then keep_new seen l else d :: keep_new (wd_id d :: seen) l
  end.

Definition deduplicateDeltas (l : list WireDelta) : list WireDelta :=
  if (length l <? 2)%nat || existsb (λ d, wd_id d <=? 0) l then l
  else if strictly_ordered l then l
  else keep_new [] (sort_by (λ a b, wd_id a - wd_id b) l).

Definition below (x y : WireDelta) : Prop := wd_id x < wd_id y.
Definition first_with (n : Z) (l : list WireDelta) : option WireDelta := head (base.filter (λ d, wd_id d = n) l).

Lemma strictly_ordered_sorted l : strictly_ordered l = true → StronglySorted below l.
Proof.
  intros Ho. apply Sorted_StronglySorted; [by intros x y z; apply Z.lt_trans|]. revert Ho.
  induction l as [|x [|y l] IH]; intros Ho; [constructor|by repeat constructor|].
  cbn [strictly_ordered] in Ho. bool_simpl. constructor; [by apply IH|by constructor].
Qed.

(** In an ascending list the kept deltas ascend strictly, and are the first ones of
    their ids. *)
Lemma keep_new_spec l : ∀ seen,
  StronglySorted (λ x y, wd_id x ≤ wd_id y) l → Forall (λ n, Forall (λ d, n ≤ wd_id d) l) seen →
  StronglySorted below (keep_new seen l) ∧ (∀ d, d ∈ keep_new seen l → wd_id d ∉ seen)
  ∧ ∀ d, d ∈ keep_new seen l ↔ wd_id d ∉ seen ∧ first_with (wd_id d) l = Some d.
Proof.
  induction l as [|d l IH]; intros seen Hs Hseen.
  { split_and!; [constructor|by intros d ?%elem_of_nil|]. intros d. simpl. rewrite elem_of_nil. unfold first_with. simpl. naive_solver. }
  apply StronglySorted_inv in Hs as [Hs Hd].
  assert (Hseen' : Forall (λ n, Forall (λ d, n ≤ wd_id d) l) seen).
  { eapply Forall_impl; [exact Hseen|]. intros n Hn. by apply Forall_cons in Hn as [_ ?]. }
  assert (Hfw : ∀ x, first_with (wd_id x) (d :: l) = if decide (wd_id d = wd_id x) then Some d else first_with (wd_id x) l).
  { intros x. unfold first_with. rewrite filter_cons. by destruct (decide _). }
  cbn [keep_new]. case_bool_decide as Hin.
  - destruct (IH seen Hs Hseen') as (H1 & H2 & H3). split_and!; [done|done|]. intros x. rewrite H3, Hfw.
    destruct (decide (wd_id d = wd_id x)) as [E|]; [|done]. rewrite E in Hin. naive_solver.
  - destruct (IH (wd_id d :: seen) Hs) as (H1 & H2 & H3); [by constructor|].
    assert (Hab : ∀ x, x ∈ keep_new (wd_id d :: seen) l → below d x).
    { intros x Hx. pose proof (H2 x Hx) as [Hne _]%not_elem_of_cons. apply H3 in Hx as [_ Hx].
      unfold first_with in Hx. destruct (base.filter _ l) as [|x' r] eqn:E; [done|]. injection Hx as ->.
      assert (x ∈ l) as Hxl by (eapply (list_elem_of_filter (λ d, wd_id d = wd_id x)); rewrite E; left).
      rewrite Forall_forall in Hd. specialize (Hd x Hxl). unfold below. simpl in Hd. lia. }
    split_and!.
    + constructor; [done|]. apply Forall_forall. auto.
    + intros x [->|Hx]%elem_of_cons; [done|]. specialize (H2 x Hx). by apply not_elem_of_cons in H2 as [_ ?].
    + intros x. rewrite elem_of_cons, H3, Hfw, not_elem_of_cons. destruct (decide (wd_id d = wd_id x)) as [E|Hne].
      * split; [intros [->|[[? _] _]]; [done|congruence]|intros [_ [= ->]]; by left].
      * split; [intros [->|[[_ ?] ?]]; [done|done]|intros [? ?]; right; split; [split; [congruence|done]|done]].
Qed.

(** The sort keeps the order of deltas with the same id. *)
Lemma insert_filter n d l :
  StronglySorted (λ x y, wd_id x ≤ wd_id y) l →
  base.filter (λ x, wd_id x = n) (insert_by (λ a b, wd_id a - wd_id b) d l) = base.filter (λ x, wd_id x = n) (l ++ [d]).
Proof.
  induction l as [|y l IH]; intros Hs; [done|]. apply StronglySorted_inv in Hs as [Hs Hy]. cbn [insert_by app].
  destruct (Z.ltb_spec 0 (wd_id y - wd_id d)).
  - rewrite (filter_cons _ d), filter_cons, (filter_cons _ y (l ++ [d])), filter_app, (filter_cons _ d []).
    destruct (decide (wd_id d = n)) as [E|]; [|by rewrite app_nil_r].
    rewrite !(decide_False (P := wd_id y = n)) by lia. rewrite filter_drops; [done|].
    intros x Hx. rewrite Forall_forall in Hy. specialize (Hy x Hx). simpl in Hy. lia.
  - rewrite !(filter_cons _ y), IH by done. done.
Qed.

Lemma sort_first n l : first_with n (sort_by (λ a b, wd_id a - wd_id b) l) = first_with n l.
Proof.
  unfold first_with. f_equal. induction l as [|d l IH] using rev_ind; [done|].
  unfold sort_by. rewrite foldl_app. cbn [foldl]. fold (sort_by (λ a b, wd_id a - wd_id b) l).
  rewrite insert_filter by apply (sort_by_key wd_id). by rewrite !filter_app, IH.
Qed.

Lemma sorted_first l d : StronglySorted below l → d ∈ l → first_with (wd_id d) l = Some d.
Proof.
  unfold first_with. induction 1 as [|y l Hs IH Hy]; [by intros ?%elem_of_nil|]. rewrite filter_cons. intros [->|Hd]%elem_of_cons; [by rewrite decide_True|].
  rewrite decide_False; [by apply IH|]. rewrite Forall_forall in Hy. specialize (Hy d Hd). unfold below in Hy. lia.
Qed.

(** The batch without its repeated deliveries. *)
Lemma dedupe_spec l :
  existsb (λ d, wd_id d <=? 0) l = false →
  StronglySorted below (deduplicateDeltas l) ∧ ∀ d, d ∈ deduplicateDeltas l ↔ first_with (wd_id d) l = Some d.
Proof.
  intros He. assert (Hsorted : StronglySorted below l → StronglySorted below l ∧ ∀ d, d ∈ l ↔ first_with (wd_id d) l = Some d).
  { intros Hs. split; [done|]. intros d. split; [by apply sorted_first|]. unfold first_with. intros Hf.
    destruct (base.filter _ l) as [|x r] eqn:E; [done|]. injection Hf as ->.
    eapply (list_elem_of_filter (λ x, wd_id x = wd_id d)). rewrite E. left. }
  unfold deduplicateDeltas. rewrite He, orb_false_r. destruct (Nat.ltb_spec (length l) 2) as [Hl|Hl].
  - apply Hsorted. destruct l as [|x [|y l]]; [constructor|by repeat constructor|simpl in Hl; lia].
  - destruct (strictly_ordered l) eqn:Ho; [by apply Hsorted, strictly_ordered_sorted|].
    destruct (keep_new_spec (sort_by (λ a b, wd_id a - wd_id b) l) []) as (H1 & _ & H3); [apply (sort_by_key wd_id)|constructor|].
    split; [done|]. intros d. rewrite H3, sort_first. split; [by intros [_ ?]|]. split; [apply not_elem_of_nil|done].
Qed.

Lemma sorted_strictly l : StronglySorted below l → strictly_ordered l = true.
Proof.
  induction l as [|x [|y l] IH]; intros Hs; [done|done|]. apply StronglySorted_inv in Hs as [Hs Hx]. cbn [strictly_ordered].
  apply Forall_cons in Hx as [Hx _]. unfold below in Hx. apply andb_true_iff. split; [by apply Z.ltb_lt|by apply IH].
Qed.

(** Deduplication of a batch with positive ids leaves the first delta of each id, and
    nothing else, in strictly ascending order: no log entry is dropped, whatever the order
    they arrived in, and doing it again changes nothing; a batch with an id that is not
    positive is left as it is. *)
Theorem dedupe_keeps_each_entry_once l :
  (existsb (λ d, wd_id d <=? 0) l = true → deduplicateDeltas l = l)
  ∧ (existsb (λ d, wd_id d <=? 0) l = false →
       StronglySorted below (deduplicateDeltas l)
       ∧ (∀ d, d ∈ deduplicateDeltas l ↔ first_with (wd_id d) l = Some d)
       ∧ deduplicateDeltas (deduplicateDeltas l) = deduplicateDeltas l).
Proof.
  split; intros He; [unfold deduplicateDeltas; by rewrite He, orb_true_r|].
  destruct (dedupe_spec l He) as [Hs Hm]. split_and!; [done|done|].
  unfold deduplicateDeltas at 1. rewrite sorted_strictly by done. by destruct (_ || _).
Qed.

(** ** Slices ([sliceApplyChanges]) *)

Section Slices.
Context {T : Type} (txOf : T → option string).
Implicit Types (l s : list T).

(** The run of changes of one transaction at the head of a list. *)
Fixpoint span_tx (tx : string) (l : list T) : list T * list T :=
  match l with
  | c :: l' => if decide (txOf c = Some tx) then let '(a, b) := span_tx tx l' in (c :: a, b) else ([], l)
  | [] => ([], [])
  end.

(** The indivisible unit that starts here. *)
Definition unit_at (c : T) (rest : list T) : list T * list T :=
  match txOf c with
  | Some tx => let '(a, b) := span_tx tx rest in (c :: a, b)
  | None => ([c], rest)
  end.

(** The loop, with as much fuel as it may take turns. *)
Fixpoint slice_loop (fuel : nat) (maxDeltas : Z) (slices : list (list T)) (current changes : list T) : option (list (list T)) :=
  match changes, fuel with
  | [], _ => Some (match current with [] => slices | _ => slices ++ [current] end)
  | _ :: _, O => None
  | c :: rest, S fuel =>
      let '(u, rest) := unit_at c rest in
      if (0 <? Z.of_nat (length current)) && (maxDeltas <? Z.of_nat (length current + length u))
      then slice_loop fuel maxDeltas (slices ++ [current]) u rest
      else slice_loop fuel maxDeltas slices (current ++ u) rest
  end.

Definition sliceApplyChanges (changes : list T) (maxDeltas : Z) : option (list (list T)) :=
  if Z.of_nat (length changes) <=? maxDeltas then Some (match changes with [] => [] | _ => [changes] end)
  else slice_loop (length changes) maxDeltas [] [] changes.

(** No transaction goes on from one slice to the next. *)
Definition boundary s s' : Prop :=
  ∀ x y tx, last s = Some x → head s' = Some y → txOf x = Some tx → txOf y ≠ Some tx.

Definition one_unit s : Prop := (∃ c, s = [c]) ∨ ∃ tx, Forall (λ c, txOf c = Some tx) s.

Definition slice_ok (maxDeltas : Z) s : Prop := s ≠ [] ∧ (Z.of_nat (length s) <= maxDeltas ∨ one_unit s).

(** Slices that are cut at boundaries only, and none of which the next one would fit into. *)
Inductive packed (maxDeltas : Z) : list (list T) → Prop :=
  | packed_nil : packed maxDeltas []
  | packed_one s : slice_ok maxDeltas s → packed maxDeltas [s]
  | packed_cons s s' ss :
      slice_ok maxDeltas s → boundary s s' → maxDeltas < Z.of_nat (length s + length s') →
      packed maxDeltas (s' :: ss) → packed maxDeltas (s :: s' :: ss).

Lemma span_spec tx l :
  let '(a, b) := span_tx tx l in l = a ++ b ∧ Forall (λ c, txOf c = Some tx) a ∧ ∀ y, head b = Some y → txOf y ≠ Some tx.
Proof.
  induction l as [|c l IH]; [by split_and!|]. cbn [span_tx]. case_decide as E.
  - destruct (span_tx tx l) as [a b], IH as (-> & Ha & Hb). split_and!; [done|by constructor|done].
  - split_and!; [done|constructor|]. by intros y [= <-].
Qed.

Lemma unit_spec c rest :
  let '(u, r) := unit_at c rest in
  c :: rest = u ++ r ∧ one_unit u ∧ boundary u r ∧ (∃ u', u = c :: u') ∧ (length r <= length rest)%nat.
Proof.
  unfold unit_at. destruct (txOf c) as [tx|] eqn:E.
  - pose proof (span_spec tx rest) as Hs. destruct (span_tx tx rest) as [a b], Hs as (-> & Ha & Hb). split_and!; [done| | |by eexists|].
    + right. exists tx. by constructor.
    + intros x y tx' Hx Hy Htx. assert (Forall (λ c, txOf c = Some tx) (c :: a)) as Hall by (by constructor).
      rewrite Forall_forall in Hall. rewrite (Hall x) in Htx by (by apply last_Some_elem_of). injection Htx as <-. by apply Hb.
    + rewrite length_app. lia.
  - split_and!; [done|left; by eexists| |by eexists|done]. intros x y tx [= <-] _. congruence.
Qed.

Lemma slice_loop_spec maxDeltas fuel : ∀ slices current changes,
  (length changes <= fuel)%nat → current = [] ∨ slice_ok maxDeltas current → boundary current changes →
  ∃ ext, slice_loop fuel maxDeltas slices current changes = Some (slices ++ ext) ∧ mjoin ext = current ++ changes
    ∧ packed maxDeltas ext ∧ (current ≠ [] → ∃ more ss, ext = (current ++ more) :: ss).
Proof.
  induction fuel as [|fuel IH]; intros slices current [|c rest] Hf Hc Hb; try (simpl in Hf; lia).
  1, 2: destruct current as [|x current]; [exists []|exists [x :: current]]; (split_and!; [simpl; by rewrite ?app_nil_r|done| |]);
        [constructor|done|by constructor; destruct Hc|intros _; exists [], []; by rewrite app_nil_r].
  cbn [slice_loop]. pose proof (unit_spec c rest) as Hu. destruct (unit_at c rest) as [u r], Hu as (Hsplit & Hone & Hur & [u' Hu'] & Hlen).
  simpl in Hf. assert (Hune : u ≠ []) by (by rewrite Hu').
  destruct ((0 <? Z.of_nat (length current)) && (maxDeltas <? Z.of_nat (length current + length u))) eqn:Hfull.
  - bool_simpl. destruct (IH (slices ++ [current]) u r) as (ext & He & Hj & Hp & Hh); [lia|right; by split; [|right]|done|].
    destruct (Hh Hune) as (more & ss & ->). assert (Hcok : slice_ok maxDeltas current).
    { destruct Hc as [->|?]; [simpl in *; lia|done]. }
    exists (current :: (u ++ more) :: ss). split_and!.
    + rewrite He. by rewrite <- app_assoc.
    + transitivity (current ++ mjoin ((u ++ more) :: ss)); [done|]. by rewrite Hj, Hsplit.
    + constructor; [done| |rewrite length_app; lia|done]. intros x y tx Hx Hy. apply (Hb x y tx Hx). rewrite Hu' in Hy. simpl in Hy. simpl. done.
    + intros _. exists [], ((u ++ more) :: ss). by rewrite app_nil_r.
  - destruct (IH slices (current ++ u) r) as (ext & He & Hj & Hp & Hh); [lia| | |].
    + right. split; [destruct current; [done|done]|]. destruct current as [|x current]; [by right|left].
      apply andb_false_iff in Hfull as [Hx|Hx]; bool_simpl; [simpl in Hx; lia|by rewrite length_app].
    + intros x y tx Hx. rewrite last_app in Hx. destruct (last u) as [z|] eqn:Ez; [by apply Hur; congruence|].
      by apply last_None in Ez.
    + exists ext. split_and!; [done|by rewrite Hj, <- app_assoc, Hsplit|done|].
      intros _. destruct (Hh ltac:(destruct current; simpl; done)) as (more & ss & ->). exists (u ++ more), ss. by rewrite <- app_assoc.
Qed.

(** Cutting applied changes into slices ends, loses and reorders nothing, cuts no
    transaction, makes no slice over the bound unless it is one transaction, or one change
    where the bound is less, and makes no two slices where one would do. *)
Theorem slicing_ends_at_transactions changes maxDeltas :
  ∃ slices, sliceApplyChanges changes maxDeltas = Some slices ∧ mjoin slices = changes ∧ packed maxDeltas slices.
Proof.
  unfold sliceApplyChanges. destruct (Z.leb_spec (Z.of_nat (length changes)) maxDeltas) as [Hle|Hle].
  - destruct changes as [|c changes]; eexists; (split_and!; [done|simpl; by rewrite ?app_nil_r|]); [constructor|].
    constructor. split; [done|by left].
  - destruct (slice_loop_spec maxDeltas (length changes) [] [] changes) as (ext & He & Hj & Hp & _); [lia|by left|by intros x y tx|].
    by exists ext.
Qed.
End Slices.
