(* ===== verification/DeltaPipeline.v ===== *)
(** * The delta pipeline

    [packages/humans/src/local/sync/deltaPipeline.ts], with the queuing of
    [sync/bootstrapApply.ts] and of [BaseSyncedStore.ts]: deltas are accepted into a
    queue, detached in batches by one flush at a time, written to the local store,
    revealed in slices, and acknowledged. A step runs the code up to its next [await];
    an input says what the awaited promise answers, or what else happens meanwhile. What
    the store answers, how the pool narrows a batch before it is cut, and the frames the
    operation runtime reveals itself are inputs. Plugin handlers return. *)
From S2P Require Import Prelude JsData Json Positions DeltaStore DeltaFrames.
#[local] Open Scope string_scope.
#[local] Open Scope list_scope.
#[local] Open Scope Z_scope.

(** ** State *)

Inductive pipe_event :=
  | EvConfirm (syncId : Z) (tx correlation : option string)
  | EvReceived (d : WireDelta)
  | EvGroupHandler (d : WireDelta)
  | EvCascade (model id : string)
  | EvCustomWrite (model id : string) (f : fields)
  | EvCustomRemove (id : string)
  | EvPersist (stored : list SyncDelta)
  | EvPersisted (stored : list SyncDelta) (dbResults poolResults : list AppliedChange) (persistedSyncId : Z)
  | EvApply (changes : list AppliedChange)
  | EvSkipped
  | EvAck (syncId : Z)
  | EvNotify (changes : list AppliedChange)
  | EvReturned (batch : list WireDelta)
  | EvDropped (batch : list WireDelta)
  | EvFlushError
  | EvPoolCleared
  | EvRebootstrap.

(** Where a batch in flight is: its store write is under way, or the operation runtime
    prepares it, or slices of it are left to reveal. *)
Inductive stage :=
  | Persisting (stored : list SyncDelta)
  | Preparing (dbResults poolResults : list AppliedChange) (persistedSyncId : Z)
  | Applying (dbResults : list AppliedChange) (slices : list (list AppliedChange)) (persistedSyncId : Z).

(** [activeFlushes]: none, one with a detached batch and the generation it began in, one
    that yields to the host between batches, or one whose drain is over and whose entry
    is deleted in a microtask. *)
Inductive flush :=
  | NoFlush
  | Flushing (queuedDeltas : list WireDelta) (generation : nat) (at_ : stage)
  | Yielding
  | Settling (failed : bool).

Record pipeline := mkPipeline {
  pendingDeltas : list WireDelta;
  batchTimer : bool;
  bootstrapDeltaQueue : option (list WireDelta);
  activeBootstrapCount : nat;
  position : LogPositionSnapshot;
  publicationGeneration : nat;
  unappliedChanges : option (list (Z * AppliedChange));
  activeFlush : flush;
  p_log : list pipe_event;
}.

Definition new_pipeline (p : LogPositionSnapshot) : pipeline := mkPipeline [] false None 0 p 0 None NoFlush [].

Definition set_pending x s := mkPipeline x (batchTimer s) (bootstrapDeltaQueue s) (activeBootstrapCount s) (position s) (publicationGeneration s) (unappliedChanges s) (activeFlush s) (p_log s).
Definition set_timer x s := mkPipeline (pendingDeltas s) x (bootstrapDeltaQueue s) (activeBootstrapCount s) (position s) (publicationGeneration s) (unappliedChanges s) (activeFlush s) (p_log s).
Definition set_bootstrap q n s := mkPipeline (pendingDeltas s) (batchTimer s) q n (position s) (publicationGeneration s) (unappliedChanges s) (activeFlush s) (p_log s).
Definition set_position x s := mkPipeline (pendingDeltas s) (batchTimer s) (bootstrapDeltaQueue s) (activeBootstrapCount s) x (publicationGeneration s) (unappliedChanges s) (activeFlush s) (p_log s).
Definition set_generation x s := mkPipeline (pendingDeltas s) (batchTimer s) (bootstrapDeltaQueue s) (activeBootstrapCount s) (position s) x (unappliedChanges s) (activeFlush s) (p_log s).
Definition set_unapplied x s := mkPipeline (pendingDeltas s) (batchTimer s) (bootstrapDeltaQueue s) (activeBootstrapCount s) (position s) (publicationGeneration s) x (activeFlush s) (p_log s).
Definition set_flush x s := mkPipeline (pendingDeltas s) (batchTimer s) (bootstrapDeltaQueue s) (activeBootstrapCount s) (position s) (publicationGeneration s) (unappliedChanges s) x (p_log s).
Definition emit l s := mkPipeline (pendingDeltas s) (batchTimer s) (bootstrapDeltaQueue s) (activeBootstrapCount s) (position s) (publicationGeneration s) (unappliedChanges s) (activeFlush s) (p_log s ++ l).

Section Pipeline.
(** [JSON.parse] of a payload ([None] where it throws), the custom entities of the host,
    and the two sizes of [smartSyncOptions]. *)
Context (JSON_parse : string → option fields) (isCustomEntity : string → bool) (maxBatchSize applySliceDeltas : Z).

(** ** The queue *)

(** [clearPendingPublications] *)
Definition clearPendingPublications (s : pipeline) : pipeline :=
  emit [EvDropped (pendingDeltas s)] (set_pending [] (set_unapplied None (set_generation (S (publicationGeneration s)) s))).

(** [handleGroupHandlerFailure] *)
Definition handleGroupHandlerFailure (s : pipeline) : pipeline := emit [EvPoolCleared; EvRebootstrap] s.

(** [enqueueDelta]: whether the delta was pushed, and the state. *)
Definition enqueueDelta (authoritative : bool) (d : WireDelta) (s : pipeline) : bool * pipeline :=
  if negb authoritative && (0 <? wd_id d) && (wd_id d <=? lp_applied (position s)) then (false, s)
  else
    let s := emit [EvConfirm (wd_id d) (wd_tx d) (wd_correlation d)] s in
    match bootstrapDeltaQueue s with
    | Some q => (false, set_bootstrap (Some (q ++ [d])) (activeBootstrapCount s) s)
    | None =>
        let s := set_position (advanceApplied (wd_id d) (position s)) s in
        match wd_action d with
        | ActG | ActS => (false, emit [EvGroupHandler d] s)
        | a =>
            let s := match a with ActD => emit [EvCascade (wd_model d) (wd_modelId d)] s | _ => s end in
            (true, emit [EvReceived d] (set_pending (pendingDeltas s ++ [d]) s))
        end
    end.

Fixpoint enqueue_all (ds : list WireDelta) (s : pipeline) : bool * pipeline :=
  match ds with
  | [] => (false, s)
  | d :: ds =>
      let '(pushed, s) := enqueueDelta true d s in
      let '(any, s) := enqueue_all ds s in
      (pushed || any, s)
  end.

(** ** Payloads *)

Definition parse_data (w : wire_data) : option (option fields) :=
  match w with
  | DataNull => Some None
  | DataObject f => Some (Some f)
  | DataText t => match JSON_parse t with Some f => Some (Some f) | None => None end
  end.

(** A regular delta as [processDeltaBatch] takes it. *)
Definition to_store (d : WireDelta) : option SyncDelta :=
  match parse_data (wd_data d) with
  | Some data => Some (mkSyncDelta (Some (wd_id d)) (wd_action d) (wd_model d) (wd_modelId d) data (wd_tx d))
  | None => None
  end.

(** What one delta of a custom entity does to the pool; a payload of [null] is passed over
    before its action is looked at. *)
Definition custom_one (d : WireDelta) : option (list pipe_event) :=
  match parse_data (wd_data d) with
  | None => None
  | Some None => Some []
  | Some (Some f) =>
      Some match wd_action d with
           | ActI | ActU | ActC => [EvCustomWrite (wd_model d) (wd_modelId d) f]
           | ActD => [EvCustomRemove (wd_modelId d)]
           | _ => []
           end
  end.

(** The custom deltas of a batch, up to one whose payload cannot be parsed. *)
Fixpoint apply_custom (l : list WireDelta) : list pipe_event * bool :=
  match l with
  | [] => ([], true)
  | d :: l => match custom_one d with
              | None => ([], false)
              | Some evs => let '(rest, ok) := apply_custom l in (evs ++ rest, ok)
              end
  end.

(** ** The drain *)

(** The exit of the loop of [drainPendingDeltas]. *)
Definition drain_over (s : pipeline) : pipeline := set_flush (Settling false) (set_timer false s).

(** The rejected promise of the drain. *)
Definition drain_throws (queuedDeltas : list WireDelta) (s : pipeline) : pipeline :=
  set_flush (Settling true) (set_pending (queuedDeltas ++ pendingDeltas s) s).

(** One turn of the loop, up to the store write of [flushDeltaBatchInner]. *)
Definition drain_turn (s : pipeline) : pipeline :=
  match pendingDeltas s with
  | [] => drain_over s
  | queuedDeltas =>
      let s := set_pending [] (set_timer false s) in
      let deltas := deduplicateDeltas queuedDeltas in
      let '(evs, ok) := apply_custom (base.filter (λ d, isCustomEntity (wd_model d) = true) deltas) in
      let s := emit evs s in
      match ok, mapM to_store (base.filter (λ d, isCustomEntity (wd_model d) = false) deltas) with
      | true, Some stored =>
          emit [EvPersist stored] (set_flush (Flushing queuedDeltas (publicationGeneration s) (Persisting stored)) s)
      | _, _ => drain_throws queuedDeltas s
      end
  end.

(** [flushPendingDeltas]; a second call joins the flush under way. *)
Definition flushPendingDeltas (s : pipeline) : pipeline :=
  match activeFlush s with NoFlush => drain_turn s | _ => s end.

(** The batch is over: the drain yields to the host where there are more deltas. *)
Definition batch_over (s : pipeline) : pipeline :=
  match pendingDeltas s with [] => drain_over s | _ => set_flush Yielding s end.

(** It returned, or it returned without an effect since the publications were cleared. *)
Definition batch_returns (queuedDeltas : list WireDelta) (s : pipeline) : pipeline := batch_over (emit [EvReturned queuedDeltas] s).
Definition batch_stale (queuedDeltas : list WireDelta) (s : pipeline) : pipeline := batch_over (emit [EvDropped queuedDeltas] s).

(** The batch threw: it goes back to the head of the queue, unless the publications were
    cleared since it began. *)
Definition batch_throws (queuedDeltas : list WireDelta) (generation : nat) (s : pipeline) : pipeline :=
  if bool_decide (generation = publicationGeneration s) then drain_throws queuedDeltas s
  else drain_turn (emit [EvDropped queuedDeltas] s).

(** ** The batch *)

(** The change held since its reveal failed, for a result that says nothing was written. *)
Definition recall (held : option (list (Z * AppliedChange))) (c : AppliedChange) : AppliedChange :=
  match held, ch_action c, ch_syncId c with
  | Some held, ChVerify, Some n => if 0 <? n then default c (map_get n held) else c
  | _, _, _ => c
  end.

(** The changes to hold when their reveal failed. *)
Definition hold (dbResults : list AppliedChange) (held : list (Z * AppliedChange)) : list (Z * AppliedChange) :=
  foldl (λ m c, match ch_action c, ch_syncId c with
                | ChVerify, _ => m
                | _, Some n => if 0 <? n then map_set n c m else m
                | _, None => m
                end) held dbResults.

Definition release (dbResults : list AppliedChange) (held : list (Z * AppliedChange)) : list (Z * AppliedChange) :=
  foldl (λ m c, match ch_syncId c with Some n => map_delete n m | None => m end) held dbResults.

Definition nonempty_map (m : list (Z * AppliedChange)) : option (list (Z * AppliedChange)) :=
  match m with [] => None | _ => Some m end.

Definition to_stage (queuedDeltas : list WireDelta) (generation : nat) (st : stage) (s : pipeline) : pipeline :=
  set_flush (Flushing queuedDeltas generation st) s.

(** The store write settled: its results and its cursor, or a rejection; and what the pool
    keeps of the results. *)
Definition persist_settles (answer : option (list AppliedChange * Z)) (project : list AppliedChange → list AppliedChange)
    (queuedDeltas : list WireDelta) (generation : nat) (stored : list SyncDelta) (s : pipeline) : pipeline :=
  match answer with
  | None => batch_throws queuedDeltas generation s
  | Some (results, n) =>
      if negb (bool_decide (generation = publicationGeneration s)) then batch_stale queuedDeltas s
      else
        let dbResults := recall (unappliedChanges s) <$> results in
        let poolResults := project dbResults in
        to_stage queuedDeltas generation (Preparing dbResults poolResults n) (emit [EvPersisted stored dbResults poolResults n] s)
  end.

(** The [catch] around the reveal. *)
Definition apply_throws (queuedDeltas : list WireDelta) (generation : nat) (dbResults : list AppliedChange) (s : pipeline) : pipeline :=
  if negb (bool_decide (generation = publicationGeneration s)) then batch_stale queuedDeltas s
  else
    let pending := hold dbResults (default [] (unappliedChanges s)) in
    batch_throws queuedDeltas generation (match pending with [] => s | _ => set_unapplied (Some pending) s end).

(** What [applyPreparedDeltaBatch] answers: it leaves the batch to the slices, or revealed
    it, or was superseded by a clear of the operation runtime and revealed nothing, or threw. *)
Inductive prepared := PrepDeclined | PrepApplied | PrepSuperseded | PrepThrows.

Definition prepare_settles (p : prepared) (queuedDeltas : list WireDelta) (generation : nat)
    (dbResults poolResults : list AppliedChange) (n : Z) (s : pipeline) : pipeline :=
  match p with
  | PrepDeclined =>
      to_stage queuedDeltas generation (Applying dbResults (default [] (sliceApplyChanges ch_tx poolResults applySliceDeltas)) n) s
  | PrepApplied =>
      to_stage queuedDeltas generation (Applying dbResults [] n)
        (if bool_decide (generation = publicationGeneration s) then emit [EvApply poolResults] s else s)
  | PrepSuperseded => to_stage queuedDeltas generation (Applying dbResults [] n) (emit [EvSkipped] s)
  | PrepThrows => apply_throws queuedDeltas generation dbResults s
  end.

(** After the last slice: the held changes go, the cursor is acknowledged. *)
Definition batch_ends (queuedDeltas : list WireDelta) (generation : nat) (dbResults : list AppliedChange) (n : Z) (s : pipeline) : pipeline :=
  if negb (bool_decide (generation = publicationGeneration s)) then batch_stale queuedDeltas s
  else
    let s := match unappliedChanges s with Some held => set_unapplied (nonempty_map (release dbResults held)) s | None => s end in
    let s := if lp_persisted (position s) <? n
             then emit [EvAck n] (set_position (advancePersisted n (position s)) s) else s in
    batch_returns queuedDeltas (emit [EvNotify dbResults] s).

(** One slice, which the pool takes or throws on; or the end. The loop may yield to the
    host before a slice. *)
Definition apply_proceeds (ok : bool) (queuedDeltas : list WireDelta) (generation : nat) (dbResults : list AppliedChange)
    (slices : list (list AppliedChange)) (n : Z) (s : pipeline) : pipeline :=
  match slices with
  | [] => batch_ends queuedDeltas generation dbResults n s
  | slice :: slices =>
      if negb (bool_decide (generation = publicationGeneration s)) then batch_stale queuedDeltas s
      else if ok then to_stage queuedDeltas generation (Applying dbResults slices n) (emit [EvApply slice] s)
      else apply_throws queuedDeltas generation dbResults s
  end.

(** ** Entry points *)

(** [scheduleDeltaFlush] *)
Definition scheduleDeltaFlush (s : pipeline) : pipeline :=
  if maxBatchSize <=? Z.of_nat (length (pendingDeltas s)) then flushPendingDeltas (set_timer false s) else set_timer true s.

(** [processDeltaWithBatching] *)
Definition processDeltaWithBatching (d : WireDelta) (s : pipeline) : pipeline :=
  let '(pushed, s) := enqueueDelta false d s in if pushed then scheduleDeltaFlush s else s.

(** [persistDeltaFrame] *)
Definition persistDeltaFrame (ds : list WireDelta) (s : pipeline) : pipeline :=
  let '(any, s) := enqueue_all ds s in if any then flushPendingDeltas (set_timer false s) else s.

(** [replayQueuedDeltas] *)
Definition replayQueuedDeltas (s : pipeline) : pipeline :=
  let queue := default [] (bootstrapDeltaQueue s) in
  persistDeltaFrame queue (set_bootstrap None (activeBootstrapCount s) s).

(** The two ends of [withDeltaQueuing]. *)
Definition bootstrap_begins (s : pipeline) : pipeline :=
  set_bootstrap (Some (default [] (bootstrapDeltaQueue s))) (S (activeBootstrapCount s)) s.
Definition bootstrap_ends (s : pipeline) : pipeline :=
  let s := set_bootstrap (bootstrapDeltaQueue s) (pred (activeBootstrapCount s)) s in
  if (activeBootstrapCount s =? 0)%nat then replayQueuedDeltas s else s.

(** The pipeline's part of the store's [disconnect]. *)
Definition disconnect (s : pipeline) : pipeline := emit [EvDropped (pendingDeltas s)] (set_pending [] (set_timer false s)).

Inductive pipe_input :=
  | Live (d : WireDelta)
  | Frame (ds : list WireDelta)
  | TimerFires
  | PersistSettles (answer : option (list AppliedChange * Z)) (project : list AppliedChange → list AppliedChange)
  | PrepareSettles (p : prepared)
  | ApplyProceeds (ok : bool)
  | HostYields
  | FlushSettles
  | ClearPublications
  | GroupHandlerFails
  | BootstrapBegins
  | BootstrapEnds
  | Disconnects.

Definition pipe_step (s : pipeline) (i : pipe_input) : pipeline :=
  match i with
  | Live d => processDeltaWithBatching d s
  | Frame ds => persistDeltaFrame ds s
  | TimerFires => if batchTimer s then flushPendingDeltas (set_timer false s) else s
  | PersistSettles answer project =>
      match activeFlush s with Flushing q g (Persisting stored) => persist_settles answer project q g stored s | _ => s end
  | PrepareSettles p =>
      match activeFlush s with Flushing q g (Preparing db pool n) => prepare_settles p q g db pool n s | _ => s end
  | ApplyProceeds ok =>
      match activeFlush s with Flushing q g (Applying db slices n) => apply_proceeds ok q g db slices n s | _ => s end
  | HostYields => match activeFlush s with Yielding => drain_turn s | _ => s end
  | FlushSettles =>
      match activeFlush s with
      | Settling failed => set_flush NoFlush (if failed then emit [EvFlushError] s else s)
      | _ => s
      end
  | ClearPublications => clearPendingPublications s
  | GroupHandlerFails => handleGroupHandlerFailure s
  | BootstrapBegins => bootstrap_begins s
  | BootstrapEnds => if (activeBootstrapCount s =? 0)%nat then s else bootstrap_ends s
  | Disconnects => disconnect s
  end.

Definition pipe_run (p : LogPositionSnapshot) (l : list pipe_input) : pipeline := foldl pipe_step (new_pipeline p) l.
End Pipeline.
