(* ===== verification/GroupChange.v ===== *)
(** * Changes of access

    [packages/humans/src/local/sync/groupChange.ts]: the deltas that change the sync
    groups a session sees, as the effects their handlers have, with the awaited calls
    that may fail, and the fallback of [sync/deltaPipeline.ts] where one does. *)
From S2P Require Import Prelude JsData Json DeltaStore DeltaFrames.
#[local] Open Scope string_scope.
#[local] Open Scope list_scope.

(** ** Effects *)

Inductive group_effect :=
  | SessionCleared
  | DatabaseCleared
  | PoolCleared
  | GroupsStored (groups : list string)
  | FullBootstrapMarked
  | Disconnected.
#[export] Instance group_effect_eq_dec : EqDecision group_effect.
Proof. solve_decision. Defined.

(** Whether the database cannot be cleared, its metadata cannot be read or written, and
    whether the participant never bootstraps. *)
Record group_world := mkGroupWorld {
  clear_fails : bool;
  metadata_read_fails : bool;
  metadata_write_fails : bool;
  mode_none : bool;
}.

(** What an async handler did, and whether its promise is fulfilled. *)
Definition effects := (list group_effect * bool)%type.
Definition did (l : list group_effect) : effects := (l, true).
Definition and_then (r k : effects) : effects := if r.2 then (r.1 ++ k.1, k.2) else r.
Notation "r '⊳' k" := (and_then r k) (at level 60, right associativity).

Section Group.
(** [JSON.parse], [None] where it throws; and what the handlers find. *)
Context (JSON_parse : string → option json) (w : group_world).

Definition clear_database : effects := if clear_fails w then ([], false) else did [DatabaseCleared].
Definition store_groups (groups : list string) : effects := if metadata_write_fails w then ([], false) else did [GroupsStored groups].

(** [forceFullRebootstrap] *)
Definition forceFullRebootstrap : list group_effect := if mode_none w then [] else [FullBootstrapMarked; Disconnected].

(** The clear each handler makes on a revocation. *)
Definition clear_cached : effects := did [SessionCleared] ⊳ clear_database ⊳ did [PoolCleared].

(** ** Payloads *)

(** [parseGroupChangePayload]; [None] for [MALFORMED_PAYLOAD]. *)
Definition parseGroupChangePayload (d : WireDelta) : option json :=
  match wd_data d with DataNull => Some JNull | DataObject f => Some (JObj f) | DataText s => JSON_parse s end.

(** A property of [raw ?? {}]. *)
Definition payload_field (raw : json) (key : string) : json :=
  match raw with JObj f => default JUndefined (map_get key f) | _ => JUndefined end.
Definition payload_string (raw : json) (key : string) : option string :=
  match payload_field raw key with JStr s => Some s | _ => None end.
(** A property cast to [string[]], or an empty list where it is missing. *)
Definition payload_list (raw : json) (key : string) : json :=
  match payload_field raw key with JUndefined | JNull => JArr [] | v => v end.

(** [value.length > 0]; an object may carry a [length] of its own. *)
Definition length_positive (value : json) : bool :=
  match value with
  | JArr [] | JStr EmptyString => false
  | JArr _ | JStr _ => true
  | JObj f => match map_get "length" f with Some (JNum n) => (0 <? n)%Z | Some (JBool b) => b | _ => false end
  | _ => false
  end.

(** The characters of a text of UTF-8 bytes: a byte of the form 10xxxxxx goes on with the
    character before it. *)
Definition continues (s : string) : bool :=
  match s with String c _ => let n := Ascii.nat_of_ascii c in (128 <=? n)%nat && (n <? 192)%nat | EmptyString => false end.
Fixpoint characters (s : string) : list string :=
  match s with
  | EmptyString => []
  | String c s' => match characters s' with
                   | x :: l => if continues s' then String c x :: l else String c "" :: x :: l
                   | [] => [String c ""]
                   end
  end.

(** What [for (const g of value)] goes through; [None] where it throws. *)
Definition iterate (value : json) : option (list json) :=
  match value with JArr l => Some l | JStr s => Some (JStr <$> characters s) | _ => None end.

(** The entries that are texts; others name no group. *)
Definition strings (l : list json) : list string := omap (λ v, match v with JStr s => Some s | _ => None end) l.

(** ** Handlers *)

(** [computeUpdatedSyncGroups] *)
Definition computeUpdatedSyncGroups (current removed added : list string) : list string :=
  foldl (λ l g, set_add g l) (foldl (λ l g, set_remove g l) (foldl (λ l g, set_add g l) [] current) removed) added.

(** [clearForUnknownGroupChange] *)
Definition clearForUnknownGroupChange : effects := clear_cached ⊳ did forceFullRebootstrap.

(** [handleGroupAdded] *)
Definition handleGroupAdded (current : list string) (group : string) : effects := store_groups (computeUpdatedSyncGroups current [] [group]).

(** [handleSyncGroupChange] *)
Definition handleSyncGroupChange (current : list string) (d : WireDelta) : effects :=
  match parseGroupChangePayload d with
  | None => clearForUnknownGroupChange
  | Some raw =>
      match payload_string raw "group", payload_string raw "userId" with
      | Some group, Some _ => handleGroupAdded current group
      | _, _ =>
          let removedGroups := payload_list raw "removedGroups" in
          let addedGroups := payload_list raw "addedGroups" in
          (if length_positive removedGroups then clear_cached else did []) ⊳
          (match iterate removedGroups, iterate addedGroups with
           | Some removed, Some added => store_groups (computeUpdatedSyncGroups current (strings removed) (strings added))
           | _, _ => ([], false)
           end) ⊳
          did forceFullRebootstrap
      end
  end.

(** [handleGroupRemoved] *)
Definition handleGroupRemoved (current : list string) (d : WireDelta) : effects :=
  match parseGroupChangePayload d with
  | None => clearForUnknownGroupChange
  | Some raw =>
      match payload_string raw "group" with
      | None | Some EmptyString => did []
      | Some group => clear_cached ⊳ store_groups (computeUpdatedSyncGroups current [group] []) ⊳ did forceFullRebootstrap
      end
  end.

(** The pipeline's call of a handler, with [handleGroupHandlerFailure] on its rejection. *)
Definition on_group_delta (current : list string) (d : WireDelta) : list group_effect :=
  let r := match wd_action d with ActG => handleSyncGroupChange current d | ActS => handleGroupRemoved current d | _ => did [] end in
  if r.2 then r.1 else r.1 ++ PoolCleared :: forceFullRebootstrap.

(** [checkSyncGroupShrinkage]; whatever rejects is caught and logged. *)
Definition checkSyncGroupShrinkage (currentGroups stored : option (list string)) : list group_effect :=
  match currentGroups with
  | None => []
  | Some currentGroups =>
      if metadata_read_fails w then []
      else match default [] stored with
           | [] => []
           | stored =>
               let removed := base.filter (λ g, g ∉ currentGroups) stored in
               ((match removed with [] => did [] | _ => clear_cached ⊳ did [FullBootstrapMarked] end) ⊳
                store_groups (computeUpdatedSyncGroups currentGroups [] [])).1
           end
  end.

(** ** What a revocation does *)

(** The delta takes a group away and names it, or cannot be read. *)
Definition revokes (d : WireDelta) : bool :=
  match wd_action d, parseGroupChangePayload d with
  | (ActG | ActS), None => true
  | ActG, Some raw =>
      negb (is_Some_b (payload_string raw "group") && is_Some_b (payload_string raw "userId"))
      && length_positive (payload_list raw "removedGroups")
  | ActS, Some raw => match payload_string raw "group" with Some g => negb (String.eqb g "") | None => false end
  | _, _ => false
  end.

(** What is left to do after the clear. *)
Definition after_clear (k : effects) : list group_effect :=
  let r := clear_cached ⊳ k in if r.2 then r.1 else r.1 ++ PoolCleared :: forceFullRebootstrap.

(** Groups are recorded and a bootstrap is forced, or something was rejected before that. *)
Definition ends_in_bootstrap (k : effects) : Prop := k.2 = true → ∃ l, k.1 = l ++ forceFullRebootstrap.

(** An effect that clears something cached. *)
Definition clears (e : group_effect) : Prop := e = SessionCleared ∨ e = DatabaseCleared.

Lemma stored_ends gs : ends_in_bootstrap (store_groups gs ⊳ did forceFullRebootstrap).
Proof. unfold ends_in_bootstrap, store_groups, and_then. destruct (metadata_write_fails w); [done|]. intros _. by eexists [_]. Qed.

Lemma diff_ends (x y : option (list json)) gs :
  ends_in_bootstrap ((match x, y with Some r, Some a => store_groups (gs r a) | _, _ => ([], false) end) ⊳ did forceFullRebootstrap).
Proof. destruct x, y; [apply stored_ends|done..]. Qed.

Lemma revocation_clears current d : revokes d = true → ∃ k, ends_in_bootstrap k ∧ on_group_delta current d = after_clear k.
Proof.
  unfold revokes, on_group_delta, handleSyncGroupChange, handleGroupRemoved, after_clear.
  assert (Hd : ends_in_bootstrap (did forceFullRebootstrap)) by (intros _; by exists []).
  destruct (wd_action d); try done; destruct (parseGroupChangePayload d) as [raw|]; intros Hr; try by exists (did forceFullRebootstrap).
  - assert (Hl : length_positive (payload_list raw "removedGroups") = true) by (by apply andb_true_iff in Hr as [_ ?]).
    assert (Hi : match payload_string raw "group", payload_string raw "userId" with Some _, Some _ => False | _, _ => True end)
      by (by destruct (payload_string raw "group"), (payload_string raw "userId")).
    eexists. split; [apply (diff_ends (iterate (payload_list raw "removedGroups")) (iterate (payload_list raw "addedGroups"))
      (λ r a, computeUpdatedSyncGroups current (strings r) (strings a)))|].
    rewrite Hl. by destruct (payload_string raw "group"), (payload_string raw "userId").
  - destruct (payload_string raw "group") as [[|c g]|]; try done. eexists. by split; [apply stored_ends|].
Qed.

(** What is left of a handler that found nothing revoked. *)
Lemma tail_clears_nothing (k : effects) : (∀ e, e ∈ k.1 → ¬ clears e) → ∀ e, e ∈ (if k.2 then k.1 else k.1 ++ PoolCleared :: forceFullRebootstrap) → ¬ clears e.
Proof.
  intros Hk e. unfold forceFullRebootstrap, clears in *. destruct k.2; [apply Hk|].
  rewrite elem_of_app, elem_of_cons. destruct (mode_none w); rewrite ?elem_of_cons, elem_of_nil; naive_solver.
Qed.

Lemma store_clears_nothing gs e : e ∈ (store_groups gs).1 → ¬ clears e.
Proof. unfold store_groups, clears. destruct (metadata_write_fails w); simpl; rewrite ?elem_of_cons, elem_of_nil; naive_solver. Qed.

Lemma then_clears_nothing (k : effects) e : (∀ e, e ∈ k.1 → ¬ clears e) → e ∈ (k ⊳ did forceFullRebootstrap).1 → ¬ clears e.
Proof.
  intros Hk. unfold and_then, did, forceFullRebootstrap, clears in *. destruct k.2; [|apply Hk]. cbn [fst].
  rewrite elem_of_app. destruct (mode_none w); rewrite ?elem_of_cons, elem_of_nil; naive_solver.
Qed.

Lemma unrevoked_clears_nothing current d : revokes d = false → ∀ e, e ∈ on_group_delta current d → ¬ clears e.
Proof.
  intros Hr. apply tail_clears_nothing. revert Hr. unfold revokes, handleSyncGroupChange, handleGroupRemoved.
  assert (Hn : ∀ e : group_effect, e ∈ ([] : list group_effect) → ¬ clears e) by (by intros e ?%elem_of_nil).
  destruct (wd_action d); try done; destruct (parseGroupChangePayload d) as [raw|]; try done.
  - intros Hr. destruct (payload_string raw "group"), (payload_string raw "userId");
      [intros e; apply store_clears_nothing|simpl in Hr; rewrite Hr..]; intros e; apply then_clears_nothing;
      (destruct (iterate (payload_list raw "removedGroups")), (iterate (payload_list raw "addedGroups")); [apply store_clears_nothing|done..]).
  - by destruct (payload_string raw "group") as [[|c g]|].
Qed.

(** C19: a delta that takes a group away and names it, or that cannot be read, empties the
    pool whatever else fails: the operation session is cleared first of all, with the
    projections in flight, the database is cleared before the pool where it can be, and
    the session ends in a full bootstrap unless the participant never bootstraps. Those
    are all: any other delta clears neither the session nor the database, and a
    group-removed delta that names no group does nothing at all. *)
Theorem revocation_empties_the_pool current d :
  (revokes d = true →
   ∃ l1 l2, on_group_delta current d = SessionCleared :: l1 ++ PoolCleared :: l2
     ∧ (clear_fails w = false → DatabaseCleared ∈ l1)
     ∧ (mode_none w = false → ∃ l, PoolCleared :: l2 = l ++ [FullBootstrapMarked; Disconnected]))
  ∧ (revokes d = false →
     SessionCleared ∉ on_group_delta current d ∧ DatabaseCleared ∉ on_group_delta current d
     ∧ (wd_action d = ActS → on_group_delta current d = [])).
Proof.
  split.
  - intros Hr. destruct (revocation_clears current d Hr) as (k & Hk & ->). unfold ends_in_bootstrap, after_clear, clear_cached, clear_database, and_then, forceFullRebootstrap in *. simpl.
    destruct (clear_fails w); simpl.
    + exists [], (if mode_none w then [] else [FullBootstrapMarked; Disconnected]). split_and!; [done|done|]. intros ->. by exists [PoolCleared].
    + destruct k as [l [|]]; simpl in *.
      * destruct (Hk eq_refl) as [l' ->]. exists [DatabaseCleared], (l' ++ (if mode_none w then [] else [FullBootstrapMarked; Disconnected])).
        split_and!; [done|intros _; left|]. intros ->. by exists (PoolCleared :: l').
      * exists [DatabaseCleared], (l ++ PoolCleared :: (if mode_none w then [] else [FullBootstrapMarked; Disconnected])).
        split_and!; [done|intros _; left|]. intros ->. exists (PoolCleared :: l ++ [PoolCleared]). simpl. by rewrite <- app_assoc.
  - intros Hr. pose proof (unrevoked_clears_nothing current d Hr) as H. split_and!; [intros Hin; apply (H _ Hin); by left|intros Hin; apply (H _ Hin); by right|].
    intros Ha. revert Hr. unfold revokes, on_group_delta, handleGroupRemoved. rewrite Ha. destruct (parseGroupChangePayload d) as [raw|]; [|done].
    by destruct (payload_string raw "group") as [[|c g]|].
Qed.

Lemma set_add_elem x y l : x ∈ set_add y l ↔ x = y ∨ x ∈ l.
Proof.
  unfold set_add. case_bool_decide; [split; [by right|by intros [-> |]]|]. rewrite elem_of_app, list_elem_of_singleton. tauto.
Qed.

Lemma adds_elem added : ∀ l x, x ∈ foldl (λ l g, set_add g l) l added ↔ x ∈ l ∨ x ∈ added.
Proof.
  induction added as [|g added IH]; intros l x; [rewrite elem_of_nil; tauto|]. cbn [foldl]. rewrite IH, set_add_elem, elem_of_cons. tauto.
Qed.

Lemma removes_elem removed : ∀ l x, x ∈ foldl (λ l g, set_remove g l) l removed ↔ x ∈ l ∧ x ∉ removed.
Proof.
  induction removed as [|g removed IH]; intros l x; [rewrite elem_of_nil; tauto|]. cbn [foldl]. rewrite IH, elem_of_cons. unfold set_remove.
  rewrite list_elem_of_filter. tauto.
Qed.

(** The groups after a change: those there were less those removed, and those added. *)
Lemma updated_groups current removed added g :
  g ∈ computeUpdatedSyncGroups current removed added ↔ (g ∈ current ∧ g ∉ removed) ∨ g ∈ added.
Proof. unfold computeUpdatedSyncGroups. rewrite adds_elem, removes_elem, adds_elem, elem_of_nil. tauto. Qed.
End Group.

(** ** Runs *)

Definition fine : group_world := mkGroupWorld false false false false.
Definition unreadable (s : string) : option json := None.
Definition group_delta (a : SyncDeltaAction) (data : wire_data) : WireDelta := mkWireDelta 7 a "" "" data None None.

Lemma revocation_empties_the_pool_witness :
  let w := mkGroupWorld true false true false in
  ∃ l1 l2, on_group_delta unreadable w ["a"; "b"] (group_delta ActS (DataObject [("group", JStr "a")])) = SessionCleared :: l1 ++ PoolCleared :: l2
    ∧ (clear_fails w = false → DatabaseCleared ∈ l1)
    ∧ (mode_none w = false → ∃ l, PoolCleared :: l2 = l ++ [FullBootstrapMarked; Disconnected]).
Proof. apply (proj1 (revocation_empties_the_pool unreadable (mkGroupWorld true false true false) ["a"; "b"] _)). reflexivity. Defined.

(** A delta that takes a group away without naming it clears nothing, where one that
    cannot be read clears everything; a list of removed groups that is a text is gone
    through by its characters, and one that is a number makes the handler fail, which
    empties the pool but not the database; and the check for groups lost between sessions
    leaves cached rows in place, and marks no bootstrap, where the database cannot be
    cleared. *)
Theorem unnamed_revocation_clears_nothing :
  on_group_delta unreadable fine ["a"; "b"] (group_delta ActS (DataObject [])) = []
  ∧ on_group_delta unreadable fine ["a"; "b"] (group_delta ActS (DataText "{"))
    = [SessionCleared; DatabaseCleared; PoolCleared; FullBootstrapMarked; Disconnected]
  ∧ on_group_delta unreadable fine ["a"; "b"] (group_delta ActG (DataObject [("removedGroups", JStr "a")]))
    = [SessionCleared; DatabaseCleared; PoolCleared; GroupsStored ["b"]; FullBootstrapMarked; Disconnected]
  ∧ on_group_delta unreadable fine ["a"; "b"] (group_delta ActG (DataObject [("removedGroups", JNum 1)]))
    = [PoolCleared; FullBootstrapMarked; Disconnected]
  ∧ checkSyncGroupShrinkage fine (Some ["a"]) (Some ["a"; "b"])
    = [SessionCleared; DatabaseCleared; PoolCleared; FullBootstrapMarked; GroupsStored ["a"]]
  ∧ checkSyncGroupShrinkage (mkGroupWorld true false false false) (Some ["a"]) (Some ["a"; "b"]) = [SessionCleared].
Proof. vm_compute. by split_and!. Qed.

(** Two groups added one after the other, with the same live subscription: the second
    record of the subscribed groups lacks the first one, and a later session that has lost
    that group does not notice. *)
Theorem second_group_added_forgets_the_first :
  let added g := DataObject [("group", JStr g); ("userId", JStr "u")] in
  on_group_delta unreadable fine ["a"] (group_delta ActG (added "b")) = [GroupsStored ["a"; "b"]]
  ∧ on_group_delta unreadable fine ["a"] (group_delta ActG (added "c")) = [GroupsStored ["a"; "c"]]
  ∧ checkSyncGroupShrinkage fine (Some ["a"; "c"]) (Some ["a"; "c"]) = [GroupsStored ["a"; "c"]].
Proof. vm_compute. by split_and!. Qed.
