(* ===== verification/DeltaPipelineFacts.v ===== *)
(** * What the delta pipeline keeps

    Invariants of the runs of [DeltaPipeline.v]: no accepted delta is lost, and what is
    acknowledged was written and revealed. *)
From S2P Require Import Prelude JsData Json Positions DeltaStore DeltaFrames DeltaPipeline.
From Stdlib Require Import Sorted.
#[local] Open Scope list_scope.
#[local] Open Scope Z_scope.

(** ** What a log says *)

Definition received (l : list pipe_event) : list WireDelta := l ≫= λ e, match e with EvReceived d => [d] | _ => [] end.
Definition returned (l : list pipe_event) : list WireDelta := l ≫= λ e, match e with EvReturned q => q | _ => [] end.
Definition dropped_deltas (l : list pipe_event) : list WireDelta := l ≫= λ e, match e with EvDropped q => q | _ => [] end.
Definition applied (l : list pipe_event) : list AppliedChange := l ≫= λ e, match e with EvApply c => c | _ => [] end.
Definition acked (l : list pipe_event) : list Z := l ≫= λ e, match e with EvAck n => [n] | _ => [] end.

Lemma received_app l l' : received (l ++ l') = received l ++ received l'.
Proof. apply bind_app. Qed.
Lemma returned_app l l' : returned (l ++ l') = returned l ++ returned l'.
Proof. apply bind_app. Qed.
Lemma dropped_app l l' : dropped_deltas (l ++ l') = dropped_deltas l ++ dropped_deltas l'.
Proof. apply bind_app. Qed.
Lemma applied_app l l' : applied (l ++ l') = applied l ++ applied l'.
Proof. apply bind_app. Qed.
Lemma acked_app l l' : acked (l ++ l') = acked l ++ acked l'.
Proof. apply bind_app. Qed.

(** ** Conservation *)

(** The deltas received are those of the batches that returned, those dropped, those in
    flight and those pending; in this order where none was dropped. *)
Definition kept (l : list pipe_event) (flight pending : list WireDelta) : Prop :=
  received l ≡ₚ dropped_deltas l ++ returned l ++ flight ++ pending
  ∧ (dropped_deltas l = [] → received l = returned l ++ flight ++ pending).

Definition in_flight (s : pipeline) : list WireDelta := match activeFlush s with Flushing q _ _ => q | _ => [] end.
Definition conserved (s : pipeline) : Prop := kept (p_log s) (in_flight s) (pendingDeltas s).

(** An event that neither takes in nor lets go of a delta. *)
Definition neutral (e : pipe_event) : bool := match e with EvReceived _ | EvReturned _ | EvDropped _ => false | _ => true end.

Lemma neutral_none l : forallb neutral l = true → received l = [] ∧ returned l = [] ∧ dropped_deltas l = [].
Proof. induction l as [|[] l IH]; simpl; try done; intros H; destruct (IH H) as (? & ? & ?); split_and!; done. Qed.

Lemma kept_neutral l evs f p : forallb neutral evs = true → kept l f p → kept (l ++ evs) f p.
Proof.
  intros (Hr & Ht & Hd)%neutral_none [H1 H2]. unfold kept. rewrite received_app, returned_app, dropped_app, Hr, Ht, Hd, !app_nil_r. done.
Qed.

Lemma kept_receive l f p d : kept l f p → kept (l ++ [EvReceived d]) f (p ++ [d]).
Proof.
  intros [H1 H2]. unfold kept. rewrite received_app, returned_app, dropped_app. simpl. rewrite !app_nil_r. split.
  - rewrite H1. by rewrite !app_assoc.
  - intros Hd. rewrite H2 by done. by rewrite !app_assoc.
Qed.

Lemma kept_return l f p : kept l f p → kept (l ++ [EvReturned f]) [] p.
Proof.
  intros [H1 H2]. unfold kept. rewrite received_app, returned_app, dropped_app. simpl. rewrite !app_nil_r. split.
  - rewrite H1. by rewrite !app_assoc.
  - intros Hd. rewrite H2 by done. by rewrite !app_assoc.
Qed.

Lemma kept_drop_flight l f p : kept l f p → kept (l ++ [EvDropped f]) [] p.
Proof.
  intros [H1 H2]. unfold kept. rewrite received_app, returned_app, dropped_app. simpl. rewrite !app_nil_r. split.
  - rewrite H1. rewrite <- !app_assoc. apply Permutation_app_head. rewrite !app_assoc. apply Permutation_app_tail, Permutation_app_comm.
  - intros [Hd ->]%app_eq_nil. rewrite H2 by done. done.
Qed.

Lemma kept_drop_pending l f p : kept l f p → kept (l ++ [EvDropped p]) f [].
Proof.
  intros [H1 H2]. unfold kept. rewrite received_app, returned_app, dropped_app. simpl. rewrite !app_nil_r. split.
  - rewrite H1. rewrite <- !app_assoc. apply Permutation_app_head. rewrite (Permutation_app_comm p). by rewrite <- !app_assoc.
  - intros [Hd ->]%app_eq_nil. rewrite H2 by done. by rewrite app_nil_r.
Qed.

Lemma kept_requeue l f p : kept l f p → kept l [] (f ++ p).
Proof. done. Qed.

Lemma kept_detach l p : kept l [] p → kept l p [].
Proof. unfold kept. by rewrite !app_nil_r. Qed.

#[export] Hint Resolve kept_receive kept_return kept_drop_flight kept_drop_pending kept_requeue kept_detach : ablo.

Section Facts.
Context (JSON_parse : string → option fields) (isCustomEntity : string → bool) (maxBatchSize applySliceDeltas : Z).
Notation step := (pipe_step JSON_parse isCustomEntity maxBatchSize applySliceDeltas).
Notation turn := (drain_turn JSON_parse isCustomEntity).
Notation flush_pending := (flushPendingDeltas JSON_parse isCustomEntity).

Lemma custom_events l : let '(evs, _) := apply_custom JSON_parse l in
  Forall (λ e, match e with EvCustomWrite _ _ _ | EvCustomRemove _ => True | _ => False end) evs.
Proof.
  induction l as [|d l IH]; [constructor|]. cbn [apply_custom]. destruct (custom_one JSON_parse d) as [evs|] eqn:E; [|constructor].
  destruct (apply_custom JSON_parse l) as [rest ok]. apply Forall_app. split; [|done]. revert E. unfold custom_one.
  destruct (parse_data JSON_parse (wd_data d)) as [[f|]|]; [|intros [= <-]; constructor|done]. destruct (wd_action d); intros [= <-]; by repeat constructor.
Qed.

Lemma custom_neutral l evs ok : apply_custom JSON_parse l = (evs, ok) → forallb neutral evs = true.
Proof.
  intros E. pose proof (custom_events l) as H. rewrite E in H. clear E. induction H as [|[] evs He H IH]; by try done.
Qed.

Lemma turn_kept s : kept (p_log s) [] (pendingDeltas s) → conserved (turn s).
Proof.
  intros Hk. unfold drain_turn. destruct (pendingDeltas s) as [|d q] eqn:Hp; [unfold conserved; simpl; by rewrite Hp|].
  destruct (apply_custom JSON_parse _) as [evs ok] eqn:E. apply custom_neutral in E.
  assert (Hk' : kept (p_log s ++ evs) [] (d :: q)) by (by apply kept_neutral).
  destruct ok; [|unfold conserved; simpl; by rewrite app_nil_r]. destruct (mapM _ _) as [stored|]; [|unfold conserved; simpl; by rewrite app_nil_r].
  unfold conserved. simpl. apply kept_neutral; [done|]. by apply kept_detach.
Qed.

Lemma flush_kept s : conserved s → conserved (flush_pending s).
Proof.
  intros Hc. unfold flushPendingDeltas. destruct (activeFlush s) eqn:E; try done. apply turn_kept. unfold conserved, in_flight in Hc. by rewrite E in Hc.
Qed.

Lemma enqueue_kept b d s : conserved s → conserved (enqueueDelta b d s).2.
Proof.
  intros Hc. unfold enqueueDelta. destruct (_ && _); [done|]. simpl. destruct (bootstrapDeltaQueue s).
  - by apply kept_neutral.
  - assert (Hd : conserved (emit [EvConfirm (wd_id d) (wd_tx d) (wd_correlation d)] s)) by (by apply kept_neutral).
    destruct (wd_action d); simpl; try (by apply kept_neutral); unfold conserved; simpl; try (by apply kept_receive).
    apply kept_receive. by apply (kept_neutral _ [_]).
Qed.

Lemma enqueue_all_kept ds : ∀ s, conserved s → conserved (enqueue_all ds s).2.
Proof.
  induction ds as [|d ds IH]; intros s Hc; [done|]. cbn [enqueue_all]. pose proof (enqueue_kept true d s Hc) as H.
  destruct (enqueueDelta true d s) as [pushed s1]. pose proof (IH s1 H) as H'. by destruct (enqueue_all ds s1).
Qed.

Lemma frame_kept ds s : conserved s → conserved (persistDeltaFrame JSON_parse isCustomEntity ds s).
Proof.
  intros Hc. unfold persistDeltaFrame. pose proof (enqueue_all_kept ds s Hc) as H. destruct (enqueue_all ds s) as [[] s1]; [|done]. by apply flush_kept.
Qed.

Lemma over_kept s : kept (p_log s) [] (pendingDeltas s) → conserved (batch_over s).
Proof. intros Hk. unfold batch_over. by destruct (pendingDeltas s) eqn:E; unfold conserved; simpl; rewrite E. Qed.

Lemma returns_kept q s : kept (p_log s) q (pendingDeltas s) → conserved (batch_returns q s).
Proof. intros Hk. apply over_kept. simpl. by apply kept_return. Qed.
Lemma stale_kept q s : kept (p_log s) q (pendingDeltas s) → conserved (batch_stale q s).
Proof. intros Hk. apply over_kept. simpl. by apply kept_drop_flight. Qed.

Lemma throws_kept q g s : kept (p_log s) q (pendingDeltas s) → conserved (batch_throws JSON_parse isCustomEntity q g s).
Proof.
  intros Hk. unfold batch_throws. case_bool_decide; [done|]. apply turn_kept. simpl. by apply kept_drop_flight.
Qed.

Lemma apply_throws_kept q g db s : kept (p_log s) q (pendingDeltas s) → conserved (apply_throws JSON_parse isCustomEntity q g db s).
Proof.
  intros Hk. unfold apply_throws. destruct (negb _); [by apply stale_kept|]. apply throws_kept. by destruct (hold db _).
Qed.

#[local] Hint Resolve flush_kept frame_kept returns_kept stale_kept throws_kept apply_throws_kept turn_kept : ablo.

Lemma step_conserved s i : conserved s → conserved (step s i).
Proof.
  intros Hc. destruct i; simpl.
  - unfold processDeltaWithBatching. pose proof (enqueue_kept false d s Hc) as H. destruct (enqueueDelta false d s) as [[] s1]; [|done].
    unfold scheduleDeltaFlush. destruct (_ <=? _); [by apply flush_kept|done].
  - by apply frame_kept.
  - destruct (batchTimer s); [by apply flush_kept|done].
  - destruct (activeFlush s) as [|q g []| |] eqn:E; try done. unfold conserved, in_flight in Hc. rewrite E in Hc. unfold persist_settles.
    destruct answer as [[results n]|]; [|by apply throws_kept]. destruct (negb _); [by apply stale_kept|]. by apply kept_neutral.
  - destruct (activeFlush s) as [|q g []| |] eqn:E; try done. unfold conserved, in_flight in Hc. rewrite E in Hc. unfold prepare_settles.
    destruct p; try done; [|by apply kept_neutral|by apply apply_throws_kept]. case_bool_decide; [by apply kept_neutral|done].
  - destruct (activeFlush s) as [|q g []| |] eqn:E; try done. unfold conserved, in_flight in Hc. rewrite E in Hc. unfold apply_proceeds, batch_ends.
    destruct slices as [|sl slices]; destruct (negb _); try (by apply stale_kept).
    + apply returns_kept. destruct (unappliedChanges s); simpl; destruct (_ <? _); simpl; repeat (apply kept_neutral; [done|]); done.
    + destruct ok; [by apply kept_neutral|by apply apply_throws_kept].
  - destruct (activeFlush s) eqn:E; try done. apply turn_kept. unfold conserved, in_flight in Hc. by rewrite E in Hc.
  - destruct (activeFlush s) as [| | |[]] eqn:E; try done; unfold conserved, in_flight in Hc; rewrite E in Hc; [by apply kept_neutral|done].
  - by apply kept_drop_pending.
  - by apply kept_neutral.
  - done.
  - destruct (_ =? _)%nat; [done|]. unfold bootstrap_ends. destruct (_ =? _)%nat; [|done]. by apply frame_kept.
  - by apply kept_drop_pending.
Qed.

(** C17: no accepted delta is lost or taken twice: in every run, whatever fails, the deltas
    the pipeline accepted are those of the batches that returned, those dropped when the
    publications were cleared or the store was disconnected, those of the one batch in
    flight and those pending; and where nothing was dropped, they went through in the
    order they were accepted. *)
Theorem accepted_deltas_are_conserved p l :
  let s := pipe_run JSON_parse isCustomEntity maxBatchSize applySliceDeltas p l in
  received (p_log s) ≡ₚ dropped_deltas (p_log s) ++ returned (p_log s) ++ in_flight s ++ pendingDeltas s
  ∧ (dropped_deltas (p_log s) = [] → received (p_log s) = returned (p_log s) ++ in_flight s ++ pendingDeltas s).
Proof.
  cbv zeta. change (conserved (pipe_run JSON_parse isCustomEntity maxBatchSize applySliceDeltas p l)). unfold pipe_run.
  assert (H : conserved (new_pipeline p)) by done. revert H. generalize (new_pipeline p). induction l as [|i l IH]; intros s Hs; [done|].
  cbn [foldl]. apply IH. by apply step_conserved.
Qed.
End Facts.

(** * The delta pipeline drains

    Runs of [DeltaPipeline.v] driven by the promises it awaits: a flush under way ends
    whatever they answer, with an empty queue unless something failed; and where no flush
    fails, deltas that wait have a timer. *)

Section Drain.
Context (JSON_parse : string → option fields) (isCustomEntity : string → bool) (maxBatchSize applySliceDeltas : Z).
Notation step := (pipe_step JSON_parse isCustomEntity maxBatchSize applySliceDeltas).
Notation turn := (drain_turn JSON_parse isCustomEntity).
Notation flush_pending := (flushPendingDeltas JSON_parse isCustomEntity).

(** A delta whose payload can be parsed. *)
Definition readable (d : WireDelta) : Prop := is_Some (parse_data JSON_parse (wd_data d)).

Lemma custom_parses l : Forall readable l → (apply_custom JSON_parse l).2 = true.
Proof.
  induction 1 as [|d l [x Hx] _ IH]; [done|]. cbn [apply_custom]. unfold custom_one. rewrite Hx.
  destruct x, (apply_custom JSON_parse l); done.
Qed.

Lemma stored_parses l : Forall readable l → is_Some (mapM (to_store JSON_parse) l).
Proof.
  intros Hl. apply mapM_is_Some. eapply Forall_impl; [exact Hl|]. intros d [x E]. unfold compose, to_store. rewrite E. by eexists.
Qed.

Lemma dedup_readable l : Forall readable l → Forall readable (deduplicateDeltas l).
Proof.
  intros Hl. apply Forall_forall. intros d Hd. rewrite Forall_forall in Hl. apply Hl.
  destruct (existsb (λ d, wd_id d <=? 0) l) eqn:E; [unfold deduplicateDeltas in Hd; by rewrite E, orb_true_r in Hd|].
  apply dedupe_spec in E as [_ E]. apply E in Hd. unfold first_with in Hd.
  destruct (base.filter _ l) as [|x r] eqn:Hf; [done|]. injection Hd as ->.
  eapply (list_elem_of_filter (λ x, wd_id x = wd_id d)). rewrite Hf. left.
Qed.

Lemma readable_filter (P : WireDelta → Prop) `{∀ d, Decision (P d)} l : Forall readable l → Forall readable (base.filter P (deduplicateDeltas l)).
Proof. intros Hl%dedup_readable. rewrite Forall_forall in *. intros d [_ Hd]%list_elem_of_filter. by apply Hl. Qed.

(** A turn of the drain throws on a payload, begins a batch of the whole queue, or is the
    last one. *)
Lemma drain_turn_cases s :
  (∃ s0, turn s = drain_throws (pendingDeltas s) s0 ∧ ¬ Forall readable (pendingDeltas s))
  ∨ pendingDeltas (turn s) = [] ∧ (activeFlush (turn s) = Settling false ∧ pendingDeltas s = []
      ∨ ∃ stored, activeFlush (turn s) = Flushing (pendingDeltas s) (publicationGeneration s) (Persisting stored)).
Proof.
  unfold drain_turn. destruct (pendingDeltas s) as [|d q] eqn:E; [right; split; [done|by left]|].
  pose proof (λ H, custom_parses _ (readable_filter (λ d, isCustomEntity (wd_model d) = true) (d :: q) H)) as H.
  pose proof (λ H, stored_parses _ (readable_filter (λ d, isCustomEntity (wd_model d) = false) (d :: q) H)) as H'.
  destruct (apply_custom JSON_parse _) as [evs ok]. simpl in H.
  destruct ok; [destruct (mapM _ _) as [stored|]|]; [right; split; [done|right]; by eexists|left; eexists; split; [reflexivity|]..].
  - by intros [? ?]%H'.
  - by intros ?%H.
Qed.

(** ** What the awaited promises answer *)

(** Whatever each of them makes of the state it is asked in. *)
Record promises := mkPromises {
  store_answers : pipeline → option (list AppliedChange * Z);
  pool_keeps : pipeline → list AppliedChange → list AppliedChange;
  prepares : pipeline → prepared;
  reveals : pipeline → bool;
}.

Section Driven.
Context (e : promises).

Definition drive (s : pipeline) : option pipe_input :=
  match activeFlush s with
  | NoFlush => None
  | Flushing _ _ (Persisting _) => Some (PersistSettles (store_answers e s) (pool_keeps e s))
  | Flushing _ _ (Preparing _ _ _) => Some (PrepareSettles (prepares e s))
  | Flushing _ _ (Applying _ _ _) => Some (ApplyProceeds (reveals e s))
  | Yielding => Some HostYields
  | Settling _ => Some FlushSettles
  end.

Fixpoint settle (fuel : nat) (s : pipeline) : option pipeline :=
  match drive s, fuel with
  | None, _ => Some s
  | Some i, S fuel => settle fuel (step s i)
  | Some _, O => None
  end.

(** The store answers, the preparation does not throw, and the pool takes each slice. *)
Definition obliging : Prop :=
  (∀ s, is_Some (store_answers e s)) ∧ (∀ s, prepares e s ≠ PrepThrows) ∧ ∀ s, reveals e s = true.

(** It ends with nothing in flight; with nothing pending, or a failure reported; and with
    nothing pending when all is well. *)
Definition ends (well : Prop) (s : pipeline) : Prop :=
  ∃ fuel s', settle fuel s = Some s' ∧ activeFlush s' = NoFlush
    ∧ (pendingDeltas s' = [] ∨ last (p_log s') = Some EvFlushError) ∧ (well → pendingDeltas s' = []).

Lemma ends_step well s i : drive s = Some i → ends well (step s i) → ends well s.
Proof. intros Hd (fuel & s' & H & Hs). exists (S fuel), s'. simpl. by rewrite Hd. Qed.

Lemma settling_ends well s failed :
  activeFlush s = Settling failed → (failed = false ∨ well → pendingDeltas s = []) → ends well s.
Proof.
  intros E Hp. apply (ends_step well _ FlushSettles); [unfold drive; by rewrite E|]. simpl. rewrite E.
  exists 0%nat, (set_flush NoFlush (if failed then emit [EvFlushError] s else s)).
  destruct failed; (split_and!; [done..| |]); simpl; auto. right. by rewrite last_snoc.
Qed.

Lemma throws_ends (well : Prop) q s : ¬ well → ends well (drain_throws q s).
Proof. intros Hw. apply (settling_ends well _ true); [done|]. by intros [?|?]. Qed.

Lemma last_ends well s : pendingDeltas s = [] → ends well (batch_over s) ∧ ends well (turn s).
Proof.
  intros Hp. unfold batch_over, drain_turn. rewrite Hp. split; by apply (settling_ends well _ false).
Qed.

(** A batch in flight ends, if what comes after it does. *)
Section Batch.
Context (well : Prop) (Hwell : well → obliging) (rest : list WireDelta)
  (Hover : ∀ x, pendingDeltas x = rest → ends well (batch_over x))
  (Hturn : ∀ x, pendingDeltas x = rest → ends well (turn x)).

Lemma batch_throws_ends q g s : ¬ well → pendingDeltas s = rest → ends well (batch_throws JSON_parse isCustomEntity q g s).
Proof. intros Hn Hp. unfold batch_throws. case_bool_decide; [by apply throws_ends|by apply Hturn]. Qed.

Lemma apply_throws_ends q g db s : ¬ well → pendingDeltas s = rest → ends well (apply_throws JSON_parse isCustomEntity q g db s).
Proof.
  intros Hn Hp. unfold apply_throws. destruct (negb _); [by apply Hover|]. by destruct (hold _ _); apply batch_throws_ends.
Qed.

Lemma applying_ends slices : ∀ s q g db n,
  activeFlush s = Flushing q g (Applying db slices n) → pendingDeltas s = rest → ends well s.
Proof.
  induction slices as [|sl slices IH]; intros s q g db n E Hp;
    (apply (ends_step well _ (ApplyProceeds (reveals e s))); [unfold drive; by rewrite E|]); simpl; rewrite E; simpl.
  - unfold batch_ends. destruct (negb _); [by apply Hover|]. apply Hover. destruct (unappliedChanges s); simpl; by destruct (_ <? _).
  - destruct (negb _); [by apply Hover|]. destruct (reveals e s) eqn:Er; [by apply (IH _ q g db n)|].
    apply apply_throws_ends; [|done]. intros (_ & _ & H)%Hwell. by rewrite H in Er.
Qed.

Lemma preparing_ends s q g db pool n :
  activeFlush s = Flushing q g (Preparing db pool n) → pendingDeltas s = rest → ends well s.
Proof.
  intros E Hp. apply (ends_step well _ (PrepareSettles (prepares e s))); [unfold drive; by rewrite E|]. simpl. rewrite E.
  destruct (prepares e s) eqn:Ep; simpl.
  4:{ apply apply_throws_ends; [|done]. intros (_ & H & _)%Hwell. by destruct (H s). }
  all: eapply applying_ends; [done|]; simpl; by try case_bool_decide.
Qed.

Lemma flushing_ends s q g st : activeFlush s = Flushing q g st → pendingDeltas s = rest → ends well s.
Proof.
  destruct st as [stored|db pool n|db slices n]; [|by apply preparing_ends|by apply applying_ends].
  intros E Hp. apply (ends_step well _ (PersistSettles (store_answers e s) (pool_keeps e s))); [unfold drive; by rewrite E|]. simpl. rewrite E.
  unfold persist_settles. destruct (store_answers e s) as [[results n]|] eqn:Ea.
  - destruct (negb _); [by apply Hover|]. by eapply preparing_ends.
  - apply batch_throws_ends; [|done]. intros (H & _)%Hwell. specialize (H s). rewrite Ea in H. by destruct H.
Qed.
End Batch.

Lemma turn_ends (well : Prop) s : (well → obliging ∧ Forall readable (pendingDeltas s)) → ends well (turn s).
Proof.
  intros Hw. destruct (drain_turn_cases s) as [(s0 & -> & Hn)|[Hp [[E _]|[stored E]]]].
  - apply throws_ends. by intros [_ ?]%Hw.
  - by eapply settling_ends.
  - eapply (flushing_ends well (λ H, proj1 (Hw H)) []), Hp; [..|exact E]; intros x Hx; by apply last_ends.
Qed.

Lemma over_ends (well : Prop) s : (well → obliging ∧ Forall readable (pendingDeltas s)) → ends well (batch_over s).
Proof.
  intros Hw. destruct (pendingDeltas s) eqn:Hp; [by apply last_ends|].
  unfold batch_over. rewrite Hp. apply (ends_step well _ HostYields); [done|]. apply turn_ends. simpl. by rewrite Hp.
Qed.

(** C18: a flush under way ends. Whatever the awaited promises answer, the drain comes to an
    end after finitely many steps, with nothing in flight, and with nothing pending or a
    failed flush reported last. Nothing is pending when the store answers each write,
    whatever it says it wrote, the preparation does not throw, the pool takes each slice
    and the payloads that wait can be parsed; whatever was queued meanwhile, and whether
    or not the publications were cleared. *)
Theorem flush_drains_the_queue s :
  match activeFlush s with Flushing _ _ _ | Yielding => True | _ => False end →
  ∃ fuel s', settle fuel s = Some s' ∧ activeFlush s' = NoFlush
    ∧ (pendingDeltas s' = [] ∨ last (p_log s') = Some EvFlushError)
    ∧ (obliging ∧ Forall readable (pendingDeltas s) → pendingDeltas s' = []).
Proof.
  intros Hf. change (ends (obliging ∧ Forall readable (pendingDeltas s)) s). destruct (activeFlush s) as [|q g st| |] eqn:E; try done.
  - eapply (flushing_ends _ (proj1 (B := Forall readable (pendingDeltas s))) (pendingDeltas s)); [..|exact E|reflexivity]; intros x Hx;
      [apply over_ends|apply turn_ends]; by rewrite Hx.
  - apply (ends_step _ _ HostYields); [unfold drive; by rewrite E|]. simpl. rewrite E. by apply turn_ends.
Qed.
End Driven.

(** ** Waiting deltas *)

(** Deltas that wait have a timer, or a flush that will come to them. *)
Definition awaited (s : pipeline) : Prop :=
  pendingDeltas s ≠ [] → batchTimer s = true ∨ match activeFlush s with Flushing _ _ _ | Yielding => True | _ => False end.

(** No drain fails, and nothing comes in between the end of a drain and the microtask that
    forgets it. *)
Definition unfailed (s : pipeline) : Prop := activeFlush s ≠ Settling true.
Definition undisturbed (s : pipeline) (i : pipe_input) : Prop :=
  unfailed (step s i)
  ∧ match activeFlush s with Settling _ => i = FlushSettles | _ => True end.

Definition settled_empty (s : pipeline) : Prop := match activeFlush s with Settling _ => pendingDeltas s = [] | _ => True end.

Lemma turn_awaited s : unfailed (turn s) → awaited (turn s) ∧ settled_empty (turn s).
Proof.
  unfold unfailed. destruct (drain_turn_cases s) as [(s0 & -> & _)|[Hp _]]; [done|]. intros _.
  unfold awaited, settled_empty. rewrite Hp. split; [done|]. by destruct (activeFlush (turn s)).
Qed.

Definition not_settling (s : pipeline) : Prop := match activeFlush s with Settling _ => False | _ => True end.

Lemma flush_awaited s : not_settling s → unfailed (flush_pending s) → awaited (flush_pending s) ∧ settled_empty (flush_pending s).
Proof.
  unfold not_settling, flushPendingDeltas. intros Hn Hu. destruct (activeFlush s) eqn:E; [by apply turn_awaited|..|done];
    unfold awaited, settled_empty; rewrite E; split; auto.
Qed.

Lemma enqueue_flush b d s : activeFlush (enqueueDelta b d s).2 = activeFlush s.
Proof. unfold enqueueDelta. destruct (_ && _); [done|]. simpl. destruct (bootstrapDeltaQueue s); [done|]. by destruct (wd_action d). Qed.

(** A delta that is not pushed leaves the queue and the timer alone. *)
Lemma enqueue_unpushed b d s :
  (enqueueDelta b d s).1 = false → pendingDeltas (enqueueDelta b d s).2 = pendingDeltas s ∧ batchTimer (enqueueDelta b d s).2 = batchTimer s.
Proof. unfold enqueueDelta. destruct (_ && _); [done|]. simpl. destruct (bootstrapDeltaQueue s); [done|]. by destruct (wd_action d). Qed.

Lemma enqueue_all_flush ds : ∀ s,
  activeFlush (enqueue_all ds s).2 = activeFlush s
  ∧ ((enqueue_all ds s).1 = false → pendingDeltas (enqueue_all ds s).2 = pendingDeltas s ∧ batchTimer (enqueue_all ds s).2 = batchTimer s).
Proof.
  induction ds as [|d ds IH]; intros s; [done|]. cbn [enqueue_all]. pose proof (enqueue_flush true d s) as H. pose proof (enqueue_unpushed true d s) as H2.
  destruct (enqueueDelta true d s) as [pushed s1]. destruct (IH s1) as [H3 H4]. destruct (enqueue_all ds s1) as [any s2]. simpl in *. split; [congruence|].
  intros [Hp Ha]%orb_false_iff. destruct (H2 Hp), (H4 Ha). split; congruence.
Qed.

Lemma frame_awaited ds s :
  not_settling s → awaited s → unfailed (persistDeltaFrame JSON_parse isCustomEntity ds s) → awaited (persistDeltaFrame JSON_parse isCustomEntity ds s) ∧ settled_empty (persistDeltaFrame JSON_parse isCustomEntity ds s).
Proof.
  intros Hn Ha. unfold persistDeltaFrame. destruct (enqueue_all_flush ds s) as [Hf Hu]. intros Hok; revert Hok. destruct (enqueue_all ds s) as [[] s1]; simpl in *.
  - apply flush_awaited. unfold not_settling in *. simpl. by rewrite Hf.
  - intros _. destruct (Hu eq_refl) as [H1 H2]. unfold awaited, settled_empty, not_settling in *. rewrite H1, H2, Hf. split; [done|]. by destruct (activeFlush s).
Qed.

Lemma over_awaited s : awaited (batch_over s) ∧ settled_empty (batch_over s).
Proof. unfold batch_over, awaited, settled_empty. destruct (pendingDeltas s) eqn:E; simpl; rewrite ?E; auto. Qed.

Lemma busy_awaited s : match activeFlush s with Flushing _ _ _ => True | _ => False end → awaited s ∧ settled_empty s.
Proof. unfold awaited, settled_empty. by destruct (activeFlush s); auto. Qed.

Lemma throws_awaited q g s :
  unfailed (batch_throws JSON_parse isCustomEntity q g s) →
  awaited (batch_throws JSON_parse isCustomEntity q g s) ∧ settled_empty (batch_throws JSON_parse isCustomEntity q g s).
Proof. unfold batch_throws. case_bool_decide; [done|apply turn_awaited]. Qed.

Lemma apply_throws_awaited q g db s :
  unfailed (apply_throws JSON_parse isCustomEntity q g db s) →
  awaited (apply_throws JSON_parse isCustomEntity q g db s) ∧ settled_empty (apply_throws JSON_parse isCustomEntity q g db s).
Proof. unfold apply_throws. destruct (negb _); [intros _; apply over_awaited|]. apply throws_awaited. Qed.

Lemma step_awaited s i : undisturbed s i → awaited s ∧ settled_empty s → awaited (step s i) ∧ settled_empty (step s i).
Proof.
  intros [Hi Hq] [Ha Hs].
  assert (Hkeep : ∀ s', pendingDeltas s' = [] → activeFlush s' = activeFlush s → awaited s' ∧ settled_empty s').
  { intros s' Hp _. unfold awaited, settled_empty. rewrite Hp. split; [done|]. by destruct (activeFlush s'). }
  assert (Hn : i ≠ FlushSettles → not_settling s) by (unfold not_settling; by destruct (activeFlush s)).
  revert Hi. destruct i; cbn [pipe_step].
  - specialize (Hn ltac:(done)). unfold processDeltaWithBatching. pose proof (enqueue_flush false d s) as Hf. pose proof (enqueue_unpushed false d s) as Hu.
    destruct (enqueueDelta false d s) as [[] s1]; simpl in *.
    + unfold scheduleDeltaFlush. unfold not_settling in Hn. destruct (_ <=? _); [apply flush_awaited; unfold not_settling; simpl; by rewrite Hf|].
      intros _. unfold awaited, settled_empty. simpl. rewrite Hf. split; [by left|]. by destruct (activeFlush s).
    + intros _. destruct (Hu eq_refl) as [H1 H2]. unfold awaited, settled_empty. rewrite H1, H2, Hf. done.
  - apply frame_awaited; [by apply Hn|done].
  - destruct (batchTimer s); [|done]. apply flush_awaited. by apply Hn.
  - destruct (activeFlush s) as [|q g []| |] eqn:E; try done. unfold persist_settles. destruct answer as [[results n]|]; [|apply throws_awaited].
    intros _. destruct (negb _); [apply over_awaited|by apply busy_awaited].
  - destruct (activeFlush s) as [|q g []| |] eqn:E; try done. unfold prepare_settles.
    destruct p; [intros _; by apply busy_awaited..|apply apply_throws_awaited].
  - destruct (activeFlush s) as [|q g []| |] eqn:E; try done. unfold apply_proceeds, batch_ends.
    destruct slices, ok; destruct (negb _); try (intros _; by apply over_awaited); [intros _; by apply busy_awaited|apply apply_throws_awaited].
  - destruct (activeFlush s) eqn:E; try done. apply turn_awaited.
  - intros _. destruct (activeFlush s) as [| | |failed] eqn:E; try done. unfold settled_empty in Hs. rewrite E in Hs.
    unfold awaited, settled_empty. destruct failed; simpl; by rewrite Hs.
  - intros _. by apply Hkeep.
  - done.
  - done.
  - specialize (Hn ltac:(done)). destruct (_ =? _)%nat; [done|]. unfold bootstrap_ends. destruct (_ =? _)%nat; [by apply frame_awaited|by split].
  - intros _. by apply Hkeep.
Qed.

(** A run each of whose steps is undisturbed. *)
Fixpoint undisturbed_run (s : pipeline) (l : list pipe_input) : Prop :=
  match l with [] => True | i :: l => undisturbed s i ∧ undisturbed_run (step s i) l end.

(** In a run where no flush fails, and nothing comes in between the end of a drain and
    the microtask that forgets it, deltas that wait have a timer or a flush under way: none
    of them is left lying until the next one arrives. *)
Theorem waiting_deltas_are_awaited p l :
  undisturbed_run (new_pipeline p) l →
  let s := pipe_run JSON_parse isCustomEntity maxBatchSize applySliceDeltas p l in
  pendingDeltas s ≠ [] → batchTimer s = true ∨ match activeFlush s with Flushing _ _ _ | Yielding => True | _ => False end.
Proof.
  intros Hu s. change (awaited s). unfold s, pipe_run. clear s.
  assert (H : awaited (new_pipeline p) ∧ settled_empty (new_pipeline p)).
  { split; [|done]. unfold awaited. by intros []. }
  revert Hu H. generalize (new_pipeline p).
  induction l as [|i l IH]; intros s Hu H; [apply H|]. destruct Hu as [Hi Hu]. cbn [foldl]. apply IH; [done|]. by apply step_awaited.
Qed.
End Drain.
