(* ===== verification/DeltaAcks.v ===== *)
(** * What the delta pipeline acknowledges

    In the runs of [DeltaPipeline.v] an acknowledged cursor is one the store answered with
    for a batch whose changes were revealed; with the local store of [DeltaStore.v]
    answering, it covers only deltas that were written. *)
From S2P Require Import Prelude JsData Json Positions DeltaStore DeltaStoreFacts DeltaFrames DeltaPipeline DeltaPipelineFacts.
From Stdlib Require Import Sorted.
From stdpp Require Import sorting.
#[local] Open Scope list_scope.
#[local] Open Scope Z_scope.

(** ** Episodes of a log *)

Definition no_persisted (e : pipe_event) : bool := match e with EvPersisted _ _ _ _ => false | _ => true end.

(** An event that is no part of a reveal or an acknowledgement. *)
Definition quiet_event (e : pipe_event) : bool :=
  match e with EvPersisted _ _ _ _ | EvApply _ | EvSkipped | EvAck _ => false | _ => true end.

(** The log ends with a batch the store wrote, of whose results [left] is not revealed yet. *)
Definition episode (stored : list SyncDelta) (db pool : list AppliedChange) (n : Z) (left : list AppliedChange) (l : list pipe_event) : Prop :=
  ∃ la lb, l = la ++ EvPersisted stored db pool n :: lb ∧ forallb no_persisted lb = true ∧ (EvSkipped ∈ lb ∨ applied lb ++ left = pool).

Definition published (n : Z) (l : list pipe_event) : Prop := ∃ stored db pool, episode stored db pool n [] l.

Definition acks_published (l : list pipe_event) : Prop := ∀ l1 n l2, l = l1 ++ EvAck n :: l2 → published n l1.

Lemma acks_snoc l e : acks_published l → (∀ n, e = EvAck n → published n l) → acks_published (l ++ [e]).
Proof.
  intros Ha He l1 n l2 E. destruct l2 as [|x l2 _] using rev_ind.
  - apply app_inj_tail in E as [<- ->]. by apply He.
  - rewrite app_comm_cons, app_assoc in E. apply app_inj_tail in E as [E _]. by eapply Ha.
Qed.

Lemma acks_quiet l evs : forallb quiet_event evs = true → acks_published l → acks_published (l ++ evs).
Proof.
  revert l. induction evs as [|e evs IH]; intros l; [by rewrite app_nil_r|]. simpl. intros [He Hq]%andb_true_iff Ha.
  rewrite (app_assoc l [e] evs : l ++ e :: evs = (l ++ [e]) ++ evs). apply IH; [done|]. apply acks_snoc; [done|]. by intros n ->.
Qed.

Lemma quiet_facts evs : forallb quiet_event evs = true → forallb no_persisted evs = true ∧ applied evs = [] ∧ acked evs = [].
Proof. induction evs as [|[] evs IH]; simpl; try done; intros H; destruct (IH H) as (? & ? & ?); by split_and!. Qed.

Lemma episode_quiet stored db pool n left l evs :
  forallb quiet_event evs = true → episode stored db pool n left l → episode stored db pool n left (l ++ evs).
Proof.
  intros (Hp & Ha & _)%quiet_facts (la & lb & -> & Hlb & Hor). exists la, (lb ++ evs). split_and!.
  - by rewrite <- app_assoc.
  - by rewrite forallb_app, Hlb, Hp.
  - destruct Hor as [Hs|Hs]; [left; apply elem_of_app; by left|right]. by rewrite applied_app, Ha, app_nil_r.
Qed.

Lemma episode_apply stored db pool n c left l : episode stored db pool n (c ++ left) l → episode stored db pool n left (l ++ [EvApply c]).
Proof.
  intros (la & lb & -> & Hlb & Hor). exists la, (lb ++ [EvApply c]). split_and!.
  - by rewrite <- app_assoc.
  - by rewrite forallb_app, Hlb.
  - destruct Hor as [Hs|Hs]; [left; apply elem_of_app; by left|right]. rewrite applied_app. simpl. by rewrite app_nil_r, <- app_assoc.
Qed.

Lemma episode_skip stored db pool n left left' l : episode stored db pool n left l → episode stored db pool n left' (l ++ [EvSkipped]).
Proof.
  intros (la & lb & -> & Hlb & _). exists la, (lb ++ [EvSkipped]). split_and!; [by rewrite <- app_assoc|by rewrite forallb_app, Hlb|].
  left. apply elem_of_app. right. left.
Qed.

Lemma episode_begins stored db pool n l : episode stored db pool n pool (l ++ [EvPersisted stored db pool n]).
Proof. exists l, []. by split_and!; [| |right]. Qed.

(** ** The invariant *)

Definition stage_ok (s : pipeline) : Prop :=
  match activeFlush s with
  | Flushing _ g (Preparing db pool n) => ∃ stored, episode stored db pool n pool (p_log s)
  | Flushing _ g (Applying db slices n) => g = publicationGeneration s → ∃ stored pool, episode stored db pool n (mjoin slices) (p_log s)
  | _ => True
  end.

(** A batch is begun only in a generation there is. *)
Definition generation_ok (s : pipeline) : Prop :=
  match activeFlush s with Flushing _ g _ => (g <= publicationGeneration s)%nat | _ => True end.

Record published_ok (s : pipeline) : Prop := {
  po_acks : acks_published (p_log s);
  po_sorted : StronglySorted Z.lt (acked (p_log s));
  po_bound : Forall (λ n, n <= lp_persisted (position s)) (acked (p_log s));
  po_generation : generation_ok s;
  po_stage : stage_ok s;
}.

(** No batch is being revealed. *)
Definition calm (s : pipeline) : Prop :=
  match activeFlush s with
  | Flushing _ g (Persisting _) => (g <= publicationGeneration s)%nat
  | Flushing _ _ _ => False
  | _ => True
  end.

Lemma calm_ok s : calm s → generation_ok s ∧ stage_ok s.
Proof. unfold calm, generation_ok, stage_ok. by destruct (activeFlush s) as [|? ? []| |]. Qed.

(** A move that reveals and acknowledges nothing. *)
Record moves (s s' : pipeline) : Prop := {
  mv_log : ∃ evs, p_log s' = p_log s ++ evs ∧ forallb quiet_event evs = true;
  mv_generation : (publicationGeneration s <= publicationGeneration s')%nat;
  mv_position : lp_persisted (position s) <= lp_persisted (position s');
  mv_flush : calm s' ∨ activeFlush s' = activeFlush s;
}.

Lemma moves_refl s : moves s s.
Proof. split; [by exists []; rewrite app_nil_r|done|done|by right]. Qed.

Lemma calm_kept s s' : calm s → (publicationGeneration s <= publicationGeneration s')%nat → activeFlush s' = activeFlush s → calm s'.
Proof. unfold calm. intros Hc Hg ->. destruct (activeFlush s) as [|q g []| |]; try done. lia. Qed.

Lemma moves_trans s1 s2 s3 : moves s1 s2 → moves s2 s3 → moves s1 s3.
Proof.
  intros [(e1 & H1 & Q1) G1 P1 F1] [(e2 & H2 & Q2) G2 P2 F2]. split; [|lia|lia|].
  - exists (e1 ++ e2). rewrite H2, H1, app_assoc, forallb_app, Q1, Q2. done.
  - destruct F2 as [F2|F2]; [by left|]. destruct F1 as [F1|F1]; [left; by eapply calm_kept|right; congruence].
Qed.

Lemma moves_ok s s' : moves s s' → published_ok s → published_ok s'.
Proof.
  intros [(evs & Hl & Hq) Hg Hp Hf] [A B C D E]. pose proof (quiet_facts _ Hq) as (_ & _ & Hack). split.
  - rewrite Hl. by apply acks_quiet.
  - by rewrite Hl, acked_app, Hack, app_nil_r.
  - rewrite Hl, acked_app, Hack, app_nil_r. eapply Forall_impl; [exact C|]. simpl. lia.
  - unfold generation_ok in *. destruct Hf as [Hf|Hf]; [unfold calm in Hf; by destruct (activeFlush s') as [|? ? []| |]|].
    rewrite Hf. destruct (activeFlush s); try done. lia.
  - unfold stage_ok in *. destruct Hf as [Hf|Hf]; [unfold calm in Hf; by destruct (activeFlush s') as [|? ? []| |]|].
    rewrite Hf. unfold generation_ok in D. destruct (activeFlush s) as [|q g [stored|db pool n|db slices n]| |]; try done.
    + destruct E as (st & He). exists st. rewrite Hl. by apply episode_quiet.
    + intros ->. destruct E as (st & pool & He); [lia|]. exists st, pool. rewrite Hl. by apply episode_quiet.
Qed.

(** A chain of moves, and a move that only emits, or sets what the invariant does not read. *)
Ltac quiet_move := split; [eexists; split; [simpl; reflexivity|done]|simpl; lia|simpl; lia|first [by right|by left]].
Ltac still_move := split; [exists []; split; [by rewrite app_nil_r|done]|simpl; lia|simpl; lia|first [by right|by left]].

Lemma emit_moves evs s : forallb quiet_event evs = true → moves s (emit evs s).
Proof. intros Hq. split; [by exists evs|simpl; lia|simpl; lia|by right]. Qed.

Section Acks.
Context (JSON_parse : string → option fields) (isCustomEntity : string → bool) (maxBatchSize applySliceDeltas : Z).
Notation step := (pipe_step JSON_parse isCustomEntity maxBatchSize applySliceDeltas).
Notation turn := (drain_turn JSON_parse isCustomEntity).
Notation flush_pending := (flushPendingDeltas JSON_parse isCustomEntity).

Lemma custom_quiet l evs ok : apply_custom JSON_parse l = (evs, ok) → forallb quiet_event evs = true.
Proof. intros E. pose proof (custom_events JSON_parse l) as H. rewrite E in H. clear E. induction H as [|[] evs He H IH]; by try done. Qed.

Lemma turn_moves s : moves s (turn s).
Proof.
  unfold drain_turn. destruct (pendingDeltas s) as [|d q]; [still_move|].
  destruct (apply_custom JSON_parse _) as [evs ok] eqn:E. apply custom_quiet in E.
  destruct ok; [|split; [by exists evs|simpl; lia|simpl; lia|by left]].
  destruct (mapM _ _) as [stored|]; [|split; [by exists evs|simpl; lia|simpl; lia|by left]].
  split; [|simpl; lia|simpl; lia|left; unfold calm; simpl; lia].
  exists (evs ++ [EvPersist stored]). rewrite forallb_app, E. split; [simpl; by rewrite app_assoc|done].
Qed.

Lemma flush_moves s : moves s (flush_pending s).
Proof. unfold flushPendingDeltas. destruct (activeFlush s); [apply turn_moves|apply moves_refl..]. Qed.

Lemma enqueue_moves b d s : moves s (enqueueDelta b d s).2.
Proof.
  unfold enqueueDelta. destruct (_ && _); [apply moves_refl|]. simpl. destruct (bootstrapDeltaQueue s); [quiet_move|].
  eapply moves_trans; [by apply (emit_moves [EvConfirm (wd_id d) (wd_tx d) (wd_correlation d)])|].
  destruct (wd_action d); simpl; (split; [|simpl; lia|unfold advanceApplied, advance; simpl; lia|by right]);
    simpl; first [by eexists|rewrite <- (app_assoc (_ ++ _)); by eexists].
Qed.

Lemma enqueue_all_moves ds : ∀ s, moves s (enqueue_all ds s).2.
Proof.
  induction ds as [|d ds IH]; intros s; [apply moves_refl|]. cbn [enqueue_all]. pose proof (enqueue_moves true d s) as H.
  destruct (enqueueDelta true d s) as [pushed s1]. pose proof (IH s1) as H'. destruct (enqueue_all ds s1). by eapply moves_trans.
Qed.

Lemma frame_moves ds s : moves s (persistDeltaFrame JSON_parse isCustomEntity ds s).
Proof.
  unfold persistDeltaFrame. pose proof (enqueue_all_moves ds s) as H. destruct (enqueue_all ds s) as [[] s1]; [|done].
  eapply moves_trans; [exact H|]. eapply moves_trans; [|apply flush_moves]. still_move.
Qed.

Lemma over_moves s : moves s (batch_over s).
Proof. unfold batch_over. destruct (pendingDeltas s); still_move. Qed.
Lemma stale_moves q s : moves s (batch_stale q s).
Proof. eapply moves_trans; [by apply (emit_moves [EvDropped q])|]. apply over_moves. Qed.
Lemma throws_moves q g s : moves s (batch_throws JSON_parse isCustomEntity q g s).
Proof.
  unfold batch_throws. case_bool_decide; [still_move|]. eapply moves_trans; [by apply (emit_moves [EvDropped q])|]. apply turn_moves.
Qed.
Lemma apply_throws_moves q g db s : moves s (apply_throws JSON_parse isCustomEntity q g db s).
Proof.
  unfold apply_throws. destruct (negb _); [apply stale_moves|]. eapply moves_trans; [|apply throws_moves].
  destruct (hold db _); [apply moves_refl|still_move].
Qed.

(** ** Steps *)

Lemma persist_ok answer project q g stored s :
  activeFlush s = Flushing q g (Persisting stored) → published_ok s →
  published_ok (persist_settles JSON_parse isCustomEntity answer project q g stored s).
Proof.
  intros E Hs. unfold persist_settles. destruct answer as [[results n]|]; [|by eapply moves_ok, Hs; apply throws_moves].
  case_bool_decide as Hg; simpl; [|by eapply moves_ok, Hs; apply stale_moves]. destruct Hs as [A B C D F]. split; simpl.
  - by apply acks_snoc.
  - by rewrite acked_app, app_nil_r.
  - by rewrite acked_app, app_nil_r.
  - unfold generation_ok. simpl. by rewrite Hg.
  - eexists. apply episode_begins.
Qed.

Lemma prepare_ok pr q g db pool n s :
  activeFlush s = Flushing q g (Preparing db pool n) → published_ok s →
  published_ok (prepare_settles JSON_parse isCustomEntity applySliceDeltas pr q g db pool n s).
Proof.
  intros E Hs. unfold prepare_settles. destruct pr; [| | |by eapply moves_ok, Hs; apply apply_throws_moves].
  all: destruct Hs as [A B C D F]; unfold stage_ok, generation_ok in D, F; rewrite E in D, F; destruct F as (stored & He).
  - split; simpl; try done. intros _. exists stored, pool. destruct (slicing_ends_at_transactions ch_tx pool applySliceDeltas) as (sl & -> & Hj & _).
    simpl. by rewrite Hj.
  - case_bool_decide as Hg.
    + split; simpl; [by apply acks_snoc|by rewrite acked_app, app_nil_r|by rewrite acked_app, app_nil_r|done|].
      intros _. exists stored, pool. apply episode_apply. simpl. by rewrite app_nil_r.
    + split; simpl; try done. intros Hg'. by destruct Hg.
  - split; simpl; [by apply acks_snoc|by rewrite acked_app, app_nil_r|by rewrite acked_app, app_nil_r|done|].
    intros _. exists stored, pool. by eapply episode_skip.
Qed.

Lemma ends_ok q g db n s :
  activeFlush s = Flushing q g (Applying db [] n) → published_ok s → published_ok (batch_ends q g db n s).
Proof.
  intros E Hs. unfold batch_ends. case_bool_decide as Hg; simpl; [|by eapply moves_ok, Hs; apply stale_moves].
  set (s1 := match unappliedChanges s with Some held => _ | None => s end).
  assert (Hs1 : published_ok s1 ∧ activeFlush s1 = activeFlush s ∧ publicationGeneration s1 = publicationGeneration s).
  { unfold s1. destruct (unappliedChanges s); [split_and!; [|done|done]|done]. eapply moves_ok, Hs. still_move. }
  destruct Hs1 as (H1 & E1 & G1). rewrite E in E1.
  set (s2 := if lp_persisted (position s1) <? n then _ else s1).
  assert (Hs2 : acks_published (p_log s2) ∧ StronglySorted Z.lt (acked (p_log s2)) ∧ Forall (λ k, k <= lp_persisted (position s2)) (acked (p_log s2))).
  { unfold s2. destruct H1 as [A B C D F]. destruct (Z.ltb_spec (lp_persisted (position s1)) n) as [Hlt|]; [|done]. simpl.
    unfold stage_ok in F. rewrite E1 in F. destruct (F ltac:(congruence)) as (stored & pool & He). rewrite acked_app. simpl. split_and!.
    - apply acks_snoc; [done|]. intros k [= <-]. by exists stored, db, pool.
    - apply StronglySorted_app_2; [|done|by repeat constructor].
      intros x y Hx ->%list_elem_of_singleton. rewrite Forall_forall in C. specialize (C x Hx). simpl in C. lia.
    - apply Forall_app. split; [eapply Forall_impl; [exact C|]; simpl; lia|]. constructor; [lia|done]. }
  assert (Hcalm : ∀ x, calm (batch_returns q x)) by (intros x; unfold batch_returns, batch_over; by destruct (pendingDeltas _)).
  assert (Hlog : p_log (batch_returns q (emit [EvNotify db] s2)) = p_log s2 ++ [EvNotify db; EvReturned q]
            ∧ position (batch_returns q (emit [EvNotify db] s2)) = position s2).
  { unfold batch_returns, batch_over. simpl. destruct (pendingDeltas s2); simpl; by rewrite <- app_assoc. }
  destruct Hlog as [Hlog Hpos], Hs2 as (A & B & C). destruct (calm_ok _ (Hcalm (emit [EvNotify db] s2))). split.
  - rewrite Hlog. by apply acks_quiet.
  - rewrite Hlog, acked_app. simpl. by rewrite app_nil_r.
  - rewrite Hlog, Hpos, acked_app. simpl. by rewrite app_nil_r.
  - done.
  - done.
Qed.

Lemma proceeds_ok ok q g db slices n s :
  activeFlush s = Flushing q g (Applying db slices n) → published_ok s →
  published_ok (apply_proceeds JSON_parse isCustomEntity ok q g db slices n s).
Proof.
  intros E Hs. unfold apply_proceeds. destruct slices as [|sl slices]; [by apply ends_ok|].
  case_bool_decide as Hg; simpl; [|by eapply moves_ok, Hs; apply stale_moves].
  destruct ok; [|by eapply moves_ok, Hs; apply apply_throws_moves].
  destruct Hs as [A B C D F]. unfold stage_ok, generation_ok in D, F. rewrite E in D, F. destruct (F Hg) as (stored & pool & He).
  split; simpl; [by apply acks_snoc|by rewrite acked_app, app_nil_r|by rewrite acked_app, app_nil_r|done|].
  intros _. exists stored, pool. by apply episode_apply.
Qed.

Lemma step_published s i : published_ok s → published_ok (step s i).
Proof.
  intros Hs. destruct i; simpl.
  - eapply moves_ok, Hs. unfold processDeltaWithBatching. pose proof (enqueue_moves false d s) as H.
    destruct (enqueueDelta false d s) as [[] s1]; [|done]. eapply moves_trans; [exact H|]. unfold scheduleDeltaFlush. destruct (_ <=? _); [|still_move].
    eapply moves_trans; [|apply flush_moves]. still_move.
  - eapply moves_ok, Hs. apply frame_moves.
  - destruct (batchTimer s); [|done]. eapply moves_ok, Hs. eapply moves_trans; [|apply flush_moves]. still_move.
  - destruct (activeFlush s) as [|q g []| |] eqn:E; try done. by apply persist_ok.
  - destruct (activeFlush s) as [|q g []| |] eqn:E; try done. by apply prepare_ok.
  - destruct (activeFlush s) as [|q g []| |] eqn:E; try done. by apply proceeds_ok.
  - destruct (activeFlush s); try done. eapply moves_ok, Hs. apply turn_moves.
  - destruct (activeFlush s) as [| | |[]]; try done; eapply moves_ok, Hs; [quiet_move|still_move].
  - eapply moves_ok, Hs. quiet_move.
  - eapply moves_ok, Hs. quiet_move.
  - eapply moves_ok, Hs. still_move.
  - destruct (_ =? _)%nat; [done|]. eapply moves_ok, Hs. unfold bootstrap_ends. destruct (_ =? _)%nat; [|still_move].
    eapply moves_trans; [|apply frame_moves]. still_move.
  - eapply moves_ok, Hs. quiet_move.
Qed.

Lemma runs_publish p l : published_ok (pipe_run JSON_parse isCustomEntity maxBatchSize applySliceDeltas p l).
Proof.
  unfold pipe_run. assert (H : published_ok (new_pipeline p)) by (split; try done; [by intros [] ? ?|constructor]).
  revert H. generalize (new_pipeline p). induction l as [|i l IH]; intros s Hs; [done|]. cbn [foldl]. apply IH. by apply step_published.
Qed.

(** In every run the acknowledged cursors increase, and each of them is the cursor the
    store answered with for the batch before it, after the whole of what the pool keeps of
    that batch was revealed, in its order; unless a clear of the operation runtime
    superseded the reveal. *)
Theorem acknowledged_means_written_and_revealed p l :
  let log := p_log (pipe_run JSON_parse isCustomEntity maxBatchSize applySliceDeltas p l) in
  StronglySorted Z.lt (acked log)
  ∧ ∀ l1 n l2, log = l1 ++ EvAck n :: l2 →
      ∃ la stored db pool lb, l1 = la ++ EvPersisted stored db pool n :: lb ∧ forallb no_persisted lb = true
        ∧ (EvSkipped ∈ lb ∨ applied lb = pool).
Proof.
  destruct (runs_publish p l) as [A B _ _ _]. split; [done|]. intros l1 n l2 E.
  destruct (A l1 n l2 E) as (stored & db & pool & la & lb & H1 & H2 & H3). exists la, stored, db, pool, lb. by rewrite app_nil_r in H3.
Qed.
End Acks.
