(* ===== verification/DeltaJoint.v ===== *)
(** * The pipeline over its store

    The delta pipeline of [DeltaPipeline.v] with the IndexedDB batches of [DeltaStore.v]
    answering its writes: what an acknowledged cursor covers is in the store. *)
From S2P Require Import Prelude JsData Json Positions DeltaStore DeltaStoreFacts DeltaFrames DeltaPipeline DeltaPipelineFacts DeltaAcks.
From Stdlib Require Import Sorted.
From stdpp Require Import sorting.
#[local] Open Scope list_scope.
#[local] Open Scope Z_scope.

(** A batch whose ids ascend, and the cursor the store answered it with. *)
Definition answered (stored : list SyncDelta) (n : Z) : Prop :=
  ids_increase stored ∧ ∃ now w db db' results, process_idb now w db stored = (db', results, n).

Definition good_event (e : pipe_event) : Prop :=
  match e with EvReceived d => 0 < wd_id d | EvPersisted stored _ _ n => answered stored n | _ => True end.

Definition good_log (s : pipeline) : Prop :=
  Forall good_event (p_log s) ∧ Forall (λ d, 0 < wd_id d) (default [] (bootstrapDeltaQueue s)).

Definition persisting_ok (s : pipeline) : Prop :=
  match activeFlush s with Flushing _ _ (Persisting stored) => ids_increase stored | _ => True end.

Record joint_ok (s : pipeline) : Prop := { jo_kept : conserved s; jo_log : good_log s; jo_store : persisting_ok s }.

Lemma received_positive l : Forall good_event l → Forall (λ d, 0 < wd_id d) (received l).
Proof. unfold received. induction 1 as [|e l He Hl IH]; [constructor|]. rewrite bind_cons. apply Forall_app. split; [|done]. destruct e; try constructor; [done|constructor]. Qed.

Lemma pending_positive s f : kept (p_log s) f (pendingDeltas s) → good_log s → Forall (λ d, 0 < wd_id d) (pendingDeltas s).
Proof.
  intros [Hp _] [Hl _]. apply received_positive in Hl. rewrite Forall_forall in *. intros d Hd. apply Hl. rewrite Hp.
  rewrite !elem_of_app. tauto.
Qed.

Lemma good_emit evs s : Forall good_event evs → good_log s → good_log (emit evs s).
Proof. intros He [Hl Hq]. split; [|done]. simpl. by apply Forall_app. Qed.

(** ** What a batch hands to the store *)

Lemma filter_sorted {A} (R : A → A → Prop) (P : A → Prop) `{!∀ x, Decision (P x)} l : StronglySorted R l → StronglySorted R (base.filter P l).
Proof.
  induction 1 as [|x l Hs IH Hx]; [constructor|]. rewrite filter_cons. destruct (decide (P x)); [|done]. constructor; [done|].
  rewrite Forall_forall in *. intros y [_ Hy]%list_elem_of_filter. auto.
Qed.

Lemma sorted_lookup {A} (R : A → A → Prop) l i j x y : StronglySorted R l → (i < j)%nat → l !! i = Some x → l !! j = Some y → R x y.
Proof.
  intros Hs Hij Hi Hj. apply (StronglySorted_app_1_elem_of R (take j l) (drop j l)); [by rewrite take_drop| |].
  - apply (list_elem_of_lookup_2 _ i). by rewrite lookup_take_lt.
  - apply (list_elem_of_lookup_2 _ 0). by rewrite lookup_drop, Nat.add_0_r.
Qed.

Lemma sorted_ids l : Forall (λ d, 0 < wd_id d) l → StronglySorted below (deduplicateDeltas l) ∧ Forall (λ d, 0 < wd_id d) (deduplicateDeltas l).
Proof.
  intros Hp. destruct (existsb (λ d, wd_id d <=? 0) l) eqn:He.
  - apply existsb_exists in He as (d & Hd%list_elem_of_In & Hle). rewrite Forall_forall in Hp. specialize (Hp d Hd). bool_simpl. simpl in Hp. lia.
  - destruct (dedupe_spec l He) as [H1 H2]. split; [done|]. rewrite Forall_forall in *. intros d Hd.
    apply H2 in Hd. unfold first_with in Hd. destruct (base.filter _ l) as [|x r] eqn:E; [done|]. injection Hd as ->. apply Hp.
    eapply (list_elem_of_filter (λ x, wd_id x = wd_id d)). rewrite E. left.
Qed.

Section Joint.
Context (JSON_parse : string → option fields) (isCustomEntity : string → bool) (maxBatchSize applySliceDeltas : Z).
Notation step := (pipe_step JSON_parse isCustomEntity maxBatchSize applySliceDeltas).
Notation turn := (drain_turn JSON_parse isCustomEntity).
Notation flush_pending := (flushPendingDeltas JSON_parse isCustomEntity).

Lemma stored_increase l stored :
  StronglySorted below l → Forall (λ d, 0 < wd_id d) l → mapM (to_store JSON_parse) l = Some stored → ids_increase stored.
Proof.
  intros Hs Hp Hm%mapM_Some_1. assert (Hid : Forall2 (λ d x, dl_syncId x = Some (wd_id d)) l stored).
  { eapply Forall2_impl; [exact Hm|]. intros d x. unfold to_store. destruct (parse_data _ _); [|done]. by intros [= <-]. }
  split.
  - clear Hs Hm. induction Hid as [|d x l stored Hx Hr IH]; [constructor|]. apply Forall_cons in Hp as [Hd Hp]. constructor; [by eexists|auto].
  - intros i j x x' k k' Hij Hi Hj Hk Hk'. destruct (Forall2_lookup_r _ _ _ _ _ Hid Hi) as (d & Hd & E), (Forall2_lookup_r _ _ _ _ _ Hid Hj) as (d' & Hd' & E').
    rewrite Hk in E. rewrite Hk' in E'. injection E as ->. injection E' as ->. by eapply (sorted_lookup below l i j).
Qed.

Lemma turn_joint s : kept (p_log s) [] (pendingDeltas s) → good_log s → joint_ok (turn s).
Proof.
  intros Hk Hg. split; [by apply turn_kept| |].
  - unfold drain_turn. destruct (pendingDeltas s) as [|d q]; [done|]. destruct (apply_custom JSON_parse _) as [evs ok] eqn:E.
    pose proof (custom_events JSON_parse (base.filter (λ d0, isCustomEntity (wd_model d0) = true) (deduplicateDeltas (d :: q)))) as Hev. rewrite E in Hev.
    assert (Hge : Forall good_event evs) by (eapply Forall_impl; [exact Hev|]; by intros []).
    destruct Hg as [Hl Hq]. destruct ok; [destruct (mapM _ _)|]; split; simpl; try done; rewrite ?Forall_app; by repeat constructor.
  - pose proof (pending_positive _ _ Hk Hg) as Hp. unfold drain_turn. destruct (pendingDeltas s) as [|d q]; [done|].
    destruct (apply_custom JSON_parse _) as [evs []]; [|done]. destruct (mapM _ _) as [stored|] eqn:E; [|done].
    unfold persisting_ok. simpl. apply sorted_ids in Hp as [H1 H2]. eapply stored_increase, E; [by apply filter_sorted|].
    rewrite Forall_forall in *. intros x [_ Hx]%list_elem_of_filter. auto.
Qed.

Lemma flush_joint s : joint_ok s → joint_ok (flush_pending s).
Proof.
  intros [Hk Hl Hp]. unfold flushPendingDeltas. destruct (activeFlush s) eqn:E; try by split.
  apply turn_joint; [|done]. unfold conserved, in_flight in Hk. by rewrite E in Hk.
Qed.

Lemma enqueue_joint b d s : 0 < wd_id d → joint_ok s → joint_ok (enqueueDelta b d s).2.
Proof.
  intros Hd [Hk Hl Hp]. split; [by apply enqueue_kept| |].
  - unfold enqueueDelta. destruct (_ && _); [done|]. destruct Hl as [Hl Hq]. simpl. destruct (bootstrapDeltaQueue s) as [q|] eqn:E.
    + split; simpl; [by apply Forall_app; split; [|repeat constructor]|]. apply Forall_app. by split; [|repeat constructor].
    + destruct (wd_action d); (split; simpl; [rewrite ?Forall_app; by repeat constructor|by rewrite E]).
  - unfold enqueueDelta. destruct (_ && _); [done|]. simpl. destruct (bootstrapDeltaQueue s); [done|]. by destruct (wd_action d).
Qed.

Lemma enqueue_all_joint ds : ∀ s, Forall (λ d, 0 < wd_id d) ds → joint_ok s → joint_ok (enqueue_all ds s).2.
Proof.
  induction ds as [|d ds IH]; intros s Hp Hs; [done|]. apply Forall_cons in Hp as [Hd Hp]. cbn [enqueue_all].
  pose proof (enqueue_joint true d s Hd Hs) as H. destruct (enqueueDelta true d s) as [pushed s1]. pose proof (IH s1 Hp H) as H'. by destruct (enqueue_all ds s1).
Qed.

Lemma same_joint s s' :
  joint_ok s → p_log s' = p_log s → activeFlush s' = activeFlush s → pendingDeltas s' = pendingDeltas s →
  Forall (λ d, 0 < wd_id d) (default [] (bootstrapDeltaQueue s')) → joint_ok s'.
Proof.
  intros [Hk [Hl Hq] Hp] E1 E2 E3 Hq'. split; [|split; [by rewrite E1|done]|unfold persisting_ok; by rewrite E2].
  unfold conserved, in_flight. by rewrite E1, E2, E3.
Qed.

Lemma frame_joint ds s : Forall (λ d, 0 < wd_id d) ds → joint_ok s → joint_ok (persistDeltaFrame JSON_parse isCustomEntity ds s).
Proof.
  intros Hd Hs. unfold persistDeltaFrame. pose proof (enqueue_all_joint ds s Hd Hs) as H. destruct (enqueue_all ds s) as [[] s1]; [|done].
  apply flush_joint. eapply same_joint; try done. apply H.
Qed.

(** A step that leaves nothing to write. *)
Lemma calm_joint s evs s' :
  good_log s → conserved s' → p_log s' = p_log s ++ evs → Forall good_event evs → bootstrapDeltaQueue s' = bootstrapDeltaQueue s →
  (∀ q g stored, activeFlush s' ≠ Flushing q g (Persisting stored)) → joint_ok s'.
Proof.
  intros [Hl Hq] Hk E1 He E2 Hf. split; [done|split; [rewrite E1; by apply Forall_app|by rewrite E2]|].
  unfold persisting_ok. destruct (activeFlush s') as [|q g [stored| |]| |] eqn:E; try done. by destruct (Hf q g stored).
Qed.

Lemma over_joint ev q s : (ev = EvReturned q ∨ ev = EvDropped q) → kept (p_log s) q (pendingDeltas s) → good_log s → joint_ok (batch_over (emit [ev] s)).
Proof.
  intros Hev Hk Hg. eapply (calm_joint s [ev]); [done| | | |..].
  - apply over_kept. simpl. destruct Hev as [-> | ->]; [by apply kept_return|by apply kept_drop_flight].
  - unfold batch_over. by destruct (pendingDeltas _).
  - by destruct Hev as [-> | ->]; repeat constructor.
  - unfold batch_over. by destruct (pendingDeltas _).
  - intros. unfold batch_over. by destruct (pendingDeltas _).
Qed.

Lemma throws_joint q g s : kept (p_log s) q (pendingDeltas s) → good_log s → joint_ok (batch_throws JSON_parse isCustomEntity q g s).
Proof.
  intros Hk Hg. unfold batch_throws. case_bool_decide.
  - eapply (calm_joint s []); try done. simpl. by rewrite app_nil_r.
  - apply turn_joint; [simpl; by apply kept_drop_flight|apply good_emit; [by repeat constructor|done]].
Qed.

Lemma apply_throws_joint q g db s : kept (p_log s) q (pendingDeltas s) → good_log s → joint_ok (apply_throws JSON_parse isCustomEntity q g db s).
Proof.
  intros Hk Hg. unfold apply_throws. destruct (negb _); [apply (over_joint _ q); auto|]. apply throws_joint; by destruct (hold db _).
Qed.

Definition positive_input (i : pipe_input) : Prop :=
  match i with Live d => 0 < wd_id d | Frame ds => Forall (λ d, 0 < wd_id d) ds | PersistSettles (Some _) _ => False | _ => True end.

Lemma step_joint s i : positive_input i → joint_ok s → joint_ok (step s i).
Proof.
  intros Hi Hs. assert (Hk := step_conserved JSON_parse isCustomEntity maxBatchSize applySliceDeltas s i (jo_kept s Hs)).
  destruct i; cbn [pipe_step] in *.
  - unfold processDeltaWithBatching. pose proof (enqueue_joint false d s Hi Hs) as H. destruct (enqueueDelta false d s) as [[] s1]; [|done].
    unfold scheduleDeltaFlush. destruct (_ <=? _); [apply flush_joint|]; (eapply same_joint; try done; apply H).
  - by apply frame_joint.
  - destruct (batchTimer s); [|done]. apply flush_joint. eapply same_joint; try done. apply Hs.
  - destruct answer as [[]|]; [done|]. destruct (activeFlush s) as [|q g []| |] eqn:E; try done. simpl.
    destruct Hs as [Hc Hl _]. unfold conserved, in_flight in Hc. rewrite E in Hc. by apply throws_joint.
  - destruct (activeFlush s) as [|q g []| |] eqn:E; try done. destruct Hs as [Hc Hl _]. unfold conserved, in_flight in Hc. rewrite E in Hc.
    destruct p; simpl in *; [| | |by apply apply_throws_joint].
    + eapply (calm_joint s []); try done. simpl. by rewrite app_nil_r.
    + case_bool_decide; [by eapply (calm_joint s [_]); try done; repeat constructor|].
      eapply (calm_joint s []); try done. simpl. by rewrite app_nil_r.
    + by eapply (calm_joint s [_]); try done; repeat constructor.
  - destruct (activeFlush s) as [|q g []| |] eqn:E; try done. destruct Hs as [Hc Hl _]. unfold conserved, in_flight in Hc. rewrite E in Hc.
    unfold apply_proceeds in *. destruct slices as [|sl slices].
    + unfold batch_ends in *. destruct (negb _); [apply (over_joint _ q); auto|]. apply (over_joint _ q); [by left| |].
      * destruct (unappliedChanges s); simpl; destruct (_ <? _); simpl; repeat (apply kept_neutral; [done|]); done.
      * destruct (unappliedChanges s); simpl; destruct (_ <? _); repeat (apply good_emit; [by repeat constructor|]); done.
    + destruct (negb _); [apply (over_joint _ q); auto|]. destruct ok; [|by apply apply_throws_joint].
      by eapply (calm_joint s [_]); try done; repeat constructor.
  - destruct (activeFlush s) eqn:E; try done. destruct Hs as [Hc Hl _]. unfold conserved, in_flight in Hc. rewrite E in Hc. by apply turn_joint.
  - destruct (activeFlush s) as [| | |[]] eqn:E; try done.
    + by eapply (calm_joint s [_]); [apply Hs|done|done|repeat constructor|done|].
    + by eapply (calm_joint s []); [apply Hs|done|simpl; by rewrite app_nil_r|constructor|done|].
  - destruct Hs as [_ Hl Hp]. split; [done|apply (good_emit [_]); [by repeat constructor|done]|done].
  - destruct Hs as [_ Hl Hp]. split; [done|apply (good_emit [_; _]); [by repeat constructor|done]|done].
  - eapply same_joint; try done. simpl. apply Hs.
  - destruct (_ =? _)%nat; [done|]. unfold bootstrap_ends. destruct (_ =? _)%nat.
    + unfold replayQueuedDeltas. apply frame_joint; [apply Hs|]. by eapply same_joint.
    + eapply same_joint; try done. apply Hs.
  - destruct Hs as [_ Hl Hp]. split; [done|apply (good_emit [_]); [by repeat constructor|done]|done].
Qed.

(** ** Runs over the store *)

(** Deltas with positive ids arrive, the store answers the writes with its batches, what it
    left out left out, and anything else happens in between. *)
Inductive joint : pipeline → database → Prop :=
  | joint_new p db : joint (new_pipeline p) db
  | joint_store s db q g stored now w db' results n project :
      joint s db → activeFlush s = Flushing q g (Persisting stored) → process_idb now w db stored = (db', results, n) →
      joint (step s (PersistSettles (Some (omap id results, n)) project)) db'
  | joint_other s db i : joint s db → positive_input i → joint (step s i) db.

Lemma joint_runs s db : joint s db → joint_ok s ∧ published_ok s.
Proof.
  induction 1 as [p db|s db q g stored now w db' results n project Hj [IH IH'] E Hr|s db i Hj [IH IH'] Hi].
  - split; [split; [done|by repeat constructor|done]|]. apply (runs_publish JSON_parse isCustomEntity maxBatchSize applySliceDeltas p []).
  - split; [|by apply step_published].
    assert (Hk := step_conserved JSON_parse isCustomEntity maxBatchSize applySliceDeltas s (PersistSettles (Some (omap id results, n)) project) (jo_kept s IH)).
    destruct IH as [Hc Hl Hp]. unfold persisting_ok in Hp. rewrite E in Hp. unfold conserved, in_flight in Hc. rewrite E in Hc.
    cbn [pipe_step] in *. rewrite E in *. unfold persist_settles in *. destruct (negb _); [apply (over_joint _ q); auto|].
    eapply (calm_joint s [_]); [done|done|done| |done|done]. constructor; [|constructor]. split; [done|]. by exists now, w, db, db', results.
  - split; [by apply step_joint|by apply step_published].
Qed.

End Joint.
