(* ===== verification/PipelineRuns.v ===== *)
(** * Runs of the delta pipeline

    Concrete runs of [DeltaPipeline.v], alone and over the store of [DeltaStore.v]: the
    hypotheses of its theorems at concrete inputs, and what the pipeline leaves undone. *)
From S2P Require Import Prelude JsData Json Positions DeltaStore DeltaStoreFacts DeltaFrames DeltaPipeline DeltaPipelineFacts.
From S2P Require Import DeltaPipelineFacts DeltaAcks DeltaJoint DeltaRuns.
#[local] Open Scope string_scope.
#[local] Open Scope list_scope.
#[local] Open Scope Z_scope.

(** Payloads arrive as objects; notes of the host are custom entities; batches of two and
    slices of two. *)
Definition no_text (s : string) : option fields := Some [].
Definition is_cursor (m : string) : bool := String.eqb m "Cursor".
Definition p_steps := foldl (pipe_step no_text is_cursor 2 2).
Definition p_start : pipeline := new_pipeline (mkPosition 10 10 10).

Definition wire (n : Z) (a : SyncDeltaAction) (m id : string) (data : wire_data) : WireDelta := mkWireDelta n a m id data None None.
Definition w11 : WireDelta := wire 11 ActU "Task" "t1" (DataObject [("title", JStr "final")]).
Definition w12 : WireDelta := wire 12 ActI "Task" "t2" (DataObject [("title", JStr "second")]).
Definition w13 : WireDelta := wire 13 ActI "Note" "n1" (DataObject [("text", JStr "note")]).

(** The store's answer to a write of these deltas. *)
Definition stored_of (ds : list WireDelta) : list SyncDelta := omap (to_store no_text) ds.
Definition wrote (d : SyncDelta) : AppliedChange := mkChange ChUpdate (dl_model d) (dl_id d) (dl_data d) (dl_tx d) (dl_syncId d).
Definition all_written (stored : list SyncDelta) : list AppliedChange * Z := (wrote <$> stored, highest_id stored).
Definition writes (ds : list WireDelta) : pipe_input := PersistSettles (Some (all_written (stored_of ds))) (λ l, l).

Definition frame_goes_through (ds : list WireDelta) : list pipe_input :=
  [Frame ds; writes ds; PrepareSettles PrepDeclined; ApplyProceeds true; ApplyProceeds true; ApplyProceeds true; FlushSettles].

(** ** Witnesses *)

(** The store writes all it is given, the pool keeps and reveals it. *)
Definition all_goes_well : promises :=
  mkPromises (λ s, Some match activeFlush s with Flushing _ _ (Persisting stored) => all_written stored | _ => ([], 0) end)
    (λ _ l, l) (λ _, PrepDeclined) (λ _, true).

Lemma flush_drains_the_queue_witness :
  let s := p_steps p_start [Frame [w11]; Frame [w13; w12]] in
  (in_flight s = [w11] ∧ pendingDeltas s = [w13; w12])
  ∧ ∃ fuel s', settle no_text is_cursor 2 2 all_goes_well fuel s = Some s' ∧ activeFlush s' = NoFlush ∧ pendingDeltas s' = [].
Proof.
  cbv zeta. split; [by vm_compute|].
  destruct (flush_drains_the_queue no_text is_cursor 2 2 all_goes_well (p_steps p_start [Frame [w11]; Frame [w13; w12]])) as (fuel & s' & H1 & H2 & _ & H3);
    [by vm_compute|]. exists fuel, s'. split; [exact H1|]. split; [exact H2|]. apply H3. split.
  - split; [intros s; by eexists|]. by split.
  - change (Forall (readable no_text) [w13; w12]). repeat constructor; by eexists.
Defined.

Lemma waiting_deltas_are_awaited_witness :
  let s := pipe_run no_text is_cursor 2 2 (mkPosition 10 10 10) [Live w11] in
  pendingDeltas s = [w11] ∧ batchTimer s = true.
Proof.
  cbv zeta. split; [by vm_compute|].
  destruct (waiting_deltas_are_awaited no_text is_cursor 2 2 (mkPosition 10 10 10) [Live w11]) as [H|H]; [|done|exact H|by vm_compute in H].
  by repeat constructor.
Defined.

(** ** Over the store *)

Definition joint_state : pipeline := p_steps p_start [Frame [w13; w11; w12; w11]].
Definition joint_answer := process_idb 0 quiet one_task (stored_of [w11; w12; w13]).
Definition joint_written : pipeline := p_steps joint_state [PersistSettles (Some (omap id joint_answer.1.2, joint_answer.2)) (λ l, l)].
Definition joint_end : pipeline := p_steps joint_written [PrepareSettles PrepDeclined; ApplyProceeds true; ApplyProceeds true; ApplyProceeds true].

Lemma joint_end_reached : joint no_text is_cursor 2 2 joint_end joint_answer.1.1.
Proof.
  assert (H : joint no_text is_cursor 2 2 joint_state one_task).
  { apply (joint_other _ _ _ _ p_start _ (Frame [w13; w11; w12; w11])); [apply joint_new|by repeat constructor]. }
  assert (H' : joint no_text is_cursor 2 2 joint_written joint_answer.1.1).
  { eapply (joint_store _ _ _ _ joint_state one_task [w13; w11; w12; w11] 0 (stored_of [w11; w12; w13]) 0 quiet); [exact H|done|by vm_compute]. }
  unfold joint_end, p_steps. cbn [foldl]. by repeat (apply joint_other; [|done]).
Qed.


(** ** Failures *)

(** After a flush that failed the deltas are back in the queue, and nothing will come to
    them: no timer is armed and no flush is under way, until another delta arrives. *)
Theorem failed_flush_waits_for_the_next_delta :
  let s := p_steps p_start [Live w11; TimerFires; PersistSettles None (λ l, l); FlushSettles] in
  pendingDeltas s = [w11] ∧ batchTimer s = false ∧ activeFlush s = NoFlush ∧ p_steps s [TimerFires; HostYields; FlushSettles] = s
  ∧ let s' := p_steps s (Frame [w12] :: tail (frame_goes_through [w11; w12])) in pendingDeltas s' = [] ∧ acked (p_log s') = [12].
Proof. vm_compute. by split_and!. Qed.

(** A frame that comes in between the end of a drain and the microtask that forgets it
    joins the flush that is over: it waits without a timer. *)
Theorem frame_after_the_drain_waits :
  let s := p_steps p_start [Frame [w11]; writes [w11]; PrepareSettles PrepDeclined; ApplyProceeds true; ApplyProceeds true] in
  activeFlush s = Settling false
  ∧ let s' := p_steps s [Frame [w12]; FlushSettles] in pendingDeltas s' = [w12] ∧ batchTimer s' = false ∧ activeFlush s' = NoFlush.
Proof. vm_compute. by split_and!. Qed.

(** A change that was written and could not be revealed is revealed when its delta is taken
    again, where the store answers that it has it. *)
Theorem held_change_is_revealed_on_retry :
  let c := mkChange ChUpdate "Task" "t1" (Some [("title", JStr "final")]) None (Some 11) in
  let s := p_steps p_start [Frame [w11]; writes [w11]; PrepareSettles PrepDeclined; ApplyProceeds false; FlushSettles] in
  let again := PersistSettles (Some ([mkChange ChVerify "Task" "t1" None None (Some 11); wrote (mkSyncDelta (Some 12) ActI "Task" "t2" (Some [("title", JStr "second")]) None)], 12)) (λ l, l) in
  let s' := p_steps s [Frame [w12]; again; PrepareSettles PrepDeclined; ApplyProceeds true; ApplyProceeds true; FlushSettles] in
  unappliedChanges s = Some [(11, c)] ∧ pendingDeltas s = [w11] ∧ acked (p_log s) = []
  ∧ head (applied (p_log s')) = Some c ∧ unappliedChanges s' = None ∧ acked (p_log s') = [12].
Proof. vm_compute. by split_and!. Qed.

(** A delete of a custom entity carries no payload, and is passed over. *)
Theorem custom_delete_without_payload_is_passed_over :
  let gone := wire 12 ActD "Cursor" "c1" DataNull in
  let s := p_steps p_start [Frame [wire 11 ActI "Cursor" "c1" (DataObject []); gone]] in
  forallb (λ e, match e with EvCustomRemove _ => false | _ => true end) (p_log s) = true
  ∧ activeFlush s = Flushing [wire 11 ActI "Cursor" "c1" (DataObject []); gone] 0 (Persisting []).
Proof. vm_compute. by split_and!. Qed.

(** The fallback for an access change that could not be carried out empties the pool and
    forces a bootstrap, but does not invalidate the batch in flight: rows it had written
    are revealed into the emptied pool, and acknowledged. *)
Theorem pool_is_filled_again_after_the_fallback :
  let s := p_steps p_start [Frame [w11]; writes [w11]; PrepareSettles PrepDeclined; GroupHandlerFails; ApplyProceeds true; ApplyProceeds true] in
  ∃ l1 l2, p_log s = l1 ++ EvPoolCleared :: EvRebootstrap :: l2
    ∧ applied l2 = [wrote (mkSyncDelta (Some 11) ActU "Task" "t1" (Some [("title", JStr "final")]) None)] ∧ acked l2 = [11].
Proof. exists (take 4 (p_log (p_steps p_start [Frame [w11]; writes [w11]; PrepareSettles PrepDeclined; GroupHandlerFails]))). eexists. split; [vm_compute; reflexivity|]. by vm_compute. Qed.

(** A frame that arrives during a bootstrap is deferred: its promise resolves with nothing
    written and nothing queued for writing. *)
Lemma frame_during_bootstrap_resolves ds : ∀ s, is_Some (bootstrapDeltaQueue s) →
  let s' := persistDeltaFrame no_text is_cursor ds s in
  activeFlush s' = activeFlush s ∧ pendingDeltas s' = pendingDeltas s ∧ bootstrapDeltaQueue s' = (λ q, q ++ ds) <$> bootstrapDeltaQueue s.
Proof.
  intros s Hq. cbv zeta. unfold persistDeltaFrame.
  assert (H : (enqueue_all ds s).1 = false ∧ activeFlush (enqueue_all ds s).2 = activeFlush s ∧ pendingDeltas (enqueue_all ds s).2 = pendingDeltas s
    ∧ bootstrapDeltaQueue (enqueue_all ds s).2 = (λ q, q ++ ds) <$> bootstrapDeltaQueue s).
  { revert s Hq. induction ds as [|d ds IH]; intros s [q Hq]; [split_and!; try done; rewrite Hq; simpl; by rewrite app_nil_r|]. cbn [enqueue_all].
    destruct (enqueueDelta true d s) as [pushed s1] eqn:E1.
    assert (H1 : pushed = false ∧ activeFlush s1 = activeFlush s ∧ pendingDeltas s1 = pendingDeltas s ∧ bootstrapDeltaQueue s1 = Some (q ++ [d])).
    { unfold enqueueDelta in E1. simpl in E1. rewrite Hq in E1. by injection E1 as <- <-. }
    destruct H1 as (-> & F1 & P1 & Q1). destruct (IH s1 ltac:(by eexists)) as (H1 & H2 & H3 & H4).
    destruct (enqueue_all ds s1) as [any s']; simpl in *. split_and!; [done|congruence|congruence|]. rewrite H4, Q1, Hq. simpl. by rewrite <- app_assoc. }
  destruct (enqueue_all ds s) as [any s']; simpl in *. destruct H as (-> & H). exact H.
Qed.
