(* ===== verification/UndoApply.v ===== *)
(** * What undo and redo replay

    [undoApply.ts], [inverseOp.ts] and [operations/undo.ts] of
    [packages/humans/src/local], with the helpers of [mutators/UndoManager.ts]: the
    reversible operations, the recording of a local mutation, and the filter that
    leaves alone what a collaborator changed since. The fields of a patch are kept
    beside its id. *)
From S2P Require Import Prelude JsData Json.
#[local] Open Scope Z_scope.

Record patch := mkPatch { p_id : string; p_fields : fields }.

(** ** Reversible operations ([inverseOp.ts]) *)

Inductive field_domain := TextDomain | CounterDomain.

Inductive InverseOp :=
  | OpCreate (modelKey id : string) (data : fields)
  | OpUpdate (modelKey : string) (p : patch)
  | OpDelete (modelKey id : string)
  | OpCreateMany (modelKey : string) (data : list (string * fields))
  | OpUpdateMany (modelKey : string) (patches : list patch)
  | OpDeleteMany (modelKey : string) (ids : list string)
  | OpReverse (modelKey id field : string) (domain : field_domain) (editId : string) (p : fields).

Record UndoEntry := mkEntry { e_label : option string; e_inverses : list InverseOp; e_forwards : list InverseOp }.

Definition op_model (op : InverseOp) : string :=
  match op with
  | OpCreate m _ _ | OpUpdate m _ | OpDelete m _ | OpCreateMany m _ | OpUpdateMany m _ | OpDeleteMany m _
  | OpReverse m _ _ _ _ _ => m
  end.

(** ** The rows undo reads *)

(** [store.pool.get(id)?.toJSON()]: the rows by id, with their model. *)
Record row := mkRow { row_model : string; row_fields : fields }.
Definition rows := list (string * row).

(** [readCurrentField] *)
Definition readCurrentField (pool : rows) (id field : string) : json :=
  match map_get id pool with
  | Some r => default JUndefined (map_get field (row_fields r))
  | None => JUndefined
  end.

(** ** Conflict-aware replay ([undoApply.ts]) *)

Inductive UndoConflictPolicy := SkipStale | LastWriterWins.
#[export] Instance policy_eq_dec : EqDecision UndoConflictPolicy.
Proof. solve_decision. Defined.

Definition establish (m : list (string * fields)) (id : string) (p : fields) : list (string * fields) :=
  map_set id (spread (default [] (map_get id m)) p) m.

Definition buildEstablished (paired : list InverseOp) : list (string * fields) :=
  foldl (λ m op, match op with
                 | OpUpdate _ p => establish m (p_id p) (p_fields p)
                 | OpReverse _ id _ _ _ p => establish m id p
                 | OpUpdateMany _ ps => foldl (λ m p, establish m (p_id p) (p_fields p)) m ps
                 | _ => m
                 end) [] paired.

(** The keys of three objects, each once, in the order of a [Set]. *)
Definition union_keys (c e v : fields) : list string := foldl (λ ks k, set_add k ks) [] (c.*1 ++ e.*1 ++ v.*1).

(** [replayValue] where the value to replay is missing. *)
Definition replay_missing (established current : option json) : option json :=
  if odeep None established then current else if odeep current established then None else current.

(** [replayValue]; [None] is the symbol for a missing property. *)
Fixpoint replay_some (value : json) (established current : option json) : option json :=
  if odeep (Some value) established then current
  else if odeep current established then Some value
  else match value, established, current with
       | JObj v, Some (JObj e), Some (JObj c) =>
           let children := List.map (λ p, (p.1, replay_some p.2)) v in
           Some (JObj (omap (λ key,
             next ← match map_get key children with
                    | Some replay => replay (map_get key e) (map_get key c)
                    | None => replay_missing (map_get key e) (map_get key c)
                    end; Some (key, next)) (union_keys c e v)))
       | _, _, _ => current
       end.

Definition replayValue (value established current : option json) : option json :=
  match value with
  | Some v => replay_some v established current
  | None => replay_missing established current
  end.

(** One field of [filterStalePatch]. *)
Definition filter_field (pool : rows) (id : string) (established : option fields) (p : string * json) : option (string * json) :=
  match established ≫= map_get p.1 with
  | Some est =>
      let current := readCurrentField pool id p.1 in
      let next := default JUndefined (replayValue (Some p.2) (Some est) (Some current)) in
      if deepEqual next current then None else Some (p.1, next)
  | None => Some p
  end.

Definition filterStalePatch (pool : rows) (p : patch) (established : option fields) : option patch :=
  match omap (filter_field pool (p_id p) established) (p_fields p) with
  | [] => None
  | out => Some (mkPatch (p_id p) out)
  end.

Definition resolve_op (pool : rows) (established : list (string * fields)) (op : InverseOp) : option InverseOp :=
  match op with
  | OpUpdate m p => p ← filterStalePatch pool p (map_get (p_id p) established); Some (OpUpdate m p)
  | OpUpdateMany m ps =>
      match omap (λ p, filterStalePatch pool p (map_get (p_id p) established)) ps with
      | [] => None
      | ps => Some (OpUpdateMany m ps)
      end
  | OpReverse m id field domain editId p =>
      Some (OpReverse m id field domain editId
              (from_option p_fields [] (filterStalePatch pool (mkPatch id p) (map_get id established))))
  | _ => Some op
  end.

Definition resolveOps (apply paired : list InverseOp) (pool : rows) (policy : UndoConflictPolicy) : list InverseOp :=
  if decide (policy = LastWriterWins) then apply
  else omap (resolve_op pool (buildEstablished paired)) apply.

(** ** Recording ([buildUndoOps], [fieldOperationUndo]) *)

Inductive mutation_type := MCreate | MUpdate | MDelete | MArchive | MUnarchive.

Record LocalMutation := mkMutation {
  m_type : mutation_type;
  m_modelName : string;
  m_modelId : string;
  m_data : fields;
  m_previousData : fields;
  m_undoScopeId : option string;
}.

Definition stripId (o : fields) : fields := map_delete "id"%string o.

(** The merge domain of a field, and the id of the edit a value stands for. *)
Record field_reader := mkReader {
  merge_of : string → string → option field_domain;
  edit_id_of : field_domain → json → option string;
}.

Fixpoint fieldOperationUndo (fr : field_reader) (modelKey id : string) (next previous : fields) : option InverseOp :=
  match next with
  | [] => None
  | (field, value) :: next =>
      match merge_of fr modelKey field with
      | Some domain =>
          match edit_id_of fr domain value with
          | Some editId => Some (OpReverse modelKey id field domain editId (map_delete "id"%string (map_delete field previous)))
          | None => fieldOperationUndo fr modelKey id next previous
          end
      | None => fieldOperationUndo fr modelKey id next previous
      end
  end.

Definition buildUndoOps (fr : field_reader) (now : Z) (m : LocalMutation) (modelKey : string) : InverseOp * option InverseOp :=
  let id := m_modelId m in
  match m_type m with
  | MCreate => (OpCreate modelKey id (stripId (m_data m)), Some (OpDelete modelKey id))
  | MUpdate =>
      let next := stripId (m_data m) in
      let prev := stripId (m_previousData m) in
      (OpUpdate modelKey (mkPatch id next),
       match fieldOperationUndo fr modelKey id next prev with
       | Some op => Some op
       | None => match prev with [] => None | _ => Some (OpUpdate modelKey (mkPatch id prev)) end
       end)
  | MDelete => (OpDelete modelKey id, Some (OpCreate modelKey id (stripId (m_previousData m))))
  | MArchive => (OpUpdate modelKey (mkPatch id [("archivedAt"%string, JDate now)]), Some (OpUpdate modelKey (mkPatch id [("archivedAt"%string, JNull)])))
  | MUnarchive => (OpUpdate modelKey (mkPatch id [("archivedAt"%string, JNull)]), Some (OpUpdate modelKey (mkPatch id [("archivedAt"%string, JDate now)])))
  end.

(** ** Replaying *)

Definition expandReplayOps (ops : list InverseOp) : list InverseOp :=
  flat_map (λ op, match op with
                  | OpCreateMany m data => (λ d, OpCreate m d.1 d.2) <$> data
                  | OpUpdateMany m ps => OpUpdate m <$> ps
                  | OpDeleteMany m ids => OpDelete m <$> ids
                  | _ => [op]
                  end) ops.

(** The patch an operation writes, with the row it writes to. *)
Definition op_patch (op : InverseOp) : option patch :=
  match op with OpUpdate _ p => Some p | OpReverse _ id _ _ _ p => Some (mkPatch id p) | _ => None end.

(** The baseline of a replay by model and row. *)
Definition baseline := list ((string * string) * fields).

Definition captureReplayBaseline (ops : list InverseOp) (pool : rows) : baseline :=
  foldl (λ b op, match op_patch op with
                 | Some p =>
                     let key := (op_model op, p_id p) in
                     let row := default [] (map_get key b) in
                     map_set key (foldl (λ r f, map_set f.1 (readCurrentField pool (p_id p) f.1) r) row (p_fields p)) b
                 | None => b
                 end) [] ops.

(** The semantic action a reversal replaces. *)
Definition reverses (op reversal : InverseOp) : bool :=
  match reversal with
  | OpReverse m id field _ _ _ =>
      String.eqb m (op_model op)
      && match op with
         | OpReverse _ id' field' _ _ _ => String.eqb id' id && String.eqb field' field
         | OpUpdate _ p => String.eqb (p_id p) id && is_Some_b (map_get field (p_fields p))
         | _ => false
         end
  | _ => false
  end.

Fixpoint replace_reversals (paired remaining : list InverseOp) : list InverseOp :=
  match paired with
  | [] => []
  | op :: paired =>
      match find_index (reverses op) remaining with
      | Some i => default op (remaining !! i) :: replace_reversals paired (take i remaining ++ drop (S i) remaining)
      | None => op :: replace_reversals paired remaining
      end
  end.

Definition replaceOperationReversals (paired reversals : list InverseOp) : list InverseOp :=
  replace_reversals paired (rev reversals).

(** ** A merge of properties *)

Lemma map_get_collect (f : string → option json) ks k :
  NoDup ks → map_get k (omap (λ key, next ← f key; Some (key, next)) ks) = if decide (k ∈ ks) then f k else None.
Proof.
  intros Hn. induction ks as [|key ks IH]; [done|].
  apply NoDup_cons in Hn as [Hkey Hn]. specialize (IH Hn). cbn [omap list_omap].
  destruct (f key) as [next|] eqn:Hf; simpl.
  - destruct (decide (k = key)) as [->|Hne]; [by rewrite decide_True by left|]. rewrite IH.
    destruct (decide (k ∈ ks)) as [Hin|Hin]; [by rewrite decide_True by (by right)|].
    rewrite decide_False; [done|]. by intros [?|?]%elem_of_cons.
  - rewrite IH. destruct (decide (k ∈ ks)) as [Hin|Hin]; [by rewrite decide_True by (by right)|].
    destruct (decide (k = key)) as [->|Hne]; [rewrite decide_True by left; by rewrite Hf|].
    rewrite decide_False; [done|]. by intros [?|?]%elem_of_cons.
Qed.

Lemma collect_keys (f : string → option json) ks : NoDup ks → NoDup (omap (λ key, next ← f key; Some (key, next)) ks).*1.
Proof.
  intros Hn. induction Hn as [|key ks Hkey Hn IH]; [apply NoDup_nil_2|]. cbn [omap list_omap].
  destruct (f key) as [next|]; simpl; [|done]. apply NoDup_cons. split; [|done].
  intros ([k v] & -> & Hin)%list_elem_of_fmap. apply list_elem_of_omap in Hin as (k' & Hk' & Heq). simpl in *.
  destruct (f k'); [|done]. by injection Heq as -> ->.
Qed.

Lemma union_keys_spec c e v : NoDup (union_keys c e v) ∧ ∀ k, k ∈ union_keys c e v ↔ k ∈ c.*1 ∨ k ∈ e.*1 ∨ k ∈ v.*1.
Proof.
  unfold union_keys.
  assert (Hall : ∀ l acc, NoDup acc → NoDup (foldl (λ ks k, set_add k ks) acc l)
    ∧ ∀ k, k ∈ foldl (λ ks k, set_add k ks) acc l ↔ k ∈ acc ∨ k ∈ l).
  { induction l as [|x l IH]; intros acc Hacc; simpl; [split; [done|]; intros k; rewrite elem_of_nil; tauto|].
    destruct (IH (set_add x acc) (NoDup_set_add x acc Hacc)) as [H1 H2]. split; [done|]. intros k.
    rewrite H2, elem_set_add, elem_of_cons. tauto. }
  destruct (Hall (c.*1 ++ e.*1 ++ v.*1) [] (NoDup_nil_2)) as [H1 H2]. split; [done|]. intros k.
  rewrite H2, !elem_of_app, elem_of_nil. tauto.
Qed.

(** The properties of a merged object. *)
Definition merged (v e c : fields) : fields :=
  omap (λ key, next ← replayValue (map_get key v) (map_get key e) (map_get key c); Some (key, next)) (union_keys c e v).

Lemma replay_value_eq value established current :
  replayValue value established current
  = if odeep value established then current
    else if odeep current established then value
    else match value, established, current with
         | Some (JObj v), Some (JObj e), Some (JObj c) => Some (JObj (merged v e c))
         | _, _, _ => current
         end.
Proof.
  destruct value as [[| | | | | | |f]|]; try reflexivity. cbn [replayValue replay_some].
  destruct (odeep (Some (JObj f)) established); [done|]. destruct (odeep current established); [done|].
  destruct established as [[| | | | | | |e]|]; try reflexivity. destruct current as [[| | | | | | |c]|]; try reflexivity.
  do 2 f_equal. unfold merged.
  apply list_omap_ext. apply Forall_Forall2_diag. apply Forall_forall. intros key _. f_equal.
  assert (Hch : map_get key (List.map (λ p : string * json, (p.1, replay_some p.2)) f) = replay_some <$> map_get key f).
  { clear. induction f as [|[k x] f IH]; simpl; [done|]. by case_decide. }
  rewrite Hch. by destruct (map_get key f).
Qed.

Lemma map_get_merged v e c k :
  map_get k (merged v e c) = replayValue (map_get k v) (map_get k e) (map_get k c).
Proof.
  destruct (union_keys_spec c e v) as [Hn Hk]. unfold merged. rewrite map_get_collect by done. case_decide as Hin; [done|].
  rewrite Hk in Hin. rewrite (proj2 (map_get_None k v)), (proj2 (map_get_None k e)), (proj2 (map_get_None k c)) by tauto. done.
Qed.


(** The three are plain objects. *)
Definition three_objects (v e c : option json) : bool :=
  match v, e, c with Some (JObj _), Some (JObj _), Some (JObj _) => true | _, _, _ => false end.

(** Induction along the calls of [replayValue]. *)
Lemma replay_induct (P : option json → option json → option json → option json → Prop) :
  (∀ v e c, odeep v e = true → P v e c c) →
  (∀ v e c, odeep v e = false → odeep c e = true → P v e c v) →
  (∀ v e c, odeep v e = false → odeep c e = false → three_objects v e c = false → P v e c c) →
  (∀ v e c, odeep (Some (JObj v)) (Some (JObj e)) = false → odeep (Some (JObj c)) (Some (JObj e)) = false →
     (∀ k, P (map_get k v) (map_get k e) (map_get k c) (replayValue (map_get k v) (map_get k e) (map_get k c))) →
     P (Some (JObj v)) (Some (JObj e)) (Some (JObj c)) (Some (JObj (merged v e c)))) →
  ∀ v e c, P v e c (replayValue v e c).
Proof.
  intros H1 H2 H3 H4.
  assert (Hcase : ∀ v e c,
    (∀ f g h, v = Some (JObj f) → e = Some (JObj g) → c = Some (JObj h) →
       ∀ k, P (map_get k f) (map_get k g) (map_get k h) (replayValue (map_get k f) (map_get k g) (map_get k h))) →
    P v e c (replayValue v e c)).
  { intros v e c IH. rewrite replay_value_eq. destruct (odeep v e) eqn:Hve; [by apply H1|].
    destruct (odeep c e) eqn:Hce; [by apply H2|].
    destruct (three_objects v e c) eqn:Ho.
    - destruct v as [[]|]; try done. destruct e as [[]|]; try done. destruct c as [[]|]; try done. apply H4; eauto.
    - assert (Hgoal : P v e c c) by by apply H3. destruct v as [[]|]; try exact Hgoal. destruct e as [[]|]; try exact Hgoal.
      destruct c as [[]|]; try exact Hgoal. discriminate Ho. }
  assert (Hnone : ∀ e c, P None e c (replayValue None e c)) by (intros e c; apply Hcase; intros; discriminate).
  assert (Hsome : ∀ v e c, P (Some v) e c (replayValue (Some v) e c)).
  { induction v as [| | | | | | |f IH] using json_ind; intros e c; apply Hcase; intros f' g h Hv; try discriminate.
    injection Hv as ->. intros -> -> k. destruct (map_get k f') as [x|] eqn:Hx; [|apply Hnone].
    rewrite Forall_forall in IH. apply (IH (k, x)). by apply map_get_elem. }
  intros [v|] e c; [apply Hsome|apply Hnone].
Qed.

Lemma merged_wf v e c :
  (∀ k, owf (replayValue (map_get k v) (map_get k e) (map_get k c)) = true) → wf (JObj (merged v e c)) = true.
Proof.
  intros Hk. apply wf_obj. split; [|intros k; by rewrite map_get_merged].
  apply collect_keys. by destruct (union_keys_spec c e v).
Qed.

Lemma wf_get f k : wf (JObj f) = true → owf (map_get k f) = true.
Proof. intros Hf. apply wf_obj in Hf as [_ Hf]. apply Hf. Qed.

Lemma replay_value_wf v e c : owf v = true → owf e = true → owf c = true → owf (replayValue v e c) = true.
Proof.
  revert v e c. apply (replay_induct (λ v e c out, owf v = true → owf e = true → owf c = true → owf out = true)); try done.
  intros v e c _ _ IH Hv He Hc. apply merged_wf. intros k. apply IH; by apply wf_get.
Qed.

(** ** The theorems of the merge *)

Definition child (k : string) (v : option json) : option json :=
  match v with Some (JObj f) => map_get k f | _ => None end.

Fixpoint at_path (p : list string) (v : option json) : option json :=
  match p with [] => v | k :: p => at_path p (child k v) end.

(** Every value above the end of the path is an object in all three. *)
Fixpoint objects_above (p : list string) (v e c : option json) : Prop :=
  match p with
  | [] => True
  | k :: p =>
      match v, e, c with
      | Some (JObj v), Some (JObj e), Some (JObj c) => objects_above p (map_get k v) (map_get k e) (map_get k c)
      | _, _, _ => False
      end
  end.

Lemma child_wf k v : owf v = true → owf (child k v) = true.
Proof. intros Hv. destruct v as [[]|]; try done. by apply wf_get. Qed.

Lemma deep_child k v e : owf v = true → owf e = true → odeep v e = true → odeep (child k v) (child k e) = true.
Proof.
  intros Hv He Hd. destruct v as [v|], e as [e|]; try done. destruct (own_fields v) as [f|] eqn:Hf.
  - destruct (proj1 (deep_own v e f Hv He Hf) Hd) as (g & Hg & Hall). specialize (Hall k).
    assert (child k (Some v) = map_get k f) as -> by (clear -Hf; destruct v; by simplify_eq/=).
    by assert (child k (Some e) = map_get k g) as -> by (clear -Hg; destruct e; by simplify_eq/=).
  - destruct v; try done; by destruct e.
Qed.

Lemma at_path_wf p v : owf v = true → owf (at_path p v) = true.
Proof. revert v. induction p as [|k p IH]; intros v Hv; [done|]. simpl. by apply IH, child_wf. Qed.

Lemma deep_at_path p v e : owf v = true → owf e = true → odeep v e = true → odeep (at_path p v) (at_path p e) = true.
Proof.
  revert v e. induction p as [|k p IH]; intros v e Hv He Hd; [done|]. simpl. by apply IH; [apply child_wf..|apply deep_child].
Qed.

Lemma replay_keeps_collaborator p v e c :
  owf v = true → owf e = true → owf c = true →
  odeep (at_path p c) (at_path p e) = false → three_objects (at_path p v) (at_path p e) (at_path p c) = false →
  at_path p (replayValue v e c) = at_path p c.
Proof.
  revert p. revert v e c. apply (replay_induct (λ v e c out, ∀ p, owf v = true → owf e = true → owf c = true →
    odeep (at_path p c) (at_path p e) = false → three_objects (at_path p v) (at_path p e) (at_path p c) = false →
    at_path p out = at_path p c)); try done.
  - intros v e c _ Hce p _ He Hc Hd _. by rewrite (deep_at_path p c e) in Hd.
  - intros v e c _ _ IH [|k p] Hv He Hc Hd Ho; [done|]. simpl in *. rewrite map_get_merged.
    apply IH; [by apply wf_get..|done|done].
Qed.

Lemma replay_undoes_own p v e c :
  owf v = true → owf e = true → owf c = true → objects_above p v e c → odeep (at_path p c) (at_path p e) = true →
  odeep (at_path p (replayValue v e c)) (at_path p v) = true.
Proof.
  revert p. revert v e c. apply (replay_induct (λ v e c out, ∀ p, owf v = true → owf e = true → owf c = true →
    objects_above p v e c → odeep (at_path p c) (at_path p e) = true → odeep (at_path p out) (at_path p v) = true)).
  - intros v e c Hve p Hv He Hc _ Hd. apply (odeep_trans _ (at_path p e)); [by apply at_path_wf..|done|].
    apply odeep_sym; [by apply at_path_wf..|]. by apply deep_at_path.
  - intros v e c _ _ p Hv _ _ _ _. apply odeep_refl. by apply at_path_wf.
  - intros v e c _ Hce Ho [|k p] _ _ _ Ha Hd; [cbn [at_path] in Hd; congruence|]. simpl in Ha.
    destruct v as [[]|]; try done. destruct e as [[]|]; try done. by destruct c as [[]|].
  - intros v e c _ Hce IH [|k p] Hv He Hc Ha Hd; [cbn [at_path] in Hd; congruence|]. simpl in *. rewrite map_get_merged.
    apply IH; [by apply wf_get..|done|done].
Qed.

(** Replaying a change merges it into the current value leaf by leaf. At every path,
    a value a collaborator changed since (it differs from what the change established)
    stays exactly as it is, unless it is an object on all three sides and the merge goes
    on inside; a value that still stands is replaced by the one to restore; and when
    nothing changed since, the whole value becomes the one to restore. *)
Theorem replay_merges_by_leaf value established current p :
  owf value = true → owf established = true → owf current = true →
  (odeep (at_path p current) (at_path p established) = false →
     three_objects (at_path p value) (at_path p established) (at_path p current) = false →
     at_path p (replayValue value established current) = at_path p current)
  ∧ (objects_above p value established current → odeep (at_path p current) (at_path p established) = true →
     odeep (at_path p (replayValue value established current)) (at_path p value) = true)
  ∧ (odeep current established = true → odeep (replayValue value established current) value = true).
Proof.
  intros Hv He Hc. split_and!.
  - by apply replay_keeps_collaborator.
  - by apply replay_undoes_own.
  - by apply (replay_undoes_own []).
Qed.
