(* ===== verification/UndoScope.v ===== *)
(** * An undo scope

    [UndoScope] of [packages/humans/src/local/mutators/UndoManager.ts]: the two stacks
    of one surface, the recording of local mutations by tick and by group, and the
    replay of an entry, one confirmed write after the other. Undo and redo run one at a
    time on the chain of the scope; each [await] of a replay is an input, and so are
    the changes the rest of the client makes to the rows meanwhile. A replay that
    failed keeps its progress. Listeners are not modelled. *)
From S2P Require Import Prelude JsData ErrorCodes MutationQueue MutationFailure Json UndoApply.
#[local] Open Scope Z_scope.

(** ** Model names *)

(** [modelName.replace('Model', '').toLowerCase()] *)
Fixpoint without_Model (s : string) : string :=
  match s with
  | EmptyString => EmptyString
  | String c rest => if String.prefix "Model" s then String.substring 5 (String.length s - 5) s else String c (without_Model rest)
  end.
Definition normalizeModelAlias (modelName : string) : string := toLowerCase (without_Model modelName).

(** Schema keys with their type names. *)
Definition schema := list (string * string).

Definition schemaKeyByAlias (sc : schema) : list (string * string) :=
  foldl (λ m p, foldl (λ m alias, map_set (normalizeModelAlias alias) p.1 (map_set (toLowerCase alias) p.1 (map_set alias p.1 m)))
                  m [p.1; p.2]) [] sc.

Definition resolveSchemaKey (sc : schema) (modelName : string) : option string :=
  match map_get modelName (schemaKeyByAlias sc) with
  | Some key => Some key
  | None => map_get (normalizeModelAlias modelName) (schemaKeyByAlias sc)
  end.

(** ** State *)

Record scope_options := mkOptions {
  so_schema : schema;
  maxHistory : nat;
  conflictPolicy : UndoConflictPolicy;
  tracksModel : string → bool;
  replayScopeId : string;
  so_fields : field_reader;
  (** What the constructor of a model makes of the data of a row. *)
  construct : string → string → fields → fields;
  (** [Date.prototype.toISOString], by which a row reads back its system dates. *)
  iso : Z → string;
}.

Record ReplayProgress := mkProgress {
  remaining : list InverseOp;
  reversed : list InverseOp;
  completed : Z;
  rp_baseline : baseline;
  uncertain : bool;
}.

(** What a replay waits for: the inverse of an accepted edit of a row, or the
    confirmation of a write, with the reversal it makes. *)
Inductive replay_wait :=
  | WaitInverse (op : InverseOp) (r : row)
  | WaitWrite (op : InverseOp) (reversal : option InverseOp).

Record flight := mkFlight {
  fl_entry : nat;
  fl_undo : bool;
  fl_progress : ReplayProgress;
  (** The scope still knows the progress: it was not cleared. *)
  fl_listed : bool;
}.

Definition recorded_op : Type := InverseOp * option InverseOp.

(** The last of a stack is its top; stacks hold the numbers of entries. *)
Record undo_scope := mkScope {
  scope_entries : list UndoEntry;
  undoStack : list nat;
  redoStack : list nat;
  replayProgress : list (nat * ReplayProgress);
  batch : list recorded_op;
  flushScheduled : bool;
  group : option (option string * list recorded_op);
  chain : list bool;
  replaying : option (flight * replay_wait);
  pool : rows;
  answers : list (option CaughtError);
}.

Definition new_scope (p : rows) : undo_scope := mkScope [] [] [] [] [] false None [] None p [].

Definition with_entries_of x s := mkScope x (undoStack s) (redoStack s) (replayProgress s) (batch s) (flushScheduled s) (group s) (chain s) (replaying s) (pool s) (answers s).
Definition with_undo x s := mkScope (scope_entries s) x (redoStack s) (replayProgress s) (batch s) (flushScheduled s) (group s) (chain s) (replaying s) (pool s) (answers s).
Definition with_redo x s := mkScope (scope_entries s) (undoStack s) x (replayProgress s) (batch s) (flushScheduled s) (group s) (chain s) (replaying s) (pool s) (answers s).
Definition with_progress x s := mkScope (scope_entries s) (undoStack s) (redoStack s) x (batch s) (flushScheduled s) (group s) (chain s) (replaying s) (pool s) (answers s).
Definition with_batch x b s := mkScope (scope_entries s) (undoStack s) (redoStack s) (replayProgress s) x b (group s) (chain s) (replaying s) (pool s) (answers s).
Definition with_group x s := mkScope (scope_entries s) (undoStack s) (redoStack s) (replayProgress s) (batch s) (flushScheduled s) x (chain s) (replaying s) (pool s) (answers s).
Definition with_chain x s := mkScope (scope_entries s) (undoStack s) (redoStack s) (replayProgress s) (batch s) (flushScheduled s) (group s) x (replaying s) (pool s) (answers s).


Definition with_replaying x s := mkScope (scope_entries s) (undoStack s) (redoStack s) (replayProgress s) (batch s) (flushScheduled s) (group s) (chain s) x (pool s) (answers s).
Definition with_pool x s := mkScope (scope_entries s) (undoStack s) (redoStack s) (replayProgress s) (batch s) (flushScheduled s) (group s) (chain s) (replaying s) x (answers s).
Definition with_answer x s := mkScope (scope_entries s) (undoStack s) (redoStack s) (replayProgress s) (batch s) (flushScheduled s) (group s) (chain s) (replaying s) (pool s) (answers s ++ [x]).

Definition canUndo (s : undo_scope) : bool := (0 <? length (undoStack s))%nat.
Definition canRedo (s : undo_scope) : bool := (0 <? length (redoStack s))%nat.
Definition entry_at (r : nat) (s : undo_scope) : UndoEntry := default (mkEntry None [] []) (scope_entries s !! r).

Section Scope.
Context (o : scope_options).
Implicit Types (s : undo_scope).

(** ** Recording *)

(** [push], then [shift] when the history is too long. *)
Definition push_entry (r : nat) (stack : list nat) : list nat :=
  let stack := stack ++ [r] in if (maxHistory o <? length stack)%nat then tail stack else stack.

(** A partial or uncertain redo is kept. *)
Definition holds_changes (s : undo_scope) (r : nat) : bool :=
  match map_get r (replayProgress s) with Some p => (0 <? completed p) || uncertain p | None => false end.

Definition record_entry (e : UndoEntry) (s : undo_scope) : undo_scope :=
  let r := length (scope_entries s) in
  let s := with_undo (push_entry r (undoStack s)) (with_entries_of (scope_entries s ++ [e]) s) in
  with_redo (List.filter (holds_changes s) (redoStack s)) s.

Definition record_ops (label : option string) (ops : list recorded_op) (s : undo_scope) : undo_scope :=
  match ops with
  | [] => s
  | _ => record_entry (mkEntry label (rev (omap snd ops)) ops.*1) s
  end.

Definition endGroup (label : option string) (s : undo_scope) : undo_scope :=
  match group s with
  | None => s
  | Some (l, ops) => record_ops (match label with Some l => Some l | None => l end) ops (with_group None s)
  end.

Definition beginGroup (label : option string) (s : undo_scope) : undo_scope :=
  with_group (Some (label, [])) (endGroup None s).

Definition onLocalMutation (now : Z) (m : LocalMutation) (s : undo_scope) : undo_scope :=
  match resolveSchemaKey (so_schema o) (m_modelName m) with
  | None => s
  | Some schemaKey =>
      if bool_decide (m_undoScopeId m = Some (replayScopeId o)) || negb (tracksModel o schemaKey) then s
      else
        let ops := buildUndoOps (so_fields o) now m schemaKey in
        match group s with
        | Some (label, l) => with_group (Some (label, l ++ [ops])) s
        | None => with_batch (batch s ++ [ops]) true s
        end
  end.

Definition flushBatch (s : undo_scope) : undo_scope :=
  record_ops None (batch s) (with_batch [] false s).

Definition clear (s : undo_scope) : undo_scope :=
  with_batch [] (flushScheduled s)
    (with_progress [] (with_redo [] (with_undo []
      (with_replaying ((λ f, (mkFlight (fl_entry f.1) (fl_undo f.1) (fl_progress f.1) false, f.2)) <$> replaying s) s)))).

(** ** Writing ([mutateActions.ts]) *)

Definition typename_of (modelKey : string) : option string := map_get modelKey (so_schema o).

(** The system dates, which the schema does not declare, read back as strings. *)
Definition stored (field : string) (v : json) : json :=
  match v with
  | JDate t => if String.eqb field "archivedAt" || String.eqb field "createdAt" || String.eqb field "updatedAt" then JStr (iso o t) else v
  | _ => v
  end.

Definition write_fields (r : row) (p : fields) : row :=
  mkRow (row_model r) (foldl (λ f x, map_set x.1 (stored x.1 x.2) f) (row_fields r) p).

Definition create_row (typename id : string) (data : fields) (p : rows) : rows :=
  match map_get id p with
  | Some r => map_set id (write_fields r data) p
  | None => map_set id (mkRow typename (construct o typename id data)) p
  end.

Definition not_found : CaughtError := mkCaught AbloValidationError (Some "entity_not_found"%string) "Entity not found" None 0.
Definition unknown_model : CaughtError := mkCaught AbloValidationError (Some "transaction_mutate_unknown_model"%string) "unknown model key" None 0.
Definition no_runtime : CaughtError := mkCaught PlainError None "Operation undo requires the model mutation runtime." None 0.
Definition outcome_unknown : CaughtError := mkCaught AbloStaleContextError (Some "stale_context"%string) "The previous undo/redo outcome is unknown" None 0.

(** ** Replaying *)

(** Where a replay stands after running as far as it can. *)
Inductive replay_status := ReplayDone | ReplayWaits (w : replay_wait) | ReplayFails (e : CaughtError).

Definition start_op (op : InverseOp) (p : rows) : replay_status * rows :=
  match typename_of (op_model op) with
  | None => (ReplayFails unknown_model, p)
  | Some typename =>
      match op with
      | OpCreate _ id data => (ReplayWaits (WaitWrite op None), create_row typename id data p)
      | OpUpdate _ ch =>
          match map_get (p_id ch) p with
          | Some r =>
              if String.eqb (row_model r) typename
              then (ReplayWaits (WaitWrite op None), map_set (p_id ch) (write_fields r (p_fields ch)) p)
              else (ReplayFails not_found, p)
          | None => (ReplayFails not_found, p)
          end
      | OpDelete _ id => (ReplayWaits (WaitWrite op None), map_delete id p)
      | OpReverse _ id _ _ _ _ =>
          match map_get id p with
          | Some r => (ReplayWaits (WaitInverse op r), p)
          | None => (ReplayFails no_runtime, p)
          end
      | _ => (ReplayWaits (WaitWrite op None), p)
      end
  end.

Definition baseline_of (op : InverseOp) (b : baseline) : option fields :=
  match op_patch op with Some p => map_get (op_model op, p_id p) b | None => None end.

(** The pending operation against its baseline. *)
Definition resolve_pending (op : InverseOp) (b : baseline) (p : rows) : option InverseOp :=
  let base := match op_patch op, baseline_of op b with
              | Some ch, Some f => [OpUpdate (op_model op) (mkPatch (p_id ch) f)]
              | _, _ => []
              end in
  head (expandReplayOps (resolveOps [op] base p (conflictPolicy o))).

(** The loop of [applyOps], up to its next await. *)
Fixpoint replay_loop (todo : list InverseOp) (b : baseline) (p : rows) : list InverseOp * replay_status * rows :=
  match todo with
  | [] => ([], ReplayDone, p)
  | op :: rest =>
      match resolve_pending op b p with
      | None => replay_loop rest b p
      | Some op' => let '(st, p) := start_op op' p in (todo, st, p)
      end
  end.

Definition stack_of (undo : bool) (s : undo_scope) : list nat := if undo then undoStack s else redoStack s.
Definition set_stack (undo : bool) (l : list nat) (s : undo_scope) : undo_scope := if undo then with_undo l s else with_redo l s.

Definition replace_in (undo : bool) (reversed : list InverseOp) (e : UndoEntry) : UndoEntry :=
  if undo then mkEntry (e_label e) (e_inverses e) (replaceOperationReversals (e_forwards e) reversed)
  else mkEntry (e_label e) (replaceOperationReversals (e_inverses e) reversed) (e_forwards e).

Definition replay_succeeds (f : flight) (s : undo_scope) : undo_scope :=
  let s := with_progress (if fl_listed f then map_delete (fl_entry f) (replayProgress s) else replayProgress s) s in
  let s := with_entries_of (alter (replace_in (fl_undo f) (reversed (fl_progress f))) (fl_entry f) (scope_entries s)) s in
  with_answer None
    (with_replaying None (set_stack (negb (fl_undo f)) (push_entry (fl_entry f) (stack_of (negb (fl_undo f)) s)) s)).

Definition mark_uncertain (e : CaughtError) (p : ReplayProgress) : ReplayProgress :=
  mkProgress (remaining p) (reversed p) (completed p) (rp_baseline p) (uncertain p || negb (isDefinitiveRejection e)).

Definition replay_fails (e : CaughtError) (f : flight) (s : undo_scope) : undo_scope :=
  let s := with_progress (if fl_listed f then map_set (fl_entry f) (mark_uncertain e (fl_progress f)) (replayProgress s)
                          else replayProgress s) s in
  with_answer (Some e) (with_replaying None (set_stack (fl_undo f) (stack_of (fl_undo f) s ++ [fl_entry f]) s)).

Definition set_remaining (l : list InverseOp) (p : ReplayProgress) : ReplayProgress :=
  mkProgress l (reversed p) (completed p) (rp_baseline p) (uncertain p).

Definition set_flight (p : ReplayProgress) (f : flight) : flight := mkFlight (fl_entry f) (fl_undo f) p (fl_listed f).

(** Go on with a replay until it waits, ends or fails. *)
Definition replay_on (f : flight) (s : undo_scope) : undo_scope :=
  let '(todo, st, p) := replay_loop (remaining (fl_progress f)) (rp_baseline (fl_progress f)) (pool s) in
  let f := set_flight (set_remaining todo (fl_progress f)) f in
  let s := with_pool p s in
  match st with
  | ReplayDone => replay_succeeds f s
  | ReplayWaits w => with_replaying (Some (f, w)) s
  | ReplayFails e => replay_fails e f s
  end.

Definition new_progress (undo : bool) (e : UndoEntry) (p : rows) : ReplayProgress :=
  let ops := expandReplayOps (resolveOps (if undo then e_inverses e else e_forwards e)
               (if undo then e_forwards e else e_inverses e) p (conflictPolicy o)) in
  mkProgress ops [] 0 (captureReplayBaseline ops p) false.

(** The body of [undo] and [redo], from the pop to the first await. *)
Definition start_replay (undo : bool) (s : undo_scope) : undo_scope :=
  match last (stack_of undo s) with
  | None => with_answer None s
  | Some r =>
      let s := set_stack undo (removelast (stack_of undo s)) s in
      match map_get r (replayProgress s) with
      | Some p =>
          if uncertain p then with_answer (Some outcome_unknown) (set_stack undo (stack_of undo s ++ [r]) s)
          else replay_on (mkFlight r undo p true) s
      | None =>
          let p := new_progress undo (entry_at r s) (pool s) in
          replay_on (mkFlight r undo p true) (with_progress (map_set r p (replayProgress s)) s)
      end
  end.

(** A write was confirmed: the baseline moves with the replay's own change. *)
Definition op_confirmed (op : InverseOp) (reversal : option InverseOp) (p : ReplayProgress) : ReplayProgress :=
  let b := match op_patch op, baseline_of op (rp_baseline p) with
           | Some ch, Some f => map_set (op_model op, p_id ch) (spread f (p_fields ch)) (rp_baseline p)
           | _, _ => rp_baseline p
           end in
  mkProgress (tail (remaining p)) (reversed p ++ option_list reversal) (completed p + 1) b (uncertain p).

(** The inverse of the accepted edit is known ([reverseFieldOperation]): it is written
    with the patch, and the values it replaces become the patch of the opposite action.
    A row that has left the pool is written to beside it. *)
Definition inverse_known (editId : string) (value : json) (f : flight) (w : replay_wait) (s : undo_scope) : undo_scope :=
  match w with
  | WaitInverse (OpReverse m id field domain e p) r =>
      let r := default r (map_get id (pool s)) in
      let old := (λ x, (x.1, default JUndefined (map_get x.1 (row_fields r)))) <$> p in
      let written := if is_Some_b (map_get id (pool s)) then map_set id (write_fields r (map_set field value p)) (pool s) else pool s in
      with_replaying (Some (f, WaitWrite (OpReverse m id field domain e p) (Some (OpReverse m id field domain editId old))))
        (with_pool written s)
  | _ => s
  end.

(** ** Inputs *)

Inductive scope_input :=
  | Local (m : LocalMutation)
  | Flush
  | BeginGroup (label : option string)
  | EndGroup (label : option string)
  | RecordEntry (e : UndoEntry)
  | Undo
  | Redo
  | Start
  | InverseKnown (editId : string) (value : json)
  | Confirmed
  | Failed (e : CaughtError)
  | Rows (p : rows)
  | Clear.

Definition scope_step (now : Z) (s : undo_scope) (i : scope_input) : undo_scope :=
  match i with
  | Local m => onLocalMutation now m s
  | Flush => if flushScheduled s then flushBatch s else s
  | BeginGroup l => beginGroup l s
  | EndGroup l => endGroup l s
  | RecordEntry e => record_entry e s
  | Undo => with_chain (chain s ++ [true]) s
  | Redo => with_chain (chain s ++ [false]) s
  | Start =>
      match replaying s, chain s with
      | None, undo :: rest => start_replay undo (with_chain rest s)
      | _, _ => s
      end
  | InverseKnown editId value => match replaying s with Some (f, w) => inverse_known editId value f w s | None => s end
  | Confirmed =>
      match replaying s with
      | Some (f, WaitWrite op reversal) => replay_on (set_flight (op_confirmed op reversal (fl_progress f)) f) s
      | _ => s
      end
  | Failed e => match replaying s with Some (f, _) => replay_fails e f s | None => s end
  | Rows p => with_pool p s
  | Clear => clear s
  end.
End Scope.
