(* ===== verification/UndoTimeline.v ===== *)
(** * Undo and redo along a timeline

    A user alone with the rows: the entries of an undo scope ([UndoScope.v]) against the
    list of states they lead through. Rows are compared field by field, with the order
    of keys ignored, dates by their time and a missing field read as [undefined]. *)
From S2P Require Import Prelude JsData ErrorCodes MutationQueue MutationFailure Json UndoApply UndoScope.
#[local] Open Scope Z_scope.

Section Timeline.
Context (o : scope_options).
Implicit Types (s : undo_scope) (p q : rows) (id f : string).

(** ** Rows as functions *)

Definition rd (r : row) f : json := default JUndefined (map_get f (row_fields r)).
Definition rdo p id f : option json := (λ r, rd r f) <$> map_get id p.
Definition model_in p id : option string := row_model <$> map_get id p.

Definition rows_wf p : Prop := ∀ id f, owf (rdo p id f) = true.
Definition rows_eq p q : Prop := ∀ id, model_in p id = model_in q id ∧ ∀ f, osame (rdo p id f) (rdo q id f) = true.

Lemma rows_eq_refl p : rows_wf p → rows_eq p p.
Proof. intros Hp id. split; [done|]. intros f. by apply osame_refl. Qed.
Lemma rows_eq_sym p q : rows_wf p → rows_wf q → rows_eq p q → rows_eq q p.
Proof. intros Hp Hq H id. destruct (H id) as [Hm Hf]. split; [done|]. intros f. by apply osame_sym. Qed.
Lemma rows_eq_trans p q q' : rows_wf p → rows_wf q → rows_wf q' → rows_eq p q → rows_eq q q' → rows_eq p q'.
Proof.
  intros Hp Hq Hq' H1 H2 id. destruct (H1 id) as [M1 F1], (H2 id) as [M2 F2]. split; [congruence|].
  intros f. by apply (osame_trans _ (rdo q id f)).
Qed.

Lemma read_current p id f : readCurrentField p id f = default JUndefined (rdo p id f).
Proof. unfold readCurrentField, rdo, rd. by destruct (map_get id p). Qed.

Lemma model_row p id m : model_in p id = Some m → ∃ r, map_get id p = Some r ∧ row_model r = m.
Proof. unfold model_in. destruct (map_get id p) as [r|]; [|done]. intros [= <-]. by exists r. Qed.

Lemma model_rdo p id f : is_Some (model_in p id) → rdo p id f = Some (readCurrentField p id f).
Proof. rewrite read_current. intros [m (r & Hr & _)%model_row]. unfold rdo. by rewrite Hr. Qed.

(** ** Edits *)

(** What a local mutation did: fields with their old and new values, a row put in, or a
    row taken out with the data that rebuilds it. *)
Inductive edit :=
  | EUpdate (key id : string) (changes : list (string * (json * json)))
  | ECreate (key id : string) (data : fields)
  | EDelete (key id : string) (data : fields).

Definition edit_key (m : edit) : string := match m with EUpdate k _ _ | ECreate k _ _ | EDelete k _ _ => k end.
Definition edit_id (m : edit) : string := match m with EUpdate _ id _ | ECreate _ id _ | EDelete _ id _ => id end.

Definition flip (m : edit) : edit :=
  match m with
  | EUpdate k id ch => EUpdate k id ((λ c, (c.1, (c.2.2, c.2.1))) <$> ch)
  | ECreate k id d => EDelete k id d
  | EDelete k id d => ECreate k id d
  end.

Definition forward (m : edit) : InverseOp :=
  match m with
  | EUpdate k id ch => OpUpdate k (mkPatch id ((λ c, (c.1, c.2.2)) <$> ch))
  | ECreate k id d => OpCreate k id d
  | EDelete k id _ => OpDelete k id
  end.

(** The values of an update the policy compares with [deepEqual] hold no dates. *)
Definition comparable (old new : json) : Prop :=
  conflictPolicy o ≠ LastWriterWins → dateless old = true ∧ dateless new = true.

(** The row a create makes. *)
Definition made (k id : string) (d : fields) : row := mkRow (default ""%string (typename_of o k)) (construct o (default ""%string (typename_of o k)) id d).

Definition edit_ok (m : edit) : Prop :=
  is_Some (typename_of o (edit_key m))
  ∧ match m with
    | EUpdate _ _ ch => ch ≠ [] ∧ NoDup ch.*1 ∧ ∀ f old new, (f, (old, new)) ∈ ch →
        wf old = true ∧ wf new = true ∧ stored o f old = old ∧ stored o f new = new ∧ comparable old new
    | ECreate k id d | EDelete k id d => ∀ f, wf (rd (made k id d) f) = true
    end.

(** The rows before an edit, and after it. *)
Definition before (m : edit) p : Prop :=
  match m with
  | EUpdate k id ch => model_in p id = typename_of o k ∧ ∀ f old new, (f, (old, new)) ∈ ch → osame (rdo p id f) (Some old) = true
  | ECreate _ id _ => map_get id p = None
  | EDelete k id d => model_in p id = typename_of o k ∧ ∀ f, osame (rdo p id f) (Some (rd (made k id d) f)) = true
  end.
Definition after (m : edit) p : Prop := before (flip m) p.

Definition touches (m : edit) id f : Prop :=
  match m with EUpdate _ id' ch => id = id' ∧ f ∈ ch.*1 | ECreate _ id' _ | EDelete _ id' _ => id = id' end.
#[export] Instance touches_dec m id f : Decision (touches m id f).
Proof. destruct m; simpl; apply _. Defined.

Definition apart (m m' : edit) : Prop := ∀ id f, touches m id f → touches m' id f → False.

Fixpoint all_apart (ms : list edit) : Prop :=
  match ms with [] => True | m :: ms => Forall (apart m) ms ∧ all_apart ms end.

(** The edits lead from [p] to [q]: each field is written once, and a row put in or
    taken out is not otherwise touched. *)
Record links (ms : list edit) p q : Prop := {
  l_ok : Forall edit_ok ms;
  l_apart : all_apart ms;
  l_before : Forall (λ m, before m p) ms;
  l_after : Forall (λ m, after m q) ms;
  l_rest : ∀ id f, Forall (λ m, ¬ touches m id f) ms → model_in p id = model_in q id ∧ osame (rdo p id f) (rdo q id f) = true;
  l_wf : rows_wf p ∧ rows_wf q;
}.

(** *** Backwards *)

Lemma flip_flip m : flip (flip m) = m.
Proof.
  destruct m as [k id ch|k id d|k id d]; try done. simpl. f_equal. rewrite <- list_fmap_compose.
  rewrite <- (list_fmap_id ch) at 2. apply list_fmap_ext. by intros i [f [a b]] _.
Qed.

Lemma flip_keys (ch : list (string * (json * json))) : ((λ c : string * (json * json), (c.1, (c.2.2, c.2.1))) <$> ch).*1 = ch.*1.
Proof. rewrite <- list_fmap_compose. by apply list_fmap_ext. Qed.

Lemma flip_elem (ch : list (string * (json * json))) f old new :
  (f, (old, new)) ∈ ((λ c : string * (json * json), (c.1, (c.2.2, c.2.1))) <$> ch) ↔ (f, (new, old)) ∈ ch.
Proof.
  rewrite list_elem_of_fmap. split; [intros ([f' [a b]] & [= -> -> ->] & Hin); done|].
  intros Hin. by exists (f, (new, old)).
Qed.

Lemma flip_touches m id f : touches (flip m) id f ↔ touches m id f.
Proof. destruct m; [|done..]. simpl. by rewrite flip_keys. Qed.

Lemma flip_ok m : edit_ok m → edit_ok (flip m).
Proof.
  intros [Hk Hm]. destruct m as [k id ch|k id d|k id d]; [|by split..]. split; [done|]. simpl. destruct Hm as (Hne & Hn & Hv).
  split_and!; [by destruct ch|by rewrite flip_keys|]. intros f old new Hin. rewrite flip_elem in Hin. destruct (Hv f new old Hin) as (? & ? & ? & ? & Hc). split_and!; [done..|]. intros Hl. by destruct (Hc Hl).
Qed.

Lemma all_apart_app l l' :
  all_apart (l ++ l') ↔ all_apart l ∧ all_apart l' ∧ ∀ m m', m ∈ l → m' ∈ l' → apart m m'.
Proof.
  induction l as [|m l IH]; simpl; [split; [intros H; split_and!; [done|done|by intros ? ? ?%elem_of_nil]|tauto]|].
  rewrite Forall_app, IH, !Forall_forall. split.
  - intros ([H1 H2] & H3 & H4 & H5). split_and!; [done|done|done|]. intros m1 m2 [->|Hm]%elem_of_cons Hm2; auto.
  - intros ([H1 H2] & H3 & H4). split_and!; [done| |done|done|]; intros; apply H4; set_solver.
Qed.

Lemma apart_sym m m' : apart m m' → apart m' m.
Proof. intros H id f H1 H2. by apply (H id f). Qed.
Lemma apart_flip m m' : apart m m' → apart (flip m) (flip m').
Proof. intros H id f. rewrite !flip_touches. apply H. Qed.

Lemma all_apart_back ms : all_apart ms → all_apart (rev (flip <$> ms)).
Proof.
  induction ms as [|m ms IH]; [done|]. simpl. intros [Hm Hms]. apply all_apart_app. split_and!; [auto|by split|].
  intros m1 m2 Hin ->%list_elem_of_singleton. apply list_elem_of_In, in_rev, list_elem_of_In, list_elem_of_fmap in Hin as (m' & -> & Hm').
  apply apart_sym, apart_flip. by rewrite Forall_forall in Hm; apply Hm.
Qed.

Lemma Forall_back (P : edit → Prop) ms : Forall (λ m, P (flip m)) ms → Forall P (rev (flip <$> ms)).
Proof.
  rewrite !Forall_forall. intros H m Hin. apply list_elem_of_In, in_rev, list_elem_of_In, list_elem_of_fmap in Hin as (m' & -> & Hm'). auto.
Qed.

Lemma links_back ms p q : links ms p q → links (rev (flip <$> ms)) q p.
Proof.
  intros [A B C D E [F G]]. split; [| | | | |done].
  - apply Forall_back. eapply Forall_impl; [exact A|]. intros m. apply flip_ok.
  - by apply all_apart_back.
  - by apply Forall_back.
  - apply Forall_back. eapply Forall_impl; [exact C|]. intros m Hm. unfold after. by rewrite flip_flip.
  - intros id f Hn. destruct (E id f) as [Hm Hf].
    + rewrite Forall_forall in *. intros m Hin Ht. apply (Hn (flip m)); [|by apply flip_touches].
      apply list_elem_of_In. rewrite <- in_rev. by apply list_elem_of_In, list_elem_of_fmap_2.
    + split; [done|]. by apply osame_sym.
Qed.

(** ** What a replay starts with *)

Definition est_get (est : list (string * fields)) id f : option json := map_get id est ≫= map_get f.

Lemma establish_get est id id' f (p : fields) :
  NoDup p.*1 → est_get (establish est id p) id' f
  = if decide (id' = id) then match map_get f p with Some v => Some v | None => est_get est id f end else est_get est id' f.
Proof.
  intros Hn. unfold est_get, establish. rewrite map_get_set. case_decide; [subst|done]. simpl. rewrite spread_get by done.
  destruct (map_get f p); [done|]. by destruct (map_get id est).
Qed.

Lemma new_keys (ch : list (string * (json * json))) : ((λ c, (c.1, c.2.2)) <$> ch).*1 = ch.*1.
Proof. rewrite <- list_fmap_compose. by apply list_fmap_ext. Qed.

Lemma new_get (ch : list (string * (json * json))) f old new :
  NoDup ch.*1 → (f, (old, new)) ∈ ch → map_get f ((λ c, (c.1, c.2.2)) <$> ch) = Some new.
Proof.
  intros Hn Hin. apply map_get_spec; [by rewrite new_keys|]. by apply (list_elem_of_fmap_2' _ _ (f, (old, new))).
Qed.

(** The value an edit of a list of edits establishes. *)
Lemma established_get ns k id ch f old new :
  Forall (edit_ok) ns → all_apart ns → EUpdate k id ch ∈ ns → (f, (old, new)) ∈ ch →
  est_get (buildEstablished (forward <$> ns)) id f = Some new.
Proof.
  intros Hok Hap Hin Hch. unfold buildEstablished.
  set (step := λ (m : list (string * fields)) op, _).
  assert (Hkeep : ∀ ms est, Forall edit_ok ms → Forall (λ m, ¬ touches m id f) ms →
    est_get (foldl step est (forward <$> ms)) id f = est_get est id f).
  { induction ms as [|m ms IH]; intros est Hms Ht; [done|]. rewrite fmap_cons. cbn [foldl].
    apply Forall_cons in Hms as [Hm Hms], Ht as [Hmt Ht]. rewrite IH by done.
    destruct m as [k' id' ch'|k' id' d|k' id' d]; [|done..]. simpl. destruct Hm as (_ & _ & Hn & _).
    rewrite establish_get by (by rewrite new_keys). case_decide; [subst id'|done].
    rewrite (proj2 (map_get_None f _)); [done|]. rewrite new_keys. intros Hf. by apply Hmt. }
  assert (Hgo : ∀ ms est, Forall edit_ok ms → all_apart ms → EUpdate k id ch ∈ ms →
    est_get (foldl step est (forward <$> ms)) id f = Some new).
  { induction ms as [|m ms IH]; intros est Hms Ha Hm; [by apply elem_of_nil in Hm|]. rewrite fmap_cons. cbn [foldl].
    apply Forall_cons in Hms as [Hm1 Hms]. destruct Ha as [Ha1 Ha]. apply elem_of_cons in Hm as [<-|Hm]; [|by apply IH].
    rewrite Hkeep; [|done|].
    - simpl. destruct Hm1 as (_ & _ & Hn & _). rewrite establish_get by (by rewrite new_keys). rewrite decide_True by done.
      by rewrite (new_get ch f old new).
    - eapply Forall_impl; [exact Ha1|]. intros m' Hm' Ht. apply (Hm' id f); [|done]. split; [done|].
      by apply (list_elem_of_fmap_2' fst _ (f, (old, new))). }
  by apply Hgo.
Qed.

(** The fields of an update a replay keeps: those whose value changes. *)
Definition kept_changes (ch : list (string * (json * json))) : list (string * (json * json)) :=
  if decide (conflictPolicy o = LastWriterWins) then ch
  else base.filter (λ c, deepEqual c.2.2 c.2.1 = false) ch.

Definition kept (m : edit) : option edit :=
  match m with
  | EUpdate k id ch => match kept_changes ch with [] => None | ch' => Some (EUpdate k id ch') end
  | _ => Some m
  end.

Lemma kept_sub ch : ∀ c, c ∈ kept_changes ch → c ∈ ch.
Proof. unfold kept_changes. case_decide; [done|]. by intros c [_ ?]%list_elem_of_filter. Qed.

Lemma kept_nodup ch : NoDup ch.*1 → NoDup (kept_changes ch).*1.
Proof.
  unfold kept_changes. case_decide; [done|]. intros Hn. induction ch as [|c ch IH]; [done|]. rewrite fmap_cons in Hn.
  apply NoDup_cons in Hn as [Hc Hn]. rewrite filter_cons. case_decide; [|auto]. rewrite fmap_cons. apply NoDup_cons. split; [|auto].
  intros (c' & Heq & [_ Hin]%list_elem_of_filter)%list_elem_of_fmap. apply Hc. rewrite Heq. by apply list_elem_of_fmap_2.
Qed.

Lemma kept_ok m m' : edit_ok m → kept m = Some m' → edit_ok m'.
Proof.
  intros [Hk Hm]. destruct m as [k id ch|k id d|k id d]; simpl; [|by intros [= <-]..].
  destruct Hm as (Hne & Hn & Hv). destruct (kept_changes ch) as [|c l] eqn:E; [done|]. intros [= <-]. split; [done|].
  split_and!; [done|rewrite <- E; by apply kept_nodup|]. intros f old new Hin. apply Hv, kept_sub. by rewrite E.
Qed.

Lemma kept_touches m m' id f : kept m = Some m' → touches m' id f → touches m id f.
Proof.
  destruct m as [k id' ch|k id' d|k id' d]; simpl; [|by intros [= <-]..].
  destruct (kept_changes ch) as [|c l] eqn:E; [done|]. intros [= <-] [-> Hf]. split; [done|].
  apply list_elem_of_fmap in Hf as (c' & -> & Hin). apply list_elem_of_fmap_2, kept_sub. by rewrite E.
Qed.

Lemma kept_before m m' p : kept m = Some m' → before m p → before m' p.
Proof.
  destruct m as [k id ch|k id d|k id d]; simpl; [|by intros [= <-]..].
  destruct (kept_changes ch) as [|c l] eqn:E; [done|]. intros [= <-] [Hm Hf]. split; [done|].
  intros f old new Hin. apply (Hf f old new), kept_sub. by rewrite E.
Qed.

Lemma kept_apart ms : all_apart ms → all_apart (omap kept ms).
Proof.
  induction ms as [|m ms IH]; [done|]. simpl. intros [Hm Hms]. destruct (kept m) as [m'|] eqn:E; [|auto]. split; [|auto].
  rewrite Forall_forall in *. intros m1 Hin. apply list_elem_of_omap in Hin as (m0 & Hin & E0).
  intros id f H1 H2. apply (Hm m0 Hin id f); by eapply kept_touches.
Qed.

Lemma omap_fmap_filter {A B} (P : A → Prop) `{∀ x, Decision (P x)} (g : B → option B) (h : A → B) (l : list A) :
  (∀ x, x ∈ l → g (h x) = if decide (P x) then Some (h x) else None) → omap g (h <$> l) = h <$> base.filter P l.
Proof.
  induction l as [|x l IH]; intros Hg; [done|]. rewrite fmap_cons, filter_cons. cbn [omap list_omap].
  rewrite Hg by left. rewrite IH by (intros y Hy; apply Hg; by right). by case_decide.
Qed.

Lemma before_eq m p q : edit_ok m → rows_wf p → rows_wf q → rows_eq p q → before m p → before m q.
Proof.
  intros [_ Hm] Hp Hq Heq. destruct m as [k id ch|k id d|k id d]; simpl.
  - intros [Hmod Hf]. destruct (Heq id) as [Hmid Hfid]. split; [congruence|]. intros f old new Hin. destruct Hm as (_ & _ & Hv).
    destruct (Hv f old new Hin) as (Hw & _). apply (osame_trans _ (rdo p id f)); [done|done|done| |by eapply Hf].
    apply osame_sym; [done|done|apply Hfid].
  - destruct (Heq id) as [Hmid _]. unfold model_in in Hmid. intros Hn. rewrite Hn in Hmid. by destruct (map_get id q).
  - intros [Hmod Hf]. destruct (Heq id) as [Hmid Hfid]. split; [congruence|]. intros f.
    apply (osame_trans _ (rdo p id f)); [done|done|by apply Hm| |by apply Hf]. apply osame_sym; [done|done|apply Hfid].
Qed.

Lemma filter_own pool est id f old new :
  rows_wf pool → wf old = true → wf new = true →
  is_Some (model_in pool id) → odeep (rdo pool id f) (Some old) = true → est ≫= map_get f = Some old →
  filter_field pool id est (f, new) = if decide (deepEqual new old = false) then Some (f, new) else None.
Proof.
  intros Hp Ho Hn Hm Hcur Hest. unfold filter_field. cbn [fst snd]. rewrite Hest.
  rewrite (model_rdo pool id f Hm) in Hcur. assert (Hc : wf (readCurrentField pool id f) = true).
  { specialize (Hp id f). by rewrite (model_rdo pool id f Hm) in Hp. }
  set (cur := readCurrentField pool id f) in *. rewrite replay_value_eq. cbn [odeep] in *.
  destruct (deepEqual new old) eqn:Hno; [simpl; by rewrite deep_refl|]. rewrite Hcur. simpl.
  destruct (deepEqual new cur) eqn:Hnc; [|done]. by rewrite (deep_trans new cur old) in Hno.
Qed.

Lemma resolve_first ms pool :
  Forall edit_ok ms → all_apart ms → Forall (λ m, before m pool) ms → rows_wf pool →
  resolveOps (forward <$> ms) (forward <$> rev (flip <$> ms)) pool (conflictPolicy o) = forward <$> omap kept ms.
Proof.
  intros Hok Hap Hb Hp. unfold resolveOps. destruct (decide (conflictPolicy o = LastWriterWins)) as [Hl|Hl].
  - f_equal. clear Hap Hb. induction Hok as [|m ms [_ Hm] Hms IH]; [done|]. cbn [omap list_omap].
    assert (kept m = Some m) as ->; [|by f_equal]. destruct m as [k id ch|k id d|k id d]; try done. simpl.
    unfold kept_changes. rewrite decide_True by done. destruct ch; [by destruct Hm|done].
  - set (est := buildEstablished _).
    assert (Hone : ∀ m, m ∈ ms → resolve_op pool est (forward m) = forward <$> kept m).
    { intros m Hin. rewrite Forall_forall in Hok, Hb. specialize (Hok m Hin) as Hm. specialize (Hb m Hin) as Hbm.
      destruct m as [k id ch|k id d|k id d]; try done. destruct Hm as (Hk & Hne & Hn & Hv). destruct Hbm as [Hmod Hf]. simpl.
      unfold filterStalePatch. cbn [p_id p_fields].
      rewrite (omap_fmap_filter (λ c, deepEqual c.2.2 c.2.1 = false)).
      - unfold kept_changes. rewrite decide_False by done. by destruct (base.filter _ ch).
      - intros [f [old new]] Hc. cbn [fst snd]. destruct (Hv f old new Hc) as (Ho & Hw & _).
        apply filter_own; [done|done|done|by rewrite Hmod|by eapply osame_deep, Hf|].
        apply (established_get (rev (flip <$> ms)) k id ((λ c, (c.1, (c.2.2, c.2.1))) <$> ch) f new old).
        + apply Forall_back, Forall_forall. intros m' Hm'. by apply flip_ok, Hok.
        + by apply all_apart_back.
        + apply list_elem_of_In. rewrite <- in_rev. apply list_elem_of_In. by apply (list_elem_of_fmap_2' flip _ (EUpdate k id ch)).
        + by apply flip_elem. }
    clearbody est. clear -Hone. induction ms as [|m ms IH]; [done|]. rewrite fmap_cons. cbn [omap list_omap].
    rewrite Hone by left. rewrite IH by (intros m' Hm'; apply Hone; by right). by destruct (kept m).
Qed.

Lemma expand_forward ms : expandReplayOps (forward <$> ms) = forward <$> ms.
Proof. unfold expandReplayOps. induction ms as [|m ms IH]; [done|]. rewrite fmap_cons. simpl. rewrite IH. by destruct m. Qed.

(** ** One write of a replay *)

Definition apply_edit (m : edit) p : rows := (start_op o (forward m) p).2.

Lemma rd_write r (p : fields) f :
  NoDup p.*1 → (∀ g v, (g, v) ∈ p → stored o g v = v) →
  rd (write_fields o r p) f = match map_get f p with Some v => v | None => rd r f end.
Proof.
  intros Hn Hs. unfold rd, write_fields. simpl.
  assert (Heq : foldl (λ m x, map_set x.1 (stored o x.1 x.2) m) (row_fields r) p = spread (row_fields r) p).
  { unfold spread. clear Hn. generalize (row_fields r). induction p as [|[g v] p IH]; intros l; [done|]. simpl.
    rewrite (Hs g v) by left. apply IH. intros g' v' Hin. apply Hs. by right. }
  rewrite Heq, spread_get by done. by destruct (map_get f p).
Qed.

(** What a write reads back, row by row. *)
Lemma apply_row m p id :
  edit_ok m → before m p →
  map_get id (apply_edit m p)
  = if decide (id = edit_id m)
    then match m with
         | EUpdate k _ ch => (λ r, write_fields o r ((λ c, (c.1, c.2.2)) <$> ch)) <$> map_get id p
         | ECreate k id d => Some (made k id d)
         | EDelete _ _ _ => None
         end
    else map_get id p.
Proof.
  intros [[tn Hk] _] Hb. unfold apply_edit, start_op. destruct m as [k id' ch|k id' d|k id' d]; cbn [forward op_model edit_id edit_key] in *; rewrite Hk.
  - destruct Hb as [Hm _]. rewrite Hk in Hm. apply model_row in Hm as (r & Hr & <-). cbn [p_id p_fields]. rewrite Hr, String.eqb_refl. simpl.
    rewrite map_get_set. case_decide; [subst; by rewrite Hr|done].
  - simpl in Hb. unfold create_row. rewrite Hb. simpl. rewrite map_get_set. case_decide; [|done]. unfold made. by rewrite Hk.
  - simpl. rewrite map_get_delete. by case_decide.
Qed.

Lemma start_edit m p :
  edit_ok m → before m p → start_op o (forward m) p = (ReplayWaits (WaitWrite (forward m) None), apply_edit m p).
Proof.
  intros [[tn Hk] _] Hb. unfold apply_edit, start_op. destruct m as [k id' ch|k id' d|k id' d]; cbn [forward op_model edit_id edit_key] in *; rewrite Hk; [|done..].
  destruct Hb as [Hm _]. rewrite Hk in Hm. apply model_row in Hm as (r & Hr & <-). cbn [p_id p_fields]. by rewrite Hr, String.eqb_refl.
Qed.

Lemma new_stored k id ch :
  edit_ok (EUpdate k id ch) → ∀ g v, (g, v) ∈ ((λ c : string * (json * json), (c.1, c.2.2)) <$> ch) → stored o g v = v.
Proof.
  intros (_ & _ & _ & Hv) g v Hin. apply list_elem_of_fmap in Hin as ([f [a b]] & [= -> ->] & Hin). by apply (Hv f a b).
Qed.

Lemma apply_rest m p id f :
  edit_ok m → before m p → ¬ touches m id f →
  model_in (apply_edit m p) id = model_in p id ∧ rdo (apply_edit m p) id f = rdo p id f.
Proof.
  intros Hok Hb Ht. unfold model_in, rdo. rewrite apply_row by done. case_decide as Hid; [|done].
  destruct m as [k id' ch|k id' d|k id' d]; simpl in *; [|done..]. destruct (map_get id p) as [r|]; [|done]. split; [done|]. simpl.
  f_equal. rewrite rd_write; [|rewrite new_keys; by destruct Hok as (_ & _ & ? & _)|by eapply new_stored].
  rewrite (proj2 (map_get_None f _)); [done|]. rewrite new_keys. tauto.
Qed.

Lemma apply_after m p : edit_ok m → before m p → after m (apply_edit m p).
Proof.
  intros Hok Hb. pose proof (apply_row m p (edit_id m) Hok Hb) as Hr. rewrite decide_True in Hr by done.
  destruct m as [k id ch|k id d|k id d]; unfold after; simpl in *.
  - pose proof (new_stored k id ch Hok) as Hst. destruct Hb as [Hm Hf]. destruct Hok as ([tn Hk] & Hne & Hn & Hv). simpl in Hk. rewrite Hk in *.
    apply model_row in Hm as (r & Hrow & Hmod). unfold model_in, rdo. rewrite Hr, Hrow. simpl. split; [by rewrite Hmod|].
    intros f old new Hin. rewrite flip_elem in Hin. rewrite rd_write; [|by rewrite new_keys|done].
    rewrite (new_get ch f new old) by done. by apply (osame_refl (Some _)), (Hv f new old).
  - destruct Hok as [[tn Hk] Hd]. simpl in Hk. unfold model_in, rdo. rewrite Hr. simpl. rewrite Hk. split; [done|].
    intros f. apply (osame_refl (Some _)), Hd.
  - done.
Qed.

Lemma apply_wf m p : edit_ok m → before m p → rows_wf p → rows_wf (apply_edit m p).
Proof.
  intros Hok Hb Hp id f. destruct (decide (touches m id f)) as [Ht|Ht]; [|by rewrite (proj2 (apply_rest m p id f Hok Hb Ht))].
  unfold rdo. rewrite apply_row by done. destruct Hok as [Hk Hm]. destruct m as [k id' ch|k id' d|k id' d]; simpl in *.
  - destruct Ht as [-> Hf]. rewrite decide_True by done. destruct Hm as (Hne & Hn & Hv). apply list_elem_of_fmap in Hf as ([f' [a b]] & -> & Hin).
    destruct (map_get id' p) as [r|]; [|done]. simpl. rewrite rd_write; [|by rewrite new_keys|].
    + rewrite (new_get ch f' a b) by done. by apply (Hv f' a b).
    + by apply (new_stored k id' ch).
  - subst id. rewrite decide_True by done. apply Hm.
  - subst id. by rewrite decide_True.
Qed.

(** An edit apart from it is as ready as before. *)
Lemma apply_before m m' p : edit_ok m → edit_ok m' → apart m m' → before m p → before m' p → before m' (apply_edit m p).
Proof.
  intros Hok [_ Hm'] Ha Hb Hb'.
  assert (Hone : ∀ id f, touches m' id f → model_in (apply_edit m p) id = model_in p id ∧ rdo (apply_edit m p) id f = rdo p id f).
  { intros id f Ht. apply apply_rest; [done|done|]. intros Ht'. by apply (Ha id f). }
  destruct m' as [k id ch|k id d|k id d]; simpl in *.
  - destruct Hb' as [Hmod Hf]. destruct Hm' as (Hne & _). split.
    + destruct ch as [|[f c] ch]; [done|]. destruct (Hone id f) as [-> _]; [|done]. split; [done|left].
    + intros f old new Hin. destruct (Hone id f) as [_ ->]; [|by eapply Hf]. split; [done|].
      by apply (list_elem_of_fmap_2' fst _ (f, (old, new))).
  - destruct (Hone id ""%string eq_refl) as [Hmod _]. unfold model_in in Hmod. rewrite Hb' in Hmod. by destruct (map_get id (apply_edit m p)).
  - destruct Hb' as [Hmod Hf]. split; [by rewrite (proj1 (Hone id ""%string eq_refl))|]. intros f. by rewrite (proj2 (Hone id f eq_refl)).
Qed.
End Timeline.
