(* ===== verification/UndoReplay.v ===== *)
(** * A replay that nothing disturbs

    One undo or redo of [UndoScope.v], from the pop of its entry to the last
    confirmation, over edits that are linked ([UndoTimeline.v]): what each write finds,
    and the rows it ends with. *)
From S2P Require Import Prelude JsData ErrorCodes MutationQueue MutationFailure Json UndoApply UndoScope UndoTimeline.
#[local] Open Scope Z_scope.

Section Replay.
Context (o : scope_options).
Implicit Types (s : undo_scope) (p q : rows) (id f : string) (m : edit) (b : baseline).
Notation edit_ok := (edit_ok o).
Notation before := (before o).
Notation after := (after o).
Notation links := (links o).
Notation kept := (kept o).
Notation apply_edit := (apply_edit o).

(** ** The baseline *)

Definition bl_get b (key : string * string) f : option json := map_get key b ≫= map_get f.
Definition bl_keys b : Prop := ∀ key r, map_get key b = Some r → NoDup r.*1.

Lemma capture_row pool id (fs : fields) r f :
  map_get f (foldl (λ r x, map_set x.1 (readCurrentField pool id x.1) r) r fs)
  = if decide (f ∈ fs.*1) then Some (readCurrentField pool id f) else map_get f r.
Proof.
  revert r. induction fs as [|[g v] fs IH]; intros r; [done|]. simpl. rewrite IH, map_get_set.
  destruct (decide (f ∈ fs.*1)) as [Hin|Hin]; [by rewrite decide_True by (by right)|].
  destruct (decide (f = g)) as [->|Hne]; [by rewrite decide_True by left|]. rewrite decide_False; [done|]. by intros [?|?]%elem_of_cons.
Qed.

Lemma capture_row_keys pool id (fs : fields) r :
  NoDup r.*1 → NoDup (foldl (λ r x, map_set x.1 (readCurrentField pool id x.1) r) r fs).*1.
Proof. revert r. induction fs as [|[g v] fs IH]; intros r Hr; [done|]. simpl. by apply IH, NoDup_set_keys. Qed.

(** One step of [captureReplayBaseline]. *)
Definition capture_step (pool : rows) (b : baseline) (op : InverseOp) : baseline :=
  match op_patch op with
  | Some c =>
      map_set (op_model op, p_id c)
        (foldl (λ r x, map_set x.1 (readCurrentField pool (p_id c) x.1) r) (default [] (map_get (op_model op, p_id c) b)) (p_fields c)) b
  | None => b
  end.

Lemma capture_step_keys pool b op : bl_keys b → bl_keys (capture_step pool b op).
Proof.
  intros Hb. unfold capture_step. destruct (op_patch op) as [c|]; [|done]. intros key r. rewrite map_get_set. case_decide; [|apply Hb].
  intros [= <-]. apply capture_row_keys. destruct (map_get (op_model op, p_id c) b) as [r'|] eqn:E; [by apply (Hb _ _ E)|apply NoDup_nil_2].
Qed.

Lemma capture_keys ops pool : bl_keys (captureReplayBaseline ops pool).
Proof.
  change (bl_keys (foldl (capture_step pool) [] ops)). assert (Hb : bl_keys []) by done. revert Hb. generalize ([] : baseline).
  induction ops as [|op ops IH]; intros b Hb; [done|]. by apply IH, capture_step_keys.
Qed.

Lemma capture_step_get pool b op k id f :
  bl_get (capture_step pool b op) (k, id) f
  = match op_patch op with
    | Some c => if decide ((k, id) = (op_model op, p_id c) ∧ f ∈ (p_fields c).*1) then Some (readCurrentField pool id f) else bl_get b (k, id) f
    | None => bl_get b (k, id) f
    end.
Proof.
  unfold bl_get, capture_step. destruct (op_patch op) as [c|]; [|done]. rewrite map_get_set. case_decide as E.
  - injection E as -> ->. simpl. rewrite capture_row. case_decide; [by rewrite decide_True|]. rewrite decide_False by naive_solver.
    by destruct (map_get _ b).
  - by rewrite decide_False by naive_solver.
Qed.

Lemma captured ops pool op c f :
  op ∈ ops → op_patch op = Some c → f ∈ (p_fields c).*1 →
  bl_get (captureReplayBaseline ops pool) (op_model op, p_id c) f = Some (readCurrentField pool (p_id c) f).
Proof.
  intros Hin Hp Hf. change (bl_get (foldl (capture_step pool) [] ops) (op_model op, p_id c) f = Some (readCurrentField pool (p_id c) f)).
  assert (Hkeep : ∀ ops b, bl_get b (op_model op, p_id c) f = Some (readCurrentField pool (p_id c) f) →
    bl_get (foldl (capture_step pool) b ops) (op_model op, p_id c) f = Some (readCurrentField pool (p_id c) f)).
  { clear. induction ops as [|op' ops IH]; intros b Hb; [done|]. simpl. apply IH. rewrite capture_step_get. destruct (op_patch op'); [|done].
    by case_decide. }
  generalize ([] : baseline). induction ops as [|op' ops IH]; intros b; [by apply elem_of_nil in Hin|]. simpl.
  apply elem_of_cons in Hin as [<-|Hin]; [|by apply IH]. apply Hkeep. by rewrite capture_step_get, Hp, decide_True.
Qed.

(** ** A pending write that is ready *)

Definition ready m b p : Prop :=
  before m p
  ∧ match m with
    | EUpdate k id ch => conflictPolicy o ≠ LastWriterWins → ∀ f old new, (f, (old, new)) ∈ ch →
        deepEqual new old = false ∧ ∃ c, bl_get b (k, id) f = Some c ∧ wf c = true ∧ deepEqual c old = true
    | _ => True
    end.

Lemma filter_all {A B} (g : B → option B) (h : A → B) (l : list A) : (∀ x, x ∈ l → g (h x) = Some (h x)) → omap g (h <$> l) = h <$> l.
Proof.
  induction l as [|x l IH]; intros Hg; [done|]. rewrite fmap_cons. cbn [omap list_omap]. rewrite Hg by left.
  by rewrite IH by (intros y Hy; apply Hg; by right).
Qed.

Lemma resolve_ready m b p :
  edit_ok m → rows_wf p → bl_keys b → ready m b p → resolve_pending o (forward m) b p = Some (forward m).
Proof.
  intros [Hk Hm] Hp Hb [Hbf Hr]. destruct m as [k id ch|k id d|k id d].
  2,3: unfold resolve_pending, resolveOps; by case_decide.
  unfold resolve_pending. cbn [forward op_patch op_model p_id p_fields].
  destruct (decide (conflictPolicy o = LastWriterWins)) as [Hl|Hl]; [unfold resolveOps; by rewrite decide_True|].
  destruct Hm as (Hne & Hn & Hv). destruct Hbf as [Hmod Hf]. specialize (Hr Hl).
  assert (Hbase : ∃ r, map_get (k, id) b = Some r).
  { destruct ch as [|[f [old new]] ch]; [done|]. destruct (Hr f old new) as (_ & c & Hc & _); [left|]. unfold bl_get in Hc.
    destruct (map_get (k, id) b) as [r|]; [by exists r|done]. }
  destruct Hbase as [r Hbr]. unfold baseline_of. cbn [op_patch op_model p_id p_fields]. rewrite Hbr.
  unfold resolveOps. rewrite decide_False by done. unfold buildEstablished, establish. cbn [foldl omap list_omap resolve_op p_id p_fields map_get map_set default].
  unfold filterStalePatch. cbn [p_id p_fields]. rewrite decide_True by done. 
  rewrite filter_all; [by destruct ch|]. intros [f [old new]] Hin. cbn [fst snd].
  destruct (Hr f old new Hin) as (Hno & c & Hc & Hwc & Hco), (Hv f old new Hin) as (Hwo & Hwn & _).
  rewrite (filter_own p _ id f c new); [|done|done|done|by rewrite Hmod| |].
  - rewrite decide_True; [done|]. apply not_true_iff_false. intros Hd. by rewrite (deep_trans new c old) in Hno.
  - apply (odeep_trans _ (Some old)); [by apply Hp|done|done|by eapply osame_deep, Hf|by apply odeep_sym].
  - simpl. rewrite spread_get by (by apply (Hb _ _ Hbr)). unfold bl_get in Hc. rewrite Hbr in Hc. simpl in Hc. by rewrite Hc.
Qed.

(** The first write finds its rows, and every later one still does. *)
Lemma ready_first ms p :
  Forall edit_ok ms → Forall (λ m, before m p) ms → rows_wf p →
  Forall (λ m, ready m (captureReplayBaseline (forward <$> omap kept ms) p) p) (omap kept ms).
Proof.
  intros Hok Hb Hp. rewrite Forall_forall in *. intros m' Hin'. pose proof Hin' as Hin''.
  apply list_elem_of_omap in Hin' as (m & Hin & Hk). pose proof (kept_ok o m m' (Hok m Hin) Hk) as Hok'.
  pose proof (kept_before o m m' p Hk (Hb m Hin)) as Hb'. split; [done|].
  destruct m' as [k id ch|k id d|k id d]; try done. intros Hl f old new Hc.
  destruct Hb' as [Hmod Hf]. destruct Hok' as ([tn Htn] & Hne & Hn & Hv). simpl in Htn.
  split.
  - destruct m as [k0 id0 ch0|k0 id0 d0|k0 id0 d0]; simpl in Hk; try done.
    destruct (kept_changes o ch0) as [|c0 l0] eqn:E; [done|]. injection Hk as -> -> <-.
    rewrite <- E in Hc. unfold kept_changes in Hc. rewrite decide_False in Hc by done. by apply list_elem_of_filter in Hc as [? _].
  - exists (readCurrentField p id f).
    assert (Hsome : rdo p id f = Some (readCurrentField p id f)) by (apply model_rdo; by rewrite Hmod, Htn).
    split_and!.
    + apply (captured _ p (forward (EUpdate k id ch)) (mkPatch id ((λ c, (c.1, c.2.2)) <$> ch)) f).
      * by apply list_elem_of_fmap_2.
      * done.
      * simpl. rewrite new_keys. by apply (list_elem_of_fmap_2' fst _ (f, (old, new))).
    + specialize (Hp id f). by rewrite Hsome in Hp.
    + specialize (Hf f old new Hc). rewrite Hsome in Hf. by apply same_deep.
Qed.

Lemma ready_after m m' p (pr : ReplayProgress) :
  edit_ok m → edit_ok m' → apart m m' → bl_keys (rp_baseline pr) → ready m (rp_baseline pr) p → ready m' (rp_baseline pr) p →
  ready m' (rp_baseline (op_confirmed (forward m) None pr)) (apply_edit m p).
Proof.
  intros Hok Hok' Ha Hb [Hm _] [Hm' Hr']. split; [by apply apply_before|].
  destruct m' as [k' id' ch'|k' id' d'|k' id' d']; try done. intros Hl f old new Hin. destruct (Hr' Hl f old new Hin) as (Hd & c & Hc & Hw).
  split; [done|]. exists c. split; [|done]. destruct m as [k id ch|k id d|k id d]; try done. simpl.
  destruct (baseline_of (OpUpdate k _) (rp_baseline pr)) as [r|] eqn:E; [|done]. unfold baseline_of in E. simpl in E.
  unfold bl_get in *. rewrite map_get_set. case_decide as Hkey; [|done]. injection Hkey as -> ->. rewrite E in Hc. simpl in *.
  rewrite spread_get by (rewrite new_keys; by destruct Hok as (_ & _ & ? & _)). rewrite (proj2 (map_get_None f _)); [done|].
  rewrite new_keys. intros Hf. apply (Ha id f); [done|]. split; [done|]. by apply (list_elem_of_fmap_2' fst _ (f, (old, new))).
Qed.

Lemma confirmed_keys m (pr : ReplayProgress) : edit_ok m → bl_keys (rp_baseline pr) → bl_keys (rp_baseline (op_confirmed (forward m) None pr)).
Proof.
  intros Hok Hb. destruct m as [k id ch|k id d|k id d]; try done. simpl.
  destruct (baseline_of _ _) as [r|] eqn:E; [|done]. intros key r'. rewrite map_get_set. case_decide; [|apply Hb]. intros [= <-].
  apply spread_keys. by apply (Hb (k, id)).
Qed.

(** ** The run *)

Implicit Types (g : flight).

Lemma replay_on_replaying g x p s : replay_on o g (with_replaying x (with_pool p s)) = replay_on o g (with_pool p s).
Proof. unfold replay_on. simpl. destruct (replay_loop _ _ _ _) as [[todo st] q]. destruct g as [r u pr l]. by destruct st, u, l. Qed.

Notation step now := (scope_step o now).

Lemma idle_confirmed now s n : replaying s = None → foldl (step now) s (repeat Confirmed n) = s.
Proof. intros Hr. induction n as [|n IH]; [done|]. simpl. by rewrite Hr. Qed.

Definition applied (ms : list edit) p : rows := foldl (λ p m, apply_edit m p) p ms.

(** A flight like another, with its writes done. *)
Definition flown g g' : Prop :=
  fl_entry g' = fl_entry g ∧ fl_undo g' = fl_undo g ∧ fl_listed g' = fl_listed g ∧ reversed (fl_progress g') = reversed (fl_progress g).

Lemma replay_waits now m ms g s p :
  edit_ok m → rows_wf p → bl_keys (rp_baseline (fl_progress g)) → ready m (rp_baseline (fl_progress g)) p →
  remaining (fl_progress g) = forward <$> m :: ms →
  step now (replay_on o g (with_pool p s)) Confirmed
  = replay_on o (set_flight (op_confirmed (forward m) None (fl_progress g)) g) (with_pool (apply_edit m p) s).
Proof.
  intros Hok Hp Hb Hr Hrem. unfold replay_on at 1. cbn [pool with_pool]. rewrite Hrem, fmap_cons. cbn [replay_loop].
  rewrite resolve_ready by done. rewrite start_edit by (by try apply Hr). cbn [scope_step replaying with_replaying].
  rewrite replay_on_replaying. unfold set_flight. simpl. f_equal. f_equal. unfold op_confirmed. simpl. by rewrite Hrem.
Qed.

Lemma replay_runs now ms g s p n :
  Forall edit_ok ms → all_apart ms → rows_wf p → bl_keys (rp_baseline (fl_progress g)) →
  Forall (λ m, ready m (rp_baseline (fl_progress g)) p) ms → remaining (fl_progress g) = forward <$> ms → (length ms <= n)%nat →
  ∃ g', flown g g' ∧ foldl (step now) (replay_on o g (with_pool p s)) (repeat Confirmed n) = replay_succeeds o g' (with_pool (applied ms p) s).
Proof.
  revert g p n. induction ms as [|m ms IH]; intros g p n Hok Ha Hp Hb Hr Hrem Hn.
  - exists (set_flight (set_remaining [] (fl_progress g)) g). split; [done|].
    assert (E : replay_on o g (with_pool p s) = replay_succeeds o (set_flight (set_remaining [] (fl_progress g)) g) (with_pool p s)).
    { unfold replay_on. by rewrite Hrem. }
    rewrite E. by apply idle_confirmed.
  - destruct n as [|n]; [simpl in Hn; lia|]. cbn [repeat foldl]. apply Forall_cons in Hok as [Hm Hok], Hr as [Hrm Hr]. destruct Ha as [Ha1 Ha].
    rewrite (replay_waits now m ms) by done. change (applied (m :: ms) p) with (applied ms (apply_edit m p)).
    destruct (IH (set_flight (op_confirmed (forward m) None (fl_progress g)) g) (apply_edit m p) n) as (g' & Hg & E); [done|done| | | | |simpl in Hn; lia|].
    + by apply apply_wf; [|apply Hrm|].
    + by apply confirmed_keys.
    + rewrite Forall_forall in *. intros m' Hin. simpl. apply ready_after; auto.
    + simpl. by rewrite Hrem.
    + exists g'. split; [|done]. destruct Hg as (E1 & E2 & E3 & E4). unfold flown. rewrite E1, E2, E3, E4. simpl. by rewrite app_nil_r.
Qed.

(** ** The rows it ends with *)

Lemma applied_props ms p :
  Forall edit_ok ms → all_apart ms → Forall (λ m, before m p) ms → rows_wf p →
  rows_wf (applied ms p) ∧ Forall (λ m, after m (applied ms p)) ms
  ∧ ∀ id f, Forall (λ m, ¬ touches m id f) ms → model_in (applied ms p) id = model_in p id ∧ rdo (applied ms p) id f = rdo p id f.
Proof.
  revert p. induction ms as [|m ms IH]; intros p Hok Ha Hb Hp; [done|].
  apply Forall_cons in Hok as [Hm Hok], Hb as [Hbm Hb]. destruct Ha as [Ha1 Ha].
  change (applied (m :: ms) p) with (applied ms (apply_edit m p)).
  assert (Hb' : Forall (λ m', before m' (apply_edit m p)) ms).
  { rewrite Forall_forall in *. intros m' Hin. by apply apply_before; auto. }
  destruct (IH (apply_edit m p) Hok Ha Hb') as (Hw & Haf & Hrest); [by apply apply_wf|]. split_and!; [done| |].
  - apply Forall_cons. split; [|done].
    assert (Hgo : ∀ ms p, Forall edit_ok ms → all_apart ms → Forall (λ m', before m' p) ms → Forall (apart m) ms → before (flip m) p → before (flip m) (applied ms p)).
    { clear -Hm. induction ms as [|m' ms IH]; intros p Hok Ha Hb Hap Hf; [done|].
      apply Forall_cons in Hok as [Hm' Hok], Hb as [Hbm Hb], Hap as [Hap1 Hap]. destruct Ha as [Ha1 Ha].
      change (applied (m' :: ms) p) with (applied ms (apply_edit m' p)). apply IH; [done|done| |done|].
      - rewrite Forall_forall in *. intros m1 Hin. by apply apply_before; auto.
      - apply apply_before; [done|by apply flip_ok| |done|done]. intros id f H1 H2. apply (Hap1 id f); [by apply flip_touches|done]. }
    apply Hgo; [done|done|done|done|]. by apply apply_after.
  - intros id f [Ht Hts]%Forall_cons. destruct (Hrest id f Hts) as [-> ->]. by apply apply_rest.
Qed.

Lemma after_agree m p q id f :
  edit_ok m → rows_wf p → rows_wf q → after m p → after m q → touches m id f →
  model_in p id = model_in q id ∧ osame (rdo p id f) (rdo q id f) = true.
Proof.
  intros [_ Hm] Hp Hq Hap Haq Ht. destruct m as [k id' ch|k id' d|k id' d]; unfold after in *; simpl in *.
  - destruct Ht as [-> Hf], Hap as [-> Hfp], Haq as [-> Hfq]. split; [done|]. destruct Hm as (_ & _ & Hv).
    apply list_elem_of_fmap in Hf as ([f' [a b]] & -> & Hin). simpl.
    assert (Hin' : (f', (b, a)) ∈ ((λ c : string * (json * json), (c.1, (c.2.2, c.2.1))) <$> ch)) by by apply flip_elem.
    apply (osame_trans _ (Some b)); [apply Hp|by apply (Hv f' a b)|apply Hq|by eapply Hfp|].
    apply osame_sym; [apply Hq|by apply (Hv f' a b)|by eapply Hfq].
  - subst. destruct Hap as [-> Hfp], Haq as [-> Hfq]. split; [done|].
    apply (osame_trans _ (Some (rd (made o k id' d) f))); [apply Hp|by apply Hm|apply Hq|by apply Hfp|].
    apply osame_sym; [apply Hq|by apply Hm|by apply Hfq].
  - subst. unfold model_in, rdo. by rewrite Hap, Haq.
Qed.

Lemma touched_once ms m m' id f : all_apart ms → m ∈ ms → m' ∈ ms → touches m id f → touches m' id f → m = m'.
Proof.
  induction ms as [|m0 ms IH]; intros Ha Hin Hin' Ht Ht'; [by apply elem_of_nil in Hin|]. destruct Ha as [H1 H2]. rewrite Forall_forall in H1.
  apply elem_of_cons in Hin as [->|Hin], Hin' as [->|Hin']; [done|by destruct (H1 m' Hin' id f)|by destruct (H1 m Hin id f)|by apply IH].
Qed.

Lemma kept_untouched ms m id f :
  all_apart ms → m ∈ ms → touches m id f → (∀ m', kept m = Some m' → ¬ touches m' id f) → Forall (λ m', ¬ touches m' id f) (omap kept ms).
Proof.
  intros Ha Hin Ht Hk. apply Forall_forall. intros m1 Hin1 Ht1. apply list_elem_of_omap in Hin1 as (m0 & Hin0 & E0).
  apply (Hk m1); [|done]. by rewrite (touched_once ms m m0 id f) by (try done; by apply (kept_touches o m0 m1)).
Qed.

(** A field an edit of [ms] touches is either written or was written over with its own value. *)
Lemma touched_kept m id f p q :
  edit_ok m → touches m id f → before m p → after m q → rows_wf p → rows_wf q →
  (∃ m', kept m = Some m' ∧ touches m' id f ∧ after m' q)
  ∨ ((∀ m', kept m = Some m' → ¬ touches m' id f) ∧ model_in p id = model_in q id ∧ osame (rdo p id f) (rdo q id f) = true).
Proof.
  intros (_ & Hok) Ht Hb Ha Hp Hq. destruct m as [k id' ch|k id' d|k id' d]; [|by left; eexists..].
  destruct Hok as (_ & Hn & Hv). unfold after in Ha. simpl in Ht, Hb, Ha. destruct Ht as [-> Hf], Hb as [Hmp Hbf], Ha as [Hmq Haf].
  apply list_elem_of_fmap in Hf as ([f' [old new]] & -> & Hin). cbn [fst].
  assert (Hcase : (f', (old, new)) ∈ kept_changes o ch ∨ (f', (old, new)) ∉ kept_changes o ch ∧ same new old = true).
  { unfold kept_changes. case_decide as Hl; [by left|]. rewrite list_elem_of_filter. simpl.
    destruct (deepEqual new old) eqn:Hd; [right|by left]. split; [by intros []|].
    destruct (Hv f' old new Hin) as (_ & _ & _ & _ & Hc). destruct (Hc Hl). by apply deep_same. }
  destruct Hcase as [Hkin|[Hkin Hno]].
  - left. exists (EUpdate k id' (kept_changes o ch)). split_and!.
    + simpl. by destruct (kept_changes o ch); [apply elem_of_nil in Hkin|].
    + split; [done|]. by apply (list_elem_of_fmap_2' fst _ (f', (old, new))).
    + split; [done|]. intros g a b Hg%flip_elem%kept_sub. apply (Haf g a b). by apply flip_elem.
  - right. split_and!; [|congruence|].
    + intros m' Hk' Ht'. simpl in Hk'. destruct (kept_changes o ch) as [|c l] eqn:E; [done|]. injection Hk' as <-. destruct Ht' as [_ Hf'].
      apply list_elem_of_fmap in Hf' as ([g [a b]] & Hg & Hg'). cbn [fst] in Hg. subst g. rewrite <- E in Hg', Hkin.
      apply Hkin. pose proof (kept_sub o ch _ Hg') as Hin'. apply map_get_spec in Hin, Hin'; [|done..]. congruence.
    + destruct (Hv f' old new Hin) as (Ho & Hw & _). apply (osame_trans _ (Some old)); [apply Hp|done|apply Hq|by eapply Hbf|].
      apply (osame_trans _ (Some new)); [done|done|apply Hq|by apply osame_sym|]. apply osame_sym; [apply Hq|done|].
      apply (Haf f' new old). by apply flip_elem.
Qed.

Lemma kept_omap_ready ms p :
  Forall edit_ok ms → Forall (λ m, before m p) ms → Forall edit_ok (omap kept ms) ∧ Forall (λ m, before m p) (omap kept ms).
Proof.
  intros Hok Hb. rewrite !Forall_forall in *. split; intros m' (m & Hin & Hk)%list_elem_of_omap.
  - by apply (kept_ok o m); auto.
  - by apply (kept_before o m); auto.
Qed.

(** Writing what is kept of linked edits leads to the rows they link to. *)
Lemma replay_reaches ms p q : links ms p q → rows_eq (applied (omap kept ms) p) q ∧ rows_wf (applied (omap kept ms) p).
Proof.
  intros [Hok Hap Hb Haf Hrest [Hp Hq]]. destruct (kept_omap_ready ms p Hok Hb) as [Hok' Hb'].
  destruct (applied_props (omap kept ms) p Hok' (kept_apart o ms Hap) Hb' Hp) as (Hw & Hafter & Huntouched). split; [|done].
  assert (Hone : ∀ id f, model_in (applied (omap kept ms) p) id = model_in q id
    ∧ osame (rdo (applied (omap kept ms) p) id f) (rdo q id f) = true).
  { intros id f. destruct (decide (Exists (λ m, touches m id f) ms)) as [Hex|Hno].
    - apply Exists_exists in Hex as (m & Hin & Ht). rewrite Forall_forall in *.
      destruct (touched_kept m id f p q) as [(m' & Hk & Ht' & Ha')|(Hn & Hm & Hd)]; [by auto..| |].
      + assert (Hin' : m' ∈ omap kept ms) by (apply list_elem_of_omap; by exists m).
        apply (after_agree m'); auto.
      + destruct (Huntouched id f) as [-> ->]; [|done]. by apply (kept_untouched ms m).
    - rewrite <- Forall_Exists_neg in Hno. destruct (Huntouched id f) as [-> ->]; [|by apply Hrest].
      rewrite Forall_forall in *. intros m' (m & Hin & Hk)%list_elem_of_omap Ht. by apply (Hno m Hin), (kept_touches o m m'). }
  intros id. split; [by apply (Hone id ""%string)|]. intros f. by apply Hone.
Qed.

Lemma links_eq ms p p' q : rows_wf p' → rows_eq p p' → links ms p q → links ms p' q.
Proof.
  intros Hp' Heq [Hok Hap Hb Haf Hrest [Hp Hq]]. split; [done|done| |done| |done].
  - rewrite Forall_forall in *. intros m Hin. apply (before_eq o m p); auto.
  - intros id f Hn. destruct (Hrest id f Hn) as [Hm Hd], (Heq id) as [Hm' Hd']. split; [congruence|].
    apply (osame_trans _ (rdo p id f)); [apply Hp'|apply Hp|apply Hq| |done]. apply osame_sym; [apply Hp|apply Hp'|done].
Qed.

(** ** A whole undo or redo *)

(** The entry of linked edits, to undo them or to redo them. *)
Definition entry_of (undo : bool) (ns : list edit) (e : UndoEntry) : Prop :=
  (if undo then e_inverses e else e_forwards e) = forward <$> ns
  ∧ (if undo then e_forwards e else e_inverses e) = forward <$> rev (flip <$> ns).

Lemma replace_none l : replaceOperationReversals l [] = l.
Proof. unfold replaceOperationReversals. simpl. induction l as [|op l IH]; [done|]. simpl. by rewrite IH. Qed.

Lemma alter_same {A} (h : A → A) (l : list A) i : (∀ x, h x = x) → alter h i l = l.
Proof. intros Hh. revert i. induction l as [|x l IH]; intros [|i]; simpl; rewrite ?Hh; [done..|]. f_equal. apply IH. Qed.

(** What a session sees of a scope. *)
Definition quiet s : Prop := replaying s = None ∧ chain s = [] ∧ group s = None ∧ batch s = [] ∧ flushScheduled s = false ∧ replayProgress s = [].

Lemma replay_settles now undo s r ns l q n :
  quiet s → stack_of undo s = l ++ [r] → entry_of undo ns (entry_at r s) → links ns (pool s) q → (length ns <= n)%nat →
  let s' := foldl (step now) s ((if undo then Undo else Redo) :: Start :: repeat Confirmed n) in
  quiet s' ∧ rows_eq (pool s') q ∧ rows_wf (pool s') ∧ scope_entries s' = scope_entries s ∧ answers s' = answers s ++ [None]
  ∧ stack_of undo s' = l ∧ stack_of (negb undo) s' = push_entry o r (stack_of (negb undo) s).
Proof.
  intros (Hr & Hc & Hg & Hb & Hfs & Hpr) Hst [Hop Hpair] Hl Hn. cbv zeta.
  assert (Hns : (length (omap kept ns) <= n)%nat).
  { clear -Hn. revert n Hn. induction ns as [|m ns IH]; intros n Hn; [simpl; lia|]. cbn [omap list_omap]. destruct n as [|n]; [simpl in Hn; lia|].
    specialize (IH n ltac:(simpl in Hn; lia)). destruct (kept m); simpl; lia. }
  set (pr := new_progress o undo (entry_at r s) (pool s)).
  assert (Hstart : foldl (step now) s [if undo then Undo else Redo; Start]
    = replay_on o (mkFlight r undo pr true) (with_pool (pool s) (with_progress [(r, pr)] (set_stack undo l (with_chain [] s))))).
  { subst pr. clear Hns Hl. destruct s as [es us rs rp ba fs gr ch re po an]. simpl in *. subst. destruct undo; simpl in *; subst; cbn [app]; unfold start_replay; simpl;
    rewrite last_snoc, removelast_last; reflexivity. }
  change (_ :: Start :: repeat Confirmed n) with ([if undo then Undo else Redo; Start] ++ repeat Confirmed n).
  rewrite foldl_app, Hstart.
  assert (Hrem : remaining pr = forward <$> omap kept ns).
  { unfold pr, new_progress. cbn [remaining]. rewrite Hop, Hpair. destruct Hl as [? ? ? ? ? []]. rewrite resolve_first by done. apply expand_forward. }
  destruct (kept_omap_ready ns (pool s)) as [Hok' Hb']; [by destruct Hl..|].
  destruct (replay_runs now (omap kept ns) (mkFlight r undo pr true) (with_progress [(r, pr)] (set_stack undo l (with_chain [] s))) (pool s) n)
    as (g' & (E1 & E2 & E3 & E4) & ->); [done|by apply kept_apart; destruct Hl|by destruct Hl as [_ _ _ _ _ []]|apply capture_keys| |done|done|].
  { cbn [fl_progress]. change (rp_baseline pr) with (captureReplayBaseline (remaining pr) (pool s)). rewrite Hrem.
    apply ready_first; by destruct Hl as [? ? ? ? ? []]. }
  destruct (replay_reaches ns (pool s) q Hl) as [Hq Hw]. assert (E5 : reversed (fl_progress g') = []) by by rewrite E4.
  cbn [fl_entry fl_undo fl_listed] in E1, E2, E3. unfold replay_succeeds. rewrite E1, E2, E3, E5.
  assert (Halter : alter (replace_in undo []) r (scope_entries s) = scope_entries s).
  { apply alter_same. intros [lb iv fw]. unfold replace_in. simpl. rewrite !replace_none. by destruct undo. }
  assert (Hdel : map_delete r [(r, pr)] = []) by (unfold map_delete; rewrite filter_cons_False; [done|tauto]).
  clear -Hr Hc Hg Hb Hfs Hpr Hst Hq Hw Halter Hdel. destruct s as [es us rs rp ba fs gr ch re po an]. simpl in *. subst.
  destruct undo; simpl in *; subst; unfold quiet; simpl; rewrite Halter, Hdel; by split_and!.
Qed.
End Replay.
