(* ===== verification/UndoRuns.v ===== *)
(** * A session of edits, undos and redos

    One user, whose edits are recorded tick by tick and whose writes are all confirmed:
    the scope of [UndoScope.v] refines a timeline of states, a list of rows behind the
    present one and a list ahead of it. *)
From S2P Require Import Prelude JsData Json ErrorCodes MutationQueue MutationFailure UndoApply UndoScope UndoHistory UndoTimeline UndoReplay.
#[local] Open Scope Z_scope.

Section Session.
Context (o : scope_options) (now : Z).
Implicit Types (s : undo_scope) (p q : rows) (m : edit).

(** ** The timeline *)

Inductive command :=
  | CDo (reported : list LocalMutation) (q : rows)
  | CUndo
  | CRedo.

(** Nearest states first. *)
Record timeline := mkTimeline { tl_past : list rows; tl_now : rows; tl_future : list rows }.

Definition tl_step (t : timeline) (c : command) : timeline :=
  match c with
  | CDo _ q => mkTimeline (take (maxHistory o) (tl_now t :: tl_past t)) q []
  | CUndo =>
      match tl_past t with
      | [] => t
      | p :: past => mkTimeline past p (take (maxHistory o) (tl_now t :: tl_future t))
      end
  | CRedo =>
      match tl_future t with
      | [] => t
      | p :: future => mkTimeline (take (maxHistory o) (tl_now t :: tl_past t)) p future
      end
  end.

(** ** The session *)

(** The queue reports an edit: it is recorded with its way there and its way back. *)
Definition reports (lm : LocalMutation) m : Prop :=
  resolveSchemaKey (so_schema o) (m_modelName lm) = Some (edit_key m)
  ∧ m_undoScopeId lm ≠ Some (replayScopeId o) ∧ tracksModel o (edit_key m) = true
  ∧ buildUndoOps (so_fields o) now lm (edit_key m) = (forward m, Some (forward (flip m))).

(** As many confirmations as the entry has operations. *)
Definition confirmations (undo : bool) s : nat :=
  match last (stack_of undo s) with
  | Some r => length (if undo then e_inverses (entry_at r s) else e_forwards (entry_at r s))
  | None => 0
  end.

Definition inputs_of s (c : command) : list scope_input :=
  match c with
  | CDo lms q => Rows q :: (Local <$> lms) ++ [Flush]
  | CUndo => Undo :: Start :: repeat Confirmed (confirmations true s)
  | CRedo => Redo :: Start :: repeat Confirmed (confirmations false s)
  end.

Definition run_command s (c : command) : undo_scope := foldl (scope_step o now) s (inputs_of s c).

(** What a tick reports leads from the rows to the new rows. *)
Definition allowed s (c : command) : Prop :=
  match c with
  | CDo lms q => ∃ ms, ms ≠ [] ∧ Forall2 reports lms ms ∧ links o ms (pool s) q
  | _ => True
  end.

Fixpoint session (cs : list command) s : Prop :=
  match cs with [] => True | c :: cs => allowed s c ∧ session cs (run_command s c) end.

(** ** The simulation *)

Fixpoint path (undo : bool) (es : list UndoEntry) (rs : list nat) (p : rows) (ps : list rows) : Prop :=
  match rs, ps with
  | [], [] => True
  | r :: rs, q :: ps =>
      (∃ e ns, es !! r = Some e ∧ entry_of undo ns e ∧ links o ns p q) ∧ path undo es rs q ps
  | _, _ => False
  end.

Record follows s (t : timeline) : Prop := {
  f_quiet : quiet s;
  f_wf : rows_wf (pool s);
  f_now_wf : rows_wf (tl_now t);
  f_now : rows_eq (pool s) (tl_now t);
  f_past : path true (scope_entries s) (rev (undoStack s)) (tl_now t) (tl_past t);
  f_future : path false (scope_entries s) (rev (redoStack s)) (tl_now t) (tl_future t);
  f_undo : (length (undoStack s) <= maxHistory o)%nat;
  f_redo : (length (redoStack s) <= maxHistory o)%nat;
  f_answers : Forall (λ a, a = None) (answers s);
}.

Lemma path_take undo es rs p ps n : path undo es rs p ps → path undo es (take n rs) p (take n ps).
Proof.
  revert p ps n. induction rs as [|r rs IH]; intros p ps n; destruct ps as [|q ps]; try done; [by rewrite !take_nil|].
  destruct n as [|n]; [done|]. simpl. intros [? ?]. split; [done|]. by apply IH.
Qed.

Lemma path_more undo es e rs p ps : path undo es rs p ps → path undo (es ++ [e]) rs p ps.
Proof.
  revert p ps. induction rs as [|r rs IH]; intros p ps; destruct ps as [|q ps]; try done. simpl.
  intros [(e' & ns & He & H) ?]. split; [|by apply IH]. exists e', ns. split; [|done]. by apply lookup_app_l_Some.
Qed.

Lemma path_length undo es rs p ps : path undo es rs p ps → length rs = length ps.
Proof. revert p ps. induction rs as [|r rs IH]; intros p ps; destruct ps as [|q ps]; try done. simpl. intros [_ H]. f_equal. by eapply IH. Qed.

Lemma push_rev r l : (length l <= maxHistory o)%nat → rev (push_entry o r l) = take (maxHistory o) (r :: rev l).
Proof.
  intros Hl. unfold push_entry. rewrite length_app. simpl. destruct (Nat.ltb_spec (maxHistory o) (length l + 1)).
  - assert (maxHistory o = length l) as -> by lia. destruct l as [|x l]; [done|]. simpl. rewrite !rev_app_distr. simpl.
    f_equal. rewrite take_app_le by (rewrite length_rev; lia). by rewrite take_ge by (rewrite length_rev; lia).
  - rewrite rev_app_distr. simpl. rewrite take_ge; [done|]. simpl. rewrite length_rev. lia.
Qed.

Lemma back_back (ms : list edit) : rev (flip <$> rev (flip <$> ms)) = ms.
Proof.
  change (flip <$> rev (flip <$> ms)) with (List.map flip (rev (flip <$> ms))). rewrite List.map_rev, rev_involutive.
  change (flip <$> (flip <$> ms) = ms). rewrite <- list_fmap_compose. rewrite <- (list_fmap_id ms) at 2.
  apply list_fmap_ext. intros i m _. apply flip_flip.
Qed.

Lemma entry_back undo ns e : entry_of undo ns e → entry_of (negb undo) (rev (flip <$> ns)) e.
Proof. unfold entry_of. rewrite back_back. intros [H1 H2]. by destruct undo. Qed.

(** ** Undo and redo *)

Lemma start_empty (undo : bool) s :
  quiet s → stack_of undo s = [] →
  foldl (scope_step o now) s ((if undo then Undo else Redo) :: Start :: repeat Confirmed (confirmations undo s)) = with_answer None s.
Proof.
  intros (Hr & Hc & _) Hst. unfold confirmations. rewrite Hst. destruct s as [es us rs rp ba fs gr ch re po an]. simpl in *. subst.
  destruct undo; simpl in *; subst; unfold start_replay; reflexivity.
Qed.

Lemma follows_moves (undo : bool) s t r l p ps :
  follows s t → stack_of undo s = l ++ [r] → (if undo then tl_past t else tl_future t) = p :: ps →
  ∃ ns e, scope_entries s !! r = Some e ∧ entry_of undo ns e ∧ links o ns (tl_now t) p ∧ path undo (scope_entries s) (rev l) p ps.
Proof.
  intros [_ _ _ _ Hp Hf _ _ _] Hst Ht. destruct undo; simpl in *.
  - rewrite Hst, Ht, rev_app_distr in Hp. simpl in Hp. destruct Hp as [(e & ns & ?) ?]. naive_solver.
  - rewrite Hst, Ht, rev_app_distr in Hf. simpl in Hf. destruct Hf as [(e & ns & ?) ?]. naive_solver.
Qed.

Lemma follows_replay (undo : bool) s t :
  follows s t → follows (run_command s (if undo then CUndo else CRedo)) (tl_step t (if undo then CUndo else CRedo)).
Proof.
  intros Hf.
  assert (Hin : inputs_of s (if undo then CUndo else CRedo) = (if undo then Undo else Redo) :: Start :: repeat Confirmed (confirmations undo s))
    by by destruct undo.
  unfold run_command. rewrite Hin.
  assert (Hlen : length (stack_of undo s) = length (if undo then tl_past t else tl_future t)).
  { destruct Hf as [_ _ _ _ Hp Hq _ _ _]. apply path_length in Hp, Hq. rewrite length_rev in Hp, Hq. by destruct undo. }
  destruct (decide (stack_of undo s = [])) as [Hst|Hst].
  { rewrite start_empty by (try done; apply Hf). rewrite Hst in Hlen.
    assert (tl_step t (if undo then CUndo else CRedo) = t) as ->.
    { destruct undo; simpl in *; destruct t as [[] ? []]; done. }
    destruct Hf as [A B C D E F G H I]. split; try done. simpl. by apply Forall_app_2, Forall_singleton. }
  destruct (exists_last Hst) as (l & r & Hst'). rewrite Hst', length_app in Hlen. simpl in Hlen.
  destruct (if undo then tl_past t else tl_future t) as [|p ps] eqn:Ht; [simpl in Hlen; lia|].
  destruct (follows_moves undo s t r l p ps Hf Hst' Ht) as (ns & e & He & Hent & Hl & Hpath).
  destruct Hf as [Hq Hw Hnw Hnow Hpast Hfut Hu Hr Ha].
  assert (Hat : entry_at r s = e) by (unfold entry_at; by rewrite He).
  assert (Hl' : links o ns (pool s) p) by (apply (links_eq o ns (tl_now t)); [done|by apply rows_eq_sym|done]).
  assert (Hn : (length ns <= confirmations undo s)%nat).
  { unfold confirmations. rewrite Hst', last_snoc, Hat. destruct Hent as [E _]. apply (f_equal length) in E. rewrite length_fmap in E. destruct undo; lia. }
  destruct (replay_settles o now undo s r ns l p (confirmations undo s)) as (Hq' & Heq & Hw' & Hes & Hans & Hs1 & Hs2); [done|done|by rewrite Hat|done|done|].
  set (s' := foldl _ s _) in *.
  assert (Hwp : rows_wf p) by by destruct Hl as [_ _ _ _ _ []].
  assert (Hback : path (negb undo) (scope_entries s) (take (maxHistory o) (r :: rev (stack_of (negb undo) s))) p
    (take (maxHistory o) (tl_now t :: (if undo then tl_future t else tl_past t)))).
  { apply path_take. split; [|by destruct undo]. exists e, (rev (flip <$> ns)). split_and!; [done|by apply entry_back|by apply links_back]. }
  rewrite <- push_rev, <- Hs2 in Hback by (by destruct undo). rewrite <- Hes in Hpath, Hback. rewrite <- Hs1 in Hpath.
  assert (Hans' : Forall (λ a, a = None) (answers s')) by (rewrite Hans; by apply Forall_app_2, Forall_singleton).
  assert (Hlb : (length (stack_of (negb undo) s') <= maxHistory o)%nat).
  { rewrite Hs2. rewrite <- length_rev, push_rev by (by destruct undo). rewrite length_take. lia. }
  assert (Hla : (length (stack_of undo s') <= maxHistory o)%nat).
  { rewrite Hs1. assert (length l <= length (stack_of undo s))%nat by (rewrite Hst', length_app; lia). destruct undo; simpl in *; lia. }
  clearbody s'. destruct undo; simpl in *; rewrite Ht; by split.
Qed.

(** ** Edits *)

Definition recorded m : recorded_op := (forward m, Some (forward (flip m))).

Lemma locals_batch lms ms s :
  Forall2 reports lms ms → group s = None →
  foldl (scope_step o now) s (Local <$> lms)
  = with_batch (batch s ++ (recorded <$> ms)) (match ms with [] => flushScheduled s | _ => true end) s.
Proof.
  intros Hms. revert s. induction Hms as [|lm m lms ms (Hk & Hs & Ht & Hb) Hms IH]; intros s Hg.
  - simpl. rewrite app_nil_r. by destruct s.
  - rewrite fmap_cons. cbn [foldl scope_step]. unfold onLocalMutation at 1. rewrite Hk, Ht, bool_decide_false by done. cbn [negb orb].
    rewrite Hg, Hb, IH by done. rewrite fmap_cons. unfold with_batch. simpl. rewrite <- app_assoc. by destruct ms.
Qed.

Lemma recorded_entry ms : entry_of true (rev (flip <$> ms)) (mkEntry None (rev (omap snd (recorded <$> ms))) (recorded <$> ms).*1).
Proof.
  assert (Hi : omap snd (recorded <$> ms) = forward <$> (flip <$> ms)).
  { induction ms as [|m ms IH]; [done|]. rewrite !fmap_cons. cbn [omap list_omap recorded snd]. by rewrite IH. }
  split; cbn [e_inverses e_forwards].
  - rewrite Hi. symmetry. apply List.map_rev.
  - rewrite back_back, <- list_fmap_compose. by apply list_fmap_ext.
Qed.

Lemma follows_do lms q s t : follows s t → allowed s (CDo lms q) → follows (run_command s (CDo lms q)) (tl_step t (CDo lms q)).
Proof.
  intros [Hq Hw Hnw Hnow Hpast Hfut Hu Hr Ha] (ms & Hne & Hms & Hl). destruct Hq as (Hrep & Hch & Hg & Hb & Hfs & Hpr).
  assert (Hrun : run_command s (CDo lms q) = record_entry o (mkEntry None (rev (omap snd (recorded <$> ms))) (recorded <$> ms).*1) (with_pool q s)).
  { unfold run_command, inputs_of. cbn [foldl scope_step]. rewrite foldl_app, (locals_batch lms ms) by done.
    cbn [foldl scope_step batch with_pool]. rewrite Hb. cbn [app]. destruct ms as [|m ms]; [done|]. cbn [flushScheduled with_batch].
    unfold flushBatch, record_ops. cbn [batch with_batch]. rewrite fmap_cons. destruct s; simpl in *; by subst. }
  rewrite Hrun. unfold record_entry. cbn [tl_step]. set (e := mkEntry _ _ _).
  assert (Hredo : List.filter (holds_changes (with_undo (push_entry o (length (scope_entries (with_pool q s))) (undoStack (with_pool q s)))
    (with_entries_of (scope_entries (with_pool q s) ++ [e]) (with_pool q s)))) (redoStack s) = []).
  { unfold holds_changes. cbn [replayProgress with_undo with_entries_of with_pool]. rewrite Hpr. generalize (redoStack s).
    clear. intros l. by induction l. }
  cbn [redoStack with_undo with_entries_of with_pool] in *. rewrite Hredo.
  assert (Hwq : rows_wf q) by by destruct Hl as [_ _ _ _ _ []].
  split; try done; simpl; [by apply rows_eq_refl| | |lia].
  - rewrite push_rev by done. apply path_take. split; [|by apply path_more].
    exists e, (rev (flip <$> ms)). split_and!; [by apply list_lookup_middle|apply recorded_entry|].
    apply links_back. by apply (links_eq o ms (pool s)).
  - rewrite <- length_rev, push_rev by done. rewrite length_take. lia.
Qed.

Lemma follows_session cs s t : follows s t → session cs s → follows (foldl run_command s cs) (foldl tl_step t cs).
Proof.
  revert s t. induction cs as [|c cs IH]; intros s t Hf; [done|]. intros [Hc Hcs]. cbn [foldl]. apply IH; [|done].
  destruct c; [by apply follows_do|by apply (follows_replay true)|by apply (follows_replay false)].
Qed.

End Session.

(** * Runs of an undo scope

    One task and its history: the witnesses of the theorems on undo, and the runs in
    which undo or redo leaves the timeline. *)
#[local] Open Scope Z_scope.
#[local] Open Scope string_scope.

(** Times read as one fixed text. *)
Definition demo (policy : UndoConflictPolicy) : scope_options :=
  mkOptions [("tasks", "Task")] 3 policy (λ _, true) "replay" (mkReader (λ _ _, None) (λ _ _, None))
    (λ _ id data, ("id", JStr id) :: data) (λ _, "1970-01-01T00:00:00.000Z").

Definition task (title : string) (n : Z) : rows := [("t1", mkRow "Task" [("id", JStr "t1"); ("title", JStr title); ("n", JNum n)])].

Definition wrote (f : string) (old new : json) : LocalMutation := mkMutation MUpdate "Task" "t1" [(f, new)] [(f, old)] None.
Definition made_task (data : fields) : LocalMutation := mkMutation MCreate "Task" "t1" data [] None.
Definition dropped_task (data : fields) : LocalMutation := mkMutation MDelete "Task" "t1" [] data None.

Definition run_demo (p : rows) (l : list scope_input) : undo_scope := foldl (scope_step (demo SkipStale) 0) (new_scope p) l.

(** What a tick did, then some inputs. *)
Definition tick (q : rows) (lms : list LocalMutation) : list scope_input := Rows q :: (Local <$> lms) ++ [Flush].
Definition undo_run : list scope_input := [Undo; Start; Confirmed; Confirmed; Confirmed].
Definition redo_run : list scope_input := [Redo; Start; Confirmed; Confirmed; Confirmed].

Definition field_of (f : string) (s : undo_scope) : json := readCurrentField (pool s) "t1" f.

(** ** Witnesses *)

Lemma replay_merges_by_leaf_witness :
  let was := Some (JObj [("x", JNum 1); ("y", JNum 1)]) in
  let set := Some (JObj [("x", JNum 2); ("y", JNum 2)]) in
  let now := Some (JObj [("x", JNum 2); ("y", JNum 5)]) in
  at_path ["y"] (replayValue was set now) = Some (JNum 5)
  ∧ odeep (at_path ["x"] (replayValue was set now)) (Some (JNum 1)) = true.
Proof.
  cbv zeta. split.
  - apply (replay_merges_by_leaf (Some (JObj [("x", JNum 1); ("y", JNum 1)])) (Some (JObj [("x", JNum 2); ("y", JNum 2)]))
      (Some (JObj [("x", JNum 2); ("y", JNum 5)])) ["y"]); reflexivity.
  - apply (replay_merges_by_leaf (Some (JObj [("x", JNum 1); ("y", JNum 1)])) (Some (JObj [("x", JNum 2); ("y", JNum 2)]))
      (Some (JObj [("x", JNum 2); ("y", JNum 5)])) ["x"]); [reflexivity..|exact I|reflexivity].
Defined.

Definition undo_under_way : list scope_input := tick (task "b" 1) [wrote "title" (JStr "a") (JStr "b")] ++ [Undo; Start].

Lemma an_entry_is_in_one_place_witness :
  let s := run_scope (demo SkipStale) 0 (task "a" 1) undo_under_way in
  undoStack s = [] ∧ flying s = [0%nat] ∧ undoStack (scope_step (demo SkipStale) 0 s (Failed no_runtime)) = [0%nat].
Proof.
  cbv zeta. split; [reflexivity|]. split; [reflexivity|].
  destruct (an_entry_is_in_one_place (demo SkipStale) 0 (task "a" 1) undo_under_way) as (_ & _ & _ & H).
  destruct (replaying (run_scope (demo SkipStale) 0 (task "a" 1) undo_under_way)) as [[f w]|] eqn:Hf; [|discriminate (f_equal is_Some_b Hf)].
  specialize (H no_runtime f w eq_refl). destruct H as (_ & _ & E & _).
  assert (Hfu : fl_undo f = true ∧ fl_entry f = 0%nat) by (vm_compute in Hf; injection Hf as <- <-; split; reflexivity).
  destruct Hfu as [E1 E2]. rewrite E1, E2 in E. exact E.
Defined.

Definition ed (old new : string) : edit := EUpdate "tasks" "t1" [("title", (JStr old, JStr new))].

Lemma task_wf t n : rows_wf (task t n).
Proof.
  intros id f. unfold rdo, rd, task. simpl. case_decide; [|done]. simpl. repeat (case_decide; [done|]). done.
Qed.

Lemma task_links t u n : links (demo SkipStale) [ed t u] (task t n) (task u n).
Proof.
  split.
  - constructor; [|constructor]. split; [by eexists|]. split_and!; [done|repeat constructor; by intros ?%elem_of_nil|].
    by intros f old new [= -> -> ->]%list_elem_of_singleton.
  - by split; [constructor|].
  - constructor; [|constructor]. split; [done|]. intros f old new [= -> -> ->]%list_elem_of_singleton. simpl. apply String.eqb_refl.
  - constructor; [|constructor]. split; [done|]. intros f old new [= -> -> ->]%list_elem_of_singleton. simpl. apply String.eqb_refl.
  - intros id f [Hn _]%Forall_cons. unfold model_in, rdo, task. simpl. case_decide as E; [|done]. split; [done|]. unfold rd. simpl.
    case_decide; [done|]. case_decide; [exfalso; apply Hn; subst; by split; [|left]|]. case_decide; [apply Z.eqb_refl|done].
  - split; apply task_wf.
Qed.

Definition edits_and_undos : list command :=
  [CDo [wrote "title" (JStr "a") (JStr "b")] (task "b" 1); CDo [wrote "title" (JStr "b") (JStr "c")] (task "c" 1);
   CUndo; CUndo; CRedo; CUndo; CUndo; CRedo; CDo [wrote "title" (JStr "b") (JStr "d")] (task "d" 1); CRedo; CUndo].

Lemma one_edit s t u n :
  pool s = task t n → allowed (demo SkipStale) 0 s (CDo [wrote "title" (JStr t) (JStr u)] (task u n)).
Proof.
  intros Hp. exists [ed t u]. split; [done|]. split; [|rewrite Hp; apply task_links]. constructor; [|constructor]. by split_and!.
Qed.


(** ** Where undo leaves the timeline *)

Definition data_of (title : string) : fields := [("title", JStr title); ("n", JNum 1)].

(** 1, then 2, then 1 again, in one tick. *)
Definition there_and_back : undo_scope :=
  run_demo (task "a" 1) (tick (task "a" 1) [wrote "n" (JNum 1) (JNum 2); wrote "n" (JNum 2) (JNum 1)] ++ undo_run).

(** Renamed and deleted in one tick. *)
Definition renamed_and_deleted : undo_scope :=
  run_demo (task "a" 1) (tick [] [wrote "title" (JStr "a") (JStr "b"); dropped_task (data_of "b")] ++ undo_run).

(** Created and renamed in one tick, undone and redone. *)
Definition created_and_renamed : undo_scope :=
  run_demo [] (tick (task "b" 1) [made_task (data_of "a"); wrote "title" (JStr "a") (JStr "b")] ++ undo_run ++ redo_run).

(** Archived, and undone. *)
Definition archived (v : json) : rows := [("t1", mkRow "Task" [("id", JStr "t1"); ("archivedAt", v)])].
Definition archived_and_undone : undo_scope :=
  run_demo (archived JNull) (tick (archived (JStr "1970-01-01T00:00:00.000Z")) [mkMutation MArchive "Task" "t1" [] [] None] ++ undo_run).

(** A date moved, and moved back. *)
Definition due (v : json) : rows := [("t1", mkRow "Task" [("dueAt", v)])].
Definition date_moved : undo_scope :=
  run_demo (due (JDate 1)) (tick (due (JDate 2)) [wrote "dueAt" (JDate 1) (JDate 2)] ++ undo_run).

(** An edit recorded while an undo waits for its confirmation. *)
Definition rename_a_b : list scope_input := tick (task "b" 1) [wrote "title" (JStr "a") (JStr "b")].
Definition edit_meanwhile : list scope_input := rename_a_b ++ [Undo; Start] ++ tick (task "a" 2) [wrote "n" (JNum 1) (JNum 2)].
Definition offline : CaughtError := mkCaught AbloConnectionError None "offline" None 0.

(** The counter of a row that is gone. *)
Definition orphaned : list scope_input :=
  [RecordEntry (mkEntry None [OpReverse "tasks" "t1" "n" CounterDomain "e1" []] []); Undo; Start].

(** Five ticks that undo or redo does not take back. Where a tick writes a field twice
    and ends where it began, undo writes the value in between; where it changes a row and
    deletes it, undo brings the row back with the change; where it creates a row and
    changes it, redo brings the row back without the change; archiving, and moving a date,
    are not taken back at all. None of them is reported: each undo and redo is answered
    as a success. *)
Theorem some_ticks_are_not_taken_back :
  (field_of "n" there_and_back = JNum 2 ∧ answers there_and_back = [None])
  ∧ (field_of "title" renamed_and_deleted = JStr "b" ∧ answers renamed_and_deleted = [None])
  ∧ (field_of "title" created_and_renamed = JStr "a" ∧ answers created_and_renamed = [None; None])
  ∧ (field_of "archivedAt" archived_and_undone = JStr "1970-01-01T00:00:00.000Z" ∧ answers archived_and_undone = [None])
  ∧ (field_of "dueAt" date_moved = JDate 2 ∧ answers date_moved = [None]).
Proof. repeat split. Qed.

(** Recording is not part of the chain on which undo and redo wait for each other. An
    edit recorded while an undo is under way leaves a redo that is older than it if the
    undo is confirmed, and lies below the older edit if the undo fails; a scope cleared
    meanwhile gets the entry back. A failure without a verdict, such as the reversal of
    an edit of a row that is gone, blocks the scope: each later undo is refused with
    [stale_context] and the entries below are not reached. *)
Theorem recording_does_not_wait_for_a_replay :
  (let s := run_demo (task "a" 1) (edit_meanwhile ++ [Confirmed]) in undoStack s = [1%nat] ∧ redoStack s = [0%nat])
  ∧ (let s := run_demo (task "a" 1) (edit_meanwhile ++ [Failed not_found]) in undoStack s = [1%nat; 0%nat] ∧ redoStack s = [])
  ∧ (let s := run_demo (task "a" 1) (rename_a_b ++ [Undo; Start; Clear; Confirmed]) in undoStack s = [] ∧ redoStack s = [0%nat])
  ∧ (let s := run_demo (task "a" 1) (rename_a_b ++ [Undo; Start; Failed offline; Undo; Start]) in
     undoStack s = [0%nat] ∧ answers s = [Some offline; Some outcome_unknown])
  ∧ (let s := run_demo [] (orphaned ++ [Undo; Start; Undo; Start]) in
     undoStack s = [0%nat] ∧ answers s = [Some no_runtime; Some outcome_unknown; Some outcome_unknown]).
Proof. repeat split. Qed.
