(* ===== verification/OpContract.v ===== *)
(** * The operation contract

    The data that the operation engine of [packages/transaction/src/commit/operations]
    exchanges, the schemas that guard it, and the interface a value domain
    implements ([contract.ts]). The laws a domain may promise are classes of
    their own, so that each theorem names the promise it rests on. *)
From S2P Require Import Prelude.

(** ** Data *)

Record OperationSnapshot (V : Type) := mkSnapshot {
  snap_epoch : string;
  snap_version : Z;
  snap_value : V;
}.
Arguments mkSnapshot {V} _ _ _.
Arguments snap_epoch {V} _.
Arguments snap_version {V} _.
Arguments snap_value {V} _.

Record OperationEdit (Op : Type) := mkEdit {
  edit_id : string;
  edit_epoch : string;
  edit_baseVersion : Z;
  edit_operation : Op;
}.
Arguments mkEdit {Op} _ _ _ _.
Arguments edit_id {Op} _.
Arguments edit_epoch {Op} _.
Arguments edit_baseVersion {Op} _.
Arguments edit_operation {Op} _.

Record AcceptedOperation (Op : Type) := mkAccepted {
  acc_id : string;
  acc_epoch : string;
  acc_version : Z;
  acc_operation : Op;
}.
Arguments mkAccepted {Op} _ _ _ _.
Arguments acc_id {Op} _.
Arguments acc_epoch {Op} _.
Arguments acc_version {Op} _.
Arguments acc_operation {Op} _.

Record OperationHistory (V Op : Type) := mkHistory {
  hist_base : OperationSnapshot V;
  hist_edits : list (AcceptedOperation Op);
}.
Arguments mkHistory {V Op} _ _.
Arguments hist_base {V Op} _.
Arguments hist_edits {V Op} _.

Record PendingOperation (Op : Type) := mkPending { pend_id : string; pend_operation : Op }.
Arguments mkPending {Op} _ _.
Arguments pend_id {Op} _.
Arguments pend_operation {Op} _.

Record OperationState (V Op : Type) := mkState {
  st_snapshot : OperationSnapshot V;
  st_pending : list (PendingOperation Op);
  st_inFlight : option (OperationEdit Op);
  st_undo : list Op;
  st_redo : list Op;
}.
Arguments mkState {V Op} _ _ _ _ _.
Arguments st_snapshot {V Op} _.
Arguments st_pending {V Op} _.
Arguments st_inFlight {V Op} _.
Arguments st_undo {V Op} _.
Arguments st_redo {V Op} _.

#[export] Instance OperationSnapshot_eq_dec `{EqDecision V} : EqDecision (OperationSnapshot V).
Proof. solve_decision. Defined.
#[export] Instance OperationEdit_eq_dec `{EqDecision Op} : EqDecision (OperationEdit Op).
Proof. solve_decision. Defined.
#[export] Instance AcceptedOperation_eq_dec `{EqDecision Op} : EqDecision (AcceptedOperation Op).
Proof. solve_decision. Defined.
#[export] Instance PendingOperation_eq_dec `{EqDecision Op} : EqDecision (PendingOperation Op).
Proof. solve_decision. Defined.
#[export] Instance OperationState_eq_dec `{EqDecision V, EqDecision Op} : EqDecision (OperationState V Op).
Proof. solve_decision. Defined.

(** ** The domain interface *)

Inductive side := left_side | right_side.

Class OperationDomain (V Op : Type) := {
  requiresHistory : bool;
  (** the value and operation schemas the domain hands to [operationSchemas] *)
  valid_value : V → bool;
  valid_operation : Op → bool;
  apply_op : V → Op → result V;
  invert_op : V → Op → result Op;
  transform_op : Op → Op → side → result Op;
}.

(** ** Schemas ([operationSchemas])

    A schema either returns its input or throws a [ZodError]. The strict-object
    and typing parts of the schemas hold by construction of the records; what is
    left is the numeric and length bounds and the domain's own schemas. *)
Section Schemas.
Context {V Op : Type} `{OperationDomain V Op}.

Definition valid_version (v : Z) : bool := (0 <=? v) && (v <=? MAX_SAFE_INTEGER).

Definition valid_key (s : string) : bool :=
  (1 <=? Z.of_nat (String.length s)) && (Z.of_nat (String.length s) <=? 255).

Definition valid_snapshot (s : OperationSnapshot V) : bool :=
  valid_key (snap_epoch s) && valid_version (snap_version s) && valid_value (snap_value s).

Definition valid_edit (e : OperationEdit Op) : bool :=
  valid_key (edit_id e) && valid_key (edit_epoch e)
  && valid_version (edit_baseVersion e) && valid_operation (edit_operation e).

Definition valid_accepted (a : AcceptedOperation Op) : bool :=
  valid_key (acc_id a) && valid_key (acc_epoch a)
  && valid_version (acc_version a) && valid_operation (acc_operation a).

Definition valid_history (h : OperationHistory V Op) : bool :=
  valid_snapshot (hist_base h) && forallb valid_accepted (hist_edits h).

Definition valid_state (s : OperationState V Op) : bool :=
  valid_snapshot (st_snapshot s)
  && forallb (λ p, valid_key (pend_id p) && valid_operation (pend_operation p)) (st_pending s)
  && match st_inFlight s with None => true | Some e => valid_edit e end
  && forallb valid_operation (st_undo s)
  && forallb valid_operation (st_redo s).

Definition parse {A : Type} (valid : A → bool) (a : A) : result A :=
  if valid a then Ok a else Throw zod_error.

Lemma parse_ok {A} (valid : A → bool) a b : parse valid a = Ok b ↔ b = a ∧ valid a = true.
Proof. unfold parse. destruct (valid a); split; naive_solver. Qed.

End Schemas.

(** [.default([])] and [.default(null)]: a context holds only a snapshot and its
    pending edits, and the state schema fills in the rest. *)
Definition state_of_parts {V Op} (s : OperationSnapshot V) (p : list (PendingOperation Op))
  : OperationState V Op := mkState s p None [] [].

(** ** Laws

    [PlainDomain]: a domain that needs no history to place an edit leaves an
    operation unchanged when it transforms it (the counter domain).
    [ClosedDomain]: what a domain computes from admitted data its schemas admit.
    [TransformLaw] is the diamond property of operational transformation:
    applying the two concurrent operations in either order, each transformed
    against the other, gives the same outcome. [InvertLaw]: an inverse undoes. *)
Class PlainDomain (V Op : Type) `{OperationDomain V Op} : Prop := {
  plain_transform : requiresHistory = false →
    ∀ o c s o', transform_op o c s = Ok o' → o' = o;
}.

Class ClosedDomain (V Op : Type) `{OperationDomain V Op} : Prop := {
  transform_valid : ∀ a b s a', valid_operation a = true →
    transform_op a b s = Ok a' → valid_operation a' = true;
  invert_valid : ∀ v a a', valid_operation a = true →
    invert_op v a = Ok a' → valid_operation a' = true;
  apply_valid : ∀ v a v', apply_op v a = Ok v' → valid_value v' = true;
}.

Class TransformLaw (V Op : Type) `{OperationDomain V Op} : Prop := {
  transform_diamond : ∀ v a b va vb a' b',
    apply_op v a = Ok va → apply_op v b = Ok vb →
    transform_op a b right_side = Ok a' → transform_op b a left_side = Ok b' →
    value_of (apply_op vb a') = value_of (apply_op va b');
}.

Class InvertLaw (V Op : Type) `{OperationDomain V Op} : Prop := {
  invert_applies : ∀ v o o' v',
    apply_op v o = Ok v' → invert_op v o = Ok o' → apply_op v' o' = Ok v;
}.
