(* ===== verification/OpHistory.v ===== *)
(** * Accepted histories

    [foldOperationHistory] and [reconcileOperation] of
    [commit/operations/history.ts]: the authority's side of the operation
    engine. The first part is the code, the second what it guarantees. *)
From S2P Require Import Prelude OpContract.

Definition stale : JsError := ablo_error AbloStaleContextError "stale_context".
Definition invalid_input : JsError := ablo_error AbloValidationError "invalid_input".

Section History.
Context {V Op : Type} `{!EqDecision V} `{!OperationDomain V Op}.

(** The [for] loop of [foldOperationHistory]; [ids] is the [Set] of edit ids. *)
Fixpoint fold_edits (snapshot : OperationSnapshot V) (ids : gset string)
    (edits : list (AcceptedOperation Op)) : result (OperationSnapshot V) :=
  match edits with
  | [] => Ok snapshot
  | edit :: rest =>
      if bool_decide (acc_epoch edit ≠ snap_epoch snapshot)
         || negb (acc_version edit =? snap_version snapshot + 1)
         || bool_decide (acc_id edit ∈ ids)
      then Throw stale
      else
        value ← apply_op (snap_value snapshot) (acc_operation edit);
        fold_edits (mkSnapshot (acc_epoch edit) (acc_version edit) value)
          ({[acc_id edit]} ∪ ids) rest
  end.

Definition foldOperationHistory (input : OperationHistory V Op) : result (OperationSnapshot V) :=
  history ← parse valid_history input;
  fold_edits (hist_base history) ∅ (hist_edits history).

(** [operation = domain.transform(operation, accepted.operation, 'right')] over
    the accepted edits after the basis. *)
Definition transform_over (operation : Op) (edits : list (AcceptedOperation Op)) : result Op :=
  foldM (λ o (accepted : AcceptedOperation Op),
           transform_op o (acc_operation accepted) right_side) operation edits.

Definition reconcileOperation (history : OperationHistory V Op) (input : OperationEdit Op)
    (authoritativeValue : V) : result (AcceptedOperation Op) :=
  edit ← parse valid_edit input;
  head ← foldOperationHistory history;
  _ ← guard_or (bool_decide (snap_value head = authoritativeValue)) stale;
  let base := hist_base history in
  _ ← guard_or (negb (bool_decide (edit_epoch edit ≠ snap_epoch head)
                      || (edit_baseVersion edit <? snap_version base)
                      || (snap_version head <? edit_baseVersion edit))) stale;
  _ ← guard_or (negb (existsb (λ accepted, bool_decide (acc_id accepted = edit_id edit))
                        (hist_edits history))) invalid_input;
  _ ← guard_or (negb (snap_version head =? MAX_SAFE_INTEGER)) stale;
  operation ←
    (if requiresHistory then
       let n := Z.to_nat (edit_baseVersion edit - snap_version base) in
       let prefix := take n (hist_edits history) in
       basis ← foldOperationHistory (mkHistory base prefix);
       _ ← apply_op (snap_value basis) (edit_operation edit);
       transform_over (edit_operation edit) (drop (length prefix) (hist_edits history))
     else Ok (edit_operation edit));
  _ ← apply_op (snap_value head) operation;
  Ok (mkAccepted (edit_id edit) (edit_epoch edit) (snap_version head + 1) operation).

End History.

(** ** What a fold promises *)

Section HistoryFacts.
Context {V Op : Type} `{!EqDecision V} `{!OperationDomain V Op}.
Implicit Types (s head : OperationSnapshot V) (edits : list (AcceptedOperation Op)).

Definition acc_ids edits : gset string := list_to_set (acc_id <$> edits).

(** The edits continue [s]: same epoch, and versions that count up by one. *)
Fixpoint contiguous s edits : Prop :=
  match edits with
  | [] => True
  | e :: rest =>
      acc_epoch e = snap_epoch s ∧ acc_version e = snap_version s + 1
      ∧ contiguous (mkSnapshot (acc_epoch e) (acc_version e) (snap_value s)) rest
  end.

Lemma contiguous_value ep ver v v' edits :
  contiguous (mkSnapshot ep ver v) edits ↔ contiguous (mkSnapshot ep ver v') edits.
Proof.
  revert ep ver v v'; induction edits as [|e rest IH]; intros ep ver v v'; simpl; [done|].
  by rewrite (IH _ _ v v').
Qed.

Definition apply_accepted (v : V) (a : AcceptedOperation Op) : result V :=
  apply_op v (acc_operation a).

Lemma fold_edits_app s ids l1 l2 :
  fold_edits s ids (l1 ++ l2) =
  (s' ← fold_edits s ids l1; fold_edits s' (acc_ids l1 ∪ ids) l2).
Proof.
  revert s ids; induction l1 as [|e l1 IH]; intros s ids; simpl.
  - unfold acc_ids; simpl. by rewrite (left_id_L ∅ (∪)).
  - destruct (_ || _); [done|]. destruct (apply_op _ _) as [v|]; simpl; [|done].
    rewrite IH. f_equal.
    replace (acc_ids (e :: l1) ∪ ids) with (acc_ids l1 ∪ ({[acc_id e]} ∪ ids)); [done|].
    unfold acc_ids; simpl. set_solver.
Qed.

(** Success of the loop, spelled out. *)
Lemma fold_edits_spec s ids edits head :
  fold_edits s ids edits = Ok head ↔
    contiguous s edits ∧ NoDup (acc_id <$> edits) ∧ acc_ids edits ## ids
    ∧ snap_epoch head = snap_epoch s
    ∧ snap_version head = snap_version s + Z.of_nat (length edits)
    ∧ foldM apply_accepted (snap_value s) edits = Ok (snap_value head).
Proof.
  revert s ids; induction edits as [|e rest IH]; intros s ids; simpl.
  - unfold acc_ids; simpl. destruct s, head; simpl. split.
    + intros [= -> -> ->]. repeat split; [constructor|set_solver|lia].
    + intros (_ & _ & _ & -> & -> & [= ->]). do 2 f_equal. lia.
  - case_bool_decide as He; simpl.
    { split; [done|]. naive_solver. }
    destruct (acc_version e =? snap_version s + 1) eqn:Hv; simpl.
    2:{ apply Z.eqb_neq in Hv. split; [done|]. naive_solver. }
    apply Z.eqb_eq in Hv.
    case_bool_decide as Hid.
    { split; [done|]. unfold acc_ids; simpl. set_solver. }
    unfold apply_accepted at 2. destruct (apply_op _ _) as [v|err]; simpl.
    2:{ split; [done|]. naive_solver. }
    rewrite IH; simpl. rewrite (contiguous_value _ _ v (snap_value s)).
    unfold acc_ids; csimpl. rewrite NoDup_cons, list_elem_of_fmap.
    split.
    + intros (Hc & Hnd & Hdis & Hep & Hver & Hval).
      split_and!; try done; try lia; try congruence; [|set_solver].
      intros (y & Hy & Hin). assert (acc_id y ∈ (list_to_set (acc_id <$> rest) : gset string)).
      { rewrite elem_of_list_to_set, list_elem_of_fmap. eauto. }
      set_solver.
    + intros ((_ & _ & Hc) & (Hn & Hnd) & Hdis & Hep & Hver & Hval).
      split_and!; try done; try lia; try congruence.
      intros x Hx Hx'. apply elem_of_union in Hx' as [->%elem_of_singleton|Hx'].
      * apply elem_of_list_to_set, list_elem_of_fmap in Hx as (y & ? & ?). eauto.
      * set_solver.
Qed.

Lemma foldOperationHistory_ok h head :
  foldOperationHistory h = Ok head ↔
  valid_history h = true ∧ fold_edits (hist_base h) ∅ (hist_edits h) = Ok head.
Proof.
  unfold foldOperationHistory. rewrite bind_ok. setoid_rewrite parse_ok. naive_solver.
Qed.

Lemma fold_version h head :
  foldOperationHistory h = Ok head →
  snap_version head = snap_version (hist_base h) + Z.of_nat (length (hist_edits h)).
Proof. rewrite foldOperationHistory_ok, fold_edits_spec. naive_solver. Qed.

Lemma fold_epoch h head :
  foldOperationHistory h = Ok head → snap_epoch head = snap_epoch (hist_base h).
Proof. rewrite foldOperationHistory_ok, fold_edits_spec. naive_solver. Qed.

Lemma contiguous_lookup s edits i e :
  contiguous s edits → edits !! i = Some e →
  acc_epoch e = snap_epoch s ∧ acc_version e = snap_version s + Z.of_nat i + 1.
Proof.
  revert s i; induction edits as [|e0 rest IH]; intros s i; [done|].
  simpl. intros (He & Hv & Hc) Hi. destruct i as [|i]; simpl in Hi.
  - injection Hi as ->. split; [done|lia].
  - destruct (IH _ _ Hc Hi) as [H1 H2]; simpl in *. split; [congruence|lia].
Qed.

(** A fold that succeeds succeeds on every prefix, and continues from there. *)
Lemma fold_prefix base edits n head :
  foldOperationHistory (mkHistory base edits) = Ok head →
  ∃ mid, foldOperationHistory (mkHistory base (take n edits)) = Ok mid
    ∧ fold_edits mid (acc_ids (take n edits)) (drop n edits) = Ok head.
Proof.
  rewrite !foldOperationHistory_ok; simpl. intros [Hval Hf].
  rewrite <- (take_drop n edits), fold_edits_app in Hf.
  apply bind_ok in Hf as (mid & Hm & Hf). exists mid. split.
  - apply foldOperationHistory_ok; split; [|done].
    unfold valid_history in *; simpl in *. bool_simpl.
    apply andb_true_iff; split; [done|]. rewrite forallb_forall in *.
    intros x Hx. match goal with H : ∀ _, _ |- _ => apply H end.
    apply list_elem_of_In, list_elem_of_In in Hx. rewrite <- (take_drop n edits).
    apply list_elem_of_In, elem_of_app; left; by apply list_elem_of_In.
  - by rewrite (right_id_L ∅ (∪)) in Hf.
Qed.

End HistoryFacts.

(** ** What a reconciliation promises *)

Section ReconcileFacts.
Context {V Op : Type} `{!EqDecision V} `{!OperationDomain V Op}.
Implicit Types (h : OperationHistory V Op) (e : OperationEdit Op) (acc : AcceptedOperation Op).

Definition edits_since h (version : Z) : list (AcceptedOperation Op) :=
  drop (Z.to_nat (version - snap_version (hist_base h))) (hist_edits h).

(** Everything a returned reconciliation has checked, and the operation it
    returns: the submitted one, transformed over the edits accepted since its
    basis when the domain needs history. *)
Lemma reconcile_inv h e v acc :
  reconcileOperation h e v = Ok acc →
  ∃ head v',
    foldOperationHistory h = Ok head ∧ valid_edit e = true ∧ snap_value head = v
    ∧ edit_epoch e = snap_epoch head
    ∧ snap_version (hist_base h) ≤ edit_baseVersion e ≤ snap_version head
    ∧ edit_id e ∉ acc_ids (hist_edits h)
    ∧ snap_version head ≠ MAX_SAFE_INTEGER
    ∧ apply_op v (acc_operation acc) = Ok v'
    ∧ acc = mkAccepted (edit_id e) (edit_epoch e) (snap_version head + 1) (acc_operation acc)
    ∧ (if requiresHistory
       then transform_over (edit_operation e) (edits_since h (edit_baseVersion e))
            = Ok (acc_operation acc)
       else acc_operation acc = edit_operation e).
Proof.
  unfold reconcileOperation. intros H. result_inv. subst.
  match goal with H : parse _ _ = Ok _ |- _ => apply parse_ok in H as [-> Hve] end.
  bool_simpl. subst. eexists _, _. split_and!; try done; try lia; try by (simpl; eauto).
  - intros Hin. unfold acc_ids in Hin.
    apply elem_of_list_to_set, list_elem_of_fmap in Hin as (y & Hy & Hin).
    assert (existsb (λ accepted, bool_decide (acc_id accepted = edit_id e)) (hist_edits h) = true)
      as Hex; [|congruence].
    apply existsb_exists. exists y. split; [by apply list_elem_of_In|]. by apply bool_decide_eq_true.
  - destruct requiresHistory; simpl; result_inv; [|congruence].
    simpl in *. unfold edits_since.
    match goal with
    | H : transform_over _ (drop (length (take ?n ?l)) ?l) = _ |- _ =>
        replace (drop (length (take n l)) l) with (drop n l) in H; [done|]
    end.
    rewrite length_take. destruct (decide (Z.to_nat (edit_baseVersion e - snap_version (hist_base h)) ≤ length (hist_edits h))%nat).
    + by rewrite Nat.min_l.
    + rewrite Nat.min_r by lia. by rewrite !drop_ge by lia.
Qed.

Lemma transform_over_valid `{!ClosedDomain V Op} o edits o' :
  valid_operation o = true → transform_over o edits = Ok o' → valid_operation o' = true.
Proof.
  revert o; induction edits as [|a rest IH]; intros o Hv; simpl.
  - by intros [= <-].
  - intros H. apply bind_ok in H as (o1 & H1 & H). eapply IH; [|done].
    by eapply transform_valid.
Qed.

Lemma reconcile_operation_valid `{!ClosedDomain V Op} h e v acc :
  reconcileOperation h e v = Ok acc → valid_operation (acc_operation acc) = true.
Proof.
  intros H. apply reconcile_inv in H as (hd & v' & _ & Hve & _ & _ & _ & _ & _ & _ & _ & Ht).
  unfold valid_edit in Hve. bool_simpl.
  destruct requiresHistory; [by eapply transform_over_valid|congruence].
Qed.

Lemma valid_history_snoc h a :
  valid_history h = true → valid_accepted a = true →
  valid_history (mkHistory (hist_base h) (hist_edits h ++ [a])) = true.
Proof.
  unfold valid_history; simpl. intros Hh Ha. bool_simpl.
  rewrite forallb_app; simpl. rewrite !andb_true_iff. auto.
Qed.

Lemma valid_history_head_version h head :
  foldOperationHistory h = Ok head → valid_version (snap_version head) = true.
Proof.
  intros Hf. apply foldOperationHistory_ok in Hf as [Hv Hf].
  unfold valid_history in Hv. bool_simpl.
  apply fold_edits_spec in Hf as (Hc & _ & _ & _ & Hver & _).
  destruct (decide (hist_edits h = [])) as [Hnil|Hne].
  - rewrite Hnil in Hver; simpl in Hver. unfold valid_snapshot in *. bool_simpl.
    replace (snap_version head) with (snap_version (hist_base h)) by lia. done.
  - destruct (last (hist_edits h)) as [a|] eqn:Hlast.
    2:{ by apply last_None in Hlast. }
    rewrite last_lookup in Hlast.
    pose proof (contiguous_lookup _ _ _ _ Hc Hlast) as [_ Hv'].
    apply list_elem_of_lookup_2, list_elem_of_In in Hlast.
    match goal with H : forallb _ _ = true |- _ =>
      rewrite forallb_forall in H; pose proof (H _ Hlast) as Ha end.
    unfold valid_accepted in Ha. bool_simpl.
    assert (length (hist_edits h) ≠ 0%nat) by (destruct (hist_edits h); simpl; congruence).
    replace (snap_version head) with (acc_version a) by lia. done.
Qed.

(** The head of a foldable journal is itself an admissible snapshot. *)
Lemma fold_valid_snapshot `{!ClosedDomain V Op} h head :
  foldOperationHistory h = Ok head → valid_snapshot head = true.
Proof.
  intros Hf. pose proof (valid_history_head_version _ _ Hf) as Hver.
  apply foldOperationHistory_ok in Hf as [Hv Hf].
  apply fold_edits_spec in Hf as (_ & _ & _ & Hep & _ & Hval).
  unfold valid_history, valid_snapshot in Hv. bool_simpl.
  unfold valid_snapshot. rewrite !andb_true_iff, Hep. split_and!; [done..|].
  destruct (hist_edits h) as [|x l] using rev_ind; [by injection Hval as <-|].
  rewrite foldM_snoc in Hval. apply bind_ok in Hval as (v & _ & Hval). by eapply apply_valid.
Qed.

Lemma NoDup_acc_ids base edits head i j a b :
  foldOperationHistory (mkHistory base edits) = Ok head →
  edits !! i = Some a → edits !! j = Some b → acc_id a = acc_id b → i = j.
Proof.
  intros Hf Hi Hj Heq. apply foldOperationHistory_ok in Hf as [_ Hf].
  apply fold_edits_spec in Hf as (_ & Hnd & _). simpl in Hnd.
  eapply (NoDup_lookup _ i j (acc_id a) Hnd);
    rewrite list_lookup_fmap, ?Hi, ?Hj; simpl; congruence.
Qed.

Lemma acc_ids_lookup (edits : list (AcceptedOperation Op)) id :
  id ∈ acc_ids edits ↔ ∃ i a, edits !! i = Some a ∧ acc_id a = id.
Proof.
  unfold acc_ids. rewrite elem_of_list_to_set, list_elem_of_fmap.
  setoid_rewrite list_elem_of_lookup. naive_solver.
Qed.

(** The journal with the returned operation appended folds to the next snapshot. *)
Lemma reconcile_extends `{!ClosedDomain V Op} h e v acc :
  reconcileOperation h e v = Ok acc →
  ∃ head v', foldOperationHistory h = Ok head ∧ snap_value head = v
    ∧ apply_op v (acc_operation acc) = Ok v'
    ∧ foldOperationHistory (mkHistory (hist_base h) (hist_edits h ++ [acc]))
      = Ok (mkSnapshot (snap_epoch head) (snap_version head + 1) v').
Proof.
  intros H. pose proof (reconcile_operation_valid _ _ _ _ H) as Hop.
  apply reconcile_inv in H
    as (head & v' & Hf & Hve & Hval & Hep & Hbase & Hid & Hmax & Happ & Hacc & _).
  exists head, v'. split_and!; try done.
  pose proof (valid_history_head_version _ _ Hf) as Hhv.
  destruct acc as [i ep ver o]; simpl in *. injection Hacc as -> -> ->.
  apply foldOperationHistory_ok in Hf as [Hvh Hf].
  apply foldOperationHistory_ok; simpl. split.
  - apply valid_history_snoc; [done|]. unfold valid_accepted, valid_edit in *; simpl.
    bool_simpl. unfold valid_version in *. bool_simpl.
    rewrite !andb_true_iff, !Z.leb_le. split_and!; try done; lia.
  - rewrite fold_edits_app, Hf; simpl. rewrite Z.eqb_refl, (right_id_L ∅ (∪)); simpl.
    rewrite (bool_decide_eq_false_2 (_ ≠ _)) by (intros Hn; by apply Hn).
    rewrite bool_decide_eq_false_2 by done; simpl. by rewrite Hval, Happ, Hep.
Qed.

(** C3: What accepting an edit means. The authority returns the submitted
    operation transformed over exactly the edits accepted since its basis (or
    unchanged, in a domain that needs no history), under the submitted id and
    epoch and the next version; and the journal with it appended folds to the
    authoritative value with that operation applied, so an accepted edit never
    makes a journal unfoldable. *)
Theorem reconcile_extends_history `{!ClosedDomain V Op} h e v acc :
  reconcileOperation h e v = Ok acc →
  ∃ head v', foldOperationHistory h = Ok head ∧ snap_value head = v
    ∧ acc_id acc = edit_id e ∧ acc_epoch acc = edit_epoch e
    ∧ acc_version acc = snap_version head + 1
    ∧ (if requiresHistory
       then transform_over (edit_operation e) (edits_since h (edit_baseVersion e))
            = Ok (acc_operation acc)
       else acc_operation acc = edit_operation e)
    ∧ apply_op v (acc_operation acc) = Ok v'
    ∧ foldOperationHistory (mkHistory (hist_base h) (hist_edits h ++ [acc]))
      = Ok (mkSnapshot (snap_epoch head) (snap_version head + 1) v').
Proof.
  intros H. pose proof (reconcile_extends _ _ _ _ H) as (head & v' & Hf & Hv & Ha & Hf').
  apply reconcile_inv in H as (head' & v2 & Hf2 & _ & _ & _ & _ & _ & _ & _ & Hacc & Ht).
  rewrite Hf in Hf2. injection Hf2 as <-. exists head, v'.
  split_and!; try done; by rewrite Hacc.
Qed.

(** A replayed edit is never applied twice. Reconciling an edit whose id the
    history already holds never returns, and with a sound edit, journal and
    basis the refusal is the [invalid_input] validation error that tells the
    caller to replay the original receipt. *)
Theorem reconcile_rejects_replay h e v head :
  foldOperationHistory h = Ok head → edit_id e ∈ acc_ids (hist_edits h) →
  (∀ acc, reconcileOperation h e v ≠ Ok acc)
  ∧ (valid_edit e = true → snap_value head = v → edit_epoch e = snap_epoch head →
     snap_version (hist_base h) ≤ edit_baseVersion e ≤ snap_version head →
     reconcileOperation h e v = Throw invalid_input).
Proof.
  intros Hf Hin. split.
  - intros acc H. apply reconcile_inv in H as (? & ? & _ & _ & _ & _ & _ & Hn & _). done.
  - intros Hve Hval Hep Hb. unfold reconcileOperation, parse. rewrite Hve; simpl. rewrite Hf; simpl.
    rewrite (bool_decide_eq_true_2 (snap_value head = v)) by done; simpl.
    rewrite (bool_decide_eq_false_2 (_ ≠ _)) by (intros Hn; by apply Hn). simpl.
    rewrite (proj2 (Z.ltb_ge _ _)) by lia. rewrite (proj2 (Z.ltb_ge _ _)) by lia. simpl.
    replace (existsb _ _) with true; [done|]. symmetry. apply existsb_exists.
    unfold acc_ids in Hin. apply elem_of_list_to_set, list_elem_of_fmap in Hin as (y & Hy & Hin).
    exists y. split; [by apply list_elem_of_In|]. by apply bool_decide_eq_true.
Qed.

End ReconcileFacts.
