(* ===== verification/OpSession.v ===== *)
(** * The optimistic session

    [OperationSession] of [commit/operations/session.ts]: one field's optimistic
    edits on a client. Its private [state] is an [OperationState]; each method is
    a computation of [M], which keeps the assignments made before a [throw]. *)
From S2P Require Import Prelude OpContract OpHistory.

Inductive stack := Undo | Redo.

Section Session.
Context {V Op : Type} `{!EqDecision V} `{!OperationDomain V Op}.
Implicit Types (st : OperationState V Op).

(** [get value()]: the snapshot with the pending edits applied in order. *)
Definition apply_pending (v : V) (p : PendingOperation Op) : result V :=
  apply_op v (pend_operation p).

Definition session_value st : result V :=
  foldM apply_pending (snap_value (st_snapshot st)) (st_pending st).

(** The constructor. *)
Definition new_session (input : OperationState V Op) : result (OperationState V Op) :=
  st ← parse valid_state input;
  let ids := pend_id <$> st_pending st in
  _ ← guard_or (bool_decide (NoDup ids)) plain_error;
  _ ← (match st_inFlight st with
       | None => Ok ()
       | Some sent =>
           guard_or (negb (bool_decide (Some (edit_id sent) ≠ head ids)
                           || bool_decide (edit_epoch sent ≠ snap_epoch (st_snapshot st))
                           || (snap_version (st_snapshot st) <? edit_baseVersion sent)))
             plain_error
       end);
  _ ← session_value st;
  Ok st.

(** [exportState()] is a structured clone; the model has no aliasing to break. *)
Definition exportState : M (OperationState V Op) (OperationState V Op) := getM.

Definition stack_of (k : stack) st : list Op :=
  match k with Undo => st_undo st | Redo => st_redo st end.

Definition set_stack (k : stack) (l : list Op) st : OperationState V Op :=
  match k with
  | Undo => mkState (st_snapshot st) (st_pending st) (st_inFlight st) l (st_redo st)
  | Redo => mkState (st_snapshot st) (st_pending st) (st_inFlight st) (st_undo st) l
  end.

Definition transform_stack (l : list Op) (against : Op) : result (list Op) :=
  mapM_r (λ saved, transform_op saved against right_side) l.

(** [private enqueue]. *)
Definition enqueue (id : string) (operation : Op) : M (OperationState V Op) () :=
  st ← getM;
  edit ← liftM (parse valid_edit
                  (mkEdit id (snap_epoch (st_snapshot st)) (snap_version (st_snapshot st)) operation));
  _ ← liftM (guard_or (negb (existsb (λ p, bool_decide (pend_id p = id)) (st_pending st)))
               invalid_input);
  value ← liftM (session_value st);
  _ ← liftM (apply_op value (edit_operation edit));
  undo ← liftM (transform_stack (st_undo st) (edit_operation edit));
  redo ← liftM (transform_stack (st_redo st) (edit_operation edit));
  putM (mkState (st_snapshot st)
          (st_pending st ++ [mkPending (edit_id edit) (edit_operation edit)])
          (st_inFlight st) undo redo).

(** [edit(id, operation)]. *)
Definition session_edit (id : string) (operation : Op) : M (OperationState V Op) () :=
  st ← getM;
  value ← liftM (session_value st);
  inverse ← liftM (invert_op value operation);
  _ ← enqueue id operation;
  _ ← modifyM (λ st, set_stack Undo (st_undo st ++ [inverse]) st);
  modifyM (set_stack Redo []).

(** [nextEdit()]: at most one outstanding edit. *)
Definition nextEdit : M (OperationState V Op) (option (OperationEdit Op)) :=
  st ← getM;
  match st_inFlight st with
  | Some sent => mret (Some sent)
  | None =>
      match st_pending st with
      | [] => mret None
      | pending :: _ =>
          let sent := mkEdit (pend_id pending) (snap_epoch (st_snapshot st))
                        (snap_version (st_snapshot st)) (pend_operation pending) in
          _ ← putM (mkState (st_snapshot st) (st_pending st) (Some sent) (st_undo st) (st_redo st));
          mret (Some sent)
      end
  end.

(** The [pending.map] of [receive], which threads [remote] through the edits. *)
Fixpoint rebase_pending (pending : list (PendingOperation Op)) (remote : Op)
    : result (list (PendingOperation Op) * Op) :=
  match pending with
  | [] => Ok ([], remote)
  | local :: rest =>
      operation ← transform_op (pend_operation local) remote right_side;
      remote' ← transform_op remote (pend_operation local) left_side;
      out ← rebase_pending rest remote';
      Ok (mkPending (pend_id local) operation :: out.1, out.2)
  end.

(** [edit.id === this.state.inFlight?.id && own]. *)
Definition is_own (edit : AcceptedOperation Op) st : bool :=
  match st_inFlight st, st_pending st with
  | Some sent, _ :: _ => bool_decide (acc_id edit = edit_id sent)
  | _, _ => false
  end.

(** [receive(input)]. *)
Definition receive (input : AcceptedOperation Op) : M (OperationState V Op) () :=
  st ← getM;
  edit ← liftM (parse valid_accepted input);
  let previous := st_snapshot st in
  if bool_decide (acc_epoch edit ≠ snap_epoch previous) then throwM stale
  else if acc_version edit <=? snap_version previous then mret ()
  else if negb (acc_version edit =? snap_version previous + 1) then throwM stale
  else
    value ← liftM (apply_op (snap_value previous) (acc_operation edit));
    let snapshot := mkSnapshot (acc_epoch edit) (acc_version edit) value in
    match is_own edit st, st_pending st with
    | true, own :: rest =>
        mine ← liftM (apply_op (snap_value previous) (pend_operation own));
        if bool_decide (mine ≠ value) then throwM stale
        else putM (mkState snapshot rest None (st_undo st) (st_redo st))
    | _, _ =>
        if existsb (λ p, bool_decide (pend_id p = acc_id edit)) (st_pending st)
        then throwM invalid_input
        else
          out ← liftM (rebase_pending (st_pending st) (acc_operation edit));
          undo ← liftM (transform_stack (st_undo st) out.2);
          redo ← liftM (transform_stack (st_redo st) out.2);
          _ ← liftM (foldM apply_pending value out.1);
          putM (mkState snapshot out.1 (st_inFlight st) undo redo)
    end.

Definition other (k : stack) : stack := match k with Undo => Redo | Redo => Undo end.

(** [private replay(id, from, to)] with [undo] and [redo]. *)
Definition replay (id : string) (from : stack) : M (OperationState V Op) bool :=
  st ← getM;
  match last (stack_of from st) with
  | None => mret false
  | Some operation =>
      value ← liftM (session_value st);
      inverse ← liftM (invert_op value operation);
      _ ← enqueue id operation;
      _ ← modifyM (λ st, set_stack from (removelast (stack_of from st)) st);
      _ ← modifyM (λ st, set_stack (other from) (stack_of (other from) st ++ [inverse]) st);
      mret true
  end.

Definition session_undo (id : string) : M (OperationState V Op) bool := replay id Undo.
Definition session_redo (id : string) : M (OperationState V Op) bool := replay id Redo.

End Session.

(** ** Outcomes of each method *)

Section SessionFacts.
Context {V Op : Type} `{!EqDecision V} `{!OperationDomain V Op}.
Implicit Types (st : OperationState V Op).

Definition push_pending st id op undo redo : OperationState V Op :=
  mkState (st_snapshot st) (st_pending st ++ [mkPending id op]) (st_inFlight st) undo redo.

#[local] Ltac refused := by (repeat right; eexists).

Lemma existsb_id_false (id : string) (l : list (PendingOperation Op)) :
  existsb (λ p, bool_decide (pend_id p = id)) l = false → id ∉ pend_id <$> l.
Proof.
  intros Hex. rewrite list_elem_of_fmap. intros (p & -> & Hp%list_elem_of_In).
  apply Bool.not_true_iff_false in Hex; apply Hex.
  apply existsb_exists. exists p. split; [done|]. by apply bool_decide_eq_true.
Qed.

Lemma enqueue_cases id op st :
  (∃ (undo redo : list Op) (v v' : V),
      valid_edit (mkEdit id (snap_epoch (st_snapshot st)) (snap_version (st_snapshot st)) op) = true
      ∧ id ∉ pend_id <$> st_pending st
      ∧ session_value st = Ok v ∧ apply_op v op = Ok v'
      ∧ transform_stack (V:=V) (st_undo st) op = Ok undo ∧ transform_stack (V:=V) (st_redo st) op = Ok redo
      ∧ enqueue id op st = (push_pending st id op undo redo, Ok ()))
  ∨ ∃ e, enqueue id op st = (st, Throw e).
Proof.
  unfold enqueue. m_run. left.
  repeat match goal with
  | H : parse _ _ = Ok _ |- _ => apply parse_ok in H as [-> ?]
  | H : guard_or _ _ = Ok _ |- _ => apply guard_or_ok in H
  end. bool_simpl. simpl in *.
  eexists _, _, _, _. split_and!; try done.
  by apply existsb_id_false.
Qed.

Lemma edit_cases id op st :
  (∃ (undo : list Op) (v v' : V) (inverse : Op),
      valid_edit (mkEdit id (snap_epoch (st_snapshot st)) (snap_version (st_snapshot st)) op) = true
      ∧ id ∉ pend_id <$> st_pending st
      ∧ session_value st = Ok v ∧ apply_op v op = Ok v' ∧ invert_op v op = Ok inverse
      ∧ transform_stack (V:=V) (st_undo st) op = Ok undo
      ∧ session_edit id op st = (push_pending st id op (undo ++ [inverse]) [], Ok ()))
  ∨ ∃ e, session_edit id op st = (st, Throw e).
Proof.
  unfold session_edit. m_run. rewrite bindM_bind.
  destruct (enqueue_cases id op st) as
    [(undo & redo & v & v' & ? & ? & Hv & ? & ? & ? & ->)|(e & ->)]; [|by eauto].
  left. rewrite Hv in *. result_inv. eexists _, _, _, _. by split_and!.
Qed.

Lemma replay_cases id from st :
  (∃ (init : list Op) (op : Op) (undo redo : list Op) (v v' : V) (inverse : Op),
      stack_of from st = init ++ [op]
      ∧ valid_edit (mkEdit id (snap_epoch (st_snapshot st)) (snap_version (st_snapshot st)) op) = true
      ∧ id ∉ pend_id <$> st_pending st
      ∧ session_value st = Ok v ∧ apply_op v op = Ok v' ∧ invert_op v op = Ok inverse
      ∧ transform_stack (V:=V) (st_undo st) op = Ok undo ∧ transform_stack (V:=V) (st_redo st) op = Ok redo
      ∧ replay id from st =
          (let st1 := push_pending st id op undo redo in
           let st2 := set_stack from (removelast (stack_of from st1)) st1 in
           set_stack (other from) (stack_of (other from) st2 ++ [inverse]) st2, Ok true))
  ∨ (stack_of from st = [] ∧ replay id from st = (st, Ok false))
  ∨ ∃ e, replay id from st = (st, Throw e).
Proof.
  unfold replay. rewrite getM_bind.
  destruct (last (stack_of from st)) as [op|] eqn:Hlast.
  2:{ apply last_None in Hlast. auto. }
  apply last_Some in Hlast as [init Hinit].
  m_run. rewrite bindM_bind.
  destruct (enqueue_cases id op st) as
    [(undo & redo & v & v' & ? & ? & Hv & ? & ? & ? & ->)|(e & ->)]; [|by eauto].
  left. rewrite Hv in *. result_inv. eexists _, _, _, _, _, _, _. by split_and!.
Qed.

Lemma nextEdit_cases st :
  (∃ sent, st_inFlight st = Some sent ∧ nextEdit st = (st, Ok (Some sent)))
  ∨ (st_inFlight st = None ∧ st_pending st = [] ∧ nextEdit st = (st, Ok None))
  ∨ (∃ p rest, st_inFlight st = None ∧ st_pending st = p :: rest ∧
      let sent := mkEdit (pend_id p) (snap_epoch (st_snapshot st))
                    (snap_version (st_snapshot st)) (pend_operation p) in
      nextEdit st =
        (mkState (st_snapshot st) (st_pending st) (Some sent) (st_undo st) (st_redo st),
         Ok (Some sent))).
Proof.
  unfold nextEdit. rewrite getM_bind.
  destruct (st_inFlight st) as [sent|] eqn:Hs; [left; by eauto|right].
  destruct (st_pending st) as [|p rest] eqn:Hp; [left; by eauto|right]. by eauto 10.
Qed.

(** The four things a delivery can do: nothing, acknowledge, rebase, or be refused. *)
Lemma receive_cases a st :
  (acc_epoch a = snap_epoch (st_snapshot st) ∧ acc_version a ≤ snap_version (st_snapshot st)
     ∧ receive a st = (st, Ok ()))
  ∨ (∃ (value : V) own rest,
      valid_accepted a = true
      ∧ acc_epoch a = snap_epoch (st_snapshot st)
      ∧ acc_version a = snap_version (st_snapshot st) + 1
      ∧ apply_op (snap_value (st_snapshot st)) (acc_operation a) = Ok value
      ∧ is_own a st = true ∧ st_pending st = own :: rest
      ∧ apply_op (snap_value (st_snapshot st)) (pend_operation own) = Ok value
      ∧ receive a st = (mkState (mkSnapshot (acc_epoch a) (acc_version a) value) rest None
                          (st_undo st) (st_redo st), Ok ()))
  ∨ (∃ (value : V) pending (remote : Op) (undo redo : list Op) (v' : V),
      valid_accepted a = true
      ∧ acc_epoch a = snap_epoch (st_snapshot st)
      ∧ acc_version a = snap_version (st_snapshot st) + 1
      ∧ apply_op (snap_value (st_snapshot st)) (acc_operation a) = Ok value
      ∧ is_own a st = false ∧ acc_id a ∉ pend_id <$> st_pending st
      ∧ rebase_pending (V:=V) (st_pending st) (acc_operation a) = Ok (pending, remote)
      ∧ transform_stack (V:=V) (st_undo st) remote = Ok undo
      ∧ transform_stack (V:=V) (st_redo st) remote = Ok redo
      ∧ foldM apply_pending value pending = Ok v'
      ∧ receive a st = (mkState (mkSnapshot (acc_epoch a) (acc_version a) value) pending
                          (st_inFlight st) undo redo, Ok ()))
  ∨ ∃ e, receive a st = (st, Throw e).
Proof.
  unfold receive. m_run.
  match goal with H : parse _ _ = Ok _ |- _ => apply parse_ok in H as [-> Hval] end.
  case_bool_decide as Hep; [refused|].
  destruct (acc_version a <=? _) eqn:Hle; [left; bool_simpl; by eauto|right].
  destruct (acc_version a =? _) eqn:Hv; simpl; [bool_simpl|refused].
  m_run. destruct (is_own a st) eqn:Hown.
  - pose proof Hown as Hown'. unfold is_own in Hown'.
    destruct (st_inFlight st) as [sent|]; [|done].
    destruct (st_pending st) as [|own rest] eqn:Hp; [done|].
    rewrite liftM_bind. destruct (apply_op _ (pend_operation own)) as [mine|e] eqn:Hm; [|refused].
    destruct (bool_decide (mine ≠ _)) eqn:Hne; [refused|bool_simpl; subst mine].
    left. eexists _, _, _. by split_and!.
  - right. destruct (existsb _ _) eqn:Hex; [refused|].
    m_run. left. eexists _, _, _, _, _, _. split_and!; try done.
    + by apply existsb_id_false.
    + match goal with p : (list _ * Op)%type |- _ => by destruct p end.
Qed.

(** The acknowledgement path, forwards. *)
Lemma receive_own a st (e : OperationEdit Op) own rest (value : V) :
  valid_accepted a = true → acc_epoch a = snap_epoch (st_snapshot st) →
  acc_version a = snap_version (st_snapshot st) + 1 →
  apply_op (snap_value (st_snapshot st)) (acc_operation a) = Ok value →
  st_inFlight st = Some e → acc_id a = edit_id e → st_pending st = own :: rest →
  apply_op (snap_value (st_snapshot st)) (pend_operation own) = Ok value →
  receive a st = (mkState (mkSnapshot (acc_epoch a) (acc_version a) value) rest None
                    (st_undo st) (st_redo st), Ok ()).
Proof.
  intros Hva Hep Hv Happ He Hid Hp Hown. unfold receive, parse.
  rewrite getM_bind, liftM_bind, Hva.
  rewrite (bool_decide_eq_false_2 (acc_epoch a ≠ _)) by (intros Hx; by apply Hx).
  rewrite (proj2 (Z.leb_gt _ _)) by lia. rewrite (proj2 (Z.eqb_eq _ _)) by done. simpl.
  rewrite liftM_bind, Happ. unfold is_own. rewrite He, Hp, bool_decide_eq_true_2 by done.
  rewrite liftM_bind, Hown. by rewrite bool_decide_eq_false_2 by (intros Hx; by apply Hx).
Qed.

(** ** The public calls, as data

    A client drives a session through these; the transport and the field buffer
    call nothing else. *)
Inductive session_call :=
  | CEdit (id : string) (op : Op)
  | CNextEdit
  | CReceive (a : AcceptedOperation Op)
  | CUndo (id : string)
  | CRedo (id : string).

Definition run_call (c : session_call) : M (OperationState V Op) () :=
  match c with
  | CEdit id op => session_edit id op
  | CNextEdit => _ ← nextEdit; mret ()
  | CReceive a => receive a
  | CUndo id => _ ← session_undo id; mret ()
  | CRedo id => _ ← session_redo id; mret ()
  end.

(** A refused call changes nothing. Whatever a session call throws (stale
    delivery, gap, disagreement, duplicate id, an operation that does not
    apply), the session is exactly what it was before: no rejected delivery
    consumes the cursor and no half-applied edit is left behind. *)
Theorem refused_call_changes_nothing c st st' e :
  run_call c st = (st', Throw e) → st' = st.
Proof.
  intros Hrun. destruct c as [id op| |a|id|id]; simpl in Hrun; rewrite ?bindM_bind in Hrun.
  - pose proof (edit_cases id op st) as H. split_cases H; rewrite H in Hrun; by simplify_eq/=.
  - pose proof (nextEdit_cases st) as H. split_cases H; rewrite H in Hrun; by simplify_eq/=.
  - pose proof (receive_cases a st) as H. split_cases H; rewrite H in Hrun; by simplify_eq/=.
  - pose proof (replay_cases id Undo st) as H. unfold session_undo in Hrun.
    split_cases H; rewrite H in Hrun; by simplify_eq/=.
  - pose proof (replay_cases id Redo st) as H. unfold session_redo in Hrun.
    split_cases H; rewrite H in Hrun; by simplify_eq/=.
Qed.

(** A local edit, undo or redo appends at most one operation to the queue. *)
Lemma local_call_shape c id st st' :
  (∃ op, c = CEdit id op) ∨ c = CUndo id ∨ c = CRedo id →
  run_call c st = (st', Ok ()) →
  st_snapshot st' = st_snapshot st ∧ st_inFlight st' = st_inFlight st
  ∧ (st_pending st' = st_pending st ∨ ∃ op, st_pending st' = st_pending st ++ [mkPending id op]).
Proof.
  assert (∀ from r, replay id from st = (st', Ok r) →
    st_snapshot st' = st_snapshot st ∧ st_inFlight st' = st_inFlight st
    ∧ (st_pending st' = st_pending st ∨ ∃ op, st_pending st' = st_pending st ++ [mkPending id op]))
    as Hreplay.
  { intros from r Hr. pose proof (replay_cases id from st) as H.
    split_cases H; rewrite H in Hr; simplify_eq/=; [|by auto].
    destruct from; simpl; split_and!; eauto. }
  intros [[op ->]|[->| ->]] Hrun; simpl in Hrun; rewrite ?bindM_bind in Hrun.
  - pose proof (edit_cases id op st) as H. split_cases H; rewrite H in Hrun; simplify_eq/=. eauto.
  - unfold session_undo in Hrun. destruct (replay id Undo st) as [s1 [r|e]] eqn:Hr; [|done].
    injection Hrun as <-. by eapply Hreplay.
  - unfold session_redo in Hrun. destruct (replay id Redo st) as [s1 [r|e]] eqn:Hr; [|done].
    injection Hrun as <-. by eapply Hreplay.
Qed.

(** ** Well-formed sessions *)

Record session_wf st : Prop := {
  wf_valid : valid_state st = true;
  wf_ids : NoDup (pend_id <$> st_pending st);
  wf_inFlight : ∀ sent, st_inFlight st = Some sent →
    Some (edit_id sent) = head (pend_id <$> st_pending st)
    ∧ edit_epoch sent = snap_epoch (st_snapshot st)
    ∧ edit_baseVersion sent ≤ snap_version (st_snapshot st);
  wf_value : ∃ v, session_value st = Ok v;
}.

Lemma new_session_ok input st :
  new_session input = Ok st ↔ st = input ∧ session_wf input.
Proof.
  unfold new_session. split.
  - intros H. result_inv. apply parse_ok in Ha as [-> Hv]. bool_simpl.
    split; [done|]. split; try done; [|by eauto].
    intros sent Hs. rewrite Hs in Ha1. result_inv. bool_simpl. by subst.
  - intros (-> & [Hv Hn Hf [v Hval]]). unfold parse. rewrite Hv; simpl.
    rewrite bool_decide_eq_true_2 by done; simpl.
    destruct (st_inFlight input) as [sent|]; simpl; [|by rewrite Hval].
    destruct (Hf _ eq_refl) as (-> & -> & Hb).
    rewrite !(bool_decide_eq_false_2 (_ ≠ _)) by (intros Hx; by apply Hx).
    rewrite (proj2 (Z.ltb_ge _ _)) by done. simpl. by rewrite Hval.
Qed.

Lemma rebase_pending_ids p r p' r' :
  rebase_pending (V:=V) p r = Ok (p', r') → pend_id <$> p' = pend_id <$> p.
Proof.
  revert r p' r'; induction p as [|l rest IH]; intros r p' r'; simpl.
  - by intros [= <- <-].
  - intros H. result_inv. csimpl. f_equal.
    match goal with x : (list _ * Op)%type |- _ => destruct x; eauto end.
Qed.

Definition valid_pending (p : PendingOperation Op) : bool :=
  valid_key (pend_id p) && valid_operation (pend_operation p).

Lemma valid_state_parts st :
  valid_state st = true ↔
  valid_snapshot (st_snapshot st) = true ∧ forallb valid_pending (st_pending st) = true
  ∧ (∀ sent, st_inFlight st = Some sent → valid_edit sent = true)
  ∧ forallb valid_operation (st_undo st) = true ∧ forallb valid_operation (st_redo st) = true.
Proof.
  unfold valid_state. rewrite !andb_true_iff. destruct (st_inFlight st); naive_solver.
Qed.

Section Closed.
Context `{!ClosedDomain V Op}.

Lemma transform_stack_valid l op l' :
  forallb valid_operation l = true → transform_stack (V:=V) l op = Ok l' →
  forallb valid_operation l' = true.
Proof.
  unfold transform_stack. revert l'; induction l as [|o l IH]; simpl; intros l' Hv H.
  - by injection H as <-.
  - bool_simpl. result_inv. simpl. apply andb_true_iff; eauto using transform_valid.
Qed.

Lemma rebase_pending_valid p r p' r' :
  forallb valid_pending p = true → valid_operation r = true →
  rebase_pending (V:=V) p r = Ok (p', r') →
  forallb valid_pending p' = true ∧ valid_operation r' = true.
Proof.
  revert r p' r'; induction p as [|l rest IH]; intros r p' r' Hp Hr; simpl in *.
  - by intros [= <- <-].
  - intros H. unfold valid_pending in Hp at 1. bool_simpl. result_inv.
    match goal with x : (list _ * Op)%type |- _ => destruct x as [p1 r1] end. simpl.
    edestruct IH as [Hp1 Hr1]; [done| |done|]; [by eapply transform_valid|].
    split; [|done]. unfold valid_pending at 1; simpl. rewrite !andb_true_iff.
    split_and!; eauto using transform_valid.
Qed.

Lemma push_pending_wf st id op undo redo (v v' : V) :
  session_wf st →
  valid_edit (mkEdit id (snap_epoch (st_snapshot st)) (snap_version (st_snapshot st)) op) = true →
  id ∉ pend_id <$> st_pending st →
  session_value st = Ok v → apply_op v op = Ok v' →
  forallb valid_operation undo = true → forallb valid_operation redo = true →
  session_wf (push_pending st id op undo redo).
Proof.
  intros [Hv Hn Hf _] He Hid Hval Happ Hu Hr. unfold valid_edit in He; simpl in He. bool_simpl.
  apply valid_state_parts in Hv as (? & ? & ? & _ & _). split; simpl.
  - apply valid_state_parts; simpl. split_and!; try done.
    rewrite forallb_app; simpl. unfold valid_pending at 2; simpl. rewrite !andb_true_iff. auto.
  - rewrite fmap_app, NoDup_app; csimpl. split_and!; [done| |apply NoDup_singleton].
    by intros x Hx ->%list_elem_of_singleton.
  - intros sent Hs. apply Hf in Hs as (? & ? & ?). split_and!; try done.
    destruct (st_pending st); simpl in *; congruence.
  - exists v'. unfold session_value; simpl. rewrite foldM_snoc.
    unfold session_value in Hval. by rewrite Hval.
Qed.

Lemma set_stack_wf k l st :
  session_wf st → forallb valid_operation l = true → session_wf (set_stack k l st).
Proof.
  intros [Hv Hn Hf Hval] Hl. apply valid_state_parts in Hv as (? & ? & ? & ? & ?).
  destruct k; split; try done; apply valid_state_parts; by split_and!.
Qed.

Lemma valid_invert (v : V) op inverse :
  valid_operation op = true → invert_op v op = Ok inverse → forallb valid_operation [inverse] = true.
Proof. intros Ho Hi. simpl. rewrite andb_true_r. by eapply invert_valid. Qed.

Lemma edit_wf id op st : session_wf st → session_wf (session_edit id op st).1.
Proof.
  intros Hwf. pose proof (edit_cases id op st) as H. split_cases H; rewrite H; simpl; [|done].
  pose proof (wf_valid _ Hwf) as Hv. apply valid_state_parts in Hv as (? & ? & ? & ? & ?).
  eapply push_pending_wf; try done. rewrite forallb_app, andb_true_iff.
  split; [eapply transform_stack_valid; [|eassumption]; done|]. eapply valid_invert; [|done].
  unfold valid_edit in *; simpl in *. by bool_simpl.
Qed.

Lemma nextEdit_wf st : session_wf st → session_wf (nextEdit st).1.
Proof.
  intros Hwf. pose proof (nextEdit_cases st) as H. split_cases H; rewrite H; simpl; [done..|].
  destruct Hwf as [Hv Hn Hf Hval]. apply valid_state_parts in Hv as (Hs & Hp & ? & ? & ?).
  pose proof Hs as Hs'. unfold valid_snapshot in Hs'. pose proof Hp as Hp'. rewrite Hc0 in Hp'.
  simpl in Hp'. unfold valid_pending in Hp' at 1. bool_simpl. split; simpl; try done.
  - apply valid_state_parts; simpl. split_and!; try done. intros sent [= <-].
    unfold valid_edit; simpl. by rewrite !andb_true_iff.
  - intros sent [= <-]; simpl. rewrite Hc0. split_and!; [done..|lia].
Qed.

Lemma receive_wf a st : session_wf st → session_wf (receive a st).1.
Proof.
  intros Hwf. pose proof Hwf as [Hv Hn Hf Hval]. apply valid_state_parts in Hv as (Hs & Hp & Hi & Hu & Hr).
  assert (∀ value, valid_accepted a = true →
    apply_op (snap_value (st_snapshot st)) (acc_operation a) = Ok value →
    valid_snapshot (mkSnapshot (acc_epoch a) (acc_version a) value) = true) as Hsnap.
  { intros value Ha Hop. unfold valid_accepted in Ha. bool_simpl. unfold valid_snapshot; simpl.
    rewrite !andb_true_iff. eauto using apply_valid. }
  pose proof (receive_cases a st) as H. split_cases H; rewrite H; simpl; [done| | |done].
  - rewrite Hc4 in *. simpl in Hp. bool_simpl. split; simpl.
    + apply valid_state_parts; simpl. by split_and!; eauto.
    + by apply NoDup_cons in Hn as [_ ?].
    + done.
    + destruct Hval as [v Hval]. unfold session_value in Hval. rewrite Hc4 in Hval; simpl in Hval.
      change (apply_pending (snap_value (st_snapshot st)) own = Ok value) in Hc5.
      rewrite Hc5 in Hval. by exists v.
  - assert (valid_operation (acc_operation a) = true).
    { unfold valid_accepted in *. by bool_simpl. }
    destruct (rebase_pending_valid _ _ _ _ Hp ltac:(done) Hc5) as [Hp' Hr'].
    pose proof (rebase_pending_ids _ _ _ _ Hc5) as Hids. split; simpl.
    + apply valid_state_parts; simpl. split_and!; eauto.
      * eapply transform_stack_valid; [|exact Hc6]; done.
      * eapply transform_stack_valid; [|exact Hc7]; done.
    + by rewrite Hids.
    + intros sent Hsent. rewrite Hids. apply Hf in Hsent as (? & ? & ?).
      split_and!; [done|congruence|lia].
    + by exists v'.
Qed.

Lemma replay_wf id from st : session_wf st → session_wf (replay id from st).1.
Proof.
  intros Hwf. pose proof (replay_cases id from st) as H. split_cases H; rewrite H; simpl; [|done..].
  pose proof (wf_valid _ Hwf) as Hv. apply valid_state_parts in Hv as (? & ? & ? & ? & ?).
  assert (forallb valid_operation undo = true) by (eapply transform_stack_valid; [|eassumption]; done).
  assert (forallb valid_operation redo = true) by (eapply transform_stack_valid; [|eassumption]; done).
  assert (session_wf (push_pending st id op undo redo)) by (by eapply push_pending_wf).
  assert (forallb valid_operation [inverse] = true).
  { eapply valid_invert; [|eassumption]. unfold valid_edit in *; simpl in *. by bool_simpl. }
  assert (∀ l, forallb valid_operation l = true → forallb valid_operation (removelast l) = true).
  { induction l as [|x [|y l] IH]; simpl; [done..|]. intros ?. bool_simpl.
    apply andb_true_iff; split; [done|]. apply IH. simpl. by apply andb_true_iff. }
  destruct from; (apply set_stack_wf; [apply set_stack_wf; [done|by simpl; auto]|]);
    simpl; rewrite forallb_app; apply andb_true_iff; auto.
Qed.

Lemma run_call_wf c st : session_wf st → session_wf (run_call c st).1.
Proof.
  intros Hwf. destruct c as [id op| |a|id|id]; simpl.
  - by apply edit_wf.
  - pose proof (nextEdit_wf st Hwf) as Hn. rewrite bindM_bind. by destruct (nextEdit st) as [? [|]].
  - by apply receive_wf.
  - pose proof (replay_wf id Undo st Hwf) as Hn. rewrite bindM_bind. unfold session_undo.
    by destruct (replay id Undo st) as [? [|]].
  - pose proof (replay_wf id Redo st Hwf) as Hn. rewrite bindM_bind. unfold session_redo.
    by destruct (replay id Redo st) as [? [|]].
Qed.

Definition run_calls (cs : list session_call) st : OperationState V Op :=
  foldl (λ st c, (run_call c st).1) st cs.

(** Crash recovery. Whatever calls a session has seen, successful or refused,
    the state it exports is accepted by the constructor and gives back the same
    session: pending ids stay unique, the edit in flight stays the head of the
    queue on the current epoch, and the optimistic value stays defined. *)
Theorem exported_state_reopens cs input st :
  new_session input = Ok st →
  new_session (run_calls cs st) = Ok (run_calls cs st).
Proof.
  intros H. apply new_session_ok in H as [-> Hwf]. apply new_session_ok; split; [done|].
  revert input Hwf; induction cs as [|c cs IH]; intros input Hwf; simpl; [done|].
  by apply IH, run_call_wf.
Qed.

End Closed.
(** ** What the methods do to the optimistic value *)

Lemma session_value_push st id op undo redo (v : V) :
  session_value st = Ok v → session_value (push_pending st id op undo redo) = apply_op v op.
Proof.
  unfold session_value; simpl. intros Hv. rewrite foldM_snoc, Hv. done.
Qed.

(** Rebasing the queue closes the diamond along the whole queue. *)
Lemma rebase_pending_diamond `{!TransformLaw V Op} pending (remote : Op) pending' remote' (v v1 w w' : V) :
  apply_op v remote = Ok v1 →
  foldM apply_pending v pending = Ok w →
  rebase_pending pending remote = Ok (pending', remote') →
  foldM apply_pending v1 pending' = Ok w' →
  apply_op w remote' = Ok w'.
Proof.
  revert remote pending' v v1; induction pending as [|l rest IH]; intros remote pending' v v1; simpl.
  - by intros Hr [= ->] [= <- <-] [= ->].
  - intros Hr Hf Hreb Hf'. apply bind_ok in Hf as (va & Hva & Hf).
    apply bind_ok in Hreb as (o & Ho & Hreb). apply bind_ok in Hreb as (r & Hr' & Hreb).
    apply bind_ok in Hreb as ([p1 r1] & Hreb & [= <- <-]). simpl in Hf'.
    apply bind_ok in Hf' as (vb & Hvb & Hf'). unfold apply_pending in Hva, Hvb; simpl in Hvb.
    pose proof (transform_diamond _ _ _ _ _ _ _ Hva Hr Ho Hr') as Hd.
    rewrite Hvb in Hd; simpl in Hd. destruct (apply_op va r) as [x|] eqn:Hx; [|done].
    injection Hd as <-. by eapply IH.
Qed.

(** C4: A remote edit reaches the user's screen exactly once. When a delivery
    that is not our own acknowledgement is accepted, the optimistic value becomes
    the previous optimistic value with one operation applied: the remote
    operation transformed past every pending local edit. No local edit is lost
    and none is replayed, provided the domain's transform has the diamond
    property. *)
Theorem remote_delivery_applies_once `{!TransformLaw V Op} a st st' v :
  session_value st = Ok v →
  is_own a st = false → acc_version a = snap_version (st_snapshot st) + 1 →
  receive a st = (st', Ok ()) →
  ∃ pending remote v',
    rebase_pending (st_pending st) (acc_operation a) = Ok (pending, remote)
    ∧ st_pending st' = pending ∧ pend_id <$> pending = pend_id <$> st_pending st
    ∧ st_inFlight st' = st_inFlight st
    ∧ apply_op v remote = Ok v' ∧ session_value st' = Ok v'.
Proof.
  intros Hv Hown Hver Hrun. pose proof (receive_cases a st) as H. split_cases H.
  - lia.
  - congruence.
  - rewrite H in Hrun. injection Hrun as <-. exists pending, remote, v'.
    split_and!; try done; [by eapply rebase_pending_ids|].
    by eapply rebase_pending_diamond.
  - rewrite H in Hrun. by simplify_eq/=.
Qed.

Lemma edit_ok id op st st1 v :
  session_edit id op st = (st1, Ok ()) → session_value st = Ok v →
  ∃ v1 inverse undo, apply_op v op = Ok v1 ∧ invert_op v op = Ok inverse
    ∧ session_value st1 = Ok v1 ∧ stack_of Undo st1 = undo ++ [inverse].
Proof.
  intros He Hv. pose proof (edit_cases id op st) as H.
  split_cases H; rewrite H in He; [|by simplify_eq/=].
  injection He as <-. rewrite Hv in Hc1. injection Hc1 as <-.
  exists v', inverse, undo. split_and!; try done. by rewrite (session_value_push _ _ _ _ _ v).
Qed.

Lemma session_value_stack k l st : session_value (set_stack k l st) = session_value st.
Proof. by destruct k. Qed.

Lemma stack_of_set k l st : stack_of k (set_stack k l st) = l.
Proof. by destruct k. Qed.

Lemma replay_ok id from st st1 v :
  replay id from st = (st1, Ok true) → session_value st = Ok v →
  ∃ init op v1 inverse saved, stack_of from st = init ++ [op]
    ∧ apply_op v op = Ok v1 ∧ invert_op v op = Ok inverse
    ∧ session_value st1 = Ok v1 ∧ stack_of (other from) st1 = saved ++ [inverse].
Proof.
  intros Hr Hv. pose proof (replay_cases id from st) as H.
  split_cases H; rewrite H in Hr; [|by simplify_eq/=..].
  injection Hr as <-. rewrite Hv in Hc2. injection Hc2 as <-.
  eexists init, op, v', inverse, _. split_and!; try done.
  - by rewrite !session_value_stack, (session_value_push _ _ _ _ _ v).
  - by rewrite stack_of_set.
Qed.

(** Undo takes back the last edit. Undoing right after an edit gives the
    optimistic value from before it, and redoing right after that gives the
    edited value again, whatever other edits are still pending. *)
Theorem undo_redo_round_trip `{!InvertLaw V Op} id id1 id2 op st st1 st2 st3 v :
  session_value st = Ok v →
  session_edit id op st = (st1, Ok ()) →
  session_undo id1 st1 = (st2, Ok true) →
  session_redo id2 st2 = (st3, Ok true) →
  ∃ v1, apply_op v op = Ok v1 ∧ session_value st1 = Ok v1
    ∧ session_value st2 = Ok v ∧ session_value st3 = Ok v1.
Proof.
  intros Hv He Hu Hr.
  destruct (edit_ok _ _ _ _ _ He Hv) as (v1 & inv & l & Ha & Hi & Hv1 & Hs1).
  destruct (replay_ok _ _ _ _ _ Hu Hv1) as (l1 & o1 & w1 & inv1 & l1' & Hl1 & Ha1 & Hi1 & Hw1 & Hs2).
  rewrite Hs1 in Hl1. apply app_inj_tail in Hl1 as [_ <-].
  pose proof (invert_applies _ _ _ _ Ha Hi) as Hback. rewrite Hback in Ha1. injection Ha1 as <-.
  destruct (replay_ok _ _ _ _ _ Hr Hw1) as (l2 & o2 & w2 & inv2 & l2' & Hl2 & Ha2 & Hi2 & Hw2 & _).
  simpl in Hs2, Hl2. rewrite Hs2 in Hl2. apply app_inj_tail in Hl2 as [_ <-].
  pose proof (invert_applies _ _ _ _ Hback Hi1) as Hforth. rewrite Hforth in Ha2. injection Ha2 as <-.
  by exists v1.
Qed.

End SessionFacts.
