(* ===== verification/OpContext.v ===== *)
(** * Queued edits and their context

    [commit/operations/context.ts] and [model.ts]: the authoring context a
    durable mutation record keeps, how it is rebased on the accepted history, how
    an operation is appended to it, and how queued edits are projected onto a
    value or an accepted edit is turned into its inverse. *)
From S2P Require Import Prelude OpContract OpHistory OpSession.

Section Context.
Context {V Op : Type} `{!EqDecision V} `{!OperationDomain V Op}.
Implicit Types (h : OperationHistory V Op) (e : OperationEdit Op) (a : AcceptedOperation Op).

Record OperationContext := mkContext {
  ctx_snapshot : OperationSnapshot V;
  ctx_pending : list (PendingOperation Op);
}.

Definition context_of (st : OperationState V Op) : OperationContext :=
  mkContext (st_snapshot st) (st_pending st).
Definition state_of (c : OperationContext) : OperationState V Op :=
  state_of_parts (ctx_snapshot c) (ctx_pending c).

(** The loop over [history.edits]: skip what the snapshot holds, otherwise seal
    the head and receive. [from] is [context.snapshot.version]. *)
Fixpoint replay_edits (from : Z) (edits : list (AcceptedOperation Op))
    : M (OperationState V Op) () :=
  match edits with
  | [] => mret ()
  | edit :: rest =>
      if acc_version edit <=? from then replay_edits from rest
      else
        _ ← nextEdit;
        _ ← receive edit;
        replay_edits from rest
  end.

(** A method run to its end: what it leaves, or what it throws. *)
Definition run_to {A} (m : M (OperationState V Op) A) (st : OperationState V Op)
    : result (OperationState V Op) :=
  match m st with (st', Ok _) => Ok st' | (_, Throw err) => Throw err end.

Definition rebaseOperationContext (input : OperationContext) (accepted : OperationHistory V Op)
    : result OperationContext :=
  history ← parse valid_history accepted;
  head ← foldOperationHistory history;
  context ← parse valid_state (state_of input);
  let version := snap_version (st_snapshot context) in
  _ ← guard_or (negb (bool_decide (snap_epoch (st_snapshot context) ≠ snap_epoch head)
                      || (version <? snap_version (hist_base history))
                      || (snap_version head <? version))) stale;
  basis ← foldOperationHistory
            (mkHistory (hist_base history)
               (base.filter (λ edit, acc_version edit <= version) (hist_edits history)));
  _ ← guard_or (bool_decide (snap_value basis = snap_value (st_snapshot context))) stale;
  session ← new_session context;
  st ← run_to (replay_edits version (hist_edits history)) session;
  Ok (context_of st).

Definition appendContextOperation (context : OperationContext) (id : string) (operation : Op)
    : result OperationContext :=
  session ← new_session (state_of context);
  st ← run_to (session_edit id operation) session;
  Ok (context_of st).

Definition appendIndependentOperation (context : OperationContext) h (input : OperationEdit Op)
    : result OperationContext :=
  edit ← parse valid_edit input;
  if existsb (λ accepted, bool_decide (acc_id accepted = edit_id edit)
                          && bool_decide (acc_epoch accepted = edit_epoch edit)) (hist_edits h)
  then Ok context
  else
    accepted ← reconcileOperation h edit (snap_value (ctx_snapshot context));
    operation ← foldM (λ o (previous : PendingOperation Op),
                         transform_op o (pend_operation previous) right_side)
                  (acc_operation accepted) (ctx_pending context);
    appendContextOperation context (edit_id edit) operation.

Definition prepareContextOperation (context : OperationContext) h (id : string)
    : result (OperationEdit Op) :=
  rebased ← rebaseOperationContext context h;
  match ctx_pending rebased with
  | first :: _ =>
      if bool_decide (pend_id first ≠ id) then Throw stale
      else parse valid_edit (mkEdit (pend_id first) (snap_epoch (ctx_snapshot rebased))
                               (snap_version (ctx_snapshot rebased)) (pend_operation first))
  | [] => Throw stale
  end.

(** ** Projection ([model.ts]) *)

(** The loop of [projectFieldEdits] over the queued edits. *)
Fixpoint project_loop (projected : OperationHistory V Op) (head : OperationSnapshot V)
    (edits : list (OperationEdit Op)) : result (OperationHistory V Op * OperationSnapshot V) :=
  match edits with
  | [] => Ok (projected, head)
  | input :: rest =>
      edit ← parse valid_edit input;
      match find (λ accepted, bool_decide (acc_id accepted = edit_id edit)) (hist_edits projected) with
      | Some acceptedEdit =>
          if bool_decide (acc_epoch acceptedEdit ≠ edit_epoch edit) then Throw stale
          else project_loop projected head rest
      | None =>
          accepted ← reconcileOperation projected edit (snap_value head);
          value ← apply_op (snap_value head) (acc_operation accepted);
          project_loop (mkHistory (hist_base projected) (hist_edits projected ++ [accepted]))
            (mkSnapshot (acc_epoch accepted) (acc_version accepted) value) rest
      end
  end.

Definition projectFieldEdits h (edits : list (OperationEdit Op)) : result V :=
  projected ← parse valid_history h;
  head ← foldOperationHistory projected;
  out ← project_loop projected head edits;
  Ok (snap_value out.2).

(** The loop of [invertAcceptedFieldEdit]: walk to the edit, tracking the value. *)
Fixpoint find_and_invert (value : V) (editId inverseId : string)
    (edits : list (AcceptedOperation Op)) : result (OperationEdit Op) :=
  match edits with
  | [] => Throw stale
  | edit :: rest =>
      if bool_decide (acc_id edit = editId) then
        operation ← invert_op value (acc_operation edit);
        parse valid_edit (mkEdit inverseId (acc_epoch edit) (acc_version edit) operation)
      else
        value' ← apply_op value (acc_operation edit);
        find_and_invert value' editId inverseId rest
  end.

Definition invertAcceptedFieldEdit (input : OperationHistory V Op) (editId inverseId : string)
    : result (OperationEdit Op) :=
  history ← parse valid_history input;
  _ ← foldOperationHistory history;
  find_and_invert (snap_value (hist_base history)) editId inverseId (hist_edits history).

End Context.
Arguments OperationContext V Op : clear implicits.

(** ** What rebasing, preparing and projecting promise *)

Section ContextFacts.
Context {V Op : Type} `{!EqDecision V} `{!OperationDomain V Op}.
Implicit Types (h : OperationHistory V Op) (e : OperationEdit Op) (st : OperationState V Op).

(** A received successor advances the snapshot and keeps the queue's ids, less
    the head when it is the client's own. *)
Lemma receive_advances a st st' :
  receive a st = (st', Ok ()) → snap_version (st_snapshot st) < acc_version a →
  ∃ (value : V) n, apply_op (snap_value (st_snapshot st)) (acc_operation a) = Ok value
    ∧ st_snapshot st' = mkSnapshot (acc_epoch a) (acc_version a) value
    ∧ pend_id <$> st_pending st' = drop n (pend_id <$> st_pending st).
Proof.
  intros Hr Hlt. pose proof (receive_cases a st) as H. split_cases H; rewrite H in Hr; simplify_eq/=.
  - lia.
  - exists value, 1%nat. split_and!; [done..|]. by rewrite Hc4.
  - exists value, 0%nat. split_and!; [done..|]. rewrite drop_0. by eapply rebase_pending_ids.
Qed.

Lemma nextEdit_keeps st st' r :
  nextEdit st = (st', r) → st_snapshot st' = st_snapshot st ∧ st_pending st' = st_pending st.
Proof.
  intros Hr. pose proof (nextEdit_cases st) as H. split_cases H; rewrite H in Hr; by simplify_eq/=.
Qed.

Lemma replay_edits_reaches from edits st st' ids head :
  replay_edits from edits st = (st', Ok ()) →
  from ≤ snap_version (st_snapshot st) →
  fold_edits (st_snapshot st) ids edits = Ok head →
  st_snapshot st' = head ∧ ∃ n, pend_id <$> st_pending st' = drop n (pend_id <$> st_pending st).
Proof.
  revert st ids; induction edits as [|a rest IH]; intros st ids; simpl.
  - intros [= ->] _ [= <-]. split; [done|]. by exists 0%nat.
  - destruct (_ || _) eqn:Hg; [done|]. bool_simpl. intros Hrun Hle Hf.
    rewrite (proj2 (Z.leb_gt _ _)) in Hrun by lia.
    apply bind_ok in Hf as (v0 & Ha & Hf).
    rewrite !bindM_bind in Hrun. destruct (nextEdit st) as [st1 [o|]] eqn:Hn; [|done].
    apply nextEdit_keeps in Hn as [Hs1 Hp1].
    rewrite bindM_bind in Hrun. destruct (receive a st1) as [st2 [[]|]] eqn:Hr; [|done].
    apply receive_advances in Hr as (v & n & Hv & Hs2 & Hids); [|rewrite Hs1; lia].
    rewrite Hs1, Ha in Hv. injection Hv as ->.
    apply (IH _ ({[acc_id a]} ∪ ids)) in Hrun as (-> & k & ->); [| |by rewrite Hs2].
    + split; [done|]. exists (n + k)%nat. by rewrite Hids, Hp1, drop_drop.
    + rewrite Hs2; simpl. lia.
Qed.

Lemma replay_edits_wf `{!ClosedDomain V Op} from edits st :
  session_wf st → session_wf (replay_edits from edits st).1.
Proof.
  revert st; induction edits as [|a rest IH]; intros st Hwf; simpl; [done|].
  destruct (_ <=? _); [by apply IH|]. rewrite bindM_bind.
  pose proof (nextEdit_wf st Hwf) as H1. destruct (nextEdit st) as [st1 [o|]]; [|done].
  rewrite bindM_bind. pose proof (receive_wf a st1 H1) as H2.
  destruct (receive a st1) as [st2 [u|]]; [|done]. by apply IH.
Qed.

(** Edits the snapshot already holds are skipped. *)
Lemma replay_edits_skip from l1 l2 :
  Forall (λ a, acc_version a ≤ from) l1 → replay_edits from (l1 ++ l2) = replay_edits from l2.
Proof.
  induction 1 as [|a l1 Ha _ IH]; simpl; [done|]. by rewrite (proj2 (Z.leb_le _ _)).
Qed.

Lemma filter_versions (s : OperationSnapshot V) (edits : list (AcceptedOperation Op)) v :
  contiguous s edits → snap_version s ≤ v →
  base.filter (λ a, acc_version a ≤ v) edits = take (Z.to_nat (v - snap_version s)) edits.
Proof.
  revert s; induction edits as [|a rest IH]; intros s; simpl; [by destruct (Z.to_nat _)|].
  intros (He & Hv & Hc) Hle. rewrite filter_cons. destruct (decide (acc_version a ≤ v)) as [Ha|Ha].
  - rewrite (IH _ Hc) by (simpl; lia); simpl.
    replace (Z.to_nat (v - snap_version s)) with (S (Z.to_nat (v - acc_version a))) by lia. done.
  - replace (Z.to_nat (v - snap_version s)) with 0%nat by lia.
    assert (∀ b, b ∈ rest → ¬ acc_version b ≤ v) as Hall.
    { intros b [i Hi]%list_elem_of_lookup_1. apply (contiguous_lookup _ _ _ _ Hc) in Hi as [_ Hb].
      simpl in Hb. lia. }
    simpl. clear -Hall. induction rest as [|b rest IH]; [done|].
    rewrite filter_cons, decide_False by (apply Hall; by left).
    apply IH. intros; apply Hall; by right.
Qed.

(** The session a rebase ends with. *)
Lemma rebase_inv ctx h ctx' :
  rebaseOperationContext ctx h = Ok ctx' →
  ∃ (head : OperationSnapshot V) st,
    foldOperationHistory h = Ok head ∧ ctx' = context_of st ∧ st_snapshot st = head
    ∧ (∃ n, pend_id <$> st_pending st = drop n (pend_id <$> ctx_pending ctx))
    ∧ (ClosedDomain V Op → session_wf st).
Proof.
  unfold rebaseOperationContext. intros H. result_inv.
  repeat match goal with H : parse _ _ = Ok _ |- _ => apply parse_ok in H as [-> ?] end.
  match goal with H : new_session _ = Ok _ |- _ => apply new_session_ok in H as [-> Hwf] end.
  match goal with H : run_to _ _ = Ok ?s |- _ => rename H into Hrun; rename s into st end.
  match goal with H : foldOperationHistory h = Ok ?s |- _ => rename H into Hf; rename s into head end.
  match goal with H : foldOperationHistory (mkHistory _ (base.filter _ _)) = Ok ?s |- _ =>
    rename H into Hb; rename s into basis end.
  simpl in *. bool_simpl. set (v := snap_version (ctx_snapshot ctx)) in *.
  unfold run_to in Hrun. destruct (replay_edits v (hist_edits h) _) as [st' [[]|]] eqn:Hrep; [|done].
  injection Hrun as ->. destruct h as [b edits]; simpl in *.
  pose proof Hf as Hf'. apply foldOperationHistory_ok in Hf' as [_ Hf'].
  apply fold_edits_spec in Hf' as (Hc & _); simpl in Hc.
  rewrite (filter_versions _ _ v Hc) in Hb by lia. set (k := Z.to_nat (v - snap_version b)) in *.
  apply (fold_prefix _ _ k) in Hf as Hp. destruct Hp as (mid & Hm & Hrest).
  rewrite Hb in Hm. injection Hm as <-.
  pose proof (fold_version _ _ Hf) as Hlen. pose proof (fold_version _ _ Hb) as Hvb.
  pose proof (fold_epoch _ _ Hf) as Hef. pose proof (fold_epoch _ _ Hb) as Heb.
  simpl in *. rewrite length_take in Hvb.
  assert (basis = ctx_snapshot ctx) as ->.
  { destruct basis, (ctx_snapshot ctx); simpl in *. subst v. f_equal; [congruence|lia|congruence]. }
  exists head, st. split; [done|]. split; [done|].
  rewrite <- (take_drop k edits), replay_edits_skip in Hrep.
  - pose proof (replay_edits_reaches _ _ _ _ _ _ Hrep (Z.le_refl _) Hrest) as [-> Hids].
    split_and!; [done|exact Hids|]. intros Hcl.
    pose proof (replay_edits_wf v (drop k edits) _ Hwf) as Hw. by rewrite Hrep in Hw.
  - apply Forall_forall. intros a [i Hi]%list_elem_of_lookup_1.
    apply lookup_take_Some in Hi as [Hi ?].
    apply (contiguous_lookup _ _ _ _ Hc) in Hi as [_ ->]. lia.
Qed.

(** Restarting from durable intent. A queued context that rebases lands on
    the head of the accepted history, keeps its pending edits in order less the
    acknowledged prefix, and is itself a context the session constructor accepts. *)
Theorem rebase_reaches_head `{!ClosedDomain V Op} ctx h ctx' :
  rebaseOperationContext ctx h = Ok ctx' →
  ∃ head n, foldOperationHistory h = Ok head ∧ ctx_snapshot ctx' = head
    ∧ pend_id <$> ctx_pending ctx' = drop n (pend_id <$> ctx_pending ctx)
    ∧ new_session (state_of ctx') = Ok (state_of ctx').
Proof.
  intros H. apply rebase_inv in H as (head & st & Hf & -> & Hs & [n Hn] & Hwf).
  exists head, n. split_and!; [done..|]. apply new_session_ok. split; [done|].
  destruct (Hwf _) as [Hv Hnd _ [v Hval]]. apply valid_state_parts in Hv as (? & ? & _).
  split; [|done|done|by exists v]. apply valid_state_parts; by split_and!.
Qed.

(** A prepared edit is one the authority accepts as written. What
    [prepareContextOperation] seals carries the requested id, the journal's epoch
    and its head version; and unless the journal is full or holds the id, the
    authority reconciles it to the same operation. *)
Theorem prepared_edit_is_accepted `{!ClosedDomain V Op} ctx h id e :
  prepareContextOperation ctx h id = Ok e →
  ∃ head, foldOperationHistory h = Ok head
    ∧ edit_id e = id ∧ edit_epoch e = snap_epoch head ∧ edit_baseVersion e = snap_version head
    ∧ (id ∉ acc_ids (hist_edits h) → snap_version head < MAX_SAFE_INTEGER →
       reconcileOperation h e (snap_value head)
       = Ok (mkAccepted id (snap_epoch head) (snap_version head + 1) (edit_operation e))).
Proof.
  unfold prepareContextOperation. intros H. apply bind_ok in H as (ctx' & Hr & H).
  apply rebase_inv in Hr as (head & st & Hf & -> & Hs & _ & Hwf). exists head. simpl in H.
  destruct (st_pending st) as [|p rest] eqn:Hp; [done|].
  destruct (bool_decide _) eqn:Hid; [done|]. bool_simpl. apply parse_ok in H as [-> Hve].
  simpl in *. rewrite Hs in *. split_and!; try done. intros Hnin Hmax.
  destruct (Hwf _) as [_ _ _ [v Hval]]. unfold session_value in Hval. rewrite Hp, Hs in Hval.
  simpl in Hval. apply bind_ok in Hval as (v1 & Hv1 & _). unfold apply_pending in Hv1.
  unfold reconcileOperation, parse. rewrite Hve; simpl. rewrite Hf; simpl.
  rewrite (bool_decide_eq_true_2 (_ = _)) by done; simpl.
  rewrite (bool_decide_eq_false_2 (_ ≠ _)) by (intros Hx; by apply Hx). simpl.
  pose proof (fold_version _ _ Hf) as Hver.
  rewrite (proj2 (Z.ltb_ge _ _)) by lia. rewrite Z.ltb_irrefl. simpl.
  replace (existsb _ _) with false.
  2:{ symmetry. apply Bool.not_true_iff_false. intros (a & Ha & He)%existsb_exists. bool_simpl.
      apply Hnin. apply elem_of_list_to_set, list_elem_of_fmap. exists a.
      split; [congruence|by apply list_elem_of_In]. }
  simpl. rewrite (proj2 (Z.eqb_neq _ _)) by lia. simpl.
  replace (Z.to_nat (snap_version head - snap_version (hist_base h)))
    with (length (hist_edits h)) by lia.
  rewrite firstn_all, drop_all. destruct h as [b edits]; simpl in *.
  change (transform_over (pend_operation p) []) with (Ok (pend_operation p)).
  destruct requiresHistory; simpl; rewrite ?Hf; simpl; rewrite ?Hv1; simpl; rewrite ?Hv1; simpl;
    by rewrite ?Hid.
Qed.

Lemma project_loop_extends `{!ClosedDomain V Op} edits projected head out :
  foldOperationHistory projected = Ok head →
  project_loop projected head edits = Ok out →
  ∃ extra, out.1 = mkHistory (hist_base projected) (hist_edits projected ++ extra)
    ∧ foldOperationHistory out.1 = Ok out.2
    ∧ acc_id <$> extra `sublist_of` edit_id <$> edits
    ∧ (∀ e, e ∈ edits → edit_id e ∈ acc_ids (hist_edits projected ++ extra)).
Proof.
  revert projected head; induction edits as [|e rest IH]; intros projected head Hf; simpl.
  { intros [= <-]. exists []. rewrite app_nil_r. destruct projected. split_and!; [done..|set_solver]. }
  intros H. apply bind_ok in H as (e' & He & H). apply parse_ok in He as [-> _].
  destruct (find _ _) as [old|] eqn:Hfind.
  - destruct (bool_decide _); [done|]. apply find_some in Hfind as [Hin Hid]. bool_simpl.
    apply (IH _ _ Hf) in H as (extra & Hout & Hfold & Hsub & Hall).
    exists extra. split_and!; [done|done|by constructor|].
    intros e0 [->|He0]%elem_of_cons; [|by apply Hall].
    rewrite <- Hid. apply elem_of_list_to_set, list_elem_of_fmap. exists old. split; [done|].
    apply elem_of_app; left. by apply list_elem_of_In.
  - result_inv.
    match goal with H : reconcileOperation _ _ _ = Ok ?a |- _ => rename a into acc; rename H into Hr end.
    match goal with H : apply_op _ _ = Ok ?a |- _ => rename a into w; rename H into Hw end.
    apply reconcile_extends in Hr as Hr'. destruct Hr' as (hd & v' & Hf' & _ & Hv' & Hext).
    apply reconcile_inv in Hr as (hd2 & v2 & Hf2 & _ & _ & Hep & _ & _ & _ & _ & Hacc & _).
    rewrite Hf in Hf', Hf2. injection Hf' as <-. injection Hf2 as <-.
    rewrite Hw in Hv'. injection Hv' as <-.
    assert (mkSnapshot (acc_epoch acc) (acc_version acc) w = mkSnapshot (snap_epoch head) (snap_version head + 1) w)
      as Hsnap by (rewrite Hacc; simpl; congruence).
    rewrite <- Hsnap in Hext. apply (IH _ _ Hext) in H as (extra & Hout & Hfold & Hsub & Hall).
    simpl in *. rewrite <- app_assoc in Hout, Hall. simpl in *.
    exists (acc :: extra). rewrite Hacc at 2. split_and!; [done|done|by constructor|].
    intros e0 [->|He0]%elem_of_cons; [|by apply Hall].
    apply elem_of_list_to_set, list_elem_of_fmap. exists acc. split; [by rewrite Hacc|set_solver].
Qed.

(** What the screen shows over queued edits is a history the authority could
    have accepted. The projected value is the fold of the accepted history
    followed by operations for the queued edits, in their order; each queued
    edit occurs in that history exactly once, however often it was redelivered. *)
Theorem projection_is_a_history `{!ClosedDomain V Op} h edits v :
  projectFieldEdits h edits = Ok v →
  ∃ extra head, foldOperationHistory (mkHistory (hist_base h) (hist_edits h ++ extra)) = Ok head
    ∧ snap_value head = v
    ∧ acc_id <$> extra `sublist_of` edit_id <$> edits
    ∧ NoDup (acc_id <$> hist_edits h ++ extra)
    ∧ (∀ e, e ∈ edits → edit_id e ∈ acc_id <$> hist_edits h ++ extra).
Proof.
  unfold projectFieldEdits. intros H. result_inv.
  match goal with H : parse _ _ = Ok _ |- _ => apply parse_ok in H as [-> _] end.
  match goal with H1 : foldOperationHistory _ = Ok _, H2 : project_loop _ _ _ = Ok ?o |- _ =>
    apply (project_loop_extends _ _ _ _ H1) in H2 as (extra & Hout & Hf & Hsub & Hall);
    rewrite Hout in Hf; exists extra, (o.2) end.
  split_and!; try done.
  - apply foldOperationHistory_ok in Hf as [_ Hf]. by apply fold_edits_spec in Hf as (_ & Hnd & _).
  - intros e He. apply Hall in He. by apply elem_of_list_to_set in He.
Qed.

Lemma find_and_invert_inv value id inverse edits e :
  find_and_invert value id inverse edits = Ok e →
  ∃ n a (v : V), edits !! n = Some a ∧ acc_id a = id
    ∧ foldM apply_accepted value (take n edits) = Ok v
    ∧ invert_op v (acc_operation a) = Ok (edit_operation e)
    ∧ e = mkEdit inverse (acc_epoch a) (acc_version a) (edit_operation e).
Proof.
  revert value; induction edits as [|a rest IH]; intros value; simpl; [done|].
  case_bool_decide as Hid; intros H; result_inv.
  - apply parse_ok in H as [-> _]. exists 0%nat, a, value. by split_and!.
  - apply IH in H as (n & b & v & Hn & Hb & Hf & Hi & He).
    exists (S n), b, v. split_and!; [done..| |done|done]. simpl. unfold apply_accepted in *.
    match goal with H : apply_op _ _ = Ok _ |- _ => rewrite H end. exact Hf.
Qed.

(** Undoing an accepted edit. The inverse that [invertAcceptedFieldEdit]
    builds sits on the version of the edit it undoes, and applied to the value
    that edit produced gives back the value it was applied to. *)
Theorem accepted_inverse_restores `{!InvertLaw V Op} h editId inverseId e :
  invertAcceptedFieldEdit h editId inverseId = Ok e →
  ∃ n a before after,
    hist_edits h !! n = Some a ∧ acc_id a = editId
    ∧ edit_id e = inverseId ∧ edit_epoch e = acc_epoch a ∧ edit_baseVersion e = acc_version a
    ∧ foldOperationHistory (mkHistory (hist_base h) (take n (hist_edits h))) = Ok before
    ∧ foldOperationHistory (mkHistory (hist_base h) (take (S n) (hist_edits h))) = Ok after
    ∧ snap_version after = edit_baseVersion e
    ∧ apply_op (snap_value after) (edit_operation e) = Ok (snap_value before).
Proof.
  unfold invertAcceptedFieldEdit. intros H. result_inv.
  match goal with H : parse _ _ = Ok _ |- _ => apply parse_ok in H as [-> _] end.
  match goal with H : foldOperationHistory _ = Ok _ |- _ => rename H into Hf end.
  apply find_and_invert_inv in H as (n & a' & v & Hn & Hid & Hv & Hi & He).
  destruct h as [base edits]; simpl in *.
  destruct (fold_prefix _ _ n _ Hf) as (before & Hb & _).
  destruct (fold_prefix _ _ (S n) _ Hf) as (after & Ha' & _).
  exists n, a', before, after. rewrite He; simpl. split_and!; try done.
  - apply fold_version in Ha'. rewrite Ha'. simpl.
    rewrite length_take_le by (apply lookup_lt_Some in Hn; lia).
    apply foldOperationHistory_ok in Hf as [_ Hf]. apply fold_edits_spec in Hf as (Hc & _).
    apply (contiguous_lookup _ _ _ _ Hc) in Hn as [_ ->]. simpl. lia.
  - apply foldOperationHistory_ok in Hb as [_ Hb]. apply foldOperationHistory_ok in Ha' as [_ Ha'].
    apply fold_edits_spec in Hb as (_ & _ & _ & _ & _ & Hbv).
    apply fold_edits_spec in Ha' as (_ & _ & _ & _ & _ & Hav). simpl in *.
    rewrite Hbv in Hv. injection Hv as <-.
    rewrite (take_S_r _ _ _ Hn), foldM_snoc, Hbv in Hav. simpl in Hav. by eapply invert_applies.
Qed.

End ContextFacts.
