(* ===== verification/OpProtocol.v ===== *)
(** * One field, one authority, one optimistic client

    The session of [OpSession] and the journal of [OpHistory] put together. The
    authority accepts edits from this client and from any number of others by
    [reconcileOperation]; the client edits, undoes, seals its next edit with
    [nextEdit], and receives accepted operations in any order and any number of
    times. The steps below are the interleavings; the theorems are about every
    state they reach. *)
From S2P Require Import Prelude OpContract OpHistory OpSession.

Section Protocol.
Context {V Op : Type} `{!EqDecision V} `{!OperationDomain V Op}.

Implicit Types (a acc : AcceptedOperation Op) (e : OperationEdit Op).

Record world := mkWorld {
  w_base : OperationSnapshot V;
  w_edits : list (AcceptedOperation Op);
  w_session : OperationState V Op;
}.

Definition journal (w : world) : OperationHistory V Op := mkHistory (w_base w) (w_edits w).
Definition with_session (w : world) (st : OperationState V Op) : world :=
  mkWorld (w_base w) (w_edits w) st.
Definition with_accepted (w : world) (a : AcceptedOperation Op) : world :=
  mkWorld (w_base w) (w_edits w ++ [a]) (w_session w).
Definition pending_ids (w : world) : list string := pend_id <$> st_pending (w_session w).

(** Ids come from [crypto.randomUUID]: a local edit takes one the journal does
    not hold, and no other client takes one of ours. *)
Inductive step : world → world → Prop :=
  | step_local c id w st :
      (∃ op, c = CEdit id op) ∨ c = CUndo id ∨ c = CRedo id →
      id ∉ acc_ids (w_edits w) →
      run_call c (w_session w) = (st, Ok ()) → step w (with_session w st)
  | step_seal w st :
      run_call CNextEdit (w_session w) = (st, Ok ()) → step w (with_session w st)
  | step_accept_own w e head acc :
      st_inFlight (w_session w) = Some e →
      foldOperationHistory (journal w) = Ok head →
      reconcileOperation (journal w) e (snap_value head) = Ok acc →
      step w (with_accepted w acc)
  | step_accept_other w e head acc :
      edit_id e ∉ pending_ids w →
      foldOperationHistory (journal w) = Ok head →
      reconcileOperation (journal w) e (snap_value head) = Ok acc →
      step w (with_accepted w acc)
  | step_receive w a st :
      a ∈ w_edits w →
      run_call (CReceive a) (w_session w) = (st, Ok ()) → step w (with_session w st).

(** A field is opened on the head of the journal, with an empty queue. *)
Definition opened (w : world) : Prop :=
  foldOperationHistory (journal w) = Ok (st_snapshot (w_session w))
  ∧ w_session w = state_of_parts (st_snapshot (w_session w)) [].

Definition reachable (w : world) : Prop := ∃ w0, opened w0 ∧ rtc step w0 w.

(** How many journal edits the client's snapshot holds. *)
Definition seen (w : world) : nat :=
  Z.to_nat (snap_version (st_snapshot (w_session w)) - snap_version (w_base w)).
Definition index_of_version (w : world) (v : Z) : nat := Z.to_nat (v - snap_version (w_base w)).

(** What the domain makes of the sealed operation [o] after the journal edits
    from [i] up to [j]. *)
Definition carried (w : world) (o : Op) (i j : nat) (o' : Op) : Prop :=
  if requiresHistory then transform_over o (drop i (take j (w_edits w))) = Ok o' else o' = o.

(** The invariant. [inv_snapshot]: the snapshot is the fold of a prefix of the
    journal. [inv_ours]: a journal edit with a pending id is the sealed one, not
    yet seen, and carries what the authority made of it. [inv_head]: the head
    of the queue carries what the client made of the sealed edit so far. *)
Record invariant (w : world) : Prop := {
  inv_wf : session_wf (w_session w);
  inv_journal : ∃ head, foldOperationHistory (journal w) = Ok head;
  inv_seen : (seen w ≤ length (w_edits w))%nat;
  inv_snapshot : foldOperationHistory (mkHistory (w_base w) (take (seen w) (w_edits w)))
                   = Ok (st_snapshot (w_session w));
  inv_ours : ∀ i a, w_edits w !! i = Some a → acc_id a ∈ pending_ids w →
    (seen w ≤ i)%nat ∧ ∃ e, st_inFlight (w_session w) = Some e ∧ acc_id a = edit_id e
      ∧ carried w (edit_operation e) (index_of_version w (edit_baseVersion e)) i (acc_operation a);
  inv_head : ∀ e own rest, st_inFlight (w_session w) = Some e →
    st_pending (w_session w) = own :: rest →
    snap_version (w_base w) ≤ edit_baseVersion e
    ∧ carried w (edit_operation e) (index_of_version w (edit_baseVersion e)) (seen w)
        (pend_operation own);
}.

Lemma seen_version w :
  invariant w → snap_version (st_snapshot (w_session w)) = snap_version (w_base w) + Z.of_nat (seen w).
Proof.
  intros Hi. pose proof (inv_snapshot _ Hi) as Hs. apply fold_version in Hs; simpl in Hs.
  rewrite length_take, Nat.min_l in Hs by apply (inv_seen _ Hi). done.
Qed.

Context `{!ClosedDomain V Op, !PlainDomain V Op}.

Lemma opened_invariant w : opened w → invariant w.
Proof.
  intros [Hf Hs]. pose proof (fold_version _ _ Hf) as Hv. simpl in Hv.
  assert (seen w = length (w_edits w)) as Hseen by (unfold seen; lia).
  pose proof (fold_valid_snapshot _ _ Hf) as Hvs. split.
  - rewrite Hs. split; simpl; [|constructor|done|by eexists].
    apply valid_state_parts. by split_and!.
  - by eexists.
  - lia.
  - rewrite Hseen, firstn_all. exact Hf.
  - unfold pending_ids. rewrite Hs. simpl. intros i a _ Hin. by apply not_elem_of_nil in Hin.
  - rewrite Hs. done.
Qed.

(** [carried] is stable when the journal grows, and extends by one edit. *)
Lemma carried_app w a o i j o' :
  (j ≤ length (w_edits w))%nat → carried w o i j o' → carried (with_accepted w a) o i j o'.
Proof.
  intros Hj. unfold carried; simpl. destruct requiresHistory; [|done]. by rewrite take_app_le.
Qed.

Lemma carried_refl w o i : carried w o i i o.
Proof. unfold carried. rewrite drop_ge; [by destruct requiresHistory|]. rewrite length_take; lia. Qed.

Lemma carried_step w o i j o' a o'' :
  (i ≤ j)%nat → w_edits w !! j = Some a → carried w o i j o' →
  transform_op o' (acc_operation a) right_side = Ok o'' → carried w o i (S j) o''.
Proof.
  intros Hij Ha Hc Ht. unfold carried in *. destruct requiresHistory eqn:Hr.
  - rewrite (take_S_r _ _ _ Ha), drop_app_le.
    2:{ rewrite length_take. apply lookup_lt_Some in Ha. lia. }
    unfold transform_over in *. by rewrite foldM_snoc, Hc.
  - subst o'. by eapply plain_transform.
Qed.

Lemma carried_fun w o i j o1 o2 : carried w o i j o1 → carried w o i j o2 → o1 = o2.
Proof. unfold carried. destruct requiresHistory; congruence. Qed.

(** The queue and the edit in flight are all the invariant reads of a session
    besides its snapshot. *)
Lemma invariant_session w st :
  invariant w → session_wf st → st_snapshot st = st_snapshot (w_session w) →
  (∀ id, id ∈ pend_id <$> st_pending st → id ∈ pending_ids w ∨ id ∉ acc_ids (w_edits w)) →
  (∀ e, st_inFlight st = Some e → ∀ own rest, st_pending st = own :: rest →
     snap_version (w_base w) ≤ edit_baseVersion e
     ∧ carried w (edit_operation e) (index_of_version w (edit_baseVersion e)) (seen w)
         (pend_operation own)) →
  (∀ e, st_inFlight (w_session w) = Some e → st_inFlight st = Some e) →
  invariant (with_session w st).
Proof.
  intros Hi Hwf Hsnap Hids Hhead Hfl.
  assert (seen (with_session w st) = seen w) as Hseen by (unfold seen; simpl; by rewrite Hsnap).
  split; simpl; rewrite ?Hseen, ?Hsnap; try apply Hi; [done| |].
  - unfold pending_ids; simpl. intros i a Ha Hin.
    destruct (Hids _ Hin) as [Hold|Hnew].
    2:{ exfalso. apply Hnew, acc_ids_lookup. by eauto. }
    destruct (inv_ours _ Hi _ _ Ha Hold) as (Hle & e & He & Hid & Hc).
    split; [done|]. exists e. by split_and!; auto.
  - intros e own rest He Hp. by eapply Hhead.
Qed.

Lemma local_invariant c id w st :
  (∃ op, c = CEdit id op) ∨ c = CUndo id ∨ c = CRedo id →
  id ∉ acc_ids (w_edits w) → run_call c (w_session w) = (st, Ok ()) →
  invariant w → invariant (with_session w st).
Proof.
  intros Hc Hid Hrun Hi.
  assert (session_wf st) as Hwf.
  { pose proof (run_call_wf c _ (inv_wf _ Hi)) as Hwf. by rewrite Hrun in Hwf. }
  destruct (local_call_shape _ _ _ _ Hc Hrun) as (Hs & Hf & Hp).
  apply invariant_session; try done; [| |by rewrite Hf].
  - intros x. destruct Hp as [->|[op ->]]; [by left|].
    rewrite fmap_app, elem_of_app. intros [?|Hx]; [by left|right].
    csimpl in Hx. by apply list_elem_of_singleton in Hx as ->.
  - intros e He own rest Hp'. rewrite Hf in He.
    destruct Hp as [Hp|[op Hp]]; [rewrite Hp in Hp'; by eapply inv_head|].
    destruct (wf_inFlight _ (inv_wf _ Hi) _ He) as (Hh & _ & _).
    destruct (st_pending (w_session w)) as [|p l] eqn:Hold; [done|].
    rewrite Hp in Hp'. injection Hp' as <- _. by eapply inv_head.
Qed.

Lemma seal_invariant w st :
  run_call CNextEdit (w_session w) = (st, Ok ()) → invariant w → invariant (with_session w st).
Proof.
  intros Hrun Hi. simpl in Hrun. rewrite bindM_bind in Hrun.
  pose proof (nextEdit_wf _ (inv_wf _ Hi)) as Hwf.
  pose proof (nextEdit_cases (w_session w)) as H. split_cases H; rewrite H in Hrun, Hwf;
    unfold mret, M_ret in Hrun; simplify_eq/=.
  - by destruct w.
  - by destruct w.
  - apply invariant_session; simpl; try done; [by left| |congruence].
    intros e [= <-] own rest' Hp. simpl. rewrite Hc0 in Hp. injection Hp as <- <-.
    pose proof (seen_version _ Hi). split; [lia|]. apply carried_refl.
Qed.

Lemma with_accepted_invariant w acc head :
  invariant w → foldOperationHistory (journal (with_accepted w acc)) = Ok head →
  (acc_id acc ∈ pending_ids w →
   ∃ e, st_inFlight (w_session w) = Some e ∧ acc_id acc = edit_id e
      ∧ carried w (edit_operation e) (index_of_version w (edit_baseVersion e)) (length (w_edits w))
          (acc_operation acc)) →
  invariant (with_accepted w acc).
Proof.
  intros Hi Hf Hown. pose proof (inv_seen _ Hi) as Hseen.
  assert (seen (with_accepted w acc) = seen w) as Hs by done.
  split; try apply Hi.
  - by eexists.
  - rewrite Hs. simpl. rewrite length_app. lia.
  - rewrite Hs. simpl. rewrite take_app_le by done. apply (inv_snapshot _ Hi).
  - intros i a Ha Hin. simpl in Ha. apply lookup_app_Some in Ha as [Ha|[Hlen Ha]].
    + destruct (inv_ours _ Hi _ _ Ha Hin) as (Hle & e & He & Hid & Hc).
      split; [done|]. exists e. split_and!; try done. apply carried_app; [|done].
      apply lookup_lt_Some in Ha. lia.
    + apply list_lookup_singleton_Some in Ha as [Hi0 <-].
      rewrite Hs. split; [lia|]. destruct (Hown Hin) as (e & He & Hid & Hc).
      exists e. split_and!; try done. replace i with (length (w_edits w)) by lia.
      by apply carried_app.
  - intros e own rest He Hp. rewrite Hs. destruct (inv_head _ Hi _ _ _ He Hp) as [? Hc].
    split; [done|]. by apply carried_app.
Qed.

Lemma reconcile_carried w e v acc :
  reconcileOperation (journal w) e v = Ok acc →
  carried w (edit_operation e) (index_of_version w (edit_baseVersion e)) (length (w_edits w))
    (acc_operation acc) ∧ acc_id acc = edit_id e.
Proof.
  intros H. apply reconcile_inv in H as (hd & v' & _ & _ & _ & _ & _ & _ & _ & _ & Hacc & Ht).
  split; [|by rewrite Hacc]. unfold carried. rewrite firstn_all.
  destruct requiresHistory; [|done]. done.
Qed.

(** The next journal edit for this client, and the snapshot it leads to. *)
Lemma next_edit_index w a :
  invariant w → a ∈ w_edits w → acc_version a = snap_version (st_snapshot (w_session w)) + 1 →
  w_edits w !! seen w = Some a.
Proof.
  intros Hi [i Hia]%list_elem_of_lookup Hv. pose proof (seen_version _ Hi).
  destruct (inv_journal _ Hi) as [head Hf]. apply foldOperationHistory_ok in Hf as [_ Hf].
  apply fold_edits_spec in Hf as (Hc & _). simpl in Hc.
  pose proof (contiguous_lookup _ _ _ _ Hc Hia) as [_ Hv']. by replace (seen w) with i by lia.
Qed.

Lemma next_snapshot w a value :
  invariant w → w_edits w !! seen w = Some a →
  apply_op (snap_value (st_snapshot (w_session w))) (acc_operation a) = Ok value →
  foldOperationHistory (mkHistory (w_base w) (take (S (seen w)) (w_edits w)))
    = Ok (mkSnapshot (acc_epoch a) (acc_version a) value).
Proof.
  intros Hi Ha Happ. destruct (inv_journal _ Hi) as [head Hf].
  destruct (fold_prefix _ _ (S (seen w)) _ Hf) as (mid & Hm & _). rewrite Hm. f_equal.
  apply foldOperationHistory_ok in Hm as [_ Hm]. simpl in Hm.
  rewrite (take_S_r _ _ _ Ha), fold_edits_app in Hm.
  pose proof (inv_snapshot _ Hi) as Hs. apply foldOperationHistory_ok in Hs as [_ Hs]. simpl in Hs.
  rewrite Hs in Hm; simpl in Hm. destruct (_ || _); [done|]. rewrite Happ in Hm. by injection Hm as <-.
Qed.

Lemma next_seen w a value st' :
  invariant w → acc_version a = snap_version (st_snapshot (w_session w)) + 1 →
  st_snapshot st' = mkSnapshot (acc_epoch a) (acc_version a) value →
  seen (with_session w st') = S (seen w).
Proof.
  intros Hi Hv Hs. pose proof (seen_version _ Hi). unfold seen at 1; simpl. rewrite Hs; simpl. lia.
Qed.

Lemma receive_invariant w a st :
  a ∈ w_edits w → run_call (CReceive a) (w_session w) = (st, Ok ()) →
  invariant w → invariant (with_session w st).
Proof.
  intros Ha Hrun Hi.
  assert (session_wf st) as Hwf.
  { pose proof (run_call_wf (CReceive a) _ (inv_wf _ Hi)) as Hwf. by rewrite Hrun in Hwf. }
  simpl in Hrun. pose proof (receive_cases a (w_session w)) as H.
  split_cases H; rewrite H in Hrun; [| | |by simplify_eq/=].
  - injection Hrun as <-. by destruct w.
  - injection Hrun as <-.
    pose proof (next_edit_index _ _ Hi Ha Hc1) as Hnext.
    match goal with |- invariant (with_session w ?s) => set (st := s) in * end.
    assert (seen (with_session w st) = S (seen w)) as Hseen by (by eapply next_seen).
    split; rewrite ?Hseen; simpl; try done; try apply Hi.
    + apply lookup_lt_Some in Hnext. lia.
    + by apply next_snapshot.
    + unfold pending_ids; simpl. intros i b Hb Hin. exfalso.
      pose proof (wf_ids _ (inv_wf _ Hi)) as Hnd. rewrite Hc4 in Hnd. apply NoDup_cons in Hnd as [Hnd _].
      assert (acc_id b ∈ pending_ids w) as Hin' by (unfold pending_ids; rewrite Hc4; by right).
      destruct (inv_ours _ Hi _ _ Hb Hin') as (_ & e & He & Hid & _).
      destruct (wf_inFlight _ (inv_wf _ Hi) _ He) as (Hh & _). rewrite Hc4 in Hh. injection Hh as Hh.
      apply Hnd. rewrite <- Hh, <- Hid. exact Hin.
  - injection Hrun as <-.
    pose proof (next_edit_index _ _ Hi Ha Hc1) as Hnext.
    match goal with |- invariant (with_session w ?s) => set (st := s) in * end.
    assert (seen (with_session w st) = S (seen w)) as Hseen by (by eapply next_seen).
    pose proof (rebase_pending_ids _ _ _ _ Hc5) as Hids.
    split; rewrite ?Hseen; simpl; try done; try apply Hi.
    + apply lookup_lt_Some in Hnext. lia.
    + by apply next_snapshot.
    + unfold pending_ids; simpl. rewrite Hids. intros i b Hb Hin.
      destruct (inv_ours _ Hi _ _ Hb Hin) as (Hle & He). split; [|done].
      destruct (decide (i = seen w)) as [->|]; [|lia]. rewrite Hnext in Hb. by injection Hb as <-.
    + intros e own rest He Hp. unfold carried; simpl.
      destruct (st_pending (w_session w)) as [|p l] eqn:Hold.
      { simpl in Hc5. by simplify_eq/=. }
      destruct (inv_head _ Hi _ _ _ He Hold) as [Hb Hcar]. split; [done|].
      simpl in Hc5. apply bind_ok in Hc5 as (o & Ho & Hc5). apply bind_ok in Hc5 as (r & _ & Hc5).
      apply bind_ok in Hc5 as (out & _ & [= <- <-]). injection Hp as <- _. simpl.
      eapply (carried_step w); try done.
      destruct (wf_inFlight _ (inv_wf _ Hi) _ He) as (_ & _ & Hbv).
      unfold index_of_version; simpl. pose proof (seen_version _ Hi). lia.
Qed.

Lemma step_invariant w w' : step w w' → invariant w → invariant w'.
Proof.
  intros Hs Hi; destruct Hs as [c id w st Hc Hid Hrun|w st Hrun|w e head acc He Hf Hr
    |w e head acc He Hf Hr|w a st Ha Hrun].
  - by eapply local_invariant.
  - by eapply seal_invariant.
  - destruct (reconcile_carried _ _ _ _ Hr) as [Hc Hid].
    destruct (reconcile_extends _ _ _ _ Hr) as (? & ? & _ & _ & _ & Hf').
    eapply with_accepted_invariant; [done|exact Hf'|]. intros _. by exists e.
  - destruct (reconcile_carried _ _ _ _ Hr) as [Hc Hid].
    destruct (reconcile_extends _ _ _ _ Hr) as (? & ? & _ & _ & _ & Hf').
    eapply with_accepted_invariant; [done|exact Hf'|]. intros Hin. by rewrite Hid in Hin.
  - by eapply receive_invariant.
Qed.

Lemma reachable_invariant w : reachable w → invariant w.
Proof.
  intros (w0 & Ho & Hr). apply opened_invariant in Ho.
  induction Hr as [|w1 w2 w3 Hs _ IH]; [done|]. by eapply IH, step_invariant.
Qed.

(** C1: Every reachable client state refines the journal. However edits, seals,
    acceptances and redeliveries interleave, the journal folds and the client's
    confirmed snapshot is exactly the fold of the first edits of the journal;
    so when it has seen them all and nothing is pending, what the user sees is
    the authority's value. *)
Theorem session_refines_journal w :
  reachable w →
  ∃ head, foldOperationHistory (journal w) = Ok head
    ∧ (seen w ≤ length (w_edits w))%nat
    ∧ foldOperationHistory (mkHistory (w_base w) (take (seen w) (w_edits w)))
        = Ok (st_snapshot (w_session w))
    ∧ (snap_version (st_snapshot (w_session w)) = snap_version head →
       st_pending (w_session w) = [] →
       session_value (w_session w) = Ok (snap_value head)).
Proof.
  intros Hr. apply reachable_invariant in Hr as Hi. destruct (inv_journal _ Hi) as [head Hf].
  exists head. split_and!; [done|apply Hi|apply Hi|]. intros Hv Hp.
  pose proof (inv_snapshot _ Hi) as Hs. pose proof (seen_version _ Hi) as Hsv.
  pose proof (fold_version _ _ Hf) as Hhv. simpl in Hhv.
  rewrite take_ge in Hs by lia. unfold journal in Hf. rewrite Hf in Hs. injection Hs as ->.
  unfold session_value. by rewrite Hp.
Qed.

(** The acknowledgement of the sealed edit, from any reachable state. *)
Lemma acknowledgement_settles w a :
  reachable w → w_edits w !! seen w = Some a → acc_id a ∈ pending_ids w →
  ∃ own rest st',
    st_pending (w_session w) = own :: rest ∧ pend_id own = acc_id a
    ∧ pend_operation own = acc_operation a
    ∧ receive a (w_session w) = (st', Ok ())
    ∧ st_pending st' = rest ∧ st_inFlight st' = None
    ∧ session_value st' = session_value (w_session w).
Proof.
  intros Hr Ha Hin. apply reachable_invariant in Hr as Hi.
  destruct (inv_ours _ Hi _ _ Ha Hin) as (_ & e & He & Hid & Hc).
  destruct (wf_inFlight _ (inv_wf _ Hi) _ He) as (Hh & _ & _).
  destruct (st_pending (w_session w)) as [|own rest] eqn:Hp; [done|]. injection Hh as Hh.
  destruct (inv_head _ Hi _ _ _ He Hp) as [_ Hc']. pose proof (carried_fun _ _ _ _ _ _ Hc Hc') as Hop.
  destruct (inv_journal _ Hi) as [head Hf].
  destruct (fold_prefix _ _ (S (seen w)) _ Hf) as (mid & Hm & _).
  apply foldOperationHistory_ok in Hm as [Hval Hm]. simpl in Hm.
  rewrite (take_S_r _ _ _ Ha), fold_edits_app in Hm.
  pose proof (inv_snapshot _ Hi) as Hs. apply foldOperationHistory_ok in Hs as [_ Hs]. simpl in Hs.
  rewrite Hs in Hm; simpl in Hm. destruct (_ || _) eqn:Hcond; [done|]. bool_simpl.
  apply bind_ok in Hm as (value & Happ & _).
  assert (valid_accepted a = true) as Hva.
  { unfold valid_history in Hval; simpl in Hval. bool_simpl.
    match goal with H : forallb _ _ = true |- _ => rewrite forallb_forall in H; apply H end.
    apply list_elem_of_In, list_elem_of_lookup. exists (seen w).
    apply lookup_take_Some. split; [done|lia]. }
  exists own, rest, (mkState (mkSnapshot (acc_epoch a) (acc_version a) value) rest None
    (st_undo (w_session w)) (st_redo (w_session w))).
  split_and!; [done|congruence|done| |done|done|].
  - apply (receive_own _ _ e own rest value); first [done|lia|by rewrite <- Hop].
  - unfold session_value; simpl. rewrite Hp; simpl.
    assert (apply_pending (snap_value (st_snapshot (w_session w))) own = Ok value) as ->; [|done].
    unfold apply_pending. by rewrite <- Hop.
Qed.

(** C2: Our own acknowledgement is never refused. In every reachable state, when
    the next journal edit the client has not seen carries one of its pending
    ids, it is the sealed edit at the head of the queue, the operation the
    authority accepted is the very operation the client rebased that edit into,
    and receiving it succeeds: the queue loses its head, nothing is in flight,
    and the value on screen does not move. *)
Theorem own_acknowledgement_settles w a :
  reachable w → w_edits w !! seen w = Some a → acc_id a ∈ pending_ids w →
  ∃ own rest st',
    st_pending (w_session w) = own :: rest ∧ pend_id own = acc_id a
    ∧ pend_operation own = acc_operation a
    ∧ receive a (w_session w) = (st', Ok ())
    ∧ st_pending st' = rest ∧ st_inFlight st' = None
    ∧ session_value st' = session_value (w_session w).
Proof. apply acknowledgement_settles. Qed.

End Protocol.
