(* ===== verification/OpField.v ===== *)
(** * The field resource

    [OperationField] of [commit/operations/resource.ts] with the retries of
    [contention.ts]: a session put behind a transport and a store. Its promises are
    inputs: reads, commits and saves settle when the environment says so. Reactions that
    nothing can come between are one step; the gap between the end of a refresh, or a
    flush, and the [finally] that forgets its promise is a state of its own. *)
From S2P Require Import Prelude OpContract OpHistory OpSession.

Section Field.
Context {V Op : Type} `{!EqDecision V} `{!OperationDomain V Op}.

(** ** State *)

(** [readInvalidations] and the promise [refreshing] made of it. *)
Inductive refresh_state :=
  | Reading (attempt : nat)
  | ReadBackoff (attempt : nat)
  | RefreshSaving (job : nat)
  | RefreshEnded (r : result ()).

(** [drain] and the promise [flushing] made of it. *)
Inductive drain_state :=
  | DrainRefreshing (sent : option (OperationEdit Op))
  | DrainSaving (e : OperationEdit Op) (job : nat)
  | Committing (e : OperationEdit Op) (attempt : nat)
  | CommitBackoff (e : OperationEdit Op) (attempt : nat)
  | DrainEnded (r : result ()).

(** What the environment sees: a state that was saved, an edit that was sent, a flush that
    settled. *)
Inductive field_event :=
  | Persisted (s : OperationState V Op)
  | Sent (e : OperationEdit Op)
  | Flushed (r : result ()).

(** [fd_saves] are the saves chained on [persistence] and not finished, the first of them
    under way; [fd_saved] counts the finished ones. [fd_watched] says that the
    subscription waits for the refresh under way. *)
Record field := mkField {
  fd_session : OperationState V Op;
  fd_closed : bool;
  fd_subscribed : bool;
  fd_failure : option JsError;
  fd_saves : list (OperationState V Op);
  fd_saved : nat;
  fd_refreshing : option refresh_state;
  fd_invalidated : bool;
  fd_watched : bool;
  fd_flushing : option drain_state;
  fd_log : list field_event;
}.

Definition set_session (s : OperationState V Op) (f : field) : field :=
  mkField s (fd_closed f) (fd_subscribed f) (fd_failure f) (fd_saves f) (fd_saved f) (fd_refreshing f) (fd_invalidated f) (fd_watched f) (fd_flushing f) (fd_log f).
Definition set_failure (e : option JsError) (f : field) : field :=
  mkField (fd_session f) (fd_closed f) (fd_subscribed f) e (fd_saves f) (fd_saved f) (fd_refreshing f) (fd_invalidated f) (fd_watched f) (fd_flushing f) (fd_log f).
Definition set_saves (saves : list (OperationState V Op)) (saved : nat) (f : field) : field :=
  mkField (fd_session f) (fd_closed f) (fd_subscribed f) (fd_failure f) saves saved (fd_refreshing f) (fd_invalidated f) (fd_watched f) (fd_flushing f) (fd_log f).
Definition set_refreshing (r : option refresh_state) (f : field) : field :=
  mkField (fd_session f) (fd_closed f) (fd_subscribed f) (fd_failure f) (fd_saves f) (fd_saved f) r (fd_invalidated f) (fd_watched f) (fd_flushing f) (fd_log f).
Definition set_invalidated (b : bool) (f : field) : field :=
  mkField (fd_session f) (fd_closed f) (fd_subscribed f) (fd_failure f) (fd_saves f) (fd_saved f) (fd_refreshing f) b (fd_watched f) (fd_flushing f) (fd_log f).
Definition set_watched (b : bool) (f : field) : field :=
  mkField (fd_session f) (fd_closed f) (fd_subscribed f) (fd_failure f) (fd_saves f) (fd_saved f) (fd_refreshing f) (fd_invalidated f) b (fd_flushing f) (fd_log f).
Definition set_flushing (d : option drain_state) (f : field) : field :=
  mkField (fd_session f) (fd_closed f) (fd_subscribed f) (fd_failure f) (fd_saves f) (fd_saved f) (fd_refreshing f) (fd_invalidated f) (fd_watched f) d (fd_log f).
Definition log_field (e : field_event) (f : field) : field :=
  mkField (fd_session f) (fd_closed f) (fd_subscribed f) (fd_failure f) (fd_saves f) (fd_saved f) (fd_refreshing f) (fd_invalidated f) (fd_watched f) (fd_flushing f) (fd_log f ++ [e]).

(** [save()]: the state as it is now, saved after what is chained already. *)
Definition save (f : field) : field := set_saves (fd_saves f ++ [fd_session f]) (fd_saved f) f.
Definition last_job (f : field) : nat := fd_saved f + length (fd_saves f).

(** [private receive]: what was received before an edit that throws stays received. *)
Fixpoint receive_all (edits : list (AcceptedOperation Op)) : M (OperationState V Op) () :=
  match edits with
  | [] => mret ()
  | edit :: edits => _ ← receive edit; receive_all edits
  end.

Definition receive_history (input : OperationHistory V Op) : M (OperationState V Op) () :=
  history ← liftM (parse valid_history input);
  st ← getM;
  if bool_decide (snap_epoch (st_snapshot st) ≠ snap_epoch (hist_base history)) || (snap_version (st_snapshot st) <? snap_version (hist_base history))
  then throwM stale
  else receive_all (hist_edits history).

(** The constructor. *)
Definition new_field (history : OperationHistory V Op) (state : option (OperationState V Op)) (subscribes : bool) : result field :=
  initial ← match state with Some s => Ok s | None => snapshot ← foldOperationHistory history; Ok (state_of_parts snapshot []) end;
  session ← new_session initial;
  let '(session, r) := receive_history history session in
  _ ← r;
  Ok (mkField session false subscribes None [] 0 None false false None []).

(** ** Contention *)

Definition contended (e : JsError) : bool :=
  bool_decide (err_code e = Some "decision_contended"%string) && negb (bool_decide (err_class e = ZodError) || bool_decide (err_class e = PlainError)).
Definition retried (e : JsError) (attempt : nat) : bool := contended e && negb (Nat.eqb attempt 15).

(** ** Refreshing *)

(** The head of the loop of [readInvalidations]. *)
Definition refresh_turn (f : field) : field :=
  if fd_invalidated f then set_refreshing (Some (Reading 0)) (set_invalidated false f) else set_refreshing (Some (RefreshEnded (Ok ()))) f.

(** [refresh()] of an open buffer: it joins the refresh under way, if there is one. *)
Definition call_refresh (f : field) : field :=
  let f := set_invalidated true f in
  match fd_refreshing f with Some _ => f | None => refresh_turn f end.

Definition read_settles (r : result (OperationHistory V Op)) (attempt : nat) (f : field) : field :=
  match r with
  | Throw e => set_refreshing (Some (if retried e attempt then ReadBackoff attempt else RefreshEnded (Throw e))) f
  | Ok history =>
      if fd_closed f then set_refreshing (Some (RefreshEnded (Ok ()))) f
      else
        let '(session, received) := receive_history history (fd_session f) in
        let f := set_session session f in
        match received with
        | Throw e => set_refreshing (Some (RefreshEnded (Throw e))) f
        | Ok _ => let f := save f in set_refreshing (Some (RefreshSaving (last_job f))) f
        end
  end.

(** ** Flushing *)

(** The loop of [drain] from its head: [nextEdit] throws nothing. *)
Definition drain_turn (f : field) : field :=
  let '(session, r) := nextEdit (fd_session f) in
  let f := set_session session f in
  match r with
  | Ok None => set_flushing (Some (DrainEnded (Ok ()))) f
  | Ok (Some e) => let f := save f in set_flushing (Some (DrainSaving e (last_job f))) f
  | Throw e => set_flushing (Some (DrainEnded (Throw e))) f
  end.

(** What [drain] does when the refresh it waits for settles. *)
Definition drain_refreshed (sent : option (OperationEdit Op)) (r : result ()) (f : field) : field :=
  match r with
  | Throw e => set_flushing (Some (DrainEnded (Throw e))) f
  | Ok _ =>
      match sent with
      | Some e => if bool_decide ((edit_id <$> st_inFlight (fd_session f)) = Some (edit_id e)) then set_flushing (Some (DrainEnded (Throw stale))) f else drain_turn f
      | None => drain_turn f
      end
  end.

Definition dispatch (e : OperationEdit Op) (attempt : nat) (f : field) : field := log_field (Sent e) (set_flushing (Some (Committing e attempt)) f).

Definition commit_settles (r : result ()) (e : OperationEdit Op) (attempt : nat) (f : field) : field :=
  match r with
  | Throw err => set_flushing (Some (if retried err attempt then CommitBackoff e attempt else DrainEnded (Throw err))) f
  | Ok _ => if fd_closed f then set_flushing (Some (DrainEnded (Throw plain_error))) f else set_flushing (Some (DrainRefreshing (Some e))) (call_refresh f)
  end.

(** ** Calls *)

(** [this.session.edit(...)] on the session of the buffer. *)
Definition on_session {A} (m : M (OperationState V Op) A) : M field A :=
  λ f, let '(session, r) := m (fd_session f) in (set_session session f, r).
Definition assertOpen : M field () := f ← getM; if fd_closed f then throwM plain_error else mret ().

Definition field_edit (id : string) (operation : Op) : M field () := _ ← assertOpen; _ ← on_session (session_edit id operation); modifyM save.
Definition field_replay (id : string) (from : stack) : M field bool :=
  _ ← assertOpen;
  applied ← on_session (replay id from);
  _ ← (if (applied : bool) then modifyM save else mret ());
  mret applied.
Definition refresh : M field () := _ ← assertOpen; modifyM call_refresh.
Definition flush : M field () :=
  _ ← assertOpen;
  modifyM (λ f, match fd_flushing f with Some _ => f | None => set_flushing (Some (DrainRefreshing None)) (call_refresh f) end).
Definition dispose (f : field) : field :=
  mkField (fd_session f) true false (fd_failure f) (fd_saves f) (fd_saved f) (fd_refreshing f) (fd_invalidated f) (fd_watched f) (fd_flushing f) (fd_log f).

(** ** Inputs *)

Inductive field_input :=
  | CallEdit (id : string) (operation : Op)
  | CallReplay (id : string) (from : stack)
  | CallRefresh
  | CallFlush
  | CallDispose
  | RowInvalidated
  | ReadSettles (r : result (OperationHistory V Op))
  | ReadTimer
  | SaveSettles (r : result ())
  | CommitSettles (r : result ())
  | CommitTimer
  | RefreshSettles
  | FlushSettles.

(** A finished save lets what waited for it go on. *)
Definition save_settles (r : result ()) (f : field) : field :=
  match fd_saves f with
  | [] => f
  | s :: saves =>
      let job := S (fd_saved f) in
      let f := set_saves saves job f in
      let f := match r with Ok _ => log_field (Persisted s) f | Throw _ => f end in
      let f := match fd_refreshing f with
               | Some (RefreshSaving j) =>
                   if Nat.eqb j job then match r with Ok _ => refresh_turn f | Throw e => set_refreshing (Some (RefreshEnded (Throw e))) f end else f
               | _ => f
               end in
      match fd_flushing f with
      | Some (DrainSaving e j) =>
          if Nat.eqb j job then
            match r with
            | Ok _ => if fd_closed f then set_flushing (Some (DrainEnded (Throw plain_error))) f else dispatch e 0 f
            | Throw err => set_flushing (Some (DrainEnded (Throw err))) f
            end
          else f
      | _ => f
      end
  end.

(** The [finally] of a refresh, and those that waited for it. *)
Definition refresh_settles (r : result ()) (f : field) : field :=
  let f := set_refreshing None f in
  let f := match r with Throw e => if fd_watched f then set_failure (Some e) f else f | Ok _ => f end in
  let f := set_watched false f in
  match fd_flushing f with Some (DrainRefreshing sent) => drain_refreshed sent r f | _ => f end.

Definition flush_settles (r : result ()) (f : field) : field :=
  log_field (Flushed r) (set_flushing None (set_failure (match r with Ok _ => None | Throw e => Some e end) f)).

(** One step of the buffer; an input that nothing waits for changes nothing, and a call
    that throws leaves what it had done. *)
Definition field_step (i : field_input) (f : field) : field :=
  match i with
  | CallEdit id operation => (field_edit id operation f).1
  | CallReplay id from => (field_replay id from f).1
  | CallRefresh => (refresh f).1
  | CallFlush => (flush f).1
  | CallDispose => dispose f
  | RowInvalidated => if fd_subscribed f && negb (fd_closed f) then set_watched true (call_refresh f) else f
  | ReadSettles r => match fd_refreshing f with Some (Reading n) => read_settles r n f | _ => f end
  | ReadTimer => match fd_refreshing f with Some (ReadBackoff n) => set_refreshing (Some (Reading (S n))) f | _ => f end
  | SaveSettles r => save_settles r f
  | CommitSettles r => match fd_flushing f with Some (Committing e n) => commit_settles r e n f | _ => f end
  | CommitTimer => match fd_flushing f with Some (CommitBackoff e n) => dispatch e (S n) f | _ => f end
  | RefreshSettles => match fd_refreshing f with Some (RefreshEnded r) => refresh_settles r f | _ => f end
  | FlushSettles => match fd_flushing f with Some (DrainEnded r) => flush_settles r f | _ => f end
  end.

Definition run_field (inputs : list field_input) (f : field) : field := foldl (λ f i, field_step i f) f inputs.
End Field.

Arguments field V Op : clear implicits.
Arguments field_input V Op : clear implicits.
Arguments field_event V Op : clear implicits.
Arguments drain_state Op : clear implicits.
