(* ===== verification/OpFieldFacts.v ===== *)
(** * What a field buffer sends

    Every edit the buffer of [OpField] sends was saved as the one in flight before, and a
    retry sends the edit it sent before, whatever settles in whatever order. *)
From S2P Require Import Prelude OpContract OpHistory OpSession OpField.

Section Facts.
Context {V Op : Type} `{!EqDecision V} `{!OperationDomain V Op} `{!ClosedDomain V Op}.
Implicit Types (st : OperationState V Op) (f : field V Op) (e : OperationEdit Op).

Definition pend_ids st : list string := pend_id <$> st_pending st.

(** ** The calls, unfolded *)

Lemma field_edit_run id op f :
  field_edit id op f = if fd_closed f then (f, Throw plain_error)
    else match session_edit id op (fd_session f) with (st, Ok _) => (save (set_session st f), Ok ()) | (st, Throw e) => (set_session st f, Throw e) end.
Proof.
  unfold field_edit, assertOpen. rewrite !bindM_bind. unfold getM. destruct (fd_closed f); [done|]. cbn. unfold on_session, mbind, M_bind.
  by destruct (session_edit id op (fd_session f)) as [st [u|e]].
Qed.

Lemma field_replay_run id from f :
  field_replay id from f = if fd_closed f then (f, Throw plain_error)
    else match replay id from (fd_session f) with
         | (st, Ok applied) => ((if applied then save (set_session st f) else set_session st f), Ok applied) | (st, Throw e) => (set_session st f, Throw e) end.
Proof.
  unfold field_replay, assertOpen. rewrite !bindM_bind. unfold getM. destruct (fd_closed f); [done|]. cbn. unfold on_session, mbind, M_bind.
  by destruct (replay id from (fd_session f)) as [st [[]|e]].
Qed.

Lemma refresh_run f : refresh f = if fd_closed f then (f, Throw plain_error) else (call_refresh f, Ok ()).
Proof. unfold refresh, assertOpen. rewrite !bindM_bind. unfold getM. by destruct (fd_closed f). Qed.

Lemma flush_run f :
  flush f = if fd_closed f then (f, Throw plain_error)
    else (match fd_flushing f with Some _ => f | None => set_flushing (Some (DrainRefreshing None)) (call_refresh f) end, Ok ()).
Proof. unfold flush, assertOpen. rewrite !bindM_bind. unfold getM. by destruct (fd_closed f). Qed.

(** ** What the calls of the session keep *)

(** The edits [P] are in flight as long as their ids are pending. *)
Definition tracks (P : OperationEdit Op → Prop) st : Prop := ∀ e, P e → edit_id e ∈ pend_ids st → st_inFlight st = Some e.

(** Nothing becomes pending but [ids], and nothing enters flight. *)
Definition calm_session (ids : list string) st st' : Prop :=
  (∀ i, i ∈ pend_ids st' → i ∈ pend_ids st ∨ i ∈ ids) ∧ (st_inFlight st' = st_inFlight st ∨ st_inFlight st' = None ∧ ∀ e, st_inFlight st = Some e → edit_id e ∉ pend_ids st').

Lemma calm_refl ids st : calm_session ids st st.
Proof. split; [by left|by left]. Qed.

Lemma edit_calm id op st : calm_session [id] st (session_edit id op st).1.
Proof.
  pose proof (edit_cases id op st) as H. split_cases H; rewrite H; [|apply calm_refl].
  split; [|by left]. unfold pend_ids, push_pending. simpl. rewrite fmap_app. intros i [Hi|Hi]%elem_of_app; [by left|by right].
Qed.

Lemma replay_calm id from st : calm_session [id] st (replay id from st).1.
Proof.
  pose proof (replay_cases id from st) as H. split_cases H; rewrite H; [|apply calm_refl..].
  destruct from; (split; [|by left]); unfold pend_ids, push_pending; simpl; rewrite fmap_app; (intros i [Hi|Hi]%elem_of_app; [by left|by right]).
Qed.

Lemma receive_calm a st : session_wf st → calm_session [] st (receive a st).1.
Proof.
  intros Hwf. pose proof (receive_cases a st) as H. split_cases H; rewrite H; [apply calm_refl| | |apply calm_refl].
  - pose proof (wf_ids _ Hwf) as Hn. rewrite Hc4 in Hn. apply NoDup_cons in Hn as [Hn _]. split; unfold pend_ids; simpl.
    + intros i Hi. left. rewrite Hc4. by right.
    + right. split; [done|]. intros e He. destruct (wf_inFlight _ Hwf _ He) as (Hh & _). rewrite Hc4 in Hh. injection Hh as ->. done.
  - split; [|by left]. unfold pend_ids. simpl. rewrite (rebase_pending_ids _ _ _ _ Hc5). by left.
Qed.

Lemma calm_trans st st1 st2 : calm_session [] st st1 → calm_session [] st1 st2 → calm_session [] st st2.
Proof.
  intros [H1 H2] [H3 H4]. split.
  - intros i Hi. destruct (H3 i Hi) as [Hi'|Hi']; [by apply H1|by apply elem_of_nil in Hi'].
  - destruct H2 as [E|[E H2]], H4 as [E'|[E' H4]]; rewrite ?E', ?E; [by left| |by right; split; [|intros e He Hi; destruct (H3 _ Hi) as [Hi'|Hi']; [by eapply H2|by apply elem_of_nil in Hi']]..].
    right. split; [done|]. rewrite <- E. exact H4.
Qed.

Lemma receive_all_calm edits st : session_wf st → calm_session [] st (receive_all edits st).1 ∧ session_wf (receive_all edits st).1.
Proof.
  revert st. induction edits as [|a edits IH]; intros st Hwf; [by split; [apply calm_refl|]|]. cbn [receive_all]. rewrite bindM_bind.
  pose proof (receive_calm a st Hwf) as Hc. pose proof (receive_wf a st Hwf) as Hw. destruct (receive a st) as [st1 [[]|e]]; cbn [fst] in *; [|done].
  destruct (IH st1 Hw) as [Hc' Hw']. split; [by eapply calm_trans|done].
Qed.

Lemma receive_history_calm h st : session_wf st → calm_session [] st (receive_history h st).1 ∧ session_wf (receive_history h st).1.
Proof.
  intros Hwf. unfold receive_history. rewrite liftM_bind. destruct (parse valid_history h) as [h'|]; [|by split; [apply calm_refl|]].
  rewrite getM_bind. destruct (_ || _); [by split; [apply calm_refl|]|]. by apply receive_all_calm.
Qed.

Lemma calm_tracks P ids st st' : calm_session ids st st' → (∀ e, P e → edit_id e ∉ ids) → tracks P st → tracks P st'.
Proof.
  intros [H1 H2] Hf Ht e He Hi. destruct (H1 _ Hi) as [Hi'|Hi']; [|by destruct (Hf e He)]. pose proof (Ht e He Hi') as Hin.
  destruct H2 as [->|[_ H2]]; [done|]. by destruct (H2 e Hin).
Qed.

(** ** The invariant *)

Definition drain_edit f : option (OperationEdit Op) :=
  match fd_flushing f with Some (DrainSaving e _) | Some (Committing e _) | Some (CommitBackoff e _) => Some e | _ => None end.
Definition tracked f e : Prop := Sent e ∈ fd_log f ∨ drain_edit f = Some e.

(** An edit was saved as the one in flight. *)
Definition was_saved (log : list (field_event V Op)) e : Prop := ∃ s, Persisted s ∈ log ∧ st_inFlight s = Some e.

(** What is said of each edit that was sent, at the place where it was sent. *)
Definition sent_soundly (log : list (field_event V Op)) : Prop :=
  ∀ l1 e l2, log = l1 ++ Sent e :: l2 → was_saved l1 e ∧ ∀ e', Sent e' ∈ l1 → edit_id e' = edit_id e → e' = e.

Record field_inv (future : list string) f : Prop := {
  fi_wf : session_wf (fd_session f);
  fi_tracks : tracks (tracked f) (fd_session f);
  fi_fresh : ∀ e, tracked f e → edit_id e ∉ future;
  fi_pending : ∀ i, i ∈ pend_ids (fd_session f) → i ∉ future;
  fi_sound : sent_soundly (fd_log f);
  fi_job : ∀ e j, fd_flushing f = Some (DrainSaving e j) → (fd_saved f < j)%nat ∧ ∃ s, fd_saves f !! (j - fd_saved f - 1)%nat = Some s ∧ st_inFlight s = Some e;
  fi_saved : ∀ e n, fd_flushing f = Some (Committing e n) ∨ fd_flushing f = Some (CommitBackoff e n) → was_saved (fd_log f) e;
  fi_same : ∀ e e', tracked f e → tracked f e' → edit_id e = edit_id e' → e = e';
}.

(** Only these parts matter. *)
Lemma inv_ext future f f' :
  fd_session f' = fd_session f → fd_saves f' = fd_saves f → fd_saved f' = fd_saved f → fd_flushing f' = fd_flushing f → fd_log f' = fd_log f →
  field_inv future f → field_inv future f'.
Proof.
  intros E1 E2 E3 E4 E5 [I1 I2 I3 I4 I5 I6 I7 I8].
  assert (Ht : ∀ e, tracked f' e ↔ tracked f e) by (intros e; unfold tracked, drain_edit; by rewrite E4, E5).
  split; rewrite ?E1, ?E2, ?E3, ?E4, ?E5; try done.
  - intros e He%Ht. by apply I2.
  - intros e He%Ht. by apply I3.
  - intros e e' He%Ht He'%Ht. by apply I8.
Qed.

Lemma inv_session future ids st' f :
  calm_session ids (fd_session f) st' → session_wf st' → (∀ i, i ∈ ids → i ∉ future) → field_inv (ids ++ future) f → field_inv future (set_session st' f).
Proof.
  intros Hc Hw Hd [I1 I2 I3 I4 I5 I6 I7 I8]. split; try done.
  - apply (calm_tracks _ ids (fd_session f)); [done| |done]. intros e He Hi. apply (I3 e He), elem_of_app. by left.
  - intros e He Hi. apply (I3 e He), elem_of_app. by right.
  - intros i Hi Hf. cbn in Hi. destruct (proj1 Hc i Hi) as [Hp|Hp]; [apply (I4 i Hp), elem_of_app; by right|by apply (Hd i Hp)].
Qed.

Lemma inv_save future f : field_inv future f → field_inv future (save f).
Proof.
  intros [I1 I2 I3 I4 I5 I6 I7 I8]. split; try done. intros e j Hj. destruct (I6 e j Hj) as (Hlt & s & Hs & He). split; [done|]. exists s.
  split; [|done]. cbn [save set_saves fd_saves fd_saved]. by apply lookup_app_l_Some.
Qed.

(** The drain leaves an edit alone. *)
Lemma inv_flushing future d f :
  (match d with Some (DrainRefreshing _) | Some (DrainEnded _) | None => True | _ => False end) → field_inv future f → field_inv future (set_flushing d f).
Proof.
  intros Hd [I1 I2 I3 I4 I5 I6 I7 I8]. assert (Ht : ∀ e, tracked (set_flushing d f) e → tracked f e).
  { intros e [H|H]; [by left|]. unfold drain_edit in H. cbn in H. by destruct d as [[]|]. }
  split; cbn [set_flushing fd_session fd_saves fd_saved fd_flushing fd_log]; try done.
  - intros e He. by apply I2, Ht.
  - intros e He. by apply I3, Ht.
  - intros e j ->. done.
  - intros e n [-> | ->]; done.
  - intros e e' He He'. by apply I8; apply Ht.
Qed.

Lemma inv_call_refresh future f : field_inv future f → field_inv future (call_refresh f).
Proof. unfold call_refresh, refresh_turn. cbn. destruct (fd_refreshing f); by apply inv_ext. Qed.
Lemma inv_refreshing future r f : field_inv future f → field_inv future (set_refreshing r f).
Proof. by apply inv_ext. Qed.
Lemma inv_refresh_turn future f : field_inv future f → field_inv future (refresh_turn f).
Proof. unfold refresh_turn. destruct (fd_invalidated f); by apply inv_ext. Qed.

Lemma inv_saving future f sent :
  st_inFlight (fd_session f) = Some sent → field_inv future f → field_inv future (set_flushing (Some (DrainSaving sent (last_job (save f)))) (save f)).
Proof.
  intros Hc [I1 I2 I3 I4 I5 I6 I7 I8].
  assert (Hsent : ∀ e, tracked (set_flushing (Some (DrainSaving sent (last_job (save f)))) (save f)) e → Sent e ∈ fd_log f ∨ e = sent).
  { intros e [He|He]; [by left|right]. unfold drain_edit in He. cbn in He. by injection He. }
  assert (Hid : edit_id sent ∈ pend_ids (fd_session f)).
  { destruct (wf_inFlight _ I1 _ Hc) as (Hh & _). unfold pend_ids. destruct (st_pending (fd_session f)); [done|]. injection Hh as ->. left. }
  assert (Hsame : ∀ e, Sent e ∈ fd_log f → edit_id e = edit_id sent → e = sent).
  { intros e He Heq. assert (Hx : st_inFlight (fd_session f) = Some e) by (apply I2; [by left|by rewrite Heq]). congruence. }
  split; cbn [set_flushing fd_session fd_saves fd_saved fd_flushing fd_log save set_saves] in *; try done.
  - intros e [He| ->]%Hsent Hin; [apply I2; [by left|done]|done].
  - intros e [He| ->]%Hsent; [apply I3; by left|by apply I4].
  - unfold last_job. cbn [fd_saved fd_saves]. intros e j [= <- <-]. rewrite length_app. cbn [length]. split; [lia|]. exists (fd_session f). split; [|done].
    rewrite lookup_app_r by lia. replace (fd_saved f + (length (fd_saves f) + 1) - fd_saved f - 1 - length (fd_saves f))%nat with 0%nat by lia. done.
  - intros e n [|]; done.
  - intros e e' [He| ->]%Hsent [He'| ->]%Hsent Heq; [apply I8; [by left|by left|done]|by apply Hsame|symmetry; by apply Hsame|done].
Qed.

Lemma inv_drain_turn future f : field_inv future f → field_inv future (drain_turn f).
Proof.
  intros Hi. pose proof (nextEdit_wf (fd_session f) (fi_wf _ _ Hi)) as Hw. unfold drain_turn. pose proof (nextEdit_cases (fd_session f)) as H. split_cases H; rewrite H in *; cbn [fst] in Hw.
  - apply inv_saving; [done|]. by eapply inv_ext; [| | | | |exact Hi].
  - apply inv_flushing; [done|]. by eapply inv_ext; [| | | | |exact Hi].
  - apply inv_saving; [done|]. destruct Hi as [I1 I2 I3 I4 I5 I6 I7 I8]. split; try done.
    intros e He Hin. assert (st_inFlight (fd_session f) = Some e) by (by apply I2). congruence.
Qed.

Lemma sound_snoc log v : (∀ e, v = Sent e → was_saved log e ∧ ∀ e', Sent e' ∈ log → edit_id e' = edit_id e → e' = e) → sent_soundly log → sent_soundly (log ++ [v]).
Proof.
  intros Hv Hs l1 e l2 E. destruct l2 as [|v' l2 _] using rev_ind.
  - apply app_inj_tail in E as [-> E]. by apply Hv.
  - rewrite app_comm_cons, (assoc_L (++)) in E. apply app_inj_tail in E as [E _]. by eapply Hs.
Qed.

Lemma inv_dispatch future e n f :
  tracked f e → was_saved (fd_log f) e → field_inv future f → field_inv future (dispatch e n f).
Proof.
  intros Ht Hs [I1 I2 I3 I4 I5 I6 I7 I8]. assert (Hx : ∀ e', tracked (dispatch e n f) e' → tracked f e').
  { intros e' [He|He]; [|unfold drain_edit in He; cbn in He; by injection He as <-]. unfold dispatch, log_field in He. cbn [fd_log] in He.
    apply elem_of_app in He as [He|He%list_elem_of_singleton]; [by left|]. by injection He as ->. }
  split; try done.
  - intros e' He. by apply I2, Hx.
  - intros e' He. by apply I3, Hx.
  - unfold dispatch, log_field. cbn [fd_log]. apply sound_snoc; [|done]. intros e' [= <-]. split; [done|]. intros e' He' Heq. apply I8; [by left|done|done].
  - intros e' n' H. unfold dispatch, log_field, was_saved in *. cbn [fd_log fd_flushing set_flushing] in *. destruct H as [[= <- _]|[=]].
    destruct Hs as (s & Hs & He). exists s. split; [|done]. apply elem_of_app. by left.
  - intros e1 e2 H1 H2. by apply I8; apply Hx.
Qed.

(** An entry of the log that is not a sent edit. *)
Lemma inv_log future v f : (∀ e, v ≠ Sent e) → field_inv future f → field_inv future (log_field v f).
Proof.
  intros Hv [I1 I2 I3 I4 I5 I6 I7 I8]. assert (Hx : ∀ e, tracked (log_field v f) e → tracked f e).
  { intros e [He|He]; [|by right]. unfold log_field in He. cbn [fd_log] in He. apply elem_of_app in He as [He|He%list_elem_of_singleton]; [by left|]. by destruct (Hv e). }
  split; try done.
  - intros e He. by apply I2, Hx.
  - intros e He. by apply I3, Hx.
  - unfold log_field. cbn [fd_log]. apply sound_snoc; [|done]. intros e E. by destruct (Hv e).
  - intros e n Hf. destruct (I7 e n Hf) as (s & Hs & He). exists s. split; [|done]. unfold log_field. cbn [fd_log]. apply elem_of_app. by left.
  - intros e1 e2 H1 H2. by apply I8; apply Hx.
Qed.

(** ** The steps *)

Lemma inv_receive future h f : field_inv future f → field_inv future (set_session (receive_history h (fd_session f)).1 f).
Proof. intros Hi. destruct (receive_history_calm h (fd_session f) (fi_wf _ _ Hi)) as [Hc Hw]. apply (inv_session _ []); [done|done|by intros i ?%elem_of_nil|done]. Qed.

Lemma inv_weaken i future f : field_inv (i :: future) f → field_inv future f.
Proof.
  intros [I1 I2 I3 I4 I5 I6 I7 I8]. split; try done.
  - intros e He Hf. apply (I3 e He). by right.
  - intros j Hj Hf. apply (I4 j Hj). by right.
Qed.

(** The chain of saves moves on; a drain that waits for the save that finished is told
    elsewhere. *)
Lemma inv_saves future f s saves :
  fd_saves f = s :: saves → (∀ e j, fd_flushing f = Some (DrainSaving e j) → j ≠ S (fd_saved f)) → field_inv future f →
  field_inv future (set_saves saves (S (fd_saved f)) f).
Proof.
  intros Hs Hj [I1 I2 I3 I4 I5 I6 I7 I8]. split; try done. cbn [set_saves fd_flushing fd_saves fd_saved]. intros e j Hf. specialize (Hj e j Hf).
  destruct (I6 e j Hf) as (Hlt & s' & Hl & He). split; [lia|]. exists s'. split; [|done]. rewrite Hs in Hl.
  replace (j - fd_saved f - 1)%nat with (S (j - S (fd_saved f) - 1)) in Hl by lia. exact Hl.
Qed.

Lemma inv_committing future e d f :
  (∃ n, d = Committing e n ∨ d = CommitBackoff e n) → tracked f e → was_saved (fd_log f) e → field_inv future f → field_inv future (set_flushing (Some d) f).
Proof.
  intros (n & Hd) Ht Hs [I1 I2 I3 I4 I5 I6 I7 I8]. assert (Hx : ∀ e', tracked (set_flushing (Some d) f) e' → tracked f e').
  { intros e' [He|He]; [by left|]. unfold drain_edit in He. cbn in He. destruct Hd as [-> | ->]; by injection He as <-. }
  split; try done.
  - intros e' He. by apply I2, Hx.
  - intros e' He. by apply I3, Hx.
  - cbn. destruct Hd as [-> | ->]; by intros ? ? [=].
  - cbn. intros e' n'. destruct Hd as [-> | ->]; intros [[=]|[=]]; by subst.
  - intros e1 e2 H1 H2. by apply I8; apply Hx.
Qed.

(** What is logged of a save. *)
Definition logged (r : result ()) (s : OperationState V Op) f : field V Op := match r with Ok _ => log_field (Persisted s) f | Throw _ => f end.

Lemma inv_save_settles future r f : field_inv future f → field_inv future (save_settles r f).
Proof.
  intros Hi. unfold save_settles. destruct (fd_saves f) as [|s saves] eqn:Es; [done|]. fold (logged r s (set_saves saves (S (fd_saved f)) f)).
  set (f1 := logged r s (set_saves saves (S (fd_saved f)) f)). set (f2 := match fd_refreshing f1 with Some (RefreshSaving j) => _ | _ => f1 end).
  assert (Hg : ∃ g, field_inv future g ∧ fd_session g = fd_session f ∧ fd_saves g = fd_saves f ∧ fd_saved g = fd_saved f ∧ fd_flushing g = fd_flushing f
    ∧ (∀ u, r = Ok u → Persisted s ∈ fd_log g) ∧ fd_session f2 = fd_session g ∧ fd_saves f2 = saves ∧ fd_saved f2 = S (fd_saved g) ∧ fd_flushing f2 = fd_flushing g ∧ fd_log f2 = fd_log g).
  { exists (logged r s f). assert (H1 : fd_session f1 = fd_session f ∧ fd_saves f1 = saves ∧ fd_saved f1 = S (fd_saved f) ∧ fd_flushing f1 = fd_flushing f ∧ fd_log f1 = fd_log (logged r s f)) by (unfold f1, logged; by destruct r).
    assert (H2 : fd_session f2 = fd_session f1 ∧ fd_saves f2 = fd_saves f1 ∧ fd_saved f2 = fd_saved f1 ∧ fd_flushing f2 = fd_flushing f1 ∧ fd_log f2 = fd_log f1).
    { unfold f2. destruct (fd_refreshing f1) as [[| |j|]|]; try done. destruct (Nat.eqb j _); [|done]. destruct r; [|done]. unfold refresh_turn. by destruct (fd_invalidated f1). }
    destruct H1 as (A1 & A2 & A3 & A4 & A5), H2 as (B1 & B2 & B3 & B4 & B5). rewrite A1 in B1. rewrite A2 in B2. rewrite A3 in B3. rewrite A4 in B4. rewrite A5 in B5.
    rewrite B1, B2, B3, B4, B5. split; [unfold logged; destruct r; [by apply inv_log; [intros e|]|done]|].
    split_and!; try (unfold logged; by destruct r). intros u ->. unfold logged, log_field. cbn [fd_log]. apply elem_of_app. right. left. }
  clearbody f2. clear f1. destruct Hg as (g & Hgi & G1 & G2 & G3 & G4 & Gp & E1 & E2 & E3 & E4 & E5). rewrite <- G3, E4. rewrite Es in G2. clear Es Hi G1 G4 G3.
  assert (Hgo : (∀ e j, fd_flushing g = Some (DrainSaving e j) → j ≠ S (fd_saved g)) → field_inv future f2).
  { intros Hj. eapply (inv_ext _ (set_saves saves (S (fd_saved g)) g)); [done..|]. by eapply inv_saves. }
  destruct (fd_flushing g) as [[| e j| | |]|] eqn:Ef; try (apply Hgo; by intros ? ? [=]).
  destruct (Nat.eqb_spec j (S (fd_saved g))) as [->|Hne]; [|apply Hgo; by intros ? ? [= <- <-]].
  destruct (fi_job _ _ Hgi e _ Ef) as (_ & s' & Hs' & He). rewrite G2 in Hs'. replace (S (fd_saved g) - fd_saved g - 1)%nat with 0%nat in Hs' by lia. injection Hs' as <-.
  assert (Hend : ∀ d, field_inv future (set_flushing d g) → (match d with Some (DrainSaving _ _) => False | _ => True end) → field_inv future (set_flushing d f2)).
  { intros d Hd Hx. eapply (inv_ext _ (set_saves saves (S (fd_saved g)) (set_flushing d g))); [done..|]. apply (inv_saves _ (set_flushing d g) s); [done| |done]. intros e' j'. cbn. by intros ->. }
  assert (He1 : ∀ x, field_inv future (set_flushing (Some (DrainEnded x)) f2)) by (intros x; apply Hend; [by apply inv_flushing|done]).
  destruct r as [u|err]; [|apply He1]. destruct (fd_closed f2); [apply He1|]. specialize (Gp u eq_refl).
  assert (Hsaved : was_saved (fd_log g) e) by (by exists s).
  assert (Ht : tracked g e) by (right; unfold drain_edit; by rewrite Ef).
  unfold dispatch. replace (set_flushing (Some (Committing e 0)) f2) with (set_flushing (Some (Committing e 0)) (set_flushing (Some (Committing e 0)) f2)) by done.
  apply inv_dispatch; [by right|cbn; by rewrite E5|]. apply Hend; [apply (inv_committing _ e); [by eexists; left|done|done|done]|done].
Qed.

Lemma inv_drain_refreshed future sent r f : field_inv future f → field_inv future (drain_refreshed sent r f).
Proof.
  intros Hi. unfold drain_refreshed. destruct r; [|by apply inv_flushing]. destruct sent; [|by apply inv_drain_turn]. case_bool_decide; [by apply inv_flushing|by apply inv_drain_turn].
Qed.

(** The ids an input brings. *)
Definition new_ids (i : field_input V Op) : list string := match i with CallEdit id _ | CallReplay id _ => [id] | _ => [] end.

Lemma inv_edit future id op f : id ∉ future → field_inv (id :: future) f → field_inv future (field_edit id op f).1.
Proof.
  intros Hn Hi. rewrite field_edit_run. destruct (fd_closed f); [by eapply inv_weaken|].
  pose proof (edit_calm id op (fd_session f)) as Hc. pose proof (edit_wf id op (fd_session f) (fi_wf _ _ Hi)) as Hw. destruct (session_edit id op (fd_session f)) as [st' r]. cbn [fst] in *.
  assert (H : field_inv future (set_session st' f)) by (apply (inv_session _ [id]); [done|done|by intros i ->%list_elem_of_singleton|done]).
  destruct r; [by apply inv_save|done].
Qed.

Lemma inv_replay future id from f : id ∉ future → field_inv (id :: future) f → field_inv future (field_replay id from f).1.
Proof.
  intros Hn Hi. rewrite field_replay_run. destruct (fd_closed f); [by eapply inv_weaken|].
  pose proof (replay_calm id from (fd_session f)) as Hc. pose proof (replay_wf id from (fd_session f) (fi_wf _ _ Hi)) as Hw. destruct (replay id from (fd_session f)) as [st' r]. cbn [fst] in *.
  assert (H : field_inv future (set_session st' f)) by (apply (inv_session _ [id]); [done|done|by intros i ->%list_elem_of_singleton|done]).
  destruct r as [[|]|]; [by apply inv_save|done|done].
Qed.

Lemma inv_step future i f : (∀ id, id ∈ new_ids i → id ∉ future) → field_inv (new_ids i ++ future) f → field_inv future (field_step i f).
Proof.
  intros Hn Hi. destruct i as [id op|id from| | | | |r| |r|r| | |]; cbn [new_ids app field_step] in *.
  - apply inv_edit; [apply Hn; left|done].
  - apply inv_replay; [apply Hn; left|done].
  - rewrite refresh_run. destruct (fd_closed f); [done|]. by apply inv_call_refresh.
  - rewrite flush_run. destruct (fd_closed f); [done|]. destruct (fd_flushing f) eqn:E; [done|]. apply inv_flushing; [done|]. by apply inv_call_refresh.
  - by eapply inv_ext; [| | | | |exact Hi].
  - destruct (_ && _); [|done]. eapply inv_ext; [| | | | |exact (inv_call_refresh _ _ Hi)]; done.
  - destruct (fd_refreshing f) as [[n| | |]|]; try done. unfold read_settles. destruct r as [h|e]; [|by apply inv_refreshing]. destruct (fd_closed f); [by apply inv_refreshing|].
    pose proof (inv_receive future h f Hi) as Hr. destruct (receive_history h (fd_session f)) as [st' [u|e]]; cbn [fst] in Hr; [|by apply inv_refreshing]. by apply inv_refreshing, inv_save.
  - destruct (fd_refreshing f) as [[| n| |]|]; try done. by apply inv_refreshing.
  - by apply inv_save_settles.
  - destruct (fd_flushing f) as [[| |e n| |]|] eqn:Ef; try done. unfold commit_settles. destruct r as [u|err].
    + destruct (fd_closed f); apply inv_flushing; try done. by apply inv_call_refresh.
    + destruct (retried err n); [|by apply inv_flushing]. apply (inv_committing _ e); [by eexists; right|right; unfold drain_edit; by rewrite Ef|apply (fi_saved _ _ Hi e n); by left|done].
  - destruct (fd_flushing f) as [[| | |e n|]|] eqn:Ef; try done. apply inv_dispatch; [right; unfold drain_edit; by rewrite Ef|apply (fi_saved _ _ Hi e n); by right|done].
  - destruct (fd_refreshing f) as [[| | |r]|]; try done. unfold refresh_settles.
    set (g := match r with Ok _ => set_refreshing None f | Throw e => if fd_watched (set_refreshing None f) then set_failure (Some e) (set_refreshing None f) else set_refreshing None f end).
    assert (Hg : field_inv future (set_watched false g)) by (unfold g; destruct r; [|destruct (fd_watched _)]; by eapply inv_ext; [| | | | |exact Hi]).
    destruct (fd_flushing (set_watched false g)) as [[sent| | | |]|]; try done. by apply inv_drain_refreshed.
  - destruct (fd_flushing f) as [[| | | |r]|]; try done. unfold flush_settles. apply inv_log; [by intros e|]. apply inv_flushing; [done|]. by eapply inv_ext; [| | | | |exact Hi].
Qed.

Lemma inv_run future inputs f : NoDup (concat (new_ids <$> inputs)) → (∀ id, id ∈ concat (new_ids <$> inputs) → id ∉ future) →
  field_inv (concat (new_ids <$> inputs) ++ future) f → field_inv future (run_field inputs f).
Proof.
  revert f. induction inputs as [|i inputs IH]; intros f Hn Hd Hi; [done|]. rewrite fmap_cons in *. cbn [concat run_field foldl] in *. apply NoDup_app in Hn as (_ & Hx & Hn).
  apply IH; [done|intros id Hid; apply Hd, elem_of_app; by right|]. apply inv_step.
  - intros id Hid [H|H]%elem_of_app; [by apply (Hx id)|]. apply (Hd id); [apply elem_of_app; by left|done].
  - by rewrite (assoc_L (++)).
Qed.

Lemma new_field_inv future history state sub f :
  new_field history state sub = Ok f → (∀ i, i ∈ pend_ids (fd_session f) → i ∉ future) → field_inv future f ∧ fd_log f = [].
Proof.
  unfold new_field. intros H Hf. apply bind_ok in H as (initial & _ & H). apply bind_ok in H as (session & Hs & H). apply new_session_ok in Hs as [-> Hwf].
  pose proof (receive_history_calm history initial Hwf) as [_ Hw]. destruct (receive_history history initial) as [st r]. cbn [fst] in Hw. apply bind_ok in H as (u & _ & [= <-]).
  split; [|done]. split; cbn in *; try done.
  - by intros e [?%elem_of_nil|].
  - by intros e [?%elem_of_nil|].
  - intros l1 e l2 E. by destruct l1.
  - by intros e n [|].
  - by intros e e' [?%elem_of_nil|].
Qed.

(** C25: whatever a field buffer is asked and whatever settles in whatever order, each edit
    it sends was saved before as the edit in flight, so a crash after sending finds it in
    the store, and an edit that is sent again under its id, after contention or by a later
    flush, is the very edit that was sent before. It presumes that edits get ids of their
    own, as random ones are. *)
Theorem sent_edits_are_saved history state sub f inputs :
  new_field history state sub = Ok f →
  NoDup (concat (new_ids <$> inputs)) → (∀ id, id ∈ concat (new_ids <$> inputs) → id ∉ pend_ids (fd_session f)) →
  ∀ l1 e l2, fd_log (run_field inputs f) = l1 ++ Sent e :: l2 →
    (∃ s, Persisted s ∈ l1 ∧ st_inFlight s = Some e) ∧ ∀ e', Sent e' ∈ l1 → edit_id e' = edit_id e → e' = e.
Proof.
  intros Hf Hn Hd. assert (H : field_inv [] (run_field inputs f)); [|exact (fi_sound _ _ H)].
  apply inv_run; [done|by intros id _ ?%elem_of_nil|]. apply (new_field_inv _ history state sub); [done|]. rewrite app_nil_r. intros i Hi Hin. by apply (Hd i).
Qed.
End Facts.
