(* ===== verification/OpFieldLive.v ===== *)
(** * A flush empties the queue

    The field buffer of [OpField] over the authority of [OpHistory], when nothing fails and
    nobody else writes: reads return the journal, saves succeed, and the authority accepts
    what it is sent. *)
From S2P Require Import Prelude OpContract OpHistory OpSession OpProtocol OpField OpFieldFacts.

Section Live.
Context {V Op : Type} `{!EqDecision V} `{!OperationDomain V Op} `{!ClosedDomain V Op} `{!PlainDomain V Op}.
Context (base : OperationSnapshot V).
Implicit Types (st : OperationState V Op) (f : field V Op) (e : OperationEdit Op) (edits : list (AcceptedOperation Op)).

Definition world_of edits st : world (V:=V) (Op:=Op) := mkWorld base edits st.

(** What settles next, and the journal then. A commit is decided by the authority over the
    journal as it is. *)
Definition quiet_input edits f : option (field_input V Op * list (AcceptedOperation Op)) :=
  match fd_saves f with
  | _ :: _ => Some (SaveSettles (Ok ()), edits)
  | [] =>
      match fd_refreshing f with
      | Some (Reading _) => Some (ReadSettles (Ok (mkHistory base edits)), edits)
      | Some (ReadBackoff _) => Some (ReadTimer, edits)
      | Some (RefreshEnded _) => Some (RefreshSettles, edits)
      | Some (RefreshSaving _) => None
      | None =>
          match fd_flushing f with
          | Some (Committing e _) =>
              match (head ← foldOperationHistory (mkHistory base edits); reconcileOperation (mkHistory base edits) e (snap_value head)) with
              | Ok acc => Some (CommitSettles (Ok ()), edits ++ [acc])
              | Throw err => Some (CommitSettles (Throw err), edits)
              end
          | Some (CommitBackoff _ _) => Some (CommitTimer, edits)
          | Some (DrainEnded _) => Some (FlushSettles, edits)
          | _ => None
          end
      end
  end.

Fixpoint quiet_run (fuel : nat) edits f : list (AcceptedOperation Op) * field V Op :=
  match fuel with
  | O => (edits, f)
  | S fuel => match quiet_input edits f with Some (i, edits) => quiet_run fuel edits (field_step i f) | None => (edits, f) end
  end.

Lemma quiet_run_add m n edits f : quiet_run (m + n) edits f = let '(edits', f') := quiet_run m edits f in quiet_run n edits' f'.
Proof.
  revert edits f. induction m as [|m IH]; intros edits f; [done|]. cbn [quiet_run Nat.add]. destruct (quiet_input edits f) as [[i edits']|] eqn:E; [apply IH|].
  destruct n; [done|]. cbn [quiet_run]. by rewrite E.
Qed.

(** ** Receiving the journal *)

Lemma receive_reachable edits st a st' :
  reachable (world_of edits st) → a ∈ edits → receive a st = (st', Ok ()) → reachable (world_of edits st') ∧ acc_version a ≤ snap_version (st_snapshot st').
Proof.
  intros (w0 & Ho & Hr) Ha H. split.
  - exists w0. split; [done|]. eapply rtc_r; [exact Hr|]. change (world_of edits st') with (with_session (world_of edits st) st'). by apply (step_receive _ a).
  - pose proof (receive_cases a st) as Hc. split_cases Hc; rewrite Hc in H; simplify_eq/=; lia.
Qed.

Lemma receive_all_reachable edits l st st' :
  reachable (world_of edits st) → l ⊆ edits → receive_all l st = (st', Ok ()) →
  reachable (world_of edits st') ∧ snap_version (st_snapshot st) ≤ snap_version (st_snapshot st') ∧ ∀ a, a ∈ l → acc_version a ≤ snap_version (st_snapshot st').
Proof.
  revert st. induction l as [|a l IH]; intros st Hr Hl H; cbn [receive_all] in H; [injection H as <-; split_and!; [done|lia|by intros a ?%elem_of_nil]|].
  rewrite bindM_bind in H. destruct (receive a st) as [st1 [[]|]] eqn:E; [|done].
  destruct (receive_reachable edits st a st1) as [Hr1 Hv1]; [done|apply Hl; left|done|].
  assert (Hm : snap_version (st_snapshot st) ≤ snap_version (st_snapshot st1)) by (pose proof (receive_cases a st) as Hc; split_cases Hc; rewrite Hc in E; simplify_eq/=; lia).
  destruct (IH st1) as (H1 & H2 & H3); [done|intros x Hx; apply Hl; by right|done|]. split_and!; [done|lia|]. intros b [->|Hb]%elem_of_cons; [lia|by apply H3].
Qed.

(** A session that received the whole journal is at its head. *)
Lemma caught_up edits st st' :
  reachable (world_of edits st) → receive_history (mkHistory base edits) st = (st', Ok ()) →
  reachable (world_of edits st') ∧ foldOperationHistory (mkHistory base edits) = Ok (st_snapshot st').
Proof.
  intros Hr H. unfold receive_history in H. rewrite liftM_bind in H. destruct (parse valid_history _) as [h|] eqn:Eh; [|done]. apply parse_ok in Eh as [-> _].
  rewrite getM_bind in H. destruct (_ || _); [done|]. cbn [hist_edits] in H. destruct (receive_all_reachable edits edits st st') as (Hr' & _ & Hv); [done|done|done|].
  split; [done|]. pose proof (reachable_invariant _ Hr') as Hi. pose proof (inv_snapshot _ Hi) as Hs. cbn [w_base w_edits world_of w_session] in Hs.
  rewrite take_ge in Hs; [done|]. pose proof (seen_version _ Hi) as Hsv. cbn in Hsv. destruct (inv_journal _ Hi) as [head Hf]. cbn in Hf.
  destruct edits as [|a l _] using rev_ind; [simpl; lia|]. assert (Hlast : acc_version a ≤ snap_version (st_snapshot st')) by (apply Hv, elem_of_app; right; left).
  apply foldOperationHistory_ok in Hf as [_ Hf]. cbn in Hf. apply fold_edits_spec in Hf as (Hc & _).
  destruct (contiguous_lookup _ _ (length l) a Hc) as [_ Hva]; [by rewrite lookup_app_r, Nat.sub_diag by lia|]. rewrite length_app. cbn [length]. lia.
Qed.

(** What is received again changes nothing. *)
Lemma receive_old a st : valid_accepted a = true → acc_epoch a = snap_epoch (st_snapshot st) → acc_version a ≤ snap_version (st_snapshot st) → receive a st = (st, Ok ()).
Proof.
  intros Hv He Hle. unfold receive. rewrite getM_bind. unfold parse. rewrite Hv, liftM_bind. rewrite bool_decide_eq_false_2 by (by intros H). by rewrite (proj2 (Z.leb_le _ _) Hle).
Qed.

Lemma receive_all_app l1 l2 st st1 : receive_all l1 st = (st1, Ok ()) → receive_all (l1 ++ l2) st = receive_all l2 st1.
Proof.
  revert st. induction l1 as [|a l1 IH]; intros st H; cbn [receive_all app] in *; [by injection H as ->|]. rewrite bindM_bind in *.
  destruct (receive a st) as [st2 [[]|]]; [by apply IH|done].
Qed.

Lemma receive_all_old l st :
  (∀ a, a ∈ l → valid_accepted a = true ∧ acc_epoch a = snap_epoch (st_snapshot st) ∧ acc_version a ≤ snap_version (st_snapshot st)) → receive_all l st = (st, Ok ()).
Proof.
  induction l as [|a l IH]; intros H; [done|]. cbn [receive_all]. rewrite bindM_bind. destruct (H a) as (H1 & H2 & H3); [left|]. rewrite receive_old by done. apply IH. intros b Hb. apply H. by right.
Qed.

(** ** One edit *)

Definition sealed st (p : PendingOperation Op) : OperationEdit Op := mkEdit (pend_id p) (snap_epoch (st_snapshot st)) (snap_version (st_snapshot st)) (pend_operation p).
Definition accepted_as st (p : PendingOperation Op) : AcceptedOperation Op :=
  mkAccepted (pend_id p) (snap_epoch (st_snapshot st)) (snap_version (st_snapshot st) + 1) (pend_operation p).
Definition with_sealed st (p : PendingOperation Op) : OperationState V Op := mkState (st_snapshot st) (st_pending st) (Some (sealed st p)) (st_undo st) (st_redo st).

Lemma journal_contents edits head : foldOperationHistory (mkHistory base edits) = Ok head →
  valid_history (mkHistory base edits) = true ∧ ∀ a, a ∈ edits → valid_accepted a = true ∧ acc_epoch a = snap_epoch head ∧ acc_version a ≤ snap_version head.
Proof.
  intros Hf. pose proof (fold_version _ _ Hf) as Hver. pose proof (fold_epoch _ _ Hf) as Hep. apply foldOperationHistory_ok in Hf as [Hv Hf]. cbn in *. split; [done|]. intros a Ha.
  apply fold_edits_spec in Hf as (Hc & _). unfold valid_history in Hv. cbn in Hv. apply andb_true_iff in Hv as [_ Hv]. rewrite forallb_forall in Hv.
  split; [by apply Hv, list_elem_of_In|]. apply list_elem_of_lookup in Ha as [i Hi]. destruct (contiguous_lookup _ _ _ _ Hc Hi) as [-> ->]. apply lookup_lt_Some in Hi. split; [done|lia].
Qed.

(** The authority accepts the edit that is sealed at the head of its journal. *)
Lemma sealed_is_accepted edits st p rest :
  reachable (world_of edits st) → st_inFlight st = None → st_pending st = p :: rest → foldOperationHistory (mkHistory base edits) = Ok (st_snapshot st) →
  snap_version (st_snapshot st) < MAX_SAFE_INTEGER →
  reconcileOperation (mkHistory base edits) (sealed st p) (snap_value (st_snapshot st)) = Ok (accepted_as st p).
Proof.
  intros Hr Hin Hp Hf Hmax. pose proof (reachable_invariant _ Hr) as Hi. pose proof (inv_wf _ Hi) as Hwf. cbn [world_of w_session] in Hwf.
  destruct (wf_value _ Hwf) as [v Hval]. unfold session_value in Hval. rewrite Hp in Hval. cbn [foldM] in Hval. apply bind_ok in Hval as (v1 & Hv1 & _). unfold apply_pending in Hv1.
  pose proof (wf_valid _ Hwf) as Hv. apply valid_state_parts in Hv as (Hs & Hpend & _). rewrite Hp in Hpend. cbn [forallb] in Hpend. unfold valid_pending in Hpend. unfold valid_snapshot in Hs. bool_simpl.
  pose proof (fold_version _ _ Hf) as Hver. cbn in Hver.
  unfold reconcileOperation, parse. assert (Hve : valid_edit (sealed st p) = true) by (unfold valid_edit, sealed; cbn; by rewrite !andb_true_iff).
  assert (Hids : existsb (λ a, bool_decide (acc_id a = pend_id p)) edits = false).
  { apply not_true_iff_false. intros (a & Ha & Hid)%existsb_exists. bool_simpl. apply list_elem_of_In, list_elem_of_lookup in Ha as [i Hia].
    pose proof (seen_version _ Hi) as Hseen. cbn in Hseen. destruct (inv_ours _ Hi i a) as [Hle _]; [done|unfold pending_ids; cbn; rewrite Hid, Hp; left|].
    apply lookup_lt_Some in Hia. lia. }
  rewrite Hve. cbn -[sealed]. rewrite Hf. cbn -[sealed]. rewrite (bool_decide_eq_true_2 (snap_value _ = _)) by done. cbn. rewrite (bool_decide_eq_false_2 (_ ≠ _)) by (intros Hx; by apply Hx).
  rewrite (proj2 (Z.ltb_ge _ _)) by lia. rewrite Z.ltb_irrefl. cbn. rewrite Hids. cbn. rewrite (proj2 (Z.eqb_neq _ _)) by lia. cbn.
  assert (Hop : (if requiresHistory then
     let n := Z.to_nat (snap_version (st_snapshot st) - snap_version base) in
     basis ← foldOperationHistory (mkHistory base (take n edits)); _ ← apply_op (snap_value basis) (pend_operation p); transform_over (pend_operation p) (drop (length (take n edits)) edits)
     else Ok (pend_operation p)) = Ok (pend_operation p)).
  { destruct requiresHistory; [|done]. cbv zeta. rewrite take_ge by lia. rewrite Hf. cbn. rewrite Hv1. cbn. by rewrite drop_all. }
  cbv zeta in Hop. rewrite Hop. cbn. by rewrite Hv1.
Qed.

(** Sealed, accepted and received again, an edit leaves the queue. *)
Lemma edit_settles edits st p rest :
  reachable (world_of edits st) → st_inFlight st = None → st_pending st = p :: rest → foldOperationHistory (mkHistory base edits) = Ok (st_snapshot st) →
  snap_version (st_snapshot st) < MAX_SAFE_INTEGER →
  ∃ st', receive_history (mkHistory base (edits ++ [accepted_as st p])) (with_sealed st p) = (st', Ok ())
    ∧ reachable (world_of (edits ++ [accepted_as st p]) st') ∧ foldOperationHistory (mkHistory base (edits ++ [accepted_as st p])) = Ok (st_snapshot st')
    ∧ st_pending st' = rest ∧ st_inFlight st' = None ∧ session_value st' = session_value st ∧ snap_version (st_snapshot st') = snap_version (st_snapshot st) + 1.
Proof.
  intros Hr Hin Hp Hf Hmax. set (acc := accepted_as st p). pose proof (sealed_is_accepted edits st p rest Hr Hin Hp Hf Hmax) as Hacc.
  assert (Hr1 : reachable (world_of (edits ++ [acc]) (with_sealed st p))).
  { destruct Hr as (w0 & Ho & Hr). exists w0. split; [done|]. eapply rtc_r; [eapply rtc_r; [exact Hr|]|].
    - apply step_seal. cbn. rewrite bindM_bind. destruct (nextEdit_cases st) as [(x & E & _)|[(_ & E & _)|(p' & rest' & _ & E & ->)]]; [congruence|congruence|]. cbn.
      rewrite Hp in E. injection E as <- <-. reflexivity.
    - change (world_of (edits ++ [acc]) (with_sealed st p)) with (with_accepted (world_of edits (with_sealed st p)) acc).
      apply (step_accept_own _ (sealed st p) (st_snapshot st)); [done|exact Hf|exact Hacc]. }
  pose proof (reachable_invariant _ Hr1) as Hi. destruct (inv_journal _ Hi) as [head Hf']. cbn in Hf'. unfold journal in Hf'. cbn in Hf'.
  destruct (journal_contents _ _ Hf') as [Hvh Hall]. pose proof (fold_version _ _ Hf) as Hver. cbn in Hver. pose proof (seen_version _ Hi) as Hseen. cbn in Hseen.
  destruct (acknowledgement_settles (world_of (edits ++ [acc]) (with_sealed st p)) acc) as (own & rest' & st' & Hp' & _ & _ & Hrec & Hpend & Hfl & Hval); [done| | |].
  { cbn. replace (seen _) with (length edits) by lia. by rewrite lookup_app_r, Nat.sub_diag by lia. }
  { unfold pending_ids. cbn. rewrite Hp. left. }
  cbn in Hp', Hrec, Hval. rewrite Hp in Hp'. injection Hp' as <- <-. exists st'.
  assert (Hrh : receive_history (mkHistory base (edits ++ [acc])) (with_sealed st p) = (st', Ok ())).
  { unfold receive_history, parse. rewrite Hvh, liftM_bind, getM_bind. cbn [hist_base hist_edits]. rewrite (bool_decide_eq_false_2 (_ ≠ _)) by (intros Hx; apply Hx; exact (fold_epoch _ _ Hf)).
    cbn [orb with_sealed st_snapshot]. rewrite (proj2 (Z.ltb_ge _ _)) by lia. rewrite (receive_all_app _ _ _ (with_sealed st p)).
    - cbn [receive_all]. by rewrite bindM_bind, Hrec.
    - destruct (journal_contents _ _ Hf) as [_ Hold]. by apply receive_all_old. }
  destruct (caught_up _ _ _ Hr1 Hrh) as [Hr2 Hf2]. split_and!; try done. pose proof (fold_version _ _ Hf2) as Hv2. cbn in Hv2. rewrite length_app in Hv2. cbn in Hv2. lia.
Qed.
(** ** The loop *)

(** A buffer with nothing under way. *)
Definition at_rest st (subscribed : bool) (failure : option JsError) (saved : nat) (log : list (field_event V Op)) : field V Op :=
  mkField st false subscribed failure [] saved None false false None log.

(** A drain whose refresh has ended. *)
Definition refreshed st subscribed failure saved watched sent log : field V Op :=
  mkField st false subscribed failure [] saved (Some (RefreshEnded (Ok ()))) false watched (Some (DrainRefreshing sent)) log.

(** The steps of one round: a save that lets the edit go out, the decision of the
    authority, the read of the journal, and the save of what was read. *)
Lemma turn_saved edits s subscribed failure saved e log :
  quiet_run 1 edits (mkField s false subscribed failure [s] saved None false false (Some (DrainSaving e (S saved))) log)
  = (edits, mkField s false subscribed failure [] (S saved) None false false (Some (Committing e 0)) ((log ++ [Persisted s]) ++ [Sent e])).
Proof. cbn. unfold save_settles. cbn. by rewrite Nat.eqb_refl. Qed.

Lemma turn_decided edits s subscribed failure saved e head acc log :
  foldOperationHistory (mkHistory base edits) = Ok head → reconcileOperation (mkHistory base edits) e (snap_value head) = Ok acc →
  quiet_run 1 edits (mkField s false subscribed failure [] saved None false false (Some (Committing e 0)) log)
  = (edits ++ [acc], mkField s false subscribed failure [] saved (Some (Reading 0)) false false (Some (DrainRefreshing (Some e))) log).
Proof. intros Hf Hacc. cbn -[foldOperationHistory reconcileOperation]. rewrite Hf. cbn -[foldOperationHistory reconcileOperation]. by rewrite Hacc. Qed.

Lemma turn_read edits s s' subscribed failure saved sent log :
  receive_history (mkHistory base edits) s = (s', Ok ()) →
  quiet_run 1 edits (mkField s false subscribed failure [] saved (Some (Reading 0)) false false (Some (DrainRefreshing sent)) log)
  = (edits, mkField s' false subscribed failure [s'] saved (Some (RefreshSaving (S saved))) false false (Some (DrainRefreshing sent)) log).
Proof. intros Hrec. cbn -[receive_history]. rewrite Hrec. unfold last_job. cbn. by rewrite Nat.add_1_r. Qed.

Lemma turn_reread edits s subscribed failure saved sent log :
  quiet_run 1 edits (mkField s false subscribed failure [s] saved (Some (RefreshSaving (S saved))) false false (Some (DrainRefreshing sent)) log)
  = (edits, refreshed s subscribed failure (S saved) false sent (log ++ [Persisted s])).
Proof. cbn. unfold save_settles. cbn. by rewrite Nat.eqb_refl. Qed.

Lemma turn_sealed edits s s' subscribed failure saved watched sent e log :
  st_inFlight s = None → nextEdit s = (s', Ok (Some e)) →
  quiet_run 1 edits (refreshed s subscribed failure saved watched sent log)
  = (edits, mkField s' false subscribed failure [s'] saved None false false (Some (DrainSaving e (S saved))) log).
Proof.
  intros Hin Hnext. unfold refreshed. cbn -[nextEdit]. unfold refresh_settles, drain_refreshed, drain_turn. cbn -[nextEdit].
  destruct sent; cbn -[nextEdit]; [rewrite Hin, bool_decide_eq_false_2 by done|]; rewrite Hnext; unfold last_job; cbn; by rewrite Nat.add_1_r.
Qed.

Lemma turn_over edits s subscribed failure saved watched sent log :
  st_inFlight s = None → nextEdit s = (s, Ok None) →
  quiet_run 2 edits (refreshed s subscribed failure saved watched sent log) = (edits, at_rest s subscribed None saved (log ++ [Flushed (Ok ())])).
Proof.
  intros Hin Hnext. unfold refreshed. cbn -[nextEdit]. unfold refresh_settles, drain_refreshed, drain_turn. cbn -[nextEdit].
  destruct sent; cbn -[nextEdit]; [rewrite Hin, bool_decide_eq_false_2 by done|]; by rewrite Hnext.
Qed.

(** One edit: it is sealed and saved, sent, accepted, read back and saved. *)
Lemma drain_cycle edits st p rest subscribed failure saved watched sent log :
  reachable (world_of edits st) → st_inFlight st = None → st_pending st = p :: rest → foldOperationHistory (mkHistory base edits) = Ok (st_snapshot st) →
  snap_version (st_snapshot st) < MAX_SAFE_INTEGER →
  ∃ st' log', quiet_run 5 edits (refreshed st subscribed failure saved watched sent log)
      = (edits ++ [accepted_as st p], refreshed st' subscribed failure (S (S saved)) false (Some (sealed st p)) log')
    ∧ reachable (world_of (edits ++ [accepted_as st p]) st') ∧ foldOperationHistory (mkHistory base (edits ++ [accepted_as st p])) = Ok (st_snapshot st')
    ∧ st_pending st' = rest ∧ st_inFlight st' = None ∧ session_value st' = session_value st ∧ snap_version (st_snapshot st') = snap_version (st_snapshot st) + 1.
Proof.
  intros Hr Hin Hp Hf Hmax. pose proof (sealed_is_accepted edits st p rest Hr Hin Hp Hf Hmax) as Hacc.
  destruct (edit_settles edits st p rest Hr Hin Hp Hf Hmax) as (st' & Hrec & Hrest). exists st', (((log ++ [Persisted (with_sealed st p)]) ++ [Sent (sealed st p)]) ++ [Persisted st']). split; [|exact Hrest].
  assert (Hnext : nextEdit st = (with_sealed st p, Ok (Some (sealed st p)))).
  { destruct (nextEdit_cases st) as [(x & E & _)|[(_ & E & _)|(p' & rest' & _ & E & ->)]]; [congruence|congruence|]. rewrite Hp in E. by injection E as <- <-. }
  rewrite (quiet_run_add 1 4), (turn_sealed _ _ _ _ _ _ _ _ _ _ Hin Hnext), (quiet_run_add 1 3), turn_saved, (quiet_run_add 1 2), (turn_decided _ _ _ _ _ _ _ _ _ Hf Hacc).
  by rewrite (quiet_run_add 1 1), (turn_read _ _ _ _ _ _ _ _ Hrec), turn_reread.
Qed.

Lemma drain_loop n : ∀ edits st subscribed failure saved watched sent log,
  length (st_pending st) = n → reachable (world_of edits st) → st_inFlight st = None → foldOperationHistory (mkHistory base edits) = Ok (st_snapshot st) →
  snap_version (st_snapshot st) + Z.of_nat n ≤ MAX_SAFE_INTEGER →
  ∃ fuel new st' saved' log', quiet_run fuel edits (refreshed st subscribed failure saved watched sent log) = (edits ++ new, at_rest st' subscribed None saved' (log' ++ [Flushed (Ok ())]))
    ∧ foldOperationHistory (mkHistory base (edits ++ new)) = Ok (st_snapshot st') ∧ st_pending st' = [] ∧ st_inFlight st' = None
    ∧ acc_id <$> new = pend_id <$> st_pending st ∧ session_value st' = session_value st.
Proof.
  induction n as [|n IH]; intros edits st subscribed failure saved watched sent log Hlen Hr Hin Hf Hmax.
  - destruct (st_pending st) as [|? ?] eqn:Hp; [|done]. exists 2%nat, [], st, saved, log. rewrite app_nil_r. split; [|by split_and!].
    assert (Hnext : nextEdit st = (st, Ok None)) by (destruct (nextEdit_cases st) as [(x & E & _)|[(_ & _ & ->)|(p' & rest' & _ & E & _)]]; [congruence|done|congruence]).
    by apply turn_over.
  - destruct (st_pending st) as [|p rest] eqn:Hp; [done|].
    destruct (drain_cycle edits st p rest subscribed failure saved watched sent log) as (st1 & log1 & H5 & Hr1 & Hf1 & Hp1 & Hin1 & Hval & Hver); [done..|lia|].
    destruct (IH (edits ++ [accepted_as st p]) st1 subscribed failure (S (S saved)) false (Some (sealed st p)) log1)
      as (fuel & new & st' & saved' & log' & Hrun & Hf' & Hp' & Hin' & Hids & Hval'); [rewrite Hp1; simpl in Hlen; lia|done|done|done|lia|].
    exists (5 + fuel)%nat, (accepted_as st p :: new), st', saved', log'. rewrite quiet_run_add, H5, Hrun. rewrite <- !(assoc_L (++)) in *. cbn [app] in *.
    split_and!; try done; [|congruence]. rewrite !fmap_cons. by rewrite Hids, Hp1.
Qed.

(** While nothing is in flight, receiving rebases the queue and drops nothing. *)
Lemma receive_all_queue l st st' :
  st_inFlight st = None → receive_all l st = (st', Ok ()) → st_inFlight st' = None ∧ pend_id <$> st_pending st' = pend_id <$> st_pending st.
Proof.
  revert st. induction l as [|a l IH]; intros st Hin H; cbn [receive_all] in H; [by injection H as <-|]. rewrite bindM_bind in H.
  destruct (receive a st) as [st1 [[]|]] eqn:E; [|done]. assert (H1 : st_inFlight st1 = None ∧ pend_id <$> st_pending st1 = pend_id <$> st_pending st).
  { pose proof (receive_cases a st) as Hc. split_cases Hc; rewrite Hc in E; simplify_eq/=; [done| |].
    - match goal with H : is_own _ _ = true |- _ => unfold is_own in H; by rewrite Hin in H end.
    - split; [done|]. by eapply rebase_pending_ids. }
  destruct H1 as [H1 <-]. by apply IH.
Qed.

(** C26: a flush empties the queue. The buffer is at rest; its session is reachable, has
    nothing in flight, can receive the journal as it is and is below the largest version by
    as many edits as are pending; every read, save and commit succeeds and nobody else
    writes meanwhile. Then a flush ends by itself: the journal holds every pending edit
    once, in order, behind what it held; nothing is pending or in flight; the flush has
    settled without an error; and the user sees the value of the authority. *)
Theorem flush_empties_the_queue edits st st1 subscribed failure saved log :
  reachable (world_of edits st) → st_inFlight st = None → receive_history (mkHistory base edits) st = (st1, Ok ()) →
  snap_version (st_snapshot st1) + Z.of_nat (length (st_pending st)) ≤ MAX_SAFE_INTEGER →
  ∃ fuel new st' saved' log',
    quiet_run fuel edits (field_step CallFlush (at_rest st subscribed failure saved log)) = (edits ++ new, at_rest st' subscribed None saved' (log' ++ [Flushed (Ok ())]))
    ∧ st_pending st' = [] ∧ st_inFlight st' = None ∧ acc_id <$> new = pend_id <$> st_pending st
    ∧ foldOperationHistory (mkHistory base (edits ++ new)) = Ok (st_snapshot st') ∧ session_value st' = Ok (snap_value (st_snapshot st')).
Proof.
  intros Hr Hin Hrec Hmax. destruct (caught_up _ _ _ Hr Hrec) as [Hr1 Hf1].
  assert (Hq : st_inFlight st1 = None ∧ pend_id <$> st_pending st1 = pend_id <$> st_pending st).
  { pose proof Hrec as H. unfold receive_history in H. rewrite liftM_bind in H. destruct (parse valid_history _) as [h|] eqn:Eh; [|done]. apply parse_ok in Eh as [-> _].
    rewrite getM_bind in H. destruct (_ || _); [done|]. by eapply receive_all_queue. }
  destruct Hq as [Hin1 Hids]. assert (Hlen : length (st_pending st1) = length (st_pending st)) by (by rewrite <- (length_fmap pend_id), Hids, length_fmap).
  destruct (drain_loop (length (st_pending st1)) edits st1 subscribed failure (S saved) false None (log ++ [Persisted st1])) as (fuel & new & st' & saved' & log' & Hrun & Hf' & Hp' & Hin' & Hnew & _); [done..|lia|].
  exists (1 + (1 + fuel))%nat, new, st', saved', log'. split.
  - cbn [field_step]. rewrite flush_run. cbn [at_rest fd_closed fd_flushing fst]. unfold call_refresh, refresh_turn. cbn -[quiet_run Nat.add].
    unfold set_flushing, set_refreshing, set_invalidated. cbn -[quiet_run Nat.add].
    by rewrite (quiet_run_add 1 (1 + fuel)), (turn_read _ _ _ _ _ _ _ _ Hrec), (quiet_run_add 1 fuel), turn_reread.
  - split_and!; try done; [congruence|]. unfold session_value. by rewrite Hp'.
Qed.
End Live.
