(* ===== verification/OpText.v ===== *)
(** * The text domain

    [commit/text/operations.ts] and [contract.ts]: plain text edited by operations that
    keep, insert and delete. The operational transformation is a library
    ([ot-text-unicode]), so its functions are parameters; what the code adds is the check
    of an operation against the text it is for, which the library does not make, and which
    makes every operation invertible. *)
From S2P Require Import Prelude OpContract OpHistory.

(** ** Text and operations *)

(** Text is the list of its code points, [Array.from(value)]; a code point over 65535 is
    two UTF-16 units, and a surrogate that is a code point of its own is unpaired. *)
Definition text := list Z.
Definition utf16_units (c : Z) : Z := if 65535 <? c then 2 else 1.
Definition utf16_length (t : text) : Z := foldr (λ c n, utf16_units c + n) 0 t.
Definition surrogate (c : Z) : bool := (55296 <=? c) && (c <=? 57343).
Definition textValueSchema (t : text) : bool := (utf16_length t <=? 1000000) && forallb (λ c, negb (surrogate c)) t.
Definition nonemptyTextSchema (t : text) : bool := textValueSchema t && match t with [] => false | _ => true end.
Definition countSchema (n : Z) : bool := (1 <=? n) && (n <=? MAX_SAFE_INTEGER).

Inductive component := Keep (n : Z) | Insert (t : text) | DeleteCount (n : Z) | DeleteText (t : text).
#[export] Instance component_eq_dec : EqDecision component.
Proof. solve_decision. Defined.
Definition TextOperation := list component.

Definition componentSchema (c : component) : bool :=
  match c with Keep n | DeleteCount n => countSchema n | Insert t | DeleteText t => nonemptyTextSchema t end.
Definition textOperationSchema (o : TextOperation) : bool := (Z.of_nat (length o) <=? 4096) && forallb componentSchema o.

(** ** The check *)

(** The loop of [invertibleOperation]; [characters] are those from [position] on. *)
Fixpoint check_components (characters : text) (o : TextOperation) : result TextOperation :=
  match o with
  | [] => Ok []
  | Insert t :: o => rest ← check_components characters o; Ok (Insert t :: rest)
  | c :: o =>
      let count := match c with Keep n | DeleteCount n => n | DeleteText t | Insert t => Z.of_nat (length t) end in
      if Z.of_nat (length characters) <? count then Throw invalid_input
      else
        let deleted := take (Z.to_nat count) characters in
        let after := drop (Z.to_nat count) characters in
        match c with
        | Keep n => rest ← check_components after o; Ok (Keep n :: rest)
        | DeleteText t => if negb (bool_decide (t = deleted)) then Throw invalid_input else rest ← check_components after o; Ok (DeleteText deleted :: rest)
        | _ => rest ← check_components after o; Ok (DeleteText deleted :: rest)
        end
  end.

Definition invertibleOperation (value : text) (input : TextOperation) : result TextOperation :=
  characters ← parse textValueSchema value;
  operation ← parse textOperationSchema input;
  check_components characters operation.

(** ** What an operation means *)

(** The text an operation makes of another: what it does not reach is kept. *)
Fixpoint applied (t : text) (o : TextOperation) : text :=
  match o with
  | [] => t
  | Keep n :: o => take (Z.to_nat n) t ++ applied (drop (Z.to_nat n) t) o
  | Insert s :: o => s ++ applied t o
  | DeleteCount n :: o => applied (drop (Z.to_nat n) t) o
  | DeleteText s :: o => applied (drop (length s) t) o
  end.

Definition inverted (o : TextOperation) : TextOperation :=
  (λ c, match c with Keep n => Keep n | Insert s => DeleteText s | DeleteCount n => DeleteCount n | DeleteText s => Insert s end) <$> o.

(** An operation is within a text, and deletes what is there. *)
Fixpoint fits (t : text) (o : TextOperation) : Prop :=
  match o with
  | [] => True
  | Keep n :: o | DeleteCount n :: o => n ≤ Z.of_nat (length t) ∧ fits (drop (Z.to_nat n) t) o
  | Insert s :: o => fits t o
  | DeleteText s :: o => take (length s) t = s ∧ fits (drop (length s) t) o
  end.

(** Each deletion names the text it deletes. *)
Definition explicit (o : TextOperation) : Prop := ∀ n, DeleteCount n ∉ o.

Lemma take_length_le {A} (l s : list A) : take (length s) l = s → (length s ≤ length l)%nat.
Proof. intros H. rewrite <- H at 1. rewrite length_take. lia. Qed.

Lemma check_spec o : forallb componentSchema o = true → ∀ t,
  (∃ o', check_components t o = Ok o' ∧ fits t o ∧ explicit o' ∧ fits t o' ∧ applied t o' = applied t o ∧ length o' = length o)
  ∨ (check_components t o = Throw invalid_input ∧ ¬ fits t o).
Proof.
  induction o as [|c o IH]; intros Hv t; [left; exists []; split_and!; try done; by intros n ?%elem_of_nil|].
  cbn [forallb] in Hv. apply andb_true_iff in Hv as [Hc Hv]. specialize (IH Hv).
  assert (Hcons : ∀ c' o', (∀ n, c' ≠ DeleteCount n) → explicit o' → explicit (c' :: o')) by (intros c' o' H1 H2 n [E|E]%elem_of_cons; [by apply (H1 n)|by apply (H2 n)]).
  destruct c as [n|s|n|s]; cbn [check_components componentSchema fits applied] in *.
  - unfold countSchema in Hc. bool_simpl. destruct (Z.ltb_spec (Z.of_nat (length t)) n); [right; split; [done|intros [? _]; lia]|].
    destruct (IH (drop (Z.to_nat n) t)) as [(o' & -> & K1 & K2 & K3 & K4 & K5)|[-> K1]]; [left|right; split; [done|by intros [_ ?]]]. cbn. exists (Keep n :: o'). cbn. split_and!; try done; [by apply Hcons|by rewrite K4|by rewrite K5].
  - destruct (IH t) as [(o' & -> & K1 & K2 & K3 & K4 & K5)|[-> K1]]; [left|by right]. cbn. exists (Insert s :: o'). cbn. split_and!; try done; [by apply Hcons|by rewrite K4|by rewrite K5].
  - unfold countSchema in Hc. bool_simpl. destruct (Z.ltb_spec (Z.of_nat (length t)) n); [right; split; [done|intros [? _]; lia]|].
    assert (Hl : length (take (Z.to_nat n) t) = Z.to_nat n) by (rewrite length_take; lia).
    destruct (IH (drop (Z.to_nat n) t)) as [(o' & -> & K1 & K2 & K3 & K4 & K5)|[-> K1]]; [left|right; split; [done|by intros [_ ?]]].
    cbn. exists (DeleteText (take (Z.to_nat n) t) :: o'). cbn. rewrite Hl. split_and!; try done; [by apply Hcons|by rewrite K5].
  - destruct (Z.ltb_spec (Z.of_nat (length t)) (Z.of_nat (length s))); [right; split; [done|intros [?%take_length_le _]; lia]|]. rewrite Nat2Z.id.
    destruct (decide (s = take (length s) t)) as [Hs|Hs]; [|right; rewrite (bool_decide_eq_false_2 (s = _)) by done; split; [done|intros [? _]; congruence]].
    rewrite (bool_decide_eq_true_2 (s = _)) by done. cbn [negb]. rewrite <- Hs.
    destruct (IH (drop (length s) t)) as [(o' & -> & K1 & K2 & K3 & K4 & K5)|[-> K1]]; [left|right; split; [done|by intros [_ ?]]].
    cbn. exists (DeleteText s :: o'). cbn. split_and!; try done; [by apply Hcons|by rewrite K5].
Qed.

(** What is deleted by name can be inserted again, and the other way round. *)
Lemma inverted_applies o : ∀ t, explicit o → fits t o → fits (applied t o) (inverted o) ∧ applied (applied t o) (inverted o) = t.
Proof.
  induction o as [|c o IH]; intros t He Hf; [done|]. assert (He' : explicit o) by (intros n Hn; apply (He n); by right).
  destruct c as [n|s|n|s]; cbn [applied inverted fmap list_fmap fits] in *; fold (inverted o).
  - destruct Hf as [Hn Hf]. destruct (IH _ He' Hf) as [H1 H2]. assert (Hl : length (take (Z.to_nat n) t) = Z.to_nat (Z.max 0 n)) by (rewrite length_take; lia).
    rewrite length_app. assert (Hd : drop (Z.to_nat n) (take (Z.to_nat n) t ++ applied (drop (Z.to_nat n) t) o) = applied (drop (Z.to_nat n) t) o) by (apply drop_app_length'; rewrite length_take; lia).
    rewrite Hd, H2. split_and!; [rewrite length_take; lia|done|]. rewrite take_app_length' by (rewrite length_take; lia). apply take_drop.
  - destruct (IH _ He' Hf) as [H1 H2]. by rewrite take_app_length, drop_app_length.
  - exfalso. apply (He n). left.
  - destruct Hf as [Hs Hf]. destruct (IH _ He' Hf) as [H1 H2]. split; [done|]. rewrite H2. rewrite <- Hs at 1. apply take_drop.
Qed.

(** ** Validity *)

Lemma utf16_length_app s t : utf16_length (s ++ t) = utf16_length s + utf16_length t.
Proof. induction s as [|c s IH]; [done|]. cbn [app]. change (utf16_units c + utf16_length (s ++ t) = utf16_units c + utf16_length s + utf16_length t). lia. Qed.
Lemma utf16_length_nonneg t : 0 ≤ utf16_length t.
Proof. induction t as [|c t IH]; [done|]. change (0 ≤ utf16_units c + utf16_length t). unfold utf16_units. destruct (_ <? _); lia. Qed.

Lemma text_parts s t : textValueSchema (s ++ t) = true → textValueSchema s = true ∧ textValueSchema t = true.
Proof.
  unfold textValueSchema. rewrite forallb_app, utf16_length_app. intros [Hl [H1 H2]%andb_true_iff]%andb_true_iff. rewrite H1, H2, !andb_true_r. rewrite Z.leb_le in *.
  pose proof (utf16_length_nonneg s). pose proof (utf16_length_nonneg t). split; apply Z.leb_le; lia.
Qed.

(** The check makes admitted operations of admitted ones. *)
Lemma check_valid o : ∀ t o', textValueSchema t = true → forallb componentSchema o = true → check_components t o = Ok o' → forallb componentSchema o' = true.
Proof.
  induction o as [|c o IH]; intros t o' Ht Hv H; cbn [check_components forallb] in *; [by injection H as <-|]. apply andb_true_iff in Hv as [Hc Hv].
  assert (Hd : ∀ n, textValueSchema (drop n t) = true) by (intros n; rewrite <- (take_drop n t) in Ht; by apply text_parts in Ht as [_ ?]).
  assert (Hk : ∀ c n, componentSchema c = true → (rest ← check_components (drop n t) o; Ok (c :: rest)) = Ok o' → forallb componentSchema o' = true).
  { intros c' n Hc' Hx. apply bind_ok in Hx as (rest & Hrest & [= <-]). cbn [forallb]. rewrite Hc'. by eapply IH; [apply (Hd n)| |]. }
  destruct c as [n|s|n|s].
  - destruct (_ <? _); [done|]. by eapply Hk.
  - apply bind_ok in H as (rest & Hrest & [= <-]). cbn [forallb]. rewrite Hc. by eapply IH.
  - destruct (Z.ltb_spec (Z.of_nat (length t)) n) as [|Hle]; [done|]. refine (Hk _ _ _ H). cbn [componentSchema] in *. unfold nonemptyTextSchema, countSchema in *. bool_simpl.
    rewrite <- (take_drop (Z.to_nat n) t) in Ht. apply text_parts in Ht as [-> _]. destruct (take (Z.to_nat n) t) eqn:E; [|done].
    apply (f_equal length) in E. rewrite length_take in E. cbn in E. lia.
  - destruct (_ <? _); [done|]. case_bool_decide as Hs; cbn [negb] in H; [|done]. rewrite <- Hs in H. by eapply Hk.
Qed.

Lemma inverted_valid o : explicit o → forallb componentSchema o = true → forallb componentSchema (inverted o) = true.
Proof.
  induction o as [|c o IH]; intros He Hv; [done|]. cbn [inverted fmap list_fmap forallb] in *. fold (inverted o). apply andb_true_iff in Hv as [Hc Hv].
  rewrite IH; [|intros n Hn; apply (He n); by right|done]. destruct c; cbn in *; by rewrite Hc.
Qed.

(** No component is empty. *)
Definition proper (c : component) : Prop := match c with Keep n | DeleteCount n => 1 ≤ n | Insert s | DeleteText s => s ≠ [] end.

Lemma componentSchema_proper o : forallb componentSchema o = true → Forall proper o.
Proof.
  rewrite forallb_forall, Forall_forall. intros H c Hc. apply list_elem_of_In, H in Hc. destruct c as [n|s|n|s]; cbn in *; unfold countSchema, nonemptyTextSchema in Hc; bool_simpl; try lia; by destruct s.
Qed.

Lemma length_utf16 t : Z.of_nat (length t) ≤ utf16_length t.
Proof. induction t as [|c t IH]; [done|]. change (Z.of_nat (S (length t)) ≤ utf16_units c + utf16_length t). unfold utf16_units. destruct (_ <? _); lia. Qed.

Lemma count_of_text n t : textValueSchema t = true → 1 ≤ n → n ≤ Z.of_nat (length t) → countSchema n = true.
Proof.
  unfold textValueSchema, countSchema, MAX_SAFE_INTEGER. intros [Ht _]%andb_true_iff H1 H2. apply Z.leb_le in Ht. pose proof (length_utf16 t).
  apply andb_true_iff. split; apply Z.leb_le; lia.
Qed.

Lemma text_of_parts n t : textValueSchema t = true → textValueSchema (take n t) = true ∧ textValueSchema (drop n t) = true.
Proof. intros Ht. apply text_parts. by rewrite take_drop. Qed.

(** An operation between two admitted texts has no component that is too long: what it
    inserts is in the text after, and what it keeps or deletes in the text before. *)
Lemma fitting_admitted o : ∀ t,
  Forall proper o → fits t o → textValueSchema t = true → textValueSchema (applied t o) = true → forallb componentSchema o = true.
Proof.
  induction o as [|c o IH]; intros t Hp Hf Ht Ha; [done|]. apply Forall_cons in Hp as [Hc Hp]. cbn [forallb]. apply andb_true_iff.
  destruct c as [n|s|n|s]; cbn [fits applied componentSchema proper] in *.
  - destruct Hf as [Hn Hf]. apply text_parts in Ha as [_ Ha]. split; [by apply (count_of_text n t)|]. apply (IH _ Hp Hf); [by apply text_of_parts|done].
  - apply text_parts in Ha as [Hs Ha]. split; [unfold nonemptyTextSchema; rewrite Hs; by destruct s|by apply (IH t)].
  - destruct Hf as [Hn Hf]. split; [by apply (count_of_text n t)|]. apply (IH _ Hp Hf); [by apply text_of_parts|done].
  - destruct Hf as [Hs Hf]. destruct (text_of_parts (length s) t Ht) as [H1 H2]. rewrite Hs in H1. split; [unfold nonemptyTextSchema; rewrite H1; by destruct s|by apply (IH _ Hp Hf)].
Qed.

Lemma inverted_explicit o : explicit o → explicit (inverted o).
Proof. intros He n (c & E & Hc)%list_elem_of_fmap. destruct c; try done. injection E as ->. by apply (He n0). Qed.

(** ** The operations *)

Section Library.
Context (ot_normalize : TextOperation → TextOperation) (ot_apply : text → TextOperation → result text).
Context (ot_invert : TextOperation → TextOperation) (ot_transform : TextOperation → TextOperation → side → result TextOperation).

Definition applyTextOperation (value : text) (operation : TextOperation) : result text :=
  o ← invertibleOperation value operation;
  t ← ot_apply value (ot_normalize o);
  parse textValueSchema t.

Definition invertTextOperation (value : text) (operation : TextOperation) : result TextOperation :=
  o ← invertibleOperation value operation;
  Ok (ot_invert (ot_normalize o)).

Definition transformTextOperation (operation concurrent : TextOperation) (s : side) : result TextOperation :=
  o ← parse textOperationSchema operation;
  c ← parse textOperationSchema concurrent;
  ot_transform (ot_normalize o) (ot_normalize c) s.

Definition textDomain : OperationDomain text TextOperation :=
  {| requiresHistory := true; valid_value := textValueSchema; valid_operation := textOperationSchema;
     apply_op := applyTextOperation; invert_op := invertTextOperation; transform_op := transformTextOperation |}.

(** What the library documents, of admitted operations that name what they delete: applying
    one within a text goes component by component; normalizing joins neighbours and drops a
    last keep, which leaves no component empty, makes the operation no longer and changes
    neither whether it fits nor what it makes; inverting exchanges insertions and named
    deletions. A joined component may be longer than what the schema admits. *)
Hypothesis applies : ∀ t o, textOperationSchema o = true → explicit o → fits t o → ot_apply t (ot_normalize o) = Ok (applied t o).
Hypothesis normalizes : ∀ t o, textOperationSchema o = true → explicit o → fits t o →
  Forall proper (ot_normalize o) ∧ (length (ot_normalize o) ≤ length o)%nat ∧ explicit (ot_normalize o)
  ∧ fits t (ot_normalize o) ∧ applied t (ot_normalize o) = applied t o.
Hypothesis inverts : ∀ o, textOperationSchema o = true → explicit o → ot_invert (ot_normalize o) = ot_normalize (inverted o).

Lemma invertible_spec v o :
  textValueSchema v = true → textOperationSchema o = true →
  (∃ o', invertibleOperation v o = Ok o' ∧ fits v o ∧ explicit o' ∧ fits v o' ∧ applied v o' = applied v o ∧ textOperationSchema o' = true)
  ∨ (invertibleOperation v o = Throw invalid_input ∧ ¬ fits v o).
Proof.
  intros Hv Ho. unfold invertibleOperation, parse. rewrite Hv, Ho. cbn. unfold textOperationSchema in Ho. apply andb_true_iff in Ho as [Hl Ho].
  destruct (check_spec o Ho v) as [(o' & E & H1 & H2 & H3 & H4 & H5)|[-> H]]; [left|by right]. exists o'. split_and!; try done.
  unfold textOperationSchema. rewrite H5, Hl. by eapply check_valid.
Qed.

Lemma apply_spec v o v' :
  applyTextOperation v o = Ok v' ↔ textValueSchema v = true ∧ textOperationSchema o = true ∧ fits v o ∧ v' = applied v o ∧ textValueSchema v' = true.
Proof.
  unfold applyTextOperation. rewrite bind_ok. split.
  - intros (o' & Ho' & H). pose proof Ho' as Hx. unfold invertibleOperation in Hx. apply bind_ok in Hx as (? & [-> Hv]%parse_ok & Hx). apply bind_ok in Hx as (? & [-> Ho]%parse_ok & _).
    destruct (invertible_spec v o Hv Ho) as [(o2 & E & H1 & H2 & H3 & H4 & H5)|[E _]]; [|congruence]. rewrite Ho' in E. injection E as <-.
    rewrite (applies _ _ H5 H2 H3), H4 in H. cbn in H. apply parse_ok in H as [-> Hv']. done.
  - intros (Hv & Ho & Hf & -> & Hv'). destruct (invertible_spec v o Hv Ho) as [(o2 & E & H1 & H2 & H3 & H4 & H5)|[_ E]]; [|done]. exists o2. split; [done|].
    rewrite (applies _ _ H5 H2 H3), H4. cbn. by apply parse_ok.
Qed.

Lemma invert_spec v o v' : applyTextOperation v o = Ok v' → ∃ inverse, invertTextOperation v o = Ok inverse ∧ applyTextOperation v' inverse = Ok v ∧ textOperationSchema inverse = true.
Proof.
  intros (Hv & Ho & Hf & -> & Hv')%apply_spec. destruct (invertible_spec v o Hv Ho) as [(o' & E & _ & He & Hf' & Ha & Ho')|[_ H]]; [|done].
  unfold invertTextOperation. rewrite E. cbn. rewrite (inverts _ Ho' He). exists (ot_normalize (inverted o')). split; [done|].
  destruct (inverted_applies o' v He Hf') as [H1 H2]. rewrite Ha in H1, H2.
  assert (Hi : textOperationSchema (inverted o') = true).
  { unfold textOperationSchema in *. apply andb_true_iff in Ho' as [Hl Ho']. unfold inverted at 1. rewrite length_fmap, Hl. by apply inverted_valid. }
  destruct (normalizes _ _ Hi (inverted_explicit _ He) H1) as (N1 & N2 & _ & N3 & N4). rewrite H2 in N4.
  assert (Hn : textOperationSchema (ot_normalize (inverted o')) = true).
  { unfold textOperationSchema. apply andb_true_iff. split; [unfold textOperationSchema in Hi; apply andb_true_iff in Hi as [Hi _]; rewrite Z.leb_le in *; lia|].
    apply (fitting_admitted _ (applied v o)); [done..|by rewrite N4]. }
  split; [|done]. apply apply_spec. by rewrite N4.
Qed.

(** C27: an edit of a text is applied exactly when text and operation are admitted, the
    operation stays within the text, deletes by name only what is there and leaves an
    admitted text; then the result is what the operation means, and the inverse built for
    it, whose deletions by count were given the text they delete, is an admitted edit that
    gives the text before back. An admitted operation that does not fit an admitted text is
    refused as invalid input. *)
Theorem text_edits_are_checked v o :
  (∀ v', applyTextOperation v o = Ok v' ↔ textValueSchema v = true ∧ textOperationSchema o = true ∧ fits v o ∧ v' = applied v o ∧ textValueSchema v' = true)
  ∧ (∀ v', applyTextOperation v o = Ok v' → ∃ inverse, invertTextOperation v o = Ok inverse ∧ applyTextOperation v' inverse = Ok v ∧ textOperationSchema inverse = true)
  ∧ (textValueSchema v = true → textOperationSchema o = true → ¬ fits v o → applyTextOperation v o = Throw invalid_input).
Proof.
  split_and!; [intros v'; apply apply_spec|intros v'; apply invert_spec|]. intros Hv Ho Hn. destruct (invertible_spec v o Hv Ho) as [(o' & _ & H & _)|[E _]]; [done|].
  unfold applyTextOperation. by rewrite E.
Qed.

#[export] Instance text_inverts : @InvertLaw text TextOperation textDomain.
Proof. constructor. cbn. intros v o o' v' H Ho'. destruct (invert_spec v o v' H) as (inverse & E & Ha & _). congruence. Qed.
#[export] Instance text_plain : @PlainDomain text TextOperation textDomain.
Proof. constructor. done. Qed.
End Library.

(** *** A library that does what is said of it *)

(** Joining neighbours, from the right; a last keep goes. *)
Definition join (c : component) (o : TextOperation) : TextOperation :=
  match c, o with
  | Keep _, [] => []
  | Keep n, Keep m :: o => Keep (n + m) :: o
  | Insert s, Insert t :: o => Insert (s ++ t) :: o
  | DeleteCount n, DeleteCount m :: o => DeleteCount (n + m) :: o
  | DeleteText s, DeleteText t :: o => DeleteText (s ++ t) :: o
  | _, _ => c :: o
  end.
Definition joined (o : TextOperation) : TextOperation := foldr join [] o.
Definition plain_apply (t : text) (o : TextOperation) : result text := Ok (applied t o).

Lemma join_spec c o t :
  proper c → Forall proper o → fits t (c :: o) →
  Forall proper (join c o) ∧ (length (join c o) ≤ S (length o))%nat ∧ (explicit (c :: o) → explicit (join c o))
  ∧ fits t (join c o) ∧ applied t (join c o) = applied t (c :: o).
Proof.
  intros Hc Ho Hf.
  assert (Hsame : join c o = c :: o → Forall proper (join c o) ∧ (length (join c o) ≤ S (length o))%nat ∧ (explicit (c :: o) → explicit (join c o)) ∧ fits t (join c o) ∧ applied t (join c o) = applied t (c :: o)).
  { intros ->. split_and!; try done. by constructor. }
  assert (Hex : ∀ c1 c2 c3 : component, ∀ o, (∀ n, c3 ≠ DeleteCount n) → explicit (c1 :: c2 :: o) → explicit (c3 :: o)).
  { intros c1 c2 c3 o1 H3 H n [E|Hn]%elem_of_cons; [by apply (H3 n)|]. apply (H n). by right; right. }
  destruct c as [n|s|n|s], o as [|[m|s'|m|s'] o]; try (apply Hsame; reflexivity); clear Hsame; cbn [join fits applied proper length] in *;
    try (apply Forall_cons in Ho as [Hm Ho]; cbn [proper] in Hm).
  - split_and!; [constructor|lia|intros _ k ?%elem_of_nil; done|done|by rewrite take_drop].
  - destruct Hf as (Hn & Hm' & Hf). rewrite length_drop in Hm'. rewrite drop_drop in *. rewrite <- Z2Nat.inj_add in * by lia. rewrite (Z2Nat.inj_add n m), <- take_take_drop by lia.
    rewrite <- (Z2Nat.inj_add n m) by lia. split_and!; [constructor; [cbn; lia|done]|lia|by apply Hex|lia|done|by rewrite app_assoc].
  - split_and!; [constructor; [by destruct s|done]|lia|by apply Hex|done|by rewrite app_assoc].
  - destruct Hf as (Hn & Hm' & Hf). rewrite length_drop in Hm'. rewrite drop_drop, <- Z2Nat.inj_add in * by lia.
    split_and!; [constructor; [cbn; lia|done]|lia| |lia|done|done]. intros H. exfalso. apply (H n). left.
  - destruct Hf as (Hs & Hs' & Hf). rewrite length_app, drop_drop in *. split_and!; [constructor; [by destruct s|done]|lia|by apply Hex| |done|done].
    by rewrite <- take_take_drop, Hs, Hs'.
Qed.

Lemma joined_spec o : Forall proper o → ∀ t, fits t o →
  Forall proper (joined o) ∧ (length (joined o) ≤ length o)%nat ∧ (explicit o → explicit (joined o)) ∧ fits t (joined o) ∧ applied t (joined o) = applied t o.
Proof.
  induction o as [|c o IH]; intros Hp t Hf; [by split_and!|]. apply Forall_cons in Hp as [Hc Hp]. change (joined (c :: o)) with (join c (joined o)).
  assert (Hrest : ∃ t', fits t' o ∧ (∀ o', fits t' o' → fits t (c :: o')) ∧ ∀ o', applied t' o' = applied t' o → applied t (c :: o') = applied t (c :: o)).
  { destruct c as [n|s|n|s]; cbn [fits applied] in *; [exists (drop (Z.to_nat n) t)|exists t|exists (drop (Z.to_nat n) t)|exists (drop (length s) t)]; naive_solver congruence. }
  destruct Hrest as (t' & H1 & H2 & H3). destruct (IH Hp t' H1) as (I1 & I2 & I3 & I4 & I5). destruct (join_spec c (joined o) t Hc I1 (H2 _ I4)) as (J1 & J2 & J3 & J4 & J5).
  split_and!; [done|cbn; lia| |done|rewrite J5; by apply H3]. intros He. apply J3. intros n [E|Hn]%elem_of_cons; [apply (He n); rewrite E; left|].
  apply (I3 (λ k Hk, He k (list_elem_of_further _ _ _ Hk)) n Hn).
Qed.

Lemma joined_inverted o : inverted (joined o) = joined (inverted o).
Proof.
  induction o as [|c o IH]; [done|]. change (joined (c :: o)) with (join c (joined o)). change (inverted (c :: o)) with (inverted [c] ++ inverted o). destruct c; cbn [inverted fmap list_fmap app];
    (match goal with |- _ = joined (?c' :: _) => change (joined (c' :: inverted o)) with (join c' (joined (inverted o))) end); rewrite <- IH; by destruct (joined o) as [|[]].
Qed.

Lemma joined_applies t o : textOperationSchema o = true → explicit o → fits t o → plain_apply t (joined o) = Ok (applied t o).
Proof. intros [_ Ho]%andb_true_iff _ Hf. unfold plain_apply. f_equal. by apply (joined_spec o (componentSchema_proper o Ho)). Qed.

Lemma joined_normalizes t o : textOperationSchema o = true → explicit o → fits t o →
  Forall proper (joined o) ∧ (length (joined o) ≤ length o)%nat ∧ explicit (joined o) ∧ fits t (joined o) ∧ applied t (joined o) = applied t o.
Proof. intros [_ Ho]%andb_true_iff He Hf. destruct (joined_spec o (componentSchema_proper o Ho) t Hf) as (H1 & H2 & H3 & H4 & H5). by split_and!; auto. Qed.

(** For a text of three letters. *)
Definition abc : text := [97; 98; 99].
Definition two_inserts : TextOperation := [Keep 1; DeleteCount 1; Insert [120]; Insert [121]; Keep 1].

Lemma text_edits_are_checked_witness :
  let apply_ := applyTextOperation joined plain_apply in
  apply_ abc two_inserts = Ok [97; 120; 121; 99]
  ∧ (∃ inverse, invertTextOperation joined inverted abc two_inserts = Ok inverse ∧ inverse = [Keep 1; Insert [98]; DeleteText [120; 121]] ∧ apply_ [97; 120; 121; 99] inverse = Ok abc)
  ∧ apply_ abc [Keep 1; DeleteText [99]] = Throw invalid_input.
Proof.
  pose proof (text_edits_are_checked joined plain_apply inverted joined_applies joined_normalizes (λ o _ _, joined_inverted o) abc) as Hall.
  destruct (Hall two_inserts) as (_ & H & _). destruct (Hall [Keep 1; DeleteText [99]]) as (_ & _ & H').
  cbv zeta. split_and!; [reflexivity| |apply H'; [reflexivity|reflexivity|by intros (_ & ? & _)]].
  destruct (H [97; 120; 121; 99]) as (inverse & Hi & Ha & _); [reflexivity|]. exists inverse. split_and!; [done| |done]. vm_compute in Hi. by injection Hi as <-.
Defined.
