(* ===== verification/OpCounter.v ===== *)
(** * The counter domain

    [commit/counter/index.ts]: a numeric field edited by increments. Values and
    amounts are safe integers; an edit whose result leaves that range is refused.
    The domain satisfies every law of [OpContract], so the session and protocol
    theorems hold of it without assumption. *)
From S2P Require Import Prelude OpContract OpHistory OpSession.

Definition counterValueSchema (n : Z) : bool := is_safe_integer n.
Definition counterOperationSchema (n : Z) : bool := counterValueSchema n.

Definition applyCounterOperation (value amount : Z) : result Z :=
  v ← parse counterValueSchema value;
  a ← parse counterOperationSchema amount;
  let res := v + a in
  if negb (is_safe_integer res) then Throw invalid_input else Ok res.

#[export] Instance counterDomain : OperationDomain Z Z := {
  requiresHistory := false;
  valid_value := counterValueSchema;
  valid_operation := counterOperationSchema;
  apply_op := applyCounterOperation;
  invert_op := λ value amount, _ ← applyCounterOperation value amount; Ok (- amount);
  transform_op := λ amount _concurrent _side, parse counterOperationSchema amount;
}.

Definition foldCounterHistory : OperationHistory Z Z → result (OperationSnapshot Z) :=
  foldOperationHistory.
Definition reconcileCounterEdit : OperationHistory Z Z → OperationEdit Z → Z →
    result (AcceptedOperation Z) := reconcileOperation.
Definition CounterSession : OperationState Z Z → result (OperationState Z Z) := new_session.

(** An increment returns exactly when the value, the amount and the sum are safe
    integers, and then it returns the sum. *)
Lemma applyCounterOperation_ok value amount res :
  applyCounterOperation value amount = Ok res ↔
  is_safe_integer value = true ∧ is_safe_integer amount = true
  ∧ is_safe_integer (value + amount) = true ∧ res = value + amount.
Proof.
  unfold applyCounterOperation, parse, counterOperationSchema, counterValueSchema.
  destruct (is_safe_integer value), (is_safe_integer amount); simpl; try naive_solver.
  destruct (is_safe_integer (value + amount)); simpl; naive_solver.
Qed.

Lemma is_safe_integer_opp n : is_safe_integer n = true → is_safe_integer (- n) = true.
Proof.
  unfold is_safe_integer, MIN_SAFE_INTEGER. intros H. bool_simpl.
  apply andb_true_iff; rewrite !Z.leb_le. lia.
Qed.

#[export] Instance counter_plain : PlainDomain Z Z.
Proof. split. intros _ o c s o' H. simpl in H. by apply parse_ok in H as [-> _]. Qed.

#[export] Instance counter_closed : ClosedDomain Z Z.
Proof.
  split; simpl.
  - intros a b s a' Ha H. by apply parse_ok in H as [-> _].
  - intros v a a' Ha H. result_inv. by apply is_safe_integer_opp.
  - intros v a v' H. apply applyCounterOperation_ok in H as (_ & _ & H & ->). done.
Qed.

#[export] Instance counter_transform : TransformLaw Z Z.
Proof.
  split; simpl. intros v a b va vb a' b' Ha Hb Ha' Hb'.
  apply parse_ok in Ha' as [-> Ha']. apply parse_ok in Hb' as [-> Hb'].
  apply applyCounterOperation_ok in Ha as (Hv & _ & Hva & ->).
  apply applyCounterOperation_ok in Hb as (_ & _ & Hvb & ->).
  unfold applyCounterOperation, parse, counterOperationSchema, counterValueSchema in *.
  rewrite Hva, Hvb, Ha', Hb'; simpl. replace (v + b + a) with (v + a + b) by lia.
  by destruct (is_safe_integer (v + a + b)).
Qed.

#[export] Instance counter_invert : InvertLaw Z Z.
Proof.
  split; simpl. intros v o o' v' Ha Hi. result_inv.
  apply applyCounterOperation_ok in Ha as (Hv & Ho & Hs & ->).
  apply applyCounterOperation_ok. replace (v + o + - o) with v by lia.
  auto using is_safe_integer_opp.
Qed.

(** C5: A counter never leaves the safe integer range and never loses an
    increment. When a counter history folds, its value is the base value plus
    the sum of every accepted amount, and both that value and every amount are
    safe integers, however the increments were ordered. *)
Theorem counter_history_sums h head :
  foldCounterHistory h = Ok head →
  snap_value head = foldr Z.add (snap_value (hist_base h)) (acc_operation <$> hist_edits h)
  ∧ is_safe_integer (snap_value head) = true
  ∧ Forall (λ n, is_safe_integer n = true) (acc_operation <$> hist_edits h).
Proof.
  intros H. apply foldOperationHistory_ok in H as [Hv Hf].
  apply fold_edits_spec in Hf as (_ & _ & _ & _ & _ & Hval).
  unfold valid_history, valid_snapshot in Hv. bool_simpl.
  match goal with H : valid_value _ = true |- _ =>
    change (is_safe_integer (snap_value (hist_base h)) = true) in H; rename H into Hbase end.
  assert (Hsum : ∀ l x, foldr Z.add 0 l + x = foldr Z.add x l).
  { intros l x. induction l as [|y l IH]; simpl; lia. }
  revert Hval Hbase. generalize (snap_value (hist_base h)) (hist_edits h).
  intros v edits; revert v; induction edits as [|a edits IH]; intros v Hf Hs; simpl in Hf.
  - injection Hf as <-. by split_and!; [| |constructor].
  - apply bind_ok in Hf as (v1 & Hv1 & Hf).
    apply applyCounterOperation_ok in Hv1 as (_ & Ha & Hs1 & ->).
    destruct (IH _ Hf Hs1) as (Hh & Hh1 & Hall). split_and!; [|done|by constructor].
    rewrite Hh, fmap_cons; simpl. set (l := acc_operation <$> edits).
    rewrite <- (Hsum l (v + acc_operation a)), <- (Hsum l v). lia.
Qed.
