(* ===== verification/OpExamples.v ===== *)
(** * A counter field, worked through

    Each theorem about the operation engine at a concrete counter field: the
    hypotheses hold of real data, and what the theorem then says is computed. *)
From S2P Require Import Prelude OpContract OpHistory OpSession OpContext OpProtocol OpField OpFieldFacts OpFieldLive OpCounter.

(** A journal on epoch [e] that starts at 10 and has accepted +5 and -3. *)
Definition demo_base : OperationSnapshot Z := mkSnapshot "e" 0 10.
Definition demo_history : OperationHistory Z Z :=
  mkHistory demo_base [mkAccepted "a" "e" 1 5; mkAccepted "b" "e" 2 (-3)].
(** A client that opened the field at 10 and queued +7. *)
Definition demo_session : OperationState Z Z :=
  mkState demo_base [mkPending "c" 7] None [-7] [].

Lemma reconcile_extends_history_witness :
  ∃ v', applyCounterOperation 12 7 = Ok v' ∧
  foldOperationHistory (mkHistory demo_base
    [mkAccepted "a" "e" 1 5; mkAccepted "b" "e" 2 (-3); mkAccepted "c" "e" 3 7])
  = Ok (mkSnapshot "e" 3 v').
Proof.
  destruct (reconcile_extends_history demo_history (mkEdit "c" "e" 1 7) 12 (mkAccepted "c" "e" 3 7)) as (hd & v' & Hf & _ & _ & _ & _ & _ & Ha & Hx); [reflexivity|].
  assert (hd = mkSnapshot "e" 2 12) as -> by (injection Hf as <-; reflexivity).
  exists v'. exact (conj Ha Hx).
Defined.

Lemma reconcile_rejects_replay_witness :
  reconcileOperation demo_history (mkEdit "a" "e" 1 7) 12 = Throw invalid_input.
Proof.
  eapply (reconcile_rejects_replay demo_history (mkEdit "a" "e" 1 7) 12 (mkSnapshot "e" 2 12));
    first [reflexivity|decide_now|simpl; lia].
Defined.

Lemma refused_call_changes_nothing_witness :
  (run_call (CEdit "c" 1) demo_session).1 = demo_session.
Proof.
  apply (refused_call_changes_nothing (CEdit "c" 1) demo_session _ invalid_input). reflexivity.
Defined.

Lemma exported_state_reopens_witness :
  let calls := [CNextEdit; CReceive (mkAccepted "a" "e" 1 5); CUndo "d"; CEdit "c" 1] in
  new_session (run_calls calls demo_session) = Ok (run_calls calls demo_session).
Proof. intros calls. apply (exported_state_reopens calls demo_session demo_session). reflexivity. Defined.

Lemma remote_delivery_applies_once_witness :
  ∃ v, session_value (receive (mkAccepted "a" "e" 1 5) demo_session).1 = Ok v
    ∧ applyCounterOperation 17 5 = Ok v.
Proof.
  destruct (remote_delivery_applies_once (mkAccepted "a" "e" 1 5) demo_session
              (receive (mkAccepted "a" "e" 1 5) demo_session).1 17) as (p & r & v & Hr & _ & _ & _ & Ha & Hv); [reflexivity|reflexivity|reflexivity|reflexivity|].
  exists v. injection Hr as _ <-. exact (conj Hv Ha).
Defined.

Lemma undo_redo_round_trip_witness :
  ∃ v1, applyCounterOperation 17 4 = Ok v1
    ∧ session_value (session_redo "f" (session_undo "u" (session_edit "d" 4 demo_session).1).1).1
      = Ok v1.
Proof.
  set (st1 := (session_edit "d" 4 demo_session).1).
  set (st2 := (session_undo "u" st1).1).
  destruct (undo_redo_round_trip "d" "u" "f" 4 demo_session st1 st2 (session_redo "f" st2).1 17)
    as (v1 & Ha & _ & _ & H3); [reflexivity|reflexivity|reflexivity|reflexivity|].
  exists v1. exact (conj Ha H3).
Defined.

Lemma counter_history_sums_witness :
  foldCounterHistory demo_history = Ok (mkSnapshot "e" 2 12)
  ∧ 12 = foldr Z.add 10 [5; -3] ∧ is_safe_integer 12 = true.
Proof.
  split; [reflexivity|].
  destruct (counter_history_sums demo_history (mkSnapshot "e" 2 12)) as (H & H1 & _); [reflexivity|].
  exact (conj H H1).
Defined.

(** ** Rebasing the queued +7 *)

Definition demo_context : OperationContext Z Z := mkContext demo_base [mkPending "c" 7].

Lemma rebase_reaches_head_witness :
  ∃ ctx', rebaseOperationContext demo_context demo_history = Ok ctx'
    ∧ new_session (state_of ctx') = Ok (state_of ctx').
Proof.
  exists (mkContext (mkSnapshot "e" 2 12) [mkPending "c" 7]). split; [reflexivity|].
  destruct (rebase_reaches_head demo_context demo_history
              (mkContext (mkSnapshot "e" 2 12) [mkPending "c" 7])) as (? & ? & _ & _ & _ & H); [reflexivity|].
  exact H.
Defined.

Lemma prepared_edit_is_accepted_witness :
  reconcileOperation demo_history (mkEdit "c" "e" 2 7) 12 = Ok (mkAccepted "c" "e" 3 7).
Proof.
  destruct (prepared_edit_is_accepted demo_context demo_history "c" (mkEdit "c" "e" 2 7))
    as (hd & Hf & _ & _ & _ & H); [reflexivity|].
  assert (hd = mkSnapshot "e" 2 12) as -> by (injection Hf as <-; reflexivity).
  apply H; [decide_now|reflexivity].
Defined.

Lemma projection_is_a_history_witness :
  ∃ extra, "c" ∈ acc_id <$> hist_edits demo_history ++ extra
    ∧ NoDup (acc_id <$> hist_edits demo_history ++ extra).
Proof.
  destruct (projection_is_a_history demo_history
              [mkEdit "a" "e" 0 5; mkEdit "c" "e" 1 7; mkEdit "c" "e" 1 7] 19)
    as (extra & hd & _ & _ & _ & Hn & Ha); [reflexivity|].
  exists extra. split; [|exact Hn]. apply (Ha (mkEdit "c" "e" 1 7)). right; left.
Defined.

Lemma accepted_inverse_restores_witness :
  ∃ before after : OperationSnapshot Z,
    applyCounterOperation (snap_value after) (-5) = Ok (snap_value before).
Proof.
  destruct (accepted_inverse_restores demo_history "a" "z" (mkEdit "z" "e" 1 (-5)))
    as (n & a & before & after & _ & _ & _ & _ & _ & _ & _ & _ & H); [reflexivity|].
  exists before, after. exact H.
Defined.

(** ** A protocol run: open, edit, seal, accept *)

Definition demo_opened : world (V:=Z) (Op:=Z) := mkWorld demo_base [] (state_of_parts demo_base []).
Definition demo_sealed : world (V:=Z) (Op:=Z) :=
  mkWorld demo_base []
    (mkState demo_base [mkPending "c" 7] (Some (mkEdit "c" "e" 0 7)) [-7] []).
Definition demo_accepted : world (V:=Z) (Op:=Z) := with_accepted demo_sealed (mkAccepted "c" "e" 1 7).

Lemma demo_reachable : reachable demo_accepted.
Proof.
  exists demo_opened. split; [split; reflexivity|].
  apply (rtc_l _ _ (mkWorld demo_base [] demo_session)).
  { apply (step_local (CEdit "c" 7) "c" demo_opened); [eauto|decide_now|reflexivity]. }
  apply (rtc_l _ _ demo_sealed).
  { by apply (step_seal (mkWorld demo_base [] demo_session)). }
  apply rtc_once. apply (step_accept_own demo_sealed (mkEdit "c" "e" 0 7) demo_base); reflexivity.
Defined.

Lemma session_refines_journal_witness :
  ∃ hd, foldOperationHistory (journal demo_accepted) = Ok hd
    ∧ (seen demo_accepted ≤ length (w_edits demo_accepted))%nat.
Proof.
  destruct (session_refines_journal demo_accepted demo_reachable) as (hd & Hf & Hs & _).
  exists hd. exact (conj Hf Hs).
Defined.

Lemma own_acknowledgement_settles_witness :
  ∃ st', receive (mkAccepted "c" "e" 1 7) (w_session demo_accepted) = (st', Ok ())
    ∧ st_inFlight st' = None.
Proof.
  destruct (own_acknowledgement_settles demo_accepted (mkAccepted "c" "e" 1 7) demo_reachable)
    as (own & rest & st' & _ & _ & _ & Hr & _ & Hi & _).
  { reflexivity. } { left. }
  exists st'. exact (conj Hr Hi).
Defined.

(** * A field buffer, worked through

    The theorems of the field resource at a counter field, and the run in which an
    invalidation is lost. *)

Definition counter_field : field Z Z := from_option id (at_rest demo_session false None 0 []) (value_of (new_field demo_history None true)).

(** An edit, a flush whose commit is refused for contention once and fails for good then,
    and another flush. *)
Definition busy : JsError := ablo_error AbloError "decision_contended".
Definition flush_inputs : list (field_input Z Z) :=
  [CallEdit "x" 4; SaveSettles (Ok ()); CallFlush; ReadSettles (Ok demo_history); SaveSettles (Ok ()); RefreshSettles; SaveSettles (Ok ());
   CommitSettles (Throw busy); CommitTimer; CallEdit "y" 1; CommitSettles (Throw plain_error); FlushSettles;
   CallFlush; SaveSettles (Ok ()); ReadSettles (Ok demo_history); SaveSettles (Ok ()); RefreshSettles; SaveSettles (Ok ())].
Definition sent_edit : OperationEdit Z := mkEdit "x" "e" 2 4.

Definition flush_log : list (field_event Z Z) := fd_log (run_field flush_inputs counter_field).

Lemma flush_ids : NoDup (concat (new_ids <$> flush_inputs)).
Proof. rewrite <- (bool_decide_eq_true (NoDup _)). by vm_compute. Qed.
Lemma flush_log_split : fd_log (run_field flush_inputs counter_field) = take 3 flush_log ++ Sent sent_edit :: drop 4 flush_log.
Proof. vm_compute. reflexivity. Qed.
Lemma counter_field_new : new_field demo_history None true = Ok counter_field.
Proof. vm_compute. reflexivity. Qed.
Lemma counter_field_idle : pend_ids (fd_session counter_field) = [].
Proof. vm_compute. reflexivity. Qed.

Lemma sent_edits_are_saved_witness :
  List.filter (λ v, match v with Sent _ => true | _ => false end) flush_log = [Sent sent_edit; Sent sent_edit; Sent sent_edit]
  ∧ ∃ s, Persisted s ∈ take 3 flush_log ∧ st_inFlight s = Some sent_edit.
Proof.
  split; [vm_compute; reflexivity|].
  refine (proj1 (sent_edits_are_saved demo_history None true counter_field flush_inputs counter_field_new flush_ids _ (take 3 flush_log) sent_edit (drop 4 flush_log) flush_log_split)).
  intros id _. rewrite counter_field_idle. apply not_elem_of_nil.
Defined.

(** Another client added 5 before this one flushes its 7. *)
Definition others : list (AcceptedOperation Z) := [mkAccepted "a" "e" 1 5].

Lemma others_reachable : reachable (world_of demo_base others demo_session).
Proof.
  exists demo_opened. split; [split; reflexivity|].
  apply (rtc_l _ _ (mkWorld demo_base [] demo_session)); [apply (step_local (CEdit "c" 7) "c" demo_opened); [eauto|decide_now|reflexivity]|].
  apply rtc_once. change (world_of demo_base others demo_session) with (with_accepted (mkWorld demo_base [] demo_session) (mkAccepted "a" "e" 1 5)).
  apply (step_accept_other _ (mkEdit "a" "e" 0 5) demo_base); [decide_now|reflexivity|reflexivity].
Defined.

Lemma flush_empties_the_queue_witness :
  ∃ fuel new st' saved' log',
    quiet_run demo_base fuel others (field_step CallFlush (at_rest demo_session true None 0 [])) = (others ++ new, at_rest st' true None saved' (log' ++ [Flushed (Ok ())]))
    ∧ acc_id <$> new = ["c"%string] ∧ st_pending st' = [].
Proof.
  destruct (flush_empties_the_queue demo_base others demo_session (receive_history (mkHistory demo_base others) demo_session).1 true None 0 [])
    as (fuel & new & st' & saved' & log' & Hrun & Hp & _ & Hids & _); [exact others_reachable|reflexivity|reflexivity|vm_compute; congruence|].
  exists fuel, new, st', saved', log'. exact (conj Hrun (conj Hids Hp)).
Defined.

(** A refresh that has ended is still the one under way until its [finally] runs: an
    invalidation in between is taken for covered and read by nobody. *)
Theorem an_invalidation_is_lost :
  let f := run_field [CallRefresh; ReadSettles (Ok demo_history); SaveSettles (Ok ()); RowInvalidated; RefreshSettles] counter_field in
  fd_refreshing f = None ∧ fd_invalidated f = true ∧ fd_flushing f = None ∧ fd_saves f = []
  ∧ ∀ i, (∃ r, i = ReadSettles r) ∨ i = ReadTimer ∨ (∃ r, i = SaveSettles r) ∨ i = RefreshSettles ∨ i = FlushSettles ∨ i = CommitTimer → field_step i f = f.
Proof.
  assert (E : run_field [CallRefresh; ReadSettles (Ok demo_history); SaveSettles (Ok ()); RowInvalidated; RefreshSettles] counter_field
    = mkField (fd_session counter_field) false true None [] 1 None true false None [Persisted (fd_session counter_field)]) by (by vm_compute).
  cbv zeta. rewrite E. clear E. generalize (fd_session counter_field). intros s. split_and!; try reflexivity. intros i [[r ->]|[->|[[r ->]|[->|[->| ->]]]]]; reflexivity.
Qed.
