(* ===== verification/JsonText.v ===== *)
(** * JSON as text, canonically

    [String] and [JSON.stringify] on the values of [Json.v], and the canonical text and the
    hashes of [packages/transaction/src/schema/serialize.ts]. Numbers are integers below
    [10 ^ 21], which print as their digits; strings are bytes, and a quoted string escapes
    what JSON escapes. *)
From S2P Require Import Prelude JsData Json WireFormats.
#[local] Open Scope string_scope.
#[local] Open Scope list_scope.
#[local] Open Scope Z_scope.

Definition dq : Ascii.ascii := Ascii.ascii_of_N 34.
Definition backslash : Ascii.ascii := Ascii.ascii_of_N 92.
Definition char_string (c : Ascii.ascii) : string := String c EmptyString.

Definition number_text (n : Z) : string := if n <? 0 then "-" +:+ print_digits (- n) else print_digits n.

(** A digit of [toString(16)] or [toString(36)]. *)
Definition digit_char (d : Z) : Ascii.ascii := Ascii.ascii_of_N (Z.to_N (if d <? 10 then 48 + d else 87 + d)).

(** [n.toString(base)] for a nonnegative [n], which has at most [fuel] digits. *)
Fixpoint radix_digits (fuel : nat) (base n : Z) (acc : string) : string :=
  match fuel with
  | O => acc
  | S fuel => let acc := String (digit_char (n mod base)) acc in if n <? base then acc else radix_digits fuel base (n / base) acc
  end.

(** ** Strings *)

Definition escape_char (c : Ascii.ascii) : string :=
  let n := Z.of_N (Ascii.N_of_ascii c) in
  if Ascii.eqb c dq || Ascii.eqb c backslash then String backslash (char_string c)
  else if n =? 8 then String backslash "b" else if n =? 9 then String backslash "t" else if n =? 10 then String backslash "n"
  else if n =? 12 then String backslash "f" else if n =? 13 then String backslash "r"
  else if n <? 32 then String backslash ("u00" +:+ char_string (digit_char (n / 16)) +:+ char_string (digit_char (n mod 16)))
  else char_string c.

Fixpoint escape (s : string) : string := match s with EmptyString => EmptyString | String c s => escape_char c +:+ escape s end.
Definition quote (s : string) : string := String dq (escape s +:+ char_string dq).

Fixpoint join (sep : string) (l : list string) : string :=
  match l with [] => EmptyString | [x] => x | x :: l => x +:+ sep +:+ join sep l end.

(** ** Canonical text ([canonicalJson]) *)

(** [a < b] of two strings. *)
Fixpoint string_ltb (a b : string) : bool :=
  match a, b with
  | _, EmptyString => false
  | EmptyString, String _ _ => true
  | String c a, String d b =>
      let x := Ascii.N_of_ascii c in let y := Ascii.N_of_ascii d in
      (x <? y)%N || ((x =? y)%N && string_ltb a b)
  end.
Definition key_order {A} (p q : string * A) : Z := if string_ltb p.1 q.1 then -1 else if string_ltb q.1 p.1 then 1 else 0.

Definition is_undefined (v : json) : bool := match v with JUndefined => true | _ => false end.

Fixpoint canonicalJson (v : json) : string :=
  match v with
  | JUndefined | JNull => "null"
  | JBool b => if b then "true" else "false"
  | JNum n => number_text n
  | JStr s => quote s
  | JDate _ => "{}"
  | JArr l => "[" +:+ join "," (canonicalJson <$> l) +:+ "]"
  | JObj f =>
      let texts := (λ p, (p.1, (is_undefined p.2, canonicalJson p.2))) <$> f in
      let entries := sort_by key_order (List.filter (λ t, negb t.2.1) texts) in
      "{" +:+ join "," ((λ t, quote t.1 +:+ ":" +:+ t.2.2) <$> entries) +:+ "}"
  end.

(** ** Hashes *)

(** [Math.imul] as an unsigned number, and [fnv1a]. *)
Definition imul (a b : Z) : Z := (a * b) mod 2 ^ 32.
Fixpoint fnv_loop (h : Z) (s : string) : Z :=
  match s with EmptyString => h | String c s => fnv_loop (imul (Z.lxor h (Z.of_N (Ascii.N_of_ascii c))) 16777619) s end.

(** [toString(16).padStart(width, '0')]. *)
Definition hex_padded (width : nat) (n : Z) : string :=
  let s := radix_digits width 16 n EmptyString in Nat.iter (width - String.length s) (String (Ascii.ascii_of_N 48)) s.
Definition fnv1a (canonical : string) : string := hex_padded 8 (fnv_loop 2166136261 canonical).
Definition modelHash (modelJson : json) : string := fnv1a (canonicalJson modelJson).
