(* ===== verification/SourceModel.v ===== *)
(** * Data sources: changes, idempotency and the reference adapter

    A customer's database behind a signed endpoint, of [transaction/src/source]:
    [adapters/contract.ts] (operations and change sets), [adapters/adapter.ts] (what an
    adapter promises), [adapters/idempotency.ts] and [adapters/memory.ts], the adapter the
    conformance suite runs against. *)
From S2P Require Import Prelude JsData Json WireFormats JsonText.

(** ** Operations *)

(** A property that may be missing or null ([nullish()]). *)
Inductive optional (A : Type) := Missing | IsNull | Given (a : A).
Arguments Missing {A}.
Arguments IsNull {A}.
Arguments Given {A} _.

Definition given {A} (o : optional A) : option A := match o with Given a => Some a | _ => None end.
Definition property {A} (k : string) (f : A → json) (o : optional A) : fields :=
  match o with Missing => [] | IsNull => [(k, JNull)] | Given a => [(k, f a)] end.

Inductive operation_type := CREATE | UPDATE | DELETE | ARCHIVE | UNARCHIVE.
#[export] Instance operation_type_eq_dec : EqDecision operation_type.
Proof. solve_decision. Defined.

Definition type_text (t : operation_type) : string :=
  match t with CREATE => "CREATE" | UPDATE => "UPDATE" | DELETE => "DELETE" | ARCHIVE => "ARCHIVE" | UNARCHIVE => "UNARCHIVE" end.

(** What [operationSchema] lets through. *)
Record Operation := mkOperation {
  op_type : operation_type;
  op_model : string;
  op_id : optional string;
  op_input : optional fields;
  op_where : optional fields;
  op_transactionId : optional string;
  op_claimId : optional string;
  op_readAt : optional Z;
}.

Definition operation_json (o : Operation) : json :=
  JObj ([("type"%string, JStr (type_text (op_type o))); ("model"%string, JStr (op_model o))]
    ++ property "id" JStr (op_id o) ++ property "input" JObj (op_input o) ++ property "where" JObj (op_where o)
    ++ property "transactionId" JStr (op_transactionId o) ++ property "claimId" JStr (op_claimId o) ++ property "readAt" JNum (op_readAt o)).

(** What [operationSchema] adds to the commit operation, and [where] naming a field. *)
Definition operationSchema (o : Operation) : bool :=
  negb (String.eqb (op_model o) "")
  && match op_id o with Given id => negb (String.eqb id "") | _ => true end
  && match op_where o with Given [] => false | _ => true end
  && match op_claimId o with Given id => negb (String.eqb id "") | _ => true end.

Record ChangeSet := mkChange {
  ch_operations : list Operation;
  ch_correlationId : string;
  ch_intentHash : option string;
  ch_echo : option string;
  ch_syncGroups : option (list string);
}.

(** [correlationIdSchema]: not empty, at most 255 long. *)
Definition correlationIdSchema (id : string) : bool := negb (String.eqb id "") && (String.length id <=? 255)%nat.
Definition hex_digit (c : Ascii.ascii) : bool :=
  let n := Ascii.N_of_ascii c in ((48 <=? n) && (n <=? 57) || (97 <=? n) && (n <=? 102))%N.
Definition intent_hash (s : string) : bool := (String.length s =? 64)%nat && forallb hex_digit (String.list_ascii_of_string s).
Definition changeSetSchema (c : ChangeSet) : bool :=
  match ch_operations c with [] => false | _ => forallb operationSchema (ch_operations c) end
  && correlationIdSchema (ch_correlationId c)
  && from_option intent_hash true (ch_intentHash c)
  && match ch_echo c with Some payload => negb (String.eqb payload "") && (Z.of_nat (String.length payload) <=? 256 * 1024) | None => true end.

(** ** The adapter *)

Record OutboxEvent := mkOutboxEvent {
  ev_id : string;
  ev_model : string;
  ev_entityId : string;
  ev_type : operation_type;
  ev_data : option fields;
  ev_syncGroups : list string;
  ev_correlationId : string;
  ev_transactionId : option string;
  ev_cursor : string;
}.

Inductive read_request :=
  | LoadRow (model id : string)
  | ListRows (model : string) (limit : option Z).

(** [DataSourceAdapter]: the state of the customer's database is the adapter's. *)
Class DataSourceAdapter (S : Type) := {
  ad_postgresWalEcho : bool;
  ad_read : read_request → option (list string) → S → result (list fields);
  ad_commit : ChangeSet → M S (list fields);
  ad_acknowledgeEvents : string → M S ();
  ad_events : option string → Z → S → result (list OutboxEvent * option string);
}.

(** ** Idempotency *)

Definition validation (code : string) : JsError := ablo_error AbloValidationError code.
Definition idempotency_conflict : JsError := validation "idempotency_conflict".

Section Hash.
Context (sha256 : string → string).

(** [canonicalJson] of this file is that of [serialize.ts]. *)
Definition sourceOperationsIntentHash (operations : list Operation) : string := sha256 (canonicalJson (JArr (operation_json <$> operations))).

Definition sourceChangeIntentHash (change : ChangeSet) : result string :=
  if is_Some_b (ch_echo change) && negb (is_Some_b (ch_intentHash change)) then Throw idempotency_conflict
  else Ok (default (sourceOperationsIntentHash (ch_operations change)) (ch_intentHash change)).
End Hash.

Definition assertSourceIdempotencyIntent (cachedHash : option string) (requestHash : string) : result () :=
  guard_or (bool_decide (cachedHash = Some requestHash)) idempotency_conflict.

(** What a ledger row says of its end: nothing, [Infinity], a time, or evidence that is
    no time. *)
Inductive expiry := NoExpiry | NeverExpires | ExpiresAt (t : Z) | InvalidExpiry.
Definition assertSourceIdempotencyRetention (expiresAt : expiry) (now : Z) : result () :=
  match expiresAt with
  | NoExpiry | NeverExpires => Ok ()
  | InvalidExpiry => Throw idempotency_conflict
  | ExpiresAt timestamp => if timestamp <=? now then Throw (validation "idempotency_key_expired") else Ok ()
  end.

(** ** The memory adapter *)

Record memory := mkMemory {
  mem_store : list (string * list (string * fields));
  mem_idempotency : list (string * (string * list fields));
  mem_outbox : list OutboxEvent;
  mem_nextOutboxCursor : Z;
}.
Definition memoryDataSource : memory := mkMemory [] [] [] 1.

Definition set_store (s : list (string * list (string * fields))) (m : memory) : memory := mkMemory s (mem_idempotency m) (mem_outbox m) (mem_nextOutboxCursor m).
Definition set_ledger (l : list (string * (string * list fields))) (m : memory) : memory := mkMemory (mem_store m) l (mem_outbox m) (mem_nextOutboxCursor m).
Definition set_outbox (o : list OutboxEvent) (m : memory) : memory := mkMemory (mem_store m) (mem_idempotency m) o (mem_nextOutboxCursor m).

Definition operation_id_required : JsError := validation "source_operation_id_required".
Definition input_of (op : Operation) : fields := default [] (given (op_input op)).

(** [op.id ?? op.input?.id], which must be a string with something in it. *)
Definition rowId (op : Operation) : result string :=
  match match given (op_id op) with Some id => Some (JStr id) | None => map_get "id"%string (input_of op) end with
  | Some (JStr id) => if String.eqb id "" then Throw operation_id_required else Ok id
  | _ => Throw operation_id_required
  end.

Definition model_rows (model : string) (m : memory) : list (string * fields) := default [] (map_get model (mem_store m)).
Definition modelStore (model : string) (m : memory) : memory :=
  match map_get model (mem_store m) with Some _ => m | None => set_store (mem_store m ++ [(model, [])]) m end.
Definition put_row (model id : string) (row : fields) (m : memory) : memory := set_store (map_set model (map_set id row (model_rows model m)) (mem_store m)) m.
Definition delete_row (model id : string) (m : memory) : memory := set_store (map_set model (map_delete id (model_rows model m)) (mem_store m)) m.

(** The row an operation answers, which is also the one it leaves unless it deletes. *)
Definition operation_row (now : Z) (op : Operation) (id : string) (prev : option fields) : fields :=
  let prev := default [("id"%string, JStr id)] prev in
  match op_type op with
  | CREATE => spread [("id"%string, JStr id)] (input_of op)
  | UPDATE => spread prev (input_of op)
  | ARCHIVE => spread (spread prev (input_of op)) [("archivedAt"%string, JNum now)]
  | UNARCHIVE => spread (spread prev (input_of op)) [("archivedAt"%string, JNull)]
  | DELETE => prev
  end.

Definition applyOperation (now : Z) (op : Operation) : M memory fields :=
  match given (op_where op) with
  | Some _ => throwM (validation "source_adapter_misconfigured")
  | None =>
      _ ← modifyM (modelStore (op_model op));
      id ← liftM (rowId op);
      m ← getM;
      let row := operation_row now op id (map_get id (model_rows (op_model op) m)) in
      _ ← modifyM (match op_type op with DELETE => delete_row (op_model op) id | _ => put_row (op_model op) id row end);
      mret row
  end.

(** [String(v)]; what comes over the wire holds no dates. *)
Fixpoint js_text (v : json) : string :=
  match v with
  | JUndefined => "undefined"
  | JNull => "null"
  | JBool b => if b then "true" else "false"
  | JNum n | JDate n => number_text n
  | JStr s => s
  | JArr l => join "," ((λ x, match x with JUndefined | JNull => EmptyString | _ => js_text x end) <$> l)
  | JObj _ => "[object Object]"
  end.

(** [String(row.id ?? rowId(op))] *)
Definition entity_id (op : Operation) (row : fields) : result string :=
  match map_get "id"%string row with
  | None | Some JNull | Some JUndefined => rowId op
  | Some v => Ok (js_text v)
  end.

Definition outbox_event (correlationId : string) (index : nat) (op : Operation) (row : fields) (entityId : string) (cursor : Z) : OutboxEvent :=
  mkOutboxEvent (correlationId +:+ ":" +:+ print_digits (Z.of_nat index)) (op_model op) entityId (op_type op)
    (match op_type op with DELETE => None | _ => Some row end) [] correlationId
    (match given (op_transactionId op) with Some id => if String.eqb id "" then None else Some id | None => None end)
    (print_digits cursor).

Definition push_event (correlationId : string) (index : nat) (op : Operation) (row : fields) : M memory () :=
  entityId ← liftM (entity_id op row);
  modifyM (λ m, mkMemory (mem_store m) (mem_idempotency m)
    (mem_outbox m ++ [outbox_event correlationId index op row entityId (mem_nextOutboxCursor m)]) (mem_nextOutboxCursor m + 1)).

(** The loop of [commit] over [change.operations.entries()]. *)
Fixpoint commit_operations (now : Z) (correlationId : string) (index : nat) (ops : list Operation) : M memory (list fields) :=
  match ops with
  | [] => mret []
  | op :: ops =>
      row ← applyOperation now op;
      _ ← push_event correlationId index op row;
      rows ← commit_operations now correlationId (S index) ops;
      mret (row :: rows)
  end.

Section Memory.
Context (sha256 : string → string).

Definition memory_commit (now : Z) (change : ChangeSet) : M memory (list fields) :=
  if is_Some_b (ch_echo change) then throwM (mkError AbloValidationError None)
  else
    requestHash ← liftM (sourceChangeIntentHash sha256 change);
    m ← getM;
    match map_get (ch_correlationId change) (mem_idempotency m) with
    | Some (cachedHash, rows) => _ ← liftM (assertSourceIdempotencyIntent (Some cachedHash) requestHash); mret rows
    | None =>
        rows ← commit_operations now (ch_correlationId change) 0 (ch_operations change);
        _ ← modifyM (λ m, set_ledger (map_set (ch_correlationId change) (requestHash, rows) (mem_idempotency m)) m);
        mret rows
    end.
End Memory.

(** [slice(0, n)] *)
Definition slice_to {A} (n : Z) (l : list A) : list A := take (Z.to_nat (if n <? 0 then Z.of_nat (length l) + n else n)) l.

Definition memory_read (r : read_request) (m : memory) : list fields :=
  match r with
  | LoadRow model id => match map_get model (mem_store m) with Some rows => match map_get id rows with Some row => [row] | None => [] end | None => [] end
  | ListRows model limit =>
      match map_get model (mem_store m) with
      | Some rows => match limit with Some n => slice_to n rows.*2 | None => rows.*2 end
      | None => []
      end
  end.

(** [Number(text)] of a cursor: the digits an adapter wrote, nothing (zero), or a text that
    is no cursor and is taken for NaN, which compares with no number. The adapter writes
    digits only; what else [Number] reads (white space, signs, fractions, exponents, other
    bases) is not modelled. *)
Definition cursor_number (text : string) : option Z := if String.eqb text "" then Some 0 else parse_digits text.
Definition not_after (text : string) (after : option Z) : bool :=
  match cursor_number text, after with Some n, Some after => n <=? after | _, _ => false end.
Definition is_after (text : string) (after : option Z) : bool :=
  match cursor_number text, after with Some n, Some after => after <? n | _, _ => false end.

Fixpoint unacknowledged (after : option Z) (l : list OutboxEvent) : list OutboxEvent :=
  match l with [] => [] | e :: l' => if not_after (ev_cursor e) after then unacknowledged after l' else l end.
Definition memory_acknowledgeEvents (acknowledgedThrough : string) (m : memory) : memory :=
  set_outbox (unacknowledged (cursor_number acknowledgedThrough) (mem_outbox m)) m.

Definition memory_events (cursor : option string) (limit : Z) (m : memory) : list OutboxEvent * option string :=
  let after := match cursor with Some c => cursor_number c | None => Some 0 end in
  let page := slice_to limit (List.filter (λ e, is_after (ev_cursor e) after) (mem_outbox m)) in
  (page, ev_cursor <$> last page).

Definition memory_adapter (sha256 : string → string) (now : Z) : DataSourceAdapter memory :=
  {| ad_postgresWalEcho := false;
     ad_read := λ r _ m, Ok (memory_read r m);
     ad_commit := memory_commit sha256 now;
     ad_acknowledgeEvents := λ c, modifyM (memory_acknowledgeEvents c);
     ad_events := λ c limit m, Ok (memory_events c limit m) |}.
