(* ===== verification/SourceFacts.v ===== *)
(** * The reference adapter keeps its promises

    The memory adapter over any sequence of commits, polls and acknowledgements: a consumer
    that keeps its cursor receives each event once and in order, a commit that returned is
    applied once, and what a commit that throws leaves behind. *)
From S2P Require Import Prelude JsData Json WireFormats JsonText SourceModel.

(** ** Computations and what they keep *)

Definition keeps {A} (P : memory → Prop) (c : M memory A) : Prop := ∀ m, P m → P (c m).1.

Lemma keeps_bind {A B} P (c : M memory A) (k : A → M memory B) : keeps P c → (∀ a, keeps P (k a)) → keeps P (c ≫= k).
Proof. intros Hc Hk m Hm. unfold mbind, M_bind. specialize (Hc m Hm). destruct (c m) as [m' [a|e]]; [by apply Hk|done]. Qed.
Lemma keeps_lift {A} P (r : result A) : keeps P (liftM r).
Proof. by intros m Hm. Qed.
Lemma keeps_ret {A} P (a : A) : keeps P (mret a).
Proof. by intros m Hm. Qed.
Lemma keeps_throw {A} P e : keeps P (throwM (A := A) e).
Proof. by intros m Hm. Qed.
Lemma keeps_get P : keeps P getM.
Proof. by intros m Hm. Qed.
Lemma keeps_modify P f : (∀ m, P m → P (f m)) → keeps P (modifyM f).
Proof. intros Hf m Hm. by apply Hf. Qed.

(** A computation that does not look at older events does the same behind them. *)
Definition framed (p : list OutboxEvent) (m : memory) : memory := set_outbox (p ++ mem_outbox m) m.
Definition frames {A} (p : list OutboxEvent) (c : M memory A) : Prop := ∀ m, c (framed p m) = (framed p (c m).1, (c m).2).

Lemma frames_bind {A B} p (c : M memory A) (k : A → M memory B) : frames p c → (∀ a, frames p (k a)) → frames p (c ≫= k).
Proof. intros Hc Hk m. unfold mbind, M_bind. rewrite Hc. destruct (c m) as [m' [a|e]]; [by apply Hk|done]. Qed.
Lemma frames_lift {A} p (r : result A) : frames p (liftM r).
Proof. done. Qed.
Lemma frames_ret {A} p (a : A) : frames p (mret a).
Proof. done. Qed.
Lemma frames_throw {A} p e : frames p (throwM (A := A) e).
Proof. done. Qed.
Lemma frames_modify p f : (∀ m, f (framed p m) = framed p (f m)) → frames p (modifyM f).
Proof. intros Hf m. unfold modifyM. cbn. by rewrite Hf. Qed.
Lemma frames_get {B} p (k : memory → M memory B) : (∀ m, k (framed p m) = k m) → (∀ m, frames p (k m)) → frames p (getM ≫= k).
Proof. intros Hm Hk m. unfold mbind, M_bind, getM. rewrite Hm. apply Hk. Qed.

Create HintDb source discriminated.
#[export] Hint Resolve keeps_bind keeps_lift keeps_ret keeps_throw keeps_get keeps_modify frames_bind frames_lift frames_ret frames_throw frames_modify frames_get : source.

Lemma modelStore_framed p model m : modelStore model (framed p m) = framed p (modelStore model m).
Proof. unfold modelStore. cbn. by destruct (map_get _ _). Qed.

Lemma apply_frames p now op : frames p (applyOperation now op).
Proof.
  unfold applyOperation. pose proof (modelStore_framed p). destruct (given (op_where op)), (op_type op); auto 8 with source.
Qed.

Lemma push_frames p corr i op row : frames p (push_event corr i op row).
Proof.
  apply frames_bind; [auto with source|intros e]. apply frames_modify. intros m. unfold framed, set_outbox. cbn. by rewrite app_assoc.
Qed.

Lemma operations_frames p now corr ops : ∀ i, frames p (commit_operations now corr i ops).
Proof.
  pose proof (apply_frames p now). pose proof (push_frames p corr). induction ops as [|op ops IH]; intros i; cbn [commit_operations]; auto 8 with source.
Qed.

Lemma commit_frames sha p now change : frames p (memory_commit sha now change).
Proof.
  pose proof (operations_frames p now). unfold memory_commit. destruct (is_Some_b _); [auto with source|]. apply frames_bind; [auto with source|intros h].
  apply frames_get; [done|intros m]. destruct (map_get _ _) as [[h' rows]|]; auto 8 with source.
Qed.

(** ** Events are numbered *)

Definition cursor_of (n : nat) : string := print_digits (Z.of_nat n).
Definition numbered (m : memory) : Prop :=
  mem_nextOutboxCursor m = Z.of_nat (S (length (mem_outbox m))) ∧ ev_cursor <$> mem_outbox m = cursor_of <$> seq 1 (length (mem_outbox m)).

Lemma store_keeps {A} P (c : M memory A) :
  (∀ m, P m → ∀ s, P (set_store s m)) → (∀ m, ∃ s, (c m).1 = set_store s m) → keeps P c.
Proof. intros HP Hc m Hm. destruct (Hc m) as [s ->]. by apply HP. Qed.

Lemma set_store_twice s s' m : set_store s (set_store s' m) = set_store s m.
Proof. done. Qed.
Lemma set_store_same m : set_store (mem_store m) m = m.
Proof. by destruct m. Qed.

Lemma modelStore_store model m : ∃ s, modelStore model m = set_store s m.
Proof. unfold modelStore. destruct (map_get _ _); [exists (mem_store m); by rewrite set_store_same|by eexists]. Qed.

Lemma apply_store now op m : ∃ s, (applyOperation now op m).1 = set_store s m.
Proof.
  unfold applyOperation. destruct (given (op_where op)); [exists (mem_store m); by rewrite set_store_same|].
  rewrite modifyM_bind, liftM_bind. destruct (modelStore_store (op_model op) m) as [s ->]. destruct (rowId op); [|by exists s].
  rewrite getM_bind, modifyM_bind. destruct (op_type op); by eexists.
Qed.

Lemma push_keeps P corr i op row :
  (∀ m e, P m → ev_cursor e = print_digits (mem_nextOutboxCursor m) →
     P (mkMemory (mem_store m) (mem_idempotency m) (mem_outbox m ++ [e]) (mem_nextOutboxCursor m + 1))) → keeps P (push_event corr i op row).
Proof. intros HP. apply keeps_bind; [auto with source|intros e]. apply keeps_modify. intros m Hm. by apply HP. Qed.

Lemma operations_keep P now corr ops :
  (∀ m, P m → ∀ s, P (set_store s m)) →
  (∀ m e, P m → ev_cursor e = print_digits (mem_nextOutboxCursor m) →
     P (mkMemory (mem_store m) (mem_idempotency m) (mem_outbox m ++ [e]) (mem_nextOutboxCursor m + 1))) →
  ∀ i, keeps P (commit_operations now corr i ops).
Proof.
  intros H1 H2. induction ops as [|op ops IH]; intros i; cbn [commit_operations]; [auto with source|].
  apply keeps_bind; [apply store_keeps; [done|intros m; apply apply_store]|intros row]. apply keeps_bind; [by apply push_keeps|auto with source].
Qed.

Lemma commit_keeps sha P now change :
  (∀ m, P m → ∀ s, P (set_store s m)) → (∀ m, P m → ∀ l, P (set_ledger l m)) →
  (∀ m e, P m → ev_cursor e = print_digits (mem_nextOutboxCursor m) →
     P (mkMemory (mem_store m) (mem_idempotency m) (mem_outbox m ++ [e]) (mem_nextOutboxCursor m + 1))) →
  keeps P (memory_commit sha now change).
Proof.
  intros H1 H2 H3. unfold memory_commit. pose proof (operations_keep P now (ch_correlationId change) (ch_operations change) H1 H3).
  destruct (is_Some_b _); [auto with source|]. apply keeps_bind; [auto with source|intros h].
  apply keeps_bind; [auto with source|intros m]. destruct (map_get _ _) as [[h' rows]|]; auto 8 with source.
Qed.

Lemma commit_numbered sha now change : keeps numbered (memory_commit sha now change).
Proof.
  apply commit_keeps; [done|done|]. intros m e [Hn Hc] He. unfold numbered. cbn [mem_outbox mem_nextOutboxCursor].
  rewrite length_app, Hn. cbn [length]. split; [lia|]. rewrite seq_app, !fmap_app, Hc. cbn. by rewrite He, Hn.
Qed.

Lemma commit_appends sha now change m : ∃ l, mem_outbox (memory_commit sha now change m).1 = mem_outbox m ++ l.
Proof.
  apply (commit_keeps sha (λ m', ∃ l, mem_outbox m' = mem_outbox m ++ l)); [done|done| |by exists []; rewrite app_nil_r].
  intros m' e [l Hl] _. cbn. rewrite Hl, <- app_assoc. by eexists.
Qed.

(** ** Pages and acknowledgements *)

Lemma cursor_of_number n : cursor_number (cursor_of n) = Some (Z.of_nat n).
Proof. unfold cursor_number, cursor_of. pose proof (print_digits_nonempty (Z.of_nat n)). destruct (String.eqb_spec (print_digits (Z.of_nat n)) ""); [done|]. apply parse_print_digits. lia. Qed.

Lemma cursors_drop k l a : ev_cursor <$> l = cursor_of <$> seq a (length l) → ev_cursor <$> drop k l = cursor_of <$> seq (a + k) (length (drop k l)).
Proof. intros H. by rewrite fmap_drop, H, <- fmap_drop, skipn_seq, length_drop. Qed.

Lemma events_after r l : ∀ a, ev_cursor <$> l = cursor_of <$> seq a (length l) →
  List.filter (λ e, is_after (ev_cursor e) (Some (Z.of_nat r))) l = drop (S r - a) l ∧ unacknowledged (Some (Z.of_nat r)) l = drop (S r - a) l.
Proof.
  induction l as [|e l IH]; intros a H; [by rewrite drop_nil|]. injection H as He Hl. destruct (IH (S a) Hl) as [H1 H2].
  cbn [List.filter unacknowledged]. unfold is_after at 1, not_after. rewrite He, cursor_of_number.
  destruct (Z.ltb_spec (Z.of_nat r) (Z.of_nat a)), (Z.leb_spec (Z.of_nat a) (Z.of_nat r)); try lia.
  - rewrite H1. replace (S r - a)%nat with 0%nat by lia. replace (S r - S a)%nat with 0%nat by lia. by rewrite drop_0.
  - rewrite H1, H2. by replace (S r - a)%nat with (S (S r - S a)) by lia.
Qed.

Lemma cursor_at l i : ev_cursor <$> l = cursor_of <$> seq 1 (length l) → ∀ e, l !! i = Some e → ev_cursor e = cursor_of (S i).
Proof.
  intros H e He. assert (Hi : (ev_cursor <$> l) !! i = Some (ev_cursor e)) by (by rewrite list_lookup_fmap, He).
  rewrite H, list_lookup_fmap in Hi. destruct (seq 1 _ !! i) as [j|] eqn:E; [|done]. apply lookup_seq in E as [-> _]. by injection Hi.
Qed.

Lemma slice_is_take {A} n (l : list A) : ∃ j, slice_to n l = take j l ∧ (0 ≤ n → j = Z.to_nat n).
Proof. unfold slice_to. eexists. split; [done|]. intros Hn. by destruct (Z.ltb_spec n 0); [lia|]. Qed.

(** ** A consumer of the feed *)

(** A consumer asks for the events after its cursor, acknowledging one it has received if
    it likes, and keeps the cursor of the last event of a page; an answer may be lost. *)
Record consumer := mkConsumer { cn_source : memory; cn_cursor : option string; cn_received : list OutboxEvent }.

Inductive source_input :=
  | Commits (now : Z) (change : ChangeSet)
  | Polls (acked : option nat) (limit : Z) (answered : bool).

Section Consumer.
Context (sha256 : string → string).

Definition poll (acked : option nat) (limit : Z) (answered : bool) (c : consumer) : consumer :=
  let m := match acked ≫= (cn_received c !!.) with Some e => memory_acknowledgeEvents (ev_cursor e) (cn_source c) | None => cn_source c end in
  let '(page, next) := memory_events (cn_cursor c) limit m in
  if answered then mkConsumer m (match next with Some n => Some n | None => cn_cursor c end) (cn_received c ++ page) else mkConsumer m (cn_cursor c) (cn_received c).

Definition consumer_step (c : consumer) (i : source_input) : consumer :=
  match i with
  | Commits now change => mkConsumer (memory_commit sha256 now change (cn_source c)).1 (cn_cursor c) (cn_received c)
  | Polls acked limit answered => poll acked limit answered c
  end.
Definition run_consumer (inputs : list source_input) (c : consumer) : consumer := foldl consumer_step c inputs.

(** The source that is given the same commits and that nobody polls. *)
Definition unpolled_step (m : memory) (i : source_input) : memory :=
  match i with Commits now change => (memory_commit sha256 now change m).1 | Polls _ _ _ => m end.
Definition unpolled (inputs : list source_input) : memory := foldl unpolled_step memoryDataSource inputs.

Record follows (s : memory) (c : consumer) (k r : nat) : Prop := {
  fo_numbered : numbered s;
  fo_bounds : (k ≤ r ≤ length (mem_outbox s))%nat;
  fo_source : cn_source c = set_outbox (drop k (mem_outbox s)) s;
  fo_received : cn_received c = take r (mem_outbox s);
  fo_cursor : cn_cursor c = match r with O => None | S _ => Some (cursor_of r) end;
}.

Lemma commit_follows s c k r now change : follows s c k r → follows (memory_commit sha256 now change s).1 (consumer_step c (Commits now change)) k r.
Proof.
  intros [Hn Hb Hs Hr Hc]. destruct (commit_appends sha256 now change s) as [l Hl].
  assert (Hf : s = framed (take k (mem_outbox s)) (cn_source c)) by (rewrite Hs; unfold framed, set_outbox; cbn; rewrite take_drop; by destruct s).
  constructor.
  - by apply commit_numbered.
  - rewrite Hl, length_app. lia.
  - cbn [consumer_step cn_source]. assert (E : (memory_commit sha256 now change s).1 = framed (take k (mem_outbox s)) (memory_commit sha256 now change (cn_source c)).1)
      by (rewrite Hf at 1; by rewrite commit_frames).
    rewrite E. unfold framed, set_outbox. cbn. rewrite drop_app_length' by (rewrite length_take; lia). by destruct (memory_commit sha256 now change (cn_source c)).1.
  - cbn [consumer_step cn_received]. rewrite Hl, take_app_le by lia. done.
  - done.
Qed.

(** The page a consumer gets. *)
Lemma page_follows s c k r limit : follows s c k r →
  ∃ j, memory_events (cn_cursor c) limit (cn_source c) = (take j (drop r (mem_outbox s)), ev_cursor <$> last (take j (drop r (mem_outbox s)))) ∧ (0 ≤ limit → j = Z.to_nat limit).
Proof.
  intros [[Hn Hcs] Hb Hs Hr Hc]. unfold memory_events. rewrite Hs. cbn [set_outbox mem_outbox].
  assert (E : match cn_cursor c with Some c => cursor_number c | None => Some 0 end = Some (Z.of_nat r)) by (rewrite Hc; destruct r; [done|apply cursor_of_number]).
  rewrite E. destruct (events_after r (drop k (mem_outbox s)) (1 + k)) as [-> _]; [by apply cursors_drop|].
  rewrite drop_drop. replace (S r - (1 + k))%nat with (r - k)%nat by lia. replace (k + (r - k))%nat with r by lia.
  destruct (slice_is_take limit (drop r (mem_outbox s))) as (j & -> & Hj). by exists j.
Qed.

Lemma ack_follows s c k r acked : follows s c k r →
  ∃ k', follows s (mkConsumer (match acked ≫= (cn_received c !!.) with Some e => memory_acknowledgeEvents (ev_cursor e) (cn_source c) | None => cn_source c end) (cn_cursor c) (cn_received c)) k' r.
Proof.
  intros [[Hn Hcs] Hb Hs Hr Hc]. destruct (acked ≫= _) as [e|] eqn:E; [|by exists k]. destruct acked as [i|]; [|done]. cbn in E. rewrite Hr in E.
  apply lookup_take_Some in E as [E Hi]. pose proof (cursor_at _ _ Hcs _ E) as He. exists (Nat.max k (S i)). constructor; [done|lia| |done|done].
  cbn [cn_source]. unfold memory_acknowledgeEvents. rewrite Hs. cbn [set_outbox mem_outbox]. rewrite He, cursor_of_number.
  destruct (events_after (S i) (drop k (mem_outbox s)) (1 + k)) as [_ ->]; [by apply cursors_drop|]. rewrite drop_drop. unfold set_outbox. cbn. do 2 f_equal. lia.
Qed.

Lemma poll_follows s c k r acked limit answered : follows s c k r → ∃ k' r', follows s (poll acked limit answered c) k' r' ∧ (answered = true → 0 < limit → (r < length (mem_outbox s) → r < r')%nat).
Proof.
  intros H. unfold poll. destruct (ack_follows s c k r acked H) as [k' H']. destruct (page_follows s _ k' r limit H') as (j & Hp & Hj). cbn [cn_cursor cn_source] in Hp. rewrite Hp.
  destruct answered; [|by exists k', r]. destruct H' as [Hn Hb Hs Hr Hc]. cbn [cn_source cn_cursor cn_received] in *.
  set (page := take j (drop r (mem_outbox s))) in *. assert (Hlen : length page = Nat.min j (length (mem_outbox s) - r)) by (unfold page; by rewrite length_take, length_drop).
  exists k', (r + length page)%nat. split; [|intros _ Hl Hlt; specialize (Hj ltac:(lia)); lia]. constructor; cbn [cn_source cn_cursor cn_received]; [done|lia|done| |].
  - rewrite Hr, Hlen, <- take_take_drop. unfold page. f_equal.
    destruct (Nat.le_ge_cases j (length (mem_outbox s) - r)); [by rewrite Nat.min_l by done|]. rewrite Nat.min_r by done. by rewrite !take_ge by (rewrite length_drop; lia).
  - destruct (last page) as [e|] eqn:El; cbn.
    + rewrite last_lookup in El. assert (0 < length page)%nat by (destruct page; [done|cbn; lia]).
      unfold page in El. apply lookup_take_Some in El as [El _]. fold page in El. rewrite lookup_drop in El. destruct Hn as [_ Hcs]. rewrite (cursor_at _ _ Hcs _ El).
      destruct (r + length page)%nat as [|n] eqn:En; [lia|]. do 2 f_equal. lia.
    + apply last_None in El. rewrite El, Nat.add_0_r. done.
Qed.

Lemma runs_follow inputs : ∃ k r, follows (unpolled inputs) (run_consumer inputs (mkConsumer memoryDataSource None [])) k r.
Proof.
  induction inputs as [|i inputs IH] using rev_ind; [by exists 0%nat, 0%nat|]. destruct IH as (k & r & H). unfold unpolled, run_consumer. rewrite !foldl_app. cbn [foldl].
  destruct i as [now change|acked limit answered].
  - exists k, r. by apply commit_follows.
  - destruct (poll_follows _ _ _ _ acked limit answered H) as (k' & r' & H' & _). by exists k', r'.
Qed.

(** C28: whatever is committed, polled, acknowledged and lost in between, the source answers
    as one that keeps every event for ever: what a consumer has received, followed by what
    it would receive next, is all that was ever emitted, in order and each event once; a
    page that is asked for while there are events brings some. Acknowledgements touch
    neither rows nor the ledger. *)
Theorem feed_delivers_each_event_once inputs :
  let c := run_consumer inputs (mkConsumer memoryDataSource None []) in
  let s := unpolled inputs in
  cn_received c ++ (memory_events (cn_cursor c) (Z.of_nat (length (mem_outbox s))) (cn_source c)).1 = mem_outbox s
  ∧ NoDup (ev_cursor <$> mem_outbox s)
  ∧ mem_store (cn_source c) = mem_store s ∧ mem_idempotency (cn_source c) = mem_idempotency s
  ∧ (∀ acked limit, 0 < limit → cn_received c ≠ mem_outbox s → (length (cn_received c) < length (cn_received (poll acked limit true c)))%nat).
Proof.
  cbv zeta. destruct (runs_follow inputs) as (k & r & H). pose proof H as [[Hn Hcs] Hb Hs Hr Hc]. split_and!.
  - destruct (page_follows _ _ _ _ (Z.of_nat (length (mem_outbox (unpolled inputs)))) H) as (j & -> & Hj). cbn [fst].
    rewrite Hj, Nat2Z.id, Hr by lia. rewrite (take_ge (drop r _)) by (rewrite length_drop; lia). apply take_drop.
  - rewrite Hcs. apply NoDup_fmap_2_strong; [|apply NoDup_seq]. intros x y _ _ E. apply (f_equal cursor_number) in E. rewrite !cursor_of_number in E. injection E. lia.
  - by rewrite Hs.
  - by rewrite Hs.
  - intros acked limit Hl Hne. destruct (poll_follows _ _ _ _ acked limit true H) as (k' & r' & [_ Hb' _ Hr' _] & Hlt).
    rewrite Hr, Hr', !length_take. destruct (decide (r = length (mem_outbox (unpolled inputs)))) as [->|]; [by rewrite Hr, take_ge in Hne|]. specialize (Hlt eq_refl Hl ltac:(lia)). lia.
Qed.
End Consumer.

(** ** What a commit does to the rows *)

Definition row_at (m : memory) (model id : string) : option fields := map_get id (model_rows model m).

(** What an operation does to the row it is for. *)
Definition op_effect (now : Z) (id : string) (op : Operation) (prev : option fields) : option fields :=
  match op_type op with DELETE => None | _ => Some (operation_row now op id prev) end.
Definition touches (model id : string) (op : Operation) : bool := bool_decide (op_model op = model ∧ rowId op = Ok id).
Definition effects (now : Z) (model id : string) (ops : list Operation) (prev : option fields) : option fields :=
  foldl (λ prev op, if touches model id op then op_effect now id op prev else prev) prev ops.

Lemma modelStore_rows model model' m : model_rows model' (modelStore model m) = model_rows model' m.
Proof.
  unfold modelStore, model_rows. destruct (map_get model (mem_store m)) eqn:E; [done|]. cbn [set_store mem_store].
  apply map_get_None in E. rewrite <- map_set_fresh by done. rewrite map_get_set. case_decide; [subst|done]. apply map_get_None in E. by rewrite E.
Qed.

Lemma put_rows model rows model' m : model_rows model' (set_store (map_set model rows (mem_store m)) m) = if decide (model' = model) then rows else model_rows model' m.
Proof. unfold model_rows. cbn [set_store mem_store]. rewrite map_get_set. by case_decide. Qed.

Lemma apply_rows now op m m' row : applyOperation now op m = (m', Ok row) →
  ∃ id, rowId op = Ok id ∧ row = operation_row now op id (row_at m (op_model op) id)
    ∧ ∀ model i, row_at m' model i = if touches model i op then op_effect now i op (row_at m model i) else row_at m model i.
Proof.
  unfold applyOperation. destruct (given (op_where op)); [done|]. rewrite modifyM_bind, liftM_bind. destruct (rowId op) as [id|] eqn:Eid; [|done].
  rewrite getM_bind, modifyM_bind, modelStore_rows. intros [= <- <-]. exists id. split_and!; [done|done|]. intros model i. unfold row_at, touches, op_effect. rewrite Eid.
  destruct (decide (model = op_model op)) as [->|Hm]; [destruct (decide (i = id)) as [->|Hi]|].
  - rewrite bool_decide_eq_true_2 by done. destruct (op_type op); unfold put_row, delete_row; rewrite put_rows, decide_True, modelStore_rows by done; rewrite ?map_get_set, ?map_get_delete, decide_True by done; done.
  - rewrite bool_decide_eq_false_2 by (intros [_ ?]; congruence). destruct (op_type op); unfold put_row, delete_row; rewrite put_rows, decide_True, modelStore_rows by done; rewrite ?map_get_set, ?map_get_delete, decide_False by done; done.
  - rewrite bool_decide_eq_false_2 by (intros [? _]; congruence). destruct (op_type op); unfold put_row, delete_row; rewrite put_rows, decide_False, modelStore_rows by done; done.
Qed.

(** What is written down of an operation. *)
Definition entry_of (e : OutboxEvent) : string * operation_type * option fields := (ev_model e, ev_type e, ev_data e).
Definition entry_for (op : Operation) (row : fields) : string * operation_type * option fields :=
  (op_model op, op_type op, match op_type op with DELETE => None | _ => Some row end).

Lemma push_returns corr i op row m m' u : push_event corr i op row m = (m', Ok u) →
  ∃ e, mem_store m' = mem_store m ∧ mem_idempotency m' = mem_idempotency m ∧ mem_outbox m' = mem_outbox m ++ [e] ∧ entry_of e = entry_for op row.
Proof.
  unfold push_event. rewrite liftM_bind. destruct (entity_id op row) as [e|]; [|done]. intros [= <- _]. cbn. by eexists.
Qed.

Lemma operations_return now corr ops : ∀ i m m' rows, commit_operations now corr i ops m = (m', Ok rows) →
  length rows = length ops ∧ mem_idempotency m' = mem_idempotency m
  ∧ (∃ evs, mem_outbox m' = mem_outbox m ++ evs ∧ entry_of <$> evs = zip_with entry_for ops rows)
  ∧ ∀ model id, row_at m' model id = effects now model id ops (row_at m model id).
Proof.
  induction ops as [|op ops IH]; intros i m m' rows; cbn [commit_operations].
  - intros [= <- <-]. split_and!; try done. exists []. by rewrite app_nil_r.
  - rewrite bindM_bind. destruct (applyOperation now op m) as [m1 [row|]] eqn:E1; [|done]. rewrite bindM_bind. destruct (push_event corr i op row m1) as [m2 [u|]] eqn:E2; [|done].
    rewrite bindM_bind. destruct (commit_operations now corr (S i) ops m2) as [m3 [rows'|]] eqn:E3; [|done]. intros [= <- <-].
    destruct (IH _ _ _ _ E3) as (H1 & H2 & (evs & H3 & H3') & H4). destruct (push_returns _ _ _ _ _ _ _ E2) as (e & P1 & P2 & P3 & P4).
    destruct (apply_rows _ _ _ _ _ E1) as (id & A1 & A2 & A3). destruct (apply_store now op m) as [s Hs]. rewrite E1 in Hs. cbn [fst] in Hs. split_and!.
    + cbn. by rewrite H1.
    + by rewrite H2, P2, Hs.
    + exists (e :: evs). rewrite H3, P3, Hs, <- app_assoc. cbn. by rewrite P4, H3'.
    + intros model i'. rewrite H4. unfold effects. cbn [foldl]. f_equal. assert (E : row_at m2 model i' = row_at m1 model i') by (unfold row_at, model_rows; by rewrite P1). by rewrite E, A3.
Qed.

Lemma operations_ledger now corr i ops m : mem_idempotency (commit_operations now corr i ops m).1 = mem_idempotency m.
Proof. by apply (operations_keep (λ m', mem_idempotency m' = mem_idempotency m)). Qed.

(** Nothing changes the answer the ledger has. *)
Lemma commit_ledger sha corr entry now change : keeps (λ m, map_get corr (mem_idempotency m) = Some entry) (memory_commit sha now change).
Proof.
  intros m Hm. unfold memory_commit. destruct (is_Some_b _); [done|]. rewrite liftM_bind. destruct (sourceChangeIntentHash sha change) as [h|]; [|done]. rewrite getM_bind.
  destruct (map_get (ch_correlationId change) (mem_idempotency m)) as [[h' rows]|] eqn:E; [rewrite liftM_bind; by destruct (assertSourceIdempotencyIntent _ _)|].
  rewrite bindM_bind. pose proof (operations_ledger now (ch_correlationId change) 0 (ch_operations change) m) as Hk.
  destruct (commit_operations now _ 0 _ m) as [m' [rows|]]; cbn [fst] in *; [|by rewrite Hk]. rewrite modifyM_bind. cbn. rewrite map_get_set, Hk. case_decide; [congruence|done].
Qed.

Lemma run_ledger sha corr entry inputs : ∀ c, map_get corr (mem_idempotency (cn_source c)) = Some entry → map_get corr (mem_idempotency (cn_source (run_consumer sha inputs c))) = Some entry.
Proof.
  induction inputs as [|i inputs IH]; intros c Hc; [done|]. cbn [run_consumer foldl]. apply IH. destruct i as [now change|acked limit answered]; [by apply commit_ledger|].
  cbn [consumer_step]. unfold poll. destruct (acked ≫= _), (memory_events _ _ _), answered; done.
Qed.

Lemma known_commit sha now change m h rows : map_get (ch_correlationId change) (mem_idempotency m) = Some (h, rows) →
  ch_echo change = None →
  memory_commit sha now change m = (m, if bool_decide (sourceChangeIntentHash sha change = Ok h) then Ok rows else Throw idempotency_conflict).
Proof.
  intros Hm He. unfold memory_commit. rewrite He. cbn [is_Some_b]. unfold sourceChangeIntentHash. rewrite He. cbn [is_Some_b andb]. rewrite liftM_bind, getM_bind, Hm, liftM_bind.
  unfold assertSourceIdempotencyIntent. set (h' := default _ _). destruct (decide (h = h')) as [->|Hne].
  - by rewrite !bool_decide_eq_true_2 by done.
  - by rewrite !bool_decide_eq_false_2 by congruence.
Qed.

Lemma fresh_commit sha now change m m1 rows : memory_commit sha now change m = (m1, Ok rows) → map_get (ch_correlationId change) (mem_idempotency m) = None →
  ∃ h m', sourceChangeIntentHash sha change = Ok h ∧ commit_operations now (ch_correlationId change) 0 (ch_operations change) m = (m', Ok rows)
    ∧ m1 = set_ledger (map_set (ch_correlationId change) (h, rows) (mem_idempotency m')) m'.
Proof.
  intros H Hnew. unfold memory_commit in H. destruct (is_Some_b (ch_echo change)); [done|]. rewrite liftM_bind in H. destruct (sourceChangeIntentHash sha change) as [h|]; [|done].
  rewrite getM_bind, Hnew, bindM_bind in H. destruct (commit_operations _ _ _ _ m) as [m' [rows'|]]; [|done]. injection H as <- <-. by exists h, m'.
Qed.

Lemma commit_effects sha now change m m1 rows model id : memory_commit sha now change m = (m1, Ok rows) → map_get (ch_correlationId change) (mem_idempotency m) = None →
  row_at m1 model id = effects now model id (ch_operations change) (row_at m model id).
Proof. intros H Hnew. destruct (fresh_commit _ _ _ _ _ _ H Hnew) as (h & m' & _ & E & ->). apply operations_return in E as (_ & _ & _ & E). apply E. Qed.

(** C29: a change set the source has not seen and whose commit returns is applied as it
    says: one row per operation, each row of the database changed by the operations on it
    and by nothing else, one event per operation with the row it left. From then on,
    whatever is committed and polled in between, committing under its correlation id
    changes nothing: the same intent gets the same rows, any other is refused as a
    conflict. *)
Theorem commits_are_applied_once sha now change m m1 rows :
  memory_commit sha now change m = (m1, Ok rows) → map_get (ch_correlationId change) (mem_idempotency m) = None →
  length rows = length (ch_operations change)
  ∧ (∀ model id, row_at m1 model id = effects now model id (ch_operations change) (row_at m model id))
  ∧ (∃ evs, mem_outbox m1 = mem_outbox m ++ evs ∧ entry_of <$> evs = zip_with entry_for (ch_operations change) rows)
  ∧ ∀ inputs cursor received now' change',
      let m2 := cn_source (run_consumer sha inputs (mkConsumer m1 cursor received)) in
      ch_correlationId change' = ch_correlationId change → ch_echo change' = None →
      memory_commit sha now' change' m2 =
        (m2, if bool_decide (sourceChangeIntentHash sha change' = sourceChangeIntentHash sha change) then Ok rows else Throw idempotency_conflict).
Proof.
  intros H Hnew. destruct (fresh_commit _ _ _ _ _ _ H Hnew) as (h & m' & Eh & E & ->).
  destruct (operations_return _ _ _ _ _ _ _ E) as (H1 & H2 & H3 & H4). split_and!; [done|done|done|]. rewrite Eh.
  intros inputs cursor received now' change' m2 Hc He. apply known_commit; [|done]. rewrite Hc. apply run_ledger. cbn [cn_source set_ledger mem_idempotency]. rewrite map_get_set. by case_decide.
Qed.

(** ** Runs *)

Definition plain_op (t : operation_type) (id : optional string) (input : fields) : Operation := mkOperation t "item" id (Given input) Missing Missing Missing Missing.
Definition title (s : string) : fields := [("title"%string, JStr s)].
Definition two_items : ChangeSet := mkChange [plain_op CREATE (Given "t1"%string) (title "A"); plain_op UPDATE (Given "t1"%string) (title "B")] "corr" None None None.

Lemma commits_are_applied_once_witness :
  row_at (memory_commit id 0 two_items memoryDataSource).1 "item" "t1" = Some [("id"%string, JStr "t1"); ("title"%string, JStr "B")]
  ∧ ∀ inputs, let m2 := cn_source (run_consumer id inputs (mkConsumer (memory_commit id 0 two_items memoryDataSource).1 None [])) in
      (memory_commit id 5 two_items m2).1 = m2.
Proof.
  destruct (commits_are_applied_once id 0 two_items memoryDataSource (memory_commit id 0 two_items memoryDataSource).1
    [spread [("id"%string, JStr "t1")] (title "A"); spread [("id"%string, JStr "t1"); ("title"%string, JStr "A")] (title "B")]) as (_ & H & _ & H'); [reflexivity|reflexivity|].
  split; [rewrite H; reflexivity|]. intros inputs m2. unfold m2. by rewrite (H' inputs None [] 5 two_items eq_refl eq_refl).
Defined.

(** The commit of an adapter is one transaction, as the contract and the capabilities of
    this one say; but what a commit did before it throws stays: the row and its event are
    there, the ledger knows nothing, and the corrected retry emits an event under the id
    of the first. *)
Definition half_bad : ChangeSet := mkChange [plain_op CREATE (Given "t1"%string) (title "A"); plain_op CREATE Missing (title "B")] "corr" None None None.
Theorem failed_commit_is_not_undone :
  let m := (memory_commit id 0 half_bad memoryDataSource).1 in
  (memory_commit id 0 half_bad memoryDataSource).2 = Throw operation_id_required
  ∧ changeSetSchema half_bad = true
  ∧ is_Some (row_at m "item" "t1") ∧ length (mem_outbox m) = 1%nat ∧ mem_idempotency m = []
  ∧ ev_id <$> mem_outbox (memory_commit id 1 two_items m).1 = ["corr:0"; "corr:0"; "corr:1"]%string.
Proof. cbv zeta. split_and!; try reflexivity. by eexists. Qed.
