(* ===== verification/SchemaJson.v ===== *)
(** * Schemas

    The serialized schema of [packages/transaction/src/schema/serialize.ts], the naming of
    columns and tables of [ddl.ts] and [tenancy.ts], and the round trip between a built
    schema and its serialized form. A JavaScript object is the list of its entries in
    order; no model or field is named like a property of [Object.prototype]. *)
From S2P Require Import Prelude JsData Json.
#[local] Open Scope string_scope.
#[local] Open Scope list_scope.
#[local] Open Scope Z_scope.

(** ** Data *)

Inductive FieldType := FtString | FtNumber | FtBoolean | FtDate | FtEnum | FtJson.
#[export] Instance FieldType_eq_dec : EqDecision FieldType.
Proof. solve_decision. Defined.

Inductive merge_kind := MergeText | MergeCounter.
#[export] Instance merge_kind_eq_dec : EqDecision merge_kind.
Proof. solve_decision. Defined.

Record FieldMeta := mkField {
  f_type : FieldType;
  f_isOptional : bool;
  f_isIndexed : bool;
  f_merge : option merge_kind;
  f_column : option string;
  f_enumValues : option (list string);
}.
#[export] Instance FieldMeta_eq_dec : EqDecision FieldMeta.
Proof. solve_decision. Defined.

Inductive RelationType := BelongsTo | HasMany | HasOne.
#[export] Instance RelationType_eq_dec : EqDecision RelationType.
Proof. solve_decision. Defined.

Record RelationJSON := mkRelation {
  r_type : RelationType;
  r_target : string;
  r_foreignKey : string;
  r_foreignKeyColumn : string;
  r_options : option (list (string * bool));
  r_orderBy : option string;
}.

Record ScopedViaRef := mkVia {
  via_localKey : string;
  via_parentTable : string;
  via_parentKey : option string;
  via_parentOrgColumn : option string;
}.

Inductive Tenancy := TenancyColumn (column : string) | TenancyParent (via : ScopedViaRef) | TenancyNone | TenancySource.
Inductive PolicyInput :=
  | ByColumn (column : option string)
  | ByParent (fk parent : string) (parentKey parentTenantColumn : option string)
  | BySource
  | ByNone.

Record SubjectRule := mkSubject { sub_field : string; sub_group : string }.
#[export] Instance SubjectRule_eq_dec : EqDecision SubjectRule.
Proof. solve_decision. Defined.

Inductive ModelResidency := PlaneTenant | PlaneControl.
#[export] Instance ModelResidency_eq_dec : EqDecision ModelResidency.
Proof. solve_decision. Defined.

Inductive LoadStrategy := LoadInstant | LoadLazy.
Inductive scope_marker := ScopeFlag (b : bool) | ScopeKind (kind : string).
Record GrantsRef := mkGrants { gr_subject : string; gr_scope : string }.
Record Role := mkRole { role_kind : string; role_field : string; role_multi : bool }.
Inductive AutoFillSource := FromOrganizationId | FromUserId.
Record AutoFillRule := mkAutoFill { af_field : string; af_from : AutoFillSource }.

Record ModelJSON := mkModel {
  m_fields : list (string * FieldMeta);
  m_relations : list (string * RelationJSON);
  m_load : LoadStrategy;
  m_typename : string;
  m_tableName : option string;
  m_tenancy : option Tenancy;
  m_subject : option SubjectRule;
  m_plane : option ModelResidency;
  m_scope : option scope_marker;
  m_grants : option GrantsRef;
  m_entityRoles : option (list Role);
  m_routingOnly : bool;
  m_bootstrapLimit : option Z;
  m_bootstrapOrderBy : option string;
  m_mutable : option bool;
  m_lazyObservable : option bool;
  m_persist : option (option string);
  m_autoFill : option (list AutoFillRule);
  m_requiredFields : option (list string);
}.

Record SchemaJSON := mkSchema {
  s_v : Z;
  s_models : list (string * ModelJSON);
  s_identityRoles : list Role;
  s_sessionSettings : option (list (string * string));
}.

(** ** Tenancy and residency *)

Definition DEFAULT_ORG_COLUMN : string := "organization_id".

Definition resolvePolicy (input : option PolicyInput) : Tenancy :=
  match input with
  | None => TenancyColumn DEFAULT_ORG_COLUMN
  | Some (ByColumn column) => TenancyColumn (default DEFAULT_ORG_COLUMN column)
  | Some (ByParent fk parent key org) => TenancyParent (mkVia fk parent key org)
  | Some BySource => TenancySource
  | Some ByNone => TenancyNone
  end.

Definition resolveTenancy (m : ModelJSON) : Tenancy := default (TenancyColumn DEFAULT_ORG_COLUMN) (m_tenancy m).
Definition tenancyColumn (t : Tenancy) : option string := match t with TenancyColumn c => Some c | _ => None end.
Definition org_column (m : ModelJSON) : option string := tenancyColumn (resolveTenancy m).

(** [(model.plane ?? 'tenant') === 'control'] *)
Definition is_control (m : ModelJSON) : bool := bool_decide (default PlaneTenant (m_plane m) = PlaneControl).

(** ** Names *)

Definition in_range (lo hi : N) (c : Ascii.ascii) : bool := let n := Ascii.N_of_ascii c in (lo <=? n)%N && (n <=? hi)%N.
Definition is_upper : Ascii.ascii → bool := in_range 65 90.
Definition is_lower : Ascii.ascii → bool := in_range 97 122.
Definition is_digit : Ascii.ascii → bool := in_range 48 57.
Definition upper_ascii (c : Ascii.ascii) : Ascii.ascii := if is_lower c then Ascii.ascii_of_N (Ascii.N_of_ascii c - 32) else c.
Definition underscore : Ascii.ascii := Ascii.ascii_of_N 95.

Fixpoint camelToSnake (s : string) : string :=
  match s with
  | EmptyString => EmptyString
  | String c s => if is_upper c then String underscore (String (lower_ascii c) (camelToSnake s)) else String c (camelToSnake s)
  end.

Fixpoint underscores (n : nat) (s : string) : string := match n with O => s | S n => String underscore (underscores n s) end.

(** [replace(/_+([a-z0-9]?)/g, …)]: [run] underscores have been read. *)
Fixpoint snake_from (run : nat) (s : string) : string :=
  match s with
  | EmptyString => underscores run EmptyString
  | String c s =>
      if Ascii.eqb c underscore then snake_from (S run) s
      else if (0 <? run)%nat && (is_lower c || is_digit c) then String (upper_ascii c) (snake_from 0 s)
      else underscores run (String c (snake_from 0 s))
  end.
Definition snakeToCamel (s : string) : string := snake_from 0 s.

Definition columnNameOf (fieldName : string) (meta : option FieldMeta) : string :=
  default (camelToSnake fieldName) (meta ≫= f_column).
Definition tableNameOf (model : ModelJSON) (key : string) : string := default key (m_tableName model).

(** [slug] of [ddl.ts]: runs of other characters become one underscore, which is dropped at
    either end, and fifty characters are kept. *)
Fixpoint slug_runs (in_run : bool) (s : string) : string :=
  match s with
  | EmptyString => EmptyString
  | String c s =>
      if is_lower c || is_digit c then String c (slug_runs false s)
      else if in_run then slug_runs true s else String underscore (slug_runs true s)
  end.

Definition trim_left (s : string) : string := match s with String c s' => if Ascii.eqb c underscore then s' else s | EmptyString => s end.
Fixpoint trim_right (s : string) : string :=
  match s with
  | EmptyString => EmptyString
  | String c EmptyString => if Ascii.eqb c underscore then EmptyString else s
  | String c s => String c (trim_right s)
  end.

Definition slug (raw : string) : string :=
  let s := trim_right (trim_left (slug_runs false (toLowerCase raw))) in
  match String.substring 0 50 s with EmptyString => "x" | s => s end.
Definition appSchemaName (organizationId : string) : string := "app_" +:+ slug organizationId.

Fixpoint has_char (c : Ascii.ascii) (s : string) : bool :=
  match s with EmptyString => false | String d s => Ascii.eqb d c || has_char c s end.

Lemma upper_lower c : is_upper c = true → upper_ascii (lower_ascii c) = c ∧ is_lower (lower_ascii c) = true ∧ Ascii.eqb (lower_ascii c) underscore = false.
Proof. destruct c as [[] [] [] [] [] [] [] []]; vm_compute; by intros. Qed.

(** A field whose name has no underscore is found again from the column its name is
    turned into, and two such fields never share a column. *)
Theorem column_names_round_trip s :
  has_char underscore s = false → snakeToCamel (camelToSnake s) = s ∧ ∀ s', has_char underscore s' = false → camelToSnake s' = camelToSnake s → s' = s.
Proof.
  assert (H : ∀ s, has_char underscore s = false → snakeToCamel (camelToSnake s) = s).
  { unfold snakeToCamel. intros s0. induction s0 as [|c s0 IH]; [done|]. cbn [has_char]. intros [Hc Hs]%orb_false_iff. cbn [camelToSnake].
    destruct (is_upper c) eqn:Eu; cbn [snake_from].
    - destruct (upper_lower c Eu) as (Hu & Hl & He). rewrite He, Hl. simpl. by rewrite Hu, IH.
    - rewrite Hc. simpl. by rewrite IH. }
  intros Hs. split; [by apply H|]. intros s' Hs' E. by rewrite <- (H s' Hs'), E, H.
Qed.

Lemma column_names_round_trip_witness :
  snakeToCamel (camelToSnake "operatorId") = "operatorId".
Proof. destruct (column_names_round_trip "operatorId" eq_refl) as [H _]. exact H. Defined.

(** A name with an underscore does not round trip, and shares its column with another. *)
Lemma underscored_names_collide : snakeToCamel (camelToSnake "operator_id") = "operatorId" ∧ camelToSnake "operator_id" = camelToSnake "operatorId".
Proof. by split. Qed.

(** The name of the schema of an organization is a lower-case identifier: letters, digits
    and underscores. *)
Definition identifier_char (c : Ascii.ascii) : bool := is_lower c || is_digit c || Ascii.eqb c underscore.
Fixpoint all_chars (p : Ascii.ascii → bool) (s : string) : bool := match s with EmptyString => true | String c s => p c && all_chars p s end.

Lemma slug_runs_identifier b s : all_chars identifier_char (slug_runs b s) = true.
Proof.
  revert b. induction s as [|c s IH]; intros b; [done|]. cbn [slug_runs]. destruct (is_lower c || is_digit c) eqn:E.
  - simpl. rewrite IH. unfold identifier_char. by rewrite E.
  - destruct b; [apply IH|]. simpl. by rewrite IH.
Qed.

Lemma trim_left_identifier p s : all_chars p s = true → all_chars p (trim_left s) = true.
Proof. destruct s as [|c s]; [done|]. simpl. intros [Hc Hs]%andb_true_iff. destruct (Ascii.eqb _ _); [done|]. simpl. by rewrite Hc, Hs. Qed.

Lemma trim_right_identifier p s : all_chars p s = true → all_chars p (trim_right s) = true.
Proof.
  induction s as [|c s IH]; [done|]. cbn [all_chars]. intros [Hc Hs]%andb_true_iff. specialize (IH Hs). cbn [trim_right].
  destruct s as [|d s]; [destruct (Ascii.eqb _ _); simpl; by rewrite ?Hc|]. cbn [all_chars]. rewrite Hc. exact IH.
Qed.

Lemma substring_identifier p n : ∀ s, all_chars p s = true → all_chars p (String.substring 0 n s) = true.
Proof.
  induction n as [|n IH]; intros s Hs; [by destruct s|]. destruct s as [|c s]; [done|]. cbn [all_chars] in Hs. apply andb_true_iff in Hs as [Hc Hs].
  simpl. by rewrite Hc, IH.
Qed.

Lemma substring_short n : ∀ s, (String.length (String.substring 0 n s) ≤ n)%nat.
Proof. induction n as [|n IH]; intros [|c s]; simpl; try lia. specialize (IH s). lia. Qed.

Lemma app_schema_name_is_an_identifier organizationId :
  all_chars identifier_char (appSchemaName organizationId) = true ∧ (String.length (appSchemaName organizationId) ≤ 54)%nat ∧ appSchemaName organizationId ≠ "public".
Proof.
  unfold appSchemaName, slug. set (s := trim_right _).
  assert (Hs : all_chars identifier_char s = true) by apply trim_right_identifier, trim_left_identifier, slug_runs_identifier.
  apply (substring_identifier _ 50) in Hs. pose proof (substring_short 50 s) as Hl. destruct (String.substring 0 50 s) as [|c t]; [by split_and!; vm_compute; try lia|].
  split_and!; [exact Hs|simpl in *; lia|done].
Qed.
