(* ===== verification/SourceSubjects.v ===== *)
(** * Sync groups: what a row is delivered to and who may see it

    The evaluation half of [transaction/src/schema/roles.ts], [schema/subject.ts] and
    [scopeKindOf] of [schema/model.ts]. A group is the text [kind:id]; delivery matches any
    group of a row with any group of a participant, so a model with a declared subject has
    that one route and no other. *)
From S2P Require Import Prelude JsData Json DeltaStore ModelRow JsonText SourceModel SourceFacts SchemaJson.
From Stdlib Require Import Sorted.
#[local] Open Scope Z_scope.

Definition syncGroup (kind id : string) : string := kind +:+ ":" +:+ id.

(** ** Roles *)

Definition nonempty_text (v : json) : option string := match v with JStr EmptyString => None | JStr s => Some s | _ => None end.

Definition extractRoleIds (context : fields) (source : Role) : list string :=
  match map_get (role_field source) context with
  | Some raw =>
      if role_multi source then match raw with JArr l => omap nonempty_text l | _ => [] end
      else if truthy raw then [js_text raw] else []
  | None => []
  end.

Definition add_group (kind : string) (out : list string) (id : string) : list string := if String.eqb id "" then out else set_add (syncGroup kind id) out.
Definition add_role (context : fields) (out : list string) (role : Role) : list string := foldl (add_group (role_kind role)) out (extractRoleIds context role).

Definition composeIdentitySyncGroups (identity : fields) (identityRoles : list Role) : list string := foldl (add_role identity) [] identityRoles.
Definition composeEntitySyncGroups (record : fields) (model : ModelJSON) : list string := foldl (add_role record) [] (default [] (m_entityRoles model)).

(** ** Rows *)

(** An assembled model has its typename. *)
Definition scopeKindOf (model : ModelJSON) : option string :=
  match m_scope model with
  | None | Some (ScopeFlag false) | Some (ScopeKind EmptyString) => None
  | Some (ScopeKind kind) => Some (toLowerCase kind)
  | Some (ScopeFlag true) => Some (toLowerCase (m_typename model))
  end.

Record RecordSyncGroupSpec := mkGroupSpec {
  gs_subject : option SubjectRule;
  gs_selfKind : option string;
  gs_parents : list (string * string);
}.

Definition invalid_record_subject : JsError := mkError PlainError None.

Definition add_parent (record : fields) (groups : list string) (parent : string * string) : list string :=
  match map_get parent.2 record with Some v => if truthy v then set_add (syncGroup parent.1 (js_text v)) groups else groups | None => groups end.

Definition syncGroupsForRow (spec : option RecordSyncGroupSpec) (record : fields) (additionalGroups : list string) : result (list string) :=
  match spec ≫= gs_subject with
  | Some rule =>
      match map_get (sub_field rule) record ≫= nonempty_text with
      | Some value => Ok [syncGroup (sub_group rule) value]
      | None => Throw invalid_record_subject
      end
  | None =>
      let groups := foldl (λ out g, set_add g out) [] additionalGroups in
      match spec with
      | None => Ok groups
      | Some spec =>
          let groups := match gs_selfKind spec, map_get "id"%string record ≫= nonempty_text with Some kind, Some id => set_add (syncGroup kind id) groups | _, _ => groups end in
          Ok (foldl (add_parent record) groups (gs_parents spec))
      end
  end.

(** ** Requests *)

Definition intersectRequestedWithAllowed (requested allowed : list string) : list string :=
  match requested with
  | [] => allowed
  | _ => match base.filter (.∈ allowed) requested with [] => allowed | accepted => accepted end
  end.

(** ** Subjects *)

Definition subjectGroupForRow (rule : SubjectRule) (row : fields) : option string :=
  syncGroup (sub_group rule) <$> (map_get (sub_field rule) row ≫= nonempty_text).

Definition subjectAuthorized (rule : option SubjectRule) (row : fields) (groups : option (list string)) : bool :=
  match rule with
  | None => true
  | Some rule => match subjectGroupForRow rule row with Some required => bool_decide (required ∈ default [] groups) | None => false end
  end.

(** ** Facts *)

Lemma append_inj s a b : s +:+ a = s +:+ b → a = b.
Proof. induction s as [|c s IH]; [done|]. intros H. injection H as H. by apply IH. Qed.

Lemma syncGroup_inj kind id id' : syncGroup kind id = syncGroup kind id' → id = id'.
Proof. unfold syncGroup. intros H%append_inj. by injection H. Qed.

Lemma requested_groups_narrow requested allowed g :
  g ∈ intersectRequestedWithAllowed requested allowed → g ∈ allowed ∧ ((∃ r, r ∈ requested ∧ r ∈ allowed) → g ∈ requested).
Proof.
  unfold intersectRequestedWithAllowed. destruct requested as [|r0 rest]; [intros Hg; split; [done|]; by intros (r & ?%elem_of_nil & _)|].
  destruct (base.filter _ (r0 :: rest)) as [|a l] eqn:E.
  - intros Hg. split; [done|]. intros (r & Hr & Ha). exfalso. apply (elem_of_nil r). rewrite <- E. by apply list_elem_of_filter.
  - rewrite <- E. by intros [? ?]%list_elem_of_filter.
Qed.

(** A row with a subject has one route, and it is the one its subject is let in by. *)
Lemma subject_is_the_route rule self parents row extra gs G :
  syncGroupsForRow (Some (mkGroupSpec (Some rule) self parents)) row extra = Ok gs →
  (∃ g, g ∈ gs ∧ g ∈ G) ↔ subjectAuthorized (Some rule) row (Some G) = true.
Proof.
  unfold syncGroupsForRow, subjectAuthorized, subjectGroupForRow. cbn. destruct (map_get _ _ ≫= _) as [v|]; [|done]. intros [= <-]. cbn. rewrite bool_decide_eq_true. split.
  - by intros (g & ->%list_elem_of_singleton & Hg).
  - intros Hg. eexists. split; [by apply list_elem_of_singleton|done].
Qed.

Lemma subject_routes_or_throws rule self parents row extra :
  (∃ g, syncGroupsForRow (Some (mkGroupSpec (Some rule) self parents)) row extra = Ok [g])
  ∨ (syncGroupsForRow (Some (mkGroupSpec (Some rule) self parents)) row extra = Throw invalid_record_subject ∧ ∀ G, subjectAuthorized (Some rule) row G = false).
Proof. unfold syncGroupsForRow, subjectAuthorized, subjectGroupForRow. cbn. destruct (map_get _ _ ≫= _) as [v|]; [left; by eexists|by right]. Qed.

(** * Data sources: who may read and write a row

    [transaction/src/source/adapters/subjectAuthorization.ts]: the subject rule of a model,
    the routes of a row, the subjects a participant stands for, and the checks of a read
    and of a change set against the rows as they are. *)

Notation schema_models := (list (string * ModelJSON)).

Definition same_name (a b : string) : bool := String.eqb a b || String.eqb (toLowerCase a) (toLowerCase b).
Definition sourceModelEntry (models : schema_models) (model : string) : option (string * ModelJSON) :=
  List.find (λ p, same_name p.1 model || same_name (m_typename p.2) model) models.

Definition capability_scope_denied : JsError := ablo_error AbloPermissionError "capability_scope_denied".
Definition entity_already_exists : JsError := validation "entity_already_exists".
Definition stale_row : JsError := ablo_error AbloStaleContextError "stale_context".

Definition sourceSubjectRule (models : schema_models) (model : string) : option SubjectRule := sourceModelEntry models model ≫= λ p, m_subject p.2.

(** The relations to a parent, with the kind of scope it is. *)
Definition parent_routes (models : schema_models) (definition : ModelJSON) : list (string * string) :=
  omap (λ r : string * RelationJSON,
    if bool_decide (r_type r.2 = BelongsTo) && bool_decide ((r_options r.2 ≫= map_get "parent"%string) = Some true)
    then (λ kind, (kind, r_foreignKey r.2)) <$> (map_get (r_target r.2) models ≫= scopeKindOf) else None) (m_relations definition).

Definition sourceSyncGroups (models : schema_models) (model : string) (row : fields) : result (list string) :=
  match sourceModelEntry models model with
  | None => Ok []
  | Some (_, definition) =>
      match syncGroupsForRow (Some (mkGroupSpec (m_subject definition) (scopeKindOf definition) (parent_routes models definition))) row (composeEntitySyncGroups row definition) with
      | Ok groups => Ok groups
      | Throw _ => Throw (validation "source_event_invalid")
      end
  end.

(** [startsWith(prefix)] with [slice(prefix.length)]. *)
Fixpoint after_prefix (prefix s : string) : option string :=
  match prefix, s with
  | EmptyString, _ => Some s
  | String c prefix, String d s => if Ascii.eqb c d then after_prefix prefix s else None
  | _, EmptyString => None
  end.

Definition sourceSubjectValues (rule : option SubjectRule) (groups : option (list string)) : option (list string) :=
  match rule with
  | None => None
  | Some rule =>
      let values := List.filter (λ v, negb (String.eqb v "")) (omap (after_prefix (sub_group rule +:+ ":")) (default [] groups)) in
      Some (foldl (λ out v, set_add v out) [] values)
  end.

(** ** Locks of rows that are to be created *)

Definition create_place (op : Operation) : string := toLowerCase (op_model op) +:+ String Ascii.zero (default EmptyString (given (op_id op))).
Definition sourceSubjectCreateLockOperations (localeCompare : string → string → Z) (models : schema_models) (ops : list Operation) : list Operation :=
  sort_by (λ a b, localeCompare (create_place a) (create_place b))
    (List.filter (λ op, bool_decide (op_type op = CREATE) && match op_id op with Given id => negb (String.eqb id "") | _ => false end && is_Some_b (sourceSubjectRule models (op_model op))) ops).
Definition sourceSubjectCreateLockKey (op : Operation) : string := "ablo:subject-create:" +:+ toLowerCase (op_model op) +:+ ":" +:+ default EmptyString (given (op_id op)).

Definition lockSourceSubjectCreates {S} (localeCompare : string → string → Z) (models : schema_models) (ops : list Operation) (acquire : Operation → string → M S ()) : M S () :=
  foldl (λ before op, _ ← before; acquire op (sourceSubjectCreateLockKey op)) (mret ()) (sourceSubjectCreateLockOperations localeCompare models ops).

(** ** Reads and changes *)

Definition authorizeSourceRead (models : schema_models) (model : string) (groups : option (list string)) (rows : list fields) : list fields :=
  match sourceSubjectRule models model with
  | None => rows
  | Some rule => List.filter (λ row, subjectAuthorized (Some rule) row groups) rows
  end.

Definition authorizePayload (rule : SubjectRule) (row : fields) (groups : option (list string)) : result () :=
  guard_or (subjectAuthorized (Some rule) row groups) capability_scope_denied.

(** What is checked of an operation on a model with a subject, given the row there is. *)
Definition authorize_operation (rule : SubjectRule) (groups : option (list string)) (op : Operation) (current : option fields) : result () :=
  _ ← match current with Some row => authorizePayload rule row groups | None => Ok () end;
  _ ← guard_or (negb (bool_decide (op_type op = CREATE) && is_Some_b current)) entity_already_exists;
  _ ← match op_type op, current with
      | CREATE, _ => authorizePayload rule (input_of op) groups
      | _, Some _ => Ok ()
      | _, None => Throw (match given (op_readAt op) with Some _ => stale_row | None => capability_scope_denied end)
      end;
  match current, given (op_input op) with
  | Some row, Some input =>
      match map_get (sub_field rule) input with
      | Some v => guard_or (js_same (default JUndefined (map_get (sub_field rule) row)) v) capability_scope_denied
      | None => Ok ()
      end
  | _, _ => Ok ()
  end.

Fixpoint authorizeSourceChange {S} (models : schema_models) (groups : option (list string)) (load : Operation → M S (option fields)) (ops : list Operation) : M S () :=
  match ops with
  | [] => mret ()
  | op :: ops =>
      match sourceSubjectRule models (op_model op) with
      | None => authorizeSourceChange models groups load ops
      | Some rule =>
          current ← match given (op_id op) with Some id => if String.eqb id "" then mret None else load op | None => mret None end;
          _ ← liftM (authorize_operation rule groups op current);
          authorizeSourceChange models groups load ops
      end
  end.

(** ** Routes and reads agree *)

Lemma append_assoc a b c : (a +:+ b) +:+ c = a +:+ b +:+ c.
Proof. induction a as [|x a IH]; [done|]. change (String x ((a +:+ b) +:+ c) = String x (a +:+ b +:+ c)). by rewrite IH. Qed.

Lemma after_prefix_spec prefix s v : after_prefix prefix s = Some v ↔ s = prefix +:+ v.
Proof.
  revert s. induction prefix as [|c prefix IH]; intros s; cbn; [split; [by intros [= ->]|by intros ->]|].
  destruct s as [|d s]; [done|]. destruct (Ascii.eqb_spec c d) as [->|Hne]; [rewrite IH; split; [by intros ->|by intros [= ->]]|split; [done|by intros [= ? _]]].
Qed.

Lemma elem_set_fold (l : list string) : ∀ out v, v ∈ foldl (λ out v, set_add v out) out l ↔ v ∈ out ∨ v ∈ l.
Proof. induction l as [|x l IH]; intros out v; cbn; [set_solver|]. rewrite IH, elem_set_add, elem_of_cons. tauto. Qed.

(** The subjects a participant stands for are the values its groups admit. *)
Lemma subject_values_spec rule groups row values : sourceSubjectValues (Some rule) groups = Some values →
  subjectAuthorized (Some rule) row groups = true ↔ ∃ v, map_get (sub_field rule) row = Some (JStr v) ∧ v ∈ values.
Proof.
  intros [= <-]. assert (Hv : ∀ v, v ∈ foldl (λ out v, set_add v out) [] (List.filter (λ v, negb (String.eqb v "")) (omap (after_prefix (sub_group rule +:+ ":")) (default [] groups)))
    ↔ v ≠ ""%string ∧ syncGroup (sub_group rule) v ∈ default [] groups).
  { intros v. rewrite elem_set_fold, elem_of_nil, list_elem_of_In, filter_In, <- list_elem_of_In, list_elem_of_omap, negb_true_iff, String.eqb_neq. split.
    - intros [[]|[(g & Hg & Hs%after_prefix_spec) Hne]]. split; [done|]. unfold syncGroup. rewrite <- append_assoc. by rewrite <- Hs.
    - intros [Hne Hg]. right. split; [|done]. eexists. split; [exact Hg|]. apply after_prefix_spec. unfold syncGroup. by rewrite append_assoc. }
  unfold subjectAuthorized, subjectGroupForRow. destruct (map_get _ row) as [w|]; cbn; [|split; [done|by intros (v & ? & _)]].
  destruct w as [| | | |s| | |]; cbn; try (split; [done|by intros (v & ? & _)]). destruct s as [|c s]; cbn.
  - split; [done|]. intros (v & [= <-] & [? _]%Hv). done.
  - rewrite bool_decide_eq_true. split; [intros Hg; exists (String c s); split; [done|by apply Hv]|by intros (v & [= <-] & [_ ?]%Hv)].
Qed.

Lemma filter_ext_b {A} (f g : A → bool) (l : list A) : (∀ x, f x = g x) → List.filter f l = List.filter g l.
Proof. intros H. induction l as [|x l IH]; cbn; [done|]. by rewrite H, IH. Qed.

(** C30: for a model with a declared subject, the one route a row is delivered to is a group
    of a participant exactly when the participant may read the row; a row without its
    subject is delivered to nobody, its event being refused, and read by nobody; and
    asking the database for the subjects a participant stands for selects exactly the rows
    the check of each row lets through. *)
Theorem routes_and_reads_agree models model rule row :
  sourceSubjectRule models model = Some rule →
  match sourceSyncGroups models model row with
  | Ok gs => ∃ g, gs = [g] ∧ ∀ G, g ∈ G ↔ authorizeSourceRead models model (Some G) [row] = [row]
  | Throw e => e = validation "source_event_invalid" ∧ ∀ G, authorizeSourceRead models model G [row] = []
  end
  ∧ ∀ G values rows, sourceSubjectValues (Some rule) G = Some values →
      authorizeSourceRead models model G rows
      = List.filter (λ r, match map_get (sub_field rule) r with Some (JStr v) => bool_decide (v ∈ values) | _ => false end) rows.
Proof.
  intros Hr. pose proof Hr as Hs. unfold sourceSubjectRule in Hs. unfold authorizeSourceRead. rewrite Hr. split.
  - unfold sourceSyncGroups. destruct (sourceModelEntry models model) as [[k d]|]; [|done]. cbn in Hs. rewrite Hs.
    destruct (subject_routes_or_throws rule (scopeKindOf d) (parent_routes models d) row (composeEntitySyncGroups row d)) as [[g Hg]|[Hg Hno]]; rewrite Hg.
    + exists g. split; [done|]. intros G. pose proof (subject_is_the_route _ _ _ _ _ _ G Hg) as He. cbn [List.filter].
      destruct (subjectAuthorized (Some rule) row (Some G)); split; intros H; try done.
      * destruct He as [_ He]. by destruct (He eq_refl) as (g0 & ->%list_elem_of_singleton & ?).
      * exfalso. destruct He as [He _]. enough (false = true) by done. apply He. exists g. split; [by apply list_elem_of_singleton|done].
    + split; [done|]. intros G. cbn [List.filter]. by rewrite Hno.
  - intros G values rows Hv. apply filter_ext_b. intros r. pose proof (subject_values_spec rule G r values Hv) as Hspec.
    apply eq_true_iff_eq. rewrite Hspec. split.
    + intros (v & -> & Hin). by apply bool_decide_eq_true.
    + destruct (map_get _ r) as [[| | | |v| | |]|]; try done. intros Hin%bool_decide_eq_true. by exists v.
Qed.

(** ** Authorized changes *)

Lemma authorize_operation_ok rule G op current : authorize_operation rule G op current = Ok () →
  match current with
  | Some row =>
      subjectAuthorized (Some rule) row G = true ∧ op_type op ≠ CREATE
      ∧ ∀ v, map_get (sub_field rule) (input_of op) = Some v → js_same (default JUndefined (map_get (sub_field rule) row)) v = true
  | None => op_type op = CREATE ∧ subjectAuthorized (Some rule) (input_of op) G = true
  end.
Proof.
  unfold authorize_operation, authorizePayload. intros H. apply bind_ok in H as (u1 & H1 & H). apply bind_ok in H as (u2 & H2 & H). apply bind_ok in H as (u3 & H3 & H).
  apply guard_or_ok in H2. destruct current as [row|].
  - apply guard_or_ok in H1. destruct (decide (op_type op = CREATE)) as [E|E]; [by rewrite (bool_decide_eq_true_2 _ E) in H2|]. split_and!; [done|done|].
    intros v Hv. unfold input_of in Hv. destruct (given (op_input op)) as [input|]; [|done]. cbn in Hv. rewrite Hv in H. by apply guard_or_ok in H.
  - destruct (op_type op); try done. by apply guard_or_ok in H3.
Qed.

(** Loading a row from the reference adapter. *)
Definition memory_load (op : Operation) : M memory (option fields) :=
  λ m, (m, Ok (head (memory_read (LoadRow (op_model op) (default EmptyString (given (op_id op)))) m))).

Lemma memory_load_row op id m : given (op_id op) = Some id → memory_load op m = (m, Ok (row_at m (op_model op) id)).
Proof.
  intros H. unfold memory_load, row_at, model_rows. rewrite H. cbn. do 2 f_equal. destruct (map_get _ (mem_store m)) as [rows|]; [|done]. cbn. by destruct (map_get id rows).
Qed.

(** The inputs are objects: each has its keys once. *)
Definition keys_once (ops : list Operation) : Prop := ∀ op, op ∈ ops → NoDup (input_of op).*1.

Lemma mret_bind {S A B} (a : A) (k : A → M S B) s : (x ← mret a; k x) s = k a s.
Proof. reflexivity. Qed.

(** The row an operation is authorized against: one that names no row has none. *)
Definition loaded (m : memory) (op : Operation) (id : string) : option fields := if is_Some_b (given (op_id op)) then row_at m (op_model op) id else None.

Lemma authorized_operations models G ops m m' : authorizeSourceChange models G memory_load ops m = (m', Ok ()) →
  m' = m ∧ ∀ op rule id, op ∈ ops → sourceSubjectRule models (op_model op) = Some rule → rowId op = Ok id → authorize_operation rule G op (loaded m op id) = Ok ().
Proof.
  induction ops as [|op ops IH]; cbn [authorizeSourceChange]; [intros [= <-]; split; [done|by intros ??? ?%elem_of_nil]|].
  destruct (sourceSubjectRule models (op_model op)) as [rule|] eqn:Er.
  - intros H. assert (Hop : m' = m ∧ (∀ id, rowId op = Ok id → authorize_operation rule G op (loaded m op id) = Ok ()) ∧ authorizeSourceChange models G memory_load ops m = (m', Ok ())).
    { unfold loaded, rowId. destruct (given (op_id op)) as [id|] eqn:Eid; cbn [is_Some_b].
      - destruct (String.eqb_spec id "") as [->|Hne].
        + rewrite mret_bind, liftM_bind in H. destruct (authorize_operation _ _ _ _) as [[]|]; [|done]. destruct (IH H) as [-> _]. by split_and!.
        + rewrite bindM_bind, (memory_load_row op id) in H by done. rewrite liftM_bind in H. destruct (authorize_operation _ _ _ _) as [[]|] eqn:Ea; [|done].
          destruct (IH H) as [-> _]. split_and!; [done| |done]. by intros i [= <-].
      - rewrite mret_bind, liftM_bind in H. destruct (authorize_operation _ _ _ _) as [[]|] eqn:Ea; [|done]. destruct (IH H) as [-> _]. by split_and!. }
    destruct Hop as (-> & Hop & Hrest). split; [done|]. destruct (IH Hrest) as [_ Hall]. intros o r i [->|Ho]%elem_of_cons Hr Hi; [|by apply (Hall o)].
    rewrite Er in Hr. injection Hr as <-. by apply Hop.
  - intros [-> Hall]%IH. split; [done|]. intros o r i [->|Ho]%elem_of_cons Hr Hi; [congruence|by apply (Hall o)].
Qed.

(** A row that is gone, or lets its participants in, or nobody. *)
Definition inside (rule : SubjectRule) (G : option (list string)) (row : option fields) : Prop :=
  match row with None => True | Some r => subjectAuthorized (Some rule) r G = true ∨ subjectGroupForRow rule r = None end.

(** The subject of a row, if it has one, is this. *)
Definition subject_is (rule : SubjectRule) (v : string) (row : option fields) : Prop :=
  match row with None => True | Some r => map_get (sub_field rule) r = Some (JStr v) ∨ subjectGroupForRow rule r = None end.

Lemma subject_of_spread rule v old patch : NoDup patch.*1 → subject_is rule v (Some old) →
  (∀ w, map_get (sub_field rule) patch = Some w → w = JStr v ∨ nonempty_text w = None) → subject_is rule v (Some (spread old patch)).
Proof.
  unfold subject_is, subjectGroupForRow. intros Hn Ho Hp. rewrite spread_get by done. destruct (map_get _ patch) as [w|] eqn:E; [|done].
  destruct (Hp w eq_refl) as [->|Hw]; [by left|right]. cbn. by rewrite Hw.
Qed.

Lemma effect_keeps_subject rule v now id op prev :
  sub_field rule ≠ "id"%string → NoDup (input_of op).*1 → op_type op ≠ CREATE →
  (∀ w, map_get (sub_field rule) (input_of op) = Some w → w = JStr v) →
  subject_is rule v prev → subject_is rule v (op_effect now id op prev).
Proof.
  intros Hid Hn Hc Hw Hp. unfold op_effect, operation_row.
  assert (Hd : subject_is rule v (Some (default [("id"%string, JStr id)] prev))).
  { destruct prev as [r|]; [done|]. right. unfold subjectGroupForRow. cbn. rewrite decide_False by done. done. }
  assert (Hs : subject_is rule v (Some (spread (default [("id"%string, JStr id)] prev) (input_of op)))) by (apply subject_of_spread; [done|done|]; intros w ?%Hw; by left).
  destruct (op_type op); try done; (apply subject_of_spread; [apply NoDup_singleton|done|]; cbn; case_decide; intros w; [|done]; intros [= <-]; by right).
Qed.

Lemma created_row_is_inside rule G now id op prev :
  op_type op = CREATE → NoDup (input_of op).*1 → subjectAuthorized (Some rule) (input_of op) G = true → inside rule G (op_effect now id op prev).
Proof.
  intros Ht Hn Ha. unfold op_effect, operation_row. rewrite Ht. left. revert Ha. unfold subjectAuthorized, subjectGroupForRow. rewrite spread_get by done.
  by destruct (map_get _ (input_of op)).
Qed.

Lemma subject_is_inside rule G row v : subjectAuthorized (Some rule) row G = true → map_get (sub_field rule) row = Some (JStr v) → ∀ r, subject_is rule v r → inside rule G r.
Proof.
  intros Ha Hv [r|]; [|done]. intros [E|E]; [left|by right]. revert Ha. unfold subjectAuthorized, subjectGroupForRow. by rewrite Hv, E.
Qed.

Lemma authorized_subject rule G row : subjectAuthorized (Some rule) row G = true → ∃ v, map_get (sub_field rule) row = Some (JStr v).
Proof.
  unfold subjectAuthorized, subjectGroupForRow. destruct (map_get _ row) as [[| | | |s| | |]|]; try done. intros _. by exists s.
Qed.

Lemma js_same_text v w : js_same (JStr v) w = true → w = JStr v.
Proof. destruct w; cbn; try done. intros ->%String.eqb_eq. done. Qed.

(** Patching keeps a row inside, whatever subject its row has: the patch has none, or the
    one of the participant's row it was authorized against. *)
Lemma spread_inside rule G old patch : NoDup patch.*1 → inside rule G (Some old) →
  (∀ w, map_get (sub_field rule) patch = Some w → nonempty_text w = None ∨ subjectAuthorized (Some rule) [(sub_field rule, w)] G = true) → inside rule G (Some (spread old patch)).
Proof.
  unfold inside, subjectAuthorized, subjectGroupForRow. intros Hn Ho Hp. rewrite spread_get by done. destruct (map_get _ patch) as [w|] eqn:E; [|done].
  specialize (Hp w eq_refl). cbn in *. rewrite decide_True in Hp by done. destruct Hp as [Hw|Hw]; [right; by rewrite Hw|by left].
Qed.

Lemma effect_stays_inside rule G now id op row prev :
  sub_field rule ≠ "id"%string → NoDup (input_of op).*1 → authorize_operation rule G op (Some row) = Ok () → inside rule G prev → inside rule G (op_effect now id op prev).
Proof.
  intros Hid Hn Ha Hp. destruct (authorize_operation_ok _ _ _ _ Ha) as (Hrow & Hc & Hw). destruct (authorized_subject _ _ _ Hrow) as [v Hv].
  assert (Hd : inside rule G (Some (default [("id"%string, JStr id)] prev))).
  { destruct prev as [r|]; [done|]. right. unfold subjectGroupForRow. cbn. rewrite decide_False by done. done. }
  assert (Hs : inside rule G (Some (spread (default [("id"%string, JStr id)] prev) (input_of op)))).
  { apply spread_inside; [done|done|]. intros w Hw'. right. specialize (Hw w Hw'). rewrite Hv in Hw. apply js_same_text in Hw as ->.
    revert Hrow. unfold subjectAuthorized, subjectGroupForRow. rewrite Hv. cbn. by rewrite decide_True. }
  unfold op_effect, operation_row. destruct (op_type op); try done; (apply spread_inside; [apply NoDup_singleton|done|]; cbn; case_decide; intros w; [|done]; intros [= <-]; by left).
Qed.

Lemma effects_end_inside rule G now model id ops :
  sub_field rule ≠ "id"%string → keys_once ops → (∀ op, op ∈ ops → touches model id op = true → ∃ current, authorize_operation rule G op current = Ok ()) →
  ∀ prev, inside rule G prev ∨ (∃ op, op ∈ ops ∧ touches model id op = true) ∧ (∀ op, op ∈ ops → touches model id op = true → authorize_operation rule G op None = Ok ()) →
  inside rule G (effects now model id ops prev).
Proof.
  intros Hid Hn Ha. unfold effects. induction ops as [|op ops IH]; intros prev Hp; [by destruct Hp as [?|[(op & ?%elem_of_nil & _) _]]|]. cbn [foldl].
  assert (Hn' : keys_once ops) by (intros o Ho; apply Hn; by right). apply IH; [done|intros o Ho; apply Ha; by right|]. destruct (touches model id op) eqn:Et.
  - left. destruct Hp as [Hp|[_ Hp]].
    + destruct (Ha op ltac:(left) Et) as [[row|] Hok]; [eapply effect_stays_inside; try done; apply Hn; left|].
      destruct (authorize_operation_ok _ _ _ _ Hok) as [Hc Hi]. apply created_row_is_inside; try done. apply Hn. left.
    + destruct (authorize_operation_ok _ _ _ _ (Hp op ltac:(left) Et)) as [Hc Hi]. apply created_row_is_inside; try done. apply Hn. left.
  - destruct Hp as [Hp|[(o & [->|Ho]%elem_of_cons & Ho') Hp]]; [by left|congruence|right]. split; [by exists o|]. intros o' H1. apply Hp. by right.
Qed.

Lemma effects_on_present rule G now model id row v ops :
  sub_field rule ≠ "id"%string → keys_once ops → (∀ op, op ∈ ops → touches model id op = true → authorize_operation rule G op (Some row) = Ok ()) →
  map_get (sub_field rule) row = Some (JStr v) → ∀ prev, subject_is rule v prev → subject_is rule v (effects now model id ops prev).
Proof.
  intros Hid Hn Ha Hv. unfold effects. induction ops as [|op ops IH]; intros prev Hp; [done|]. cbn [foldl].
  apply IH; [intros o Ho; apply Hn; by right|intros o Ho; apply Ha; by right|]. destruct (touches model id op) eqn:Et; [|done].
  destruct (authorize_operation_ok _ _ _ _ (Ha op ltac:(left) Et)) as (_ & Hc & Hw). apply effect_keeps_subject; try done; [apply Hn; left|].
  intros w Hw'. specialize (Hw w Hw'). rewrite Hv in Hw. by apply js_same_text.
Qed.

Lemma untouched now model id (ops : list Operation) prev : (∀ op, op ∈ ops → touches model id op = false) → effects now model id ops prev = prev.
Proof.
  unfold effects. revert prev. induction ops as [|op ops IH]; intros prev H; [done|]. cbn [foldl]. rewrite (H op) by left. apply IH. intros o Ho. apply H. by right.
Qed.

Lemma some_or_none {A} (p : A → bool) (l : list A) : (∃ x, x ∈ l ∧ p x = true) ∨ ∀ x, x ∈ l → p x = false.
Proof.
  induction l as [|x l IH]; [right; by intros x ?%elem_of_nil|]. destruct (p x) eqn:E; [left; exists x; by split; [left|]|].
  destruct IH as [(y & Hy & E')|IH]; [left; exists y; by split; [right|]|right]. by intros y [->|Hy]%elem_of_cons; [|apply IH].
Qed.

(** An operation that creates a row it does not name: the row is that of its input. *)
Definition created_unnamed (model id : string) (ops : list Operation) : Prop :=
  ∃ op, op ∈ ops ∧ touches model id op = true ∧ op_type op = CREATE ∧ given (op_id op) = None.

Definition names_row (op : Operation) : bool := is_Some_b (given (op_id op)).

Lemma loaded_named m model id op : touches model id op = true → names_row op = true → loaded m op id = row_at m model id.
Proof. intros [<- _]%bool_decide_eq_true Hn. unfold loaded. unfold names_row in Hn. by rewrite Hn. Qed.

(** C31: a change set that is authorized against the rows as they are and then committed
    leaves, on models with a subject, of every row it touches only one that the participant
    may see, one that lost its subject and is seen by nobody, or none. A row that was there
    is touched only where the participant may see it, and keeps its subject or loses it;
    with one exception, which authorization does not look at: a row that is created by an
    operation without an id, whose input has the id of the row. *)
Theorem authorized_changes_stay_inside sha models G now change m m' m1 rows :
  keys_once (ch_operations change) →
  authorizeSourceChange models G memory_load (ch_operations change) m = (m', Ok ()) →
  map_get (ch_correlationId change) (mem_idempotency m') = None → memory_commit sha now change m' = (m1, Ok rows) →
  ∀ model id rule, sourceSubjectRule models model = Some rule → sub_field rule ≠ "id"%string →
    row_at m1 model id = row_at m model id
    ∨ inside rule G (row_at m1 model id)
      ∧ ∀ row, row_at m model id = Some row →
          subjectAuthorized (Some rule) row G = true ∧ (∀ v, map_get (sub_field rule) row = Some (JStr v) → subject_is rule v (row_at m1 model id))
          ∨ created_unnamed model id (ch_operations change).
Proof.
  intros Hn Hauth Hnew Hcommit model id rule Hr Hid. destruct (authorized_operations _ _ _ _ _ Hauth) as [-> Hall].
  assert (Hrow : row_at m1 model id = effects now model id (ch_operations change) (row_at m model id)) by (by eapply commit_effects).
  rewrite Hrow. destruct (some_or_none (touches model id) (ch_operations change)) as [(op & Hop & Ht)|Hno]; [right|left; by apply untouched].
  assert (Hops : ∀ op, op ∈ ch_operations change → touches model id op = true → authorize_operation rule G op (loaded m op id) = Ok ()).
  { intros o Ho [Hm Hi]%bool_decide_eq_true. apply (Hall o); [done| |done]. by rewrite Hm. }
  split.
  - apply (effects_end_inside rule G); [done|done|by intros o Ho Hto; eexists; apply Hops|].
    destruct (some_or_none (λ o, touches model id o && names_row o) (ch_operations change)) as [(o & Ho & [Hto Hi]%andb_true_iff)|Hnone].
    + left. pose proof (Hops o Ho Hto) as Hok. rewrite (loaded_named m model id o Hto Hi) in Hok. destruct (row_at m model id) as [row|]; [|done].
      left. apply (authorize_operation_ok _ _ _ _ Hok).
    + right. split; [by exists op|]. intros o Ho Hto. rewrite <- (Hops o Ho Hto). specialize (Hnone o Ho). cbv beta in Hnone. rewrite Hto in Hnone. cbn [andb] in Hnone. unfold loaded. unfold names_row in Hnone. by rewrite Hnone.
  - intros row Erow. destruct (some_or_none (λ o, touches model id o && negb (names_row o)) (ch_operations change)) as [(o & Ho & [Hto Hi%negb_true_iff]%andb_true_iff)|Hall'].
    + right. pose proof (Hops o Ho Hto) as Hok. unfold loaded in Hok. unfold names_row in Hi. rewrite Hi in Hok. apply authorize_operation_ok in Hok as [Hc _].
      exists o. split_and!; try done. by destruct (given (op_id o)).
    + left. assert (Hops' : ∀ o, o ∈ ch_operations change → touches model id o = true → authorize_operation rule G o (Some row) = Ok ()).
      { intros o Ho Hto. rewrite <- Erow, <- (loaded_named m model id o Hto); [by apply Hops|]. specialize (Hall' o Ho). cbv beta in Hall'. rewrite Hto in Hall'. by apply negb_false_iff in Hall'. }
      split; [apply (authorize_operation_ok _ _ _ _ (Hops' op Hop Ht))|]. intros v Hv. rewrite Erow. apply (effects_on_present rule G now model id row); try done. by left.
Qed.

(** ** Locks are taken in one order *)

Lemma insert_by_sorted {T} (cmp : T → T → Z) x l :
  (∀ x y, 0 < cmp x y → cmp y x ≤ 0) → (∀ x y z, cmp x y ≤ 0 → cmp y z ≤ 0 → cmp x z ≤ 0) →
  StronglySorted (λ x y, cmp x y ≤ 0) l → StronglySorted (λ x y, cmp x y ≤ 0) (insert_by cmp x l).
Proof.
  intros Ht Htr. induction 1 as [|y l Hs IH Hy]; cbn; [by repeat constructor|]. destruct (Z.ltb_spec 0 (cmp y x)) as [Hlt|Hle].
  - apply Ht in Hlt. constructor; [by constructor|]. constructor; [done|]. eapply Forall_impl; [exact Hy|]. intros z Hz. by eapply Htr.
  - constructor; [done|]. rewrite insert_by_perm. by constructor.
Qed.

Lemma sort_by_sorted {T} (cmp : T → T → Z) l :
  (∀ x y, 0 < cmp x y → cmp y x ≤ 0) → (∀ x y z, cmp x y ≤ 0 → cmp y z ≤ 0 → cmp x z ≤ 0) → StronglySorted (λ x y, cmp x y ≤ 0) (sort_by cmp l).
Proof.
  intros Ht Htr. unfold sort_by. enough (H : ∀ acc, StronglySorted (λ x y, cmp x y ≤ 0) acc → StronglySorted (λ x y, cmp x y ≤ 0) (foldl (λ acc x, insert_by cmp x acc) acc l)) by (apply H; constructor).
  induction l as [|x l IH]; intros acc Hacc; cbn; [done|]. apply IH. by apply insert_by_sorted.
Qed.

Lemma sorted_at {T} (R : T → T → Prop) l : StronglySorted R l → ∀ i j a b, (j < i)%nat → l !! i = Some a → l !! j = Some b → R b a.
Proof.
  induction 1 as [|x l Hs IH Hx]; intros i j a b Hlt Ha Hb; [done|]. destruct i as [|i]; [lia|]. cbn in Ha. destruct j as [|j]; [|by apply (IH i j); [lia|..]].
  injection Hb as <-. rewrite Forall_forall in Hx. apply Hx. by eapply list_elem_of_lookup_2.
Qed.

(** Whatever two change sets create, one whose place comes before another's is locked before
    it in both: two writers never wait for each other. *)
Lemma locks_are_taken_in_one_order localeCompare models ops i j a b :
  (∀ x y, 0 < localeCompare x y → localeCompare y x ≤ 0) → (∀ x y z, localeCompare x y ≤ 0 → localeCompare y z ≤ 0 → localeCompare x z ≤ 0) →
  sourceSubjectCreateLockOperations localeCompare models ops !! i = Some a → sourceSubjectCreateLockOperations localeCompare models ops !! j = Some b →
  0 < localeCompare (create_place b) (create_place a) → (i < j)%nat.
Proof.
  intros Ht Htr Ha Hb Hlt. pose proof (sort_by_sorted (λ a b, localeCompare (create_place a) (create_place b))
    (List.filter (λ op, bool_decide (op_type op = CREATE) && match op_id op with Given id => negb (String.eqb id "") | _ => false end && is_Some_b (sourceSubjectRule models (op_model op))) ops)) as Hs.
  specialize (Hs ltac:(intros x y; apply Ht) ltac:(intros x y z; apply Htr)). fold (sourceSubjectCreateLockOperations localeCompare models ops) in Hs.
  destruct (decide (i = j)) as [->|Hne]; [assert (a = b) as -> by congruence; specialize (Ht _ _ Hlt); lia|]. destruct (decide (i < j)%nat); [done|]. exfalso.
  pose proof (sorted_at _ _ Hs i j a b ltac:(lia) Ha Hb) as H. cbn in H. lia.
Qed.

(** ** A run *)

Definition workspace_rule : SubjectRule := mkSubject "workspaceId" "workspace".
Definition item_model : ModelJSON :=
  mkModel [] [] LoadInstant "Item" None None (Some workspace_rule) None None None None false None None None None None None None.
Definition item_models : schema_models := [("item"%string, item_model)].
Definition workspace_row (title ws : string) : fields := [("title"%string, JStr title); ("workspaceId"%string, JStr ws)].
Definition two_workspaces : memory :=
  mkMemory [("item"%string, [("t1"%string, workspace_row "A" "a"); ("t2"%string, workspace_row "B" "b")])] [] [] 1.
Definition edit_own : ChangeSet :=
  mkChange [plain_op UPDATE (Given "t1"%string) [("title"%string, JStr "C")]; plain_op CREATE (Given "t3"%string) (workspace_row "D" "a")] "c" None None (Some ["workspace:a"%string]).

Lemma authorized_changes_stay_inside_witness :
  let m1 := (memory_commit id 0 edit_own two_workspaces).1 in
  inside workspace_rule (Some ["workspace:a"%string]) (row_at m1 "item" "t1")
  ∧ authorizeSourceChange item_models (Some ["workspace:b"%string]) memory_load (ch_operations edit_own) two_workspaces = (two_workspaces, Throw capability_scope_denied).
Proof.
  cbv zeta. split; [|reflexivity].
  destruct (authorized_changes_stay_inside id item_models (Some ["workspace:a"%string]) 0 edit_own two_workspaces two_workspaces (memory_commit id 0 edit_own two_workspaces).1
    [spread (workspace_row "A" "a") [("title"%string, JStr "C")]; spread [("id"%string, JStr "t3")] (workspace_row "D" "a")]) with (model := "item"%string) (id := "t1"%string) (rule := workspace_rule) as [H|[H _]];
    [|reflexivity|reflexivity|reflexivity|reflexivity|done|by vm_compute in H|exact H].
  intros op [->|[->|[]%elem_of_nil]%elem_of_cons]%elem_of_cons; apply (bool_decide_unpack (NoDup _)); by vm_compute.
Defined.

(** The exception of [authorized_changes_stay_inside] happens: authorization loads the row of
    [operation.id] only, and a creation without one whose input has the id of a row of
    another subject replaces that row. *)
Definition create_over : ChangeSet := mkChange [plain_op CREATE Missing (("id"%string, JStr "t2") :: workspace_row "mine" "a")] "c" None None (Some ["workspace:a"%string]).
Lemma unnamed_creation_replaces_a_row :
  changeSetSchema create_over = true
  ∧ authorizeSourceChange item_models (Some ["workspace:a"%string]) memory_load (ch_operations create_over) two_workspaces = (two_workspaces, Ok ())
  ∧ row_at two_workspaces "item" "t2" = Some (workspace_row "B" "b")
  ∧ row_at (memory_commit id 0 create_over two_workspaces).1 "item" "t2" = Some (("id"%string, JStr "t2") :: workspace_row "mine" "a").
Proof. split_and!; vm_compute; reflexivity. Qed.

Lemma routes_and_reads_agree_witness :
  sourceSyncGroups item_models "Item" (workspace_row "A" "a") = Ok ["workspace:a"%string]
  ∧ (("workspace:a"%string ∈ ["workspace:b"%string]) ↔ authorizeSourceRead item_models "Item" (Some ["workspace:b"%string]) [workspace_row "A" "a"] = [workspace_row "A" "a"]).
Proof.
  split; [reflexivity|]. destruct (routes_and_reads_agree item_models "Item" workspace_rule (workspace_row "A" "a") eq_refl) as [(g & Hg & H) _]. injection Hg as <-. exact (H _).
Defined.
