(* ===== verification/SourceSigning.v ===== *)
(** * Data sources: signed requests

    [transaction/src/source/endpoint/signing.ts]: a request carries an id, a time and a
    signature of id, time and body, and is taken when one of the signatures it presents is
    the expected one and its time is near the clock. HMAC is the platform's; so are the
    conversions between numbers and texts. *)
From S2P Require Import Prelude JsData.
From Stdlib Require Import QArith Qabs.
#[local] Open Scope Z_scope.

Inductive signature_code :=
  | SignatureMissing | IdMissing | TimestampMissing | TimestampInvalid | TimestampExpired | SignatureInvalid.
#[export] Instance signature_code_eq_dec : EqDecision signature_code.
Proof. solve_decision. Defined.

(** ** Headers *)

Inductive header_value := HeaderText (s : string) | HeaderList (l : list string).
Inductive request_headers :=
  | NoHeaders
  | HeadersObject (get : string → option string)
  | HeaderRecord (record : list (string * header_value)).

Definition getHeader (headers : request_headers) (name : string) : option string :=
  match headers with
  | NoHeaders => None
  | HeadersObject get => get name
  | HeaderRecord record =>
      match match map_get name record with Some v => Some v | None => map_get (toLowerCase name) record end with
      | Some (HeaderText s) => Some s
      | Some (HeaderList l) => head l
      | None => None
      end
  end.

(** White space as [\s] has it; a header is a byte string, a byte of which is a character. *)
Definition is_space (c : Ascii.ascii) : bool := let n := Ascii.N_of_ascii c in ((9 <=? n) && (n <=? 13) || (n =? 32) || (n =? 160))%N.

(** [split] at white space; where spaces follow each other the code gets no empty part, and
    drops one at either end. *)
Fixpoint split_spaces (part s : string) : list string :=
  match s with
  | EmptyString => [part]
  | String c s => if is_space c then part :: split_spaces EmptyString s else split_spaces (part +:+ String c EmptyString) s
  end.

Fixpoint at_comma (s : string) : option (string * string) :=
  match s with
  | EmptyString => None
  | String c s => if Ascii.eqb c (Ascii.ascii_of_N 44) then Some (EmptyString, s) else (λ p, (String c p.1, p.2)) <$> at_comma s
  end.

Definition v1_signature (part : string) : option string :=
  match at_comma part with
  | Some (scheme, value) => if String.eqb scheme "v1" && negb (String.eqb value "") then Some value else None
  | None => None
  end.
Definition parseSignatureHeader (raw : option string) : list string :=
  match raw with Some s => omap v1_signature (split_spaces EmptyString s) | None => [] end.

(** ** Comparison in constant time *)

(** [charCodeAt(i) || 0] *)
Definition code_at (s : string) (i : nat) : Z := match String.get i s with Some c => Z.of_N (Ascii.N_of_ascii c) | None => 0 end.
Definition timingSafeEqual (expected actual : string) : bool :=
  let max := Nat.max (String.length expected) (String.length actual) in
  let diff := Z.lxor (Z.of_nat (String.length expected)) (Z.of_nat (String.length actual)) in
  foldl (λ diff i, Z.lor diff (Z.lxor (code_at expected i) (code_at actual i))) diff (seq 0 max) =? 0.

(** ** Signing and verifying *)

Section Signing.
Context (hmac : option (string → string → string)) (Number : string → option Q) (number_text : Q → string).

Definition hmacSha256Base64 (apiKey payload : string) : signature_code + string :=
  match hmac with Some f => inr (f apiKey payload) | None => inl SignatureInvalid end.
Definition signing_input (messageId : string) (signedAt : Q) (body : string) : string := messageId +:+ "." +:+ number_text signedAt +:+ "." +:+ body.

Record signed_request := mkSigned { sn_headers : list (string * string); sn_signedAt : Q; sn_signature : string }.

Definition signAbloSourceRequest (apiKey body messageId : string) (timestamp : option Q) (nowMs : Z) : signature_code + signed_request :=
  let signedAt := default (inject_Z (nowMs / 1000)) timestamp in
  match hmacSha256Base64 apiKey (signing_input messageId signedAt body) with
  | inl e => inl e
  | inr signature =>
      inr (mkSigned [("webhook-id"%string, messageId); ("webhook-timestamp"%string, number_text signedAt); ("webhook-signature"%string, "v1," +:+ signature)] signedAt signature)
  end.

Definition nonblank (o : option string) : option string := match o with Some EmptyString | None => None | Some s => Some s end.
Definition DEFAULT_SIGNATURE_TOLERANCE_MS : Z := 5 * 60 * 1000.
Definition toleranceSeconds (toleranceMs : option Z) : Z := - ((- default DEFAULT_SIGNATURE_TOLERANCE_MS toleranceMs) / 1000).
Definition in_tolerance (signedAt : Q) (toleranceMs : option Z) (nowMs : Z) : bool :=
  Qle_bool (Qabs (inject_Z (nowMs / 1000) - signedAt)) (inject_Z (toleranceSeconds toleranceMs)).

Definition verifyAbloSourceRequest (headers : request_headers) (body apiKey : string) (toleranceMs : option Z) (nowMs : Z) : signature_code + (string * Q) :=
  match nonblank (getHeader headers "webhook-id") with
  | None => inl IdMissing
  | Some messageId =>
      match nonblank (getHeader headers "webhook-timestamp") with
      | None => inl TimestampMissing
      | Some rawTimestamp =>
          match Number rawTimestamp with
          | None => inl TimestampInvalid
          | Some signedAt =>
              if negb (in_tolerance signedAt toleranceMs nowMs) then inl TimestampExpired
              else
                match parseSignatureHeader (getHeader headers "webhook-signature") with
                | [] => inl SignatureMissing
                | presented =>
                    match hmacSha256Base64 apiKey (signing_input messageId signedAt body) with
                    | inl e => inl e
                    | inr expected => if existsb (timingSafeEqual expected) presented then inr (messageId, signedAt) else inl SignatureInvalid
                    end
                end
          end
      end
  end.

(** ** Facts *)

Lemma fold_lor (f : nat → Z) l : ∀ d, foldl (λ d i, Z.lor d (f i)) d l = 0 ↔ d = 0 ∧ ∀ i, i ∈ l → f i = 0.
Proof.
  induction l as [|x l IH]; intros d; cbn; [split; [intros ->; split; [done|by intros i ?%elem_of_nil]|by intros [? _]]|].
  rewrite IH, Z.lor_eq_0_iff. split.
  - intros [[-> Hx] Hl]. split; [done|]. by intros i [->|Hi]%elem_of_cons; [|apply Hl].
  - intros [-> Hl]. split; [split; [done|apply Hl; by left]|]. intros i Hi. apply Hl. by right.
Qed.

Lemma length_get s i : (i < String.length s)%nat ↔ is_Some (String.get i s).
Proof. revert i. induction s as [|c s IH]; intros i; cbn; [split; [lia|by intros [? ?]]|]. destruct i; [split; [by eexists|lia]|]. rewrite <- IH. lia. Qed.

(** Comparing in constant time is comparing. *)
Lemma timingSafeEqual_spec a b : timingSafeEqual a b = true ↔ a = b.
Proof.
  unfold timingSafeEqual. rewrite Z.eqb_eq, fold_lor. split.
  - intros [Hl%Z.lxor_eq Hc]. apply Nat2Z.inj in Hl. apply String.get_correct. intros i. destruct (decide (i < String.length a)%nat) as [Hi|Hi].
    + specialize (Hc i). rewrite elem_of_seq in Hc. specialize (Hc ltac:(lia)). apply Z.lxor_eq in Hc. unfold code_at in Hc.
      pose proof Hi as Ha. pose proof Hi as Hb. rewrite Hl in Hb. apply length_get in Ha as [x Hx], Hb as [y Hy]. rewrite Hx, Hy in *. apply N2Z.inj in Hc.
      f_equal. rewrite <- (Ascii.ascii_N_embedding x), <- (Ascii.ascii_N_embedding y). by rewrite Hc.
    + assert (Hn : ∀ s, (¬ i < String.length s)%nat → String.get i s = None) by (intros s Hs; rewrite length_get in Hs; destruct (String.get i s); [exfalso; apply Hs; by eexists|done]).
      rewrite !Hn; [done| |done]. by rewrite <- Hl.
  - intros ->. split; [apply Z.lxor_nilpotent|]. intros i _. apply Z.lxor_nilpotent.
Qed.

Definition expected_signature (apiKey messageId body : string) (signedAt : Q) : option string := (λ f, f apiKey (signing_input messageId signedAt body)) <$> hmac.

Lemma verify_spec headers body apiKey tolerance nowMs messageId signedAt :
  verifyAbloSourceRequest headers body apiKey tolerance nowMs = inr (messageId, signedAt) ↔
  messageId ≠ ""%string ∧ getHeader headers "webhook-id" = Some messageId
  ∧ (∃ raw, raw ≠ ""%string ∧ getHeader headers "webhook-timestamp" = Some raw ∧ Number raw = Some signedAt)
  ∧ in_tolerance signedAt tolerance nowMs = true
  ∧ ∃ signature, expected_signature apiKey messageId body signedAt = Some signature ∧ signature ∈ parseSignatureHeader (getHeader headers "webhook-signature").
Proof.
  unfold verifyAbloSourceRequest, expected_signature, hmacSha256Base64.
  assert (Hnb : ∀ o s, nonblank o = Some s ↔ s ≠ ""%string ∧ o = Some s) by (intros [[|c t]|] s; cbn; naive_solver).
  split.
  - destruct (nonblank (getHeader headers "webhook-id")) as [id|] eqn:E1; [|done]. apply Hnb in E1 as [Hid E1].
    destruct (nonblank (getHeader headers "webhook-timestamp")) as [raw|] eqn:E2; [|done]. apply Hnb in E2 as [Hraw E2]. destruct (Number raw) as [at'|] eqn:E3; [|done].
    destruct (in_tolerance at' tolerance nowMs) eqn:E4; [|done]. cbn [negb]. destruct (parseSignatureHeader _) as [|p0 presented] eqn:E5; [done|]. destruct hmac as [f|]; [|done].
    destruct (existsb _ _) eqn:E6; [|done]. intros [= <- <-]. apply existsb_exists in E6 as (s & Hs%list_elem_of_In & Heq%timingSafeEqual_spec).
    split_and!; try done; [by exists raw|]. eexists. split; [done|]. by rewrite Heq.
  - intros (Hid & H1 & (raw & Hraw & H2 & H3) & H4 & s & Hs & Hin). rewrite (proj2 (Hnb _ _) (conj Hid H1)), (proj2 (Hnb _ _) (conj Hraw H2)), H3, H4. cbn [negb].
    destruct (parseSignatureHeader _) as [|p0 presented] eqn:E5; [by apply elem_of_nil in Hin|]. destruct hmac as [f|]; [|done]. cbn in Hs. injection Hs as <-.
    rewrite (proj2 (existsb_exists _ _)); [done|]. eexists. split; [by apply list_elem_of_In|by apply timingSafeEqual_spec].
Qed.

Lemma append_empty s : s +:+ "" = s.
Proof. induction s as [|c s IH]; [done|]. change (String c (s +:+ "") = String c s). by rewrite IH. Qed.
Lemma append_char part c s : (part +:+ String c EmptyString) +:+ s = part +:+ String c s.
Proof. induction part as [|x part IH]; [done|]. change (String x ((part +:+ String c EmptyString) +:+ s) = String x (part +:+ String c s)). by rewrite IH. Qed.

(** A text without spaces is one part. *)
Lemma split_spaces_one s : ∀ part, forallb (λ c, negb (is_space c)) (String.list_ascii_of_string s) = true → split_spaces part s = [part +:+ s].
Proof.
  induction s as [|c s IH]; intros part; cbn [split_spaces String.list_ascii_of_string forallb]; [by rewrite append_empty|].
  intros [Hc%negb_true_iff Hs]%andb_true_iff. by rewrite Hc, IH, append_char.
Qed.

Lemma signed_header signature : signature ≠ ""%string → forallb (λ c, negb (is_space c)) (String.list_ascii_of_string signature) = true →
  parseSignatureHeader (Some ("v1," +:+ signature)) = [signature].
Proof.
  intros Hne Hs. unfold parseSignatureHeader. rewrite split_spaces_one by done.
  assert (E : v1_signature ("" +:+ "v1," +:+ signature) = Some signature); [|cbn [omap list_omap]; by rewrite E].
  unfold v1_signature. assert (at_comma ("" +:+ "v1," +:+ signature) = Some ("v1"%string, signature)) as -> by reflexivity. by destruct (String.eqb_spec signature "").
Qed.

(** C32: a request is taken exactly when its id and time are there and readable, the time is
    within the tolerance of the clock and one of the signatures it presents is, compared in
    constant time, the one its key gives for id, time and body; and a request signed with
    the key is taken, within the window, however its headers are held. *)
Theorem signed_requests_are_taken headers body apiKey tolerance nowMs :
  (∀ messageId signedAt, verifyAbloSourceRequest headers body apiKey tolerance nowMs = inr (messageId, signedAt) ↔
     messageId ≠ ""%string ∧ getHeader headers "webhook-id" = Some messageId
     ∧ (∃ raw, raw ≠ ""%string ∧ getHeader headers "webhook-timestamp" = Some raw ∧ Number raw = Some signedAt)
     ∧ in_tolerance signedAt tolerance nowMs = true
     ∧ ∃ signature, expected_signature apiKey messageId body signedAt = Some signature ∧ signature ∈ parseSignatureHeader (getHeader headers "webhook-signature"))
  ∧ ∀ messageId timestamp signedMs signed, signAbloSourceRequest apiKey body messageId timestamp signedMs = inr signed →
      messageId ≠ ""%string → number_text (sn_signedAt signed) ≠ ""%string → Number (number_text (sn_signedAt signed)) = Some (sn_signedAt signed) →
      sn_signature signed ≠ ""%string → forallb (λ c, negb (is_space c)) (String.list_ascii_of_string (sn_signature signed)) = true →
      in_tolerance (sn_signedAt signed) tolerance nowMs = true →
      (∀ name value, (name, value) ∈ sn_headers signed → getHeader headers name = Some value) →
      verifyAbloSourceRequest headers body apiKey tolerance nowMs = inr (messageId, sn_signedAt signed).
Proof.
  split; [intros messageId signedAt; apply verify_spec|]. intros messageId timestamp signedMs signed Hs Hid Hnt Hn Hsig Hsp Hw Hh. apply verify_spec.
  unfold signAbloSourceRequest, hmacSha256Base64 in Hs. unfold expected_signature. destruct hmac as [f|]; [|done]. injection Hs as <-. cbn [sn_headers sn_signedAt sn_signature] in *.
  split_and!; [done|apply Hh; by left| |done|].
  - eexists. split_and!; [exact Hnt|apply Hh; right; by left|done].
  - eexists. split; [done|]. rewrite (Hh "webhook-signature"%string ("v1," +:+ _)) by (right; right; by left). rewrite signed_header by done. by left.
Qed.
End Signing.

(** ** A signed request *)

Definition demo_hmac (key payload : string) : string := "mac=".
Definition demo_number (s : string) : option Q := if String.eqb s "100" then Some 100%Q else None.
Definition demo_text (q : Q) : string := "100".
Definition demo_headers : request_headers := HeadersObject (λ name, map_get name [("webhook-id", "msg"); ("webhook-timestamp", "100"); ("webhook-signature", "v1,mac=")]%string).

Lemma signed_requests_are_taken_witness : verifyAbloSourceRequest (Some demo_hmac) demo_number demo_text demo_headers "{}" "key" None 100500 = inr ("msg"%string, 100%Q).
Proof.
  destruct (signed_requests_are_taken (Some demo_hmac) demo_number demo_text demo_headers "{}" "key" None 100500) as [_ H].
  refine (H "msg"%string (Some 100%Q) 0 (mkSigned [("webhook-id", "msg"); ("webhook-timestamp", "100"); ("webhook-signature", "v1,mac=")]%string 100%Q "mac=") _ _ _ _ _ _ _ _); try reflexivity; try done.
  intros name value [E|[E|[E|[]%elem_of_nil]%elem_of_cons]%elem_of_cons]%elem_of_cons; injection E as -> ->; reflexivity.
Defined.
