(* ===== verification/SourceHandler.v ===== *)
(** * Data sources: the endpoint

    [dataSource] of [transaction/src/source/endpoint/factory.ts]: a request is verified,
    its scope checked, and then it is served by an adapter or by hand-written handlers. The
    handlers and the state of the customer's world are parameters; a thrown error leaves
    the state it happened in. *)
From S2P Require Import Prelude JsData Json ErrorCodes JsonText SchemaJson SourceModel SourceSubjects SourceFacts SourceSigning.
From Stdlib Require Import QArith.
#[local] Open Scope Z_scope.

(** ** Requests and answers *)

Record commit_request := mkCommit {
  cr_model : option string;
  cr_operations : list Operation;
  cr_correlationId : option string;
  cr_clientTxId : option string;
  cr_intentHash : option string;
  cr_echo : option string;
}.

Inductive SourceRequest :=
  | LoadRequest (model id : string)
  | ListRequest (model : string) (limit : option Z)
  | CommitRequest (c : commit_request)
  | EventsRequest (cursor acknowledgedThrough : option string) (limit : option Z)
  | UnknownRequest.

(** A body: its text, and the request it is as JSON with the groups of its scope. *)
Record source_body := mkBody { sb_raw : string; sb_request : SourceRequest; sb_syncGroups : option (list string) }.
Record http_request := mkRequest { rq_method : string; rq_headers : request_headers; rq_body : option source_body }.

Inductive SourceScope := ScopeLoad | ScopeList | ScopeCommit | ScopeEvents.
#[export] Instance SourceScope_eq_dec : EqDecision SourceScope.
Proof. solve_decision. Defined.

(** The event as it goes over the wire: without its cursor. *)
Record wire_event := mkWireEvent {
  we_id : string; we_model : string; we_entityId : string; we_type : operation_type; we_data : option fields;
  we_syncGroups : list string; we_correlationId : option string; we_transactionId : option string }.

Inductive response_body :=
  | ErrorBody (error : string)
  | RowBody (row : option fields)
  | RowsBody (rows : list fields) (nextCursor : option string)
  | HandlerBody (result : json)
  | EventsBody (events : list wire_event) (nextCursor : option string).
Record response := mkResponse { rs_body : response_body; rs_status : Z }.
Definition ok_json (b : response_body) : response := mkResponse b 200.
Definition refuse (error : string) (status : Z) : response := mkResponse (ErrorBody error) status.

Definition nonempty (o : option string) : option string := match o with Some EmptyString | None => None | Some s => Some s end.
Definition or_else {A} (a b : option A) : option A := match a with Some x => Some x | None => b end.

(** ** Through an adapter *)

Definition event_body (e : OutboxEvent) : wire_event :=
  mkWireEvent (ev_id e) (ev_model e) (ev_entityId e) (ev_type e) (ev_data e) (ev_syncGroups e) (nonempty (Some (ev_correlationId e))) (nonempty (ev_transactionId e)).

Definition change_of (c : commit_request) (correlationId : string) (syncGroups : option (list string)) : ChangeSet :=
  mkChange (cr_operations c) correlationId (cr_intentHash c) (cr_echo c) syncGroups.

Definition handleViaAdapter {S} (adapter : DataSourceAdapter S) (request : SourceRequest) (syncGroups : option (list string)) : M S response :=
  match request with
  | LoadRequest model id => s ← getM; rows ← liftM (ad_read (LoadRow model id) syncGroups s); mret (ok_json (RowBody (head rows)))
  | ListRequest model limit => s ← getM; rows ← liftM (ad_read (ListRows model limit) syncGroups s); mret (ok_json (RowsBody rows None))
  | CommitRequest c =>
      match nonempty (or_else (cr_correlationId c) (cr_clientTxId c)) with
      | None => mret (refuse "source_commit_requires_correlation_id" 400)
      | Some correlationId =>
          let change := change_of c correlationId syncGroups in
          if negb (changeSetSchema change) then mret (refuse "source_commit_invalid" 400)
          else if is_Some_b (ch_echo change) && negb ad_postgresWalEcho then mret (refuse "source_commit_echo_not_supported" 409)
          else rows ← ad_commit change; mret (ok_json (RowsBody rows None))
      end
  | EventsRequest cursor acknowledgedThrough limit =>
      _ ← match nonempty acknowledgedThrough with Some through => ad_acknowledgeEvents through | None => mret () end;
      s ← getM;
      page ← liftM (ad_events cursor (default 100 limit) s);
      mret (ok_json (EventsBody (event_body <$> page.1) page.2))
  | UnknownRequest => mret (refuse "unknown_source_request" 400)
  end.

(** ** By hand *)

Section Handler.
Context {S T : Type}.

Record context := mkContext { cx_auth : option T; cx_messageId : string; cx_signedAt : Q; cx_syncGroups : option (list string) }.

(** What a transaction lends [run]: bound to itself, a lock, a loader and the batch. *)
Record tx_boundary := mkBoundary { bd_lockCreate : Operation → M S (); bd_load : Operation → M S (option fields); bd_commit : M S json }.

(** [subjectTransaction], the code of a customer: it works, may call [run] on the way, sees
    what the call returned or threw, and ends. *)
Inductive tx_script :=
  | TxEnd (m : M S json)
  | TxRun (before : M S tx_boundary) (after : result json → tx_script).

Record model_handlers := mkHandlers {
  mh_load : option (string → context → M S (option fields));
  mh_list : option (option Z → context → M S (list fields * option string));
  mh_subjectList : option (option Z → string → list string → context → M S (list fields * option string));
  mh_commit : option (commit_request → context → M S json);
}.

Record source_options := mkOptions {
  so_models : schema_models;
  so_apiKey : source_body → result (option string);
  so_toleranceMs : option Z;
  so_authorize : option (source_body → M S T);
  so_resolveScopes : option (option T → source_body → M S (list SourceScope));
  so_commit : option (commit_request → context → M S json);
  so_subjectTransaction : option (commit_request → context → tx_script);
  so_events : option (option string → option string → option Z → context → M S (list wire_event * option string));
  so_handlers : string → option model_handlers;
  so_adapter : option (DataSourceAdapter S);
}.

Context (hmac : option (string → string → string)) (Number : string → option Q) (number_text : Q → string).
Context (localeCompare : string → string → Z) (error_httpStatus : JsError → option Z).

Definition scopeFor (r : SourceRequest) : option SourceScope :=
  match r with
  | LoadRequest _ _ => Some ScopeLoad
  | ListRequest _ _ => Some ScopeList
  | CommitRequest _ => Some ScopeCommit
  | EventsRequest _ _ _ => Some ScopeEvents
  | UnknownRequest => None
  end.

Definition sameModel (operations : list Operation) : option string :=
  match nonempty (op_model <$> head operations) with
  | Some first => if forallb (λ op, String.eqb (op_model op) first) operations then Some first else None
  | None => None
  end.

(** The status an error has or its code stands for on the wire. *)
Definition typedSourceError (e : JsError) : option response :=
  if bool_decide (err_class e = ZodError) || bool_decide (err_class e = PlainError) then None
  else
    code ← nonempty (err_code e);
    if bool_decide (err_class e = AbloPermissionError) && String.eqb code "capability_scope_denied" then Some (refuse code (default 403 (error_httpStatus e)))
    else
      match or_else (error_httpStatus e) (errorCodeSpec code ≫= λ spec, if bool_decide (spec_surface spec = surface_wire) then spec_httpStatus spec else None) with
      | None | Some 0 => None
      | Some status => Some (refuse code status)
      end.

Definition typed (m : M S response) : M S response :=
  λ s, match m s with (s', Throw e) => (s', match typedSourceError e with Some r => Ok r | None => Throw e end) | r => r end.

(** What [run] does in the transaction it is called in. *)
Definition run_boundary (models : schema_models) (ops : list Operation) (syncGroups : option (list string)) (b : tx_boundary) : M S json :=
  _ ← lockSourceSubjectCreates localeCompare models ops (λ op _, bd_lockCreate b op);
  _ ← authorizeSourceChange models syncGroups (bd_load b) ops;
  bd_commit b.

(** A call of [run]; a second one throws. *)
Definition call_run (guarded : tx_boundary → M S json) (ran : bool) (b : tx_boundary) : M S (result json) :=
  λ s, if ran then (s, Ok (Throw plain_error)) else let '(s', r) := guarded b s in (s', Ok r).

(** The result of the script, and whether it called [run]. *)
Fixpoint run_script (guarded : tx_boundary → M S json) (ran : bool) (t : tx_script) : M S (json * bool) :=
  match t with
  | TxEnd m => r ← m; mret (r, ran)
  | TxRun before after =>
      b ← before;
      r ← call_run guarded ran b;
      run_script guarded true (after r)
  end.

Definition serve_load (o : source_options) (cx : context) (model id : string) : M S response :=
  match so_handlers o model ≫= mh_load with
  | None => mret (refuse "source_load_not_configured" 404)
  | Some load =>
      row ← load id cx;
      mret (ok_json (RowBody (head (authorizeSourceRead (so_models o) model (cx_syncGroups cx) (match row with Some r => [r] | None => [] end)))))
  end.

Definition serve_list (o : source_options) (cx : context) (model : string) (limit : option Z) : M S response :=
  let handlers := so_handlers o model in
  let served := match sourceSubjectRule (so_models o) model with
                | Some rule => (λ f, f limit (sub_field rule) (default [] (sourceSubjectValues (Some rule) (cx_syncGroups cx))) cx) <$> (handlers ≫= mh_subjectList)
                | None => (λ f, f limit cx) <$> (handlers ≫= mh_list)
                end in
  match served with
  | None => mret (if is_Some_b (sourceSubjectRule (so_models o) model) then refuse "source_subject_list_not_configured" 403 else refuse "source_list_not_configured" 404)
  | Some m => page ← m; mret (ok_json (RowsBody (authorizeSourceRead (so_models o) model (cx_syncGroups cx) page.1) page.2))
  end.

Definition serve_commit (o : source_options) (cx : context) (c : commit_request) : M S response :=
  if existsb (λ op, is_Some_b (sourceSubjectRule (so_models o) (op_model op))) (cr_operations c) then
    match so_subjectTransaction o with
    | None => mret (refuse "source_subject_transaction_required" 403)
    | Some transaction =>
        match or_else (cr_correlationId c) (cr_clientTxId c) with
        | None => mret (refuse "source_commit_invalid" 400)
        | Some correlationId =>
            if negb (changeSetSchema (change_of c correlationId (cx_syncGroups cx))) then mret (refuse "source_commit_invalid" 400)
            else typed (
              r ← run_script (run_boundary (so_models o) (cr_operations c) (cx_syncGroups cx)) false (transaction c cx);
              if negb r.2 then throwM plain_error else mret (ok_json (HandlerBody r.1)))
        end
    end
  else
    match so_commit o with
    | Some commit => r ← commit c cx; mret (ok_json (HandlerBody r))
    | None =>
        match nonempty (or_else (cr_model c) (sameModel (cr_operations c))) with
        | None => mret (refuse "source_commit_requires_single_model" 400)
        | Some model =>
            match so_handlers o model ≫= mh_commit with
            | None => mret (refuse "source_commit_not_configured" 404)
            | Some commit => r ← commit c cx; mret (ok_json (HandlerBody r))
            end
        end
    end.

Definition serve_events (o : source_options) (cx : context) (cursor acknowledgedThrough : option string) (limit : option Z) : M S response :=
  match so_events o with
  | None => mret (refuse "source_events_not_configured" 404)
  | Some events => r ← events cursor acknowledgedThrough limit cx; mret (ok_json (EventsBody r.1 r.2))
  end.

(** What happens once the request is verified and its scope granted. *)
Definition serve (o : source_options) (cx : context) (body : source_body) : M S response :=
  match so_adapter o with
  | Some adapter => typed (handleViaAdapter adapter (sb_request body) (cx_syncGroups cx))
  | None =>
      match sb_request body with
      | LoadRequest model id => serve_load o cx model id
      | ListRequest model limit => serve_list o cx model limit
      | CommitRequest c => serve_commit o cx c
      | EventsRequest cursor acknowledgedThrough limit => serve_events o cx cursor acknowledgedThrough limit
      | UnknownRequest => mret (refuse "unknown_source_request" 400)
      end
  end.

Definition signature_error (code : signature_code) : string :=
  match code with
  | SignatureMissing => "source_signature_missing" | IdMissing => "source_id_missing" | TimestampMissing => "source_timestamp_missing"
  | TimestampInvalid => "source_timestamp_invalid" | TimestampExpired => "source_timestamp_expired" | SignatureInvalid => "source_signature_invalid"
  end.

(** The scope of the request among those its key has. *)
Definition scope_granted (o : source_options) (auth : option T) (body : source_body) : M S bool :=
  match so_resolveScopes o with
  | None => mret true
  | Some resolve => granted ← resolve auth body; mret (match scopeFor (sb_request body) with Some required => bool_decide (required ∈ granted) | None => false end)
  end.

Definition authorize_request (o : source_options) (body : source_body) : M S (option T) :=
  match so_authorize o with Some authorize => auth ← authorize body; mret (Some auth) | None => mret None end.

Definition dataSource (o : source_options) (nowMs : Z) (request : http_request) : M S response :=
  if negb (String.eqb (rq_method request) "POST") then mret (refuse "method_not_allowed" 405)
  else
    match rq_body request with
    | None => mret (refuse "invalid_json" 400)
    | Some body =>
        apiKey ← liftM (so_apiKey o body);
        match nonempty apiKey with
        | None => mret (refuse "source_api_key_missing" 401)
        | Some apiKey =>
            match verifyAbloSourceRequest hmac Number number_text (rq_headers request) (sb_raw body) apiKey (so_toleranceMs o) nowMs with
            | inl code => mret (refuse (signature_error code) 401)
            | inr (messageId, signedAt) =>
                auth ← authorize_request o body;
                granted ← scope_granted o auth body;
                if negb granted then mret (refuse "source_forbidden" 403)
                else serve o (mkContext auth messageId signedAt (sb_syncGroups body)) body
            end
        end
    end.

(** ** Gates *)

(** A request whose body is signed with the key it is for. *)
Definition verified (o : source_options) (nowMs : Z) (request : http_request) (body : source_body) (messageId : string) (signedAt : Q) : Prop :=
  rq_method request = "POST"%string ∧ rq_body request = Some body
  ∧ ∃ apiKey, so_apiKey o body = Ok (Some apiKey) ∧ apiKey ≠ ""%string
      ∧ verifyAbloSourceRequest hmac Number number_text (rq_headers request) (sb_raw body) apiKey (so_toleranceMs o) nowMs = inr (messageId, signedAt).

Definition after_verification (o : source_options) (body : source_body) (messageId : string) (signedAt : Q) : M S response :=
  auth ← authorize_request o body;
  granted ← scope_granted o auth body;
  if negb granted then mret (refuse "source_forbidden" 403) else serve o (mkContext auth messageId signedAt (sb_syncGroups body)) body.

(** Either the request is verified, or it is refused without touching anything. *)
Lemma gate_cases o nowMs request :
  (∃ body messageId signedAt, verified o nowMs request body messageId signedAt ∧ ∀ s, dataSource o nowMs request s = after_verification o body messageId signedAt s)
  ∨ ((∀ body messageId signedAt, ¬ verified o nowMs request body messageId signedAt)
     ∧ ∀ s, ∃ r, dataSource o nowMs request s = (s, r) ∧ ∀ resp, r = Ok resp → 400 ≤ rs_status resp ∧ ∃ code, rs_body resp = ErrorBody code).
Proof.
  unfold dataSource, verified. destruct (String.eqb_spec (rq_method request) "POST") as [Hm|Hm]; cbn [negb].
  2: { right. split; [by intros ? ? ? [? _]|]. intros s. eexists. split; [done|]. intros resp [= <-]. split; [done|by eexists]. }
  destruct (rq_body request) as [body|]; [|right; split; [by intros ? ? ? (_ & ? & _)|]; intros s; eexists; split; [done|]; intros resp [= <-]; split; [done|by eexists]].
  destruct (so_apiKey o body) as [key|e] eqn:Ek.
  2: { right. split; [intros b ? ? (_ & [= <-] & k & Hk & _); congruence|]. intros s. eexists. split; [done|]. done. }
  destruct key as [[|c key]|].
  - right. split; [intros b ? ? (_ & [= <-] & k & Hk & Hne & _); congruence|]. intros s. eexists. split; [done|]. intros resp [= <-]. split; [done|by eexists].
  - destruct (verifyAbloSourceRequest hmac Number number_text (rq_headers request) (sb_raw body) (String c key) (so_toleranceMs o) nowMs) as [code|[messageId signedAt]] eqn:Ev.
    + right. split; [intros b ? ? (_ & [= <-] & k & Hk & Hne & Hv); congruence|]. intros s. unfold mbind, M_bind, liftM. cbn [nonempty]. rewrite Ev. eexists. split; [done|]. intros resp [= <-]. split; [done|by eexists].
    + left. exists body, messageId, signedAt. split; [split_and!; [done|done|by exists (String c key)]|]. intros s. unfold mbind, M_bind, liftM. cbn [nonempty]. by rewrite Ev.
  - right. split; [intros b ? ? (_ & [= <-] & k & Hk & Hne & _); congruence|]. intros s. eexists. split; [done|]. intros resp [= <-]. split; [done|by eexists].
Qed.

Definition request_model (r : SourceRequest) : option string := match r with LoadRequest model _ | ListRequest model _ => Some model | _ => None end.
Definition rows_of (resp : response) : list fields := match rs_body resp with RowBody (Some row) => [row] | RowsBody rows _ => rows | _ => [] end.

Lemma read_is_authorized models model groups rows row : row ∈ authorizeSourceRead models model groups rows → subjectAuthorized (sourceSubjectRule models model) row groups = true.
Proof.
  unfold authorizeSourceRead. destruct (sourceSubjectRule models model) as [rule|]; [|done]. by intros [_ ?]%list_elem_of_In%filter_In.
Qed.

Lemma head_elem {A} (l : list A) x : head l = Some x → x ∈ l.
Proof. destruct l; [done|]. intros [= ->]. by left. Qed.

Lemma typed_error_rows e resp row : typedSourceError e = Some resp → row ∉ rows_of resp.
Proof.
  unfold typedSourceError. destruct (_ || _); [done|]. destruct (nonempty (err_code e)) as [code|]; [|done]. cbn.
  destruct (_ && _); [intros [= <-]; by intros ?%elem_of_nil|]. destruct (or_else _ _) as [[]|]; try done; intros [= <-]; by intros ?%elem_of_nil.
Qed.

(** Rows that hand-written handlers answer are those their participant may read. *)
Lemma served_rows o cx body s s' resp row : so_adapter o = None → serve o cx body s = (s', Ok resp) → row ∈ rows_of resp →
  ∃ model, request_model (sb_request body) = Some model ∧ subjectAuthorized (sourceSubjectRule (so_models o) model) row (cx_syncGroups cx) = true.
Proof.
  intros Ha. unfold serve. rewrite Ha. destruct (sb_request body) as [model id|model lim|c|cursor acknowledged lim|]; cbn [request_model].
  - unfold serve_load. destruct (so_handlers o model ≫= mh_load) as [load|]; [|intros [= <- <-] []%elem_of_nil]. rewrite bindM_bind. destruct (load id cx s) as [s1 [r|]]; [|done].
    intros [= <- <-]. unfold rows_of. cbn. destruct (head _) as [x|] eqn:Eh; [|by intros ?%elem_of_nil]. intros ->%list_elem_of_singleton. exists model. split; [done|]. by eapply read_is_authorized, head_elem.
  - unfold serve_list. destruct (match sourceSubjectRule _ _ with Some _ => _ | None => _ end) as [m|].
    + rewrite bindM_bind. destruct (m s) as [s1 [page|]]; [|done]. intros [= <- <-]. unfold rows_of. cbn. intros Hrow. exists model. split; [done|]. by eapply read_is_authorized.
    + intros [= <- <-]. by destruct (is_Some_b _); intros ?%elem_of_nil.
  - unfold serve_commit. destruct (existsb _ _).
    + destruct (so_subjectTransaction o) as [tx|]; [|intros [= <- <-] []%elem_of_nil]. destruct (or_else _ _) as [corr|]; [|intros [= <- <-] []%elem_of_nil].
      destruct (negb _); [intros [= <- <-] []%elem_of_nil|]. unfold typed. match goal with |- context [match ?m s with _ => _ end] => destruct (m s) as [s1 [r|e]] eqn:E end.
      * rewrite bindM_bind in E. destruct (run_script _ _ _ s) as [s2 [[j ran]|]]; [|done]. cbn [snd] in E. destruct (negb ran); [done|]. injection E as <- <-. intros [= <- <-] []%elem_of_nil.
      * destruct (typedSourceError e) as [r|] eqn:Et; [|done]. intros [= <- <-] Hr. by destruct (typed_error_rows _ _ _ Et Hr).
    + destruct (so_commit o) as [f|]; [rewrite bindM_bind; destruct (f c cx s) as [s1 [r|]]; [|done]; intros [= <- <-] []%elem_of_nil|].
      destruct (nonempty _) as [model|]; [|intros [= <- <-] []%elem_of_nil]. destruct (so_handlers o model ≫= mh_commit) as [f|]; [|intros [= <- <-] []%elem_of_nil].
      rewrite bindM_bind. destruct (f c cx s) as [s1 [r|]]; [|done]. intros [= <- <-] []%elem_of_nil.
  - unfold serve_events. destruct (so_events o) as [f|]; [|intros [= <- <-] []%elem_of_nil]. rewrite bindM_bind. destruct (f _ _ _ _ s) as [s1 [r|]]; [|done]. intros [= <- <-] []%elem_of_nil.
  - intros [= <- <-] []%elem_of_nil.
Qed.

(** What an adapter is asked for a request that reads. *)
Definition read_of (r : SourceRequest) : option read_request :=
  match r with LoadRequest model id => Some (LoadRow model id) | ListRequest model limit => Some (ListRows model limit) | _ => None end.

(** A row the adapter answered, on being asked for what the request asks with its groups. *)
Definition from_adapter (adapter : DataSourceAdapter S) (body : source_body) (s s' : S) (row : fields) : Prop :=
  (∃ q rows, read_of (sb_request body) = Some q ∧ ad_read q (sb_syncGroups body) s = Ok rows ∧ row ∈ rows ∧ s' = s)
  ∨ ∃ c correlationId rows, sb_request body = CommitRequest c ∧ ad_commit (change_of c correlationId (sb_syncGroups body)) s = (s', Ok rows) ∧ row ∈ rows.

Lemma adapter_rows o cx adapter body s s' resp row : so_adapter o = Some adapter → cx_syncGroups cx = sb_syncGroups body →
  serve o cx body s = (s', Ok resp) → row ∈ rows_of resp → from_adapter adapter body s s' row.
Proof.
  intros Ha Hg. unfold serve, typed. rewrite Ha, Hg. destruct (handleViaAdapter _ _ _ s) as [s1 [r|e]] eqn:E.
  2: { destruct (typedSourceError e) as [r|] eqn:Et; [|done]. intros [= <- <-] Hr. by destruct (typed_error_rows _ _ _ Et Hr). }
  intros [= <- <-]. unfold handleViaAdapter in E. unfold from_adapter. destruct (sb_request body) as [model id|model limit|c|cursor acknowledged limit|]; cbn [read_of].
  - rewrite getM_bind, liftM_bind in E. destruct (ad_read _ _ s) as [rows|] eqn:Er; [|done]. injection E as <- <-. unfold rows_of. cbn.
    destruct (head rows) as [x|] eqn:Eh; [|by intros ?%elem_of_nil]. intros ->%list_elem_of_singleton. left. eexists _, rows. split_and!; try done. by apply head_elem.
  - rewrite getM_bind, liftM_bind in E. destruct (ad_read _ _ s) as [rows|] eqn:Er; [|done]. injection E as <- <-. intros Hr. left. by eexists _, rows.
  - destruct (nonempty _) as [correlationId|]; [|injection E as <- <-; by intros ?%elem_of_nil]. cbv zeta in E. destruct (negb _); [injection E as <- <-; by intros ?%elem_of_nil|].
    destruct (_ && _); [injection E as <- <-; by intros ?%elem_of_nil|]. rewrite bindM_bind in E. destruct (ad_commit _ s) as [s2 [rows|]] eqn:Ec; [|done]. injection E as <- <-.
    intros Hr. right. by eexists c, correlationId, rows.
  - rewrite bindM_bind in E. match type of E with context [match ?m s with _ => _ end] => destruct (m s) as [s2 [[]|]]; [|done] end. rewrite getM_bind, liftM_bind in E.
    destruct (ad_events _ _ s2) as [page|]; [|done]. injection E as <- <-. by intros ?%elem_of_nil.
  - injection E as <- <-. by intros ?%elem_of_nil.
Qed.

(** C33: an endpoint does nothing for a request that is not verified: the state of the
    customer's world is as it was, and the answer, if there is one, an error. An answer
    that is none was served with the scope of the request granted to the key, after the
    customer's own authorization. The rows that hand-written handlers load or list are rows
    of the model asked for that the subject rule lets the participant read. The rows that
    come through an adapter are what the adapter answered on being asked with the groups of
    the request, which the endpoint does not check again. *)
Theorem endpoint_is_gated o nowMs request s s' r :
  dataSource o nowMs request s = (s', r) →
  ((∀ body messageId signedAt, ¬ verified o nowMs request body messageId signedAt) → s' = s ∧ ∀ resp, r = Ok resp → 400 ≤ rs_status resp)
  ∧ ∀ resp, r = Ok resp → rs_status resp < 400 →
      ∃ body messageId signedAt auth s1 s2,
        verified o nowMs request body messageId signedAt
        ∧ authorize_request o body s = (s1, Ok auth) ∧ scope_granted o auth body s1 = (s2, Ok true)
        ∧ serve o (mkContext auth messageId signedAt (sb_syncGroups body)) body s2 = (s', Ok resp)
        ∧ ∀ row, row ∈ rows_of resp →
            match so_adapter o with
            | None => ∃ model, request_model (sb_request body) = Some model ∧ subjectAuthorized (sourceSubjectRule (so_models o) model) row (sb_syncGroups body) = true
            | Some adapter => from_adapter adapter body s2 s' row
            end.
Proof.
  intros H. destruct (gate_cases o nowMs request) as [(body & id & at' & Hv & He)|[Hno Hr]].
  - split; [intros Hno; by destruct (Hno body id at')|]. intros resp -> Hst. rewrite He in H. unfold after_verification in H. rewrite bindM_bind in H.
    destruct (authorize_request o body s) as [s1 [auth|]] eqn:E1; [|done]. rewrite bindM_bind in H. destruct (scope_granted o auth body s1) as [s2 [granted|]] eqn:E2; [|done].
    destruct granted; cbn [negb] in H; [|injection H as <- <-; cbn in Hst; lia]. exists body, id, at', auth, s1, s2. split_and!; try done.
    intros row Hrow. destruct (so_adapter o) as [adapter|] eqn:Ha; [by eapply (adapter_rows _ _ _ _ _ _ _ _ Ha); [|exact H|]|by apply (served_rows _ _ _ _ _ _ _ Ha H)].
  - destruct (Hr s) as (r' & He & Hst). rewrite He in H. injection H as <- <-. split; [intros _; split; [done|]; intros resp Hx; by destruct (Hst resp Hx)|].
    intros resp Hx Hlt. destruct (Hst resp Hx) as [? _]. lia.
Qed.
End Handler.

Arguments source_options S T : clear implicits.

(** ** A run *)

Definition demo_handlers : model_handlers :=
  mkHandlers (S := nat) (T := ()) (Some (λ id cx s, (s, Ok (Some (workspace_row "A" "a"))))) None None None.
Definition demo_options : source_options nat () :=
  mkOptions item_models (λ _, Ok (Some "key"%string)) None None (Some (λ _ _ s, (s, Ok [ScopeLoad]))) None None None (λ _, Some demo_handlers) None.
Definition load_request (groups : list string) : http_request := mkRequest "POST" demo_headers (Some (mkBody "{}" (LoadRequest "item" "t1") (Some groups))).

Lemma endpoint_is_gated_witness :
  ∃ resp, dataSource (Some demo_hmac) demo_number demo_text (λ _ _, 0) (λ _, None) demo_options 100500 (load_request ["workspace:a"%string]) 0%nat = (0%nat, Ok resp)
    ∧ rows_of resp = [workspace_row "A" "a"]
    ∧ ∃ body, subjectAuthorized (sourceSubjectRule item_models "item") (workspace_row "A" "a") (sb_syncGroups body) = true.
Proof.
  exists (ok_json (RowBody (Some (workspace_row "A" "a")))). split_and!; [reflexivity|reflexivity|].
  destruct (endpoint_is_gated (Some demo_hmac) demo_number demo_text (λ _ _, 0) (λ _, None) demo_options 100500 (load_request ["workspace:a"%string]) 0%nat 0%nat
    (Ok (ok_json (RowBody (Some (workspace_row "A" "a"))))) eq_refl) as [_ H].
  destruct (H _ eq_refl eq_refl) as (body & id & at' & auth & s1 & s2 & (_ & Hbody & _) & _ & _ & _ & Hrows). exists body.
  destruct (Hrows (workspace_row "A" "a") ltac:(by left)) as (model & Hm & Ha). injection Hbody as <-. injection Hm as <-. exact Ha.
Defined.

(** The reference adapter reads without looking at the groups it is asked with: through it,
    an endpoint answers a row of another subject. *)
Definition adapter_options : source_options memory () :=
  mkOptions item_models (λ _, Ok (Some "key"%string)) None None None None None None (λ _, None) (Some (memory_adapter id 0)).
Lemma memory_adapter_answers_any_subject :
  let request := mkRequest "POST" demo_headers (Some (mkBody "{}" (LoadRequest "item" "t2") (Some ["workspace:a"%string]))) in
  (dataSource (Some demo_hmac) demo_number demo_text (λ _ _, 0) (λ _, None) adapter_options 100500 request two_workspaces).2 = Ok (ok_json (RowBody (Some (workspace_row "B" "b"))))
  ∧ authorizeSourceRead item_models "item" (Some ["workspace:a"%string]) [workspace_row "B" "b"] = [].
Proof. split; vm_compute; reflexivity. Qed.
