(* ===== verification/PushQueue.v ===== *)
(** * The push queue

    [transaction/src/source/delivery/pushQueue.ts]: events are stored first and delivered by
    a worker that retries. The storage is the one in memory; the worker and the calls
    around it are a machine whose inputs are the calls, the clock, the settled signature
    and the settled request. *)
From S2P Require Import Prelude JsData JsonText.
From Stdlib Require Import QArith.
#[local] Open Scope Z_scope.

Definition STANDARD_WEBHOOKS_RETRY_SCHEDULE : list Z :=
  [0; 5000; 5 * 60000; 30 * 60000; 2 * 60 * 60000; 5 * 60 * 60000; 10 * 60 * 60000; 14 * 60 * 60000; 20 * 60 * 60000; 24 * 60 * 60000].

Inductive item_status := Pending | Delivered | Dlq.
#[export] Instance item_status_eq_dec : EqDecision item_status.
Proof. solve_decision. Defined.

Section PushQueue.
Context {E : Type}.

(** [PushQueueItem]; the events of an item are one value. *)
Record item := mkItem {
  it_id : string;
  it_events : E;
  it_attempts : nat;
  it_nextAttemptAt : Q;
  it_lastError : option string;
  it_status : item_status;
}.

(** ** The storage in memory *)

Record storage := mkStorage { sg_items : list (string * item); sg_nextId : nat }.

(** [toString(36)]: a number this adapter counts to has far fewer digits. *)
Definition base36 (n : nat) : string := radix_digits (S n) 36 (Z.of_nat n) EmptyString.
Definition item_id (n : nat) (random : string) : string := "q_" +:+ base36 n +:+ "_" +:+ random.

Definition storage_enqueue (events : E) (random : string) (now : Q) (s : storage) : storage :=
  let n := S (sg_nextId s) in
  let id := item_id n random in
  mkStorage (map_set id (mkItem id events 0 now None Pending) (sg_items s)) n.

Definition is_due (now : Q) (i : item) : bool := bool_decide (it_status i = Pending) && Qle_bool (it_nextAttemptAt i) now.
Definition due_items (now : Q) (limit : nat) (s : storage) : list item := take limit (List.filter (is_due now) (sg_items s).*2).

Definition edit_item (id : string) (f : item → item) (s : storage) : storage :=
  match map_get id (sg_items s) with Some i => mkStorage (map_set id (f i) (sg_items s)) (sg_nextId s) | None => s end.
Definition storage_reschedule (id : string) (nextAttemptAt : Q) (lastError : string) : storage → storage :=
  edit_item id (λ i, mkItem (it_id i) (it_events i) (S (it_attempts i)) nextAttemptAt (Some lastError) (it_status i)).
Definition markDelivered (id : string) : storage → storage :=
  edit_item id (λ i, mkItem (it_id i) (it_events i) (it_attempts i) (it_nextAttemptAt i) (it_lastError i) Delivered).
Definition markDlq (id : string) (lastError : string) : storage → storage :=
  edit_item id (λ i, mkItem (it_id i) (it_events i) (S (it_attempts i)) (it_nextAttemptAt i) (Some lastError) Dlq).
Definition listDlq (s : storage) : list item := List.filter (λ i, bool_decide (it_status i = Dlq)) (sg_items s).*2.

(** ** The queue *)

(** The worker: between two rounds, at the head of the items of a round, waiting for a
    signature, waiting for the answer of a request, or returned. *)
Inductive worker :=
  | Sleeping
  | Serving (todo : list item)
  | Signing (i : item) (todo : list item)
  | Posting (i : item) (todo : list item)
  | Returned.

(** What the world sees: a request with the id of an item, its answer, a call of
    [onError]. *)
Inductive push_queue_event := Posted (id : string) | Answered (id : string) (ok : bool) | OnError (id : string).

(** [pq_redriving] are the dead letters a call of [redriveDlq] has not enqueued again yet. *)
Record push_queue := mkQueue {
  pq_storage : storage;
  pq_worker : worker;
  pq_aborted : bool;
  pq_redriving : list item;
  pq_log : list push_queue_event;
}.
Definition empty_push_queue : push_queue := mkQueue (mkStorage [] 0) Returned false [] [].

Definition on_storage (f : storage → storage) (q : push_queue) : push_queue := mkQueue (f (pq_storage q)) (pq_worker q) (pq_aborted q) (pq_redriving q) (pq_log q).
Definition to_worker (w : worker) (q : push_queue) : push_queue := mkQueue (pq_storage q) w (pq_aborted q) (pq_redriving q) (pq_log q).
Definition set_redriving (l : list item) (q : push_queue) : push_queue := mkQueue (pq_storage q) (pq_worker q) (pq_aborted q) l (pq_log q).
Definition log_queue (e : push_queue_event) (q : push_queue) : push_queue := mkQueue (pq_storage q) (pq_worker q) (pq_aborted q) (pq_redriving q) (pq_log q ++ [e]).

(** A delay off by at most its share, [random] being in the unit interval. *)
Definition applyJitter (delayMs factor random : Q) : Q :=
  if Qle_bool factor 0 || Qeq_bool delayMs 0 then delayMs
  else let delay := (delayMs + (random * 2 - 1) * (delayMs * factor))%Q in if Qle_bool delay 0 then 0 else delay.

Inductive fetch_outcome := FetchThrows (message : string) | Response (ok : bool) (status : Z).
Definition status_error (status : Z) : string := "HTTP " +:+ number_text status.

Section Options.
Context (schedule : list Z) (batchSize : nat) (jitter : Q).

Definition reschedule (i : item) (error : string) (now random : Q) (q : push_queue) : push_queue :=
  match schedule !! S (it_attempts i) with
  | None => log_queue (OnError (it_id i)) (on_storage (markDlq (it_id i) error) q)
  | Some backoff => on_storage (storage_reschedule (it_id i) (now + applyJitter (inject_Z backoff) jitter random)%Q error) q
  end.

(** [deliver], from the settled signature and from the settled request. *)
Definition deliver_signed (i : item) (todo : list item) (signed : result ()) (message : string) (q : push_queue) : push_queue :=
  match signed with
  | Throw _ => to_worker (Serving todo) (log_queue (OnError (it_id i)) (on_storage (markDlq (it_id i) message) q))
  | Ok _ => to_worker (Posting i todo) (log_queue (Posted (it_id i)) q)
  end.

Definition permanent (status : Z) : bool := (400 <=? status) && (status <? 500) && negb (status =? 408) && negb (status =? 429).

Definition deliver_answered (i : item) (r : fetch_outcome) (now random : Q) (q : push_queue) : push_queue :=
  match r with
  | FetchThrows message => reschedule i message now random q
  | Response ok status =>
      let q := log_queue (Answered (it_id i) ok) q in
      if ok then on_storage (markDelivered (it_id i)) q
      else if permanent status then on_storage (markDlq (it_id i) (status_error status)) q
      else reschedule i (status_error status) now random q
  end.

Inductive push_input :=
  | CallEnqueue (events : E) (random : string) (now : Q)
  | CallRun
  | CallRedrive
  | RedriveNext (random : string) (now : Q)
  | Aborts
  | TickTimer (now : Q)
  | NextItem
  | SignSettles (r : result ()) (message : string)
  | FetchSettles (r : fetch_outcome) (now random : Q).

(** The head of the loop of [run]. *)
Definition run_turn (now : Q) (q : push_queue) : push_queue := if pq_aborted q then to_worker Returned q else to_worker (Serving (due_items now batchSize (pq_storage q))) q.

(** One step; an input that nothing waits for changes nothing. [CallRun] starts the worker
    with a new signal where none runs. *)
Definition push_step (i : push_input) (q : push_queue) : push_queue :=
  match i with
  | CallEnqueue events random now => on_storage (storage_enqueue events random now) q
  | CallRun => match pq_worker q with Returned => mkQueue (pq_storage q) Sleeping false (pq_redriving q) (pq_log q) | _ => q end
  | CallRedrive => set_redriving (pq_redriving q ++ listDlq (pq_storage q)) q
  | RedriveNext random now =>
      match pq_redriving q with i :: rest => set_redriving rest (on_storage (storage_enqueue (it_events i) random now) q) | [] => q end
  | Aborts => mkQueue (pq_storage q) (pq_worker q) true (pq_redriving q) (pq_log q)
  | TickTimer now => match pq_worker q with Sleeping => run_turn now q | _ => q end
  | NextItem =>
      match pq_worker q with
      | Serving [] => to_worker Sleeping q
      | Serving (i :: todo) => if pq_aborted q then to_worker Returned q else to_worker (Signing i todo) q
      | _ => q
      end
  | SignSettles r message => match pq_worker q with Signing i todo => deliver_signed i todo r message q | _ => q end
  | FetchSettles r now random => match pq_worker q with Posting i todo => to_worker (Serving todo) (deliver_answered i r now random q) | _ => q end
  end.

Definition run_push_queue (inputs : list push_input) (q : push_queue) : push_queue := foldl (λ q i, push_step i q) q inputs.
End Options.
End PushQueue.

Arguments item E : clear implicits.
Arguments storage E : clear implicits.
Arguments push_queue E : clear implicits.
Arguments worker E : clear implicits.
Arguments push_input E : clear implicits.

(** * What the push queue promises

    Ids are unique; every batch that was enqueued stays in the queue with its events;
    each is posted a bounded number of times and is delivered exactly when one of its
    requests was answered well; a round whose requests are answered well delivers what was
    due. Redriving dead letters a second time delivers them a second time. *)

(** ** Ids *)

Definition underscore : Ascii.ascii := Ascii.ascii_of_N 95.
Definition digit_value (c : Ascii.ascii) : Z := let n := Z.of_N (Ascii.N_of_ascii c) in if n <? 58 then n - 48 else n - 87.
Fixpoint decoded (v : Z) (s : string) : Z :=
  match s with EmptyString => v | String c s => if Ascii.eqb c underscore then v else decoded (v * 36 + digit_value c) s end.

Lemma digit_char_36 d : 0 ≤ d < 36 → Ascii.eqb (digit_char d) underscore = false ∧ digit_value (digit_char d) = d.
Proof.
  intros Hd. assert (Hall : forallb (λ n, negb (Ascii.eqb (digit_char (Z.of_nat n)) underscore) && (digit_value (digit_char (Z.of_nat n)) =? Z.of_nat n)) (seq 0 36) = true) by (by vm_compute).
  rewrite forallb_forall in Hall. specialize (Hall (Z.to_nat d)). rewrite in_seq, Z2Nat.id in Hall by lia.
  specialize (Hall ltac:(lia)). apply andb_true_iff in Hall as [H1%negb_true_iff H2%Z.eqb_eq]. done.
Qed.

Lemma decoded_digits fuel : ∀ n acc, 0 ≤ n < 36 ^ Z.of_nat fuel → decoded 0 (radix_digits fuel 36 n acc) = decoded n acc.
Proof.
  induction fuel as [|fuel IH]; intros n acc Hn; [cbn in *; f_equal; lia|]. cbn [radix_digits].
  destruct (digit_char_36 (n mod 36)) as [H1 H2]; [apply Z.mod_pos_bound; lia|]. destruct (Z.ltb_spec n 36).
  - cbn [decoded]. rewrite H1, H2. f_equal. rewrite Z.mod_small by lia. lia.
  - rewrite IH.
    + cbn [decoded]. rewrite H1, H2. f_equal. pose proof (Z.div_mod n 36 ltac:(lia)). lia.
    + split; [apply Z.div_pos; lia|]. apply Z.div_lt_upper_bound; [lia|]. rewrite Nat2Z.inj_succ, Z.pow_succ_r in Hn by lia. lia.
Qed.

Lemma radix_digits_app fuel base : ∀ n a t, radix_digits fuel base n (a +:+ t) = radix_digits fuel base n a +:+ t.
Proof.
  induction fuel as [|fuel IH]; intros n a t; cbn [radix_digits]; [done|].
  destruct (n <? base); [done|]. by rewrite <- IH.
Qed.

Lemma item_id_inj n m r r' : item_id n r = item_id m r' → n = m.
Proof.
  assert (Hd : ∀ n r, decoded 0 (base36 n +:+ "_" +:+ r) = Z.of_nat n).
  { intros k t. unfold base36. rewrite <- radix_digits_app, decoded_digits; [done|]. split; [lia|]. pose proof (Z.pow_gt_lin_r 36 (Z.of_nat (S k)) ltac:(lia) ltac:(lia)). lia. }
  unfold item_id. intros H0. assert (H : base36 n +:+ "_" +:+ r = base36 m +:+ "_" +:+ r') by (injection H0 as H; exact H). apply (f_equal (decoded 0)) in H. rewrite !Hd in H. lia.
Qed.

(** ** The state of a queue *)

Lemma filter_b_sublist {A} (f : A → bool) l : List.filter f l `sublist_of` l.
Proof. induction l as [|x l IH]; cbn; [done|]. destruct (f x); by constructor. Qed.

Section Facts.
Context {E : Type} (schedule : list Z) (batchSize : nat) (jitter : Q).
Implicit Types (q : push_queue E) (s : storage E) (i : item E).

Definition limit : nat := Nat.max 1 (length schedule).

Definition about (id : string) (e : push_queue_event) : bool := match e with Posted i | Answered i _ | OnError i => String.eqb i id end.
Definition posts (id : string) (log : list push_queue_event) : nat := length (List.filter (λ e, match e with Posted i => String.eqb i id | _ => false end) log).

Definition in_hand (w : worker E) : list (item E) :=
  match w with Sleeping | Returned => [] | Serving todo => todo | Signing i todo | Posting i todo => i :: todo end.
Definition flies (w : worker E) (id : string) : nat := match w with Posting i _ => if String.eqb (it_id i) id then 1 else 0 | _ => 0 end.

(** The log of an item agrees with what the storage says of it. *)
Definition counted (log : list push_queue_event) (fly : nat) (id : string) i : Prop :=
  (Answered id true ∈ log ↔ it_status i = Delivered) ∧ (posts id log ≤ limit)%nat
  ∧ (it_status i = Pending → posts id log = it_attempts i + fly ∧ it_attempts i < limit)%nat.

Record queue_inv q : Prop := {
  qi_ids : ∀ id i, (id, i) ∈ sg_items (pq_storage q) → it_id i = id ∧ ∃ k r, id = item_id k r ∧ (k ≤ sg_nextId (pq_storage q))%nat;
  qi_nodup : NoDup (sg_items (pq_storage q)).*1;
  qi_hand : NoDup (it_id <$> in_hand (pq_worker q)) ∧ ∀ i, i ∈ in_hand (pq_worker q) → map_get (it_id i) (sg_items (pq_storage q)) = Some i ∧ it_status i = Pending;
  qi_counts : ∀ id i, map_get id (sg_items (pq_storage q)) = Some i → counted (pq_log q) (flies (pq_worker q) id) id i;
  qi_known : ∀ id, id ∉ (sg_items (pq_storage q)).*1 → posts id (pq_log q) = 0%nat ∧ Answered id true ∉ pq_log q;
}.

Lemma posts_app id l1 l2 : posts id (l1 ++ l2) = (posts id l1 + posts id l2)%nat.
Proof. unfold posts. by rewrite List.filter_app, length_app. Qed.

(** Events about one item are nothing to another. *)
Lemma others_log id l log : (∀ e, e ∈ l → about id e = false) → posts id (log ++ l) = posts id log ∧ (Answered id true ∈ log ++ l ↔ Answered id true ∈ log).
Proof.
  intros Hl. split.
  - rewrite posts_app. enough (posts id l = 0)%nat by lia. unfold posts. induction l as [|e l IH]; [done|].
    pose proof (Hl e ltac:(left)) as He. specialize (IH ltac:(intros e' H; apply Hl; by right)). by destruct e; cbn in *; rewrite ?He.
  - rewrite elem_of_app. split; [|by left]. intros [H|H]; [done|]. specialize (Hl _ H). cbn in Hl. by rewrite String.eqb_refl in Hl.
Qed.

(** The worker is done with the item at hand. *)
Lemma settle_inv q i todo f ab red l :
  queue_inv q → in_hand (pq_worker q) = i :: todo → (∀ j, it_id (f j) = it_id j) →
  (∀ e, e ∈ l → about (it_id i) e = true) → counted (pq_log q ++ l) 0 (it_id i) (f i) →
  queue_inv (mkQueue (edit_item (it_id i) f (pq_storage q)) (Serving todo) ab red (pq_log q ++ l)).
Proof.
  intros [H1 H2 [H3 H3'] H4 H5] Hhand Hf Hl Hc. rewrite Hhand in H3, H3'. rewrite fmap_cons in H3. apply NoDup_cons in H3 as [Hni H3].
  destruct (H3' i ltac:(left)) as [Hget Hp]. unfold edit_item. rewrite Hget.
  assert (Hin : it_id i ∈ (sg_items (pq_storage q)).*1) by (apply map_get_elem in Hget; by apply (list_elem_of_fmap_2 fst) in Hget).
  assert (Hkeys : (map_set (it_id i) (f i) (sg_items (pq_storage q))).*1 = (sg_items (pq_storage q)).*1) by (rewrite map_set_keys; by case_decide).
  assert (Hab : ∀ id e, id ≠ it_id i → e ∈ l → about id e = false).
  { intros id e Hne He. specialize (Hl e He). destruct e; cbn in *; apply String.eqb_eq in Hl; subst; by apply String.eqb_neq. }
  constructor; cbn [pq_storage pq_worker pq_log sg_items sg_nextId in_hand flies].
  - intros id j Hj. apply map_set_elem in Hj as [[= -> ->]|Hj]; [|by apply H1]. rewrite Hf. split; [done|]. apply map_get_elem in Hget. by apply H1 in Hget as [_ ?].
  - by rewrite Hkeys.
  - split; [done|]. intros j Hj. destruct (H3' j ltac:(by right)) as [Hg Hs]. split; [|done]. rewrite map_get_set. case_decide as He; [|done].
    exfalso. apply Hni. rewrite <- He. by apply list_elem_of_fmap_2.
  - intros id j. rewrite map_get_set. case_decide as He; [intros [= <-]; by subst|]. intros Hj. specialize (H4 id j Hj).
    destruct (others_log id l (pq_log q)) as [Hp' Ha]; [intros e; by apply Hab|]. unfold counted in *. rewrite Hp', Ha.
    assert (flies (pq_worker q) id = 0%nat) as <-; [|done]. destruct (pq_worker q) as [| | |i' todo'|]; try done. injection Hhand as -> ->. cbn. by destruct (String.eqb_spec (it_id i) id).
  - rewrite Hkeys. intros id Hid. destruct (others_log id l (pq_log q)) as [Hp' Ha]; [intros e; apply Hab; by intros ->|]. rewrite Hp', Ha. by apply H5.
Qed.

(** The worker moves on without touching the storage. *)
Lemma move_inv q w ab red l :
  queue_inv q → (NoDup (it_id <$> in_hand w) ∧ ∀ i, i ∈ in_hand w → map_get (it_id i) (sg_items (pq_storage q)) = Some i ∧ it_status i = Pending) →
  (∀ id i, map_get id (sg_items (pq_storage q)) = Some i → counted (pq_log q ++ l) (flies w id) id i) →
  (∀ e id, e ∈ l → id ∉ (sg_items (pq_storage q)).*1 → about id e = false) →
  queue_inv (mkQueue (pq_storage q) w ab red (pq_log q ++ l)).
Proof.
  intros [H1 H2 H3 H4 H5] Hh Hc Hl. constructor; cbn [pq_storage pq_worker pq_log]; try done.
  intros id Hid. destruct (others_log id l (pq_log q)) as [Hp Ha]; [intros e He; by apply Hl|]. rewrite Hp, Ha. by apply H5.
Qed.

(** Without events, and without a request that comes or goes. *)
Lemma rest_inv q w ab red :
  queue_inv q → (NoDup (it_id <$> in_hand w) ∧ ∀ i, i ∈ in_hand w → map_get (it_id i) (sg_items (pq_storage q)) = Some i ∧ it_status i = Pending) →
  (∀ id, flies w id = flies (pq_worker q) id) → queue_inv (mkQueue (pq_storage q) w ab red (pq_log q)).
Proof.
  intros H Hh Hf. rewrite <- (app_nil_r (pq_log q)). apply move_inv; [done|done| |by intros ?? ?%elem_of_nil]. intros id i Hi. rewrite app_nil_r, Hf. by apply (qi_counts q H).
Qed.

Lemma push_enqueue_inv q events random now red : queue_inv q →
  let q' := mkQueue (storage_enqueue events random now (pq_storage q)) (pq_worker q) (pq_aborted q) red (pq_log q) in
  queue_inv q' ∧ ∃ i, sg_items (pq_storage q') = sg_items (pq_storage q) ++ [(it_id i, i)] ∧ it_events i = events ∧ it_status i = Pending.
Proof.
  intros [H1 H2 [H3 H3'] H4 H5]. cbv zeta. unfold storage_enqueue. set (n := S (sg_nextId (pq_storage q))). set (id := item_id n random). set (new := mkItem id events 0 now None Pending).
  assert (Hfresh : id ∉ (sg_items (pq_storage q)).*1).
  { intros ([id' j] & Heq & Hin)%list_elem_of_fmap. cbn in Heq. destruct (H1 _ _ Hin) as (_ & k & r & Hk & Hle). rewrite <- Heq in Hk. apply item_id_inj in Hk. lia. }
  assert (Hset : map_set id new (sg_items (pq_storage q)) = sg_items (pq_storage q) ++ [(id, new)]) by by apply map_set_fresh.
  split; [|by exists new; split_and!].
  assert (Hg : ∀ j x, map_get j (sg_items (pq_storage q)) = Some x → map_get j (map_set id new (sg_items (pq_storage q))) = Some x).
  { intros j x Hx. rewrite map_get_set. case_decide as He; [|done]. subst j. apply map_get_elem in Hx. apply (list_elem_of_fmap_2 fst) in Hx. done. }
  constructor; cbn [pq_storage pq_worker pq_log sg_items sg_nextId].
  - intros j x Hj. rewrite Hset in Hj. apply elem_of_app in Hj as [Hj|Hj%list_elem_of_singleton].
    + destruct (H1 _ _ Hj) as (? & k & r & ? & ?). split; [done|]. exists k, r. split; [done|]. unfold n. lia.
    + injection Hj as -> ->. split; [done|]. by exists n, random.
  - by apply NoDup_set_keys.
  - split; [done|]. intros i Hi. destruct (H3' i Hi) as [? ?]. split; [by apply Hg|done].
  - intros j x. rewrite map_get_set. case_decide as He; [intros [= <-]; subst j|by apply H4]. destruct (H5 id Hfresh) as [Hp Ha].
    unfold counted. rewrite Hp. split_and!; [by split; [intros ?|]|lia|]. intros _. split; [|unfold limit; cbn; lia]. cbn.
    destruct (pq_worker q) as [| | |i todo|] eqn:Ew; try done. cbn. destruct (String.eqb_spec (it_id i) id) as [Heq|]; [|done].
    destruct (H3' i) as [Hx _]; [by left|]. rewrite Heq in Hx. apply map_get_elem in Hx. by apply (list_elem_of_fmap_2 fst) in Hx.
  - intros j Hj. apply H5. intros Hin. apply Hj. rewrite Hset, fmap_app. apply elem_of_app. by left.
Qed.

Lemma counted_edit log l fly id i j : counted log fly id i → it_status i = Pending → posts id l = 0%nat →
  (Answered id true ∈ l ↔ it_status j = Delivered) → (it_status j = Pending → it_attempts j = it_attempts i + fly ∧ it_attempts j < limit)%nat →
  counted (log ++ l) 0 id j.
Proof.
  intros (H1 & H2 & H3) Hp Hl Ha Hj. specialize (H3 Hp). unfold counted. rewrite posts_app, Hl, elem_of_app, H1, Ha, Hp. split_and!; [|lia|].
  - split; [by intros [?|?]|by right].
  - intros Hs. specialize (Hj Hs). lia.
Qed.

(** What the worker does with the item at hand: it edits it and says something about it. *)
Lemma settled_inv q i todo f ab red l fly :
  queue_inv q → in_hand (pq_worker q) = i :: todo → flies (pq_worker q) (it_id i) = fly →
  (∀ j, it_id (f j) = it_id j) → (∀ e, e ∈ l → about (it_id i) e = true) → posts (it_id i) l = 0%nat →
  (Answered (it_id i) true ∈ l ↔ it_status (f i) = Delivered) → (it_status (f i) = Pending → it_attempts (f i) = it_attempts i + fly ∧ it_attempts (f i) < limit)%nat →
  queue_inv (mkQueue (edit_item (it_id i) f (pq_storage q)) (Serving todo) ab red (pq_log q ++ l)).
Proof.
  intros H Hh Hfly Hf Hl Hp Ha Hj. pose proof (qi_hand q H) as [_ Hin]. rewrite Hh in Hin. destruct (Hin i ltac:(left)) as [Hg Hs].
  apply settle_inv; try done. eapply counted_edit; try done. rewrite <- Hfly. by apply (qi_counts q H).
Qed.

Ltac about_tac := let H := fresh in intros ? H; repeat (apply elem_of_cons in H as [->|H]; [by apply String.eqb_refl|]); by apply elem_of_nil in H.

Lemma reschedule_inv q i todo error now random l :
  queue_inv q → pq_worker q = Posting i todo → l = [] ∨ l = [Answered (it_id i) false] →
  queue_inv (to_worker (Serving todo) (reschedule schedule jitter i error now random (mkQueue (pq_storage q) (pq_worker q) (pq_aborted q) (pq_redriving q) (pq_log q ++ l)))).
Proof.
  intros H Hw Hl. assert (Hfly : flies (pq_worker q) (it_id i) = 1%nat) by (rewrite Hw; cbn; by rewrite String.eqb_refl).
  assert (Hh : in_hand (pq_worker q) = i :: todo) by by rewrite Hw. pose proof (qi_hand q H) as [_ Hin]. rewrite Hh in Hin. destruct (Hin i ltac:(left)) as [_ Hs].
  unfold reschedule. destruct (schedule !! S (it_attempts i)) as [backoff|] eqn:Es; unfold log_queue, on_storage, to_worker; cbn [pq_storage pq_worker pq_log pq_aborted pq_redriving].
  - apply lookup_lt_Some in Es. eapply (settled_inv q i todo); try done.
    + destruct Hl as [->| ->]; about_tac.
    + by destruct Hl as [->| ->].
    + cbn. rewrite Hs. split; [|done]. destruct Hl as [->| ->]; [by intros ?%elem_of_nil|by intros ?%list_elem_of_singleton].
    + intros _. cbn. unfold limit. lia.
  - rewrite <- app_assoc. eapply (settled_inv q i todo); try done.
    + destruct Hl as [->| ->]; about_tac.
    + by destruct Hl as [->| ->].
    + cbn. split; [|done]. destruct Hl as [->| ->]; cbn; rewrite ?elem_of_cons, ?elem_of_nil; naive_solver.
Qed.

Lemma due_in_hand q now : queue_inv q →
  NoDup (it_id <$> due_items now batchSize (pq_storage q)) ∧ ∀ i, i ∈ due_items now batchSize (pq_storage q) → map_get (it_id i) (sg_items (pq_storage q)) = Some i ∧ it_status i = Pending.
Proof.
  intros H. unfold due_items. set (items := sg_items (pq_storage q)).
  assert (Hsub : take batchSize (List.filter (is_due now) items.*2) `sublist_of` items.*2) by (etrans; [apply sublist_take|apply filter_b_sublist]).
  assert (Hids : it_id <$> items.*2 = items.*1).
  { rewrite <- list_fmap_compose. apply list_fmap_ext. intros k [id i] Hk. cbn. apply list_elem_of_lookup_2 in Hk. by apply (qi_ids q H) in Hk as [? _]. }
  split.
  - eapply sublist_NoDup; [|eapply fmap_sublist, Hsub]. rewrite Hids. apply (qi_nodup q H).
  - intros i Hi. pose proof Hi as Hi2. apply (sublist_subseteq _ _ Hsub), list_elem_of_fmap in Hi as ([id j] & -> & Hin). cbn in *. split.
    + apply map_get_spec; [apply (qi_nodup q H)|]. destruct (qi_ids q H _ _ Hin) as [-> _]. done.
    + apply (sublist_subseteq _ _ (sublist_take _ _)), list_elem_of_In, filter_In in Hi2 as [_ Hd]. unfold is_due in Hd. by apply andb_true_iff in Hd as [?%bool_decide_eq_true _].
Qed.

Lemma step_inv (x : push_input E) q : queue_inv q → queue_inv (push_step schedule batchSize jitter x q).
Proof.
  intros H. pose proof (qi_hand q H) as Hh. destruct x as [events random now| | |random now| |now| |r message|r now random]; cbn [push_step].
  - apply (push_enqueue_inv q events random now (pq_redriving q) H).
  - destruct (pq_worker q) eqn:Ew; try done. apply rest_inv; [done| |by rewrite Ew]. split; [apply NoDup_nil_2|by intros ? ?%elem_of_nil].
  - by apply rest_inv.
  - destruct (pq_redriving q) as [|i rest]; [done|]. apply (push_enqueue_inv q (it_events i) random now rest H).
  - by apply rest_inv.
  - destruct (pq_worker q) eqn:Ew; try done. unfold run_turn. destruct (pq_aborted q); (apply rest_inv; [done| |by rewrite Ew]).
    + split; [apply NoDup_nil_2|by intros ? ?%elem_of_nil].
    + by apply due_in_hand.
  - destruct (pq_worker q) as [|todo| | |] eqn:Ew; try done. destruct todo as [|i todo]; [apply rest_inv; [done|done|by rewrite Ew]|].
    destruct (pq_aborted q); (apply rest_inv; [done| |by rewrite Ew]); [split; [apply NoDup_nil_2|by intros ? ?%elem_of_nil]|done].
  - destruct (pq_worker q) as [| |i todo| |] eqn:Ew; try done. destruct r as [[]|e]; cbn [deliver_signed].
    + apply (move_inv q (Posting i todo) (pq_aborted q) (pq_redriving q) [Posted (it_id i)]); [done|done| |].
      * intros id j Hj. destruct (qi_counts q H id j Hj) as (C1 & C2 & C3). rewrite Ew in C3. unfold counted. rewrite posts_app, elem_of_app, list_elem_of_singleton. cbn [flies] in *. unfold posts at 2 4. cbn.
        split_and!; [split; [intros [?|?]; [by apply C1|done]|intros ?; left; by apply C1]| |].
        -- destruct (String.eqb_spec (it_id i) id) as [<-|]; cbn; [|lia]. destruct Hh as [_ Hh]. destruct (Hh i ltac:(left)) as [Hg Hp]. assert (i = j) as -> by congruence. specialize (C3 Hp). lia.
        -- intros Hp. specialize (C3 Hp). destruct (String.eqb_spec (it_id i) id); cbn; lia.
      * intros e id ->%list_elem_of_singleton Hid. cbn. destruct (String.eqb_spec (it_id i) id) as [<-|]; [|done]. exfalso. apply Hid.
        destruct Hh as [_ Hh]. destruct (Hh i ltac:(left)) as [Hg _]. apply map_get_elem in Hg. by apply (list_elem_of_fmap_2 fst) in Hg.
    + unfold log_queue, on_storage, to_worker. cbn [pq_storage pq_worker pq_log pq_aborted pq_redriving]. eapply (settled_inv q i todo); try done; [by rewrite Ew|about_tac|].
      cbn. split; [by intros ?%list_elem_of_singleton|done].
  - destruct (pq_worker q) as [| | |i todo|] eqn:Ew; try done. assert (Hfly : flies (pq_worker q) (it_id i) = 1%nat) by (rewrite Ew; cbn; by rewrite String.eqb_refl).
    destruct r as [message|ok status]; cbn [deliver_answered].
    + pose proof (reschedule_inv q i todo message now random [] H Ew ltac:(by left)) as Hx. rewrite app_nil_r in Hx. by destruct q.
    + destruct ok; [|destruct (permanent status)].
      * unfold log_queue, on_storage, to_worker. cbn [pq_storage pq_worker pq_log pq_aborted pq_redriving]. eapply (settled_inv q i todo); try done; [by rewrite Ew|about_tac|]. cbn. by rewrite list_elem_of_singleton.
      * unfold log_queue, on_storage, to_worker. cbn [pq_storage pq_worker pq_log pq_aborted pq_redriving]. eapply (settled_inv q i todo); try done; [by rewrite Ew|about_tac|]. cbn. split; [by intros ?%list_elem_of_singleton|done].
      * by apply (reschedule_inv q i todo _ now random [Answered (it_id i) false]); [| |right].
Qed.

Lemma run_inv inputs : ∀ q, queue_inv q → queue_inv (run_push_queue schedule batchSize jitter inputs q).
Proof. induction inputs as [|x inputs IH]; intros q H; [done|]. cbn [run_push_queue foldl]. apply IH. by apply step_inv. Qed.

Lemma empty_push_queue_inv : queue_inv empty_push_queue.
Proof.
  constructor; cbn; try (by intros ? ? ?%elem_of_nil); try apply NoDup_nil_2; try done.
  - split; [apply NoDup_nil_2|by intros ? ?%elem_of_nil].
  - intros id _. split; [done|by intros ?%elem_of_nil].
Qed.

(** ** Every batch is kept *)

Definition batches q : list (string * E) := (λ p, (p.1, it_events p.2)) <$> sg_items (pq_storage q).

Lemma edit_batches id f s : (∀ j : item E, it_events (f j) = it_events j) →
  (λ p : string * item E, (p.1, it_events p.2)) <$> sg_items (edit_item id f s) = (λ p, (p.1, it_events p.2)) <$> sg_items s.
Proof.
  intros Hf. unfold edit_item. destruct (map_get id (sg_items s)) as [i|] eqn:E1; [|done]. cbn [sg_items]. revert E1.
  induction (sg_items s) as [|[k j] l IH]; [done|]. cbn. case_decide as Hk; [intros [= ->]; cbn; by rewrite Hf|]. intros Hg. cbn. f_equal. by apply IH.
Qed.

Lemma reschedule_batches i error now random q : batches (reschedule schedule jitter i error now random q) = batches q.
Proof. unfold reschedule, batches. by destruct (schedule !! _); apply edit_batches. Qed.

Lemma step_batches (x : push_input E) q : queue_inv q → ∃ l, batches (push_step schedule batchSize jitter x q) = batches q ++ l.
Proof.
  intros H. assert (Hsame : ∀ q' : push_queue E, batches q' = batches q → ∃ l, batches q' = batches q ++ l) by (intros q' ->; exists []; by rewrite app_nil_r).
  assert (Henq : ∀ events random now red, ∃ l, batches (mkQueue (storage_enqueue events random now (pq_storage q)) (pq_worker q) (pq_aborted q) red (pq_log q)) = batches q ++ l).
  { intros events random now red. destruct (push_enqueue_inv q events random now red H) as [_ (i & Hi & _)]. unfold batches at 1. rewrite Hi, fmap_app. by eexists. }
  destruct x as [events random now| | |random now| |now| |r message|r now random]; cbn [push_step].
  - apply (Henq events random now (pq_redriving q)).
  - apply Hsame. by destruct (pq_worker q).
  - by apply Hsame.
  - destruct (pq_redriving q) as [|i rest]; [by apply Hsame|]. apply (Henq (it_events i) random now rest).
  - by apply Hsame.
  - apply Hsame. unfold run_turn. by destruct (pq_worker q), (pq_aborted q).
  - apply Hsame. destruct (pq_worker q) as [|[|]| | |]; try done. by destruct (pq_aborted q).
  - apply Hsame. destruct (pq_worker q); try done. destruct r; [done|]. by apply edit_batches.
  - apply Hsame. destruct (pq_worker q); try done. change (batches (deliver_answered schedule jitter i r now random q) = batches q).
    destruct r as [m|ok status]; cbn [deliver_answered]; [apply reschedule_batches|]. destruct ok; [by apply edit_batches|]. destruct (permanent status); [by apply edit_batches|].
    by rewrite reschedule_batches.
Qed.

Lemma run_batches inputs : ∀ q, queue_inv q → ∃ l, batches (run_push_queue schedule batchSize jitter inputs q) = batches q ++ l.
Proof.
  induction inputs as [|x inputs IH]; intros q H; [exists []; by rewrite app_nil_r|]. cbn [run_push_queue foldl].
  destruct (step_batches x q H) as [l1 H1], (IH _ (step_inv x q H)) as [l2 H2]. exists (l1 ++ l2). unfold run_push_queue in H2. by rewrite H2, H1, app_assoc.
Qed.

(** C34: whatever is enqueued, redriven, answered and aborted in whatever order, ids are
    unique; an enqueued batch gets an item of its own and stays in the queue with its
    events for ever; an item counts as delivered exactly when a request with its id was
    answered well; and no id is posted more often than the schedule has entries, at least
    once where it has none. *)
Theorem queue_keeps_every_batch inputs :
  let q := run_push_queue schedule batchSize jitter inputs empty_push_queue in
  NoDup (batches q).*1
  ∧ (∀ events random now, ∃ id, batches (push_step schedule batchSize jitter (CallEnqueue events random now) q) = batches q ++ [(id, events)])
  ∧ (∀ more, ∃ l, batches (run_push_queue schedule batchSize jitter more q) = batches q ++ l)
  ∧ (∀ id i, map_get id (sg_items (pq_storage q)) = Some i → (it_status i = Delivered ↔ Answered id true ∈ pq_log q))
  ∧ ∀ id, (posts id (pq_log q) ≤ Nat.max 1 (length schedule))%nat ∧ (id ∉ (batches q).*1 → posts id (pq_log q) = 0%nat).
Proof.
  cbv zeta. pose proof (run_inv inputs _ empty_push_queue_inv) as H. set (q := run_push_queue _ _ _ _ _) in *.
  assert (Hkeys : (batches q).*1 = (sg_items (pq_storage q)).*1) by (unfold batches; by rewrite <- list_fmap_compose).
  split_and!.
  - rewrite Hkeys. apply (qi_nodup q H).
  - intros events random now. destruct (push_enqueue_inv q events random now (pq_redriving q) H) as [_ (i & Hi & He & _)]. exists (it_id i).
    unfold batches at 1. cbn [push_step on_storage pq_storage] in *. rewrite Hi, fmap_app. cbn. by rewrite He.
  - intros more. by apply run_batches.
  - intros id i Hi. destruct (qi_counts q H id i Hi) as (Hc & _). by rewrite Hc.
  - intros id. rewrite Hkeys. split; [|intros Hid; by apply (qi_known q H)].
    destruct (map_get id (sg_items (pq_storage q))) as [i|] eqn:E1; [by apply (qi_counts q H) in E1 as (_ & ? & _)|]. apply map_get_None in E1. apply (qi_known q H) in E1 as [-> _]. lia.
Qed.

(** ** A round that goes well *)

Definition delivered_item i : item E := mkItem (it_id i) (it_events i) (it_attempts i) (it_nextAttemptAt i) (it_lastError i) Delivered.

(** The settled promises of a round of [n] items whose requests are answered well. *)
Fixpoint good_round (n : nat) : list (push_input E) :=
  match n with
  | O => [NextItem]
  | S n => NextItem :: SignSettles (Ok ()) "" :: FetchSettles (Response true 200) 0 0 :: good_round n
  end.

Lemma good_round_delivers todo : ∀ q, queue_inv q → pq_worker q = Serving todo → pq_aborted q = false →
  let q' := run_push_queue schedule batchSize jitter (good_round (length todo)) q in
  pq_worker q' = Sleeping
  ∧ ∀ id, map_get id (sg_items (pq_storage q')) = (λ i, if bool_decide (id ∈ it_id <$> todo) then delivered_item i else i) <$> map_get id (sg_items (pq_storage q)).
Proof.
  induction todo as [|i todo IH]; intros q H Hw Ha; cbn [length good_round run_push_queue foldl push_step].
  - rewrite Hw. split; [done|]. intros id. cbn. by destruct (map_get _ _).
  - rewrite Hw, Ha. cbn [to_worker pq_worker deliver_signed log_queue deliver_answered on_storage].
    pose proof (qi_hand q H) as [_ Hin]. rewrite Hw in Hin. destruct (Hin i ltac:(left)) as [Hg _].
    set (q1 := to_worker (Serving todo) _). assert (H1 : queue_inv q1).
    { pose proof (run_inv [NextItem; SignSettles (Ok ()) ""; FetchSettles (Response true 200) 0 0] q H) as Hx. cbn [run_push_queue foldl push_step] in Hx. by rewrite Hw, Ha in Hx. }
    destruct (IH q1 H1 eq_refl Ha) as [Hs Hr]. split; [exact Hs|]. intros id. unfold run_push_queue in Hr. rewrite Hr.
    unfold q1. cbn [to_worker on_storage log_queue pq_storage]. unfold markDelivered, edit_item. rewrite Hg. cbn [sg_items]. rewrite map_get_set, fmap_cons.
    assert (Hni : it_id i ∉ it_id <$> todo) by (pose proof (qi_hand q H) as [Hn _]; rewrite Hw in Hn; cbn in Hn; by apply NoDup_cons in Hn as [? _]).
    case_decide as Hid; [subst id; rewrite Hg; cbn; rewrite bool_decide_eq_false_2 by done; by rewrite bool_decide_eq_true_2 by left|].
    destruct (map_get id _); [|done]. cbn. f_equal. rewrite (bool_decide_ext (id ∈ it_id i :: _) (id ∈ it_id <$> todo)); [done|]. rewrite elem_of_cons. naive_solver.
Qed.

(** From any state the queue can be in, a round of a sleeping worker that was not
    aborted, each of whose requests is answered well, ends with the worker asleep again,
    every item that was due within the batch delivered and every other one as it was. *)
Theorem a_good_round_delivers_what_is_due inputs now :
  let q := run_push_queue schedule batchSize jitter inputs empty_push_queue in
  let round := due_items now batchSize (pq_storage q) in
  let q' := run_push_queue schedule batchSize jitter (TickTimer now :: good_round (length round)) q in
  pq_worker q = Sleeping → pq_aborted q = false →
  pq_worker q' = Sleeping ∧ length round = Nat.min batchSize (length (List.filter (is_due now) (sg_items (pq_storage q)).*2))
  ∧ ∀ id, map_get id (sg_items (pq_storage q')) = (λ i, if bool_decide (id ∈ it_id <$> round) then delivered_item i else i) <$> map_get id (sg_items (pq_storage q)).
Proof.
  cbv zeta. pose proof (run_inv inputs _ empty_push_queue_inv) as H. set (q := run_push_queue _ _ _ inputs _) in *. intros Hw Ha. cbn [run_push_queue foldl].
  pose proof (step_inv (TickTimer now) q H) as H1. cbn [push_step] in *. rewrite Hw in *. unfold run_turn in *. rewrite Ha in *.
  destruct (good_round_delivers (due_items now batchSize (pq_storage q)) _ H1 eq_refl Ha) as [H2 H3]. split_and!; [exact H2| |exact H3].
  unfold due_items. by rewrite length_take.
Qed.
End Facts.

(** ** Runs *)

Definition demo_events : list (push_input string) :=
  [CallRun; CallEnqueue "e" "r" 0; TickTimer 0; NextItem; SignSettles (Ok ()) ""; FetchSettles (Response false 500) 0 0; NextItem].

Lemma a_good_round_delivers_what_is_due_witness :
  let q := run_push_queue [0] 50 0 [CallRun; CallEnqueue "e"%string "r" 0] empty_push_queue in
  let q' := run_push_queue [0] 50 0 (TickTimer 0 :: good_round 1) q in
  it_status <$> map_get (item_id 1 "r") (sg_items (pq_storage q')) = Some Delivered.
Proof.
  cbv zeta. destruct (a_good_round_delivers_what_is_due [0] 50 0 [CallRun; CallEnqueue "e"%string "r" 0] 0 eq_refl eq_refl) as (_ & _ & H).
  specialize (H (item_id 1 "r")). change (good_round 1) with (@good_round string (length (due_items 0 50 (pq_storage (run_push_queue [0] 50 0 [CallRun; CallEnqueue "e"%string "r" 0] empty_push_queue))))). rewrite H. reflexivity.
Defined.

(** A dead letter stays one when it is redriven: redriving again after it was delivered
    puts the same events into the queue once more, under another id. *)
Theorem redriving_again_delivers_again :
  let once := [CallRedrive; RedriveNext "r" 1; TickTimer 1; NextItem; SignSettles (Ok ()) ""; FetchSettles (Response true 200) 1 0; NextItem] in
  let q := run_push_queue [0] 50 0 (demo_events ++ once ++ once) empty_push_queue in
  it_status <$> (sg_items (pq_storage q)).*2 = [Dlq; Delivered; Delivered] ∧ it_events <$> (sg_items (pq_storage q)).*2 = ["e"; "e"; "e"]%string
  ∧ length (List.filter (λ e, match e with Answered _ true => true | _ => false end) (pq_log q)) = 2%nat.
Proof. split_and!; by vm_compute. Qed.

(** [onError] is to be called when an item is dead-lettered: the one whose request is
    refused for good is not reported. *)
Theorem refused_item_is_not_reported :
  let q := run_push_queue STANDARD_WEBHOOKS_RETRY_SCHEDULE 50 0 [CallRun; CallEnqueue "e"%string "r" 0; TickTimer 0; NextItem; SignSettles (Ok ()) ""; FetchSettles (Response false 400) 0 0] empty_push_queue in
  it_status <$> (sg_items (pq_storage q)).*2 = [Dlq] ∧ pq_log q = [Posted (item_id 1 "r"); Answered (item_id 1 "r") false].
Proof. split_and!; by vm_compute. Qed.
