(* ===== verification/WsFrames.v ===== *)
(** * What the WebSocket transport sends and reads

    [transaction/src/transport/websocket]: the upgrade request ([transport.ts]), the commit
    frame ([commitFrames.ts]), the receipt and acknowledgement of a commit
    ([commit/contract.ts]), the subscription frames ([coordination/schema.ts]) and the wait
    lines of claims a connection keeps from snapshots and patches ([transport.ts]). A
    string is its UTF-8 bytes. *)
From S2P Require Import Prelude JsData Json WireFormats DeltaStore JsonText SourceModel.
From stdpp Require Import strings.
From Stdlib Require Import QArith.
#[local] Open Scope string_scope.
#[local] Open Scope list_scope.
#[local] Open Scope Z_scope.

Definition PROTOCOL_VERSION : Z := 2.
Definition WS_CLOSE_PROTOCOL_VERSION : Z := 4010.
Definition WS_BEARER_SUBPROTOCOL_PREFIX : string := "ablo.bearer.".
Definition WS_SYNC_SUBPROTOCOL : string := "ablo.sync.v1".
Definition WS_PRESENCE_SESSION_SUBPROTOCOL_PREFIX : string := "ablo.presence.".
Definition MAX_UPGRADE_URL_LENGTH : nat := 2000.

(** ** The upgrade request *)

(** [URLSearchParams], as the platform prints it. *)
Definition form_plain (c : Ascii.ascii) : bool :=
  let n := Ascii.N_of_ascii c in
  ((48 <=? n) && (n <=? 57) || (65 <=? n) && (n <=? 90) || (97 <=? n) && (n <=? 122)
   || (n =? 42) || (n =? 45) || (n =? 46) || (n =? 95))%N.
Definition upper_hex (n : N) : Ascii.ascii := Ascii.ascii_of_N (if n <? 10 then 48 + n else 55 + n)%N.
Definition form_char (c : Ascii.ascii) : string :=
  let n := Ascii.N_of_ascii c in
  if form_plain c then char_string c
  else if (n =? 32)%N then "+"
  else String (Ascii.ascii_of_N 37) (String (upper_hex (n / 16)) (char_string (upper_hex (n mod 16)))).
Fixpoint form_text (s : string) : string :=
  match s with EmptyString => EmptyString | String c s => form_char c +:+ form_text s end.
Definition form_pair (p : string * string) : string := form_text p.1 +:+ "=" +:+ form_text p.2.
Definition URLSearchParams (l : list (string * string)) : string := JsonText.join "&" (form_pair <$> l).

Definition starts_with (prefix s : string) : bool := String.prefix prefix s.
Definition drop_text (n : nat) (s : string) : string := String.substring n (String.length s - n) s.

(** The URL the constructor derives from the first truthy base. *)
Definition truthy_text (s : option string) : option string := match s with Some EmptyString => None | _ => s end.
Definition base_url (baseUrl url : option string) : string :=
  default "http://localhost:8080" (match truthy_text baseUrl with Some b => Some b | None => truthy_text url end).
Definition ws_url (base : string) : string :=
  let wsProtocol := if starts_with "https" base then "wss" else "ws" in
  (if starts_with "https" base then wsProtocol +:+ drop_text 5 base
   else if starts_with "http" base then wsProtocol +:+ drop_text 4 base
   else base) +:+ "/api/sync/ws".

(** The options a connection keeps. [o_snapshots] and [o_patches] are the claim queue
    flags after their defaults. *)
Record ws_options := mkWsOptions {
  o_url : string;
  o_snapshots : bool;
  o_patches : bool;
  o_kind : option string;
  o_syncGroups : list string;
  o_partition : option (Z * Z);
  o_reconnectDelay : option Q;
  o_maxReconnectDelay : option Q;
  o_capabilities : list (string * bool);
  o_collaboration : list string;
  o_capabilityToken : option string;
}.

(** A key of the options object handed to the constructor. The object is spread over the
    defaults, so a key that is present counts even when its value is [undefined]. *)
Inductive option_key (A : Type) := Absent | Present (v : option A).
Arguments Absent {A}.
Arguments Present {A} _.
Definition over_default {A} (d : A) (k : option_key A) : option A := match k with Absent => Some d | Present v => v end.
Definition MAX_RECONNECT_DELAY_MS : Q := 30000.
Definition all_capabilities : list (string * bool) :=
  [("partialBootstrap", true); ("compressedDeltas", true); ("streamingBootstrap", true); ("batchedDeltas", true)].
Definition new_options (baseUrl url : option string) (snapshots patches : bool) (kind : option string) (groups : list string)
    (partition : option (Z * Z)) (reconnectDelay maxReconnectDelay : option_key Q) (collaboration : list string)
    (capabilityToken : option string) : ws_options :=
  mkWsOptions (ws_url (base_url baseUrl url)) snapshots patches kind groups partition (over_default 1000%Q reconnectDelay)
    (over_default MAX_RECONNECT_DELAY_MS maxReconnectDelay) all_capabilities collaboration capabilityToken.

Definition with_groups (g : list string) (o : ws_options) : ws_options :=
  mkWsOptions (o_url o) (o_snapshots o) (o_patches o) (o_kind o) g (o_partition o) (o_reconnectDelay o) (o_maxReconnectDelay o)
    (o_capabilities o) (o_collaboration o) (o_capabilityToken o).
Definition with_kind (k : string) (o : ws_options) : ws_options :=
  mkWsOptions (o_url o) (o_snapshots o) (o_patches o) (Some k) (o_syncGroups o) (o_partition o) (o_reconnectDelay o)
    (o_maxReconnectDelay o) (o_capabilities o) (o_collaboration o) (o_capabilityToken o).
Definition with_partition (p : option (Z * Z)) (o : ws_options) : ws_options :=
  mkWsOptions (o_url o) (o_snapshots o) (o_patches o) (o_kind o) (o_syncGroups o) p (o_reconnectDelay o) (o_maxReconnectDelay o)
    (o_capabilities o) (o_collaboration o) (o_capabilityToken o).
Definition with_token (t : string) (o : ws_options) : ws_options :=
  mkWsOptions (o_url o) (o_snapshots o) (o_patches o) (o_kind o) (o_syncGroups o) (o_partition o) (o_reconnectDelay o)
    (o_maxReconnectDelay o) (o_capabilities o) (o_collaboration o) (Some t).

Definition upgrade_params (cursor : string) (groups : list string) (o : ws_options) : list (string * string) :=
  [("cursor", cursor)]
  ++ (if o_snapshots o then [] else [("claimQueueSnapshots", "false")])
  ++ (if o_patches o then [("claimQueuePatches", "true")] else [])
  ++ match truthy_text (o_kind o) with
     | Some k => if String.eqb k "user" then [] else [("kind", k)] | None => [] end
  ++ ((λ g, ("syncGroups", g)) <$> groups)
  ++ match o_partition o with
     | Some p => [("deliveryPartition", number_text p.1 +:+ "-" +:+ number_text p.2)] | None => [] end.
Definition upgrade_url (cursor : string) (groups : list string) (o : ws_options) : string :=
  o_url o +:+ "?" +:+ URLSearchParams (upgrade_params cursor groups o).

(** Read interest that would make the upgrade too long is confirmed by a frame. *)
Definition interest_by_frame (cursor : string) (o : ws_options) : bool :=
  (MAX_UPGRADE_URL_LENGTH <? String.length (upgrade_url cursor (o_syncGroups o) o))%nat
  && (0 <? length (o_syncGroups o))%nat.
Definition connect_url (cursor : string) (o : ws_options) : string :=
  upgrade_url cursor (if interest_by_frame cursor o then [] else o_syncGroups o) o.

Definition resolveAuthToken (getAuthToken getCapabilityToken : option string) (o : ws_options) : option string :=
  match getAuthToken with Some t => Some t
  | None => match getCapabilityToken with Some t => Some t | None => o_capabilityToken o end end.
Definition connect_protocols (authToken presenceSessionId : option string) : list string :=
  match truthy_text authToken with Some t => [WS_BEARER_SUBPROTOCOL_PREFIX +:+ t] | None => [] end
  ++ match truthy_text presenceSessionId with Some p => [WS_PRESENCE_SESSION_SUBPROTOCOL_PREFIX +:+ p] | None => [] end
  ++ [WS_SYNC_SUBPROTOCOL].

(** ** The backoff of a reconnect

    [NaN] where a delay of the options is [undefined]; a timer takes it for zero. *)
Definition Qpow2 (n : nat) : Q := inject_Z (2 ^ Z.of_nat n).
Definition backoff_base (o : ws_options) (attempts : nat) : option Q :=
  match o_reconnectDelay o, o_maxReconnectDelay o with
  | Some d, Some m => let grown := (d * Qpow2 attempts)%Q in Some (if Qle_bool grown m then grown else m)
  | _, _ => None
  end.
Definition backoff (o : ws_options) (attempts : nat) (random : Q) : option Z :=
  (λ base, Qround.Qfloor (base * ((85 # 100) + random * (3 # 10)) + (1 # 2))%Q) <$> backoff_base o attempts.
Definition timer_delay (delay : option Z) : Z := default 0 delay.

(** ** The commit frame *)

(** [CommitFrameOperation]; [input] and [where] hold fields. *)
Record frame_operation := mkFrameOperation {
  fo_type : string;
  fo_model : string;
  fo_id : option string;
  fo_input : optional fields;
  fo_where : optional fields;
  fo_transactionId : optional string;
  fo_claimId : optional string;
  fo_readAt : optional Z;
  fo_fenceToken : optional Z;
}.
Definition frame_operation_json (op : frame_operation) : json :=
  JObj ([("type", JStr (fo_type op)); ("model", JStr (fo_model op)); ("id", match fo_id op with Some i => JStr i | None => JNull end)]
        ++ property "input" JObj (fo_input op) ++ property "where" JObj (fo_where op)
        ++ property "transactionId" JStr (fo_transactionId op) ++ property "claimId" JStr (fo_claimId op)
        ++ property "readAt" JNum (fo_readAt op) ++ property "fenceToken" JNum (fo_fenceToken op)).
Definition frame (type : string) (payload : json) : json := JObj [("type", JStr type); ("payload", payload)].
Definition buildCommitFrame (operations : list frame_operation) (clientTxId : string) (reads : optional (list json)) : json :=
  frame "commit" (JObj ([("operations", JArr (frame_operation_json <$> operations)); ("clientTxId", JStr clientTxId)]
                        ++ property "reads" JArr reads)).

(** ** Receipts and acknowledgements

    A receipt as its object schema reads it, its instants in milliseconds; what no code
    of the transport looks at is one value. [commitReceiptSchema] and [commitAckSchema]
    are the conditions the schemas put on those fields. *)
Record CommitReceipt := mkReceipt {
  cr_queued : bool;
  cr_statusAt : Z;
  cr_createdAt : Z;
  cr_lastSyncId : Z;
  cr_correlationId : option string;
  cr_clientTxId : string;
  cr_missingIds : option (list string);
  cr_operationResults : option (list (string * json));
  cr_rest : json;
}.
Record CommitAck := mkAck {
  ca_queued : bool;
  ca_statusAt : Z;
  ca_lastSyncId : Z;
  ca_correlationId : option string;
  ca_missingIds : option (list string);
  ca_operationResults : option (list (string * json));
}.

Definition nonempty (s : string) : bool := negb (String.eqb s "").
Definition status_ok (queued : bool) (lastSyncId : Z) (correlationId : option string) : bool :=
  if queued then (lastSyncId =? 0) && match correlationId with Some c => correlationIdSchema c | None => false end
  else is_safe_integer lastSyncId && (0 <=? lastSyncId)
       && match correlationId with Some c => correlationIdSchema c && (0 <? lastSyncId) | None => true end.
Definition missing_ok (ids : option (list string)) : bool := match ids with Some l => forallb nonempty l | None => true end.
Definition results_ok (results : option (list (string * json))) : bool :=
  match results with
  | Some l => (0 <? length l)%nat && forallb nonempty l.*1 && bool_decide (NoDup l.*1)
  | None => true
  end.
Definition commitReceiptSchema (r : CommitReceipt) : bool :=
  status_ok (cr_queued r) (cr_lastSyncId r) (cr_correlationId r) && nonempty (cr_clientTxId r)
  && missing_ok (cr_missingIds r) && results_ok (cr_operationResults r) && (cr_createdAt r <=? cr_statusAt r).
Definition commitAckSchema (a : CommitAck) : bool :=
  status_ok (ca_queued a) (ca_lastSyncId a) (ca_correlationId a) && missing_ok (ca_missingIds a) && results_ok (ca_operationResults a).

Definition nonempty_list {A} (l : option (list A)) : option (list A) := match l with Some [] => None | _ => l end.
Definition ack_of (r : CommitReceipt) : CommitAck :=
  mkAck (cr_queued r) (cr_statusAt r) (cr_lastSyncId r) (truthy_text (cr_correlationId r)) (nonempty_list (cr_missingIds r))
    (nonempty_list (cr_operationResults r)).

Lemma ack_of_valid r : commitReceiptSchema r = true → commitAckSchema (ack_of r) = true.
Proof.
  unfold commitReceiptSchema, commitAckSchema. destruct r as [q st cr ls co tx mi re rest]. cbn.
  intros [[[[Hs _]%andb_true_iff Hm]%andb_true_iff Hr]%andb_true_iff _]%andb_true_iff.
  rewrite !andb_true_iff. split_and!.
  - destruct co as [c|]; [|done]. destruct c; [|done]. destruct q; cbn in *; by rewrite ?andb_false_r in Hs.
  - by destruct mi as [[]|].
  - by destruct re as [[]|].
Qed.

(** The ids a result names, deduplicated, what is no text left out. *)
Definition wire_missingIds (v : option json) : option (list string) :=
  match v with
  | Some (JArr l) => Some (foldl (λ acc x, match x with JStr i => if nonempty i then set_add i acc else acc | _ => acc end) [] l)
  | _ => None
  end.
Definition with_missingIds (ids : option (list string)) (r : CommitReceipt) : CommitReceipt :=
  mkReceipt (cr_queued r) (cr_statusAt r) (cr_createdAt r) (cr_lastSyncId r) (cr_correlationId r) (cr_clientTxId r) ids
    (cr_operationResults r) (cr_rest r).

(** ** Subscription frames *)

Definition lower_letter (c : Ascii.ascii) : bool := let n := Ascii.N_of_ascii c in ((97 <=? n) && (n <=? 122))%N.
Definition kind_char (c : Ascii.ascii) : bool := lower_letter c || is_digit c || (Ascii.N_of_ascii c =? 95)%N.
Fixpoint kind_rest (s : string) : bool :=
  match s with
  | EmptyString => false
  | String c s => if (Ascii.N_of_ascii c =? 58)%N then nonempty s else kind_char c && kind_rest s
  end.
Definition syncGroupRefSchema (g : string) : bool := match g with String c s => lower_letter c && kind_rest s | _ => false end.
Definition syncGroupInputSchema (g : string) : bool := String.eqb g "default" || syncGroupRefSchema g.
Definition MAX_FRAME_SYNC_GROUPS : nat := 5000.
Definition updateSubscriptionPayloadSchema (groups : list string) : bool :=
  forallb syncGroupInputSchema groups && (length groups <=? MAX_FRAME_SYNC_GROUPS)%nat.

Record SubscriptionAck := mkSubscriptionAck { sa_success : bool; sa_syncGroups : list string; sa_error : option string }.
Definition text_of (v : json) : option string := match v with JStr s => Some s | _ => None end.
Definition optional_text (k : string) (f : fields) : bool :=
  match map_get k f with Some (JStr _) | Some JUndefined | None => true | _ => false end.
Definition subscriptionAckPayloadSchema (v : json) : option SubscriptionAck :=
  match v with
  | JObj f =>
      match map_get "success" f, map_get "syncGroups" f ≫= λ v, match v with JArr l => mapM text_of l | _ => None end with
      | Some (JBool b), Some groups =>
          match map_get "error" f with
          | None | Some JUndefined => Some (mkSubscriptionAck b groups None)
          | Some (JObj e) =>
              match map_get "code" e ≫= text_of, map_get "message" e ≫= text_of with
              | Some code, Some _ =>
                  if optional_text "request_id" e && optional_text "event_id" e
                  then Some (mkSubscriptionAck b groups (Some code)) else None
              | _, _ => None
              end
          | _ => None
          end
      | _, _ => None
      end
  | _ => None
  end.

(** ** Wait lines of claims

    A connection keeps one line per row, by the type and the id of the row. *)
Inductive queue_change :=
  | AppendEntry (id : string) (entry : json)
  | AppendMany (entries : list (string * json))
  | RemoveEntry (id : string)
  | RemoveMany (ids : list string).
Record queue_patch := mkQueuePatch { qp_target : string * string; qp_baseRevision : Z; qp_revision : Z; qp_change : queue_change }.
Record queue_snapshot := mkQueueSnapshot { qs_target : string * string; qs_queue : list (string * json); qs_revision : option Z }.
Record claim_line := mkLine { cl_revision : Z; cl_queue : list (string * json) }.
Definition claim_lines : Type := list ((string * string) * claim_line).

(** [new Map(entries)]. *)
Definition map_of (l : list (string * json)) : list (string * json) := foldl (λ m p, map_set p.1 p.2 m) [] l.
Definition has (id : string) (m : list (string * json)) : bool := is_Some_b (map_get id m).

Definition take_snapshot (s : queue_snapshot) (lines : claim_lines) : claim_lines :=
  map_set (qs_target s) (mkLine (default 0 (qs_revision s)) (map_of (qs_queue s))) lines.
Definition change_gap (c : queue_change) (q : list (string * json)) : bool :=
  match c with
  | RemoveEntry id => negb (has id q)
  | RemoveMany ids => existsb (λ id, negb (has id q)) ids
  | _ => false
  end.
Definition apply_change (c : queue_change) (q : list (string * json)) : list (string * json) :=
  match c with
  | AppendEntry id e => map_set id e q
  | AppendMany l => foldl (λ m p, map_set p.1 p.2 m) q l
  | RemoveEntry id => map_delete id q
  | RemoveMany ids => foldl (λ m id, map_delete id m) q ids
  end.
(** [None]: a revision or an entry is missing, and the connection has to start over. *)
Definition take_patch (p : queue_patch) (lines : claim_lines) : option claim_lines :=
  match map_get (qp_target p) lines with
  | Some previous =>
      if (cl_revision previous =? qp_baseRevision p) && negb (change_gap (qp_change p) (cl_queue previous))
      then Some (map_set (qp_target p) (mkLine (qp_revision p) (apply_change (qp_change p) (cl_queue previous))) lines)
      else None
  | None => None
  end.
