(* ===== verification/WsTransport.v ===== *)
(** * The WebSocket transport

    [transaction/src/transport/websocket]: [transport.ts] (the life of the socket, the
    requests over it), [frameHandlers.ts] (what an inbound frame does) and [heartbeat.ts].
    The transport is a machine: its inputs are the calls, the events of its sockets and
    the timers that go off. Sockets and timers are the platform's, so an event that cannot
    happen to a socket changes nothing, a timer goes off only while it is armed, and the
    continuations of promises run when the input has been handled. The log holds what the
    sockets, the listeners and the callers see, in order; what a listener does in turn is
    the next input. *)
From stdpp Require Import gmap strings.
From Stdlib Require Import QArith.
From S2P Require Import Prelude JsData Json ErrorCodes DeltaStore JsonText SourceModel WsFrames.
#[local] Open Scope string_scope.
#[local] Open Scope list_scope.
#[local] Open Scope Z_scope.

Definition MAX_RECONNECT_ATTEMPTS : nat := 15.
Definition HEARTBEAT_INTERVAL_MS : Z := 30000.
Definition HEARTBEAT_TIMEOUT_MS : Z := 10000.
Definition ACK_TIMEOUT_MS : Z := 15000.

(** ** State *)

Inductive ready_state := CONNECTING | OPEN | CLOSING | CLOSED.
#[export] Instance ready_state_eq_dec : EqDecision ready_state.
Proof. solve_decision. Defined.

(** Who waits for a subscription update: a caller, by the number of its call, or the
    handshake of a socket. *)
Inductive waiter := Call (n : nat) | Handshake (socket : nat).
#[export] Instance waiter_eq_dec : EqDecision waiter.
Proof. solve_decision. Defined.

Inductive timer :=
  | CommitTimeout (call : nat) (clientTxId : string)
  | SubscriptionTimeout (who : waiter)
  | Reconnect
  | PingInterval
  | PongTimeout.

(** A pending request with the timer that gives it up. An entry of the subscription queue
    is known by its timer. *)
Record PendingCommit := mkPending { pm_call : nat; pm_timeout : nat; pm_returnReceipt : bool }.
Record PendingSubscription := mkPendingSub { ps_who : waiter; ps_timeout : nat }.

Inductive outcome :=
  | GotReceipt (r : CommitReceipt)
  | GotAck (a : CommitAck)
  | GotGroups (groups : list string)
  | Failed (e : JsError).

(** [CommitAsked] and [UpdateAsked] mark where a call that is settled later was made, and
    [Opened] the options the socket was made with. *)
Inductive effect :=
  | Opened (socket : nat) (o : ws_options) (url : string) (protocols : list string)
  | Sent (socket : nat) (message : json)
  | Received (socket : nat) (message : json)
  | CloseCalled (socket : nat) (code : Z) (reason : string)
  | Emitted (event : string) (payload : list json)
  | EmittedConnected (socket : nat)
  | ClosedHook
  | CommitAsked (call : nat) (clientTxId : string)
  | UpdateAsked (who : waiter) (socket : nat) (groups : list string)
  | Acked (who : waiter) (socket : nat) (ok : bool)
  | Settled (call : nat) (o : outcome).

Record connection := mkConnection {
  cn_ws : option nat;
  cn_isConnecting : bool;
  cn_isManualClose : bool;
  cn_connectHeld : bool;
  cn_sessionErrorDetected : bool;
  cn_everOpened : bool;
  cn_hasConnected : bool;
  cn_presenceEstablished : bool;
  cn_reconnectAttempts : nat;
  cn_reconnectTimer : option nat;
}.
Record requests := mkRequests {
  rq_pendingMutations : list (string * PendingCommit);
  rq_pendingSubscriptions : list PendingSubscription;
  rq_initialSubscription : option (list string);
  rq_initialSubscriptionInFlight : bool;
  rq_nextCall : nat;
}.
Record diagnostics := mkDiagnostics {
  dg_lastOpenAt : option Z;
  dg_lastCloseAt : option Z;
  dg_lastCloseCode : option Z;
  dg_lastCloseReason : option string;
  dg_lastForceCloseReason : option string;
  dg_sessionErrorAt : option Z;
}.
Record transport := mkTransport {
  t_conn : connection;
  t_req : requests;
  t_diag : diagnostics;
  t_options : ws_options;
  t_lines : claim_lines;
  t_heartbeatTimer : option nat;
  t_heartbeatTimeout : option nat;
  t_sockets : list ready_state;
  t_timers : gmap nat (timer * Z);
  t_nextTimer : nat;
  t_micro : list (nat * result (list string));
  t_log : list effect;
}.

Definition set_t_conn (v : connection) (s : transport) : transport :=
  mkTransport v (t_req s) (t_diag s) (t_options s) (t_lines s) (t_heartbeatTimer s) (t_heartbeatTimeout s) (t_sockets s) (t_timers s) (t_nextTimer s) (t_micro s) (t_log s).
Definition set_t_req (v : requests) (s : transport) : transport :=
  mkTransport (t_conn s) v (t_diag s) (t_options s) (t_lines s) (t_heartbeatTimer s) (t_heartbeatTimeout s) (t_sockets s) (t_timers s) (t_nextTimer s) (t_micro s) (t_log s).
Definition set_t_diag (v : diagnostics) (s : transport) : transport :=
  mkTransport (t_conn s) (t_req s) v (t_options s) (t_lines s) (t_heartbeatTimer s) (t_heartbeatTimeout s) (t_sockets s) (t_timers s) (t_nextTimer s) (t_micro s) (t_log s).
Definition set_t_options (v : ws_options) (s : transport) : transport :=
  mkTransport (t_conn s) (t_req s) (t_diag s) v (t_lines s) (t_heartbeatTimer s) (t_heartbeatTimeout s) (t_sockets s) (t_timers s) (t_nextTimer s) (t_micro s) (t_log s).
Definition set_t_lines (v : claim_lines) (s : transport) : transport :=
  mkTransport (t_conn s) (t_req s) (t_diag s) (t_options s) v (t_heartbeatTimer s) (t_heartbeatTimeout s) (t_sockets s) (t_timers s) (t_nextTimer s) (t_micro s) (t_log s).
Definition set_t_heartbeatTimer (v : option nat) (s : transport) : transport :=
  mkTransport (t_conn s) (t_req s) (t_diag s) (t_options s) (t_lines s) v (t_heartbeatTimeout s) (t_sockets s) (t_timers s) (t_nextTimer s) (t_micro s) (t_log s).
Definition set_t_heartbeatTimeout (v : option nat) (s : transport) : transport :=
  mkTransport (t_conn s) (t_req s) (t_diag s) (t_options s) (t_lines s) (t_heartbeatTimer s) v (t_sockets s) (t_timers s) (t_nextTimer s) (t_micro s) (t_log s).
Definition set_t_sockets (v : list ready_state) (s : transport) : transport :=
  mkTransport (t_conn s) (t_req s) (t_diag s) (t_options s) (t_lines s) (t_heartbeatTimer s) (t_heartbeatTimeout s) v (t_timers s) (t_nextTimer s) (t_micro s) (t_log s).
Definition set_t_timers (v : gmap nat (timer * Z)) (s : transport) : transport :=
  mkTransport (t_conn s) (t_req s) (t_diag s) (t_options s) (t_lines s) (t_heartbeatTimer s) (t_heartbeatTimeout s) (t_sockets s) v (t_nextTimer s) (t_micro s) (t_log s).
Definition set_t_nextTimer (v : nat) (s : transport) : transport :=
  mkTransport (t_conn s) (t_req s) (t_diag s) (t_options s) (t_lines s) (t_heartbeatTimer s) (t_heartbeatTimeout s) (t_sockets s) (t_timers s) v (t_micro s) (t_log s).
Definition set_t_micro (v : list (nat * result (list string))) (s : transport) : transport :=
  mkTransport (t_conn s) (t_req s) (t_diag s) (t_options s) (t_lines s) (t_heartbeatTimer s) (t_heartbeatTimeout s) (t_sockets s) (t_timers s) (t_nextTimer s) v (t_log s).
Definition set_t_log (v : list effect) (s : transport) : transport :=
  mkTransport (t_conn s) (t_req s) (t_diag s) (t_options s) (t_lines s) (t_heartbeatTimer s) (t_heartbeatTimeout s) (t_sockets s) (t_timers s) (t_nextTimer s) (t_micro s) v.

Definition ws (s : transport) : option nat := cn_ws (t_conn s).
Definition isConnecting (s : transport) : bool := cn_isConnecting (t_conn s).
Definition isManualClose (s : transport) : bool := cn_isManualClose (t_conn s).
Definition connectHeld (s : transport) : bool := cn_connectHeld (t_conn s).
Definition sessionErrorDetected (s : transport) : bool := cn_sessionErrorDetected (t_conn s).
Definition everOpened (s : transport) : bool := cn_everOpened (t_conn s).
Definition hasConnected (s : transport) : bool := cn_hasConnected (t_conn s).
Definition presenceEstablished (s : transport) : bool := cn_presenceEstablished (t_conn s).
Definition reconnectAttempts (s : transport) : nat := cn_reconnectAttempts (t_conn s).
Definition reconnectTimer (s : transport) : option nat := cn_reconnectTimer (t_conn s).
Definition set_ws (v : option nat) (s : transport) : transport :=
  set_t_conn (mkConnection v (isConnecting s) (isManualClose s) (connectHeld s) (sessionErrorDetected s) (everOpened s) (hasConnected s) (presenceEstablished s) (reconnectAttempts s) (reconnectTimer s)) s.
Definition set_isConnecting (v : bool) (s : transport) : transport :=
  set_t_conn (mkConnection (ws s) v (isManualClose s) (connectHeld s) (sessionErrorDetected s) (everOpened s) (hasConnected s) (presenceEstablished s) (reconnectAttempts s) (reconnectTimer s)) s.
Definition set_isManualClose (v : bool) (s : transport) : transport :=
  set_t_conn (mkConnection (ws s) (isConnecting s) v (connectHeld s) (sessionErrorDetected s) (everOpened s) (hasConnected s) (presenceEstablished s) (reconnectAttempts s) (reconnectTimer s)) s.
Definition set_connectHeld (v : bool) (s : transport) : transport :=
  set_t_conn (mkConnection (ws s) (isConnecting s) (isManualClose s) v (sessionErrorDetected s) (everOpened s) (hasConnected s) (presenceEstablished s) (reconnectAttempts s) (reconnectTimer s)) s.
Definition set_sessionErrorDetected (v : bool) (s : transport) : transport :=
  set_t_conn (mkConnection (ws s) (isConnecting s) (isManualClose s) (connectHeld s) v (everOpened s) (hasConnected s) (presenceEstablished s) (reconnectAttempts s) (reconnectTimer s)) s.
Definition set_everOpened (v : bool) (s : transport) : transport :=
  set_t_conn (mkConnection (ws s) (isConnecting s) (isManualClose s) (connectHeld s) (sessionErrorDetected s) v (hasConnected s) (presenceEstablished s) (reconnectAttempts s) (reconnectTimer s)) s.
Definition set_hasConnected (v : bool) (s : transport) : transport :=
  set_t_conn (mkConnection (ws s) (isConnecting s) (isManualClose s) (connectHeld s) (sessionErrorDetected s) (everOpened s) v (presenceEstablished s) (reconnectAttempts s) (reconnectTimer s)) s.
Definition set_presenceEstablished (v : bool) (s : transport) : transport :=
  set_t_conn (mkConnection (ws s) (isConnecting s) (isManualClose s) (connectHeld s) (sessionErrorDetected s) (everOpened s) (hasConnected s) v (reconnectAttempts s) (reconnectTimer s)) s.
Definition set_reconnectAttempts (v : nat) (s : transport) : transport :=
  set_t_conn (mkConnection (ws s) (isConnecting s) (isManualClose s) (connectHeld s) (sessionErrorDetected s) (everOpened s) (hasConnected s) (presenceEstablished s) v (reconnectTimer s)) s.
Definition set_reconnectTimer (v : option nat) (s : transport) : transport :=
  set_t_conn (mkConnection (ws s) (isConnecting s) (isManualClose s) (connectHeld s) (sessionErrorDetected s) (everOpened s) (hasConnected s) (presenceEstablished s) (reconnectAttempts s) v) s.
Definition pendingMutations (s : transport) : list (string * PendingCommit) := rq_pendingMutations (t_req s).
Definition pendingSubscriptions (s : transport) : list PendingSubscription := rq_pendingSubscriptions (t_req s).
Definition initialSubscription (s : transport) : option (list string) := rq_initialSubscription (t_req s).
Definition initialSubscriptionInFlight (s : transport) : bool := rq_initialSubscriptionInFlight (t_req s).
Definition nextCall (s : transport) : nat := rq_nextCall (t_req s).
Definition set_pendingMutations (v : list (string * PendingCommit)) (s : transport) : transport :=
  set_t_req (mkRequests v (pendingSubscriptions s) (initialSubscription s) (initialSubscriptionInFlight s) (nextCall s)) s.
Definition set_pendingSubscriptions (v : list PendingSubscription) (s : transport) : transport :=
  set_t_req (mkRequests (pendingMutations s) v (initialSubscription s) (initialSubscriptionInFlight s) (nextCall s)) s.
Definition set_initialSubscription (v : option (list string)) (s : transport) : transport :=
  set_t_req (mkRequests (pendingMutations s) (pendingSubscriptions s) v (initialSubscriptionInFlight s) (nextCall s)) s.
Definition set_initialSubscriptionInFlight (v : bool) (s : transport) : transport :=
  set_t_req (mkRequests (pendingMutations s) (pendingSubscriptions s) (initialSubscription s) v (nextCall s)) s.
Definition set_nextCall (v : nat) (s : transport) : transport :=
  set_t_req (mkRequests (pendingMutations s) (pendingSubscriptions s) (initialSubscription s) (initialSubscriptionInFlight s) v) s.
Definition lastOpenAt (s : transport) : option Z := dg_lastOpenAt (t_diag s).
Definition lastCloseAt (s : transport) : option Z := dg_lastCloseAt (t_diag s).
Definition lastCloseCode (s : transport) : option Z := dg_lastCloseCode (t_diag s).
Definition lastCloseReason (s : transport) : option string := dg_lastCloseReason (t_diag s).
Definition lastForceCloseReason (s : transport) : option string := dg_lastForceCloseReason (t_diag s).
Definition sessionErrorAt (s : transport) : option Z := dg_sessionErrorAt (t_diag s).
Definition set_lastOpenAt (v : option Z) (s : transport) : transport :=
  set_t_diag (mkDiagnostics v (lastCloseAt s) (lastCloseCode s) (lastCloseReason s) (lastForceCloseReason s) (sessionErrorAt s)) s.
Definition set_lastCloseAt (v : option Z) (s : transport) : transport :=
  set_t_diag (mkDiagnostics (lastOpenAt s) v (lastCloseCode s) (lastCloseReason s) (lastForceCloseReason s) (sessionErrorAt s)) s.
Definition set_lastCloseCode (v : option Z) (s : transport) : transport :=
  set_t_diag (mkDiagnostics (lastOpenAt s) (lastCloseAt s) v (lastCloseReason s) (lastForceCloseReason s) (sessionErrorAt s)) s.
Definition set_lastCloseReason (v : option string) (s : transport) : transport :=
  set_t_diag (mkDiagnostics (lastOpenAt s) (lastCloseAt s) (lastCloseCode s) v (lastForceCloseReason s) (sessionErrorAt s)) s.
Definition set_lastForceCloseReason (v : option string) (s : transport) : transport :=
  set_t_diag (mkDiagnostics (lastOpenAt s) (lastCloseAt s) (lastCloseCode s) (lastCloseReason s) v (sessionErrorAt s)) s.
Definition set_sessionErrorAt (v : option Z) (s : transport) : transport :=
  set_t_diag (mkDiagnostics (lastOpenAt s) (lastCloseAt s) (lastCloseCode s) (lastCloseReason s) (lastForceCloseReason s) v) s.

(** What the platform, the clock and the hooks of a subclass answer while one input is
    handled: whether the socket constructor and [send] succeed, the credentials, the resume
    cursor, the frames [onOpened] sends, and which listeners there are. *)
Record env := mkEnv {
  e_now : Z;
  e_online : bool;
  e_random : Q;
  e_cursor : string;
  e_getAuthToken : option string;
  e_getCapabilityToken : option string;
  e_presenceSession : option string;
  e_constructs : bool;
  e_sends : bool;
  e_onOpened : list json;
  e_errorListeners : bool;
  e_queueListeners : bool;
}.

Definition log_effect (e : effect) (s : transport) : transport := set_t_log (t_log s ++ [e]) s.
Definition emit (event : string) (payload : list json) : transport → transport := log_effect (Emitted event payload).
Definition emit_error (env : env) (s : transport) : transport := if e_errorListeners env then emit "error" [] s else s.

(** ** Timers and sockets *)

Definition clearTimeout (id : nat) (s : transport) : transport := set_t_timers (delete id (t_timers s)) s.
Definition clear_option (id : option nat) (s : transport) : transport := match id with Some id => clearTimeout id s | None => s end.
(** [setTimeout] and [setInterval]; the id is [t_nextTimer] before the call. *)
Definition arm (t : timer) (delay : Z) (s : transport) : transport :=
  set_t_nextTimer (S (t_nextTimer s)) (set_t_timers (<[t_nextTimer s := (t, delay)]> (t_timers s)) s).

Definition ready_of (k : nat) (s : transport) : option ready_state := t_sockets s !! k.
Definition readyState (s : transport) : option ready_state := k ← ws s; ready_of k s.
Definition in_state (r : ready_state) (s : transport) : bool := bool_decide (readyState s = Some r).
(** The socket, when it is open. *)
Definition open_socket (s : transport) : option nat := if in_state OPEN s then ws s else None.
Definition move_socket (k : nat) (r : ready_state) (s : transport) : transport := set_t_sockets (<[k := r]> (t_sockets s)) s.
(** [WebSocket.close]: nothing happens to a socket that is closing or closed. *)
Definition close_socket (k : nat) (code : Z) (reason : string) (s : transport) : transport :=
  match ready_of k s with
  | Some CONNECTING | Some OPEN => log_effect (CloseCalled k code reason) (move_socket k CLOSING s)
  | _ => s
  end.

Definition forceClose (reason : string) (s : transport) : transport :=
  match ws s with
  | None => s
  | Some k => close_socket k 4000 reason (set_lastForceCloseReason (Some reason) s)
  end.

(** ** The heartbeat *)

Definition clearHeartbeatTimeout (s : transport) : transport := set_t_heartbeatTimeout None (clear_option (t_heartbeatTimeout s) s).
Definition heartbeat_stop (s : transport) : transport :=
  clearHeartbeatTimeout (set_t_heartbeatTimer None (clear_option (t_heartbeatTimer s) s)).
Definition heartbeat_start (s : transport) : transport :=
  let s := heartbeat_stop s in
  set_t_heartbeatTimer (Some (t_nextTimer s)) (arm PingInterval HEARTBEAT_INTERVAL_MS s).
Definition ping : json := JObj [("type", JStr "ping")].
Definition heartbeat_tick (env : env) (s : transport) : transport :=
  match open_socket s with
  | None => s
  | Some k =>
      if e_sends env then
        let s := clear_option (t_heartbeatTimeout s) (log_effect (Sent k ping) s) in
        set_t_heartbeatTimeout (Some (t_nextTimer s)) (arm PongTimeout HEARTBEAT_TIMEOUT_MS s)
      else forceClose "heartbeat-send-failed" s
  end.

(** ** Not connected *)

Definition session_error : JsError := ablo_error AbloSessionError "session_expired".
Definition connection_error (code : string) : JsError := ablo_error AbloConnectionError code.
Definition notConnectedError (s : transport) : JsError :=
  if sessionErrorDetected s then session_error else connection_error "ws_not_ready".
(** What the message names as the cause. *)
Definition notConnected_detail (now : Z) (s : transport) : string :=
  let code := match lastCloseCode s with Some c => number_text c | None => "null" end in
  let with_reason (label : string) (r : option string) := match r with Some r => label +:+ r | None => "" end in
  if isManualClose s then "manual_close"
  else if isConnecting s then "still_connecting"
  else if negb (everOpened s) && is_Some_b (lastCloseAt s) then "handshake_failed code=" +:+ code
  else match truthy_text (lastForceCloseReason s) with
  | Some r => "force_closed reason=" +:+ r
  | None =>
      match lastCloseAt s with
      | Some at_ =>
          "closed code=" +:+ code +:+ with_reason " reason=" (lastCloseReason s) +:+ " " +:+ number_text (now - at_) +:+ "ms ago"
          +:+ (if (0 <? reconnectAttempts s)%nat
               then " reconnectAttempts=" +:+ number_text (Z.of_nat (reconnectAttempts s)) +:+ "/"
                    +:+ number_text (Z.of_nat MAX_RECONNECT_ATTEMPTS) else "")
      | None => "never_connected"
      end
  end.

(** [toAbloError] of what [JSON.stringify] or [WebSocket.send] throw. *)
Definition send_failure : JsError := mkError AbloError None.

Definition send (env : env) (message : json) (s : transport) : transport :=
  match open_socket s with
  | Some k => if e_sends env then log_effect (Sent k message) s else s
  | None => s
  end.
Definition send_open (env : env) (message : json) : M transport () := λ s,
  match open_socket s with
  | None => (s, Throw (notConnectedError s))
  | Some _ => (send env message s, Ok ())
  end.

Definition enabled (l : list (string * bool)) : list json := (λ p, JStr p.1) <$> List.filter snd l.
Definition requestSync (env : env) (cursor : option string) (lastSyncId : Z) : M transport () := λ s,
  send_open env (frame "sync_request" (JObj [("cursor", match cursor with Some c => JStr c | None => JNull end);
    ("lastSyncId", JNum lastSyncId); ("capabilities", JArr (enabled (o_capabilities (t_options s))));
    ("protocolVersion", JNum PROTOCOL_VERSION)])) s.
Definition transport_acknowledge (env : env) (lastSyncId : Z) : M transport () := λ s,
  if is_safe_integer lastSyncId && (0 <=? lastSyncId)
  then (send env (frame "ack" (JObj [("lastSyncId", JNum lastSyncId)])) s, Ok ())
  else (s, Throw (ablo_error AbloValidationError "invalid_request")).
Definition sendPresenceCommand (env : env) (command : json) : M transport () := send_open env (frame "presence_command" command).
Fixpoint replace_char (from to : Ascii.ascii) (s : string) : string :=
  match s with EmptyString => EmptyString | String c s => String (if Ascii.eqb c from then to else c) (replace_char from to s) end.
Definition colon : Ascii.ascii := Ascii.ascii_of_N 58.
Definition underscore : Ascii.ascii := Ascii.ascii_of_N 95.
Definition sendCollaborationEvent (env : env) (messageType : string) (payload : fields) : transport → transport :=
  send env (frame (replace_char colon underscore messageType) (JObj (map_set "timestamp" (JNum (e_now env)) payload))).
Definition sendModelEvent (env : env) (input : json) : transport → transport := send env (frame "model_event" input).

(** ** Commits *)

Definition settle (call : nat) (o : outcome) : transport → transport := log_effect (Settled call o).

(** [sendCommit] and, with [returnReceipt], [sendCommitReceipt]. *)
Definition sendCommit (returnReceipt : bool) (env : env) (operations : list frame_operation) (clientTxId : string) (timeoutMs : Z)
    (reads : optional (list json)) (s : transport) : transport :=
  let call := nextCall s in
  let s := log_effect (CommitAsked call clientTxId) (set_nextCall (S call) s) in
  match open_socket s with
  | None => settle call (Failed (notConnectedError s)) s
  | Some k =>
      let timeout := t_nextTimer s in
      let s := arm (CommitTimeout call clientTxId) timeoutMs s in
      let s := set_pendingMutations (map_set clientTxId (mkPending call timeout returnReceipt) (pendingMutations s)) s in
      if e_sends env then log_effect (Sent k (buildCommitFrame operations clientTxId reads)) s
      else settle call (Failed send_failure) (set_pendingMutations (map_delete clientTxId (pendingMutations s)) (clearTimeout timeout s))
  end.
Definition sendCommitQueued (env : env) (operations : list frame_operation) (clientTxId : string) (reads : optional (list json))
    : M transport () := λ s,
  match open_socket s with
  | None => (s, Throw (notConnectedError s))
  | Some k =>
      if e_sends env then (log_effect (Sent k (buildCommitFrame operations clientTxId reads)) s, Ok ()) else (s, Throw plain_error)
  end.
Definition commit_timed_out (call : nat) (clientTxId : string) (s : transport) : transport :=
  settle call (Failed (connection_error "commit_no_result")) (set_pendingMutations (map_delete clientTxId (pendingMutations s)) s).

(** ** Read interest *)

(** A promise settles: its caller is told, or the handshake goes on once the input is
    handled. *)
Definition settle_update (who : waiter) (r : result (list string)) (s : transport) : transport :=
  match who with
  | Call n => settle n (match r with Ok g => GotGroups g | Throw e => Failed e end) s
  | Handshake k => set_t_micro (t_micro s ++ [(k, r)]) s
  end.
Definition remove_entry (timeout : nat) (l : list PendingSubscription) : list PendingSubscription :=
  base.filter (λ e, ps_timeout e ≠ timeout) l.
Definition malformed_subscription : JsError := ablo_error AbloValidationError "malformed_subscription".

Definition updateSubscription (who : waiter) (env : env) (syncGroups : list string) (timeoutMs : Z) (s : transport) : transport :=
  match open_socket s with
  | None => settle_update who (Throw (notConnectedError s)) s
  | Some k =>
      let timeout := t_nextTimer s in
      let s := arm (SubscriptionTimeout who) timeoutMs s in
      if negb (updateSubscriptionPayloadSchema syncGroups) then settle_update who (Throw malformed_subscription) (clearTimeout timeout s)
      else
        let s := set_pendingSubscriptions (pendingSubscriptions s ++ [mkPendingSub who timeout]) s in
        if e_sends env then
          log_effect (UpdateAsked who k syncGroups)
            (log_effect (Sent k (frame "update_subscription" (JObj [("syncGroups", JArr (JStr <$> syncGroups))]))) s)
        else
          settle_update who (Throw send_failure)
            (set_pendingSubscriptions (remove_entry timeout (pendingSubscriptions s)) (clearTimeout timeout s))
  end.
Definition update_timed_out (who : waiter) (timeout : nat) (s : transport) : transport :=
  settle_update who (Throw (connection_error "wait_for_timeout"))
    (set_pendingSubscriptions (remove_entry timeout (pendingSubscriptions s)) s).

(** ** The handshake of a socket *)

Definition completePresenceHandshake (env : env) (s : transport) : transport :=
  match open_socket s with
  | Some k =>
      if presenceEstablished s then s
      else match initialSubscription s with
      | Some groups =>
          if initialSubscriptionInFlight s then s
          else updateSubscription (Handshake k) env groups ACK_TIMEOUT_MS (set_initialSubscriptionInFlight true s)
      | None =>
          let s := set_hasConnected true (set_reconnectAttempts 0 (set_presenceEstablished true s)) in
          heartbeat_start (foldl (λ s m, send env m s) (log_effect (EmittedConnected k) s) (e_onOpened env))
      end
  | None => s
  end.

(** What follows the first subscription of socket [p.1]. *)
Definition handshake_continues (env : env) (s : transport) (p : nat * result (list string)) : transport :=
  if bool_decide (ws s = Some p.1) then
    match p.2 with
    | Ok _ => completePresenceHandshake env (set_initialSubscriptionInFlight false (set_initialSubscription None s))
    | Throw _ => emit_error env (close_socket p.1 4000 "initial_subscription_failed" s)
    end
  else s.
Definition run_continuations (env : env) (s : transport) : transport :=
  foldl (handshake_continues env) (set_t_micro [] s) (t_micro s).

(** ** Connecting *)

Definition scheduleReconnect (env : env) (s : transport) : transport :=
  let s := clear_option (reconnectTimer s) s in
  let attempt := JNum (Z.of_nat (S (reconnectAttempts s))) in
  if sessionErrorDetected s then s
  else if negb (e_online env) then emit "reconnecting" [JObj [("attempt", attempt); ("delay", JNum 0)]] s
  else if (MAX_RECONNECT_ATTEMPTS <=? reconnectAttempts s)%nat
  then emit "reconnect_failed" [JObj [("attempts", JNum (Z.of_nat (reconnectAttempts s)))]] s
  else
    let delay := backoff (t_options s) (reconnectAttempts s) (e_random env) in
    let s := emit "reconnecting" [JObj [("attempt", attempt); ("delay", match delay with Some d => JNum d | None => JUndefined end)]] s in
    set_reconnectTimer (Some (t_nextTimer s)) (arm Reconnect (timer_delay delay) s).

Definition transport_busy (s : transport) : bool := in_state OPEN s || in_state CLOSING s || isConnecting s.
Definition transport_connect (env : env) (s : transport) : transport :=
  if connectHeld s then s
  else if sessionErrorDetected s then s
  else if transport_busy s then s
  else
    let o := t_options s in
    let s := set_isManualClose false (set_isConnecting true s) in
    let s := set_initialSubscriptionInFlight false
               (set_initialSubscription (if interest_by_frame (e_cursor env) o then Some (o_syncGroups o) else None) s) in
    let s := set_presenceEstablished false (set_everOpened false s) in
    if e_constructs env then
      let k := length (t_sockets s) in
      log_effect (Opened k o (connect_url (e_cursor env) o)
                    (connect_protocols (resolveAuthToken (e_getAuthToken env) (e_getCapabilityToken env) o) (e_presenceSession env)))
        (set_t_sockets (t_sockets s ++ [CONNECTING]) (set_ws (Some k) s))
    else scheduleReconnect env (emit_error env (set_isConnecting false s)).

Definition disconnect (s : transport) : transport :=
  let s := heartbeat_stop (set_isManualClose true s) in
  let s := match reconnectTimer s with Some id => set_reconnectTimer None (clearTimeout id s) | None => s end in
  match ws s with
  | Some k => close_socket k 1000 "Manual disconnect" (set_ws None s)
  | None => s
  end.

Definition allowConnect (s : transport) : transport := set_connectHeld false s.
Definition setSessionErrorDetected (env : env) (s : transport) : transport :=
  set_sessionErrorAt (Some (e_now env)) (set_sessionErrorDetected true s).
Definition clearSessionError (s : transport) : transport := set_sessionErrorAt None (set_sessionErrorDetected false s).
Definition resetReconnectAttempts (s : transport) : transport := set_reconnectAttempts 0 s.
Definition transport_isConnected (s : transport) : bool := presenceEstablished s && in_state OPEN s.

(** ** The events of a socket *)

Definition socket_open (env : env) (k : nat) (s : transport) : transport :=
  match ready_of k s with
  | Some CONNECTING =>
      let s := move_socket k OPEN s in
      if bool_decide (ws s = Some k)
      then set_lastOpenAt (Some (e_now env)) (set_everOpened true (set_isConnecting false s)) else s
  | _ => s
  end.
Definition socket_error (env : env) (k : nat) (s : transport) : transport :=
  if bool_decide (ws s = Some k) then emit_error env s else s.

Definition close_event (code : Z) (reason : string) : json := JObj [("code", JNum code); ("reason", JStr reason)].
(** [AbloSessionError.isSessionError] never holds of the text of a reason. *)
Definition isSessionClose (code : Z) (reason : string) : bool :=
  (code =? 1008) && negb (String.eqb reason "invalid_ack") || (code =? 4001) || (code =? 4003).
Definition reject_commits (s : transport) : transport :=
  let s := foldl (λ s p, settle (pm_call p.2) (Failed (connection_error "commit_no_result")) (clearTimeout (pm_timeout p.2) s)) s
             (pendingMutations s) in
  set_pendingMutations [] s.
Definition reject_updates (s : transport) : transport :=
  let s := foldl (λ s p, settle_update (ps_who p) (Throw (mkError AbloConnectionError None)) (clearTimeout (ps_timeout p) s)) s
             (pendingSubscriptions s) in
  set_pendingSubscriptions [] s.
(** Which of the endings of [onclose] a close takes. *)
Definition close_ending (env : env) (code : Z) (reason : string) (everOpened : bool) (s : transport) : transport :=
  let event := close_event code reason in
  if code =? WS_CLOSE_PROTOCOL_VERSION then emit "disconnected" [event] (emit "protocol_mismatch" [event] s)
  else if isSessionClose code reason then
    emit "disconnected" [event]
      (emit "session_error" [JStr (default "Session expired" (truthy_text (Some reason))); JNum code] (setSessionErrorDetected env s))
  else if negb everOpened && negb (hasConnected s) && negb (isManualClose s) then
    emit "disconnected" [event] (emit "handshake_failed" [event] s)
  else
    let s := emit "disconnected" [event] s in
    if isManualClose s then s else scheduleReconnect env s.
Definition on_close (env : env) (code : Z) (reason : string) (s : transport) : transport :=
  let opened := everOpened s in
  let s := set_lastCloseReason (truthy_text (Some reason)) (set_lastCloseCode (Some code) (set_lastCloseAt (Some (e_now env)) s)) in
  let s := set_t_lines [] (set_ws None (set_isConnecting false s)) in
  let s := heartbeat_stop (log_effect ClosedHook s) in
  close_ending env code reason opened (reject_updates (reject_commits s)).
Definition socket_close (env : env) (k : nat) (code : Z) (reason : string) (s : transport) : transport :=
  match ready_of k s with
  | None | Some CLOSED => s
  | Some _ =>
      let s := move_socket k CLOSED s in
      if match ws s with Some k' => bool_decide (k' = k) | None => true end then on_close env code reason s else s
  end.

(** ** Inbound frames *)

(** What the materialisation hooks emit for a payload: the defaults of the transport, or
    the overrides of a subclass. *)
Record frame_hooks := mkHooks {
  hk_delta : json → list (string * list json);
  hk_sync_response : json → list (string * list json);
  hk_catchup_begin : json → list (string * list json);
  hk_catchup_chunk : json → list (string * list json);
  hk_catchup_end : json → list (string * list json);
  hk_bootstrap_response : json → list (string * list json);
}.
Definition field (k : string) (v : json) : json := match v with JObj f => default JUndefined (map_get k f) | _ => JUndefined end.
Definition items (v : json) : list json := match v with JArr l => l | _ => [] end.
Definition handleCatchUpChunk (handleDelta : json → list (string * list json)) (payload : json) : list (string * list json) :=
  match payload with
  | JObj _ | JArr _ | JDate _ => concat (handleDelta <$> items (field "deltas" payload)) ++ [("catchup_chunk", [payload])]
  | _ => []
  end.
Definition emit_delta (d : json) : list (string * list json) := [("delta", [d])].
Definition transport_hooks : frame_hooks :=
  mkHooks emit_delta (λ _, []) (λ p, [("catchup_begin", [p])]) (handleCatchUpChunk emit_delta) (λ p, [("catchup_end", [p])]) (λ _, []).
Definition emit_all (l : list (string * list json)) (s : transport) : transport := foldl (λ s p, emit p.1 p.2 s) s l.

(** The frames of the registry [wire/inboundFrames.ts], by how they are checked. *)
Definition schema_frames : list string :=
  ["presence_snapshot"; "presence_patch"; "presence_session"; "model_event"; "claim_rejected"; "claim_acquired"; "claim_abandon_ack";
   "claim_queued"; "claim_granted"; "claim_lost"; "claim_queue"; "claim_queue_patch"; "claim_heartbeat_ack"].
Definition handler_frames : list string :=
  ["ping"; "pong"; "delta"; "sync_response"; "catchup_begin"; "catchup_chunk"; "catchup_end"; "bootstrap_response"; "mutation_result";
   "subscription_ack"].
Definition isKnownInboundFrame (t : string) : bool := existsb (String.eqb t) (schema_frames ++ handler_frames).
Definition isSchemaValidatedFrame (t : string) : bool := existsb (String.eqb t) schema_frames.

(** A queue frame as its schema reads it. *)
Definition text_field (k : string) (v : json) : string := default "" (text_of (field k v)).
Definition number_of (v : json) : option Z := match v with JNum n => Some n | _ => None end.
Definition number_field (k : string) (v : json) : Z := default 0 (number_of (field k v)).
Definition read_target (v : json) : string * string := (text_field "type" (field "target" v), text_field "id" (field "target" v)).
Definition read_entry (v : json) : string * json := (text_field "id" v, v).
Definition read_snapshot (v : json) : queue_snapshot :=
  mkQueueSnapshot (read_target v) (read_entry <$> items (field "queue" v)) (number_of (field "revision" v)).
Definition read_change (v : json) : queue_change :=
  let kind := text_field "kind" v in
  if String.eqb kind "append" then let e := read_entry (field "entry" v) in AppendEntry e.1 e.2
  else if String.eqb kind "append_many" then AppendMany (read_entry <$> items (field "entries" v))
  else if String.eqb kind "remove" then RemoveEntry (text_field "id" v)
  else RemoveMany ((λ i, default "" (text_of i)) <$> items (field "ids" v)).
Definition read_patch (v : json) : queue_patch :=
  mkQueuePatch (read_target v) (number_field "baseRevision" v) (number_field "revision" v) (read_change (field "change" v)).
(** The whole line, positions counted from zero. *)
Definition with_position (i : nat) (p : string * json) : json :=
  match p.2 with JObj f => JObj (map_set "position" (JNum (Z.of_nat i)) f) | v => v end.
Definition queue_event (target : string * string) (l : claim_line) : json :=
  JObj [("target", JObj [("type", JStr target.1); ("id", JStr target.2)]); ("queue", JArr (imap with_position (cl_queue l)));
        ("revision", JNum (cl_revision l))].

Definition on_queue_snapshot (payload : json) (s : transport) : transport :=
  emit "claim_queue" [payload] (emit "claim_queue_snapshot" [payload] (set_t_lines (take_snapshot (read_snapshot payload) (t_lines s)) s)).
Definition on_queue_patch (env : env) (payload : json) (s : transport) : transport :=
  let p := read_patch payload in
  let s := emit "claim_queue_patch" [payload] s in
  match take_patch p (t_lines s) with
  | None => forceClose "claim_queue_revision_gap" s
  | Some lines =>
      let s := set_t_lines lines s in
      match map_get (qp_target p) lines with
      | Some l => if e_queueListeners env then emit "claim_queue" [queue_event (qp_target p) l] s else s
      | None => s
      end
  end.

Definition malformed_response : JsError := connection_error "malformed_response".

(** [p = message.payload ?? message], as the fields read off it. *)
Definition nullish (v : json) : bool := match v with JUndefined | JNull => true | _ => false end.
Definition result_fields (message : fields) : fields :=
  let payload := default JUndefined (map_get "payload" message) in
  if nullish payload then message else match payload with JObj f => f | _ => [] end.
Definition coordination_code (code : option string) : bool :=
  match code with
  | Some c => String.eqb c "stale_context" || String.eqb c "claim_conflict" || String.eqb c "entity_claimed"
  | None => false
  end.
Definition rejection_code (error : json) : option string := text_of (field "code" error).
(** The rows of a collision are read for the report; a row that is [null] cannot be. *)
Definition report_throws (error : json) : bool :=
  coordination_code (rejection_code error) && existsb nullish (items (field "conflicts" error)).
Definition wire_error (code : option string) : JsError := let e := errorFromWire code None None in mkError (e_class e) (e_code e).

Section Dispatch.
Context (frame_schema : string → json → option json).
Context (receipt_shape : fields → option CommitReceipt).
Context (envelope : fields → option (json * json)).
Context (hooks : frame_hooks).

Definition handleMutationResult (message : fields) : M transport () := λ s,
  let p := result_fields message in
  match (tx ← map_get "clientTxId" p ≫= text_of; pending ← map_get tx (pendingMutations s); Some (tx, pending)) with
  | None => (s, Ok ())
  | Some (tx, pending) =>
      let s := set_pendingMutations (map_delete tx (pendingMutations s)) (clearTimeout (pm_timeout pending) s) in
      let finish o := (settle (pm_call pending) o s, Ok ()) in
      if truthy (default JUndefined (map_get "success" p)) then
        match with_missingIds (wire_missingIds (map_get "missingIds" p)) <$> receipt_shape p with
        | Some receipt =>
            if negb (commitReceiptSchema receipt) then finish (Failed (connection_error "commit_no_result"))
            else if pm_returnReceipt pending then finish (GotReceipt receipt)
            else if commitAckSchema (ack_of receipt) then finish (GotAck (ack_of receipt))
            else (s, Throw zod_error)
        | None => finish (Failed (connection_error "commit_no_result"))
        end
      else
        let error := default JUndefined (map_get "error" p) in
        if report_throws error then (s, Throw plain_error) else finish (Failed (wire_error (rejection_code error)))
  end.

Definition handleSubscriptionAck (k : nat) (message : fields) (s : transport) : transport :=
  match pendingSubscriptions s with
  | [] => s
  | pending :: rest =>
      let ack := subscriptionAckPayloadSchema (default JUndefined (map_get "payload" message)) in
      let ok := match ack with Some ack => sa_success ack | None => false end in
      let s := log_effect (Acked (ps_who pending) k ok) (clearTimeout (ps_timeout pending) (set_pendingSubscriptions rest s)) in
      match ack with
      | None => settle_update (ps_who pending) (Throw (wire_error (Some "malformed_subscription"))) s
      | Some ack =>
          if sa_success ack
          then settle_update (ps_who pending) (Ok (sa_syncGroups ack)) (set_t_options (with_groups (sa_syncGroups ack) (t_options s)) s)
          else settle_update (ps_who pending) (Throw (wire_error (Some (default "malformed_subscription" (sa_error ack))))) s
      end
  end.

Definition handleDeltaFrame (payload : json) (s : transport) : transport :=
  match payload with
  | JObj f =>
      if truthy (field "actionType" payload) || truthy (field "modelName" payload) then emit_all (hk_delta hooks payload) s
      else emit_all (concat (hk_delta hooks <$> items (field "deltas" payload))) s
  | _ => s
  end.

Definition handle_schema_frame (env : env) (t : string) (payload : json) (s : transport) : transport :=
  if String.eqb t "presence_session" then completePresenceHandshake env (emit "presence_session" [payload] s)
  else if String.eqb t "claim_queue" then on_queue_snapshot payload s
  else if String.eqb t "claim_queue_patch" then on_queue_patch env payload s
  else emit t [payload] s.

Definition handle_plain_frame (k : nat) (t : string) (message : fields) : M transport () := λ s,
  let payload := default JUndefined (map_get "payload" message) in
  if String.eqb t "mutation_result" then handleMutationResult message s
  else if String.eqb t "subscription_ack" then (handleSubscriptionAck k message s, Ok ())
  else if String.eqb t "delta" then (handleDeltaFrame payload s, Ok ())
  else if String.eqb t "sync_response" then (emit_all (hk_sync_response hooks payload) s, Ok ())
  else if String.eqb t "catchup_begin" then (emit_all (hk_catchup_begin hooks payload) s, Ok ())
  else if String.eqb t "catchup_chunk" then (emit_all (hk_catchup_chunk hooks payload) s, Ok ())
  else if String.eqb t "catchup_end" then (emit_all (hk_catchup_end hooks payload) s, Ok ())
  else (emit_all (hk_bootstrap_response hooks payload) s, Ok ()).

Definition handle_collaboration (t : string) (message : fields) : M transport () := λ s,
  let eventKey := replace_char underscore colon t in
  if existsb (String.eqb eventKey) (o_collaboration (t_options s)) then
    (match envelope message with
     | Some (payload, context) => emit eventKey [payload; context] s
     | None => emit eventKey [default JUndefined (map_get "payload" message)] s
     end, Ok ())
  else (s, Throw malformed_response).

(** [dispatchWsFrame] on an envelope that arrived on socket [k]. *)
Definition dispatchWsFrame (env : env) (k : nat) (message : fields) : M transport () := λ s,
  match map_get "type" message ≫= text_of with
  | None =>
      if truthy (field "actionType" (JObj message)) || truthy (field "modelName" (JObj message))
      then (emit_all (hk_delta hooks (JObj message)) s, Ok ()) else (s, Ok ())
  | Some t =>
      if String.eqb t "pong" || String.eqb t "ping" then (s, Ok ())
      else if isKnownInboundFrame t then
        if isSchemaValidatedFrame t then
          let payload := default JUndefined (map_get "payload" message) in
          match frame_schema t (if nullish payload then JObj [] else payload) with
          | Some payload => (handle_schema_frame env t payload s, Ok ())
          | None => (s, Throw malformed_response)
          end
        else handle_plain_frame k t message s
      else handle_collaboration t message s
  end.

(** [readWsInboundFrame]: an object whose type, if any, is text. *)
Definition readWsInboundFrame (v : json) : option fields :=
  match v with
  | JObj f => match map_get "type" f with None | Some JUndefined | Some (JStr _) => Some f | _ => None end
  | _ => None
  end.

(** [onmessage]; [None] is text that is no JSON. What a handler throws is reported. *)
Definition socket_message (env : env) (k : nat) (data : option json) (s : transport) : transport :=
  if in_state OPEN s && bool_decide (ws s = Some k) then
    match data with
    | None => s
    | Some message =>
        let s := clearHeartbeatTimeout (log_effect (Received k message) s) in
        match readWsInboundFrame message with Some f => (dispatchWsFrame env k f s).1 | None => s end
    end
  else s.

(** ** The machine *)

Definition fire_timer (env : env) (id : nat) (s : transport) : transport :=
  match fst <$> t_timers s !! id with
  | None => s
  | Some (CommitTimeout call tx) => commit_timed_out call tx (clearTimeout id s)
  | Some (SubscriptionTimeout who) => update_timed_out who id (clearTimeout id s)
  | Some Reconnect => transport_connect env (set_reconnectAttempts (S (reconnectAttempts s)) (clearTimeout id s))
  | Some PingInterval => heartbeat_tick env s
  | Some PongTimeout => forceClose "heartbeat-timeout" (clearTimeout id s)
  end.

Inductive ws_input :=
  | DoConnect
  | DoDisconnect
  | DoAllowConnect
  | DoSetSessionError
  | DoClearSessionError
  | DoResetAttempts
  | DoSend (message : json)
  | DoCommit (returnReceipt : bool) (operations : list frame_operation) (clientTxId : string) (timeoutMs : Z) (reads : optional (list json))
  | DoCommitQueued (operations : list frame_operation) (clientTxId : string) (reads : optional (list json))
  | DoUpdate (syncGroups : list string) (timeoutMs : Z)
  | DoRequestSync (cursor : option string) (lastSyncId : Z)
  | DoAcknowledge (lastSyncId : Z)
  | DoPresence (command : json)
  | DoCollaboration (messageType : string) (payload : fields)
  | DoModelEvent (input : json)
  | DoSetToken (token : string)
  | DoSetKind (kind : string)
  | DoSetGroups (syncGroups : list string)
  | DoSetPartition (p : option (Z * Z))
  | SocketOpened (k : nat)
  | SocketMessage (k : nat) (data : option json)
  | SocketErrored (k : nat)
  | SocketClosed (k : nat) (code : Z) (reason : string)
  | TimerFired (id : nat).

Definition on_options (f : ws_options → ws_options) (s : transport) : transport := set_t_options (f (t_options s)) s.
Definition ask_update (env : env) (syncGroups : list string) (timeoutMs : Z) (s : transport) : transport :=
  updateSubscription (Call (nextCall s)) env syncGroups timeoutMs (set_nextCall (S (nextCall s)) s).

Definition handle_input (env : env) (i : ws_input) (s : transport) : transport :=
  match i with
  | DoConnect => transport_connect env s
  | DoDisconnect => disconnect s
  | DoAllowConnect => allowConnect s
  | DoSetSessionError => setSessionErrorDetected env s
  | DoClearSessionError => clearSessionError s
  | DoResetAttempts => resetReconnectAttempts s
  | DoSend m => send env m s
  | DoCommit receipt ops tx timeout reads => sendCommit receipt env ops tx timeout reads s
  | DoCommitQueued ops tx reads => (sendCommitQueued env ops tx reads s).1
  | DoUpdate groups timeout => ask_update env groups timeout s
  | DoRequestSync cursor pos => (requestSync env cursor pos s).1
  | DoAcknowledge pos => (transport_acknowledge env pos s).1
  | DoPresence c => (sendPresenceCommand env c s).1
  | DoCollaboration t p => sendCollaborationEvent env t p s
  | DoModelEvent m => sendModelEvent env m s
  | DoSetToken t => on_options (with_token t) s
  | DoSetKind k => on_options (with_kind k) s
  | DoSetGroups g => on_options (with_groups g) s
  | DoSetPartition p => on_options (with_partition p) s
  | SocketOpened k => socket_open env k s
  | SocketMessage k d => socket_message env k d s
  | SocketErrored k => socket_error env k s
  | SocketClosed k code reason => socket_close env k code reason s
  | TimerFired id => fire_timer env id s
  end.
Definition ws_step (s : transport) (p : env * ws_input) : transport := run_continuations p.1 (handle_input p.1 p.2 s).

Definition new_transport (deferConnect : bool) (o : ws_options) : transport :=
  mkTransport (mkConnection None false false deferConnect false false false false 0 None) (mkRequests [] [] None false 0)
    (mkDiagnostics None None None None None None) o [] None None [] ∅ 0 [] [].
Definition ws_run (s : transport) (l : list (env * ws_input)) : transport := foldl ws_step s l.
End Dispatch.
