(* ===== verification/WsTransportFacts.v ===== *)
(** * The requests of the WebSocket transport

    Every call that waits for an answer has its timer or its outcome. The part of the state
    that says so is the core; what does not touch it keeps the invariant as it is. *)
From stdpp Require Import gmap strings.
From S2P Require Import Prelude JsData Json DeltaStore SourceModel WsFrames WsTransport.
#[local] Open Scope Z_scope.

(** ** The core *)

Definition settlements (l : list effect) : list nat := omap (λ e, match e with Settled n _ => Some n | _ => None end) l.
Record core := mkCore {
  c_timers : gmap nat (timer * Z);
  c_next : nat;
  c_commits : list (string * PendingCommit);
  c_updates : list PendingSubscription;
  c_calls : nat;
  c_ping : option nat;
  c_pong : option nat;
  c_reconnect : option nat;
  c_settled : list nat;
}.
Definition core_of (s : transport) : core :=
  mkCore (t_timers s) (t_nextTimer s) (pendingMutations s) (pendingSubscriptions s) (nextCall s) (t_heartbeatTimer s)
    (t_heartbeatTimeout s) (reconnectTimer s) (settlements (t_log s)).

Definition kind_at (m : gmap nat (timer * Z)) (id : nat) : option timer := fst <$> m !! id.
(** The timer [id] gives up call [n]. *)
Definition waits (m : gmap nat (timer * Z)) (id n : nat) : Prop :=
  (∃ tx, kind_at m id = Some (CommitTimeout n tx)) ∨ kind_at m id = Some (SubscriptionTimeout (Call n)).
(** A timer of a kind of its own is the one its field names. *)
Definition owned (m : gmap nat (timer * Z)) (next : nat) (f : option nat) (t : timer) : Prop :=
  (∀ id, f = Some id → (id < next)%nat ∧ (kind_at m id = None ∨ kind_at m id = Some t))
  ∧ (∀ id, kind_at m id = Some t → f = Some id).

Record core_ok (c : core) : Prop := {
  ok_keys : NoDup (c_commits c).*1;
  ok_fresh : ∀ id, is_Some (kind_at (c_timers c) id) → (id < c_next c)%nat;
  ok_commits : ∀ tx p, (tx, p) ∈ c_commits c → kind_at (c_timers c) (pm_timeout p) = Some (CommitTimeout (pm_call p) tx);
  ok_updates : ∀ e, e ∈ c_updates c → kind_at (c_timers c) (ps_timeout e) = Some (SubscriptionTimeout (ps_who e));
  ok_entries : NoDup (ps_timeout <$> c_updates c);
  ok_one : ∀ id id' n, waits (c_timers c) id n → waits (c_timers c) id' n → id = id';
  ok_called : ∀ id n, waits (c_timers c) id n → (n < c_calls c)%nat ∧ n ∉ c_settled c;
  ok_settled : ∀ n, n ∈ c_settled c → (n < c_calls c)%nat;
  ok_nodup : NoDup (c_settled c);
  ok_live : ∀ n, (n < c_calls c)%nat → n ∈ c_settled c ∨ ∃ id, waits (c_timers c) id n;
  ok_ping : owned (c_timers c) (c_next c) (c_ping c) PingInterval;
  ok_pong : owned (c_timers c) (c_next c) (c_pong c) PongTimeout;
  ok_reconnect : owned (c_timers c) (c_next c) (c_reconnect c) Reconnect;
}.

(** ** Moves of the core *)

Definition with_timers (m : gmap nat (timer * Z)) (c : core) : core :=
  mkCore m (c_next c) (c_commits c) (c_updates c) (c_calls c) (c_ping c) (c_pong c) (c_reconnect c) (c_settled c).
Definition without_timer (id : nat) (c : core) : core := with_timers (delete id (c_timers c)) c.

Lemma kind_insert m id t d j : kind_at (<[id := (t, d)]> m) j = if decide (j = id) then Some t else kind_at m j.
Proof. unfold kind_at. case_decide; subst; by simplify_map_eq. Qed.
Lemma kind_delete m id j : kind_at (delete id m) j = if decide (j = id) then None else kind_at m j.
Proof. unfold kind_at. case_decide; subst; by simplify_map_eq. Qed.

Definition request (t : timer) : bool := match t with CommitTimeout _ _ | SubscriptionTimeout _ => true | _ => false end.
Lemma waits_request m id n : waits m id n → ∃ t, kind_at m id = Some t ∧ request t = true.
Proof. intros [[tx H]|H]; rewrite H; eauto. Qed.
Lemma waits_insert m id t d j n :
  waits (<[id := (t, d)]> m) j n
  ↔ if decide (j = id) then (∃ tx, t = CommitTimeout n tx) ∨ t = SubscriptionTimeout (Call n) else waits m j n.
Proof. unfold waits. rewrite kind_insert. case_decide; naive_solver. Qed.
Lemma waits_delete m id j n : waits (delete id m) j n ↔ j ≠ id ∧ waits m j n.
Proof. unfold waits. rewrite kind_delete. case_decide; naive_solver. Qed.
Lemma waits_none m n id t : kind_at m id = Some t → request t = false → ¬ waits m id n.
Proof. intros H Hr Hw. destruct (waits_request _ _ _ Hw) as (t' & Ht & ?). congruence. Qed.

Lemma owned_delete m next f t id : owned m next f t → owned (delete id m) next f t.
Proof.
  intros [H1 H2]. split.
  - intros j Hj. destruct (H1 j Hj) as [? Hk]. split; [done|]. rewrite kind_delete. case_decide; naive_solver.
  - intros j. rewrite kind_delete. case_decide; naive_solver.
Qed.
Lemma owned_none m next f t :
  owned m next f t → owned (match f with Some id => delete id m | None => m end) next None t.
Proof.
  intros [_ H2]. split; [done|]. intros j Hj. destruct f as [id|]; [|by apply H2].
  rewrite kind_delete in Hj. case_decide; [done|]. apply H2 in Hj. congruence.
Qed.
Lemma owned_arm m next f t t' d : t ≠ t' → owned m next f t → owned (<[next := (t', d)]> m) (S next) f t.
Proof.
  intros Hne [H1 H2]. split.
  - intros j Hj. destruct (H1 j Hj) as [? Hk]. split; [lia|]. rewrite kind_insert. case_decide; [lia|done].
  - intros j. rewrite kind_insert. case_decide; [naive_solver|apply H2].
Qed.
Lemma owned_own m next t d :
  (∀ id, kind_at m id ≠ Some t) → owned (<[next := (t, d)]> m) (S next) (Some next) t.
Proof.
  intros Hno. split.
  - intros j [= <-]. split; [lia|]. rewrite kind_insert, decide_True by done. by right.
  - intros j. rewrite kind_insert. case_decide; [naive_solver|by intros ?%Hno].
Qed.
Lemma owned_more m next next' f t : (next ≤ next')%nat → owned m next f t → owned m next' f t.
Proof. intros Hle [H1 H2]. split; [|done]. intros j Hj. destruct (H1 j Hj). split; [lia|done]. Qed.

(** A timer of no request may go. *)
Lemma ok_quiet_delete c id :
  core_ok c → (∀ t, kind_at (c_timers c) id = Some t → request t = false) → core_ok (without_timer id c).
Proof.
  intros H Hq. assert (Hk : ∀ j t, kind_at (c_timers c) j = Some t → request t = true → kind_at (delete id (c_timers c)) j = Some t).
  { intros j t Hj Ht. rewrite kind_delete. case_decide; [|done]. subst. apply Hq in Hj. congruence. }
  destruct H. constructor; cbn; try done; eauto using owned_delete.
  - intros j. rewrite kind_delete. case_decide; [by intros []|apply ok_fresh0].
  - intros j j' n [? ?]%waits_delete [? ?]%waits_delete. eauto.
  - intros j n [? ?]%waits_delete. eauto.
  - intros n Hn. destruct (ok_live0 n Hn) as [|[j Hj]]; [by left|]. right. exists j. apply waits_delete. split; [|done].
    intros ->. destruct (waits_request _ _ _ Hj) as (t & Ht & ?). apply Hq in Ht. congruence.
Qed.

(** A fresh timer of no request. *)
Lemma ok_arm_parts c t d : core_ok c → request t = false → let m := <[c_next c := (t, d)]> (c_timers c) in
  (∀ id, is_Some (kind_at m id) → (id < S (c_next c))%nat)
  ∧ (∀ tx p, (tx, p) ∈ c_commits c → kind_at m (pm_timeout p) = Some (CommitTimeout (pm_call p) tx))
  ∧ (∀ e, e ∈ c_updates c → kind_at m (ps_timeout e) = Some (SubscriptionTimeout (ps_who e)))
  ∧ (∀ id n, waits m id n ↔ waits (c_timers c) id n).
Proof.
  intros [] Ht m. assert (Hn : kind_at (c_timers c) (c_next c) = None).
  { destruct (kind_at _ _) eqn:E; [|done]. assert (c_next c < c_next c)%nat; [eauto|lia]. }
  assert (Hk : ∀ j t, kind_at (c_timers c) j = Some t → kind_at m j = Some t).
  { intros j t' Hj. unfold m. rewrite kind_insert. case_decide; [congruence|done]. }
  split_and!; [..|intros id n]; eauto.
  - intros id. unfold m. rewrite kind_insert. case_decide; [lia|]. intros ?%ok_fresh0. lia.
  - unfold m. rewrite waits_insert. case_decide; [|done]. subst. split; [|intros (t' & E & _)%waits_request; congruence].
    intros [[tx ->]| ->]; done.
Qed.

Definition set_ping (f : option nat) (c : core) : core :=
  mkCore (c_timers c) (c_next c) (c_commits c) (c_updates c) (c_calls c) f (c_pong c) (c_reconnect c) (c_settled c).
Definition set_pong (f : option nat) (c : core) : core :=
  mkCore (c_timers c) (c_next c) (c_commits c) (c_updates c) (c_calls c) (c_ping c) f (c_reconnect c) (c_settled c).
Definition set_rc (f : option nat) (c : core) : core :=
  mkCore (c_timers c) (c_next c) (c_commits c) (c_updates c) (c_calls c) (c_ping c) (c_pong c) f (c_settled c).
Definition armed (t : timer) (d : Z) (c : core) : core :=
  mkCore (<[c_next c := (t, d)]> (c_timers c)) (S (c_next c)) (c_commits c) (c_updates c) (c_calls c) (c_ping c) (c_pong c)
    (c_reconnect c) (c_settled c).
Definition clear_timer (f : option nat) (c : core) : core := match f with Some id => without_timer id c | None => c end.

Lemma ok_clear c f t : core_ok c → request t = false → owned (c_timers c) (c_next c) f t → core_ok (clear_timer f c).
Proof.
  intros H Ht [H1 _]. destruct f as [id|]; [|done]. apply ok_quiet_delete; [done|]. intros t' E.
  destruct (H1 id eq_refl) as [_ [?|?]]; congruence.
Qed.
Lemma cleared_none c f t : owned (c_timers c) (c_next c) f t → ∀ id, kind_at (c_timers (clear_timer f c)) id ≠ Some t.
Proof. intros H%owned_none id E. destruct H as [_ H]. destruct f; apply H in E; done. Qed.

Ltac rearm H c t d :=
  destruct (ok_arm_parts c t d H eq_refl) as (Hf & Hc & Hu & Hw); destruct H; constructor; cbn in *;
  try done; try (by apply owned_arm); try (by apply owned_own);
  [intros ??? ?%Hw ?%Hw; eauto|intros ?? ?%Hw; eauto|
   intros n Hn; match goal with L : ∀ n, _ → n ∈ _ ∨ _ |- _ => destruct (L n Hn) as [?|[]] end; [by left|right; eexists; apply Hw; eassumption]].
Lemma ok_arm_ping c d : core_ok c → (∀ id, kind_at (c_timers c) id ≠ Some PingInterval) →
  core_ok (set_ping (Some (c_next c)) (armed PingInterval d c)).
Proof. intros H Hno. rearm H c PingInterval d. Qed.
Lemma ok_arm_pong c d : core_ok c → (∀ id, kind_at (c_timers c) id ≠ Some PongTimeout) →
  core_ok (set_pong (Some (c_next c)) (armed PongTimeout d c)).
Proof. intros H Hno. rearm H c PongTimeout d. Qed.
Lemma ok_arm_reconnect c d : core_ok c → (∀ id, kind_at (c_timers c) id ≠ Some Reconnect) →
  core_ok (set_rc (Some (c_next c)) (armed Reconnect d c)).
Proof. intros H Hno. rearm H c Reconnect d. Qed.

Lemma ok_no_ping c : core_ok c → (∀ id, kind_at (c_timers c) id ≠ Some PingInterval) → core_ok (set_ping None c).
Proof. intros [] Hno. constructor; cbn in *; try done. split; [done|]. by intros id ?%Hno. Qed.
Lemma ok_no_pong c : core_ok c → (∀ id, kind_at (c_timers c) id ≠ Some PongTimeout) → core_ok (set_pong None c).
Proof. intros [] Hno. constructor; cbn in *; try done. split; [done|]. by intros id ?%Hno. Qed.
Lemma ok_no_reconnect c : core_ok c → (∀ id, kind_at (c_timers c) id ≠ Some Reconnect) → core_ok (set_rc None c).
Proof. intros [] Hno. constructor; cbn in *; try done. split; [done|]. by intros id ?%Hno. Qed.

(** ** Requests: asking and being told *)

(** The call a timer of a request gives up. *)
Definition released (t : timer) : list nat :=
  match t with CommitTimeout n _ | SubscriptionTimeout (Call n) => [n] | _ => [] end.
Lemma waits_released m id n t : kind_at m id = Some t → waits m id n ↔ n ∈ released t.
Proof. unfold waits. intros ->. destruct t as [| [|] | | |]; cbn; rewrite ?list_elem_of_singleton, ?elem_of_nil; naive_solver. Qed.

(** A request leaves with its timer, and its caller is told. *)
Definition release (id : nat) (t : timer) (commits : list (string * PendingCommit)) (updates : list PendingSubscription) (c : core) : core :=
  mkCore (delete id (c_timers c)) (c_next c) commits updates (c_calls c) (c_ping c) (c_pong c) (c_reconnect c) (c_settled c ++ released t).
Definition commits_without (id : nat) (l' l : list (string * PendingCommit)) : Prop :=
  NoDup l'.*1 ∧ ∀ x, x ∈ l' → x ∈ l ∧ pm_timeout x.2 ≠ id.
Definition updates_without (id : nat) (l' l : list PendingSubscription) : Prop :=
  NoDup (ps_timeout <$> l') ∧ ∀ e, e ∈ l' → e ∈ l ∧ ps_timeout e ≠ id.

Lemma ok_release_timer c id t commits updates :
  core_ok c → kind_at (c_timers c) id = Some t → request t = true →
  commits_without id commits (c_commits c) → updates_without id updates (c_updates c) → core_ok (release id t commits updates c).
Proof.
  intros H Ht Hr [Hck Hc] [Huk Hu].
  assert (Hrel : ∀ n, n ∈ released t ↔ waits (c_timers c) id n) by (intros n; by rewrite (waits_released _ _ _ _ Ht)).
  destruct H. constructor; cbn; try done; eauto using owned_delete.
  - intros j. rewrite kind_delete. case_decide; [by intros []|apply ok_fresh0].
  - intros tx p [Hp Hne]%Hc. rewrite kind_delete, decide_False by done. by apply ok_commits0.
  - intros e [He Hne]%Hu. rewrite kind_delete, decide_False by done. by apply ok_updates0.
  - intros j j' n [? ?]%waits_delete [? ?]%waits_delete. eauto.
  - intros j n [Hne Hw]%waits_delete. destruct (ok_called0 _ _ Hw). split; [done|]. rewrite elem_of_app, Hrel. naive_solver.
  - intros n [?|?%Hrel]%elem_of_app; [eauto|]. by eapply ok_called0.
  - apply NoDup_app. split_and!; [done|by intros n ? [_ []]%Hrel%ok_called0|]. destruct t as [|[]| | |]; cbn; repeat constructor; set_solver.
  - intros n Hn. rewrite elem_of_app, Hrel. destruct (ok_live0 n Hn) as [|[j Hj]]; [by auto|].
    destruct (decide (j = id)) as [->|]; [by auto|]. right. exists j. by apply waits_delete.
Qed.

Lemma fresh_kind c : core_ok c → kind_at (c_timers c) (c_next c) = None.
Proof. intros []. destruct (kind_at _ _) eqn:E; [|done]. assert (c_next c < c_next c)%nat; [eauto|lia]. Qed.

(** A call that is answered at once. *)
Lemma ok_refuse c next :
  core_ok c → (c_next c ≤ next)%nat →
  core_ok (mkCore (c_timers c) next (c_commits c) (c_updates c) (S (c_calls c)) (c_ping c) (c_pong c) (c_reconnect c) (c_settled c ++ [c_calls c])).
Proof.
  intros [] Hle. constructor; cbn; try done; eauto using owned_more.
  - intros id ?%ok_fresh0. lia.
  - intros id n Hw. destruct (ok_called0 _ _ Hw). split; [lia|]. rewrite elem_of_app, list_elem_of_singleton. intros [?|?]; [done|lia].
  - intros n [?%ok_settled0|?%list_elem_of_singleton]%elem_of_app; lia.
  - apply NoDup_app. split_and!; [done| |repeat constructor; set_solver].
    intros n ?%ok_settled0 ?%list_elem_of_singleton. lia.
  - intros n Hn. rewrite elem_of_app, list_elem_of_singleton. destruct (decide (n = c_calls c)) as [->|]; [by auto|].
    destruct (ok_live0 n) as [|]; [lia|by auto|by auto].
Qed.
Lemma ok_next c next :
  core_ok c → (c_next c ≤ next)%nat →
  core_ok (mkCore (c_timers c) next (c_commits c) (c_updates c) (c_calls c) (c_ping c) (c_pong c) (c_reconnect c) (c_settled c)).
Proof. intros [] Hle. constructor; cbn; try done; eauto using owned_more. intros id ?%ok_fresh0. lia. Qed.

(** A request that waits: its timer is fresh, and no other waits for its call. *)
Definition calls_with (t : timer) (c : core) : nat := match released t with [] => c_calls c | _ => S (c_calls c) end.
Definition asked (t : timer) (d : Z) (commits : list (string * PendingCommit)) (updates : list PendingSubscription) (c : core) : core :=
  mkCore (<[c_next c := (t, d)]> (c_timers c)) (S (c_next c)) commits updates (calls_with t c) (c_ping c) (c_pong c) (c_reconnect c) (c_settled c).
Lemma ok_asked c t d commits updates :
  core_ok c → request t = true → (∀ n, n ∈ released t → n = c_calls c) →
  NoDup commits.*1 → (∀ tx p, (tx, p) ∈ commits → (tx, p) ∈ c_commits c ∨ pm_timeout p = c_next c ∧ t = CommitTimeout (pm_call p) tx) →
  NoDup (ps_timeout <$> updates) → (∀ e, e ∈ updates → e ∈ c_updates c ∨ ps_timeout e = c_next c ∧ t = SubscriptionTimeout (ps_who e)) →
  core_ok (asked t d commits updates c).
Proof.
  intros H Hr Hcall Hck Hc Huk Hu. pose proof (fresh_kind _ H) as Hfr.
  assert (Hw : ∀ id n, waits (asked t d commits updates c).(c_timers) id n ↔ if decide (id = c_next c) then n ∈ released t else waits (c_timers c) id n).
  { intros id n. cbn. unfold waits at 1. rewrite kind_insert. case_decide; [|done]. subst.
    rewrite <- (waits_released (<[c_next c := (t, d)]> (c_timers c)) (c_next c) n t); [|by rewrite kind_insert, decide_True].
    unfold waits. by rewrite kind_insert, decide_True by done. }
  assert (Hle : (c_calls c ≤ calls_with t c)%nat) by (unfold calls_with; case_match; lia).
  assert (Hnot : ∀ n, n ∈ released t → n ∉ c_settled c) by (intros n ->%Hcall ?%(ok_settled _ H); lia).
  assert (Hkeep : ∀ id t', kind_at (c_timers c) id = Some t' → kind_at (asked t d commits updates c).(c_timers) id = Some t').
  { intros id t' E. cbn. rewrite kind_insert. case_decide; [congruence|done]. }
  destruct H. constructor; try done.
  - intros id. cbn. rewrite kind_insert. case_decide; [lia|]. intros ?%ok_fresh0. lia.
  - intros tx p [?|[Hp ->]]%Hc; [by apply Hkeep, ok_commits0|]. cbn. by rewrite Hp, kind_insert, decide_True by done.
  - intros e [?|[He ->]]%Hu; [by apply Hkeep, ok_updates0|]. cbn. by rewrite He, kind_insert, decide_True by done.
  - intros id id' n. rewrite !Hw. do 2 case_decide; subst; [done| | |eauto].
    + intros ->%Hcall [? ?]%ok_called0. lia.
    + intros Hww ->%Hcall. apply ok_called0 in Hww as [? ?]. lia.
  - intros id n. rewrite Hw. case_decide as E.
    + intros Hin. split; [|by apply Hnot]. pose proof (Hcall _ Hin) as ->. cbn. unfold calls_with. destruct (released t); [set_solver|lia].
    + intros [? ?]%ok_called0. cbn. split; [lia|done].
  - intros n ?%ok_settled0. cbn. lia.
  - intros n Hn. cbn in Hn. setoid_rewrite Hw. destruct (decide (n < c_calls c)%nat) as [Hlt|Hge].
    + destruct (ok_live0 n Hlt) as [|[j Hj]]; [by left|]. right. exists j. rewrite decide_False; [done|].
      intros ->. destruct (waits_request _ _ _ Hj) as (? & ? & _). congruence.
    + right. exists (c_next c). rewrite decide_True by done. unfold calls_with in Hn. destruct (released t) as [|m l] eqn:E; [lia|].
      assert (m = c_calls c) by (apply Hcall; left). assert (n = m) by lia. subst. left.
  - apply owned_arm; [by intros <-|done].
  - apply owned_arm; [by intros <-|done].
  - apply owned_arm; [by intros <-|done].
Qed.

(** ** The functions of the transport *)

Definition requests_ok (s : transport) : Prop := core_ok (core_of s).

(** [quiet s s']: the core is the same. *)
Definition quiet (s s' : transport) : Prop := core_of s' = core_of s.
#[local] Instance quiet_preorder : PreOrder quiet.
Proof. split; unfold quiet; [done|intros ??? ? ?; congruence]. Qed.
Lemma quiet_ok s s' : quiet s s' → requests_ok s → requests_ok s'.
Proof. unfold quiet, requests_ok. by intros ->. Qed.

Lemma settlements_app l l' : settlements (l ++ l') = settlements l ++ settlements l'.
Proof. apply omap_app. Qed.
Lemma quiet_log e s : settlements [e] = [] → quiet s (log_effect e s).
Proof. intros He. unfold quiet, core_of. cbn. by rewrite settlements_app, He, app_nil_r. Qed.
Lemma quiet_emit e p s : quiet s (emit e p s).
Proof. by apply quiet_log. Qed.
Lemma quiet_emit_error env s : quiet s (emit_error env s).
Proof. unfold emit_error. case_match; [by apply quiet_emit|done]. Qed.
Lemma quiet_send env m s : quiet s (send env m s).
Proof. unfold send. repeat case_match; try done. by apply quiet_log. Qed.
Lemma quiet_sends env l s : quiet s (foldl (λ s m, send env m s) s l).
Proof. revert s. induction l as [|m l IH]; intros s; [done|]. cbn. etrans; [apply (quiet_send env m)|apply IH]. Qed.
Lemma quiet_emit_all l s : quiet s (emit_all l s).
Proof. unfold emit_all. revert s. induction l as [|p l IH]; intros s; [done|]. cbn. etrans; [apply (quiet_emit p.1 p.2)|apply IH]. Qed.
Lemma quiet_close k code r s : quiet s (close_socket k code r s).
Proof. unfold close_socket. repeat case_match; try done; by apply (quiet_log _ (move_socket k CLOSING s)). Qed.
Lemma quiet_force r s : quiet s (forceClose r s).
Proof. unfold forceClose. case_match; [|done]. by etrans; [|apply quiet_close]. Qed.

Lemma owned_absent m next t : owned m next None t → ∀ id, kind_at m id ≠ Some t.
Proof. intros [_ H] id E. by apply H in E. Qed.

Lemma ok_clear_pong s : requests_ok s → requests_ok (clearHeartbeatTimeout s).
Proof.
  intros H. assert (core_of (clearHeartbeatTimeout s) = set_pong None (clear_timer (t_heartbeatTimeout s) (core_of s))) as E.
  { unfold clearHeartbeatTimeout. by destruct (t_heartbeatTimeout s). }
  unfold requests_ok. rewrite E. apply ok_no_pong.
  - eapply ok_clear; [done| |apply (ok_pong _ H)]. done.
  - apply cleared_none, (ok_pong _ H).
Qed.
Lemma ok_heartbeat_stop s : requests_ok s → requests_ok (heartbeat_stop s).
Proof.
  intros H. unfold heartbeat_stop. apply ok_clear_pong.
  assert (core_of (set_t_heartbeatTimer None (clear_option (t_heartbeatTimer s) s)) = set_ping None (clear_timer (t_heartbeatTimer s) (core_of s))) as E
    by (by destruct (t_heartbeatTimer s)).
  unfold requests_ok. rewrite E. apply ok_no_ping.
  - eapply ok_clear; [done| |apply (ok_ping _ H)]. done.
  - apply cleared_none, (ok_ping _ H).
Qed.
Lemma stop_fields s : t_heartbeatTimer (heartbeat_stop s) = None ∧ t_heartbeatTimeout (heartbeat_stop s) = None.
Proof. unfold heartbeat_stop, clearHeartbeatTimeout. split; [|done]. cbn. by destruct (t_heartbeatTimer s); destruct (t_heartbeatTimeout _). Qed.
Lemma ok_heartbeat_start s : requests_ok s → requests_ok (heartbeat_start s).
Proof.
  intros H%ok_heartbeat_stop. unfold heartbeat_start.
  apply (ok_arm_ping (core_of (heartbeat_stop s)) HEARTBEAT_INTERVAL_MS H).
  eapply owned_absent. pose proof (ok_ping _ H) as Hp. change (c_ping _) with (t_heartbeatTimer (heartbeat_stop s)) in Hp. by rewrite (proj1 (stop_fields s)) in Hp.
Qed.
Lemma ok_tick env s : requests_ok s → requests_ok (heartbeat_tick env s).
Proof.
  intros H. unfold heartbeat_tick. case_match; [|done]. case_match; [|by apply (quiet_ok _ _ (quiet_force _ s))].
  set (s1 := log_effect _ s). assert (Hs1 : requests_ok s1) by (by apply (quiet_ok s); [apply quiet_log|]).
  assert (E : core_of (clear_option (t_heartbeatTimeout s1) s1) = clear_timer (t_heartbeatTimeout s1) (core_of s1)) by (by destruct (t_heartbeatTimeout s1)).
  assert (Hs2 : requests_ok (clear_option (t_heartbeatTimeout s1) s1)).
  { unfold requests_ok. rewrite E. eapply ok_clear; [done| |apply (ok_pong _ Hs1)]. done. }
  change (t_heartbeatTimeout s) with (t_heartbeatTimeout s1). apply (ok_arm_pong _ HEARTBEAT_TIMEOUT_MS Hs2).
  rewrite E. apply (cleared_none (core_of s1)), (ok_pong _ Hs1).
Qed.

Lemma commits_drop c id n tx : core_ok c → kind_at (c_timers c) id = Some (CommitTimeout n tx) →
  commits_without id (map_delete tx (c_commits c)) (c_commits c).
Proof.
  intros H E. split.
  - rewrite map_delete_keys. apply NoDup_filter, (ok_keys _ H).
  - intros [tx' p] [Hne Hin]%list_elem_of_filter. split; [done|]. cbn in *. intros Hid. pose proof (ok_commits _ H _ _ Hin). congruence.
Qed.
Lemma updates_keep c id t : core_ok c → kind_at (c_timers c) id = Some t → (∀ who, t ≠ SubscriptionTimeout who) →
  updates_without id (c_updates c) (c_updates c).
Proof.
  intros H E Hne. split; [apply (ok_entries _ H)|]. intros e He. split; [done|]. intros Hid.
  pose proof (ok_updates _ H _ He). rewrite Hid, E in H0. injection H0 as ->. by eapply Hne.
Qed.
Lemma commits_keep c id t : core_ok c → kind_at (c_timers c) id = Some t → (∀ n tx, t ≠ CommitTimeout n tx) →
  commits_without id (c_commits c) (c_commits c).
Proof.
  intros H E Hne. split; [apply (ok_keys _ H)|]. intros [tx p] He. split; [done|]. cbn. intros Hid.
  pose proof (ok_commits _ H _ _ He) as H0. rewrite Hid, E in H0. injection H0 as ->. by eapply Hne.
Qed.
Lemma updates_drop c id : core_ok c → updates_without id (remove_entry id (c_updates c)) (c_updates c).
Proof.
  intros H. split.
  - eapply sublist_NoDup; [apply (ok_entries _ H)|]. apply fmap_sublist, sublist_filter.
  - intros e [? ?]%list_elem_of_filter. done.
Qed.

(** ** Requests of the transport *)

Lemma core_settle n o s : core_of (settle n o s) =
  let c := core_of s in
  mkCore (c_timers c) (c_next c) (c_commits c) (c_updates c) (c_calls c) (c_ping c) (c_pong c) (c_reconnect c) (c_settled c ++ [n]).
Proof. unfold core_of. cbn. by rewrite settlements_app. Qed.
Lemma core_settle_update who r s : core_of (settle_update who r s) =
  let c := core_of s in
  mkCore (c_timers c) (c_next c) (c_commits c) (c_updates c) (c_calls c) (c_ping c) (c_pong c) (c_reconnect c)
    (c_settled c ++ released (SubscriptionTimeout who)).
Proof. destruct who; [apply core_settle|]. cbn. by rewrite app_nil_r. Qed.

Lemma fresh_timer c : core_ok c → kind_at (c_timers c) (c_next c) = None.
Proof. apply fresh_kind. Qed.

(** A timer of a request goes, and its caller is told. *)
Lemma ok_finish_commit s id n o tx commits :
  requests_ok s → kind_at (t_timers s) id = Some (CommitTimeout n tx) → commits = map_delete tx (pendingMutations s) →
  requests_ok (settle n o (set_pendingMutations commits (clearTimeout id s))).
Proof.
  intros H E ->. unfold requests_ok. rewrite core_settle.
  apply (ok_release_timer (core_of s) id (CommitTimeout n tx)); [done..|by apply (commits_drop (core_of s) id n tx)|by apply (updates_keep (core_of s) id _ H E)].
Qed.
Lemma ok_finish_update s id who r updates :
  requests_ok s → kind_at (t_timers s) id = Some (SubscriptionTimeout who) → updates_without id updates (pendingSubscriptions s) →
  requests_ok (settle_update who r (set_pendingSubscriptions updates (clearTimeout id s))).
Proof.
  intros H E Hu. unfold requests_ok. rewrite core_settle_update.
  apply (ok_release_timer (core_of s) id (SubscriptionTimeout who)); [done..|by apply (commits_keep (core_of s) id _ H E)|done].
Qed.
Lemma ok_refused s n o : requests_ok s → n = nextCall s → requests_ok (settle n o (set_nextCall (S n) s)).
Proof. intros H ->. unfold requests_ok. rewrite core_settle. by apply (ok_refuse (core_of s) (t_nextTimer s)). Qed.

Lemma ok_sendCommit receipt env ops tx timeout reads s :
  requests_ok s → requests_ok (sendCommit receipt env ops tx timeout reads s).
Proof.
  intros H. unfold sendCommit. set (call := nextCall s). set (s1 := log_effect (CommitAsked call tx) s).
  assert (H0 : requests_ok s1) by (by apply (quiet_ok s); [apply quiet_log|]).
  change (log_effect (CommitAsked call tx) (set_nextCall (S call) s)) with (set_nextCall (S call) s1).
  case_match; [|by apply ok_refused].
  set (s2 := set_pendingMutations _ _).
  assert (H2 : requests_ok s2).
  { apply (ok_asked (core_of s1) (CommitTimeout call tx) timeout); try done; try apply H0.
    - by intros m ->%list_elem_of_singleton.
    - apply (NoDup_set_keys tx _ _ (ok_keys _ H0)).
    - intros tx' p [[= -> ->]|]%map_set_elem; [by right|by left].
    - by left. }
  case_match; [by apply (quiet_ok s2); [apply quiet_log|]|].
  apply (ok_finish_commit s2 (t_nextTimer s1) call _ tx); [done| |done]. unfold s2. cbn. by rewrite kind_insert, decide_True.
Qed.

Lemma NoDup_snoc {A} (l : list A) x : NoDup l → x ∉ l → NoDup (l ++ [x]).
Proof. intros H Hx. apply NoDup_app. split_and!; [done| |repeat constructor; set_solver]. by intros y ? ->%list_elem_of_singleton. Qed.

(** An update by a caller takes the next number. *)
Definition called (who : waiter) (s : transport) : transport := match who with Call n => set_nextCall (S n) s | _ => s end.
Lemma update_asked who d l s : requests_ok s → (∀ n, who = Call n → n = nextCall s) →
  (∀ e, e ∈ l → e ∈ pendingSubscriptions s ∨ ps_timeout e = t_nextTimer s ∧ ps_who e = who) → NoDup (ps_timeout <$> l) →
  requests_ok (set_pendingSubscriptions l (arm (SubscriptionTimeout who) d (called who s))).
Proof.
  intros H Hwho He Hl. set (t := SubscriptionTimeout who).
  assert (core_of (set_pendingSubscriptions l (arm t d (called who s))) = asked t d (pendingMutations s) l (core_of s)) as E.
  { unfold asked, calls_with. destruct who as [n|]; [|done]. by rewrite (Hwho n eq_refl). }
  unfold requests_ok. rewrite E. apply ok_asked; try done; [|apply H|by left|].
  - intros n Hn. destruct who as [m|]; cbn in Hn; [|set_solver]. apply list_elem_of_singleton in Hn as ->. by apply Hwho.
  - intros e [?|[? <-]]%He; [by left|by right].
Qed.
Lemma update_fresh s : requests_ok s → t_nextTimer s ∉ (ps_timeout <$> pendingSubscriptions s).
Proof.
  intros H (e & E & He)%list_elem_of_fmap. pose proof (ok_updates _ H _ He) as Hk. rewrite <- E in Hk.
  assert (Hf : kind_at (t_timers s) (t_nextTimer s) = None) by apply (fresh_kind _ H).
  change (c_timers _) with (t_timers s) in Hk. congruence.
Qed.
Lemma ok_update who env groups timeout s :
  requests_ok s → (∀ n, who = Call n → n = nextCall s) → requests_ok (updateSubscription who env groups timeout (called who s)).
Proof.
  intros H Hwho. unfold updateSubscription. pose proof (update_fresh _ H) as Hnew. set (id := t_nextTimer s).
  assert (t_nextTimer (called who s) = id) as -> by (by destruct who).
  assert (pendingSubscriptions (arm (SubscriptionTimeout who) timeout (called who s)) = pendingSubscriptions s) as -> by (by destruct who).
  set (s0 := arm (SubscriptionTimeout who) timeout (called who s)).
  assert (Hk : ∀ l, kind_at (t_timers (set_pendingSubscriptions l s0)) id = Some (SubscriptionTimeout who)).
  { intros l. unfold s0. cbn. rewrite (kind_insert _ (t_nextTimer (called who s))). by destruct who; rewrite decide_True. }
  case_match; [case_match; [|set (s1 := set_pendingSubscriptions _ s0); assert (Hs1 : requests_ok s1); [|case_match]]|].
  - assert (Hs0 : requests_ok s0).
    { apply (quiet_ok (set_pendingSubscriptions (pendingSubscriptions s) s0)); [by destruct who|].
      apply update_asked; [done..| |apply (ok_entries _ H)]. by left. }
    unfold requests_ok. rewrite core_settle_update.
    apply (ok_release_timer (core_of s0) id (SubscriptionTimeout who) (pendingMutations s0) (pendingSubscriptions s0)); [done|apply (Hk (pendingSubscriptions s))|done|..].
    + by apply (commits_keep (core_of s0) id _ Hs0 (Hk (pendingSubscriptions s))).
    + split; [apply (ok_entries _ Hs0)|]. intros e He. split; [done|]. intros Hid. apply Hnew, list_elem_of_fmap. exists e. split; [done|].
      by destruct who.
  - apply update_asked; [done..| |].
    + intros e [?| ->%list_elem_of_singleton]%elem_of_app; [by left|by right].
    + rewrite fmap_app. apply NoDup_snoc; [apply (ok_entries _ H)|done].
  - apply (quiet_ok s1); [|done]. etrans; by apply quiet_log.
  - apply (ok_finish_update s1); [done|apply Hk|apply (updates_drop (core_of s1) id Hs1)].
  - destruct who as [n|]; cbn [settle_update called]; [by apply ok_refused, Hwho|done].
Qed.

(** ** The machine keeps its requests *)

Lemma ok_handshake env s : requests_ok s → requests_ok (completePresenceHandshake env s).
Proof.
  intros H. unfold completePresenceHandshake. repeat case_match; try done.
  - by apply (ok_update (Handshake _) env _ ACK_TIMEOUT_MS (set_initialSubscriptionInFlight true s)).
  - apply ok_heartbeat_start. eapply quiet_ok; [apply quiet_sends|]. by eapply quiet_ok; [by apply quiet_log|].
Qed.
Lemma ok_continues env s p : requests_ok s → requests_ok (handshake_continues env s p).
Proof.
  intros H. unfold handshake_continues. repeat case_match; try done.
  - by apply ok_handshake.
  - apply (quiet_ok s); [|done]. etrans; [apply quiet_close|apply quiet_emit_error].
Qed.
Lemma ok_foldl {A} (f : transport → A → transport) l s :
  (∀ s a, requests_ok s → requests_ok (f s a)) → requests_ok s → requests_ok (foldl f s l).
Proof. intros Hf. revert s. induction l as [|a l IH]; intros s H; [done|]. cbn. auto. Qed.
Lemma ok_continuations env s : requests_ok s → requests_ok (run_continuations env s).
Proof. intros H. apply ok_foldl; [intros; by apply ok_continues|done]. Qed.

Lemma ok_clear_reconnect s : requests_ok s →
  requests_ok (clear_option (reconnectTimer s) s) ∧ ∀ id, kind_at (t_timers (clear_option (reconnectTimer s) s)) id ≠ Some Reconnect.
Proof.
  intros H. assert (core_of (clear_option (reconnectTimer s) s) = clear_timer (reconnectTimer s) (core_of s)) as E by (by destruct (reconnectTimer s)).
  split.
  - unfold requests_ok. rewrite E. eapply ok_clear; [done| |apply (ok_reconnect _ H)]. done.
  - change (t_timers _) with (c_timers (core_of (clear_option (reconnectTimer s) s))). rewrite E.
    apply (cleared_none (core_of s)), (ok_reconnect _ H).
Qed.
Lemma ok_schedule env s : requests_ok s → requests_ok (scheduleReconnect env s).
Proof.
  intros H. unfold scheduleReconnect. destruct (ok_clear_reconnect _ H) as [H1 Hno]. set (s1 := clear_option _ s) in *.
  do 3 (case_match; [by repeat (done || (eapply quiet_ok; [apply quiet_emit|]))|]).
  apply (ok_arm_reconnect (core_of (emit _ _ s1))); [|done]. by eapply quiet_ok; [apply quiet_emit|].
Qed.
Lemma ok_connect env s : requests_ok s → requests_ok (transport_connect env s).
Proof.
  intros H. unfold transport_connect. repeat case_match; try done.
  1-2: by eapply quiet_ok; [by apply quiet_log|].
  all: by apply ok_schedule; eapply quiet_ok; [apply quiet_emit_error|].
Qed.
Lemma ok_disconnect s : requests_ok s → requests_ok (disconnect s).
Proof.
  intros H. unfold disconnect. set (s1 := heartbeat_stop _). assert (H1 : requests_ok s1) by (by apply ok_heartbeat_stop).
  destruct (ok_clear_reconnect _ H1) as [H2 Hno].
  set (s2 := match reconnectTimer s1 with Some id => set_reconnectTimer None (clearTimeout id s1) | None => s1 end).
  assert (H3 : requests_ok s2).
  { unfold s2. revert H2 Hno. destruct (reconnectTimer s1); [|done]. intros H2 Hno. by apply (ok_no_reconnect _ H2). }
  destruct (ws s2); [|done]. by eapply quiet_ok; [apply quiet_close|].
Qed.

Lemma ok_reject_commits s : requests_ok s → requests_ok (reject_commits s).
Proof.
  intros H. unfold reject_commits. assert (H' : requests_ok (set_pendingMutations (pendingMutations s) s)) by done.
  revert H'. generalize (pendingMutations s). clear H. intros l. revert s. induction l as [|[tx p] l IH]; intros s H; [done|]. apply IH.
  pose proof (ok_commits _ H tx p ltac:(left)) as Hk. pose proof (ok_keys _ H) as [Hnot Hnd]%NoDup_cons.
  set (s0 := set_pendingMutations ((tx, p) :: l) s) in *.
  assert (El : l = map_delete tx (pendingMutations s0)).
  { change (pendingMutations s0) with ((tx, p) :: l). unfold map_delete. rewrite filter_cons, decide_False by (intros Hx; by apply Hx).
    rewrite (filter_keeps _ l); [done|]. intros [tx' p'] Hin. cbn. intros ->. apply Hnot, list_elem_of_fmap. by exists (tx, p'). }
  by apply (ok_finish_commit s0 (pm_timeout p) (pm_call p) (Failed (connection_error "commit_no_result")) tx l H Hk El).
Qed.
Lemma ok_reject_updates s : requests_ok s → requests_ok (reject_updates s).
Proof.
  intros H. unfold reject_updates. assert (H' : requests_ok (set_pendingSubscriptions (pendingSubscriptions s) s)) by done.
  revert H'. generalize (pendingSubscriptions s). clear H. intros l. revert s. induction l as [|e l IH]; intros s H; [done|]. apply IH.
  pose proof (ok_updates _ H e ltac:(left)) as Hk. pose proof (ok_entries _ H) as [Hnot Hnd]%NoDup_cons.
  apply (quiet_ok (settle_update (ps_who e) (Throw (mkError AbloConnectionError None))
    (set_pendingSubscriptions l (clearTimeout (ps_timeout e) (set_pendingSubscriptions (e :: l) s))))); [by destruct (ps_who e)|].
  apply ok_finish_update; [done..|]. split; [done|]. intros e' He'. split; [by right|]. intros E. apply Hnot, list_elem_of_fmap. by exists e'.
Qed.

Ltac by_quiet lemmas := eapply quiet_ok; [lemmas|].
Lemma ok_ending env code r opened s : requests_ok s → requests_ok (close_ending env code r opened s).
Proof.
  intros H. unfold close_ending. repeat case_match; try (by apply ok_schedule; by_quiet ltac:(apply quiet_emit));
    by repeat (by_quiet ltac:(apply quiet_emit)).
Qed.
Lemma ok_socket_close env k code r s : requests_ok s → requests_ok (socket_close env k code r s).
Proof.
  intros H. unfold socket_close. repeat case_match; try done.
  all: unfold on_close; apply ok_ending, ok_reject_updates, ok_reject_commits, ok_heartbeat_stop; by by_quiet ltac:(by apply quiet_log).
Qed.
Lemma ok_socket_open env k s : requests_ok s → requests_ok (socket_open env k s).
Proof. intros H. unfold socket_open. by repeat case_match. Qed.
Lemma ok_socket_error env k s : requests_ok s → requests_ok (socket_error env k s).
Proof. intros H. unfold socket_error. case_match; [|done]. by by_quiet ltac:(apply quiet_emit_error). Qed.

Lemma ok_queue_snapshot p s : requests_ok s → requests_ok (on_queue_snapshot p s).
Proof. intros H. unfold on_queue_snapshot. by do 2 (by_quiet ltac:(apply quiet_emit)). Qed.
Lemma ok_queue_patch env p s : requests_ok s → requests_ok (on_queue_patch env p s).
Proof.
  intros H. unfold on_queue_patch. set (s1 := emit _ _ s). assert (requests_ok s1) by (by by_quiet ltac:(apply quiet_emit)).
  repeat case_match; try done; by by_quiet ltac:(first [apply quiet_emit|apply quiet_force]).
Qed.

(** The one thing that leaves a caller without an answer: a rejected commit whose
    conflicting rows cannot be read. *)
Definition is_result (f : fields) : bool :=
  match map_get "type"%string f ≫= text_of with Some t => String.eqb t "mutation_result" | None => false end.
Definition unreadable_conflict (message : json) : bool :=
  match message with
  | JObj f =>
      let p := result_fields f in
      is_result f && negb (truthy (default JUndefined (map_get "success"%string p)))
      && report_throws (default JUndefined (map_get "error"%string p))
  | _ => false
  end.
Definition readable (i : ws_input) : bool :=
  match i with SocketMessage _ (Some m) => negb (unreadable_conflict m) | _ => true end.

Section Dispatch.
Context (frame_schema : string → json → option json) (receipt_shape : fields → option CommitReceipt).
Context (envelope : fields → option (json * json)) (hooks : frame_hooks).
Local Notation step := (ws_step frame_schema receipt_shape envelope hooks).
Local Notation run := (ws_run frame_schema receipt_shape envelope hooks).

Lemma ok_mutation_result f s :
  requests_ok s → is_result f = true → unreadable_conflict (JObj f) = false →
  requests_ok (handleMutationResult receipt_shape f s).1.
Proof.
  intros H Ht Hr. unfold handleMutationResult. unfold unreadable_conflict in Hr. rewrite Ht in Hr. cbn in Hr.
  destruct (tx ← _; _) as [[tx p]|] eqn:E; [|done].
  apply bind_Some in E as (tx' & _ & (p' & Hp & [= -> ->])%bind_Some). apply map_get_elem in Hp.
  pose proof (ok_commits _ H tx p Hp) as Hk.
  assert (Hf : ∀ o, requests_ok (settle (pm_call p) o (set_pendingMutations (map_delete tx (pendingMutations s)) (clearTimeout (pm_timeout p) s))))
    by (intros o; by apply (ok_finish_commit s (pm_timeout p) (pm_call p) o tx)).
  case_match; [case_match|].
  - case_match; [apply Hf|]. case_match; [apply Hf|]. rewrite ack_of_valid by (by apply negb_false_iff). apply Hf.
  - apply Hf.
  - cbn in Hr. rewrite Hr. apply Hf.
Qed.
Lemma ok_subscription_ack k f s : requests_ok s → requests_ok (handleSubscriptionAck k f s).
Proof.
  intros H. unfold handleSubscriptionAck. destruct (pendingSubscriptions s) as [|e rest] eqn:E; [done|].
  set (ack := subscriptionAckPayloadSchema _). set (ok := match ack with Some ack => sa_success ack | None => false end).
  set (s1 := log_effect (Acked (ps_who e) k ok) s).
  assert (H1 : requests_ok s1) by (by apply (quiet_ok s); [apply quiet_log|]).
  assert (E1 : pendingSubscriptions s1 = e :: rest) by done.
  pose proof (ok_updates _ H1 e ltac:(change (c_updates _) with (pendingSubscriptions s1); rewrite E1; left)) as Hk.
  pose proof (ok_entries _ H1) as Hnd. change (c_updates _) with (pendingSubscriptions s1) in Hnd. rewrite E1 in Hnd.
  apply NoDup_cons in Hnd as [Hnot Hnd].
  assert (Hu : updates_without (ps_timeout e) rest (pendingSubscriptions s1)).
  { split; [done|]. intros e' He'. rewrite E1. split; [by right|]. intros Eq. apply Hnot, list_elem_of_fmap. by exists e'. }
  assert (Hf : ∀ r o, requests_ok (settle_update (ps_who e) r (set_t_options o (set_pendingSubscriptions rest (clearTimeout (ps_timeout e) s1))))).
  { intros r o. eapply (quiet_ok (settle_update (ps_who e) r (set_pendingSubscriptions rest (clearTimeout (ps_timeout e) s1)))).
    - unfold quiet. rewrite !core_settle_update. done.
    - by apply ok_finish_update. }
  case_match; [case_match|]; apply (Hf _ _).
Qed.

Lemma ok_plain k t f s :
  requests_ok s → (String.eqb t "mutation_result" = true → is_result f = true) → unreadable_conflict (JObj f) = false →
  requests_ok (handle_plain_frame receipt_shape hooks k t f s).1.
Proof.
  intros H Ht Hr. unfold handle_plain_frame.
  case_match; [apply ok_mutation_result; auto|]. case_match; [by apply ok_subscription_ack|].
  case_match; [unfold handleDeltaFrame; repeat case_match; try done|repeat case_match]; by by_quiet ltac:(apply quiet_emit_all).
Qed.
Lemma ok_dispatch env k f s :
  requests_ok s → unreadable_conflict (JObj f) = false →
  requests_ok (dispatchWsFrame frame_schema receipt_shape envelope hooks env k f s).1.
Proof.
  intros H Hr. unfold dispatchWsFrame. destruct (map_get "type" f ≫= text_of) as [t|] eqn:Et.
  2: { case_match; [by by_quiet ltac:(apply quiet_emit_all)|done]. }
  do 2 (case_match; [try done|]).
  - case_match.
    + destruct (frame_schema t _) as [j|]; [|done]. unfold handle_schema_frame. case_match.
      { apply ok_handshake. by by_quiet ltac:(apply quiet_emit). }
      case_match; [by apply ok_queue_snapshot|]. case_match; [by apply ok_queue_patch|]. by by_quiet ltac:(apply quiet_emit).
    + apply ok_plain; [done| |done]. unfold is_result. by rewrite Et.
  - unfold handle_collaboration. repeat case_match; try done; by by_quiet ltac:(apply quiet_emit).
Qed.
Lemma ok_message env k d s :
  requests_ok s → readable (SocketMessage k d) = true →
  requests_ok (socket_message frame_schema receipt_shape envelope hooks env k d s).
Proof.
  intros H Hr. unfold socket_message. case_match; [|done]. destruct d as [m|]; [|done]. cbn in Hr. apply negb_true_iff in Hr.
  assert (H1 : requests_ok (clearHeartbeatTimeout (log_effect (Received k m) s))).
  { apply ok_clear_pong. by by_quiet ltac:(by apply quiet_log). }
  case_match eqn:E; [|done]. apply ok_dispatch; [done|]. unfold readWsInboundFrame in E. by repeat case_match; simplify_eq.
Qed.
Lemma ok_fire env id s : requests_ok s → requests_ok (fire_timer env id s).
Proof.
  intros H. unfold fire_timer. destruct (fst <$> t_timers s !! id) as [t|] eqn:E; [|done]. fold (kind_at (t_timers s) id) in E.
  assert (Hq : request t = false → requests_ok (clearTimeout id s)).
  { intros Hr. apply (ok_quiet_delete (core_of s) id H). intros t' Et. change (c_timers _) with (t_timers s) in Et. congruence. }
  destruct t as [n tx|who| | |].
  - by apply (ok_finish_commit s id n _ tx).
  - apply (ok_finish_update s id who); [done..|]. apply (updates_drop (core_of s) id H).
  - apply ok_connect, (quiet_ok (clearTimeout id s)); [done|auto].
  - by apply ok_tick.
  - by_quiet ltac:(apply quiet_force); auto.
Qed.
Lemma ok_handle env i s :
  requests_ok s → readable i = true → requests_ok (handle_input frame_schema receipt_shape envelope hooks env i s).
Proof.
  intros H Hr. assert (Hopen : ∀ m, requests_ok (send_open env m s).1).
  { intros m. unfold send_open. case_match; [by by_quiet ltac:(apply quiet_send)|done]. }
  destruct i; cbn -[heartbeat_stop requestSync]; try done.
  - by apply ok_connect.
  - by apply ok_disconnect.
  - by by_quiet ltac:(apply quiet_send).
  - by apply ok_sendCommit.
  - unfold sendCommitQueued. repeat case_match; try done; by by_quiet ltac:(by apply quiet_log).
  - unfold ask_update. apply (ok_update (Call (nextCall s)) env syncGroups timeoutMs s H). by intros n [= <-].
  - apply Hopen.
  - unfold transport_acknowledge. case_match; [by by_quiet ltac:(apply quiet_send)|done].
  - apply Hopen.
  - by by_quiet ltac:(apply quiet_send).
  - by by_quiet ltac:(apply quiet_send).
  - by apply ok_socket_open.
  - by apply ok_message.
  - by apply ok_socket_error.
  - by apply ok_socket_close.
  - by apply ok_fire.
Qed.
Lemma ok_step s p : requests_ok s → readable p.2 = true → requests_ok (step s p).
Proof. intros H Hr. by apply ok_continuations, ok_handle. Qed.
Lemma ok_new deferConnect o : requests_ok (new_transport deferConnect o).
Proof.
  assert (Hk : ∀ id, kind_at ∅ id = None) by done.
  assert (Hw : ∀ id n, ¬ waits ∅ id n) by (intros id n [[tx E]|E]; by rewrite Hk in E).
  constructor; cbn; try apply NoDup_nil_2; try (by split); try (intros; exfalso; by eapply Hw); try (intros; exfalso; set_solver); try lia.
  by intros id [].
Qed.
Lemma ok_run deferConnect o l : Forall (λ p, readable p.2 = true) l → requests_ok (run (new_transport deferConnect o) l).
Proof.
  induction l as [|p l IH] using rev_ind; intros Hl; [apply ok_new|]. apply Forall_app in Hl as [Hl Hp]. rewrite Forall_singleton in Hp.
  unfold ws_run. rewrite foldl_app. apply ok_step; [by apply IH|done].
Qed.
End Dispatch.

(** ** The log only grows *)

Definition grows (s s' : transport) : Prop := t_log s `prefix_of` t_log s'.
#[local] Instance grows_preorder : PreOrder grows.
Proof. split; unfold grows; [intros s; done|intros ???; apply transitivity]. Qed.
Lemma grows_same s s' : t_log s' = t_log s → grows s s'.
Proof. unfold grows. by intros ->. Qed.
Lemma grows_log e s : grows s (log_effect e s).
Proof. by apply prefix_app_r. Qed.
Lemma grows_foldl {A} (f : transport → A → transport) l s : (∀ s a, grows s (f s a)) → grows s (foldl f s l).
Proof. intros Hf. revert s. induction l as [|a l IH]; intros s; [done|]. cbn. etrans; [apply Hf|apply IH]. Qed.
Lemma grows_clear_pong s : t_log (clearHeartbeatTimeout s) = t_log s.
Proof. unfold clearHeartbeatTimeout. by destruct (t_heartbeatTimeout s). Qed.
Lemma log_heartbeat_stop s : t_log (heartbeat_stop s) = t_log s.
Proof. unfold heartbeat_stop. rewrite grows_clear_pong. by destruct (t_heartbeatTimer s). Qed.
Lemma log_heartbeat_start s : t_log (heartbeat_start s) = t_log s.
Proof. apply log_heartbeat_stop. Qed.
Lemma grows_send env m s : grows s (send env m s).
Proof. unfold send. repeat case_match; first [apply grows_log|done]. Qed.
Lemma grows_close k c r s : grows s (close_socket k c r s).
Proof. unfold close_socket. repeat case_match; first [done|apply (grows_log _ (move_socket k CLOSING s))]. Qed.
Lemma grows_settle_update who r s : grows s (settle_update who r s).
Proof. destruct who; [apply grows_log|by apply grows_same]. Qed.
Lemma grows_update who env g d s : grows s (updateSubscription who env g d s).
Proof.
  unfold updateSubscription. repeat case_match; try (apply grows_settle_update).
  - apply (grows_settle_update who (Throw malformed_subscription) (clearTimeout _ (arm _ d s))).
  - by do 2 apply prefix_app_r.
  - apply (grows_settle_update who _ (set_pendingSubscriptions _ (clearTimeout _ (set_pendingSubscriptions _ (arm _ d s))))).
Qed.
Lemma grows_handshake env s : grows s (completePresenceHandshake env s).
Proof.
  unfold completePresenceHandshake. repeat case_match; try done.
  - apply (grows_update _ env _ _ (set_initialSubscriptionInFlight true s)).
  - etrans; [|apply grows_same, log_heartbeat_start]. etrans; [|apply grows_foldl; intros; apply grows_send]. by apply prefix_app_r.
Qed.
Lemma grows_error env s : grows s (emit_error env s).
Proof. unfold emit_error. case_match; [apply grows_log|done]. Qed.
Lemma grows_continues env s p : grows s (handshake_continues env s p).
Proof.
  unfold handshake_continues. repeat case_match; try done; [|etrans; [apply grows_close|apply grows_error]].
  apply (grows_handshake env (set_initialSubscriptionInFlight false (set_initialSubscription None s))).
Qed.
Lemma grows_continuations env s : grows s (run_continuations env s).
Proof. apply (grows_foldl _ _ (set_t_micro [] s)). intros; apply grows_continues. Qed.
Lemma settled_grows s s' n : grows s s' → n ∈ settlements (t_log s) → n ∈ settlements (t_log s').
Proof. intros [l ->] Hn. rewrite settlements_app. set_solver. Qed.

Section Requests.
Context (frame_schema : string → json → option json) (receipt_shape : fields → option CommitReceipt).
Context (envelope : fields → option (json * json)) (hooks : frame_hooks).
Local Notation step := (ws_step frame_schema receipt_shape envelope hooks).
Local Notation run := (ws_run frame_schema receipt_shape envelope hooks).

(** C35: Whatever is asked of the transport and whatever its sockets and timers do, a commit
    or a subscription update a caller waits for is answered at most once; while it has no
    answer its timer is armed, one timer and no other, and that timer answers it when it goes
    off; once it has its answer no timer waits for it. The one exception is a rejected commit
    whose conflicting rows cannot be read. *)
Theorem requests_settle_once deferConnect o l :
  Forall (λ p, readable p.2 = true) l →
  let s := run (new_transport deferConnect o) l in
  NoDup (settlements (t_log s)) ∧ (∀ n, n ∈ settlements (t_log s) → (n < nextCall s)%nat)
  ∧ ∀ n, (n < nextCall s)%nat →
    (n ∈ settlements (t_log s) ∧ ∀ id, ¬ waits (t_timers s) id n)
    ∨ (n ∉ settlements (t_log s)
       ∧ ∃ id, (∀ id', waits (t_timers s) id' n ↔ id' = id)
               ∧ ∀ env, n ∈ settlements (t_log (step s (env, TimerFired id)))).
Proof.
  intros Hl s. pose proof (ok_run frame_schema receipt_shape envelope hooks deferConnect o l Hl) as H. fold s in H.
  split_and!; [apply (ok_nodup _ H)|apply (ok_settled _ H)|]. intros n Hn.
  destruct (decide (n ∈ settlements (t_log s))) as [Hs|Hs].
  { left. split; [done|]. by intros id [_ []]%(ok_called _ H). }
  right. split; [done|]. destruct (ok_live _ H n Hn) as [|[id Hw]]; [done|]. exists id. split.
  { intros id'. split; [|by intros ->]. intros Hw'. by apply (ok_one _ H id' id n). }
  intros env. unfold ws_step. eapply settled_grows; [apply grows_continuations|].
  cbn [handle_input fst snd]. unfold fire_timer. change (fst <$> t_timers s !! id) with (kind_at (t_timers s) id). destruct Hw as [[tx E]|E]; cbn in E; rewrite E; cbn; rewrite settlements_app; set_solver.
Qed.
End Requests.
