(* ===== verification/WsLifecycle.v ===== *)
(** * The sockets of the WebSocket transport

    One socket is live at a time, a connection is announced once per socket and only when
    its session is bound and its read interest is known to the server, and while it is
    announced its heartbeat runs. *)
From stdpp Require Import gmap strings.
From S2P Require Import Prelude JsData Json DeltaStore SourceModel WsFrames WsTransport WsTransportFacts.
#[local] Open Scope Z_scope.

(** ** What the log says of a socket *)

Definition connecteds (l : list effect) : list nat := omap (λ e, match e with EmittedConnected k => Some k | _ => None end) l.
Definition is_session_frame (m : json) : bool :=
  match m with JObj f => match map_get "type"%string f ≫= text_of with Some t => String.eqb t "presence_session" | None => false end | _ => false end.
(** The server has bound a session to the socket. *)
Definition greeted (k : nat) (l : list effect) : Prop := ∃ m, Received k m ∈ l ∧ is_session_frame m = true.
(** The options the socket was opened with, and the handshake update that sent their groups. *)
Definition opened_with (k : nat) (o : ws_options) (url : string) (l : list effect) : Prop := ∃ protocols, Opened k o url protocols ∈ l.
Definition requested (k : nat) (o : ws_options) (l : list effect) : Prop := UpdateAsked (Handshake k) k (o_syncGroups o) ∈ l.
(** The upgrade named the read interest of the options in force when the socket was opened,
    or that very interest was sent over the socket and acknowledged. *)
Definition interest_known (k : nat) (l : list effect) : Prop :=
  ∃ o url, opened_with k o url l
    ∧ ((∃ cursor, url = upgrade_url cursor (o_syncGroups o) o) ∨ requested k o l ∧ Acked (Handshake k) k true ∈ l).

Definition receiveds (l : list effect) : list nat := omap (λ e, match e with Received k _ => Some k | _ => None end) l.
Lemma greeted_received k l : greeted k l → k ∈ receiveds l.
Proof. intros (m & Hm & _). apply list_elem_of_omap. by exists (Received k m). Qed.
Lemma receiveds_app l l' : receiveds (l ++ l') = receiveds l ++ receiveds l'.
Proof. apply omap_app. Qed.
(** Effects that announce nothing and come from known sockets. *)
Definition plain_effects (l : list effect) (s : transport) : Prop :=
  connecteds l = [] ∧ Forall (λ k, (k < length (t_sockets s))%nat) (receiveds l).
Lemma greeted_grows k l l' : l `prefix_of` l' → greeted k l → greeted k l'.
Proof. intros [x ->] (m & ? & ?). exists m. set_solver. Qed.
Lemma interest_grows k l l' : l `prefix_of` l' → interest_known k l → interest_known k l'.
Proof.
  intros [x ->] (o & url & (p & H) & Hi). exists o, url. split; [exists p; set_solver|]. destruct Hi as [Hi|[H1 H2]]; [by left|right]. unfold requested in *. set_solver.
Qed.
(** A session is bound, and the interest of the socket was sent. *)
Definition awaited (k : nat) (l : list effect) : Prop := greeted k l ∧ ∃ o url, opened_with k o url l ∧ requested k o l.
Lemma opened_grows k o url l l' : l `prefix_of` l' → opened_with k o url l → opened_with k o url l'.
Proof. intros [x ->] [p H]. exists p. set_solver. Qed.
Lemma awaited_grows k l l' : l `prefix_of` l' → awaited k l → awaited k l'.
Proof.
  intros Hl (Hg & o & url & Ho & Hr). split; [by eapply greeted_grows|]. exists o, url. split; [by eapply opened_grows|]. destruct Hl as [x ->]. unfold requested in *. set_solver.
Qed.

(** A connection is announced after both. *)
Definition announced_after (l : list effect) : Prop :=
  ∀ l1 k l2, l = l1 ++ EmittedConnected k :: l2 → greeted k l1 ∧ interest_known k l1.
Lemma announced_snoc l e :
  announced_after l → (∀ k, e = EmittedConnected k → greeted k l ∧ interest_known k l) → announced_after (l ++ [e]).
Proof.
  intros Hl He l1 k l2 E. destruct l2 as [|x l2 _] using rev_ind.
  - apply app_inj_tail in E as [-> ->]. by apply He.
  - rewrite app_comm_cons, app_assoc in E. apply app_inj_tail in E as [-> _]. by eapply Hl.
Qed.
Lemma connecteds_app l l' : connecteds (l ++ l') = connecteds l ++ connecteds l'.
Proof. apply omap_app. Qed.
Lemma announced_app l l' : announced_after l → connecteds l' = [] → announced_after (l ++ l').
Proof.
  intros Hl. induction l' as [|e l' IH] using rev_ind; [by rewrite app_nil_r|]. rewrite connecteds_app. intros [Hl' He]%app_nil.
  rewrite app_assoc. apply announced_snoc; [by apply IH|]. intros k ->. done.
Qed.

(** ** The invariant *)

Record life_ok (s : transport) : Prop := {
  lf_live : ∀ k r, t_sockets s !! k = Some r → r = CONNECTING ∨ r = OPEN → ws s = Some k;
  lf_owned : ∀ k, ws s = Some k → ∃ r, t_sockets s !! k = Some r ∧ r ≠ CLOSED;
  lf_connecting : ∀ k, ws s = Some k → t_sockets s !! k = Some CONNECTING → isConnecting s = true;
  lf_connected : ∀ k, k ∈ connecteds (t_log s) →
    (k < length (t_sockets s))%nat ∧ (ws s = Some k → presenceEstablished s = true);
  lf_after : announced_after (t_log s);
  lf_once : NoDup (connecteds (t_log s));
  lf_announced : ∀ k, ws s = Some k → presenceEstablished s = true → k ∈ connecteds (t_log s);
  lf_received : Forall (λ k, (k < length (t_sockets s))%nat) (receiveds (t_log s));
  lf_interest : ∀ k, ws s = Some k → initialSubscription s = None → interest_known k (t_log s);
  lf_wanted : ∀ k g, ws s = Some k → initialSubscription s = Some g → ∃ o url, opened_with k o url (t_log s) ∧ o_syncGroups o = g;
  lf_waiting : ∀ e k, e ∈ pendingSubscriptions s → ps_who e = Handshake k → awaited k (t_log s);
  lf_answered : ∀ k g, (k, Ok g) ∈ t_micro s → awaited k (t_log s) ∧ (ws s = Some k → Acked (Handshake k) k true ∈ t_log s);
  lf_watched : ∀ k, ws s = Some k → presenceEstablished s = true →
    ∃ id, t_heartbeatTimer s = Some id ∧ t_timers s !! id = Some (PingInterval, HEARTBEAT_INTERVAL_MS);
}.

(** [calm s s']: nothing happened to the socket or its announcement. *)
Record calm (s s' : transport) : Prop := {
  cm_ws : ws s' = ws s;
  cm_sockets : t_sockets s' = t_sockets s;
  cm_connecting : isConnecting s' = isConnecting s;
  cm_presence : presenceEstablished s' = presenceEstablished s;
  cm_initial : initialSubscription s' = initialSubscription s;
  cm_ping : t_heartbeatTimer s' = t_heartbeatTimer s;
  cm_log : ∃ l, t_log s' = t_log s ++ l ∧ plain_effects l s;
  cm_updates : ∀ e, e ∈ pendingSubscriptions s' → e ∈ pendingSubscriptions s ∨ ∀ k, ps_who e = Handshake k → awaited k (t_log s');
  cm_micro : ∀ k g, (k, Ok g) ∈ t_micro s' → (k, Ok g) ∈ t_micro s;
  cm_timers : ∀ id d, t_timers s !! id = Some (PingInterval, d) → t_timers s' !! id = Some (PingInterval, d);
}.
Lemma log_same s : ∃ l, t_log s = t_log s ++ l ∧ plain_effects l s.
Proof. exists []. rewrite app_nil_r. split; [done|]. split; [done|constructor]. Qed.
#[local] Instance calm_preorder : PreOrder calm.
Proof.
  split.
  - intros s. constructor; try done; eauto. apply log_same.
  - intros s1 s2 s3 [] []. constructor; try congruence; eauto.
    + destruct cm_log0 as (l & E & H & Hf), cm_log1 as (l' & E' & H' & Hf'). exists (l ++ l'). rewrite E', E, app_assoc. split; [done|].
      split; [by rewrite connecteds_app, H, H'|]. rewrite receiveds_app, Forall_app. by rewrite cm_sockets0 in Hf'.
    + intros e [[?|Hg]%cm_updates0|?]%cm_updates1; [by left| |by right]. right. intros k Hk.
      eapply awaited_grows; [|by apply Hg]. destruct cm_log1 as (l & -> & _). by exists l.
Qed.
Lemma calm_grows s s' : calm s s' → t_log s `prefix_of` t_log s'.
Proof. intros []. destruct cm_log0 as (l & -> & _). by exists l. Qed.
Lemma calm_connecteds s s' : calm s s' → connecteds (t_log s') = connecteds (t_log s).
Proof. intros []. destruct cm_log0 as (l & -> & H & _). by rewrite connecteds_app, H, app_nil_r. Qed.

Lemma ws_calm_ok s s' : calm s s' → life_ok s → life_ok s'.
Proof.
  intros Hc H. pose proof (calm_grows _ _ Hc) as Hg. pose proof (calm_connecteds _ _ Hc) as He.
  destruct Hc. destruct H. constructor; rewrite ?cm_ws0, ?cm_sockets0, ?cm_connecting0, ?cm_presence0, ?cm_initial0, ?cm_ping0, ?He; try done.
  - destruct cm_log0 as (l & -> & Hl & _). by apply announced_app.
  - destruct cm_log0 as (l & -> & _ & Hl). by rewrite receiveds_app, Forall_app.
  - intros k Hk Hi. eapply interest_grows; eauto.
  - intros k g Hk Hi. destruct (lf_wanted0 k g Hk Hi) as (o & url & ? & ?). eauto using opened_grows.
  - intros e k [He'|Hg']%cm_updates0 Hw; [|by apply Hg']. eauto using awaited_grows.
  - intros k g [? Ha]%cm_micro0%lf_answered0. split; [eauto using awaited_grows|]. intros ?%Ha. destruct Hg as [l ->]. set_solver.
  - intros k Hk Hp. destruct (lf_watched0 k Hk Hp) as (id & ? & ?). eauto.
Qed.

(** ** Calm functions *)

Ltac no_log := exists []; split; [by rewrite app_nil_r|split; [done|constructor]].
Ltac calm_step := constructor; cbn; try done; [no_log|by left].
Lemma calm_plain e s : plain_effects [e] s → calm s (log_effect e s).
Proof. intros He. constructor; cbn; try done; [by exists [e]|by left]. Qed.
Lemma calm_log e s : connecteds [e] = [] → receiveds [e] = [] → calm s (log_effect e s).
Proof. intros He Hr. apply calm_plain. split; [done|by rewrite Hr]. Qed.
Lemma calm_emit e p s : calm s (emit e p s).
Proof. by apply calm_log. Qed.
Lemma calm_error env s : calm s (emit_error env s).
Proof. unfold emit_error. case_match; [apply calm_emit|done]. Qed.
Lemma calm_emit_all l s : calm s (emit_all l s).
Proof. unfold emit_all. revert s. induction l as [|p l IH]; intros s; [done|]. cbn. etrans; [apply (calm_emit p.1 p.2)|apply IH]. Qed.
Lemma calm_send env m s : calm s (send env m s).
Proof. unfold send. repeat case_match; try done. by apply calm_log. Qed.
Lemma calm_sends env l s : calm s (foldl (λ s m, send env m s) s l).
Proof. revert s. induction l as [|m l IH]; intros s; [done|]. cbn. etrans; [apply calm_send|apply IH]. Qed.
Lemma calm_clear id s : kind_at (t_timers s) id ≠ Some PingInterval → calm s (clearTimeout id s).
Proof.
  intros Hk. constructor; cbn; try done; [apply log_same|by left|]. intros j d Hj. rewrite lookup_delete_ne; [done|].
  intros ->. apply Hk. unfold kind_at. by rewrite Hj.
Qed.
Lemma calm_arm t d s : kind_at (t_timers s) (t_nextTimer s) = None → calm s (arm t d s).
Proof.
  intros Hk. constructor; cbn; try done; [apply log_same|by left|]. intros j d' Hj. rewrite lookup_insert_ne; [done|].
  intros <-. unfold kind_at in Hk. by rewrite Hj in Hk.
Qed.
Lemma calm_settle n o s : calm s (settle n o s).
Proof. by apply calm_log. Qed.
Lemma calm_settle_throw who e s : calm s (settle_update who (Throw e) s).
Proof.
  destruct who; [apply calm_settle|]. constructor; cbn; try done; [apply log_same|by left|].
  intros k g [?|[=]%list_elem_of_singleton]%elem_of_app. done.
Qed.
Lemma calm_commits l s : calm s (set_pendingMutations l s).
Proof. calm_step. Qed.
Lemma calm_updates l s : (∀ e, e ∈ l → e ∈ pendingSubscriptions s ∨ ∀ k, ps_who e = Handshake k → awaited k (t_log s)) →
  calm s (set_pendingSubscriptions l s).
Proof. intros Hl. constructor; cbn; try done. apply log_same. Qed.

Lemma new_timer s : requests_ok s → kind_at (t_timers s) (t_nextTimer s) = None.
Proof. apply fresh_kind. Qed.
Lemma kind_arm t d s : kind_at (t_timers (arm t d s)) (t_nextTimer s) = Some t.
Proof. cbn. by rewrite kind_insert, decide_True. Qed.

Lemma calm_sendCommit receipt env ops tx timeout reads s : requests_ok s → calm s (sendCommit receipt env ops tx timeout reads s).
Proof.
  intros H%new_timer. unfold sendCommit. set (s1 := log_effect (CommitAsked (nextCall s) tx) (set_nextCall (S (nextCall s)) s)).
  assert (H1 : calm s s1). { etrans; [|by apply calm_log]. calm_step. }
  case_match; [|by etrans; [|apply calm_settle]].
  set (s2 := arm _ timeout s1). assert (H2 : calm s s2) by (etrans; [done|by apply calm_arm]).
  case_match; [by etrans; [|by apply calm_log]; etrans; [|apply calm_commits]|].
  etrans; [|apply calm_settle]. etrans; [|apply calm_commits]. etrans; [|apply calm_clear].
  - by etrans; [|apply calm_commits].
  - change (kind_at (t_timers s2) (t_nextTimer s1) ≠ Some PingInterval). unfold s2. by rewrite kind_arm.
Qed.
Lemma calm_update who env g d s :
  kind_at (t_timers s) (t_nextTimer s) = None →
  (∀ k, who = Handshake k → greeted k (t_log s) ∧ ∀ j, open_socket s = Some j → j = k ∧ ∃ o url, opened_with k o url (t_log s) ∧ o_syncGroups o = g) →
  calm s (updateSubscription who env g d s).
Proof.
  intros H Hg. unfold updateSubscription. destruct (open_socket s) as [j|]; [|apply calm_settle_throw].
  set (s1 := arm _ d s). assert (Hc1 : calm s s1) by (by apply calm_arm).
  assert (Hk : kind_at (t_timers s1) (t_nextTimer s) ≠ Some PingInterval) by (unfold s1; by rewrite kind_arm).
  case_match; [by etrans; [|apply calm_settle_throw]; etrans; [|by apply calm_clear]|]. case_match.
  - etrans; [exact Hc1|]. set (e1 := Sent _ _). set (e2 := UpdateAsked _ _ _). set (s3 := log_effect e2 (log_effect e1 s1)).
    assert (Hc3 : calm s1 s3) by (by etrans; apply calm_log). etrans; [exact Hc3|].
    apply (calm_updates (pendingSubscriptions s3 ++ [mkPendingSub who (t_nextTimer s)]) s3).
    intros e [?| ->%list_elem_of_singleton]%elem_of_app; [by left|right]. intros k Ek. cbn in Ek. destruct (Hg k Ek) as [Hgr Hop].
    destruct (Hop j eq_refl) as [-> (o & url & Ho & <-)]. assert (Hl : t_log s `prefix_of` t_log s3) by (exists [e1; e2]; cbn; by rewrite <- app_assoc).
    split; [by eapply greeted_grows|]. exists o, url. split; [by eapply opened_grows|]. unfold requested. rewrite <- Ek. apply elem_of_app. right. by apply list_elem_of_singleton.
  - etrans; [|apply calm_settle_throw]. etrans; [|apply (calm_updates _ (clearTimeout (t_nextTimer s) s1))].
    + by etrans; [|by apply calm_clear].
    + intros e [Hne [?| ->%list_elem_of_singleton]%elem_of_app]%list_elem_of_filter; [by left|]. by destruct Hne.
Qed.
Lemma calm_ask_update env g d s : requests_ok s → calm s (ask_update env g d s).
Proof. intros H%new_timer. etrans; [|by apply (calm_update _ env g d (set_nextCall (S (nextCall s)) s))]. calm_step. Qed.
Lemma calm_open_send env m s : calm s (send_open env m s).1.
Proof. unfold send_open. case_match; [apply calm_send|done]. Qed.

Lemma calm_clear_option f t s : requests_ok s → owned (t_timers s) (t_nextTimer s) f t → t ≠ PingInterval → calm s (clear_option f s).
Proof.
  intros H [Ho _] Ht. destruct f as [id|]; [|done]. apply calm_clear. destruct (Ho id eq_refl) as [_ [E|E]]; rewrite E; congruence.
Qed.
Lemma calm_clear_pong s : requests_ok s → calm s (clearHeartbeatTimeout s).
Proof. intros H. unfold clearHeartbeatTimeout. etrans; [by apply (calm_clear_option (t_heartbeatTimeout s) PongTimeout); [|apply (ok_pong _ H)|]|]. calm_step. Qed.
Lemma calm_schedule env s : requests_ok s → calm s (scheduleReconnect env s).
Proof.
  intros H. unfold scheduleReconnect. destruct (ok_clear_reconnect _ H) as [H1 _].
  assert (Hc : calm s (clear_option (reconnectTimer s) s)) by (by apply (calm_clear_option _ Reconnect); [|apply (ok_reconnect _ H)|]).
  set (s1 := clear_option _ s) in *. do 3 (case_match; [try (by etrans; [|apply calm_emit]); done|]).
  etrans; [exact Hc|]. etrans; [|etrans; [apply calm_arm|]]; [by apply calm_emit| |calm_step]. by apply (new_timer s1).
Qed.

(** ** Closing and the heartbeat *)

Lemma life_close k c r s : life_ok s → life_ok (close_socket k c r s).
Proof.
  intros H. unfold close_socket. destruct (ready_of k s) as [st|] eqn:E; [|done].
  assert (Hm : life_ok (move_socket k CLOSING s)).
  { unfold ready_of in E. destruct H. constructor; cbn; try done.
    - intros j r' Hj Hr. rewrite list_lookup_insert in Hj. case_decide; [naive_solver|eauto].
    - intros j (r' & Hj & Hr)%lf_owned0. rewrite list_lookup_insert. case_decide; [by eexists|eauto].
    - intros j Hj. rewrite list_lookup_insert. case_decide; [done|]. by apply lf_connecting0.
    - intros j Hj. rewrite length_insert. auto.
    - by rewrite length_insert. }
  destruct st; try done; by eapply ws_calm_ok; [apply calm_log|].
Qed.
Lemma life_force r s : life_ok s → life_ok (forceClose r s).
Proof. intros H. unfold forceClose. case_match; [|done]. apply life_close. eapply ws_calm_ok; [|done]. calm_step. Qed.
Lemma life_tick env s : requests_ok s → life_ok s → life_ok (heartbeat_tick env s).
Proof.
  intros Hr H. unfold heartbeat_tick. case_match; [|done]. case_match; [|by apply life_force].
  set (s1 := log_effect _ s). assert (Hs1 : requests_ok s1) by (by apply (quiet_ok s); [apply quiet_log|]).
  eapply ws_calm_ok; [|done]. change (t_heartbeatTimeout s) with (t_heartbeatTimeout s1).
  etrans; [by apply (calm_log (Sent n ping) s)|]. fold s1.
  etrans; [by apply (calm_clear_option (t_heartbeatTimeout s1) PongTimeout); [|apply (ok_pong _ Hs1)|]|].
  etrans; [apply (calm_arm PongTimeout HEARTBEAT_TIMEOUT_MS)|calm_step].
  assert (t_nextTimer (clear_option (t_heartbeatTimeout s1) s1) = t_nextTimer s1) as -> by (by destruct (t_heartbeatTimeout s1)).
  pose proof (new_timer _ Hs1) as Hn. destruct (t_heartbeatTimeout s1); [|done]. cbn. rewrite kind_delete. by case_decide.
Qed.

(** ** The announcement *)

Lemma start_same s : let s' := heartbeat_start s in
  ws s' = ws s ∧ t_sockets s' = t_sockets s ∧ isConnecting s' = isConnecting s ∧ presenceEstablished s' = presenceEstablished s
  ∧ initialSubscription s' = initialSubscription s ∧ pendingSubscriptions s' = pendingSubscriptions s ∧ t_micro s' = t_micro s
  ∧ t_log s' = t_log s
  ∧ ∃ id, t_heartbeatTimer s' = Some id ∧ t_timers s' !! id = Some (PingInterval, HEARTBEAT_INTERVAL_MS).
Proof.
  unfold heartbeat_start, heartbeat_stop, clearHeartbeatTimeout. cbn. destruct (t_heartbeatTimer s); cbn; destruct (t_heartbeatTimeout s); cbn;
    split_and!; try done; eexists; (split; [done|]); by rewrite lookup_insert_eq.
Qed.
Lemma open_socket_some s k : open_socket s = Some k ↔ ws s = Some k ∧ t_sockets s !! k = Some OPEN.
Proof.
  unfold open_socket, in_state, readyState, ready_of. case_bool_decide as E.
  - destruct (ws s) as [j|]; cbn in E; [|done]. split; [intros [= ->]; done|intros [? _]; done].
  - split; [done|]. intros [Hk Ho]. destruct E. by rewrite Hk.
Qed.
Lemma life_handshake env s :
  requests_ok s → life_ok s → (∀ k, ws s = Some k → greeted k (t_log s)) → life_ok (completePresenceHandshake env s).
Proof.
  intros Hr H Hg. unfold completePresenceHandshake. destruct (open_socket s) as [k|] eqn:E; [|done]. apply open_socket_some in E as [Hk Ho].
  destruct (presenceEstablished s) eqn:Ep; [done|]. destruct (initialSubscription s) as [groups|] eqn:Ei.
  - destruct (initialSubscriptionInFlight s); [done|]. eapply ws_calm_ok; [|done].
    etrans; [|apply (calm_update _ env _ _ (set_initialSubscriptionInFlight true s))]; [calm_step|by apply (new_timer s)|].
    intros j [= <-]. split; [by apply Hg|]. intros i Hi. change (open_socket s = Some i) in Hi. apply open_socket_some in Hi as [Hi _].
    split; [congruence|by apply (lf_wanted _ H)].
  - set (s1 := set_hasConnected _ _). set (s2 := log_effect _ s1).
    pose proof (calm_sends env (e_onOpened env) s2) as Hc. set (s3 := foldl _ s2 _) in *.
    destruct (start_same s3) as (E1 & E2 & E3 & E4 & E5 & E6 & E7 & E8 & id & E9 & E10).
    assert (Hlog : t_log s `prefix_of` t_log s3) by (etrans; [|apply (calm_grows _ _ Hc)]; by exists [EmittedConnected k]).
    assert (Hcon : connecteds (t_log s3) = connecteds (t_log s) ++ [k]) 
      by (rewrite (calm_connecteds _ _ Hc); apply (connecteds_app (t_log s) [EmittedConnected k])).
    destruct Hc. destruct H.
    assert (Hnew : k ∉ connecteds (t_log s)) by (intros (_ & Hp)%lf_connected0; specialize (Hp Hk); congruence).
    constructor; rewrite ?E1, ?E2, ?E3, ?E4, ?E5, ?E6, ?E7, ?E8, ?cm_ws0, ?cm_sockets0, ?cm_connecting0, ?cm_presence0, ?cm_initial0, ?Hcon; try done.
    + intros j [Hj| ->%list_elem_of_singleton]%elem_of_app.
      * destruct (lf_connected0 j Hj) as [? ?]. by split.
      * split; [by eapply lookup_lt_Some|done].
    + destruct cm_log0 as (l & -> & Hl & _). apply announced_app; [|done]. apply announced_snoc; [done|].
      intros j [= <-]. split; [by apply Hg|by apply lf_interest0].
    + by apply NoDup_snoc.
    + intros j Hj _. apply elem_of_app. right. apply list_elem_of_singleton. change (ws s2) with (ws s) in Hj. congruence.
    + destruct cm_log0 as (l & -> & _ & Hl). rewrite receiveds_app, Forall_app. split; [|done].
      change (t_log s2) with (t_log s ++ [EmittedConnected k]). by rewrite receiveds_app, app_nil_r.
    + intros j Hj Hi. eapply interest_grows; [done|]. by apply lf_interest0.
    + intros j g Hj Hi. change (initialSubscription s = Some g) in Hi. congruence.
    + intros e j [He|He]%cm_updates0 Hw; [|by apply He]. eapply awaited_grows; [done|]. by eapply lf_waiting0.
    + intros j g Hm%cm_micro0. destruct (lf_answered0 j g Hm) as [? Ha]. split; [by eapply awaited_grows|].
      intros Hj. destruct Hlog as [x ->]. apply elem_of_app. left. by apply Ha.
    + intros j _ _. eauto.
Qed.

Lemma ws_update who env g d s : ws (updateSubscription who env g d s) = ws s.
Proof. unfold updateSubscription. repeat case_match; try done; by destruct who. Qed.
Lemma ws_sends env l s : ws (foldl (λ s m, send env m s) s l) = ws s.
Proof. apply (cm_ws _ _ (calm_sends env l s)). Qed.
Lemma ws_handshake env s : ws (completePresenceHandshake env s) = ws s.
Proof.
  unfold completePresenceHandshake. repeat case_match; try done; [by rewrite ws_update|].
  rewrite (proj1 (start_same _)). by rewrite ws_sends.
Qed.
Lemma ws_close k c r s : ws (close_socket k c r s) = ws s.
Proof. unfold close_socket. by repeat case_match. Qed.
Lemma ws_continues env s p : ws (handshake_continues env s p) = ws s.
Proof.
  unfold handshake_continues. repeat case_match; try done; [by rewrite ws_handshake|].
  rewrite (cm_ws _ _ (calm_error env _)). apply ws_close.
Qed.

Definition answered (s : transport) (p : nat * result (list string)) : Prop :=
  match p.2 with Ok _ => awaited p.1 (t_log s) ∧ (ws s = Some p.1 → Acked (Handshake p.1) p.1 true ∈ t_log s) | Throw _ => True end.
Lemma life_continues env s p : requests_ok s → life_ok s → answered s p → life_ok (handshake_continues env s p).
Proof.
  intros Hr H Ha. unfold handshake_continues. case_bool_decide as Hk; [|done]. destruct p as [k [g|e]]; cbn in *.
  - destruct Ha as [Hg Ha]. specialize (Ha Hk). apply life_handshake; [done| |by intros j [= <-]%(eq_trans (eq_sym Hk)); apply Hg].
    destruct H. constructor; cbn; try done. intros j Hj _. change (ws s = Some j) in Hj. assert (j = k) as -> by congruence.
    destruct Hg as (_ & o & url & Ho & Hq). exists o, url. split; [done|]. by right.
  - eapply ws_calm_ok; [apply calm_error|]. by apply life_close.
Qed.
Lemma life_continuations_from env l s : requests_ok s → life_ok s → Forall (answered s) l → life_ok (foldl (handshake_continues env) s l).
Proof.
  revert s. induction l as [|p l IH]; intros s Hr H Hl; [done|]. apply Forall_cons in Hl as [Hp Hl]. cbn. apply IH.
  - by apply ok_continues.
  - by apply life_continues.
  - eapply Forall_impl; [exact Hl|]. intros [k [g|e]]; [|done]. unfold answered. cbn. rewrite ws_continues. intros [Hg Ha].
    destruct (grows_continues env s p) as [x Hx]. split; [eapply awaited_grows, Hg; by exists x|]. intros ?%Ha. rewrite Hx. set_solver.
Qed.
Lemma life_continuations env s : requests_ok s → life_ok s → life_ok (run_continuations env s).
Proof.
  intros Hr H. unfold run_continuations. apply life_continuations_from; [done| |].
  - destruct H. constructor; cbn; try done. set_solver.
  - apply Forall_forall. intros [k [g|e]] Hin; [|done]. apply (lf_answered _ H k g Hin).
Qed.

(** ** Connecting and closing *)

Lemma life_free s : life_ok s → transport_busy s = false → ws s = None.
Proof.
  intros H Hb. unfold transport_busy in Hb. apply orb_false_iff in Hb as [[Ho Hc]%orb_false_iff Hi].
  destruct (ws s) as [k|] eqn:Ek; [|done]. destruct (lf_owned _ H k Ek) as (r & Hr & Hne).
  unfold in_state, readyState, ready_of in *. rewrite Ek in Ho, Hc. cbn in *. rewrite Hr in Ho, Hc.
  destruct r; [|by rewrite bool_decide_true in Ho|by rewrite bool_decide_true in Hc|done].
  rewrite (lf_connecting _ H k Ek Hr) in Hi. done.
Qed.
(** Without a socket most of the invariant is empty. *)
Lemma life_idle s s' : life_ok s → ws s' = None →
  (∀ k r, t_sockets s' !! k = Some r → r = CONNECTING ∨ r = OPEN → False) → length (t_sockets s') = length (t_sockets s) →
  (∃ l, t_log s' = t_log s ++ l ∧ plain_effects l s) →
  (∀ e, e ∈ pendingSubscriptions s' → e ∈ pendingSubscriptions s) → (∀ k g, (k, Ok g) ∈ t_micro s' → (k, Ok g) ∈ t_micro s) → life_ok s'.
Proof.
  intros [] Hw Hs Hlen (l & Hlog & Hl & Hr) Hu Hm.
  assert (Hg : t_log s `prefix_of` t_log s') by (by exists l).
  constructor; rewrite ?Hw, ?Hlen; try done.
  - intros k r Hk Hr'. by destruct (Hs k r Hk Hr').
  - rewrite Hlog, connecteds_app, Hl, app_nil_r. intros k (? & _)%lf_connected0. done.
  - rewrite Hlog. by apply announced_app.
  - by rewrite Hlog, connecteds_app, Hl, app_nil_r.
  - by rewrite Hlog, receiveds_app, Forall_app.
  - intros e k ?%Hu Hk. eapply awaited_grows; [done|]. by eapply lf_waiting0.
  - intros k g [? _]%Hm%lf_answered0. split; [by eapply awaited_grows|done].
Qed.

Lemma life_connect env s : requests_ok s → life_ok s → life_ok (transport_connect env s).
Proof.
  intros Hr H. unfold transport_connect. destruct (connectHeld s); [done|]. destruct (sessionErrorDetected s); [done|].
  destruct (transport_busy s) eqn:Hb; [done|]. apply (life_free _ H) in Hb.
  assert (Hlive : ∀ k r, t_sockets s !! k = Some r → r = CONNECTING ∨ r = OPEN → False).
  { intros k r Hk Hr'. pose proof (lf_live _ H k r Hk Hr'). congruence. }
  set (s1 := set_presenceEstablished _ _). assert (H1 : life_ok s1) by (apply (life_idle s); try done; no_log).
  destruct (e_constructs env).
  - set (k := length (t_sockets s)). set (e := Opened _ _ _ _).
    assert (Hlook : ∀ j, (t_sockets s ++ [CONNECTING]) !! j = if decide (j = k) then Some CONNECTING else t_sockets s !! j).
    { intros j. case_decide as E; [by subst; rewrite list_lookup_middle|]. destruct (decide (j < k)%nat); [by rewrite lookup_app_l|].
      rewrite (lookup_ge_None_2 (t_sockets s)) by (unfold k in *; lia). apply lookup_ge_None_2. rewrite length_app. cbn. unfold k in *. lia. }
    assert (Hlog : ∀ l, connecteds (l ++ [e]) = connecteds l) by (intros l; by rewrite connecteds_app, app_nil_r).
    assert (Hg : ∀ l, l `prefix_of` l ++ [e]) by (intros l; by exists [e]).
    destruct H1. constructor; cbn; rewrite ?Hlog; try done.
    + intros j r. rewrite Hlook. case_decide; [naive_solver|]. intros Hj Hr'. by destruct (Hlive j r Hj Hr').
    + intros j [= <-]. exists CONNECTING. by rewrite Hlook, decide_True.
    + intros j (? & ?)%lf_connected0. rewrite length_app. cbn in *. split; [lia|intros [= <-]; unfold k in *; lia].
    + by apply announced_app.
    + rewrite receiveds_app, app_nil_r, length_app. eapply Forall_impl; [exact lf_received0|]. cbn. lia.
    + intros j [= <-] Hi. exists (t_options s). eexists. split; [eexists; apply elem_of_app; right; by apply list_elem_of_singleton|left]. exists (e_cursor env).
      unfold connect_url. destruct (interest_by_frame _ _); [discriminate|done].
    + intros j g [= <-] Hi. exists (t_options s). eexists. split; [eexists; apply elem_of_app; right; by apply list_elem_of_singleton|].
      destruct (interest_by_frame _ _); [by injection Hi|discriminate].
    + intros x j Hx Hj. eapply awaited_grows; [apply Hg|]. by eapply lf_waiting0.
    + intros j g [Hj Ha]%lf_answered0. split; [by eapply awaited_grows, Hj|]. intros [= <-].
      destruct Hj as [Hj%greeted_received _]. rewrite Forall_forall in lf_received0. apply lf_received0 in Hj. unfold k in Hj. cbn in Hj. lia.
  - eapply ws_calm_ok; [apply calm_schedule|].
    + by by_quiet ltac:(apply quiet_emit_error).
    + eapply ws_calm_ok; [apply calm_error|]. by apply (life_idle s1); try done; no_log.
Qed.

Lemma stop_same s : let s' := heartbeat_stop s in
  ws s' = ws s ∧ t_sockets s' = t_sockets s ∧ pendingSubscriptions s' = pendingSubscriptions s ∧ t_micro s' = t_micro s ∧ t_log s' = t_log s
  ∧ reconnectTimer s' = reconnectTimer s.
Proof.
  unfold heartbeat_stop, clearHeartbeatTimeout. cbn. by destruct (t_heartbeatTimer s); cbn; destruct (t_heartbeatTimeout s).
Qed.
Lemma life_disconnect s : life_ok s → life_ok (disconnect s).
Proof.
  intros H. unfold disconnect. destruct (stop_same (set_isManualClose true s)) as (E1 & E2 & E3 & E4 & E5 & _).
  set (s1 := heartbeat_stop _) in *. set (s2 := match reconnectTimer s1 with Some _ => _ | None => _ end).
  assert (ws s2 = ws s ∧ t_sockets s2 = t_sockets s ∧ pendingSubscriptions s2 = pendingSubscriptions s ∧ t_micro s2 = t_micro s ∧ t_log s2 = t_log s)
    as (F1 & F2 & F3 & F4 & F5) by (unfold s2; by destruct (reconnectTimer s1)).
  assert (Hidle : ∀ socks l, (∀ j r, socks !! j = Some r → r = CONNECTING ∨ r = OPEN → False) → length socks = length (t_sockets s) →
    plain_effects l s → life_ok (set_t_log (t_log s2 ++ l) (set_t_sockets socks (set_ws None s2)))).
  { intros socks l Hs Hlen Hl. apply (life_idle s); try done.
    - exists l. change (t_log s2 ++ l = t_log s ++ l ∧ plain_effects l s). by rewrite F5.
    - change (∀ e, e ∈ pendingSubscriptions s2 → e ∈ pendingSubscriptions s). by rewrite F3.
    - change (∀ k g, (k, Ok g) ∈ t_micro s2 → (k, Ok g) ∈ t_micro s). by rewrite F4. }
  assert (Hstay : ∀ s', t_log s' = t_log s2 → t_sockets s' = t_sockets s2 → ws s' = None → pendingSubscriptions s' = pendingSubscriptions s2 →
    t_micro s' = t_micro s2 → (∀ j r, t_sockets s !! j = Some r → r = CONNECTING ∨ r = OPEN → False) → life_ok s').
  { intros s' G1 G2 G3 G4 G5 Hno. apply (life_idle s); rewrite ?G1, ?G2, ?G3, ?G4, ?G5, ?F2, ?F3, ?F4, ?F5; try done. no_log. }
  destruct (ws s2) as [k|] eqn:Ek.
  2: { apply Hstay; try done. intros j r Hj Hr. pose proof (lf_live _ H j r Hj Hr). congruence. }
  unfold close_socket, ready_of. change (t_sockets (set_ws None s2)) with (t_sockets s2). rewrite F2.
  assert (Hlive : ∀ j r, t_sockets s !! j = Some r → r = CONNECTING ∨ r = OPEN → j = k).
  { intros j r Hj Hr. pose proof (lf_live _ H j r Hj Hr). congruence. }
  destruct (t_sockets s !! k) as [r|] eqn:Er.
  2: { apply Hstay; try done. intros j r Hj Hr. assert (j = k) as -> by eauto. congruence. }
  assert (Hc : life_ok (log_effect (CloseCalled k 1000 "Manual disconnect") (move_socket k CLOSING (set_ws None s2)))).
  { apply (Hidle _ [CloseCalled k 1000 "Manual disconnect"]).
    - change (t_sockets (set_ws None s2)) with (t_sockets s2). rewrite F2. intros j r' Hj Hr. rewrite list_lookup_insert in Hj.
      case_decide; [naive_solver|]. assert (j = k) as -> by eauto. apply lookup_lt_Some in Er. tauto.
    - change (t_sockets (set_ws None s2)) with (t_sockets s2). by rewrite length_insert, F2.
    - split; [done|constructor]. }
  destruct r; try done; apply Hstay; try done; intros j r' Hj Hr; assert (j = k) as -> by eauto; naive_solver.
Qed.

Lemma calm_reject_commits s : requests_ok s → calm s (reject_commits s).
Proof.
  intros H. unfold reject_commits. etrans; [|apply calm_commits].
  assert (Hk : ∀ x, x ∈ pendingMutations s → kind_at (t_timers s) (pm_timeout x.2) ≠ Some PingInterval).
  { intros [tx p] Hp. cbn. pose proof (ok_commits _ H tx p Hp) as E. change (c_timers _) with (t_timers s) in E. by rewrite E. }
  revert Hk. generalize (pendingMutations s). clear H. intros l. revert s. induction l as [|x l IH]; intros s Hk; [done|]. cbn.
  etrans; [apply (calm_clear (pm_timeout x.2)), Hk; left|]. etrans; [apply calm_settle|]. apply IH.
  intros y Hy. cbn. rewrite kind_delete. case_decide; [done|]. apply Hk. by right.
Qed.
Lemma calm_reject_updates s : requests_ok s → calm s (reject_updates s).
Proof.
  intros H. unfold reject_updates. etrans; [|apply calm_updates; set_solver].
  assert (Hk : ∀ e, e ∈ pendingSubscriptions s → kind_at (t_timers s) (ps_timeout e) ≠ Some PingInterval).
  { intros e He. pose proof (ok_updates _ H e He) as E. change (c_timers _) with (t_timers s) in E. by rewrite E. }
  revert Hk. generalize (pendingSubscriptions s). clear H. intros l. revert s. induction l as [|x l IH]; intros s Hk; [done|]. cbn.
  etrans; [apply (calm_clear (ps_timeout x)), Hk; left|]. etrans; [apply calm_settle_throw|]. apply IH.
  intros y Hy. assert (t_timers (settle_update (ps_who x) (Throw (mkError AbloConnectionError None)) (clearTimeout (ps_timeout x) s))
    = delete (ps_timeout x) (t_timers s)) as -> by (by destruct (ps_who x)).
  rewrite kind_delete. case_decide; [done|]. apply Hk. by right.
Qed.
Lemma calm_ending env c r opened s : requests_ok s → calm s (close_ending env c r opened s).
Proof.
  intros H. unfold close_ending. case_match; [by do 2 (etrans; [|apply calm_emit])|]. case_match.
  { do 2 (etrans; [|apply calm_emit]). calm_step. }
  case_match; [by do 2 (etrans; [|apply calm_emit])|].
  case_match; [apply calm_emit|]. etrans; [apply calm_emit|]. apply calm_schedule. by by_quiet ltac:(apply quiet_emit).
Qed.
Lemma life_socket_close env k c r s : requests_ok s → life_ok s → life_ok (socket_close env k c r s).
Proof.
  intros Hr H. unfold socket_close. destruct (ready_of k s) as [st|] eqn:Est; [|done].
  assert (Hst : st = CLOSED ∨ st ≠ CLOSED) by (destruct st; auto). destruct Hst as [->|Hst]; [done|].
  assert (Hlen : (k < length (t_sockets s))%nat) by (by eapply lookup_lt_Some).
  set (s0 := move_socket k CLOSED s). enough (life_ok (if match ws s0 with Some k' => bool_decide (k' = k) | None => true end
    then on_close env c r s0 else s0)) by (by destruct st).
  assert (Hlook : ∀ j, t_sockets s0 !! j = if decide (j = k) then Some CLOSED else t_sockets s !! j).
  { intros j. unfold s0. cbn. rewrite list_lookup_insert. repeat case_decide; naive_solver. }
  case_match eqn:Hown.
  - unfold on_close. set (s1 := set_t_lines _ _). destruct (stop_same (log_effect ClosedHook s1)) as (E1 & E2 & E3 & E4 & E5 & _).
    set (s2 := heartbeat_stop _) in *.
    assert (Hr2 : requests_ok s2) by (by apply ok_heartbeat_stop; by_quiet ltac:(by apply quiet_log)).
    assert (H2 : life_ok s2).
    { apply (life_idle s); rewrite ?E1, ?E2, ?E3, ?E4, ?E5; try done.
      - intros j r' Hj Hr'. change (t_sockets (log_effect ClosedHook s1)) with (t_sockets s0) in Hj. rewrite Hlook in Hj.
        case_decide; [naive_solver|]. pose proof (lf_live _ H j r' Hj Hr') as Hw. change (ws s0) with (ws s) in Hown.
        rewrite Hw in Hown. apply bool_decide_eq_true in Hown. done.
      - change (length (<[k:=CLOSED]> (t_sockets s)) = length (t_sockets s)). by rewrite length_insert.
      - exists [ClosedHook]. split; [done|]. split; [done|constructor]. }
    pose proof (ok_reject_commits _ Hr2). eapply ws_calm_ok; [apply calm_ending|].
    + by apply ok_reject_updates.
    + eapply ws_calm_ok; [by apply calm_reject_updates|]. by eapply ws_calm_ok; [apply calm_reject_commits|].
  - change (ws s0) with (ws s) in Hown. destruct (ws s) as [k'|] eqn:Ek; [|done]. apply bool_decide_eq_false in Hown.
    destruct H. constructor; change (ws s0) with (ws s); change (t_log s0) with (t_log s); rewrite ?Ek; try done.
    + intros j r'. rewrite Hlook. case_decide; [naive_solver|]. rewrite <- Ek. eauto.
    + intros j [= <-]. rewrite Hlook, decide_False by done. by apply lf_owned0.
    + intros j [= <-]. rewrite Hlook, decide_False by done. by apply lf_connecting0.
    + intros j Hj. change (presenceEstablished s0) with (presenceEstablished s). cbn. rewrite length_insert, <- Ek. by apply lf_connected0.
    + rewrite <- Ek. done.
    + change (length (t_sockets s0)) with (length (<[k:=CLOSED]> (t_sockets s))). by rewrite length_insert.
    + rewrite <- Ek. done.
    + rewrite <- Ek. done.
    + rewrite <- Ek. done.
    + rewrite <- Ek. done.
Qed.

Lemma life_socket_open env k s : life_ok s → life_ok (socket_open env k s).
Proof.
  intros H. unfold socket_open. destruct (ready_of k s) as [[]|] eqn:E; try done. unfold ready_of in E.
  pose proof (lf_live _ H k CONNECTING E ltac:(by left)) as Hk. change (ws (move_socket k OPEN s)) with (ws s). rewrite bool_decide_true by done.
  destruct H. constructor; cbn; try done.
  - intros j r. rewrite list_lookup_insert. case_decide; [naive_solver|eauto].
  - intros j (r & Hj & Hr)%lf_owned0. rewrite list_lookup_insert. case_decide; [by eexists|eauto].
  - intros j Hj. rewrite list_lookup_insert. case_decide as Hd; [done|]. intros Hj'.
    change (ws s = Some j) in Hj. assert (j = k) as -> by congruence. destruct Hd. split; [done|]. by eapply lookup_lt_Some.
  - intros j Hj. rewrite length_insert. by apply lf_connected0.
  - by rewrite length_insert.
Qed.

Section Machine.
Context (frame_schema : string → json → option json) (receipt_shape : fields → option CommitReceipt).
Context (envelope : fields → option (json * json)) (hooks : frame_hooks).
Local Notation step := (ws_step frame_schema receipt_shape envelope hooks).
Local Notation run := (ws_run frame_schema receipt_shape envelope hooks).

Lemma calm_mutation_result f s : requests_ok s → calm s (handleMutationResult receipt_shape f s).1.
Proof.
  intros H. unfold handleMutationResult. destruct (tx ← _; _) as [[tx p]|] eqn:E; [|done].
  apply bind_Some in E as (tx' & _ & (p' & Hp & [= -> ->])%bind_Some). apply map_get_elem in Hp.
  pose proof (ok_commits _ H tx p Hp) as Hk. change (c_timers _) with (t_timers s) in Hk.
  assert (Hc : calm s (set_pendingMutations (map_delete tx (pendingMutations s)) (clearTimeout (pm_timeout p) s))).
  { etrans; [|apply calm_commits]. apply calm_clear. by rewrite Hk. }
  repeat case_match; try done; by etrans; [|apply calm_settle].
Qed.

Lemma life_subscription_ack k f s : requests_ok s → life_ok s → ws s = Some k → life_ok (handleSubscriptionAck k f s).
Proof.
  intros Hr H Hk. unfold handleSubscriptionAck. destruct (pendingSubscriptions s) as [|e rest] eqn:Ee; [done|].
  set (ack := subscriptionAckPayloadSchema _). set (ok := match ack with Some ack => sa_success ack | None => false end).
  pose proof (ok_updates _ Hr e ltac:(change (c_updates _) with (pendingSubscriptions s); rewrite Ee; left)) as Ht.
  change (c_timers _) with (t_timers s) in Ht.
  set (s1 := log_effect _ _). assert (Hc : calm s s1).
  { etrans; [|by apply calm_log]. etrans; [apply (calm_updates rest)|].
    - intros x Hx. left. rewrite Ee. by right.
    - apply (calm_clear _ (set_pendingSubscriptions rest s)). change (kind_at (t_timers s) (ps_timeout e) ≠ Some PingInterval). by rewrite Ht. }
  assert (H1 : life_ok s1) by by eapply ws_calm_ok.
  assert (Hthrow : ∀ err, life_ok (settle_update (ps_who e) (Throw err) s1)) by (intros err; by eapply ws_calm_ok; [apply calm_settle_throw|]).
  destruct ack as [a|] eqn:Ea; [|apply Hthrow]. destruct (sa_success a) eqn:Es; [|apply Hthrow].
  set (s2 := set_t_options _ s1). assert (H2 : life_ok s2) by (eapply ws_calm_ok; [|done]; calm_step).
  destruct (ps_who e) as [n|j] eqn:Ew; [by eapply ws_calm_ok; [apply calm_settle|]|]. cbn [settle_update].
  assert (Hg : awaited j (t_log s)) by (by apply (lf_waiting _ H e); [rewrite Ee; left|]).
  assert (Hlog : t_log s1 = t_log s ++ [Acked (Handshake j) k ok]) by done.
  destruct H2. constructor; try done.
  intros i g [Hi|Hi]%elem_of_app; [by eapply lf_answered0|]. apply list_elem_of_singleton in Hi as [= -> ->].
  change (t_log _) with (t_log s1). rewrite Hlog. split; [eapply awaited_grows, Hg; by eexists|].
  intros Hj. change (ws s = Some j) in Hj. assert (k = j) as -> by congruence. apply elem_of_app. right. apply list_elem_of_singleton.
  done.
Qed.

Lemma calm_delta p s : calm s (handleDeltaFrame hooks p s).
Proof. unfold handleDeltaFrame. repeat case_match; try done; apply calm_emit_all. Qed.
Lemma life_plain k t f s : requests_ok s → life_ok s → ws s = Some k → life_ok (handle_plain_frame receipt_shape hooks k t f s).1.
Proof.
  intros Hr H Hk. unfold handle_plain_frame. case_match; [by eapply ws_calm_ok; [by apply calm_mutation_result|]|].
  case_match; [by apply life_subscription_ack|]. case_match; [by eapply ws_calm_ok; [apply calm_delta|]|].
  repeat case_match; by eapply ws_calm_ok; [apply calm_emit_all|].
Qed.
Lemma life_schema env t p s : requests_ok s → life_ok s → (t = "presence_session"%string → ∀ k, ws s = Some k → greeted k (t_log s)) →
  life_ok (handle_schema_frame env t p s).
Proof.
  intros Hr H Hg. unfold handle_schema_frame. case_match eqn:Et.
  { apply String.eqb_eq in Et. apply life_handshake; [by by_quiet ltac:(apply quiet_emit)|by eapply ws_calm_ok; [apply calm_emit|]|].
    intros k Hk. eapply greeted_grows, (Hg Et k Hk). by eexists. }
  case_match; [|case_match].
  - unfold on_queue_snapshot. do 2 (eapply ws_calm_ok; [apply calm_emit|]). eapply ws_calm_ok; [|done]. calm_step.
  - unfold on_queue_patch. set (s1 := emit _ _ s). assert (Hs1 : life_ok s1) by (by eapply ws_calm_ok; [apply calm_emit|]).
    case_match; [|by apply life_force]. assert (Hs2 : life_ok (set_t_lines c s1)) by (eapply ws_calm_ok; [|done]; calm_step).
    repeat case_match; try done. by eapply ws_calm_ok; [apply calm_emit|].
  - by eapply ws_calm_ok; [apply calm_emit|].
Qed.
Lemma life_dispatch env k f s : requests_ok s → life_ok s → ws s = Some k → (is_session_frame (JObj f) = true → greeted k (t_log s)) →
  life_ok (dispatchWsFrame frame_schema receipt_shape envelope hooks env k f s).1.
Proof.
  intros Hr H Hk Hg. unfold dispatchWsFrame. destruct (map_get "type" f ≫= text_of) as [t|] eqn:Et.
  2: { case_match; [by eapply ws_calm_ok; [apply calm_emit_all|]|done]. }
  case_match; [done|]. case_match.
  - case_match; [|by apply life_plain]. destruct (frame_schema t _) as [j|]; [|done]. apply life_schema; [done..|].
    intros -> i Hi. assert (i = k) as -> by congruence. apply Hg. unfold is_session_frame. by rewrite Et.
  - unfold handle_collaboration. repeat case_match; try done; by eapply ws_calm_ok; [apply calm_emit|].
Qed.
Lemma life_message env k d s : requests_ok s → life_ok s → life_ok (socket_message frame_schema receipt_shape envelope hooks env k d s).
Proof.
  intros Hr H. unfold socket_message. case_match eqn:Ho; [|done]. apply andb_true_iff in Ho as [_ Hk%bool_decide_eq_true].
  destruct d as [m|]; [|done]. set (s1 := log_effect (Received k m) s).
  assert (Hr1 : requests_ok s1) by (by by_quiet ltac:(by apply quiet_log)).
  assert (Hs1 : life_ok s1).
  { eapply ws_calm_ok; [apply calm_plain|done]. split; [done|]. constructor; [|constructor].
    destruct (lf_owned _ H k Hk) as (r & Hl & _). by eapply lookup_lt_Some. }
  pose proof (calm_clear_pong _ Hr1) as Hc. set (s2 := clearHeartbeatTimeout s1) in *.
  case_match eqn:Ef; [|by eapply ws_calm_ok]. apply life_dispatch.
  - by apply ok_clear_pong.
  - by eapply ws_calm_ok.
  - by rewrite (cm_ws _ _ Hc).
  - intros Hs. eapply greeted_grows; [apply (calm_grows _ _ Hc)|]. exists m. split; [apply elem_of_app; right; apply list_elem_of_singleton; done|].
    unfold readWsInboundFrame in Ef. repeat case_match; simplify_eq; done.
Qed.
Lemma life_fire env id s : requests_ok s → life_ok s → life_ok (fire_timer env id s).
Proof.
  intros Hr H. unfold fire_timer. destruct (fst <$> t_timers s !! id) as [t|] eqn:E; [|done]. fold (kind_at (t_timers s) id) in E.
  assert (Hc : t ≠ PingInterval → calm s (clearTimeout id s)) by (intros Ht; apply calm_clear; congruence).
  assert (Hq : request t = false → requests_ok (clearTimeout id s)).
  { intros Ht. apply (ok_quiet_delete (core_of s) id Hr). intros t' Et. change (c_timers _) with (t_timers s) in Et. congruence. }
  destruct t as [n tx|who| | |].
  - eapply ws_calm_ok; [|done]. etrans; [by apply Hc|]. etrans; [|apply calm_settle]. apply calm_commits.
  - eapply ws_calm_ok; [|done]. etrans; [by apply Hc|]. etrans; [|apply calm_settle_throw]. apply calm_updates.
    intros e [_ He]%list_elem_of_filter. by left.
  - apply life_connect; [by apply (quiet_ok (clearTimeout id s)); [|apply Hq]|]. eapply ws_calm_ok; [|done]. etrans; [by apply Hc|]. calm_step.
  - by apply life_tick.
  - apply life_force. by eapply ws_calm_ok; [apply Hc|].
Qed.
Lemma life_handle env i s : requests_ok s → life_ok s → life_ok (handle_input frame_schema receipt_shape envelope hooks env i s).
Proof.
  intros Hr H. destruct i; cbn -[heartbeat_stop requestSync]; try (by eapply ws_calm_ok; [|exact H]; calm_step).
  - by apply life_connect.
  - by apply life_disconnect.
  - by eapply ws_calm_ok; [apply calm_send|].
  - by eapply ws_calm_ok; [by apply calm_sendCommit|].
  - unfold sendCommitQueued. repeat case_match; try done. by eapply ws_calm_ok; [by apply calm_log|].
  - by eapply ws_calm_ok; [by apply calm_ask_update|].
  - by eapply ws_calm_ok; [apply calm_open_send|].
  - unfold transport_acknowledge. case_match; [by eapply ws_calm_ok; [apply calm_send|]|done].
  - by eapply ws_calm_ok; [apply calm_open_send|].
  - by eapply ws_calm_ok; [apply calm_send|].
  - by eapply ws_calm_ok; [apply calm_send|].
  - by apply life_socket_open.
  - by apply life_message.
  - unfold socket_error. case_match; [by eapply ws_calm_ok; [apply calm_error|]|done].
  - by apply life_socket_close.
  - by apply life_fire.
Qed.
Lemma life_step s p : requests_ok s → readable p.2 = true → life_ok s → life_ok (step s p).
Proof.
  intros Hr Hp H. unfold ws_step. apply life_continuations; [|by apply life_handle].
  by apply ok_handle.
Qed.
Lemma life_new deferConnect o : life_ok (new_transport deferConnect o).
Proof. constructor; cbn; try done; try apply NoDup_nil_2; try set_solver. intros [|??] ? ?; done. Qed.
Lemma life_run deferConnect o l : Forall (λ p, readable p.2 = true) l → life_ok (run (new_transport deferConnect o) l).
Proof.
  induction l as [|p l IH] using rev_ind; intros Hl; [apply life_new|]. apply Forall_app in Hl as [Hl Hp]. rewrite Forall_singleton in Hp.
  unfold ws_run. rewrite foldl_app. apply life_step; [by apply ok_run|done|by apply IH].
Qed.

(** C36: Whatever is asked of the transport and whatever its sockets and timers do, as long
    as no conflict arrives that cannot be read, the only socket that is connecting or open
    is the one the transport holds. A connection is announced at most once per socket, only
    after the server bound a session to that very socket and only when its read interest is
    known: the upgrade named the groups of the options the socket was opened with, or those
    groups were sent over the socket and acknowledged there. A transport that calls itself
    connected holds an announced socket and has its heartbeat running. *)
Theorem connected_means_ready deferConnect o l :
  Forall (λ p, readable p.2 = true) l →
  let s := run (new_transport deferConnect o) l in
  (∀ k, t_sockets s !! k = Some CONNECTING ∨ t_sockets s !! k = Some OPEN → ws s = Some k)
  ∧ NoDup (connecteds (t_log s))
  ∧ (∀ before k after, t_log s = before ++ EmittedConnected k :: after → greeted k before ∧ interest_known k before)
  ∧ (transport_isConnected s = true →
     ∃ k id, open_socket s = Some k ∧ k ∈ connecteds (t_log s)
             ∧ t_heartbeatTimer s = Some id ∧ t_timers s !! id = Some (PingInterval, HEARTBEAT_INTERVAL_MS)).
Proof.
  intros Hl s. pose proof (life_run deferConnect o l Hl) as H. fold s in H. split_and!.
  - intros k Hk. destruct Hk as [Hk|Hk]; eapply (lf_live _ H); eauto.
  - apply (lf_once _ H).
  - apply (lf_after _ H).
  - unfold transport_isConnected. intros [Hp Ho]%andb_true_iff. unfold open_socket. rewrite Ho.
    destruct (ws s) as [k|] eqn:Ek.
    + destruct (lf_watched _ H k Ek Hp) as (id & ? & ?). exists k, id. split_and!; try done. by apply (lf_announced _ H).
    + unfold in_state, readyState in Ho. rewrite Ek in Ho. by apply bool_decide_eq_true in Ho.
Qed.
End Machine.

(** * Which acknowledgement answers which subscription update

    The wire carries no id for a subscription update, so acknowledgements are matched to the
    updates by their order. That holds of a connection as long as no update is given up
    before its answer and a new socket is opened only when the earlier ones are closed. *)

(** The updates sent over a socket and the ones its acknowledgements answered. *)
Definition asked_on (k : nat) (l : list effect) : list waiter :=
  omap (λ e, match e with UpdateAsked who j _ => if bool_decide (j = k) then Some who else None | _ => None end) l.
Definition acked_on (k : nat) (l : list effect) : list waiter :=
  omap (λ e, match e with Acked who j _ => if bool_decide (j = k) then Some who else None | _ => None end) l.
Definition queue_effects (l : list effect) : list effect :=
  List.filter (λ e, match e with UpdateAsked _ _ _ | Acked _ _ _ => true | _ => false end) l.
Lemma asked_app k l l' : asked_on k (l ++ l') = asked_on k l ++ asked_on k l'.
Proof. apply omap_app. Qed.
Lemma ws_acked_app k l l' : acked_on k (l ++ l') = acked_on k l ++ acked_on k l'.
Proof. apply omap_app. Qed.
Lemma no_queue_effects k l : queue_effects l = [] → asked_on k l = [] ∧ acked_on k l = [].
Proof. induction l as [|[] l IH]; cbn; try done; intros H; destruct (IH H) as [-> ->]; done. Qed.

Definition open_still (s : transport) (k : nat) : Prop := ∃ r, t_sockets s !! k = Some r ∧ r ≠ CLOSED.

Record lines_ok (s : transport) : Prop := {
  ln_prefix : ∀ k, acked_on k (t_log s) `prefix_of` asked_on k (t_log s);
  ln_line : ∀ k, open_still s k → asked_on k (t_log s) = acked_on k (t_log s) ++ (ps_who <$> pendingSubscriptions s);
  ln_none : (∀ k, ¬ open_still s k) → pendingSubscriptions s = [];
  ln_one : ∀ j k, open_still s j → open_still s k → j = k;
  ln_known : ∀ k, (length (t_sockets s) ≤ k)%nat → asked_on k (t_log s) = [];
}.

(** [still s s']: no update was sent and none was answered. *)
Record still (s s' : transport) : Prop := {
  st_length : length (t_sockets s') = length (t_sockets s);
  st_open : ∀ k, open_still s' k ↔ open_still s k;
  st_updates : pendingSubscriptions s' = pendingSubscriptions s;
  st_log : ∃ l, t_log s' = t_log s ++ l ∧ queue_effects l = [];
}.
#[local] Instance still_preorder : PreOrder still.
Proof.
  split.
  - intros s. constructor; try done. exists []. by rewrite app_nil_r.
  - intros s1 s2 s3 [] []. constructor; try congruence; [intros k; by rewrite st_open1|].
    destruct st_log0 as (l & E & H), st_log1 as (l' & E' & H'). exists (l ++ l'). rewrite E', E, app_assoc. split; [done|].
    unfold queue_effects in *. by rewrite List.filter_app, H, H'.
Qed.
Lemma still_lines s s' : still s s' → lines_ok s → lines_ok s'.
Proof.
  intros [] []. destruct st_log0 as (l & E & Hl).
  assert (Ha : ∀ k, asked_on k (t_log s') = asked_on k (t_log s) ∧ acked_on k (t_log s') = acked_on k (t_log s)).
  { intros k. rewrite E, asked_app, ws_acked_app. destruct (no_queue_effects k l Hl) as [-> ->]. by rewrite !app_nil_r. }
  constructor; rewrite ?st_updates0, ?st_length0; try (intros k; destruct (Ha k) as [-> ->]); rewrite ?st_open0; auto.
  - intros Hno. apply ln_none0. intros k. by rewrite <- st_open0.
  - intros j k. rewrite !st_open0. auto.
  - intros k Hk. rewrite (proj1 (Ha k)). auto.
Qed.

(** ** Still functions *)

Ltac still_step := constructor; cbn; try done; exists []; by rewrite app_nil_r.
Lemma still_same s s' : t_sockets s' = t_sockets s → pendingSubscriptions s' = pendingSubscriptions s → t_log s' = t_log s → still s s'.
Proof. intros E1 E2 E3. constructor; rewrite ?E1; try done; [intros k; unfold open_still; by rewrite E1|]. exists []. by rewrite E3, app_nil_r. Qed.
Lemma still_log e s : queue_effects [e] = [] → still s (log_effect e s).
Proof. intros He. constructor; cbn; try done. by exists [e]. Qed.
Lemma still_emit e p s : still s (emit e p s).
Proof. by apply still_log. Qed.
Lemma still_settle n o s : still s (settle n o s).
Proof. by apply still_log. Qed.
Lemma still_settle_update who r s : still s (settle_update who r s).
Proof. destruct who; [apply still_settle|by apply still_same]. Qed.
Lemma still_error env s : still s (emit_error env s).
Proof. unfold emit_error. case_match; [apply still_emit|done]. Qed.
Lemma still_send env m s : still s (send env m s).
Proof. unfold send. repeat case_match; try done. by apply still_log. Qed.
Lemma still_clear id s : still s (clearTimeout id s).
Proof. by apply still_same. Qed.
Lemma still_clear_option id s : still s (clear_option id s).
Proof. destruct id; [apply still_clear|done]. Qed.
Lemma still_arm t d s : still s (arm t d s).
Proof. by apply still_same. Qed.
Lemma still_foldl {A} (f : transport → A → transport) l s : (∀ s a, still s (f s a)) → still s (foldl f s l).
Proof. intros Hf. revert s. induction l as [|a l IH]; intros s; [done|]. cbn. etrans; [apply Hf|apply IH]. Qed.
Lemma still_emit_all l s : still s (emit_all l s).
Proof. apply still_foldl. intros; apply still_emit. Qed.
Lemma still_move k r s : open_still s k → r ≠ CLOSED → still s (move_socket k r s).
Proof.
  intros [r0 [Hk Hr0]] Hr. constructor; cbn; try done; [by rewrite length_insert| |exists []; by rewrite app_nil_r].
  intros j. unfold open_still. cbn. rewrite list_lookup_insert. case_decide as Hd; [|done]. destruct Hd as [<- _]. naive_solver.
Qed.
Lemma still_close k c r s : still s (close_socket k c r s).
Proof.
  unfold close_socket, ready_of. case_match eqn:E; [|done].
  assert (Hm : r0 ≠ CLOSED → still s (move_socket k CLOSING s)) by (intros; apply still_move; [by eexists|done]).
  destruct r0; try done; by etrans; [apply Hm|apply still_log].
Qed.
Lemma still_force r s : still s (forceClose r s).
Proof. unfold forceClose. case_match; [|done]. by etrans; [|apply still_close]; apply still_same. Qed.
Lemma still_clear_pong s : still s (clearHeartbeatTimeout s).
Proof. unfold clearHeartbeatTimeout. etrans; [apply still_clear_option|by apply still_same]. Qed.
Lemma still_stop s : still s (heartbeat_stop s).
Proof. unfold heartbeat_stop. etrans; [|apply still_clear_pong]. etrans; [apply (still_clear_option (t_heartbeatTimer s))|by apply still_same]. Qed.
Lemma still_start s : still s (heartbeat_start s).
Proof. unfold heartbeat_start. etrans; [apply still_stop|]. by apply still_same. Qed.
Lemma still_tick env s : still s (heartbeat_tick env s).
Proof.
  unfold heartbeat_tick. repeat case_match; try done; [|apply still_force]. etrans; [by apply (still_log (Sent n ping))|].
  etrans; [apply (still_clear_option (t_heartbeatTimeout s))|]. by apply still_same.
Qed.
Lemma still_sendCommit receipt env ops tx d reads s : still s (sendCommit receipt env ops tx d reads s).
Proof.
  unfold sendCommit. set (s1 := log_effect (CommitAsked (nextCall s) tx) (set_nextCall (S (nextCall s)) s)).
  assert (Hs1 : still s s1) by (etrans; [by apply (still_log (CommitAsked (nextCall s) tx))|by apply still_same]).
  repeat case_match; [..|by etrans; [|apply still_settle]].
  - etrans; [exact Hs1|]. etrans; [|by apply still_log]. by apply still_same.
  - etrans; [exact Hs1|]. etrans; [|apply still_settle]. by apply still_same.
Qed.
Lemma still_schedule env s : still s (scheduleReconnect env s).
Proof.
  unfold scheduleReconnect. etrans; [apply (still_clear_option (reconnectTimer s))|]. set (s1 := clear_option _ s).
  do 3 (case_match; [try apply still_emit; done|]). etrans; [apply still_emit|by apply still_same].
Qed.
Lemma still_disconnect s : still s (disconnect s).
Proof.
  unfold disconnect. set (s1 := heartbeat_stop _). assert (Hs1 : still s s1) by (etrans; [|apply still_stop]; by apply still_same).
  set (s2 := match reconnectTimer s1 with Some _ => _ | None => _ end).
  assert (Hs2 : still s s2) by (etrans; [exact Hs1|]; unfold s2; case_match; [by apply still_same|done]).
  destruct (ws s2); [|done]. etrans; [exact Hs2|]. etrans; [|apply still_close]. by apply still_same.
Qed.
Lemma still_reject_commits s : still s (reject_commits s).
Proof.
  unfold reject_commits. etrans; [apply (still_foldl (λ s p, settle (pm_call p.2) (Failed (connection_error "commit_no_result")) (clearTimeout (pm_timeout p.2) s)) (pendingMutations s))|by apply still_same].
  intros t p. etrans; [apply still_clear|apply still_settle].
Qed.
Lemma still_ending env c r o s : still s (close_ending env c r o s).
Proof.
  unfold close_ending. repeat case_match; repeat (etrans; [|apply still_emit]); try done; try by apply still_same.
  etrans; [apply still_emit|apply still_schedule].
Qed.
Lemma still_socket_open env k s : still s (socket_open env k s).
Proof.
  unfold socket_open, ready_of. destruct (t_sockets s !! k) as [[]|] eqn:E; try done.
  etrans; [apply (still_move k OPEN); [by eexists|done]|]. case_match; by apply still_same.
Qed.

(** ** Sending, answering, opening and closing *)

Lemma open_socket_still s k : open_socket s = Some k → open_still s k.
Proof. intros [_ H]%open_socket_some. by exists OPEN. Qed.

Lemma remove_fresh timeout l e : timeout ∉ (ps_timeout <$> l) → ps_timeout e = timeout → remove_entry timeout (l ++ [e]) = l.
Proof.
  intros Hl He. unfold remove_entry. rewrite filter_app, filter_cons_False by (by rewrite He; intros []). rewrite filter_nil, app_nil_r.
  apply filter_keeps. intros x Hx Ex. apply Hl, list_elem_of_fmap. by exists x.
Qed.

Lemma lines_update who env g d s :
  t_nextTimer s ∉ (ps_timeout <$> pendingSubscriptions s) → lines_ok s → lines_ok (updateSubscription who env g d s).
Proof.
  intros Hf H. unfold updateSubscription. destruct (open_socket s) as [k|] eqn:Ek; [|by eapply still_lines; [apply still_settle_update|]].
  apply open_socket_still in Ek. case_match.
  { eapply still_lines; [|exact H]. etrans; [|apply still_settle_update]. by apply still_same. }
  case_match.
  - set (m := frame _ _). set (s2 := log_effect (UpdateAsked who k g) _).
    assert (Hlog : t_log s2 = t_log s ++ [Sent k m; UpdateAsked who k g])
      by (change (t_log s2) with ((t_log s ++ [Sent k m]) ++ [UpdateAsked who k g]); by rewrite <- app_assoc).
    assert (Hps : pendingSubscriptions s2 = pendingSubscriptions s ++ [mkPendingSub who (t_nextTimer s)]) by done.
    destruct H. constructor; change (open_still s2) with (open_still s); change (t_sockets s2) with (t_sockets s); rewrite ?Hps.
    + intros j. rewrite Hlog, asked_app, ws_acked_app, app_nil_r. cbn. case_bool_decide; [|by rewrite app_nil_r].
      etrans; [apply ln_prefix0|]. by eexists.
    + intros j Hj. assert (j = k) as -> by eauto. rewrite Hlog, asked_app, ws_acked_app. cbn. rewrite bool_decide_true, !app_nil_r by done.
      by rewrite (ln_line0 _ Hj), fmap_app, app_assoc.
    + intros Hno. by destruct (Hno k).
    + done.
    + intros j Hj. rewrite Hlog, asked_app, (ln_known0 _ Hj). cbn.
      case_bool_decide; [|done]. subst. destruct Ek as (r & Hr & _). apply lookup_lt_Some in Hr. lia.
  - eapply still_lines; [|exact H]. etrans; [|apply still_settle_update]. apply still_same; try done.
    apply (remove_fresh _ _ (mkPendingSub who (t_nextTimer s)) Hf eq_refl).
Qed.

Lemma lines_ack k f s : open_still s k → lines_ok s → lines_ok (handleSubscriptionAck k f s).
Proof.
  intros Hk H. unfold handleSubscriptionAck. destruct (pendingSubscriptions s) as [|e rest] eqn:Ee; [done|].
  set (ack := subscriptionAckPayloadSchema _). set (ok := match ack with Some ack => sa_success ack | None => false end).
  set (s1 := log_effect (Acked (ps_who e) k ok) _). assert (H1 : lines_ok s1).
  { assert (Hlog : t_log s1 = t_log s ++ [Acked (ps_who e) k ok]) by done.
    pose proof (ln_line _ H k Hk) as Hline. rewrite Ee in Hline. cbn in Hline.
    destruct H. constructor; rewrite ?Hlog; change (open_still s1) with (open_still s); change (pendingSubscriptions s1) with rest.
    - intros j. rewrite asked_app, ws_acked_app. cbn. case_bool_decide; [|rewrite !app_nil_r; apply ln_prefix0].
      subst. rewrite app_nil_r, Hline. exists (ps_who <$> rest). by rewrite <- app_assoc.
    - intros j Hj. assert (j = k) as -> by eauto. rewrite asked_app, ws_acked_app. cbn. rewrite bool_decide_true, app_nil_r by done.
      by rewrite Hline, <- app_assoc.
    - intros Hno. by destruct (Hno k).
    - done.
    - intros j Hj. rewrite asked_app, (ln_known0 _ Hj). done. }
  destruct ack as [a|]; [|by eapply still_lines; [apply still_settle_update|]].
  destruct (sa_success a); [|by eapply still_lines; [apply still_settle_update|]].
  eapply still_lines; [|exact H1]. etrans; [|apply still_settle_update]. by apply still_same.
Qed.

Lemma lines_connect env s :
  (transport_busy s = false → ∀ k, ¬ open_still s k) → lines_ok s → lines_ok (transport_connect env s).
Proof.
  intros Hno H. unfold transport_connect. destruct (connectHeld s); [done|]. destruct (sessionErrorDetected s); [done|].
  destruct (transport_busy s) eqn:Hb; [done|]. specialize (Hno eq_refl).
  destruct (e_constructs env).
  2: { eapply still_lines; [|exact H]. etrans; [|apply still_schedule]. etrans; [|apply still_error]. by apply still_same. }
  set (k := length (t_sockets s)). set (e := Opened _ _ _ _). set (s1 := log_effect e _).
  assert (Hlog : t_log s1 = t_log s ++ [e]) by done.
  assert (Hsock : t_sockets s1 = t_sockets s ++ [CONNECTING]) by done.
  assert (Hopen : ∀ j, open_still s1 j → j = k).
  { intros j (r & Hj & Hr). rewrite Hsock in Hj. apply lookup_snoc_Some in Hj as [[_ Hj]|[-> _]]; [|done]. destruct (Hno j). by exists r. }
  destruct H. constructor; rewrite ?Hlog, ?Hsock; change (pendingSubscriptions s1) with (pendingSubscriptions s).
  - intros j. rewrite asked_app, ws_acked_app, !app_nil_r. done.
  - intros j ->%Hopen. rewrite asked_app, ws_acked_app, !app_nil_r, ln_none0 by done. rewrite (ln_known0 k) by done.
    pose proof (ln_prefix0 k) as Hp. rewrite (ln_known0 k) in Hp by done. apply prefix_nil_inv in Hp. by rewrite Hp.
  - intros Hno1. destruct (Hno1 k). exists CONNECTING. rewrite Hsock. split; [by rewrite lookup_app_r, Nat.sub_diag by done|done].
  - intros i j ->%Hopen ->%Hopen. done.
  - intros j. rewrite length_app, asked_app, app_nil_r. cbn. intros Hj. apply ln_known0. lia.
Qed.

Lemma lines_reject s : (∀ k, ¬ open_still s k) → (∀ k, acked_on k (t_log s) `prefix_of` asked_on k (t_log s)) →
  (∀ k, (length (t_sockets s) ≤ k)%nat → asked_on k (t_log s) = []) → lines_ok (reject_updates s).
Proof.
  intros Hno Hp Hk. unfold reject_updates.
  pose proof (still_foldl (λ s p, settle_update (ps_who p) (Throw (mkError AbloConnectionError None)) (clearTimeout (ps_timeout p) s))
    (pendingSubscriptions s) s ltac:(intros t p; etrans; [apply still_clear|apply still_settle_update])) as [Hlen Hopen _ (l & Hlog & Hl)].
  set (s1 := foldl _ s _) in *. assert (Ha : ∀ k, asked_on k (t_log s1) = asked_on k (t_log s) ∧ acked_on k (t_log s1) = acked_on k (t_log s)).
  { intros k. rewrite Hlog, asked_app, ws_acked_app. destruct (no_queue_effects k l Hl) as [-> ->]. by rewrite !app_nil_r. }
  constructor; change (t_log (set_pendingSubscriptions [] s1)) with (t_log s1); change (open_still (set_pendingSubscriptions [] s1)) with (open_still s1);
    change (t_sockets (set_pendingSubscriptions [] s1)) with (t_sockets s1).
  - intros k. by destruct (Ha k) as [-> ->].
  - intros k ?%Hopen. by destruct (Hno k).
  - done.
  - intros j k ?%Hopen. by destruct (Hno j).
  - intros k Hle. rewrite (proj1 (Ha k)). apply Hk. lia.
Qed.
Lemma lines_close env k c r s : life_ok s → lines_ok s → lines_ok (socket_close env k c r s).
Proof.
  intros Hlife H. unfold socket_close. destruct (ready_of k s) as [st|] eqn:Est; [|done]. unfold ready_of in Est.
  assert (Hst : st = CLOSED ∨ st ≠ CLOSED) by (destruct st; auto). destruct Hst as [->|Hst]; [done|].
  assert (Hk : open_still s k) by by exists st.
  assert (Hown : match ws s with Some k' => bool_decide (k' = k) | None => true end = true).
  { destruct (ws s) as [k'|] eqn:Ew; [|done]. apply bool_decide_eq_true. apply (ln_one _ H); [|done]. by apply (lf_owned _ Hlife). }
  set (s0 := move_socket k CLOSED s). enough (lines_ok (on_close env c r s0)) by (change (ws s0) with (ws s); rewrite Hown; by destruct st).
  assert (Hno : ∀ j, ¬ open_still s0 j).
  { intros j (r' & Hj & Hr'). unfold s0 in Hj. cbn in Hj. rewrite list_lookup_insert in Hj. case_decide as Hd; [naive_solver|].
    assert (j = k) as -> by (apply (ln_one _ H); [by exists r'|done]). apply lookup_lt_Some in Est. tauto. }
  unfold on_close. eapply still_lines; [apply still_ending|]. set (s3 := reject_commits _).
  assert (Hs : still s0 s3).
  { etrans; [|apply still_reject_commits]. etrans; [|apply still_stop]. etrans; [by apply (still_log ClosedHook)|by apply still_same]. }
  destruct Hs as [Hlen Hopen _ (l & Hlog & Hl)].
  assert (Ha : ∀ k, asked_on k (t_log s3) = asked_on k (t_log s) ∧ acked_on k (t_log s3) = acked_on k (t_log s)).
  { intros j. rewrite Hlog, asked_app, ws_acked_app. destruct (no_queue_effects j l Hl) as [-> ->]. by rewrite !app_nil_r. }
  apply lines_reject.
  - intros j ?%Hopen. by destruct (Hno j).
  - intros j. destruct (Ha j) as [-> ->]. apply (ln_prefix _ H).
  - intros j Hle. rewrite (proj1 (Ha j)). apply (ln_known _ H). rewrite Hlen in Hle. unfold s0 in Hle. cbn in Hle. by rewrite length_insert in Hle.
Qed.

Lemma lines_handshake env s : requests_ok s → lines_ok s → lines_ok (completePresenceHandshake env s).
Proof.
  intros Hr H. unfold completePresenceHandshake. destruct (open_socket s) as [k|]; [|done]. destruct (presenceEstablished s); [done|].
  destruct (initialSubscription s) as [g|].
  - destruct (initialSubscriptionInFlight s); [done|]. apply lines_update; [by apply (update_fresh s)|].
    eapply still_lines; [|exact H]. by apply still_same.
  - eapply still_lines; [|exact H]. etrans; [|apply still_start]. etrans; [|apply still_foldl; intros; apply still_send].
    etrans; [|by apply still_log]. by apply still_same.
Qed.
Lemma lines_continues env s p : requests_ok s → lines_ok s → lines_ok (handshake_continues env s p).
Proof.
  intros Hr H. unfold handshake_continues. case_match; [|done]. case_match.
  - apply lines_handshake; [done|]. eapply still_lines; [|exact H]. by apply still_same.
  - eapply still_lines; [|exact H]. etrans; [apply still_close|apply still_error].
Qed.
Lemma lines_continuations env s : requests_ok s → lines_ok s → lines_ok (run_continuations env s).
Proof.
  intros Hr H. unfold run_continuations. assert (H' : lines_ok (set_t_micro [] s)) by (eapply still_lines; [|exact H]; by apply still_same).
  assert (Hr' : requests_ok (set_t_micro [] s)) by done. revert Hr' H'. generalize (set_t_micro [] s).
  generalize (t_micro s). clear. intros l. induction l as [|p l IH]; intros s Hr H; [done|]. cbn.
  apply IH; [by apply ok_continues|by apply lines_continues].
Qed.

(** ** Orderly runs *)

(** An input that gives up no update and opens no socket beside one that is still closing. *)
Definition opens (s : transport) (i : ws_input) : Prop :=
  i = DoConnect ∨ ∃ id, i = TimerFired id ∧ kind_at (t_timers s) id = Some Reconnect.
Record orderly_input (s : transport) (i : ws_input) : Prop := {
  oi_readable : readable i = true;
  oi_patient : ∀ id who, i = TimerFired id → kind_at (t_timers s) id ≠ Some (SubscriptionTimeout who);
  oi_closed : opens s i → ws s = None → ∀ k r, t_sockets s !! k = Some r → r = CLOSED;
}.

Section Machine.
Context (frame_schema : string → json → option json) (receipt_shape : fields → option CommitReceipt).
Context (envelope : fields → option (json * json)) (hooks : frame_hooks).
Local Notation step := (ws_step frame_schema receipt_shape envelope hooks).
Local Notation run := (ws_run frame_schema receipt_shape envelope hooks).

Fixpoint orderly (s : transport) (l : list (env * ws_input)) : Prop :=
  match l with [] => True | p :: l => orderly_input s p.2 ∧ orderly (step s p) l end.

Lemma lines_message env k d s : requests_ok s → lines_ok s → lines_ok (socket_message frame_schema receipt_shape envelope hooks env k d s).
Proof.
  intros Hr H. unfold socket_message. case_match eqn:Ho; [|done]. apply andb_true_iff in Ho as [Ho Hk%bool_decide_eq_true].
  destruct d as [m|]; [|done]. set (s2 := clearHeartbeatTimeout _).
  assert (Hs : still s s2) by (etrans; [|apply still_clear_pong]; by apply still_log).
  assert (Hr2 : requests_ok s2) by (by apply ok_clear_pong; by_quiet ltac:(by apply quiet_log)).
  assert (H2 : lines_ok s2) by by eapply still_lines.
  assert (Hopen : open_still s2 k).
  { apply (st_open _ _ Hs). apply open_socket_still. unfold open_socket. by rewrite Ho. }
  destruct (readWsInboundFrame m) as [f|]; [|done]. unfold dispatchWsFrame. destruct (map_get "type" f ≫= text_of) as [t|].
  2: { case_match; [by eapply still_lines; [apply still_emit_all|]|done]. }
  case_match; [done|]. case_match; [case_match|].
  - destruct (frame_schema t _) as [j|]; [|done]. unfold handle_schema_frame. case_match.
    { apply lines_handshake; [by by_quiet ltac:(apply quiet_emit)|by eapply still_lines; [apply still_emit|]]. }
    case_match; [|case_match]; (eapply still_lines; [|exact H2]).
    + unfold on_queue_snapshot. do 2 (etrans; [|apply still_emit]). by apply still_same.
    + unfold on_queue_patch. repeat case_match; try (etrans; [|apply still_emit]); try (etrans; [|apply still_force]); try apply still_emit;
        (etrans; [apply still_emit|by apply still_same]).
    + apply still_emit.
  - unfold handle_plain_frame. case_match.
    { eapply still_lines; [|exact H2]. unfold handleMutationResult. repeat case_match; try done; try (etrans; [|apply still_settle]); by apply still_same. }
    case_match; [by apply lines_ack|]. case_match.
    { eapply still_lines; [|exact H2]. unfold handleDeltaFrame. repeat case_match; try done; apply still_emit_all. }
    repeat case_match; by eapply still_lines; [apply still_emit_all|].
  - unfold handle_collaboration. repeat case_match; try done; by eapply still_lines; [apply still_emit|].
Qed.
Lemma lines_fire env id s : requests_ok s → life_ok s → lines_ok s → orderly_input s (TimerFired id) → lines_ok (fire_timer env id s).
Proof.
  intros Hr Hlife H [_ Hp Hc]. unfold fire_timer. destruct (fst <$> t_timers s !! id) as [t|] eqn:E; [|done].
  fold (kind_at (t_timers s) id) in E. destruct t as [n tx|who| | |].
  - eapply still_lines; [|exact H]. etrans; [|apply still_settle]. by apply still_same.
  - by destruct (Hp id who eq_refl).
  - apply lines_connect; [|by eapply still_lines; [|exact H]; apply still_same].
    intros Hb k (r & Hk & Hr'). destruct Hr'. apply (Hc ltac:(right; eauto) ltac:(by apply (life_free _ Hlife)) k r Hk).
  - eapply still_lines; [apply still_tick|done].
  - eapply still_lines; [|exact H]. etrans; [apply still_clear|apply still_force].
Qed.
Lemma lines_step s p : requests_ok s → life_ok s → lines_ok s → orderly_input s p.2 → lines_ok (step s p).
Proof.
  intros Hr Hlife H Ho. destruct p as [env i]. unfold ws_step. apply lines_continuations; [by apply ok_handle; destruct Ho|]. cbn in *.
  destruct i; cbn -[heartbeat_stop requestSync]; try (by eapply still_lines; [|exact H]; apply still_same).
  - apply lines_connect; [|done]. intros Hb k (r & Hk & Hr'). destruct Hr'. destruct Ho as [_ _ Hc].
    apply (Hc ltac:(by left) ltac:(by apply (life_free _ Hlife)) k r Hk).
  - eapply still_lines; [apply still_disconnect|done].
  - eapply still_lines; [apply still_send|done].
  - eapply still_lines; [apply still_sendCommit|done].
  - eapply still_lines; [|exact H]. unfold sendCommitQueued. repeat case_match; try done. by apply still_log.
  - apply lines_update; [by apply (update_fresh s)|]. eapply still_lines; [|exact H]. by apply still_same.
  - eapply still_lines; [|exact H]. unfold requestSync, send_open. case_match; [apply still_send|done].
  - eapply still_lines; [|exact H]. unfold transport_acknowledge. case_match; [apply still_send|done].
  - eapply still_lines; [|exact H]. unfold sendPresenceCommand, send_open. case_match; [apply still_send|done].
  - eapply still_lines; [apply still_send|done].
  - eapply still_lines; [apply still_send|done].
  - eapply still_lines; [apply still_socket_open|done].
  - by apply lines_message.
  - eapply still_lines; [|exact H]. unfold socket_error. case_match; [apply still_error|done].
  - by apply lines_close.
  - by apply lines_fire.
Qed.
Lemma lines_new deferConnect o : lines_ok (new_transport deferConnect o).
Proof. constructor; cbn; try done; intros k; try done; by intros ? (? & ? & _). Qed.
Lemma orderly_run s l : requests_ok s → life_ok s → lines_ok s → orderly s l → lines_ok (run s l).
Proof.
  revert s. induction l as [|p l IH]; intros s Hr Hlife H Ho; [done|]. destruct Ho as [Hi Ho]. cbn. apply IH; [|..|done].
  - apply ok_step; [done|by destruct Hi].
  - apply life_step; [done|by destruct Hi|done].
  - by apply lines_step.
Qed.

(** C37: In a run in which no subscription update is given up by its timer and a socket is
    opened only when the earlier ones are closed, the acknowledgements that arrive over a
    socket answer the updates that were sent over it, each in its turn; and the updates sent
    over the socket in use are those answered, followed by those that wait. *)
Theorem acks_answer_in_order deferConnect o l :
  orderly (new_transport deferConnect o) l →
  let s := run (new_transport deferConnect o) l in
  (∀ k, acked_on k (t_log s) `prefix_of` asked_on k (t_log s))
  ∧ ∀ k, open_socket s = Some k → asked_on k (t_log s) = acked_on k (t_log s) ++ (ps_who <$> pendingSubscriptions s).
Proof.
  intros Ho s. assert (H : lines_ok s) by (apply orderly_run; [apply ok_new|apply life_new|apply lines_new|done]).
  split; [apply (ln_prefix _ H)|]. intros k Hk. by apply (ln_line _ H), open_socket_still.
Qed.
End Machine.
