(* ===== verification/WsRecovery.v ===== *)
(** * Recovery of the WebSocket transport

    A dropped connection is tried again with growing delays and a bounded number of times, a
    silent one is closed, and the wait lines a connection keeps are those of the server or
    the connection starts over. *)
From stdpp Require Import gmap strings.
From Stdlib Require Import QArith Qround Lqa.
From S2P Require Import Prelude JsData Json DeltaStore SourceModel WsFrames WsTransport WsTransportFacts WsLifecycle.
#[local] Open Scope Z_scope.

(** ** The delay of a retry *)

Lemma backoff_near d m n random :
  (0 <= d)%Q → (0 <= m)%Q → (0 <= random)%Q → (random < 1)%Q →
  let base := if Qle_bool (d * Qpow2 n) m then (d * Qpow2 n)%Q else m in
  let delay := Qfloor (base * ((85 # 100) + random * (3 # 10)) + (1 # 2)) in
  (base * (85 # 100) - (1 # 2) <= inject_Z delay)%Q ∧ (inject_Z delay <= base * (115 # 100) + (1 # 2))%Q.
Proof.
  intros Hd0 Hm0 Hr0 Hr1 base delay.
  assert (0 <= Qpow2 n)%Q as Hp by (unfold Qpow2; rewrite <- (Zle_Qle 0); lia).
  pose proof (Qmult_le_0_compat _ _ Hd0 Hp) as Hdp. assert (H0 : (0 <= base)%Q) by (unfold base; by destruct (Qle_bool _ _)).
  clearbody base. split.
  - pose proof (Qlt_floor (base * ((85 # 100) + random * (3 # 10)) + (1 # 2))) as Hf. fold delay in Hf. rewrite inject_Z_plus in Hf.
    assert (0 <= base * random)%Q as Hbr by (by apply Qmult_le_0_compat). change (inject_Z 1) with 1%Q in Hf. lra.
  - pose proof (Qfloor_le (base * ((85 # 100) + random * (3 # 10)) + (1 # 2))) as Hf. eapply Qle_trans; [exact Hf|].
    assert (base * random <= base)%Q as Hbr by nra. lra.
Qed.

(** ** An outage *)

Lemma conn_settle_update who r s : t_conn (settle_update who r s) = t_conn s.
Proof. by destruct who. Qed.
Lemma conn_stop s : t_conn (heartbeat_stop s) = t_conn s ∧ t_options (heartbeat_stop s) = t_options s ∧ t_sockets (heartbeat_stop s) = t_sockets s.
Proof. unfold heartbeat_stop, clearHeartbeatTimeout. destruct (t_heartbeatTimer s); cbn; by destruct (t_heartbeatTimeout s). Qed.
Definition same_world (s s' : transport) : Prop := t_conn s' = t_conn s ∧ t_options s' = t_options s ∧ t_sockets s' = t_sockets s.
#[local] Instance same_world_preorder : PreOrder same_world.
Proof. split; unfold same_world; [done|intros ??? (? & ? & ?) (? & ? & ?); split_and!; congruence]. Qed.
Lemma world_foldl {A} (f : transport → A → transport) l s : (∀ s a, same_world s (f s a)) → same_world s (foldl f s l).
Proof. intros Hf. revert s. induction l as [|a l IH]; intros s; [done|]. cbn. etrans; [apply Hf|apply IH]. Qed.
Lemma world_rejects s : same_world s (reject_updates (reject_commits s)).
Proof.
  assert (Hc : same_world s (reject_commits s)).
  { apply (world_foldl (λ s p, settle (pm_call p.2) (Failed (connection_error "commit_no_result")) (clearTimeout (pm_timeout p.2) s))
      (pendingMutations s)). by intros t p. }
  etrans; [exact Hc|].
  apply (world_foldl (λ s p, settle_update (ps_who p) (Throw (mkError AbloConnectionError None)) (clearTimeout (ps_timeout p) s))
    (pendingSubscriptions (reject_commits s)) (reject_commits s)).
  intros t p. by destruct (ps_who p).
Qed.
Lemma no_socket_continues env l s : ws s = None → foldl (handshake_continues env) s l = s.
Proof.
  revert s. induction l as [|p l IH]; intros s Hw; [done|]. cbn. unfold handshake_continues at 2. rewrite bool_decide_false by (rewrite Hw; done).
  by apply IH.
Qed.

Lemma clear_option_world f s : same_world s (clear_option f s) ∧ t_log (clear_option f s) = t_log s.
Proof. by destruct f. Qed.
Lemma conn_timer v s s' : t_conn s' = t_conn s → t_conn (set_reconnectTimer v s') = t_conn (set_reconnectTimer v s).
Proof.
  intros E. unfold set_reconnectTimer, ws, isConnecting, isManualClose, connectHeld, sessionErrorDetected, everOpened, hasConnected,
    presenceEstablished, reconnectAttempts. cbn. by rewrite E.
Qed.
Lemma schedule_armed env s :
  sessionErrorDetected s = false → e_online env = true → (reconnectAttempts s < MAX_RECONNECT_ATTEMPTS)%nat →
  let s' := scheduleReconnect env s in
  ∃ id, t_conn s' = t_conn (set_reconnectTimer (Some id) s) ∧ t_options s' = t_options s ∧ t_sockets s' = t_sockets s
        ∧ t_timers s' !! id = Some (Reconnect, timer_delay (backoff (t_options s) (reconnectAttempts s) (e_random env))).
Proof.
  intros Hs Ho Ha s'. unfold s', scheduleReconnect. destruct (clear_option_world (reconnectTimer s) s) as ((E1 & E2 & E3) & _).
  set (s1 := clear_option _ s) in *. clearbody s1. unfold sessionErrorDetected, reconnectAttempts in *. rewrite E1, Hs, Ho. cbn [negb].
  rewrite (proj2 (Nat.leb_gt _ _) Ha). eexists. split_and!.
  - apply conn_timer. exact E1.
  - exact E2.
  - exact E3.
  - cbn. by rewrite lookup_insert_eq, E2.
Qed.
Lemma schedule_over env s :
  sessionErrorDetected s = false → e_online env = true → (MAX_RECONNECT_ATTEMPTS ≤ reconnectAttempts s)%nat →
  let s' := scheduleReconnect env s in
  same_world s s' ∧ (∀ id, reconnectTimer s' = Some id → t_timers s' !! id = None)
  ∧ t_log s' = t_log s ++ [Emitted "reconnect_failed" [JObj [("attempts"%string, JNum (Z.of_nat (reconnectAttempts s)))]]].
Proof.
  intros Hs Ho Ha s'. unfold s', scheduleReconnect. destruct (clear_option_world (reconnectTimer s) s) as ((E1 & E2 & E3) & E4).
  assert (Hd : ∀ id, reconnectTimer s = Some id → t_timers (clear_option (reconnectTimer s) s) !! id = None).
  { intros id ->. cbn. apply lookup_delete_eq. }
  set (s1 := clear_option _ s) in *. clearbody s1. unfold sessionErrorDetected, reconnectAttempts in *. rewrite E1, Hs, Ho. cbn [negb].
  rewrite (proj2 (Nat.leb_le _ _) Ha). split; [done|]. split; [|cbn; by rewrite E4].
  intros id. change (reconnectTimer (emit _ _ s1)) with (cn_reconnectTimer (t_conn s1)). rewrite E1. apply Hd.
Qed.

(** The connection is gone and its retry is armed. *)
Record down (s : transport) (id : nat) : Prop := {
  dn_ws : ws s = None;
  dn_idle : isConnecting s = false;
  dn_known : hasConnected s = true;
  dn_wanted : isManualClose s = false;
  dn_session : sessionErrorDetected s = false;
  dn_free : connectHeld s = false;
  dn_settled : t_micro s = [];
  dn_field : reconnectTimer s = Some id;
  dn_armed : ∃ random, (0 <= random < 1)%Q ∧ t_timers s !! id = Some (Reconnect, timer_delay (backoff (t_options s) (reconnectAttempts s) random));
  dn_left : (reconnectAttempts s < MAX_RECONNECT_ATTEMPTS)%nat;
}.
(** The retries are used up: nothing is armed and the owner was told. *)
Definition gave_up (s : transport) : Prop :=
  ws s = None ∧ (∀ id, reconnectTimer s = Some id → t_timers s !! id = None)
  ∧ last (t_log s) = Some (Emitted "reconnect_failed" [JObj [("attempts"%string, JNum (Z.of_nat MAX_RECONNECT_ATTEMPTS))]]).
(** A close after which the transport connects again by itself. *)
Definition ordinary (code : Z) (reason : string) : Prop := code ≠ WS_CLOSE_PROTOCOL_VERSION ∧ isSessionClose code reason = false.

(** ** Silence *)

(** A function that leaves the watch of the heartbeat as it is, or disarms it. *)
Definition unwatched (s : transport) : Prop := t_heartbeatTimeout s = None.
Lemma unwatched_log e s : unwatched s → unwatched (log_effect e s).
Proof. done. Qed.
Lemma unwatched_foldl {A} (f : transport → A → transport) l s : (∀ s a, unwatched s → unwatched (f s a)) → unwatched s → unwatched (foldl f s l).
Proof. intros Hf. revert s. induction l as [|a l IH]; intros s H; [done|]. cbn. auto. Qed.
Lemma unwatched_emit_all l s : unwatched s → unwatched (emit_all l s).
Proof. by apply unwatched_foldl. Qed.
Lemma unwatched_send env m s : unwatched s → unwatched (send env m s).
Proof. intros H. unfold send. by repeat case_match. Qed.
Lemma unwatched_error env s : unwatched s → unwatched (emit_error env s).
Proof. intros H. unfold emit_error. by case_match. Qed.
Lemma unwatched_settle_update who r s : unwatched s → unwatched (settle_update who r s).
Proof. by destruct who. Qed.
Lemma unwatched_close k c r s : unwatched s → unwatched (close_socket k c r s).
Proof. intros H. unfold close_socket. by repeat case_match. Qed.
Lemma unwatched_force r s : unwatched s → unwatched (forceClose r s).
Proof. intros H. unfold forceClose. case_match; [|done]. by apply unwatched_close. Qed.
Lemma unwatched_update who env g d s : unwatched s → unwatched (updateSubscription who env g d s).
Proof. intros H. unfold updateSubscription. repeat case_match; try done; by apply unwatched_settle_update. Qed.
Lemma unwatched_handshake env s : unwatched s → unwatched (completePresenceHandshake env s).
Proof. intros H. unfold completePresenceHandshake. repeat case_match; try done. by apply unwatched_update. Qed.
Lemma unwatched_continuations env s : unwatched s → unwatched (run_continuations env s).
Proof.
  intros H. apply unwatched_foldl; [|done]. intros t p Ht. unfold handshake_continues. repeat case_match; try done.
  - by apply unwatched_handshake.
  - by apply unwatched_error, unwatched_close.
Qed.

(** The continuations of one input leave none behind. *)
Lemma micro_sends env l s : t_micro (foldl (λ s m, send env m s) s l) = t_micro s.
Proof. revert s. induction l as [|m l IH]; intros s; [done|]. cbn. rewrite IH. unfold send. by repeat case_match. Qed.
Lemma micro_close k c r s : t_micro (close_socket k c r s) = t_micro s.
Proof. unfold close_socket. by repeat case_match. Qed.
Lemma micro_continues env s p : t_micro s = [] → t_micro (handshake_continues env s p) = [].
Proof.
  intros H. unfold handshake_continues. case_match; [|done]. case_match.
  - unfold completePresenceHandshake. case_match; [|done]. case_match; [done|]. cbn [initialSubscription set_initialSubscriptionInFlight].
    match goal with |- context [match initialSubscription ?x with Some _ => _ | None => _ end] => change (initialSubscription x) with (@None (list string)) end.
    destruct (start_same (foldl (λ s m, send env m s) (log_effect (EmittedConnected n) (set_hasConnected true (set_reconnectAttempts 0
      (set_presenceEstablished true (set_initialSubscriptionInFlight false (set_initialSubscription None s)))))) (e_onOpened env)))
      as (_ & _ & _ & _ & _ & _ & E & _). etrans; [exact E|]. by rewrite micro_sends.
  - unfold emit_error. case_match; cbn; by rewrite micro_close.
Qed.
Lemma micro_continuations env s : t_micro (run_continuations env s) = [].
Proof.
  unfold run_continuations. assert (H : t_micro (set_t_micro [] s) = []) by done. revert H. generalize (set_t_micro [] s).
  generalize (t_micro s). clear. intros l. induction l as [|p l IH]; intros s H; [done|]. by apply IH, micro_continues.
Qed.
Lemma no_continuations env s : t_micro s = [] → run_continuations env s = set_t_micro [] s.
Proof. unfold run_continuations. by intros ->. Qed.

Section Machine.
Context (frame_schema : string → json → option json) (receipt_shape : fields → option CommitReceipt).
Context (envelope : fields → option (json * json)) (hooks : frame_hooks).
Local Notation step := (ws_step frame_schema receipt_shape envelope hooks).
Local Notation run := (ws_run frame_schema receipt_shape envelope hooks).

(** Losing a socket: the retry is armed, or the retries are used up. *)
Lemma socket_lost s k env code reason :
  ws s = Some k → is_Some (ready_of k s) → ready_of k s ≠ Some CLOSED → hasConnected s = true → isManualClose s = false →
  sessionErrorDetected s = false → connectHeld s = false → e_online env = true → (0 <= e_random env < 1)%Q → ordinary code reason →
  let s' := step s (env, SocketClosed k code reason) in
  t_options s' = t_options s ∧ reconnectAttempts s' = reconnectAttempts s ∧ length (t_sockets s') = length (t_sockets s)
  ∧ if (MAX_RECONNECT_ATTEMPTS <=? reconnectAttempts s)%nat
    then reconnectAttempts s = MAX_RECONNECT_ATTEMPTS → gave_up s'
    else ∃ id, down s' id.
Proof.
  intros Hw [st Hst] Hn Hc Hm Hse Hh Hon Hrnd [Ho1 Ho2] s'. unfold s', ws_step. cbn [handle_input fst snd].
  assert (E : ∃ s1, same_world (set_isConnecting false (set_ws None (move_socket k CLOSED s))) s1
                    ∧ socket_close env k code reason s = scheduleReconnect env (emit "disconnected" [close_event code reason] s1)).
  { unfold socket_close. rewrite Hst. set (s0 := move_socket k CLOSED s).
    exists (reject_updates (reject_commits (heartbeat_stop (log_effect ClosedHook (set_t_lines [] (set_ws None (set_isConnecting false
      (set_lastCloseReason (truthy_text (Some reason)) (set_lastCloseCode (Some code) (set_lastCloseAt (Some (e_now env)) s0)))))))))).
    split.
    { etrans; [|apply world_rejects]. split_and!; [by rewrite (proj1 (conn_stop _))|by rewrite (proj1 (proj2 (conn_stop _)))|by rewrite (proj2 (proj2 (conn_stop _)))]. }
    assert (Hc' : ∀ s2, t_conn s2 = t_conn (set_isConnecting false (set_ws None s0)) → close_ending env code reason (everOpened s0) s2
      = scheduleReconnect env (emit "disconnected" [close_event code reason] s2)).
    { intros s2 E2. unfold close_ending. rewrite (proj2 (Z.eqb_neq _ _) Ho1), Ho2.
      change (isManualClose (emit _ _ s2)) with (isManualClose s2).
      assert (hasConnected s2 = true ∧ isManualClose s2 = false) as [-> ->] by (unfold hasConnected, isManualClose; rewrite E2; done).
      by rewrite andb_false_r. }
    change (ws s0) with (ws s). rewrite Hw, bool_decide_true by done.
    destruct st; try done; unfold on_close; rewrite Hc'; try done; rewrite (proj1 (world_rejects _)); by rewrite (proj1 (conn_stop _)). }
  destruct E as (s1 & (E1 & E2 & E3) & ->). set (s2 := emit _ _ s1).
  assert (Hconn : t_conn s2 = t_conn (set_isConnecting false (set_ws None (move_socket k CLOSED s)))) by exact E1.
  assert (Hf : ws s2 = None ∧ isConnecting s2 = false ∧ hasConnected s2 = true ∧ isManualClose s2 = false ∧ sessionErrorDetected s2 = false
    ∧ connectHeld s2 = false ∧ reconnectAttempts s2 = reconnectAttempts s).
  { unfold ws, isConnecting, hasConnected, isManualClose, sessionErrorDetected, connectHeld, reconnectAttempts. rewrite Hconn. done. }
  destruct Hf as (F1 & F2 & F3 & F4 & F5 & F6 & F7).
  assert (Hlen : length (t_sockets s2) = length (t_sockets s)) by (change (t_sockets s2) with (t_sockets s1); rewrite E3; cbn; by rewrite length_insert).
  assert (Hopt : t_options s2 = t_options s) by exact E2.
  clearbody s2. clear E1 E2 E3 s1. unfold run_continuations.
  case_match eqn:Hle.
  - apply Nat.leb_le in Hle. rewrite <- F7 in Hle. destruct (schedule_over env s2 F5 Hon Hle) as ((G1 & G2 & G3) & G4 & G5).
    set (s3 := scheduleReconnect env s2) in *. assert (Hws : ws s3 = None) by (unfold ws; by rewrite G1).
    rewrite no_socket_continues by done. split_and!; [by rewrite <- Hopt|unfold reconnectAttempts; cbn; by rewrite G1|by rewrite <- Hlen, <- G3|].
    intros Heq. split_and!; [done|exact G4|]. cbn. rewrite G5, last_snoc, F7, Heq. done.
  - apply Nat.leb_gt in Hle. rewrite <- F7 in Hle. destruct (schedule_armed env s2 F5 Hon Hle) as (id & G1 & G2 & G3 & G4).
    set (s3 := scheduleReconnect env s2) in *. assert (Hws : ws s3 = None) by (unfold ws; by rewrite G1).
    rewrite no_socket_continues by done. split_and!; [by rewrite <- Hopt|unfold reconnectAttempts; cbn; by rewrite G1|by rewrite <- Hlen, <- G3|].
    exists id. constructor; try done;
      unfold ws, isConnecting, hasConnected, isManualClose, sessionErrorDetected, connectHeld, reconnectAttempts, reconnectTimer; cbn;
      rewrite ?G1, ?G2; try done.
    exists (e_random env). split; [done|exact G4].
Qed.

(** The retry goes off: a socket is opened with the options the transport has then. *)
Lemma retry_opens s id env : down s id → e_constructs env = true →
  let s' := step s (env, TimerFired id) in let k := length (t_sockets s) in
  ws s' = Some k ∧ ready_of k s' = Some CONNECTING ∧ hasConnected s' = true ∧ isManualClose s' = false ∧ sessionErrorDetected s' = false
  ∧ connectHeld s' = false ∧ reconnectAttempts s' = S (reconnectAttempts s) ∧ t_options s' = t_options s ∧ length (t_sockets s') = S k
  ∧ ∃ protocols, last (t_log s') = Some (Opened k (t_options s) (connect_url (e_cursor env) (t_options s)) protocols).
Proof.
  intros [Hw Hi Hk Hm Hs Hh Hmi Hf (random & _ & Ha) Hl] Hc s' k. unfold s', ws_step. cbn [handle_input fst snd].
  unfold fire_timer. rewrite Ha. cbn [fst fmap option_fmap option_map]. set (s1 := set_reconnectAttempts _ _).
  assert (E : transport_connect env s1 = log_effect (Opened k (t_options s) (connect_url (e_cursor env) (t_options s))
      (connect_protocols (resolveAuthToken (e_getAuthToken env) (e_getCapabilityToken env) (t_options s)) (e_presenceSession env)))
    (set_t_sockets (t_sockets s ++ [CONNECTING]) (set_ws (Some k) (set_presenceEstablished false (set_everOpened false
      (set_initialSubscriptionInFlight false (set_initialSubscription (if interest_by_frame (e_cursor env) (t_options s)
        then Some (o_syncGroups (t_options s)) else None) (set_isManualClose false (set_isConnecting true s1))))))))).
  { unfold transport_connect. change (connectHeld s1) with (connectHeld s). change (sessionErrorDetected s1) with (sessionErrorDetected s).
    rewrite Hh, Hs. assert (transport_busy s1 = false) as ->; [|by rewrite Hc].
    unfold transport_busy, in_state, readyState. change (ws s1) with (ws s). change (isConnecting s1) with (isConnecting s). by rewrite Hw, Hi. }
  rewrite E. clear E. set (s2 := log_effect _ _). unfold run_continuations. change (t_micro s2) with (t_micro s). rewrite Hmi.
  split_and!; try done.
  - unfold ready_of. cbn. unfold k. by rewrite lookup_app_r, Nat.sub_diag.
  - cbn. unfold k. rewrite length_app. cbn. lia.
  - eexists. cbn. by rewrite last_snoc.
Qed.

(** One retry that fails: the timer goes off and the socket closes again. *)
Definition failed_retry (s : transport) (c : env * env * (Z * string)) : transport :=
  match reconnectTimer s with
  | Some id => run s [(c.1.1, TimerFired id); (c.1.2, SocketClosed (length (t_sockets s)) c.2.1 c.2.2)]
  | None => s
  end.
Definition retry_fails (c : env * env * (Z * string)) : Prop :=
  e_constructs c.1.1 = true ∧ e_online c.1.2 = true ∧ (0 <= e_random c.1.2 < 1)%Q ∧ ordinary c.2.1 c.2.2.
Lemma failed_retry_spec s id c : down s id → retry_fails c →
  let s' := failed_retry s c in
  t_options s' = t_options s ∧ reconnectAttempts s' = S (reconnectAttempts s) ∧ length (t_sockets s') = S (length (t_sockets s))
  ∧ if (S (reconnectAttempts s) <? MAX_RECONNECT_ATTEMPTS)%nat then ∃ id, down s' id else gave_up s'.
Proof.
  intros Hd (Hc & Ho & Hrnd & Hord) s'. unfold s', failed_retry. rewrite (dn_field _ _ Hd). cbn [ws_run foldl].
  destruct (retry_opens s id c.1.1 Hd Hc) as (E1 & E2 & E3 & E4 & E5 & E6 & E7 & E8 & E9 & _).
  set (s1 := step s (c.1.1, TimerFired id)) in *.
  destruct (socket_lost s1 (length (t_sockets s)) c.1.2 c.2.1 c.2.2 E1) as (F1 & F2 & F3 & F4); try done; try by rewrite E2.
  pose proof (dn_left _ _ Hd) as Hl. split_and!; [congruence|congruence|congruence|]. rewrite E7 in F4.
  destruct (Nat.ltb_spec (S (reconnectAttempts s)) MAX_RECONNECT_ATTEMPTS) as [Hlt|Hge].
  - by rewrite (proj2 (Nat.leb_gt _ _) Hlt) in F4.
  - rewrite (proj2 (Nat.leb_le _ _) Hge) in F4. apply F4. lia.
Qed.

(** C38: A connection that had been established and drops, not because its owner closed it,
    its session ended or its protocol is refused, is tried again. The host stays online and
    sockets can be constructed. While the retries fail one after the other, each opens one
    socket with the options the transport has and arms the next retry, and after the
    fifteenth the transport tells its owner and arms nothing more. Where both delays are
    configured, a retry waits for the first doubled with every attempt up to the second,
    give or take fifteen in a hundred. *)
Theorem outage_is_retried_with_backoff s k env code reason cs :
  ws s = Some k → is_Some (ready_of k s) → ready_of k s ≠ Some CLOSED → hasConnected s = true → isManualClose s = false →
  sessionErrorDetected s = false → connectHeld s = false → (reconnectAttempts s < MAX_RECONNECT_ATTEMPTS)%nat →
  e_online env = true → (0 <= e_random env < 1)%Q → ordinary code reason → Forall retry_fails cs →
  let s' := foldl failed_retry (step s (env, SocketClosed k code reason)) cs in
  let left := (MAX_RECONNECT_ATTEMPTS - reconnectAttempts s)%nat in
  ((length cs < left)%nat →
     reconnectAttempts s' = (reconnectAttempts s + length cs)%nat
     ∧ length (t_sockets s') = (length (t_sockets s) + length cs)%nat
     ∧ ∃ id delay, reconnectTimer s' = Some id ∧ t_timers s' !! id = Some (Reconnect, delay)
         ∧ (∀ d m, o_reconnectDelay (t_options s) = Some d → o_maxReconnectDelay (t_options s) = Some m → (0 <= d)%Q → (0 <= m)%Q →
              let base := if Qle_bool (d * Qpow2 (reconnectAttempts s')) m then (d * Qpow2 (reconnectAttempts s'))%Q else m in
              (base * (85 # 100) - (1 # 2) <= inject_Z delay)%Q ∧ (inject_Z delay <= base * (115 # 100) + (1 # 2))%Q)
         ∧ ∀ env', e_constructs env' = true → ∃ protocols,
             last (t_log (step s' (env', TimerFired id))) = Some (Opened (length (t_sockets s')) (t_options s) (connect_url (e_cursor env') (t_options s)) protocols))
  ∧ (length cs = left → gave_up s').
Proof.
  intros Hw H1 H2 H3 H4 H5 H6 Hn Ho Hrnd Hord Hcs s' left.
  destruct (socket_lost s k env code reason Hw H1 H2 H3 H4 H5 H6 Ho Hrnd Hord) as (F1 & F2 & F3 & F4).
  rewrite (proj2 (Nat.leb_gt _ _) Hn) in F4. unfold s', left. clear s' left. set (s0 := step s _) in *. clearbody s0.
  assert (Hind : (length cs ≤ MAX_RECONNECT_ATTEMPTS - reconnectAttempts s)%nat →
    let s' := foldl failed_retry s0 cs in
    t_options s' = t_options s ∧ reconnectAttempts s' = (reconnectAttempts s + length cs)%nat
    ∧ length (t_sockets s') = (length (t_sockets s) + length cs)%nat
    ∧ if (reconnectAttempts s + length cs <? MAX_RECONNECT_ATTEMPTS)%nat then ∃ id, down s' id else gave_up s').
  { induction cs as [|c cs IH] using rev_ind; intros Hlen s'.
    - change (foldl failed_retry s0 []) with s0 in s'. unfold s'. change (length []) with 0%nat. rewrite !Nat.add_0_r, (proj2 (Nat.ltb_lt _ _) Hn). by split_and!.
    - apply Forall_app in Hcs as [Hcs Hc]. rewrite Forall_singleton in Hc. rewrite length_app in *. change (length [c]) with 1%nat in *.
      unfold s'. rewrite foldl_app. change (foldl failed_retry ?x [c]) with (failed_retry x c). destruct (IH Hcs ltac:(lia)) as (G1 & G2 & G3 & G4).
      rewrite (proj2 (Nat.ltb_lt _ _)) in G4 by lia. destruct G4 as [id Hd].
      destruct (failed_retry_spec _ id c Hd Hc) as (E1 & E2 & E3 & E4). split_and!; [congruence|lia|lia|].
      rewrite G2 in E4. by replace (reconnectAttempts s + (length cs + 1))%nat with (S (reconnectAttempts s + length cs)) by lia. }
  split.
  - intros Hlt. destruct (Hind ltac:(lia)) as (G1 & G2 & G3 & G4). rewrite (proj2 (Nat.ltb_lt _ _)) in G4 by lia. destruct G4 as [id Hd].
    split_and!; [done|done|]. destruct (dn_armed _ _ Hd) as (random & [Hr0 Hr1] & Hr). eexists id, _.
    split_and!; [apply Hd|exact Hr|rewrite G1; intros d m Hd' Hm' Hd0 Hm0|].
    { unfold backoff, backoff_base. rewrite Hd', Hm'. by apply backoff_near. }
    intros env' Hc. rewrite <- G1. by destruct (retry_opens _ id env' Hd Hc) as (_ & _ & _ & _ & _ & _ & _ & _ & _ & ?).
  - intros Heq. destruct (Hind ltac:(lia)) as (_ & _ & _ & G4). by rewrite (proj2 (Nat.ltb_ge _ _)) in G4 by lia.
Qed.

Lemma unwatched_dispatch env k f s : unwatched s → unwatched (dispatchWsFrame frame_schema receipt_shape envelope hooks env k f s).1.
Proof.
  intros H. unfold dispatchWsFrame. destruct (map_get "type"%string f ≫= text_of) as [t|].
  2: { case_match; [by apply unwatched_emit_all|done]. }
  case_match; [done|]. case_match; [case_match|].
  - destruct (frame_schema t _) as [j|]; [|done]. unfold handle_schema_frame. case_match; [by apply unwatched_handshake|].
    case_match; [done|]. case_match; [|done]. unfold on_queue_patch. repeat case_match; try done. by apply unwatched_force.
  - unfold handle_plain_frame. case_match.
    { unfold handleMutationResult. by repeat case_match. }
    case_match. { unfold handleSubscriptionAck. repeat case_match; try done; by apply unwatched_settle_update. }
    case_match. { unfold handleDeltaFrame. repeat case_match; try done; by apply unwatched_emit_all. }
    repeat case_match; by apply unwatched_emit_all.
  - unfold handle_collaboration. by repeat case_match.
Qed.

Lemma micro_run deferConnect o l : t_micro (run (new_transport deferConnect o) l) = [].
Proof. destruct l as [|p l _] using rev_ind; [done|]. unfold ws_run. rewrite foldl_app. apply micro_continuations. Qed.

(** A tick that sends its ping. *)
Lemma tick_arms env s k id :
  requests_ok s → open_socket s = Some k → t_timers s !! id = Some (PingInterval, HEARTBEAT_INTERVAL_MS) → e_sends env = true →
  let s1 := heartbeat_tick env s in
  open_socket s1 = Some k ∧ t_micro s1 = t_micro s ∧ last (t_log s1) = Some (Sent k ping)
  ∧ t_timers s1 !! id = Some (PingInterval, HEARTBEAT_INTERVAL_MS)
  ∧ ∃ watch, t_timers s1 !! watch = Some (PongTimeout, HEARTBEAT_TIMEOUT_MS).
Proof.
  intros Hr Hk Hid Hs s1. unfold s1, heartbeat_tick. rewrite Hk, Hs.
  assert (Hne : id ≠ t_nextTimer s).
  { intros ->. pose proof (new_timer _ Hr) as Hn. unfold kind_at in Hn. by rewrite Hid in Hn. }
  assert (Hpong : t_heartbeatTimeout s ≠ Some id).
  { intros E. destruct (proj1 (ok_pong _ Hr) id E) as [_ H]. change (c_timers _) with (t_timers s) in H. unfold kind_at in H.
    rewrite Hid in H. by destruct H. }
  apply open_socket_some in Hk as [Hw Ho].
  destruct (t_heartbeatTimeout s) as [old|] eqn:Eo.
  - split_and!; [by apply open_socket_some|done|cbn; by rewrite last_snoc|cbn; rewrite lookup_insert_ne, lookup_delete_ne by congruence; done|].
    eexists. cbn. by rewrite lookup_insert_eq.
  - split_and!; [by apply open_socket_some|done|cbn; by rewrite last_snoc|cbn; rewrite lookup_insert_ne by congruence; done|].
    eexists. cbn. by rewrite lookup_insert_eq.
Qed.
Lemma force_closes r s k : open_socket s = Some k →
  in_state CLOSING (forceClose r s) = true ∧ last (t_log (forceClose r s)) = Some (CloseCalled k 4000 r) ∧ t_micro (forceClose r s) = t_micro s.
Proof.
  intros [Hw Ho]%open_socket_some. unfold forceClose. rewrite Hw. unfold close_socket, ready_of.
  change (t_sockets (set_lastForceCloseReason (Some r) s)) with (t_sockets s). rewrite Ho. split_and!; [|cbn; by rewrite last_snoc|done].
  unfold in_state, readyState. change (ws (log_effect _ _)) with (ws s). rewrite Hw. cbn. unfold ready_of. cbn.
  apply bool_decide_eq_true. apply list_lookup_insert_eq. by eapply lookup_lt_Some.
Qed.

(** C39: The heartbeat of an established connection, whenever its interval goes off: a ping is
    sent and a watch of ten seconds is armed beside the interval. Any text the socket then
    receives that is JSON disarms it; a watch that goes off, like a ping that cannot be sent,
    closes the socket, so that a silent connection is given up. *)
Theorem silence_closes_the_socket deferConnect o l env :
  Forall (λ p, readable p.2 = true) l →
  let s := run (new_transport deferConnect o) l in
  transport_isConnected s = true →
  ∃ k id, open_socket s = Some k ∧ t_timers s !! id = Some (PingInterval, HEARTBEAT_INTERVAL_MS)
  ∧ let s1 := step s (env, TimerFired id) in
    (e_sends env = false → in_state CLOSING s1 = true)
    ∧ (e_sends env = true → ∃ watch,
         last (t_log s1) = Some (Sent k ping) ∧ t_timers s1 !! id = Some (PingInterval, HEARTBEAT_INTERVAL_MS)
         ∧ t_timers s1 !! watch = Some (PongTimeout, HEARTBEAT_TIMEOUT_MS)
         ∧ (∀ env', let s2 := step s1 (env', TimerFired watch) in
              in_state CLOSING s2 = true ∧ last (t_log s2) = Some (CloseCalled k 4000 "heartbeat-timeout"))
         ∧ (∀ env' m, readable (SocketMessage k (Some m)) = true →
              ∀ w, kind_at (t_timers (step s1 (env', SocketMessage k (Some m)))) w ≠ Some PongTimeout)).
Proof.
  intros Hl s Hcon. pose proof (ok_run frame_schema receipt_shape envelope hooks deferConnect o l Hl) as Hr.
  pose proof (life_run frame_schema receipt_shape envelope hooks deferConnect o l Hl) as Hlife. 
  assert (Hm : t_micro s = []) by apply micro_run. fold s in Hr, Hlife. clearbody s. unfold transport_isConnected in Hcon. apply andb_true_iff in Hcon as [Hp Ho].
  assert (Hopen : open_socket s = ws s) by (unfold open_socket; by rewrite Ho).
  destruct (ws s) as [k|] eqn:Ek; [|unfold in_state, readyState in Ho; rewrite Ek in Ho; by apply bool_decide_eq_true in Ho].
  destruct (lf_watched _ Hlife k Ek Hp) as (id & _ & Hid). exists k, id. split_and!; [done|done|].
  assert (E1 : step s (env, TimerFired id) = run_continuations env (heartbeat_tick env s)) by (unfold ws_step; cbn; unfold fire_timer; by rewrite Hid).
  rewrite E1. split; intros Hs.
  - assert (heartbeat_tick env s = forceClose "heartbeat-send-failed" s) as -> by (unfold heartbeat_tick; by rewrite Hopen, Hs).
    destruct (force_closes "heartbeat-send-failed" s k Hopen) as (Hc & _ & Hfm). by rewrite no_continuations by congruence.
  - destruct (tick_arms env s k id Hr Hopen Hid Hs) as (T1 & T2 & T3 & T4 & watch & T5).
    rewrite no_continuations by congruence. set (s1 := set_t_micro [] (heartbeat_tick env s)).
    assert (Hr1 : requests_ok s1) by (by apply (quiet_ok (heartbeat_tick env s)); [|apply ok_tick]).
    assert (Hw1 : open_socket s1 = Some k) by exact T1. exists watch. split_and!; [done|done|done|..].
    + intros env'. assert (step s1 (env', TimerFired watch) = run_continuations env' (forceClose "heartbeat-timeout" (clearTimeout watch s1))) as ->.
      { unfold ws_step. cbn [handle_input fst snd]. unfold fire_timer. change (t_timers s1) with (t_timers (heartbeat_tick env s)). by rewrite T5. }
      destruct (force_closes "heartbeat-timeout" (clearTimeout watch s1) k Hw1) as (F1 & F2 & F3). by rewrite no_continuations by (by rewrite F3).
    + intros env' m Hread w. set (s2 := step s1 _).
      assert (Hr2 : requests_ok s2) by (by apply ok_step). assert (Hu : unwatched s2).
      { apply unwatched_continuations. cbn [handle_input fst snd]. unfold socket_message.
        apply open_socket_some in Hw1 as [Hw Hop]. assert (in_state OPEN s1 = true) as ->.
        { apply bool_decide_eq_true. unfold readyState. by rewrite Hw. }
        rewrite bool_decide_true by done. cbn [andb]. destruct (readWsInboundFrame m); [by apply unwatched_dispatch|done]. }
      pose proof (ok_pong _ Hr2) as Hp2. change (c_pong _) with (t_heartbeatTimeout s2) in Hp2. rewrite Hu in Hp2. by eapply owned_absent.
Qed.
End Machine.
