(* ===== verification/WsRuns.v ===== *)
(** * The wait lines of a connection

    A server keeps one line per row and tells a connection a snapshot and then one patch per
    move of the line. Whatever part of the patches arrives, the line the connection shows is
    one the server had, and a hole in what arrived makes it start over. *)
From stdpp Require Import gmap strings.
From Stdlib Require Import QArith.
From S2P Require Import Prelude JsData Json ErrorCodes DeltaStore JsonText SourceModel WsFrames WsTransport WsTransportFacts WsLifecycle WsRecovery.
#[local] Open Scope Z_scope.

(** ** The line of the server *)

Inductive line_move := Joins (l : list (string * json)) | Leaves (ids : list string).
Definition server_line (m : line_move) (q : list (string * json)) : list (string * json) :=
  match m with Joins l => q ++ l | Leaves ids => base.filter (λ p, p.1 ∉ ids) q end.
Definition move_ok (m : line_move) (q : list (string * json)) : Prop :=
  match m with Joins l => l ≠ [] ∧ NoDup (q ++ l).*1 | Leaves ids => ids ≠ [] ∧ NoDup ids ∧ ids ⊆ q.*1 end.
(** One entry or several have patches of their own. *)
Definition change_of (m : line_move) : queue_change :=
  match m with
  | Joins [e] => AppendEntry e.1 e.2 | Joins l => AppendMany l
  | Leaves [i] => RemoveEntry i | Leaves ids => RemoveMany ids
  end.
(** The moves of a line with the revision each gives it, from revision [rev]. *)
Fixpoint history (rev : Z) (q : list (string * json)) (h : list (Z * line_move)) : Prop :=
  match h with [] => True | p :: h => rev < p.1 ∧ move_ok p.2 q ∧ history p.1 (server_line p.2 q) h end.
Fixpoint patches (target : string * string) (rev : Z) (h : list (Z * line_move)) : list queue_patch :=
  match h with [] => [] | p :: h => mkQueuePatch target rev p.1 (change_of p.2) :: patches target p.1 h end.
Definition line_after (rev : Z) (q : list (string * json)) (h : list (Z * line_move)) : claim_line :=
  foldl (λ l p, mkLine p.1 (server_line p.2 (cl_queue l))) (mkLine rev q) h.

(** Which of the patches arrive. *)
Fixpoint arrived {A} (bs : list bool) (l : list A) : list A :=
  match bs, l with b :: bs, x :: l => if b then x :: arrived bs l else arrived bs l | _, _ => [] end.
(** How many arrive before the first that does not, and whether one arrives after it. *)
Fixpoint unbroken (bs : list bool) : nat := match bs with true :: bs => S (unbroken bs) | _ => 0 end.
Fixpoint hole (bs : list bool) : bool := match bs with true :: bs => hole bs | false :: bs => existsb id bs | [] => false end.

(** ** Patches and moves *)

Lemma set_all_fresh (l q : list (string * json)) : NoDup (q ++ l).*1 → foldl (λ m p, map_set p.1 p.2 m) q l = q ++ l.
Proof.
  revert q. induction l as [|[k v] l IH]; intros q H; [by rewrite app_nil_r|]. cbn. rewrite map_set_fresh.
  - rewrite IH; [by rewrite <- app_assoc|]. by rewrite <- app_assoc.
  - rewrite fmap_app, NoDup_app in H. destruct H as (_ & H & _). intros Hk. apply (H k Hk). cbn. left.
Qed.
Lemma map_of_fresh q : NoDup q.*1 → map_of q = q.
Proof. apply (set_all_fresh q []). Qed.
Lemma delete_all ids (q : list (string * json)) : foldl (λ m id, map_delete id m) q ids = base.filter (λ p, p.1 ∉ ids) q.
Proof.
  revert q. induction ids as [|i ids IH]; intros q; cbn.
  - symmetry. apply filter_keeps. set_solver.
  - rewrite IH. unfold map_delete. rewrite list_filter_filter. apply list_filter_iff. set_solver.
Qed.
Lemma has_elem i q : has i q = true ↔ i ∈ q.*1.
Proof.
  unfold has. destruct (map_get i q) as [v|] eqn:E; cbn.
  - split; [|done]. intros _. apply map_get_elem in E. apply list_elem_of_fmap. by exists (i, v).
  - apply map_get_None in E. by split.
Qed.
Lemma change_fits m q : move_ok m q → change_gap (change_of m) q = false ∧ apply_change (change_of m) q = server_line m q.
Proof.
  destruct m as [l|ids]; cbn.
  - intros [Hl Hn]. destruct l as [|e [|e' l]]; [done|..]; cbn; (split; [done|]).
    + apply (set_all_fresh [e] q Hn).
    + apply (set_all_fresh (e :: e' :: l) q Hn).
  - intros (Hl & Hn & Hs). assert (Hh : ∀ i, i ∈ ids → negb (has i q) = false) by (intros i Hi; apply negb_false_iff, has_elem; auto).
    destruct ids as [|i [|j ids]]; [done|..].
    + split; [apply Hh; left|]. apply (delete_all [i] q).
    + split; [|apply (delete_all (i :: j :: ids) q)]. cbn [change_gap change_of]. apply not_true_iff_false. intros (x & Hx & Hh')%existsb_exists.
      rewrite Hh in Hh' by (by apply list_elem_of_In). done.
Qed.

(** ** One patch *)

Lemma fmap_cons_inv_eq {A B} (f : A → B) x l y k : f <$> x :: l = y :: k → f x = y ∧ f <$> l = k.
Proof. intros H. split; [exact (f_equal (λ l, default y (head l)) H)|exact (f_equal tail H)]. Qed.

(** The socket was closed for a gap in a line: the connection starts over. *)
Definition started_over (k : nat) (s : transport) : Prop :=
  ready_of k s = Some CLOSING ∧ CloseCalled k 4000 "claim_queue_revision_gap" ∈ t_log s ∧ lastForceCloseReason s = Some "claim_queue_revision_gap"%string.

Lemma patch_taken env p s l : map_get (qp_target p) (t_lines s) = Some l → cl_revision l = qp_baseRevision p →
  change_gap (qp_change p) (cl_queue l) = false → ∀ j, read_patch j = p →
  let s' := on_queue_patch env j s in
  map_get (qp_target p) (t_lines s') = Some (mkLine (qp_revision p) (apply_change (qp_change p) (cl_queue l))) ∧ t_conn s' = t_conn s
  ∧ t_sockets s' = t_sockets s.
Proof.
  intros Hl Hr Hg j Hj s'. unfold s', on_queue_patch. rewrite Hj. cbn [t_lines emit log_effect set_t_log]. unfold take_patch.
  rewrite Hl, Hr, Z.eqb_refl, Hg. cbn [negb andb]. rewrite map_get_set, decide_True by done.
  destruct (e_queueListeners env); cbn; by rewrite map_get_set, decide_True.
Qed.
Lemma patch_refused env p s l k : map_get (qp_target p) (t_lines s) = Some l → cl_revision l ≠ qp_baseRevision p → ws s = Some k →
  ∀ j, read_patch j = p → let s' := on_queue_patch env j s in
  t_lines s' = t_lines s ∧ ws s' = Some k ∧ (ready_of k s = Some OPEN ∨ started_over k s → started_over k s').
Proof.
  intros Hl Hr Hw j Hj s'. unfold s', on_queue_patch. rewrite Hj. cbn [t_lines emit log_effect set_t_log]. unfold take_patch.
  rewrite Hl, (proj2 (Z.eqb_neq _ _) Hr). cbn [negb andb]. unfold forceClose. unfold emit, log_effect. change (ws (set_t_log _ s)) with (ws s). rewrite Hw.
  unfold close_socket. set (s1 := set_lastForceCloseReason _ _). change (ready_of k s1) with (ready_of k s). split_and!; [by repeat case_match..|]. unfold started_over. intros [Ho|(Ho & Hc & _)].
  - rewrite Ho. split_and!; [|apply elem_of_app; right; by apply list_elem_of_singleton|done]. unfold ready_of in *. cbn. by apply list_lookup_insert_eq; eapply lookup_lt_Some.
  - rewrite Ho. split_and!; [done|apply elem_of_app; by left|done].
Qed.

(** After a hole every patch is refused. *)
Lemma refused_after_hole env target h rev bs payloads s l k :
  (∃ q, history rev q h) → map_get target (t_lines s) = Some l → cl_revision l < rev → ws s = Some k → ready_of k s = Some OPEN ∨ started_over k s →
  read_patch <$> payloads = arrived bs (patches target rev h) →
  let s' := foldl (λ s j, on_queue_patch env j s) s payloads in
  t_lines s' = t_lines s ∧ ws s' = Some k ∧ (payloads = [] ∧ s' = s ∨ payloads ≠ [] ∧ started_over k s').
Proof.
  revert rev bs payloads s. induction h as [|[r m] h IH]; intros rev bs payloads s [q Hh] Hl Hr Hw Hk Hp.
  { destruct bs; apply fmap_nil_inv in Hp; subst; cbn; auto. }
  destruct Hh as (Hlt & _ & Hh). destruct bs as [|[] bs]; [apply fmap_nil_inv in Hp; subst; cbn; auto|..].
  - destruct payloads as [|j payloads]; [done|]. apply (fmap_cons_inv_eq read_patch) in Hp as [Hj Hp]. cbn -[on_queue_patch].
    destruct (patch_refused env (mkQueuePatch target rev r (change_of m)) s l k Hl ltac:(cbn; lia) Hw j Hj) as (E1 & E2 & E3). specialize (E3 Hk).
    destruct (IH r bs payloads (on_queue_patch env j s) ltac:(by eexists) ltac:(by rewrite E1) ltac:(cbn in *; lia) E2 (or_intror E3) Hp) as (F1 & F2 & F3).
    split_and!; [congruence|done|right; split; [done|]]. destruct F3 as [[-> F3]|[_ F3]]; [by rewrite F3|done].
  - apply (IH r bs payloads s ltac:(by eexists) Hl ltac:(cbn in *; lia) Hw Hk Hp).
Qed.

(** Something arrives after the hole exactly when there is one. *)
Lemma arrived_some target h r bs : arrived bs (patches target r h) ≠ [] ↔ existsb id (take (length h) bs) = true.
Proof. revert r bs. induction h as [|[r' m'] h IH]; intros r [|[] bs]; cbn; done. Qed.

(** ** From a snapshot on *)

Lemma follows env target h rev q bs payloads s k :
  history rev q h → map_get target (t_lines s) = Some (mkLine rev q) → ws s = Some k → ready_of k s = Some OPEN →
  read_patch <$> payloads = arrived bs (patches target rev h) →
  let s' := foldl (λ s j, on_queue_patch env j s) s payloads in
  map_get target (t_lines s') = Some (line_after rev q (take (unbroken bs) h))
  ∧ if hole (take (length h) bs) then started_over k s' else ready_of k s' = Some OPEN.
Proof.
  revert rev q bs payloads s. induction h as [|[r m] h IH]; intros rev q bs payloads s Hh Hl Hw Hk Hp.
  { destruct bs; apply fmap_nil_inv in Hp; subst; cbn; by rewrite ?take_nil. }
  destruct Hh as (Hlt & Hm & Hh). cbn in Hlt, Hm, Hh. destruct bs as [|[] bs].
  - apply fmap_nil_inv in Hp. by subst.
  - destruct payloads as [|j payloads]; [done|]. apply (fmap_cons_inv_eq read_patch) in Hp as [Hj Hp]. cbn -[on_queue_patch].
    destruct (change_fits m q Hm) as [Hg Ha].
    destruct (patch_taken env (mkQueuePatch target rev r (change_of m)) s _ Hl eq_refl Hg j Hj) as (E1 & E2 & E3).
    cbn in E1. rewrite Ha in E1. apply (IH r _ bs payloads _ Hh E1); [unfold ws; by rewrite E2|unfold ready_of; by rewrite E3|done].
  - cbn in Hp. destruct (refused_after_hole env target h r bs payloads s _ k ltac:(by eexists) Hl Hlt Hw (or_introl Hk) Hp) as (F1 & _ & F3).
    split; [by rewrite F1|]. change (hole (take (length ((r, m) :: h)) (false :: bs))) with (existsb id (take (length h) bs)).
    pose proof (arrived_some target h r bs) as Hsome. rewrite <- Hp in Hsome. destruct F3 as [[-> ->]|[Hne F3]].
    + destruct (existsb id (take (length h) bs)); [|done]. by destruct (proj2 Hsome eq_refl).
    + rewrite (proj1 Hsome); [done|]. by intros ?%fmap_nil_inv.
Qed.

(** C40: A connection whose socket is open, that took the snapshot of a line and then, in
    order, any part of the patches the server sent for it, shows the line the server had
    after the patches that arrived before the first missing one. If one arrives after a
    missing one the connection starts over: its socket is closed, with the gap for a
    reason; if none does the socket stays open. *)
Theorem wait_lines_follow_the_server env s k target q rev snapshot h bs payloads :
  ws s = Some k → ready_of k s = Some OPEN → read_snapshot snapshot = mkQueueSnapshot target q (Some rev) → NoDup q.*1 → history rev q h →
  read_patch <$> payloads = arrived bs (patches target rev h) →
  let s' := foldl (λ s j, on_queue_patch env j s) (on_queue_snapshot snapshot s) payloads in
  map_get target (t_lines s') = Some (line_after rev q (take (unbroken bs) h))
  ∧ if hole (take (length h) bs) then started_over k s' else ready_of k s' = Some OPEN.
Proof.
  intros Hw Hk Hs Hq Hh Hp. apply (follows env target h rev q bs payloads _ k); [done| |done|done|done].
  unfold on_queue_snapshot, take_snapshot. rewrite Hs. cbn -[map_set map_get map_of]. by rewrite map_get_set, decide_True, (map_of_fresh q Hq).
Qed.

(** A line of two, a third that joins, one patch that is lost and one that follows it. *)
Definition entry (id : string) : json := JObj [("id", JStr id)]%string.
Definition row : json := JObj [("type", JStr "issue"); ("id", JStr "7")]%string.
Definition line_snapshot : json :=
  JObj [("target", row); ("queue", JArr [entry "a"; entry "b"]); ("revision", JNum 4)]%string.
Definition joins_patch : json :=
  JObj [("target", row); ("baseRevision", JNum 4); ("revision", JNum 5);
        ("change", JObj [("kind", JStr "append"); ("entry", entry "c")])]%string.
Definition late_patch : json :=
  JObj [("target", row); ("baseRevision", JNum 6); ("revision", JNum 9);
        ("change", JObj [("kind", JStr "remove_many"); ("ids", JArr [JStr "b"; JStr "c"])])]%string.
Definition line_moves : list (Z * line_move) :=
  [(5, Joins [("c", entry "c")]); (6, Leaves ["a"]); (9, Leaves ["b"; "c"])]%string.
Definition open_connection : transport :=
  set_ws (Some 0%nat) (set_t_sockets [OPEN] (new_transport false (new_options None None true true None [] None Absent Absent [] None))).
Lemma wait_lines_follow_the_server_witness :
  let env := mkEnv 0 true (QArith_base.Qmake 0 1) "0"%string None None None true true [] false true in
  let s' := foldl (λ s j, on_queue_patch env j s) (on_queue_snapshot line_snapshot open_connection) [joins_patch; late_patch] in
  map_get ("issue", "7")%string (t_lines s')
  = Some (line_after 4 [("a", entry "a"); ("b", entry "b")]%string (take 1 line_moves))
  ∧ started_over 0 s'.
Proof.
  apply (wait_lines_follow_the_server _ open_connection 0%nat ("issue", "7")%string _ 4 line_snapshot line_moves [true; false; true] [joins_patch; late_patch]).
  - reflexivity.
  - reflexivity.
  - reflexivity.
  - apply (bool_decide_unpack _); vm_compute; exact I.
  - cbn. split_and!; try lia; try done; first [set_solver|apply (bool_decide_unpack _); vm_compute; exact I].
  - reflexivity.
Defined.

(** * Runs of the WebSocket transport

    The theorems of the transport at concrete runs, and the runs in which the code does
    something its comments do not say. *)
#[local] Open Scope string_scope.
#[local] Open Scope list_scope.
#[local] Open Scope Z_scope.

(** ** A connection with plain schemas *)

Definition any_frame (t : string) (payload : json) : option json := Some payload.
Definition plain_receipt (f : fields) : option CommitReceipt :=
  match map_get "clientTxId" f ≫= text_of, map_get "lastSyncId" f ≫= number_of with
  | Some tx, Some n => Some (mkReceipt false 0 0 n None tx None None JNull)
  | _, _ => None
  end.
Definition no_envelope (f : fields) : option (json * json) := None.
Definition ws_demo : transport → list (env * ws_input) → transport := ws_run any_frame plain_receipt no_envelope transport_hooks.
Definition ws_demo_step : transport → env * ws_input → transport := ws_step any_frame plain_receipt no_envelope transport_hooks.

Definition half : Q := 1 # 2.
Definition calm_env : env := mkEnv 0 true half "7" None None (Some "p1") true true [] false true.
Definition broken_env : env := mkEnv 0 true half "7" None None (Some "p1") true false [] false true.
Definition in_env (e : env) (l : list ws_input) : list (env * ws_input) := pair e <$> l.
Definition demo_options : ws_options := new_options None None true false None ["org:1"] None Absent Absent [] None.
Definition fresh : transport := new_transport false demo_options.

Definition session_frame : json := frame "presence_session" (JObj []).
Definition confirmed (tx : string) (n : Z) : json :=
  JObj [("type", JStr "mutation_result"); ("payload", JObj [("success", JBool true); ("clientTxId", JStr tx); ("lastSyncId", JNum n)])].
Definition refused (tx code : string) (conflicts : list json) : json :=
  JObj [("type", JStr "mutation_result");
        ("payload", JObj [("success", JBool false); ("clientTxId", JStr tx);
                          ("error", JObj [("code", JStr code); ("conflicts", JArr conflicts)])])].
Definition subscribed (groups : list string) : json :=
  frame "subscription_ack" (JObj [("success", JBool true); ("syncGroups", JArr (JStr <$> groups))]).
Definition hello (k : nat) : list ws_input := [SocketOpened k; SocketMessage k (Some session_frame)].
Definition commit (tx : string) : ws_input := DoCommit false [] tx 10000 Missing.

(** What each call was told, and the sockets that were opened. *)
Definition answers (l : list effect) : list (nat * outcome) := omap (λ e, match e with Settled n o => Some (n, o) | _ => None end) l.
Definition sockets_opened (l : list effect) : list nat := omap (λ e, match e with Opened k _ _ _ => Some k | _ => None end) l.
Definition armed_timers (s : transport) : list (nat * timer) := (λ p, (p.1, p.2.1)) <$> map_to_list (t_timers s).

(** ** The theorems at concrete runs *)

Lemma all_readable l : forallb (λ p, readable p.2) l = true → Forall (λ p : env * ws_input, readable p.2 = true) l.
Proof. intros H. apply Forall_forall. intros p Hp. rewrite forallb_forall in H. by apply H, list_elem_of_In. Qed.

(** One commit is confirmed, the other waits. *)
Definition two_commits : list (env * ws_input) :=
  in_env calm_env (DoConnect :: hello 0 ++ [commit "a"; commit "b"; SocketMessage 0 (Some (confirmed "a" 8))]).
Lemma requests_settle_once_witness :
  let s := ws_demo fresh two_commits in
  answers (t_log s) = [(0%nat, GotAck (mkAck false 0 8 None None None))]
  ∧ NoDup (settlements (t_log s)) ∧ (∀ n, n ∈ settlements (t_log s) → (n < nextCall s)%nat)
  ∧ ∀ n, (n < nextCall s)%nat →
    (n ∈ settlements (t_log s) ∧ ∀ id, ¬ waits (t_timers s) id n)
    ∨ (n ∉ settlements (t_log s)
       ∧ ∃ id, (∀ id', waits (t_timers s) id' n ↔ id' = id)
               ∧ ∀ env, n ∈ settlements (t_log (ws_demo_step s (env, TimerFired id)))).
Proof.
  split; [vm_compute; reflexivity|].
  apply (requests_settle_once any_frame plain_receipt no_envelope transport_hooks false demo_options two_commits).
  apply all_readable. vm_compute. reflexivity.
Defined.

(** A connection that is announced, drops and is announced again. *)
Definition announced_twice : list (env * ws_input) :=
  in_env calm_env (DoConnect :: hello 0 ++ [SocketClosed 0 1006 ""; TimerFired 1] ++ hello 1).
Lemma connected_means_ready_witness :
  let s := ws_demo fresh announced_twice in
  transport_isConnected s = true ∧ connecteds (t_log s) = [0; 1]%nat
  ∧ (∀ k, t_sockets s !! k = Some CONNECTING ∨ t_sockets s !! k = Some OPEN → ws s = Some k)
  ∧ NoDup (connecteds (t_log s))
  ∧ (∀ before k after, t_log s = before ++ EmittedConnected k :: after → greeted k before ∧ interest_known k before)
  ∧ (transport_isConnected s = true →
     ∃ k id, open_socket s = Some k ∧ k ∈ connecteds (t_log s)
             ∧ t_heartbeatTimer s = Some id ∧ t_timers s !! id = Some (PingInterval, HEARTBEAT_INTERVAL_MS)).
Proof.
  split; [vm_compute; reflexivity|]. split; [vm_compute; reflexivity|].
  apply (connected_means_ready any_frame plain_receipt no_envelope transport_hooks false demo_options announced_twice).
  apply all_readable. vm_compute. reflexivity.
Defined.

(** Two updates of one socket, the first acknowledged. *)
Definition two_updates : list (env * ws_input) :=
  in_env calm_env (DoConnect :: hello 0 ++ [DoUpdate ["org:1"] 15000; DoUpdate ["org:2"] 15000; SocketMessage 0 (Some (subscribed ["org:1"]))]).
(** Inputs that are no connect and no timer are orderly. *)
Definition plain_input (i : ws_input) : bool := match i with DoConnect | TimerFired _ => false | _ => readable i end.
Lemma plain_orderly s l : forallb (λ p, plain_input p.2) l = true → orderly any_frame plain_receipt no_envelope transport_hooks s l.
Proof.
  revert s. induction l as [|p l IH]; intros s; [done|]. cbn. intros [Hp Hl]%andb_true_iff. split; [|by apply IH]. constructor.
  - by destruct (p.2).
  - intros id who E. by rewrite E in Hp.
  - intros [E|(id & E & _)]; by rewrite E in Hp.
Qed.
Lemma acks_answer_in_order_witness :
  orderly any_frame plain_receipt no_envelope transport_hooks fresh two_updates
  ∧ let s := ws_demo fresh two_updates in
  ps_who <$> pendingSubscriptions s = [Call 1]
  ∧ (∀ k, acked_on k (t_log s) `prefix_of` asked_on k (t_log s))
  ∧ ∀ k, open_socket s = Some k → asked_on k (t_log s) = acked_on k (t_log s) ++ (ps_who <$> pendingSubscriptions s).
Proof.
  assert (H : orderly any_frame plain_receipt no_envelope transport_hooks fresh two_updates).
  { split; [|apply plain_orderly; vm_compute; reflexivity]. constructor; [reflexivity|discriminate|].
    intros _ _ k r Hk. by destruct k. }
  split; [exact H|]. split; [vm_compute; reflexivity|].
  apply (acks_answer_in_order any_frame plain_receipt no_envelope transport_hooks false demo_options two_updates H).
Defined.

(** A connection that drops and whose fifteen retries all fail. *)
Definition established : transport := ws_demo fresh (in_env calm_env (DoConnect :: hello 0)).
Definition lost_retry : env * env * (Z * string) := (calm_env, calm_env, (1006, "")).
Lemma lost_retry_fails : retry_fails lost_retry.
Proof. unfold retry_fails, ordinary. cbn. split_and!; done. Qed.
Lemma outage_is_retried_with_backoff_witness :
  let s' := foldl (failed_retry any_frame plain_receipt no_envelope transport_hooks)
              (ws_demo_step established (calm_env, SocketClosed 0 1006 "")) (replicate 15 lost_retry) in
  gave_up s'.
Proof.
  apply (outage_is_retried_with_backoff any_frame plain_receipt no_envelope transport_hooks established 0 calm_env 1006 "" (replicate 15 lost_retry));
    try (vm_compute; reflexivity).
  - vm_compute. by eexists.
  - vm_compute. discriminate.
  - apply Nat.ltb_lt. vm_compute. reflexivity.
  - split; vm_compute; [discriminate|reflexivity].
  - split; [vm_compute; discriminate|vm_compute; reflexivity].
  - apply Forall_replicate, lost_retry_fails.
Defined.

(** A connection whose socket never answers a ping. *)
Lemma silence_closes_the_socket_witness :
  ∃ k id, open_socket established = Some k ∧ t_timers established !! id = Some (PingInterval, HEARTBEAT_INTERVAL_MS)
  ∧ let s1 := ws_demo_step established (calm_env, TimerFired id) in
    (e_sends calm_env = false → in_state CLOSING s1 = true)
    ∧ (e_sends calm_env = true → ∃ watch,
         last (t_log s1) = Some (Sent k ping) ∧ t_timers s1 !! id = Some (PingInterval, HEARTBEAT_INTERVAL_MS)
         ∧ t_timers s1 !! watch = Some (PongTimeout, HEARTBEAT_TIMEOUT_MS)
         ∧ (∀ env', let s2 := ws_demo_step s1 (env', TimerFired watch) in
              in_state CLOSING s2 = true ∧ last (t_log s2) = Some (CloseCalled k 4000 "heartbeat-timeout"))
         ∧ (∀ env' m, readable (SocketMessage k (Some m)) = true →
              ∀ w, kind_at (t_timers (ws_demo_step s1 (env', SocketMessage k (Some m)))) w ≠ Some PongTimeout)).
Proof.
  apply (silence_closes_the_socket any_frame plain_receipt no_envelope transport_hooks false demo_options (in_env calm_env (DoConnect :: hello 0))).
  - apply all_readable. vm_compute. reflexivity.
  - vm_compute. reflexivity.
Defined.

(** ** Runs with an answer that is lost or misplaced *)

(** A rejection that names a [null] row throws while it is reported, after its entry and its
    timer are gone: the caller never hears of it. *)
Theorem null_conflict_strands_the_commit :
  let s := ws_demo fresh (in_env calm_env (DoConnect :: hello 0 ++ [commit "a"; SocketMessage 0 (Some (refused "a" "stale_context" [JNull]))])) in
  answers (t_log s) = [] ∧ pendingMutations s = [] ∧ armed_timers s = [(0%nat, PingInterval)].
Proof. vm_compute. auto. Qed.

(** A second commit under the same [clientTxId] takes the place of the first; the timer of
    the first takes the second away, and the confirmation that comes finds nobody. *)
Theorem reused_commit_loses_its_answer :
  let s := ws_demo fresh (in_env calm_env (DoConnect :: hello 0 ++
             [commit "a"; commit "a"; TimerFired 1; SocketMessage 0 (Some (confirmed "a" 8)); TimerFired 2])) in
  answers (t_log s) = [(0%nat, Failed (connection_error "commit_no_result")); (1%nat, Failed (connection_error "commit_no_result"))].
Proof. vm_compute. auto. Qed.

(** The acknowledgement of an update that was given up answers the next one. *)
Theorem late_ack_answers_the_next_update :
  let s := ws_demo fresh (in_env calm_env (DoConnect :: hello 0 ++
             [DoUpdate ["org:1"] 15000; TimerFired 1; DoUpdate ["org:2"] 15000; SocketMessage 0 (Some (subscribed ["org:1"]))])) in
  answers (t_log s) = [(0%nat, Failed (connection_error "wait_for_timeout")); (1%nat, GotGroups ["org:1"])]
  ∧ o_syncGroups (t_options s) = ["org:1"].
Proof. vm_compute. auto. Qed.

(** [disconnect] and [connect] before the socket has closed: the requests of the old socket
    stay, and the acknowledgements of the new one answer them. *)
Theorem early_reconnect_misroutes_acks :
  let s := ws_demo fresh (in_env calm_env (DoConnect :: hello 0 ++
             [DoUpdate ["org:1"] 15000; commit "a"; DoDisconnect; DoConnect] ++ hello 1 ++
             [SocketClosed 0 1000 ""; DoUpdate ["org:2"] 15000; SocketMessage 1 (Some (subscribed ["org:2"]))])) in
  answers (t_log s) = [(0%nat, GotGroups ["org:2"])] ∧ pendingMutations s ≠ [] ∧ ps_who <$> pendingSubscriptions s = [Call 2].
Proof. vm_compute. split_and!; done. Qed.

(** [disconnect] of a socket that is still connecting leaves the connecting flag, so that a
    [connect] that follows does nothing, and the close does not make up for it. *)
Theorem connect_after_disconnect_is_dropped :
  let s := ws_demo fresh (in_env calm_env [DoConnect; DoDisconnect; DoConnect; SocketClosed 0 1006 ""]) in
  sockets_opened (t_log s) = [0%nat] ∧ ws s = None ∧ armed_timers s = [].
Proof. vm_compute. auto. Qed.

(** A delay that is given as [undefined] replaces the default, and every retry is immediate. *)
Theorem undefined_delay_has_no_backoff baseUrl url snapshots patches kind groups partition maxDelay collaboration token attempts random :
  timer_delay (backoff (new_options baseUrl url snapshots patches kind groups partition (Present None) maxDelay collaboration token) attempts random)
  = 0.
Proof. reflexivity. Qed.

(** After a retry was armed, a connection made by hand leaves it: when the protocol of that
    connection is refused, the retry still goes off. *)
Theorem refused_protocol_is_tried_again :
  let s := ws_demo fresh (in_env calm_env (DoConnect :: hello 0 ++
             [SocketClosed 0 1006 ""; DoConnect; SocketOpened 1; SocketClosed 1 4010 ""; TimerFired 1])) in
  sockets_opened (t_log s) = [0; 1; 2]%nat ∧ isManualClose s = false.
Proof. vm_compute. auto. Qed.

(** A socket that is open but has no session is not watched. *)
Theorem unbound_socket_is_not_watched :
  let s := ws_demo fresh (in_env calm_env [DoConnect; SocketOpened 0]) in
  open_socket s = Some 0%nat ∧ armed_timers s = [].
Proof. vm_compute. auto. Qed.
