(* ===== verification/SchemaDiff.v ===== *)
(** * The migration planner

    [packages/transaction/src/schema/diff.ts]: the steps that turn one schema into another,
    the classification of what they risk, and what backfills resolve. *)
From S2P Require Import Prelude JsData SchemaJson.
#[local] Open Scope string_scope.
#[local] Open Scope list_scope.
#[local] Open Scope Z_scope.

(** ** Steps *)

Inductive CastSafety := CastSafe | CastRisky | NotCastable.
#[export] Instance CastSafety_eq_dec : EqDecision CastSafety.
Proof. solve_decision. Defined.

Record FieldTypeChange := mkTypeChange { tc_from : FieldType; tc_to : FieldType; tc_cast : CastSafety }.
Record NullabilityChange := mkNullability { nc_fromOptional : bool; nc_toOptional : bool }.
Record EnumValuesChange := mkEnumChange { ec_added : list string; ec_removed : list string }.
Record IndexChange := mkIndexChange { ic_from : bool; ic_to : bool }.
Record FieldColumnChange := mkColumnChange { cc_from : string; cc_to : string }.

Record FieldChanges := mkChanges {
  ch_column : option FieldColumnChange;
  ch_type : option FieldTypeChange;
  ch_nullability : option NullabilityChange;
  ch_enumValues : option EnumValuesChange;
  ch_indexed : option IndexChange;
}.

#[export] Instance FieldTypeChange_eq_dec : EqDecision FieldTypeChange.
Proof. solve_decision. Defined.
#[export] Instance NullabilityChange_eq_dec : EqDecision NullabilityChange.
Proof. solve_decision. Defined.
#[export] Instance EnumValuesChange_eq_dec : EqDecision EnumValuesChange.
Proof. solve_decision. Defined.
#[export] Instance IndexChange_eq_dec : EqDecision IndexChange.
Proof. solve_decision. Defined.
#[export] Instance FieldColumnChange_eq_dec : EqDecision FieldColumnChange.
Proof. solve_decision. Defined.
#[export] Instance FieldChanges_eq_dec : EqDecision FieldChanges.
Proof. solve_decision. Defined.

Inductive MigrationStep :=
  | create_model (model tableName : string)
  | drop_model (model tableName : string)
  | rename_model (from to : string)
  | add_field (model field : string) (meta : FieldMeta)
  | drop_field (model field : string)
  | rename_field (model from to : string)
  | alter_field (model field : string) (changes : FieldChanges).

Record ModelRename := mkModelRename { mr_from : string; mr_to : string }.
Record FieldRename := mkFieldRename { fr_model : string; fr_from : string; fr_to : string }.
Record RenameHints := mkHints { h_models : list ModelRename; h_fields : list FieldRename }.
Definition no_hints : RenameHints := mkHints [] [].

(** ** Casts *)

(** [CAST], entry by entry; a pair without an entry is not castable. *)
Definition CAST (from to : FieldType) : option CastSafety :=
  match from, to with
  | FtNumber, FtString | FtBoolean, FtString | FtDate, FtString | FtEnum, FtString | FtJson, FtString => Some CastSafe
  | FtString, FtEnum | FtNumber, FtEnum | FtBoolean, FtEnum | FtDate, FtEnum => Some CastRisky
  | FtJson, FtEnum => Some NotCastable
  | FtString, FtNumber | FtEnum, FtNumber => Some CastRisky
  | FtBoolean, FtNumber | FtDate, FtNumber | FtJson, FtNumber => Some NotCastable
  | FtString, FtBoolean | FtEnum, FtBoolean | FtNumber, FtBoolean => Some CastRisky
  | FtDate, FtBoolean | FtJson, FtBoolean => Some NotCastable
  | FtString, FtDate | FtEnum, FtDate => Some CastRisky
  | FtNumber, FtDate | FtBoolean, FtDate | FtJson, FtDate => Some NotCastable
  | FtString, FtJson | FtEnum, FtJson => Some CastRisky
  | FtNumber, FtJson | FtBoolean, FtJson | FtDate, FtJson => Some NotCastable
  | _, _ => None
  end.

Definition classifyCast (from to : FieldType) : CastSafety :=
  if decide (from = to) then CastSafe else default NotCastable (CAST from to).

(** ** The difference of two fields *)

(** [new Set(values)], in order. *)
Definition to_set (l : list string) : list string := foldl (λ acc x, set_add x acc) [] l.

Definition diffEnumValues (from to : option (list string)) : option EnumValuesChange :=
  let a := to_set (default [] from) in
  let b := to_set (default [] to) in
  let added := base.filter (λ v, v ∉ a) b in
  let removed := base.filter (λ v, v ∉ b) a in
  match added, removed with [], [] => None | _, _ => Some (mkEnumChange added removed) end.

Definition changed {A} (same : bool) (change : A) : option A := if same then None else Some change.
Definition no_changes (c : FieldChanges) : bool :=
  match c with mkChanges None None None None None => true | _ => false end.

Definition diffField (prevFieldName nextFieldName : string) (prev next : FieldMeta) : option FieldChanges :=
  let prevColumn := columnNameOf prevFieldName (Some prev) in
  let nextColumn := columnNameOf nextFieldName (Some next) in
  let changes := mkChanges
    (changed (bool_decide (prevColumn = nextColumn)) (mkColumnChange prevColumn nextColumn))
    (changed (bool_decide (f_type prev = f_type next)) (mkTypeChange (f_type prev) (f_type next) (classifyCast (f_type prev) (f_type next))))
    (changed (Bool.eqb (f_isOptional prev) (f_isOptional next)) (mkNullability (f_isOptional prev) (f_isOptional next)))
    (if bool_decide (f_type prev = FtEnum) && bool_decide (f_type next = FtEnum) then diffEnumValues (f_enumValues prev) (f_enumValues next) else None)
    (changed (Bool.eqb (f_isIndexed prev) (f_isIndexed next)) (mkIndexChange (f_isIndexed prev) (f_isIndexed next))) in
  if no_changes changes then None else Some changes.

(** ** The difference of two models *)

(** [new Map(renames.map((r) => [r.to, r.from]))] *)
Definition by_new_name (renames : list (string * string)) : list (string * string) := foldl (λ m r, map_set r.2 r.1 m) [] renames.

Definition rename_steps (model : string) (prev next : ModelJSON) (renames : list (string * string)) : list MigrationStep :=
  omap (λ r, if bool_decide (r.1 ∈ (m_fields prev).*1) && bool_decide (r.2 ∈ (m_fields next).*1)
             then Some (rename_field model r.1 r.2) else None) renames.

Definition add_steps (model : string) (prev next : ModelJSON) (renames : list (string * string)) : list MigrationStep :=
  omap (λ p, if bool_decide (p.1 ∈ (m_fields prev).*1) || bool_decide (p.1 ∈ renames.*2) then None
             else Some (add_field model p.1 p.2)) (m_fields next).

Definition altered (prev : ModelJSON) (renames : list (string * string)) (p : string * FieldMeta) : option FieldChanges :=
  let renamed := map_get p.1 (by_new_name renames) in
  let prevName := default p.1 renamed in
  prevMeta ← map_get prevName (m_fields prev);
  changes ← diffField prevName p.1 prevMeta p.2;
  let changes := if is_Some_b renamed then mkChanges None (ch_type changes) (ch_nullability changes) (ch_enumValues changes) (ch_indexed changes) else changes in
  if no_changes changes then None else Some changes.

Definition alter_steps (model : string) (prev next : ModelJSON) (renames : list (string * string)) : list MigrationStep :=
  omap (λ p, alter_field model p.1 <$> altered prev renames p) (m_fields next).

Definition drop_steps (model : string) (prev next : ModelJSON) (renames : list (string * string)) : list MigrationStep :=
  omap (λ name, if bool_decide (name ∈ (m_fields next).*1) || bool_decide (name ∈ renames.*1) then None
                else Some (drop_field model name)) (m_fields prev).*1.

Definition diffModelFields (model : string) (prev next : ModelJSON) (renames : list (string * string)) : list MigrationStep :=
  rename_steps model prev next renames ++ add_steps model prev next renames
  ++ alter_steps model prev next renames ++ drop_steps model prev next renames.

(** ** The difference of two schemas *)

Definition renames_of (hints : RenameHints) (model : string) : list (string * string) :=
  omap (λ f, if bool_decide (fr_model f = model) then Some (fr_from f, fr_to f) else None) (h_fields hints).
Definition model_renames (hints : RenameHints) : list (string * string) := (λ r, (mr_from r, mr_to r)) <$> h_models hints.

(** The key of a model of the new schema in the old one. *)
Definition prevModelKey (hints : RenameHints) (model : string) : string := default model (map_get model (by_new_name (model_renames hints))).

(** The loop over the models of the new schema: creates, renames and field steps. *)
Definition model_steps (prev : SchemaJSON) (hints : RenameHints) (p : string * ModelJSON)
  : list MigrationStep * list MigrationStep * list MigrationStep :=
  let '(model, nextDef) := p in
  match map_get (prevModelKey hints model) (s_models prev) with
  | None => ([create_model model (tableNameOf nextDef model)], [], [])
  | Some prevDef =>
      ([], if is_Some_b (map_get model (by_new_name (model_renames hints))) then [rename_model (prevModelKey hints model) model] else [],
       diffModelFields model prevDef nextDef (renames_of hints model))
  end.

Definition drop_model_steps (prev next : SchemaJSON) (hints : RenameHints) : list MigrationStep :=
  omap (λ p, if bool_decide (p.1 ∈ (s_models next).*1) || bool_decide (p.1 ∈ (model_renames hints).*1) then None
             else Some (drop_model p.1 (tableNameOf p.2 p.1))) (s_models prev).

Definition diffSchema (prev : option SchemaJSON) (next : SchemaJSON) (hints : RenameHints) : list MigrationStep :=
  match prev with
  | None => (λ p, create_model p.1 (tableNameOf p.2 p.1)) <$> s_models next
  | Some prev =>
      let per_model := model_steps prev hints <$> s_models next in
      concat ((λ t, t.1.1) <$> per_model) ++ concat ((λ t, t.1.2) <$> per_model) ++ concat ((λ t, t.2) <$> per_model)
      ++ drop_model_steps prev next hints
  end.

(** ** Classification *)

Inductive SignalCode :=
  | SigDropModel | SigDropField | SigRiskyCast | SigLossyRecreate | SigEnumValueRemoved | SigRemoveModel
  | SigRequiredFieldAdded | SigMadeRequired.
#[export] Instance SignalCode_eq_dec : EqDecision SignalCode.
Proof. solve_decision. Defined.

Record MigrationSignal := mkSignal { sg_code : SignalCode; sg_model : string; sg_field : option string }.
#[export] Instance MigrationSignal_eq_dec : EqDecision MigrationSignal.
Proof. solve_decision. Defined.

Record MigrationClassification := mkClassification { warnings : list MigrationSignal; unexecutable : list MigrationSignal }.

Definition step_warnings (step : MigrationStep) : list MigrationSignal :=
  match step with
  | drop_model model _ => [mkSignal SigDropModel model None]
  | drop_field model field => [mkSignal SigDropField model (Some field)]
  | alter_field model field changes =>
      (match ch_type changes with
       | Some (mkTypeChange _ _ CastRisky) => [mkSignal SigRiskyCast model (Some field)]
       | Some (mkTypeChange _ _ NotCastable) => [mkSignal SigLossyRecreate model (Some field)]
       | _ => []
       end)
      ++ (match ch_enumValues changes with
          | Some (mkEnumChange _ (_ :: _)) => [mkSignal SigEnumValueRemoved model (Some field)]
          | _ => []
          end)
  | _ => []
  end.

Definition step_unexecutable (step : MigrationStep) : list MigrationSignal :=
  match step with
  | add_field model field meta => if f_isOptional meta then [] else [mkSignal SigRequiredFieldAdded model (Some field)]
  | alter_field model field changes =>
      match ch_nullability changes with
      | Some (mkNullability true false) => [mkSignal SigMadeRequired model (Some field)]
      | _ => []
      end
  | _ => []
  end.

Definition classifyMigration (steps : list MigrationStep) : MigrationClassification :=
  mkClassification (concat (step_warnings <$> steps)) (concat (step_unexecutable <$> steps)).

Definition isAutoApplicable (c : MigrationClassification) : bool := match unexecutable c with [] => true | _ => false end.

Inductive backfill_value := BfString (s : string) | BfNumber (n : Z) | BfBool (b : bool).
Record BackfillValue := mkBackfill { bf_model : string; bf_field : string; bf_value : backfill_value }.

Definition isBlockerResolved (signal : MigrationSignal) (backfills : list BackfillValue) : bool :=
  (bool_decide (sg_code signal = SigRequiredFieldAdded) || bool_decide (sg_code signal = SigMadeRequired))
  && existsb (λ b, String.eqb (bf_model b) (sg_model signal) && bool_decide (Some (bf_field b) = sg_field signal)) backfills.

Definition unresolvedBlockers (c : MigrationClassification) (backfills : list BackfillValue) : list MigrationSignal :=
  List.filter (λ s, negb (isBlockerResolved s backfills)) (unexecutable c).
