(* ===== verification/SchemaDiffFacts.v ===== *)
(** * The steps of a plan and the schemas they come from

    Lemmas on the plans of [SchemaDiff.v]: renames that fit the two schemas, the values of
    an enum, and the facets of a field that changed. *)
From S2P Require Import Prelude JsData SchemaJson SchemaDiff.
#[local] Open Scope string_scope.
#[local] Open Scope list_scope.
#[local] Open Scope Z_scope.

(** The values an enum field admits. *)
Definition values_of (meta : FieldMeta) : gset string := if decide (f_type meta = FtEnum) then list_to_set (default [] (f_enumValues meta)) else ∅.

(** ** Lookups *)

Lemma map_get_is_Some {A} (l : list (string * A)) k : is_Some (map_get k l) ↔ k ∈ l.*1.
Proof. destruct (map_get k l) eqn:E; [|apply map_get_None in E; split; [by intros [? ?]|done]].
  split; [|by eauto]. intros _. apply map_get_elem in E. by apply (list_elem_of_fmap_2' fst _ (k, a)). Qed.

Lemma map_get_swap (l : list (string * string)) from to : NoDup l.*2 → map_get to (by_new_name l) = Some from ↔ (from, to) ∈ l.
Proof.
  unfold by_new_name.
  assert (H : ∀ acc, NoDup l.*2 → (∀ k, k ∈ l.*2 → map_get k acc = None) →
    map_get to (foldl (λ m (r : string * string), map_set r.2 r.1 m) acc l) = Some from ↔ map_get to acc = Some from ∨ (from, to) ∈ l).
  { clear. induction l as [|[f t] l IH]; intros acc Hn Hf; [simpl; split; [by left|by intros [?|?%elem_of_nil]]|].
    rewrite fmap_cons in Hn. apply NoDup_cons in Hn as [Ht Hn]. simpl in Ht. cbn [foldl fst snd]. rewrite IH; [|done|].
    - rewrite map_get_set, elem_of_cons. case_decide as E; [subst|naive_solver].
      rewrite (Hf t) by (rewrite fmap_cons; left). split; [naive_solver|]. intros [?|[[= ->]|Hin]]; [done|by left|].
      exfalso. apply Ht. by apply (list_elem_of_fmap_2' snd _ (from, t)).
    - intros k Hk. rewrite map_get_set, decide_False by (by intros ->). apply Hf. rewrite fmap_cons. by right. }
  intros Hn. rewrite (H [] Hn) by done. naive_solver.
Qed.

(** ** One model *)

Record renames_fit (prev next : list string) (renames : list (string * string)) : Prop := {
  rf_from : NoDup renames.*1;
  rf_to : NoDup renames.*2;
  rf_from_prev : ∀ k, k ∈ renames.*1 → k ∈ prev ∧ k ∉ next;
  rf_to_next : ∀ k, k ∈ renames.*2 → k ∈ next ∧ k ∉ prev;
}.

Lemma rename_steps_all model prev next renames :
  renames_fit (m_fields prev).*1 (m_fields next).*1 renames → rename_steps model prev next renames = (λ r, rename_field model r.1 r.2) <$> renames.
Proof.
  intros [_ _ Hfp Htn]. unfold rename_steps. assert (Hsub : renames ⊆ renames) by done. revert Hsub. generalize renames at 1 3 4.
  intros l. induction l as [|[a b] l IH]; intros Hs; [done|]. rewrite fmap_cons. cbn [omap list_omap fst snd]. rewrite <- IH by set_solver.
  assert (Hin : (a, b) ∈ renames) by (apply Hs; left). rewrite !bool_decide_true; [done| |].
  - apply Htn. by apply (list_elem_of_fmap_2' snd _ (a, b)).
  - apply Hfp. by apply (list_elem_of_fmap_2' fst _ (a, b)).
Qed.

(** ** One field *)

Lemma to_set_elem l : ∀ x, x ∈ to_set l ↔ x ∈ l.
Proof.
  unfold to_set. assert (H : ∀ acc x, x ∈ foldl (λ acc x, set_add x acc) acc l ↔ x ∈ acc ∨ x ∈ l).
  { induction l as [|y l IH]; intros acc x; simpl; [set_solver|]. rewrite IH, elem_set_add. set_solver. }
  intros x. rewrite H. set_solver.
Qed.

Lemma enum_changes from to :
  match diffEnumValues from to with
  | Some e => ((list_to_set (default [] from) : gset string) ∖ list_to_set (ec_removed e)) ∪ list_to_set (ec_added e) = list_to_set (default [] to)
              ∧ list_to_set (ec_removed e) = (list_to_set (default [] from) : gset string) ∖ list_to_set (default [] to)
  | None => (list_to_set (default [] from) : gset string) = list_to_set (default [] to)
  end.
Proof.
  unfold diffEnumValues. set (a := to_set (default [] from)). set (b := to_set (default [] to)).
  assert (Ha : ∀ x, x ∈ a ↔ x ∈ default [] from) by apply to_set_elem.
  assert (Hb : ∀ x, x ∈ b ↔ x ∈ default [] to) by apply to_set_elem.
  set (added := base.filter (λ v, v ∉ a) b). set (removed := base.filter (λ v, v ∉ b) a).
  assert (Hadd : ∀ x, x ∈ added ↔ x ∈ default [] to ∧ x ∉ default [] from) by (intros x; unfold added; rewrite list_elem_of_filter, Ha, Hb; tauto).
  assert (Hrem : ∀ x, x ∈ removed ↔ x ∈ default [] from ∧ x ∉ default [] to) by (intros x; unfold removed; rewrite list_elem_of_filter, Ha, Hb; tauto).
  assert (Hsome : (list_to_set (default [] from) : gset string) ∖ list_to_set removed ∪ list_to_set added = list_to_set (default [] to)
                  ∧ list_to_set removed = (list_to_set (default [] from) : gset string) ∖ list_to_set (default [] to)).
  { split; apply set_eq; intros x; rewrite ?elem_of_union, ?elem_of_difference, !elem_of_list_to_set, ?Hadd, ?Hrem;
      destruct (decide (x ∈ default [] from)), (decide (x ∈ default [] to)); tauto. }
  clearbody added removed. destruct added as [|x l1], removed as [|y l2]; try exact Hsome.
  apply set_eq. intros x. rewrite !elem_of_list_to_set. specialize (Hadd x). specialize (Hrem x). rewrite elem_of_nil in Hadd, Hrem.
  destruct (decide (x ∈ default [] from)), (decide (x ∈ default [] to)); tauto.
Qed.

Definition no_change : FieldChanges := mkChanges None None None None None.
Lemma no_changes_eq c : no_changes c = true → c = no_change.
Proof. by destruct c as [[] [] [] [] []]. Qed.

Definition facets (pn nn : string) (prev next : FieldMeta) : FieldChanges := mkChanges
  (changed (bool_decide (columnNameOf pn (Some prev) = columnNameOf nn (Some next))) (mkColumnChange (columnNameOf pn (Some prev)) (columnNameOf nn (Some next))))
  (changed (bool_decide (f_type prev = f_type next)) (mkTypeChange (f_type prev) (f_type next) (classifyCast (f_type prev) (f_type next))))
  (changed (Bool.eqb (f_isOptional prev) (f_isOptional next)) (mkNullability (f_isOptional prev) (f_isOptional next)))
  (if bool_decide (f_type prev = FtEnum) && bool_decide (f_type next = FtEnum) then diffEnumValues (f_enumValues prev) (f_enumValues next) else None)
  (changed (Bool.eqb (f_isIndexed prev) (f_isIndexed next)) (mkIndexChange (f_isIndexed prev) (f_isIndexed next))).
Definition without_column (c : FieldChanges) : FieldChanges := mkChanges None (ch_type c) (ch_nullability c) (ch_enumValues c) (ch_indexed c).

Lemma altered_eq prev renames f meta :
  altered prev renames (f, meta)
  = match map_get (default f (map_get f (by_new_name renames))) (m_fields prev) with
    | Some pm =>
        let D := facets (default f (map_get f (by_new_name renames))) f pm meta in
        let D := if is_Some_b (map_get f (by_new_name renames)) then without_column D else D in
        if no_changes D then None else Some D
    | None => None
    end.
Proof.
  unfold altered. cbn [fst snd]. destruct (map_get _ (m_fields prev)) as [pm|]; [|done]. simpl. unfold diffField. fold (facets (default f (map_get f (by_new_name renames))) f pm meta).
  set (D := facets _ _ _ _). destruct (no_changes D) eqn:E; [|done]. simpl. apply no_changes_eq in E. rewrite E. by destruct (is_Some_b _).
Qed.

(** ** A schema *)

Definition well_keyed (s : SchemaJSON) : Prop := NoDup (s_models s).*1 ∧ ∀ m def, map_get m (s_models s) = Some def → NoDup (m_fields def).*1.

(** Each hint names a model or field that is gone and one that is new, and no two hints
    name the same. *)
Record hints_fit (prev next : SchemaJSON) (hints : RenameHints) : Prop := {
  hf_models : renames_fit (s_models prev).*1 (s_models next).*1 (model_renames hints);
  hf_fields : ∀ m def old, map_get m (s_models next) = Some def → map_get (prevModelKey hints m) (s_models prev) = Some old →
    renames_fit (m_fields old).*1 (m_fields def).*1 (renames_of hints m);
}.
