(* ===== verification/SchemaRisk.v ===== *)
(** * What a classified plan risks

    The warnings and blockers of [classifyMigration] say exactly what a plan loses and what
    it demands; rename hints that fit neither schema hide changes. *)
From S2P Require Import Prelude JsData SchemaJson SchemaDiff SchemaDiffFacts.
#[local] Open Scope string_scope.
#[local] Open Scope list_scope.
#[local] Open Scope Z_scope.

(** ** The steps of a plan *)

Lemma map_get_elem_iff {A} (l : list (string * A)) k a : NoDup l.*1 → (k, a) ∈ l ↔ map_get k l = Some a.
Proof. intros Hn. symmetry. by apply map_get_spec. Qed.

Lemma elem_plan prev next hints s :
  s ∈ diffSchema (Some prev) next hints ↔
  (∃ m def, (m, def) ∈ s_models next ∧
     ((map_get (prevModelKey hints m) (s_models prev) = None ∧ s = create_model m (tableNameOf def m))
      ∨ ∃ old, map_get (prevModelKey hints m) (s_models prev) = Some old
               ∧ ((is_Some (map_get m (by_new_name (model_renames hints))) ∧ s = rename_model (prevModelKey hints m) m)
                  ∨ s ∈ diffModelFields m old def (renames_of hints m))))
  ∨ s ∈ drop_model_steps prev next hints.
Proof.
  assert (Hc : ∀ {A} (L : list A) (g : A → list MigrationStep), s ∈ concat (g <$> L) ↔ ∃ x, x ∈ L ∧ s ∈ g x).
  { intros A L g. induction L as [|x L IH]; [simpl; split; [by intros ?%elem_of_nil|]; intros (? & ?%elem_of_nil & _); done|].
    rewrite fmap_cons. cbn [concat]. rewrite elem_of_app, IH. setoid_rewrite elem_of_cons. naive_solver. }
  unfold diffSchema. rewrite !elem_of_app, <- !list_fmap_compose, !Hc. split.
  - intros [([m def] & Hin & Hs)|[([m def] & Hin & Hs)|[([m def] & Hin & Hs)|Hs]]]; [left; exists m, def; split; [done|]..|by right];
      unfold model_steps in Hs; simpl in Hs; destruct (map_get (prevModelKey hints m) (s_models prev)) as [old|]; try (by apply elem_of_nil in Hs).
    + apply list_elem_of_singleton in Hs. by left.
    + right. exists old. split; [done|]. destruct (map_get m _); [|by apply elem_of_nil in Hs]. apply list_elem_of_singleton in Hs. left. by eauto.
    + right. exists old. split; [done|]. by right.
  - intros [(m & def & Hin & [[E ->]|(old & E & [[[x Hx] ->]|Hs])])|Hs]; [left|right; left|right; right; left|by right; right; right];
      exists (m, def); (split; [done|]); unfold model_steps; simpl; rewrite E; [by left|rewrite Hx; by left|done].
Qed.

Lemma concat_nil {A B} (g : A → list B) (l : list A) : concat (g <$> l) = [] ↔ ∀ x, x ∈ l → g x = [].
Proof.
  induction l as [|y l IH]; [split; [by intros _ x ?%elem_of_nil|done]|]. rewrite fmap_cons. cbn [concat]. rewrite app_nil, IH.
  setoid_rewrite elem_of_cons. naive_solver.
Qed.

(** ** One model *)

(** Where the field of the new model was. *)
Definition was (renames : list (string * string)) (f : string) : string := default f (map_get f (by_new_name renames)).

Section Was.
Context (P N : list string) (renames : list (string * string)).
Hypothesis Hfit : renames_fit P N renames.

Lemma was_renamed from to : (from, to) ∈ renames → was renames to = from.
Proof. intros H. unfold was. by rewrite (proj2 (map_get_swap renames from to (rf_to _ _ _ Hfit)) H). Qed.

Lemma was_kept f : f ∈ P → was renames f = f.
Proof.
  intros Hf. unfold was. destruct (map_get f _) as [x|] eqn:E; [|done]. apply map_get_swap in E; [|apply Hfit].
  apply (list_elem_of_fmap_2 snd) in E. by apply (rf_to_next _ _ _ Hfit) in E as [_ ?].
Qed.

(** A field of the old model is in the new one under one name at most. *)
Lemma was_inj f g : f ∈ N → g ∈ N → was renames f ∈ P → was renames f = was renames g → f = g.
Proof.
  unfold was. intros Hf Hg Hw E. destruct (map_get f _) as [a|] eqn:Ea, (map_get g _) as [b|] eqn:Eb; simpl in *.
  - apply map_get_swap in Ea, Eb; [|apply Hfit..]. subst. apply list_elem_of_lookup in Ea as [i Hi], Eb as [j Hj].
    assert (i = j) as -> by (eapply (NoDup_lookup _ i j b (rf_from _ _ _ Hfit)); rewrite list_lookup_fmap; [by rewrite Hi|by rewrite Hj]). congruence.
  - subst. apply map_get_swap in Ea; [|apply Hfit]. apply (list_elem_of_fmap_2 fst), (rf_from_prev _ _ _ Hfit) in Ea as [_ []]. done.
  - subst. apply map_get_swap in Eb; [|apply Hfit]. apply (list_elem_of_fmap_2 fst), (rf_from_prev _ _ _ Hfit) in Eb as [_ []]. done.
  - done.
Qed.

End Was.

Section Model.
Context (model : string) (prev next : ModelJSON) (renames : list (string * string)).
Hypothesis Hfit : renames_fit (m_fields prev).*1 (m_fields next).*1 renames.
Hypothesis Hp : NoDup (m_fields prev).*1.
Hypothesis Hn : NoDup (m_fields next).*1.

Definition safe_change (old new : FieldMeta) : Prop :=
  classifyCast (f_type old) (f_type new) = CastSafe ∧ (f_type old = FtEnum → f_type new = FtEnum → values_of old ⊆ values_of new).

Lemma quiet_facets pn f pm meta D :
  ch_type D = ch_type (facets pn f pm meta) → ch_enumValues D = ch_enumValues (facets pn f pm meta) →
  step_warnings (alter_field model f D) = [] ↔ safe_change pm meta.
Proof.
  intros E1 E2. unfold safe_change. simpl. rewrite E1, E2. unfold facets, changed. cbn [ch_type ch_enumValues]. rewrite app_nil. f_equiv.
  - case_bool_decide as E; [unfold classifyCast; by rewrite decide_True|]. by destruct (classifyCast _ _).
  - pose proof (enum_changes (f_enumValues pm) (f_enumValues meta)) as He. unfold values_of.
    destruct (decide (f_type pm = FtEnum)) as [T1|T1]; [|rewrite bool_decide_false by done; naive_solver].
    destruct (decide (f_type meta = FtEnum)) as [T2|T2]; [|rewrite (bool_decide_false (f_type meta = FtEnum)), andb_false_r by done; naive_solver].
    rewrite !bool_decide_true by done. simpl. destruct (diffEnumValues _ _) as [[added removed]|]; [|split; [intros _ _ _; by rewrite He|done]].
    destruct He as [_ He]. simpl in He. destruct removed as [|x removed]; split; try done.
    + intros _ _ _. simpl in He. set_solver.
    + intros H. specialize (H T1 T2). assert (Hx : x ∈ (list_to_set (x :: removed) : gset string)) by set_solver. rewrite He in Hx. set_solver.
Qed.

Lemma altered_facets f meta pm :
  map_get (was renames f) (m_fields prev) = Some pm →
  ∃ D, ch_type D = ch_type (facets (was renames f) f pm meta) ∧ ch_enumValues D = ch_enumValues (facets (was renames f) f pm meta)
       ∧ ch_nullability D = ch_nullability (facets (was renames f) f pm meta) ∧ altered prev renames (f, meta) = if no_changes D then None else Some D.
Proof.
  intros E. rewrite altered_eq. unfold was in *. rewrite E. cbv zeta. eexists. split_and!; [..|reflexivity]; by destruct (is_Some_b _).
Qed.

Lemma elem_field_steps s :
  s ∈ diffModelFields model prev next renames ↔
  s ∈ rename_steps model prev next renames
  ∨ (∃ f meta, map_get f (m_fields next) = Some meta ∧ f ∉ (m_fields prev).*1 ∧ f ∉ renames.*2 ∧ s = add_field model f meta)
  ∨ (∃ f meta D, map_get f (m_fields next) = Some meta ∧ altered prev renames (f, meta) = Some D ∧ s = alter_field model f D)
  ∨ (∃ f, f ∈ (m_fields prev).*1 ∧ f ∉ (m_fields next).*1 ∧ f ∉ renames.*1 ∧ s = drop_field model f).
Proof.
  unfold diffModelFields. rewrite !elem_of_app. unfold add_steps, alter_steps, drop_steps. rewrite !list_elem_of_omap. split.
  - intros [H|[([f meta] & Hin & E)|[([f meta] & Hin & E)|(f & Hin & E)]]]; [by left|right; left|right; right; left|right; right; right].
    + cbn [fst snd] in E. destruct (_ || _) eqn:Eo; [done|]. apply orb_false_iff in Eo as [E1 E2]. bool_simpl. injection E as <-. exists f, meta.
      rewrite <- map_get_elem_iff by done. done.
    + cbn [fst snd] in E. destruct (altered _ _ _) as [D|] eqn:Ea; [|done]. injection E as <-. exists f, meta, D. rewrite <- map_get_elem_iff by done. done.
    + destruct (_ || _) eqn:Eo; [done|]. apply orb_false_iff in Eo as [E1 E2]. bool_simpl. injection E as <-. by exists f.
  - intros [H|[(f & meta & E & H1 & H2 & ->)|[(f & meta & D & E & Ha & ->)|(f & H1 & H2 & H3 & ->)]]]; [by left|right; left|right; right; left|right; right; right].
    + exists (f, meta). rewrite map_get_elem_iff by done. split; [done|]. cbn [fst snd]. by rewrite !bool_decide_false.
    + exists (f, meta). rewrite map_get_elem_iff by done. split; [done|]. cbn [fst]. by rewrite Ha.
    + exists f. split; [done|]. by rewrite !bool_decide_false.
Qed.

Lemma rename_steps_quiet s : s ∈ rename_steps model prev next renames → step_warnings s = [] ∧ step_unexecutable s = [].
Proof. rewrite rename_steps_all by done. by intros (r & -> & _)%list_elem_of_fmap. Qed.

(** No warning: every field is kept, and its values with it. *)
Lemma quiet_model :
  (∀ s, s ∈ diffModelFields model prev next renames → step_warnings s = []) ↔
  ∀ f pm, map_get f (m_fields prev) = Some pm → ∃ g meta, map_get g (m_fields next) = Some meta ∧ was renames g = f ∧ safe_change pm meta.
Proof.
  setoid_rewrite elem_field_steps. split.
  - intros Hq f pm Hf. assert (Hin : f ∈ (m_fields prev).*1) by (apply map_get_is_Some; by eauto).
    assert (Hg : ∃ g meta, map_get g (m_fields next) = Some meta ∧ was renames g = f).
    { destruct (map_get f (m_fields next)) as [meta|] eqn:En; [exists f, meta; by rewrite (was_kept _ _ _ Hfit)|].
      destruct (decide (f ∈ renames.*1)) as [Hr|Hr].
      - apply list_elem_of_fmap in Hr as ([a b] & -> & Hr). assert (Hb : b ∈ (m_fields next).*1) by (apply (rf_to_next _ _ _ Hfit); by apply (list_elem_of_fmap_2' snd _ (a, b))).
        apply map_get_is_Some in Hb as [meta Hb]. exists b, meta. split; [done|]. by apply (was_renamed _ _ _ Hfit).
      - exfalso. assert (Hd : step_warnings (drop_field model f) = []); [|done]. apply Hq. right; right; right. exists f. split_and!; try done. by apply map_get_None. }
    destruct Hg as (g & meta & Hg & Hw). exists g, meta. split_and!; [done..|].
    destruct (altered_facets g meta pm) as (D & E1 & E2 & _ & Ea); [by rewrite Hw|]. destruct (no_changes D) eqn:En.
    + apply no_changes_eq in En. subst D. by apply (quiet_facets (was renames g) g pm meta no_change E1 E2).
    + apply (quiet_facets (was renames g) g pm meta D E1 E2). apply Hq. right; right; left. by exists g, meta, D.
  - intros Hk s [H|[(f & meta & _ & _ & _ & ->)|[(f & meta & D & Hf & Ha & ->)|(f & H1 & H2 & H3 & ->)]]]; [by apply rename_steps_quiet|done| |].
    + destruct (map_get (was renames f) (m_fields prev)) as [pm|] eqn:Ew; [|unfold was in Ew; rewrite altered_eq, Ew in Ha; done].
      destruct (altered_facets f meta pm Ew) as (D' & E1 & E2 & _ & Ea). rewrite Ha in Ea. destruct (no_changes D'); [done|]. injection Ea as ->.
      apply (quiet_facets (was renames f) f pm meta D' E1 E2). destruct (Hk _ _ Ew) as (g & meta' & Hg & Hw & Hs).
      assert (g = f) as -> by (apply (was_inj _ _ _ Hfit); [apply map_get_is_Some; by eauto..| |done]; rewrite Hw; apply map_get_is_Some; by eauto). congruence.
    + exfalso. apply map_get_is_Some in H1 as [pm H1]. destruct (Hk _ _ H1) as (g & meta & Hg & Hw & _). unfold was in Hw.
      destruct (map_get g (by_new_name renames)) as [x|] eqn:Ex; simpl in Hw; subst.
      * apply map_get_swap in Ex; [|apply Hfit]. apply H3. by apply (list_elem_of_fmap_2 fst) in Ex.
      * apply H2, map_get_is_Some. by eauto.
Qed.

(** No blocker: a field that must have a value had to have one before. *)
Lemma calm_model :
  (∀ s, s ∈ diffModelFields model prev next renames → step_unexecutable s = []) ↔
  ∀ f meta, map_get f (m_fields next) = Some meta → f_isOptional meta = false →
    ∃ pm, map_get (was renames f) (m_fields prev) = Some pm ∧ f_isOptional pm = false.
Proof.
  setoid_rewrite elem_field_steps. split.
  - intros Hq f meta Hf Ho. destruct (map_get (was renames f) (m_fields prev)) as [pm|] eqn:Ew.
    + exists pm. split; [done|]. destruct (f_isOptional pm) eqn:Ep; [|done]. exfalso.
      destruct (altered_facets f meta pm Ew) as (D & _ & _ & E3 & Ea). unfold facets, changed in E3. cbn [ch_nullability] in E3. rewrite Ep, Ho in E3. simpl in E3.
      destruct (no_changes D) eqn:En; [apply no_changes_eq in En; by subst|].
      assert (Hd : step_unexecutable (alter_field model f D) = []) by (apply Hq; right; right; left; by exists f, meta, D). simpl in Hd. by rewrite E3 in Hd.
    + exfalso. assert (Hnr : f ∉ renames.*2).
      { intros ([a b] & -> & Hr)%list_elem_of_fmap. simpl in Ew; rewrite (was_renamed _ _ _ Hfit a b Hr) in Ew. apply (list_elem_of_fmap_2 fst), (rf_from_prev _ _ _ Hfit) in Hr as [Hr _]. by apply map_get_None in Ew. }
      assert (Hnp : f ∉ (m_fields prev).*1) by (intros Hx; rewrite (was_kept _ _ _ Hfit) in Ew by done; by apply map_get_None in Ew).
      assert (Hd : step_unexecutable (add_field model f meta) = []) by (apply Hq; right; left; by exists f, meta). simpl in Hd. by rewrite Ho in Hd.
  - intros Hk s [H|[(f & meta & Hf & H1 & H2 & ->)|[(f & meta & D & Hf & Ha & ->)|(f & H1 & H2 & H3 & ->)]]]; [by apply rename_steps_quiet| | |done].
    + simpl. destruct (f_isOptional meta) eqn:Eo; [done|]. exfalso. destruct (Hk f meta Hf Eo) as (pm & Hw & _). unfold was in Hw.
      destruct (map_get f (by_new_name renames)) as [x|] eqn:Ex; simpl in Hw.
      * apply map_get_swap in Ex; [|apply Hfit]. apply H2. by apply (list_elem_of_fmap_2 snd) in Ex.
      * apply H1, map_get_is_Some. by eauto.
    + destruct (map_get (was renames f) (m_fields prev)) as [pm|] eqn:Ew; [|unfold was in Ew; rewrite altered_eq, Ew in Ha; done].
      destruct (altered_facets f meta pm Ew) as (D' & _ & _ & E3 & Ea). rewrite Ha in Ea. destruct (no_changes D'); [done|]. injection Ea as ->.
      simpl. rewrite E3. unfold facets, changed. cbn [ch_nullability]. destruct (f_isOptional pm) eqn:Ep, (f_isOptional meta) eqn:Eo; try done.
      destruct (Hk f meta Hf Eo) as (pm' & Hw & Hp'). congruence.
Qed.
End Model.

(** ** A schema *)

Lemma quiet_drops prev next hints :
  well_keyed prev →
  (∀ s, s ∈ drop_model_steps prev next hints → step_warnings s = []) ↔
  ∀ m old, map_get m (s_models prev) = Some old → m ∈ (s_models next).*1 ∨ m ∈ (model_renames hints).*1.
Proof.
  intros [Hp _]. unfold drop_model_steps. setoid_rewrite list_elem_of_omap. split.
  - intros Hq m old Hm. destruct (decide (m ∈ (s_models next).*1)) as [|H1]; [by left|]. destruct (decide (m ∈ (model_renames hints).*1)) as [|H2]; [by right|].
    exfalso. assert (Hd : step_warnings (drop_model m (tableNameOf old m)) = []); [|done]. apply Hq. exists (m, old). rewrite map_get_elem_iff by done.
    split; [done|]. cbn [fst snd]. by rewrite !bool_decide_false.
  - intros Hk s ([m old] & Hin & E). cbn [fst snd] in E. destruct (_ || _) eqn:Eo; [done|]. apply orb_false_iff in Eo as [E1 E2]. bool_simpl.
    apply map_get_elem_iff in Hin; [|done]. by destruct (Hk m old Hin).
Qed.

(** What a plan keeps and what it asks of the rows that are there. *)
Definition keeps_everything (prev next : SchemaJSON) (hints : RenameHints) : Prop :=
  ∀ m old, map_get m (s_models prev) = Some old →
    ∃ m' def, map_get m' (s_models next) = Some def ∧ prevModelKey hints m' = m
      ∧ ∀ f pm, map_get f (m_fields old) = Some pm →
          ∃ g meta, map_get g (m_fields def) = Some meta ∧ was (renames_of hints m') g = f ∧ safe_change pm meta.
Definition asks_nothing (prev next : SchemaJSON) (hints : RenameHints) : Prop :=
  ∀ m def old, map_get m (s_models next) = Some def → map_get (prevModelKey hints m) (s_models prev) = Some old →
    ∀ f meta, map_get f (m_fields def) = Some meta → f_isOptional meta = false →
      ∃ pm, map_get (was (renames_of hints m) f) (m_fields old) = Some pm ∧ f_isOptional pm = false.

(** C20: the classification of a plan is exact, for schemas with distinct keys and rename
    hints that name what is gone and what is new: it has no warning exactly when every model
    and field of the old schema is in the new one, under its own name or the hinted one,
    with a type its values cast to safely and all their enum values, and it applies by
    itself exactly when every field a model must have had to be there before. *)
Theorem classification_is_exact prev next hints :
  well_keyed prev → well_keyed next → hints_fit prev next hints →
  let c := classifyMigration (diffSchema (Some prev) next hints) in
  (warnings c = [] ↔ keeps_everything prev next hints) ∧ (isAutoApplicable c = true ↔ asks_nothing prev next hints).
Proof.
  intros Hp Hn [Hm Hfields] c. pose proof Hp as [Hp1 Hp2]. pose proof Hn as [Hn1 Hn2]. split.
  - unfold c, classifyMigration. cbn [warnings]. rewrite concat_nil. split.
    + intros Hq m old Hold.
      assert (Hd : m ∈ (s_models next).*1 ∨ m ∈ (model_renames hints).*1).
      { refine (proj1 (quiet_drops prev next hints Hp) _ m old Hold). intros s Hs. apply Hq, elem_plan. by right. }
      assert (Hex : ∃ m' def, map_get m' (s_models next) = Some def ∧ prevModelKey hints m' = m).
      { assert (Hmp : m ∈ (s_models prev).*1) by (apply map_get_is_Some; by eauto). destruct Hd as [Hd|Hd].
        - apply map_get_is_Some in Hd as [def Hd]. exists m, def. split; [done|]. by apply (was_kept _ _ _ Hm).
        - apply list_elem_of_fmap in Hd as ([a b] & -> & Hr). assert (Hb : b ∈ (s_models next).*1) by (apply (rf_to_next _ _ _ Hm); by apply (list_elem_of_fmap_2' snd _ (a, b))).
          apply map_get_is_Some in Hb as [def Hb]. exists b, def. split; [done|]. by apply (was_renamed _ _ _ Hm). }
      destruct Hex as (m' & def & Hdef & Hw). exists m', def. split_and!; [done..|].
      assert (Hold' : map_get (prevModelKey hints m') (s_models prev) = Some old) by (by rewrite Hw).
      apply (quiet_model m' old def (renames_of hints m')); [by eapply Hfields|by eapply Hp2|by eapply Hn2|].
      intros s Hs. apply Hq, elem_plan. left. exists m', def. rewrite map_get_elem_iff by done. split; [done|]. right. exists old. split; [done|by right].
    + intros Hk s [(m' & def & Hin & [[_ ->]|(old & Hold & [[_ ->]|Hs])])|Hs]%elem_plan; [done|done| |].
      * apply map_get_elem_iff in Hin; [|done]. destruct (Hk _ _ Hold) as (m2 & def2 & Hm2 & Hw & Hf2).
        assert (m2 = m') as -> by (apply (was_inj _ _ _ Hm); [apply map_get_is_Some; by eauto..| |exact Hw];
          change (prevModelKey hints m2 ∈ (s_models prev).*1); rewrite Hw; apply map_get_is_Some; by eauto).
        assert (def2 = def) as -> by congruence. revert s Hs.
        apply (quiet_model m' old def (renames_of hints m')); [by eapply Hfields|by eapply Hp2|by eapply Hn2|done].
      * revert s Hs. apply quiet_drops; [done|]. intros m old Hold. destruct (Hk _ _ Hold) as (m' & def & Hdef & Hw & _). unfold prevModelKey in Hw.
        destruct (map_get m' (by_new_name (model_renames hints))) as [x|] eqn:Ex; simpl in Hw; subst.
        -- right. apply map_get_swap in Ex; [|apply Hm]. by apply (list_elem_of_fmap_2 fst) in Ex.
        -- left. apply map_get_is_Some. by eauto.
  - assert (Hauto : isAutoApplicable c = true ↔ unexecutable c = []) by (unfold isAutoApplicable; destruct (unexecutable c); split; congruence).
    rewrite Hauto. unfold c, classifyMigration. cbn [unexecutable]. rewrite concat_nil. split.
    + intros Hq m def old Hdef Hold. apply (calm_model m old def (renames_of hints m)); [by eapply Hfields|by eapply Hn2|].
      intros s Hs. apply Hq, elem_plan. left. exists m, def. rewrite map_get_elem_iff by done. split; [done|]. right. exists old. split; [done|by right].
    + intros Hk s [(m & def & Hin & [[_ ->]|(old & Hold & [[_ ->]|Hs])])|Hs]%elem_plan; [done|done| |].
      * apply map_get_elem_iff in Hin; [|done]. revert s Hs.
        apply (calm_model m old def (renames_of hints m)); [by eapply Hfields|by eapply Hn2|]. by eapply Hk.
      * unfold drop_model_steps in Hs. apply list_elem_of_omap in Hs as ([m old] & _ & E). cbn [fst snd] in E. destruct (_ || _); [done|]. by injection E as <-.
Qed.
