(* ===== verification/Ddl.v ===== *)
(** * Migrations as SQL

    [packages/transaction/src/schema/ddl.ts]: the statements that provision a schema and
    those that carry out the steps of a plan. A statement is a constructor here and
    [render] gives its text; the order, the conditions and the names are the code's. *)
From S2P Require Import Prelude JsData Json JsonText WireFormats SchemaJson SchemaDiff.
#[local] Open Scope string_scope.
#[local] Open Scope list_scope.
#[local] Open Scope Z_scope.

(** ** Text *)

Definition nl : string := char_string (Ascii.ascii_of_N 10).
Definition sq : Ascii.ascii := Ascii.ascii_of_N 39.

(** [replace(/c/g, cc)] *)
Fixpoint double_char (c : Ascii.ascii) (s : string) : string :=
  match s with EmptyString => EmptyString | String d s => if Ascii.eqb d c then String c (String c (double_char c s)) else String d (double_char c s) end.

Definition q (identifier : string) : string := String dq (double_char dq identifier +:+ char_string dq).
Definition literal (s : string) : string := String sq (double_char sq s +:+ char_string sq).

Definition sqlType (t : FieldType) : string :=
  match t with
  | FtString | FtEnum => "TEXT"
  | FtNumber => "DOUBLE PRECISION"
  | FtBoolean => "BOOLEAN"
  | FtDate => "TIMESTAMPTZ"
  | FtJson => "JSONB"
  end.

(** ** Names *)

Definition char_code (c : Ascii.ascii) : Z := Z.of_N (Ascii.N_of_ascii c).
Fixpoint name_hash (h : Z) (s : string) : Z := match s with EmptyString => h | String c s => name_hash ((h * 33 + char_code c) mod 2 ^ 32) s end.

Definition constraintName (table col suffix : string) : string :=
  let full := table +:+ "_" +:+ col +:+ "_" +:+ suffix in
  if (String.length full <=? 63)%nat then full
  else
    let hash := radix_digits 7 36 (name_hash 5381 full) EmptyString in
    let keep := Z.max 1 (63 - Z.of_nat (String.length suffix) - Z.of_nat (String.length hash) - 2) in
    String.substring 0 (Z.to_nat keep) full +:+ "_" +:+ hash +:+ "_" +:+ suffix.

Definition indexName (table col : string) : string := table +:+ "_" +:+ col +:+ "_idx".
Definition enumName (table col : string) : string := table +:+ "_" +:+ col +:+ "_enum".

(** ** Statements *)

Inductive predicate := OrgIs (column : string) | SubjectIn (group column : string).

Inductive statement :=
  | CreateSchema
  | CreateTable (table : string) (org : option string)
  | AddColumn (table column : string) (type : FieldType) (notNull : bool)
  | EnsureEnumCheck (table column : string) (values : list string)
  | CreateIndex (name table column : string)
  | EnableRls (table : string)
  | ForceRls (table : string)
  | NoForceRls (table : string)
  | DisableRls (table : string)
  | DropPolicy (policy table : string)
  | CreatePolicy (policy table : string) (predicates : list predicate)
  | DropTable (table : string)
  | RenameTable (from to : string)
  | DropColumn (table column : string)
  | RenameColumn (table from to : string)
  | AlterType (table column : string) (type : FieldType)
  | SetNotNull (table column : string)
  | DropNotNull (table column : string)
  | FillNull (table column literal : string)
  | DropConstraint (table name : string)
  | AddEnumCheck (table column : string) (values : list string)
  | DropIndex (name : string)
  | EnsureForeignKey (table name column target : string)
  | ValidateConstraint (table name : string)
  | IndexConcurrently (name table column : string).

Definition predicate_text (p : predicate) : string :=
  match p with
  | OrgIs column => q column +:+ " = current_setting('app.current_org_id', true)"
  | SubjectIn group column =>
      "COALESCE(NULLIF(current_setting('app.current_subject_groups', true), ''), '[]')::jsonb ? ("
      +:+ literal (group +:+ ":") +:+ " || " +:+ q column +:+ "::text)"
  end.
Definition conjunction (ps : list predicate) : string :=
  match ps with [p] => predicate_text p | ps => join " AND " ((λ p, "(" +:+ predicate_text p +:+ ")") <$> ps) end.

Definition values_text (values : list string) : string := join ", " (literal <$> values).
Definition enum_check (qt table column : string) (values : list string) : string :=
  "ALTER TABLE " +:+ qt +:+ " ADD CONSTRAINT " +:+ q (enumName table column) +:+ " CHECK (" +:+ q column +:+ " IN (" +:+ values_text values +:+ "));".

Definition render (schema : string) (s : statement) : string :=
  let qs := q schema in
  let qt table := qs +:+ "." +:+ q table in
  let alter table rest := "ALTER TABLE " +:+ qt table +:+ " " +:+ rest in
  match s with
  | CreateSchema => "CREATE SCHEMA IF NOT EXISTS " +:+ qs +:+ ";"
  | CreateTable table org =>
      "CREATE TABLE IF NOT EXISTS " +:+ qt table +:+ " (" +:+ nl
      +:+ join ("," +:+ nl) (("  " +:+ q "id" +:+ " TEXT PRIMARY KEY") :: match org with Some c => ["  " +:+ q c +:+ " TEXT NOT NULL"] | None => [] end)
      +:+ nl +:+ ");"
  | AddColumn table column type notNull => alter table ("ADD COLUMN IF NOT EXISTS " +:+ q column +:+ " " +:+ sqlType type +:+ (if notNull then " NOT NULL;" else ";"))
  | EnsureEnumCheck table column values =>
      "DO $$ BEGIN" +:+ nl +:+ "  IF NOT EXISTS (SELECT 1 FROM pg_constraint WHERE conname = '" +:+ enumName table column +:+ "') THEN" +:+ nl
      +:+ "    " +:+ enum_check (qt table) table column values +:+ nl +:+ "  END IF;" +:+ nl +:+ "END $$;"
  | CreateIndex name table column => "CREATE INDEX IF NOT EXISTS " +:+ q name +:+ " ON " +:+ qt table +:+ " (" +:+ q column +:+ ");"
  | EnableRls table => alter table "ENABLE ROW LEVEL SECURITY;"
  | ForceRls table => alter table "FORCE ROW LEVEL SECURITY;"
  | NoForceRls table => alter table "NO FORCE ROW LEVEL SECURITY;"
  | DisableRls table => alter table "DISABLE ROW LEVEL SECURITY;"
  | DropPolicy policy table => "DROP POLICY IF EXISTS " +:+ q policy +:+ " ON " +:+ qt table +:+ ";"
  | CreatePolicy policy table ps =>
      "CREATE POLICY " +:+ q policy +:+ " ON " +:+ qt table +:+ nl +:+ "  USING (" +:+ conjunction ps +:+ ")" +:+ nl
      +:+ "  WITH CHECK (" +:+ conjunction ps +:+ ");"
  | DropTable table => "DROP TABLE IF EXISTS " +:+ qt table +:+ ";"
  | RenameTable from to => alter from ("RENAME TO " +:+ q to +:+ ";")
  | DropColumn table column => alter table ("DROP COLUMN IF EXISTS " +:+ q column +:+ ";")
  | RenameColumn table from to => alter table ("RENAME COLUMN " +:+ q from +:+ " TO " +:+ q to +:+ ";")
  | AlterType table column type => alter table ("ALTER COLUMN " +:+ q column +:+ " TYPE " +:+ sqlType type +:+ " USING " +:+ q column +:+ "::" +:+ sqlType type +:+ ";")
  | SetNotNull table column => alter table ("ALTER COLUMN " +:+ q column +:+ " SET NOT NULL;")
  | DropNotNull table column => alter table ("ALTER COLUMN " +:+ q column +:+ " DROP NOT NULL;")
  | FillNull table column value => "UPDATE " +:+ qt table +:+ " SET " +:+ q column +:+ " = " +:+ value +:+ " WHERE " +:+ q column +:+ " IS NULL;"
  | DropConstraint table name => alter table ("DROP CONSTRAINT IF EXISTS " +:+ q name +:+ ";")
  | AddEnumCheck table column values => enum_check (qt table) table column values
  | DropIndex name => "DROP INDEX IF EXISTS " +:+ qs +:+ "." +:+ q name +:+ ";"
  | EnsureForeignKey table name column target =>
      let lit := double_char sq name in
      "DO $$ BEGIN" +:+ nl
      +:+ "  IF EXISTS (SELECT 1 FROM pg_constraint WHERE conname = '" +:+ lit +:+ "' AND (NOT condeferrable OR confdeltype <> 'a')) THEN" +:+ nl
      +:+ "    " +:+ alter table ("DROP CONSTRAINT " +:+ q name +:+ ";") +:+ nl +:+ "  END IF;" +:+ nl
      +:+ "  IF NOT EXISTS (SELECT 1 FROM pg_constraint WHERE conname = '" +:+ lit +:+ "') THEN" +:+ nl
      +:+ "    " +:+ alter table ("ADD CONSTRAINT " +:+ q name +:+ " FOREIGN KEY (" +:+ q column +:+ ") REFERENCES " +:+ qt target +:+ " (" +:+ q "id"
           +:+ ") ON DELETE NO ACTION DEFERRABLE INITIALLY DEFERRED NOT VALID;") +:+ nl +:+ "  END IF;" +:+ nl +:+ "END $$;"
  | ValidateConstraint table name => alter table ("VALIDATE CONSTRAINT " +:+ q name +:+ ";")
  | IndexConcurrently name table column => "CREATE INDEX CONCURRENTLY IF NOT EXISTS " +:+ q name +:+ " ON " +:+ qt table +:+ " (" +:+ q column +:+ ");"
  end.

(** A plan: what runs in the transaction, and what runs after it. *)
Record sql_plan := mkPlan { statements : list statement; concurrent : list statement }.

(** ** Provisioning *)

Definition schema_definition_invalid : JsError := ablo_error AbloValidationError "schema_definition_invalid".

Definition subjectPredicate (model : ModelJSON) (rule : SubjectRule) : result predicate :=
  match map_get (sub_field rule) (m_fields model) with
  | Some meta => Ok (SubjectIn (sub_group rule) (columnNameOf (sub_field rule) (Some meta)))
  | None => Throw schema_definition_invalid
  end.

Definition subject_predicates (model : ModelJSON) : result (list predicate) :=
  match m_subject model with None => Ok [] | Some rule => p ← subjectPredicate model rule; Ok [p] end.

Definition field_statements (table : string) (org : option string) (p : string * FieldMeta) : list statement :=
  let '(fieldName, meta) := p in
  let col := columnNameOf fieldName (Some meta) in
  if String.eqb col "id" || bool_decide (Some col = org) then []
  else AddColumn table col (f_type meta) (negb (f_isOptional meta))
       :: match f_type meta, f_enumValues meta with FtEnum, Some (v :: values) => [EnsureEnumCheck table col (v :: values)] | _, _ => [] end.

Definition tenantPolicy (table : string) : string := table +:+ "_tenant_isolation".
Definition subjectPolicy (table : string) : string := table +:+ "_subject_isolation".

Definition isolation_statements (table : string) (model : ModelJSON) : result (list statement) :=
  match org_column model with
  | Some org =>
      subject ← subject_predicates model;
      Ok [CreateIndex (indexName table org) table org; EnableRls table; ForceRls table;
          DropPolicy (tenantPolicy table) table; CreatePolicy (tenantPolicy table) table (OrgIs org :: subject)]
  | None =>
      match m_subject model with
      | Some rule =>
          p ← subjectPredicate model rule;
          Ok [EnableRls table; ForceRls table; DropPolicy (subjectPolicy table) table; CreatePolicy (subjectPolicy table) table [p]]
      | None => Ok []
      end
  end.

Definition provision_model (p : string * ModelJSON) : result (list statement) :=
  let '(key, model) := p in
  if is_control model then Ok []
  else
    let table := tableNameOf model key in
    isolation ← isolation_statements table model;
    Ok (CreateTable table (org_column model) :: concat (field_statements table (org_column model) <$> m_fields model) ++ isolation).

(** The relations that ask for a constraint, and what they get. *)
Definition foreign_key (table : string) (model : ModelJSON) (models : list (string * ModelJSON)) (r : string * RelationJSON) : option (statement * list statement) :=
  let rel := r.2 in
  let columns := "id" :: option_list (org_column model) ++ ((λ p, columnNameOf p.1 (Some p.2)) <$> m_fields model) in
  if negb (bool_decide (r_type rel = BelongsTo)) then None
  else if negb (bool_decide ((r_options rel ≫= map_get "fk") = Some true)) then None
  else match map_get (r_target rel) models with
       | None => None
       | Some target =>
           if is_control target then None
           else
             let col := columnNameOf (r_foreignKey rel) (map_get (r_foreignKey rel) (m_fields model)) in
             if negb (bool_decide (col ∈ columns)) then None
             else Some (EnsureForeignKey table (constraintName table col "fkey") col (tableNameOf target (r_target rel)),
                        [ValidateConstraint table (constraintName table col "fkey"); IndexConcurrently (constraintName table col "idx") table col])
       end.

Definition foreignKeyStatements (table : string) (model : ModelJSON) (models : list (string * ModelJSON)) : list (statement * list statement) :=
  omap (foreign_key table model models) (m_relations model).

Definition all_foreign_keys (models : list (string * ModelJSON)) : list (statement * list statement) :=
  concat ((λ p, if is_control p.2 then [] else foreignKeyStatements (tableNameOf p.2 p.1) p.2 models) <$> models).

(** The results of the models of a schema, or the first error. *)
Fixpoint provision_models (models : list (string * ModelJSON)) : result (list statement) :=
  match models with [] => Ok [] | p :: models => a ← provision_model p; b ← provision_models models; Ok (a ++ b) end.

Definition provision (schema : SchemaJSON) (targetSchema : string) (foreignKeys : bool) : result sql_plan :=
  tables ← provision_models (s_models schema);
  let keys := if foreignKeys then all_foreign_keys (s_models schema) else [] in
  Ok (mkPlan ((if String.eqb targetSchema "public" then [] else [CreateSchema]) ++ tables ++ keys.*1) (concat keys.*2)).

Definition rendered (targetSchema : string) (p : sql_plan) : list string * list string :=
  (render targetSchema <$> statements p, render targetSchema <$> concurrent p).
Definition generateProvisionPlan (schema : SchemaJSON) (targetSchema : string) (foreignKeys : bool) : result (list string * list string) :=
  plan ← provision schema targetSchema foreignKeys; Ok (rendered targetSchema plan).

(** ** Migration *)

Definition enumCheckStatements (table column : string) (values : list string) : list statement :=
  DropConstraint table (enumName table column) :: match values with [] => [] | _ => [AddEnumCheck table column values] end.

(** [sqlLiteral]: a seed value in the type of its field. *)
Definition value_string (v : backfill_value) : string := match v with BfString s => s | BfNumber n => number_text n | BfBool b => if b then "true" else "false" end.
Definition value_json (v : backfill_value) : string := match v with BfString s => quote s | v => value_string v end.
Definition sqlLiteral (v : backfill_value) (t : FieldType) : result string :=
  match t with
  | FtNumber => match v with BfNumber n => Ok (number_text n) | _ => Throw schema_definition_invalid end
  | FtBoolean => Ok (match v with BfString EmptyString | BfNumber 0 | BfBool false => "FALSE" | _ => "TRUE" end)
  | FtDate => Ok (literal (value_string v) +:+ "::timestamptz")
  | FtJson => Ok (literal (value_json v) +:+ "::jsonb")
  | FtString | FtEnum => Ok (literal (value_string v))
  end.

Section Migration.
Context (prev : option SchemaJSON) (next : SchemaJSON) (targetSchema : string) (backfills : list BackfillValue).

Definition model_of (s : option SchemaJSON) (key : string) : option ModelJSON := s ≫= λ s, map_get key (s_models s).
Definition tableOfModel (s : option SchemaJSON) (key : string) : option string := (λ m, tableNameOf m key) <$> model_of s key.
Definition field_of (s : option SchemaJSON) (model field : string) : option FieldMeta := model_of s model ≫= λ m, map_get field (m_fields m).
Definition backfillFor (model field : string) : option backfill_value :=
  bf_value <$> List.find (λ b, String.eqb (bf_model b) model && String.eqb (bf_field b) field) backfills.

Definition fill (table col : string) (value : option backfill_value) (type : option FieldType) : result (list statement) :=
  match value, type with
  | Some v, Some t => text ← sqlLiteral v t; Ok [FillNull table col text]
  | _, _ => Ok []
  end.

Definition add_field_statements (table field : string) (meta : FieldMeta) (value : option backfill_value) : result (list statement) :=
  let col := columnNameOf field (Some meta) in
  filled ← fill table col value (Some (f_type meta));
  Ok (AddColumn table col (f_type meta) false
      :: match f_type meta, f_enumValues meta with FtEnum, Some (v :: values) => enumCheckStatements table col (v :: values) | _, _ => [] end
      ++ filled ++ (if is_Some_b value && negb (f_isOptional meta) then [SetNotNull table col] else [])
      ++ (if f_isIndexed meta then [CreateIndex (indexName table col) table col] else [])).

Definition type_statements (table col : string) (t : option FieldTypeChange) : list statement :=
  match t with
  | Some (mkTypeChange _ to NotCastable) => [DropColumn table col; AddColumn table col to false]
  | Some (mkTypeChange _ to _) => [AlterType table col to]
  | None => []
  end.

Definition check_statements (table col : string) (ch : FieldChanges) (nextMeta : option FieldMeta) : list statement :=
  let to_enum := bool_decide ((f_type <$> nextMeta) = Some FtEnum) in
  if bool_decide ((tc_from <$> ch_type ch) = Some FtEnum) && negb to_enum then [DropConstraint table (enumName table col)]
  else if to_enum && (is_Some_b (ch_enumValues ch) || is_Some_b (ch_type ch)) then enumCheckStatements table col (default [] (nextMeta ≫= f_enumValues))
  else [].

Definition null_statements (table col : string) (n : option NullabilityChange) (value : option backfill_value) (nextMeta : option FieldMeta) : result (list statement) :=
  match n with
  | None => Ok []
  | Some (mkNullability _ true) => Ok [DropNotNull table col]
  | Some (mkNullability _ false) => filled ← fill table col value (f_type <$> nextMeta); Ok (filled ++ [SetNotNull table col])
  end.

Definition index_statements (table col : string) (i : option IndexChange) : list statement :=
  match i with
  | None => []
  | Some (mkIndexChange _ true) => [CreateIndex (indexName table col) table col]
  | Some (mkIndexChange _ false) => [DropIndex (indexName table col)]
  end.

Definition alter_field_statements (table field : string) (ch : FieldChanges) (nextMeta : option FieldMeta) (value : option backfill_value) : result (list statement) :=
  let col := from_option cc_to (columnNameOf field nextMeta) (ch_column ch) in
  nulls ← null_statements table col (ch_nullability ch) value nextMeta;
  Ok (match ch_column ch with Some c => [RenameColumn table (cc_from c) (cc_to c)] | None => [] end
      ++ type_statements table col (ch_type ch) ++ check_statements table col ch nextMeta ++ nulls ++ index_statements table col (ch_indexed ch)).

Definition is_create_schema (s : statement) : bool := match s with CreateSchema => true | _ => false end.

Definition step_statements (step : MigrationStep) : result (list statement) :=
  let at_table model f := match tableOfModel (Some next) model with Some table => f table | None => Ok [] end in
  match step with
  | create_model model _ =>
      match map_get model (s_models next) with
      | None => Ok []
      | Some def =>
          plan ← provision (mkSchema (s_v next) [(model, def)] (s_identityRoles next) None) targetSchema false;
          Ok (List.filter (λ s, negb (is_create_schema s)) (statements plan))
      end
  | drop_model _ tableName => Ok [DropTable tableName]
  | rename_model from to =>
      Ok match tableOfModel prev from, tableOfModel (Some next) to with
         | Some fromTable, Some toTable => if String.eqb fromTable toTable then [] else [RenameTable fromTable toTable]
         | _, _ => []
         end
  | add_field model field meta => at_table model (λ table, add_field_statements table field meta (backfillFor model field))
  | drop_field model field => at_table model (λ table, Ok [DropColumn table (columnNameOf field (field_of prev model field))])
  | rename_field model from to =>
      at_table model (λ table,
        let fromCol := columnNameOf from (field_of prev model from) in
        let toCol := columnNameOf to (field_of (Some next) model to) in
        Ok (if String.eqb fromCol toCol then [] else [RenameColumn table fromCol toCol]))
  | alter_field model field changes => at_table model (λ table, alter_field_statements table field changes (field_of (Some next) model field) (backfillFor model field))
  end.

Fixpoint steps_statements (steps : list MigrationStep) : result (list statement) :=
  match steps with [] => Ok [] | step :: steps => a ← step_statements step; b ← steps_statements steps; Ok (a ++ b) end.

(** What a change of the subject rule, or of the column it reads, does to the policies. *)
Definition subject_changed (key : string) (model : ModelJSON) (steps : list MigrationStep) : bool :=
  let previous := model_of prev key ≫= m_subject in
  negb (bool_decide (previous = m_subject model))
  || existsb (λ step, match step with
       | alter_field m field ch =>
           String.eqb m key && (bool_decide (Some field = sub_field <$> m_subject model) || bool_decide (Some field = sub_field <$> previous)) && is_Some_b (ch_column ch)
       | _ => false end) steps.

Definition subject_statements (steps : list MigrationStep) (p : string * ModelJSON) : result (list statement) :=
  let '(key, model) := p in
  if is_control model || negb (subject_changed key model steps) then Ok []
  else
    let table := tableNameOf model key in
    if is_Some_b (org_column model) || is_Some_b (m_subject model) then
      subject ← subject_predicates model;
      Ok [EnableRls table; ForceRls table; DropPolicy (tenantPolicy table) table; DropPolicy (subjectPolicy table) table;
          CreatePolicy (if is_Some_b (org_column model) then tenantPolicy table else subjectPolicy table) table (option_list (OrgIs <$> org_column model) ++ subject)]
    else if is_Some_b (model_of prev key ≫= m_subject) then Ok [DropPolicy (subjectPolicy table) table; NoForceRls table; DisableRls table]
    else Ok [].

Fixpoint subjects_statements (steps : list MigrationStep) (models : list (string * ModelJSON)) : result (list statement) :=
  match models with [] => Ok [] | p :: models => a ← subject_statements steps p; b ← subjects_statements steps models; Ok (a ++ b) end.

Definition migration (steps : list MigrationStep) (foreignKeys : bool) : result sql_plan :=
  body ← steps_statements steps;
  let keys := if foreignKeys then all_foreign_keys (s_models next) else [] in
  subjects ← subjects_statements steps (s_models next);
  Ok (mkPlan ((if bool_decide (steps ≠ []) && negb (String.eqb targetSchema "public") then [CreateSchema] else []) ++ body ++ keys.*1 ++ subjects) (concat keys.*2)).

Definition generateMigrationPlan (steps : list MigrationStep) (foreignKeys : bool) : result (list string * list string) :=
  plan ← migration steps foreignKeys; Ok (rendered targetSchema plan).
End Migration.
