(* ===== verification/DdlFacts.v ===== *)
(** * What the statements of a plan touch

    Names and literals read back as they were written, constraint names fit Postgres, and
    a statement that destroys or demands something is announced by the classification of
    the plan it comes from. *)
From S2P Require Import Prelude JsData Json JsonText WireFormats SchemaJson SchemaDiff SchemaDiffFacts SchemaRisk Ddl.
#[local] Open Scope string_scope.
#[local] Open Scope list_scope.
#[local] Open Scope Z_scope.

(** ** Quotes *)

(** Reading what a quote opened: two quotes stand for one, a single one ends it. *)
Fixpoint read_quoted (c : Ascii.ascii) (s : string) : option (string * string) :=
  match s with
  | EmptyString => None
  | String d s =>
      if Ascii.eqb d c then
        match s with
        | String e s' => if Ascii.eqb e c then (λ r, (String c r.1, r.2)) <$> read_quoted c s' else Some (EmptyString, s)
        | EmptyString => Some (EmptyString, EmptyString)
        end
      else (λ r, (String d r.1, r.2)) <$> read_quoted c s
  end.

Definition unquote (c : Ascii.ascii) (s : string) : option (string * string) :=
  match s with String d s => if Ascii.eqb d c then read_quoted c s else None | EmptyString => None end.

Definition starts_with (c : Ascii.ascii) (s : string) : bool := match s with String d _ => Ascii.eqb d c | EmptyString => false end.

Lemma append_cons c a b : String c a +:+ b = String c (a +:+ b).
Proof. reflexivity. Qed.

Lemma read_doubled c s rest : starts_with c rest = false → read_quoted c (double_char c s +:+ String c rest) = Some (s, rest).
Proof.
  intros Hr. induction s as [|d s IH].
  - change (double_char c "" +:+ String c rest) with (String c rest). cbn [read_quoted]. rewrite Ascii.eqb_refl. destruct rest as [|e rest]; [done|]. simpl in Hr. by rewrite Hr.
  - cbn [double_char]. destruct (Ascii.eqb_spec d c) as [->|Hne]; rewrite ?append_cons; cbn [read_quoted].
    + by rewrite Ascii.eqb_refl, IH.
    + apply Ascii.eqb_neq in Hne. by rewrite Hne, IH.
Qed.

Lemma string_app_assoc (a b c : string) : (a +:+ b) +:+ c = a +:+ b +:+ c.
Proof. induction a as [|x a IH]; [done|]. by rewrite !append_cons, IH. Qed.



(** ** Constraint names *)

Lemma radix_length fuel : ∀ base n acc, (String.length (radix_digits fuel base n acc) ≤ fuel + String.length acc)%nat.
Proof.
  induction fuel as [|fuel IH]; intros base n acc; cbn [radix_digits]; [lia|]. destruct (n <? base); [simpl; lia|].
  specialize (IH base (n / base) (String (digit_char (n mod base)) acc)). simpl in IH |- *. lia.
Qed.

Lemma length_append (a b : string) : String.length (a +:+ b) = (String.length a + String.length b)%nat.
Proof. induction a as [|c a IH]; [done|]. rewrite append_cons. simpl. by rewrite IH. Qed.

(** A constraint name has at most the 63 characters Postgres keeps of it, so the name
    that is stored is the one the plan looks for, and the name of a short table and column
    is the one that says both. *)
Theorem constraint_names_fit table col suffix :
  (String.length suffix ≤ 50)%nat →
  (String.length (constraintName table col suffix) ≤ 63)%nat
  ∧ ((String.length table + String.length col + String.length suffix ≤ 61)%nat → constraintName table col suffix = table +:+ "_" +:+ col +:+ "_" +:+ suffix).
Proof.
  intros Hs. unfold constraintName. set (full := table +:+ "_" +:+ col +:+ "_" +:+ suffix). set (hash := radix_digits 7 36 _ _).
  assert (Hh : (String.length hash ≤ 7)%nat) by (unfold hash; pose proof (radix_length 7 36 (name_hash 5381 full) EmptyString); simpl in *; lia).
  assert (Hf : String.length full = (String.length table + String.length col + String.length suffix + 2)%nat) by (unfold full; rewrite !length_append; simpl; lia).
  destruct (Nat.leb_spec (String.length full) 63) as [Hle|Hgt]; (split; [|intros; try done; lia]); [done|].
  rewrite !length_append. pose proof (substring_short (Z.to_nat (Z.max 1 (63 - Z.of_nat (String.length suffix) - Z.of_nat (String.length hash) - 2))) full).
  simpl. lia.
Qed.

Lemma constraint_names_fit_witness :
  (String.length (constraintName "a_table_with_a_name_that_is_rather_long_for_a_table" "and_a_column_of_some_length" "fkey") ≤ 63)%nat.
Proof. apply constraint_names_fit. simpl. lia. Defined.

(** ** Provisioning *)

Definition creates_only (s : statement) : Prop :=
  match s with DropTable _ | DropColumn _ _ | SetNotNull _ _ | AlterType _ _ _ | RenameTable _ _ | RenameColumn _ _ _ | DropConstraint _ _ | DropIndex _ => False | _ => True end.

Lemma isolation_creates_only table model l : isolation_statements table model = Ok l → Forall creates_only l.
Proof.
  unfold isolation_statements, subject_predicates. intros H. destruct (org_column model), (m_subject model) as [rule|]; try (injection H as <-; by repeat constructor).
  - result_inv. by repeat constructor.
  - result_inv. by repeat constructor.
Qed.

Lemma provision_model_creates_only p l : provision_model p = Ok l → Forall creates_only l.
Proof.
  destruct p as [key model]. unfold provision_model. destruct (is_control model); [intros [= <-]; constructor|]. intros H. result_inv.
  constructor; [done|]. apply Forall_app. split; [|by eapply isolation_creates_only]. apply Forall_concat, Forall_fmap, Forall_forall.
  intros [f meta] _. unfold compose, field_statements. destruct (_ || _); [constructor|]. constructor; [done|]. destruct (f_type meta), (f_enumValues meta) as [[|v vs]|]; by repeat constructor.
Qed.

(** A statement of a foreign key. *)
Definition of_key (s : statement) : Prop :=
  match s with EnsureForeignKey _ _ _ _ | ValidateConstraint _ _ | IndexConcurrently _ _ _ => True | _ => False end.

Lemma foreign_keys_only models : Forall of_key (all_foreign_keys models).*1 ∧ Forall (λ l, Forall of_key l) (all_foreign_keys models).*2.
Proof.
  assert (H : Forall (λ p : statement * list statement, of_key p.1 ∧ Forall of_key p.2) (all_foreign_keys models)).
  { unfold all_foreign_keys. apply Forall_concat, Forall_fmap, Forall_forall. intros [key m] _. unfold compose. cbn [fst snd]. destruct (is_control m); [constructor|].
    apply Forall_forall. intros [s l] (r & _ & E)%list_elem_of_omap. unfold foreign_key in E. repeat case_match; try done. injection E as <- <-. by repeat constructor. }
  rewrite !Forall_fmap. split; (eapply Forall_impl; [exact H|]); by intros ? [? ?].
Qed.

Lemma of_key_creates s : of_key s → creates_only s.
Proof. by destruct s. Qed.

Lemma foreign_keys_create_only models : Forall creates_only (all_foreign_keys models).*1 ∧ Forall (λ l, Forall creates_only l) (all_foreign_keys models).*2.
Proof.
  destruct (foreign_keys_only models) as [H1 H2]. split; [eapply Forall_impl; [exact H1|apply of_key_creates]|].
  eapply Forall_impl; [exact H2|]. intros l Hl. eapply Forall_impl; [exact Hl|apply of_key_creates].
Qed.

(** Provisioning only adds: run again, or on a database that is in use, it drops, renames
    and demands nothing. *)
Theorem provisioning_is_additive schema targetSchema foreignKeys plan :
  provision schema targetSchema foreignKeys = Ok plan → Forall creates_only (statements plan) ∧ Forall creates_only (concurrent plan).
Proof.
  unfold provision. intros H. result_inv. simpl.
  assert (Hm : ∀ models l, provision_models models = Ok l → Forall creates_only l).
  { clear. induction models as [|p models IH]; intros l H; [by injection H as <-|]. cbn [provision_models] in H. result_inv.
    apply Forall_app. split; [by eapply provision_model_creates_only|by apply IH]. }
  pose proof (foreign_keys_create_only (s_models schema)) as [H1 H2]. split.
  - apply Forall_app. split; [destruct (String.eqb _ _); by repeat constructor|]. apply Forall_app. split; [by eapply Hm|]. by destruct foreignKeys.
  - destruct foreignKeys; [|constructor]. apply Forall_concat. exact H2.
Qed.

(** ** What a plan announces *)

(** What has to stand in the plan and its classification for a statement to be in it. *)
Section Announced.
Context (prev : option SchemaJSON) (next : SchemaJSON) (backfills : list BackfillValue) (steps : list MigrationStep) (foreignKeys : bool).

Definition warned (code : SignalCode) (model : string) (field : option string) : Prop :=
  mkSignal code model field ∈ warnings (classifyMigration steps).
Definition blocked (code : SignalCode) (model field : string) : Prop :=
  mkSignal code model (Some field) ∈ unexecutable (classifyMigration steps).
Definition at_table (model table : string) : Prop := tableOfModel (Some next) model = Some table.

(** The column is that of a field the plan alters. *)
Definition alters (model field : string) (ch : FieldChanges) (table column : string) : Prop :=
  alter_field model field ch ∈ steps ∧ at_table model table
  ∧ column = from_option cc_to (columnNameOf field (field_of (Some next) model field)) (ch_column ch).

(** The column is that of a field the plan adds. *)
Definition adds (model field : string) (meta : FieldMeta) (table column : string) : Prop :=
  add_field model field meta ∈ steps ∧ at_table model table ∧ column = columnNameOf field (Some meta).

Definition announced (s : statement) : Prop :=
  match s with
  | DropTable table => ∃ m, drop_model m table ∈ steps ∧ warned SigDropModel m None
  | DropColumn table column =>
      (∃ m f, at_table m table ∧ column = columnNameOf f (field_of prev m f) ∧ warned SigDropField m (Some f))
      ∨ (∃ m f ch, alters m f ch table column ∧ warned SigLossyRecreate m (Some f))
  | AlterType table column type =>
      ∃ m f ch from, alters m f ch table column ∧ ch_type ch = Some (mkTypeChange from type (classifyCast from type))
        ∧ (classifyCast from type = CastSafe ∨ warned SigRiskyCast m (Some f))
  | AddEnumCheck table column _ =>
      (∃ m f meta, adds m f meta table column)
      ∨ (∃ m f ch, alters m f ch table column
           ∧ (warned SigRiskyCast m (Some f) ∨ warned SigLossyRecreate m (Some f) ∨ warned SigEnumValueRemoved m (Some f)
              ∨ ∃ added, ch_enumValues ch = Some (mkEnumChange added [])))
  | SetNotNull table column =>
      (∃ m f meta, adds m f meta table column ∧ blocked SigRequiredFieldAdded m f
         ∧ isBlockerResolved (mkSignal SigRequiredFieldAdded m (Some f)) backfills = true)
      ∨ (∃ m f ch, alters m f ch table column ∧ blocked SigMadeRequired m f)
  | FillNull table column _ => ∃ m f, at_table m table ∧ is_Some (backfillFor backfills m f)
  | AddColumn table _ _ true | EnsureEnumCheck table _ _ => ∃ m, (∃ name, create_model m name ∈ steps) ∧ at_table m table
  | RenameTable from to => ∃ m m', rename_model m m' ∈ steps ∧ tableOfModel prev m = Some from ∧ at_table m' to
  | RenameColumn table _ to =>
      (∃ m f f', rename_field m f f' ∈ steps ∧ at_table m table ∧ to = columnNameOf f' (field_of (Some next) m f'))
      ∨ (∃ m f ch, alters m f ch table to)
  | EnsureForeignKey _ _ _ _ | ValidateConstraint _ _ | IndexConcurrently _ _ _ => foreignKeys = true
  | _ => True
  end.
End Announced.

(** ** The steps of a plan *)

(** What an alteration says of a field is so. *)
Definition honest (next : SchemaJSON) (step : MigrationStep) : Prop :=
  match step with
  | alter_field m f ch =>
      (∀ n, ch_nullability ch = Some n → nc_fromOptional n ≠ nc_toOptional n)
      ∧ ∃ meta, field_of (Some next) m f = Some meta
          ∧ ∀ t, ch_type ch = Some t → tc_from t ≠ tc_to t ∧ tc_to t = f_type meta ∧ tc_cast t = classifyCast (tc_from t) (tc_to t)
  | _ => True
  end.

Lemma altered_honest prev renames f meta D :
  altered prev renames (f, meta) = Some D →
  (∀ n, ch_nullability D = Some n → nc_fromOptional n ≠ nc_toOptional n)
  ∧ ∀ t, ch_type D = Some t → tc_from t ≠ tc_to t ∧ tc_to t = f_type meta ∧ tc_cast t = classifyCast (tc_from t) (tc_to t).
Proof.
  rewrite altered_eq. destruct (map_get _ (m_fields prev)) as [pm|]; [|done]. cbv zeta. destruct (no_changes _); [done|]. intros [= <-].
  set (F := facets _ f pm meta).
  assert (E : ∀ b, ch_nullability (if b : bool then without_column F else F) = ch_nullability F ∧ ch_type (if b : bool then without_column F else F) = ch_type F) by (by intros []).
  destruct (E (is_Some_b (map_get f (by_new_name renames)))) as [-> ->]. unfold F, facets, changed. cbn [ch_nullability ch_type]. split.
  - destruct (Bool.eqb _ _) eqn:Eb; [done|]. intros n [= <-]. simpl. intros Heq. by rewrite Heq, Bool.eqb_reflx in Eb.
  - case_bool_decide; [done|]. by intros t [= <-].
Qed.

Lemma field_of_elem next m def f meta :
  well_keyed next → (m, def) ∈ s_models next → (f, meta) ∈ m_fields def → field_of (Some next) m f = Some meta.
Proof.
  intros [Hm Hf] Hin Hin'. apply map_get_elem_iff in Hin; [|done]. apply map_get_elem_iff in Hin'; [|by eapply Hf].
  unfold field_of, model_of. simpl. by rewrite Hin.
Qed.

Lemma diff_honest prev next hints : well_keyed next → Forall (honest next) (diffSchema prev next hints).
Proof.
  intros Hk. destruct prev as [prev|]; [|by apply Forall_fmap, Forall_forall; intros ??].
  apply Forall_forall. intros s [(m & def & Hdef & [[_ ->]|(old & _ & [[_ ->]|Hs])])|Hs]%elem_plan; [done|done| |].
  - unfold diffModelFields, rename_steps, add_steps, alter_steps, drop_steps in Hs. rewrite !elem_of_app, !list_elem_of_omap in Hs.
    destruct Hs as [(x & _ & E)|[(x & _ & E)|[([f meta] & Hx & E)|(x & _ & E)]]]; try (destruct (_ && _) || destruct (_ || _)); simplify_eq; try done.
    destruct (altered old (renames_of hints m) (f, meta)) as [D|] eqn:Ea; [|done]. injection E as <-. apply altered_honest in Ea as [H1 H2].
    split; [exact H1|]. exists meta. split; [by eapply field_of_elem|exact H2].
  - unfold drop_model_steps in Hs. apply list_elem_of_omap in Hs as (x & _ & E). destruct (_ || _); [done|]. by injection E as <-.
Qed.

(** No type but [enum] casts to [enum] safely. *)
Lemma cast_to_enum from : from ≠ FtEnum → classifyCast from FtEnum = CastRisky ∨ classifyCast from FtEnum = NotCastable.
Proof. intros H. unfold classifyCast. rewrite decide_False by done. destruct from; simpl; auto; done. Qed.

Lemma elem_warnings steps step sg : step ∈ steps → sg ∈ step_warnings step → sg ∈ warnings (classifyMigration steps).
Proof. intros H1 H2. unfold classifyMigration. cbn [warnings]. apply list_elem_of_In, in_concat. exists (step_warnings step). rewrite <- !list_elem_of_In. split; [by apply list_elem_of_fmap_2|done]. Qed.

Lemma elem_unexecutable steps step sg : step ∈ steps → sg ∈ step_unexecutable step → sg ∈ unexecutable (classifyMigration steps).
Proof. intros H1 H2. unfold classifyMigration. cbn [unexecutable]. apply list_elem_of_In, in_concat. exists (step_unexecutable step). rewrite <- !list_elem_of_In. split; [by apply list_elem_of_fmap_2|done]. Qed.

(** Everything a provisioned model gets is at its table. *)
Definition provisions_at (table : string) (s : statement) : Prop :=
  match s with
  | CreateTable t _ | AddColumn t _ _ _ | EnsureEnumCheck t _ _ | CreateIndex _ t _ | EnableRls t | ForceRls t
  | DropPolicy _ t | CreatePolicy _ t _ => t = table
  | _ => False
  end.

Lemma provision_model_at key model l : provision_model (key, model) = Ok l → Forall (provisions_at (tableNameOf model key)) l.
Proof.
  unfold provision_model. destruct (is_control model); [intros [= <-]; constructor|]. intros H. result_inv.
  constructor; [done|]. apply Forall_app. split.
  - apply Forall_concat, Forall_fmap, Forall_forall.
    intros [f meta] _. unfold compose, field_statements. destruct (_ || _); [constructor|]. constructor; [done|]. destruct (f_type meta), (f_enumValues meta) as [[|v vs]|]; by repeat constructor.
  - unfold isolation_statements, subject_predicates in Ha. destruct (org_column model), (m_subject model) as [rule|];
      try (injection Ha as <-; by repeat constructor); result_inv; by repeat constructor.
Qed.

Lemma provision_one key model v roles targetSchema plan :
  provision (mkSchema v [(key, model)] roles None) targetSchema false = Ok plan →
  Forall (λ s, provisions_at (tableNameOf model key) s ∨ s = CreateSchema) (statements plan).
Proof.
  unfold provision. intros H. result_inv. cbn [statements]. cbn [s_models provision_models] in Ha. result_inv.
  rewrite !Forall_app. split_and!; [|eapply Forall_impl; [by eapply provision_model_at|by left]|constructor..].
  destruct (String.eqb _ _); constructor; [by right|constructor].
Qed.

Section Announce.
Context (prev : option SchemaJSON) (next : SchemaJSON) (targetSchema : string) (backfills : list BackfillValue) (steps : list MigrationStep) (foreignKeys : bool).
Notation told := (announced prev next backfills steps foreignKeys).
Notation at_table := (at_table next).

Lemma fill_told model field table col type l :
  at_table model table → fill table col (backfillFor backfills model field) type = Ok l → Forall told l.
Proof.
  intros Ht H. unfold fill in H. destruct (backfillFor backfills model field) as [v|] eqn:Ev, type; result_inv; try (injection H as <-); try constructor.
  - exists model, field. split; [done|]. by rewrite Ev.
  - constructor.
Qed.

Lemma enum_told table col values : (∀ vs, told (AddEnumCheck table col vs)) → Forall told (enumCheckStatements table col values).
Proof. intros H. unfold enumCheckStatements. constructor; [done|]. destruct values; constructor; [apply H|constructor]. Qed.

Lemma backfill_resolves model field code v :
  backfillFor backfills model field = Some v → code = SigRequiredFieldAdded ∨ code = SigMadeRequired → isBlockerResolved (mkSignal code model (Some field)) backfills = true.
Proof.
  unfold backfillFor, isBlockerResolved. intros H Hc. destruct (List.find _ backfills) as [b|] eqn:E; [|done]. apply find_some in E as [Hin Hb]. cbn [sg_code sg_model sg_field].
  assert (Hcode : bool_decide (code = SigRequiredFieldAdded) || bool_decide (code = SigMadeRequired) = true) by (destruct Hc as [->| ->]; done).
  rewrite Hcode. simpl. apply existsb_exists. exists b. split; [done|]. apply andb_true_iff in Hb as [-> Hf%String.eqb_eq]. simpl. rewrite Hf. by apply bool_decide_eq_true.
Qed.

Lemma add_field_told model field meta l table :
  add_field model field meta ∈ steps → at_table model table →
  add_field_statements table field meta (backfillFor backfills model field) = Ok l → Forall told l.
Proof.
  intros Hin Ht H. unfold add_field_statements in H. result_inv. constructor; [done|]. rewrite !Forall_app.
  assert (Hadds : adds next steps model field meta table (columnNameOf field (Some meta))) by done. split_and!.
  - destruct (f_type meta), (f_enumValues meta) as [[|v vs]|]; try constructor; try done.
    constructor; [|constructor]. left. by exists model, field, meta.
  - by eapply fill_told.
  - destruct (backfillFor backfills model field) as [v|] eqn:Ev; [|constructor]. destruct (f_isOptional meta) eqn:Eo; [constructor|]. simpl. constructor; [|constructor].
    left. exists model, field, meta. split_and!; [done| |by eapply backfill_resolves; [exact Ev|left]].
    eapply elem_unexecutable; [exact Hin|]. simpl. rewrite Eo. left.
  - destruct (f_isIndexed meta); by repeat constructor.
Qed.

(** A change of type, as its statements and its check are announced. *)
Lemma type_warned model field ch t :
  alter_field model field ch ∈ steps → ch_type ch = Some t →
  (tc_cast t = CastRisky → warned steps SigRiskyCast model (Some field)) ∧ (tc_cast t = NotCastable → warned steps SigLossyRecreate model (Some field)).
Proof.
  intros Hin Ht. destruct t as [from to cast]. split; simpl; intros ->; (eapply elem_warnings; [exact Hin|]); simpl; rewrite Ht; left.
Qed.

Lemma check_told model field ch table col :
  alters next steps model field ch table col → honest next (alter_field model field ch) →
  Forall told (check_statements table col ch (field_of (Some next) model field)).
Proof.
  intros Ha [_ (meta & Hmeta & Hty)]. pose proof Ha as (Hin & _). unfold check_statements. rewrite Hmeta. cbn [fmap option_fmap option_map mbind option_bind].
  destruct (_ && negb _); [by repeat constructor|]. destruct (_ && _) eqn:Eb; [|constructor].
  apply andb_true_iff in Eb as [He Eb]. bool_simpl. apply enum_told. intros vs. right. exists model, field, ch. split; [done|].
  destruct (ch_type ch) as [t|] eqn:Et.
  - destruct (Hty t eq_refl) as (Hne & Hto & Hcast). destruct (type_warned model field ch t Hin Et) as [H1 H2].
    assert (Hf : f_type meta = FtEnum) by congruence. rewrite Hto, Hf in Hne, Hcast.
    destruct (cast_to_enum (tc_from t) Hne) as [E|E]; rewrite E in Hcast; auto.
  - destruct (ch_enumValues ch) as [[added [|v removed]]|] eqn:Ee; [right; right; right; by exists added| |done].
    right; right; left. eapply elem_warnings; [exact Hin|]. simpl. rewrite Et, Ee. left.
Qed.

Lemma alter_field_told model field ch l table :
  alter_field model field ch ∈ steps → honest next (alter_field model field ch) → at_table model table →
  alter_field_statements table field ch (field_of (Some next) model field) (backfillFor backfills model field) = Ok l → Forall told l.
Proof.
  intros Hin Hh Ht H. unfold alter_field_statements in H. result_inv.
  set (col := from_option cc_to (columnNameOf field (field_of (Some next) model field)) (ch_column ch)) in *.
  assert (Ha' : alters next steps model field ch table col) by done. pose proof Hh as (Hn & meta & Hmeta & Hty).
  rewrite !Forall_app. split_and!.
  - destruct (ch_column ch) as [cc|] eqn:Ec; [|constructor]. apply Forall_singleton. right. exists model, field, ch. split_and!; [done|done|by rewrite Ec].
  - unfold type_statements. destruct (ch_type ch) as [[from to cast]|] eqn:Et; [|constructor].
    destruct (Hty _ eq_refl) as (_ & _ & Hc). destruct (type_warned model field ch _ Hin Et) as [H1 H2]. simpl in *.
    destruct cast; [apply Forall_singleton..|]; [exists model, field, ch, from; rewrite Et, <- Hc; by auto..|].
    constructor; [|by repeat constructor]. right. exists model, field, ch. by auto.
  - by eapply check_told.
  - unfold null_statements in Ha. destruct (ch_nullability ch) as [[from []]|] eqn:En; [injection Ha as <-; by repeat constructor| |injection Ha as <-; constructor].
    result_inv. apply Forall_app. split; [by eapply fill_told|]. constructor; [|constructor]. right. exists model, field, ch. split; [done|].
    eapply elem_unexecutable; [exact Hin|]. simpl. rewrite En. specialize (Hn _ eq_refl). simpl in Hn. destruct from; [left|done].
  - unfold index_statements. destruct (ch_indexed ch) as [[? []]|]; by repeat constructor.
Qed.

Lemma step_told step l : step ∈ steps → honest next step → step_statements prev next targetSchema backfills step = Ok l → Forall told l.
Proof.
  intros Hin Hh H. destruct step as [model tn|model tn|from to|model field meta|model field|model from to|model field ch]; unfold step_statements in H.
  - destruct (map_get model (s_models next)) as [def|] eqn:Hdef; [|by injection H as <-]. result_inv. apply provision_one in Ha.
    assert (Ht : at_table model (tableNameOf def model)) by (unfold DdlFacts.at_table, tableOfModel, model_of; simpl; by rewrite Hdef).
    apply Forall_forall. intros s Hs'%list_elem_of_In%filter_In. destruct Hs' as [Hs' Hns]. rewrite Forall_forall in Ha.
    apply list_elem_of_In in Hs'. destruct (Ha s Hs') as [Hp| ->]; [|done]. destruct s as [| |? ? ? []| | | | | | | | | | | | | | | | | | | | | |]; try done;
      simpl in Hp; subst; exists model; (split; [by exists tn|done]).
  - injection H as <-. constructor; [|constructor]. exists model. split; [done|]. eapply elem_warnings; [exact Hin|]. left.
  - injection H as <-. destruct (tableOfModel prev from) eqn:E1, (tableOfModel (Some next) to) eqn:E2; try constructor. destruct (String.eqb _ _); [constructor|]. apply Forall_singleton.
    by exists from, to.
  - destruct (tableOfModel (Some next) model) as [table|] eqn:Et; [|by injection H as <-]. by eapply add_field_told.
  - destruct (tableOfModel (Some next) model) as [table|] eqn:Et; [|by injection H as <-]. injection H as <-. constructor; [|constructor].
    left. exists model, field. split_and!; [done..|]. eapply elem_warnings; [exact Hin|]. left.
  - destruct (tableOfModel (Some next) model) as [table|] eqn:Et; [|by injection H as <-]. injection H as <-. destruct (String.eqb _ _); [constructor|]. apply Forall_singleton.
    left. by exists model, from, to.
  - destruct (tableOfModel (Some next) model) as [table|] eqn:Et; [|by injection H as <-]. by eapply alter_field_told.
Qed.

Lemma subject_told p l : subject_statements prev steps p = Ok l → Forall told l.
Proof.
  destruct p as [key model]. unfold subject_statements. destruct (_ || _); [intros [= <-]; constructor|]. destruct (_ || _).
  - intros H. result_inv. by repeat constructor.
  - destruct (is_Some_b _); intros [= <-]; by repeat constructor.
Qed.

Lemma key_told s : foreignKeys = true → of_key s → told s.
Proof. by destruct s. Qed.
End Announce.

