(* ===== verification/SchemaRuns.v ===== *)
(** * Concrete schemas and their plans

    The theorems of [SchemaRisk.v] and [DdlFacts.v] at two schemas, and
    the plans that do not arrive where they should. *)
From S2P Require Import Prelude JsData Json JsonText WireFormats SchemaJson SchemaDiff SchemaDiffFacts SchemaRisk Ddl DdlFacts.
#[local] Open Scope string_scope.
#[local] Open Scope list_scope.
#[local] Open Scope Z_scope.

Definition a_field (t : FieldType) (optional indexed : bool) : FieldMeta := mkField t optional indexed None None None.
Definition an_enum (values : list string) : FieldMeta := mkField FtEnum false false None None (Some values).
Definition a_model (fields : list (string * FieldMeta)) : ModelJSON :=
  mkModel fields [] LoadInstant "" None (Some TenancySource) None None None None None false None None None None None None None.
Definition with_table (name : string) (m : ModelJSON) : ModelJSON :=
  mkModel (m_fields m) (m_relations m) (m_load m) (m_typename m) (Some name) (m_tenancy m) (m_subject m) (m_plane m) (m_scope m) (m_grants m)
    (m_entityRoles m) (m_routingOnly m) (m_bootstrapLimit m) (m_bootstrapOrderBy m) (m_mutable m) (m_lazyObservable m) (m_persist m) (m_autoFill m) (m_requiredFields m).
Definition a_schema (models : list (string * ModelJSON)) : SchemaJSON := mkSchema 3 models [] None.

Definition old_schema : SchemaJSON := a_schema
  [("tasks", a_model [("title", a_field FtString true false); ("state", an_enum ["open"; "done"]); ("dueAt", a_field FtDate true false)]);
   ("lists", a_model [("name", a_field FtString false true)])].
Definition new_schema : SchemaJSON := a_schema
  [("tasks", a_model [("title", a_field FtString false true); ("state", an_enum ["open"; "closed"]); ("deadline", a_field FtString true false)]);
   ("boards", a_model [("name", a_field FtString false true)]); ("notes", a_model [("body", a_field FtJson true false)])].
Definition some_hints : RenameHints := mkHints [mkModelRename "lists" "boards"] [mkFieldRename "tasks" "dueAt" "deadline"].
Definition wide_schema : SchemaJSON := a_schema
  [("tasks", a_model [("title", a_field FtString true true); ("state", an_enum ["open"; "done"; "closed"]); ("deadline", a_field FtString true false)]);
   ("boards", a_model [("name", a_field FtString false true)])].

Lemma keyed (s : SchemaJSON) : bool_decide (NoDup (s_models s).*1) && forallb (λ p, bool_decide (NoDup (m_fields p.2).*1)) (s_models s) = true → well_keyed s.
Proof.
  intros [H1 H2]%andb_true_iff. bool_simpl. split; [done|]. intros m def Hm%map_get_elem%list_elem_of_In. rewrite forallb_forall in H2. specialize (H2 _ Hm). by bool_simpl.
Qed.

Lemma new_keyed : well_keyed new_schema.
Proof. apply keyed. by vm_compute. Qed.
Lemma old_keyed : well_keyed old_schema.
Proof. apply keyed. by vm_compute. Qed.
Lemma wide_keyed : well_keyed wide_schema.
Proof. apply keyed. by vm_compute. Qed.

(** [renames_fit], decided. *)
Definition renames_fit_b (prev next : list string) (renames : list (string * string)) : bool :=
  bool_decide (NoDup renames.*1) && bool_decide (NoDup renames.*2)
  && forallb (λ k, bool_decide (k ∈ prev) && negb (bool_decide (k ∈ next))) renames.*1
  && forallb (λ k, bool_decide (k ∈ next) && negb (bool_decide (k ∈ prev))) renames.*2.

Lemma renames_fit_decided prev next renames : renames_fit_b prev next renames = true → renames_fit prev next renames.
Proof.
  unfold renames_fit_b. intros H. bool_simpl. rewrite forallb_forall in *. split; [done|done|..]; intros k Hk%list_elem_of_In.
  - match goal with H : ∀ x, In x renames.*1 → _ |- _ => specialize (H k Hk) end. by bool_simpl.
  - match goal with H : ∀ x, In x renames.*2 → _ |- _ => specialize (H k Hk) end. by bool_simpl.
Qed.

Lemma hints_fit_decided prev next hints :
  renames_fit_b (s_models prev).*1 (s_models next).*1 (model_renames hints)
  && forallb (λ p, match map_get (prevModelKey hints p.1) (s_models prev) with
                   | Some old => renames_fit_b (m_fields old).*1 (m_fields p.2).*1 (renames_of hints p.1) | None => true end) (s_models next) = true →
  hints_fit prev next hints.
Proof.
  intros [H1 H2]%andb_true_iff. split; [by apply renames_fit_decided|]. intros m def old Hm%map_get_elem%list_elem_of_In Hold.
  rewrite forallb_forall in H2. specialize (H2 _ Hm). cbn [fst snd] in H2. rewrite Hold in H2. by apply renames_fit_decided.
Qed.

Lemma new_fits : hints_fit old_schema new_schema some_hints.
Proof. apply hints_fit_decided. by vm_compute. Qed.
Lemma wide_fits : hints_fit old_schema wide_schema some_hints.
Proof. apply hints_fit_decided. by vm_compute. Qed.

Lemma classification_is_exact_witness :
  (keeps_everything old_schema wide_schema some_hints ∧ asks_nothing old_schema wide_schema some_hints)
  ∧ ¬ keeps_everything old_schema new_schema some_hints ∧ ¬ asks_nothing old_schema new_schema some_hints.
Proof.
  destruct (classification_is_exact old_schema wide_schema some_hints old_keyed wide_keyed wide_fits) as [W1 W2].
  destruct (classification_is_exact old_schema new_schema some_hints old_keyed new_keyed new_fits) as [N1 N2].
  split_and!; [apply W1; by vm_compute|apply W2; by vm_compute| |]; intros H.
  - apply N1 in H. by vm_compute in H.
  - apply N2 in H. by vm_compute in H.
Defined.

Definition the_plan : sql_plan :=
  default (mkPlan [] []) (value_of (migration (Some old_schema) new_schema "public" [] (diffSchema (Some old_schema) new_schema some_hints) false)).


(** The text of a statement. *)
Example rendered_statement :
  render "public" (AddColumn "tasks" "due_at" FtDate false) = "ALTER TABLE " +:+ q "public" +:+ "." +:+ q "tasks" +:+ " ADD COLUMN IF NOT EXISTS " +:+ q "due_at" +:+ " TIMESTAMPTZ;".
Proof. reflexivity. Qed.

(** ** Plans that do not arrive *)

Definition plan_of (prev next : SchemaJSON) (hints : RenameHints) : list MigrationStep := diffSchema (Some prev) next hints.
Definition sql_of (prev next : SchemaJSON) (hints : RenameHints) : list statement :=
  from_option statements [] (value_of (migration (Some prev) next "public" [] (plan_of prev next hints) false)).
Definition a_column (t : FieldType) (column : string) : FieldMeta := mkField t true false None (Some column) None.

(** Some plans do not lead where they should: a rename
    hint for a field the old schema does not have hides the new field, one for a model that
    is renamed along drops the column of another name, a model that moves to another table
    has no step at all, a column that is made anew loses that it is required and indexed,
    and the indexes a new model declares are never created. *)
Theorem some_plans_do_not_arrive :
  (let prev := a_schema [("tasks", a_model [("title", a_field FtString true false)])] in
   let next := a_schema [("tasks", a_model [("title", a_field FtString true false); ("note", a_field FtString true false)])] in
   plan_of prev next (mkHints [] [mkFieldRename "tasks" "remark" "note"]) = [])
  ∧ (let prev := a_schema [("tasks", a_model [("title", a_field FtString true false); ("body", a_column FtString "content")])] in
     let next := a_schema [("jobs", a_model [("title", a_field FtString true false)])] in
     sql_of prev next (mkHints [mkModelRename "tasks" "jobs"] []) = [RenameTable "tasks" "jobs"; DropColumn "jobs" "body"])
  ∧ (let tasks := a_model [("title", a_field FtString true false)] in
     plan_of (a_schema [("tasks", tasks)]) (a_schema [("tasks", with_table "work_items" tasks)]) no_hints = [])
  ∧ (let prev := a_schema [("tasks", a_model [("size", a_field FtDate false true)])] in
     let next := a_schema [("tasks", a_model [("size", a_field FtNumber false true)])] in
     sql_of prev next no_hints = [DropColumn "tasks" "size"; AddColumn "tasks" "size" FtNumber false]
     ∧ isAutoApplicable (classifyMigration (plan_of prev next no_hints)) = true)
  ∧ (let next := a_schema [("tasks", a_model [("owner", a_field FtString false true)])] in
     from_option statements [] (value_of (migration None next "public" [] (diffSchema None next no_hints) false))
     = [CreateTable "tasks" None; AddColumn "tasks" "owner" FtString true]).
Proof. vm_compute. by split_and!. Qed.
