(* ===== verification/Backfill.v ===== *)
(** * Resumable backfills

    [runResumableBackfill] of [packages/transaction/src/schema/deployment/backfill.ts]. The
    effects are the environment: what each awaited call answers, and where the process ends
    or an effect throws, is an input; the checkpoint that was saved last is what the next
    run loads. Times and messages are left out. *)
From S2P Require Import Prelude.
From Stdlib Require Import Sorted.
#[local] Open Scope string_scope.
#[local] Open Scope list_scope.
#[local] Open Scope Z_scope.

Inductive BackfillStatus := BfPending | BfRunning | BfPaused | BfSucceeded | BfFailed | BfCancelled.
#[export] Instance BackfillStatus_eq_dec : EqDecision BackfillStatus.
Proof. solve_decision. Defined.

Record BackfillCheckpoint := mkCheckpoint {
  cp_jobId : string;
  cp_key : string;
  cp_cursor : option string;
  cp_processed : Z;
  cp_batches : Z;
  cp_status : BackfillStatus;
}.

Record BackfillBatchResult := mkBatchResult { br_nextCursor : option string; br_processed : Z; br_done : bool }.

Record ResumableBackfillOptions := mkOptions {
  o_jobId : string;
  o_key : string;
  o_batchSize : option Z;
  o_maxBatches : option Z;
  o_maxAttempts : option Z;
}.

(** ** The environment *)

(** How a call of [runBatch] ends: with a result, with an error, or never, as the process
    ends or the effect that waits between two attempts throws. *)
Inductive attempt := Returned (r : BackfillBatchResult) | Failed | Died.

(** How a turn ends: the process ends before the checkpoint is saved, the checkpoint is
    saved and the report of the progress throws, or all is well. *)
Inductive ending := Unsaved | SavedOnly | SavedAndTold.
#[export] Instance ending_eq_dec : EqDecision ending.
Proof. solve_decision. Defined.

(** One turn of the loop: whether the signal is aborted, whether the throttle pauses, what
    the attempts do, and how it ends. *)
Record turn := mkTurn { t_aborted : bool; t_pause : bool; t_attempts : list attempt; t_end : ending }.

Inductive outcome := Returns (c : BackfillCheckpoint) | Throws | Dies.

(** ** One batch *)

Inductive tried := Got (r : BackfillBatchResult) | GaveUp | Gone.

(** The attempts at a batch: how often it was called, and how that ended. *)
Fixpoint try_batch (attempts : nat) (outs : list attempt) : nat * tried :=
  match attempts, outs with
  | O, _ => (O, GaveUp)
  | S _, [] => (1%nat, Gone)
  | S _, Returned r :: _ => (1%nat, Got r)
  | S _, Died :: _ => (1%nat, Gone)
  | S n, Failed :: outs => let '(k, t) := try_batch n outs in (S k, t)
  end.

Definition with_status (status : BackfillStatus) (c : BackfillCheckpoint) : BackfillCheckpoint :=
  mkCheckpoint (cp_jobId c) (cp_key c) (cp_cursor c) (cp_processed c) (cp_batches c) status.
Definition advance (c : BackfillCheckpoint) (r : BackfillBatchResult) : BackfillCheckpoint :=
  mkCheckpoint (cp_jobId c) (cp_key c) (br_nextCursor r) (cp_processed c + br_processed r) (cp_batches c + 1) (if br_done r then BfSucceeded else BfRunning).

(** The loop over batches: the outcome, what is stored, and the cursor of every call. *)
Fixpoint batch_loop (batches attempts : nat) (turns : list turn) (checkpoint : BackfillCheckpoint) (store : option BackfillCheckpoint) : outcome * option BackfillCheckpoint * list (option string) :=
  match batches, turns with
  | O, _ => (Returns checkpoint, store, [])
  | S _, [] => (Dies, store, [])
  | S batches, t :: turns =>
      let saved c := match t_end t with Unsaved => (Dies, store) | SavedOnly => (Throws, Some c) | SavedAndTold => (Returns c, Some c) end in
      if t_aborted t then
        let c := with_status BfCancelled checkpoint in match t_end t with Unsaved => (Dies, store, []) | _ => (Returns c, Some c, []) end
      else if t_pause t then (saved (with_status BfPaused checkpoint), [])
      else
        let '(calls, tried) := try_batch attempts (t_attempts t) in
        let called := repeat (cp_cursor checkpoint) calls in
        match tried with
        | Gone => (Dies, store, called)
        | GaveUp => (saved (with_status BfFailed checkpoint), called)
        | Got r =>
            if negb (br_done r) && bool_decide (br_nextCursor r = cp_cursor checkpoint) then (Throws, store, called)
            else
              let c := advance checkpoint r in
              if br_done r || negb (bool_decide (t_end t = SavedAndTold)) then (saved c, called)
              else let '(o, s, l) := batch_loop batches attempts turns c (Some c) in (o, s, called ++ l)
        end
  end.

Definition runResumableBackfill (options : ResumableBackfillOptions) (turns : list turn) (store : option BackfillCheckpoint)
  : outcome * option BackfillCheckpoint * list (option string) :=
  if String.eqb (o_jobId options) "" || String.eqb (o_key options) "" then (Throws, store, [])
  else
    let batchSize := default 500 (o_batchSize options) in
    let maxBatches := default 100 (o_maxBatches options) in
    let maxAttempts := default 3 (o_maxAttempts options) in
    if (batchSize <? 1) || (maxBatches <? 1) || (maxAttempts <? 1) then (Throws, store, [])
    else
      let checkpoint := default (mkCheckpoint (o_jobId options) (o_key options) None 0 0 BfPending) store in
      if negb (String.eqb (cp_key checkpoint) (o_key options)) then (Throws, store, [])
      else if bool_decide (cp_status checkpoint = BfSucceeded) then (Returns checkpoint, store, [])
      else batch_loop (Z.to_nat maxBatches) (Z.to_nat maxAttempts) turns checkpoint store.

(** The runs of a job one after the other, each of which loads what was saved last. *)
Fixpoint runs (options : ResumableBackfillOptions) (l : list (list turn)) (store : option BackfillCheckpoint) : option BackfillCheckpoint * list (option string) :=
  match l with
  | [] => (store, [])
  | turns :: l =>
      let '(_, store, calls) := runResumableBackfill options turns store in
      let '(store, calls') := runs options l store in
      (store, calls ++ calls')
  end.

(** ** Bounds *)

Lemma try_batch_bound attempts outs : ((try_batch attempts outs).1 ≤ attempts)%nat.
Proof.
  revert outs. induction attempts as [|n IH]; intros outs; [by destruct outs|]. destruct outs as [|[r| |] outs]; simpl; try lia.
  specialize (IH outs). destruct (try_batch n outs). simpl in *. lia.
Qed.

Lemma batch_loop_bound batches attempts turns : ∀ checkpoint store,
  (length (batch_loop batches attempts turns checkpoint store).2 ≤ batches * attempts)%nat.
Proof.
  revert turns. induction batches as [|n IH]; intros turns checkpoint store; [destruct turns; simpl; lia|]. destruct turns as [|t turns]; [simpl; lia|].
  cbn [batch_loop]. destruct (t_aborted t); [destruct (t_end t); simpl; lia|]. destruct (t_pause t); [simpl; lia|].
  pose proof (try_batch_bound attempts (t_attempts t)) as Hb. destruct (try_batch attempts (t_attempts t)) as [calls [r| |]]; simpl in Hb; try (simpl; rewrite repeat_length; lia).
  destruct (_ && _); [simpl; rewrite repeat_length; lia|]. destruct (_ || _); [simpl; rewrite repeat_length; lia|].
  specialize (IH turns (advance checkpoint r) (Some (advance checkpoint r))).
  destruct (batch_loop _ _ _ _ _) as [[o s] l]. simpl in *. rewrite length_app, repeat_length. lia.
Qed.

(** ** What the batches do *)

Section Job.
(** The work of a batch depends on the cursor it starts at, as the effect has to be
    idempotent for the key of the job and the cursor. *)
Context (transform : option string → BackfillBatchResult).

(** The checkpoint after so many batches of an undisturbed run. *)
Fixpoint undisturbed (jobId key : string) (n : nat) : BackfillCheckpoint :=
  match n with
  | O => mkCheckpoint jobId key None 0 0 BfPending
  | S n => let c := undisturbed jobId key n in advance c (transform (cp_cursor c))
  end.

Definition turn_agrees (c : BackfillCheckpoint) (t : turn) : Prop := ∀ r, Returned r ∈ t_attempts t → r = transform (cp_cursor c).

(** The environment answers each batch with the work at its cursor. *)
Fixpoint agree (batches : nat) (turns : list turn) (c : BackfillCheckpoint) : Prop :=
  match batches, turns with
  | S n, t :: turns => turn_agrees c t ∧ agree n turns (advance c (transform (cp_cursor c)))
  | _, _ => True
  end.

Context (jobId key : string).
Notation und := (undisturbed jobId key).
Definition done_at (k : nat) : bool := br_done (transform (cp_cursor (und k))).
Definition undone (n : nat) : Prop := ∀ k, (k < n)%nat → done_at k = false.

(** A checkpoint that is the one after [n] batches, and [succeeded] exactly when the last
    of them was the last of the job. *)
Definition stands_at (n : nat) (c : BackfillCheckpoint) : Prop :=
  with_status BfPending c = with_status BfPending (und n)
  ∧ ((undone n ∧ cp_status c ≠ BfSucceeded) ∨ (∃ k, n = S k ∧ undone k ∧ done_at k = true ∧ cp_status c = BfSucceeded)).
Definition stored_at (n : nat) (store : option BackfillCheckpoint) : Prop := match store with None => n = O | Some c => stands_at n c end.

(** Calls that go through the batches in order and leave none out, from one to another. *)
Definition covers (from to : nat) (calls : list (option string)) : Prop :=
  ∃ ks, calls = (λ k, cp_cursor (und k)) <$> ks ∧ StronglySorted le ks ∧ Forall (λ k, from ≤ k ≤ to)%nat ks
        ∧ ∀ k, (from ≤ k < to)%nat → k ∈ ks.

Lemma covers_app a b c l l' : (a ≤ b)%nat → (b ≤ c)%nat → covers a b l → covers b c l' → covers a c (l ++ l').
Proof.
  intros Hab Hbc (ks & -> & Hs & Hf & Hc) (ks' & -> & Hs' & Hf' & Hc'). exists (ks ++ ks'). split_and!.
  - by rewrite fmap_app.
  - clear Hc. induction Hs as [|k ks Hs IH Hk]; [done|]. apply Forall_cons in Hf as [Hkb Hf]. constructor; [by apply IH|].
    apply Forall_app. split; [done|]. eapply Forall_impl; [exact Hf'|]. simpl. intros. lia.
  - apply Forall_app. split; [eapply Forall_impl; [exact Hf|]|eapply Forall_impl; [exact Hf'|]]; simpl; intros; lia.
  - intros k Hk. rewrite elem_of_app. destruct (decide (k < b)%nat); [left; apply Hc; lia|right; apply Hc'; lia].
Qed.

Lemma covers_none n : covers n n [].
Proof. exists []. split_and!; [done|constructor|constructor|intros; lia]. Qed.

Lemma covers_batch n to m : (n ≤ to ≤ S n)%nat → (0 < m)%nat ∨ to = n → covers n to (repeat (cp_cursor (und n)) m).
Proof.
  intros Ht Hm. exists (repeat n m). split_and!.
  - clear. induction m as [|m IH]; [done|]. simpl. by rewrite IH.
  - clear. induction m as [|m IH]; [constructor|]. simpl. constructor; [done|]. apply Forall_forall. intros x Hx%list_elem_of_In%repeat_spec. lia.
  - apply Forall_forall. intros x Hx%list_elem_of_In%repeat_spec. lia.
  - intros k Hk. assert (k = n) as -> by lia. destruct Hm as [Hm| ->]; [|lia]. destruct m; [lia|]. left.
Qed.

Lemma try_returned attempts outs r k : try_batch attempts outs = (k, Got r) → Returned r ∈ outs.
Proof.
  revert outs k. induction attempts as [|n IH]; intros outs k; [by destruct outs|]. destruct outs as [|[x| |] outs]; simpl; try done.
  - intros [= _ ->]. left.
  - destruct (try_batch n outs) as [k' t] eqn:E. intros [= _ ->]. right. by eapply IH.
Qed.

Lemma try_called attempts outs : (0 < attempts)%nat → (0 < (try_batch attempts outs).1)%nat.
Proof. destruct attempts as [|n]; [lia|]. intros _. destruct outs as [|[r| |] outs]; simpl; try lia. destruct (try_batch n outs). simpl. lia. Qed.

Lemma same_cursor n c : stands_at n c → cp_cursor c = cp_cursor (und n).
Proof. intros [H _]. by injection H. Qed.

Lemma advance_stands n c : stands_at n c → undone n → stands_at (S n) (advance c (transform (cp_cursor (und n)))).
Proof.
  intros [H _] Hu. split.
  - unfold with_status in H. injection H as E1 E2 E3 E4 E5. cbn [undisturbed]. unfold advance, with_status. simpl. by rewrite E1, E2, E4, E5.
  - destruct (br_done (transform (cp_cursor (und n)))) eqn:E.
    + right. exists n. split_and!; try done. simpl. by rewrite E.
    + left. split; [|simpl; by rewrite E]. intros k Hk. destruct (decide (k = n)) as [->|]; [done|]. apply Hu. lia.
Qed.

Lemma status_stands n c status : stands_at n c → undone n → status ≠ BfSucceeded → stands_at n (with_status status c).
Proof. intros [H _] Hu Hs. split; [done|]. left. by split. Qed.

Lemma batch_loop_stands batches attempts turns : ∀ n c store,
  (0 < attempts)%nat → stands_at n c → undone n → stored_at n store → agree batches turns c →
  ∃ n', (n ≤ n' ≤ n + batches)%nat ∧ stored_at n' (batch_loop batches attempts turns c store).1.2
        ∧ covers n n' (batch_loop batches attempts turns c store).2.
Proof.
  revert turns. induction batches as [|m IH]; intros turns n c store Ha Hc Hu Hst Hag.
  { exists n. destruct turns; simpl; (split_and!; [lia|lia|done|apply covers_none]). }
  destruct turns as [|t turns]; [exists n; simpl; split_and!; [lia|lia|done|apply covers_none]|].
  destruct Hag as [Ht Hag]. cbn [batch_loop].
  assert (Hkeep : ∀ status, status ≠ BfSucceeded → stored_at n (Some (with_status status c))) by (intros; by apply status_stands).
  destruct (t_aborted t). { exists n. destruct (t_end t); simpl; (split_and!; [lia|lia|try done; by apply Hkeep|apply covers_none]). }
  destruct (t_pause t). { exists n. destruct (t_end t); simpl; (split_and!; [lia|lia|try done; by apply Hkeep|apply covers_none]). }
  pose proof (try_called attempts (t_attempts t) Ha) as Hpos. rewrite (same_cursor n c Hc) in Hag |- *.
  destruct (try_batch attempts (t_attempts t)) as [calls [r| |]] eqn:Et; simpl in Hpos.
  - assert (r = transform (cp_cursor (und n))) as -> by (rewrite <- (same_cursor n c Hc); apply Ht; by eapply try_returned).
    destruct (_ && _). { exists n. simpl. split_and!; [lia|lia|done|]. apply covers_batch; [lia|by right]. }
    pose proof (advance_stands n c Hc Hu) as Hadv. destruct (br_done (transform (cp_cursor (und n)))) eqn:Ed; cbn [orb].
    + destruct (t_end t); simpl; [exists n|exists (S n)..]; (split_and!; [lia|lia|done|]); apply covers_batch; (lia || auto).
    + destruct (bool_decide (t_end t = SavedAndTold)) eqn:Ee; cbn [negb].
      * destruct (IH turns (S n) (advance c (transform (cp_cursor (und n)))) (Some (advance c (transform (cp_cursor (und n)))))) as (n' & Hn' & Hst' & Hcov); try done.
        { intros k Hk. destruct (decide (k = n)) as [->|]; [done|]. apply Hu. lia. }
        destruct (batch_loop _ _ _ _ _) as [[o s] l]. simpl in *. exists n'. split_and!; [lia|lia|done|].
        apply covers_app with (b := S n); [lia|lia| |done]. apply covers_batch; [lia|by left].
      * destruct (t_end t); [exists n|exists (S n)|done]; simpl; (split_and!; [lia|lia|done|]); apply covers_batch; (lia || auto).
  - exists n. destruct (t_end t); simpl; (split_and!; [lia|lia|try done; by apply Hkeep|apply covers_batch; [lia|by right]]).
  - exists n. simpl. split_and!; [lia|lia|done|]. apply covers_batch; [lia|by right].
Qed.

(** ** A job over many runs *)

Definition max_batches (options : ResumableBackfillOptions) : nat := Z.to_nat (default 100 (o_maxBatches options)).
Definition max_attempts (options : ResumableBackfillOptions) : nat := Z.to_nat (default 3 (o_maxAttempts options)).
Definition fresh (options : ResumableBackfillOptions) : BackfillCheckpoint := mkCheckpoint (o_jobId options) (o_key options) None 0 0 BfPending.

Fixpoint agree_runs (options : ResumableBackfillOptions) (l : list (list turn)) (store : option BackfillCheckpoint) : Prop :=
  match l with
  | [] => True
  | turns :: l =>
      agree (max_batches options) turns (default (fresh options) store)
      ∧ agree_runs options l (runResumableBackfill options turns store).1.2
  end.

Lemma run_stands options turns n store :
  o_jobId options = jobId → o_key options = key → stored_at n store →
  agree (max_batches options) turns (default (fresh options) store) →
  ∃ n', (n ≤ n' ≤ n + max_batches options)%nat ∧ stored_at n' (runResumableBackfill options turns store).1.2
        ∧ covers n n' (runResumableBackfill options turns store).2.
Proof.
  intros Hj Hk Hst Hag. unfold runResumableBackfill.
  assert (Hstay : ∃ n', (n ≤ n' ≤ n + max_batches options)%nat ∧ stored_at n' store ∧ covers n n' []) by (exists n; split_and!; [lia|lia|done|apply covers_none]).
  destruct (_ || _); [done|]. destruct (_ || _) eqn:Eb; [done|]. destruct (negb _); [done|]. case_bool_decide as Es; [done|].
  apply orb_false_iff in Eb as [_ Ea]. apply Z.ltb_ge in Ea.
  assert (Hc : stands_at n (default (fresh options) store) ∧ undone n).
  { destruct store as [c|]; simpl in *.
    - split; [done|]. destruct Hst as [_ [[Hu _]|(k & _ & _ & _ & Hs)]]; [done|congruence].
    - subst n. split; [|by intros k Hk'; lia]. split; [unfold fresh; by rewrite Hj, Hk|]. left. split; [intros k Hk'; lia|done]. }
  destruct Hc as [Hc Hu]. apply batch_loop_stands; try done. lia.
Qed.

Lemma runs_stand options l : ∀ n store,
  o_jobId options = jobId → o_key options = key → stored_at n store → agree_runs options l store →
  ∃ n', (n ≤ n')%nat ∧ stored_at n' (runs options l store).1 ∧ covers n n' (runs options l store).2.
Proof.
  induction l as [|turns l IH]; intros n store Hj Hk Hst Hag; [exists n; split_and!; [lia|done|apply covers_none]|].
  destruct Hag as [Ha Hag]. cbn [runs]. destruct (run_stands options turns n store Hj Hk Hst Ha) as (m & Hm & Hstm & Hcm).
  destruct (runResumableBackfill options turns store) as [[o s] calls]. simpl in Hstm, Hcm, Hag.
  destruct (IH m s Hj Hk Hstm Hag) as (n' & Hn' & Hst' & Hc'). destruct (runs options l s) as [s' calls']. simpl in *.
  exists n'. split_and!; [lia|done|]. apply covers_app with (b := m); [lia|lia|done|done].
Qed.
End Job.

(** C23: an interrupted backfill does what an undisturbed one does. Whatever ends, pauses,
    aborts or fails its runs, where a batch does the same work whenever it is called with
    the same cursor, the checkpoint that is stored is the one after some number of batches
    of an undisturbed run, it says that the job has succeeded exactly when the last of them
    was the last of the job, and the calls made so far went through these batches in order,
    leaving none out and calling none but the next. *)
Theorem interrupted_backfill_is_exact transform options l :
  agree_runs transform options l None →
  ∃ n, stored_at transform (o_jobId options) (o_key options) n (runs options l None).1
       ∧ covers transform (o_jobId options) (o_key options) 0 n (runs options l None).2.
Proof.
  intros Hag. destruct (runs_stand transform (o_jobId options) (o_key options) options l 0 None eq_refl eq_refl eq_refl Hag) as (n & _ & H1 & H2). by exists n.
Qed.

(** A run is bounded by its options, whatever happens in it: it calls no more batches
    than [maxBatches], each at most [maxAttempts] times, and it calls none and stores
    nothing for a job of another key or one that has succeeded. *)
Theorem backfill_is_bounded options turns store :
  (length (runResumableBackfill options turns store).2 ≤ max_batches options * max_attempts options)%nat
  ∧ (from_option (λ c, cp_key c ≠ o_key options ∨ cp_status c = BfSucceeded) False store →
     (runResumableBackfill options turns store).1.2 = store ∧ (runResumableBackfill options turns store).2 = []).
Proof.
  unfold runResumableBackfill. split.
  - destruct (_ || _); [simpl; lia|]. destruct (_ || _); [simpl; lia|]. destruct (negb _); [simpl; lia|]. case_bool_decide; [simpl; lia|]. apply batch_loop_bound.
  - intros H. destruct store as [c|]; [|done]. simpl in *. destruct (_ || _); [done|]. destruct (_ || _); [done|].
    destruct (String.eqb_spec (cp_key c) (o_key options)) as [E|E]; [|done]. simpl. destruct H as [H|H]; [done|]. by rewrite bool_decide_true.
Qed.

(** ** A run that is left alone *)

Section Finish.
Context (transform : option string → BackfillBatchResult) (jobId key : string).
Notation und := (undisturbed transform jobId key).

(** A turn in which an attempt at the batch succeeds and its checkpoint is saved. *)
Definition calm (attempts k : nat) (t : turn) : Prop :=
  t_aborted t = false ∧ t_pause t = false ∧ t_end t = SavedAndTold ∧ ∃ m, try_batch attempts (t_attempts t) = (m, Got (transform (cp_cursor (und k)))).

Lemma loop_finishes attempts d : ∀ n batches turns c store,
  stands_at transform jobId key n c → undone transform jobId key (n + d) → done_at transform jobId key (n + d) = true →
  (∀ k, (n ≤ k < n + d)%nat → br_nextCursor (transform (cp_cursor (und k))) ≠ cp_cursor (und k)) →
  (d < batches)%nat → (∀ i, (i ≤ d)%nat → ∃ t, turns !! i = Some t ∧ calm attempts (n + i) t) →
  (batch_loop batches attempts turns c store).1.1 = Returns (und (S (n + d))).
Proof.
  induction d as [|d IH]; intros n batches turns c store Hc Hu Hd Hadv Hb Ht.
  - rewrite Nat.add_0_r in *. destruct (Ht 0%nat) as (t & Hl & Ha & Hp & He & m & Hm); [lia|]. rewrite Nat.add_0_r in Hm. destruct turns as [|t' turns]; [done|]. injection Hl as ->.
    destruct batches as [|b]; [lia|]. cbn [batch_loop]. rewrite Ha, Hp, Hm. unfold done_at in Hd. rewrite Hd, He. simpl. f_equal.
    destruct Hc as [Hc _]. unfold with_status in Hc. injection Hc as E1 E2 E3 E4 E5. cbn [undisturbed]. unfold advance. by rewrite E1, E2, E4, E5.
  - destruct (Ht 0%nat) as (t & Hl & Ha & Hp & He & m & Hm); [lia|]. rewrite Nat.add_0_r in Hm. destruct turns as [|t' turns]; [done|]. injection Hl as ->.
    destruct batches as [|b]; [lia|]. cbn [batch_loop]. rewrite Ha, Hp, Hm. rewrite (same_cursor transform jobId key n c Hc).
    assert (Hn : done_at transform jobId key n = false) by (apply Hu; lia). unfold done_at in Hn. rewrite Hn, He.
    rewrite (bool_decide_false (br_nextCursor _ = _)) by (apply Hadv; lia). cbn [negb andb orb]. rewrite bool_decide_true by done. cbn [negb].
    pose proof (IH (S n) b turns (advance c (transform (cp_cursor (und n)))) (Some (advance c (transform (cp_cursor (und n)))))) as H.
    replace (S n + d)%nat with (n + S d)%nat in H by lia. destruct (batch_loop b attempts turns _ _) as [[o s] l]. simpl in H |- *. apply H; [|done|done| |lia|].
    + apply advance_stands; [done|]. intros k Hk. apply Hu. lia.
    + intros k Hk. apply Hadv. lia.
    + intros i Hi. destruct (Ht (S i)) as (t'' & Hl & Hcalm); [lia|]. exists t''. split; [done|]. revert Hcalm. replace (n + S i)%nat with (S n + i)%nat by lia. done.
Qed.
End Finish.

(** A job that is left alone succeeds: from whatever checkpoint its earlier runs left,
    a run in which some attempt at each batch succeeds, and which has room for the batches
    that are left, returns the checkpoint of the last batch, provided the cursor advances
    until then. *)
Theorem backfill_finishes transform options turns store n last :
  let jobId := o_jobId options in let key := o_key options in
  jobId ≠ "" → key ≠ "" → 1 ≤ default 500 (o_batchSize options) → 1 ≤ default 3 (o_maxAttempts options) →
  stored_at transform jobId key n store → (n ≤ last)%nat → undone transform jobId key last → done_at transform jobId key last = true →
  (∀ k, (n ≤ k < last)%nat → br_nextCursor (transform (cp_cursor (undisturbed transform jobId key k))) ≠ cp_cursor (undisturbed transform jobId key k)) →
  (last - n < max_batches options)%nat → (∀ i, (i ≤ last - n)%nat → ∃ t, turns !! i = Some t ∧ calm transform jobId key (max_attempts options) (n + i) t) →
  ∃ c, (runResumableBackfill options turns store).1.1 = Returns c ∧ c = undisturbed transform jobId key (S last) ∧ cp_status c = BfSucceeded.
Proof.
  intros jobId key Hj Hk Hs Ha Hst Hn Hu Hd Hadv Hb Ht. exists (undisturbed transform jobId key (S last)). split_and!; [|done|unfold done_at in Hd; simpl; by rewrite Hd].
  assert (Hc : stands_at transform jobId key n (default (fresh options) store)).
  { destruct store as [c|]; [done|]. simpl in Hst. subst n. split; [done|]. left. split; [intros k Hk'; lia|done]. }
  assert (Hns : cp_status (default (fresh options) store) ≠ BfSucceeded).
  { destruct Hc as [_ [[_ ?]|(k & -> & _ & Hdk & _)]]; [done|]. rewrite (Hu k) in Hdk by lia. done. }
  assert (Hkey : cp_key (default (fresh options) store) = key).
  { destruct Hc as [Hc _]. unfold with_status in Hc. injection Hc as _ Ek _ _ _. rewrite Ek. clear. induction n as [|n IH]; [done|]. simpl. exact IH. }
  unfold runResumableBackfill. change (mkCheckpoint (o_jobId options) (o_key options) None 0 0 BfPending) with (fresh options).
  set (c0 := default (fresh options) store) in *. fold jobId key. apply String.eqb_neq in Hj, Hk. rewrite Hj, Hk. simpl.
  rewrite (proj2 (Z.ltb_ge _ _) Hs), (proj2 (Z.ltb_ge _ _) Ha). unfold max_batches in Hb. rewrite (proj2 (Z.ltb_ge (default 100 (o_maxBatches options)) 1)) by lia. simpl.
  rewrite Hkey, String.eqb_refl. simpl. rewrite bool_decide_false by done.
  replace last with (n + (last - n))%nat by lia. apply loop_finishes; try done.
  - by replace (n + (last - n))%nat with last by lia.
  - by replace (n + (last - n))%nat with last by lia.
  - intros k Hk'. apply Hadv. lia.
Qed.

(** ** A job of three batches *)

Definition three_batches (cursor : option string) : BackfillBatchResult :=
  match cursor with
  | None => mkBatchResult (Some "a") 5 false
  | Some c => if String.eqb c "a" then mkBatchResult (Some "b") 5 false else mkBatchResult None 2 true
  end.
Definition job_options : ResumableBackfillOptions := mkOptions "job" "key" None (Some 2) None.
Definition a_turn (attempts : list attempt) (e : ending) : turn := mkTurn false false attempts e.

(** The first run ends while its second batch is not saved; the second fails and is given
    up, the third finishes. *)
Definition three_runs : list (list turn) :=
  [[a_turn [Failed; Returned (three_batches None)] SavedAndTold; a_turn [Returned (three_batches (Some "a"))] Unsaved];
   [a_turn [Failed; Failed; Failed] SavedAndTold];
   [a_turn [Returned (three_batches (Some "a"))] SavedAndTold; a_turn [Returned (three_batches (Some "b"))] SavedAndTold]].

Lemma three_runs_agree : agree_runs three_batches job_options three_runs None.
Proof.
  assert (H : ∀ c t, forallb (λ a, match a with Returned r => bool_decide (br_nextCursor r = br_nextCursor (three_batches (cp_cursor c))) && (br_processed r =? br_processed (three_batches (cp_cursor c))) && Bool.eqb (br_done r) (br_done (three_batches (cp_cursor c))) | _ => true end) (t_attempts t) = true → turn_agrees three_batches c t).
  { intros c t Hf r Hr%list_elem_of_In. rewrite forallb_forall in Hf. specialize (Hf _ Hr). simpl in Hf. bool_simpl. apply eqb_prop in H0. destruct r, (three_batches (cp_cursor c)); simpl in *; congruence. }
  unfold three_runs. cbn [agree_runs]. repeat (split || exact I); apply H; by vm_compute.
Qed.

Lemma interrupted_backfill_is_exact_witness :
  (∃ n, stored_at three_batches "job" "key" n (runs job_options three_runs None).1 ∧ covers three_batches "job" "key" 0 n (runs job_options three_runs None).2)
  ∧ (cp_processed <$> (runs job_options three_runs None).1) = Some 12
  ∧ (runs job_options three_runs None).2 = [None; None; Some "a"; Some "a"; Some "a"; Some "a"; Some "a"; Some "b"].
Proof. split; [exact (interrupted_backfill_is_exact three_batches job_options three_runs three_runs_agree)|by vm_compute]. Defined.

Lemma backfill_is_bounded_witness :
  (runResumableBackfill job_options (default [] (head three_runs)) (Some (undisturbed three_batches "job" "key" 3))).2 = [].
Proof. destruct (backfill_is_bounded job_options (default [] (head three_runs)) (Some (undisturbed three_batches "job" "key" 3))) as [_ H]. by apply H; right; vm_compute. Defined.

Definition last_turns : list turn := [a_turn [Failed; Returned (three_batches (Some "a"))] SavedAndTold; a_turn [Returned (three_batches (Some "b"))] SavedAndTold].

Lemma backfill_finishes_witness :
  ∃ c, (runResumableBackfill job_options last_turns (Some (undisturbed three_batches "job" "key" 1))).1.1 = Returns c
       ∧ c = undisturbed three_batches "job" "key" 3 ∧ cp_status c = BfSucceeded.
Proof.
  assert (Hu : ∀ m, (m ≤ 2)%nat → undone three_batches "job" "key" m).
  { intros m Hm k Hk. destruct k as [|[|k]]; [by vm_compute|by vm_compute|lia]. }
  apply (backfill_finishes three_batches job_options last_turns (Some (undisturbed three_batches "job" "key" 1)) 1 2); try done; try lia.
  - split; [done|]. left. split; [apply Hu; lia|by vm_compute].
  - apply Hu. lia.
  - intros k Hk. assert (k = 1%nat) as -> by lia. by vm_compute.
  - vm_compute. lia.
  - intros i Hi. assert (i = 0 ∨ i = 1)%nat as [->| ->] by lia; (eexists; split; [done|]); split_and!; try done; by eexists.
Defined.
