(* ===== verification/Deployment.v ===== *)
(** * Deployment findings

    The reconciliation of [packages/transaction/src/schema/deployment]: what a candidate
    schema, the active one and the observed database disagree on ([reconcile.ts], with the
    audit of [audit.ts]). A finding keeps the values its message names; texts of messages
    and actions follow from its code and are left out. *)
From S2P Require Import Prelude JsData Json JsonText SchemaJson SchemaDiff Ddl.
#[local] Open Scope string_scope.
#[local] Open Scope list_scope.
#[local] Open Scope Z_scope.

(** ** Contracts *)

Inductive DeploymentPhase := PhIntent | PhExpand | PhDualWrite | PhBackfill | PhVerify | PhSwitch | PhContract | PhRecover.
Inductive DeploymentOwner := OwnApplication | OwnApplicationMigration | OwnAblo.
Inductive DeploymentSeverity := SevBlocker | SevError | SevWarning | SevInfo.
Inductive DeploymentCategory := CatPolicyIntent | CatPhysicalContract | CatCompatibility | CatDataMovement | CatDestructiveContract | CatAdvisory | CatObservation.
Inductive DeploymentDirection := SourceToActive | SourceToDatabase | ActiveToDatabase | ClientToActive.
#[export] Instance DeploymentPhase_eq_dec : EqDecision DeploymentPhase.
Proof. solve_decision. Defined.
#[export] Instance DeploymentOwner_eq_dec : EqDecision DeploymentOwner.
Proof. solve_decision. Defined.
#[export] Instance DeploymentSeverity_eq_dec : EqDecision DeploymentSeverity.
Proof. solve_decision. Defined.
#[export] Instance DeploymentCategory_eq_dec : EqDecision DeploymentCategory.
Proof. solve_decision. Defined.
#[export] Instance DeploymentDirection_eq_dec : EqDecision DeploymentDirection.
Proof. solve_decision. Defined.

Record DatabaseColumnSnapshot := mkColumnSnapshot {
  dc_dataType : string; dc_nullable : bool; dc_primary : bool; dc_unique : bool; dc_nullCount : option Z;
}.
Record DatabaseIndexSnapshot := mkIndexSnapshot { di_columns : list string; di_valid : bool; di_ready : bool }.
Record DatabaseForeignKeySnapshot := mkKeySnapshot { dk_name : string; dk_columns : list string; dk_referencedTable : string; dk_validated : bool }.
Record DatabaseTableSnapshot := mkTableSnapshot {
  dt_columns : list (string * DatabaseColumnSnapshot);
  dt_indexes : list DatabaseIndexSnapshot;
  dt_foreignKeys : list DatabaseForeignKeySnapshot;
  dt_rowLevelSecurity : option bool;
  dt_forceRowLevelSecurity : option bool;
  dt_publicationMember : option bool;
}.
Inductive ownership := ByApplication | ByAblo.
#[export] Instance ownership_eq_dec : EqDecision ownership.
Proof. solve_decision. Defined.
Record DatabaseSnapshot := mkSnapshotDb { db_appSchema : string; db_ownership : ownership; db_tables : list (string * DatabaseTableSnapshot) }.

(** What a finding found, and what it expected. *)
Inductive evidence :=
  | EvNull
  | EvText (s : string)
  | EvNumber (n : Z)
  | EvCount (what : string) (n : Z)
  | EvIdentity (primary unique : option bool)
  | EvChanges (c : FieldChanges).
#[export] Instance evidence_eq_dec : EqDecision evidence.
Proof. solve_decision. Defined.

Record DeploymentFinding := mkFinding {
  df_id : string;
  df_code : string;
  df_category : DeploymentCategory;
  df_severity : DeploymentSeverity;
  df_direction : DeploymentDirection;
  df_phase : DeploymentPhase;
  df_owner : DeploymentOwner;
  df_model : option string;
  df_field : option string;
  df_column : option string;
  df_from : option evidence;
  df_to : option evidence;
  df_said : list string;
  df_dependsOn : option (list string);
}.

(** [parts.filter(Boolean).join(':')] *)
Definition finding_id (parts : list (option string)) : string :=
  join ":" (omap (λ p, match p with Some EmptyString | None => None | Some s => Some s end) parts).
Definition direction_text (d : DeploymentDirection) : string :=
  match d with SourceToActive => "source_to_active" | SourceToDatabase => "source_to_database" | ActiveToDatabase => "active_to_database" | ClientToActive => "client_to_active" end.

Definition code_text (c : SignalCode) : string :=
  match c with
  | SigDropModel => "drop_model" | SigDropField => "drop_field" | SigRiskyCast => "risky_cast" | SigLossyRecreate => "lossy_recreate"
  | SigEnumValueRemoved => "enum_value_removed" | SigRemoveModel => "remove_model" | SigRequiredFieldAdded => "required_field_added" | SigMadeRequired => "made_required"
  end.

(** ** Source and active schema *)

Definition destructive (c : SignalCode) : bool :=
  match c with SigDropModel | SigDropField | SigRiskyCast | SigLossyRecreate | SigEnumValueRemoved => true | _ => false end.

Definition signalFinding (signal : MigrationSignal) (direction : DeploymentDirection) : DeploymentFinding :=
  let d := destructive (sg_code signal) in
  mkFinding (finding_id [Some (direction_text direction); Some (code_text (sg_code signal)); Some (sg_model signal); sg_field signal]) (code_text (sg_code signal))
    (if d then CatDestructiveContract else CatDataMovement) (if d then SevError else SevBlocker) direction (if d then PhContract else PhBackfill)
    OwnApplicationMigration (Some (sg_model signal)) (match sg_field signal with Some EmptyString => None | f => f end) None None None [] None.

Definition field_type_text (t : FieldType) : string :=
  match t with FtString => "string" | FtNumber => "number" | FtBoolean => "boolean" | FtDate => "date" | FtEnum => "enum" | FtJson => "json" end.

Definition stepFinding (step : MigrationStep) : option DeploymentFinding :=
  let finding kind parts severity phase owner model field column from to said :=
    Some (mkFinding (finding_id (Some "source_to_active" :: Some kind :: parts)) kind CatCompatibility severity SourceToActive phase owner (Some model) field column from to said None) in
  match step with
  | drop_field _ _ | drop_model _ _ => None
  | create_model model table => finding "create_model" [Some model] SevInfo PhExpand OwnAblo model None None (Some EvNull) (Some (EvText table)) [model]
  | add_field model field meta =>
      finding "add_field" [Some model; Some field] (if f_isOptional meta then SevInfo else SevBlocker) PhExpand
        (if f_isOptional meta then OwnAblo else OwnApplicationMigration) model (Some field) (Some (columnNameOf field (Some meta)))
        (Some EvNull) (Some (EvText (field_type_text (f_type meta)))) [model; field]
  | rename_model from to => finding "rename_model" [Some from; Some to] SevWarning PhDualWrite OwnApplication to None None (Some (EvText from)) (Some (EvText to)) [from; to]
  | rename_field model from to =>
      finding "rename_field" [Some model; Some from; Some to] SevWarning PhDualWrite OwnApplication model (Some to) None (Some (EvText from)) (Some (EvText to)) [model; from; to]
  | alter_field model field changes =>
      finding "alter_field" [Some model; Some field] SevWarning PhDualWrite OwnApplicationMigration model (Some field) None (Some (EvChanges changes)) None [model; field]
  end.

(** [normalizePgType] *)
Definition normalizePgType (value : string) : string :=
  let type := toLowerCase value in
  if includes type "timestamp" then "TIMESTAMPTZ"
  else if String.eqb type "double precision" || String.eqb type "numeric" || String.eqb type "real" || includes type "int" then "DOUBLE PRECISION"
  else if String.eqb type "boolean" then "BOOLEAN"
  else if String.eqb type "json" || String.eqb type "jsonb" then "JSONB"
  else "TEXT".

(** The field a signal is about, and the column the database has for it. *)
Definition signal_field (signal : MigrationSignal) (source : SchemaJSON) : option (ModelJSON * string * FieldMeta) :=
  model ← map_get (sg_model signal) (s_models source);
  name ← sg_field signal;
  meta ← map_get name (m_fields model);
  if String.eqb name "" then None else Some (model, name, meta).

Definition observed_column (signal : MigrationSignal) (database : DatabaseSnapshot) (f : ModelJSON * string * FieldMeta) : option DatabaseColumnSnapshot :=
  table ← map_get (tableNameOf f.1.1 (sg_model signal)) (db_tables database);
  map_get (columnNameOf f.1.2 (Some f.2)) (dt_columns table).

Definition no_nulls (c : DatabaseColumnSnapshot) : bool := match dc_nullCount c with None | Some 0 => true | _ => false end.

Definition databaseSatisfiesRequiredField (signal : MigrationSignal) (source : SchemaJSON) (database : option DatabaseSnapshot) : bool :=
  if bool_decide (sg_code signal = SigRequiredFieldAdded) || bool_decide (sg_code signal = SigMadeRequired) then
    match database, signal_field signal source with
    | Some database, Some f =>
        negb (f_isOptional f.2)
        && match observed_column signal database f with
           | Some c => negb (dc_nullable c) && no_nulls c && String.eqb (normalizePgType (dc_dataType c)) (sqlType (f_type f.2))
           | None => false
           end
    | _, _ => false
    end
  else false.

Definition databaseSatisfiesRiskyCast (signal : MigrationSignal) (source : SchemaJSON) (database : option DatabaseSnapshot) : bool :=
  if bool_decide (sg_code signal = SigRiskyCast) then
    match database, signal_field signal source with
    | Some database, Some f =>
        negb (bool_decide (f_type f.2 = FtEnum))
        && match observed_column signal database f with Some c => String.eqb (normalizePgType (dc_dataType c)) (sqlType (f_type f.2)) | None => false end
    | _, _ => false
    end
  else false.

Definition databasePreservesRemovedApplicationModel (signal : MigrationSignal) (active : option SchemaJSON) (source : SchemaJSON) (database : option DatabaseSnapshot) : bool :=
  match active, database with
  | Some active, Some database =>
      bool_decide (db_ownership database = ByApplication) && bool_decide (sg_code signal = SigDropModel)
      && negb (is_Some_b (map_get (sg_model signal) (s_models source)))
      && match map_get (sg_model signal) (s_models active) with
         | Some m => is_Some_b (map_get (tableNameOf m (sg_model signal)) (db_tables database))
         | None => false
         end
  | _, _ => false
  end.

(** A finding that says how many signals the database answered. *)
Definition evidence_finding (code : string) (category : DeploymentCategory) (severity : DeploymentSeverity) (owner : DeploymentOwner) (what to : string) (signals : list MigrationSignal) : list DeploymentFinding :=
  match signals with
  | [] => []
  | _ => [mkFinding ("source_to_active:" +:+ code) code category severity SourceToActive PhVerify owner None None None
            (Some (EvCount what (Z.of_nat (length signals)))) (Some (EvText to)) [] None]
  end.

(** [${model}:${field ?? ''}] *)
Definition location (model field : option string) : string := default "undefined" model +:+ ":" +:+ default "" field.

Definition has_backfill (backfills : list BackfillValue) (f : DeploymentFinding) : bool :=
  match df_model f, df_field f with
  | Some m, Some fl => existsb (λ b, String.eqb (bf_model b) m && String.eqb (bf_field b) fl) backfills
  | _, _ => false
  end.

Definition with_backfill (backfills : list BackfillValue) (f : DeploymentFinding) : DeploymentFinding :=
  if has_backfill backfills f && String.eqb (df_code f) "add_field" && bool_decide (df_severity f = SevBlocker)
  then mkFinding (df_id f) (df_code f) (df_category f) SevInfo (df_direction f) PhBackfill (df_owner f) (df_model f) (df_field f) (df_column f) (df_from f) (df_to f) (df_said f) (df_dependsOn f)
  else f.

Definition verifier (database : option DatabaseSnapshot) : DeploymentOwner :=
  if bool_decide ((db_ownership <$> database) = Some ByAblo) then OwnAblo else OwnApplicationMigration.

Definition reconcileSourceToActiveResult (active : option SchemaJSON) (source : SchemaJSON) (hints : RenameHints) (backfills : list BackfillValue) (database : option DatabaseSnapshot)
  : list MigrationStep * list DeploymentFinding :=
  let steps := diffSchema active source hints in
  let classification := classifyMigration steps in
  let blockers := unresolvedBlockers classification backfills in
  let required := λ s, databaseSatisfiesRequiredField s source database in
  let cast := λ s, databaseSatisfiesRiskyCast s source database in
  let preserved := λ s, databasePreservesRemovedApplicationModel s active source database in
  let signals := (λ s, signalFinding s SourceToActive) <$>
    (List.filter (λ s, negb (required s)) blockers ++ List.filter (λ s, negb (cast s || preserved s)) (warnings classification)) in
  let locations := (λ s, location (Some (sg_model s)) (sg_field s)) <$> (blockers ++ warnings classification) in
  let ordinary := with_backfill backfills <$> List.filter (λ f, negb (bool_decide (location (df_model f) (df_field f) ∈ locations))) (omap stepFinding steps) in
  (steps,
   signals
   ++ evidence_finding "database_migration_verified" CatDataMovement SevInfo (verifier database) "requiredChanges" "satisfied" (List.filter required blockers)
   ++ evidence_finding "database_type_correction_verified" CatDestructiveContract SevInfo (verifier database) "typeCorrections" "source_database_alignment" (List.filter cast (warnings classification))
   ++ evidence_finding "application_model_removal_verified" CatCompatibility SevWarning OwnApplication "removedModels" "physical_tables_preserved" (List.filter preserved (warnings classification))
   ++ ordinary).
