(* ===== verification/DeploymentChecks.v ===== *)
(** * Findings about policies, databases, clients and manifests

    [audit.ts] of [packages/transaction/src/schema], and the rest of
    [deployment/reconcile.ts]. *)
From S2P Require Import Prelude JsData Json JsonText SchemaJson SchemaDiff Ddl Deployment.
#[local] Open Scope string_scope.
#[local] Open Scope list_scope.
#[local] Open Scope Z_scope.

(** ** Routing and access ([audit.ts]) *)

Record RoutingAnchor := mkAnchor { an_column : string; an_parentTable : option string }.

Definition truthy_scope (s : option scope_marker) : bool :=
  match s with Some (ScopeFlag b) => b | Some (ScopeKind "") => false | Some (ScopeKind _) => true | None => false end.

(** Whether a parent chain leads to a scope root. A model on the way is not entered again,
    so a chain is no longer than there are models. *)
Fixpoint reachesScope (fuel : nat) (models : list (string * ModelJSON)) (seen : list string) (key : string) : bool :=
  match fuel with
  | O => false
  | S fuel =>
      if bool_decide (key ∈ seen) then false
      else match map_get key models with
           | None => false
           | Some model =>
               truthy_scope (m_scope model)
               || existsb (λ r, bool_decide (r_type r.2 = BelongsTo) && reachesScope fuel models (key :: seen) (r_target r.2)) (m_relations model)
           end
  end.

Definition fieldColumn (model : ModelJSON) (field : string) : string := default field (map_get field (m_fields model) ≫= f_column).

Definition routingAnchors (model : ModelJSON) (models : list (string * ModelJSON)) : list RoutingAnchor :=
  (if truthy_scope (m_scope model) then [mkAnchor "id" None] else [])
  ++ ((λ role, mkAnchor (fieldColumn model (role_field role)) None) <$> default [] (m_entityRoles model))
  ++ omap (λ r, if bool_decide (r_type r.2 = BelongsTo) && reachesScope (S (length models)) models [] (r_target r.2)
                then (λ target, mkAnchor (r_foreignKeyColumn r.2) (Some (tableNameOf target (r_target r.2)))) <$> map_get (r_target r.2) models
                else None) (m_relations model).

Definition policyMatches (anchor : RoutingAnchor) (model : ModelJSON) : bool :=
  match resolveTenancy model with
  | TenancySource => true
  | TenancyColumn c => String.eqb c (an_column anchor) || String.eqb c (camelToSnake (an_column anchor))
  | TenancyParent via => String.eqb (via_localKey via) (an_column anchor) && (match an_parentTable anchor with None => true | Some t => String.eqb (via_parentTable via) t end)
  | TenancyNone => false
  end.

Definition mismatched (model : ModelJSON) (models : list (string * ModelJSON)) : list RoutingAnchor :=
  List.filter (λ a, negb (policyMatches a model)) (routingAnchors model models).

(** The models the audit reports. *)
Definition auditSchemaAccessPolicies (schema : SchemaJSON) : list string :=
  omap (λ p, if bool_decide (m_mutable p.2 = Some false) || m_routingOnly p.2 then None
             else match mismatched p.2 (s_models schema) with [] => None | _ => Some p.1 end) (s_models schema).

Definition reconcilePolicyIntent (source : SchemaJSON) : list DeploymentFinding :=
  (λ model, mkFinding (finding_id [Some "policy"; Some "scope_routing_without_access_policy"; Some model]) "scope_routing_without_access_policy"
     CatPolicyIntent SevBlocker SourceToActive PhIntent OwnApplication (Some model) None None None None [model] None) <$> auditSchemaAccessPolicies source.

(** ** The database ([physicalFindings]) *)

Record required_column := mkRequired { rc_field : option string; rc_column : string; rc_type : string; rc_nullable : bool; rc_primary : bool }.

Definition requiredColumns (model : ModelJSON) : list required_column :=
  mkRequired None "id" "TEXT" false true
  :: (match org_column model with Some c => if String.eqb c "" then [] else [mkRequired None c "TEXT" false false] | None => [] end)
  ++ ((λ p, mkRequired (Some p.1) (columnNameOf p.1 (Some p.2)) (sqlType (f_type p.2)) (f_isOptional p.2) false) <$> m_fields model).

Section Physical.
Context (schema : SchemaJSON) (database : DatabaseSnapshot) (direction : DeploymentDirection).

Definition by_ablo : bool := bool_decide (db_ownership database = ByAblo).
Definition physicalOwner : DeploymentOwner := if by_ablo then OwnAblo else OwnApplicationMigration.
Definition missing_severity : DeploymentSeverity := if by_ablo then SevInfo else SevBlocker.
Definition dir : option string := Some (direction_text direction).

(** What is wrong with a column, in the order of the checks. *)
Definition column_findings (modelKey : string) (model : ModelJSON) (tableName : string) (table : DatabaseTableSnapshot) (expected : required_column) : list DeploymentFinding :=
  let base := [dir; Some modelKey; rc_field expected; Some (rc_column expected)] in
  (* an empty field name counts as none *)
  let field := match rc_field expected with Some EmptyString => None | f => f end in
  let finding suffix code category severity phase owner field from to said :=
    mkFinding (finding_id (base ++ [Some suffix])) code category severity direction phase owner (Some modelKey) field (Some (rc_column expected)) from to said None in
  match map_get (rc_column expected) (dt_columns table) with
  | None =>
      [finding "missing_column" (if rc_primary expected then "missing_identity_column" else "missing_column") CatPhysicalContract missing_severity PhExpand physicalOwner
         field (Some EvNull) (Some (EvText (rc_type expected))) [tableName; rc_column expected]]
  | Some actual =>
      let actualType := normalizePgType (dc_dataType actual) in
      (if rc_primary expected && negb (dc_primary actual) && negb (dc_unique actual)
       then [finding "identity_not_unique" "identity_not_unique" CatPhysicalContract SevBlocker PhExpand physicalOwner None
               (Some (EvIdentity (Some (dc_primary actual)) (Some (dc_unique actual)))) (Some (EvIdentity (Some true) None)) [tableName; rc_column expected]] else [])
      ++ (if String.eqb actualType (rc_type expected) then []
          else [finding "column_type_mismatch" "column_type_mismatch" CatPhysicalContract SevBlocker PhExpand physicalOwner field
                  (Some (EvText actualType)) (Some (EvText (rc_type expected))) [tableName; rc_column expected]])
      ++ (if negb (rc_nullable expected) && dc_nullable actual
          then [finding "column_nullable" "column_nullable" CatDataMovement SevBlocker PhBackfill physicalOwner field
                  (Some (EvText "nullable")) (Some (EvText "required")) [tableName; rc_column expected]] else [])
      ++ (match dc_nullCount actual with
          | Some n => if bool_decide (Some (rc_column expected) = org_column model) && (0 <? n)
                      then [finding "unstamped_tenancy_rows" "unstamped_tenancy_rows" CatDataMovement SevBlocker PhBackfill OwnApplicationMigration None
                              (Some (EvNumber n)) (Some (EvNumber 0)) [tableName; rc_column expected]] else []
          | None => []
          end)
  end.

Definition base_column_findings (modelKey tableName : string) (table : DatabaseTableSnapshot) : list DeploymentFinding :=
  omap (λ column, if is_Some_b (map_get column (dt_columns table)) then None
    else Some (mkFinding (finding_id [dir; Some modelKey; Some column; Some "base_column_degraded"]) "base_column_degraded" CatAdvisory SevWarning direction PhIntent OwnApplication
                 (Some modelKey) None (Some column) None None [tableName; column] None)) ["created_by"; "created_at"; "updated_at"].

Definition index_findings (modelKey tableName : string) (model : ModelJSON) (table : DatabaseTableSnapshot) : list DeploymentFinding :=
  omap (λ p, let column := columnNameOf p.1 (Some p.2) in
    if f_isIndexed p.2 && negb (existsb (λ i, bool_decide (di_columns i = [column]) && di_valid i && di_ready i) (dt_indexes table))
    then Some (mkFinding (finding_id [dir; Some modelKey; Some p.1; Some "declared_index_missing"]) "declared_index_missing" CatPhysicalContract SevBlocker direction PhExpand physicalOwner
                 (Some modelKey) (Some p.1) (Some column) None None [modelKey; p.1; tableName; column] None)
    else None) (m_fields model).

Definition key_findings (modelKey : string) (model : ModelJSON) (table : DatabaseTableSnapshot) : list DeploymentFinding :=
  omap (λ r, let rel := r.2 in
    let expectedTable := default (r_target rel) (map_get (r_target rel) (s_models schema) ≫= m_tableName) in
    let finding code category said :=
      mkFinding (finding_id [dir; Some modelKey; Some (r_foreignKey rel); Some code]) code category SevWarning direction PhVerify physicalOwner
        (Some modelKey) (Some (r_foreignKey rel)) (Some (r_foreignKeyColumn rel)) None None said None in
    if negb (bool_decide (r_type rel = BelongsTo)) then None
    else match List.find (λ k, bool_decide (dk_columns k = [r_foreignKeyColumn rel]) && String.eqb (dk_referencedTable k) expectedTable) (dt_foreignKeys table) with
         | None => Some (finding "foreign_key_unverified" CatAdvisory [modelKey; r_foreignKey rel; expectedTable])
         | Some k => if dk_validated k then None else Some (finding "foreign_key_not_validated" CatPhysicalContract [dk_name k])
         end) (m_relations model).

Definition table_findings (modelKey tableName : string) (table : DatabaseTableSnapshot) : list DeploymentFinding :=
  let finding code category severity phase owner :=
    mkFinding (finding_id [dir; Some modelKey; Some code]) code category severity direction phase owner (Some modelKey) None None None None [tableName] None in
  (if negb by_ablo && bool_decide (dt_publicationMember table = Some false)
   then [finding "publication_missing" CatPhysicalContract SevBlocker PhExpand OwnApplicationMigration] else [])
  ++ (if bool_decide (dt_rowLevelSecurity table = Some true) && negb (bool_decide (dt_forceRowLevelSecurity table = Some true))
      then [finding "rls_not_forced" CatAdvisory SevWarning PhVerify physicalOwner] else []).

Definition model_findings (p : string * ModelJSON) : list DeploymentFinding :=
  let '(modelKey, model) := p in
  if is_control model then []
  else
    let tableName := tableNameOf model modelKey in
    match map_get tableName (db_tables database) with
    | None =>
        [mkFinding (finding_id [dir; Some "missing_table"; Some modelKey]) "missing_table" CatPhysicalContract missing_severity direction PhExpand physicalOwner
           (Some modelKey) None None (Some EvNull) (Some (EvText tableName)) [db_appSchema database; tableName] None]
    | Some table =>
        concat (column_findings modelKey model tableName table <$> requiredColumns model)
        ++ base_column_findings modelKey tableName table ++ index_findings modelKey tableName model table
        ++ key_findings modelKey model table ++ table_findings modelKey tableName table
    end.

Definition physicalFindings : list DeploymentFinding := concat (model_findings <$> s_models schema).
End Physical.

Definition reconcileSchemaToDatabase (schema : SchemaJSON) (database : option DatabaseSnapshot) (direction : DeploymentDirection) : list DeploymentFinding :=
  match database with
  | None => [mkFinding (direction_text direction +:+ ":database_unobserved") "database_unobserved" CatObservation SevBlocker direction PhVerify OwnApplicationMigration None None None None None [] None]
  | Some database => physicalFindings schema database direction
  end.

(** ** Clients *)

Inductive field_direction := ClientOnly | ActiveOnly | FieldChanged.
#[export] Instance field_direction_eq_dec : EqDecision field_direction.
Proof. solve_decision. Defined.
Definition field_direction_code (d : field_direction) : string := match d with ClientOnly => "field_client_only" | ActiveOnly => "field_active_only" | FieldChanged => "field_changed" end.

Definition reconcileClientToActive (changed unpushed : list string) (serverLabel : string) (differences : list (string * string * field_direction * string)) : list DeploymentFinding :=
  let finding code parts severity phase owner model field said :=
    mkFinding (finding_id (Some "client_to_active" :: Some code :: parts)) code CatCompatibility severity ClientToActive phase owner (Some model) field None None None said None in
  ((λ d : string * string * field_direction * string, let '(model, field, direction, detail) := d in
      let active_only := bool_decide (direction = ActiveOnly) in
      finding (field_direction_code direction) [Some model; Some field] (if active_only then SevWarning else SevError)
        (if active_only then PhVerify else PhDualWrite) OwnApplication model (Some field) [model; field; detail; serverLabel]) <$> differences)
  ++ ((λ model, finding "model_changed" [Some model] SevWarning PhVerify OwnApplication model None [model; serverLabel]) <$> changed)
  ++ ((λ model, finding "model_unpushed" [Some model] SevError PhDualWrite OwnAblo model None [model; serverLabel]) <$> unpushed).

(** ** Manifests *)

Inductive gate_status := GatePending | GateReady | GateSatisfied.
#[export] Instance gate_status_eq_dec : EqDecision gate_status.
Proof. solve_decision. Defined.
Definition gate_status_text (s : gate_status) : string := match s with GatePending => "pending" | GateReady => "ready" | GateSatisfied => "satisfied" end.

Record DeploymentGate := mkGate {
  g_id : string; g_phase : DeploymentPhase; g_owner : DeploymentOwner; g_resource : string;
  g_status : gate_status; g_dependsOn : list string; g_approval : option string;
}.
Record DeploymentManifest := mkManifest { mf_id : string; mf_live : bool; mf_targetPhase : DeploymentPhase; mf_gates : list DeploymentGate }.

(** The index of a phase among those of a manifest. *)
Definition phase_index (p : DeploymentPhase) : Z :=
  match p with PhExpand => 0 | PhDualWrite => 1 | PhBackfill => 2 | PhVerify => 3 | PhSwitch => 4 | PhContract => 5 | _ => -1 end.

(** The first part of [resource.split('.')] and the rest, if there is a dot. *)
Fixpoint split_resource (s : string) : string * option string :=
  match s with
  | EmptyString => (EmptyString, None)
  | String c s => if Ascii.eqb c (Ascii.ascii_of_N 46) then (EmptyString, Some s) else let '(a, b) := split_resource s in (String c a, b)
  end.

(** The gate of an id: of two with one id the later. *)
Definition gate_of (gates : list DeploymentGate) (id : string) : option DeploymentGate := map_get id (foldl (λ m g, map_set (g_id g) g m) [] gates).
Definition unmet (gates : list DeploymentGate) (g : DeploymentGate) : list string :=
  List.filter (λ d, negb (bool_decide ((g_status <$> gate_of gates d) = Some GateSatisfied))) (g_dependsOn g).

Definition gate_finding (m : DeploymentManifest) (g : DeploymentGate) : DeploymentFinding :=
  let waiting := unmet (mf_gates m) g in
  let contractWithoutApproval := bool_decide (g_phase g = PhContract) && negb (match g_approval g with Some (String _ _) => true | _ => false end) in
  let future := phase_index (mf_targetPhase m) <? phase_index (g_phase g) in
  let blocked := negb future && (bool_decide (g_status g = GatePending) || negb (bool_decide (waiting = [])) || contractWithoutApproval) in
  let '(model, field) := split_resource (g_resource g) in
  mkFinding (finding_id [Some "manifest"; Some (mf_id m); Some (g_id g)])
    (if future then "lifecycle_future" else if contractWithoutApproval then "contract_approval_required"
     else if bool_decide (waiting = []) then "lifecycle_" +:+ gate_status_text (g_status g) else "lifecycle_dependency_unsatisfied")
    (match g_phase g with PhContract => CatDestructiveContract | PhBackfill => CatDataMovement | _ => CatCompatibility end)
    (if blocked then SevBlocker else if future || bool_decide (g_status g = GateSatisfied) then SevInfo else SevWarning)
    SourceToActive (g_phase g) (g_owner g) (Some model) field None None None (g_id g :: waiting)
    (Some ((λ d, finding_id [Some "manifest"; Some (mf_id m); Some d]) <$> g_dependsOn g)).

(** The resources of the gates, each where it first occurs. *)
Definition resources (gates : list DeploymentGate) : list string := foldl (λ acc g, set_add (g_resource g) acc) [] gates.

Definition mixed_finding (m : DeploymentManifest) (resource : string) : option DeploymentFinding :=
  let has phase := existsb (λ g, String.eqb (g_resource g) resource && bool_decide (g_phase g = phase)) (mf_gates m) in
  if has PhExpand && has PhContract then
    let '(model, field) := split_resource resource in
    Some (mkFinding (finding_id [Some "manifest"; Some (mf_id m); Some resource; Some "mixed_expand_contract"]) "mixed_expand_contract" CatDestructiveContract SevBlocker
            SourceToActive PhContract OwnApplication (Some model) field None None None [resource] None)
  else None.

Definition reconcileDeploymentManifest (manifest : option DeploymentManifest) : list DeploymentFinding :=
  match manifest with
  | None => []
  | Some m => (gate_finding m <$> mf_gates m) ++ (if mf_live m then omap (mixed_finding m) (resources (mf_gates m)) else [])
  end.
