(* ===== verification/DeploymentPlan.v ===== *)
(** * Deployment plans

    [sequenceDeployment] of [packages/transaction/src/schema/deployment/sequence.ts], and the
    plan and its lifecycle of [deployment/index.ts]. The fingerprint of a plan and the
    texts of its steps are left out. *)
From S2P Require Import Prelude JsData Json JsonText SchemaJson SchemaDiff Ddl Deployment DeploymentChecks.
#[local] Open Scope string_scope.
#[local] Open Scope list_scope.
#[local] Open Scope Z_scope.

(** ** Steps *)

Inductive step_status := StReady | StBlocked | StAdvisory.
#[export] Instance step_status_eq_dec : EqDecision step_status.
Proof. solve_decision. Defined.

Record DeploymentStep := mkStep {
  ds_id : string;
  ds_phase : DeploymentPhase;
  ds_owner : DeploymentOwner;
  ds_dependsOn : list string;
  ds_findingIds : list string;
  ds_status : step_status;
  ds_executableByAblo : bool;
}.

Definition PHASES : list DeploymentPhase := [PhIntent; PhExpand; PhDualWrite; PhBackfill; PhVerify; PhSwitch; PhContract; PhRecover].
Definition phase_text (p : DeploymentPhase) : string :=
  match p with
  | PhIntent => "intent" | PhExpand => "expand" | PhDualWrite => "dual_write" | PhBackfill => "backfill"
  | PhVerify => "verify" | PhSwitch => "switch" | PhContract => "contract" | PhRecover => "recover"
  end.
Definition owner_text (o : DeploymentOwner) : string :=
  match o with OwnApplication => "application" | OwnApplicationMigration => "application_migration" | OwnAblo => "ablo" end.

Definition blocking (f : DeploymentFinding) : bool := bool_decide (df_severity f = SevBlocker) || bool_decide (df_severity f = SevError).

Definition statusOf (findings : list DeploymentFinding) : step_status :=
  if existsb blocking findings then StBlocked
  else if existsb (λ f, String.eqb (df_code f) "lifecycle_ready") findings then StReady
  else if forallb (λ f, bool_decide (df_severity f = SevWarning) || bool_decide (df_severity f = SevInfo)) findings then StAdvisory
  else StReady.

Definition executable (owner : DeploymentOwner) (status : step_status) : bool := bool_decide (owner = OwnAblo) && bool_decide (status = StReady).

Definition manifestStep (f : DeploymentFinding) : DeploymentStep :=
  let status := statusOf [f] in
  mkStep (df_id f) (df_phase f) (df_owner f) (default [] (df_dependsOn f)) [df_id f] status (executable (df_owner f) status).

Definition groupedStep (phase : DeploymentPhase) (findings : list DeploymentFinding) (owner : DeploymentOwner) : DeploymentStep :=
  let mine := List.filter (λ f, bool_decide (df_owner f = owner)) findings in
  let status := statusOf mine in
  mkStep (phase_text phase +:+ ":" +:+ owner_text owner) phase owner [] (df_id <$> mine) status (executable owner status).

(** The owners of some findings, each where it first occurs. *)
Definition owners (findings : list DeploymentFinding) : list DeploymentOwner :=
  foldl (λ acc f, if bool_decide (df_owner f ∈ acc) then acc else acc ++ [df_owner f]) [] findings.

Definition of_manifest (f : DeploymentFinding) : bool := String.prefix "manifest:" (df_id f).

Definition phase_steps (findings : list DeploymentFinding) (phase : DeploymentPhase) : list DeploymentStep :=
  let here := List.filter (λ f, bool_decide (df_phase f = phase)) findings in
  let ordinary := List.filter (λ f, negb (of_manifest f)) here in
  (manifestStep <$> List.filter of_manifest here) ++ (groupedStep phase ordinary <$> owners ordinary).

(** A step without dependencies of its own waits for the phase before. *)
Definition with_barrier (previous : list string) (s : DeploymentStep) : DeploymentStep :=
  mkStep (ds_id s) (ds_phase s) (ds_owner s) (to_set (ds_dependsOn s ++ match ds_dependsOn s with [] => previous | _ => [] end))
    (ds_findingIds s) (ds_status s) (ds_executableByAblo s).

Fixpoint sequence_from (phases : list DeploymentPhase) (previous : list string) (findings : list DeploymentFinding) : list DeploymentStep :=
  match phases with
  | [] => []
  | phase :: phases =>
      let steps := phase_steps findings phase in
      (with_barrier previous <$> steps) ++ sequence_from phases (match steps with [] => previous | _ => ds_id <$> steps end) findings
  end.

Definition sequenceDeployment (findings : list DeploymentFinding) : list DeploymentStep := sequence_from PHASES [] findings.

(** ** The plan *)

Record ActiveSchema := mkActive { as_schemaId : string; as_version : Z; as_hash : string; as_schema : SchemaJSON }.
Record DeploymentIntent := mkIntent { in_renames : RenameHints; in_backfills : list BackfillValue; in_acceptDestructive : bool; in_manifest : option DeploymentManifest }.
Definition no_intent : DeploymentIntent := mkIntent no_hints [] false None.
Record DeploymentObservation := mkObservation {
  ob_source : SchemaJSON;
  ob_active : option ActiveSchema;
  ob_database : option DatabaseSnapshot;
  ob_intent : DeploymentIntent;
  ob_supplemental : list DeploymentFinding;
}.

Inductive plan_outcome := OutAligned | OutReady | OutBlocked.
#[export] Instance plan_outcome_eq_dec : EqDecision plan_outcome.
Proof. solve_decision. Defined.

Record SchemaDeploymentPlan := mkDeployment {
  pl_findings : list DeploymentFinding;
  pl_steps : list DeploymentStep;
  pl_sourceToActive : list MigrationStep;
  pl_provision : list MigrationStep;
  pl_outcome : plan_outcome;
  pl_rollback : option (string * Z * string);
}.

(** [JSON.stringify] writes a missing entry as [null]. *)
Definition evidence_entry (e : option evidence) : option evidence := match e with Some EvNull => None | e => e end.
Definition physicalEvidenceKey (f : DeploymentFinding) :=
  (df_code f, df_category f, df_severity f, df_phase f, df_owner f, (df_model f, df_field f, df_column f, evidence_entry (df_from f), evidence_entry (df_to f), df_said f)).
Definition physicalResourceKey (f : DeploymentFinding) := (df_model f, df_column f, df_field f).

(** The findings about the active schema that say something new, and those that say the
    candidate is already there. *)
Definition retained (source : list DeploymentFinding) (f : DeploymentFinding) : bool :=
  negb (bool_decide (physicalEvidenceKey f ∈ (physicalEvidenceKey <$> source))) && bool_decide (physicalResourceKey f ∈ (physicalResourceKey <$> source)).
Definition already_aligned (source : list DeploymentFinding) (f : DeploymentFinding) : bool :=
  negb (bool_decide (physicalEvidenceKey f ∈ (physicalEvidenceKey <$> source))) && negb (bool_decide (physicalResourceKey f ∈ (physicalResourceKey <$> source))).

Definition alignment_evidence (database : option DatabaseSnapshot) (l : list DeploymentFinding) : list DeploymentFinding :=
  match l with
  | [] => []
  | _ => [mkFinding "active_to_database:candidate_alignment_verified" "candidate_alignment_verified" CatObservation SevInfo ActiveToDatabase PhVerify (verifier database)
            None None None (Some (EvCount "activePhysicalDifferences" (Z.of_nat (length l)))) (Some (EvText "source_database_alignment")) [] None]
  end.

Definition source_to_active (o : DeploymentObservation) : list MigrationStep * list DeploymentFinding :=
  reconcileSourceToActiveResult (as_schema <$> ob_active o) (ob_source o) (in_renames (ob_intent o)) (in_backfills (ob_intent o)) (ob_database o).

Definition all_findings (o : DeploymentObservation) : list DeploymentFinding :=
  let sourceToDatabase := reconcileSchemaToDatabase (ob_source o) (ob_database o) SourceToDatabase in
  let activeDatabase := match ob_active o with Some a => reconcileSchemaToDatabase (as_schema a) (ob_database o) ActiveToDatabase | None => [] end in
  reconcilePolicyIntent (ob_source o) ++ reconcileDeploymentManifest (in_manifest (ob_intent o)) ++ (source_to_active o).2 ++ sourceToDatabase
  ++ List.filter (retained sourceToDatabase) activeDatabase ++ alignment_evidence (ob_database o) (List.filter (already_aligned sourceToDatabase) activeDatabase)
  ++ ob_supplemental o.

(** [[...new Map(findings.map((finding) => [finding.id, finding])).values()]] *)
Definition unique_findings (l : list DeploymentFinding) : list DeploymentFinding := (foldl (λ m f, map_set (df_id f) f m) [] l).*2.

Definition accept (acceptDestructive : bool) (f : DeploymentFinding) : DeploymentFinding :=
  if acceptDestructive && bool_decide (df_category f = CatDestructiveContract)
     && negb (bool_decide (df_code f ∈ ["mixed_expand_contract"; "contract_approval_required"; "lifecycle_dependency_unsatisfied"]))
  then mkFinding (df_id f) (df_code f) (df_category f) SevWarning (df_direction f) (df_phase f) (df_owner f) (df_model f) (df_field f) (df_column f) (df_from f) (df_to f) (df_said f) (df_dependsOn f)
  else f.

Definition buildSchemaDeploymentPlan (o : DeploymentObservation) : SchemaDeploymentPlan :=
  let unique := accept (in_acceptDestructive (ob_intent o)) <$> unique_findings (all_findings o) in
  mkDeployment unique (sequenceDeployment unique) (source_to_active o).1
    (reconcileSourceToActiveResult None (ob_source o) no_hints [] None).1
    (if existsb blocking unique then OutBlocked
     else if existsb (λ f, negb (bool_decide (df_category f = CatAdvisory))) unique then OutReady else OutAligned)
    (match ob_active o with
     | Some a => if existsb (λ f, bool_decide (df_category f = CatDestructiveContract)) unique then None else Some (as_schemaId a, as_version a, as_hash a)
     | None => None
     end).

(** ** The lifecycle *)

(** The effects: the observation before and after, the answer of the approval where there
    is one, whether there is an effect that applies, and the step at which it throws. *)
Record lifecycle_effects := mkEffects {
  ef_observe : DeploymentObservation;
  ef_approve : option bool;
  ef_apply : bool;
  ef_fails_at : option string;
  ef_observe_again : DeploymentObservation;
  ef_record : bool;
}.

Inductive lifecycle_result :=
  | Planned (plan : SchemaDeploymentPlan)
  | Applied (plan : SchemaDeploymentPlan) (applied : list string) (verification : SchemaDeploymentPlan) (recorded : bool)
  | Refused (applied : list string).

Definition to_apply (plan : SchemaDeploymentPlan) : list string :=
  omap (λ s, if ds_executableByAblo s && bool_decide (ds_status s = StReady) then Some (ds_id s) else None) (pl_steps plan).

(** The steps that were applied before one threw, if one did. *)
Fixpoint apply_until (fails_at : option string) (ids : list string) : list string * bool :=
  match ids with
  | [] => ([], true)
  | i :: ids => if bool_decide (fails_at = Some i) then ([], false) else let '(l, b) := apply_until fails_at ids in (i :: l, b)
  end.

Definition runSchemaDeploymentLifecycle (e : lifecycle_effects) (apply : bool) : lifecycle_result :=
  let plan := buildSchemaDeploymentPlan (ef_observe e) in
  if negb apply then Planned plan
  else if bool_decide (pl_outcome plan = OutBlocked) then Refused []
  else if negb (ef_apply e) then Refused []
  else if bool_decide (ef_approve e = Some false) then Refused []
  else
    let '(applied, whole) := apply_until (ef_fails_at e) (to_apply plan) in
    if whole then Applied plan applied (buildSchemaDeploymentPlan (ef_observe_again e)) (ef_record e) else Refused applied.
