(* ===== verification/DeploymentFacts.v ===== *)
(** * What a deployment plan promises

    Which signals block a plan, what an unblocked plan has answered, and how findings
    become steps in the order of their phases. *)
From S2P Require Import Prelude JsData Json JsonText SchemaJson SchemaDiff SchemaDiffFacts SchemaRisk Ddl Deployment DeploymentChecks DeploymentPlan.
From Stdlib Require Import Sorted.
#[local] Open Scope string_scope.
#[local] Open Scope list_scope.
#[local] Open Scope Z_scope.

(** ** What blocks *)

Lemma existsb_elem {A} (p : A → bool) (l : list A) : existsb p l = true ↔ ∃ x, x ∈ l ∧ p x = true.
Proof. rewrite existsb_exists. by setoid_rewrite list_elem_of_In. Qed.

Lemma elem_filter_b {A} (p : A → bool) (l : list A) x : x ∈ List.filter p l ↔ x ∈ l ∧ p x = true.
Proof. by rewrite !list_elem_of_In, filter_In. Qed.

Lemma evidence_not_blocking code category severity owner what to signals :
  severity = SevInfo ∨ severity = SevWarning → existsb blocking (evidence_finding code category severity owner what to signals) = false.
Proof. intros Hs. unfold evidence_finding. destruct signals; [done|]. by destruct Hs as [-> | ->]. Qed.

Lemma signal_blocks s d : blocking (signalFinding s d) = true.
Proof. unfold blocking, signalFinding. cbn [df_severity]. by destruct (sg_code s). Qed.

Lemma step_finding_blocks step f : stepFinding step = Some f → blocking f = true →
  ∃ model field meta, step = add_field model field meta ∧ f_isOptional meta = false ∧ df_model f = Some model ∧ df_field f = Some field ∧ df_code f = "add_field" ∧ df_severity f = SevBlocker.
Proof.
  destruct step as [m t|m t|a b|m fl meta|m fl|m a b|m fl ch]; simpl; intros [= <-]; simpl; try done.
  unfold blocking. simpl. destruct (f_isOptional meta) eqn:E; [done|]. intros _. exists m, fl, meta. by rewrite E.
Qed.

Lemma elem_unexecutable_add steps model field meta :
  add_field model field meta ∈ steps → f_isOptional meta = false → mkSignal SigRequiredFieldAdded model (Some field) ∈ unexecutable (classifyMigration steps).
Proof.
  intros Hin Ho. unfold classifyMigration. cbn [unexecutable]. apply list_elem_of_In, in_concat.
  exists (step_unexecutable (add_field model field meta)). rewrite <- !list_elem_of_In. split; [by apply list_elem_of_fmap_2|]. simpl. rewrite Ho. left.
Qed.

(** A change from the active schema to the candidate blocks a plan for unanswered
    signals and for nothing else: one of the findings is a blocker or an error exactly when
    a blocker is neither backfilled nor enforced by the database already, or a warning is
    neither carried out there nor about a table the application keeps. *)
Theorem unanswered_signals_block active source hints backfills database :
  let c := classifyMigration (diffSchema active source hints) in
  existsb blocking (reconcileSourceToActiveResult active source hints backfills database).2 = true ↔
  (∃ s, s ∈ unexecutable c ∧ isBlockerResolved s backfills = false ∧ databaseSatisfiesRequiredField s source database = false)
  ∨ (∃ s, s ∈ warnings c ∧ databaseSatisfiesRiskyCast s source database = false ∧ databasePreservesRemovedApplicationModel s active source database = false).
Proof.
  intros c. unfold reconcileSourceToActiveResult. cbv zeta. fold c. cbn [snd]. rewrite !existsb_app, !orb_true_iff.
  rewrite !evidence_not_blocking by ((by left) || (by right)). rewrite !existsb_elem.
  assert (Hb : ∀ s, s ∈ unresolvedBlockers c backfills ↔ s ∈ unexecutable c ∧ isBlockerResolved s backfills = false).
  { intros s. unfold unresolvedBlockers. by rewrite elem_filter_b, negb_true_iff. }
  split.
  - intros [(f & Hf & Hbl)|[[=]|[[=]|[[=]|(f & Hf & Hbl)]]]].
    + apply list_elem_of_fmap in Hf as (s & -> & Hs). rewrite elem_of_app, !elem_filter_b, !negb_true_iff, orb_false_iff, Hb in Hs.
      destruct Hs as [[[H1 H2] H3]|[H1 [H2 H3]]]; [left|right]; by exists s.
    + exfalso. apply list_elem_of_fmap in Hf as (g & -> & Hg). apply elem_filter_b in Hg as [Hg Hloc]. apply negb_true_iff in Hloc. bool_simpl.
      apply list_elem_of_omap in Hg as (step & Hstep & Eg).
      assert (Hgb : blocking g = true) by (revert Hbl; unfold with_backfill; destruct (_ && _); [done|done]).
      destruct (step_finding_blocks step g Eg Hgb) as (model & field & meta & -> & Ho & Hm & Hfl & Hc & Hsev).
      pose proof (elem_unexecutable_add _ _ _ _ Hstep Ho) as Hsig. fold c in Hsig.
      destruct (isBlockerResolved (mkSignal SigRequiredFieldAdded model (Some field)) backfills) eqn:Er.
      * assert (Hbf : has_backfill backfills g = true).
        { unfold has_backfill. rewrite Hm, Hfl. unfold isBlockerResolved in Er. cbn [sg_code sg_model sg_field] in Er. simpl in Er.
          apply existsb_exists in Er as (b & Hb1 & [H1 H2]%andb_true_iff). bool_simpl. apply existsb_exists. exists b. split; [done|]. rewrite H1. simpl. apply String.eqb_eq. congruence. }
        unfold with_backfill in Hbl. rewrite Hbf, Hc, Hsev in Hbl. done.
      * apply Hloc. rewrite Hm, Hfl. apply list_elem_of_fmap. exists (mkSignal SigRequiredFieldAdded model (Some field)). split; [done|].
        rewrite elem_of_app. left. by apply Hb.
  - intros [(s & Hs & H1 & H2)|(s & Hs & H1 & H2)]; left; exists (signalFinding s SourceToActive); (split; [|by apply signal_blocks]); apply list_elem_of_fmap; exists s; (split; [done|]);
      rewrite elem_of_app, !elem_filter_b, !negb_true_iff, orb_false_iff, Hb; naive_solver.
Qed.

(** ** What an unblocked plan has answered *)

Lemma unique_keeps l : NoDup (df_id <$> l) → unique_findings l = l.
Proof.
  unfold unique_findings. assert (H : ∀ acc : list (string * DeploymentFinding), NoDup (acc.*1 ++ (df_id <$> l)) → (foldl (λ m f, map_set (df_id f) f m) acc l).*2 = acc.*2 ++ l).
  { induction l as [|f l IH]; intros acc Hn; [by rewrite app_nil_r|]. rewrite fmap_cons in Hn. cbn [foldl].
    assert (Hf : df_id f ∉ acc.*1) by (apply NoDup_app in Hn as (_ & Hd & _); intros Hin; by apply (Hd _ Hin); left).
    rewrite map_set_fresh by done. rewrite IH; [by rewrite fmap_app, <- app_assoc|]. rewrite fmap_app, <- app_assoc. exact Hn. }
  intros Hn. by apply (H []).
Qed.

(** What the database has of a model, where the application migrates it. *)
Definition column_stands (table : DatabaseTableSnapshot) (model : ModelJSON) (rc : required_column) : Prop :=
  ∃ c, map_get (rc_column rc) (dt_columns table) = Some c
       ∧ normalizePgType (dc_dataType c) = rc_type rc ∧ (rc_nullable rc = false → dc_nullable c = false)
       ∧ (rc_primary rc = true → dc_primary c = true ∨ dc_unique c = true)
       ∧ (org_column model = Some (rc_column rc) → ∀ n, dc_nullCount c = Some n → n ≤ 0).
Definition database_stands (schema : SchemaJSON) (db : DatabaseSnapshot) : Prop :=
  ∀ key model, (key, model) ∈ s_models schema → is_control model = false →
    ∃ table, map_get (tableNameOf model key) (db_tables db) = Some table ∧ ∀ rc, rc ∈ requiredColumns model → column_stands table model rc.

(** A gate that is due is no longer pending, or contracts with destruction accepted; what it
    depends on is satisfied, and a contraction is approved. *)
Definition gate_due_and_met (accepted : bool) (m : DeploymentManifest) (g : DeploymentGate) : Prop :=
  phase_index (g_phase g) ≤ phase_index (mf_targetPhase m) →
  (g_status g ≠ GatePending ∨ accepted = true ∧ g_phase g = PhContract) ∧ (∀ d, d ∈ g_dependsOn g → (g_status <$> gate_of (mf_gates m) d) = Some GateSatisfied)
  ∧ (g_phase g = PhContract → ∃ a, g_approval g = Some a ∧ a ≠ "").

Lemma not_blocking_not l f : existsb blocking l = false → f ∈ l → blocking f = false.
Proof. intros H Hf. destruct (blocking f) eqn:E; [|done]. assert (existsb blocking l = true) by (apply existsb_elem; eauto). congruence. Qed.

Lemma existsb_concat {A B} (p : B → bool) (g : A → list B) (l : list A) : existsb p (concat (g <$> l)) = false → ∀ x, x ∈ l → existsb p (g x) = false.
Proof.
  intros H x Hx. destruct (existsb p (g x)) eqn:E; [|done]. apply existsb_elem in E as (y & Hy & Hp).
  assert (existsb p (concat (g <$> l)) = true); [|congruence]. apply existsb_elem. exists y. split; [|done].
  apply list_elem_of_In, in_concat. exists (g x). rewrite <- !list_elem_of_In. split; [by apply list_elem_of_fmap_2|done].
Qed.

Lemma column_ok db direction key model tableName table rc :
  db_ownership db = ByApplication → existsb blocking (column_findings db direction key model tableName table rc) = false → column_stands table model rc.
Proof.
  intros Hown. unfold column_findings, missing_severity, by_ablo, column_stands. rewrite Hown. destruct (map_get (rc_column rc) (dt_columns table)) as [c|]; [|done].
  rewrite !existsb_app. intros H. repeat match goal with H : _ || _ = false |- _ => apply orb_false_iff in H as [? H] end. exists c. split_and!; [done| | | |].
  - destruct (String.eqb_spec (normalizePgType (dc_dataType c)) (rc_type rc)); done.
  - intros Hn. rewrite Hn in *. by destruct (dc_nullable c).
  - intros Hp. rewrite Hp in *. destruct (dc_primary c); [by left|]. destruct (dc_unique c); [by right|done].
  - intros Ho n Hc. rewrite Hc, (bool_decide_true (Some (rc_column rc) = _)) in * by done. simpl in *. destruct (Z.ltb_spec 0 n); [done|lia].
Qed.

Lemma physical_stands schema db direction :
  db_ownership db = ByApplication → existsb blocking (physicalFindings schema db direction) = false → database_stands schema db.
Proof.
  intros Hown Hb key model Hin Hc. unfold physicalFindings in Hb. pose proof (existsb_concat _ _ _ Hb (key, model) Hin) as Hm. unfold model_findings in Hm. rewrite Hc in Hm.
  destruct (map_get (tableNameOf model key) (db_tables db)) as [table|]; [|unfold missing_severity, by_ablo in Hm; by rewrite Hown in Hm].
  exists table. split; [done|]. intros rc Hrc. rewrite existsb_app in Hm. apply orb_false_iff in Hm as [Hm _]. pose proof (existsb_concat _ _ _ Hm rc Hrc). by eapply column_ok.
Qed.

(** *** Findings that acceptance lets through *)

Definition forgiven (accepted : bool) (f : DeploymentFinding) : Prop :=
  accepted = true ∧ df_category f = CatDestructiveContract
  ∧ df_code f ∉ ["mixed_expand_contract"; "contract_approval_required"; "lifecycle_dependency_unsatisfied"].
Definition let_through (accepted : bool) (f : DeploymentFinding) : Prop := blocking f = true → forgiven accepted f.

Lemma accept_blocks accepted f : blocking (accept accepted f) = false → let_through accepted f.
Proof.
  unfold accept, let_through. destruct (_ && _ && _) eqn:E; [|congruence]. intros _ _. bool_simpl. by split_and!.
Qed.

Lemma unblocked_findings o :
  NoDup (df_id <$> all_findings o) → pl_outcome (buildSchemaDeploymentPlan o) ≠ OutBlocked →
  ∀ f, f ∈ all_findings o → let_through (in_acceptDestructive (ob_intent o)) f.
Proof.
  intros Hn Ho f Hf. apply accept_blocks. unfold buildSchemaDeploymentPlan in Ho. cbn [pl_outcome] in Ho. rewrite (unique_keeps _ Hn) in Ho.
  destruct (existsb blocking _) eqn:E in Ho; [done|]. eapply not_blocking_not; [exact E|]. by apply list_elem_of_fmap_2.
Qed.

(** A finding of another category is let through only where it does not block. *)
Lemma other_not_blocking accepted (l : list DeploymentFinding) :
  Forall (λ f, df_category f ≠ CatDestructiveContract) l → (∀ f, f ∈ l → let_through accepted f) → existsb blocking l = false.
Proof.
  rewrite Forall_forall. intros Hc Hl. apply not_true_iff_false. intros (f & Hf & Hb)%existsb_elem. destruct (Hl f Hf Hb) as (_ & H & _). by apply (Hc f).
Qed.

Ltac none_destructive :=
  repeat match goal with
  | |- Forall _ (if ?b then _ else _) => destruct b
  | |- Forall _ (match ?x with Some _ => _ | None => _ end) => destruct x
  | |- Forall _ (_ ++ _) => apply Forall_app; split
  | |- Forall _ (_ :: _) => constructor; [done|]
  | |- Forall _ [] => constructor
  end.

Lemma physical_not_destructive schema db direction : Forall (λ f, df_category f ≠ CatDestructiveContract) (physicalFindings schema db direction).
Proof.
  unfold physicalFindings. apply Forall_concat, Forall_fmap, Forall_forall. intros [key model] _. unfold compose, model_findings.
  destruct (is_control model); [constructor|]. destruct (map_get _ _) as [table|]; [|by repeat constructor]. rewrite !Forall_app. split_and!.
  - apply Forall_concat, Forall_fmap, Forall_forall. intros rc _. unfold compose, column_findings. none_destructive.
  - apply Forall_forall. intros f (x & _ & E)%list_elem_of_omap. destruct (is_Some_b _); [done|]. by injection E as <-.
  - apply Forall_forall. intros f (x & _ & E)%list_elem_of_omap. cbv zeta in E. repeat case_match; try done; by injection E as <-.
  - apply Forall_forall. intros f (x & _ & E)%list_elem_of_omap. cbv zeta in E. repeat case_match; try done; by injection E as <-.
  - unfold table_findings. none_destructive.
Qed.

Lemma gate_met accepted m g : let_through accepted (gate_finding m g) → gate_due_and_met accepted m g.
Proof.
  unfold gate_finding, gate_due_and_met, let_through, forgiven. destruct (split_resource (g_resource g)) as [a b]. unfold blocking. cbn [df_severity df_category df_code]. intros H Hdue.
  rewrite (proj2 (Z.ltb_ge (phase_index (mf_targetPhase m)) (phase_index (g_phase g))) Hdue) in H. cbn [negb andb orb] in H.
  set (unapproved := bool_decide (g_phase g = PhContract) && negb _) in H.
  assert (Hun : unapproved = false).
  { destruct unapproved; [|done]. rewrite !orb_true_r in H. destruct (H eq_refl) as (_ & _ & Hc). exfalso. apply Hc. set_solver. }
  rewrite Hun, orb_false_r in H. cbn [andb] in H.
  assert (Hw : unmet (mf_gates m) g = []).
  { destruct (bool_decide (unmet (mf_gates m) g = [])) eqn:E; [by bool_simpl|]. rewrite orb_true_r in H. destruct (H eq_refl) as (_ & _ & Hc). exfalso. apply Hc. set_solver. }
  rewrite (bool_decide_true (unmet _ _ = []) Hw), orb_false_r in H. split_and!.
  - destruct (bool_decide (g_status g = GatePending)) eqn:E; [|left; by bool_simpl]. destruct (H eq_refl) as (Ha & Hc & _). right. split; [done|]. by destruct (g_phase g).
  - intros d Hd. destruct (decide ((g_status <$> gate_of (mf_gates m) d) = Some GateSatisfied)) as [|Hne]; [done|]. exfalso.
    assert (Hin : d ∈ unmet (mf_gates m) g); [|rewrite Hw in Hin; by apply elem_of_nil in Hin]. unfold unmet. apply elem_filter_b. split; [done|]. by rewrite bool_decide_false.
  - intros Hp. unfold unapproved in Hun. rewrite bool_decide_true in Hun by done. destruct (g_approval g) as [[|c s]|]; try done. by eexists.
Qed.

(** The signals of a change that nothing answers are among its findings. *)
Lemma signal_listed active source hints backfills database s :
  let c := classifyMigration (diffSchema active source hints) in
  (s ∈ unexecutable c ∧ isBlockerResolved s backfills = false ∧ databaseSatisfiesRequiredField s source database = false)
  ∨ (s ∈ warnings c ∧ databaseSatisfiesRiskyCast s source database = false ∧ databasePreservesRemovedApplicationModel s active source database = false) →
  signalFinding s SourceToActive ∈ (reconcileSourceToActiveResult active source hints backfills database).2.
Proof.
  intros c H. unfold reconcileSourceToActiveResult. cbv zeta. fold c. cbn [snd]. apply elem_of_app. left.
  apply list_elem_of_fmap. exists s. split; [done|]. rewrite elem_of_app, !elem_filter_b, !negb_true_iff, orb_false_iff. unfold unresolvedBlockers. rewrite elem_filter_b, negb_true_iff. tauto.
Qed.

Lemma blocker_not_destructive steps s : s ∈ unexecutable (classifyMigration steps) → destructive (sg_code s) = false.
Proof.
  unfold classifyMigration. cbn [unexecutable]. intros H%list_elem_of_In%in_concat. destruct H as (l & Hl & Hs). apply list_elem_of_In in Hl, Hs.
  apply list_elem_of_fmap in Hl as (step & -> & _). destruct step as [| | |m f meta| | |m f ch]; simpl in Hs; try by apply elem_of_nil in Hs.
  - destruct (f_isOptional meta); [by apply elem_of_nil in Hs|]. by apply list_elem_of_singleton in Hs as ->.
  - destruct (ch_nullability ch) as [[[] []]|]; try by apply elem_of_nil in Hs. by apply list_elem_of_singleton in Hs as ->.
Qed.

(** C24: a plan that is not blocked, and no two of whose findings have one id, has an answer
    for everything the observation asks: each blocker of the change is backfilled or
    enforced by the database; each destructive change is accepted in advance, carried out or
    about a table that stays; each gate of the manifest that is due is met, its dependencies
    are satisfied and a contraction is approved, and only a contraction may still be pending
    where destruction was accepted; no model routes changes beyond its access policy; the
    database was observed, and where the application owns it every required column is there
    with its type and without nulls it must not have. *)
Theorem unblocked_plan_is_answered o :
  NoDup (df_id <$> all_findings o) → pl_outcome (buildSchemaDeploymentPlan o) ≠ OutBlocked →
  let c := classifyMigration (pl_sourceToActive (buildSchemaDeploymentPlan o)) in
  let accepted := in_acceptDestructive (ob_intent o) in
  (∀ s, s ∈ unexecutable c → isBlockerResolved s (in_backfills (ob_intent o)) = true ∨ databaseSatisfiesRequiredField s (ob_source o) (ob_database o) = true)
  ∧ (∀ s, s ∈ warnings c → accepted = true ∨ databaseSatisfiesRiskyCast s (ob_source o) (ob_database o) = true
                           ∨ databasePreservesRemovedApplicationModel s (as_schema <$> ob_active o) (ob_source o) (ob_database o) = true)
  ∧ (∀ m g, in_manifest (ob_intent o) = Some m → g ∈ mf_gates m → gate_due_and_met accepted m g)
  ∧ auditSchemaAccessPolicies (ob_source o) = []
  ∧ ∃ db, ob_database o = Some db ∧ (db_ownership db = ByApplication → database_stands (ob_source o) db).
Proof.
  intros Hn Ho c accepted. pose proof (unblocked_findings o Hn Ho) as Hall. fold accepted in Hall. unfold all_findings in Hall. cbv zeta in Hall.
  assert (Hsig : ∀ s, signalFinding s SourceToActive ∈ (source_to_active o).2 → accepted = true ∧ destructive (sg_code s) = true).
  { intros s Hs. destruct (Hall (signalFinding s SourceToActive)) as (Ha & Hc & _); [rewrite !elem_of_app; tauto|apply signal_blocks|].
    split; [done|]. unfold signalFinding in Hc. cbn [df_category] in Hc. by destruct (destructive (sg_code s)). }
  split_and!.
  - intros s Hs. destruct (isBlockerResolved s _) eqn:E1; [by left|]. destruct (databaseSatisfiesRequiredField s _ _) eqn:E2; [by right|]. exfalso.
    destruct (Hsig s) as [_ Hd]; [apply signal_listed; by left|]. by rewrite (blocker_not_destructive _ s Hs) in Hd.
  - intros s Hs. destruct (databaseSatisfiesRiskyCast s _ _) eqn:E1; [auto|]. destruct (databasePreservesRemovedApplicationModel s _ _ _) eqn:E2; [auto|].
    left. apply (Hsig s), signal_listed. by right.
  - intros m g Hm Hg. apply gate_met, Hall. rewrite !elem_of_app. right; left. rewrite Hm. cbn [reconcileDeploymentManifest]. apply elem_of_app. left. by apply list_elem_of_fmap_2.
  - destruct (auditSchemaAccessPolicies (ob_source o)) as [|x l] eqn:E; [done|]. exfalso.
    assert (Hb : existsb blocking (reconcilePolicyIntent (ob_source o)) = false).
    { apply (other_not_blocking accepted); [by apply Forall_fmap, Forall_forall|]. intros f Hf. apply Hall. rewrite !elem_of_app. by left. }
    unfold reconcilePolicyIntent in Hb. by rewrite E in Hb.
  - assert (Hdb : existsb blocking (reconcileSchemaToDatabase (ob_source o) (ob_database o) SourceToDatabase) = false).
    { apply (other_not_blocking accepted).
      - unfold reconcileSchemaToDatabase. destruct (ob_database o); [apply physical_not_destructive|by repeat constructor].
      - intros f Hf. apply Hall. rewrite !elem_of_app. tauto. }
    destruct (ob_database o) as [db|] eqn:Edb; [|done]. exists db. split; [done|]. intros Hown. by eapply physical_stands.
Qed.

(** ** The order of the steps *)

Lemma concat_add {A B} (eqb : A → bool) (ks : list A) (g : A → list B) (x : B) k :
  NoDup ks → k ∈ ks → (∀ k', eqb k' = true ↔ k' = k) → concat ((λ k', if eqb k' then x :: g k' else g k') <$> ks) ≡ₚ x :: concat (g <$> ks).
Proof.
  intros Hn Hk He. induction ks as [|k' ks IH]; [by apply elem_of_nil in Hk|]. apply NoDup_cons in Hn as [Hk' Hn]. rewrite !fmap_cons. cbn [concat].
  apply elem_of_cons in Hk as [->|Hk].
  - rewrite (proj2 (He k') eq_refl). simpl. assert (E : ((λ k', if eqb k' then x :: g k' else g k') <$> ks) = g <$> ks); [|by rewrite E].
    apply list_fmap_ext. intros i y Hy. destruct (eqb y) eqn:Ey; [|done]. apply He in Ey as ->. exfalso. apply Hk'. by apply list_elem_of_lookup_2 in Hy.
  - destruct (eqb k') eqn:E; [apply He in E as ->; done|]. rewrite (IH Hn Hk). by rewrite Permutation_middle.
Qed.

(** Grouping a list by a key loses nothing. *)
Lemma groups_perm {A B} `{EqDecision A} (key : B → A) (ks : list A) (l : list B) :
  NoDup ks → (∀ x, x ∈ l → key x ∈ ks) → concat ((λ k, List.filter (λ x, bool_decide (key x = k)) l) <$> ks) ≡ₚ l.
Proof.
  intros Hn. induction l as [|x l IH]; intros Hk.
  - clear Hk Hn. induction ks as [|k ks IH]; [done|]. rewrite fmap_cons. simpl. exact IH.
  - transitivity (x :: concat ((λ k, List.filter (λ x, bool_decide (key x = k)) l) <$> ks)); [|by rewrite (IH (λ y Hy, Hk y (list_elem_of_further _ _ _ Hy)))]. cbn [List.filter].
    apply (concat_add (λ k, bool_decide (key x = k)) ks (λ k, List.filter (λ x, bool_decide (key x = k)) l) x (key x) Hn); [apply Hk; left|].
    intros k'. rewrite bool_decide_eq_true. naive_solver.
Qed.

Lemma owners_spec l : NoDup (owners l) ∧ ∀ f, f ∈ l → df_owner f ∈ owners l.
Proof.
  unfold owners. assert (H : ∀ acc, NoDup acc → let o := foldl (λ acc f, if bool_decide (df_owner f ∈ acc) then acc else acc ++ [df_owner f]) acc l in
    NoDup o ∧ (∀ x, x ∈ acc → x ∈ o) ∧ ∀ f, f ∈ l → df_owner f ∈ o).
  { induction l as [|f l IH]; intros acc Hn; cbn [foldl]; cbv zeta; [split_and!; [done|done|by intros f ?%elem_of_nil]|].
    set (acc' := if bool_decide (df_owner f ∈ acc) then acc else acc ++ [df_owner f]).
    assert (Hacc' : NoDup acc' ∧ (∀ x, x ∈ acc → x ∈ acc') ∧ df_owner f ∈ acc').
    { unfold acc'. case_bool_decide; [done|]. split_and!; [apply NoDup_app; split_and!; [done|by intros x ? ->%list_elem_of_singleton|apply NoDup_singleton]|set_solver|set_solver]. }
    destruct Hacc' as (H1 & H2 & H3). destruct (IH acc' H1) as (I1 & I2 & I3). split_and!; [done|auto|]. intros g [->|Hg]%elem_of_cons; auto. }
  destruct (H [] (NoDup_nil_2)) as (H1 & _ & H2). by split.
Qed.

Lemma filter_parts {A} (p : A → bool) (l : list A) : List.filter p l ++ List.filter (λ x, negb (p x)) l ≡ₚ l.
Proof. induction l as [|x l IH]; [done|]. simpl. destruct (p x); simpl; [by rewrite IH|]. by rewrite <- Permutation_middle, IH. Qed.

Lemma phase_conserves findings phase :
  concat (ds_findingIds <$> phase_steps findings phase) ≡ₚ df_id <$> List.filter (λ f, bool_decide (df_phase f = phase)) findings.
Proof.
  unfold phase_steps. set (here := List.filter _ findings). rewrite fmap_app, concat_app, <- !list_fmap_compose.
  transitivity (df_id <$> (List.filter of_manifest here ++ List.filter (λ f, negb (of_manifest f)) here)); [|by rewrite filter_parts]. rewrite fmap_app. f_equiv.
  - unfold compose, manifestStep. cbn [ds_findingIds]. induction (List.filter of_manifest here) as [|f l IH]; [done|]. rewrite !fmap_cons. simpl. by rewrite IH.
  - set (l := List.filter (λ f, negb (of_manifest f)) here). destruct (owners_spec l) as [Hn Ho].
    transitivity (df_id <$> concat ((λ o, List.filter (λ f, bool_decide (df_owner f = o)) l) <$> owners l)); [|by rewrite groups_perm].
    unfold compose, groupedStep. cbn [ds_findingIds]. clear. induction (owners l) as [|o os IH]; [done|]. rewrite !fmap_cons. simpl. by rewrite fmap_app, IH.
Qed.

Lemma phase_steps_phase findings phase s : s ∈ phase_steps findings phase → ds_phase s = phase.
Proof.
  unfold phase_steps. rewrite elem_of_app, !list_elem_of_fmap. intros [(f & -> & Hf)|(o & -> & _)]; [|done]. simpl.
  apply elem_filter_b in Hf as [Hf _]. apply elem_filter_b in Hf as [_ Hf]. by bool_simpl.
Qed.

(** A step [s] that follows the steps [before] is in its place. *)
Definition rank (p : DeploymentPhase) : nat :=
  match p with PhIntent => 0 | PhExpand => 1 | PhDualWrite => 2 | PhBackfill => 3 | PhVerify => 4 | PhSwitch => 5 | PhContract => 6 | PhRecover => 7 end.
Definition in_place (findings : list DeploymentFinding) (before : list DeploymentStep) (s : DeploymentStep) : Prop :=
  (∀ p, p ∈ before → (rank (ds_phase p) ≤ rank (ds_phase s))%nat)
  ∧ (∀ d, d ∈ ds_dependsOn s → (∃ f, f ∈ findings ∧ df_id f = ds_id s ∧ d ∈ default [] (df_dependsOn f))
                               ∨ (∃ p, p ∈ before ∧ ds_id p = d ∧ (rank (ds_phase p) < rank (ds_phase s))%nat))
  ∧ (ds_dependsOn s = [] → ∀ p, p ∈ before → ds_phase p = ds_phase s)
  ∧ ∃ l, l ⊆ findings ∧ ds_findingIds s = df_id <$> l ∧ (∀ f, f ∈ l → df_phase f = ds_phase s ∧ df_owner f = ds_owner s)
         ∧ (ds_executableByAblo s = true ↔ ds_owner s = OwnAblo ∧ existsb blocking l = false ∧ ∃ f, f ∈ l ∧ df_code f = "lifecycle_ready").

Lemma statusOf_ready l : statusOf l = StReady → existsb blocking l = false ∧ ∃ f, f ∈ l ∧ df_code f = "lifecycle_ready".
Proof.
  unfold statusOf. destruct (existsb blocking l) eqn:Eb; [done|]. destruct (existsb (λ f, String.eqb (df_code f) "lifecycle_ready") l) eqn:Er.
  - intros _. split; [done|]. apply existsb_elem in Er as (f & Hf & E). exists f. split; [done|]. by apply String.eqb_eq.
  - destruct (forallb _ l) eqn:Ef; [done|]. intros _. exfalso. assert (forallb (λ f, bool_decide (df_severity f = SevWarning) || bool_decide (df_severity f = SevInfo)) l = true); [|congruence].
    apply forallb_forall. intros f Hf. pose proof (not_blocking_not l f Eb) as H. rewrite list_elem_of_In in H. specialize (H Hf). unfold blocking in H. by destruct (df_severity f).
Qed.

Lemma executable_spec owner l : executable owner (statusOf l) = true ↔ owner = OwnAblo ∧ existsb blocking l = false ∧ ∃ f, f ∈ l ∧ df_code f = "lifecycle_ready".
Proof.
  unfold executable. rewrite andb_true_iff, !bool_decide_eq_true. split; [intros [-> H]; split; [done|by apply statusOf_ready]|].
  intros (-> & Hb & f & Hf & Hc). split; [done|]. unfold statusOf. rewrite Hb. rewrite (proj2 (existsb_elem _ _)); [done|]. exists f. by rewrite Hc.
Qed.

(** What a phase contributes: its steps depend on what the manifest declares. *)
Lemma phase_step_contents findings phase s : s ∈ phase_steps findings phase →
  (∀ d, d ∈ ds_dependsOn s → ∃ f, f ∈ findings ∧ df_id f = ds_id s ∧ d ∈ default [] (df_dependsOn f))
  ∧ ∃ l, l ⊆ findings ∧ ds_findingIds s = df_id <$> l ∧ (∀ f, f ∈ l → df_phase f = ds_phase s ∧ df_owner f = ds_owner s)
         ∧ (ds_executableByAblo s = true ↔ ds_owner s = OwnAblo ∧ existsb blocking l = false ∧ ∃ f, f ∈ l ∧ df_code f = "lifecycle_ready").
Proof.
  unfold phase_steps. rewrite elem_of_app, !list_elem_of_fmap. intros [(f & -> & Hf)|(o & -> & Ho)].
  - apply elem_filter_b in Hf as [Hf _]. apply elem_filter_b in Hf as [Hf _]. split; [by exists f|]. exists [f]. unfold manifestStep. cbn [ds_findingIds ds_phase ds_owner ds_executableByAblo].
    split_and!; [by intros x ->%list_elem_of_singleton|done|by intros x ->%list_elem_of_singleton|apply executable_spec].
  - split; [by intros d ?%elem_of_nil|]. eexists. split_and!; [|reflexivity| |apply executable_spec].
    + intros f [Hf _]%elem_filter_b. apply elem_filter_b in Hf as [Hf _]. by apply elem_filter_b in Hf as [Hf _].
    + intros f [Hf Hfo]%elem_filter_b. apply elem_filter_b in Hf as [Hf _]. apply elem_filter_b in Hf as [_ Hf]. cbn [ds_phase groupedStep ds_owner]. by bool_simpl.
Qed.


Lemma with_barrier_place findings phase done previous s :
  (∀ d, d ∈ previous → ∃ p, p ∈ done ∧ ds_id p = d) → (previous = [] → done = []) → (∀ p, p ∈ done → (rank (ds_phase p) < rank phase)%nat) →
  s ∈ phase_steps findings phase → ∀ before, (∀ p, p ∈ before → ds_phase p = phase) → in_place findings (done ++ before) (with_barrier previous s).
Proof.
  intros Hd He Hr Hs before Hb. pose proof (phase_steps_phase _ _ _ Hs) as Hph. destruct (phase_step_contents _ _ _ Hs) as [Hdep Hl].
  unfold in_place, with_barrier. cbn [ds_phase ds_dependsOn ds_id ds_findingIds ds_owner ds_executableByAblo]. rewrite Hph. split_and!.
  - intros p [Hp|Hp]%elem_of_app; [specialize (Hr p Hp); lia|by rewrite (Hb p Hp)].
  - intros d. rewrite to_set_elem, elem_of_app. intros [H|H]; [left; by apply Hdep|]. right. destruct (ds_dependsOn s); [|by apply elem_of_nil in H].
    destruct (Hd d H) as (p & Hp & Hi). exists p. split_and!; [apply elem_of_app; by left|done|by apply Hr].
  - intros E p Hp. assert (Hn : previous = []).
    { destruct (ds_dependsOn s) as [|y ys] eqn:Ed; simpl in E; [|exfalso; assert (Hy : y ∈ to_set (y :: ys ++ [])) by (apply to_set_elem; left); rewrite E in Hy; by apply elem_of_nil in Hy].
      destruct previous as [|y ys]; [done|]. exfalso. assert (Hy : y ∈ to_set (y :: ys)) by (apply to_set_elem; left). rewrite E in Hy. by apply elem_of_nil in Hy. }
    rewrite (He Hn) in Hp. by apply Hb.
  - rewrite <- Hph. exact Hl.
Qed.

Lemma fmap_split {A B} (g : A → B) (l : list A) before y after : g <$> l = before ++ y :: after → ∃ b x a, l = b ++ x :: a ∧ before = g <$> b ∧ y = g x ∧ after = g <$> a.
Proof.
  revert before. induction l as [|z l IH]; intros before E; [by destruct before|]. destruct before as [|w before]; injection E.
  - intros <- <-. by exists [], z, l.
  - intros E' <-. destruct (IH before E') as (b & x & a & -> & -> & -> & ->). by exists (z :: b), x, a.
Qed.

Lemma app_split {A} (l1 l2 : list A) before x after : l1 ++ l2 = before ++ x :: after →
  (∃ a, l1 = before ++ x :: a) ∨ (∃ b, before = l1 ++ b ∧ l2 = b ++ x :: after).
Proof.
  revert l1. induction before as [|y before IH]; intros [|z l1] E; simpl in E; try (right; by eexists); injection E.
  - intros _ ->. left. by exists l1.
  - intros E' ->. destruct (IH l1 E') as [[a ->]|[b [-> ->]]]; [left; by exists a|right; by exists b].
Qed.

Lemma sequence_from_place findings phases : StronglySorted (λ a b, (rank a < rank b)%nat) phases → ∀ done previous,
  (∀ d, d ∈ previous → ∃ p, p ∈ done ∧ ds_id p = d) → (previous = [] → done = []) → (∀ p, p ∈ done → ∀ ph, ph ∈ phases → (rank (ds_phase p) < rank ph)%nat) →
  ∀ before s after, sequence_from phases previous findings = before ++ s :: after → in_place findings (done ++ before) s.
Proof.
  induction 1 as [|phase phases Hs IH Hall]; intros done previous Hd He Hr before s after E; [by destruct before|]. cbn [sequence_from] in E.
  apply app_split in E as [[a E]|[b [-> E]]].
  - apply fmap_split in E as (b & x & a' & E & -> & -> & ->).
    assert (Hb : ∀ y, y ∈ b ++ x :: a' → y ∈ phase_steps findings phase) by (by rewrite <- E).
    apply (with_barrier_place _ phase); [done|done|intros p Hp; apply Hr; [done|left]|apply Hb, elem_of_app; right; left|].
    intros p (y & -> & Hy)%list_elem_of_fmap. apply (phase_steps_phase findings phase y). apply Hb, elem_of_app. by left.
  - rewrite (assoc_L (++)). eapply IH; [| | |exact E].
    + intros d. destruct (phase_steps findings phase) as [|z zs] eqn:Ep; [intros H; destruct (Hd d H) as (p & Hp & Hi); exists p; by rewrite app_nil_r|].
      intros (y & -> & Hy)%list_elem_of_fmap. exists (with_barrier previous y). split; [|done]. apply elem_of_app. right. by apply list_elem_of_fmap_2.
    + destruct (phase_steps findings phase) as [|z zs]; [intros Hp; by rewrite (He Hp)|done].
    + intros p [Hp|(y & -> & Hy)%list_elem_of_fmap]%elem_of_app ph Hph; [apply Hr; [done|by right]|].
      cbn [with_barrier ds_phase]. rewrite (phase_steps_phase _ _ _ Hy). rewrite Forall_forall in Hall. by apply Hall.
Qed.

Lemma sequence_conserves phases previous findings :
  concat (ds_findingIds <$> sequence_from phases previous findings) ≡ₚ concat ((λ ph, df_id <$> List.filter (λ f, bool_decide (df_phase f = ph)) findings) <$> phases).
Proof.
  revert previous. induction phases as [|ph phases IH]; intros previous; [done|]. cbn [sequence_from]. rewrite fmap_app, concat_app, IH, <- list_fmap_compose.
  change (ds_findingIds ∘ with_barrier previous) with ds_findingIds. by rewrite phase_conserves.
Qed.

Lemma concat_map_fmap {A B C} (g : A → list B) (h : B → C) (l : list A) : concat ((λ x, h <$> g x) <$> l) = h <$> concat (g <$> l).
Proof. induction l as [|x l IH]; [done|]. rewrite !fmap_cons. simpl. by rewrite IH, fmap_app. Qed.

Lemma steps_in_place findings before s after : sequenceDeployment findings = before ++ s :: after → in_place findings before s.
Proof.
  intros E. eapply (sequence_from_place findings PHASES _ [] []); [by intros d ?%elem_of_nil|done|by intros p ?%elem_of_nil|exact E].
  Unshelve. unfold PHASES. repeat constructor.
Qed.

(** The steps of a plan carry every finding once and stand in order: each in its
    phase and after the earlier ones, waiting for what the manifest declares for it or for
    steps of an earlier phase, at once only when no phase comes before it; and the
    executor may take a step only when it is its own, a finding says the lifecycle is ready
    and none blocks. *)
Theorem findings_are_sequenced findings :
  concat (ds_findingIds <$> sequenceDeployment findings) ≡ₚ df_id <$> findings
  ∧ ∀ before s after, sequenceDeployment findings = before ++ s :: after → in_place findings before s.
Proof.
  split; [|by apply steps_in_place]. unfold sequenceDeployment. rewrite sequence_conserves, concat_map_fmap, groups_perm; [done| |].
  - rewrite <- (bool_decide_eq_true (NoDup PHASES)). vm_compute. reflexivity.
  - intros f _. unfold PHASES. destruct (df_phase f); set_solver.
Qed.

