(* ===== verification/DeploymentRuns.v ===== *)
(** * Routing and access policies

    [reachesScope] of [packages/transaction/src/schema/audit.ts] finds exactly the parent
    chains that lead to a scope root, and the audit reports exactly the models whose routing
    is narrower than their policy. *)
From S2P Require Import Prelude JsData Json JsonText SchemaJson SchemaDiff SchemaDiffFacts SchemaRisk Ddl DdlFacts SchemaRuns Deployment DeploymentChecks DeploymentPlan DeploymentFacts.
#[local] Open Scope string_scope.
#[local] Open Scope list_scope.

Section Chains.
Context (models : list (string * ModelJSON)).

(** The chains of parents, as the schema declares them. *)
Inductive leads_to_scope : string → Prop :=
  | scope_root key model : map_get key models = Some model → truthy_scope (m_scope model) = true → leads_to_scope key
  | scope_parent key model name r :
      map_get key models = Some model → (name, r) ∈ m_relations model → r_type r = BelongsTo → leads_to_scope (r_target r) → leads_to_scope key.

(** A chain without repetition, from a model to a root. *)
Fixpoint chain (key : string) (rest : list string) : Prop :=
  match rest with
  | [] => ∃ model, map_get key models = Some model ∧ truthy_scope (m_scope model) = true
  | next :: rest => (∃ model name r, map_get key models = Some model ∧ (name, r) ∈ m_relations model ∧ r_type r = BelongsTo ∧ r_target r = next) ∧ chain next rest
  end.

Lemma chain_suffix key rest k : chain key rest → k ∈ key :: rest → ∃ rest', chain k rest' ∧ ∃ pre, key :: rest = pre ++ k :: rest'.
Proof.
  revert key. induction rest as [|next rest IH]; intros key Hc Hk.
  - apply list_elem_of_singleton in Hk as ->. exists []. split; [done|by exists []].
  - apply elem_of_cons in Hk as [->|Hk]; [exists (next :: rest); split; [done|by exists []]|]. destruct Hc as [_ Hc].
    destruct (IH next Hc Hk) as (rest' & Hc' & pre & E). exists rest'. split; [done|]. exists (key :: pre). by rewrite E.
Qed.

(** Each chain can be cut short where it comes back to a model. *)
Lemma simple_chain key : leads_to_scope key → ∃ rest, chain key rest ∧ NoDup (key :: rest).
Proof.
  induction 1 as [key model Hm Hs|key model name r Hm Hr Ht _ (rest & Hc & Hn)]; [exists []; split; [by exists model|apply NoDup_singleton]|].
  destruct (decide (key ∈ r_target r :: rest)) as [Hin|Hin].
  - destruct (chain_suffix _ _ _ Hc Hin) as (rest' & Hc' & pre & E). exists rest'. split; [done|]. rewrite E in Hn. by apply NoDup_app in Hn as (_ & _ & Hn).
  - exists (r_target r :: rest). split; [|by apply NoDup_cons]. split; [|done]. by exists model, name, r.
Qed.

Lemma chain_known key rest : chain key rest → ∀ k, k ∈ key :: rest → k ∈ models.*1.
Proof.
  revert key. induction rest as [|next rest IH]; intros key Hc k Hk.
  - apply list_elem_of_singleton in Hk as ->. destruct Hc as (model & Hm & _). apply map_get_elem in Hm. by apply (list_elem_of_fmap_2 fst) in Hm.
  - destruct Hc as [(model & name & r & Hm & _) Hc]. apply elem_of_cons in Hk as [->|Hk]; [|by eapply IH]. apply map_get_elem in Hm. by apply (list_elem_of_fmap_2 fst) in Hm.
Qed.

Lemma reaches_sound fuel seen key : reachesScope fuel models seen key = true → leads_to_scope key.
Proof.
  revert seen key. induction fuel as [|fuel IH]; intros seen key; [done|]. cbn [reachesScope]. case_bool_decide; [done|].
  destruct (map_get key models) as [model|] eqn:Em; [|done]. intros [Hs|Hr]%orb_true_iff; [by eapply scope_root|].
  apply existsb_elem in Hr as ([name r] & Hin & [Ht Hr]%andb_true_iff). cbn [snd] in *. bool_simpl. eapply scope_parent; eauto.
Qed.

Lemma reaches_complete rest : ∀ fuel seen key, chain key rest → NoDup (key :: rest) → (∀ k, k ∈ key :: rest → k ∉ seen) → (length rest < fuel)%nat → reachesScope fuel models seen key = true.
Proof.
  induction rest as [|next rest IH]; intros [|fuel] seen key Hc Hn Hs Hf; try (simpl in Hf; lia); cbn [reachesScope].
  - rewrite bool_decide_false by (apply Hs; left). destruct Hc as (model & -> & ->). done.
  - rewrite bool_decide_false by (apply Hs; left). destruct Hc as [(model & name & r & -> & Hr & Ht & <-) Hc]. apply orb_true_iff. right. apply existsb_elem.
    exists (name, r). split; [done|]. cbn [snd]. rewrite bool_decide_true by done. cbn [andb]. apply NoDup_cons in Hn as [Hk Hn].
    apply IH; [done|done| |simpl in Hf; lia]. intros k Hk' [->|Hin]%elem_of_cons; [done|]. apply (Hs k); [by right|done].
Qed.

(** As much fuel as there are models, and one more, is enough. *)
Lemma reachesScope_spec key : reachesScope (S (length models)) models [] key = true ↔ leads_to_scope key.
Proof.
  split; [apply reaches_sound|]. intros (rest & Hc & Hn)%simple_chain. apply (reaches_complete rest); [done|done|by intros k _ ?%elem_of_nil|].
  assert (Hl : (length (key :: rest) ≤ length models.*1)%nat) by (apply submseteq_length, NoDup_submseteq; [done|by apply chain_known]). rewrite length_fmap in Hl. simpl in Hl. lia.
Qed.
End Chains.

(** What routes the rows of a model: its own scope, a field that names a group, or a
    parent chain to a scope. *)
Inductive routed_by (models : list (string * ModelJSON)) (model : ModelJSON) : RoutingAnchor → Prop :=
  | by_scope : truthy_scope (m_scope model) = true → routed_by models model (mkAnchor "id" None)
  | by_role roles role : m_entityRoles model = Some roles → role ∈ roles → routed_by models model (mkAnchor (fieldColumn model (role_field role)) None)
  | by_parent name r target : (name, r) ∈ m_relations model → r_type r = BelongsTo → leads_to_scope models (r_target r) → map_get (r_target r) models = Some target →
      routed_by models model (mkAnchor (r_foreignKeyColumn r) (Some (tableNameOf target (r_target r)))).

Lemma routingAnchors_spec models model a : a ∈ routingAnchors model models ↔ routed_by models model a.
Proof.
  unfold routingAnchors. rewrite !elem_of_app. split.
  - intros [H|[H|H]].
    + destruct (truthy_scope (m_scope model)) eqn:E; [|by apply elem_of_nil in H]. apply list_elem_of_singleton in H as ->. by apply by_scope.
    + apply list_elem_of_fmap in H as (role & -> & H). destruct (m_entityRoles model) as [roles|] eqn:E; [|by apply elem_of_nil in H]. by eapply by_role.
    + apply list_elem_of_omap in H as ([name r] & Hin & H). cbn [snd] in H. destruct (bool_decide (r_type r = BelongsTo)) eqn:Et; [|done]. bool_simpl.
      destruct (reachesScope _ _ _ _) eqn:Er; [|done]. cbn [andb] in H. apply reachesScope_spec in Er.
      destruct (map_get (r_target r) models) as [target|] eqn:Eg; [|done]. injection H as <-. by eapply by_parent.
  - intros [Hs|roles role Hr Hin|name r target Hin Ht Hl Hg].
    + left. rewrite Hs. left.
    + right. left. rewrite Hr. by apply (list_elem_of_fmap_2 (λ role, mkAnchor (fieldColumn model (role_field role)) None)).
    + right. right. apply list_elem_of_omap. exists (name, r). split; [done|]. cbn [snd]. apply reachesScope_spec in Hl. rewrite bool_decide_true, Hl, Hg by done. done.
Qed.

(** The audit reports a model exactly when it can be written, has not acknowledged
    that it only routes, and something routes its rows (its own scope, a field that names a
    group, or a chain of parents that leads to a scope, of any length) that its access
    policy does not follow. *)
Theorem audit_is_exact schema key :
  key ∈ auditSchemaAccessPolicies schema ↔
  ∃ model, (key, model) ∈ s_models schema ∧ m_mutable model ≠ Some false ∧ m_routingOnly model = false
           ∧ ∃ a, routed_by (s_models schema) model a ∧ policyMatches a model = false.
Proof.
  unfold auditSchemaAccessPolicies. rewrite list_elem_of_omap. split.
  - intros ([k model] & Hin & H). cbn [fst snd] in H. destruct (bool_decide (m_mutable model = Some false)) eqn:Em; [done|]. destruct (m_routingOnly model) eqn:Er; [done|]. cbn [orb] in H. bool_simpl.
    destruct (mismatched model (s_models schema)) as [|a l] eqn:E; [done|]. injection H as <-. exists model. split_and!; [done|done|done|]. exists a.
    assert (Ha : a ∈ mismatched model (s_models schema)) by (rewrite E; left). unfold mismatched in Ha. apply elem_filter_b in Ha as [Ha Hp]. apply negb_true_iff in Hp. by rewrite <- routingAnchors_spec.
  - intros (model & Hin & Hm & Hr & a & Ha & Hp). exists (key, model). split; [done|]. cbn [fst snd]. rewrite bool_decide_false, Hr by done. cbn [orb].
    assert (Hx : a ∈ mismatched model (s_models schema)) by (apply elem_filter_b; split; [by apply routingAnchors_spec|by rewrite Hp]).
    destruct (mismatched model (s_models schema)); [by apply elem_of_nil in Hx|done].
Qed.

(** * What the deployment lifecycle takes

    Where a step that the executor may take comes from, what a run of the lifecycle does on
    each of its paths, and the theorems about plans at a concrete observation. *)
#[local] Open Scope string_scope.
#[local] Open Scope list_scope.
#[local] Open Scope Z_scope.

(** ** Where a ready step comes from *)

Definition ready (f : DeploymentFinding) : bool := String.eqb (df_code f) "lifecycle_ready".

Lemma elem_concat_fmap {A B} (g : A → list B) (l : list A) y : y ∈ concat (g <$> l) ↔ ∃ x, x ∈ l ∧ y ∈ g x.
Proof.
  rewrite list_elem_of_In, in_concat. split.
  - intros (ys & Hys & Hy). rewrite <- !list_elem_of_In in *. apply list_elem_of_fmap in Hys as (x & -> & Hx). by exists x.
  - intros (x & Hx & Hy). exists (g x). rewrite <- !list_elem_of_In. split; [by apply list_elem_of_fmap_2|done].
Qed.

(** No finding of a list is ready. *)
Definition none_ready (l : list DeploymentFinding) : Prop := ∀ f, f ∈ l → ready f = false.

Lemma none_ready_nil : none_ready [].
Proof. by intros f ?%elem_of_nil. Qed.
Lemma none_ready_one f : ready f = false → none_ready [f].
Proof. by intros H g ->%list_elem_of_singleton. Qed.
Lemma none_ready_app l1 l2 : none_ready l1 → none_ready l2 → none_ready (l1 ++ l2).
Proof. intros H1 H2 f [Hf|Hf]%elem_of_app; auto. Qed.
Lemma none_ready_if (b : bool) l1 l2 : none_ready l1 → none_ready l2 → none_ready (if b then l1 else l2).
Proof. by destruct b. Qed.
Lemma none_ready_fmap {A} (g : A → DeploymentFinding) l : (∀ x, ready (g x) = false) → none_ready (g <$> l).
Proof. by intros H f (x & -> & _)%list_elem_of_fmap. Qed.
Lemma none_ready_omap {A} (g : A → option DeploymentFinding) l : (∀ x f, g x = Some f → ready f = false) → none_ready (omap g l).
Proof. intros H f (x & _ & Hx)%list_elem_of_omap. by eapply H. Qed.
Lemma none_ready_concat {A} (g : A → list DeploymentFinding) l : (∀ x, none_ready (g x)) → none_ready (concat (g <$> l)).
Proof. intros H f (x & _ & Hx)%elem_concat_fmap. by eapply H. Qed.
Lemma none_ready_filter (p : DeploymentFinding → bool) l : none_ready l → none_ready (List.filter p l).
Proof. intros H f [Hf _]%elem_filter_b. by apply H. Qed.
#[local] Hint Resolve none_ready_nil none_ready_one none_ready_app none_ready_if none_ready_fmap none_ready_omap none_ready_concat none_ready_filter : core.

(** Splits a list of findings at its appends, and only there. *)
#[local] Ltac split_ready := repeat match goal with |- none_ready (_ ++ _) => apply none_ready_app end.

Lemma physical_none_ready schema database direction : none_ready (reconcileSchemaToDatabase schema database direction).
Proof.
  unfold reconcileSchemaToDatabase. destruct database as [db|]; [|by apply none_ready_one]. apply none_ready_concat. intros [key model]. unfold model_findings.
  destruct (is_control model); [done|]. destruct (map_get (tableNameOf model key) (db_tables db)) as [table|]; [|by apply none_ready_one].
  split_ready.
  - apply none_ready_concat. intros rc. unfold column_findings. destruct (map_get _ _) as [c|]; [|apply none_ready_one; by destruct (rc_primary rc)].
    split_ready; try (apply none_ready_if; by auto). destruct (dc_nullCount c); [|done]. apply none_ready_if; by auto.
  - apply none_ready_omap. intros column f. destruct (is_Some_b _); [done|]. by intros [= <-].
  - apply none_ready_omap. intros p f. cbv zeta. destruct (_ && _); [|done]. by intros [= <-].
  - apply none_ready_omap. intros r f. cbv zeta. destruct (negb _); [done|]. destruct (List.find _ _) as [k|]; [|by intros [= <-]]. destruct (dk_validated k); [done|]. by intros [= <-].
  - unfold table_findings. split_ready; apply none_ready_if; by auto.
Qed.

Lemma change_none_ready active source hints backfills database : none_ready (reconcileSourceToActiveResult active source hints backfills database).2.
Proof.
  unfold reconcileSourceToActiveResult. cbv zeta. cbn [snd].
  assert (He : ∀ code category severity owner what to signals, String.eqb code "lifecycle_ready" = false → none_ready (evidence_finding code category severity owner what to signals)).
  { intros code category severity owner what to [|s signals] E; [done|]. by apply none_ready_one. }
  split_ready; [|by apply He..|].
  - apply none_ready_fmap. intros s. unfold ready. by destruct (sg_code s) eqn:E; simpl; rewrite E.
  - intros f (g & -> & Hg)%list_elem_of_fmap. apply elem_filter_b in Hg as [Hg _]. apply list_elem_of_omap in Hg as (step & _ & Hg).
    assert (Hr : ready g = false) by (destruct step; simpl in Hg; simplify_eq; done). unfold with_backfill. by destruct (_ && _).
Qed.

Lemma gate_ready m g : ready (gate_finding m g) = true →
  phase_index (g_phase g) ≤ phase_index (mf_targetPhase m) ∧ g_status g = GateReady ∧ unmet (mf_gates m) g = [] ∧ df_owner (gate_finding m g) = g_owner g.
Proof.
  unfold ready, gate_finding. destruct (split_resource (g_resource g)) as [a b]. cbn [df_code df_owner].
  destruct (Z.ltb_spec (phase_index (mf_targetPhase m)) (phase_index (g_phase g))); [done|]. destruct (_ && _); [done|].
  destruct (bool_decide (unmet (mf_gates m) g = [])) eqn:E; [|done]. bool_simpl. by destruct (g_status g).
Qed.

(** What makes a finding ready: a gate of the manifest that is due and ready, with nothing
    to wait for, or a finding that was handed in. *)
Definition ready_gate (o : DeploymentObservation) (id : string) (owner : DeploymentOwner) : Prop :=
  ∃ m g, in_manifest (ob_intent o) = Some m ∧ g ∈ mf_gates m ∧ id = df_id (gate_finding m g) ∧ g_owner g = owner ∧ g_status g = GateReady
         ∧ phase_index (g_phase g) ≤ phase_index (mf_targetPhase m) ∧ unmet (mf_gates m) g = [].
Definition handed_in (o : DeploymentObservation) (id : string) (owner : DeploymentOwner) : Prop :=
  ∃ f, f ∈ ob_supplemental o ∧ df_code f = "lifecycle_ready" ∧ df_id f = id ∧ df_owner f = owner.

Lemma ready_source o f : f ∈ all_findings o → ready f = true → ready_gate o (df_id f) (df_owner f) ∨ handed_in o (df_id f) (df_owner f).
Proof.
  intros Hf Hr. unfold all_findings in Hf. cbv zeta in Hf. rewrite !elem_of_app in Hf. unfold ready in Hr. apply String.eqb_eq in Hr as Hc.
  assert (Hn : ∀ l, none_ready l → f ∈ l → False) by (intros l Hl Hin; specialize (Hl f Hin); unfold ready in Hl; congruence).
  destruct Hf as [Hf|[Hf|[Hf|[Hf|[Hf|[Hf|Hf]]]]]].
  - exfalso. eapply Hn; [|exact Hf]. by apply none_ready_fmap.
  - left. unfold reconcileDeploymentManifest in Hf. destruct (in_manifest (ob_intent o)) as [m|] eqn:Em; [|by apply elem_of_nil in Hf]. apply elem_of_app in Hf as [Hf|Hf].
    + apply list_elem_of_fmap in Hf as (g & -> & Hg). destruct (gate_ready m g) as (H1 & H2 & H3 & H4); [unfold ready; by rewrite Hc|]. exists m, g. by rewrite H4.
    + exfalso. eapply Hn; [|exact Hf]. apply none_ready_if; [|done]. apply none_ready_omap. intros r g. unfold mixed_finding. destruct (_ && _); [|done].
      destruct (split_resource r). by intros [= <-].
  - exfalso. eapply Hn; [apply change_none_ready|exact Hf].
  - exfalso. eapply Hn; [apply physical_none_ready|exact Hf].
  - exfalso. eapply Hn; [|exact Hf]. apply none_ready_filter. destruct (ob_active o); [apply physical_none_ready|done].
  - exfalso. eapply Hn; [|exact Hf]. unfold alignment_evidence. destruct (List.filter _ _); [done|]. by apply none_ready_one.
  - right. by exists f.
Qed.

(** ** What a plan lets the executor take *)

Lemma unique_incl l f : f ∈ unique_findings l → f ∈ l.
Proof.
  unfold unique_findings. assert (H : ∀ (acc : list (string * DeploymentFinding)), f ∈ (foldl (λ m f, map_set (df_id f) f m) acc l).*2 → f ∈ acc.*2 ∨ f ∈ l).
  { induction l as [|g l IH]; intros acc Hf; [by left|]. cbn [foldl] in Hf. destruct (IH _ Hf) as [Ha|Hl]; [|right; by right].
    apply list_elem_of_fmap in Ha as ([k v] & -> & Hkv). apply map_set_elem in Hkv as [[= -> ->]|Hkv]; [right; by left|left]. by apply (list_elem_of_fmap_2 snd) in Hkv. }
  intros Hf. destruct (H [] Hf) as [Hn|]; [by apply elem_of_nil in Hn|done].
Qed.

Lemma plan_finding_source o f : f ∈ pl_findings (buildSchemaDeploymentPlan o) → ∃ f0, f0 ∈ all_findings o ∧ df_id f0 = df_id f ∧ df_code f0 = df_code f ∧ df_owner f0 = df_owner f.
Proof.
  cbn [buildSchemaDeploymentPlan pl_findings]. intros (g & -> & Hg%unique_incl)%list_elem_of_fmap. exists g. split; [done|]. unfold accept. by destruct (_ && _).
Qed.

(** A step that may be taken carries a finding that makes it ready. *)
Definition grounded (o : DeploymentObservation) (i : string) : Prop :=
  ∃ s id, s ∈ pl_steps (buildSchemaDeploymentPlan o) ∧ ds_id s = i ∧ ds_owner s = OwnAblo ∧ id ∈ ds_findingIds s ∧ (ready_gate o id OwnAblo ∨ handed_in o id OwnAblo).

Lemma to_apply_grounded o i : i ∈ to_apply (buildSchemaDeploymentPlan o) → grounded o i.
Proof.
  unfold to_apply. intros (s & Hs & E)%list_elem_of_omap. destruct (ds_executableByAblo s && _) eqn:Ex; [|done]. injection E as <-. apply andb_true_iff in Ex as [Ex _].
  pose proof Hs as Hs'. cbn [buildSchemaDeploymentPlan pl_steps] in Hs'. apply list_elem_of_split in Hs' as (before & after & Hs').
  destruct (steps_in_place _ before s after Hs') as (_ & _ & _ & l & Hl & Hids & Hat & Hex).
  apply Hex in Ex as (Ho & _ & f & Hf & Hc). exists s, (df_id f). split_and!; [done|done|done|rewrite Hids; by apply list_elem_of_fmap_2|].
  destruct (plan_finding_source o f (Hl _ Hf)) as (f0 & Hf0 & Hi & Hc0 & Ho0). rewrite <- Hi. rewrite <- Ho, <- (proj2 (Hat f Hf)), <- Ho0.
  apply ready_source; [done|]. unfold ready. apply String.eqb_eq. congruence.
Qed.

Lemma apply_until_whole fails ids : (apply_until fails ids).2 = true → (apply_until fails ids).1 = ids ∧ ∀ i, fails = Some i → i ∉ ids.
Proof.
  induction ids as [|i ids IH]; [by intros _; split; [|intros i _ ?%elem_of_nil]|]. cbn [apply_until]. case_bool_decide as Hi; [done|].
  destruct (apply_until fails ids) as [l b]. cbn [fst snd] in *. intros Hb. destruct (IH Hb) as [-> Hn]. split; [done|].
  intros j -> [->|Hj]%elem_of_cons; [done|]. by apply (Hn j).
Qed.

Lemma apply_until_stops fails ids : (apply_until fails ids).2 = false → ∃ i rest, fails = Some i ∧ ids = (apply_until fails ids).1 ++ i :: rest.
Proof.
  induction ids as [|i ids IH]; [done|]. cbn [apply_until]. case_bool_decide as Hi; [intros _; by exists i, ids|].
  destruct (apply_until fails ids) as [l b]. cbn [fst snd] in *. intros Hb. destruct (IH Hb) as (j & rest & Hj & ->). by exists j, rest.
Qed.

(** What a run has taken. *)
Definition taken (r : lifecycle_result) : list string := match r with Planned _ => [] | Applied _ ids _ _ => ids | Refused ids => ids end.

(** A run of the lifecycle plans what it observed and, unless it is asked to apply,
    does no more. It takes nothing when the plan is blocked, nothing can apply or approval
    is refused; else it takes the ready steps of its own in their order, up to the one at
    which applying throws, and a run that takes them all ends with the plan of what is
    observed then. Each step it takes is its own and stands on a gate of the manifest that
    is due, ready and waits for nothing, or on a finding that was handed in. *)
Theorem lifecycle_takes_what_is_ready e apply :
  let plan := buildSchemaDeploymentPlan (ef_observe e) in
  let r := runSchemaDeploymentLifecycle e apply in
  (∀ i, i ∈ taken r → grounded (ef_observe e) i)
  ∧ match r with
    | Planned p => apply = false ∧ p = plan
    | Applied p ids again recorded => apply = true ∧ p = plan ∧ pl_outcome plan ≠ OutBlocked ∧ ef_approve e ≠ Some false ∧ ids = to_apply plan
        ∧ (∀ i, ef_fails_at e = Some i → i ∉ ids) ∧ again = buildSchemaDeploymentPlan (ef_observe_again e) ∧ recorded = ef_record e
    | Refused ids => apply = true
        ∧ (ids = [] ∧ (pl_outcome plan = OutBlocked ∨ ef_apply e = false ∨ ef_approve e = Some false)
           ∨ ∃ i rest, ef_fails_at e = Some i ∧ to_apply plan = ids ++ i :: rest)
    end.
Proof.
  cbv zeta. unfold runSchemaDeploymentLifecycle. destruct apply; cbn [negb]; [|split; [by intros i ?%elem_of_nil|done]].
  set (plan := buildSchemaDeploymentPlan (ef_observe e)). case_bool_decide as Hb; [split; [by intros i ?%elem_of_nil|split; [done|left; by auto]]|].
  destruct (ef_apply e) eqn:Ea; cbn [negb]; [|split; [by intros i ?%elem_of_nil|split; [done|left; by auto]]].
  case_bool_decide as Hp; [split; [by intros i ?%elem_of_nil|split; [done|left; by auto]]|].
  destruct (apply_until (ef_fails_at e) (to_apply plan)) as [ids [|]] eqn:E; cbn [taken].
  - destruct (apply_until_whole (ef_fails_at e) (to_apply plan)) as [H1 H2]; [by rewrite E|]. rewrite E in H1. cbn [fst] in H1. subst ids. split; [by intros i Hi%to_apply_grounded|]. by split_and!.
  - destruct (apply_until_stops (ef_fails_at e) (to_apply plan)) as (i & rest & H1 & H2); [by rewrite E|]. rewrite E in H2. cbn [fst] in H2.
    split; [|split; [done|right; by exists i, rest]]. intros j Hj. apply to_apply_grounded. fold plan. rewrite H2. apply elem_of_app. by left.
Qed.

(** ** Concrete plans *)

Definition a_database (owner : ownership) (tables : list (string * DatabaseTableSnapshot)) : DatabaseSnapshot := mkSnapshotDb "app" owner tables.
Definition a_snapshot_column (type : string) (nullable primary : bool) : DatabaseColumnSnapshot := mkColumnSnapshot type nullable primary false None.
Definition a_table (columns : list (string * DatabaseColumnSnapshot)) : DatabaseTableSnapshot := mkTableSnapshot columns [] [] None None (Some true).
Definition a_gate (id resource : string) (phase : DeploymentPhase) (status : gate_status) (dependsOn : list string) (approval : option string) : DeploymentGate :=
  mkGate id phase OwnAblo resource status dependsOn approval.

Definition tasks_schema : SchemaJSON := a_schema [("tasks", a_model [("title", a_field FtString false false); ("dueAt", a_field FtDate true false)])].
Definition tasks_before : SchemaJSON := a_schema [("tasks", a_model [("title", a_field FtString false false)])].
Definition tasks_table : DatabaseTableSnapshot := a_table
  [("id", a_snapshot_column "text" false true); ("title", a_snapshot_column "text" false false); ("due_at", a_snapshot_column "timestamptz" true false); ("created_by", a_snapshot_column "text" true false);
   ("created_at", a_snapshot_column "timestamptz" true false)].
Definition a_manifest : DeploymentManifest := mkManifest "due" true PhVerify
  [a_gate "add" "tasks.dueAt" PhExpand GateSatisfied [] None; a_gate "fill" "tasks.dueAt" PhBackfill GateReady ["add"] None;
   a_gate "drop" "tasks.dueOn" PhContract GatePending ["fill"] None].
Definition observed : DeploymentObservation :=
  mkObservation tasks_schema (Some (mkActive "s1" 1 "h" tasks_before)) (Some (a_database ByApplication [("tasks", tasks_table)])) (mkIntent no_hints [] false (Some a_manifest)) [].
Definition an_effect : lifecycle_effects := mkEffects observed (Some true) true None observed true.

Lemma unblocked_plan_is_answered_witness :
  pl_outcome (buildSchemaDeploymentPlan observed) = OutReady
  ∧ (∀ g, g ∈ mf_gates a_manifest → gate_due_and_met false a_manifest g)
  ∧ auditSchemaAccessPolicies (ob_source observed) = []
  ∧ database_stands tasks_schema (a_database ByApplication [("tasks", tasks_table)]).
Proof.
  destruct (unblocked_plan_is_answered observed) as (_ & _ & Hg & Ha & db & Hdb & Hs).
  - rewrite <- (bool_decide_eq_true (NoDup (df_id <$> all_findings observed))). by vm_compute.
  - intros H. by vm_compute in H.
  - injection Hdb as <-. split_and!; [by vm_compute|intros g Hin; by apply Hg|done|by apply Hs].
Defined.

Lemma findings_are_sequenced_witness :
  ds_id <$> pl_steps (buildSchemaDeploymentPlan observed) = ["intent:application"; "manifest:due:add"; "expand:ablo"; "manifest:due:fill"; "manifest:due:drop"]
  ∧ concat (ds_findingIds <$> pl_steps (buildSchemaDeploymentPlan observed)) ≡ₚ df_id <$> pl_findings (buildSchemaDeploymentPlan observed).
Proof. split; [by vm_compute|exact (proj1 (findings_are_sequenced (pl_findings (buildSchemaDeploymentPlan observed))))]. Defined.

Lemma lifecycle_takes_what_is_ready_witness :
  taken (runSchemaDeploymentLifecycle an_effect true) = ["manifest:due:fill"] ∧ grounded observed "manifest:due:fill".
Proof.
  assert (E : taken (runSchemaDeploymentLifecycle an_effect true) = ["manifest:due:fill"]) by (by vm_compute). split; [exact E|].
  apply (proj1 (lifecycle_takes_what_is_ready an_effect true)). rewrite E. left.
Defined.

(** An ordinary step of the executor is never ready: without a manifest and without
    findings handed in, applying takes nothing. *)
Lemma own_work_is_left o : in_manifest (ob_intent o) = None → ob_supplemental o = [] → to_apply (buildSchemaDeploymentPlan o) = [].
Proof.
  intros Hm Hs. destruct (to_apply (buildSchemaDeploymentPlan o)) as [|i l] eqn:E; [done|]. exfalso.
  destruct (to_apply_grounded o i) as (s & id & _ & _ & _ & _ & [(m & g & H & _)|(f & H & _)]); [rewrite E; left|congruence|rewrite Hs in H; by apply elem_of_nil in H].
Qed.

Definition hosted : DeploymentObservation := mkObservation tasks_schema None (Some (a_database ByAblo [])) no_intent [].
Definition repeated : DeploymentManifest := mkManifest "due" true PhVerify [a_gate "add" "tasks.dueAt" PhExpand GatePending [] None; a_gate "add" "tasks.dueOn" PhExpand GateSatisfied [] None].
Definition observed_twice : DeploymentObservation := mkObservation (ob_source observed) (ob_active observed) (ob_database observed) (mkIntent no_hints [] false (Some repeated)) [].

(** Some deployments that look ready are not: a database of
    the executor's own whose tables are all missing has a ready plan with a step of its own
    and applying it takes nothing, and of two gates with one id a satisfied one hides a
    pending one that is due. *)
Theorem some_plans_do_nothing :
  pl_outcome (buildSchemaDeploymentPlan hosted) = OutReady
  ∧ (λ s, (ds_id s, ds_status s)) <$> pl_steps (buildSchemaDeploymentPlan hosted) = [("expand:ablo", StAdvisory)]
  ∧ taken (runSchemaDeploymentLifecycle (mkEffects hosted None true None hosted true) true) = []
  ∧ existsb blocking (all_findings observed_twice) = true
  ∧ pl_outcome (buildSchemaDeploymentPlan observed_twice) = OutReady.
Proof. vm_compute. by split_and!. Qed.
